(* ===== verification/_CoqProject ===== *)
-Q . S2P
Prelude.v
Deps.v
Slab.v
RingBuffer.v
ListObject.v
Helpers.v
F64.v
Codec.v
Routing.v
Resp.v
RespProofs.v
RespCommands.v
Native.v
FastKinds.v
StringBits.v
Fast.v
FastProofs.v
FastClient.v
Transactions.v
Gates.v
Wal.v
Snapshot.v
Recovery.v
Segments.v
SegmentProofs.v
WalPipeline.v
WalPipelineProofs.v
SnapshotStore.v
PersistenceProofs.v
Types.v
HashSet.v
ZSet.v
Bucket.v
BucketCore.v
BucketKeys.v
BucketList.v
BucketSet.v
BucketZSet.v
BucketHash.v
BucketHashReads.v
BucketHashTtl.v
Store.v
StoreOps.v
Waiters.v
FlatMap.v
FlatMapProofs.v
FlatEviction.v
FlatRefine.v
FlatRun.v
KeyScan.v
KeyedTable.v
SessionSlots.v
SessionSlotsProofs.v
EmbeddedShard.v
EmbeddedShardProofs.v
Engine.v
EngineProofs.v
PointCommands.v
EngineCommands.v
EngineCommandProofs.v
EmbeddedStore.v
EmbeddedStoreProofs.v
EmbeddedStoreRun.v
Lcs.v
StringCommands.v
StringCommandsProofs.v
Demo.v
StructureProperties.v
BucketProperties.v
StoreProperties.v
ProtocolProperties.v
FastProperties.v
TransactionProperties.v
KeyScanProperties.v
FlatMapProperties.v
EmbeddedShardProperties.v
EmbeddedStoreProperties.v
StringCommandsProperties.v
EngineProperties.v
PersistenceProperties.v
