(* ===== verification/Prelude.v ===== *)
(** * shard-kv: a verified model

    ** The program

    shard-kv is a sharded in-memory key-value store that speaks RESP and a
    binary protocol, with a Redis-compatible command set, a write-ahead log and
    snapshots.  The parts this development models, under src/crates:

    - the string key space of a shard (shardmap/src/storage/flat_map.rs and its
      submodules): a hash table of values with deadlines and governance bytes, a
      memory limit with LRU and LFU eviction, a pool of value buffers;
    - the engine (storage/engine.rs): one worker thread per shard that applies
      operations to its key space and hands a record of every mutation to the
      log; the point commands of commands/key and commands/string on top of it;
    - the object store (redis_compat/storage): lists, sets, sorted sets and
      hashes with deadlines on keys and hash fields, in 256 buckets per shard,
      with counters of objects, routed access and blocking notification;
    - the embedded store (storage/embedded_store): shards that keep strings in a
      key space and in session slots under one memory limit, the objects beside
      them, the key scan over both, and the string commands of Redis
      (redis_compat/commands/string) on top;
    - persistence (persistence.rs, persistence/): record and snapshot codecs,
      segments on a disk, the pipeline from the shards to the log, recovery;
    - the protocols (protocol/resp.rs, fast.rs, native_redis.rs) and the Rust
      client's side of them (shardcache-client-rs);
    - routing of keys to shards, in the server and in the client;
    - transactions (server/transactions.rs): the conversation of a connection,
      the shards of a command, the gates that isolate EXEC.

    A request is parsed by a protocol, routed by its key, executed on a shard
    (string commands on the flat map, object commands on a bucket), logged by
    the shard, and replayed from snapshot and log at the next start.  The server
    serves either the engine, which logs, or the embedded store, which has the
    Redis commands.

    ** Files

    - [Prelude]: bytes, machine integers with their wrap-around, panics as
      [None], the tactics, the hint databases [shardkv] and [shardkv_rw], and
      list and map lemmas.
    - [Deps]: what the code takes from other crates, as classes with their
      documented laws: the key hash ([Hashing]), a raw hash table ([HashTable]),
      the iteration order of a table ([TableOrder]) and the order-statistics set
      ([IndexTreeSet]); [Concrete] has an instance of each.
    - Object store.  [Slab] (slab.rs, slot_map.rs), [RingBuffer] (list_chunk.rs,
      list_deque.rs), [ListObject], [HashSet], [ZSet] (the objects), [Helpers],
      [F64], [Types]; [Bucket] (the abstract key space [AState] and the
      representation [bucket_rep]), [BucketCore], [BucketKeys], [BucketList],
      [BucketSet], [BucketZSet], [BucketHash], [BucketHashReads],
      [BucketHashTtl] (the commands, each with an abstract counterpart [a_...]);
      [Store] (store.rs, access.rs, with the classes [ObjectWrite] and
      [ObjectCreate], discharged in [StoreOps]); [Waiters] (the interleavings of
      waiters and notifiers).
    - Protocols.  [Codec] (outcomes, UTF-8, integers as bytes and text), [Resp],
      [RespProofs], [RespCommands], [Native], [FastKinds],
      [Fast], [FastProofs], [FastClient]; [Routing] (server and client).
    - Transactions.  [Transactions] (the class [Engine] is command parsing and
      execution), [Gates] (threads that take and release the gates, begin, wait
      inside and end commands; what a command does to the store is not part of
      it).
    - Persistence.  [Wal] (classes [Crc32] and [Lz4]), [Snapshot], [Recovery], [Segments], [SegmentProofs] (a disk whose
      files have content and a synced length; a crash keeps a prefix),
      [WalPipeline], [WalPipelineProofs], [SnapshotStore] (class [Lz4Frame]),
      [PersistenceProofs].
    - String key space.  [FlatMap] (the code), [FlatMapProofs] (the invariant
      [flat_ok], the abstraction [contents] : a map from keys to stored
      entries), [FlatEviction] (what eviction removes, that it ends), [FlatRefine]
      (requests, [flat_spec], one step), [FlatRun] (sequences of requests, the
      limit along a run, snapshots and loading).
    - Embedded store.  [KeyScan] (key_scan.rs); [KeyedTable],
      [SessionSlots], [SessionSlotsProofs] (session_slots.rs: slabs of packed
      chunks per session, the abstraction [slots_map]); [EmbeddedShard],
      [EmbeddedShardProofs] (shard.rs: key space and sessions as one map, [shows],
      and requests on it, [shard_spec]);
      [EmbeddedStore] (core.rs, point.rs, write.rs, lifecycle.rs and
      objects/strings.rs, keys.rs, access.rs, as computations on the store's
      state in the monad [ES]), [EmbeddedStoreProofs] (what each computation
      does to the strings and objects a store stands for, [spaces]),
      [EmbeddedStoreRun] (commands, their specification [key_spec], runs).
    - String commands.  [StringBits] (bit_shared.rs, bitfield.rs), [Lcs] (lcs.rs), [StringCommands] (the [execute] of the
      commands), [StringCommandsProofs] (counters).
    - Engine.  [Engine] (worker, operations, log records; the class [WalSink] is
      the log appender, implemented by the appender and channel of
      [WalPipeline]), [EngineProofs] (the log covers the map; restarts),
      [PointCommands] (parsers and catalog), [EngineCommands] (the handle and
      the commands), [EngineCommandProofs] (the engine as one map).
    - [Demo] and the property files: [StructureProperties], [BucketProperties],
      [StoreProperties], [ProtocolProperties],
      [FastProperties], [TransactionProperties],
      [KeyScanProperties], [FlatMapProperties],
      [EmbeddedShardProperties], [EmbeddedStoreProperties],
      [StringCommandsProperties], [EngineProperties], [PersistenceProperties].  The properties numbered C1
      to C40 are theorems of these files, with witnesses on concrete states;
      further theorems there are not numbered.

    ** How the model corresponds to the code

    A Rust method that changes its receiver is a function that returns the new
    state.  A panic ([expect], an index out of range, an arithmetic underflow) is
    [None] (or [Panic] of [Outcome]), so a theorem that a function returns a
    result also says it does not panic.  A [u64] or [i64] is a [Z], wrapped or
    saturated as the code does; a length is a [nat] or a [Z].  Reads of the clock
    are arguments, or, for the commands of the engine and of the embedded store, a
    stream of readings.  The validators an extension may install are functions of
    the model, what observers are told is a list in the state.
    Whether a shared buffer has another handle ([Bytes::try_into_mut]) is an
    argument.  Errors are values of a sum or of [Outcome].  Threads are step
    relations or lists of events, and the theorems hold for every interleaving.
    A callback that emits items returns the list of items.

    Fuel: the binary search and removal loops of the objects have one more than
    the number of elements; the RESP decoder ([resp_fuel]) and the native decoder
    ([native_fuel]) have their nesting bounds; a variable-length integer has five
    rounds; the eviction rounds ([evict_fuel], [shard_fuel]) have one more than
    the number of entries and chunks; the parser of BITFIELD has the number of
    arguments; the walk of LCS has the sum of the two lengths.  Each is proved to be enough: no theorem assumes that fuel remains.

    ** What the theorems show

    - Strings: [flat_map_refines] (any sequence of requests is a run of a map
      that loses only expired entries and counted evictions),
      [flat_accounting_exact], [memory_limit_holds], [lfu_evicts_coldest],
      [snapshot_restores_live].
    - Embedded store: [session_slots_refine] (a map of maps), [shard_refines] and
      [shard_limit_holds] (a shard is one map, within its limit after every
      write of a value or chunk),
      [store_commands_refine] (the store is one key space: every command answers
      as its specification at one instant of its run), [one_type_per_key] (no key
      has a string and an object), [global_scan_covers] (SCAN ends and hands out
      every key).
    - String commands: [bitfield_refines], [bitfield_roundtrip],
      [bitpos_finds_first], [lcs_optimal] (both algorithms find the longest
      common subsequence), [incrby_accumulates] (a counter from argument text to
      stored text).
    - Engine: [shard_log_covers_map], [restart_keeps_live], [engine_is_a_map],
      [set_option_parsers_agree].
    - Objects: [write_commands_refine], [object_write_counts],
      [object_create_counts], [object_read_answers], [reachable_counts],
      [scan_covers], [zset_trace_refines] and the trace theorems of the other
      objects; [no_lost_wakeup] for blocking commands.
    - Persistence: [shutdown_recovers], [crash_keeps_prefixes],
      [flush_is_durable], [snapshot_recovers], and the codecs
      ([wal_torn_segment], [snapshot_stream_agrees]).
    - Protocols and routing: round trips, stability under more input, typing of
      what is decoded, and agreement of client and server
      ([resp_roundtrip], [resp_decode_stable], [fast_request_roundtrip],
      [fast_request_safe], [client_request_decoded], [native_roundtrip],
      [client_server_route], [routed_get_reaches_shard]).
    - Transactions: [transaction_conversation], [transactions_exclusive] (while a
      transaction executes, nothing that began after its MULTI executes on its
      shards), [gates_deadlock_free] (and what a waiting BLPOP does to its shard).
    - Deviations of the code from its documentation or from Redis, each as a
      theorem about the code: [slot_key_not_found], [restored_outlive_new],
      [expire_condition_ignored], [hsetex_past_drifts],
      [shard_transform_unbounded], [published_read_misses],
      [transform_hidden_by_chunk], [too_many_arguments_refused],
      [transform_race_two_types] (a type check and a write under different
      locks), [set_keeps_session_chunk], [vector_prefix_is_wrongtype],
      [setrange_panics], [setrange_empty_creates], [scan_cursor_wraps] and others
      in the property files.

    ** Not modelled

    Sockets, I/O errors, the durability of directory entries, the TCP export of
    the log; values on disk or in object storage (kv_overflow.rs,
    object_overflow.rs, and with them offloads and faults of the flat map); the
    experimental point storage, telemetry, prefix eviction and the semantic index
    of the flat map, which are optional features.  Of the embedded store: batches,
    the single-threaded, owned and packed views (unsafe variants of the modelled
    operations), the semantic cache, vector sets beyond their place in the key
    space, streams, modules, and the writers that encode an answer without
    building its frame.  Bindings, runtime and benchmarks.  An access of the
    object store is one atomic step: a read that finds an expired object releases
    its lock before it takes the write lock, and that window is not interleaved;
    the commands of [store_commands_refine] run one after the other, on a store
    that routes by the full key and has no memory limit.  Of the server's
    paths to a command, the gates know those that ask the transaction
    coordinator; a direct shard port does not.  Printing and parsing of
    non-integral doubles are parameters.

    What is left is outside the model for these reasons: the transport and the
    overflow storage are input and output; the request dispatcher of the server
    (direct_protocol/request.rs) selects among the modelled commands and their
    unmodelled direct writers; the vector sets rest on floating-point kernels of
    the target machine. *)

From stdpp Require Export base numbers list list_numbers option gmap sorting strings.
From Stdlib Require Export ZArith Lia.

#[global] Open Scope Z_scope.
#[global] Open Scope nat_scope.

(** ** Bytes

    [Bytes] of [crates/shardmap/src/storage.rs] is [Vec<u8>].  A byte is a
    [Z]; nothing in the object store depends on the range of a byte, only on
    byte equality and on the lexicographic order of [Vec<u8>]'s [Ord]. *)
Abbreviation Bytes := (list Z).

(** [Ord for Vec<u8>]: lexicographic comparison. *)
Fixpoint bytes_cmp (x y : Bytes) : comparison :=
  match x, y with
  | [], [] => Eq
  | [], _ :: _ => Lt
  | _ :: _, [] => Gt
  | a :: x', b :: y' =>
      match Z.compare a b with
      | Eq => bytes_cmp x' y'
      | c => c
      end
  end.

Definition bytes_eqb (x y : Bytes) : bool := bool_decide (x = y).

(** [u8::to_ascii_lowercase] and [<[u8]>::eq_ignore_ascii_case]. *)
Definition to_ascii_lower (b : Z) : Z := if ((65 <=? b) && (b <=? 90))%Z then (b + 32)%Z else b.
Definition eq_ignore_ascii_case (x y : Bytes) : bool :=
  bytes_eqb (map to_ascii_lower x) (map to_ascii_lower y).

Definition bytes_le (x y : Bytes) : Prop := bytes_cmp x y ≠ Gt.

(** ** Machine integers

    [usize] values that are lengths or indices are [nat]; [i64] and [u64]
    values are [Z] with the wrap-around of [as] casts written out. *)
Definition two64 : Z := 18446744073709551616%Z.
Definition i64_MAX : Z := 9223372036854775807%Z.
Definition i64_MIN : Z := (-9223372036854775808)%Z.
Definition u64_MAX : Z := 18446744073709551615%Z.

Definition is_i64 (z : Z) : Prop := (i64_MIN ≤ z ≤ i64_MAX)%Z.
Definition is_u64 (z : Z) : Prop := (0 ≤ z ≤ u64_MAX)%Z.

Definition wrap_u64 (z : Z) : Z := (z mod two64)%Z.
Definition wrap_i64 (z : Z) : Z :=
  let u := wrap_u64 z in if (u <=? i64_MAX)%Z then u else (u - two64)%Z.

(** [n as i64] for a [usize] [n]. *)
Definition usize_as_i64 (n : nat) : Z := wrap_i64 (Z.of_nat n).
(** [b as i64]. *)
Definition bool_as_i64 (b : bool) : Z := if b then 1%Z else 0%Z.
(** [u64::saturating_sub]. *)
Definition u64_saturating_sub (a b : Z) : Z := Z.max 0 (a - b).
(** [i64::checked_add]. *)
Definition i64_checked_add (a b : Z) : option Z :=
  let s := (a + b)%Z in
  if ((i64_MIN <=? s) && (s <=? i64_MAX))%Z then Some s else None.

(** ** The error monad

    A computation that may panic ([expect], slice indexing, [unreachable!])
    is an [option]: [None] is the panic.  stdpp's [mbind] notation sequences
    it; [expect] marks the places where the source calls [.expect]. *)
Definition expect {A} (o : option A) : option A := o.

(** Folds whose step can panic, for the [for] loops of the source. *)
Fixpoint foldM {A B} (f : B → A → option B) (acc : B) (l : list A) : option B :=
  match l with
  | [] => Some acc
  | x :: l' => acc' ← f acc x; foldM f acc' l'
  end.

(** [iter().position(p)]. *)
Fixpoint position {A} (p : A → bool) (l : list A) : option nat :=
  match l with
  | [] => None
  | x :: l' => if p x then Some 0 else S <$> position p l'
  end.

(** [Vec::remove(i)]: the removed value and the rest; [None] is the panic of
    an index out of range. *)
Definition vec_remove {A} (i : nat) (l : list A) : option (A * list A) :=
  x ← l !! i; Some (x, delete i l).

(** [Vec::insert(i, x)]; [None] is the panic of [i > len]. *)
Definition vec_insert {A} (i : nat) (x : A) (l : list A) : option (list A) :=
  if bool_decide (i ≤ length l) then Some (take i l ++ x :: drop i l) else None.

(** [Vec::pop]: the last element and the rest. *)
Definition vec_pop {A} (l : list A) : option (A * list A) :=
  match rev l with
  | [] => None
  | x :: r => Some (x, rev r)
  end.

(** [iter.take(n)] for a [usize] given as a [Z], which may be far larger than
    the list. *)
Definition takeZ {A} (n : Z) (l : list A) : list A :=
  take (Z.to_nat (Z.min n (Z.of_nat (length l)))) l.

(** ** Tactics and hint databases *)
Create HintDb shardkv.
Create Rewrite HintDb shardkv_rw.

(** Splits the boolean tests of the code into their propositions. *)
Ltac bool_case :=
  repeat match goal with
  | H : bool_decide _ = true |- _ => apply bool_decide_eq_true in H
  | H : bool_decide _ = false |- _ => apply bool_decide_eq_false in H
  | H : (_ && _) = true |- _ => apply andb_true_iff in H as [? ?]
  | H : (_ || _) = false |- _ => apply orb_false_iff in H as [? ?]
  | H : negb _ = true |- _ => apply negb_true_iff in H
  | H : negb _ = false |- _ => apply negb_false_iff in H
  | H : (_ =? _)%nat = true |- _ => apply Nat.eqb_eq in H
  | H : (_ =? _)%nat = false |- _ => apply Nat.eqb_neq in H
  | H : (_ <=? _)%nat = true |- _ => apply Nat.leb_le in H
  | H : (_ <=? _)%nat = false |- _ => apply Nat.leb_gt in H
  | H : (_ <? _)%nat = true |- _ => apply Nat.ltb_lt in H
  | H : (_ <? _)%nat = false |- _ => apply Nat.ltb_ge in H
  | H : (_ =? _)%Z = true |- _ => apply Z.eqb_eq in H
  | H : (_ =? _)%Z = false |- _ => apply Z.eqb_neq in H
  | H : (_ <=? _)%Z = true |- _ => apply Z.leb_le in H
  | H : (_ <=? _)%Z = false |- _ => apply Z.leb_gt in H
  | H : (_ <? _)%Z = true |- _ => apply Z.ltb_lt in H
  | H : (_ <? _)%Z = false |- _ => apply Z.ltb_ge in H
  end.

(** Case analysis on the scrutinee of an [if] or [match] of the goal. *)
Ltac case_code :=
  match goal with
  | |- context [if ?b then _ else _] =>
      let E := fresh "E" in destruct b eqn:E; bool_case
  | |- context [match ?x with _ => _ end] =>
      let E := fresh "E" in destruct x eqn:E; bool_case
  end.

(** ** Shared lemmas *)

Lemma bytes_eqb_true x y : bytes_eqb x y = true ↔ x = y.
Proof. apply bool_decide_eq_true. Qed.

Lemma eq_ignore_ascii_case_spec x y :
  eq_ignore_ascii_case x y = true ↔ map to_ascii_lower x = map to_ascii_lower y.
Proof. unfold eq_ignore_ascii_case, bytes_eqb. by rewrite bool_decide_eq_true. Qed.

Lemma bytes_eqb_refl x : bytes_eqb x x = true.
Proof. by apply bytes_eqb_true. Qed.

Lemma bytes_eqb_false x y : bytes_eqb x y = false ↔ x ≠ y.
Proof. apply bool_decide_eq_false. Qed.

#[export] Hint Rewrite bytes_eqb_refl : shardkv_rw.

Lemma bytes_cmp_refl x : bytes_cmp x x = Eq.
Proof. induction x as [|a x IH]; simpl; [done|]. by rewrite Z.compare_refl. Qed.

Lemma bytes_cmp_eq x y : bytes_cmp x y = Eq ↔ x = y.
Proof.
  split; [|intros ->; apply bytes_cmp_refl].
  revert y; induction x as [|a x IH]; intros [|b y]; simpl; try done.
  destruct (Z.compare_spec a b); intros; [|done..].
  subst; f_equal; auto.
Qed.

Lemma bytes_cmp_antisym x y : bytes_cmp y x = CompOpp (bytes_cmp x y).
Proof.
  revert y; induction x as [|a x IH]; intros [|b y]; simpl; try done.
  rewrite Z.compare_antisym. destruct (Z.compare_spec a b); simpl; auto.
Qed.

Lemma bytes_cmp_lt_trans x y z :
  bytes_cmp x y = Lt → bytes_cmp y z = Lt → bytes_cmp x z = Lt.
Proof.
  revert y z; induction x as [|a x IH]; intros [|b y] [|c z]; simpl; try done.
  destruct (Z.compare_spec a b), (Z.compare_spec b c), (Z.compare_spec a c);
    subst; try done; try lia; eauto.
Qed.

#[export] Instance bytes_le_dec : RelDecision bytes_le.
Proof. intros x y. unfold bytes_le. apply _. Defined.

#[export] Instance bytes_le_total : Total bytes_le.
Proof.
  intros x y. unfold bytes_le. rewrite (bytes_cmp_antisym x y).
  destruct (bytes_cmp x y); simpl; auto.
Qed.

#[export] Instance bytes_le_trans : Transitive bytes_le.
Proof.
  intros x y z. unfold bytes_le.
  destruct (bytes_cmp x y) eqn:E1, (bytes_cmp y z) eqn:E2; try done; intros _ _.
  - apply bytes_cmp_eq in E1 as ->. apply bytes_cmp_eq in E2 as ->.
    by rewrite bytes_cmp_refl.
  - apply bytes_cmp_eq in E1 as ->. by rewrite E2.
  - apply bytes_cmp_eq in E2 as ->. by rewrite E1.
  - by rewrite (bytes_cmp_lt_trans _ _ _ E1 E2).
Qed.

#[export] Instance bytes_le_antisymm : AntiSymm (=) bytes_le.
Proof.
  intros x y. unfold bytes_le. rewrite (bytes_cmp_antisym x y).
  destruct (bytes_cmp x y) eqn:E; simpl; try done.
  intros _ _. by apply bytes_cmp_eq.
Qed.

Lemma wrap_i64_id z : is_i64 z → wrap_i64 z = z.
Proof.
  unfold is_i64, wrap_i64, wrap_u64, i64_MIN, i64_MAX, two64. intros.
  destruct (decide (0 ≤ z)%Z).
  - rewrite Z.mod_small by lia. case_match; bool_case; lia.
  - replace (z mod 18446744073709551616)%Z with (z + 18446744073709551616)%Z.
    + case_match; bool_case; lia.
    + apply Z.mod_unique with (-1)%Z; lia.
Qed.

Lemma usize_as_i64_id n : (Z.of_nat n ≤ i64_MAX)%Z → usize_as_i64 n = Z.of_nat n.
Proof. intros. apply wrap_i64_id. unfold is_i64, i64_MIN in *. lia. Qed.

#[export] Hint Rewrite usize_as_i64_id using (assumption || lia) : shardkv_rw.

Lemma i64_checked_add_Some a b s :
  i64_checked_add a b = Some s ↔ s = (a + b)%Z ∧ is_i64 (a + b)%Z.
Proof.
  unfold i64_checked_add, is_i64. case_match; bool_case; split;
    intros; simplify_eq; split_and?; try lia; naive_solver lia.
Qed.

Lemma position_Some {A} (p : A → bool) l i :
  position p l = Some i ↔
  ∃ x, l !! i = Some x ∧ p x = true ∧ ∀ j y, j < i → l !! j = Some y → p y = false.
Proof.
  revert i; induction l as [|a l IH]; intros i; simpl.
  - split; [done|]. intros (x & H & _). done.
  - destruct (p a) eqn:Ha; split.
    + intros [= <-]. exists a. split_and!; [done..|lia].
    + intros (x & Hx & Hp & Hbefore). destruct i; [done|].
      specialize (Hbefore 0 a ltac:(lia) eq_refl). congruence.
    + rewrite fmap_Some. intros (j & Hj & ->). apply IH in Hj as (x & ? & ? & Hb).
      exists x. split_and!; [done..|]. intros [|k] y Hk Hy; simpl in *; simplify_eq; [done|].
      eapply Hb; [|done]. lia.
    + intros (x & Hx & Hp & Hbefore). destruct i as [|i]; simpl in *; [congruence|].
      rewrite fmap_Some. exists i. split; [|done]. apply IH.
      exists x. split_and!; [done..|]. intros j y Hj Hy.
      apply (Hbefore (S j) y); [lia|done].
Qed.

Lemma position_None {A} (p : A → bool) l :
  position p l = None ↔ ∀ x, x ∈ l → p x = false.
Proof.
  induction l as [|a l IH]; simpl.
  - split; [intros _ x Hx; by apply elem_of_nil in Hx|done].
  - destruct (p a) eqn:Ha.
    + split; [done|]. intros H. specialize (H a (list_elem_of_here _ _)). congruence.
    + rewrite fmap_None, IH. split.
      * intros H x [->|]%elem_of_cons; auto.
      * intros H x Hx. apply H. by apply elem_of_cons; right.
Qed.

Lemma position_lt {A} (p : A → bool) l i : position p l = Some i → i < length l.
Proof. intros (x & Hx & _)%position_Some. by apply lookup_lt_Some in Hx. Qed.

Lemma foldM_app {A B} (f : B → A → option B) acc l1 l2 :
  foldM f acc (l1 ++ l2) = acc' ← foldM f acc l1; foldM f acc' l2.
Proof.
  revert acc; induction l1 as [|x l1 IH]; intros acc; simpl; [done|].
  destruct (f acc x); simpl; auto.
Qed.

(** A panicking fold whose step maintains a representation runs to the end
    and represents the pure fold. *)
Lemma foldM_refine {A B C} (R : B → C → Prop) (f : B → A → option B) (g : C → A → C)
    (l : list A) b c :
  (∀ b c x, x ∈ l → R b c → ∃ b', f b x = Some b' ∧ R b' (g c x)) →
  R b c → ∃ b', foldM f b l = Some b' ∧ R b' (foldl g c l).
Proof.
  revert b c; induction l as [|x l IH]; intros b c Hstep HR; simpl; [eauto|].
  destruct (Hstep b c x (list_elem_of_here _ _) HR) as (b1 & -> & HR1); simpl.
  apply IH; [|done]. intros ? ? y Hy. apply Hstep. by apply elem_of_cons; right.
Qed.

Lemma vec_insert_Some {A} i (x : A) l :
  i ≤ length l → vec_insert i x l = Some (take i l ++ x :: drop i l).
Proof. intros. unfold vec_insert. by rewrite bool_decide_eq_true_2. Qed.

Lemma vec_remove_Some {A} i (x : A) l :
  l !! i = Some x → vec_remove i l = Some (x, delete i l).
Proof. intros H. unfold vec_remove. by rewrite H. Qed.

Lemma takeZ_nat {A} n (l : list A) : takeZ (Z.of_nat n) l = take n l.
Proof.
  unfold takeZ. rewrite <-Nat2Z.inj_min, Nat2Z.id.
  destruct (decide (n ≤ length l)).
  - by rewrite Nat.min_l.
  - rewrite Nat.min_r, !take_ge by lia. done.
Qed.

Lemma vec_pop_snoc {A} (l : list A) x : vec_pop (l ++ [x]) = Some (x, l).
Proof. unfold vec_pop. rewrite rev_app_distr. simpl. by rewrite rev_involutive. Qed.

Lemma vec_pop_None {A} (l : list A) : vec_pop l = None ↔ l = [].
Proof.
  unfold vec_pop. split; [|by intros ->].
  destruct (rev l) eqn:E; [|done]. apply (f_equal (@rev A)) in E. by rewrite rev_involutive in E.
Qed.

Lemma vec_pop_Some {A} (l l' : list A) x : vec_pop l = Some (x, l') ↔ l = l' ++ [x].
Proof.
  split; [|intros ->; apply vec_pop_snoc].
  unfold vec_pop. destruct (rev l) as [|y r] eqn:E; [done|]. intros [= <- <-].
  apply (f_equal (@rev A)) in E. by rewrite rev_involutive in E.
Qed.

Lemma list_delete_app_l {A} i (l1 l2 : list A) :
  i < length l1 → delete i (l1 ++ l2) = delete i l1 ++ l2.
Proof.
  revert i. induction l1 as [|x l1 IH]; intros [|i] Hi; simpl in *; try lia; [done|].
  f_equal. apply IH. lia.
Qed.

Lemma list_delete_app_r {A} i (l1 l2 : list A) :
  length l1 ≤ i → delete i (l1 ++ l2) = l1 ++ delete (i - length l1) l2.
Proof.
  revert i. induction l1 as [|x l1 IH]; intros i Hi; simpl in *.
  - by rewrite Nat.sub_0_r.
  - destruct i as [|i]; [lia|]. simpl. f_equal. apply IH. lia.
Qed.

Lemma foldM_ext {A B} (f g : B → A → option B) acc l :
  (∀ b x, f b x = g b x) → foldM f acc l = foldM g acc l.
Proof.
  intros Hfg. revert acc. induction l as [|x l IH]; intros acc; simpl; [done|].
  rewrite Hfg. destruct (g acc x); simpl; auto.
Qed.

Lemma size_add_fresh (x : Bytes) (X : gset Bytes) : x ∉ X → size ({[x]} ∪ X) = S (size X).
Proof. intros. rewrite size_union by set_solver. by rewrite size_singleton. Qed.

Lemma filter_keep_all {A} (P : A → Prop) `{!∀ x, Decision (P x)} (l : list A) :
  (∀ x, x ∈ l → P x) → filter P l = l.
Proof.
  induction l as [|x l IH]; intros Hall; [done|].
  rewrite filter_cons_True by (apply Hall; by left). f_equal. apply IH.
  intros y Hy. apply Hall. by right.
Qed.

Lemma filter_keep_none {A} (P : A → Prop) `{!∀ x, Decision (P x)} (l : list A) :
  (∀ x, x ∈ l → ¬ P x) → filter P l = [].
Proof.
  induction l as [|x l IH]; intros Hall; [done|].
  rewrite filter_cons_False by (apply Hall; by left). apply IH.
  intros y Hy. apply Hall. by right.
Qed.

(** A predicate that holds on exactly the positions of a window counts the
    window's length. *)
Lemma filter_window {A} (P : A → Prop) `{!∀ x, Decision (P x)} (l : list A) a b :
  b ≤ length l → (∀ i x, l !! i = Some x → P x ↔ a ≤ i < b) →
  length (filter P l) = b - a.
Proof.
  revert a b. induction l as [|x l IH]; intros a b Hb Hw; simpl in *; [lia|].
  pose proof (Hw 0 x eq_refl) as H0.
  assert (∀ i y, l !! i = Some y → P y ↔ pred a ≤ i < pred b) as Htl.
  { intros i y Hy. rewrite (Hw (S i) y Hy). lia. }
  rewrite filter_cons. case_decide as HP; simpl; rewrite (IH (pred a) (pred b)) by (done || lia).
  - apply H0 in HP. lia.
  - destruct (decide (a ≤ 0 < b)); [tauto|lia].
Qed.

Lemma strongly_sorted_delete {A} (R : A → A → Prop) l i :
  StronglySorted R l → StronglySorted R (delete i l).
Proof.
  intros Hs. revert i. induction Hs as [|x l Hs IH Hx]; intros i; [constructor|].
  destruct i as [|i]; simpl; [done|].
  constructor; [done|]. rewrite delete_take_drop, Forall_app.
  split; [by apply Forall_take|by apply Forall_drop].
Qed.

(** In a sorted sequence a downward-closed test holds on a prefix, as long as
    the number of elements that pass it. *)
Lemma sorted_prefix {A} (R : A → A → Prop) (p : A → bool) l :
  StronglySorted R l → (∀ x y, x ∈ l → y ∈ l → R x y → p y = true → p x = true) →
  ∀ i x, l !! i = Some x → p x = true ↔ i < length (filter (λ x, p x = true) l).
Proof.
  induction 1 as [|x l Hs IH Hx]; intros Hclosed i y Hy; [done|].
  rewrite filter_cons. case_decide as Hp; simpl.
  - destruct i as [|i]; cbn in Hy; [injection Hy as <-; split; [lia|done]|].
    rewrite (IH ltac:(intros ? ? ? ?; apply Hclosed; by right) i y Hy). lia.
  - assert (∀ z, z ∈ l → p z ≠ true) as Hnone.
    { intros z Hz Hpz. apply Hp. eapply Hclosed; [by left|by right| |done].
      rewrite Forall_forall in Hx. by apply Hx. }
    rewrite filter_keep_none by done. simpl. split; [|lia]. intros Hpy.
    destruct i as [|i]; cbn in Hy; [congruence|].
    apply list_elem_of_lookup_2 in Hy. by apply Hnone in Hy.
Qed.

Lemma position_fmap {A B} (f : A → B) (p : B → bool) l :
  position p (f <$> l) = position (λ x, p (f x)) l.
Proof.
  induction l as [|x l IH]; [done|]. rewrite fmap_cons. cbn [position]. by rewrite IH.
Qed.

Lemma position_ext {A} (p q : A → bool) l :
  (∀ x, x ∈ l → p x = q x) → position p l = position q l.
Proof.
  induction l as [|x l IH]; intros Hpq; simpl; [done|].
  rewrite (Hpq x) by by left. rewrite IH; [done|]. intros y Hy. apply Hpq. by right.
Qed.

(** Searching from the end for an element that occurs at most once. *)
Lemma position_rev {A} (p : A → bool) l :
  (∀ i j x y, l !! i = Some x → l !! j = Some y → p x = true → p y = true → i = j) →
  position p (rev l) = (λ r, length l - r - 1) <$> position p l.
Proof.
  intros Huniq. rewrite rev_alt; fold (reverse l). destruct (position p l) as [r|] eqn:E; simpl.
  - pose proof (position_lt _ _ _ E) as Hr.
    apply position_Some in E as (x & Hx & Hp & _). apply position_Some.
    exists x. split; [|split; [done|]].
    + rewrite reverse_lookup by lia. by replace (length l - S (length l - r - 1)) with r by lia.
    + intros j y Hj Hy. apply not_true_iff_false. intros Hpy.
      rewrite reverse_lookup in Hy by lia.
      pose proof (Huniq _ _ _ _ Hy Hx Hpy Hp). lia.
  - rewrite position_None in *. intros x Hx. apply E. by apply elem_of_reverse.
Qed.

(** Reading a window of a sequence one index at a time. *)
Lemma omap_lookup_seq {A} (l : list A) a n :
  omap (l !!.) (seq a n) = take n (drop a l).
Proof.
  revert a. induction n as [|n IH]; intros a; [by rewrite take_0|].
  cbn [seq]. destruct (l !! a) as [x|] eqn:E.
  - rewrite (drop_S _ _ _ E). simpl. rewrite E. f_equal. apply IH.
  - simpl. rewrite E, IH. apply lookup_ge_None in E.
    by rewrite !drop_ge, !take_nil by lia.
Qed.

Lemma omap_rev {A B} (f : A → option B) l : omap f (rev l) = rev (omap f l).
Proof.
  induction l as [|x l IH]; [done|]. simpl. rewrite omap_app, IH. simpl.
  destruct (f x); simpl; [done|]. by rewrite app_nil_r.
Qed.

Lemma take_drop_rev {A} (l : list A) a b :
  a ≤ b < length l →
  take (b - a + 1) (drop a (rev l)) =
  rev (take (b - a + 1) (drop (length l - 1 - b) l)).
Proof.
  intros Hb. rewrite !rev_alt. fold (reverse l). fold (reverse (take (b - a + 1) (drop (length l - 1 - b) l))).
  apply list_eq. intros i.
  destruct (decide (i < b - a + 1)).
  - rewrite lookup_take_lt, lookup_drop by lia. rewrite !reverse_lookup.
    + rewrite length_take, length_drop, lookup_take_lt, lookup_drop by lia. f_equal. lia.
    + rewrite length_take, length_drop. lia.
    + lia.
  - rewrite lookup_take_ge by lia. symmetry. apply lookup_ge_None_2.
    rewrite length_reverse, length_take, length_drop. lia.
Qed.

Lemma strongly_sorted_lookup {A} (R : A → A → Prop) l i j x y :
  StronglySorted R l → i < j → l !! i = Some x → l !! j = Some y → R x y.
Proof.
  intros Hs. revert i j. induction Hs as [|z l Hs IH Hz]; intros i j Hij Hx Hy; [done|].
  destruct j as [|j]; [lia|]. cbn in Hy. destruct i as [|i]; cbn in Hx.
  - injection Hx as <-. rewrite Forall_forall in Hz. apply Hz. by eapply list_elem_of_lookup_2.
  - apply (IH i j); [lia|done|done].
Qed.

Lemma length_filter_fmap {A B} (f : A → B) (P : B → Prop) `{!∀ x, Decision (P x)} l :
  length (filter P (f <$> l)) = length (filter (λ x, P (f x)) l).
Proof.
  induction l as [|x l IH]; [done|]. rewrite fmap_cons, !filter_cons.
  case_decide; simpl; by rewrite IH.
Qed.

Lemma concat_length_ge {A} (enc : A → Bytes) (unit : nat) l :
  Forall (λ a, unit ≤ length (enc a)) l → length l * unit ≤ length (concat (map enc l)).
Proof. induction 1; cbn [map concat length]; rewrite ?length_app; lia. Qed.

Lemma list_fmap_rev {A B} (f : A → B) l : f <$> rev l = rev (f <$> l).
Proof. apply map_rev. Qed.

(** [filter] with a test that may panic. *)
Fixpoint filterM {A} (p : A → option bool) (l : list A) : option (list A) :=
  match l with
  | [] => Some []
  | x :: l' => keep ← p x; rest ← filterM p l'; Some (if keep : bool then x :: rest else rest)
  end.

Lemma filterM_spec {A} (p : A → option bool) (q : A → bool) l :
  (∀ x, x ∈ l → p x = Some (q x)) → filterM p l = Some (filter (λ x, q x = true) l).
Proof.
  induction l as [|x l IH]; intros Hp; [done|]. cbn [filterM].
  rewrite (Hp x) by by left. rewrite IH by (intros y Hy; apply Hp; by right).
  rewrite filter_cons. simpl. destruct (q x); by case_decide.
Qed.

(** ** Counting the threads or connections with a property *)
Definition count_if {A} (f : A → bool) (m : gmap nat A) : nat := size (filter (λ e, f e.2 = true) m).

Section count_if.
Context {A : Type} (f : A → bool).
Implicit Types (m : gmap nat A) (x y : A).

Lemma count_if_new m t x : m !! t = None → count_if f (<[t := x]> m) = count_if f m + Nat.b2n (f x).
Proof.
  intros Hn. unfold count_if. destruct (f x) eqn:E; simpl.
  - rewrite map_filter_insert_True by done. rewrite map_size_insert_None; [lia|].
    apply map_lookup_filter_None_2. by left.
  - rewrite map_filter_insert_False by (simpl; congruence). rewrite delete_id by done. lia.
Qed.

Lemma count_if_delete m t x : m !! t = Some x → count_if f (delete t m) + Nat.b2n (f x) = count_if f m.
Proof.
  intros Hm. rewrite <-(insert_delete_id m t x Hm) at 2.
  by rewrite count_if_new by apply lookup_delete_eq.
Qed.

Lemma count_if_insert m t x y :
  m !! t = Some x → count_if f (<[t := y]> m) + Nat.b2n (f x) = count_if f m + Nat.b2n (f y).
Proof.
  intros Hm. rewrite <-insert_delete_eq, count_if_new by apply lookup_delete_eq.
  pose proof (count_if_delete m t x Hm). lia.
Qed.

Lemma count_if_pos m t x : m !! t = Some x → f x = true → count_if f m ≠ 0.
Proof.
  intros Hm Hc. unfold count_if. rewrite map_size_ne_0_lookup. exists t, x.
  by apply map_lookup_filter_Some_2.
Qed.

Lemma count_if_size m : count_if f m ≤ size m.
Proof. unfold count_if. apply map_subseteq_size, map_filter_subseteq. Qed.

Lemma count_if_none m : (∀ t x, m !! t = Some x → f x = false) → count_if f m = 0.
Proof.
  intros Hm. unfold count_if. apply map_size_empty_iff, map_empty. intros t.
  apply map_lookup_filter_None_2. right. intros x Hx. simpl. by rewrite (Hm t x Hx).
Qed.
End count_if.

(** ** Saturating arithmetic on u64 and usize *)
Definition u64_saturating_add (a b : Z) : Z := Z.min u64_MAX (a + b).

(** The saturating operations, when nothing saturates. *)
Lemma u64_saturating_add_exact a b : (0 ≤ a)%Z → (a + b ≤ u64_MAX)%Z → u64_saturating_add a b = (a + b)%Z.
Proof. unfold u64_saturating_add. lia. Qed.
Lemma u64_saturating_sub_exact a b : (b ≤ a)%Z → u64_saturating_sub a b = (a - b)%Z.
Proof. unfold u64_saturating_sub. lia. Qed.

(** ** Sums over lists, in [Z] *)
Definition sum_of {A} (f : A → Z) (l : list A) : Z := foldr (λ x, Z.add (f x)) 0%Z l.

Lemma sum_of_app {A} (f : A → Z) l1 l2 : sum_of f (l1 ++ l2) = (sum_of f l1 + sum_of f l2)%Z.
Proof. induction l1; simpl; lia. Qed.

#[export] Instance sum_of_perm {A} (f : A → Z) : Proper (Permutation ==> eq) (sum_of f).
Proof. induction 1; simpl; lia. Qed.

Lemma sum_of_nonneg {A} (f : A → Z) l : (∀ x, x ∈ l → (0 ≤ f x)%Z) → (0 ≤ sum_of f l)%Z.
Proof.
  induction l as [|x l IH]; simpl; intros Hf; [lia|].
  pose proof (Hf x (list_elem_of_here _ _)). enough (0 ≤ sum_of f l)%Z by lia.
  apply IH. intros y Hy. apply Hf. by right.
Qed.

Lemma sum_of_le {A} (f g : A → Z) l : (∀ x, x ∈ l → (f x ≤ g x)%Z) → (sum_of f l ≤ sum_of g l)%Z.
Proof.
  induction l as [|x l IH]; simpl; intros Hf; [lia|].
  pose proof (Hf x (list_elem_of_here _ _)). enough (sum_of f l ≤ sum_of g l)%Z by lia.
  apply IH. intros y Hy. apply Hf. by right.
Qed.

Lemma sum_of_ext {A} (f g : A → Z) l : (∀ x, x ∈ l → f x = g x) → sum_of f l = sum_of g l.
Proof.
  intros Hf. apply Z.le_antisymm; apply sum_of_le; intros x Hx; by rewrite (Hf x Hx).
Qed.

Lemma sum_of_elem {A} (f : A → Z) l x : (∀ y, y ∈ l → (0 ≤ f y)%Z) → x ∈ l → (f x ≤ sum_of f l)%Z.
Proof.
  intros Hf (l1 & l2 & ->)%list_elem_of_split. rewrite sum_of_app. simpl.
  pose proof (sum_of_nonneg f l1 (λ y Hy, Hf y (proj2 (elem_of_app _ _ _) (or_introl Hy)))).
  enough (0 ≤ sum_of f l2)%Z by lia. apply sum_of_nonneg. intros y Hy. apply Hf.
  apply elem_of_app. right. by right.
Qed.
