(* ===== verification/Deps.v ===== *)
(** * The code the object store calls but does not define

    Hash functions ([xxhash_rust], [ahash]), the raw table of [hashbrown] and
    the rank-indexed ordered set of [indextreemap] are crates outside the
    repository.  Each is a class: its operations are parameters of every
    definition that uses them, its laws are the documented behaviour the
    callers rely on.  The file closes with list-based instances, so that every
    definition of the development can be run. *)

From S2P Require Import Prelude.

(** [hash_key] is XXH3 ([storage.rs]); [local_table_hash] re-keys it with the
    process-local [ahash] state.  Nothing is assumed of either. *)
Class Hashing := {
  hash_key : Bytes → Z;
  local_table_hash : Z → Z;
}.

(** [std::collections::HashMap] iterates in an arbitrary order that an
    insertion may change completely: [place m k v] is the content, in
    iteration order, after inserting a fresh key. *)
Class TableOrder := {
  place : ∀ {V : Type}, list (Bytes * V) → Bytes → V → list (Bytes * V);
  place_perm : ∀ {V : Type} (m : list (Bytes * V)) k v, place m k v ≡ₚ (k, v) :: m;
}.

(** [hashbrown::HashTable]: entries stored under a caller-supplied hash.
    [find] may return any entry accepted by the predicate, and returns one
    when an accepted entry is stored under the probed hash. *)
Class HashTable (HT : Type → Type) := {
  ht_new : ∀ {A}, HT A;
  ht_elements : ∀ {A}, HT A → list (Z * A);
  ht_len : ∀ {A}, HT A → nat;
  ht_find : ∀ {A}, HT A → Z → (A → bool) → option A;
  ht_update : ∀ {A}, HT A → Z → (A → bool) → (A → A) → HT A;
  ht_insert_unique : ∀ {A}, HT A → Z → A → (A → Z) → HT A;
  ht_remove : ∀ {A}, HT A → Z → (A → bool) → option (A * HT A);
  ht_new_elements : ∀ {A}, ht_elements (ht_new (A := A)) = [];
  ht_len_elements : ∀ {A} (t : HT A), ht_len t = length (ht_elements t);
  ht_find_Some : ∀ {A} (t : HT A) h p a,
    ht_find t h p = Some a → p a = true ∧ ∃ h', (h', a) ∈ ht_elements t;
  ht_find_None : ∀ {A} (t : HT A) h p a,
    ht_find t h p = None → (h, a) ∈ ht_elements t → p a = false;
  ht_update_Some : ∀ {A} (t : HT A) h p f a,
    ht_find t h p = Some a →
    ∃ h' l1 l2, ht_elements t = l1 ++ (h', a) :: l2 ∧
                ht_elements (ht_update t h p f) = l1 ++ (h', f a) :: l2;
  ht_insert_elements : ∀ {A} (t : HT A) h a rehash,
    (∀ h' x, (h', x) ∈ ht_elements t → rehash x = h') →
    ht_elements (ht_insert_unique t h a rehash) ≡ₚ (h, a) :: ht_elements t;
  ht_remove_Some : ∀ {A} (t : HT A) h p a,
    ht_find t h p = Some a →
    ∃ h' t', ht_remove t h p = Some (a, t') ∧ ht_elements t ≡ₚ (h', a) :: ht_elements t';
  ht_remove_None : ∀ {A} (t : HT A) h p,
    ht_find t h p = None → ht_remove t h p = None;
}.

(** [indextreemap::IndexTreeSet]: an ordered set with rank queries, ordered by
    the [Ord] of its elements. *)
Class IndexTreeSet (K : Type) (cmp : K → K → comparison) (T : Type) := {
  its_new : T;
  its_iter : T → list K;
  its_wf : T → Prop;
  its_insert : T → K → T;
  its_remove : T → K → T;
  its_len : T → nat;
  its_get_first : T → option K;
  its_get_last : T → option K;
  its_get_key_from_index : T → nat → option K;
  its_get_index_from_key : T → K → option nat;
  its_new_wf : its_wf its_new;
  its_new_iter : its_iter its_new = [];
  its_sorted : ∀ t, its_wf t → StronglySorted (λ x y, cmp x y = Lt) (its_iter t);
  its_insert_wf : ∀ t x, its_wf t → its_wf (its_insert t x);
  its_insert_iter : ∀ t x, its_wf t → (∀ y, y ∈ its_iter t → cmp x y ≠ Eq) →
    its_iter (its_insert t x) ≡ₚ x :: its_iter t;
  its_remove_wf : ∀ t x, its_wf t → its_wf (its_remove t x);
  its_remove_iter : ∀ t x, its_wf t →
    its_iter (its_remove t x) = filter (λ y, cmp x y ≠ Eq) (its_iter t);
  its_len_iter : ∀ t, its_wf t → its_len t = length (its_iter t);
  its_first_iter : ∀ t, its_wf t → its_get_first t = head (its_iter t);
  its_last_iter : ∀ t, its_wf t → its_get_last t = last (its_iter t);
  its_key_iter : ∀ t i, its_wf t → its_get_key_from_index t i = its_iter t !! i;
  its_index_iter : ∀ t x, its_wf t →
    its_get_index_from_key t x = position (λ y, bool_decide (cmp x y = Eq)) (its_iter t);
}.

(** ** Executable instances *)
Module Concrete.

(** A toy hash, good enough to run the model. *)
#[export] Instance hashing : Hashing := {|
  hash_key k := foldl (λ h b, (h * 31 + b) mod two64)%Z 7%Z k;
  local_table_hash h := (h * 2654435761 mod two64)%Z;
|}.

#[export, refine] Instance table_order : TableOrder := {|
  place V m k v := m ++ [(k, v)];
|}.
Proof. intros. by rewrite Permutation_app_comm. Defined.

Definition LHT (A : Type) : Type := list (Z * A).

Definition lht_match {A} (h : Z) (p : A → bool) (e : Z * A) : bool :=
  bool_decide (e.1 = h) && p e.2.

Definition lht_find {A} (t : LHT A) (h : Z) (p : A → bool) : option A :=
  i ← position (lht_match h p) t; snd <$> t !! i.

Definition lht_update {A} (t : LHT A) (h : Z) (p : A → bool) (f : A → A) : LHT A :=
  match position (lht_match h p) t with
  | Some i => match t !! i with Some e => <[i := (e.1, f e.2)]> t | None => t end
  | None => t
  end.

Definition lht_remove {A} (t : LHT A) (h : Z) (p : A → bool) : option (A * LHT A) :=
  i ← position (lht_match h p) t; e ← t !! i; Some (e.2, delete i t).

Lemma lht_position_Some {A} (t : LHT A) h p i :
  position (lht_match h p) t = Some i → ∃ h' a, t !! i = Some (h', a) ∧ p a = true.
Proof.
  intros ([h' a] & Hi & Hm & _)%position_Some. exists h', a.
  unfold lht_match in Hm. simpl in Hm. by bool_case.
Qed.

Lemma lht_find_Some {A} (t : LHT A) h p a :
  lht_find t h p = Some a → ∃ i h', position (lht_match h p) t = Some i ∧
                                    t !! i = Some (h', a) ∧ p a = true.
Proof.
  unfold lht_find. intros (i & Hpos & Hi)%bind_Some.
  destruct (lht_position_Some _ _ _ _ Hpos) as (h' & a' & E & Hp).
  rewrite E in Hi. simplify_eq/=. eauto 10.
Qed.

Lemma lht_find_None {A} (t : LHT A) h p :
  lht_find t h p = None → position (lht_match h p) t = None.
Proof.
  unfold lht_find. destruct (position _ t) as [i|] eqn:Hpos; [|done]. simpl.
  destruct (lht_position_Some _ _ _ _ Hpos) as (h' & a' & -> & _). done.
Qed.

#[export, refine] Instance hash_table : HashTable LHT := {|
  ht_new A := [];
  ht_elements A t := t;
  ht_len A t := length t;
  ht_find A := lht_find;
  ht_update A := lht_update;
  ht_insert_unique A t h a _ := t ++ [(h, a)];
  ht_remove A := lht_remove;
|}.
Proof.
  - done.
  - done.
  - intros A t h p a (i & h' & _ & Hi & Hp)%lht_find_Some. split; [done|].
    exists h'. by eapply list_elem_of_lookup_2.
  - intros A t h p a Hn%lht_find_None Ha.
    pose proof (proj1 (position_None _ _) Hn _ Ha) as Hm.
    unfold lht_match in Hm. simpl in Hm. by rewrite bool_decide_eq_true_2 in Hm.
  - intros A t h p f a (i & h' & Hpos & Hi & _)%lht_find_Some.
    exists h', (take i t), (drop (S i) t). unfold lht_update. rewrite Hpos.
    split; [by rewrite take_drop_middle|].
    rewrite Hi. apply insert_take_drop. by eapply lookup_lt_Some.
  - intros. by rewrite Permutation_app_comm.
  - intros A t h p a (i & h' & Hpos & Hi & _)%lht_find_Some.
    exists h', (delete i t). unfold lht_remove. rewrite Hpos. simpl. rewrite Hi.
    split; [done|]. by apply delete_Permutation.
  - intros A t h p Hn%lht_find_None. unfold lht_remove. by rewrite Hn.
Defined.

(** The ordered set as a sorted list, for any total order. *)
Section SortedSet.
Context {K : Type} (cmp : K → K → comparison).
Context (cmp_antisym : ∀ x y, cmp y x = CompOpp (cmp x y)).
Context (cmp_trans : ∀ x y z, cmp x y = Lt → cmp y z = Lt → cmp x z = Lt).

Fixpoint sl_insert (l : list K) (x : K) : list K :=
  match l with
  | [] => [x]
  | y :: l' => match cmp x y with
               | Lt => x :: y :: l'
               | Eq => y :: l'
               | Gt => y :: sl_insert l' x
               end
  end.

Lemma sl_insert_perm l x :
  (∀ y, y ∈ l → cmp x y ≠ Eq) → sl_insert l x ≡ₚ x :: l.
Proof.
  induction l as [|y l IH]; intros Hne; simpl; [done|].
  destruct (cmp x y) eqn:E; [|done|].
  - by destruct (Hne y (list_elem_of_here _ _)).
  - rewrite IH; [apply Permutation_swap|]. intros z Hz. apply Hne. by right.
Qed.

Lemma sl_insert_elem l x y : y ∈ sl_insert l x → y = x ∨ y ∈ l.
Proof.
  induction l as [|z l IH]; simpl; [rewrite list_elem_of_singleton; auto|].
  destruct (cmp x z); rewrite ?elem_of_cons; naive_solver.
Qed.

Lemma sl_insert_sorted l x :
  StronglySorted (λ x y, cmp x y = Lt) l →
  StronglySorted (λ x y, cmp x y = Lt) (sl_insert l x).
Proof.
  induction 1 as [|y l Hs IH Hy]; simpl; [repeat constructor|].
  destruct (cmp x y) eqn:E; [by constructor|..].
  - repeat constructor; [done..|]. eapply Forall_impl; [done|]. eauto.
  - constructor; [done|]. apply Forall_forall. intros z [->|Hz]%sl_insert_elem.
    + by rewrite cmp_antisym, E.
    + by eapply Forall_forall in Hy.
Qed.

#[refine] Definition sorted_set : IndexTreeSet K cmp (list K) := {|
  its_new := [];
  its_iter t := t;
  its_wf t := StronglySorted (λ x y, cmp x y = Lt) t;
  its_insert := sl_insert;
  its_remove t x := filter (λ y, cmp x y ≠ Eq) t;
  its_len t := length t;
  its_get_first t := head t;
  its_get_last t := last t;
  its_get_key_from_index t i := t !! i;
  its_get_index_from_key t x := position (λ y, bool_decide (cmp x y = Eq)) t;
|}.
Proof.
  all: try done.
  - constructor.
  - intros. by apply sl_insert_sorted.
  - intros. by apply sl_insert_perm.
  - intros t x Hs. induction Hs as [|y l Hs IH Hy]; [constructor|].
    rewrite filter_cons. case_decide; [|done]. constructor; [done|].
    apply Forall_forall. intros z [_ Hz]%list_elem_of_filter.
    by eapply Forall_forall in Hy.
Defined.
End SortedSet.

End Concrete.
