(* ===== verification/Slab.v ===== *)
(** * Slot storage: [ObjectSlab] and [SlotMap]

    [redis_objects/slab.rs] stores objects in a vector of optional slots with a
    free list; [redis_objects/slot_map.rs] maps a key to its slot through a raw
    hash table.  [Table] at the end is the pair as the buckets use it: one
    logical map from keys to objects, with the laws the bucket operations are
    proved against. *)

From S2P Require Import Prelude Deps.

Abbreviation SlotId := nat.

(** ** [ObjectSlab] *)
Module ObjectSlab.

Record t (T : Type) := mk { entries : list (option T); free : list SlotId }.
Arguments mk {T} entries free.
Arguments entries {T} _.
Arguments free {T} _.

Definition default {T} : t T := mk [] [].

(** [insert]: reuse the last freed slot, else grow; indexing a free slot that
    is out of range would panic. *)
Definition insert {T} (value : T) (s : t T) : option (SlotId * t T) :=
  match vec_pop (free s) with
  | Some (slot, rest) =>
      _ ← entries s !! slot;
      Some (slot, mk (<[slot := Some value]> (entries s)) rest)
  | None => Some (length (entries s), mk (entries s ++ [Some value]) (free s))
  end.

Definition get {T} (s : t T) (slot : SlotId) : option T := mjoin (entries s !! slot).

(** [get_mut] hands out a reference; [get_mut] models the borrow and
    [write_slot] the write of the final value through it. *)
Definition get_mut {T} (s : t T) (slot : SlotId) : option T := mjoin (entries s !! slot).

Definition write_slot {T} (s : t T) (slot : SlotId) (value : T) : t T :=
  mk (<[slot := Some value]> (entries s)) (free s).

Definition remove {T} (s : t T) (slot : SlotId) : option T * t T :=
  match entries s !! slot with
  | None => (None, s)
  | Some value =>
      let entries' := <[slot := None]> (entries s) in
      match value with
      | Some _ => (value, mk entries' (free s ++ [slot]))
      | None => (value, mk entries' (free s))
      end
  end.

(** The free list holds exactly the vacant slots, each once. *)
Definition wf {T} (s : t T) : Prop :=
  NoDup (free s) ∧ ∀ i, i ∈ free s ↔ entries s !! i = Some None.

Lemma slab_default_wf {T} : wf (default (T := T)).
Proof. split; [constructor|]. intros i. simpl. by rewrite elem_of_nil. Qed.

Lemma slab_insert_spec {T} (value : T) s :
  wf s → ∃ slot s', insert value s = Some (slot, s') ∧ get s slot = None ∧ wf s' ∧
    ∀ i, get s' i = if decide (i = slot) then Some value else get s i.
Proof.
  intros [Hnd Hfree]. unfold insert, get. destruct (vec_pop (free s)) as [[slot rest]|] eqn:Hp.
  - apply vec_pop_Some in Hp. rewrite Hp in *.
    apply NoDup_app in Hnd as (Hnd & Hdis & _).
    assert (entries s !! slot = Some None) as Hs.
    { apply Hfree, elem_of_app. right. by apply list_elem_of_singleton. }
    exists slot. eexists. rewrite Hs. split; [done|].
    assert (slot < length (entries s)) by by eapply lookup_lt_Some.
    split; [done|]. split; simpl.
    + split; [done|]. simpl. intros i. destruct (decide (i = slot)) as [->|Hne].
      * rewrite list_lookup_insert_eq by done. split; [|done].
        intros Hin. destruct (Hdis _ Hin). by apply list_elem_of_singleton.
      * rewrite list_lookup_insert_ne by done. rewrite <-Hfree, elem_of_app, list_elem_of_singleton.
        naive_solver.
    + intros i. case_decide; subst; [by rewrite list_lookup_insert_eq|].
      by rewrite list_lookup_insert_ne.
  - apply vec_pop_None in Hp. eexists _, _. split; [done|]. simpl.
    rewrite lookup_ge_None_2 by done. split; [done|]. split.
    + split; [done|]. simpl. intros i. rewrite Hp in *. rewrite Hfree.
      destruct (decide (i < length (entries s))).
      * by rewrite lookup_app_l.
      * rewrite lookup_ge_None_2 by lia. rewrite lookup_app_r by lia.
        destruct (i - length (entries s)); [done|]. simpl. done.
    + intros i. case_decide; subst.
      * by rewrite lookup_app_r, Nat.sub_diag by lia.
      * destruct (decide (i < length (entries s))); [by rewrite lookup_app_l|].
        rewrite lookup_app_r by lia. rewrite (lookup_ge_None_2 (entries s)) by lia.
        destruct (i - length (entries s)) eqn:?; [lia|done].
Qed.

Lemma write_slot_spec {T} (s : t T) slot value x :
  wf s → get s slot = Some x →
  wf (write_slot s slot value) ∧
  ∀ i, get (write_slot s slot value) i = if decide (i = slot) then Some value else get s i.
Proof.
  intros [Hnd Hfree]. unfold get. destruct (entries s !! slot) as [[y|]|] eqn:Hs; simpl; try done.
  assert (slot < length (entries s)) by by eapply lookup_lt_Some.
  intros [= ->]. split.
  - split; [done|]. simpl. intros i. rewrite Hfree. destruct (decide (i = slot)) as [->|].
    + rewrite list_lookup_insert_eq by done. rewrite Hs. naive_solver.
    + by rewrite list_lookup_insert_ne.
  - intros i. simpl. case_decide; subst; [by rewrite list_lookup_insert_eq|].
    by rewrite list_lookup_insert_ne.
Qed.

Lemma slab_remove_spec {T} (s : t T) slot :
  wf s → ∃ s', remove s slot = (get s slot, s') ∧ wf s' ∧
    ∀ i, get s' i = if decide (i = slot) then None else get s i.
Proof.
  intros [Hnd Hfree]. unfold remove, get. destruct (entries s !! slot) as [v|] eqn:Hs.
  - assert (slot < length (entries s)) by by eapply lookup_lt_Some.
    assert (∀ i, mjoin (<[slot:=None]> (entries s) !! i) =
                 if decide (i = slot) then None else mjoin (entries s !! i)) as Hget.
    { intros i. case_decide; subst; [by rewrite list_lookup_insert_eq|].
      by rewrite list_lookup_insert_ne. }
    destruct v as [x|]; eexists; (split; [done|]); (split; [|done]); split; simpl.
    + apply NoDup_app. split; [done|]. split; [|apply NoDup_singleton].
      intros i Hi ->%list_elem_of_singleton. apply Hfree in Hi. congruence.
    + intros i. rewrite elem_of_app, list_elem_of_singleton, Hfree.
      destruct (decide (i = slot)) as [->|].
      * rewrite list_lookup_insert_eq by done. naive_solver.
      * rewrite list_lookup_insert_ne by done. naive_solver.
    + done.
    + intros i. rewrite Hfree. destruct (decide (i = slot)) as [->|].
      * by rewrite list_lookup_insert_eq.
      * by rewrite list_lookup_insert_ne.
  - exists s. split; [done|]. split; [done|]. intros i. case_decide; [subst; by rewrite Hs|done].
Qed.

End ObjectSlab.

(** ** [SlotMap] *)
Record SlotEntry := mkSlotEntry { se_hash : Z; se_key : Bytes; se_slot : SlotId }.

Module SlotMap.
Section SlotMap.
Context `{Hashing} {HT : Type → Type} `{!HashTable HT}.

Record t := mk { table : HT SlotEntry }.

Definition default : t := mk ht_new.

(** The predicate every probe uses: byte equality of the stored key. *)
Definition key_is (key : Bytes) (e : SlotEntry) : bool := bytes_eqb (se_key e) key.

Definition len (m : t) : nat := ht_len (table m).

Definition get_hashed (m : t) (hash : Z) (key : Bytes) : option SlotId :=
  se_slot <$> ht_find (table m) (local_table_hash hash) (key_is key).

Definition get (m : t) (key : Bytes) : option SlotId :=
  let hash := hash_key key in
  se_slot <$> ht_find (table m) (local_table_hash hash) (key_is key).

Definition contains_key (m : t) (key : Bytes) : bool := bool_decide (is_Some (get m key)).

Definition contains_key_hashed (m : t) (hash : Z) (key : Bytes) : bool :=
  bool_decide (is_Some (get_hashed m hash key)).

Definition insert_hashed (m : t) (hash : Z) (key : Bytes) (slot : SlotId) : option SlotId * t :=
  match ht_find (table m) (local_table_hash hash) (key_is key) with
  | Some e =>
      (Some (se_slot e),
       mk (ht_update (table m) (local_table_hash hash) (key_is key)
             (λ e, mkSlotEntry (se_hash e) (se_key e) slot)))
  | None =>
      (None,
       mk (ht_insert_unique (table m) (local_table_hash hash) (mkSlotEntry hash key slot)
             (λ e, local_table_hash (se_hash e))))
  end.

Definition insert (m : t) (key : Bytes) (slot : SlotId) : option SlotId * t :=
  insert_hashed m (hash_key key) key slot.

Definition remove_hashed (m : t) (hash : Z) (key : Bytes) : option SlotId * t :=
  match ht_remove (table m) (local_table_hash hash) (key_is key) with
  | Some (e, table') => (Some (se_slot e), mk table')
  | None => (None, m)
  end.

Definition remove (m : t) (key : Bytes) : option SlotId * t :=
  remove_hashed m (hash_key key) key.

Definition keys (m : t) : list Bytes := (λ e, se_key e.2) <$> ht_elements (table m).

(** The logical content. *)
Definition pairs (m : t) : list (Bytes * SlotId) :=
  (λ e, (se_key e.2, se_slot e.2)) <$> ht_elements (table m).

Definition abs (m : t) : gmap Bytes SlotId := list_to_map (pairs m).

(** Every entry is stored under the hash of its key, and keys are unique. *)
Definition wf (m : t) : Prop :=
  NoDup (keys m) ∧
  ∀ h e, (h, e) ∈ ht_elements (table m) →
         se_hash e = hash_key (se_key e) ∧ h = local_table_hash (se_hash e).

Lemma pairs_fst m : (pairs m).*1 = keys m.
Proof. unfold pairs, keys. by rewrite <-list_fmap_compose. Qed.

Lemma slotmap_default_wf : wf default.
Proof.
  unfold wf, keys; simpl. rewrite ht_new_elements. split; [constructor|].
  intros ? ? Hin. by apply elem_of_nil in Hin.
Qed.

Lemma default_abs : abs default = ∅.
Proof. unfold abs, pairs; simpl. by rewrite ht_new_elements. Qed.

Lemma abs_Some m key slot :
  wf m → abs m !! key = Some slot ↔
         ∃ h e, (h, e) ∈ ht_elements (table m) ∧ se_key e = key ∧ se_slot e = slot.
Proof.
  intros [Hnd _]. unfold abs.
  rewrite <-elem_of_list_to_map by by rewrite pairs_fst.
  unfold pairs. rewrite list_elem_of_fmap. split.
  - intros ([h e] & [= -> ->] & Hin). eauto.
  - intros (h & e & Hin & <- & <-). by exists (h, e).
Qed.

Lemma find_abs m key :
  wf m → se_slot <$> ht_find (table m) (local_table_hash (hash_key key)) (key_is key)
         = abs m !! key.
Proof.
  intros Hwf. destruct (ht_find _ _ _) as [e|] eqn:Hf; simpl; symmetry.
  - apply ht_find_Some in Hf as [Hp [h Hin]]. apply abs_Some; [done|].
    apply bytes_eqb_true in Hp. eauto.
  - apply eq_None_not_Some. intros [slot (h & e & Hin & Hk & _)%abs_Some]; [|done].
    destruct (proj2 Hwf _ _ Hin) as [Hh ->]. rewrite Hh, Hk in Hin.
    pose proof (ht_find_None _ _ _ _ Hf Hin) as Hp. apply bytes_eqb_false in Hp. done.
Qed.

Lemma get_abs m key : wf m → get m key = abs m !! key.
Proof. apply find_abs. Qed.

Lemma get_hashed_abs m hash key :
  wf m → hash = hash_key key → get_hashed m hash key = abs m !! key.
Proof. intros ? ->. by apply find_abs. Qed.

Lemma contains_key_abs m key : wf m → contains_key m key = bool_decide (is_Some (abs m !! key)).
Proof. intros. unfold contains_key. by rewrite get_abs. Qed.

Lemma contains_key_hashed_abs m hash key :
  wf m → hash = hash_key key →
  contains_key_hashed m hash key = bool_decide (is_Some (abs m !! key)).
Proof. intros. unfold contains_key_hashed. by rewrite get_hashed_abs. Qed.

Lemma keys_perm m : wf m → keys m ≡ₚ (map_to_list (abs m)).*1.
Proof.
  intros [Hnd _]. rewrite <-pairs_fst. apply fmap_Permutation. symmetry.
  apply map_to_list_to_map. by rewrite pairs_fst.
Qed.

Lemma elem_of_keys m key : wf m → key ∈ keys m ↔ is_Some (abs m !! key).
Proof.
  intros Hwf. unfold is_Some. setoid_rewrite abs_Some; [|done].
  unfold keys. rewrite list_elem_of_fmap. split.
  - intros ([h e] & -> & Hin). eauto 10.
  - intros (slot & h & e & Hin & <- & _). by exists (h, e).
Qed.

(** An insertion of a fresh key; [insert] is only reached for such keys. *)
Lemma insert_hashed_spec m hash key slot :
  wf m → hash = hash_key key → abs m !! key = None →
  (insert_hashed m hash key slot).1 = None ∧
  wf (insert_hashed m hash key slot).2 ∧
  abs (insert_hashed m hash key slot).2 = <[key := slot]> (abs m).
Proof.
  intros Hwf -> Hnone. unfold insert_hashed.
  pose proof (find_abs m key Hwf) as Hf. rewrite Hnone in Hf.
  destruct (ht_find _ _ _) eqn:E; [done|]. simpl. clear Hf E.
  set (t' := ht_insert_unique _ _ _ _).
  assert (ht_elements t' ≡ₚ
    (local_table_hash (hash_key key), mkSlotEntry (hash_key key) key slot)
      :: ht_elements (table m)) as Hperm.
  { apply ht_insert_elements. intros h e Hin. by destruct (proj2 Hwf _ _ Hin). }
  assert (wf (mk t')) as Hwf'.
  { split.
    - unfold keys; simpl. rewrite Hperm. simpl. apply NoDup_cons. split; [|apply Hwf].
      change (key ∉ keys m). rewrite elem_of_keys, Hnone by done. by intros [].
    - simpl. intros h e. rewrite Hperm. intros [[= -> ->]|]%elem_of_cons; [done|].
      by apply Hwf. }
  split; [done|]. split; [done|].
  unfold abs. rewrite (list_to_map_proper (pairs (mk t')) ((key, slot) :: pairs m)).
  - done.
  - rewrite pairs_fst. apply Hwf'.
  - unfold pairs; simpl. by rewrite Hperm.
Qed.

Lemma remove_hashed_spec m hash key :
  wf m → hash = hash_key key →
  (remove_hashed m hash key).1 = abs m !! key ∧
  wf (remove_hashed m hash key).2 ∧
  abs (remove_hashed m hash key).2 = delete key (abs m).
Proof.
  intros Hwf ->. unfold remove_hashed.
  pose proof (find_abs m key Hwf) as Hf.
  destruct (ht_find _ _ _) as [e|] eqn:E; simpl in Hf.
  - destruct (ht_remove_Some _ _ _ _ E) as (h & t' & -> & Hperm). simpl.
    apply ht_find_Some in E as [Hk _]. apply bytes_eqb_true in Hk.
    assert (NoDup ((λ e : Z * SlotEntry, se_key e.2) <$> (h, e) :: ht_elements t')) as Hnd.
    { rewrite <-Hperm. apply Hwf. }
    assert (wf (mk t')) as Hwf'.
    { split.
      - simpl in Hnd. by apply NoDup_cons in Hnd as [_ ?].
      - simpl. intros h' e' Hin. apply Hwf. rewrite Hperm. by right. }
    split; [done|]. split; [done|].
    assert (abs m = <[key := se_slot e]> (abs (mk t'))) as ->.
    { unfold abs. rewrite (list_to_map_proper (pairs m) ((key, se_slot e) :: pairs (mk t'))).
      - done.
      - rewrite pairs_fst. apply Hwf.
      - unfold pairs; simpl. rewrite Hperm. simpl. by rewrite Hk. }
    rewrite delete_insert_id; [done|].
    apply eq_None_not_Some. rewrite <-elem_of_keys by done.
    simpl in Hnd. apply NoDup_cons in Hnd as [Hni _]. by rewrite Hk in Hni.
  - rewrite ht_remove_None by done. simpl. split; [done|]. split; [done|].
    by rewrite delete_id.
Qed.

End SlotMap.
Arguments t HT : clear implicits.
End SlotMap.

(** ** A typed table: slot map plus slab

    [rep sm sl m] says that the pair stores the logical map [m]: every key has
    an occupied slot of its own, and no occupied slot is orphaned. *)
Module Table.
Section Table.
Context `{Hashing} {HT : Type → Type} `{!HashTable HT} {T : Type}.
Implicit Types (sm : SlotMap.t HT) (sl : ObjectSlab.t T) (m : gmap Bytes T).

Record rep sm sl m : Prop := {
  rep_sm : SlotMap.wf sm;
  rep_sl : ObjectSlab.wf sl;
  rep_lookup : ∀ k, m !! k = SlotMap.abs sm !! k ≫= ObjectSlab.get sl;
  rep_occupied : ∀ k s, SlotMap.abs sm !! k = Some s → is_Some (ObjectSlab.get sl s);
  rep_inj : ∀ k1 k2 s, SlotMap.abs sm !! k1 = Some s → SlotMap.abs sm !! k2 = Some s → k1 = k2;
  rep_owned : ∀ s, is_Some (ObjectSlab.get sl s) → ∃ k, SlotMap.abs sm !! k = Some s;
}.

Lemma rep_empty : rep SlotMap.default ObjectSlab.default ∅.
Proof.
  split.
  - apply SlotMap.slotmap_default_wf.
  - apply ObjectSlab.slab_default_wf.
  - intros k. by rewrite SlotMap.default_abs, !lookup_empty.
  - intros k s. by rewrite SlotMap.default_abs, lookup_empty.
  - intros k1 k2 s. by rewrite SlotMap.default_abs, lookup_empty.
  - intros s. unfold ObjectSlab.get. simpl. by intros [].
Qed.

Lemma rep_Some sm sl m k x :
  rep sm sl m → m !! k = Some x →
  ∃ s, SlotMap.get sm k = Some s ∧ SlotMap.get_hashed sm (hash_key k) k = Some s ∧
       ObjectSlab.get sl s = Some x.
Proof.
  intros [Hsm Hsl Hl _ _ _]. rewrite Hl. intros (s & Hs & Hx)%bind_Some.
  exists s. by rewrite SlotMap.get_abs, SlotMap.get_hashed_abs.
Qed.

Lemma rep_None sm sl m k :
  rep sm sl m → m !! k = None →
  SlotMap.get sm k = None ∧ SlotMap.get_hashed sm (hash_key k) k = None.
Proof.
  intros [Hsm Hsl Hl Hocc _ _]. rewrite Hl, SlotMap.get_abs, SlotMap.get_hashed_abs by done.
  destruct (SlotMap.abs sm !! k) eqn:E; [|done]. simpl. intros Hn.
  destruct (Hocc _ _ E) as [? ?]. congruence.
Qed.

Lemma rep_get sm sl m k s :
  rep sm sl m → SlotMap.get sm k = Some s → ∃ x, m !! k = Some x ∧ ObjectSlab.get sl s = Some x.
Proof.
  intros [Hsm Hsl Hl Hocc _ _] Hs. rewrite SlotMap.get_abs in Hs by done.
  destruct (Hocc _ _ Hs) as [x Hx]. exists x. split; [|done]. by rewrite Hl, Hs.
Qed.

Lemma rep_get_None sm sl m k :
  rep sm sl m → SlotMap.get sm k = None → m !! k = None.
Proof.
  intros [Hsm Hsl Hl _ _ _] Hs. rewrite SlotMap.get_abs in Hs by done. by rewrite Hl, Hs.
Qed.

Lemma rep_contains sm sl m k :
  rep sm sl m → SlotMap.contains_key sm k = bool_decide (is_Some (m !! k)).
Proof.
  intros Hr. unfold SlotMap.contains_key. apply bool_decide_ext.
  destruct (m !! k) eqn:E.
  - destruct (rep_Some _ _ _ _ _ Hr E) as (s & -> & _). by split.
  - destruct (rep_None _ _ _ _ Hr E) as [-> _]. split; by intros [].
Qed.

Lemma rep_contains_hashed sm sl m k :
  rep sm sl m → SlotMap.contains_key_hashed sm (hash_key k) k = bool_decide (is_Some (m !! k)).
Proof. apply rep_contains. Qed.

Lemma rep_keys sm sl m : rep sm sl m → SlotMap.keys sm ≡ₚ (map_to_list m).*1.
Proof.
  intros Hr. apply NoDup_Permutation.
  - apply (rep_sm _ _ _ Hr).
  - apply NoDup_fst_map_to_list.
  - intros k. rewrite SlotMap.elem_of_keys by apply Hr.
    rewrite list_elem_of_fmap. rewrite <-SlotMap.get_abs by apply Hr. split.
    + intros [s Hs]. destruct (rep_get _ _ _ _ _ Hr Hs) as (x & Hx & _).
      exists (k, x). by rewrite elem_of_map_to_list.
    + intros ([k' x] & -> & Hx%elem_of_map_to_list). simpl.
      destruct (rep_Some _ _ _ _ _ Hr Hx) as (s & -> & _). eauto.
Qed.

Lemma rep_len sm sl m : rep sm sl m → SlotMap.len sm = size m.
Proof.
  intros Hr. unfold SlotMap.len. rewrite ht_len_elements.
  transitivity (length (SlotMap.keys sm)); [unfold SlotMap.keys; by rewrite length_fmap|].
  rewrite (rep_keys _ _ _ Hr), length_fmap. by rewrite length_map_to_list.
Qed.

Lemma rep_write sm sl m k s x :
  rep sm sl m → SlotMap.get sm k = Some s → rep sm (ObjectSlab.write_slot sl s x) (<[k := x]> m).
Proof.
  intros Hr Hs. destruct (rep_get _ _ _ _ _ Hr Hs) as (y & Hy & Hsl).
  destruct Hr as [Hsm Hwf Hl Hocc Hinj Hown]. rewrite SlotMap.get_abs in Hs by done.
  destruct (ObjectSlab.write_slot_spec sl s x y Hwf Hsl) as [Hwf' Hget].
  split; [done|done|..].
  - intros j. destruct (decide (j = k)) as [->|Hne].
    + rewrite lookup_insert_eq, Hs. simpl. rewrite Hget. by case_decide.
    + rewrite lookup_insert_ne, Hl by done. destruct (SlotMap.abs sm !! j) as [s'|] eqn:E; [|done].
      simpl. rewrite Hget. case_decide; [|done]. subst. by destruct Hne; eapply Hinj.
  - intros j s' Hj. rewrite Hget. case_decide; eauto.
  - done.
  - intros s'. rewrite Hget. case_decide; subst; eauto.
Qed.

Lemma rep_insert sm sl m k x :
  rep sm sl m → m !! k = None →
  ∃ slot sl', ObjectSlab.insert x sl = Some (slot, sl') ∧
    rep (SlotMap.insert_hashed sm (hash_key k) k slot).2 sl' (<[k := x]> m).
Proof.
  intros Hr Hk. destruct (rep_None _ _ _ _ Hr Hk) as [Hn _].
  destruct Hr as [Hsm Hwf Hl Hocc Hinj Hown]. rewrite SlotMap.get_abs in Hn by done.
  destruct (ObjectSlab.slab_insert_spec x sl Hwf) as (slot & sl' & -> & Hfresh & Hwf' & Hget).
  exists slot, sl'. split; [done|].
  destruct (SlotMap.insert_hashed_spec sm (hash_key k) k slot Hsm eq_refl Hn) as (_ & Hsm' & Habs).
  assert (∀ j s', SlotMap.abs sm !! j = Some s' → s' ≠ slot) as Hne.
  { intros j s' Hj ->. destruct (Hocc _ _ Hj). congruence. }
  split; [done|done|..]; rewrite ?Habs.
  - intros j. destruct (decide (j = k)) as [->|Hjk].
    + rewrite !lookup_insert_eq. simpl. rewrite Hget. by case_decide.
    + rewrite !lookup_insert_ne, Hl by done. destruct (SlotMap.abs sm !! j) eqn:E; [|done].
      simpl. rewrite Hget. case_decide; [|done]. by destruct (Hne _ _ E).
  - intros j s'. rewrite lookup_insert_Some, Hget. intros [[-> ->]|[? Hj]]; case_decide; naive_solver.
  - intros j1 j2 s'. rewrite !lookup_insert_Some.
    intros [[-> ->]|[? ?]] [[-> ?]|[? ?]]; subst; eauto; exfalso; eapply Hne; eauto.
  - intros s'. rewrite Hget. case_decide; subst.
    + intros _. exists k. apply lookup_insert_eq.
    + intros [j Hj]%Hown. exists j. rewrite lookup_insert_ne; [done|]. congruence.
Qed.

Lemma rep_remove sm sl m k s :
  rep sm sl m → SlotMap.get sm k = Some s →
  (SlotMap.remove sm k).1 = Some s ∧
  rep (SlotMap.remove sm k).2 (ObjectSlab.remove sl s).2 (delete k m).
Proof.
  intros [Hsm Hwf Hl Hocc Hinj Hown] Hs. rewrite SlotMap.get_abs in Hs by done.
  destruct (SlotMap.remove_hashed_spec sm (hash_key k) k Hsm eq_refl) as (Hres & Hsm' & Habs).
  destruct (ObjectSlab.slab_remove_spec sl s Hwf) as (sl' & Hrm & Hwf' & Hget).
  unfold SlotMap.remove. split; [congruence|].
  rewrite Hrm. simpl. split; [done|done|..]; rewrite ?Habs.
  - intros j. destruct (decide (j = k)) as [->|Hjk]; [by rewrite !lookup_delete_eq|].
    rewrite !lookup_delete_ne, Hl by done. destruct (SlotMap.abs sm !! j) eqn:E; [|done].
    simpl. rewrite Hget. case_decide; [|done]. subst. by destruct Hjk; eapply Hinj.
  - intros j s'. rewrite lookup_delete_Some, Hget. intros [? Hj].
    case_decide; [|eauto]. subst. exfalso. eauto.
  - intros j1 j2 s'. rewrite !lookup_delete_Some. naive_solver.
  - intros s'. rewrite Hget. case_decide; [by intros []|].
    intros [j Hj]%Hown. exists j. rewrite lookup_delete_ne; [done|]. congruence.
Qed.

Lemma rep_remove_None sm sl m k :
  rep sm sl m → m !! k = None →
  (SlotMap.remove sm k).1 = None ∧ rep (SlotMap.remove sm k).2 sl m.
Proof.
  intros Hr Hk. destruct (rep_None _ _ _ _ Hr Hk) as [Hn _].
  destruct Hr as [Hsm Hwf Hl Hocc Hinj Hown]. rewrite SlotMap.get_abs in Hn by done.
  destruct (SlotMap.remove_hashed_spec sm (hash_key k) k Hsm eq_refl) as (Hres & Hsm' & Habs).
  unfold SlotMap.remove. split; [congruence|].
  rewrite delete_id in Habs by done.
  split; rewrite ?Habs; done.
Qed.

End Table.
End Table.
