(* ===== verification/RingBuffer.v ===== *)
(** * Fixed-capacity deques: [ListChunk] and [SmallListDeque]

    [redis_objects/list_chunk.rs] and [redis_objects/list_deque.rs] are the
    same ring buffer over a fixed array, at capacities 32 and 8.  [Ring] is the
    ring for an arbitrary capacity; [ListChunk] and [SmallListDeque] are its
    two instances with their own extra operations.  The representation
    predicate [Ring.rep] relates a ring to the sequence it stores. *)

From S2P Require Import Prelude.

Definition SMALL_LIST_INLINE : nat := 8.
Definition LIST_CHUNK_CAPACITY : nat := 32.

(** [Result<(), Bytes>] of a push: the new state, or the rejected value. *)
Inductive PushResult (S : Type) := PushOk (s : S) | PushErr (value : Bytes).
Arguments PushOk {S} s.
Arguments PushErr {S} value.

(** [.expect(..)] on a push. *)
Definition expect_push {S} (r : PushResult S) : option S :=
  match r with PushOk s => Some s | PushErr _ => None end.

Module Ring.

Record t := mk { entries : list (option Bytes); head : nat; len : nat }.

Section Ring.
Context (cap : nat).

Definition new : t := mk (replicate cap None) 0 0.

Definition is_full (r : t) : bool := len r =? cap.

Definition physical_index (r : t) (logical_index : nat) : nat :=
  (head r + logical_index) mod cap.

Definition get (r : t) (index : nat) : option Bytes :=
  if index <? len r then mjoin (entries r !! physical_index r index) else None.

Definition set (r : t) (index : nat) (value : Bytes) : t :=
  mk (<[physical_index r index := Some value]> (entries r)) (head r) (len r).

Definition push_front (r : t) (value : Bytes) : PushResult t :=
  if is_full r then PushErr value
  else
    let head' := if len r =? 0 then 0 else (head r + cap - 1) mod cap in
    PushOk (mk (<[head' := Some value]> (entries r)) head' (len r + 1)).

Definition push_back (r : t) (value : Bytes) : PushResult t :=
  if is_full r then PushErr value
  else
    let index := physical_index r (len r) in
    PushOk (mk (<[index := Some value]> (entries r)) (head r) (len r + 1)).

Definition pop_front (r : t) : option Bytes * t :=
  if len r =? 0 then (None, r)
  else
    let value := mjoin (entries r !! head r) in
    let entries' := <[head r := None]> (entries r) in
    let head' := (head r + 1) mod cap in
    let len' := len r - 1 in
    (value, mk entries' (if len' =? 0 then 0 else head') len').

Definition pop_back (r : t) : option Bytes * t :=
  if len r =? 0 then (None, r)
  else
    let index := physical_index r (len r - 1) in
    let value := mjoin (entries r !! index) in
    let len' := len r - 1 in
    (value, mk (<[index := None]> (entries r)) (if len' =? 0 then 0 else head r) len').

(** [take_all]: moves the values out slot by slot; a vacant slot inside the
    live range would panic. *)
Definition take_all (r : t) : option (list Bytes * t) :=
  '(values, entries') ←
    foldM (λ '(values, es) index,
             value ← mjoin (es !! physical_index r index);
             Some (values ++ [value], <[physical_index r index := None]> es))
          ([], entries r) (seq 0 (len r));
  Some (values, mk entries' 0 0).

(** The iterators call [get] at increasing indices until it returns [None]. *)
Fixpoint iter_from (r : t) (fuel index : nat) : list Bytes :=
  match fuel with
  | O => []
  | S fuel' => match get r index with
               | Some value => value :: iter_from r fuel' (S index)
               | None => []
               end
  end.

Definition iter (r : t) : list Bytes := iter_from r (S (len r)) 0.

(** ** What a ring stores *)
Record rep (r : t) (vs : list Bytes) : Prop := {
  rep_array : length (entries r) = cap;
  rep_head : head r < cap;
  rep_len : len r = length vs;
  rep_cap : length vs ≤ cap;
  rep_slot : ∀ i v, vs !! i = Some v → entries r !! physical_index r i = Some (Some v);
}.

Lemma phys_eq h i :
  h < cap → i ≤ cap →
  (h + i) mod cap = if decide (h + i < cap) then h + i else h + i - cap.
Proof.
  intros. case_decide; [by apply Nat.mod_small|].
  symmetry. apply Nat.mod_unique with 1; lia.
Qed.

Lemma phys_lt h i : 0 < cap → (h + i) mod cap < cap.
Proof. intros. apply Nat.mod_upper_bound. lia. Qed.

Lemma phys_inj h i j :
  h < cap → i < cap → j < cap → (h + i) mod cap = (h + j) mod cap → i = j.
Proof. intros. rewrite !phys_eq in * by lia. repeat case_decide; lia. Qed.

Lemma is_full_rep r vs : rep r vs → is_full r = bool_decide (length vs = cap).
Proof.
  intros Hr. unfold is_full. rewrite (rep_len _ _ Hr).
  destruct (length vs =? cap) eqn:E; bool_case; symmetry;
    [by apply bool_decide_eq_true|by apply bool_decide_eq_false].
Qed.

Lemma new_rep : 0 < cap → rep new [].
Proof. intros. split; simpl; try lia; [by rewrite length_replicate|done]. Qed.

Lemma get_rep r vs i : rep r vs → get r i = vs !! i.
Proof.
  intros [Ha Hh Hl Hc Hs]. unfold get. rewrite Hl. destruct (i <? length vs) eqn:E; bool_case.
  - destruct (lookup_lt_is_Some_2 vs i E) as [v Hv]. by rewrite (Hs _ _ Hv), Hv.
  - by rewrite lookup_ge_None_2.
Qed.

Lemma set_rep r vs i v : rep r vs → i < length vs → rep (set r i v) (<[i := v]> vs).
Proof.
  intros [Ha Hh Hl Hc Hs] Hi. split; simpl; rewrite ?length_insert; try done.
  intros j w. unfold physical_index in *; simpl. destruct (decide (i = j)) as [->|Hne].
  - rewrite list_lookup_insert_eq by done. intros [= ->].
    apply list_lookup_insert_eq. rewrite Ha. apply phys_lt. lia.
  - rewrite list_lookup_insert_ne by done. intros Hw.
    assert (j < length vs) by by eapply lookup_lt_Some.
    rewrite list_lookup_insert_ne; [auto|]. intros ?%phys_inj; lia.
Qed.

Lemma push_back_rep r vs v :
  rep r vs → length vs < cap → ∃ r', push_back r v = PushOk r' ∧ rep r' (vs ++ [v]).
Proof.
  intros Hr Hlt. unfold push_back. rewrite (is_full_rep _ _ Hr), bool_decide_eq_false_2 by lia.
  destruct Hr as [Ha Hh Hl Hc Hs]. eexists. split; [done|].
  split; simpl; rewrite ?length_insert, ?length_app; simpl; try lia.
  intros i w. unfold physical_index in *; simpl. rewrite Hl.
  destruct (decide (i < length vs)).
  - rewrite lookup_app_l by done. intros Hw. rewrite list_lookup_insert_ne; [auto|].
    intros ?%phys_inj; lia.
  - rewrite lookup_app_r by lia. destruct (i - length vs) eqn:E; [|done].
    intros [= ->]. assert (i = length vs) as -> by lia.
    apply list_lookup_insert_eq. rewrite Ha. apply phys_lt. lia.
Qed.

Lemma push_front_rep r vs v :
  rep r vs → length vs < cap → ∃ r', push_front r v = PushOk r' ∧ rep r' (v :: vs).
Proof.
  intros Hr Hlt. unfold push_front. rewrite (is_full_rep _ _ Hr), bool_decide_eq_false_2 by lia.
  destruct Hr as [Ha Hh Hl Hc Hs]. eexists. split; [done|]. rewrite Hl in *.
  set (h' := if length vs =? 0 then 0 else (head r + cap - 1) mod cap).
  assert (h' < cap) as Hh'.
  { unfold h'. case_match; [lia|]. apply Nat.mod_upper_bound. lia. }
  assert (∀ i, i < length vs → (h' + S i) mod cap = (head r + i) mod cap) as Hshift.
  { intros i Hi. unfold h'. destruct (length vs =? 0) eqn:E; bool_case; [lia|].
    replace (head r + cap - 1) with (head r + (cap - 1)) by lia.
    rewrite (phys_eq (head r) (cap - 1)) by lia.
    case_decide; rewrite !phys_eq by lia; repeat case_decide; lia. }
  split; simpl; rewrite ?length_insert; try lia.
  intros [|i] w; unfold physical_index in *; simpl.
  - intros [= ->]. rewrite Nat.add_0_r, Nat.mod_small by done. apply list_lookup_insert_eq. lia.
  - intros Hw. assert (i < length vs) by by eapply lookup_lt_Some.
    rewrite list_lookup_insert_ne; [rewrite Hshift; auto|].
    rewrite phys_eq by lia. case_decide; lia.
Qed.

Lemma push_full r vs v :
  rep r vs → length vs = cap → push_back r v = PushErr v ∧ push_front r v = PushErr v.
Proof.
  intros Hr Hl. unfold push_back, push_front.
  by rewrite (is_full_rep _ _ Hr), bool_decide_eq_true_2.
Qed.

Lemma pop_front_nil r : rep r [] → pop_front r = (None, r).
Proof. intros Hr. unfold pop_front. by rewrite (rep_len _ _ Hr). Qed.

Lemma pop_back_nil r : rep r [] → pop_back r = (None, r).
Proof. intros Hr. unfold pop_back. by rewrite (rep_len _ _ Hr). Qed.

Lemma pop_front_rep r v vs :
  rep r (v :: vs) → ∃ r', pop_front r = (Some v, r') ∧ rep r' vs.
Proof.
  intros [Ha Hh Hl Hc Hs]. unfold pop_front. rewrite Hl. simpl in *.
  eexists. pose proof (Hs 0 v eq_refl) as H0. unfold physical_index in *; simpl in *.
  rewrite Nat.add_0_r, Nat.mod_small in H0 by done. rewrite H0. simpl. split; [done|].
  rewrite Nat.sub_0_r.
  set (h' := if length vs =? 0 then 0 else (head r + 1) mod cap).
  assert (h' < cap). { unfold h'. case_match; [lia|]. apply Nat.mod_upper_bound. lia. }
  split; simpl; rewrite ?length_insert; try lia.
  intros i w Hw. unfold physical_index in *; simpl in *.
  assert (i < length vs) by by eapply lookup_lt_Some.
  assert ((h' + i) mod cap = (head r + S i) mod cap) as ->.
  { unfold h'. destruct (length vs =? 0) eqn:E; bool_case; [lia|].
    rewrite (phys_eq (head r) 1) by lia.
    case_decide; rewrite !phys_eq by lia; repeat case_decide; lia. }
  rewrite list_lookup_insert_ne; [by apply (Hs (S i))|].
  rewrite phys_eq by lia. case_decide; lia.
Qed.

Lemma pop_back_rep r vs v :
  rep r (vs ++ [v]) → ∃ r', pop_back r = (Some v, r') ∧ rep r' vs.
Proof.
  intros [Ha Hh Hl Hc Hs]. unfold pop_back. rewrite length_app in *. simpl in *. rewrite Hl.
  replace (length vs + 1 =? 0) with false by (symmetry; apply Nat.eqb_neq; lia).
  rewrite Nat.add_sub. eexists.
  rewrite (Hs (length vs) v) by (rewrite lookup_app_r, Nat.sub_diag by lia; done).
  simpl. split; [done|]. split; simpl; rewrite ?length_insert; try lia.
  - case_match; lia.
  - intros i w Hw. unfold physical_index in *; simpl.
    assert (i < length vs) by by eapply lookup_lt_Some.
    destruct (length vs =? 0) eqn:E; bool_case; [lia|].
    rewrite list_lookup_insert_ne; [apply Hs; by rewrite lookup_app_l|].
    intros ?%phys_inj; lia.
Qed.

Lemma take_all_rep r vs :
  rep r vs → ∃ r', take_all r = Some (vs, r') ∧ (0 < cap → rep r' []).
Proof.
  intros [Ha Hh Hl Hc Hs]. unfold take_all. rewrite Hl.
  assert (∀ n, n ≤ length vs → ∃ es,
    foldM (λ '(values, es) index,
             value ← mjoin (es !! physical_index r index);
             Some (values ++ [value], <[physical_index r index := None]> es))
          ([], entries r) (seq 0 n) = Some (take n vs, es) ∧ length es = cap ∧
    ∀ i v, n ≤ i → vs !! i = Some v → es !! physical_index r i = Some (Some v)) as Hloop.
  { induction n as [|n IH]; intros Hn.
    - exists (entries r). split; [done|]. auto.
    - destruct IH as (es & Hf & Hle & Hi); [lia|].
      rewrite seq_S, foldM_app, Hf. simpl.
      destruct (lookup_lt_is_Some_2 vs n ltac:(lia)) as [v Hv].
      rewrite (Hi n v (le_n _) Hv). simpl. eexists. split.
      { by rewrite (take_S_r _ _ _ Hv). }
      split; [by rewrite length_insert|]. intros i w Hni Hw.
      assert (i < length vs) by by eapply lookup_lt_Some.
      rewrite list_lookup_insert_ne; [apply Hi; [lia|done]|].
      unfold physical_index. intros ?%phys_inj; lia. }
  destruct (Hloop (length vs) (le_n _)) as (es & -> & Hle & _). simpl.
  rewrite take_ge by done. eexists. split; [done|]. intros. split; simpl; try lia. done.
Qed.

Lemma iter_rep r vs : rep r vs → iter r = vs.
Proof.
  intros Hr. unfold iter. rewrite (rep_len _ _ Hr).
  assert (∀ fuel i, length vs < fuel + i → iter_from r fuel i = drop i vs) as Hit.
  { induction fuel as [|fuel IH]; intros i Hi; simpl.
    - by rewrite drop_ge by lia.
    - rewrite (get_rep _ _ _ Hr). destruct (vs !! i) as [v|] eqn:Hv.
      + rewrite IH by lia. symmetry. by apply drop_S.
      + apply lookup_ge_None in Hv. by rewrite drop_ge. }
  rewrite Hit by lia. by rewrite drop_0.
Qed.

(** Appending a run of values that fits. *)
Lemma push_back_all_rep r vs ws :
  rep r vs → length vs + length ws ≤ cap →
  ∃ r', foldM (λ r v, expect_push (push_back r v)) r ws = Some r' ∧ rep r' (vs ++ ws).
Proof.
  revert r vs. induction ws as [|w ws IH]; intros r vs Hr Hl; simpl in *.
  - exists r. by rewrite app_nil_r.
  - destruct (push_back_rep r vs w Hr) as (r1 & -> & Hr1); [lia|]. simpl.
    destruct (IH r1 (vs ++ [w]) Hr1) as (r2 & -> & Hr2); [rewrite length_app; simpl; lia|].
    exists r2. split; [done|]. by rewrite <-app_assoc in Hr2.
Qed.

(** Prepending one by one leaves the run reversed, as LPUSH does. *)
Lemma push_front_all_rep r vs ws :
  rep r vs → length vs + length ws ≤ cap →
  ∃ r', foldM (λ r v, expect_push (push_front r v)) r ws = Some r' ∧ rep r' (rev ws ++ vs).
Proof.
  revert r vs. induction ws as [|w ws IH]; intros r vs Hr Hl; simpl in *.
  - by exists r.
  - destruct (push_front_rep r vs w Hr) as (r1 & -> & Hr1); [lia|]. simpl.
    destruct (IH r1 (w :: vs) Hr1) as (r2 & -> & Hr2); [simpl; lia|].
    exists r2. split; [done|]. by rewrite <-app_assoc.
Qed.

End Ring.
End Ring.

(** ** [ListChunk]: the ring at capacity 32 *)
Module ListChunk.

Abbreviation t := Ring.t.

Definition new : t := Ring.new LIST_CHUNK_CAPACITY.
Definition len (c : t) : nat := Ring.len c.
Definition is_empty (c : t) : bool := Ring.len c =? 0.
Definition is_full (c : t) : bool := Ring.is_full LIST_CHUNK_CAPACITY c.
Definition get (c : t) (index : nat) : option Bytes := Ring.get LIST_CHUNK_CAPACITY c index.
Definition set (c : t) (index : nat) (value : Bytes) : t :=
  Ring.set LIST_CHUNK_CAPACITY c index value.
Definition push_front (c : t) (value : Bytes) : PushResult t :=
  Ring.push_front LIST_CHUNK_CAPACITY c value.
Definition push_back (c : t) (value : Bytes) : PushResult t :=
  Ring.push_back LIST_CHUNK_CAPACITY c value.
Definition pop_front (c : t) : option Bytes * t := Ring.pop_front LIST_CHUNK_CAPACITY c.
Definition pop_back (c : t) : option Bytes * t := Ring.pop_back LIST_CHUNK_CAPACITY c.
Definition take_all (c : t) : option (list Bytes * t) := Ring.take_all LIST_CHUNK_CAPACITY c.
Definition iter (c : t) : list Bytes := Ring.iter LIST_CHUNK_CAPACITY c.

Definition remove (c : t) (index : nat) : option (option Bytes * t) :=
  if len c <=? index then Some (None, c)
  else
    '(values, c') ← take_all c;
    '(value, values') ← vec_remove index values;
    c'' ← foldM (λ c v, expect_push (push_back c v)) c' values';
    Some (Some value, c'').

Abbreviation rep := (Ring.rep LIST_CHUNK_CAPACITY).

Lemma cap_pos : 0 < LIST_CHUNK_CAPACITY.
Proof. unfold LIST_CHUNK_CAPACITY. lia. Qed.

Lemma chunk_remove_rep c vs i v :
  rep c vs → vs !! i = Some v → ∃ c', remove c i = Some (Some v, c') ∧ rep c' (delete i vs).
Proof.
  intros Hr Hv. unfold remove, len, push_back. rewrite (Ring.rep_len _ _ _ Hr).
  assert (i < length vs) by by eapply lookup_lt_Some.
  replace (length vs <=? i) with false by (symmetry; apply Nat.leb_gt; lia).
  destruct (Ring.take_all_rep _ _ _ Hr) as (c1 & Ht & Hc1).
  unfold take_all. rewrite Ht. simpl. rewrite (vec_remove_Some _ _ _ Hv). simpl.
  destruct (Ring.push_back_all_rep _ c1 [] (delete i vs) (Hc1 cap_pos)) as (c2 & -> & Hc2).
  - rewrite length_delete by eauto. pose proof (Ring.rep_cap _ _ _ Hr). simpl. lia.
  - eauto.
Qed.

End ListChunk.

(** ** [SmallListDeque]: the ring at capacity 8 *)
Module SmallListDeque.

Abbreviation t := Ring.t.

Definition new : t := Ring.new SMALL_LIST_INLINE.
Definition len (d : t) : nat := Ring.len d.
Definition is_full (d : t) : bool := Ring.is_full SMALL_LIST_INLINE d.
Definition get (d : t) (index : nat) : option Bytes := Ring.get SMALL_LIST_INLINE d index.
Definition set (d : t) (index : nat) (value : Bytes) : t :=
  Ring.set SMALL_LIST_INLINE d index value.
Definition push_front (d : t) (value : Bytes) : PushResult t :=
  Ring.push_front SMALL_LIST_INLINE d value.
Definition push_back (d : t) (value : Bytes) : PushResult t :=
  Ring.push_back SMALL_LIST_INLINE d value.
Definition pop_front (d : t) : option Bytes * t := Ring.pop_front SMALL_LIST_INLINE d.
Definition pop_back (d : t) : option Bytes * t := Ring.pop_back SMALL_LIST_INLINE d.
Definition take_all (d : t) : option (list Bytes * t) := Ring.take_all SMALL_LIST_INLINE d.
Definition iter (d : t) : list Bytes := Ring.iter SMALL_LIST_INLINE d.

Definition from_vec (values : list Bytes) : option t :=
  foldM (λ d v, expect_push (push_back d v)) new values.

(** A full deque rejects the value; otherwise [Vec::insert] panics beyond the
    end. *)
Definition insert (d : t) (index : nat) (value : Bytes) : option (PushResult t) :=
  if is_full d then Some (PushErr value)
  else
    '(values, _) ← take_all d;
    values' ← vec_insert index value values;
    d' ← from_vec values';
    Some (PushOk d').

Definition remove (d : t) (index : nat) : option (option Bytes * t) :=
  if len d <=? index then Some (None, d)
  else
    '(values, _) ← take_all d;
    '(value, values') ← vec_remove index values;
    d' ← from_vec values';
    Some (Some value, d').

Definition push_values_small (d : t) (values : list Bytes) (front : bool) : option t :=
  if front then foldM (λ d v, expect_push (push_front d v)) d values
  else foldM (λ d v, expect_push (push_back d v)) d values.

Abbreviation rep := (Ring.rep SMALL_LIST_INLINE).

Lemma deque_cap_pos : 0 < SMALL_LIST_INLINE.
Proof. unfold SMALL_LIST_INLINE. lia. Qed.

Lemma deque_from_vec_rep vs :
  length vs ≤ SMALL_LIST_INLINE → ∃ d, from_vec vs = Some d ∧ rep d vs.
Proof.
  intros. destruct (Ring.push_back_all_rep _ new [] vs (Ring.new_rep _ deque_cap_pos)) as (d & ? & ?);
    [done|]. eauto.
Qed.

Lemma deque_insert_rep d vs i v :
  rep d vs → length vs < SMALL_LIST_INLINE → i ≤ length vs →
  ∃ d', insert d i v = Some (PushOk d') ∧ rep d' (take i vs ++ v :: drop i vs).
Proof.
  intros Hr Hlt Hi. unfold insert, is_full.
  rewrite (Ring.is_full_rep _ _ _ Hr), bool_decide_eq_false_2 by lia.
  destruct (Ring.take_all_rep _ _ _ Hr) as (d1 & Ht & _).
  unfold take_all. rewrite Ht. simpl. rewrite vec_insert_Some by done. simpl.
  destruct (deque_from_vec_rep (take i vs ++ v :: drop i vs)) as (d2 & -> & Hd2).
  - rewrite length_app. simpl. rewrite length_take, length_drop. lia.
  - eauto.
Qed.

Lemma deque_remove_rep d vs i v :
  rep d vs → vs !! i = Some v → ∃ d', remove d i = Some (Some v, d') ∧ rep d' (delete i vs).
Proof.
  intros Hr Hv. unfold remove, len. rewrite (Ring.rep_len _ _ _ Hr).
  assert (i < length vs) by by eapply lookup_lt_Some.
  replace (length vs <=? i) with false by (symmetry; apply Nat.leb_gt; lia).
  destruct (Ring.take_all_rep _ _ _ Hr) as (d1 & Ht & _).
  unfold take_all. rewrite Ht. simpl. rewrite (vec_remove_Some _ _ _ Hv). simpl.
  destruct (deque_from_vec_rep (delete i vs)) as (d2 & -> & Hd2).
  - rewrite length_delete by eauto. pose proof (Ring.rep_cap _ _ _ Hr). lia.
  - eauto.
Qed.

Lemma push_values_small_rep d vs ws front :
  rep d vs → length vs + length ws ≤ SMALL_LIST_INLINE →
  ∃ d', push_values_small d ws front = Some d' ∧
        rep d' (if front then rev ws ++ vs else vs ++ ws).
Proof.
  intros. unfold push_values_small.
  destruct front; [by apply Ring.push_front_all_rep|by apply Ring.push_back_all_rep].
Qed.

End SmallListDeque.

#[global] Arguments ListChunk.push_front : simpl never.
#[global] Arguments ListChunk.push_back : simpl never.
#[global] Arguments ListChunk.pop_front : simpl never.
#[global] Arguments ListChunk.pop_back : simpl never.
#[global] Arguments ListChunk.take_all : simpl never.
#[global] Arguments ListChunk.remove : simpl never.
#[global] Arguments ListChunk.new : simpl never.
#[global] Arguments SmallListDeque.push_front : simpl never.
#[global] Arguments SmallListDeque.push_back : simpl never.
#[global] Arguments SmallListDeque.pop_front : simpl never.
#[global] Arguments SmallListDeque.pop_back : simpl never.
#[global] Arguments SmallListDeque.insert : simpl never.
#[global] Arguments SmallListDeque.remove : simpl never.
#[global] Arguments SmallListDeque.from_vec : simpl never.
#[global] Arguments SmallListDeque.push_values_small : simpl never.
#[global] Arguments SmallListDeque.new : simpl never.
