(* ===== verification/ListObject.v ===== *)
(** * Lists: [SegmentedList] and [ListObject]

    A Redis list is stored as nothing, one value, a small ring, or a deque of
    32-slot chunks ([redis_objects/segmented_list.rs], [list_object.rs]).  The
    representation predicates relate each form to the sequence of values, and
    one lemma per operation shows that it acts on that sequence as the Redis
    list operation does, without ever panicking. *)

From S2P Require Import Prelude RingBuffer.

(** ** [SegmentedList] *)
Module SegmentedList.

Record t := mk { chunks : list ListChunk.t; len : nat }.

(** [with_capacity]: capacity is an allocation hint only. *)
Definition with_capacity (capacity : nat) : t := mk [] 0.

Definition push_front (s : t) (value : Bytes) : option t :=
  match chunks s with
  | c :: cs =>
      if negb (ListChunk.is_full c) then
        c' ← expect_push (ListChunk.push_front c value);
        Some (mk (c' :: cs) (len s + 1))
      else
        c' ← expect_push (ListChunk.push_front ListChunk.new value);
        Some (mk (c' :: chunks s) (len s + 1))
  | [] =>
      c' ← expect_push (ListChunk.push_front ListChunk.new value);
      Some (mk (c' :: chunks s) (len s + 1))
  end.

Definition push_back (s : t) (value : Bytes) : option t :=
  match vec_pop (chunks s) with
  | Some (c, cs) =>
      if negb (ListChunk.is_full c) then
        c' ← expect_push (ListChunk.push_back c value);
        Some (mk (cs ++ [c']) (len s + 1))
      else
        c' ← expect_push (ListChunk.push_back ListChunk.new value);
        Some (mk (chunks s ++ [c']) (len s + 1))
  | None =>
      c' ← expect_push (ListChunk.push_back ListChunk.new value);
      Some (mk (chunks s ++ [c']) (len s + 1))
  end.

Definition from_vec (values : list Bytes) : option t :=
  foldM push_back (with_capacity (length values)) values.

Definition push_values (s : t) (values : list Bytes) (front : bool) : option t :=
  if front then foldM push_front s values else foldM push_back s values.

Definition pop_front (s : t) : option Bytes * t :=
  match chunks s with
  | [] => (None, s)
  | c :: cs =>
      let '(value, c') := ListChunk.pop_front c in
      match value with
      | None => (None, mk (c' :: cs) (len s))
      | Some v =>
          (Some v, mk (if ListChunk.is_empty c' then cs else c' :: cs) (len s - 1))
      end
  end.

Definition pop_back (s : t) : option Bytes * t :=
  match vec_pop (chunks s) with
  | None => (None, s)
  | Some (c, cs) =>
      let '(value, c') := ListChunk.pop_back c in
      match value with
      | None => (None, mk (cs ++ [c']) (len s))
      | Some v =>
          (Some v, mk (if ListChunk.is_empty c' then cs else cs ++ [c']) (len s - 1))
      end
  end.

(** The two scan loops of [get]: head to tail, and tail to head. *)
Fixpoint get_forward (cs : list ListChunk.t) (offset : nat) : option Bytes :=
  match cs with
  | [] => None
  | c :: cs' =>
      if offset <? ListChunk.len c then ListChunk.get c offset
      else get_forward cs' (offset - ListChunk.len c)
  end.

Fixpoint get_backward (cs : list ListChunk.t) (offset : nat) : option Bytes :=
  match cs with
  | [] => None
  | c :: cs' =>
      if offset <? ListChunk.len c then ListChunk.get c (ListChunk.len c - offset - 1)
      else get_backward cs' (offset - ListChunk.len c)
  end.

Definition get (s : t) (index : nat) : option Bytes :=
  if len s <=? index then None
  else if index <=? len s / 2 then get_forward (chunks s) index
  else get_backward (rev (chunks s)) (len s - index - 1).

Fixpoint set_forward (cs : list ListChunk.t) (offset : nat) (value : Bytes) : list ListChunk.t :=
  match cs with
  | [] => []
  | c :: cs' =>
      if offset <? ListChunk.len c then ListChunk.set c offset value :: cs'
      else c :: set_forward cs' (offset - ListChunk.len c) value
  end.

Fixpoint set_backward (cs : list ListChunk.t) (offset : nat) (value : Bytes) : list ListChunk.t :=
  match cs with
  | [] => []
  | c :: cs' =>
      if offset <? ListChunk.len c
      then ListChunk.set c (ListChunk.len c - offset - 1) value :: cs'
      else c :: set_backward cs' (offset - ListChunk.len c) value
  end.

Definition set (s : t) (index : nat) (value : Bytes) : t :=
  if index <=? len s / 2 then mk (set_forward (chunks s) index value) (len s)
  else mk (rev (set_backward (rev (chunks s)) (len s - index - 1) value)) (len s).

Definition take_all (s : t) : option (list Bytes * t) :=
  values ← foldM (λ values c, '(vs, _) ← ListChunk.take_all c; Some (values ++ vs))
                 [] (chunks s);
  Some (values, mk [] 0).

Definition insert (s : t) (index : nat) (value : Bytes) : option t :=
  if index =? 0 then push_front s value
  else if len s <=? index then push_back s value
  else
    '(values, _) ← take_all s;
    values' ← vec_insert index value values;
    from_vec values'.

Fixpoint remove_loop (cs : list ListChunk.t) (offset : nat)
    : option (option (option Bytes * list ListChunk.t)) :=
  match cs with
  | [] => Some None
  | c :: cs' =>
      if offset <? ListChunk.len c then
        '(value, c') ← ListChunk.remove c offset;
        Some (Some (value, if ListChunk.is_empty c' then cs' else c' :: cs'))
      else
        r ← remove_loop cs' (offset - ListChunk.len c);
        Some (match r with Some (value, cs'') => Some (value, c :: cs'') | None => None end)
  end.

Definition remove (s : t) (index : nat) : option (option Bytes * t) :=
  if len s <=? index then Some (None, s)
  else
    r ← remove_loop (chunks s) index;
    Some (match r with
          | Some (value, cs) => (value, mk cs (len s - 1))
          | None => (None, s)
          end).

Definition clear (s : t) : t := mk [] 0.

(** [SegmentedListIter] drains one chunk iterator after the other. *)
Definition iter (s : t) : list Bytes := mjoin (ListChunk.iter <$> chunks s).


(** ** What a segmented list stores: the concatenation of non-empty chunks. *)
Inductive chunks_rep : list ListChunk.t → list Bytes → Prop :=
  | chunks_rep_nil : chunks_rep [] []
  | chunks_rep_cons c cs vs ws :
      ListChunk.rep c vs → vs ≠ [] → chunks_rep cs ws → chunks_rep (c :: cs) (vs ++ ws).

Definition rep (s : t) (vs : list Bytes) : Prop :=
  chunks_rep (chunks s) vs ∧ len s = length vs.

#[local] Hint Constructors chunks_rep : core.

Lemma chunks_rep_app cs1 cs2 vs :
  chunks_rep (cs1 ++ cs2) vs ↔
  ∃ v1 v2, vs = v1 ++ v2 ∧ chunks_rep cs1 v1 ∧ chunks_rep cs2 v2.
Proof.
  split.
  - revert vs. induction cs1 as [|c cs1 IH]; intros vs; simpl; [exists [], vs; auto|].
    inversion 1 as [|? ? us ws Hc Hne Hcs]; subst.
    destruct (IH _ Hcs) as (v1 & v2 & -> & H1 & H2).
    exists (us ++ v1), v2. rewrite <-app_assoc. auto.
  - intros (v1 & v2 & -> & H1 & H2). induction H1; simpl; [done|].
    rewrite <-app_assoc. auto.
Qed.

Lemma chunks_rep_single c vs : ListChunk.rep c vs → vs ≠ [] → chunks_rep [c] vs.
Proof. intros. rewrite <-(app_nil_r vs). auto. Qed.

Lemma chunks_rep_snoc cs c vs ws :
  chunks_rep cs vs → ListChunk.rep c ws → ws ≠ [] → chunks_rep (cs ++ [c]) (vs ++ ws).
Proof. intros. apply chunks_rep_app. eauto 10 using chunks_rep_single. Qed.

Lemma chunks_rep_snoc_inv cs c vs :
  chunks_rep (cs ++ [c]) vs →
  ∃ us ws, vs = us ++ ws ∧ chunks_rep cs us ∧ ListChunk.rep c ws ∧ ws ≠ [].
Proof.
  intros (us & ws & -> & Hcs & Hc)%chunks_rep_app. exists us.
  inversion Hc as [|? ? v1 v2 Hr Hne Hn]; subst. inversion Hn; subst.
  exists v1. by rewrite app_nil_r.
Qed.

Lemma seg_with_capacity_rep n : rep (with_capacity n) [].
Proof. split; [constructor|done]. Qed.

Lemma is_full_lt c vs : ListChunk.rep c vs → ListChunk.is_full c = false → length vs < LIST_CHUNK_CAPACITY.
Proof.
  intros Hr. unfold ListChunk.is_full. rewrite (Ring.is_full_rep _ _ _ Hr).
  pose proof (Ring.rep_cap _ _ _ Hr). intros ?%bool_decide_eq_false. lia.
Qed.

Lemma new_push_back v : ∃ c, ListChunk.push_back ListChunk.new v = PushOk c ∧ ListChunk.rep c [v].
Proof. apply (Ring.push_back_rep _ _ []); [apply Ring.new_rep|]; apply ListChunk.cap_pos. Qed.

Lemma new_push_front v : ∃ c, ListChunk.push_front ListChunk.new v = PushOk c ∧ ListChunk.rep c [v].
Proof. apply (Ring.push_front_rep _ _ []); [apply Ring.new_rep|]; apply ListChunk.cap_pos. Qed.

Lemma seg_push_front_rep s vs v : rep s vs → ∃ s', push_front s v = Some s' ∧ rep s' (v :: vs).
Proof.
  intros [Hcs Hl]. unfold push_front. destruct (new_push_front v) as (n & Hn & Hnr).
  destruct Hcs as [|c cs us ws Hc Hne Hcs].
  - rewrite Hn. simpl. eexists. split; [done|]. split; simpl.
    + by apply chunks_rep_single.
    + rewrite Hl. simpl. lia.
  - rewrite Hn. destruct (ListChunk.is_full c) eqn:Hf; simpl.
    + eexists. split; [done|]. split; simpl.
      * apply (chunks_rep_cons _ _ [v]); auto.
      * rewrite Hl. simpl. lia.
    + destruct (Ring.push_front_rep _ _ _ v Hc (is_full_lt _ _ Hc Hf)) as (c' & Hp & Hc').
      unfold ListChunk.push_front. rewrite Hp. simpl. eexists. split; [done|]. split; simpl.
      * apply (chunks_rep_cons _ _ (v :: us)); auto.
      * rewrite Hl. simpl. lia.
Qed.

Lemma seg_push_back_rep s vs v : rep s vs → ∃ s', push_back s v = Some s' ∧ rep s' (vs ++ [v]).
Proof.
  intros [Hcs Hl]. unfold push_back. destruct (new_push_back v) as (n & Hn & Hnr).
  destruct (vec_pop (chunks s)) as [[c cs]|] eqn:Hp.
  - apply vec_pop_Some in Hp. rewrite Hp in *.
    destruct (chunks_rep_snoc_inv _ _ _ Hcs) as (us & ws & -> & Hcs' & Hc & Hne).
    rewrite Hn. destruct (ListChunk.is_full c) eqn:Hf; simpl.
    + eexists. split; [done|]. split; simpl.
      * apply (chunks_rep_snoc _ _ (us ++ ws)); auto.
      * rewrite Hl, !length_app. simpl. lia.
    + destruct (Ring.push_back_rep _ _ _ v Hc (is_full_lt _ _ Hc Hf)) as (c' & Hpb & Hc').
      unfold ListChunk.push_back. rewrite Hpb. simpl. eexists. split; [done|]. split; simpl.
      * rewrite <-app_assoc. apply chunks_rep_snoc; [done..|]. by destruct ws.
      * rewrite Hl, !length_app. simpl. lia.
  - apply vec_pop_None in Hp. rewrite Hn. simpl. eexists. split; [done|]. split; simpl.
    + apply chunks_rep_snoc; auto.
    + rewrite Hl, length_app. simpl. lia.
Qed.

Lemma seg_push_back_all_rep s vs ws :
  rep s vs → ∃ s', foldM push_back s ws = Some s' ∧ rep s' (vs ++ ws).
Proof.
  intros Hr. destruct (foldM_refine rep push_back (λ l x, l ++ [x]) ws s vs) as (s' & ? & Hs').
  - intros. by apply seg_push_back_rep.
  - done.
  - exists s'. split; [done|]. enough (foldl (λ l x, l ++ [x]) vs ws = vs ++ ws) as <- by done.
    clear. revert vs. induction ws as [|w ws IH]; intros vs; simpl; [by rewrite app_nil_r|].
    rewrite IH, <-app_assoc. done.
Qed.

Lemma seg_push_front_all_rep s vs ws :
  rep s vs → ∃ s', foldM push_front s ws = Some s' ∧ rep s' (rev ws ++ vs).
Proof.
  revert s vs. induction ws as [|w ws IH]; intros s vs Hr; simpl; [eauto|].
  destruct (seg_push_front_rep _ _ w Hr) as (s1 & -> & Hr1). simpl.
  destruct (IH _ _ Hr1) as (s2 & -> & Hr2). exists s2. split; [done|]. by rewrite <-app_assoc.
Qed.

Lemma seg_push_values_rep s vs ws front :
  rep s vs → ∃ s', push_values s ws front = Some s' ∧
                   rep s' (if front then rev ws ++ vs else vs ++ ws).
Proof.
  intros. unfold push_values.
  destruct front; [by apply seg_push_front_all_rep|by apply seg_push_back_all_rep].
Qed.

Lemma seg_from_vec_rep vs : ∃ s, from_vec vs = Some s ∧ rep s vs.
Proof. apply (seg_push_back_all_rep _ []), seg_with_capacity_rep. Qed.

Lemma seg_is_empty_rep c vs : ListChunk.rep c vs → ListChunk.is_empty c = bool_decide (vs = []).
Proof.
  intros Hr. unfold ListChunk.is_empty. rewrite (Ring.rep_len _ _ _ Hr). by destruct vs.
Qed.

Lemma seg_pop_front_nil s : rep s [] → pop_front s = (None, s).
Proof.
  destruct s as [cs n]. intros [Hcs _]. simpl in Hcs. unfold pop_front. simpl.
  inversion Hcs as [E|? ? us ws Hc Hne _ E1 E2]; [done|].
  destruct us; simpl in *; congruence.
Qed.

Lemma seg_pop_front_rep s v vs : rep s (v :: vs) → ∃ s', pop_front s = (Some v, s') ∧ rep s' vs.
Proof.
  intros [Hcs Hl]. unfold pop_front. inversion Hcs as [|c cs us ws Hc Hne Hcs' E1 E2].
  destruct us as [|u us]; [done|]. simplify_eq/=.
  destruct (Ring.pop_front_rep _ _ _ _ Hc) as (c' & Hp & Hc').
  unfold ListChunk.pop_front. rewrite Hp. simpl. eexists. split; [done|].
  rewrite (seg_is_empty_rep _ _ Hc'). split; simpl; [|lia].
  case_bool_decide; subst; auto.
Qed.

Lemma seg_pop_back_nil s : rep s [] → pop_back s = (None, s).
Proof.
  intros [Hcs _]. unfold pop_back. destruct (vec_pop (chunks s)) as [[c cs]|] eqn:Hp; [|done].
  apply vec_pop_Some in Hp. rewrite Hp in Hcs.
  destruct (chunks_rep_snoc_inv _ _ _ Hcs) as (us & ws & E & _ & _ & Hne).
  destruct us, ws; simpl in *; congruence.
Qed.

Lemma seg_pop_back_rep s vs v : rep s (vs ++ [v]) → ∃ s', pop_back s = (Some v, s') ∧ rep s' vs.
Proof.
  intros [Hcs Hl]. unfold pop_back. destruct (vec_pop (chunks s)) as [[c cs]|] eqn:Hp.
  - apply vec_pop_Some in Hp. rewrite Hp in Hcs.
    destruct (chunks_rep_snoc_inv _ _ _ Hcs) as (us & ws & E & Hcs' & Hc & Hne).
    destruct (exists_last Hne) as (ws' & w & ->). rewrite app_assoc in E.
    apply app_inj_tail in E as [-> ->].
    destruct (Ring.pop_back_rep _ _ _ _ Hc) as (c' & Hpb & Hc').
    unfold ListChunk.pop_back. rewrite Hpb. simpl. eexists. split; [done|].
    rewrite (seg_is_empty_rep _ _ Hc'). split; simpl.
    + case_bool_decide; subst; [by rewrite app_nil_r|]. by apply chunks_rep_snoc.
    + rewrite Hl, !length_app. simpl. lia.
  - apply vec_pop_None in Hp. rewrite Hp in Hcs. inversion Hcs as [E|]. by destruct vs.
Qed.

Lemma get_forward_rep cs vs i : chunks_rep cs vs → get_forward cs i = vs !! i.
Proof.
  intros Hr. revert i. induction Hr as [|c cs us ws Hc Hne Hcs IH]; intros i; simpl; [done|].
  unfold ListChunk.len, ListChunk.get. rewrite (Ring.rep_len _ _ _ Hc).
  destruct (i <? length us) eqn:E; bool_case.
  - by rewrite (Ring.get_rep _ _ _ _ Hc), lookup_app_l.
  - by rewrite IH, lookup_app_r.
Qed.

Lemma get_backward_rep cs vs i :
  chunks_rep (rev cs) vs → i < length vs → get_backward cs i = vs !! (length vs - i - 1).
Proof.
  revert vs i. induction cs as [|c cs IH]; intros vs i Hr Hi; simpl in *.
  - inversion Hr; subst. done.
  - destruct (chunks_rep_snoc_inv _ _ _ Hr) as (us & ws & -> & Hcs & Hc & _).
    rewrite length_app in *. unfold ListChunk.len, ListChunk.get.
    rewrite (Ring.rep_len _ _ _ Hc). destruct (i <? length ws) eqn:E; bool_case.
    + rewrite (Ring.get_rep _ _ _ _ Hc), lookup_app_r by lia. f_equal. lia.
    + rewrite (IH us) by (done || lia). rewrite lookup_app_l by lia. f_equal. lia.
Qed.

Lemma seg_get_rep s vs i : rep s vs → get s i = vs !! i.
Proof.
  intros [Hcs Hl]. unfold get. rewrite Hl. destruct (length vs <=? i) eqn:E; bool_case.
  - by rewrite lookup_ge_None_2.
  - case_match; [by apply get_forward_rep|].
    rewrite (get_backward_rep _ vs) by (by rewrite ?rev_involutive || lia). f_equal. lia.
Qed.

Lemma set_chunk_rep c vs i v :
  ListChunk.rep c vs → i < length vs → ListChunk.rep (ListChunk.set c i v) (<[i := v]> vs).
Proof. apply Ring.set_rep. Qed.

Lemma insert_ne_nil {A} i (v : A) vs : vs ≠ [] → <[i := v]> vs ≠ [].
Proof. destruct vs, i; done. Qed.

Lemma set_forward_rep cs vs i v :
  chunks_rep cs vs → i < length vs → chunks_rep (set_forward cs i v) (<[i := v]> vs).
Proof.
  intros Hr. revert i. induction Hr as [|c cs us ws Hc Hne Hcs IH]; intros i Hi; simpl in *; [lia|].
  rewrite length_app in Hi. unfold ListChunk.len. rewrite (Ring.rep_len _ _ _ Hc).
  destruct (i <? length us) eqn:E; bool_case.
  - rewrite insert_app_l by done. constructor; [by apply set_chunk_rep|by apply insert_ne_nil|done].
  - rewrite <-(Nat.sub_add (length us) i) at 2 by lia. rewrite Nat.add_comm, insert_app_r.
    constructor; [done..|]. apply IH. lia.
Qed.

Lemma set_backward_rep cs vs i v :
  chunks_rep (rev cs) vs → i < length vs →
  chunks_rep (rev (set_backward cs i v)) (<[length vs - i - 1 := v]> vs).
Proof.
  revert vs i. induction cs as [|c cs IH]; intros vs i Hr Hi; simpl in *.
  - inversion Hr; subst. simpl in Hi. lia.
  - destruct (chunks_rep_snoc_inv _ _ _ Hr) as (us & ws & -> & Hcs & Hc & Hne).
    rewrite length_app in *. unfold ListChunk.len. rewrite (Ring.rep_len _ _ _ Hc).
    destruct (i <? length ws) eqn:E; bool_case; simpl.
    + replace (length us + length ws - i - 1) with (length us + (length ws - i - 1)) by lia.
      rewrite insert_app_r. apply chunks_rep_snoc;
        [done|apply set_chunk_rep; [done|lia]|by apply insert_ne_nil].
    + rewrite insert_app_l by lia.
      replace (length us + length ws - i - 1) with (length us - (i - length ws) - 1) by lia.
      apply chunks_rep_snoc; [apply IH; [done|lia]|done|done].
Qed.

Lemma seg_set_rep s vs i v : rep s vs → i < length vs → rep (set s i v) (<[i := v]> vs).
Proof.
  intros [Hcs Hl] Hi. unfold set. rewrite Hl. case_match; split; simpl; rewrite ?length_insert;
    try done.
  - by apply set_forward_rep.
  - replace i with (length vs - (length vs - i - 1) - 1) at 2 by lia.
    apply set_backward_rep; [by rewrite rev_involutive|lia].
Qed.

Lemma seg_take_all_rep s vs : rep s vs → take_all s = Some (vs, mk [] 0).
Proof.
  intros [Hcs _]. unfold take_all.
  enough (∀ acc, foldM (λ values c, '(vs, _) ← ListChunk.take_all c; Some (values ++ vs))
                       acc (chunks s) = Some (acc ++ vs)) as -> by done.
  induction Hcs as [|c cs us ws Hc Hne Hcs IH]; intros acc; simpl; [by rewrite app_nil_r|].
  destruct (Ring.take_all_rep _ _ _ Hc) as (c' & Ht & _). unfold ListChunk.take_all.
  rewrite Ht. simpl. by rewrite IH, app_assoc.
Qed.

Lemma seg_insert_rep s vs i v :
  rep s vs → i ≤ length vs → ∃ s', insert s i v = Some s' ∧ rep s' (take i vs ++ v :: drop i vs).
Proof.
  intros Hr Hi. unfold insert. rewrite (proj2 Hr).
  destruct (i =? 0) eqn:E0; bool_case; [subst; by apply seg_push_front_rep|].
  destruct (length vs <=? i) eqn:E; bool_case.
  - rewrite take_ge, drop_ge by lia. by apply seg_push_back_rep.
  - rewrite (seg_take_all_rep _ _ Hr). simpl. rewrite vec_insert_Some by lia. simpl.
    apply seg_from_vec_rep.
Qed.

Lemma seg_remove_loop_rep cs vs i v :
  chunks_rep cs vs → vs !! i = Some v →
  ∃ cs', remove_loop cs i = Some (Some (Some v, cs')) ∧ chunks_rep cs' (delete i vs).
Proof.
  intros Hr. revert i. induction Hr as [|c cs us ws Hc Hne Hcs IH]; intros i Hi; simpl; [done|].
  unfold ListChunk.len. rewrite (Ring.rep_len _ _ _ Hc).
  destruct (i <? length us) eqn:E; bool_case.
  - rewrite lookup_app_l in Hi by done. destruct (ListChunk.chunk_remove_rep _ _ _ _ Hc Hi) as (c' & -> & Hc').
    simpl. eexists. split; [done|]. rewrite list_delete_app_l, (seg_is_empty_rep _ _ Hc') by done.
    case_bool_decide as Hd; [by rewrite Hd|]. by constructor.
  - rewrite lookup_app_r in Hi by done. destruct (IH _ Hi) as (cs' & -> & Hcs').
    simpl. eexists. split; [done|]. rewrite list_delete_app_r by done. by constructor.
Qed.

Lemma seg_remove_rep s vs i v :
  rep s vs → vs !! i = Some v → ∃ s', remove s i = Some (Some v, s') ∧ rep s' (delete i vs).
Proof.
  intros [Hcs Hl] Hv. unfold remove. rewrite Hl.
  assert (i < length vs) by by eapply lookup_lt_Some.
  replace (length vs <=? i) with false by (symmetry; apply Nat.leb_gt; lia).
  destruct (seg_remove_loop_rep _ _ _ _ Hcs Hv) as (cs' & -> & Hcs'). simpl.
  eexists. split; [done|]. split; [done|]. simpl. rewrite length_delete by eauto. lia.
Qed.

Lemma seg_iter_rep s vs : rep s vs → iter s = vs.
Proof.
  intros [Hcs _]. unfold iter. induction Hcs as [|c cs us ws Hc Hne Hcs IH]; simpl; [done|].
  unfold ListChunk.iter at 1. rewrite (Ring.iter_rep _ _ _ Hc). by f_equal.
Qed.

End SegmentedList.

#[global] Arguments SegmentedList.push_front : simpl never.
#[global] Arguments SegmentedList.push_back : simpl never.
#[global] Arguments SegmentedList.pop_front : simpl never.
#[global] Arguments SegmentedList.pop_back : simpl never.
#[global] Arguments SegmentedList.insert : simpl never.
#[global] Arguments SegmentedList.remove : simpl never.
#[global] Arguments SegmentedList.push_values : simpl never.
#[global] Arguments SegmentedList.set : simpl never.
#[global] Arguments SegmentedList.get : simpl never.

(** [SmallListDeque::into_segmented] ([list_deque.rs]). *)
Definition into_segmented (d : SmallListDeque.t) (additional : nat) : option SegmentedList.t :=
  '(values, _) ← SmallListDeque.take_all d;
  foldM SegmentedList.push_back
        (SegmentedList.with_capacity (SmallListDeque.len d + additional)) values.

(** ** [ListObject] *)
Module ListObject.

Inductive t :=
  | Empty
  | Single (value : Bytes)
  | Small (list : SmallListDeque.t)
  | Segmented (list : SegmentedList.t).

Definition from_vec (entries : list Bytes) : option t :=
  match entries with
  | [] => Some Empty
  | [value] => Some (Single value)
  | _ =>
      if length entries <=? SMALL_LIST_INLINE
      then Small <$> SmallListDeque.from_vec entries
      else Segmented <$> SegmentedList.from_vec entries
  end.

(** The [Self::Small] arm of [push_values]. *)
Definition push_values_to_small (d : SmallListDeque.t) (values : list Bytes) (front : bool)
    : option t :=
  if SmallListDeque.len d + length values <=? SMALL_LIST_INLINE
  then Small <$> SmallListDeque.push_values_small d values front
  else
    s ← into_segmented d (length values);
    Segmented <$> SegmentedList.push_values s values front.

Definition from_values (values : list Bytes) (front : bool) : option t :=
  match values with
  | [] => Some Empty
  | [value] => Some (Single value)
  | _ => push_values_to_small SmallListDeque.new values front
  end.

Definition push_values (l : t) (values : list Bytes) (front : bool) : option t :=
  match values with
  | [] => Some l
  | _ =>
      match l with
      | Empty => from_values values front
      | Single existing =>
          let total := 1 + length values in
          if total <=? SMALL_LIST_INLINE then
            d ← expect_push (SmallListDeque.push_back SmallListDeque.new existing);
            Small <$> SmallListDeque.push_values_small d values front
          else
            s ← SegmentedList.push_back (SegmentedList.with_capacity total) existing;
            Segmented <$> SegmentedList.push_values s values front
      | Small d => push_values_to_small d values front
      | Segmented s => Segmented <$> SegmentedList.push_values s values front
      end
  end.

Definition pop_front (l : t) : option Bytes * t :=
  match l with
  | Empty => (None, Empty)
  | Single value => (Some value, Empty)
  | Small d => let '(v, d') := SmallListDeque.pop_front d in (v, Small d')
  | Segmented s => let '(v, s') := SegmentedList.pop_front s in (v, Segmented s')
  end.

Definition pop_back (l : t) : option Bytes * t :=
  match l with
  | Empty => (None, Empty)
  | Single value => (Some value, Empty)
  | Small d => let '(v, d') := SmallListDeque.pop_back d in (v, Small d')
  | Segmented s => let '(v, s') := SegmentedList.pop_back s in (v, Segmented s')
  end.

(** [insert]; [debug_assert]s are absent from release builds. *)
Definition insert (l : t) (index : nat) (value : Bytes) : option t :=
  match l with
  | Empty => Some (Single value)
  | Single existing =>
      d ← expect_push (SmallListDeque.push_back SmallListDeque.new existing);
      r ← SmallListDeque.insert d index value;
      d' ← expect_push r;
      Some (Small d')
  | Small d =>
      if negb (SmallListDeque.is_full d) then
        r ← SmallListDeque.insert d index value;
        Some (match r with PushOk d' => Small d' | PushErr _ => Small d end)
      else
        s ← into_segmented d 1;
        Segmented <$> SegmentedList.insert s index value
  | Segmented s => Segmented <$> SegmentedList.insert s index value
  end.

Definition remove (l : t) (index : nat) : option (option Bytes * t) :=
  match l with
  | Empty => Some (None, Empty)
  | Single value => Some (Some value, Empty)
  | Small d => '(v, d') ← SmallListDeque.remove d index; Some (v, Small d')
  | Segmented s => '(v, s') ← SegmentedList.remove s index; Some (v, Segmented s')
  end.

Definition set (l : t) (index : nat) (value : Bytes) : t :=
  match l with
  | Empty => Empty
  | Single _ => Single value
  | Small d => Small (SmallListDeque.set d index value)
  | Segmented s => Segmented (SegmentedList.set s index value)
  end.

Definition get (l : t) (index : nat) : option Bytes :=
  match l with
  | Empty => None
  | Single value => if index =? 0 then Some value else None
  | Small d => SmallListDeque.get d index
  | Segmented s => SegmentedList.get s index
  end.

Definition len (l : t) : nat :=
  match l with
  | Empty => 0
  | Single _ => 1
  | Small d => SmallListDeque.len d
  | Segmented s => SegmentedList.len s
  end.

Definition is_empty (l : t) : bool := len l =? 0.

Definition clear (l : t) : t :=
  match l with
  | Segmented s => Segmented (SegmentedList.clear s)
  | _ => Empty
  end.

Definition iter (l : t) : list Bytes :=
  match l with
  | Empty => []
  | Single value => [value]
  | Small d => SmallListDeque.iter d
  | Segmented s => SegmentedList.iter s
  end.

(** ** What a list object stores *)
Definition rep (l : t) (vs : list Bytes) : Prop :=
  match l with
  | Empty => vs = []
  | Single value => vs = [value]
  | Small d => SmallListDeque.rep d vs
  | Segmented s => SegmentedList.rep s vs
  end.

(** Pushing a run at one end, as LPUSH and RPUSH do. *)
Definition pushed (front : bool) (ws vs : list Bytes) : list Bytes :=
  if front then rev ws ++ vs else vs ++ ws.

Lemma length_pushed front ws vs : length (pushed front ws vs) = length vs + length ws.
Proof. destruct front; simpl; rewrite length_app, ?length_rev; lia. Qed.

Lemma len_rep l vs : rep l vs → len l = length vs.
Proof.
  destruct l; simpl; [by intros ->..| |].
  - intros Hr. apply (Ring.rep_len _ _ _ Hr).
  - by intros [_ ?].
Qed.

Lemma is_empty_rep l vs : rep l vs → is_empty l = bool_decide (vs = []).
Proof. intros Hr. unfold is_empty. rewrite (len_rep _ _ Hr). by destruct vs. Qed.

Lemma into_segmented_rep d vs n :
  SmallListDeque.rep d vs → ∃ s, into_segmented d n = Some s ∧ SegmentedList.rep s vs.
Proof.
  intros Hr. unfold into_segmented. destruct (Ring.take_all_rep _ _ _ Hr) as (d' & Ht & _).
  unfold SmallListDeque.take_all. rewrite Ht. simpl.
  apply (SegmentedList.seg_push_back_all_rep _ []), SegmentedList.seg_with_capacity_rep.
Qed.

Lemma new_deque_push v :
  ∃ d, SmallListDeque.push_back SmallListDeque.new v = PushOk d ∧ SmallListDeque.rep d [v].
Proof.
  apply (Ring.push_back_rep _ _ []); [apply Ring.new_rep|]; apply SmallListDeque.deque_cap_pos.
Qed.

Lemma push_values_to_small_rep d vs ws front :
  SmallListDeque.rep d vs →
  ∃ l, push_values_to_small d ws front = Some l ∧ rep l (pushed front ws vs).
Proof.
  intros Hr. unfold push_values_to_small, SmallListDeque.len. rewrite (Ring.rep_len _ _ _ Hr).
  destruct (_ <=? _) eqn:E; bool_case.
  - destruct (SmallListDeque.push_values_small_rep _ _ ws front Hr E) as (d' & -> & Hd').
    simpl. by eexists.
  - destruct (into_segmented_rep _ _ (length ws) Hr) as (s & -> & Hs). simpl.
    destruct (SegmentedList.seg_push_values_rep _ _ ws front Hs) as (s' & -> & Hs').
    simpl. by eexists.
Qed.

Lemma from_values_rep ws front :
  ∃ l, from_values ws front = Some l ∧ rep l (pushed front ws []).
Proof.
  unfold from_values. destruct ws as [|w [|w' ws]].
  - exists Empty. split; [done|]. by destruct front.
  - exists (Single w). split; [done|]. by destruct front.
  - apply push_values_to_small_rep, Ring.new_rep, SmallListDeque.deque_cap_pos.
Qed.

Lemma list_push_values_rep l vs ws front :
  rep l vs → ∃ l', push_values l ws front = Some l' ∧ rep l' (pushed front ws vs).
Proof.
  intros Hr. unfold push_values. destruct ws as [|w ws].
  { exists l. split; [done|]. destruct front; simpl; [done|by rewrite app_nil_r]. }
  destruct l as [|v|d|s]; simpl in Hr; subst.
  - apply from_values_rep.
  - destruct (_ <=? _) eqn:E; bool_case.
    + destruct (new_deque_push v) as (d & -> & Hd). cbn [expect_push mbind option_bind].
      destruct (SmallListDeque.push_values_small_rep _ _ (w :: ws) front Hd) as (d' & -> & Hd').
      { simpl in *. lia. }
      simpl. by eexists.
    + destruct (SegmentedList.seg_push_back_rep _ _ v
        (SegmentedList.seg_with_capacity_rep (1 + length (w :: ws)))) as (s & -> & Hs).
      cbn [mbind option_bind].
      destruct (SegmentedList.seg_push_values_rep _ _ (w :: ws) front Hs) as (s' & -> & Hs').
      simpl. by eexists.
  - by apply push_values_to_small_rep.
  - destruct (SegmentedList.seg_push_values_rep _ _ (w :: ws) front Hr) as (s' & -> & Hs').
    simpl. by eexists.
Qed.

Lemma list_from_vec_rep vs : ∃ l, from_vec vs = Some l ∧ rep l vs.
Proof.
  unfold from_vec. destruct vs as [|v [|v' vs]]; [by eexists..|].
  destruct (_ <=? _) eqn:E; bool_case.
  - destruct (SmallListDeque.deque_from_vec_rep _ E) as (d & -> & Hd). simpl. by eexists.
  - destruct (SegmentedList.seg_from_vec_rep (v :: v' :: vs)) as (s & -> & Hs). simpl. by eexists.
Qed.

Lemma list_pop_front_nil l : rep l [] → ∃ l', pop_front l = (None, l') ∧ rep l' [].
Proof.
  destruct l; simpl; intros Hr; [by eexists|done|..].
  - unfold SmallListDeque.pop_front. rewrite Ring.pop_front_nil by done. by eexists.
  - rewrite SegmentedList.seg_pop_front_nil by done. by eexists.
Qed.

Lemma list_pop_front_rep l v vs :
  rep l (v :: vs) → ∃ l', pop_front l = (Some v, l') ∧ rep l' vs.
Proof.
  destruct l; simpl; intros Hr; simplify_eq; [by eexists|..].
  - destruct (Ring.pop_front_rep _ _ _ _ Hr) as (d & Hp & Hd).
    unfold SmallListDeque.pop_front. rewrite Hp. by eexists.
  - destruct (SegmentedList.seg_pop_front_rep _ _ _ Hr) as (d & -> & Hd). by eexists.
Qed.

Lemma list_pop_back_nil l : rep l [] → ∃ l', pop_back l = (None, l') ∧ rep l' [].
Proof.
  destruct l; simpl; intros Hr; [by eexists|done|..].
  - unfold SmallListDeque.pop_back. rewrite Ring.pop_back_nil by done. by eexists.
  - rewrite SegmentedList.seg_pop_back_nil by done. by eexists.
Qed.

Lemma list_pop_back_rep l vs v :
  rep l (vs ++ [v]) → ∃ l', pop_back l = (Some v, l') ∧ rep l' vs.
Proof.
  destruct l as [|x|d|s]; simpl; intros Hr.
  - by destruct vs.
  - destruct vs as [|? [|]]; simplify_eq/=. by eexists.
  - destruct (Ring.pop_back_rep _ _ _ _ Hr) as (d' & Hp & Hd).
    unfold SmallListDeque.pop_back. rewrite Hp. by eexists.
  - destruct (SegmentedList.seg_pop_back_rep _ _ _ Hr) as (s' & -> & Hs). by eexists.
Qed.

Lemma list_insert_rep l vs i v :
  rep l vs → i ≤ length vs →
  ∃ l', insert l i v = Some l' ∧ rep l' (take i vs ++ v :: drop i vs).
Proof.
  unfold insert. destruct l as [|x|d|s]; intros Hr Hi; cbn [rep] in Hr; subst.
  - rewrite take_nil, drop_nil. by eexists.
  - destruct (new_deque_push x) as (d & -> & Hd). cbn [expect_push mbind option_bind].
    destruct (SmallListDeque.deque_insert_rep _ _ i v Hd) as (d' & -> & Hd');
      [unfold SMALL_LIST_INLINE; simpl; lia|done|]. simpl. by eexists.
  - unfold SmallListDeque.is_full. rewrite (Ring.is_full_rep _ _ _ Hr).
    pose proof (Ring.rep_cap _ _ _ Hr). case_bool_decide as Hf; cbn [negb].
    + destruct (into_segmented_rep _ _ 1 Hr) as (s & -> & Hs). cbn [mbind option_bind].
      destruct (SegmentedList.seg_insert_rep _ _ i v Hs Hi) as (s' & -> & Hs'). simpl. by eexists.
    + destruct (SmallListDeque.deque_insert_rep _ _ i v Hr) as (d' & -> & Hd'); [lia|done|].
      simpl. by eexists.
  - destruct (SegmentedList.seg_insert_rep _ _ i v Hr Hi) as (s' & -> & Hs'). simpl. by eexists.
Qed.

Lemma list_remove_rep l vs i v :
  rep l vs → vs !! i = Some v → ∃ l', remove l i = Some (Some v, l') ∧ rep l' (delete i vs).
Proof.
  destruct l as [|x|d|s]; simpl; intros Hr Hv; subst.
  - done.
  - destruct i; simplify_eq/=. by eexists.
  - destruct (SmallListDeque.deque_remove_rep _ _ _ _ Hr Hv) as (d' & -> & Hd'). simpl. by eexists.
  - destruct (SegmentedList.seg_remove_rep _ _ _ _ Hr Hv) as (s' & -> & Hs'). simpl. by eexists.
Qed.

Lemma list_set_rep l vs i v : rep l vs → i < length vs → rep (set l i v) (<[i := v]> vs).
Proof.
  destruct l as [|x|d|s]; simpl; intros Hr Hi; subst; simpl in *.
  - lia.
  - destruct i; [done|lia].
  - by apply Ring.set_rep.
  - by apply SegmentedList.seg_set_rep.
Qed.

Lemma list_get_rep l vs i : rep l vs → get l i = vs !! i.
Proof.
  destruct l as [|x|d|s]; simpl; intros Hr; subst.
  - done.
  - by destruct i as [|[|]].
  - by apply Ring.get_rep.
  - by apply SegmentedList.seg_get_rep.
Qed.

Lemma list_iter_rep l vs : rep l vs → iter l = vs.
Proof.
  destruct l as [|x|d|s]; simpl; intros Hr; subst; try done.
  - by apply Ring.iter_rep.
  - by apply SegmentedList.seg_iter_rep.
Qed.

Lemma list_clear_rep l : rep (clear l) [].
Proof. destruct l; simpl; try done. split; [constructor|done]. Qed.

End ListObject.

#[export] Hint Resolve ListObject.list_set_rep ListObject.list_clear_rep : shardkv.
