(* ===== verification/Helpers.v ===== *)
(** * Index, range and number helpers

    [redis_objects/helpers.rs] and the pure policies of
    [redis_compat/commands/formal/] ([range.rs], [rank.rs], [bounds.rs],
    [transactions.rs]).  Index arithmetic is on [i64] with its wrap-around
    written out; the theorems show it never wraps. *)

From S2P Require Import Prelude.

(** [i64] addition as a release build computes it. *)
Definition i64_add (a b : Z) : Z := wrap_i64 (a + b).

(** [i64::clamp]. *)
Definition clamp (x lo hi : Z) : Z := if (x <? lo)%Z then lo else if (hi <? x)%Z then hi else x.

(** ** helpers.rs *)

(** [replace_bytes]: equal lengths copy in place, otherwise refill. *)
Definition replace_bytes (existing value : Bytes) : Bytes :=
  if length existing =? length value
  then value ++ drop (length value) existing
  else [] ++ value.

Definition normalize_index (index : Z) (len : nat) : option nat :=
  if len =? 0 then None
  else
    let len_i := usize_as_i64 len in
    let index := if (index <? 0)%Z then i64_add len_i index else index in
    if ((0 <=? index) && (index <? len_i))%Z then Some (Z.to_nat index) else None.

Definition normalize_range (start stop : Z) (len : nat) : option (nat * nat) :=
  if len =? 0 then None
  else
    let len_i := usize_as_i64 len in
    let start := if (start <? 0)%Z then i64_add len_i start else start in
    let stop := if (stop <? 0)%Z then i64_add len_i stop else stop in
    let start := if (start <? 0)%Z then 0%Z else start in
    if (stop <? 0)%Z then None
    else if (len_i <=? start)%Z then None
    else
      let stop := if (len_i <=? stop)%Z then (len_i - 1)%Z else stop in
      if (start <=? stop)%Z then Some (Z.to_nat start, Z.to_nat stop) else None.

(** [bucket_index]. *)
Definition bucket_index (key_hash : Z) : nat := Z.to_nat (Z.land key_hash 255).

(** [str::parse::<i64>] on bytes: an optional sign, then digits, within range.
    Anything that is not UTF-8 has a non-digit byte and fails as well. *)
Definition digit (b : Z) : option Z :=
  if ((48 <=? b) && (b <=? 57))%Z then Some (b - 48)%Z else None.

Fixpoint parse_digits (acc : Z) (bs : Bytes) : option Z :=
  match bs with
  | [] => Some acc
  | b :: bs' => d ← digit b; parse_digits (acc * 10 + d)%Z bs'
  end.

Definition parse_i64_bytes (value : Bytes) : option Z :=
  let unsigned bs := match bs with [] => None | _ => parse_digits 0 bs end in
  v ← match value with
      | 43%Z :: bs => unsigned bs
      | 45%Z :: bs => Z.opp <$> unsigned bs
      | _ => unsigned value
      end;
  if ((i64_MIN <=? v) && (v <=? i64_MAX))%Z then Some v else None.

(** [i64::to_string]. *)
Fixpoint digits_of (fuel : nat) (n : Z) (acc : Bytes) : Bytes :=
  match fuel with
  | O => acc
  | S fuel' =>
      let acc' := (48 + n mod 10)%Z :: acc in
      if (n <? 10)%Z then acc' else digits_of fuel' (n / 10)%Z acc'
  end.

Definition i64_to_string (n : Z) : Bytes :=
  if (n <? 0)%Z then 45%Z :: digits_of 20 (- n) [] else digits_of 20 n [].

(** ** formal/range.rs *)
Record NormalizedRedisRange := mkRange { range_start : nat; range_stop : nat }.

Definition into_bounds (r : NormalizedRedisRange) : nat * nat := (range_start r, range_stop r).

Definition normalize_redis_range (len : nat) (start stop : Z) : option NormalizedRedisRange :=
  if len =? 0 then None
  else
    let len_i64 := usize_as_i64 len in
    let start := clamp (if (start <? 0)%Z then i64_add len_i64 start else start) 0 len_i64 in
    let stop := clamp (if (stop <? 0)%Z then i64_add len_i64 stop else stop) 0 (len_i64 - 1) in
    if (start <=? stop)%Z
    then Some (mkRange (Z.to_nat start) (Z.to_nat stop))
    else None.

(** ** formal/rank.rs *)
Definition reverse_rank (len forward_rank : nat) : option nat :=
  if forward_rank <? len then Some (len - forward_rank - 1) else None.

(** ** formal/bounds.rs *)
Inductive RedisRangeBound (T : Type) :=
  | NegInfinity
  | PosInfinity
  | Finite (value : T) (inclusive : bool).
Arguments NegInfinity {T}.
Arguments PosInfinity {T}.
Arguments Finite {T} value inclusive.

Definition bound_contains {T} (le lt : T → T → bool) (b : RedisRangeBound T)
    (candidate : T) (lower : bool) : bool :=
  match b with
  | NegInfinity => lower
  | PosInfinity => negb lower
  | Finite value inclusive =>
      match lower, inclusive with
      | true, true => le value candidate
      | true, false => lt value candidate
      | false, true => le candidate value
      | false, false => lt candidate value
      end
  end.

(** ** formal/transactions.rs *)
Inductive RedisTransactionPolicy := ShardLocal | CoordinatedCrossShard.

Definition transaction_exec_allowed (policy : RedisTransactionPolicy) (dirty : bool)
    (affected_shards : nat) : bool :=
  if dirty then false
  else match policy with
       | ShardLocal => affected_shards <=? 1
       | CoordinatedCrossShard => true
       end.

(** ** Lemmas *)

Lemma replace_bytes_value existing value : replace_bytes existing value = value.
Proof.
  unfold replace_bytes. destruct (_ =? _) eqn:E; bool_case; [|done].
  by rewrite drop_ge, app_nil_r by lia.
Qed.

#[export] Hint Rewrite replace_bytes_value : shardkv_rw.

(** The length of a container always fits: [Vec] lengths are at most
    [isize::MAX]. *)
Definition fits (len : nat) : Prop := (Z.of_nat len ≤ i64_MAX)%Z.

Lemma i64_add_neg len i :
  fits len → is_i64 i → (i < 0)%Z → i64_add (usize_as_i64 len) i = (Z.of_nat len + i)%Z.
Proof.
  intros. unfold i64_add. rewrite usize_as_i64_id by done. apply wrap_i64_id.
  unfold is_i64, fits, i64_MIN, i64_MAX in *. lia.
Qed.

(** The position a Redis index denotes: negative indices count from the end. *)
Definition resolve (len : nat) (i : Z) : Z := if (i <? 0)%Z then (Z.of_nat len + i)%Z else i.

Lemma resolve_i64 len i :
  fits len → is_i64 i →
  (if (i <? 0)%Z then i64_add (usize_as_i64 len) i else i) = resolve len i.
Proof. intros. unfold resolve. case_match; bool_case; [by rewrite i64_add_neg|done]. Qed.

Ltac normalize_cases :=
  repeat (case_match; bool_case; simplify_eq); try done; try lia.

Lemma normalize_index_Some len index i :
  fits len → is_i64 index →
  normalize_index index len = Some i ↔ i < len ∧ Z.of_nat i = resolve len index.
Proof.
  intros Hf Hi. unfold normalize_index. rewrite resolve_i64, usize_as_i64_id by done.
  destruct (len =? 0) eqn:E; bool_case; [split; [done|lia]|].
  destruct (_ && _) eqn:E2.
  - bool_case. split; [intros [= <-]; lia|]. intros [? <-]. f_equal. lia.
  - split; [done|]. intros [? ?]. apply andb_false_iff in E2 as [?|?]; bool_case; lia.
Qed.

Lemma normalize_index_None len index :
  fits len → is_i64 index →
  normalize_index index len = None ↔ ¬ (0 ≤ resolve len index < Z.of_nat len)%Z.
Proof.
  intros Hf Hi. destruct (normalize_index index len) as [i|] eqn:E.
  - apply normalize_index_Some in E as [? ?]; [|done..]. split; [done|lia].
  - split; [|done]. intros _ Hb.
    assert (normalize_index index len = Some (Z.to_nat (resolve len index))) by
      (apply normalize_index_Some; [done..|lia]). congruence.
Qed.

Lemma normalize_range_Some start stop len a b :
  fits len → is_i64 start → is_i64 stop →
  normalize_range start stop len = Some (a, b) ↔
  a ≤ b < len ∧ Z.of_nat a = Z.max 0 (resolve len start) ∧
  Z.of_nat b = Z.min (resolve len stop) (Z.of_nat len - 1).
Proof.
  intros Hf Hs Ht. unfold normalize_range. rewrite !resolve_i64, usize_as_i64_id by done.
  destruct (len =? 0) eqn:E; bool_case; [split; [done|lia]|].
  set (s := resolve len start). set (t := resolve len stop).
  split.
  - normalize_cases; intros [= <- <-]; lia.
  - intros (? & ? & ?). normalize_cases; do 2 f_equal; lia.
Qed.

Lemma normalize_range_None start stop len :
  fits len → is_i64 start → is_i64 stop →
  normalize_range start stop len = None ↔
  (Z.min (resolve len stop) (Z.of_nat len - 1) < Z.max 0 (resolve len start))%Z.
Proof.
  intros Hf Hs Ht. unfold normalize_range. rewrite !resolve_i64, usize_as_i64_id by done.
  set (s := resolve len start). set (t := resolve len stop).
  destruct (len =? 0) eqn:E; bool_case; [split; [intros _; lia|done]|].
  split; normalize_cases.
Qed.

(** The elements a Redis range selects from a sequence. *)
Definition redis_slice {A} (start stop : Z) (l : list A) : list A :=
  let len := length l in
  let a := Z.to_nat (Z.max 0 (resolve len start)) in
  let b := Z.min (resolve len stop) (Z.of_nat len - 1) in
  take (Z.to_nat (b + 1) - a) (drop a l).

(** An index is selected exactly when it lies between the resolved ends. *)
Lemma redis_slice_lookup {A} start stop (l : list A) j :
  redis_slice start stop l !! j =
  let a := Z.to_nat (Z.max 0 (resolve (length l) start)) in
  if decide (Z.of_nat (a + j) ≤ resolve (length l) stop)%Z then l !! (a + j) else None.
Proof.
  unfold redis_slice. simpl. set (a := Z.to_nat _).
  rewrite lookup_take. case_decide; rewrite ?lookup_drop; case_decide; try done; try lia.
  symmetry. apply lookup_ge_None_2. lia.
Qed.

Lemma normalize_range_slice {A} start stop (l : list A) :
  fits (length l) → is_i64 start → is_i64 stop →
  (match normalize_range start stop (length l) with
   | Some (a, b) => take (b - a + 1) (drop a l)
   | None => []
   end) = redis_slice start stop l.
Proof.
  intros Hf Hs Ht. unfold redis_slice.
  destruct (normalize_range start stop (length l)) as [[a b]|] eqn:E.
  - apply normalize_range_Some in E as (? & <- & <-); [|done..].
    rewrite Nat2Z.id. f_equal. lia.
  - apply normalize_range_None in E; [|done..].
    set (s := Z.max _ _) in *. set (t := Z.min _ _) in *.
    replace (Z.to_nat (t + 1) - Z.to_nat s) with 0 by lia. by rewrite take_0.
Qed.

Lemma bucket_index_lt h : bucket_index h < 256.
Proof.
  unfold bucket_index. change 255%Z with (Z.ones 8). rewrite Z.land_ones by lia.
  change (2 ^ 8)%Z with 256%Z. pose proof (Z.mod_pos_bound h 256). lia.
Qed.

(** *** Decimal round trip *)

Lemma parse_digits_app acc b1 b2 :
  parse_digits acc (b1 ++ b2) = a ← parse_digits acc b1; parse_digits a b2.
Proof.
  revert acc. induction b1 as [|b b1 IH]; intros acc; simpl; [done|].
  destruct (digit b); simpl; auto.
Qed.

Lemma digit_mod n : digit (48 + n mod 10) = Some (n mod 10)%Z.
Proof.
  unfold digit. pose proof (Z.mod_pos_bound n 10). case_match; [f_equal; lia|].
  exfalso. match goal with H : _ && _ = false |- _ => apply andb_false_iff in H as [H|H] end;
    bool_case; lia.
Qed.

Lemma digits_of_parse fuel n acc :
  (0 ≤ n < 10 ^ Z.of_nat fuel)%Z →
  ∃ ds, digits_of fuel n acc = ds ++ acc ∧ (ds ≠ [] ∨ fuel = 0) ∧
        ∀ a, parse_digits a ds = Some (a * 10 ^ Z.of_nat (length ds) + n)%Z.
Proof.
  revert n acc. induction fuel as [|fuel IH]; intros n acc Hn; simpl.
  - exists []. split; [done|]. split; [by right|]. intros a. simpl. f_equal.
    change (10 ^ Z.of_nat 0)%Z with 1%Z in Hn. change (10 ^ 0)%Z with 1%Z. lia.
  - destruct (n <? 10)%Z eqn:E; bool_case.
    + exists [(48 + n mod 10)%Z]. split; [done|]. split; [by left|]. intros a. cbn [parse_digits].
      rewrite digit_mod, Z.mod_small by lia. simpl. f_equal; lia.
    + rewrite Nat2Z.inj_succ, Z.pow_succ_r in Hn by lia.
      destruct (IH (n / 10)%Z ((48 + n mod 10)%Z :: acc)) as (ds & -> & _ & Hp).
      { split; [apply Z.div_pos; lia|]. apply Z.div_lt_upper_bound; lia. }
      exists (ds ++ [(48 + n mod 10)%Z]). rewrite <-app_assoc. split; [done|].
      split; [left; by destruct ds|]. intros a. rewrite parse_digits_app, Hp.
      cbn [mbind option_bind parse_digits]. rewrite digit_mod. simpl. f_equal.
      rewrite length_app. simpl. rewrite Nat2Z.inj_add, Z.pow_add_r by lia.
      change (10 ^ Z.of_nat 1)%Z with 10%Z. pose proof (Z.div_mod n 10). nia.
Qed.

Lemma digits_of_head fuel n acc b :
  (0 ≤ n)%Z → (∀ c, head acc = Some c → 48 ≤ c ≤ 57)%Z →
  head (digits_of fuel n acc) = Some b → (48 ≤ b ≤ 57)%Z.
Proof.
  revert n acc. induction fuel as [|fuel IH]; intros n acc Hn Hacc; simpl; [auto|].
  pose proof (Z.mod_pos_bound n 10).
  destruct (n <? 10)%Z; simpl; [intros [= <-]; lia|].
  apply IH; [apply Z.div_pos; lia|]. simpl. intros ? [= <-]. lia.
Qed.

Lemma parse_digits_20 n :
  (0 ≤ n < 10 ^ 20)%Z →
  ∃ b ds, digits_of 20 n [] = b :: ds ∧ (48 ≤ b ≤ 57)%Z ∧ parse_digits 0 (b :: ds) = Some n.
Proof.
  intros Hn. destruct (digits_of_parse 20 n [] Hn) as (ds & E & [Hne|?] & Hp); [|done].
  rewrite app_nil_r in E. destruct ds as [|b ds]; [done|]. exists b, ds.
  split; [done|]. split.
  - apply (digits_of_head 20 n []); [lia|done|]. by rewrite E.
  - rewrite Hp. f_equal.
Qed.

(** Printing an [i64] and parsing it back. *)
Lemma parse_i64_to_string n : is_i64 n → parse_i64_bytes (i64_to_string n) = Some n.
Proof.
  intros Hn. unfold i64_to_string, parse_i64_bytes.
  assert ((i64_MIN <=? n) && (n <=? i64_MAX) = true)%Z as Hrange.
  { unfold is_i64 in Hn. apply andb_true_iff. split; apply Z.leb_le; lia. }
  unfold is_i64, i64_MIN, i64_MAX in Hn. destruct (Z.ltb_spec n 0).
  - destruct (parse_digits_20 (- n)) as (b & ds & -> & _ & ->); [lia|].
    simpl. rewrite Z.opp_involutive, Hrange. done.
  - destruct (parse_digits_20 n) as (b & ds & -> & Hb & Hp); [lia|].
    destruct (decide (b = 43)%Z) as [->|]; [lia|]. destruct (decide (b = 45)%Z) as [->|]; [lia|].
    assert (∀ T (x y z : T), match b with 43%Z => x | 45%Z => y | _ => z end = z) as Hm.
    { intros. destruct b as [|p|p]; try done; repeat (destruct p as [p|p|]; try done; try lia). }
    rewrite Hm, Hp. simpl. by rewrite Hrange.
Qed.

(** [normalize_range] on the length of a sequence either selects nothing or a
    non-empty in-range window, which is the slice. *)
Lemma normalize_range_cases {A} start stop (l : list A) :
  fits (length l) → is_i64 start → is_i64 stop →
  (normalize_range start stop (length l) = None ∧ redis_slice start stop l = []) ∨
  ∃ a b, normalize_range start stop (length l) = Some (a, b) ∧ a ≤ b < length l ∧
         redis_slice start stop l = take (b - a + 1) (drop a l) ∧
         length (redis_slice start stop l) = b - a + 1.
Proof.
  intros Hf Hs Ht. pose proof (normalize_range_slice start stop l Hf Hs Ht) as Hsl.
  destruct (normalize_range start stop (length l)) as [[a b]|] eqn:E; [right|by left].
  exists a, b. apply normalize_range_Some in E as (? & _); [|done..].
  split; [done|]. split; [done|]. split; [done|].
  rewrite <-Hsl, length_take, length_drop. lia.
Qed.
