(* ===== verification/F64.v ===== *)
(** * IEEE-754 doubles as bit patterns

    Sorted-set scores are [f64].  A double is its 64-bit pattern, so that the
    comparisons the store makes - [f64::total_cmp], [<], [<=] - are the bit
    computations of the language, and so that addition is the Standard
    Library's [SFadd] on them.  Decimal text from and to a double is a
    parameter ([FloatOps]): the store only passes its results on. *)

From Stdlib Require Import SpecFloat.
From S2P Require Import Prelude Helpers.

Abbreviation f64 := Z.

Definition f64_ABS_MASK : Z := 9223372036854775807%Z.
Definition f64_INF_BITS : Z := 9218868437227405312%Z.

Definition f64_valid (b : f64) : Prop := (0 ≤ b < two64)%Z.

Definition f64_is_nan (b : f64) : bool := (f64_INF_BITS <? Z.land b f64_ABS_MASK)%Z.
Definition f64_is_zero (b : f64) : bool := (Z.land b f64_ABS_MASK =? 0)%Z.
Definition f64_is_finite (b : f64) : bool := (Z.land b f64_ABS_MASK <? f64_INF_BITS)%Z.

(** The integer [total_cmp] compares: the bits as [i64], with the magnitude
    bits of negative numbers flipped. *)
Definition f64_key (b : f64) : Z :=
  let i := wrap_i64 b in Z.lxor i (if (i <? 0)%Z then i64_MAX else 0%Z).

Definition total_cmp (a b : f64) : comparison := Z.compare (f64_key a) (f64_key b).

(** [<=] and [<]: false on NaN, the two zeros equal. *)
Definition f64_le (a b : f64) : bool :=
  negb (f64_is_nan a) && negb (f64_is_nan b) &&
  (if f64_is_zero a && f64_is_zero b then true else (f64_key a <=? f64_key b)%Z).

Definition f64_lt (a b : f64) : bool :=
  negb (f64_is_nan a) && negb (f64_is_nan b) &&
  (if f64_is_zero a && f64_is_zero b then false else (f64_key a <? f64_key b)%Z).

(** Sign, and magnitude as [mantissa * 2^exponent], of a finite double. *)
Definition f64_negative (b : f64) : bool := Z.testbit b 63.
Definition f64_exponent (b : f64) : Z := Z.max 1 (Z.land (Z.shiftr b 52) 2047) - 1075.
Definition f64_mantissa (b : f64) : Z :=
  let m := Z.land b 4503599627370495 in
  if (Z.land (Z.shiftr b 52) 2047 =? 0)%Z then m else (m + 4503599627370496)%Z.

(** [x.fract() == 0.0] for a finite [x]. *)
Definition f64_integral (b : f64) : bool :=
  let e := f64_exponent b in
  if (0 <=? e)%Z then true else (f64_mantissa b mod 2 ^ (- e) =? 0)%Z.

(** [x as i64] for a finite [x]: truncation, saturating at the ends. *)
Definition f64_as_i64 (b : f64) : Z :=
  let mag := Z.shiftl (f64_mantissa b) (f64_exponent b) in
  let v := if f64_negative b then (- mag)%Z else mag in
  Z.max i64_MIN (Z.min i64_MAX v).

(** IEEE 754 binary64 addition on bit patterns, through the Standard
    Library's [SFadd] (round to nearest, ties to even). *)
Definition spec_of_bits (b : f64) : spec_float :=
  let e := Z.land (Z.shiftr b 52) 2047 in
  let m := Z.land b (2 ^ 52 - 1) in
  if (e =? 2047)%Z then if (m =? 0)%Z then S754_infinity (f64_negative b) else S754_nan
  else if (e =? 0)%Z then
    if (m =? 0)%Z then S754_zero (f64_negative b)
    else S754_finite (f64_negative b) (Z.to_pos m) (-1074)
  else S754_finite (f64_negative b) (Z.to_pos (m + 2 ^ 52)) (e - 1075).

Definition bits_of_spec (f : spec_float) : f64 :=
  let pack (s : bool) (mag : Z) : f64 :=
    ((if s then Z.shiftl 1 63 else 0) + Z.land mag f64_ABS_MASK)%Z in
  match f with
  | S754_zero s => pack s 0%Z
  | S754_infinity s => pack s f64_INF_BITS
  | S754_nan => pack false (Z.lor f64_INF_BITS (Z.shiftl 1 51)%Z)
  | S754_finite s m e =>
      pack s (if (Z.pos m <? 2 ^ 52)%Z then Z.pos m else Z.shiftl (e + 1075) 52 + (Z.pos m - 2 ^ 52))%Z
  end.

Definition f64_add (x y : f64) : f64 := bits_of_spec (SFadd 53 1024 (spec_of_bits x) (spec_of_bits y)).

(** Text conversions of the language, whose results are passed on untouched:
    [f64::to_string] and [str::parse::<f64>]. *)
Class FloatOps := {
  f64_to_string : f64 → Bytes;
  f64_parse : Bytes → option f64;
}.

Section Text.
Context `{FloatOps}.

(** [format_score] ([helpers.rs]). *)
Definition format_score (score : f64) : Bytes :=
  if f64_is_finite score && f64_integral score
  then i64_to_string (f64_as_i64 score)
  else f64_to_string score.

(** [parse_f64_bytes] ([helpers.rs]). *)
Definition parse_f64_bytes (value : Bytes) : option f64 :=
  v ← f64_parse value; if f64_is_finite v then Some v else None.

End Text.

(** A score the store accepts: a 64-bit pattern that is not a NaN. *)
Definition score_ok (b : f64) : Prop := f64_valid b ∧ f64_is_nan b = false.

#[export] Instance score_ok_dec b : Decision (score_ok b).
Proof. unfold score_ok, f64_valid. apply _. Defined.

(** ** Lemmas *)

Lemma f64_add_valid x y : f64_valid (f64_add x y).
Proof.
  unfold f64_valid, f64_add. generalize (SFadd 53 1024 (spec_of_bits x) (spec_of_bits y)).
  assert (∀ z, 0 ≤ Z.land z f64_ABS_MASK < 2 ^ 63)%Z as Hm.
  { intros z. change f64_ABS_MASK with (Z.ones 63). rewrite Z.land_ones by lia. apply Z.mod_pos_bound. lia. }
  assert (two64 = 2 * 2 ^ 63)%Z as -> by done.
  intros f. unfold bits_of_spec. destruct f as [s|s| |s m e];
    match goal with |- context [Z.land ?z f64_ABS_MASK] => pose proof (Hm z) end;
    change (Z.shiftl 1 63) with (2 ^ 63)%Z; try destruct s; lia.
Qed.

(** 1 + 2 = 3, 0.1 + 0.2, and an overflow to infinity. *)
Example f64_add_3 : f64_add 4607182418800017408 4611686018427387904 = 4613937818241073152%Z.
Proof. reflexivity. Qed.

Example f64_add_03 : f64_add 4591870180066957722 4596373779694328218 = 4599075939470750516%Z.
Proof. reflexivity. Qed.

Example f64_add_inf : f64_add 9218868437227405311 9218868437227405311 = f64_INF_BITS.
Proof. reflexivity. Qed.

Lemma f64_key_inj a b : f64_valid a → f64_valid b → f64_key a = f64_key b → a = b.
Proof.
  unfold f64_valid, f64_key. intros Ha Hb.
  assert (∀ x, 0 ≤ x < two64 → wrap_i64 x = if x <=? i64_MAX then x else x - two64)%Z as Hw.
  { intros x Hx. unfold wrap_i64, wrap_u64. by rewrite Z.mod_small. }
  rewrite !Hw by done. clear Hw.
  assert (∀ x, x <? 0 = true → Z.lxor x i64_MAX <? 0 = true)%Z as Hneg.
  { intros x Hx%Z.ltb_lt. apply Z.ltb_lt, Z.nle_gt.
    intros Hnn%Z.lxor_nonneg. unfold i64_MAX in Hnn. lia. }
  set (x := if (a <=? i64_MAX)%Z then a else (a - two64)%Z).
  set (y := if (b <=? i64_MAX)%Z then b else (b - two64)%Z).
  intros E. assert (x = y) as Hxy.
  { destruct (x <? 0)%Z eqn:Ex, (y <? 0)%Z eqn:Ey.
    - apply (f_equal (λ z, Z.lxor z i64_MAX)) in E.
      by rewrite !Z.lxor_assoc, !Z.lxor_nilpotent, !Z.lxor_0_r in E.
    - rewrite Z.lxor_0_r in E. apply Hneg in Ex. rewrite E in Ex. congruence.
    - rewrite Z.lxor_0_r in E. apply Hneg in Ey. rewrite <-E in Ey. congruence.
    - by rewrite !Z.lxor_0_r in E. }
  unfold x, y, i64_MAX, two64 in *. repeat case_match; bool_case; lia.
Qed.

Lemma total_cmp_eq a b : f64_valid a → f64_valid b → total_cmp a b = Eq ↔ a = b.
Proof.
  intros. unfold total_cmp. rewrite Z.compare_eq_iff. split; [by apply f64_key_inj|by intros ->].
Qed.

Lemma total_cmp_refl a : total_cmp a a = Eq.
Proof. apply Z.compare_refl. Qed.

(** The zeros are the two adjacent keys [-1] and [0], every other key is
    outside; so the total order refines the numeric one. *)
Lemma f64_zero_key b : f64_valid b → f64_is_zero b = true ↔ f64_key b = (-1)%Z ∨ f64_key b = 0%Z.
Proof.
  intros Hb. unfold f64_is_zero. rewrite Z.eqb_eq.
  assert (Hm : ∀ c, f64_valid c → f64_key b = f64_key c → b = c) by (intros; by apply f64_key_inj).
  split.
  - intros E. assert (b = 0 ∨ b = 9223372036854775808)%Z as [-> | ->]; [|right; done|left; done].
    unfold f64_ABS_MASK in E. change 9223372036854775807%Z with (Z.ones 63) in E.
    rewrite Z.land_ones in E by lia. unfold f64_valid, two64 in Hb.
    pose proof (Z.div_mod b (2 ^ 63)). change (2 ^ 63)%Z with 9223372036854775808%Z in *.
    assert (0 ≤ b / 9223372036854775808 < 2)%Z.
    { split; [apply Z.div_pos; lia|apply Z.div_lt_upper_bound; lia]. }
    lia.
  - intros [E|E].
    + rewrite (Hm 9223372036854775808%Z); [done|done|by rewrite E].
    + rewrite (Hm 0%Z); [done|done|by rewrite E].
Qed.

Lemma f64_lt_key a b : f64_lt a b = true → (f64_key a < f64_key b)%Z.
Proof. unfold f64_lt. intros. bool_case. case_match; [done|]. by bool_case. Qed.

(** [<=] is transitive with the total order, on scores. *)
Lemma f64_le_total_r m a b :
  score_ok a → score_ok b → f64_valid m → f64_le m a = true → (f64_key a ≤ f64_key b)%Z →
  f64_le m b = true.
Proof.
  intros [Hva Hna] [Hvb Hnb] Hvm Hle Hkey. unfold f64_le in *. rewrite Hna, Hnb in *.
  destruct (f64_is_nan m); simpl in *; [done|].
  destruct (f64_is_zero m) eqn:Ezm; simpl in *.
  - destruct (f64_is_zero b) eqn:Ezb; [done|].
    destruct (f64_is_zero a) eqn:Eza; [|bool_case; apply Z.leb_le; lia].
    apply f64_zero_key in Ezm, Eza; [|done..]. apply Z.leb_le.
    destruct (decide (f64_key b = -1 ∨ f64_key b = 0)%Z) as [Hz|]; [|lia].
    apply f64_zero_key in Hz; [congruence|done].
  - bool_case. apply Z.leb_le. lia.
Qed.

Lemma f64_le_total_l m a b :
  score_ok a → score_ok b → f64_valid m → f64_le b m = true → (f64_key a ≤ f64_key b)%Z →
  f64_le a m = true.
Proof.
  intros [Hva Hna] [Hvb Hnb] Hvm Hle Hkey. unfold f64_le in *. rewrite Hna, Hnb in *.
  destruct (f64_is_nan m); simpl in *; [done|].
  rewrite (andb_comm (f64_is_zero a)), (andb_comm (f64_is_zero b)) in *.
  destruct (f64_is_zero m) eqn:Ezm; simpl in *.
  - destruct (f64_is_zero a) eqn:Eza; [done|].
    destruct (f64_is_zero b) eqn:Ezb; [|bool_case; apply Z.leb_le; lia].
    apply f64_zero_key in Ezm, Ezb; [|done..]. apply Z.leb_le.
    destruct (decide (f64_key a = -1 ∨ f64_key a = 0)%Z) as [Hz|]; [|lia].
    apply f64_zero_key in Hz; [congruence|done].
  - bool_case. apply Z.leb_le. lia.
Qed.

(** On scores [<] is the negation of the converse [<=]. *)
Lemma f64_lt_negb a b : score_ok a → score_ok b → f64_lt a b = negb (f64_le b a).
Proof.
  intros [_ Ha] [_ Hb]. unfold f64_lt, f64_le. rewrite Ha, Hb. simpl. rewrite andb_comm.
  destruct (f64_is_zero b && f64_is_zero a); [done|]. by rewrite Z.ltb_antisym.
Qed.

Lemma f64_finite_ok b : f64_valid b → f64_is_finite b = true → score_ok b.
Proof.
  intros Hv Hf. split; [done|]. unfold f64_is_nan, f64_is_finite in *. bool_case.
  apply Z.ltb_ge. lia.
Qed.

#[global] Arguments f64_add : simpl never.
#[global] Opaque f64_add.
