(* ===== verification/Codec.v ===== *)
(** * What the wire and log codecs share

    The outcome of a decoder that works on a partially received buffer, Rust
    slicing with its panics, little-endian integers, UTF-8 validity and decimal
    text.  Used by [Resp] (protocol/resp.rs), [Native] (protocol/native_redis.rs
    and its client), [Wal] and [Snapshot] (persistence). *)

From S2P Require Import Prelude Helpers.

(** ** Outcomes

    [Result<Option<T>>] of the decoders: [Ok(None)] is [Incomplete], the input
    stops before the item does.  A panic (slice out of range) is [Panic]. *)
Inductive Outcome (E A : Type) :=
  | Panic
  | Incomplete
  | Err (e : E)
  | Done (a : A).
Arguments Panic {E A}.
Arguments Incomplete {E A}.
Arguments Err {E A} e.
Arguments Done {E A} a.

#[export] Instance outcome_ret E : MRet (Outcome E) := λ A a, Done a.

(** [?] and [let Some(x) = ... else { return Ok(None) }] together. *)
#[export] Instance outcome_bind E : MBind (Outcome E) := λ A B f m,
  match m with
  | Panic => Panic
  | Incomplete => Incomplete
  | Err e => Err e
  | Done a => f a
  end.

#[export] Instance outcome_fmap E : FMap (Outcome E) := λ A B f m,
  match m with
  | Panic => Panic
  | Incomplete => Incomplete
  | Err e => Err e
  | Done a => Done (f a)
  end.

(** An index or slice expression: [None] panics. *)
Definition or_panic {E A} (o : option A) : Outcome E A :=
  match o with Some a => Done a | None => Panic end.

(** [ok_or_else]. *)
Definition ok_or {E A} (o : option A) (e : E) : Outcome E A :=
  match o with Some a => Done a | None => Err e end.

(** [&buffer[a..b]]. *)
Definition slice (a b : nat) (buffer : Bytes) : option Bytes :=
  if (a <=? b) && (b <=? length buffer) then Some (take (b - a) (drop a buffer)) else None.

(** [&buffer[a..]]. *)
Definition slice_from (a : nat) (buffer : Bytes) : option Bytes :=
  if a <=? length buffer then Some (drop a buffer) else None.

(** [usize::checked_add] and [usize::checked_mul] on a 64-bit target. *)
Definition usize_checked (z : Z) : option Z := if (z <=? u64_MAX)%Z then Some z else None.

(** ** Bytes *)
Definition is_byte (b : Z) : Prop := (0 ≤ b < 256)%Z.
Abbreviation all_bytes := (Forall is_byte).

(** [u32::to_le_bytes], [u64::to_le_bytes] ([n] the width in bytes). *)
Fixpoint to_le (n : nat) (z : Z) : Bytes :=
  match n with
  | O => []
  | S n' => (z mod 256)%Z :: to_le n' (z / 256)%Z
  end.

(** [u32::from_le_bytes], [u64::from_le_bytes]. *)
Fixpoint from_le (bs : Bytes) : Z :=
  match bs with
  | [] => 0%Z
  | b :: bs' => (b + 256 * from_le bs')%Z
  end.

Definition two32 : Z := 4294967296%Z.
Definition u32_MAX : Z := 4294967295%Z.

(** [n as u32] for a [usize]. *)
Definition usize_as_u32 (n : nat) : Z := (Z.of_nat n mod two32)%Z.

(** ** UTF-8: [std::str::from_utf8] succeeds *)
Definition in_range (lo hi b : Z) : bool := ((lo <=? b) && (b <=? hi))%Z.

Definition utf8_cont (b : Z) : bool := in_range 128 191 b.

Fixpoint utf8_valid (bs : Bytes) : bool :=
  match bs with
  | [] => true
  | b0 :: r0 =>
      if in_range 0 127 b0 then utf8_valid r0
      else match r0 with
      | [] => false
      | b1 :: r1 =>
          if in_range 194 223 b0 then utf8_cont b1 && utf8_valid r1
          else match r1 with
          | [] => false
          | b2 :: r2 =>
              if in_range 224 239 b0 then
                (if (b0 =? 224)%Z then in_range 160 191 b1
                 else if (b0 =? 237)%Z then in_range 128 159 b1 else utf8_cont b1)
                && utf8_cont b2 && utf8_valid r2
              else match r2 with
              | [] => false
              | b3 :: r3 =>
                  in_range 240 244 b0 &&
                  (if (b0 =? 240)%Z then in_range 144 191 b1
                   else if (b0 =? 244)%Z then in_range 128 143 b1 else utf8_cont b1)
                  && utf8_cont b2 && utf8_cont b3 && utf8_valid r3
              end
          end
      end
  end.

(** ** Decimal text of a length ([itoa]) *)
Definition usize_to_string (n : nat) : Bytes := digits_of 20 (Z.of_nat n) [].

Definition is_ascii_digit (b : Z) : bool := in_range 48 57 b.

(** [str::parse::<u64>]. *)
Definition parse_u64 (s : Bytes) : option Z :=
  let s := match s with b :: s' => if (b =? 43)%Z then s' else s | [] => s end in
  match s with
  | [] => None
  | _ => v ← parse_digits 0 s; if (v <=? u64_MAX)%Z then Some v else None
  end.

(** [memmem::find(buffer, CR LF)]. *)
Fixpoint find_crlf (buffer : Bytes) : option nat :=
  match buffer with
  | [] => None
  | b0 :: r =>
      match r with
      | [] => None
      | b1 :: _ => if ((b0 =? 13) && (b1 =? 10))%Z then Some 0 else S <$> find_crlf r
      end
  end.

Definition CRLF : Bytes := [13; 10]%Z.

(** ** More input never changes an answer

    The order on outcomes in which [Incomplete] is below everything: a decoder
    is stable when more input can only move its outcome up. *)
Definition refines {E A} (o o' : Outcome E A) : Prop := o = Incomplete ∨ o = o'.

#[export] Instance refines_refl {E A} : Reflexive (@refines E A).
Proof. intros o. by right. Qed.

Lemma refines_bind {E A B} (m m' : Outcome E A) (f f' : A → Outcome E B) :
  refines m m' → (∀ a, m = Done a → refines (f a) (f' a)) → refines (m ≫= f) (m' ≫= f').
Proof. intros [-> | ->] Hf; [by left|]. destruct m'; try by right. by apply Hf. Qed.

(** Injectivity of [Done], without the reductions of [injection]. *)
Lemma Done_inj {E A} (a b : A) : Done (E := E) a = Done b → a = b.
Proof. by intros [=]. Qed.

Lemma bind_Done {E A B} (m : Outcome E A) (f : A → Outcome E B) b :
  m ≫= f = Done b ↔ ∃ a, m = Done a ∧ f a = Done b.
Proof. destruct m; simpl; naive_solver. Qed.

Lemma fmap_Done {E A B} (m : Outcome E A) (f : A → B) b :
  f <$> m = Done b ↔ ∃ a, m = Done a ∧ b = f a.
Proof. destruct m; simpl; naive_solver. Qed.

Lemma or_panic_Done {E A} (o : option A) a : or_panic (E := E) o = Done a ↔ o = Some a.
Proof. destruct o; simpl; naive_solver. Qed.

(** ** No panic *)
Definition safe {E A} (o : Outcome E A) : Prop := o ≠ Panic.

Lemma safe_bind {E A B} (m : Outcome E A) (f : A → Outcome E B) :
  safe m → (∀ a, m = Done a → safe (f a)) → safe (m ≫= f).
Proof. intros Hm Hf. destruct m; simpl; try done. by apply Hf. Qed.

Lemma safe_Done {E A} (a : A) : safe (E := E) (Done a).
Proof. done. Qed.

#[export] Hint Resolve safe_bind safe_Done : shardkv.

(** ** Slices *)
Lemma slice_Some a b (buffer : Bytes) s :
  slice a b buffer = Some s ↔ a ≤ b ≤ length buffer ∧ s = take (b - a) (drop a buffer).
Proof.
  unfold slice. destruct (a <=? b) eqn:?, (b <=? length buffer) eqn:?; simpl; bool_case;
    naive_solver lia.
Qed.

Lemma slice_length a b (buffer s : Bytes) : slice a b buffer = Some s → length s = b - a.
Proof. intros [? ->]%slice_Some. rewrite length_take, length_drop. lia. Qed.

Lemma slice_is_Some a b (buffer : Bytes) :
  a ≤ b ≤ length buffer → slice a b buffer = Some (take (b - a) (drop a buffer)).
Proof. intros. by apply slice_Some. Qed.

Lemma slice_from_Some a (buffer : Bytes) :
  a ≤ length buffer → slice_from a buffer = Some (drop a buffer).
Proof. intros. unfold slice_from. by rewrite (proj2 (Nat.leb_le _ _)). Qed.

Lemma slice_app a b (buffer r : Bytes) s :
  slice a b buffer = Some s → slice a b (buffer ++ r) = Some s.
Proof.
  intros [? ->]%slice_Some. apply slice_Some. rewrite length_app. split; [lia|].
  rewrite drop_app_le, take_app_le; [done| |lia]. rewrite length_drop. lia.
Qed.

Lemma slice_from_app a (buffer r : Bytes) :
  a ≤ length buffer → slice_from a (buffer ++ r) = Some (drop a buffer ++ r).
Proof. intros. rewrite slice_from_Some by (rewrite length_app; lia). by rewrite drop_app_le. Qed.

(** A slice inside a known remainder. *)
Lemma slice_drop a (buffer pre s post : Bytes) :
  drop a buffer = pre ++ s ++ post → pre ++ s ++ post ≠ [] ∨ a ≤ length buffer →
  slice (a + length pre) (a + length pre + length s) buffer = Some s.
Proof.
  intros Hd Hne. assert (a ≤ length buffer) as Ha.
  { destruct Hne as [Hne|]; [|done]. destruct (decide (a ≤ length buffer)); [done|].
    rewrite drop_ge in Hd by lia. by rewrite <-Hd in Hne. }
  pose proof (f_equal (@length Z) Hd) as Hl. rewrite length_drop, !length_app in Hl.
  apply slice_Some. split; [lia|]. rewrite <-drop_drop, Hd.
  rewrite drop_app_length. replace (_ - _) with (length s) by lia.
  by rewrite take_app_length.
Qed.

Lemma slice_here c (buffer s post : Bytes) :
  drop c buffer = s ++ post → c ≤ length buffer → slice c (c + length s) buffer = Some s.
Proof.
  intros Hd Hc. pose proof (slice_drop c buffer [] s post Hd ltac:(by right)) as Hs.
  simpl in Hs. by rewrite Nat.add_0_r in Hs.
Qed.

(** Moving past a known part of the remainder. *)
Lemma drop_past c (buffer s post : Bytes) n :
  drop c buffer = s ++ post → length s = n → c ≤ length buffer →
  drop (c + n) buffer = post ∧ c + n ≤ length buffer.
Proof.
  intros Hd <- Hc. split; [by rewrite <-drop_drop, Hd, drop_app_length|].
  pose proof (f_equal length Hd) as Hl. rewrite length_drop, length_app in Hl. lia.
Qed.

(** ** Little-endian round trip *)
Lemma length_to_le n z : length (to_le n z) = n.
Proof. revert z. induction n; intros; simpl; auto. Qed.

#[export] Hint Rewrite length_to_le : shardkv_rw.

Lemma to_le_bytes n z : all_bytes (to_le n z).
Proof.
  revert z. induction n as [|n IH]; intros z; simpl; constructor; [|apply IH].
  unfold is_byte. pose proof (Z.mod_pos_bound z 256). lia.
Qed.

Lemma from_to_le n z : (0 ≤ z < 256 ^ Z.of_nat n)%Z → from_le (to_le n z) = z.
Proof.
  revert z. induction n as [|n IH]; intros z Hz; cbn [to_le from_le].
  - change (256 ^ Z.of_nat 0)%Z with 1%Z in Hz. lia.
  - rewrite Nat2Z.inj_succ, Z.pow_succ_r in Hz by lia.
    rewrite IH; [pose proof (Z.div_mod z 256); lia|].
    split; [apply Z.div_pos; lia|]. apply Z.div_lt_upper_bound; lia.
Qed.

Lemma from_to_le_u32 z : (0 ≤ z ≤ u32_MAX)%Z → from_le (to_le 4 z) = z.
Proof. intros. apply from_to_le. unfold u32_MAX in *. simpl. lia. Qed.

Lemma from_to_le_u64 z : is_u64 z → from_le (to_le 8 z) = z.
Proof. intros. apply from_to_le. unfold is_u64, u64_MAX in *. simpl. lia. Qed.

Lemma from_le_bound bs : all_bytes bs → (0 ≤ from_le bs < 256 ^ Z.of_nat (length bs))%Z.
Proof.
  induction 1 as [|b bs Hb _ IH]; [simpl; lia|]. cbn [from_le length].
  rewrite Nat2Z.inj_succ, Z.pow_succ_r by lia. unfold is_byte in Hb. nia.
Qed.

Lemma usize_as_u32_id n : (Z.of_nat n ≤ u32_MAX)%Z → usize_as_u32 n = Z.of_nat n.
Proof. intros. unfold usize_as_u32, two32, u32_MAX in *. apply Z.mod_small. lia. Qed.

(** ** Lines *)
Lemma find_crlf_cons b0 b1 r :
  find_crlf (b0 :: b1 :: r) =
  if ((b0 =? 13) && (b1 =? 10))%Z then Some 0 else S <$> find_crlf (b1 :: r).
Proof. done. Qed.

Lemma find_crlf_Some b i :
  find_crlf b = Some i → i + 2 ≤ length b ∧ slice i (i + 2) b = Some CRLF ∧
  find_crlf (take i b) = None.
Proof.
  revert i. induction b as [|b0 r IH]; intros i Hi; [done|].
  destruct r as [|b1 r]; [done|]. cbn [find_crlf] in Hi.
  destruct ((b0 =? 13) && (b1 =? 10))%Z eqn:E.
  - injection Hi as <-. bool_case. subst. simpl. split; [lia|]. by split.
  - change (S <$> find_crlf (b1 :: r) = Some i) in Hi.
    apply fmap_Some in Hi as (j & Hj & ->).
    destruct (IH j Hj) as (? & [? Hs]%slice_Some & Hn). split; [simpl in *; lia|]. split.
    + apply slice_Some. split; [simpl in *; lia|]. rewrite Hs. done.
    + destruct j as [|j]; [done|]. cbn [take]. cbn [take] in Hn. cbn [find_crlf].
      rewrite E. change (S <$> find_crlf (b1 :: take j r) = None). by rewrite Hn.
Qed.

Lemma find_crlf_app_Some b r i : find_crlf b = Some i → find_crlf (b ++ r) = Some i.
Proof.
  revert i. induction b as [|b0 t IH]; intros i Hi; [done|]. destruct t as [|b1 t]; [done|].
  cbn [find_crlf app] in *. destruct (_ && _); [done|].
  apply fmap_Some in Hi as (j & Hj & ->). apply IH in Hj. cbn [app] in Hj. by rewrite Hj.
Qed.

(** A line without CR LF ends at the first terminator. *)
Lemma find_crlf_line l post : find_crlf l = None → find_crlf (l ++ CRLF ++ post) = Some (length l).
Proof.
  induction l as [|b0 t IH]; intros Hn; [done|]. destruct t as [|b1 t].
  - cbn. rewrite andb_false_r. done.
  - cbn [find_crlf app length] in *. destruct (_ && _); [done|].
    apply fmap_None in Hn. rewrite (IH Hn). done.
Qed.

Lemma find_crlf_no_cr l : 13%Z ∉ l → find_crlf l = None.
Proof.
  induction l as [|b0 t IH]; intros Hn; [done|]. destruct t as [|b1 t]; [done|].
  apply not_elem_of_cons in Hn as [? Hn]. rewrite find_crlf_cons.
  rewrite (proj2 (Z.eqb_neq b0 13)) by done. cbn [andb]. by rewrite IH.
Qed.

(** ** Decimal text *)
Lemma digits_of_chars fuel n acc b :
  (0 ≤ n)%Z → b ∈ digits_of fuel n acc → is_ascii_digit b = true ∨ b ∈ acc.
Proof.
  revert n acc. induction fuel as [|fuel IH]; intros n acc Hn; cbn [digits_of]; [auto|].
  assert (is_ascii_digit (48 + n mod 10) = true) as Hd.
  { unfold is_ascii_digit, in_range. pose proof (Z.mod_pos_bound n 10).
    apply andb_true_iff. split; apply Z.leb_le; lia. }
  destruct (n <? 10)%Z.
  - intros [->|]%elem_of_cons; auto.
  - intros [?|[->|]%elem_of_cons]%IH; auto. apply Z.div_pos; lia.
Qed.

Lemma is_ascii_digit_digit b : is_ascii_digit b = true → digit b = Some (b - 48)%Z.
Proof. unfold is_ascii_digit, in_range, digit. by intros ->. Qed.

Lemma usize_text n :
  fits n →
  ∃ b ds, usize_to_string n = b :: ds ∧ Forall (λ b, is_ascii_digit b = true) (b :: ds) ∧
          parse_digits 0 (b :: ds) = Some (Z.of_nat n).
Proof.
  intros Hf. unfold usize_to_string.
  destruct (parse_digits_20 (Z.of_nat n)) as (b & ds & E & _ & Hp).
  { unfold fits, i64_MAX in Hf. lia. }
  exists b, ds. rewrite E. split; [done|]. split; [|done]. apply Forall_forall. intros c Hc.
  destruct (digits_of_chars 20 (Z.of_nat n) [] c) as [?|Hc']; [lia|by rewrite E|done|].
  by apply elem_of_nil in Hc'.
Qed.

#[global] Arguments to_le : simpl never.
#[global] Arguments from_le : simpl never.
