(* ===== verification/Routing.v ===== *)
(** * Routing a key to a shard

    The server's routing ([storage/embedded_store/routing.rs]) and the routing
    a client computes for itself to reach the owning shard directly
    ([shardcache-client-rs/src/routing.rs], Module [Client]).  The key hash is
    the parameter [hash_key] of [Deps]. *)

From S2P Require Import Prelude Deps Codec.

(** [usize::BITS]. *)
Definition usize_BITS : Z := 64%Z.

(** [usize::is_power_of_two] and [usize::trailing_zeros]. *)
Definition is_power_of_two (n : Z) : bool := (0 <? n)%Z && (2 ^ Z.log2 n =? n)%Z.
Definition trailing_zeros (n : Z) : Z :=
  if (n =? 0)%Z then usize_BITS else Z.log2 (Z.land n (- n)).

Definition shift_for (shard_count : Z) : Z := (usize_BITS - trailing_zeros shard_count)%Z.

(** [((hash as usize) << 7) >> shift]: the shift left drops the top bits. *)
Definition stripe_index (hash shift : Z) : Z :=
  if (shift =? usize_BITS)%Z then 0%Z else Z.shiftr (wrap_u64 (Z.shiftl hash 7)) shift.

(** [(shard_id as u64) << (shift - 7)]. *)
Definition route_hash_for_shard (shard_id shift : Z) : Z :=
  if (shift =? usize_BITS)%Z then 0%Z else wrap_u64 (Z.shiftl shard_id (shift - 7)).

Inductive EmbeddedRouteMode := FullKey | SessionPrefix | OverflowSlot.

#[export] Instance route_mode_eq_dec : EqDecision EmbeddedRouteMode.
Proof. solve_decision. Defined.

Record EmbeddedKeyRoute := mkKeyRoute { route_shard_id : Z; route_key_hash : Z }.

Definition OVERFLOW_SLOT_KEY_MAGIC : Bytes := [83; 67; 75; 86; 75; 69; 89; 49]%Z.

Definition overflow_slot_shard (key : Bytes) (shift : Z) : option Z :=
  if (length key <? 18) || negb (bytes_eqb (take 8 key) OVERFLOW_SLOT_KEY_MAGIC) then None
  else
    let shard_id := from_le (take 4 (drop 8 key)) in
    let shard_count :=
      if (shift =? usize_BITS)%Z then 1%Z else wrap_u64 (Z.shiftl 1 (usize_BITS - shift)) in
    if (shard_id <? shard_count)%Z then Some shard_id else None.

(** [key.starts_with(b"s:")]. *)
Definition is_session_key (key : Bytes) : bool := bytes_eqb (take 2 key) [115; 58]%Z.

(** [key[i] == ':' && key[i + 1] == 'c' && key[i + 2] == ':']. *)
Definition separator_at (key : Bytes) (i : nat) : bool :=
  bool_decide (key !! i = Some 58%Z) && bool_decide (key !! (i + 1) = Some 99%Z)
  && bool_decide (key !! (i + 2) = Some 58%Z).

(** The loop that walks down from [index]. *)
Fixpoint separator_loop (key : Bytes) (index : nat) : option nat :=
  if separator_at key index then Some index
  else match index with O => None | S index' => separator_loop key index' end.

Definition session_chunk_separator (key : Bytes) : option nat :=
  if length key <? 3 then None else separator_loop key (length key - 3).

Definition session_route_prefix (key : Bytes) : Bytes :=
  if negb (is_session_key key) then key
  else match session_chunk_separator key with
       | Some index => take index key
       | None => key
       end.

Section routing.
Context `{Hashing}.

Definition compute_key_route (route_mode : EmbeddedRouteMode) (shift : Z) (key : Bytes)
    : EmbeddedKeyRoute :=
  let key_hash := hash_key key in
  let by_hash :=
    let route_hash :=
      match route_mode with
      | FullKey | OverflowSlot => key_hash
      | SessionPrefix => hash_key (session_route_prefix key)
      end in
    mkKeyRoute (stripe_index route_hash shift) key_hash in
  match route_mode with
  | OverflowSlot =>
      match overflow_slot_shard key shift with
      | Some shard_id => mkKeyRoute shard_id key_hash
      | None => by_hash
      end
  | _ => by_hash
  end.

Definition compute_session_shard (shift : Z) (session_prefix : Bytes) : Z :=
  stripe_index (hash_key session_prefix) shift.

(** When a request's key hash is enough to find the shard. *)
Definition can_route_with_key_hash (route_mode : EmbeddedRouteMode) (shard_count : Z)
    (key : Bytes) : bool :=
  match route_mode with
  | FullKey => true
  | SessionPrefix => (shard_count =? 1)%Z || negb (is_session_key key)
  | OverflowSlot => (shard_count =? 1)%Z
  end.

Definition can_use_route_hash_as_key_hash (route_mode : EmbeddedRouteMode) (key : Bytes) : bool :=
  match route_mode with
  | FullKey => true
  | SessionPrefix => negb (is_session_key key)
  | OverflowSlot => false
  end.
End routing.

(** ** The client's copy

    The client has its own copies of the server's functions; they are
    translated here from the client's source, so that the agreement of the two
    is a theorem. *)
Module Client.

Inductive ShardCacheRouteMode := FullKey | SessionPrefix | OverflowSlot.

Record ShardCacheRoute := mkRoute { key_hash : Z; key_tag : Z; shard_id : Z }.

(** A [ShardCacheDirectRouter] without its address. *)
Record Router := mkRouter { shard_count : Z; shift : Z; route_mode : ShardCacheRouteMode }.

Definition shift_for (shard_count : Z) : Z := (64 - trailing_zeros shard_count)%Z.

Definition stripe_index (hash shift : Z) : Z :=
  if (shift =? 64)%Z then 0%Z else Z.shiftr (wrap_u64 (Z.shiftl hash 7)) shift.

(** [key.starts_with(b"s:")]. *)
Definition starts_with_session (key : Bytes) : bool :=
  match key with c1 :: c2 :: _ => (c1 =? 115)%Z && (c2 =? 58)%Z | _ => false end.

(** The loop from [index] down to 0; the indexes are below the length. *)
Fixpoint chunk_separator_from (key : Bytes) (index : nat) : option nat :=
  let found := match drop index key with
               | c1 :: c2 :: c3 :: _ => (c1 =? 58)%Z && (c2 =? 99)%Z && (c3 =? 58)%Z
               | _ => false
               end in
  if found then Some index
  else match index with O => None | S index => chunk_separator_from key index end.

Definition session_chunk_separator (key : Bytes) : option nat :=
  if length key <? 3 then None else chunk_separator_from key (length key - 3).

Definition session_route_prefix (key : Bytes) : Bytes :=
  if negb (starts_with_session key) then key
  else match session_chunk_separator key with
       | Some index => take index key
       | None => key
       end.

(** [ShardCacheDirectRouter::new], then [with_route_mode]: [None] is the
    configuration error. *)
Definition new (count : Z) (mode : ShardCacheRouteMode) : option Router :=
  if (count =? 0)%Z || negb (is_power_of_two count) then None
  else Some (mkRouter count (shift_for count) mode).

Definition overflow_slot_shard (key : Bytes) (shard_count : Z) : option Z :=
  if (length key <? 18) || negb (bytes_eqb (take 8 key) OVERFLOW_SLOT_KEY_MAGIC) then None
  else
    let shard_id := from_le (take 4 (drop 8 key)) in
    if (shard_id <? shard_count)%Z then Some shard_id else None.

Definition hash_key_tag_from_hash (hash : Z) : Z := Z.shiftr hash 56.

(** The public [shard_index]. *)
Definition shard_index (hash shard_count : Z) : option Z :=
  if (shard_count =? 0)%Z || negb (is_power_of_two shard_count) then None
  else Some (stripe_index hash (shift_for shard_count)).

(** [hash_key] is XXH3 on both sides, from the same library. *)
Section client.
Context `{Hashing}.

Definition route_hash (mode : ShardCacheRouteMode) (key : Bytes) (key_hash : Z) : Z :=
  match mode with
  | FullKey => key_hash
  | SessionPrefix => hash_key (session_route_prefix key)
  | OverflowSlot => key_hash
  end.

Definition route_key (self : Router) (key : Bytes) : ShardCacheRoute :=
  let key_hash := hash_key key in
  let shard_id :=
    match route_mode self with
    | OverflowSlot =>
        match overflow_slot_shard key (shard_count self) with
        | Some s => s
        | None => stripe_index key_hash (shift self)
        end
    | mode => stripe_index (route_hash mode key key_hash) (shift self)
    end in
  mkRoute key_hash (hash_key_tag_from_hash key_hash) shard_id.
End client.

(** The port of a shard: [None] where [u16] or the port range is exceeded. *)
Definition shard_port (self : Router) (base_port shard_id : Z) : option Z :=
  if (shard_count self <=? shard_id)%Z then None
  else if (65535 <? shard_id)%Z then None
  else if (65535 <? base_port + shard_id)%Z then None
  else Some (base_port + shard_id)%Z.

(** [ShardCacheRoute::write_to]: the routed header fields. *)
Definition write_to (self : ShardCacheRoute) : Bytes :=
  to_le 8 (key_hash self) ++ to_le 4 (shard_id self mod two32) ++ to_le 8 (key_tag self).
End Client.

(** The client's mode as the server names it. *)
Definition server_mode (mode : Client.ShardCacheRouteMode) : EmbeddedRouteMode :=
  match mode with
  | Client.FullKey => FullKey
  | Client.SessionPrefix => SessionPrefix
  | Client.OverflowSlot => OverflowSlot
  end.


(** ** Lemmas *)

(** A shard geometry the server accepts. *)
Definition valid_count (shard_count : Z) : Prop := ∃ k, (0 ≤ k < 57)%Z ∧ shard_count = (2 ^ k)%Z.

Lemma trailing_zeros_pow2 k : (0 ≤ k)%Z → trailing_zeros (2 ^ k) = k.
Proof.
  intros Hk. unfold trailing_zeros.
  rewrite (proj2 (Z.eqb_neq _ _)) by (pose proof (Z.pow_pos_nonneg 2 k); lia).
  enough (Z.land (2 ^ k) (- 2 ^ k) = 2 ^ k)%Z as -> by (by apply Z.log2_pow2).
  replace (- 2 ^ k)%Z with (Z.lnot (Z.ones k)).
  - rewrite <-Z.shiftl_1_l, <-Z.ldiff_land. apply Z.bits_inj'. intros i Hi.
    rewrite Z.ldiff_spec, Z.shiftl_spec by lia.
    destruct (decide (i < k)%Z).
    + rewrite Z.testbit_neg_r by lia. done.
    + rewrite Z.ones_spec_high by lia. apply andb_true_r.
  - rewrite Z.ones_equiv. unfold Z.lnot. lia.
Qed.

Lemma shift_for_pow2 k : (0 ≤ k)%Z → shift_for (2 ^ k) = (64 - k)%Z.
Proof. intros. unfold shift_for. by rewrite trailing_zeros_pow2. Qed.

Lemma is_power_of_two_spec n : is_power_of_two n = true ↔ ∃ k, (0 ≤ k)%Z ∧ n = (2 ^ k)%Z.
Proof.
  unfold is_power_of_two. rewrite andb_true_iff, Z.ltb_lt, Z.eqb_eq. split.
  - intros [? <-]. exists (Z.log2 n). split; [apply Z.log2_nonneg|done].
  - intros (k & ? & ->). rewrite Z.log2_pow2 by done.
    pose proof (Z.pow_pos_nonneg 2 k). lia.
Qed.

Lemma stripe_index_lt hash k :
  (0 ≤ k < 57)%Z → (0 ≤ stripe_index hash (64 - k) < 2 ^ k)%Z.
Proof.
  intros Hk. unfold stripe_index, usize_BITS. destruct (_ =? 64)%Z eqn:E; bool_case.
  - pose proof (Z.pow_pos_nonneg 2 k). lia.
  - rewrite Z.shiftr_div_pow2 by lia. unfold wrap_u64.
    pose proof (Z.mod_pos_bound (Z.shiftl hash 7) two64 ltac:(done)).
    pose proof (Z.pow_pos_nonneg 2 (64 - k)).
    split; [apply Z.div_pos; lia|]. apply Z.div_lt_upper_bound; [lia|].
    rewrite <-Z.pow_add_r by lia. replace (64 - k + k)%Z with 64%Z by lia.
    change (2 ^ 64)%Z with two64. lia.
Qed.

(** Both sides recover the shard count from the shift. *)
Lemma slot_count_of_shift k :
  (0 ≤ k < 57)%Z →
  (if (64 - k =? usize_BITS)%Z then 1 else wrap_u64 (Z.shiftl 1 (usize_BITS - (64 - k))))%Z = (2 ^ k)%Z.
Proof.
  intros Hk. unfold usize_BITS, wrap_u64. destruct (_ =? 64)%Z eqn:E; bool_case.
  - by replace k with 0%Z by lia.
  - replace (64 - (64 - k))%Z with k by lia. rewrite Z.shiftl_1_l. apply Z.mod_small.
    split; [apply Z.pow_nonneg; lia|]. unfold two64.
    change 18446744073709551616%Z with (2 ^ 64)%Z. apply Z.pow_lt_mono_r; lia.
Qed.

Lemma overflow_slot_agree key k :
  (0 ≤ k < 57)%Z →
  overflow_slot_shard key (64 - k) = Client.overflow_slot_shard key (2 ^ k).
Proof. intros. unfold overflow_slot_shard. by rewrite slot_count_of_shift. Qed.

Lemma overflow_slot_lt key n s :
  all_bytes key → Client.overflow_slot_shard key n = Some s → (0 ≤ s < n)%Z.
Proof.
  intros Hk. unfold Client.overflow_slot_shard. case_match; [done|]. case_match; [|done].
  bool_case. intros [= <-]. split; [|done]. apply from_le_bound. by apply Forall_take, Forall_drop.
Qed.

(** *** The session separator *)

Lemma separator_loop_complete key i j :
  j ≤ i → separator_at key j = true → (∀ m, j < m ≤ i → separator_at key m = false) →
  separator_loop key i = Some j.
Proof.
  induction i as [|i IH]; intros Hj Hs Hm; cbn [separator_loop].
  - replace j with 0 in * by lia. by rewrite Hs.
  - destruct (decide (j = S i)) as [->|]; [by rewrite Hs|].
    rewrite (Hm (S i)) by lia. apply IH; [lia|done|]. intros. apply Hm. lia.
Qed.

Lemma separator_app_l pre t i : separator_at (pre ++ t) (length pre + i) = separator_at t i.
Proof.
  unfold separator_at. rewrite <-!Nat.add_assoc, !lookup_app_r by lia.
  by replace (length pre + i - length pre) with i by lia;
     replace (length pre + (i + 1) - length pre) with (i + 1) by lia;
     replace (length pre + (i + 2) - length pre) with (i + 2) by lia.
Qed.

Definition CHUNK_SEP : Bytes := [58; 99; 58]%Z.

(** The chunk name has no further separator. *)
Definition no_separator (chunk : Bytes) : Prop := ∀ i, separator_at (drop 1 CHUNK_SEP ++ chunk) i = false.

Lemma session_prefix_of session chunk :
  no_separator chunk →
  session_route_prefix ([115; 58]%Z ++ session ++ CHUNK_SEP ++ chunk) = [115; 58]%Z ++ session.
Proof.
  intros Hn. unfold session_route_prefix. set (key := [115; 58]%Z ++ session ++ _).
  replace (is_session_key key) with true by done. cbn [negb].
  assert (key = ([115; 58]%Z ++ session) ++ CHUNK_SEP ++ chunk) as Hk
    by (unfold key; by rewrite <-app_assoc).
  assert (length key = length ([115; 58]%Z ++ session) + (3 + length chunk)) as Hl
    by (rewrite Hk, !length_app; done).
  unfold session_chunk_separator. rewrite (proj2 (Nat.ltb_ge _ _)) by lia.
  rewrite (separator_loop_complete key _ (length ([115; 58]%Z ++ session))); [|lia| |].
  - rewrite Hk. by rewrite take_app_length.
  - rewrite Hk, <-(Nat.add_0_r (length _)), separator_app_l. done.
  - intros m Hm. replace m with (length ([115; 58]%Z ++ session) + S (m - length ([115; 58]%Z ++ session) - 1)) by lia.
    rewrite Hk, separator_app_l. set (i := m - _ - 1). specialize (Hn i).
    unfold separator_at in *. exact Hn.
Qed.

(** *** Shards are hit by their own route hash *)
Lemma stripe_of_route_hash s k :
  (0 ≤ k < 57)%Z → (0 ≤ s < 2 ^ k)%Z →
  stripe_index (route_hash_for_shard s (64 - k)) (64 - k) = s.
Proof.
  intros Hk Hs. unfold stripe_index, route_hash_for_shard, usize_BITS.
  destruct (64 - k =? 64)%Z eqn:E; bool_case.
  { assert (k = 0)%Z as -> by lia. change (2 ^ 0)%Z with 1%Z in Hs. lia. }
  unfold wrap_u64, two64. change 18446744073709551616%Z with (2 ^ 64)%Z.
  rewrite !Z.shiftl_mul_pow2, Z.shiftr_div_pow2 by lia.
  assert (s * 2 ^ (64 - k - 7) < 2 ^ 57)%Z.
  { replace 57%Z with (k + (64 - k - 7))%Z by lia. rewrite Z.pow_add_r by lia.
    apply Z.mul_lt_mono_pos_r; [apply Z.pow_pos_nonneg; lia|lia]. }
  pose proof (Z.pow_pos_nonneg 2 (64 - k - 7)).
  rewrite (Z.mod_small (s * _)) by (split; [apply Z.mul_nonneg_nonneg; lia|];
    eapply Z.lt_le_trans; [eassumption|]; by apply Z.pow_le_mono_r).
  rewrite <-Z.mul_assoc, <-Z.pow_add_r by lia. replace (64 - k - 7 + 7)%Z with (64 - k)%Z by lia.
  assert (s * 2 ^ (64 - k) < 2 ^ 64)%Z.
  { replace 64%Z with (k + (64 - k))%Z at 2 by lia. rewrite Z.pow_add_r by lia.
    apply Z.mul_lt_mono_pos_r; [apply Z.pow_pos_nonneg; lia|lia]. }
  rewrite Z.mod_small by (split; [apply Z.mul_nonneg_nonneg; [lia|apply Z.pow_nonneg; lia]|done]).
  apply Z.div_mul. pose proof (Z.pow_pos_nonneg 2 (64 - k)). lia.
Qed.

(** *** What routing means

    The shard is the highest [k] of the low 57 bits of the hash. *)
Definition stripe_spec (hash k : Z) : Z := (hash mod 2 ^ 57 / 2 ^ (57 - k))%Z.

Definition starts_with (p key : Bytes) : bool := bool_decide (take (length p) key = p).

(** The part of a session key before its last ":c:", or the whole key. *)
Definition session_part (key p : Bytes) : Prop :=
  if starts_with [115; 58]%Z key
  then (∃ rest, key = p ++ CHUNK_SEP ++ rest ∧
          ∀ p' rest', key = p' ++ CHUNK_SEP ++ rest' → length p' ≤ length p) ∨
       (p = key ∧ ∀ p' rest', key ≠ p' ++ CHUNK_SEP ++ rest')
  else p = key.

(** A slot key (at least 18 bytes, "SCKVKEY1" and a little-endian shard) names
    its shard, if there is one of that number. *)
Definition slot_part (key : Bytes) (n : Z) : option Z :=
  if (18 <=? length key) && starts_with OVERFLOW_SLOT_KEY_MAGIC key && (from_le (take 4 (drop 8 key)) <? n)%Z
  then Some (from_le (take 4 (drop 8 key))) else None.

(** *** The copies meet the specification *)
Lemma stripe_arith hash k : (0 ≤ k < 57)%Z →
  (if (64 - k =? 64)%Z then 0%Z else Z.shiftr (wrap_u64 (Z.shiftl hash 7)) (64 - k)) = stripe_spec hash k.
Proof.
  intros Hk. unfold stripe_spec. destruct (64 - k =? 64)%Z eqn:E; bool_case.
  - replace k with 0%Z by lia. symmetry. apply Z.div_small, Z.mod_pos_bound. done.
  - unfold wrap_u64, two64. change 18446744073709551616%Z with (2 ^ 57 * 2 ^ 7)%Z.
    rewrite Z.shiftl_mul_pow2, Z.shiftr_div_pow2 by lia. rewrite Zmult_mod_distr_r.
    replace (64 - k)%Z with (57 - k + 7)%Z by lia. rewrite Z.pow_add_r by lia.
    apply Z.div_mul_cancel_r; [pose proof (Z.pow_pos_nonneg 2 (57 - k)); lia|done].
Qed.

Lemma stripe_index_spec hash k : (0 ≤ k < 57)%Z → stripe_index hash (64 - k) = stripe_spec hash k.
Proof. apply stripe_arith. Qed.

Lemma client_stripe_spec hash k : (0 ≤ k < 57)%Z → Client.stripe_index hash (64 - k) = stripe_spec hash k.
Proof. apply stripe_arith. Qed.

Lemma client_shift_for k : (0 ≤ k)%Z → Client.shift_for (2 ^ k) = (64 - k)%Z.
Proof. intros. unfold Client.shift_for. by rewrite trailing_zeros_pow2. Qed.

Lemma client_slot_spec key n : Client.overflow_slot_shard key n = slot_part key n.
Proof.
  unfold Client.overflow_slot_shard, slot_part, starts_with. rewrite Nat.ltb_antisym.
  change (length OVERFLOW_SLOT_KEY_MAGIC) with 8. destruct (18 <=? length key); [|done]. cbn [negb orb andb].
  unfold bytes_eqb. by destruct (bool_decide (take 8 key = _)).
Qed.

Lemma separator_at_spec key i : separator_at key i = true ↔ ∃ rest, drop i key = CHUNK_SEP ++ rest.
Proof.
  unfold separator_at. rewrite !andb_true_iff, !bool_decide_eq_true.
  rewrite <-(Nat.add_0_r i) at 1. rewrite <-!lookup_drop. split.
  - intros [[H0 H1] H2]. destruct (drop i key) as [|c1 [|c2 [|c3 rest]]]; simplify_eq/=. by exists rest.
  - intros [rest ->]. done.
Qed.

Lemma separator_split key i : separator_at key i = true ↔ i ≤ length key ∧ ∃ rest, key = take i key ++ CHUNK_SEP ++ rest.
Proof.
  rewrite separator_at_spec. split.
  - intros [rest E]. split; [|exists rest; by rewrite <-E, take_drop].
    destruct (decide (i ≤ length key)); [done|]. by rewrite drop_ge in E by lia.
  - intros [Hi [rest E]]. exists rest. rewrite E at 1. rewrite drop_app_le by (rewrite length_take; lia).
    rewrite drop_ge by (rewrite length_take; lia). done.
Qed.

(** A separator in the middle of a key starts at the end of its first part. *)
Lemma separator_middle p rest : separator_at (p ++ CHUNK_SEP ++ rest) (length p) = true.
Proof. rewrite separator_at_spec. exists rest. by rewrite drop_app_length. Qed.

Lemma separator_loop_last key i :
  match separator_loop key i with
  | Some j => j ≤ i ∧ separator_at key j = true ∧ ∀ m, j < m ≤ i → separator_at key m = false
  | None => ∀ m, m ≤ i → separator_at key m = false
  end.
Proof.
  induction i as [|i IH]; cbn [separator_loop].
  - destruct (separator_at key 0) eqn:E; [split; [lia|]; split; [done|]; lia|].
    intros m Hm. by replace m with 0 by lia.
  - destruct (separator_at key (S i)) eqn:E; [split; [lia|]; split; [done|]; lia|].
    destruct (separator_loop key i) as [j|].
    + destruct IH as (Hj & Hs & Hm). split; [lia|]. split; [done|]. intros m Hm'.
      destruct (decide (m = S i)) as [->|]; [done|]. apply Hm. lia.
    + intros m Hm. destruct (decide (m = S i)) as [->|]; [done|]. apply IH. lia.
Qed.

Lemma separator_short key i : length key < i + 3 → separator_at key i = false.
Proof.
  intros Hl. apply not_true_iff_false. rewrite separator_at_spec. intros [rest E].
  apply (f_equal length) in E. rewrite length_drop, length_app in E. cbn in E. lia.
Qed.

(** What the search finds: the last separator of the key. *)
Lemma session_separator_last key :
  match session_chunk_separator key with
  | Some j => separator_at key j = true ∧ ∀ m, j < m → separator_at key m = false
  | None => ∀ m, separator_at key m = false
  end.
Proof.
  unfold session_chunk_separator. destruct (length key <? 3) eqn:E; bool_case; [intros m; apply separator_short; lia|].
  pose proof (separator_loop_last key (length key - 3)) as Hl. destruct (separator_loop key (length key - 3)) as [j|].
  - destruct Hl as (_ & Hs & Hm). split; [done|]. intros m Hj. destruct (decide (m ≤ length key - 3)); [apply Hm; lia|].
    apply separator_short. lia.
  - intros m. destruct (decide (m ≤ length key - 3)); [by apply Hl|]. apply separator_short. lia.
Qed.

Lemma session_prefix_spec key : session_part key (session_route_prefix key).
Proof.
  unfold session_part, session_route_prefix. change (is_session_key key) with (starts_with [115; 58]%Z key).
  destruct (starts_with _ key); [|done]. cbn [negb].
  pose proof (session_separator_last key) as Hl. destruct (session_chunk_separator key) as [j|].
  - left. destruct Hl as [[Hj [rest E]]%separator_split Hm]. exists rest. split; [done|]. intros p' rest' E'.
    rewrite length_take, Nat.min_l by done. destruct (decide (length p' ≤ j)); [done|].
    pose proof (separator_middle p' rest') as Hs. rewrite <-E', Hm in Hs by lia. done.
  - right. split; [done|]. intros p' rest' E. pose proof (separator_middle p' rest') as Hs. by rewrite <-E, Hl in Hs.
Qed.

Lemma session_part_unique key p p' : session_part key p → session_part key p' → p = p'.
Proof.
  unfold session_part. destruct (starts_with _ key); [|congruence].
  intros [(rest & E & Hm)|[-> Hn]] [(rest' & E' & Hm')|[-> Hn']]; try done.
  - assert (length p = length p') as Hl by (apply Nat.le_antisymm; eauto).
    rewrite E in E'. by apply app_inj_1 in E' as [-> _].
  - by destruct (Hn' p rest).
  - by destruct (Hn p' rest').
Qed.

(** The client walks the same indexes, looking at the bytes of a slice. *)
Lemma client_loop_agrees key i : Client.chunk_separator_from key i = separator_loop key i.
Proof.
  assert (∀ j, match drop j key with
               | c1 :: c2 :: c3 :: _ => (c1 =? 58)%Z && (c2 =? 99)%Z && (c3 =? 58)%Z
               | _ => false
               end = separator_at key j) as Ht.
  { intros j. apply eq_true_iff_eq. rewrite separator_at_spec.
    destruct (drop j key) as [|c1 [|c2 [|c3 rest]]]; try (split; [done|intros [? ?]; done]).
    rewrite !andb_true_iff, !Z.eqb_eq. split; [intros [[-> ->] ->]; by exists rest|intros [? [= -> -> -> _]]; done]. }
  induction i as [|i IH]; cbn [Client.chunk_separator_from separator_loop]; rewrite Ht; [done|]. by rewrite IH.
Qed.

Lemma client_prefix_spec key : session_part key (Client.session_route_prefix key).
Proof.
  assert (Client.session_route_prefix key = session_route_prefix key) as ->; [|apply session_prefix_spec].
  unfold Client.session_route_prefix, session_route_prefix, Client.session_chunk_separator, session_chunk_separator.
  rewrite client_loop_agrees. assert (Client.starts_with_session key = is_session_key key) as ->; [|done].
  unfold is_session_key, bytes_eqb. apply eq_true_iff_eq. rewrite bool_decide_eq_true.
  destruct key as [|c1 [|c2 key]]; simpl; try done. rewrite andb_true_iff, !Z.eqb_eq. naive_solver.
Qed.

Section routes.
Context `{Hashing}.

Definition routed (mode : EmbeddedRouteMode) (k : Z) (key : Bytes) (s : Z) : Prop :=
  match mode with
  | FullKey => s = stripe_spec (hash_key key) k
  | SessionPrefix => ∃ p, session_part key p ∧ s = stripe_spec (hash_key p) k
  | OverflowSlot => s = default (stripe_spec (hash_key key) k) (slot_part key (2 ^ k))
  end.

Lemma compute_key_route_lt mode k key :
  (0 ≤ k < 57)%Z → all_bytes key →
  (0 ≤ route_shard_id (compute_key_route mode (64 - k) key) < 2 ^ k)%Z.
Proof.
  intros Hk Hb. unfold compute_key_route. destruct mode; simpl; try by apply stripe_index_lt.
  rewrite overflow_slot_agree by done.
  destruct (Client.overflow_slot_shard key (2 ^ k)) as [s|] eqn:E; simpl.
  - by eapply overflow_slot_lt.
  - by apply stripe_index_lt.
Qed.

(** Client and server both route as specified. *)
Lemma client_routes mode k r key :
  (0 ≤ k < 57)%Z → Client.new (2 ^ k) mode = Some r →
  Client.key_hash (Client.route_key r key) = hash_key key ∧
  Client.key_tag (Client.route_key r key) = (hash_key key / 2 ^ 56)%Z ∧
  routed (server_mode mode) k key (Client.shard_id (Client.route_key r key)).
Proof.
  intros Hk. unfold Client.new. case_match; [done|]. intros [= <-].
  unfold Client.route_key. simpl. rewrite client_shift_for by lia.
  split; [done|]. split; [by unfold Client.hash_key_tag_from_hash; rewrite Z.shiftr_div_pow2|].
  destruct mode; simpl.
  - by apply client_stripe_spec.
  - eexists. split; [apply client_prefix_spec|]. by apply client_stripe_spec.
  - rewrite client_stripe_spec, client_slot_spec by done. by destruct (slot_part key (2 ^ k)).
Qed.

Lemma server_routes mode k key :
  (0 ≤ k < 57)%Z →
  route_key_hash (compute_key_route mode (64 - k) key) = hash_key key ∧
  routed mode k key (route_shard_id (compute_key_route mode (64 - k) key)).
Proof.
  intros Hk. unfold compute_key_route. destruct mode; simpl.
  - split; [done|]. by apply stripe_index_spec.
  - split; [done|]. eexists. split; [apply session_prefix_spec|]. by apply stripe_index_spec.
  - rewrite overflow_slot_agree, stripe_index_spec, client_slot_spec by done. by destruct (slot_part key (2 ^ k)).
Qed.

(** The specification leaves one shard. *)
Lemma routed_unique mode k key s s' : routed mode k key s → routed mode k key s' → s = s'.
Proof.
  destruct mode; simpl; [congruence| |congruence].
  intros (p & Hp & ->) (p' & Hp' & ->). by rewrite (session_part_unique key p p').
Qed.

Lemma client_route_agrees mode n r key :
  valid_count n → Client.new n mode = Some r →
  Client.key_hash (Client.route_key r key) = route_key_hash (compute_key_route (server_mode mode) (shift_for n) key)
  ∧ Client.shard_id (Client.route_key r key) =
      route_shard_id (compute_key_route (server_mode mode) (shift_for n) key).
Proof.
  intros (k & Hk & ->) Hr. rewrite shift_for_pow2 by lia.
  destruct (client_routes mode k r key Hk Hr) as (-> & _ & Hc), (server_routes (server_mode mode) k key Hk) as [-> Hs].
  split; [done|]. by eapply routed_unique.
Qed.

Lemma client_port r base s :
  (0 ≤ s < Client.shard_count r)%Z → (base + Client.shard_count r ≤ 65536)%Z → (0 ≤ base)%Z →
  Client.shard_port r base s = Some (base + s)%Z.
Proof.
  intros Hs Hb H0. unfold Client.shard_port.
  by rewrite (proj2 (Z.leb_gt _ _)), !(proj2 (Z.ltb_ge _ _)) by lia.
Qed.

(** The shortcuts by key hash find the shard the full computation finds. *)
Lemma key_hash_route mode k key :
  (0 ≤ k < 57)%Z → all_bytes key → can_route_with_key_hash mode (2 ^ k) key = true →
  route_shard_id (compute_key_route mode (64 - k) key) = stripe_index (hash_key key) (64 - k).
Proof.
  intros Hk Hb Hc. assert (k = 0 ∨ 2 ^ k ≠ 1)%Z as [->|Hne].
  { destruct (decide (k = 0)%Z); [by left|]. right. pose proof (Z.pow_lt_mono_r 2 0 k). simpl in *. lia. }
  - pose proof (compute_key_route_lt mode 0 key ltac:(lia) Hb) as H1.
    pose proof (stripe_index_lt (hash_key key) 0 ltac:(lia)) as H2.
    change (2 ^ 0)%Z with 1%Z in *. lia.
  - destruct mode; simpl in *; try done.
    + rewrite (proj2 (Z.eqb_neq _ _) Hne) in Hc. simpl in Hc. unfold session_route_prefix. by rewrite Hc.
    + rewrite (proj2 (Z.eqb_neq _ _) Hne) in Hc. done.
Qed.
End routes.
