(* ===== verification/Resp.v ===== *)
(** * The RESP codec

    [protocol/resp.rs]: frames, the encoder, the incremental decoder, and the
    command decoders that return borrowed parts or spans of the buffer.  A
    Rust [String] is its bytes; the decoder only builds one from bytes that
    [from_utf8] accepts.  Recursion of the decoder is on fuel; the depth limit
    makes [resp_fuel] enough ([RespProofs.parse_frame_fuel]). *)

From S2P Require Import Prelude Helpers Codec.

Definition RESP_MAX_CONTAINER_ITEMS : Z := 65536%Z.
Definition RESP_MAX_NESTING_DEPTH : nat := 128.
Definition RESP_MIN_FRAME_BYTES : Z := 3%Z.

Inductive Frame :=
  | SimpleString (value : Bytes)
  | BlobString (value : Bytes)
  | Integer (value : Z)
  | Array (items : list Frame)
  | Map (items : list (Frame * Frame))
  | Set_ (items : list Frame)
  | Push (items : list Frame)
  | Null
  | Boolean (value : bool)
  | Double (value : Bytes)
  | BigNumber (value : Bytes)
  | VerbatimString (format value : Bytes)
  | Attribute (attributes : list (Frame * Frame)) (data : Frame)
  | Error (message : Bytes).

Record CommandFrame := mkCommandFrame { parts : list Bytes }.
Record CommandSpanFrame := mkCommandSpanFrame { span_parts : list (nat * nat) }.

(** [ShardCacheError::Protocol(message)], one constructor per message; the
    label is the name of the item the message mentions. *)
Inductive RespError :=
  | ExpectedCommandArrayPrefix
  | NullCommandArray
  | UnsupportedCommandPart (b : Z)
  | NullBulkInCommand
  | MissingTerminator (label : string)
  | NestingTooDeep
  | UnsupportedPrefix (b : Z)
  | CannotBeNull (label : string)
  | InvalidNull
  | InvalidBooleanMarker (b : Z)
  | InvalidBoolean
  | InvalidDouble
  | InvalidBigNumber
  | VerbatimTooShort
  | VerbatimNoSeparator
  | VerbatimBadFormat
  | InvalidUtf8
  | NegativeCount (label : string)
  | CountTooLarge (label : string)
  | CountOverflow (label : string)
  | NegativeLength (label : string)
  | LengthOverflow (label : string)
  | EmptyInteger
  | NonDigit (b : Z)
  | IntegerOverflow
  | NotACommandPart
  | NotACommandArray.

Abbreviation Parse A := (Outcome RespError A).

(** ** Encoding *)

(** A header line: a marker, a decimal number, CR LF. *)
Definition header (marker : Z) (n : nat) : Bytes := marker :: usize_to_string n ++ CRLF.

(** [RespCodec::encode]: the bytes appended to [out]. *)
Fixpoint encode (frame : Frame) : Bytes :=
  match frame with
  | SimpleString value => 43%Z :: value ++ CRLF
  | BlobString value => header 36 (length value) ++ value ++ CRLF
  | Integer value => 58%Z :: i64_to_string value ++ CRLF
  | Array items => header 42 (length items) ++ concat (map encode items)
  | Map items =>
      header 37 (length items) ++ concat (map (λ '(key, value), encode key ++ encode value) items)
  | Set_ items => header 126 (length items) ++ concat (map encode items)
  | Push items => header 62 (length items) ++ concat (map encode items)
  | Null => 95%Z :: CRLF
  | Boolean value => 35%Z :: (if value then 116%Z else 102%Z) :: CRLF
  | Double value => 44%Z :: value ++ CRLF
  | BigNumber value => 40%Z :: value ++ CRLF
  | VerbatimString format value =>
      header 61 (length format + 1 + length value) ++ format ++ 58%Z :: value ++ CRLF
  | Attribute attributes data =>
      header 124 (length attributes) ++
      concat (map (λ '(key, value), encode key ++ encode value) attributes) ++ encode data
  | Error message => 45%Z :: message ++ CRLF
  end.

(** ** Numbers and lines *)

Definition split_sign (bytes : Bytes) : bool * Bytes :=
  match bytes with
  | b :: rest => if (b =? 45)%Z then (true, rest) else if (b =? 43)%Z then (false, rest)
                 else (false, bytes)
  | [] => (false, bytes)
  end.

(** The digit loop: [checked_mul(10)] then [checked_add]. *)
Fixpoint parse_ascii_digits (value : Z) (digits : Bytes) : Parse Z :=
  match digits with
  | [] => Done value
  | b :: rest =>
      if negb (is_ascii_digit b) then Err (NonDigit b)
      else if (i64_MAX <? value * 10)%Z then Err IntegerOverflow
      else if (i64_MAX <? value * 10 + (b - 48))%Z then Err IntegerOverflow
      else parse_ascii_digits (value * 10 + (b - 48)) rest
  end.

Definition parse_ascii_i64 (bytes : Bytes) : Parse Z :=
  let '(negative, digits) := split_sign bytes in
  match digits with
  | [] => Err EmptyInteger
  | _ => value ← parse_ascii_digits 0 digits; Done (if negative then - value else value)%Z
  end.

(** [isize] has the width of [i64] on the targets the crate supports. *)
Definition parse_ascii_isize (bytes : Bytes) : Parse Z :=
  let '(negative, digits) := split_sign bytes in
  match digits with
  | [] => Err EmptyInteger
  | _ => value ← parse_ascii_digits 0 digits; Done (if negative then - value else value)%Z
  end.

(** One to four digits and CR LF, without a search. *)
Definition try_parse_short_uint_line (buffer : Bytes) : option (Z * nat) :=
  let d b := (b - 48)%Z in
  let is_end b c := ((b =? 13) && (c =? 10))%Z in
  match buffer with
  | b0 :: b1 :: b2 :: r2 =>
      if negb (is_ascii_digit b0) then None
      else if is_end b1 b2 then Some (d b0, 3)
      else match r2 with
      | [] => None
      | b3 :: r3 =>
          if negb (is_ascii_digit b1) then None
          else if is_end b2 b3 then Some ((d b0 * 10 + d b1)%Z, 4)
          else match r3 with
          | [] => None
          | b4 :: r4 =>
              if negb (is_ascii_digit b2) then None
              else if is_end b3 b4 then Some ((d b0 * 100 + d b1 * 10 + d b2)%Z, 5)
              else match r4 with
              | [] => None
              | b5 :: _ =>
                  if negb (is_ascii_digit b3) then None
                  else if is_end b4 b5
                  then Some ((d b0 * 1000 + d b1 * 100 + d b2 * 10 + d b3)%Z, 6)
                  else None
              end
          end
      end
  | _ => None
  end.

(** [find_crlf] as the parsers use it: [Ok(None)] when there is none. *)
Definition line_end (buffer : Bytes) : Parse nat :=
  match find_crlf buffer with Some e => Done e | None => Incomplete end.

Definition parse_isize_line (buffer : Bytes) : Parse (Z * nat) :=
  match try_parse_short_uint_line buffer with
  | Some (value, consumed) => Done (value, consumed)
  | None =>
      e ← line_end buffer;
      value ← parse_ascii_isize (take e buffer);
      Done (value, e + 2)
  end.

Definition parse_i64_line (buffer : Bytes) : Parse (Z * nat) :=
  e ← line_end buffer;
  value ← parse_ascii_i64 (take e buffer);
  Done (value, e + 2).

Definition from_utf8 (bytes : Bytes) : Parse Bytes :=
  if utf8_valid bytes then Done bytes else Err InvalidUtf8.

Definition parse_line (buffer : Bytes) : Parse (Bytes * nat) :=
  e ← line_end buffer;
  line ← from_utf8 (take e buffer);
  Done (line, e + 2).

(** ** Limits *)

Definition validate_container_count (buffer : Bytes) (cursor : nat) (count frames_per_item : Z)
    (label : string) : Parse nat :=
  if (count <? 0)%Z then Err (NegativeCount label)
  else if (RESP_MAX_CONTAINER_ITEMS <? count)%Z then Err (CountTooLarge label)
  else
    minimum ← ok_or (frames ← usize_checked (count * frames_per_item);
                     usize_checked (frames * RESP_MIN_FRAME_BYTES)) (CountOverflow label);
    if (Z.of_nat (length buffer - cursor) <? minimum)%Z then Incomplete
    else Done (Z.to_nat count).

Definition payload_bounds (buffer : Bytes) (offset header_consumed : nat) (len : Z)
    (label : string) : Parse (nat * nat * nat) :=
  if (len <? 0)%Z then Err (NegativeLength label)
  else
    start ← ok_or (x ← usize_checked (Z.of_nat offset + 1);
                   usize_checked (x + Z.of_nat header_consumed)) (LengthOverflow label);
    stop ← ok_or (usize_checked (start + len)) (LengthOverflow label);
    frame_end ← ok_or (usize_checked (stop + 2)) (LengthOverflow label);
    if (Z.of_nat (length buffer) <? frame_end)%Z then Incomplete
    else Done (Z.to_nat start, Z.to_nat stop, Z.to_nat frame_end).

(** [if &buffer[end..end + 2] != CR LF { return Err(..) }]. *)
Definition expect_crlf (buffer : Bytes) (stop : nat) (label : string) : Parse unit :=
  s ← or_panic (slice stop (stop + 2) buffer);
  if bytes_eqb s CRLF then Done tt else Err (MissingTerminator label).

(** ** Scalars *)

Definition parse_simple_string (buffer : Bytes) (offset : nat) : Parse (Frame * nat) :=
  rest ← or_panic (slice_from (offset + 1) buffer);
  '(line, consumed) ← parse_line rest;
  Done (SimpleString line, consumed + 1).

Definition parse_error (buffer : Bytes) (offset : nat) : Parse (Frame * nat) :=
  rest ← or_panic (slice_from (offset + 1) buffer);
  '(line, consumed) ← parse_line rest;
  Done (Error line, consumed + 1).

Definition parse_blob_error (buffer : Bytes) (offset : nat) : Parse (Frame * nat) :=
  rest ← or_panic (slice_from (offset + 1) buffer);
  '(len, header_consumed) ← parse_isize_line rest;
  if (len <? 0)%Z then Err (CannotBeNull "blob error")
  else
    '(start, stop, frame_end) ← payload_bounds buffer offset header_consumed len "blob error";
    expect_crlf buffer stop "blob error" ≫= λ _,
    payload ← or_panic (slice start stop buffer);
    message ← from_utf8 payload;
    Done (Error message, frame_end - offset).

Definition parse_integer (buffer : Bytes) (offset : nat) : Parse (Frame * nat) :=
  rest ← or_panic (slice_from (offset + 1) buffer);
  '(value, consumed) ← parse_i64_line rest;
  Done (Integer value, consumed + 1).

Definition parse_blob_string (buffer : Bytes) (offset : nat) : Parse (Frame * nat) :=
  rest ← or_panic (slice_from (offset + 1) buffer);
  '(len, header_consumed) ← parse_isize_line rest;
  if (len <? 0)%Z then Done (Null, header_consumed + 1)
  else
    '(start, stop, frame_end) ← payload_bounds buffer offset header_consumed len "blob string";
    expect_crlf buffer stop "blob string" ≫= λ _,
    payload ← or_panic (slice start stop buffer);
    Done (BlobString payload, frame_end - offset).

Definition parse_null (buffer : Bytes) (offset : nat) : Parse (Frame * nat) :=
  if length buffer <? offset + 3 then Incomplete
  else
    s ← or_panic (slice (offset + 1) (offset + 3) buffer);
    if bytes_eqb s CRLF then Done (Null, 3) else Err InvalidNull.

Definition parse_boolean (buffer : Bytes) (offset : nat) : Parse (Frame * nat) :=
  if length buffer <? offset + 4 then Incomplete
  else
    b ← or_panic (buffer !! (offset + 1));
    value ← (if (b =? 116)%Z then Done true else if (b =? 102)%Z then Done false
             else Err (InvalidBooleanMarker b));
    s ← or_panic (slice (offset + 2) (offset + 4) buffer);
    if bytes_eqb s CRLF then Done (Boolean value, 4) else Err InvalidBoolean.

(** [str::parse::<f64>] succeeds: the grammar of its documentation. *)
Fixpoint span_digits (bs : Bytes) : nat * Bytes :=
  match bs with
  | b :: rest => if is_ascii_digit b then let '(n, r) := span_digits rest in (S n, r) else (0, bs)
  | [] => (0, [])
  end.

Definition strip_sign (bs : Bytes) : Bytes :=
  match bs with
  | b :: rest => if ((b =? 43) || (b =? 45))%Z then rest else bs
  | [] => []
  end.

Definition f64_exp_ok (bs : Bytes) : bool :=
  match bs with
  | [] => true
  | b :: rest =>
      ((b =? 101) || (b =? 69))%Z &&
      let '(n, r) := span_digits (strip_sign rest) in (0 <? n) && bool_decide (r = [])
  end.

Definition f64_number_ok (bs : Bytes) : bool :=
  let '(n, r) := span_digits bs in
  match r with
  | b :: r1 =>
      if (b =? 46)%Z
      then let '(m, r2) := span_digits r1 in (0 <? n + m) && f64_exp_ok r2
      else (0 <? n) && f64_exp_ok r
  | [] => 0 <? n
  end.


Definition INF : Bytes := [105; 110; 102]%Z.
Definition INFINITY : Bytes := [105; 110; 102; 105; 110; 105; 116; 121]%Z.
Definition NAN : Bytes := [110; 97; 110]%Z.

Definition f64_from_str_ok (bs : Bytes) : bool :=
  let body := strip_sign bs in
  let word := map to_ascii_lower body in
  bytes_eqb word INF || bytes_eqb word INFINITY || bytes_eqb word NAN || f64_number_ok body.

Definition is_double_line (line : Bytes) : bool :=
  bytes_eqb line INF || bytes_eqb line (43%Z :: INF) || bytes_eqb line (45%Z :: INF)
  || bytes_eqb line NAN || f64_from_str_ok line.

Definition parse_double (buffer : Bytes) (offset : nat) : Parse (Frame * nat) :=
  rest ← or_panic (slice_from (offset + 1) buffer);
  '(line, consumed) ← parse_line rest;
  if negb (is_double_line line) then Err InvalidDouble else Done (Double line, consumed + 1).

Definition is_big_number_line (line : Bytes) : bool :=
  let digits := strip_sign line in
  negb (bool_decide (digits = []) || negb (forallb is_ascii_digit digits)).

Definition parse_big_number (buffer : Bytes) (offset : nat) : Parse (Frame * nat) :=
  rest ← or_panic (slice_from (offset + 1) buffer);
  '(line, consumed) ← parse_line rest;
  if negb (is_big_number_line line) then Err InvalidBigNumber
  else Done (BigNumber line, consumed + 1).

Definition parse_verbatim_string (buffer : Bytes) (offset : nat) : Parse (Frame * nat) :=
  rest ← or_panic (slice_from (offset + 1) buffer);
  '(len, header_consumed) ← parse_isize_line rest;
  if (len <? 4)%Z then Err VerbatimTooShort
  else
    '(start, stop, frame_end) ← payload_bounds buffer offset header_consumed len "verbatim string";
    expect_crlf buffer stop "verbatim string" ≫= λ _,
    payload ← or_panic (slice start stop buffer);
    colon ← ok_or (position (λ b, (b =? 58)%Z) payload) VerbatimNoSeparator;
    if negb (colon =? 3) then Err VerbatimBadFormat
    else
      format ← from_utf8 (take colon payload);
      value ← or_panic (slice_from (colon + 1) payload);
      Done (VerbatimString format value, frame_end - offset).

(** ** Containers *)
Section containers.
(** [parse_frame_at_depth] at one more fuel. *)
Context (parse_frame_at_depth : nat → nat → Parse (Frame * nat)).

(** [for _ in 0..count]: parse a frame, push it, advance the cursor. *)
Fixpoint parse_items (count cursor depth : nat) : Parse (list Frame * nat) :=
  match count with
  | O => Done ([], cursor)
  | S count' =>
      '(frame, consumed) ← parse_frame_at_depth cursor (depth + 1);
      '(items, cursor') ← parse_items count' (cursor + consumed) depth;
      Done (frame :: items, cursor')
  end.

Fixpoint parse_pairs (count cursor depth : nat) : Parse (list (Frame * Frame) * nat) :=
  match count with
  | O => Done ([], cursor)
  | S count' =>
      '(key, consumed) ← parse_frame_at_depth cursor (depth + 1);
      let cursor := cursor + consumed in
      '(value, consumed) ← parse_frame_at_depth cursor (depth + 1);
      '(items, cursor') ← parse_pairs count' (cursor + consumed) depth;
      Done ((key, value) :: items, cursor')
  end.

Definition parse_array (buffer : Bytes) (offset depth : nat) : Parse (Frame * nat) :=
  rest ← or_panic (slice_from (offset + 1) buffer);
  '(count, header_consumed) ← parse_isize_line rest;
  if (count <? 0)%Z then Done (Null, header_consumed + 1)
  else
    let cursor := offset + 1 + header_consumed in
    count ← validate_container_count buffer cursor count 1 "array";
    '(items, cursor) ← parse_items count cursor depth;
    Done (Array items, cursor - offset).

Definition parse_map (buffer : Bytes) (offset depth : nat) : Parse (Frame * nat) :=
  rest ← or_panic (slice_from (offset + 1) buffer);
  '(count, header_consumed) ← parse_isize_line rest;
  if (count <? 0)%Z then Err (CannotBeNull "map")
  else
    let cursor := offset + 1 + header_consumed in
    count ← validate_container_count buffer cursor count 2 "map";
    '(items, cursor) ← parse_pairs count cursor depth;
    Done (Map items, cursor - offset).

Definition parse_set (buffer : Bytes) (offset depth : nat) : Parse (Frame * nat) :=
  rest ← or_panic (slice_from (offset + 1) buffer);
  '(count, header_consumed) ← parse_isize_line rest;
  if (count <? 0)%Z then Err (CannotBeNull "set")
  else
    let cursor := offset + 1 + header_consumed in
    count ← validate_container_count buffer cursor count 1 "set";
    '(items, cursor) ← parse_items count cursor depth;
    Done (Set_ items, cursor - offset).

Definition parse_push (buffer : Bytes) (offset depth : nat) : Parse (Frame * nat) :=
  rest ← or_panic (slice_from (offset + 1) buffer);
  '(count, header_consumed) ← parse_isize_line rest;
  if (count <? 0)%Z then Err (CannotBeNull "push")
  else
    let cursor := offset + 1 + header_consumed in
    count ← validate_container_count buffer cursor count 1 "push";
    '(items, cursor) ← parse_items count cursor depth;
    Done (Push items, cursor - offset).

(** The frame it returns is always a [Map]: its items, and the bytes read. *)
Definition parse_map_with_prefix (buffer : Bytes) (offset depth : nat)
    : Parse (list (Frame * Frame) * nat) :=
  rest ← or_panic (slice_from (offset + 1) buffer);
  '(count, header_consumed) ← parse_isize_line rest;
  if (count <? 0)%Z then Err (CannotBeNull "attribute")
  else
    let cursor := offset + 1 + header_consumed in
    count ← validate_container_count buffer cursor count 2 "attribute";
    '(items, cursor) ← parse_pairs count cursor depth;
    Done (items, cursor - offset).

Definition parse_attribute (buffer : Bytes) (offset depth : nat) : Parse (Frame * nat) :=
  '(attributes, consumed) ← parse_map_with_prefix buffer offset depth;
  let cursor := offset + consumed in
  '(data, data_consumed) ← parse_frame_at_depth cursor (depth + 1);
  Done (Attribute attributes data, consumed + data_consumed).
End containers.

(** The match on the prefix byte. *)
Definition parse_prefix (rec_ : nat → nat → Parse (Frame * nat)) (buffer : Bytes)
    (offset depth : nat) : Parse (Frame * nat) :=
  b ← or_panic (buffer !! offset);
  if (b =? 43)%Z then parse_simple_string buffer offset
  else if (b =? 45)%Z then parse_error buffer offset
  else if (b =? 33)%Z then parse_blob_error buffer offset
  else if (b =? 58)%Z then parse_integer buffer offset
  else if (b =? 36)%Z then parse_blob_string buffer offset
  else if (b =? 42)%Z then parse_array rec_ buffer offset depth
  else if (b =? 37)%Z then parse_map rec_ buffer offset depth
  else if (b =? 126)%Z then parse_set rec_ buffer offset depth
  else if (b =? 62)%Z then parse_push rec_ buffer offset depth
  else if (b =? 95)%Z then parse_null buffer offset
  else if (b =? 35)%Z then parse_boolean buffer offset
  else if (b =? 44)%Z then parse_double buffer offset
  else if (b =? 40)%Z then parse_big_number buffer offset
  else if (b =? 61)%Z then parse_verbatim_string buffer offset
  else if (b =? 124)%Z then parse_attribute rec_ buffer offset depth
  else Err (UnsupportedPrefix b).

(** [parse_frame_at_depth].  Running out of fuel is a [Panic]. *)
Fixpoint parse_frame_at_depth (fuel : nat) (buffer : Bytes) (offset depth : nat)
    : Parse (Frame * nat) :=
  match fuel with
  | O => Panic
  | S fuel' =>
      if length buffer <=? offset then Incomplete
      else if RESP_MAX_NESTING_DEPTH <? depth then Err NestingTooDeep
      else parse_prefix (parse_frame_at_depth fuel' buffer) buffer offset depth
  end.

(** One level per depth, one for the frame that exceeds it, one for the leaf. *)
Definition resp_fuel : nat := RESP_MAX_NESTING_DEPTH + 2.

Definition parse_frame (buffer : Bytes) (offset : nat) : Parse (Frame * nat) :=
  parse_frame_at_depth resp_fuel buffer offset 0.

(** [RespCodec::decode]. *)
Definition decode (buffer : Bytes) : Parse (Frame * nat) :=
  if bool_decide (buffer = []) then Incomplete else parse_frame buffer 0.

(** ** Commands *)

Definition parse_command_blob_string_span (buffer : Bytes) (offset : nat)
    : Parse (nat * nat * nat) :=
  rest ← or_panic (slice_from (offset + 1) buffer);
  '(len, header_consumed) ← parse_isize_line rest;
  if (len <? 0)%Z then Err NullBulkInCommand
  else
    '(start, stop, frame_end) ←
      payload_bounds buffer offset header_consumed len "command blob string";
    expect_crlf buffer stop "blob string" ≫= λ _,
    Done (start, stop, frame_end - offset).

Definition parse_command_line_span (buffer : Bytes) (offset : nat) : Parse (nat * nat * nat) :=
  rest ← or_panic (slice_from (offset + 1) buffer);
  e ← line_end rest;
  let start := offset + 1 in
  let stop := start + e in
  Done (start, stop, stop + 2 - offset).

Definition parse_command_part_span (buffer : Bytes) (offset : nat) : Parse (nat * nat * nat) :=
  if length buffer <=? offset then Incomplete
  else
    b ← or_panic (buffer !! offset);
    if (b =? 36)%Z then parse_command_blob_string_span buffer offset
    else if (b =? 43)%Z then parse_command_line_span buffer offset
    else if (b =? 58)%Z then parse_command_line_span buffer offset
    else Err (UnsupportedCommandPart b).

Definition parse_command_blob_string (buffer : Bytes) (offset : nat) : Parse (Bytes * nat) :=
  rest ← or_panic (slice_from (offset + 1) buffer);
  '(len, header_consumed) ← parse_isize_line rest;
  if (len <? 0)%Z then Err NullBulkInCommand
  else
    '(start, stop, frame_end) ←
      payload_bounds buffer offset header_consumed len "command blob string";
    expect_crlf buffer stop "blob string" ≫= λ _,
    payload ← or_panic (slice start stop buffer);
    Done (payload, frame_end - offset).

Definition parse_command_simple_string (buffer : Bytes) (offset : nat) : Parse (Bytes * nat) :=
  rest ← or_panic (slice_from (offset + 1) buffer);
  e ← line_end rest;
  let start := offset + 1 in
  let stop := start + e in
  part ← or_panic (slice start stop buffer);
  Done (part, stop + 2 - offset).

Definition parse_command_integer (buffer : Bytes) (offset : nat) : Parse (Bytes * nat) :=
  rest ← or_panic (slice_from (offset + 1) buffer);
  e ← line_end rest;
  let start := offset + 1 in
  let stop := start + e in
  part ← or_panic (slice start stop buffer);
  Done (part, stop + 2 - offset).

Definition parse_command_part (buffer : Bytes) (offset : nat) : Parse (Bytes * nat) :=
  if length buffer <=? offset then Incomplete
  else
    b ← or_panic (buffer !! offset);
    if (b =? 36)%Z then parse_command_blob_string buffer offset
    else if (b =? 43)%Z then parse_command_simple_string buffer offset
    else if (b =? 58)%Z then parse_command_integer buffer offset
    else Err (UnsupportedCommandPart b).

Fixpoint parse_command_parts (buffer : Bytes) (count cursor : nat) : Parse (list Bytes * nat) :=
  match count with
  | O => Done ([], cursor)
  | S count' =>
      '(part, consumed) ← parse_command_part buffer cursor;
      '(parts, cursor') ← parse_command_parts buffer count' (cursor + consumed);
      Done (part :: parts, cursor')
  end.

Fixpoint parse_command_spans (buffer : Bytes) (count cursor : nat)
    : Parse (list (nat * nat) * nat) :=
  match count with
  | O => Done ([], cursor)
  | S count' =>
      '(start, stop, consumed) ← parse_command_part_span buffer cursor;
      '(parts, cursor') ← parse_command_spans buffer count' (cursor + consumed);
      Done ((start, stop) :: parts, cursor')
  end.

Definition parse_command_frame (buffer : Bytes) (offset : nat) : Parse (CommandFrame * nat) :=
  if length buffer <=? offset then Incomplete
  else
    b ← or_panic (buffer !! offset);
    if negb (b =? 42)%Z then Err ExpectedCommandArrayPrefix
    else
      rest ← or_panic (slice_from (offset + 1) buffer);
      '(count, header_consumed) ← parse_isize_line rest;
      if (count <? 0)%Z then Err NullCommandArray
      else
        let cursor := offset + 1 + header_consumed in
        count ← validate_container_count buffer cursor count 1 "command array";
        '(parts, cursor) ← parse_command_parts buffer count cursor;
        Done (mkCommandFrame parts, cursor - offset).

Definition parse_command_span_frame (buffer : Bytes) (offset : nat)
    : Parse (CommandSpanFrame * nat) :=
  if length buffer <=? offset then Incomplete
  else
    b ← or_panic (buffer !! offset);
    if negb (b =? 42)%Z then Err ExpectedCommandArrayPrefix
    else
      rest ← or_panic (slice_from (offset + 1) buffer);
      '(count, header_consumed) ← parse_isize_line rest;
      if (count <? 0)%Z then Err NullCommandArray
      else
        let cursor := offset + 1 + header_consumed in
        count ← validate_container_count buffer cursor count 1 "command array";
        '(parts, cursor) ← parse_command_spans buffer count cursor;
        Done (mkCommandSpanFrame parts, cursor - offset).

(** [RespCodec::decode_command]. *)
Definition decode_command (buffer : Bytes) : Parse (CommandFrame * nat) :=
  if bool_decide (buffer = []) then Incomplete else parse_command_frame buffer 0.

(** [RespCodec::decode_command_spans]. *)
Definition decode_command_spans (buffer : Bytes) : Parse (CommandSpanFrame * nat) :=
  if bool_decide (buffer = []) then Incomplete else parse_command_span_frame buffer 0.

(** [RespCodec::as_command]: the parts of an array, below any attributes. *)
Definition as_command_part (part : Frame) : Parse Bytes :=
  match part with
  | BlobString bytes => Done bytes
  | SimpleString text => Done text
  | Integer value => Done (i64_to_string value)
  | _ => Err NotACommandPart
  end.

Fixpoint as_command_parts (parts : list Frame) : Parse (list Bytes) :=
  match parts with
  | [] => Done []
  | part :: rest => b ← as_command_part part; bs ← as_command_parts rest; Done (b :: bs)
  end.

Fixpoint as_command (frame : Frame) : Parse CommandFrame :=
  match frame with
  | Array parts => output ← as_command_parts parts; Done (mkCommandFrame output)
  | Attribute _ data => as_command data
  | _ => Err NotACommandArray
  end.
