(* ===== verification/RespProofs.v ===== *)
(** * The RESP codec: lemmas

    [steady]: a parser does not panic, its answers satisfy a postcondition and
    more input does not change them; it composes along [bind].  Then the
    round trip of the encoder through the decoder, by induction on frames. *)

From S2P Require Import Prelude Helpers Codec Resp.

(** ** Induction on frames *)
Section frame_ind.
Context (P : Frame → Prop).
Context (Hleaf : ∀ f, match f with
  | Array _ | Map _ | Set_ _ | Push _ | Attribute _ _ => True | _ => P f end).
Context (Harray : ∀ l, Forall P l → P (Array l)) (Hset : ∀ l, Forall P l → P (Set_ l)).
Context (Hpush : ∀ l, Forall P l → P (Push l)).
Context (Hmap : ∀ l, Forall (λ kv, P kv.1 ∧ P kv.2) l → P (Map l)).
Context (Hattr : ∀ l d, Forall (λ kv, P kv.1 ∧ P kv.2) l → P d → P (Attribute l d)).

Fixpoint frame_ind' (f : Frame) : P f :=
  let list_ind := fix go (l : list Frame) : Forall P l :=
    match l with
    | [] => Forall_nil_2 P
    | x :: l' => Forall_cons_2 P x l' (frame_ind' x) (go l')
    end in
  let pair_ind := fix go (l : list (Frame * Frame)) : Forall (λ kv, P kv.1 ∧ P kv.2) l :=
    match l with
    | [] => Forall_nil_2 _
    | x :: l' => Forall_cons_2 (λ kv, P kv.1 ∧ P kv.2) x l'
                   (conj (frame_ind' x.1) (frame_ind' x.2)) (go l')
    end in
  match f with
  | Array l => Harray l (list_ind l)
  | Map l => Hmap l (pair_ind l)
  | Set_ l => Hset l (list_ind l)
  | Push l => Hpush l (list_ind l)
  | Attribute l d => Hattr l d (pair_ind l) (frame_ind' d)
  | f' => Hleaf f'
  end.
End frame_ind.

(** ** What a decoded frame satisfies

    [strict] asks of error messages too that they have no CR LF, which blob
    errors may have. *)
Definition no_crlf (l : Bytes) : bool := bool_decide (find_crlf l = None).

Definition small {A} (l : list A) : bool :=
  (Z.of_nat (length l) <=? RESP_MAX_CONTAINER_ITEMS)%Z.

Fixpoint frame_ok (strict : bool) (f : Frame) : bool :=
  match f with
  | SimpleString s => utf8_valid s && no_crlf s
  | BlobString _ | Null | Boolean _ => true
  | Integer v => ((- i64_MAX <=? v) && (v <=? i64_MAX))%Z
  | Array l | Set_ l | Push l => small l && forallb (frame_ok strict) l
  | Map l => small l && forallb (λ '(k, v), frame_ok strict k && frame_ok strict v) l
  | Double s => utf8_valid s && no_crlf s && is_double_line s
  | BigNumber s => utf8_valid s && no_crlf s && is_big_number_line s
  | VerbatimString s _ => (length s =? 3) && bool_decide (58%Z ∉ s) && utf8_valid s
  | Attribute l d =>
      small l && forallb (λ '(k, v), frame_ok strict k && frame_ok strict v) l
      && frame_ok strict d
  | Error m => utf8_valid m && (negb strict || no_crlf m)
  end.

(** Nesting below a frame. *)
Definition max_of {A} (f : A → nat) (l : list A) : nat := foldr (λ x, Nat.max (f x)) 0 l.

Fixpoint fdepth (f : Frame) : nat :=
  match f with
  | Array l | Set_ l | Push l => max_of (λ x, S (fdepth x)) l
  | Map l => max_of (λ '(k, v), S (Nat.max (fdepth k) (fdepth v))) l
  | Attribute l d =>
      Nat.max (max_of (λ '(k, v), S (Nat.max (fdepth k) (fdepth v))) l) (S (fdepth d))
  | _ => 0
  end.

(** ** Numbers *)

Lemma parse_ascii_digits_safe v ds : safe (parse_ascii_digits v ds).
Proof. revert v. induction ds; intros v; simpl; repeat case_match; done. Qed.

Lemma parse_ascii_isize_i64 bs : parse_ascii_isize bs = parse_ascii_i64 bs.
Proof. done. Qed.

Lemma parse_ascii_digits_bound v ds w :
  (0 ≤ v ≤ i64_MAX)%Z → parse_ascii_digits v ds = Done w → (0 ≤ w ≤ i64_MAX)%Z.
Proof.
  revert v. induction ds as [|b ds IH]; intros v Hv; simpl; [intros [= <-]; lia|].
  unfold is_ascii_digit, in_range. repeat (case_match; bool_case; try done).
  apply IH. lia.
Qed.

Lemma parse_ascii_i64_spec bs :
  safe (parse_ascii_i64 bs) ∧ parse_ascii_i64 bs ≠ Incomplete ∧
  ∀ v, parse_ascii_i64 bs = Done v → bs ≠ [] ∧ (- i64_MAX ≤ v ≤ i64_MAX)%Z.
Proof.
  unfold parse_ascii_i64. destruct (split_sign bs) as [neg ds] eqn:Es.
  destruct ds as [|d ds]; [done|].
  pose proof (parse_ascii_digits_safe 0 (d :: ds)).
  assert (parse_ascii_digits 0 (d :: ds) ≠ Incomplete) as Hi.
  { generalize 0%Z. generalize (d :: ds). clear.
    intros l. induction l; intros; simpl; repeat case_match; done. }
  destruct (parse_ascii_digits 0 (d :: ds)) as [| | |w] eqn:E; simpl; try done.
  split; [done|]. split; [done|]. intros v [= <-].
  apply parse_ascii_digits_bound in E; [|unfold i64_MAX; lia].
  split; [destruct bs; [done|]; done|]. destruct neg; lia.
Qed.

(** Digits with a value in range are read without overflow. *)
Lemma parse_ascii_digits_value v ds w :
  (0 ≤ v)%Z → Forall (λ b, is_ascii_digit b = true) ds →
  parse_digits v ds = Some w → (w ≤ i64_MAX)%Z →
  parse_ascii_digits v ds = Done w ∧ (v ≤ w)%Z.
Proof.
  revert v. induction ds as [|b ds IH]; intros v Hv Hds Hp Hw; simpl in *.
  - simplify_eq. split; [done|lia].
  - apply Forall_cons in Hds as [Hb Hds]. rewrite Hb. rewrite is_ascii_digit_digit in Hp by done.
    simpl in Hp. unfold is_ascii_digit, in_range in Hb. bool_case.
    destruct (IH (v * 10 + (b - 48))%Z ltac:(lia) Hds Hp Hw) as [-> ?]. cbn [negb].
    rewrite (proj2 (Z.ltb_ge _ _)) by lia. rewrite (proj2 (Z.ltb_ge _ _)) by lia.
    split; [done|lia].
Qed.

Lemma split_sign_digit b ds : is_ascii_digit b = true → split_sign (b :: ds) = (false, b :: ds).
Proof.
  unfold is_ascii_digit, in_range. intros ?. bool_case. simpl.
  rewrite (proj2 (Z.eqb_neq b 45)), (proj2 (Z.eqb_neq b 43)) by lia. done.
Qed.

Lemma parse_ascii_usize n : fits n → parse_ascii_i64 (usize_to_string n) = Done (Z.of_nat n).
Proof.
  intros Hf. destruct (usize_text n Hf) as (b & ds & -> & Hd & Hp).
  unfold parse_ascii_i64. rewrite split_sign_digit by (by apply Forall_cons in Hd as [? _]).
  destruct (parse_ascii_digits_value 0 (b :: ds) (Z.of_nat n)) as [-> _]; done.
Qed.

Lemma i64_text n :
  (- i64_MAX ≤ n ≤ i64_MAX)%Z →
  parse_ascii_i64 (i64_to_string n) = Done n ∧ 13%Z ∉ i64_to_string n.
Proof.
  intros Hn. unfold i64_to_string.
  assert (∀ m, (0 ≤ m ≤ i64_MAX)%Z → ∃ b ds, digits_of 20 m [] = b :: ds ∧
    Forall (λ b, is_ascii_digit b = true) (b :: ds) ∧ parse_digits 0 (b :: ds) = Some m) as Hm.
  { intros m Hm. destruct (usize_text (Z.to_nat m)) as (b & ds & E & ? & Hp).
    { unfold fits. lia. }
    exists b, ds. unfold usize_to_string in E. rewrite Z2Nat.id in E, Hp by lia. done. }
  assert (∀ ds, Forall (λ b, is_ascii_digit b = true) ds → 13%Z ∉ ds) as Hcr.
  { intros ds Hds Hin. rewrite Forall_forall in Hds. by specialize (Hds _ Hin). }
  destruct (n <? 0)%Z eqn:E; bool_case.
  - destruct (Hm (- n)%Z ltac:(lia)) as (b & ds & -> & Hd & Hp). split.
    + unfold parse_ascii_i64. cbn [split_sign]. cbn -[parse_ascii_digits].
      destruct (parse_ascii_digits_value 0 (b :: ds) (- n)) as [-> _]; try done; try lia.
      simpl. f_equal. lia.
    + apply not_elem_of_cons. split; [done|]. auto.
  - destruct (Hm n ltac:(lia)) as (b & ds & -> & Hd & Hp). split; [|auto].
    unfold parse_ascii_i64. rewrite split_sign_digit by (by apply Forall_cons in Hd as [? _]).
    destruct (parse_ascii_digits_value 0 (b :: ds) n) as [-> _]; try done; lia.
Qed.

(** *** The fast path of the length line *)

(** The search path, for every line. *)
Definition parse_isize_line_slow (buffer : Bytes) : Parse (Z * nat) :=
  e ← line_end buffer;
  value ← parse_ascii_isize (take e buffer);
  Done (value, e + 2).

Lemma find_crlf_skip b0 b1 r :
  b0 ≠ 13%Z → find_crlf (b0 :: b1 :: r) = S <$> find_crlf (b1 :: r).
Proof. intros. rewrite find_crlf_cons. by rewrite (proj2 (Z.eqb_neq b0 13)). Qed.

Lemma digit_not_cr b : is_ascii_digit b = true → b ≠ 13%Z.
Proof. unfold is_ascii_digit, in_range. intros ? ->. bool_case. lia. Qed.

(** A run of at most four digits and its terminator, on the search path. *)
Lemma slow_line_digits b ds post :
  Forall (λ b, is_ascii_digit b = true) (b :: ds) → length ds ≤ 3 →
  ∃ v, parse_digits 0 (b :: ds) = Some v ∧
       parse_isize_line_slow ((b :: ds) ++ CRLF ++ post) = Done (v, S (length ds) + 2).
Proof.
  intros Hd Hl. unfold parse_isize_line_slow, line_end.
  assert (∀ l (v : Z), Forall (λ b, is_ascii_digit b = true) l → (0 ≤ v)%Z →
    ∃ w, parse_digits v l = Some w ∧ (w < (v + 1) * 10 ^ Z.of_nat (length l))%Z) as Hval.
  { clear. induction l as [|c l IH]; intros v Hl Hv; cbn [parse_digits length].
    - exists v. split; [done|]. change (10 ^ Z.of_nat 0)%Z with 1%Z. lia.
    - apply Forall_cons in Hl as [Hc Hl]. rewrite is_ascii_digit_digit by done.
      cbn [mbind option_bind].
      unfold is_ascii_digit, in_range in Hc. bool_case.
      destruct (IH (v * 10 + (c - 48))%Z Hl ltac:(lia)) as (w & -> & Hw). exists w. split; [done|].
      rewrite Nat2Z.inj_succ, Z.pow_succ_r by lia.
      pose proof (Z.pow_pos_nonneg 10 (Z.of_nat (length l))). nia. }
  destruct (Hval (b :: ds) 0%Z Hd ltac:(lia)) as (v & Hv & Hb). exists v. split; [done|].
  assert (find_crlf (b :: ds) = None) as Hn.
  { apply find_crlf_no_cr. intros Hin. rewrite Forall_forall in Hd.
    by specialize (Hd _ Hin). }
  rewrite find_crlf_line by done. cbn [mbind outcome_bind].
  rewrite take_app_length, parse_ascii_isize_i64. unfold parse_ascii_i64.
  rewrite split_sign_digit by (by apply Forall_cons in Hd as [? _]).
  destruct (parse_ascii_digits_value 0 (b :: ds) v) as [-> _]; try done.
  assert (10 ^ Z.of_nat (length (b :: ds)) ≤ 10 ^ 4)%Z by (apply Z.pow_le_mono_r; simpl; lia).
  unfold i64_MAX. lia.
Qed.

Ltac short_step :=
  match goal with
  | H : context [if negb (is_ascii_digit ?b) then _ else _] |- _ =>
      destruct (is_ascii_digit b) eqn:?; cbn [negb] in H; [|done]
  | H : context [if ((?b =? 13) && (?c =? 10))%Z then _ else _] |- _ =>
      destruct ((b =? 13) && (c =? 10))%Z eqn:?; bool_case; subst
  | H : context [match ?r with [] => _ | _ :: _ => _ end] |- _ => destruct r; [done|]
  end.

(** Reads the value of a short run of digits [b :: ds]. *)
Ltac short_value b ds r :=
  let w := fresh "w" in let Hw := fresh "Hw" in let Hs := fresh "Hs" in
  destruct (slow_line_digits b ds r) as (w & Hw & Hs); [by repeat constructor|simpl; lia|];
  unfold CRLF in Hs; cbn [app] in Hs; rewrite Hs; clear Hs;
  cbn [parse_digits] in Hw;
  repeat (rewrite is_ascii_digit_digit in Hw by done; cbn [mbind option_bind] in Hw);
  injection Hw as <-; cbn [length]; do 2 f_equal; lia.

Lemma short_line_slow b v c :
  try_parse_short_uint_line b = Some (v, c) → parse_isize_line_slow b = Done (v, c).
Proof.
  intros H. unfold try_parse_short_uint_line in H.
  destruct b as [|b0 [|b1 [|b2 r]]]; try done.
  repeat short_step; try done; simplify_eq.
  - short_value b0 (@nil Z) r.
  - short_value b0 [b1] r.
  - short_value b0 [b1; b2] r.
  - short_value b0 [b1; b2; z] r.
Qed.

(** The fast path answers what the search answers, on every buffer. *)
Lemma parse_isize_line_eq b : parse_isize_line b = parse_isize_line_slow b.
Proof.
  unfold parse_isize_line. destruct (try_parse_short_uint_line b) as [[v c]|] eqn:E; [|done].
  by rewrite (short_line_slow _ _ _ E).
Qed.

(** ** Steady parsers *)
Record steady {A} (P : Bytes → Parse A) (Q : A → Prop) (b : Bytes) : Prop := mkSteady {
  steady_safe : safe (P b);
  steady_post : ∀ a, P b = Done a → Q a;
  steady_more : ∀ r, refines (P b) (P (b ++ r));
}.

Section steady.
Context {A B : Type}.
Implicit Types (P : Bytes → Parse A) (b : Bytes).

Lemma steady_bind P (K : A → Bytes → Parse B) Q R b :
  steady P Q b → (∀ a, Q a → steady (K a) R b) →
  steady (λ b, P b ≫= λ a, K a b) R b.
Proof.
  intros [Hs HQ Hr] HK. split.
  - apply safe_bind; [done|]. intros a Ha. by apply HK, HQ.
  - intros c (a & Ha & Hc)%bind_Done. eapply HK; [by apply HQ|done].
  - intros r. apply refines_bind; [done|]. intros a Ha. by apply HK, HQ.
Qed.

Lemma steady_done (Q : A → Prop) (a : A) b : Q a → steady (λ _, Done a) Q b.
Proof.
  intros HQ. split; [apply safe_Done|by intros ? [= <-]|by right].
Qed.

Lemma steady_err (Q : A → Prop) e b : steady (λ _, Err e) Q b.
Proof. split; [done|done|by right]. Qed.

Lemma steady_const (Q : A → Prop) (o : Parse A) b :
  safe o → (∀ a, o = Done a → Q a) → steady (λ _, o) Q b.
Proof. intros. split; [done|done|by right]. Qed.

Lemma steady_rest (K : Bytes → Parse A) Q n b :
  n ≤ length b → steady K Q (drop n b) →
  steady (λ b, or_panic (slice_from n b) ≫= K) Q b.
Proof.
  intros Hn [Hs HQ Hr]. split; rewrite slice_from_Some by done; [done..|].
  intros r. rewrite slice_from_app by done. apply Hr.
Qed.

Lemma steady_impl P (Q R : A → Prop) b : (∀ a, Q a → R a) → steady P Q b → steady P R b.
Proof. intros HQR [? ? ?]. split; auto. Qed.

Lemma steady_ext P P' (Q : A → Prop) b : (∀ b, P b = P' b) → steady P Q b → steady P' Q b.
Proof. intros He [? ? ?]. split; rewrite <-?He; [done..|]. intros r. by rewrite <-He. Qed.

Lemma steady_guard P (Q : A → Prop) n b :
  (n ≤ length b → steady P Q b) →
  steady (λ b, if length b <? n then Incomplete else P b) Q b.
Proof.
  intros HP. destruct (decide (length b < n)).
  - assert (length b <? n = true) as E by (by apply Nat.ltb_lt).
    split; rewrite E; [done|done|by left].
  - assert (length b <? n = false) as E by (apply Nat.ltb_ge; lia).
    destruct HP as [? ? Hr]; [lia|]. split; rewrite E; [done..|]. intros r.
    rewrite (proj2 (Nat.ltb_ge _ _)); [done|]. rewrite length_app. lia.
Qed.
End steady.

Lemma steady_slice m n b (Q : Bytes → Prop) :
  m ≤ n ≤ length b → Q (take (n - m) (drop m b)) →
  steady (λ b, or_panic (slice m n b)) Q b.
Proof.
  intros Hmn HQ. split; rewrite slice_is_Some by done.
  - done.
  - intros a [= <-]. done.
  - intros r. erewrite slice_app by (by apply slice_is_Some). done.
Qed.

Lemma steady_line_end b :
  steady line_end (λ e, e + 2 ≤ length b ∧ find_crlf (take e b) = None) b.
Proof.
  unfold line_end. destruct (find_crlf b) as [e|] eqn:E.
  - apply find_crlf_Some in E as HE. split; rewrite E; [done|naive_solver|].
    intros r. by rewrite (find_crlf_app_Some _ _ _ E).
  - split; rewrite E; [done|done|by left].
Qed.

(** A line read up to its terminator and then judged on its own. *)
Lemma steady_line {A} (K : Bytes → Parse A) (Q : A * nat → Prop) b :
  (∀ l, safe (K l)) →
  (∀ a e, e + 2 ≤ length b → find_crlf (take e b) = None → K (take e b) = Done a → Q (a, e + 2)) →
  steady (λ b, e ← line_end b; v ← K (take e b); Done (v, e + 2)) Q b.
Proof.
  intros Hs HQ. destruct (steady_line_end b) as [_ Hd Hr]. split.
  - apply safe_bind; [unfold line_end; by case_match|]. intros e _.
    apply safe_bind; [done|]. intros ? _. done.
  - intros [a n] (e & He & (v & Hv & [= <- <-])%bind_Done)%bind_Done.
    apply Hd in He as [? ?]. by apply HQ.
  - intros r. apply refines_bind; [done|]. intros e He. apply Hd in He as [? ?].
    rewrite take_app_le by lia. done.
Qed.

Lemma from_utf8_safe l : safe (from_utf8 l).
Proof. unfold from_utf8. by case_match. Qed.

Lemma from_utf8_Done l m : from_utf8 l = Done m ↔ m = l ∧ utf8_valid l = true.
Proof. unfold from_utf8. case_match; naive_solver. Qed.

Definition line_ok (l : Bytes) : Prop := utf8_valid l = true ∧ find_crlf l = None.

Lemma steady_parse_line b :
  steady parse_line (λ '(l, c), line_ok l ∧ 2 ≤ c ≤ length b) b.
Proof.
  apply steady_line; [apply from_utf8_safe|].
  intros l e ? ? [-> ?]%from_utf8_Done. split; [done|lia].
Qed.

Lemma steady_i64_line b :
  steady parse_i64_line (λ '(v, c), (- i64_MAX ≤ v ≤ i64_MAX)%Z ∧ 3 ≤ c ≤ length b) b.
Proof.
  apply steady_line; [intros; apply parse_ascii_i64_spec|].
  intros v e ? _ Hv. apply parse_ascii_i64_spec in Hv as [Hne ?]. split; [done|].
  destruct e; [by rewrite take_0 in Hne|lia].
Qed.

Lemma steady_isize_line b :
  steady parse_isize_line (λ '(v, c), (- i64_MAX ≤ v ≤ i64_MAX)%Z ∧ 3 ≤ c ≤ length b) b.
Proof.
  eapply steady_ext; [intros; symmetry; apply parse_isize_line_eq|]. apply steady_i64_line.
Qed.

Lemma steady_count cursor count fpi label b :
  (1 ≤ fpi ≤ 2)%Z →
  steady (λ b, validate_container_count b cursor count fpi label)
    (λ n, Z.of_nat n = count ∧ (count ≤ RESP_MAX_CONTAINER_ITEMS)%Z) b.
Proof.
  intros Hf. assert (fpi = 1 ∨ fpi = 2)%Z as Hf2 by lia. clear Hf.
  unfold validate_container_count, RESP_MAX_CONTAINER_ITEMS, RESP_MIN_FRAME_BYTES.
  destruct (count <? 0)%Z eqn:?; [apply steady_err|].
  destruct (65536 <? count)%Z eqn:?; [apply steady_err|]. bool_case.
  unfold usize_checked, u64_MAX. rewrite (proj2 (Z.leb_le _ _)) by (destruct Hf2; subst; lia).
  cbn [mbind option_bind]. rewrite (proj2 (Z.leb_le _ _)) by (destruct Hf2; subst; lia). cbn [ok_or mbind outcome_bind].
  split.
  - by case_match.
  - intros n. case_match; [done|]. intros [= <-]. lia.
  - intros r. rewrite length_app. destruct (_ <? _)%Z eqn:?; [by left|]. bool_case.
    right. rewrite (proj2 (Z.ltb_ge _ _)); [done|lia].
Qed.

(** The positions of a payload that is all there. *)
Definition payload_at (b : Bytes) (off hc : nat) (len : Z) : nat * nat * nat → Prop :=
  λ '(start, stop, fend), start = off + 1 + hc ∧ stop = start + Z.to_nat len ∧ fend = stop + 2 ∧
  fend ≤ length b.

Lemma steady_payload off hc len label b :
  steady (λ b, payload_bounds b off hc len label) (payload_at b off hc len) b.
Proof.
  unfold payload_bounds, usize_checked. destruct (len <? 0)%Z eqn:?; [apply steady_err|]. bool_case.
  repeat (match goal with
          | |- context [(?x <=? u64_MAX)%Z] => destruct (x <=? u64_MAX)%Z eqn:?
          end; cbn [mbind option_bind ok_or outcome_bind]; [|apply steady_err]).
  bool_case. split.
  - by case_match.
  - intros [[s t] e]. case_match; [done|]. bool_case. intros [= <- <- <-].
    unfold payload_at. lia.
  - intros r. rewrite length_app. destruct (_ <? _)%Z eqn:?; [by left|]. bool_case.
    right. rewrite (proj2 (Z.ltb_ge _ _)); [done|lia].
Qed.

Lemma steady_crlf stop label b :
  stop + 2 ≤ length b → steady (λ b, expect_crlf b stop label) (λ _, True) b.
Proof.
  intros. unfold expect_crlf. eapply steady_bind; [by apply (steady_slice _ _ _ (λ _, True)); [lia|]|].
  intros s _. case_match; [by apply steady_done|apply steady_err].
Qed.

(** Parse a line at a position, then go on with the whole buffer. *)
Lemma steady_rest_bind {A B} (P : Bytes → Parse A) (K : A → Bytes → Parse B) Q R n b :
  n ≤ length b → steady P Q (drop n b) → (∀ a, Q a → steady (K a) R b) →
  steady (λ b, or_panic (slice_from n b) ≫= λ rest, P rest ≫= λ a, K a b) R b.
Proof.
  intros Hn [Hs HQ Hr] HK. split; rewrite slice_from_Some by done;
    cbn [or_panic mbind outcome_bind].
  - apply safe_bind; [done|]. intros a Ha. by apply HK, HQ.
  - intros c (a & Ha & Hc)%bind_Done. eapply HK; [by apply HQ|done].
  - intros r. rewrite slice_from_app by done. cbn [or_panic mbind outcome_bind].
    apply refines_bind; [done|]. intros a Ha. by apply HK, HQ.
Qed.

(** What every frame parser answers at offset [off] and depth [d]. *)
Definition frame_post (b : Bytes) (off d : nat) : Frame * nat → Prop := λ '(f, n),
  3 ≤ n ∧ off + n ≤ length b ∧ frame_ok false f = true ∧
  d + fdepth f ≤ RESP_MAX_NESTING_DEPTH.

Lemma no_crlf_true l : find_crlf l = None ↔ no_crlf l = true.
Proof. symmetry. apply bool_decide_eq_true. Qed.

Section scalars.
Context (b : Bytes) (off d : nat).
Context (Hoff : off < length b) (Hd : d ≤ RESP_MAX_NESTING_DEPTH).

(** Frames read from one line. *)
Lemma steady_line_frame (K : Bytes → nat → Parse (Frame * nat)) :
  (∀ l c, line_ok l → 2 ≤ c → off + 1 + c ≤ length b →
     steady (λ _, K l c) (frame_post b off d) b) →
  steady (λ b, or_panic (slice_from (off + 1) b) ≫= λ rest,
               parse_line rest ≫= λ '(l, c), K l c) (frame_post b off d) b.
Proof.
  intros HK. eapply (steady_rest_bind parse_line (λ a _, let '(l, c) := a in K l c));
    [lia|apply steady_parse_line|].
  intros [l c] (? & ? & Hc). rewrite length_drop in Hc. apply HK; [done..|lia].
Qed.

Ltac scalar := split_and!; simpl; try done; try lia.

Lemma steady_simple_string : steady (λ b, parse_simple_string b off) (frame_post b off d) b.
Proof.
  apply steady_line_frame. intros l c [Hu Hn] ? ?. apply steady_done. scalar.
  apply no_crlf_true in Hn. by rewrite Hu, Hn.
Qed.

Lemma steady_error : steady (λ b, parse_error b off) (frame_post b off d) b.
Proof.
  apply steady_line_frame. intros l c [Hu Hn] ? ?. apply steady_done. scalar. by rewrite Hu.
Qed.

Lemma steady_double : steady (λ b, parse_double b off) (frame_post b off d) b.
Proof.
  apply steady_line_frame. intros l c [Hu Hn] ? ?.
  destruct (is_double_line l) eqn:El; [|apply steady_err]. apply steady_done. scalar.
  apply no_crlf_true in Hn. by rewrite Hu, Hn.
Qed.

Lemma steady_big_number : steady (λ b, parse_big_number b off) (frame_post b off d) b.
Proof.
  apply steady_line_frame. intros l c [Hu Hn] ? ?.
  destruct (is_big_number_line l) eqn:El; [|apply steady_err]. apply steady_done. scalar.
  apply no_crlf_true in Hn. by rewrite Hu, Hn.
Qed.

Lemma steady_integer : steady (λ b, parse_integer b off) (frame_post b off d) b.
Proof.
  eapply (steady_rest_bind parse_i64_line (λ a _, let '(v, c) := a in Done (Integer v, c + 1)));
    [lia|apply steady_i64_line|].
  intros [v c] [? Hc]. rewrite length_drop in Hc. apply steady_done. scalar.
Qed.

(** Parsers that start with a length line. *)
Lemma steady_header_frame {A} (K : Z → nat → Bytes → Parse A) R :
  (∀ v c, (- i64_MAX ≤ v ≤ i64_MAX)%Z → 3 ≤ c → off + 1 + c ≤ length b → steady (K v c) R b) →
  steady (λ b, or_panic (slice_from (off + 1) b) ≫= λ rest,
               parse_isize_line rest ≫= λ '(v, c), K v c b) R b.
Proof using Hoff.
  clear Hd. intros HK. eapply (steady_rest_bind parse_isize_line (λ a b, let '(v, c) := a in K v c b));
    [lia|apply steady_isize_line|].
  intros [v c] (? & ? & Hc). rewrite length_drop in Hc. apply HK; [done..|lia].
Qed.

(** Then a payload of that length, its terminator, and a judgement. *)
Lemma steady_payload_frame {A} hc len label label' (K : Bytes → nat → Parse A) R :
  (∀ start stop fend, payload_at b off hc len (start, stop, fend) →
     steady (λ _, K (take (stop - start) (drop start b)) fend) R b) →
  steady (λ b, payload_bounds b off hc len label ≫= λ '(start, stop, fend),
               expect_crlf b stop label' ≫= λ _,
               or_panic (slice start stop b) ≫= λ p, K p fend) R b.
Proof.
  intros HK. eapply (steady_bind (λ b, payload_bounds b off hc len label)
    (λ a b, let '(start, stop, fend) := a in expect_crlf b stop label' ≫= λ _,
       or_panic (slice start stop b) ≫= λ p, K p fend)); [apply steady_payload|].
  intros [[start stop] fend] (Hs & Ht & Hf & Hl). eapply steady_bind.
  { apply steady_crlf. lia. }
  intros _ _. eapply steady_bind.
  { apply (steady_slice start stop b (λ p, p = take (stop - start) (drop start b))); [lia|done]. }
  intros p ->. apply HK. done.
Qed.

Lemma steady_blob_error : steady (λ b, parse_blob_error b off) (frame_post b off d) b.
Proof.
  apply steady_header_frame. intros v c _ ? ?. destruct (v <? 0)%Z eqn:?; [apply steady_err|].
  eapply (steady_payload_frame _ _ _ _ (λ p fend, from_utf8 p ≫= λ m, Done (Error m, fend - off))).
  intros start stop fend (-> & -> & -> & Hl). apply steady_const.
  { apply safe_bind; [apply from_utf8_safe|done]. }
  intros [f n] (m & [-> Hm]%from_utf8_Done & [= <- <-])%bind_Done. scalar. by rewrite Hm.
Qed.

Lemma steady_blob_string : steady (λ b, parse_blob_string b off) (frame_post b off d) b.
Proof.
  apply steady_header_frame. intros v c _ ? ?.
  destruct (v <? 0)%Z eqn:?; [apply steady_done; scalar|].
  eapply (steady_payload_frame _ _ _ _ (λ p fend, Done (BlobString p, fend - off))).
  intros start stop fend (-> & -> & -> & Hl). apply steady_done. scalar.
Qed.

Lemma steady_verbatim : steady (λ b, parse_verbatim_string b off) (frame_post b off d) b.
Proof.
  apply steady_header_frame. intros v c _ ? ?. destruct (v <? 4)%Z eqn:?; [apply steady_err|].
  eapply (steady_payload_frame _ _ _ _ (λ p fend,
    colon ← ok_or (position (λ b, (b =? 58)%Z) p) VerbatimNoSeparator;
    if negb (colon =? 3) then Err VerbatimBadFormat
    else format ← from_utf8 (take colon p);
         value ← or_panic (slice_from (colon + 1) p);
         Done (VerbatimString format value, fend - off))).
  intros start stop fend (-> & -> & -> & Hl). bool_case.
  set (p := take _ _). destruct (position _ p) as [colon|] eqn:Hp; [|apply steady_err].
  cbn [ok_or mbind outcome_bind]. destruct (colon =? 3) eqn:Ec; [|apply steady_err]. bool_case.
  subst colon. cbn [negb]. apply position_lt in Hp as Hlt.
  apply position_Some in Hp as (x & Hx & _ & Hbefore).
  rewrite slice_from_Some by lia. apply steady_const.
  { apply safe_bind; [apply from_utf8_safe|]. done. }
  intros [f n] (m & [-> Hm]%from_utf8_Done & [= <- <-])%bind_Done. scalar.
  rewrite Hm, andb_true_r. apply andb_true_iff. split.
  - apply Nat.eqb_eq. rewrite length_take. lia.
  - apply bool_decide_eq_true. intros (i & Hi)%list_elem_of_lookup.
    apply lookup_take_Some in Hi as [Hi ?]. specialize (Hbefore i 58%Z ltac:(lia) Hi). done.
Qed.

Lemma steady_null : steady (λ b, parse_null b off) (frame_post b off d) b.
Proof.
  apply steady_guard. intros ?. eapply steady_bind.
  { by apply (steady_slice (off + 1) (off + 3) b (λ _, True)); [lia|]. }
  intros s _. destruct (bytes_eqb s CRLF); [|apply steady_err]. apply steady_done. scalar.
Qed.

Lemma steady_lookup i : i < length b → steady (λ b, or_panic (b !! i)) (λ x, b !! i = Some x) b.
Proof.
  intros Hi. destruct (lookup_lt_is_Some_2 b i Hi) as [x Hx]. split; rewrite Hx; [done|by intros ? [= <-]|].
  intros r. by rewrite lookup_app_l, Hx by done.
Qed.

Lemma steady_boolean : steady (λ b, parse_boolean b off) (frame_post b off d) b.
Proof.
  apply steady_guard. intros ?. eapply steady_bind; [apply steady_lookup; lia|].
  intros x _. eapply (steady_bind (λ _, _) (λ v b,
    or_panic (slice (off + 2) (off + 4) b) ≫= λ s,
    if bytes_eqb s CRLF then Done (Boolean v, 4) else Err InvalidBoolean) (λ _, True)).
  { apply steady_const; [by repeat case_match|done]. }
  intros v _. eapply steady_bind.
  { by apply (steady_slice (off + 2) (off + 4) b (λ _, True)); [lia|]. }
  intros s _. destruct (bytes_eqb s CRLF); [|apply steady_err]. apply steady_done. scalar.
Qed.
End scalars.

(** ** Containers *)
Section containers.
Context (rec_ : Bytes → nat → nat → Parse (Frame * nat)) (b : Bytes) (d : nat).
Context (Hrec : ∀ cursor,
  steady (λ b, rec_ b cursor (d + 1)) (frame_post b cursor (d + 1)) b).
Context (Hd : d ≤ RESP_MAX_NESTING_DEPTH).

Definition loop_post {A} (cursor : nat) (ok : A → bool) (deep : A → nat) (n : nat)
    : list A * nat → Prop := λ '(items, cursor'),
  length items = n ∧ cursor ≤ cursor' ∧ (cursor ≤ length b → cursor' ≤ length b) ∧
  forallb ok items = true ∧ d + max_of deep items ≤ RESP_MAX_NESTING_DEPTH.

Lemma steady_items n cursor :
  steady (λ b, parse_items (rec_ b) n cursor d)
    (loop_post cursor (frame_ok false) (λ f, S (fdepth f)) n) b.
Proof.
  revert cursor. induction n as [|n IH]; intros cursor; cbn [parse_items].
  { apply steady_done. simpl. split_and!; try done; try lia. }
  eapply (steady_bind (λ b, rec_ b cursor (d + 1)) (λ a b, let '(frame, consumed) := a in
    '(items, cursor') ← parse_items (rec_ b) n (cursor + consumed) d;
    Done (frame :: items, cursor'))); [apply Hrec|].
  intros [f c] (? & ? & Hf & ?).
  eapply (steady_bind _ (λ a _, let '(items, cursor') := a in Done (f :: items, cursor')));
    [apply IH|].
  intros [items c'] (<- & ? & ? & Hi & ?). apply steady_done. simpl.
  rewrite Hf, Hi. split_and!; try done; lia.
Qed.

Definition pair_ok : Frame * Frame → bool := λ '(k, v), frame_ok false k && frame_ok false v.
Definition pair_depth : Frame * Frame → nat := λ '(k, v), S (Nat.max (fdepth k) (fdepth v)).

Lemma steady_pairs n cursor :
  steady (λ b, parse_pairs (rec_ b) n cursor d) (loop_post cursor pair_ok pair_depth n) b.
Proof.
  revert cursor. induction n as [|n IH]; intros cursor; cbn [parse_pairs].
  { apply steady_done. simpl. split_and!; try done; try lia. }
  eapply (steady_bind (λ b, rec_ b cursor (d + 1)) (λ a b, let '(key, consumed) := a in
    let cursor := cursor + consumed in
    '(value, consumed) ← rec_ b cursor (d + 1);
    '(items, cursor') ← parse_pairs (rec_ b) n (cursor + consumed) d;
    Done ((key, value) :: items, cursor'))); [apply Hrec|].
  intros [k ck] (? & ? & Hk & ?). cbv zeta.
  eapply (steady_bind (λ b, rec_ b (cursor + ck) (d + 1)) (λ a b, let '(value, consumed) := a in
    '(items, cursor') ← parse_pairs (rec_ b) n (cursor + ck + consumed) d;
    Done ((k, value) :: items, cursor'))); [apply Hrec|].
  intros [v cv] (? & ? & Hv & ?).
  eapply (steady_bind _ (λ a _, let '(items, cursor') := a in Done ((k, v) :: items, cursor')));
    [apply IH|].
  intros [items c'] (<- & ? & ? & Hi & ?). apply steady_done. simpl.
  rewrite Hk, Hv, Hi. split_and!; try done; lia.
Qed.

Context (off : nat) (Hoff : off < length b).

(** A container: its count, its limit, its items. *)
Lemma steady_container {A R : Type} label fpi (loop : Bytes → nat → nat → Parse (list A * nat))
    (ok : A → bool) deep (build : list A → R) (early : Z → nat → option (Parse (R * nat)))
    (post : R * nat → Prop) :
  (1 ≤ fpi ≤ 2)%Z →
  (∀ n cursor, steady (λ b, loop b n cursor) (loop_post cursor ok deep n) b) →
  (∀ v c o, early v c = Some o → 3 ≤ c → off + 1 + c ≤ length b → steady (λ _, o) post b) →
  (∀ items n, small items = true → forallb ok items = true →
     d + max_of deep items ≤ RESP_MAX_NESTING_DEPTH → 4 ≤ n → off + n ≤ length b →
     post (build items, n)) →
  steady (λ b, or_panic (slice_from (off + 1) b) ≫= λ rest,
    parse_isize_line rest ≫= λ '(count, hc),
    match early count hc with
    | Some o => o
    | None =>
      validate_container_count b (off + 1 + hc) count fpi label ≫= λ count,
      loop b count (off + 1 + hc) ≫= λ '(items, cursor),
      Done (build items, cursor - off)
    end) post b.
Proof.
  intros Hfpi Hloop Hearly Hpost. apply steady_header_frame; [done|]. intros v c _ ? ?.
  destruct (early v c) as [o|] eqn:He; [by eapply Hearly|].
  eapply steady_bind; [by apply steady_count|]. intros n [Hn Hmax].
  eapply (steady_bind _ (λ a _, let '(items, cursor) := a in Done (build items, cursor - off)));
    [apply Hloop|].
  intros [items c'] (<- & ? & ? & ? & ?). apply steady_done. apply Hpost; try done; try lia.
  unfold small. lia.
Qed.

Ltac container_post := split_and!; cbn [frame_ok fdepth]; rewrite ?andb_true_iff; auto; lia.
Ltac early_null := intros v c o; destruct (v <? 0)%Z; [|done]; intros [= <-] ? ?;
  (apply steady_err || (apply steady_done; split_and!; simpl; try done; lia)).

(** The body of a container parser is that of [steady_container]. *)
Ltac container_ext f :=
  intros b'; unfold f; destruct (slice_from _ _) as [rest|]; [|done];
  cbn [or_panic mbind outcome_bind]; destruct (parse_isize_line rest) as [| | |[v hc]]; try done;
  cbn [mbind outcome_bind]; by destruct (v <? 0)%Z.

Lemma steady_array : steady (λ b, parse_array (rec_ b) b off d) (frame_post b off d) b.
Proof.
  eapply steady_ext; [|eapply (steady_container "array" 1 (λ b n c, parse_items (rec_ b) n c d)
    (frame_ok false) (λ f, S (fdepth f)) Array
    (λ v hc, if (v <? 0)%Z then Some (Done (Null, hc + 1)) else None));
    [lia|intros; apply steady_items|early_null|intros; container_post]].
  container_ext parse_array.
Qed.

Lemma steady_set : steady (λ b, parse_set (rec_ b) b off d) (frame_post b off d) b.
Proof.
  eapply steady_ext; [|eapply (steady_container "set" 1 (λ b n c, parse_items (rec_ b) n c d)
    (frame_ok false) (λ f, S (fdepth f)) Set_
    (λ v hc, if (v <? 0)%Z then Some (Err (CannotBeNull "set")) else None));
    [lia|intros; apply steady_items|early_null|intros; container_post]].
  container_ext parse_set.
Qed.

Lemma steady_push : steady (λ b, parse_push (rec_ b) b off d) (frame_post b off d) b.
Proof.
  eapply steady_ext; [|eapply (steady_container "push" 1 (λ b n c, parse_items (rec_ b) n c d)
    (frame_ok false) (λ f, S (fdepth f)) Push
    (λ v hc, if (v <? 0)%Z then Some (Err (CannotBeNull "push")) else None));
    [lia|intros; apply steady_items|early_null|intros; container_post]].
  container_ext parse_push.
Qed.

Lemma steady_map : steady (λ b, parse_map (rec_ b) b off d) (frame_post b off d) b.
Proof.
  eapply steady_ext; [|eapply (steady_container "map" 2 (λ b n c, parse_pairs (rec_ b) n c d)
    pair_ok pair_depth Map
    (λ v hc, if (v <? 0)%Z then Some (Err (CannotBeNull "map")) else None));
    [lia|intros; apply steady_pairs|early_null|intros; container_post]].
  container_ext parse_map.
Qed.

Definition pairs_post : list (Frame * Frame) * nat → Prop := λ '(items, n),
  small items = true ∧ forallb pair_ok items = true ∧
  d + max_of pair_depth items ≤ RESP_MAX_NESTING_DEPTH ∧ 4 ≤ n ∧ off + n ≤ length b.

Lemma steady_map_with_prefix :
  steady (λ b, parse_map_with_prefix (rec_ b) b off d) pairs_post b.
Proof.
  eapply steady_ext; [|eapply (steady_container "attribute" 2
    (λ b n c, parse_pairs (rec_ b) n c d) pair_ok pair_depth id
    (λ v hc, if (v <? 0)%Z then Some (Err (CannotBeNull "attribute")) else None));
    [lia|intros; apply steady_pairs|early_null|intros; by split_and!]].
  container_ext parse_map_with_prefix.
Qed.

Lemma steady_attribute : steady (λ b, parse_attribute (rec_ b) b off d) (frame_post b off d) b.
Proof.
  eapply (steady_bind _ (λ a b, let '(attributes, consumed) := a in
    '(data, data_consumed) ← rec_ b (off + consumed) (d + 1);
    Done (Attribute attributes data, consumed + data_consumed)));
    [apply steady_map_with_prefix|].
  intros [l n] (Hs & Hl & ? & ? & ?).
  eapply (steady_bind (λ b, rec_ b (off + n) (d + 1)) (λ a _, let '(data, m) := a in
    Done (Attribute l data, n + m))); [apply Hrec|].
  intros [f m] (? & ? & Hf & ?). apply steady_done. split_and!; try lia.
  - cbn [frame_ok]. rewrite Hs, Hf. unfold pair_ok in Hl. by rewrite Hl.
  - cbn [fdepth]. fold pair_depth. lia.
Qed.
End containers.

Lemma steady_prefix rec_ b off d :
  (∀ cursor, steady (λ b, rec_ b cursor (d + 1)) (frame_post b cursor (d + 1)) b) →
  off < length b → d ≤ RESP_MAX_NESTING_DEPTH →
  steady (λ b, parse_prefix (rec_ b) b off d) (frame_post b off d) b.
Proof.
  intros Hrec Hoff Hd. eapply steady_bind; [by apply steady_lookup|]. intros x _.
  repeat (case_match;
    [solve [eauto using steady_simple_string, steady_error, steady_blob_error, steady_integer,
      steady_blob_string, steady_array, steady_map, steady_set, steady_push, steady_null,
      steady_boolean, steady_double, steady_big_number, steady_verbatim, steady_attribute]|]).
  apply steady_err.
Qed.

(** The decoder at any offset and depth, given the fuel its depth needs. *)
Lemma steady_frame fuel b off d :
  RESP_MAX_NESTING_DEPTH + 2 ≤ fuel + d → d ≤ RESP_MAX_NESTING_DEPTH + 1 →
  steady (λ b, parse_frame_at_depth fuel b off d) (frame_post b off d) b.
Proof.
  revert off d. induction fuel as [|fuel IH]; intros off d Hfuel Hd; [lia|].
  apply (steady_guard (λ b, if RESP_MAX_NESTING_DEPTH <? d then Err NestingTooDeep
    else parse_prefix (parse_frame_at_depth fuel b) b off d) _ (S off)).
  intros Hoff. destruct (RESP_MAX_NESTING_DEPTH <? d) eqn:Ed; bool_case; [apply steady_err|].
  apply (steady_prefix (parse_frame_at_depth fuel)); [|lia|done]. intros. apply IH; lia.
Qed.

Lemma steady_decode b : steady decode (frame_post b 0 0) b.
Proof.
  destruct b as [|x b].
  - split; [done|done|by left].
  - eapply (steady_ext (λ b, if length b <? 1 then Incomplete else parse_frame b 0)).
    { intros b'. unfold decode. by destruct b'. }
    apply steady_guard. intros _. apply steady_frame; unfold resp_fuel; lia.
Qed.

(** ** The encoder through the decoder *)

Lemma digits_of_ne fuel n acc : digits_of (S fuel) n acc ≠ [].
Proof.
  assert (∀ k m a, a ≠ [] → digits_of k m a ≠ []) as H.
  { induction k as [|k IH]; intros m a Ha; cbn [digits_of]; [done|]. case_match; [done|]. by apply IH. }
  cbn [digits_of]. case_match; [done|]. by apply H.
Qed.

Lemma header_length m n : 4 ≤ length (header m n).
Proof.
  unfold header, usize_to_string. pose proof (digits_of_ne 19 (Z.of_nat n) []).
  destruct (digits_of 20 _ _); [done|]. simpl. rewrite length_app. simpl. lia.
Qed.

(** No frame is shorter than [RESP_MIN_FRAME_BYTES]. *)
Lemma encode_length f : 3 ≤ length (encode f).
Proof.
  destruct f; cbn [encode]; rewrite ?length_app; try (pose proof (header_length 36 (length value)));
    try match goal with |- context [header ?m ?n] => pose proof (header_length m n) end;
    simpl; rewrite ?length_app; simpl; lia.
Qed.

Lemma parse_header_line n post :
  fits n →
  parse_isize_line (usize_to_string n ++ CRLF ++ post) =
  Done (Z.of_nat n, length (usize_to_string n) + 2).
Proof.
  intros Hn. rewrite parse_isize_line_eq. unfold parse_isize_line_slow, line_end.
  destruct (usize_text n Hn) as (b & ds & E & Hd & _).
  rewrite find_crlf_line.
  - cbn [mbind outcome_bind]. rewrite take_app_length, parse_ascii_isize_i64.
    by rewrite parse_ascii_usize.
  - rewrite E. apply find_crlf_no_cr. intros Hin. rewrite Forall_forall in Hd.
    by specialize (Hd _ Hin).
Qed.

Lemma parse_line_ok l post :
  line_ok l → parse_line (l ++ CRLF ++ post) = Done (l, length l + 2).
Proof.
  intros [Hu Hn]. unfold parse_line, line_end. rewrite find_crlf_line by done.
  cbn [mbind outcome_bind]. rewrite take_app_length. unfold from_utf8. by rewrite Hu.
Qed.

Lemma parse_integer_line v post :
  (- i64_MAX ≤ v ≤ i64_MAX)%Z →
  parse_i64_line (i64_to_string v ++ CRLF ++ post) = Done (v, length (i64_to_string v) + 2).
Proof.
  intros Hv. destruct (i64_text v Hv) as [Hp Hcr]. unfold parse_i64_line, line_end.
  rewrite find_crlf_line by (by apply find_crlf_no_cr).
  cbn [mbind outcome_bind]. by rewrite take_app_length, Hp.
Qed.

(** Reading at an offset where a known remainder starts. *)
Section at_offset.
Context (b : Bytes) (off : nat).

Lemma drop_cons x t :
  drop off b = x :: t →
  b !! off = Some x ∧ off < length b ∧ slice_from (off + 1) b = Some t ∧
  length b = off + S (length t).
Proof.
  intros Hd. assert (b !! off = Some x) as Hx.
  { replace off with (off + 0) by lia. by rewrite <-lookup_drop, Hd. }
  apply lookup_lt_Some in Hx as Hl. split; [done|]. split; [done|].
  rewrite slice_from_Some by lia. split.
  - by rewrite <-drop_drop, Hd.
  - pose proof (f_equal length Hd) as Hlen. rewrite length_drop in Hlen. simpl in Hlen. lia.
Qed.

Lemma drop_app_at pre t : drop off b = pre ++ t → drop (off + length pre) b = t.
Proof. intros Hd. by rewrite <-drop_drop, Hd, drop_app_length. Qed.

Context (Hb : (Z.of_nat (length b) ≤ i64_MAX)%Z).

(** A payload of known length and its terminator. *)
Lemma read_payload hc p post label label' :
  drop (off + 1 + hc) b = p ++ CRLF ++ post → off < length b →
  payload_bounds b off hc (Z.of_nat (length p)) label =
    Done (off + 1 + hc, off + 1 + hc + length p, off + 1 + hc + length p + 2) ∧
  expect_crlf b (off + 1 + hc + length p) label' = Done tt ∧
  slice (off + 1 + hc) (off + 1 + hc + length p) b = Some p.
Proof.
  intros Hd Hoff. assert (off + 1 + hc + length p + 2 ≤ length b) as Hl.
  { pose proof (f_equal length Hd) as Hl. rewrite length_drop, !length_app in Hl.
    unfold CRLF in Hl. simpl in Hl. lia. }
  unfold i64_MAX in Hb. split_and!.
  - unfold payload_bounds, usize_checked, u64_MAX.
    rewrite (proj2 (Z.ltb_ge _ _)) by lia.
    repeat (rewrite (proj2 (Z.leb_le _ _)) by lia; cbn [mbind option_bind ok_or outcome_bind]).
    rewrite (proj2 (Z.ltb_ge _ _)) by lia. repeat f_equal; lia.
  - unfold expect_crlf.
    pose proof (slice_drop (off + 1 + hc) b p CRLF post Hd) as Hs.
    unfold CRLF in Hs at 3. simpl in Hs. rewrite Hs by (right; lia). done.
  - pose proof (slice_drop (off + 1 + hc) b [] p (CRLF ++ post) Hd) as Hs. simpl in Hs.
    rewrite Nat.add_0_r in Hs. apply Hs. right; lia.
Qed.
End at_offset.

Lemma count_ok b cursor n fpi label :
  (1 ≤ fpi ≤ 2)%Z → (Z.of_nat n ≤ RESP_MAX_CONTAINER_ITEMS)%Z →
  (Z.of_nat n * fpi * 3 ≤ Z.of_nat (length b - cursor))%Z →
  validate_container_count b cursor (Z.of_nat n) fpi label = Done n.
Proof.
  intros Hf Hn Hl. assert (fpi = 1 ∨ fpi = 2)%Z as Hf2 by lia.
  unfold validate_container_count, RESP_MAX_CONTAINER_ITEMS, RESP_MIN_FRAME_BYTES in *.
  rewrite !(proj2 (Z.ltb_ge _ _)) by lia. unfold usize_checked, u64_MAX.
  rewrite (proj2 (Z.leb_le _ _)) by (destruct Hf2; subst; lia). cbn [mbind option_bind].
  rewrite (proj2 (Z.leb_le _ _)) by (destruct Hf2; subst; lia).
  cbn [ok_or mbind outcome_bind]. rewrite (proj2 (Z.ltb_ge _ _)) by (destruct Hf2; subst; lia).
  by rewrite Nat2Z.id.
Qed.

(** The answer the decoder owes to an encoded frame at depth [d]. *)
Definition decoded {A} (d deep : nat) (a : A) : Parse A :=
  if d + deep <=? RESP_MAX_NESTING_DEPTH then Done a else Err NestingTooDeep.

Definition roundtrips (f : Frame) : Prop := ∀ fuel b off d post,
  frame_ok true f = true → (Z.of_nat (length b) ≤ i64_MAX)%Z →
  drop off b = encode f ++ post →
  RESP_MAX_NESTING_DEPTH + 2 ≤ fuel + d → d ≤ RESP_MAX_NESTING_DEPTH + 1 →
  parse_frame_at_depth fuel b off d = decoded d (fdepth f) (f, length (encode f)).

(** To round-trip it is enough to look at the prefix match. *)
Lemma roundtrips_prefix f :
  (∀ fuel b off d x t post, frame_ok true f = true → (Z.of_nat (length b) ≤ i64_MAX)%Z →
     encode f = x :: t → drop off b = x :: t ++ post → off < length b →
     slice_from (off + 1) b = Some (t ++ post) → b !! off = Some x →
     RESP_MAX_NESTING_DEPTH + 2 ≤ fuel + (d + 1) → d ≤ RESP_MAX_NESTING_DEPTH →
     parse_prefix (parse_frame_at_depth fuel b) b off d = decoded d (fdepth f) (f, length (encode f))) →
  roundtrips f.
Proof.
  intros H fuel b off d post Hok Hb Hd Hfuel Hdep.
  destruct fuel as [|fuel]; [lia|].
  pose proof (encode_length f). destruct (encode f) as [|x t] eqn:E; [simpl in *; lia|].
  rewrite <-app_comm_cons in Hd. destruct (drop_cons _ _ _ _ Hd) as (Hx & Hl & Hs & _).
  cbn [parse_frame_at_depth]. rewrite (proj2 (Nat.leb_gt _ _)) by done.
  destruct (RESP_MAX_NESTING_DEPTH <? d) eqn:Ed; bool_case.
  - unfold decoded. rewrite (proj2 (Nat.leb_gt _ _)) by lia. done.
  - eapply H; try done. lia.
Qed.

(** *** Scalars *)
Lemma decoded_leaf {A} d (a : A) : d ≤ RESP_MAX_NESTING_DEPTH → decoded d 0 a = Done a.
Proof. intros. unfold decoded. by rewrite (proj2 (Nat.leb_le _ _)) by lia. Qed.

(** Introduces a scalar's obligation with the marker's branch taken. *)
Ltac leaf_start :=
  apply roundtrips_prefix;
  intros fuel b off d x t post Hok Hb He Hd Hoff Hs Hx Hf Hdep;
  cbn [encode] in He; unfold header in He; cbn [app] in He; injection He as <- <-;
  unfold parse_prefix; rewrite Hx; cbn [or_panic mbind outcome_bind Z.eqb Pos.eqb fdepth];
  rewrite decoded_leaf by done.

(** The header of an encoded frame at an offset. *)
Lemma read_header b off m n t :
  (Z.of_nat (length b) ≤ i64_MAX)%Z → fits n → drop off b = header m n ++ t →
  let hc := length (usize_to_string n) + 2 in
  or_panic (slice_from (off + 1) b) ≫= parse_isize_line = Done (Z.of_nat n, hc) ∧
  off + 1 + hc = off + length (header m n) ∧ drop (off + 1 + hc) b = t ∧ off < length b.
Proof.
  intros Hb Hn Hd. cbv zeta. assert (off + 1 + (length (usize_to_string n) + 2) =
    off + length (header m n)) as Hh.
  { unfold header. simpl. rewrite length_app. simpl. lia. }
  unfold header in Hd. rewrite <-app_comm_cons, <-app_assoc in Hd.
  destruct (drop_cons _ _ _ _ Hd) as (_ & Hoff & Hs & _). rewrite Hs. split_and!; [|done| |done].
  - cbn [or_panic mbind outcome_bind]. by apply parse_header_line.
  - rewrite Hh. apply drop_app_at. rewrite Hd. unfold header. by rewrite <-app_comm_cons, <-app_assoc.
Qed.

Lemma bind_assoc {A B C} (m : Parse A) (f : A → Parse B) (g : B → Parse C) :
  (m ≫= λ a, f a ≫= g) = (m ≫= f) ≫= g.
Proof. by destruct m. Qed.

(** A header, a payload and its terminator. *)
Lemma read_blob {A} b off m p post label label' (K : Bytes → nat → Parse A) (early : Z → bool)
    (o : Z → nat → Parse A) :
  (Z.of_nat (length b) ≤ i64_MAX)%Z → drop off b = (header m (length p) ++ p ++ CRLF) ++ post →
  early (Z.of_nat (length p)) = false →
  or_panic (slice_from (off + 1) b) ≫= (λ rest,
    parse_isize_line rest ≫= λ '(len, hc),
    if early len then o len hc else
    payload_bounds b off hc len label ≫= λ '(start, stop, fend),
    expect_crlf b stop label' ≫= λ _,
    or_panic (slice start stop b) ≫= λ payload, K payload fend) =
  K p (off + length (header m (length p) ++ p ++ CRLF)).
Proof.
  intros Hb Hd Hearly. rewrite <-!app_assoc in Hd.
  assert (fits (length p)) as Hf.
  { pose proof (f_equal length Hd) as Hl. rewrite length_drop, !length_app in Hl. unfold fits. lia. }
  destruct (read_header b off m (length p) _ Hb Hf Hd) as (Hr & Hh & Hd' & Hoff).
  rewrite bind_assoc, Hr. cbn [mbind outcome_bind]. rewrite Hearly.
  destruct (read_payload b off Hb _ p post label label' Hd' Hoff) as (Hp & Hc & Hsl).
  unfold mbind in Hp, Hc |- *. rewrite Hp. cbn [outcome_bind]. rewrite Hc. cbn [outcome_bind].
  rewrite Hsl. cbn [or_panic outcome_bind]. f_equal.
  rewrite !length_app, Hh. simpl. lia.
Qed.

(** A marker and a line. *)
Lemma read_line_frame {A} b off m l post (K : Bytes → nat → Parse A) :
  line_ok l → drop off b = m :: (l ++ CRLF) ++ post →
  or_panic (slice_from (off + 1) b) ≫= (λ rest, parse_line rest ≫= λ '(line, c), K line c) =
  K l (length l + 2).
Proof.
  intros Hl Hd. destruct (drop_cons _ _ _ _ Hd) as (_ & _ & -> & _).
  cbn [or_panic mbind outcome_bind]. rewrite <-app_assoc. by rewrite parse_line_ok.
Qed.

Lemma line_length m (l : Bytes) : length (m :: l ++ CRLF) = length l + 2 + 1.
Proof. simpl. rewrite length_app. simpl. lia. Qed.

Lemma roundtrip_line f (l : Bytes) :
  match f with
  | SimpleString s | Error s | Double s | BigNumber s => l = s
  | _ => False
  end → roundtrips f.
Proof.
  destruct f; try done; intros ->; leaf_start; cbn [frame_ok negb orb] in Hok; bool_case.
  - unfold parse_simple_string. erewrite (read_line_frame _ _ _ value _ (λ l c, _)); [|split; [done|by apply no_crlf_true]|done].
    cbn [encode]. by rewrite line_length.
  - unfold parse_double. erewrite (read_line_frame _ _ _ value _ (λ l c, _)); [|split; [done|by apply no_crlf_true]|done].
    match goal with H : is_double_line _ = true |- _ => rewrite H end.
    cbn [encode negb]. by rewrite line_length.
  - unfold parse_big_number. erewrite (read_line_frame _ _ _ value _ (λ l c, _)); [|split; [done|by apply no_crlf_true]|done].
    match goal with H : is_big_number_line _ = true |- _ => rewrite H end.
    cbn [encode negb]. by rewrite line_length.
  - unfold parse_error. erewrite (read_line_frame _ _ _ message _ (λ l c, _)); [|split; [done|by apply no_crlf_true]|done].
    cbn [encode]. by rewrite line_length.
Qed.

Lemma roundtrip_blob s : roundtrips (BlobString s).
Proof.
  leaf_start. unfold parse_blob_string.
  rewrite (read_blob b off 36 s post _ _ (λ p fend, Done (BlobString p, fend - off))
    (λ len, (len <? 0)%Z) (λ _ hc, Done (Null, hc + 1))); [|done| |].
  - do 2 f_equal. cbn [encode]. lia.
  - exact Hd.
  - apply Z.ltb_ge. lia.
Qed.

Lemma position_colon (s v : Bytes) :
  58%Z ∉ s → position (λ b, (b =? 58)%Z) (s ++ 58%Z :: v) = Some (length s).
Proof.
  induction s as [|x s IH]; intros Hn; [done|]. apply not_elem_of_cons in Hn as [? ?].
  simpl. rewrite (proj2 (Z.eqb_neq x 58)) by done. by rewrite IH.
Qed.

Lemma roundtrip_verbatim s v : roundtrips (VerbatimString s v).
Proof.
  leaf_start. cbn [frame_ok] in Hok. bool_case. unfold parse_verbatim_string.
  assert (length s + 1 + length v = length (s ++ 58%Z :: v)) as Hlen
    by (rewrite length_app; simpl; lia).
  rewrite (read_blob b off 61 (s ++ 58%Z :: v) post _ _ (λ p fend, 
      colon ← ok_or (position (λ b, (b =? 58)%Z) p) VerbatimNoSeparator;
      if negb (colon =? 3) then Err VerbatimBadFormat
      else format ← from_utf8 (take colon p);
           value ← or_panic (slice_from (colon + 1) p);
           Done (VerbatimString format value, fend - off))
    (λ len, (len <? 4)%Z) (λ _ hc, Err VerbatimTooShort)); [|done| |].
  - rewrite position_colon by done. cbn [ok_or mbind outcome_bind].
    rewrite (proj2 (Nat.eqb_eq _ _)) by done. cbn [negb]. rewrite take_app_length.
    unfold from_utf8. match goal with H : utf8_valid s = true |- _ => rewrite H end.
    cbn [mbind outcome_bind]. rewrite slice_from_Some by (rewrite length_app; simpl; lia).
    cbn [or_panic mbind outcome_bind]. rewrite <-drop_drop, drop_app_length. simpl. do 2 f_equal.
    rewrite Hlen, <-!app_assoc, <-app_comm_cons. lia.
  - rewrite <-Hlen, Hd. unfold header. by rewrite <-!app_comm_cons, <-!app_assoc, <-!app_comm_cons, <-!app_assoc.
  - apply Z.ltb_ge. lia.
Qed.

Lemma roundtrip_leaf f :
  match f with Array _ | Map _ | Set_ _ | Push _ | Attribute _ _ => True | _ => roundtrips f end.
Proof.
  destruct f as [s|s|v|l|l|l|l| |v|s|s|s v|l dt|s]; try done;
    try (by eapply roundtrip_line); [apply roundtrip_blob| | | |apply roundtrip_verbatim].
  - leaf_start. cbn [frame_ok] in Hok. bool_case. unfold parse_integer. rewrite Hs.
    cbn [or_panic mbind outcome_bind]. rewrite <-app_assoc, parse_integer_line by done.
    cbn [mbind outcome_bind encode]. by rewrite line_length.
  - leaf_start. unfold parse_null. pose proof (f_equal length Hd) as Hl.
    rewrite length_drop in Hl. simpl in Hl. rewrite (proj2 (Nat.ltb_ge _ _)) by lia.
    pose proof (slice_drop off b [95%Z] CRLF post Hd ltac:(by left)) as Hc. unfold CRLF in Hc at 1.
    cbn [length] in Hc. replace (off + 1 + 2) with (off + 3) in Hc by lia. by rewrite Hc.
  - leaf_start. unfold parse_boolean. pose proof (f_equal length Hd) as Hl.
    rewrite length_drop in Hl. simpl in Hl. rewrite (proj2 (Nat.ltb_ge _ _)) by lia.
    assert (b !! (off + 1) = Some (if v then 116%Z else 102%Z)) as Hv
      by (by rewrite <-lookup_drop, Hd).
    rewrite Hv. cbn [or_panic mbind outcome_bind].
    pose proof (slice_drop off b [35%Z; if v then 116%Z else 102%Z] CRLF post Hd
      ltac:(by left)) as Hc. unfold CRLF in Hc at 1.
    cbn [length] in Hc. replace (off + 2 + 2) with (off + 4) in Hc by lia. rewrite Hc. by destruct v.
Qed.

(** *** Containers *)

(** Sequencing with the deepest item: either both parts fit or it is an error. *)
Lemma decoded_bind {A B} d m n (a : A) (f : A → Parse B) (c : B) :
  f a = decoded d n c → decoded d m a ≫= f = decoded d (Nat.max m n) c.
Proof.
  intros Hf. unfold decoded in *. destruct (d + m <=? _) eqn:E1; bool_case.
  - cbn [mbind outcome_bind]. rewrite Hf. destruct (d + n <=? _) eqn:E2; bool_case.
    + by rewrite (proj2 (Nat.leb_le _ _)) by lia.
    + by rewrite (proj2 (Nat.leb_gt _ _)) by lia.
  - by rewrite (proj2 (Nat.leb_gt _ _)) by lia.
Qed.

Lemma decoded_child {A} d m (a : A) : decoded (d + 1) m a = decoded d (S m) a.
Proof. unfold decoded. by replace (d + 1 + m) with (d + S m) by lia. Qed.

Section items.
Context (fuel d : nat) (b : Bytes).
Context (Hfuel : RESP_MAX_NESTING_DEPTH + 2 ≤ fuel + (d + 1)).
Context (Hd : d ≤ RESP_MAX_NESTING_DEPTH) (Hb : (Z.of_nat (length b) ≤ i64_MAX)%Z).

Lemma items_roundtrip l cursor post :
  Forall roundtrips l → forallb (frame_ok true) l = true →
  drop cursor b = concat (map encode l) ++ post →
  parse_items (parse_frame_at_depth fuel b) (length l) cursor d =
  decoded d (max_of (λ f, S (fdepth f)) l) (l, cursor + length (concat (map encode l))).
Proof.
  intros Hl. revert cursor. induction Hl as [|f l Hf _ IH]; intros cursor Hok Hdrop.
  { cbn. rewrite decoded_leaf by done. by rewrite Nat.add_0_r. }
  cbn [forallb] in Hok. apply andb_true_iff in Hok as [Hok1 Hok2].
  cbn [map concat] in Hdrop. rewrite <-app_assoc in Hdrop.
  cbn [length parse_items]. rewrite (Hf _ _ _ _ _ Hok1 Hb Hdrop) by lia.
  rewrite decoded_child. apply decoded_bind. apply drop_app_at in Hdrop.
  rewrite (IH _ Hok2 Hdrop). etrans; [apply decoded_bind; by rewrite <-(decoded_leaf d)|].
  cbn [map concat]. rewrite length_app. unfold max_of. rewrite Nat.max_0_r. do 2 f_equal. lia.
Qed.

Lemma pairs_roundtrip l cursor post :
  Forall (λ kv, roundtrips kv.1 ∧ roundtrips kv.2) l →
  forallb (λ '(k, v), frame_ok true k && frame_ok true v) l = true →
  drop cursor b = concat (map (λ '(k, v), encode k ++ encode v) l) ++ post →
  parse_pairs (parse_frame_at_depth fuel b) (length l) cursor d =
  decoded d (max_of (λ '(k, v), S (Nat.max (fdepth k) (fdepth v))) l)
    (l, cursor + length (concat (map (λ '(k, v), encode k ++ encode v) l))).
Proof.
  intros Hl. revert cursor. induction Hl as [|[k v] l [Hk Hv] _ IH]; intros cursor Hok Hdrop.
  { cbn. rewrite decoded_leaf by done. by rewrite Nat.add_0_r. }
  cbn [forallb] in Hok. apply andb_true_iff in Hok as [[Hok1 Hok2]%andb_true_iff Hok3].
  cbn [map concat] in Hdrop. rewrite <-!app_assoc in Hdrop. simpl in Hk, Hv.
  cbn [length parse_pairs]. rewrite (Hk _ _ _ _ _ Hok1 Hb Hdrop) by lia.
  apply drop_app_at in Hdrop. cbv zeta. etrans.
  { rewrite decoded_child. apply decoded_bind. cbv beta iota.
    rewrite (Hv _ _ _ _ _ Hok2 Hb Hdrop) by lia.
    apply drop_app_at in Hdrop. rewrite decoded_child. apply decoded_bind.
    rewrite (IH _ Hok3 Hdrop). apply decoded_bind. by rewrite <-(decoded_leaf d). }
  cbn [map concat]. rewrite !length_app. unfold max_of. cbn [foldr]. f_equal; [lia|].
  f_equal. lia.
Qed.
End items.

(** Each item of a container has at least three bytes. *)
Lemma concat_all_length_ge {A} (g : A → Bytes) n (l : list A) :
  (∀ x, n ≤ length (g x)) → length l * n ≤ length (concat (map g l)).
Proof. intros Hg. apply concat_length_ge. by apply Forall_true. Qed.

Lemma pair_length_ge (kv : Frame * Frame) : 6 ≤ length (let '(k, v) := kv in encode k ++ encode v).
Proof.
  destruct kv as [k v]. rewrite length_app. pose proof (encode_length k).
  pose proof (encode_length v). lia.
Qed.

(** A container's header and count, then its loop. *)
Lemma read_container {A R} b off m (l : list A) body post label (fpi : Z)
    (loop : nat → nat → Parse (list A * nat)) (o : nat → Parse R) (K : list A → nat → Parse R) :
  (Z.of_nat (length b) ≤ i64_MAX)%Z → (1 ≤ fpi ≤ 2)%Z → small l = true →
  (Z.of_nat (length l) * fpi * 3 ≤ Z.of_nat (length body))%Z →
  drop off b = (header m (length l) ++ body) ++ post →
  or_panic (slice_from (off + 1) b) ≫= (λ rest,
    parse_isize_line rest ≫= λ '(count, hc),
    if (count <? 0)%Z then o hc else
    validate_container_count b (off + 1 + hc) count fpi label ≫= λ count,
    loop count (off + 1 + hc) ≫= λ '(items, cursor), K items cursor) =
  loop (length l) (off + length (header m (length l))) ≫= λ '(items, cursor), K items cursor.
Proof.
  intros Hb Hfpi Hs Hlen Hd. rewrite <-app_assoc in Hd. unfold small in Hs. bool_case.
  pose proof (f_equal length Hd) as Hl. rewrite length_drop, !length_app in Hl.
  assert (fits (length l)) as Hf.
  { unfold fits, i64_MAX, RESP_MAX_CONTAINER_ITEMS in *. lia. }
  destruct (read_header b off m (length l) _ Hb Hf Hd) as (Hr & Hh & Hd' & Hoff).
  rewrite bind_assoc, Hr. cbn [mbind outcome_bind]. rewrite (proj2 (Z.ltb_ge _ _)) by lia.
  rewrite Hh. rewrite count_ok; [done|done|done|]. lia.
Qed.

Ltac container_start :=
  apply roundtrips_prefix;
  intros fuel b off d x t post Hok Hb He Hd Hoff Hs Hx Hf Hdep;
  cbn [encode] in He; unfold header in He; cbn [app] in He; injection He as <- <-;
  unfold parse_prefix; rewrite Hx; cbn [or_panic mbind outcome_bind Z.eqb Pos.eqb];
  cbn [frame_ok] in Hok; bool_case.

(** The loop at the cursor behind the header. *)
Ltac items_at m l Hl :=
  let Hd' := fresh "Hd'" in
  match goal with
  | Hd : drop ?off ?b = _, Hk : forallb _ l = true |- _ =>
      assert (drop (off + length (header m (length l))) b = concat (map encode l) ++ _) as Hd'
        by (apply drop_app_at; rewrite app_assoc; exact Hd);
      rewrite (items_roundtrip _ _ _ ltac:(eassumption) ltac:(eassumption) ltac:(eassumption)
        l _ _ Hl Hk Hd')
  end.

Ltac done_container :=
  etrans; [apply decoded_bind; symmetry; by apply decoded_leaf|];
  cbn [fdepth encode]; rewrite Nat.max_0_r, length_app; do 2 f_equal; lia.

Lemma roundtrip_array l : Forall roundtrips l → roundtrips (Array l).
Proof.
  intros Hl. container_start. unfold parse_array.
  rewrite (read_container b off 42 l (concat (map encode l)) post "array" 1
    (λ n c, parse_items (parse_frame_at_depth fuel b) n c d) _
    (λ items cursor, Done (Array items, cursor - off))); [|done|done|done| |exact Hd].
  - items_at 42%Z l Hl. done_container.
  - pose proof (concat_all_length_ge encode 3 l encode_length). lia.
Qed.

Lemma roundtrip_set l : Forall roundtrips l → roundtrips (Set_ l).
Proof.
  intros Hl. container_start. unfold parse_set.
  rewrite (read_container b off 126 l (concat (map encode l)) post "set" 1
    (λ n c, parse_items (parse_frame_at_depth fuel b) n c d) _
    (λ items cursor, Done (Set_ items, cursor - off))); [|done|done|done| |exact Hd].
  - items_at 126%Z l Hl. done_container.
  - pose proof (concat_all_length_ge encode 3 l encode_length). lia.
Qed.

Lemma roundtrip_push l : Forall roundtrips l → roundtrips (Push l).
Proof.
  intros Hl. container_start. unfold parse_push.
  rewrite (read_container b off 62 l (concat (map encode l)) post "push" 1
    (λ n c, parse_items (parse_frame_at_depth fuel b) n c d) _
    (λ items cursor, Done (Push items, cursor - off))); [|done|done|done| |exact Hd].
  - items_at 62%Z l Hl. done_container.
  - pose proof (concat_all_length_ge encode 3 l encode_length). lia.
Qed.

Lemma roundtrip_map l :
  Forall (λ kv, roundtrips kv.1 ∧ roundtrips kv.2) l → roundtrips (Map l).
Proof.
  intros Hl. container_start. unfold parse_map.
  rewrite (read_container b off 37 l (concat (map (λ '(k, v), encode k ++ encode v) l)) post
    "map" 2 (λ n c, parse_pairs (parse_frame_at_depth fuel b) n c d) _
    (λ items cursor, Done (Map items, cursor - off))); [|done|done|done| |exact Hd].
  - assert (drop (off + length (header 37 (length l))) b =
      concat (map (λ '(k, v), encode k ++ encode v) l) ++ post) as Hd'
      by (apply drop_app_at; rewrite app_assoc; exact Hd).
    rewrite (pairs_roundtrip fuel d b) with (post := post) by done. done_container.
  - pose proof (concat_all_length_ge _ 6 l pair_length_ge). lia.
Qed.

Lemma roundtrip_attribute l f :
  Forall (λ kv, roundtrips kv.1 ∧ roundtrips kv.2) l → roundtrips f → roundtrips (Attribute l f).
Proof.
  intros Hl Hf'. container_start. unfold parse_attribute, parse_map_with_prefix.
  set (body := concat (map (λ '(k, v), encode k ++ encode v) l)) in *.
  assert (drop off b = (header 124 (length l) ++ body) ++ encode f ++ post) as Hd1.
  { rewrite Hd. unfold header. by rewrite <-!app_comm_cons, <-!app_assoc. }
  rewrite (read_container b off 124 l body (encode f ++ post)
    "attribute" 2 (λ n c, parse_pairs (parse_frame_at_depth fuel b) n c d) _
    (λ items cursor, Done (items, cursor - off))); [|done|done|done| |exact Hd1].
  2:{ pose proof (concat_all_length_ge _ 6 l pair_length_ge). unfold body. lia. }
  assert (drop (off + length (header 124 (length l))) b = body ++ encode f ++ post) as Hd2
    by (apply drop_app_at; rewrite app_assoc; exact Hd1).
  rewrite (pairs_roundtrip fuel d b) with (post := encode f ++ post) by done.
  apply drop_app_at in Hd2. fold body. rewrite <-bind_assoc. etrans.
  { apply decoded_bind. cbn [mbind outcome_bind].
    replace (off + (off + length (header 124 (length l)) + length body - off))
      with (off + length (header 124 (length l)) + length body) by lia.
    rewrite (Hf' _ _ _ _ _ ltac:(eassumption) Hb Hd2) by lia. rewrite decoded_child.
    apply decoded_bind. symmetry. by apply decoded_leaf. }
  cbn [fdepth encode]. rewrite Nat.max_0_r, !length_app. fold body. do 2 f_equal. lia.
Qed.

Lemma frame_roundtrips f : roundtrips f.
Proof.
  exact (frame_ind' roundtrips roundtrip_leaf roundtrip_array roundtrip_set roundtrip_push
    roundtrip_map roundtrip_attribute f).
Qed.

(** [decode] on an encoded frame, with anything behind it. *)
Lemma decode_encode f rest :
  frame_ok true f = true → (Z.of_nat (length (encode f ++ rest)) ≤ i64_MAX)%Z →
  decode (encode f ++ rest) = decoded 0 (fdepth f) (f, length (encode f)).
Proof.
  intros Hok Hl. unfold decode, parse_frame. rewrite bool_decide_eq_false_2.
  - eapply frame_roundtrips; [done..| |lia]. unfold resp_fuel. lia.
  - intros E. pose proof (encode_length f) as He.
    apply (f_equal length) in E. rewrite length_app in E. simpl in E. lia.
Qed.
