(* ===== verification/RespCommands.v ===== *)
(** * Command decoding: lemmas

    The borrowed and the span decoders of [protocol/resp.rs] against each other
    and against the frame decoder. *)

From S2P Require Import Prelude Helpers Codec Resp RespProofs.

(** The bytes a span denotes. *)
Definition span_bytes (b : Bytes) : nat * nat → Bytes := λ '(s, e), take (e - s) (drop s b).
Definition span_in (b : Bytes) : nat * nat → Prop := λ '(s, e), s ≤ e ≤ length b.

Lemma span_bytes_app b r se : span_in b se → span_bytes (b ++ r) se = span_bytes b se.
Proof.
  destruct se as [s e]. simpl. intros. rewrite drop_app_le, take_app_le; [done| |lia].
  rewrite length_drop. lia.
Qed.

(** ** The span decoder is steady *)
Definition part_post (b : Bytes) (off : nat) : nat * nat * nat → Prop := λ '(s, e, n),
  span_in b (s, e) ∧ 3 ≤ n ∧ off + n ≤ length b.

Section part.
Context (b : Bytes) (off : nat) (Hoff : off < length b).

Lemma steady_blob_span : steady (λ b, parse_command_blob_string_span b off) (part_post b off) b.
Proof.
  apply steady_header_frame; [done|]. intros v c _ ? ?.
  destruct (v <? 0)%Z eqn:?; [apply steady_err|].
  eapply (steady_bind (λ b, payload_bounds b off c v "command blob string")
    (λ a b, let '(start, stop, fend) := a in
       expect_crlf b stop "blob string" ≫= λ _, Done (start, stop, fend - off)));
    [apply steady_payload|].
  intros [[start stop] fend] (-> & -> & -> & Hl). eapply steady_bind; [apply steady_crlf; lia|].
  intros _ _. apply steady_done. simpl. lia.
Qed.

Lemma steady_line_span : steady (λ b, parse_command_line_span b off) (part_post b off) b.
Proof.
  eapply (steady_rest_bind line_end (λ e b, let start := off + 1 in let stop := start + e in
    Done (start, stop, stop + 2 - off))); [lia|apply steady_line_end|].
  intros e [He _]. rewrite length_drop in He. apply steady_done. simpl. lia.
Qed.
End part.

Lemma steady_part_span b off :
  steady (λ b, parse_command_part_span b off) (part_post b off) b.
Proof.
  apply (steady_guard (λ b, x ← or_panic (b !! off);
    if (x =? 36)%Z then parse_command_blob_string_span b off
    else if (x =? 43)%Z then parse_command_line_span b off
    else if (x =? 58)%Z then parse_command_line_span b off
    else Err (UnsupportedCommandPart x)) _ (S off)).
  intros Hoff. eapply steady_bind; [by apply steady_lookup|]. intros x _.
  repeat (case_match; [by auto using steady_blob_span, steady_line_span|]). apply steady_err.
Qed.

Definition spans_post (b : Bytes) (count cursor : nat) : list (nat * nat) * nat → Prop :=
  λ '(parts, cursor'), length parts = count ∧ Forall (span_in b) parts ∧
    cursor ≤ cursor' ∧ (cursor ≤ length b → cursor' ≤ length b).

Lemma steady_spans b count cursor :
  steady (λ b, parse_command_spans b count cursor) (spans_post b count cursor) b.
Proof.
  revert cursor. induction count as [|n IH]; intros cursor; cbn [parse_command_spans].
  { apply steady_done. simpl. split_and!; try done. }
  eapply (steady_bind (λ b, parse_command_part_span b cursor)
    (λ a b, let '(start, stop, consumed) := a in
      '(parts, cursor') ← parse_command_spans b n (cursor + consumed);
      Done ((start, stop) :: parts, cursor'))); [apply steady_part_span|].
  intros [[s e] c] (Hse & ? & ?).
  eapply (steady_bind _ (λ a _, let '(parts, cursor') := a in Done ((s, e) :: parts, cursor')));
    [apply IH|].
  intros [parts c'] (<- & ? & ? & ?). apply steady_done. split_and!; [done|by constructor|lia|lia].
Qed.

Definition command_post (b : Bytes) (off : nat) : CommandSpanFrame * nat → Prop := λ '(s, n),
  Forall (span_in b) (span_parts s) ∧ (Z.of_nat (length (span_parts s)) ≤ RESP_MAX_CONTAINER_ITEMS)%Z
  ∧ 4 ≤ n ∧ off + n ≤ length b.

Lemma steady_command_span_frame b off :
  steady (λ b, parse_command_span_frame b off) (command_post b off) b.
Proof.
  apply (steady_guard (λ b, x ← or_panic (b !! off);
    if negb (x =? 42)%Z then Err ExpectedCommandArrayPrefix
    else
      rest ← or_panic (slice_from (off + 1) b);
      '(count, hc) ← parse_isize_line rest;
      if (count <? 0)%Z then Err NullCommandArray
      else
        count ← validate_container_count b (off + 1 + hc) count 1 "command array";
        '(parts, cursor) ← parse_command_spans b count (off + 1 + hc);
        Done (mkCommandSpanFrame parts, cursor - off)) _ (S off)).
  intros Hoff. eapply steady_bind; [by apply steady_lookup|]. intros x _.
  destruct (negb _); [apply steady_err|]. apply steady_header_frame; [lia|]. intros v c _ ? ?.
  destruct (v <? 0)%Z; [apply steady_err|]. eapply steady_bind; [by apply steady_count|].
  intros n [Hn ?].
  eapply (steady_bind _ (λ a _, let '(parts, cursor) := a in
    Done (mkCommandSpanFrame parts, cursor - off))); [apply steady_spans|].
  intros [parts c'] (<- & ? & ? & ?). apply steady_done. split_and!; simpl; try done; lia.
Qed.

Lemma steady_decode_spans b : steady decode_command_spans (command_post b 0) b.
Proof.
  eapply (steady_ext (λ b, if length b <? 1 then Incomplete else parse_command_span_frame b 0)).
  { intros b'. unfold decode_command_spans. by destruct b'. }
  apply steady_guard. intros _. apply steady_command_span_frame.
Qed.

(** ** Borrowed parts are the bytes of the spans *)
Definition borrow (b : Bytes) : nat * nat * nat → Bytes * nat := λ '(s, e, n), (span_bytes b (s, e), n).

Lemma fmap_bind {A B C} (f : B → C) (m : Parse A) (k : A → Parse B) :
  f <$> (m ≫= k) = m ≫= λ a, f <$> k a.
Proof. by destruct m. Qed.

Lemma bind_ext {A B} (m : Parse A) (f g : A → Parse B) :
  (∀ a, m = Done a → f a = g a) → m ≫= f = m ≫= g.
Proof. destruct m; simpl; auto. Qed.

Lemma borrow_blob b off :
  off < length b →
  parse_command_blob_string b off = borrow b <$> parse_command_blob_string_span b off.
Proof.
  intros Hoff. unfold parse_command_blob_string, parse_command_blob_string_span.
  rewrite fmap_bind. apply bind_ext. intros rest Hrest. rewrite fmap_bind.
  apply bind_ext. intros [len hc] Hl. destruct (len <? 0)%Z; [done|].
  rewrite fmap_bind. apply bind_ext. intros [[s e] f] Hp.
  apply (steady_post _ _ _ (steady_payload off hc len _ b)) in Hp as (-> & -> & -> & ?).
  rewrite fmap_bind. apply bind_ext. intros [] _. rewrite slice_is_Some by lia. done.
Qed.

Lemma borrow_line b off :
  off < length b →
  parse_command_simple_string b off = borrow b <$> parse_command_line_span b off.
Proof.
  intros Hoff. unfold parse_command_simple_string, parse_command_line_span.
  rewrite fmap_bind. apply bind_ext. intros rest Hrest.
  rewrite slice_from_Some in Hrest by lia. injection Hrest as <-.
  rewrite fmap_bind. apply bind_ext. intros e He.
  apply (steady_post _ _ _ (steady_line_end _)) in He as [He _]. rewrite length_drop in He.
  cbv zeta. rewrite slice_is_Some by lia. done.
Qed.

Lemma borrow_part b off :
  parse_command_part b off = borrow b <$> parse_command_part_span b off.
Proof.
  unfold parse_command_part, parse_command_part_span.
  destruct (length b <=? off) eqn:E; [done|]. bool_case. rewrite fmap_bind. apply bind_ext.
  intros x _. repeat (case_match; [by auto using borrow_blob, borrow_line|]). done.
Qed.

Lemma borrow_parts b count cursor :
  parse_command_parts b count cursor =
  (λ '(spans, c), (map (span_bytes b) spans, c)) <$> parse_command_spans b count cursor.
Proof.
  revert cursor. induction count as [|n IH]; intros cursor; [done|].
  cbn [parse_command_parts parse_command_spans]. rewrite borrow_part.
  destruct (parse_command_part_span b cursor) as [| | |[[s e] c]]; try done.
  cbn [fmap outcome_fmap mbind outcome_bind borrow]. rewrite IH.
  by destruct (parse_command_spans b n (cursor + c)) as [| | |[spans c']].
Qed.

Definition borrow_command (b : Bytes) : CommandSpanFrame * nat → CommandFrame * nat :=
  λ '(s, n), (mkCommandFrame (map (span_bytes b) (span_parts s)), n).

Lemma borrow_frame b off :
  parse_command_frame b off = borrow_command b <$> parse_command_span_frame b off.
Proof.
  unfold parse_command_frame, parse_command_span_frame.
  destruct (length b <=? off) eqn:E; [done|].
  rewrite fmap_bind. apply bind_ext. intros x _. destruct (negb _); [done|].
  rewrite fmap_bind. apply bind_ext. intros rest _. rewrite fmap_bind. apply bind_ext.
  intros [count hc] _. destruct (count <? 0)%Z; [done|]. cbv zeta.
  rewrite fmap_bind. apply bind_ext. intros n _. rewrite borrow_parts.
  by destruct (parse_command_spans b n (off + 1 + hc)) as [| | |[spans c']].
Qed.

Lemma borrow_decode b : decode_command b = borrow_command b <$> decode_command_spans b.
Proof.
  unfold decode_command, decode_command_spans. case_bool_decide; [done|]. apply borrow_frame.
Qed.

(** ** Against the frame decoder *)

Lemma payload_bounds_label b off hc len label label' a :
  payload_bounds b off hc len label = Done a → payload_bounds b off hc len label' = Done a.
Proof.
  unfold payload_bounds, usize_checked.
  repeat (case_match; cbn [mbind option_bind ok_or outcome_bind]; try done).
Qed.

(** The bytes of a blob or simple string. *)
Definition text_of (f : Frame) : option Bytes :=
  match f with BlobString s | SimpleString s => Some s | _ => None end.

Ltac invert_parse H :=
  cbv zeta in H;
  repeat match type of H with
  | _ ≫= _ = Done _ => let a := fresh "a" in let Ha := fresh "Ha" in
      apply bind_Done in H as (a & Ha & H)
  | (let '(_, _) := ?a in _) = Done _ => destruct a
  | (match ?a with (_, _) => _ end) = Done _ => destruct a
  | (if ?c then _ else _) = Done _ => destruct c
  end.

Lemma blob_part b off s n :
  off < length b → parse_blob_string b off = Done (BlobString s, n) →
  parse_command_blob_string b off = Done (s, n).
Proof.
  intros Hoff H. unfold parse_blob_string in H. apply bind_Done in H as (rest & Hrest & H).
  apply bind_Done in H as ([len hc] & Hl & H). unfold parse_command_blob_string.
  rewrite Hrest. cbn [mbind outcome_bind]. rewrite Hl. cbn [mbind outcome_bind].
  destruct (len <? 0)%Z; [done|]. apply bind_Done in H as ([[st e] f] & Hp & H).
  apply bind_Done in H as ([] & Hc & H). apply bind_Done in H as (p & Hs & [= <- <-]).
  unfold mbind. rewrite (payload_bounds_label _ _ _ _ _ _ _ Hp). cbn [outcome_bind].
  rewrite Hc. cbn [outcome_bind]. by rewrite Hs.
Qed.

Lemma simple_part b off s n :
  off < length b → parse_simple_string b off = Done (SimpleString s, n) →
  parse_command_simple_string b off = Done (s, n).
Proof.
  intros Hoff H. unfold parse_simple_string in H. apply bind_Done in H as (rest & Hrest & H).
  apply bind_Done in H as ([l c] & Hl & [= <- <-]). unfold parse_line in Hl.
  apply bind_Done in Hl as (e & He & (m & [-> _]%from_utf8_Done & [= <- <-])%bind_Done).
  rewrite slice_from_Some in Hrest by lia. injection Hrest as <-.
  unfold parse_command_simple_string. rewrite slice_from_Some by lia.
  cbn [or_panic mbind outcome_bind]. rewrite He. cbn [outcome_bind].
  apply (steady_post _ _ _ (steady_line_end _)) in He as [He _]. rewrite length_drop in He.
  cbn [mbind outcome_bind]. rewrite slice_is_Some by lia. cbn [or_panic mbind outcome_bind].
  replace (off + 1 + e - (off + 1)) with e by lia. do 2 f_equal. lia.
Qed.

(** Where the frame decoder reads a string, the command decoder reads its bytes. *)
Lemma frame_part fuel b off d f s n :
  parse_frame_at_depth fuel b off d = Done (f, n) → text_of f = Some s →
  parse_command_part b off = Done (s, n).
Proof.
  destruct fuel as [|fuel]; [done|]. cbn [parse_frame_at_depth]. unfold parse_command_part.
  destruct (length b <=? off) eqn:El; [done|]. bool_case. destruct (_ <? d); [done|].
  unfold parse_prefix. intros H Ht. apply bind_Done in H as (x & Hx & H). rewrite Hx.
  cbn [mbind outcome_bind].
  destruct (x =? 43)%Z eqn:E43.
  { bool_case. subst x. cbn [Z.eqb Pos.eqb]. unfold parse_simple_string in H. 
    assert (f = SimpleString s) as ->; [|by apply simple_part].
    invert_parse H. simplify_eq. simpl in Ht. by simplify_eq. }
  destruct (x =? 36)%Z eqn:E36.
  { bool_case. subst x. cbn [Z.eqb Pos.eqb] in H. assert (f = BlobString s) as ->;
      [|by apply blob_part].
    unfold parse_blob_string in H. invert_parse H; simplify_eq; simpl in Ht; by simplify_eq. }
  exfalso. revert H.
  unfold parse_error, parse_blob_error, parse_integer, parse_array, parse_map, parse_set,
    parse_push, parse_null, parse_boolean, parse_double, parse_big_number,
    parse_verbatim_string, parse_attribute.
  repeat (match goal with |- (if ?c then _ else _) = _ → _ => destruct c end;
    [intros H; invert_parse H; by simplify_eq|]). done.
Qed.

Lemma items_parts fuel b d l texts n cursor c' :
  parse_items (parse_frame_at_depth fuel b) n cursor d = Done (l, c') →
  map text_of l = map Some texts →
  parse_command_parts b n cursor = Done (texts, c').
Proof.
  revert l texts cursor. induction n as [|n IH]; intros l texts cursor; cbn [parse_items].
  { intros [= <- <-]. destruct texts; done. }
  intros ([f c] & Hf & ([items c2] & Hi & [= <- <-])%bind_Done)%bind_Done Hm.
  destruct texts as [|s texts]; [done|]. injection Hm as Hs Hm.
  cbn [parse_command_parts]. rewrite (frame_part _ _ _ _ _ _ _ Hf Hs). cbn [mbind outcome_bind].
  by rewrite (IH _ _ _ Hi Hm).
Qed.

Lemma as_command_texts l texts :
  map text_of l = map Some texts → as_command (Array l) = Done (mkCommandFrame texts).
Proof.
  intros Hm. cbn [as_command]. enough (as_command_parts l = Done texts) as ->; [done|].
  revert texts Hm. induction l as [|f l IH]; intros [|s texts] Hm; try done.
  injection Hm as Hf Hm. cbn [as_command_parts]. destruct f; simpl in Hf; try done;
    simplify_eq; cbn [as_command_part mbind outcome_bind]; by rewrite (IH _ Hm).
Qed.

Lemma validate_label b cursor count fpi label label' n :
  validate_container_count b cursor count fpi label = Done n →
  validate_container_count b cursor count fpi label' = Done n.
Proof.
  unfold validate_container_count, usize_checked.
  repeat (case_match; cbn [mbind option_bind ok_or outcome_bind]; try done).
Qed.

(** A decoded array of strings is the command the borrowed decoder returns. *)
Lemma decode_command_frame b l n texts :
  decode b = Done (Array l, n) → map text_of l = map Some texts →
  decode_command b = Done (mkCommandFrame texts, n).
Proof.
  unfold decode, decode_command, parse_frame. case_bool_decide as Hne; [done|]. intros H Hm.
  change resp_fuel with (S (RESP_MAX_NESTING_DEPTH + 1)) in H.
  cbn [parse_frame_at_depth] in H. unfold parse_command_frame.
  assert (length b <=? 0 = false) as El by (by destruct b). rewrite El in H |- *.
  change (RESP_MAX_NESTING_DEPTH <? 0) with false in H. cbv iota in H.
  unfold parse_prefix in H. apply bind_Done in H as (x & Hx & H). rewrite Hx.
  cbn [mbind outcome_bind].
  destruct (x =? 42)%Z eqn:E42.
  2:{ exfalso. revert H.
      unfold parse_simple_string, parse_error, parse_blob_error, parse_integer, parse_blob_string,
        parse_map, parse_set, parse_push, parse_null, parse_boolean, parse_double,
        parse_big_number, parse_verbatim_string, parse_attribute.
      repeat (match goal with |- (if ?c then _ else _) = _ → _ => destruct c end;
        [intros H; invert_parse H; by simplify_eq|]). done. }
  bool_case. subst x. cbn [Z.eqb Pos.eqb negb] in *. unfold parse_array in H.
  apply bind_Done in H as (rest & Hrest & H). apply bind_Done in H as ([count hc] & Hl & H).
  rewrite Hrest. cbn [mbind outcome_bind]. rewrite Hl. cbn [mbind outcome_bind].
  destruct (count <? 0)%Z; [done|]. apply bind_Done in H as (m & Hc & H).
  apply bind_Done in H as ([items c'] & Hi & [= <- <-]).
  rewrite (validate_label _ _ _ _ _ _ _ Hc). cbn [mbind outcome_bind].
  by rewrite (items_parts _ _ _ _ _ _ _ _ Hi Hm).
Qed.
