(* ===== verification/Native.v ===== *)
(** * The native Redis value codec

    The server's bounded encoder of Redis values ([protocol/native_redis.rs])
    and the client's bounded decoder
    ([shardcache-client-rs/src/commands/redis/native.rs], Module [Client] and
    [RedisResponse]).  The value and depth budgets are state of both; the
    decoder's recursion has fuel, enough by its depth limit. *)

From S2P Require Import Prelude Helpers F64 Codec Resp RespProofs.

Definition NATIVE_REDIS_MAX_BODY_BYTES : Z := 268435456%Z.
Definition NATIVE_REDIS_MAX_VALUES : Z := 1048576%Z.
Definition NATIVE_REDIS_MAX_NESTING_DEPTH : nat := 128.

(** ** The server's encoder *)

Inductive NativeEncodeError :=
  | NestingOrValueLimit
  | BodyLimit
  | CollectionLimit
  | InvalidNativeDouble.

Abbreviation Enc A := (Outcome NativeEncodeError A).

(** A [for] loop over a state that may return early with an error. *)
Section each.
Context {E A S : Type} (f : A → S → Outcome E S).
Fixpoint each (l : list A) (s : S) : Outcome E S :=
  match l with
  | [] => Done s
  | x :: l' => s' ← f x s; each l' s'
  end.
End each.

Definition native_room (out : Bytes) (additional : Z) : Enc unit :=
  if (Z.max 0 (NATIVE_REDIS_MAX_BODY_BYTES - Z.of_nat (length out)) <? additional)%Z
  then Err BodyLimit else Done tt.

Definition write_native_count (out : Bytes) (count : nat) : Enc Bytes :=
  if (65536 <? Z.of_nat count)%Z then Err CollectionLimit
  else Done (out ++ to_le 4 (usize_as_u32 count)).

Definition write_native_bytes (out bytes : Bytes) : Enc Bytes :=
  native_room out 4 ≫= λ _,
  native_room out (4 + Z.of_nat (length bytes)) ≫= λ _,
  Done (out ++ to_le 4 (usize_as_u32 (length bytes)) ++ bytes).

Section encoder.
Context `{FloatOps}.

Fixpoint encode_native_frame (frame : Frame) (depth : nat) (st : Bytes * Z) : Enc (Bytes * Z) :=
  let '(out, remaining_values) := st in
  if (128 <? depth) || (remaining_values =? 0)%Z then Err NestingOrValueLimit
  else
    let remaining_values := (remaining_values - 1)%Z in
    native_room out 9 ≫= λ _,
    let bytes (tag : Z) (value : Bytes) :=
      out ← write_native_bytes (out ++ [tag]) value; Done (out, remaining_values) in
    let values (tag : Z) (items : list Frame) :=
      out ← write_native_count (out ++ [tag]) (length items);
      each (λ value, encode_native_frame value (depth + 1)) items (out, remaining_values) in
    let pairs (tag : Z) (entries : list (Frame * Frame)) :=
      out ← write_native_count (out ++ [tag]) (length entries);
      each (λ '(key, value) st,
              st ← encode_native_frame key (depth + 1) st;
              encode_native_frame value (depth + 1) st) entries (out, remaining_values) in
    match frame with
    | SimpleString value => bytes 0%Z value
    | BlobString value => bytes 1%Z value
    | Integer value => Done (out ++ 2%Z :: to_le 8 (wrap_u64 value), remaining_values)
    | Array items => values 3%Z items
    | Set_ items => values 5%Z items
    | Push items => values 6%Z items
    | Map entries => pairs 4%Z entries
    | Null => Done (out ++ [7%Z], remaining_values)
    | Boolean value => Done (out ++ [8%Z; bool_as_i64 value], remaining_values)
    | Double value =>
        match f64_parse value with
        | Some v => Done (out ++ 9%Z :: to_le 8 v, remaining_values)
        | None => Err InvalidNativeDouble
        end
    | BigNumber value => bytes 10%Z value
    | VerbatimString format value =>
        out ← write_native_bytes (out ++ [11%Z]) format;
        out ← write_native_bytes out value;
        Done (out, remaining_values)
    | Attribute attributes data =>
        st ← pairs 12%Z attributes;
        encode_native_frame data (depth + 1) st
    | Error message => bytes 13%Z message
    end.

Definition encode_native_redis_frame (frame : Frame) : Enc Bytes :=
  '(body, _) ← encode_native_frame frame 0 ([], NATIVE_REDIS_MAX_VALUES);
  Done body.
End encoder.

(** ** The client's decoder *)

Inductive RedisResponse :=
  | ROk
  | RNull
  | RInteger (value : Z)
  | RValue (value : Bytes)
  | RArray (values : list RedisResponse)
  | RMap (entries : list (RedisResponse * RedisResponse))
  | RSet (values : list RedisResponse)
  | RPush (values : list RedisResponse)
  | RFloat (value : f64)
  | RBoolean (value : bool)
  | RError (message : Bytes)
  | RBigNumber (value : Bytes)
  | RVerbatim (format value : Bytes)
  | RAttribute (attributes : list (RedisResponse * RedisResponse)) (data : RedisResponse).

(** [NativeDecodeError], one constructor per message. *)
Inductive NativeDecodeError :=
  | DBodyLimit
  | DTrailing
  | DRootError (message : Bytes)
  | DValueBudget
  | DNesting
  | DBadBoolean (b : Z)
  | DBadTag (b : Z)
  | DTruncated (field : string)
  | DOverflow (field : string)
  | DCount (field : string).

Module Client.

Abbreviation Dec A := (Outcome NativeDecodeError A).

Definition take_native_byte (buf : Bytes) (cursor : nat) (field : string) : Dec (Z * nat) :=
  match buf !! cursor with
  | Some b => Done (b, cursor + 1)
  | None => Err (DTruncated field)
  end.

(** [buf.get(cursor..end)], where [end] is checked against overflow. *)
Definition take_native_range (buf : Bytes) (cursor : nat) (len : Z) (field : string)
    : Dec (Bytes * nat) :=
  e ← ok_or (usize_checked (Z.of_nat cursor + len)) (DOverflow field);
  if (Z.of_nat (length buf) <? e)%Z then Err (DTruncated field)
  else
    value ← ok_or (slice cursor (Z.to_nat e) buf) (DTruncated field);
    Done (value, Z.to_nat e).

Definition take_native_u32 (buf : Bytes) (cursor : nat) (field : string) : Dec (Z * nat) :=
  '(bytes, cursor) ← take_native_range buf cursor 4 field;
  Done (from_le bytes, cursor).

Definition take_native_i64 (buf : Bytes) (cursor : nat) (field : string) : Dec (Z * nat) :=
  '(bytes, cursor) ← take_native_range buf cursor 8 field;
  Done (wrap_i64 (from_le bytes), cursor).

Definition take_native_f64 (buf : Bytes) (cursor : nat) (field : string) : Dec (f64 * nat) :=
  '(bytes, cursor) ← take_native_range buf cursor 8 field;
  Done (from_le bytes, cursor).

Definition take_native_bytes (buf : Bytes) (cursor : nat) (field : string) : Dec (Bytes * nat) :=
  '(len, cursor) ← take_native_u32 buf cursor field;
  take_native_range buf cursor len field.

Definition take_native_count (buf : Bytes) (cursor : nat) (field : string)
    (values_per_entry trailing_values remaining_values : Z) : Dec (nat * nat) :=
  '(count, cursor) ← take_native_u32 buf cursor field;
  let minimum_values := Z.min u64_MAX (Z.min u64_MAX (count * values_per_entry) + trailing_values) in
  if (RESP_MAX_CONTAINER_ITEMS <? count)%Z
     || (Z.of_nat (length buf - cursor) <? minimum_values)%Z
     || (remaining_values <? minimum_values)%Z
  then Err (DCount field)
  else Done (Z.to_nat count, cursor).

Section loops.
(** [parse_native_value] one level down: cursor and remaining values. *)
Context (parse : nat → Z → Dec (RedisResponse * nat * Z)).

Fixpoint parse_values (count cursor : nat) (remaining : Z)
    : Dec (list RedisResponse * nat * Z) :=
  match count with
  | O => Done ([], cursor, remaining)
  | S count' =>
      '(value, cursor, remaining) ← parse cursor remaining;
      '(values, cursor, remaining) ← parse_values count' cursor remaining;
      Done (value :: values, cursor, remaining)
  end.

Fixpoint parse_entries (count cursor : nat) (remaining : Z)
    : Dec (list (RedisResponse * RedisResponse) * nat * Z) :=
  match count with
  | O => Done ([], cursor, remaining)
  | S count' =>
      '(key, cursor, remaining) ← parse cursor remaining;
      '(value, cursor, remaining) ← parse cursor remaining;
      '(entries, cursor, remaining) ← parse_entries count' cursor remaining;
      Done ((key, value) :: entries, cursor, remaining)
  end.
End loops.

Definition OK_TEXT : Bytes := [79; 75]%Z.

Fixpoint parse_native_value (fuel : nat) (buf : Bytes) (depth cursor : nat) (remaining : Z)
    : Dec (RedisResponse * nat * Z) :=
  match fuel with
  | O => Panic
  | S fuel' =>
      if (remaining <? 1)%Z then Err DValueBudget
      else
        let remaining := (remaining - 1)%Z in
        if NATIVE_REDIS_MAX_NESTING_DEPTH <? depth then Err DNesting
        else
          let child := parse_native_value fuel' buf (depth + 1) in
          '(tag, cursor) ← take_native_byte buf cursor "native Redis response tag";
          let bytes (build : Bytes → RedisResponse) field :=
            '(value, cursor) ← take_native_bytes buf cursor field;
            Done (build value, cursor, remaining) in
          let values (build : list RedisResponse → RedisResponse) field :=
            '(count, cursor) ← take_native_count buf cursor field 1 0 remaining;
            '(values, cursor, remaining) ← parse_values child count cursor remaining;
            Done (build values, cursor, remaining) in
          if (tag =? 0)%Z then
            bytes (λ v, if bytes_eqb v OK_TEXT then ROk else RValue v) "native simple string"
          else if (tag =? 1)%Z then bytes RValue "native blob string"
          else if (tag =? 2)%Z then
            '(v, cursor) ← take_native_i64 buf cursor "native integer";
            Done (RInteger v, cursor, remaining)
          else if (tag =? 3)%Z then values RArray "native array"
          else if (tag =? 4)%Z then
            '(count, cursor) ← take_native_count buf cursor "native map" 2 0 remaining;
            '(entries, cursor, remaining) ← parse_entries child count cursor remaining;
            Done (RMap entries, cursor, remaining)
          else if (tag =? 5)%Z then values RSet "native set"
          else if (tag =? 6)%Z then values RPush "native push"
          else if (tag =? 7)%Z then Done (RNull, cursor, remaining)
          else if (tag =? 8)%Z then
            '(b, cursor) ← take_native_byte buf cursor "native boolean";
            if (b =? 0)%Z then Done (RBoolean false, cursor, remaining)
            else if (b =? 1)%Z then Done (RBoolean true, cursor, remaining)
            else Err (DBadBoolean b)
          else if (tag =? 9)%Z then
            '(v, cursor) ← take_native_f64 buf cursor "native double";
            Done (RFloat v, cursor, remaining)
          else if (tag =? 10)%Z then bytes RBigNumber "native big number"
          else if (tag =? 11)%Z then
            '(format, cursor) ← take_native_bytes buf cursor "native verbatim format";
            '(value, cursor) ← take_native_bytes buf cursor "native verbatim value";
            Done (RVerbatim format value, cursor, remaining)
          else if (tag =? 12)%Z then
            '(count, cursor) ← take_native_count buf cursor "native attributes" 2 1 remaining;
            '(attributes, cursor, remaining) ← parse_entries child count cursor remaining;
            '(data, cursor, remaining) ← child cursor remaining;
            Done (RAttribute attributes data, cursor, remaining)
          else if (tag =? 13)%Z then bytes RError "native error"
          else Err (DBadTag tag)
  end.

Definition native_fuel : nat := NATIVE_REDIS_MAX_NESTING_DEPTH + 2.

(** [native::decode], the body of [RedisResponse::from_native_bytes]. *)
Definition decode (bytes : Bytes) : Dec RedisResponse :=
  if (NATIVE_REDIS_MAX_BODY_BYTES <? Z.of_nat (length bytes))%Z then Err DBodyLimit
  else
    '(response, cursor, _) ← parse_native_value native_fuel bytes 0 0 NATIVE_REDIS_MAX_VALUES;
    if negb (cursor =? length bytes) then Err DTrailing
    else match response with
         | RError message => Err (DRootError message)
         | response => Done response
         end.
End Client.

(** * Round trips of the native codec

    What the encoder writes and what budgets it consumes, and the decoder on
    such bytes. *)

Section native.
Context `{FloatOps}.

(** A length-prefixed byte string. *)
Definition lp (v : Bytes) : Bytes := to_le 4 (usize_as_u32 (length v)) ++ v.

(** The body of a frame. *)
Fixpoint nbytes (f : Frame) : Bytes :=
  match f with
  | SimpleString v => 0%Z :: lp v
  | BlobString v => 1%Z :: lp v
  | Integer v => 2%Z :: to_le 8 (wrap_u64 v)
  | Array l => 3%Z :: to_le 4 (usize_as_u32 (length l)) ++ concat (map nbytes l)
  | Map l => 4%Z :: to_le 4 (usize_as_u32 (length l)) ++
      concat (map (λ '(k, v), nbytes k ++ nbytes v) l)
  | Set_ l => 5%Z :: to_le 4 (usize_as_u32 (length l)) ++ concat (map nbytes l)
  | Push l => 6%Z :: to_le 4 (usize_as_u32 (length l)) ++ concat (map nbytes l)
  | Null => [7%Z]
  | Boolean v => [8%Z; bool_as_i64 v]
  | Double v => 9%Z :: to_le 8 (default 0%Z (f64_parse v))
  | BigNumber v => 10%Z :: lp v
  | VerbatimString s v => 11%Z :: lp s ++ lp v
  | Attribute l d => 12%Z :: to_le 4 (usize_as_u32 (length l)) ++
      concat (map (λ '(k, v), nbytes k ++ nbytes v) l) ++ nbytes d
  | Error m => 13%Z :: lp m
  end.

(** How many values a frame has. *)
Fixpoint nvalues (f : Frame) : Z :=
  match f with
  | Array l | Set_ l | Push l => 1 + sum_of nvalues l
  | Map l => 1 + sum_of (λ '(k, v), nvalues k + nvalues v) l
  | Attribute l d => 1 + sum_of (λ '(k, v), nvalues k + nvalues v) l + nvalues d
  | _ => 1
  end%Z.

(** The client's value for a frame: simple strings become values, [OK] is its
    own constructor, doubles are parsed. *)
Fixpoint response_of (f : Frame) : RedisResponse :=
  match f with
  | SimpleString v => if bytes_eqb v Client.OK_TEXT then ROk else RValue v
  | BlobString v => RValue v
  | Integer v => RInteger v
  | Array l => RArray (map response_of l)
  | Map l => RMap (map (λ '(k, v), (response_of k, response_of v)) l)
  | Set_ l => RSet (map response_of l)
  | Push l => RPush (map response_of l)
  | Null => RNull
  | Boolean v => RBoolean v
  | Double v => RFloat (default 0%Z (f64_parse v))
  | BigNumber v => RBigNumber v
  | VerbatimString s v => RVerbatim s v
  | Attribute l d => RAttribute (map (λ '(k, v), (response_of k, response_of v)) l) (response_of d)
  | Error m => RError m
  end.

(** What the encoder has checked of a frame it accepted. *)
Definition lp_ok (v : Bytes) : bool := (Z.of_nat (length v) <=? NATIVE_REDIS_MAX_BODY_BYTES)%Z.

Fixpoint native_ok (f : Frame) : bool :=
  match f with
  | SimpleString v | BlobString v | BigNumber v | Error v => lp_ok v
  | VerbatimString s v => lp_ok s && lp_ok v
  | Array l | Set_ l | Push l => small l && forallb native_ok l
  | Map l => small l && forallb (λ '(k, v), native_ok k && native_ok v) l
  | Attribute l d => small l && forallb (λ '(k, v), native_ok k && native_ok v) l && native_ok d
  | Double v => bool_decide (is_Some (f64_parse v))
  | Integer _ | Null | Boolean _ => true
  end.

(** The integers of a frame are [i64]s. *)
Fixpoint ints_typed (f : Frame) : bool :=
  match f with
  | Integer v => ((i64_MIN <=? v) && (v <=? i64_MAX))%Z
  | Array l | Set_ l | Push l => forallb ints_typed l
  | Map l => forallb (λ '(k, v), ints_typed k && ints_typed v) l
  | Attribute l d => forallb (λ '(k, v), ints_typed k && ints_typed v) l && ints_typed d
  | _ => true
  end.

Lemma nbytes_ne f : 1 ≤ length (nbytes f).
Proof. destruct f; simpl; lia. Qed.

Lemma nvalues_pos f : (1 ≤ nvalues f)%Z.
Proof.
  apply (frame_ind' (λ f, 1 ≤ nvalues f)%Z).
  - intros []; simpl; try done; lia.
  - intros l Hl. simpl. enough (0 ≤ sum_of nvalues l)%Z by lia. induction Hl; simpl; lia.
  - intros l Hl. simpl. enough (0 ≤ sum_of nvalues l)%Z by lia. induction Hl; simpl; lia.
  - intros l Hl. simpl. enough (0 ≤ sum_of nvalues l)%Z by lia. induction Hl; simpl; lia.
  - intros l Hl. simpl. enough (0 ≤ sum_of (λ '(k, v), nvalues k + nvalues v) l)%Z by lia.
    induction Hl as [|[k v] l [? ?] ? IH]; simpl in *; lia.
  - intros l d Hl ?. simpl. enough (0 ≤ sum_of (λ '(k, v), nvalues k + nvalues v) l)%Z by lia.
    induction Hl as [|[k v] l [? ?] ? IH]; simpl in *; lia.
Qed.

(** ** The encoder *)

(** A successful encoding step: the bytes written, the budget used, the limits
    respected. *)
Record encoded (st st' : Bytes * Z) (bytes : Bytes) (values : Z) : Prop := mkEncoded {
  enc_bytes : st'.1 = st.1 ++ bytes;
  enc_values : st'.2 = (st.2 - values)%Z;
  enc_budget : (0 ≤ st'.2)%Z;
  enc_size : (Z.of_nat (length st'.1) ≤ NATIVE_REDIS_MAX_BODY_BYTES)%Z;
}.

Lemma encoded_trans st1 st2 st3 b1 b2 v1 v2 :
  encoded st1 st2 b1 v1 → encoded st2 st3 b2 v2 → encoded st1 st3 (b1 ++ b2) (v1 + v2)%Z.
Proof.
  intros [E1 E2 _ _] [F1 F2 ? ?]. split; [|lia|done|done]. by rewrite F1, E1, <-app_assoc.
Qed.

Lemma native_room_Done out n u :
  native_room out n = Done u → (n ≤ Z.max 0 (NATIVE_REDIS_MAX_BODY_BYTES - Z.of_nat (length out)))%Z.
Proof. unfold native_room. case_match; [done|]. by bool_case. Qed.

Lemma write_native_bytes_Done out v out' :
  write_native_bytes out v = Done out' →
  out' = out ++ lp v ∧ lp_ok v = true ∧ (Z.of_nat (length out') ≤ NATIVE_REDIS_MAX_BODY_BYTES)%Z.
Proof.
  unfold write_native_bytes. intros (u & _ & H1)%bind_Done.
  apply bind_Done in H1 as ([] & Hr%native_room_Done & <-%Done_inj).
  split; [done|]. unfold lp_ok, NATIVE_REDIS_MAX_BODY_BYTES in *. split; [lia|].
  rewrite !length_app, (length_to_le 4). lia.
Qed.

Definition accepts (f : Frame) : Prop := ∀ d st st',
  (0 ≤ st.2)%Z → encode_native_frame f d st = Done st' →
  encoded st st' (nbytes f) (nvalues f) ∧ native_ok f = true ∧ d + fdepth f ≤ 128.

Lemma each_accepts l d st st' :
  Forall accepts l → (0 ≤ st.2)%Z → (Z.of_nat (length st.1) ≤ NATIVE_REDIS_MAX_BODY_BYTES)%Z →
  d ≤ 128 → each (λ f, encode_native_frame f (d + 1)) l st = Done st' →
  encoded st st' (concat (map nbytes l)) (sum_of nvalues l) ∧
  forallb native_ok l = true ∧ d + max_of (λ f, S (fdepth f)) l ≤ 128.
Proof.
  intros Hl. revert st. induction Hl as [|f l Hf _ IH]; intros st Hr Hsz Hd; cbn [each].
  { intros [= <-]. split_and!; [|done|simpl; lia]. split; try done; simpl; [by rewrite app_nil_r|lia]. }
  intros (st1 & H1 & H2)%bind_Done. apply Hf in H1 as (He & Hok & ?); [|done].
  apply IH in H2 as (He2 & Hok2 & ?); [|by destruct He..|done].
  split_and!; [by eapply encoded_trans|by cbn [forallb]; rewrite Hok, Hok2|simpl; lia].
Qed.

Lemma each_pairs_accept l d st st' :
  Forall (λ kv, accepts kv.1 ∧ accepts kv.2) l → (0 ≤ st.2)%Z →
  (Z.of_nat (length st.1) ≤ NATIVE_REDIS_MAX_BODY_BYTES)%Z → d ≤ 128 →
  each (λ '(k, v) st, st ← encode_native_frame k (d + 1) st; encode_native_frame v (d + 1) st)
    l st = Done st' →
  encoded st st' (concat (map (λ '(k, v), nbytes k ++ nbytes v) l))
    (sum_of (λ '(k, v), nvalues k + nvalues v)%Z l) ∧
  forallb (λ '(k, v), native_ok k && native_ok v) l = true ∧
  d + max_of (λ '(k, v), S (Nat.max (fdepth k) (fdepth v))) l ≤ 128.
Proof.
  intros Hl. revert st. induction Hl as [|[k v] l [Hk Hv] _ IH]; intros st Hr Hsz Hd; cbn [each].
  { intros [= <-]. split_and!; [|done|simpl; lia]. split; try done; simpl; [by rewrite app_nil_r|lia]. }
  intros (st2 & (st1 & H1 & H2)%bind_Done & H3)%bind_Done. simpl in Hk, Hv.
  apply Hk in H1 as (He & Hok & ?); [|done].
  apply Hv in H2 as (He2 & Hok2 & ?); [|by destruct He].
  apply IH in H3 as (He3 & Hok3 & ?); [|by destruct He2..|done].
  split_and!; [|by cbn [forallb]; rewrite Hok, Hok2, Hok3|simpl; lia].
  cbn [map concat sum_of foldr]. eapply encoded_trans; [by eapply encoded_trans|done].
Qed.

(** The guards every value passes, then the rest of its encoding. *)
Lemma accepts_intro f :
  (∀ d out rem st', (1 ≤ rem)%Z → d ≤ 128 →
     (Z.of_nat (length out) + 9 ≤ NATIVE_REDIS_MAX_BODY_BYTES)%Z →
     encode_native_frame f d (out, rem) = Done st' →
     encoded (out, rem) st' (nbytes f) (nvalues f) ∧ native_ok f = true ∧ d + fdepth f ≤ 128) →
  accepts f.
Proof.
  intros Hf d [out rem] st' Hr He. simpl in Hr.
  destruct ((128 <? d) || (rem =? 0)%Z) eqn:E.
  { exfalso. revert He. destruct f; cbn [encode_native_frame]; by rewrite E. }
  bool_case. destruct (native_room out 9) as [| | |u] eqn:Er;
    try (exfalso; revert He; destruct f; cbn [encode_native_frame];
         rewrite (proj2 (Nat.ltb_ge _ _)) by done; rewrite (proj2 (Z.eqb_neq _ _)) by done;
         cbn [orb]; by rewrite Er).
  apply native_room_Done in Er. unfold NATIVE_REDIS_MAX_BODY_BYTES in *.
  apply (Hf d out rem st'); [lia|done|lia|done].
Qed.

Ltac accept_start :=
  apply accepts_intro; intros d out rem st' Hrem Hd Hsz He; cbn [encode_native_frame] in He;
  rewrite (proj2 (Nat.ltb_ge _ _)) in He by done; rewrite (proj2 (Z.eqb_neq _ _)) in He by lia;
  cbn [orb] in He; apply bind_Done in He as ([] & _ & He).

(** A tag and a length-prefixed string. *)
Lemma accept_bytes out tag v rem st' :
  (1 ≤ rem)%Z →
  write_native_bytes (out ++ [tag]) v ≫= (λ out, Done (out, rem - 1)%Z) = Done st' →
  encoded (out, rem) st' (tag :: lp v) 1 ∧ lp_ok v = true.
Proof.
  intros Hr (o & Hw & <-%Done_inj)%bind_Done.
  apply write_native_bytes_Done in Hw as (-> & Hok & ?). split; [|done].
  split; simpl; [by rewrite <-app_assoc|done|lia|done].
Qed.

Lemma accept_leaf f :
  match f with Array _ | Map _ | Set_ _ | Push _ | Attribute _ _ => True | _ => accepts f end.
Proof.
  destruct f as [s|s|v|l|l|l|l| |v|s|s|s v|l dt|s]; try done; accept_start;
    cbn [fdepth]; rewrite ?Nat.add_0_r;
    try (apply accept_bytes in He as [? ?]; [done|done]);
    unfold NATIVE_REDIS_MAX_BODY_BYTES in *.
  - apply Done_inj in He as <-. split; [|done]. split; simpl; try done; [lia|].
    unfold NATIVE_REDIS_MAX_BODY_BYTES. rewrite length_app. cbn [length]. rewrite length_to_le. lia.
  - apply Done_inj in He as <-. split; [|done]. split; simpl; try done; [lia|].
    unfold NATIVE_REDIS_MAX_BODY_BYTES. rewrite length_app. simpl. lia.
  - apply Done_inj in He as <-. split; [|done]. split; simpl; try done; [lia|].
    unfold NATIVE_REDIS_MAX_BODY_BYTES. rewrite length_app. simpl. lia.
  - destruct (f64_parse s) as [x|] eqn:Ex; [|done]. apply Done_inj in He as <-.
    cbn [nbytes native_ok]. rewrite Ex. split; [|split; [by apply bool_decide_eq_true|done]].
    split; simpl; try done; [lia|].
    unfold NATIVE_REDIS_MAX_BODY_BYTES. rewrite length_app. cbn [length]. rewrite length_to_le. lia.
  - apply bind_Done in He as (o1 & Hw1 & (o2 & Hw2 & <-%Done_inj)%bind_Done).
    apply write_native_bytes_Done in Hw1 as (-> & Hok1 & ?).
    apply write_native_bytes_Done in Hw2 as (-> & Hok2 & ?).
    cbn [native_ok nbytes]. rewrite Hok1, Hok2. split; [|done]. split; simpl; try done; [|lia].
    by rewrite <-!app_assoc.
Qed.

(** A tag and a count. *)
Lemma write_count_Done out tag rem {A} (l : list A) o :
  (1 ≤ rem)%Z → (Z.of_nat (length out) + 9 ≤ NATIVE_REDIS_MAX_BODY_BYTES)%Z →
  write_native_count (out ++ [tag]) (length l) = Done o →
  encoded (out, rem) (o, rem - 1)%Z (tag :: to_le 4 (usize_as_u32 (length l))) 1 ∧ small l = true.
Proof.
  intros Hr Hsz. unfold write_native_count. case_match; [done|]. bool_case. intros <-%Done_inj.
  unfold small, RESP_MAX_CONTAINER_ITEMS. split; [|lia]. split; simpl; [by rewrite <-app_assoc|lia|lia|].
  unfold NATIVE_REDIS_MAX_BODY_BYTES in *. rewrite !length_app, length_to_le. simpl. lia.
Qed.

Lemma accept_values out tag rem d l st' :
  Forall accepts l → (1 ≤ rem)%Z → d ≤ 128 →
  (Z.of_nat (length out) + 9 ≤ NATIVE_REDIS_MAX_BODY_BYTES)%Z →
  write_native_count (out ++ [tag]) (length l) ≫= (λ out,
    each (λ value, encode_native_frame value (d + 1)) l (out, rem - 1)%Z) = Done st' →
  encoded (out, rem) st' (tag :: to_le 4 (usize_as_u32 (length l)) ++ concat (map nbytes l))
    (1 + sum_of nvalues l)%Z ∧
  small l && forallb native_ok l = true ∧ d + max_of (λ f, S (fdepth f)) l ≤ 128.
Proof.
  intros Hl Hr Hd Hsz (o & Hc & He)%bind_Done.
  apply (write_count_Done _ _ rem) in Hc as [Hc ->]; [|done..].
  apply each_accepts in He as (He & -> & ?); [|done|by destruct Hc..|done].
  split_and!; [|done..]. rewrite app_comm_cons. by eapply encoded_trans.
Qed.

Lemma accept_pairs out tag rem d l st' :
  Forall (λ kv, accepts kv.1 ∧ accepts kv.2) l → (1 ≤ rem)%Z → d ≤ 128 →
  (Z.of_nat (length out) + 9 ≤ NATIVE_REDIS_MAX_BODY_BYTES)%Z →
  write_native_count (out ++ [tag]) (length l) ≫= (λ out,
    each (λ '(key, value) st,
            st ← encode_native_frame key (d + 1) st; encode_native_frame value (d + 1) st)
      l (out, rem - 1)%Z) = Done st' →
  encoded (out, rem) st' (tag :: to_le 4 (usize_as_u32 (length l)) ++
      concat (map (λ '(k, v), nbytes k ++ nbytes v) l))
    (1 + sum_of (λ '(k, v), nvalues k + nvalues v) l)%Z ∧
  small l && forallb (λ '(k, v), native_ok k && native_ok v) l = true ∧
  d + max_of (λ '(k, v), S (Nat.max (fdepth k) (fdepth v))) l ≤ 128.
Proof.
  intros Hl Hr Hd Hsz (o & Hc & He)%bind_Done.
  apply (write_count_Done _ _ rem) in Hc as [Hc ->]; [|done..].
  apply each_pairs_accept in He as (He & -> & ?); [|done|by destruct Hc..|done].
  split_and!; [|done..]. rewrite app_comm_cons. by eapply encoded_trans.
Qed.

Lemma frame_accepts f : accepts f.
Proof.
  apply (frame_ind' accepts accept_leaf).
  - intros l Hl. accept_start. by apply accept_values in He.
  - intros l Hl. accept_start. by apply accept_values in He.
  - intros l Hl. accept_start. by apply accept_values in He.
  - intros l Hl. accept_start. by apply accept_pairs in He.
  - intros l f' Hl Hf. accept_start. apply bind_Done in He as (st & Hp & He).
    apply accept_pairs in Hp as (Hp & Hok & ?); [|done..].
    apply Hf in He as (He & Hok2 & ?); [|by destruct Hp].
    cbn [nbytes nvalues native_ok fdepth]. rewrite Hok, Hok2. split_and!; [|done|lia].
    rewrite app_assoc, app_comm_cons. by eapply encoded_trans.
Qed.

(** ** The decoder *)
Context (f64_parse_valid : ∀ s v, f64_parse s = Some v → f64_valid v).

Section reading.
Context (b : Bytes) (Hb : (Z.of_nat (length b) ≤ NATIVE_REDIS_MAX_BODY_BYTES)%Z).

Lemma take_range_ok cursor v post field :
  cursor ≤ length b → drop cursor b = v ++ post →
  Client.take_native_range b cursor (Z.of_nat (length v)) field = Done (v, cursor + length v).
Proof.
  intros Hc Hd. pose proof (f_equal length Hd) as Hl. rewrite length_drop, length_app in Hl.
  unfold NATIVE_REDIS_MAX_BODY_BYTES in Hb. unfold Client.take_native_range, usize_checked, u64_MAX.
  rewrite (proj2 (Z.leb_le _ _)) by lia. cbn [ok_or mbind outcome_bind].
  rewrite (proj2 (Z.ltb_ge _ _)) by lia.
  replace (Z.to_nat (Z.of_nat cursor + Z.of_nat (length v))) with (cursor + length v) by lia.
  rewrite slice_is_Some by lia. cbn [ok_or mbind outcome_bind].
  replace (cursor + length v - cursor) with (length v) by lia. by rewrite Hd, take_app_length.
Qed.

Lemma take_le_ok cursor n w z post field :
  w = Z.of_nat n → cursor ≤ length b → drop cursor b = to_le n z ++ post →
  Client.take_native_range b cursor w field = Done (to_le n z, cursor + n).
Proof.
  intros -> Hc Hd. pose proof (take_range_ok cursor (to_le n z) post field Hc Hd) as Ht.
  by rewrite length_to_le in Ht.
Qed.

Lemma take_u32_ok cursor n post field :
  cursor ≤ length b → (Z.of_nat n ≤ u32_MAX)%Z → drop cursor b = to_le 4 (usize_as_u32 n) ++ post →
  Client.take_native_u32 b cursor field = Done (Z.of_nat n, cursor + 4) ∧
  drop (cursor + 4) b = post ∧ cursor + 4 ≤ length b.
Proof.
  intros Hc Hn Hd. unfold Client.take_native_u32.
  rewrite (take_le_ok cursor 4 4 _ post field eq_refl Hc Hd). cbn [mbind outcome_bind].
  rewrite from_to_le_u32 by (rewrite usize_as_u32_id; lia).
  rewrite usize_as_u32_id by done. split; [done|].
  apply drop_app_at in Hd as Hd'. rewrite length_to_le in Hd'. split; [done|].
  pose proof (f_equal length Hd) as Hl. rewrite length_drop, length_app, length_to_le in Hl. lia.
Qed.

Lemma length_lp v : length (lp v) = 4 + length v.
Proof. unfold lp. by rewrite length_app, length_to_le. Qed.

Lemma lp_ok_u32 v : lp_ok v = true → (Z.of_nat (length v) ≤ u32_MAX)%Z.
Proof.
  unfold lp_ok. intros Hv%Z.leb_le. etrans; [exact Hv|].
  by apply Z.leb_le.
Qed.

Lemma take_bytes_ok cursor v post field :
  cursor ≤ length b → lp_ok v = true → drop cursor b = lp v ++ post →
  Client.take_native_bytes b cursor field = Done (v, cursor + length (lp v)) ∧
  drop (cursor + length (lp v)) b = post ∧ cursor + length (lp v) ≤ length b.
Proof.
  intros Hc Hv%lp_ok_u32 Hd. split_and!.
  - unfold Client.take_native_bytes. unfold lp in Hd. rewrite <-app_assoc in Hd.
    destruct (take_u32_ok cursor (length v) (v ++ post) field Hc Hv Hd) as (Hu & Hd' & Hc').
    rewrite Hu. cbn [mbind outcome_bind]. rewrite (take_range_ok (cursor + 4) v post field Hc' Hd').
    by rewrite length_lp, Nat.add_assoc.
  - by apply drop_app_at.
  - pose proof (f_equal length Hd) as Hl'. rewrite length_drop, length_app in Hl'. lia.
Qed.

Lemma take_count_ok {A} cursor (l : list A) body post field vpe trailing rem :
  cursor ≤ length b → small l = true → (1 ≤ vpe ≤ 2)%Z → (0 ≤ trailing ≤ 1)%Z →
  drop cursor b = to_le 4 (usize_as_u32 (length l)) ++ body ++ post →
  (Z.of_nat (length l) * vpe + trailing ≤ Z.of_nat (length body))%Z →
  (Z.of_nat (length l) * vpe + trailing ≤ rem)%Z →
  Client.take_native_count b cursor field vpe trailing rem = Done (length l, cursor + 4) ∧
  drop (cursor + 4) b = body ++ post ∧ cursor + 4 ≤ length b.
Proof.
  intros Hc Hs Hv Ht Hd Hbody Hrem. unfold small, RESP_MAX_CONTAINER_ITEMS in Hs. bool_case.
  destruct (take_u32_ok cursor (length l) (body ++ post) field Hc) as (Hu & Hd' & ?);
    [unfold u32_MAX; lia|done|].
  split_and!; [|done..]. unfold Client.take_native_count. rewrite Hu. cbn [mbind outcome_bind].
  pose proof (f_equal length Hd') as Hl. rewrite length_drop, length_app in Hl.
  assert (vpe = 1 ∨ vpe = 2)%Z as Hv2 by lia.
  unfold RESP_MAX_CONTAINER_ITEMS, u64_MAX.
  rewrite !(proj2 (Z.ltb_ge _ _)) by (destruct Hv2; subst; lia). cbn [orb].
  by rewrite Nat2Z.id.
Qed.
End reading.

Definition decodes (f : Frame) : Prop := ∀ fuel b d cursor rem post,
  native_ok f = true → ints_typed f = true →
  (Z.of_nat (length b) ≤ NATIVE_REDIS_MAX_BODY_BYTES)%Z →
  drop cursor b = nbytes f ++ post → d + fdepth f ≤ 128 → (nvalues f ≤ rem)%Z →
  130 ≤ fuel + d →
  Client.parse_native_value fuel b d cursor rem =
  Done (response_of f, cursor + length (nbytes f), (rem - nvalues f)%Z).

Lemma wrap_i64_u64 v : is_i64 v → wrap_i64 (wrap_u64 v) = v.
Proof.
  intros Hv. unfold wrap_i64 at 1. replace (wrap_u64 (wrap_u64 v)) with (wrap_u64 v).
  - by apply wrap_i64_id.
  - unfold wrap_u64. by rewrite Z.mod_mod.
Qed.

Ltac decode_start :=
  intros fuel b d cursor rem post Hok Ht Hb Hd Hdep Hrem Hfuel;
  destruct fuel as [|fuel]; [lia|]; cbn [Client.parse_native_value];
  rewrite (proj2 (Z.ltb_ge _ _)) by
    (match type of Hrem with (nvalues ?f <= _)%Z => pose proof (nvalues_pos f) end; lia);
  rewrite (proj2 (Nat.ltb_ge _ _)) by (unfold NATIVE_REDIS_MAX_NESTING_DEPTH; lia);
  cbn [nbytes] in Hd;
  match type of Hd with drop _ _ = (?x :: ?t) ++ _ =>
    change (drop cursor b = x :: t ++ post) in Hd;
    let Hx := fresh "Hx" in let Hs := fresh "Hs" in
    destruct (drop_cons _ _ _ _ Hd) as (Hx & ? & Hs & ?);
    assert (Client.take_native_byte b cursor "native Redis response tag" = Done (x, cursor + 1))
      as -> by (unfold Client.take_native_byte; by rewrite Hx);
    cbn [mbind outcome_bind Z.eqb Pos.eqb];
    rewrite slice_from_Some in Hs by lia; apply (inj Some) in Hs as Hd'
  end.

Lemma decode_leaf f :
  match f with Array _ | Map _ | Set_ _ | Push _ | Attribute _ _ => True | _ => decodes f end.
Proof.
  destruct f as [s|s|v|l|l|l|l| |v|s|s|s v|l dt|s]; try done; decode_start;
    cbn [native_ok ints_typed] in Hok, Ht;
    try (destruct (take_bytes_ok b Hb (cursor + 1) s post "" ltac:(lia) Hok Hd') as (Hr & _);
         cbn [nbytes nvalues response_of length];
         match goal with |- context [Client.take_native_bytes _ _ ?field] =>
           destruct (take_bytes_ok b Hb (cursor + 1) s post field ltac:(lia) Hok Hd') as (-> & _) end;
         cbn [mbind outcome_bind]; do 3 f_equal; lia).
  - unfold Client.take_native_i64. rewrite (take_le_ok b Hb _ 8 8 (wrap_u64 v) post) by (done || lia).
    cbn [mbind outcome_bind nbytes nvalues response_of length]. rewrite length_to_le.
    bool_case. rewrite from_to_le_u64.
    + rewrite wrap_i64_u64 by done. do 3 f_equal; lia.
    + unfold is_u64, wrap_u64, u64_MAX. pose proof (Z.mod_pos_bound v two64 ltac:(done)).
      unfold two64 in *. lia.
  - do 3 f_equal. 
  - unfold Client.take_native_byte. replace (b !! (cursor + 1)) with (Some (bool_as_i64 v)).
    + cbn [mbind outcome_bind]. destruct v; cbn; do 3 f_equal; lia.
    + symmetry. replace (cursor + 1) with (cursor + 1 + 0) by lia. by rewrite <-lookup_drop, Hd'.
  - bool_case. destruct Hok as [x Hx']. unfold Client.take_native_f64. cbn [nbytes response_of] in *.
    rewrite Hx' in *. cbn [default] in *.
    rewrite (take_le_ok b Hb _ 8 8 x post) by (done || lia).
    cbn [mbind outcome_bind nvalues length]. rewrite length_to_le. apply f64_parse_valid in Hx'.
    rewrite from_to_le_u64; [do 3 f_equal; lia|]. unfold f64_valid, two64, is_u64, u64_MAX in *. lia.
  - bool_case. rewrite <-app_assoc in Hd'.
    destruct (take_bytes_ok b Hb (cursor + 1) s (lp v ++ post) "native verbatim format"
      ltac:(lia) ltac:(done) Hd') as (-> & Hd2 & ?). cbn [mbind outcome_bind].
    destruct (take_bytes_ok b Hb _ v post "native verbatim value" ltac:(done) ltac:(done) Hd2)
      as (-> & _). cbn [mbind outcome_bind nbytes nvalues response_of length].
    rewrite length_app. do 3 f_equal; lia.
Qed.

(** Equality of a value, a cursor and a budget. *)
Ltac result_eq :=
  f_equal; apply f_equal2; [apply f_equal2; [done|lia]|simpl; lia].

Section loops.
Context (fuel d : nat) (b : Bytes) (Hfuel : 130 ≤ fuel + (d + 1)).
Context (Hb : (Z.of_nat (length b) ≤ NATIVE_REDIS_MAX_BODY_BYTES)%Z).

Lemma values_decode l cursor rem post :
  Forall decodes l → forallb native_ok l = true → forallb ints_typed l = true →
  drop cursor b = concat (map nbytes l) ++ post →
  d + max_of (λ f, S (fdepth f)) l ≤ 128 → (sum_of nvalues l ≤ rem)%Z →
  Client.parse_values (Client.parse_native_value fuel b (d + 1)) (length l) cursor rem =
  Done (map response_of l, cursor + length (concat (map nbytes l)), (rem - sum_of nvalues l)%Z).
Proof.
  intros Hl. revert cursor rem. induction Hl as [|f l Hf _ IH]; intros cursor rem Hok Ht Hd Hdep Hrem.
  { cbn. rewrite Nat.add_0_r. result_eq. }
  cbn [forallb] in Hok, Ht. bool_case. cbn [map concat] in Hd. rewrite <-app_assoc in Hd.
  cbn [sum_of max_of foldr] in Hrem, Hdep. fold (sum_of nvalues l) in Hrem.
  fold (max_of (λ f, S (fdepth f)) l) in Hdep.
  assert (0 ≤ sum_of nvalues l)%Z as Hnn.
  { clear. induction l as [|f l IH]; simpl; [lia|]. pose proof (nvalues_pos f). lia. }
  cbn [length Client.parse_values].
  rewrite (Hf fuel b (d + 1) cursor rem _ ltac:(done) ltac:(done) Hb Hd) by lia.
  cbn [mbind outcome_bind]. apply drop_app_at in Hd.
  rewrite (IH (cursor + length (nbytes f)) (rem - nvalues f)%Z) by (done || lia).
  cbn [mbind outcome_bind map concat]. rewrite length_app. result_eq.
Qed.

Lemma entries_decode l cursor rem post :
  Forall (λ kv, decodes kv.1 ∧ decodes kv.2) l →
  forallb (λ '(k, v), native_ok k && native_ok v) l = true →
  forallb (λ '(k, v), ints_typed k && ints_typed v) l = true →
  drop cursor b = concat (map (λ '(k, v), nbytes k ++ nbytes v) l) ++ post →
  d + max_of (λ '(k, v), S (Nat.max (fdepth k) (fdepth v))) l ≤ 128 →
  (sum_of (λ '(k, v), nvalues k + nvalues v) l ≤ rem)%Z →
  Client.parse_entries (Client.parse_native_value fuel b (d + 1)) (length l) cursor rem =
  Done (map (λ '(k, v), (response_of k, response_of v)) l,
        cursor + length (concat (map (λ '(k, v), nbytes k ++ nbytes v) l)),
        (rem - sum_of (λ '(k, v), nvalues k + nvalues v) l)%Z).
Proof.
  intros Hl. revert cursor rem.
  induction Hl as [|[k v] l [Hk Hv] _ IH]; intros cursor rem Hok Ht Hd Hdep Hrem.
  { cbn. rewrite Nat.add_0_r. result_eq. }
  cbn [forallb] in Hok, Ht. bool_case. cbn [map concat] in Hd. rewrite <-!app_assoc in Hd.
  set (vs := λ '(k, v), (nvalues k + nvalues v)%Z) in *.
  change (sum_of vs ((k, v) :: l)) with (nvalues k + nvalues v + sum_of vs l)%Z in *.
  change (max_of (λ '(k, v), S (Nat.max (fdepth k) (fdepth v))) ((k, v) :: l)) with
    (Nat.max (S (Nat.max (fdepth k) (fdepth v)))
      (max_of (λ '(k, v), S (Nat.max (fdepth k) (fdepth v))) l)) in Hdep.
  assert (0 ≤ sum_of vs l)%Z as Hnn.
  { clear. induction l as [|[k v] l IH]; [done|].
    change (sum_of vs ((k, v) :: l)) with (nvalues k + nvalues v + sum_of vs l)%Z.
    pose proof (nvalues_pos k). pose proof (nvalues_pos v). lia. }
  pose proof (nvalues_pos k). pose proof (nvalues_pos v).
  cbn [length Client.parse_entries]. simpl in Hk, Hv.
  rewrite (Hk fuel b (d + 1) cursor rem _ ltac:(done) ltac:(done) Hb Hd) by lia.
  cbn [mbind outcome_bind]. apply drop_app_at in Hd.
  rewrite (Hv fuel b (d + 1) _ (rem - nvalues k)%Z _ ltac:(done) ltac:(done) Hb Hd) by lia.
  cbn [mbind outcome_bind]. apply drop_app_at in Hd.
  rewrite (IH _ (rem - nvalues k - nvalues v)%Z) by (done || lia).
  cbn [mbind outcome_bind map concat]. rewrite !length_app. result_eq.
Qed.
End loops.

(** A container's values and bytes are at least as many as its items. *)
Lemma sum_values_ge {A} (g : A → Z) n (l : list A) :
  (∀ x, n ≤ g x)%Z → (Z.of_nat (length l) * n ≤ sum_of g l)%Z.
Proof.
  intros Hg. induction l as [|x l IH]; cbn [length sum_of foldr]; [lia|].
  fold (sum_of g l). specialize (Hg x). lia.
Qed.

Lemma pair_values_ge (kv : Frame * Frame) : (2 ≤ let '(k, v) := kv in nvalues k + nvalues v)%Z.
Proof. destruct kv as [k v]. pose proof (nvalues_pos k). pose proof (nvalues_pos v). lia. Qed.

Lemma pair_bytes_ge (kv : Frame * Frame) : 2 ≤ length (let '(k, v) := kv in nbytes k ++ nbytes v).
Proof.
  destruct kv as [k v]. rewrite length_app. pose proof (nbytes_ne k). pose proof (nbytes_ne v). lia.
Qed.

Lemma decode_values f l :
  match f with Array l' | Set_ l' | Push l' => l' = l | _ => False end →
  Forall decodes l → decodes f.
Proof.
  destruct f; try done; intros -> Hl;
  decode_start; cbn [native_ok ints_typed fdepth nvalues] in Hok, Ht, Hdep, Hrem; bool_case;
  rewrite <-app_assoc in Hd';
  pose proof (concat_all_length_ge nbytes 1 l nbytes_ne);
  pose proof (sum_values_ge nvalues 1 l nvalues_pos);
  match goal with |- context [Client.take_native_count _ _ ?field] =>
    destruct (take_count_ok b ltac:(done) (cursor + 1) l (concat (map nbytes l)) post field 1 0
      (rem - 1)%Z ltac:(lia) ltac:(done) ltac:(lia) ltac:(lia) Hd' ltac:(lia) ltac:(lia))
      as (-> & Hd2 & ?) end;
  cbn [mbind outcome_bind];
  rewrite (values_decode _ d b) with (post := post) by (done || lia);
  cbn [mbind outcome_bind nbytes nvalues response_of length];
  rewrite length_app, length_to_le; result_eq.
Qed.

Lemma decode_map l : Forall (λ kv, decodes kv.1 ∧ decodes kv.2) l → decodes (Map l).
Proof.
  intros Hl. decode_start. cbn [native_ok ints_typed fdepth nvalues] in Hok, Ht, Hdep, Hrem. bool_case.
  rewrite <-app_assoc in Hd'.
  pose proof (concat_all_length_ge _ 2 l pair_bytes_ge). pose proof (sum_values_ge _ 2 l pair_values_ge).
  destruct (take_count_ok b ltac:(done) (cursor + 1) l _ post "native map" 2 0
    (rem - 1)%Z ltac:(lia) ltac:(done) ltac:(lia) ltac:(lia) Hd' ltac:(lia) ltac:(lia))
    as (-> & Hd2 & ?).
  cbn [mbind outcome_bind]. rewrite (entries_decode _ d b) with (post := post) by (done || lia).
  cbn [mbind outcome_bind nbytes nvalues response_of length].
  rewrite length_app, length_to_le. result_eq.
Qed.

Lemma decode_attribute l f :
  Forall (λ kv, decodes kv.1 ∧ decodes kv.2) l → decodes f → decodes (Attribute l f).
Proof.
  intros Hl Hf. decode_start. cbn [native_ok ints_typed fdepth nvalues] in Hok, Ht, Hdep, Hrem.
  bool_case. rewrite <-!app_assoc in Hd'. set (body := concat _) in *.
  pose proof (concat_all_length_ge _ 2 l pair_bytes_ge). pose proof (sum_values_ge _ 2 l pair_values_ge).
  pose proof (nvalues_pos f). pose proof (nbytes_ne f).
  assert (Z.of_nat (length l) * 2 + 1 ≤ Z.of_nat (length (body ++ nbytes f)))%Z as Hmin
    by (rewrite length_app; unfold body; lia).
  rewrite (app_assoc body) in Hd'.
  destruct (take_count_ok b ltac:(done) (cursor + 1) l (body ++ nbytes f) post "native attributes"
    2 1 (rem - 1)%Z ltac:(lia) ltac:(done) ltac:(lia) ltac:(lia) Hd' Hmin ltac:(lia)) as (-> & Hd2 & ?).
  rewrite <-app_assoc in Hd2.
  cbn [mbind outcome_bind]. rewrite (entries_decode _ d b) with (post := nbytes f ++ post) by (done || lia).
  cbn [mbind outcome_bind]. fold body. apply drop_app_at in Hd2.
  rewrite (Hf _ b (d + 1) _ _ post ltac:(done) ltac:(done) Hb Hd2) by lia.
  cbn [mbind outcome_bind nbytes nvalues response_of length]. fold body.
  rewrite !length_app, length_to_le. result_eq.
Qed.

Lemma frame_decodes f : decodes f.
Proof.
  apply (frame_ind' decodes decode_leaf).
  - intros l. by apply (decode_values (Array l)).
  - intros l. by apply (decode_values (Set_ l)).
  - intros l. by apply (decode_values (Push l)).
  - exact decode_map.
  - exact decode_attribute.
Qed.

(** What the client returns for a frame the server encoded. *)
Definition client_result (f : Frame) : Outcome NativeDecodeError RedisResponse :=
  match response_of f with RError m => Err (DRootError m) | r => Done r end.

Lemma native_decode_encode f body :
  ints_typed f = true → encode_native_redis_frame f = Done body →
  Client.decode body = client_result f.
Proof.
  intros Ht. unfold encode_native_redis_frame. intros ([o rem] & He & <-%Done_inj)%bind_Done.
  apply frame_accepts in He as ([E1 E2 E3 E4] & Hok & Hdep); [|done].
  simpl in E1, E2, E3, E4. subst o. unfold Client.decode.
  rewrite (proj2 (Z.ltb_ge _ _)) by done.
  rewrite (frame_decodes f _ (nbytes f) 0 0 _ [] Hok Ht E4); [|by rewrite app_nil_r|lia|lia|].
  - cbn [mbind outcome_bind]. rewrite Nat.eqb_refl. cbn [negb]. unfold client_result. by destruct (response_of f).
  - unfold Client.native_fuel, NATIVE_REDIS_MAX_NESTING_DEPTH. lia.
Qed.
End native.
