(* ===== verification/FastKinds.v ===== *)
(** * Command kinds of the fast protocol: [FastCommandKind]

    The enumeration, opcodes and names of [protocol/fast.rs]: constructor [KGet]
    is [FastCommandKind::Get].  The name table and the two match functions are
    separate tables in the source, and are separate here; [from_opcode_opcode],
    [redis_name_table] and [from_redis_name_name] show that they agree. *)

From S2P Require Import Prelude Helpers Codec Resp.

(** A string literal as bytes. *)
Definition text (s : string) : Bytes :=
  map (λ a, Z.of_nat (Ascii.nat_of_ascii a)) (String.list_ascii_of_string s).

Inductive FastCommandKind :=
  | KGet | KSet | KSetEx | KGetEx | KDelete | KExists | KTtl | KExpire | KPing | KMGet | KMSet
  | KAppend | KBitCount | KBitField | KBitOp | KBitPos | KDecr | KDecrBy | KGetBit | KGetDel
  | KGetRange | KGetSet | KIncr | KIncrBy | KIncrByFloat | KMSetNx | KPSetEx | KSetBit | KSetNx
  | KSetRange | KStrLen | KAuth | KHello | KSelect | KQuit | KEcho | KInfo | KCommand
  | KCommandDocs | KConfigGet | KDbSize | KTime | KClientGetName | KClientSetName | KClientId
  | KClientList | KClientKill | KConfig | KClient | KFlushAll | KFlushDb | KHSet | KHGet
  | KHDel | KHLen | KHMGet | KHExists | KHGetAll | KHIncrBy | KHIncrByFloat | KHKeys | KHMSet
  | KHRandField | KHScan | KHSetNx | KHStrLen | KHVals | KLPush | KRPush | KLPop | KRPop
  | KLLen | KLIndex | KLRange | KBLMove | KBLMPop | KBLPop | KBRPop | KLInsert | KLMove
  | KLMPop | KLPushX | KLRem | KLSet | KLTrim | KRPopLPush | KRPushX | KBRPopLPush | KSAdd
  | KSRem | KSIsMember | KSCard | KSMembers | KSDiff | KSDiffStore | KSInter | KSInterStore
  | KSMIsMember | KSMove | KSPop | KSRandMember | KSScan | KSUnion | KSUnionStore | KZAdd
  | KZRem | KZScore | KZCard | KZRange | KCopy | KDump | KExpireAt | KExpireTime | KKeys
  | KMemory | KObject | KPersist | KPExpire | KPExpireAt | KPExpireTime | KPTtl | KRandomKey
  | KRename | KRenameNx | KRestore | KScan | KTouch | KType | KUnlink | KMulti | KExec
  | KDiscard | KWatch | KUnwatch | KRestoreAsking | KSubstr | KRespCommand | KBZMPop
  | KBZPopMax | KBZPopMin | KZCount | KZDiff | KZDiffStore | KZIncrBy | KZInter | KZInterCard
  | KZInterStore | KZLexCount | KZMPop | KZMScore | KZPopMax | KZPopMin | KZRandMember
  | KZRangeByLex | KZRangeByScore | KZRangeStore | KZRank | KZRemRangeByLex | KZRemRangeByRank
  | KZRemRangeByScore | KZRevRange | KZRevRangeByLex | KZRevRangeByScore | KZRevRank | KZScan
  | KZUnion | KZUnionStore | KVAdd | KVCard | KVDim | KVEmb | KVGetAttr | KVInfo | KVIsMember
  | KVLinks | KVRandMember | KVRange | KVRem | KVSetAttr | KVSim | KNativeRedisCommand.

(** [kind as u8]. *)
Definition opcode (kind : FastCommandKind) : Z :=
  match kind with
  | KGet => 1 | KSet => 2 | KSetEx => 3 | KGetEx => 4 | KDelete => 5 | KExists => 6 | KTtl => 7
  | KExpire => 8 | KPing => 9 | KMGet => 10 | KMSet => 11 | KAppend => 80 | KBitCount => 81
  | KBitField => 82 | KBitOp => 83 | KBitPos => 84 | KDecr => 85 | KDecrBy => 86
  | KGetBit => 87 | KGetDel => 88 | KGetRange => 89 | KGetSet => 90 | KIncr => 91
  | KIncrBy => 92 | KIncrByFloat => 93 | KMSetNx => 94 | KPSetEx => 95 | KSetBit => 96
  | KSetNx => 97 | KSetRange => 98 | KStrLen => 99 | KAuth => 60 | KHello => 61 | KSelect => 62
  | KQuit => 63 | KEcho => 64 | KInfo => 65 | KCommand => 66 | KCommandDocs => 67
  | KConfigGet => 68 | KDbSize => 69 | KTime => 70 | KClientGetName => 71
  | KClientSetName => 72 | KClientId => 73 | KClientList => 74 | KClientKill => 75
  | KConfig => 76 | KClient => 77 | KFlushAll => 78 | KFlushDb => 79 | KHSet => 20
  | KHGet => 21 | KHDel => 22 | KHLen => 23 | KHMGet => 24 | KHExists => 140 | KHGetAll => 141
  | KHIncrBy => 142 | KHIncrByFloat => 143 | KHKeys => 144 | KHMSet => 145 | KHRandField => 146
  | KHScan => 147 | KHSetNx => 148 | KHStrLen => 149 | KHVals => 150 | KLPush => 30
  | KRPush => 31 | KLPop => 32 | KRPop => 33 | KLLen => 34 | KLIndex => 35 | KLRange => 36
  | KBLMove => 160 | KBLMPop => 161 | KBLPop => 162 | KBRPop => 163 | KLInsert => 164
  | KLMove => 165 | KLMPop => 166 | KLPushX => 167 | KLRem => 168 | KLSet => 169
  | KLTrim => 170 | KRPopLPush => 171 | KRPushX => 172 | KBRPopLPush => 173 | KSAdd => 40
  | KSRem => 41 | KSIsMember => 42 | KSCard => 43 | KSMembers => 44 | KSDiff => 180
  | KSDiffStore => 181 | KSInter => 182 | KSInterStore => 183 | KSMIsMember => 184
  | KSMove => 185 | KSPop => 186 | KSRandMember => 187 | KSScan => 188 | KSUnion => 189
  | KSUnionStore => 190 | KZAdd => 50 | KZRem => 51 | KZScore => 52 | KZCard => 53
  | KZRange => 54 | KCopy => 100 | KDump => 101 | KExpireAt => 102 | KExpireTime => 103
  | KKeys => 104 | KMemory => 105 | KObject => 106 | KPersist => 107 | KPExpire => 108
  | KPExpireAt => 109 | KPExpireTime => 110 | KPTtl => 111 | KRandomKey => 112 | KRename => 113
  | KRenameNx => 114 | KRestore => 115 | KScan => 116 | KTouch => 117 | KType => 118
  | KUnlink => 119 | KMulti => 120 | KExec => 121 | KDiscard => 122 | KWatch => 123
  | KUnwatch => 124 | KRestoreAsking => 125 | KSubstr => 126 | KRespCommand => 200
  | KBZMPop => 201 | KBZPopMax => 202 | KBZPopMin => 203 | KZCount => 204 | KZDiff => 205
  | KZDiffStore => 206 | KZIncrBy => 207 | KZInter => 208 | KZInterCard => 209
  | KZInterStore => 210 | KZLexCount => 211 | KZMPop => 212 | KZMScore => 213 | KZPopMax => 214
  | KZPopMin => 215 | KZRandMember => 216 | KZRangeByLex => 217 | KZRangeByScore => 218
  | KZRangeStore => 219 | KZRank => 220 | KZRemRangeByLex => 221 | KZRemRangeByRank => 222
  | KZRemRangeByScore => 223 | KZRevRange => 224 | KZRevRangeByLex => 225
  | KZRevRangeByScore => 226 | KZRevRank => 227 | KZScan => 228 | KZUnion => 229
  | KZUnionStore => 230 | KVAdd => 231 | KVCard => 232 | KVDim => 233 | KVEmb => 234
  | KVGetAttr => 235 | KVInfo => 236 | KVIsMember => 237 | KVLinks => 238 | KVRandMember => 239
  | KVRange => 240 | KVRem => 241 | KVSetAttr => 242 | KVSim => 243 | KNativeRedisCommand => 244
  end%Z.

Definition from_opcode (value : Z) : option FastCommandKind :=
  match value with
  | 1%Z => Some KGet | 2%Z => Some KSet | 3%Z => Some KSetEx | 4%Z => Some KGetEx
  | 5%Z => Some KDelete | 6%Z => Some KExists | 7%Z => Some KTtl | 8%Z => Some KExpire
  | 9%Z => Some KPing | 10%Z => Some KMGet | 11%Z => Some KMSet | 20%Z => Some KHSet
  | 21%Z => Some KHGet | 22%Z => Some KHDel | 23%Z => Some KHLen | 24%Z => Some KHMGet
  | 30%Z => Some KLPush | 31%Z => Some KRPush | 32%Z => Some KLPop | 33%Z => Some KRPop
  | 34%Z => Some KLLen | 35%Z => Some KLIndex | 36%Z => Some KLRange | 40%Z => Some KSAdd
  | 41%Z => Some KSRem | 42%Z => Some KSIsMember | 43%Z => Some KSCard | 44%Z => Some KSMembers
  | 50%Z => Some KZAdd | 51%Z => Some KZRem | 52%Z => Some KZScore | 53%Z => Some KZCard
  | 54%Z => Some KZRange | 60%Z => Some KAuth | 61%Z => Some KHello | 62%Z => Some KSelect
  | 63%Z => Some KQuit | 64%Z => Some KEcho | 65%Z => Some KInfo | 66%Z => Some KCommand
  | 67%Z => Some KCommandDocs | 68%Z => Some KConfigGet | 69%Z => Some KDbSize
  | 70%Z => Some KTime | 71%Z => Some KClientGetName | 72%Z => Some KClientSetName
  | 73%Z => Some KClientId | 74%Z => Some KClientList | 75%Z => Some KClientKill
  | 76%Z => Some KConfig | 77%Z => Some KClient | 78%Z => Some KFlushAll
  | 79%Z => Some KFlushDb | 80%Z => Some KAppend | 81%Z => Some KBitCount
  | 82%Z => Some KBitField | 83%Z => Some KBitOp | 84%Z => Some KBitPos | 85%Z => Some KDecr
  | 86%Z => Some KDecrBy | 87%Z => Some KGetBit | 88%Z => Some KGetDel | 89%Z => Some KGetRange
  | 90%Z => Some KGetSet | 91%Z => Some KIncr | 92%Z => Some KIncrBy
  | 93%Z => Some KIncrByFloat | 94%Z => Some KMSetNx | 95%Z => Some KPSetEx
  | 96%Z => Some KSetBit | 97%Z => Some KSetNx | 98%Z => Some KSetRange | 99%Z => Some KStrLen
  | 100%Z => Some KCopy | 101%Z => Some KDump | 102%Z => Some KExpireAt
  | 103%Z => Some KExpireTime | 104%Z => Some KKeys | 105%Z => Some KMemory
  | 106%Z => Some KObject | 107%Z => Some KPersist | 108%Z => Some KPExpire
  | 109%Z => Some KPExpireAt | 110%Z => Some KPExpireTime | 111%Z => Some KPTtl
  | 112%Z => Some KRandomKey | 113%Z => Some KRename | 114%Z => Some KRenameNx
  | 115%Z => Some KRestore | 116%Z => Some KScan | 117%Z => Some KTouch | 118%Z => Some KType
  | 119%Z => Some KUnlink | 120%Z => Some KMulti | 121%Z => Some KExec | 122%Z => Some KDiscard
  | 123%Z => Some KWatch | 124%Z => Some KUnwatch | 125%Z => Some KRestoreAsking
  | 126%Z => Some KSubstr | 140%Z => Some KHExists | 141%Z => Some KHGetAll
  | 142%Z => Some KHIncrBy | 143%Z => Some KHIncrByFloat | 144%Z => Some KHKeys
  | 145%Z => Some KHMSet | 146%Z => Some KHRandField | 147%Z => Some KHScan
  | 148%Z => Some KHSetNx | 149%Z => Some KHStrLen | 150%Z => Some KHVals
  | 160%Z => Some KBLMove | 161%Z => Some KBLMPop | 162%Z => Some KBLPop | 163%Z => Some KBRPop
  | 164%Z => Some KLInsert | 165%Z => Some KLMove | 166%Z => Some KLMPop
  | 167%Z => Some KLPushX | 168%Z => Some KLRem | 169%Z => Some KLSet | 170%Z => Some KLTrim
  | 171%Z => Some KRPopLPush | 172%Z => Some KRPushX | 173%Z => Some KBRPopLPush
  | 180%Z => Some KSDiff | 181%Z => Some KSDiffStore | 182%Z => Some KSInter
  | 183%Z => Some KSInterStore | 184%Z => Some KSMIsMember | 185%Z => Some KSMove
  | 186%Z => Some KSPop | 187%Z => Some KSRandMember | 188%Z => Some KSScan
  | 189%Z => Some KSUnion | 190%Z => Some KSUnionStore | 200%Z => Some KRespCommand
  | 201%Z => Some KBZMPop | 202%Z => Some KBZPopMax | 203%Z => Some KBZPopMin
  | 204%Z => Some KZCount | 205%Z => Some KZDiff | 206%Z => Some KZDiffStore
  | 207%Z => Some KZIncrBy | 208%Z => Some KZInter | 209%Z => Some KZInterCard
  | 210%Z => Some KZInterStore | 211%Z => Some KZLexCount | 212%Z => Some KZMPop
  | 213%Z => Some KZMScore | 214%Z => Some KZPopMax | 215%Z => Some KZPopMin
  | 216%Z => Some KZRandMember | 217%Z => Some KZRangeByLex | 218%Z => Some KZRangeByScore
  | 219%Z => Some KZRangeStore | 220%Z => Some KZRank | 221%Z => Some KZRemRangeByLex
  | 222%Z => Some KZRemRangeByRank | 223%Z => Some KZRemRangeByScore | 224%Z => Some KZRevRange
  | 225%Z => Some KZRevRangeByLex | 226%Z => Some KZRevRangeByScore | 227%Z => Some KZRevRank
  | 228%Z => Some KZScan | 229%Z => Some KZUnion | 230%Z => Some KZUnionStore
  | 231%Z => Some KVAdd | 232%Z => Some KVCard | 233%Z => Some KVDim | 234%Z => Some KVEmb
  | 235%Z => Some KVGetAttr | 236%Z => Some KVInfo | 237%Z => Some KVIsMember
  | 238%Z => Some KVLinks | 239%Z => Some KVRandMember | 240%Z => Some KVRange
  | 241%Z => Some KVRem | 242%Z => Some KVSetAttr | 243%Z => Some KVSim
  | 244%Z => Some KNativeRedisCommand
  | _ => None
  end.

Definition redis_name (kind : FastCommandKind) : option Bytes :=
  match kind with
  | KAppend => Some (text "APPEND") | KAuth => Some (text "AUTH")
  | KBitCount => Some (text "BITCOUNT") | KBitField => Some (text "BITFIELD")
  | KBitOp => Some (text "BITOP") | KBitPos => Some (text "BITPOS")
  | KBLMove => Some (text "BLMOVE") | KBLMPop => Some (text "BLMPOP")
  | KBLPop => Some (text "BLPOP") | KBRPop => Some (text "BRPOP")
  | KBRPopLPush => Some (text "BRPOPLPUSH") | KBZMPop => Some (text "BZMPOP")
  | KBZPopMax => Some (text "BZPOPMAX") | KBZPopMin => Some (text "BZPOPMIN")
  | KClient => Some (text "CLIENT") | KCommand => Some (text "COMMAND")
  | KConfig => Some (text "CONFIG") | KCopy => Some (text "COPY")
  | KDbSize => Some (text "DBSIZE") | KDecr => Some (text "DECR")
  | KDecrBy => Some (text "DECRBY") | KDelete => Some (text "DEL")
  | KDiscard => Some (text "DISCARD") | KDump => Some (text "DUMP")
  | KEcho => Some (text "ECHO") | KExec => Some (text "EXEC") | KExists => Some (text "EXISTS")
  | KExpire => Some (text "EXPIRE") | KExpireAt => Some (text "EXPIREAT")
  | KExpireTime => Some (text "EXPIRETIME") | KFlushAll => Some (text "FLUSHALL")
  | KFlushDb => Some (text "FLUSHDB") | KGet => Some (text "GET")
  | KGetBit => Some (text "GETBIT") | KGetDel => Some (text "GETDEL")
  | KGetEx => Some (text "GETEX") | KGetRange => Some (text "GETRANGE")
  | KGetSet => Some (text "GETSET") | KHello => Some (text "HELLO")
  | KHDel => Some (text "HDEL") | KHExists => Some (text "HEXISTS")
  | KHGet => Some (text "HGET") | KHGetAll => Some (text "HGETALL")
  | KHIncrBy => Some (text "HINCRBY") | KHIncrByFloat => Some (text "HINCRBYFLOAT")
  | KHKeys => Some (text "HKEYS") | KHLen => Some (text "HLEN") | KHMGet => Some (text "HMGET")
  | KHMSet => Some (text "HMSET") | KHRandField => Some (text "HRANDFIELD")
  | KHScan => Some (text "HSCAN") | KHSet => Some (text "HSET")
  | KHSetNx => Some (text "HSETNX") | KHStrLen => Some (text "HSTRLEN")
  | KHVals => Some (text "HVALS") | KInfo => Some (text "INFO") | KIncr => Some (text "INCR")
  | KIncrBy => Some (text "INCRBY") | KIncrByFloat => Some (text "INCRBYFLOAT")
  | KKeys => Some (text "KEYS") | KLIndex => Some (text "LINDEX")
  | KLInsert => Some (text "LINSERT") | KLLen => Some (text "LLEN")
  | KLMove => Some (text "LMOVE") | KLMPop => Some (text "LMPOP") | KLPop => Some (text "LPOP")
  | KLPush => Some (text "LPUSH") | KLPushX => Some (text "LPUSHX")
  | KLRange => Some (text "LRANGE") | KLRem => Some (text "LREM") | KLSet => Some (text "LSET")
  | KLTrim => Some (text "LTRIM") | KMemory => Some (text "MEMORY")
  | KMGet => Some (text "MGET") | KMSet => Some (text "MSET") | KMSetNx => Some (text "MSETNX")
  | KMulti => Some (text "MULTI") | KObject => Some (text "OBJECT")
  | KPersist => Some (text "PERSIST") | KPExpire => Some (text "PEXPIRE")
  | KPExpireAt => Some (text "PEXPIREAT") | KPExpireTime => Some (text "PEXPIRETIME")
  | KPing => Some (text "PING") | KPSetEx => Some (text "PSETEX") | KPTtl => Some (text "PTTL")
  | KQuit => Some (text "QUIT") | KRandomKey => Some (text "RANDOMKEY")
  | KRename => Some (text "RENAME") | KRenameNx => Some (text "RENAMENX")
  | KRestore => Some (text "RESTORE") | KRestoreAsking => Some (text "RESTORE-ASKING")
  | KRPop => Some (text "RPOP") | KRPopLPush => Some (text "RPOPLPUSH")
  | KRPush => Some (text "RPUSH") | KRPushX => Some (text "RPUSHX")
  | KSAdd => Some (text "SADD") | KScan => Some (text "SCAN") | KSCard => Some (text "SCARD")
  | KSDiff => Some (text "SDIFF") | KSDiffStore => Some (text "SDIFFSTORE")
  | KSelect => Some (text "SELECT") | KSet => Some (text "SET")
  | KSetBit => Some (text "SETBIT") | KSetEx => Some (text "SETEX")
  | KSetNx => Some (text "SETNX") | KSetRange => Some (text "SETRANGE")
  | KSInter => Some (text "SINTER") | KSInterStore => Some (text "SINTERSTORE")
  | KSIsMember => Some (text "SISMEMBER") | KSMembers => Some (text "SMEMBERS")
  | KSMIsMember => Some (text "SMISMEMBER") | KSMove => Some (text "SMOVE")
  | KSPop => Some (text "SPOP") | KSRandMember => Some (text "SRANDMEMBER")
  | KSRem => Some (text "SREM") | KSScan => Some (text "SSCAN")
  | KStrLen => Some (text "STRLEN") | KSubstr => Some (text "SUBSTR")
  | KSUnion => Some (text "SUNION") | KSUnionStore => Some (text "SUNIONSTORE")
  | KTime => Some (text "TIME") | KTouch => Some (text "TOUCH") | KTtl => Some (text "TTL")
  | KType => Some (text "TYPE") | KUnlink => Some (text "UNLINK")
  | KUnwatch => Some (text "UNWATCH") | KWatch => Some (text "WATCH")
  | KZAdd => Some (text "ZADD") | KZCard => Some (text "ZCARD")
  | KZCount => Some (text "ZCOUNT") | KZDiff => Some (text "ZDIFF")
  | KZDiffStore => Some (text "ZDIFFSTORE") | KZIncrBy => Some (text "ZINCRBY")
  | KZInter => Some (text "ZINTER") | KZInterCard => Some (text "ZINTERCARD")
  | KZInterStore => Some (text "ZINTERSTORE") | KZLexCount => Some (text "ZLEXCOUNT")
  | KZMPop => Some (text "ZMPOP") | KZMScore => Some (text "ZMSCORE")
  | KZPopMax => Some (text "ZPOPMAX") | KZPopMin => Some (text "ZPOPMIN")
  | KZRandMember => Some (text "ZRANDMEMBER") | KZRange => Some (text "ZRANGE")
  | KZRangeByLex => Some (text "ZRANGEBYLEX") | KZRangeByScore => Some (text "ZRANGEBYSCORE")
  | KZRangeStore => Some (text "ZRANGESTORE") | KZRank => Some (text "ZRANK")
  | KZRem => Some (text "ZREM") | KZRemRangeByLex => Some (text "ZREMRANGEBYLEX")
  | KZRemRangeByRank => Some (text "ZREMRANGEBYRANK")
  | KZRemRangeByScore => Some (text "ZREMRANGEBYSCORE") | KZRevRange => Some (text "ZREVRANGE")
  | KZRevRangeByLex => Some (text "ZREVRANGEBYLEX")
  | KZRevRangeByScore => Some (text "ZREVRANGEBYSCORE") | KZRevRank => Some (text "ZREVRANK")
  | KZScan => Some (text "ZSCAN") | KZScore => Some (text "ZSCORE")
  | KZUnion => Some (text "ZUNION") | KZUnionStore => Some (text "ZUNIONSTORE")
  | KVAdd => Some (text "VADD") | KVCard => Some (text "VCARD") | KVDim => Some (text "VDIM")
  | KVEmb => Some (text "VEMB") | KVGetAttr => Some (text "VGETATTR")
  | KVInfo => Some (text "VINFO") | KVIsMember => Some (text "VISMEMBER")
  | KVLinks => Some (text "VLINKS") | KVRandMember => Some (text "VRANDMEMBER")
  | KVRange => Some (text "VRANGE") | KVRem => Some (text "VREM")
  | KVSetAttr => Some (text "VSETATTR") | KVSim => Some (text "VSIM")
  | KRespCommand | KNativeRedisCommand | KCommandDocs | KConfigGet | KClientGetName
  | KClientSetName | KClientId | KClientList | KClientKill => None
  end.

Definition FAST_REDIS_COMMAND_OPCODES : list (Bytes * FastCommandKind) := [
  (text "APPEND", KAppend); (text "AUTH", KAuth); (text "BITCOUNT", KBitCount);
  (text "BITFIELD", KBitField); (text "BITOP", KBitOp); (text "BITPOS", KBitPos);
  (text "BLMOVE", KBLMove); (text "BLMPOP", KBLMPop); (text "BLPOP", KBLPop);
  (text "BRPOP", KBRPop); (text "BRPOPLPUSH", KBRPopLPush); (text "BZMPOP", KBZMPop);
  (text "BZPOPMAX", KBZPopMax); (text "BZPOPMIN", KBZPopMin); (text "CLIENT", KClient);
  (text "COMMAND", KCommand); (text "CONFIG", KConfig); (text "COPY", KCopy);
  (text "DBSIZE", KDbSize); (text "DECR", KDecr); (text "DECRBY", KDecrBy);
  (text "DEL", KDelete); (text "DISCARD", KDiscard); (text "DUMP", KDump);
  (text "ECHO", KEcho); (text "EXEC", KExec); (text "EXISTS", KExists);
  (text "EXPIRE", KExpire); (text "EXPIREAT", KExpireAt); (text "EXPIRETIME", KExpireTime);
  (text "FLUSHALL", KFlushAll); (text "FLUSHDB", KFlushDb); (text "GET", KGet);
  (text "GETBIT", KGetBit); (text "GETDEL", KGetDel); (text "GETEX", KGetEx);
  (text "GETRANGE", KGetRange); (text "SUBSTR", KSubstr); (text "GETSET", KGetSet);
  (text "HELLO", KHello); (text "HDEL", KHDel); (text "HEXISTS", KHExists);
  (text "HGET", KHGet); (text "HGETALL", KHGetAll); (text "HINCRBY", KHIncrBy);
  (text "HINCRBYFLOAT", KHIncrByFloat); (text "HKEYS", KHKeys); (text "HLEN", KHLen);
  (text "HMGET", KHMGet); (text "HMSET", KHMSet); (text "HRANDFIELD", KHRandField);
  (text "HSCAN", KHScan); (text "HSET", KHSet); (text "HSETNX", KHSetNx);
  (text "HSTRLEN", KHStrLen); (text "HVALS", KHVals); (text "INFO", KInfo);
  (text "INCR", KIncr); (text "INCRBY", KIncrBy); (text "INCRBYFLOAT", KIncrByFloat);
  (text "KEYS", KKeys); (text "LINDEX", KLIndex); (text "LINSERT", KLInsert);
  (text "LLEN", KLLen); (text "LMOVE", KLMove); (text "LMPOP", KLMPop); (text "LPOP", KLPop);
  (text "LPUSH", KLPush); (text "LPUSHX", KLPushX); (text "LRANGE", KLRange);
  (text "LREM", KLRem); (text "LSET", KLSet); (text "LTRIM", KLTrim); (text "MEMORY", KMemory);
  (text "MGET", KMGet); (text "MSET", KMSet); (text "MSETNX", KMSetNx); (text "MULTI", KMulti);
  (text "OBJECT", KObject); (text "PERSIST", KPersist); (text "PEXPIRE", KPExpire);
  (text "PEXPIREAT", KPExpireAt); (text "PEXPIRETIME", KPExpireTime); (text "PING", KPing);
  (text "PSETEX", KPSetEx); (text "PTTL", KPTtl); (text "QUIT", KQuit);
  (text "RANDOMKEY", KRandomKey); (text "RENAME", KRename); (text "RENAMENX", KRenameNx);
  (text "RESTORE", KRestore); (text "RESTORE-ASKING", KRestoreAsking); (text "RPOP", KRPop);
  (text "RPOPLPUSH", KRPopLPush); (text "RPUSH", KRPush); (text "RPUSHX", KRPushX);
  (text "SADD", KSAdd); (text "SCAN", KScan); (text "SCARD", KSCard); (text "SDIFF", KSDiff);
  (text "SDIFFSTORE", KSDiffStore); (text "SELECT", KSelect); (text "SET", KSet);
  (text "SETBIT", KSetBit); (text "SETEX", KSetEx); (text "SETNX", KSetNx);
  (text "SETRANGE", KSetRange); (text "SINTER", KSInter); (text "SINTERSTORE", KSInterStore);
  (text "SISMEMBER", KSIsMember); (text "SMEMBERS", KSMembers);
  (text "SMISMEMBER", KSMIsMember); (text "SMOVE", KSMove); (text "SPOP", KSPop);
  (text "SRANDMEMBER", KSRandMember); (text "SREM", KSRem); (text "SSCAN", KSScan);
  (text "STRLEN", KStrLen); (text "SUNION", KSUnion); (text "SUNIONSTORE", KSUnionStore);
  (text "TIME", KTime); (text "TOUCH", KTouch); (text "TTL", KTtl); (text "TYPE", KType);
  (text "UNLINK", KUnlink); (text "UNWATCH", KUnwatch); (text "WATCH", KWatch);
  (text "ZADD", KZAdd); (text "ZCARD", KZCard); (text "ZCOUNT", KZCount);
  (text "ZDIFF", KZDiff); (text "ZDIFFSTORE", KZDiffStore); (text "ZINCRBY", KZIncrBy);
  (text "ZINTER", KZInter); (text "ZINTERCARD", KZInterCard);
  (text "ZINTERSTORE", KZInterStore); (text "ZLEXCOUNT", KZLexCount); (text "ZMPOP", KZMPop);
  (text "ZMSCORE", KZMScore); (text "ZPOPMAX", KZPopMax); (text "ZPOPMIN", KZPopMin);
  (text "ZRANDMEMBER", KZRandMember); (text "ZRANGE", KZRange);
  (text "ZRANGEBYLEX", KZRangeByLex); (text "ZRANGEBYSCORE", KZRangeByScore);
  (text "ZRANGESTORE", KZRangeStore); (text "ZRANK", KZRank); (text "ZREM", KZRem);
  (text "ZREMRANGEBYLEX", KZRemRangeByLex); (text "ZREMRANGEBYRANK", KZRemRangeByRank);
  (text "ZREMRANGEBYSCORE", KZRemRangeByScore); (text "ZREVRANGE", KZRevRange);
  (text "ZREVRANGEBYLEX", KZRevRangeByLex); (text "ZREVRANGEBYSCORE", KZRevRangeByScore);
  (text "ZREVRANK", KZRevRank); (text "ZSCAN", KZScan); (text "ZSCORE", KZScore);
  (text "ZUNION", KZUnion); (text "ZUNIONSTORE", KZUnionStore); (text "VADD", KVAdd);
  (text "VCARD", KVCard); (text "VDIM", KVDim); (text "VEMB", KVEmb);
  (text "VGETATTR", KVGetAttr); (text "VINFO", KVInfo); (text "VISMEMBER", KVIsMember);
  (text "VLINKS", KVLinks); (text "VRANDMEMBER", KVRandMember); (text "VRANGE", KVRange);
  (text "VREM", KVRem); (text "VSETATTR", KVSetAttr); (text "VSIM", KVSim)].

Definition from_redis_name (name : Bytes) : option FastCommandKind :=
  snd <$> find (λ entry, eq_ignore_ascii_case name entry.1) FAST_REDIS_COMMAND_OPCODES.

Definition uses_vector_shard (kind : FastCommandKind) : bool :=
  match kind with
  | KVAdd | KVCard | KVDim | KVEmb | KVGetAttr | KVInfo | KVIsMember | KVLinks | KVRandMember
  | KVRange | KVRem | KVSetAttr | KVSim => true
  | _ => false
  end.

Lemma text_bytes s : all_bytes (text s).
Proof.
  apply Forall_map, Forall_true. intros a. unfold is_byte. cbn. pose proof (Ascii.nat_ascii_bounded a). lia.
Qed.

(** ** The tables agree *)
Lemma from_opcode_opcode kind : from_opcode (opcode kind) = Some kind.
Proof. by destruct kind. Qed.

#[export] Instance opcode_inj : Inj (=) (=) opcode.
Proof.
  intros k k' E. apply (f_equal from_opcode) in E. rewrite !from_opcode_opcode in E. by injection E.
Qed.

#[export] Instance kind_eq_dec : EqDecision FastCommandKind.
Proof.
  refine (λ k k', match decide (opcode k = opcode k') with left E => left _ | right N => right _ end).
  - by apply (inj opcode).
  - intros ->. by apply N.
Defined.

Lemma opcode_u8 kind : is_byte (opcode kind).
Proof. unfold is_byte. destruct kind; cbn [opcode]; lia. Qed.

Lemma opcode_from_opcode value kind : from_opcode value = Some kind → opcode kind = value.
Proof.
  intros Hv. destruct value as [|p|p]; [done| |done].
  do 8 (try destruct p as [p|p|]); cbn in Hv; try done; by injection Hv as <-.
Qed.

Lemma redis_name_table kind name :
  redis_name kind = Some name ↔ (name, kind) ∈ FAST_REDIS_COMMAND_OPCODES.
Proof.
  split.
  - destruct kind; intros [= <-]; refine (bool_decide_unpack _ _); by vm_compute.
  - assert (Forall (λ entry, redis_name entry.2 = Some entry.1) FAST_REDIS_COMMAND_OPCODES) as Hall.
    { apply Forall_forall. intros e He.
      enough (forallb (λ e, bool_decide (redis_name e.2 = Some e.1)) FAST_REDIS_COMMAND_OPCODES = true) as Hb.
      { rewrite forallb_forall in Hb. refine (proj1 (bool_decide_eq_true _) (Hb e _)). by apply list_elem_of_In. }
      by vm_compute. }
    intros Hin. rewrite Forall_forall in Hall. by apply (Hall (name, kind)).
Qed.

Lemma from_redis_name_case x y :
  eq_ignore_ascii_case x y = true → from_redis_name x = from_redis_name y.
Proof.
  intros E%eq_ignore_ascii_case_spec. unfold from_redis_name, eq_ignore_ascii_case. by rewrite E.
Qed.

Lemma from_redis_name_name kind name : redis_name kind = Some name → from_redis_name name = Some kind.
Proof. destruct kind; intros [= <-]; by vm_compute. Qed.

(** A name in any case names its kind, and nothing else names a kind. *)
Lemma from_redis_name_spec x kind :
  from_redis_name x = Some kind ↔ ∃ name, redis_name kind = Some name ∧ eq_ignore_ascii_case x name = true.
Proof.
  split.
  - unfold from_redis_name. intros ([name k] & Hf & [= <-])%fmap_Some.
    apply find_some in Hf as [Hin He]. exists name. split; [|done].
    apply redis_name_table. by apply list_elem_of_In.
  - intros (name & Hn & He). rewrite (from_redis_name_case x name He). by apply from_redis_name_name.
Qed.
