(* ===== verification/StringBits.v ===== *)
(** * Bits of string values

    The bit commands on string values: reading, writing, counting and finding
    single bits ([commands/string/bit_shared.rs]) and the integer fields of
    BITFIELD ([commands/string/bitfield.rs]), with the parsers of their
    arguments.  A string is a sequence of bits, the most significant bit of
    its first byte first.  Bit offsets are [usize] values kept as [Z]; an
    index out of range is the [None] of a panic. *)

From S2P Require Import Prelude Deps Helpers Codec Resp FastKinds.

(** ** Replies: [commands/redis/frame.rs] and [commands/redis/parse.rs] *)
Definition error (message : string) : Frame := Error (text message).

Definition wrong_arity (command : string) : Frame :=
  Error (text "ERR wrong number of arguments for '" ++ map to_ascii_lower (text command) ++ text "' command").

Definition WRONGTYPE_MESSAGE : string := "WRONGTYPE Operation against a key holding the wrong kind of value".
Definition wrongtype : Frame := error WRONGTYPE_MESSAGE.

(** [Result<T, Frame>]: the error is the reply. *)
Abbreviation Reply A := (Frame + A)%type.

#[export] Instance reply_ret : MRet (sum Frame) := λ A, inr.
#[export] Instance reply_bind : MBind (sum Frame) := λ A B f x,
  match x with inl e => inl e | inr a => f a end.

Definition or_reply {A} (o : option A) (frame : Frame) : Reply A :=
  match o with Some a => inr a | None => inl frame end.

Definition redis_parse_i64 (raw : Bytes) : option Z := if utf8_valid raw then parse_i64_bytes raw else None.
Definition redis_parse_u64 (raw : Bytes) : option Z := if utf8_valid raw then parse_u64 raw else None.
Definition redis_parse_usize (raw : Bytes) : option Z :=
  value ← redis_parse_i64 raw; if (0 <=? value)%Z then Some value else None.

(** ** Machine integers of the bit commands *)
Definition u8_not (x : Z) : Z := (255 - x)%Z.
Definition two128 : Z := (2 ^ 128)%Z.
Definition i128_MAX : Z := (2 ^ 127 - 1)%Z.
Definition i128_MIN : Z := (- 2 ^ 127)%Z.
Definition i128_saturating_add (a b : Z) : Z := Z.max i128_MIN (Z.min i128_MAX (a + b)).
Definition usize_saturating_mul (a b : Z) : Z := Z.min u64_MAX (a * b).
Definition i64_saturating_mul (a b : Z) : Z := Z.max i64_MIN (Z.min i64_MAX (a * b)).
Definition usize_in_range (z : Z) : option Z := if ((0 <=? z) && (z <=? u64_MAX))%Z then Some z else None.

(** [Vec::resize(len, 0)]. *)
Definition resize_bytes (len : Z) (value : Bytes) : Bytes := resize (Z.to_nat len) 0%Z value.

(** ** Single bits: [bit_shared.rs] *)
Definition REDIS_STRING_MAX_BYTES : Z := (512 * 1024 * 1024)%Z.
Definition REDIS_STRING_MAX_BIT_OFFSET : Z := (REDIS_STRING_MAX_BYTES * 8 - 1)%Z.

Definition parse_bit_offset (raw : Bytes) : option Z :=
  offset ← redis_parse_u64 raw; if (offset <=? REDIS_STRING_MAX_BIT_OFFSET)%Z then Some offset else None.

Definition parse_bit_value (raw : Bytes) : option bool :=
  if bytes_eqb raw [48%Z] then Some false else if bytes_eqb raw [49%Z] then Some true else None.

Definition bit_mask (offset : Z) : Z := Z.shiftr 128 (offset mod 8).

Definition read_bit (value : Bytes) (offset : Z) : bool :=
  match value !! Z.to_nat (offset / 8) with
  | Some byte => negb (Z.land byte (bit_mask offset) =? 0)%Z
  | None => false
  end.

Definition write_bit (value : Bytes) (offset : Z) (bit : bool) : option Bytes :=
  byte ← value !! Z.to_nat (offset / 8);
  let mask := bit_mask offset in
  Some (<[Z.to_nat (offset / 8) := if bit then Z.lor byte mask else Z.land byte (u8_not mask)]> value).

(** [u8::count_ones]. *)
Definition count_ones (byte : Z) : Z := foldr (λ i n, n + Z.b2z (Z.testbit byte i))%Z 0%Z (seqZ 0 8).

Definition count_bits (value : Bytes) : Z := foldl (λ n byte, n + count_ones byte)%Z 0%Z value.

Inductive BitRangeUnit := UnitByte | UnitBit.

Definition unit_parse (value : Bytes) : option BitRangeUnit :=
  if eq_ignore_ascii_case value (text "BYTE") then Some UnitByte
  else if eq_ignore_ascii_case value (text "BIT") then Some UnitBit
  else None.

Definition blen_bits (value : Bytes) : Z := usize_saturating_mul (Z.of_nat (length value)) 8.

(** The offsets [start..=stop]. *)
Definition offsets (start stop : Z) : list Z := seqZ start (stop - start + 1).

Definition count_bits_in_range (value : Bytes) (start stop : Z) (unit_ : BitRangeUnit) : Z :=
  match unit_ with
  | UnitByte =>
      match normalize_redis_range (length value) start stop with
      | Some range => let '(start, stop) := into_bounds range in
                      count_bits (take (S stop - start) (drop start value))
      | None => 0%Z
      end
  | UnitBit =>
      match normalize_redis_range (Z.to_nat (blen_bits value)) start stop with
      | Some range => let '(start, stop) := into_bounds range in
                      Z.of_nat (length (filter (λ o, read_bit value o = true) (offsets (Z.of_nat start) (Z.of_nat stop))))
      | None => 0%Z
      end
  end.

Definition first_unbounded_zero_position (value : Bytes) (start : Z) (unit_ : BitRangeUnit) : Z :=
  let len_bits := wrap_i64 (blen_bits value) in
  if (start <? 0)%Z then len_bits
  else match unit_ with
       | UnitByte => Z.max (i64_saturating_mul start 8) len_bits
       | UnitBit => Z.max start len_bits
       end.

(** The [for offset in start_bit..=stop_bit] loop. *)
Fixpoint first_bit (value : Bytes) (bit : bool) (os : list Z) : option Z :=
  match os with
  | [] => None
  | offset :: os => if Bool.eqb (read_bit value offset) bit then Some (wrap_i64 offset) else first_bit value bit os
  end.

Definition find_bit_position (value : Bytes) (bit : bool) (start stop : option Z) (unit_ : BitRangeUnit) : Z :=
  let len := match unit_ with UnitByte => Z.of_nat (length value) | UnitBit => blen_bits value end in
  let unbounded := bool_decide (stop = None) in
  let start := default 0%Z start in
  let stop := default (wrap_i64 len - 1)%Z stop in
  match normalize_redis_range (Z.to_nat len) start stop with
  | None => if negb bit && unbounded then first_unbounded_zero_position value start unit_ else (-1)%Z
  | Some range =>
      let '(start, stop) := into_bounds range in
      let '(start_bit, stop_bit) :=
        match unit_ with
        | UnitByte => (usize_saturating_mul (Z.of_nat start) 8, usize_saturating_mul (Z.of_nat stop) 8 + 7)%Z
        | UnitBit => (Z.of_nat start, Z.of_nat stop)
        end in
      match first_bit value bit (offsets start_bit stop_bit) with
      | Some offset => offset
      | None => if negb bit && unbounded then wrap_i64 (blen_bits value) else (-1)%Z
      end
  end.

Inductive BitOpKind := OpAnd | OpOr | OpXor | OpNot.
#[export] Instance bit_op_kind_eq_dec : EqDecision BitOpKind.
Proof. solve_decision. Defined.

Definition bit_op_parse (value : Bytes) : option BitOpKind :=
  if eq_ignore_ascii_case value (text "AND") then Some OpAnd
  else if eq_ignore_ascii_case value (text "OR") then Some OpOr
  else if eq_ignore_ascii_case value (text "XOR") then Some OpXor
  else if eq_ignore_ascii_case value (text "NOT") then Some OpNot
  else None.

Definition combine_byte (operation : BitOpKind) (result byte : Z) : Z :=
  match operation with
  | OpAnd => Z.land result byte
  | OpOr => Z.lor result byte
  | OpXor | OpNot => Z.lxor result byte
  end.

(** [apply_bitop]: NOT is called with one value; an operator folds the values
    into a buffer of the longest length. *)
Definition apply_bitop (operation : BitOpKind) (values : list Bytes) : option Bytes :=
  match operation with
  | OpNot => value ← values !! 0; Some (map u8_not value)
  | _ =>
      let len := foldr Nat.max 0 (map length values) in
      let result := replicate len (match operation with OpAnd => 255%Z | _ => 0%Z end) in
      Some (foldl (λ result value,
              imap (λ index result_byte, combine_byte operation result_byte (default 0%Z (value !! index))) result)
              result values)
  end.

(** ** Integer fields: [bitfield.rs] *)
Record BitEncoding := mkEncoding { signed : bool; bits : Z }.

Inductive Overflow := OverflowWrap | OverflowSat | OverflowFail.

Inductive BitFieldOp :=
  | FieldGet (encoding : BitEncoding) (offset : Z)
  | FieldSet (encoding : BitEncoding) (offset value : Z)
  | FieldIncrBy (encoding : BitEncoding) (offset increment : Z) (overflow : Overflow).

Definition integer_error : Frame := error "ERR value is not an integer or out of range".
Definition bit_offset_error : Frame := error "ERR bit offset is not an integer or out of range".
Definition syntax_error : Frame := error "ERR syntax error".
Definition invalid_type : Frame := error "ERR invalid bitfield type".

Definition parse_encoding (raw : Bytes) : Reply BitEncoding :=
  match raw with
  | [] => inl invalid_type
  | kind :: raw =>
      signed ← (if ((kind =? 105) || (kind =? 73))%Z then inr true
                else if ((kind =? 117) || (kind =? 85))%Z then inr false
                else inl invalid_type);
      bits ← or_reply (redis_parse_i64 raw) invalid_type;
      if ((1 <=? bits) && (bits <=? if signed : bool then 64 else 63))%Z
      then mret (mkEncoding signed bits) else inl invalid_type
  end.

Definition parse_field_offset (raw : Bytes) (bits : Z) : Reply Z :=
  let '(raw, multiplier) :=
    match raw with
    | kind :: tail => if (kind =? 35)%Z then (tail, bits) else (raw, 1%Z)
    | [] => (raw, 1%Z)
    end in
  offset ← or_reply (redis_parse_i64 raw) integer_error;
  if (offset <? 0)%Z then inl bit_offset_error
  else
    offset ← or_reply (usize_in_range (offset * multiplier)) bit_offset_error;
    last ← or_reply (value ← usize_in_range (offset + bits); usize_in_range (value - 1)) bit_offset_error;
    if (REDIS_STRING_MAX_BIT_OFFSET <? last)%Z then inl bit_offset_error else mret offset.

Definition parse_overflow (raw : Bytes) : option Overflow :=
  if eq_ignore_ascii_case raw (text "WRAP") then Some OverflowWrap
  else if eq_ignore_ascii_case raw (text "SAT") then Some OverflowSat
  else if eq_ignore_ascii_case raw (text "FAIL") then Some OverflowFail
  else None.

(** [parse_encoding_and_offset] at the start of [args]. *)
Definition parse_encoding_and_offset (args : list Bytes) : Reply (option (BitEncoding * Z)) :=
  match args with
  | raw_encoding :: raw_offset :: _ =>
      encoding ← parse_encoding raw_encoding;
      offset ← parse_field_offset raw_offset (bits encoding);
      mret (Some (encoding, offset))
  | _ => mret None
  end.

(** The encoding, the offset and the integer that SET and INCRBY take. *)
Definition parse_write (args : list Bytes) : Reply (BitEncoding * Z * Z) :=
  field ← parse_encoding_and_offset args;
  match field with
  | None => inl (wrong_arity "BITFIELD")
  | Some (encoding, offset) =>
      raw ← or_reply (args !! 2) (wrong_arity "BITFIELD");
      value ← or_reply (redis_parse_i64 raw) integer_error;
      mret (encoding, offset, value)
  end.

(** The loop of [parse_ops]: [args] is [args[cursor..]]. *)
Fixpoint parse_ops_from (fuel : nat) (overflow : Overflow) (args : list Bytes) : Reply (list BitFieldOp) :=
  match fuel, args with
  | S fuel, command :: args =>
      if eq_ignore_ascii_case command (text "OVERFLOW") then
        policy ← or_reply (args !! 0 ≫= parse_overflow) syntax_error;
        parse_ops_from fuel policy (drop 1 args)
      else if eq_ignore_ascii_case command (text "GET") then
        field ← parse_encoding_and_offset args;
        match field with
        | None => inl (wrong_arity "BITFIELD")
        | Some (encoding, offset) =>
            ops ← parse_ops_from fuel overflow (drop 2 args); mret (FieldGet encoding offset :: ops)
        end
      else if eq_ignore_ascii_case command (text "SET") then
        '(encoding, offset, value) ← parse_write args;
        ops ← parse_ops_from fuel overflow (drop 3 args); mret (FieldSet encoding offset value :: ops)
      else if eq_ignore_ascii_case command (text "INCRBY") then
        '(encoding, offset, increment) ← parse_write args;
        ops ← parse_ops_from fuel overflow (drop 3 args);
        mret (FieldIncrBy encoding offset increment overflow :: ops)
      else inl syntax_error
  | _, _ => mret []
  end.

Definition parse_ops (args : list Bytes) : Reply (list BitFieldOp) :=
  parse_ops_from (length args) OverflowWrap args.

(** *** Reading a field *)
Definition sign_extend (raw bits : Z) : Z :=
  if (bits =? 64)%Z then wrap_i64 raw
  else
    let sign_bit := Z.shiftl 1 (bits - 1) in
    let mask := (Z.shiftl 1 bits - 1)%Z in
    if (Z.land raw sign_bit =? 0)%Z then wrap_i64 (Z.land raw mask)
    else wrap_i64 (Z.lor raw (u64_MAX - mask)).

Definition read_unsigned_field (value : Bytes) (offset bits : Z) : Z :=
  foldl (λ raw bit,
    let raw := wrap_u64 (Z.shiftl raw 1) in
    if read_bit value (offset + bit) then Z.lor raw 1 else raw) 0%Z (seqZ 0 bits).

Definition read_field (value : Bytes) (encoding : BitEncoding) (offset : Z) : Z :=
  let raw := read_unsigned_field value offset (bits encoding) in
  if signed encoding then sign_extend raw (bits encoding) else wrap_i64 raw.

(** *** Writing a field *)
Definition truncate_to_bits (value bits : Z) : Z :=
  if (bits =? 64)%Z then wrap_u64 value
  else
    let mask := (Z.shiftl 1 bits - 1)%Z in
    wrap_u64 (Z.land (value mod two128) mask).

(** The loop over the bits of the field, the most significant first. *)
Definition write_bits (raw offset bits : Z) (value : Bytes) : option Bytes :=
  foldl (λ value bit,
    value ← value;
    let source_shift := (bits - bit - 1)%Z in
    write_bit value (offset + bit) (Z.land (Z.shiftr raw source_shift) 1 =? 1)%Z) (Some value) (seqZ 0 bits).

Definition write_field (value : Bytes) (encoding : BitEncoding) (offset field_value : Z) : option Bytes :=
  let last_bit := (offset + bits encoding - 1)%Z in
  let bytes := (last_bit / 8 + 1)%Z in
  let value := if (Z.of_nat (length value) <? bytes)%Z then resize_bytes bytes value else value in
  let raw := truncate_to_bits field_value (bits encoding) in
  write_bits raw offset (bits encoding) value.

(** *** Increments *)
Definition value_bounds (encoding : BitEncoding) : Z * Z :=
  if signed encoding
  then (- Z.shiftl 1 (bits encoding - 1), Z.shiftl 1 (bits encoding - 1) - 1)%Z
  else (0, Z.shiftl 1 (bits encoding) - 1)%Z.

Definition wrap_value (value : Z) (encoding : BitEncoding) : Z :=
  let modulo := Z.shiftl 1 (bits encoding) in
  let wrapped := (value mod modulo)%Z in
  if signed encoding && (Z.shiftl 1 (bits encoding - 1) <=? wrapped)%Z then (wrapped - modulo)%Z else wrapped.

Definition apply_increment (old increment : Z) (encoding : BitEncoding) (overflow : Overflow) : option Z :=
  let value := i128_saturating_add old increment in
  let '(min, max) := value_bounds encoding in
  if ((min <=? value) && (value <=? max))%Z then Some value
  else match overflow with
       | OverflowFail => None
       | OverflowSat => Some (clamp value min max)
       | OverflowWrap => Some (wrap_value value encoding)
       end.

(** *** The commands on the value *)
Definition is_write (op : BitFieldOp) : bool :=
  match op with FieldGet _ _ => false | _ => true end.

(** [apply_read_ops] on the value read; a write is [unreachable!]. *)
Definition read_op (value : Bytes) (op : BitFieldOp) : option (option Z) :=
  match op with
  | FieldGet encoding offset => Some (Some (read_field value encoding offset))
  | _ => None
  end.

(** One operation of [apply_write_ops]: its response and the value after it. *)
Definition write_op (current : Bytes) (op : BitFieldOp) : option (option Z * Bytes) :=
  match op with
  | FieldGet encoding offset => Some (Some (read_field current encoding offset), current)
  | FieldSet encoding offset value =>
      current' ← write_field current encoding offset value;
      Some (Some (read_field current encoding offset), current')
  | FieldIncrBy encoding offset increment overflow =>
      let old := read_field current encoding offset in
      match apply_increment old increment encoding overflow with
      | Some value => current ← write_field current encoding offset value; Some (Some (wrap_i64 value), current)
      | None => Some (None, current)
      end
  end.

Fixpoint write_ops (current : Bytes) (ops : list BitFieldOp) : option (list (option Z) * Bytes) :=
  match ops with
  | [] => Some ([], current)
  | op :: ops =>
      '(response, current) ← write_op current op;
      '(responses, current) ← write_ops current ops;
      Some (response :: responses, current)
  end.

(** * What the bit commands do

    A string as a list of booleans, fields of it as big-endian numbers, and
    what the machine-integer loops of [StringBits] do to that list. *)

Local Open Scope Z_scope.

Definition is_u8 (b : Z) : Prop := 0 ≤ b < 256.

(** ** The reference: a string is a list of bits *)
Definition byte_bits (b : Z) : list bool := (λ i, Z.testbit b (7 - Z.of_nat i)) <$> seq 0 8.
Definition bits_of (value : Bytes) : list bool := value ≫= byte_bits.

(** The number written in big-endian bits. *)
Definition be_value (l : list bool) : Z := foldl (λ a b, 2 * a + Z.b2z b) 0 l.

(** The [n] low bits of [x], the most significant first. *)
Definition field_bits (n : nat) (x : Z) : list bool := (λ i, Z.testbit x (Z.of_nat n - 1 - Z.of_nat i)) <$> seq 0 n.

(** The field of [n] bits at [offset]: bits past the end are zero. *)
Definition field_at (l : list bool) (offset n : nat) : list bool := resize n false (drop offset l).

(** The string grown to whole bytes, with a field overwritten. *)
Definition grow (l : list bool) (last : nat) : list bool := resize (length l `max` (8 * (last / 8 + 1))) false l.
Definition put_field (l : list bool) (offset : nat) (new : list bool) : list bool :=
  let l := grow l (offset + length new - 1) in
  take offset l ++ new ++ drop (offset + length new) l.

(** The integer an encoding gives to a field: two's complement when signed. *)
Definition interpret (encoding : BitEncoding) (l : list bool) : Z :=
  let v := be_value l in
  if signed encoding && (2 ^ (bits encoding - 1) <=? v) then v - 2 ^ bits encoding else v.

Definition in_bounds (encoding : BitEncoding) (v : Z) : bool :=
  if signed encoding then (- 2 ^ (bits encoding - 1) <=? v) && (v <? 2 ^ (bits encoding - 1))
  else (0 <=? v) && (v <? 2 ^ bits encoding).

(** An increment: the exact sum when it fits, otherwise what the policy says. *)
Definition spec_increment (encoding : BitEncoding) (overflow : Overflow) (v : Z) : option Z :=
  if in_bounds encoding v then Some v
  else match overflow with
       | OverflowFail => None
       | OverflowSat =>
           if v <? 0 then Some (if signed encoding then - 2 ^ (bits encoding - 1) else 0)
           else Some (if signed encoding then 2 ^ (bits encoding - 1) - 1 else 2 ^ bits encoding - 1)
       | OverflowWrap => Some (interpret encoding (field_bits (Z.to_nat (bits encoding)) v))
       end.

Definition spec_op (l : list bool) (op : BitFieldOp) : option Z * list bool :=
  match op with
  | FieldGet encoding offset =>
      (Some (interpret encoding (field_at l (Z.to_nat offset) (Z.to_nat (bits encoding)))), l)
  | FieldSet encoding offset value =>
      let n := Z.to_nat (bits encoding) in
      (Some (interpret encoding (field_at l (Z.to_nat offset) n)), put_field l (Z.to_nat offset) (field_bits n value))
  | FieldIncrBy encoding offset increment overflow =>
      let n := Z.to_nat (bits encoding) in
      let old := interpret encoding (field_at l (Z.to_nat offset) n) in
      match spec_increment encoding overflow (old + increment) with
      | Some v => (Some v, put_field l (Z.to_nat offset) (field_bits n v))
      | None => (None, l)
      end
  end.

Fixpoint spec_ops (l : list bool) (ops : list BitFieldOp) : list (option Z) * list bool :=
  match ops with
  | [] => ([], l)
  | op :: ops =>
      let '(response, l) := spec_op l op in
      let '(responses, l) := spec_ops l ops in
      (response :: responses, l)
  end.

(** ** What the parser guarantees of an operation *)
Definition encoding_ok (e : BitEncoding) : Prop := 1 ≤ bits e ≤ if signed e then 64 else 63.
Definition offset_ok (e : BitEncoding) (offset : Z) : Prop :=
  0 ≤ offset ∧ offset + bits e - 1 ≤ REDIS_STRING_MAX_BIT_OFFSET.
Definition op_ok (op : BitFieldOp) : Prop :=
  match op with
  | FieldGet e offset => encoding_ok e ∧ offset_ok e offset
  | FieldSet e offset v | FieldIncrBy e offset v _ => encoding_ok e ∧ offset_ok e offset ∧ is_i64 v
  end.

(** ** Single bits *)
Lemma byte_bits_length b : length (byte_bits b) = 8%nat.
Proof. done. Qed.

Lemma bits_of_cons b value : bits_of (b :: value) = byte_bits b ++ bits_of value.
Proof. done. Qed.

Lemma bits_of_length value : length (bits_of value) = (8 * length value)%nat.
Proof.
  induction value as [|b value IH]; [done|].
  rewrite bits_of_cons, length_app, byte_bits_length, IH. simpl. lia.
Qed.

Lemma byte_bits_lookup b i : (i < 8)%nat → byte_bits b !! i = Some (Z.testbit b (7 - Z.of_nat i)).
Proof.
  intros. unfold byte_bits. rewrite list_lookup_fmap, lookup_seq_lt by done. done.
Qed.

Lemma bits_of_lookup value o :
  bits_of value !! o = (λ b, Z.testbit b (7 - Z.of_nat (o mod 8))) <$> value !! (o / 8)%nat.
Proof.
  revert o. induction value as [|b value IH]; intros o; [done|].
  rewrite bits_of_cons. destruct (decide (o < 8)%nat).
  - rewrite lookup_app_l by (rewrite byte_bits_length; done).
    rewrite byte_bits_lookup, Nat.div_small, Nat.mod_small by done. done.
  - rewrite lookup_app_r by (rewrite byte_bits_length; lia). rewrite IH, byte_bits_length.
    assert (Ed : (o / 8 = S ((o - 8) / 8))%nat)
      by (replace o with (o - 8 + 1 * 8)%nat at 1 by lia; rewrite Nat.div_add by lia; lia).
    assert (Em : (o mod 8 = (o - 8) mod 8)%nat)
      by (replace o with (o - 8 + 1 * 8)%nat at 1 by lia; by rewrite Nat.Div0.mod_add).
    by rewrite Ed, Em.
Qed.

Lemma bit_mask_pow2 o : 0 ≤ o → bit_mask o = 2 ^ (7 - o mod 8).
Proof.
  intros. unfold bit_mask. pose proof (Z.mod_pos_bound o 8).
  replace 128 with (2 ^ 7) by done. rewrite Z.shiftr_div_pow2 by lia.
  rewrite <- Z.pow_sub_r by lia. done.
Qed.

Lemma land_pow2_zero b n : 0 ≤ n → (Z.land b (2 ^ n) =? 0) = negb (Z.testbit b n).
Proof.
  intros. destruct (Z.testbit b n) eqn:E; simpl.
  - apply Z.eqb_neq. intros Hz. apply (f_equal (λ z, Z.testbit z n)) in Hz.
    by rewrite Z.land_spec, E, Z.pow2_bits_true, Z.bits_0 in Hz.
  - apply Z.eqb_eq. apply Z.bits_inj'. intros i ?. rewrite Z.land_spec, Z.bits_0.
    rewrite Z.pow2_bits_eqb by done. destruct (Z.eqb_spec n i); subst; by rewrite ?E, ?andb_false_r.
Qed.

Lemma offset_index o : 0 ≤ o → Z.to_nat (o / 8) = (Z.to_nat o / 8)%nat.
Proof. intros. rewrite Z2Nat.inj_div by lia. done. Qed.
Lemma offset_mod o : 0 ≤ o → Z.of_nat (Z.to_nat o mod 8) = o mod 8.
Proof. intros. rewrite Nat2Z.inj_mod, Z2Nat.id by lia. done. Qed.

Lemma read_bit_spec value o : 0 ≤ o → read_bit value o = default false (bits_of value !! Z.to_nat o).
Proof.
  intros. unfold read_bit. rewrite bits_of_lookup, offset_index, offset_mod by done.
  destruct (value !! _) as [b|]; [|done]. simpl. pose proof (Z.mod_pos_bound o 8).
  rewrite bit_mask_pow2, land_pow2_zero by lia. apply negb_involutive.
Qed.

Lemma u8_not_testbit m i : 0 ≤ i < 8 → 0 ≤ m < 8 → Z.testbit (u8_not (2 ^ m)) i = negb (i =? m).
Proof.
  intros Hi Hm. unfold u8_not.
  assert (Hin : m ∈ seqZ 0 8) by (apply elem_of_seqZ; lia).
  assert (Hin' : i ∈ seqZ 0 8) by (apply elem_of_seqZ; lia).
  simpl in Hin, Hin'. repeat (apply elem_of_cons in Hin as [->|Hin]; [repeat
    (apply elem_of_cons in Hin' as [->|Hin']; [reflexivity|]); by apply elem_of_nil in Hin'|]).
  by apply elem_of_nil in Hin.
Qed.

Lemma is_u8_range b : is_u8 b ↔ 0 ≤ b ∧ ∀ i, 8 ≤ i → Z.testbit b i = false.
Proof.
  unfold is_u8. split.
  - intros [? ?]. split; [done|]. intros i ?.
    destruct (decide (b = 0)) as [->|]; [apply Z.bits_0|].
    apply Z.bits_above_log2; [done|]. apply Z.lt_le_trans with 8; [|done].
    apply Z.log2_lt_pow2; [lia|]. done.
  - intros [? Hb]. split; [done|]. destruct (decide (b = 0)) as [->|]; [lia|].
    replace 256 with (2 ^ 8) by done. apply Z.log2_lt_pow2; [lia|].
    destruct (decide (Z.log2 b < 8)); [done|].
    pose proof (Hb (Z.log2 b)) as Hc. rewrite Z.bit_log2 in Hc by lia. discriminate Hc. lia.
Qed.

(** [write_bit] inside the string changes one bit of the list. *)
Lemma write_bit_spec value o b :
  0 ≤ o → (Z.to_nat o < length (bits_of value))%nat → Forall is_u8 value →
  ∃ value', write_bit value o b = Some value' ∧ Forall is_u8 value' ∧ length value' = length value ∧
            bits_of value' = <[Z.to_nat o := b]> (bits_of value).
Proof.
  intros Ho Hlt Hu. rewrite bits_of_length in Hlt. unfold write_bit. rewrite offset_index by done.
  set (i := (Z.to_nat o / 8)%nat).
  assert (Hi : (i < length value)%nat) by (apply Nat.Div0.div_lt_upper_bound; lia).
  destruct (lookup_lt_is_Some_2 value i Hi) as [byte Hb]. rewrite Hb. simpl.
  pose proof (Z.mod_pos_bound o 8). set (k := 7 - o mod 8).
  assert (Hk : 0 ≤ k < 8) by (unfold k; lia).
  pose proof (Forall_lookup_1 _ _ _ _ Hu Hb) as Hbyte.
  assert (Hnew : is_u8 (if b then Z.lor byte (bit_mask o) else Z.land byte (u8_not (bit_mask o)))).
  { rewrite bit_mask_pow2 by done. fold k. apply is_u8_range in Hbyte as [? Hhi]. apply is_u8_range. destruct b.
    - split; [apply Z.lor_nonneg; split; [done|apply Z.pow_nonneg; lia]|].
      intros j ?. rewrite Z.lor_spec, Hhi by done. apply Z.pow2_bits_false. lia.
    - split; [apply Z.land_nonneg; by left|]. intros j ?. by rewrite Z.land_spec, Hhi. }
  eexists. split; [done|]. split; [by apply Forall_insert|]. split; [by rewrite length_insert|].
  apply list_eq. intros j. rewrite bits_of_lookup.
  destruct (decide (j = Z.to_nat o)) as [->|Hne].
  - fold i. rewrite (list_lookup_insert_eq (bits_of value)) by (rewrite bits_of_length; lia).
    rewrite list_lookup_insert_eq by done. cbn [fmap option_fmap option_map]. rewrite offset_mod by done. fold k.
    rewrite bit_mask_pow2 by done. fold k. f_equal. destruct b.
    + by rewrite Z.lor_spec, Z.pow2_bits_true, orb_true_r by lia.
    + by rewrite Z.land_spec, u8_not_testbit, Z.eqb_refl, andb_false_r by lia.
  - rewrite (list_lookup_insert_ne (bits_of value)), bits_of_lookup by done.
    destruct (decide (j / 8 = i)%nat) as [E|]; [|by rewrite list_lookup_insert_ne by done].
    rewrite E, list_lookup_insert_eq, Hb by done. cbn [fmap option_fmap option_map]. f_equal.
    assert (Hjk : 7 - Z.of_nat (j mod 8) ≠ k).
    { unfold k. rewrite <- offset_mod by done. intros Hc. apply Hne.
      rewrite (Nat.div_mod_eq j 8), (Nat.div_mod_eq (Z.to_nat o) 8). unfold i in E. lia. }
    pose proof (Nat.mod_upper_bound j 8). rewrite bit_mask_pow2 by done. fold k. destruct b.
    + rewrite Z.lor_spec, Z.pow2_bits_false by lia. apply orb_false_r.
    + rewrite Z.land_spec, u8_not_testbit by lia.
      destruct (Z.eqb_spec (7 - Z.of_nat (j mod 8)) k); [done|]. apply andb_true_r.
Qed.

(** ** Fields as numbers *)
Lemma be_value_snoc l b : be_value (l ++ [b]) = 2 * be_value l + Z.b2z b.
Proof. unfold be_value. by rewrite foldl_app. Qed.

Lemma be_value_range l : 0 ≤ be_value l < 2 ^ Z.of_nat (length l).
Proof.
  induction l as [|b l IH] using rev_ind; [done|].
  rewrite be_value_snoc, length_app, Nat2Z.inj_add. change (Z.of_nat (length [b])) with 1.
  rewrite Z.pow_add_r by lia. change (2 ^ 1) with 2. destruct b; simpl; lia.
Qed.

Lemma field_bits_length n x : length (field_bits n x) = n.
Proof. unfold field_bits. by rewrite length_fmap, length_seq. Qed.

Lemma field_bits_lookup n x i :
  (i < n)%nat → field_bits n x !! i = Some (Z.testbit x (Z.of_nat n - 1 - Z.of_nat i)).
Proof. intros. unfold field_bits. by rewrite list_lookup_fmap, lookup_seq_lt by done. Qed.

Lemma field_bits_snoc n x : field_bits (S n) x = field_bits n (Z.div2 x) ++ [Z.odd x].
Proof.
  apply list_eq. intros i. destruct (decide (i < n)%nat).
  - rewrite lookup_app_l by (by rewrite field_bits_length).
    rewrite !field_bits_lookup by lia. f_equal. rewrite Z.div2_spec, Z.shiftr_spec by lia. f_equal. lia.
  - destruct (decide (i = n)) as [->|].
    + rewrite field_bits_lookup, lookup_app_r by (rewrite ?field_bits_length; lia).
      rewrite field_bits_length, Nat.sub_diag. simpl. f_equal. rewrite <- Z.bit0_odd. f_equal. lia.
    + rewrite !lookup_ge_None_2; [done| |]; rewrite ?length_app, !field_bits_length; simpl; lia.
Qed.

(** Writing the [n] low bits of [x] and reading them back gives [x] mod 2^n. *)
Lemma be_value_field_bits n x : be_value (field_bits n x) = x mod 2 ^ Z.of_nat n.
Proof.
  revert x. induction n as [|n IH]; intros x; [by rewrite Z.mod_1_r|].
  rewrite field_bits_snoc, be_value_snoc, IH, Nat2Z.inj_succ, Z.pow_succ_r by lia.
  pose proof (Z.div2_odd x) as Hx. rewrite Z.rem_mul_r by (try apply Z.pow_pos_nonneg; lia).
  rewrite <- Z.div2_div, (Zmod_odd x). destruct (Z.odd x); simpl; lia.
Qed.

(** Reading a field and writing its number back gives the same bits. *)
Lemma field_bits_be_value l : field_bits (length l) (be_value l) = l.
Proof.
  induction l as [|b l IH] using rev_ind; [done|].
  rewrite length_app, Nat.add_1_r, field_bits_snoc, be_value_snoc.
  replace (Z.div2 (2 * be_value l + Z.b2z b)) with (be_value l)
    by (rewrite Z.div2_div; apply Z.div_unique with (r := Z.b2z b); destruct b; simpl; lia).
  rewrite IH. by rewrite Z.add_comm, Z.odd_add_mul_2; destruct b.
Qed.

Lemma field_at_length l o n : length (field_at l o n) = n.
Proof. apply length_resize. Qed.

Lemma field_at_lookup l o n i : (i < n)%nat → field_at l o n !! i = Some (default false (l !! (o + i)%nat)).
Proof.
  intros. unfold field_at. destruct (decide (o + i < length l)%nat).
  - rewrite lookup_resize by (rewrite ?length_drop; lia). rewrite lookup_drop.
    destruct (lookup_lt_is_Some_2 l (o + i) ltac:(lia)) as [b ->]. done.
  - rewrite lookup_resize_new by (rewrite ?length_drop; lia). by rewrite lookup_ge_None_2 by lia.
Qed.

Lemma field_at_snoc l o n : field_at l o (S n) = field_at l o n ++ [default false (l !! (o + n)%nat)].
Proof.
  apply list_eq_same_length with (S n); rewrite ?length_app, ?field_at_length; simpl; [lia|lia|].
  intros i x y Hi. destruct (decide (i = n)) as [->|].
  - rewrite field_at_lookup, lookup_app_r by (rewrite ?field_at_length; lia).
    rewrite field_at_length, Nat.sub_diag. simpl. congruence.
  - rewrite lookup_app_l by (rewrite ?field_at_length; lia). rewrite !field_at_lookup by lia. congruence.
Qed.

(** ** Reading *)
Lemma lor_even_one a : 0 ≤ a → Z.lor (2 * a) 1 = 2 * a + 1.
Proof. destruct a; done. Qed.

Lemma read_unsigned_nat value o n :
  0 ≤ o → (n ≤ 64)%nat →
  read_unsigned_field value o (Z.of_nat n) = be_value (field_at (bits_of value) (Z.to_nat o) n).
Proof.
  intros Ho. induction n as [|n IH]; intros Hn.
  { by rewrite (nil_length_inv (field_at _ _ 0)) by apply field_at_length. }
  unfold read_unsigned_field in *.
  rewrite seqZ_S, foldl_app, IH by lia. simpl foldl. rewrite field_at_snoc, be_value_snoc.
  pose proof (be_value_range (field_at (bits_of value) (Z.to_nat o) n)) as Hr. rewrite field_at_length in Hr.
  assert (2 ^ Z.of_nat n ≤ 2 ^ 63) by (apply Z.pow_le_mono_r; lia). change (2 ^ 63) with 9223372036854775808 in *.
  rewrite Z.shiftl_mul_pow2, Z.mul_comm by lia. change (2 ^ 1) with 2. unfold wrap_u64, two64.
  rewrite Z.mod_small by lia. rewrite read_bit_spec by lia.
  replace (Z.to_nat (o + (0 + Z.of_nat n))) with (Z.to_nat o + n)%nat by lia.
  destruct (default false _); cbn [Z.b2z]; [|lia]. apply lor_even_one. lia.
Qed.

Lemma wrap_i64_range z : - 2 ^ 63 ≤ z < 2 ^ 63 → wrap_i64 z = z.
Proof. intros. apply wrap_i64_id. unfold is_i64, i64_MIN, i64_MAX. lia. Qed.

Lemma pow2_le a b : 0 ≤ a ≤ b → 0 < 2 ^ a ≤ 2 ^ b.
Proof. intros. split; [apply Z.pow_pos_nonneg; lia|apply Z.pow_le_mono_r; lia]. Qed.

Lemma pow2_half n : 1 ≤ n → 2 ^ n = 2 * 2 ^ (n - 1).
Proof. intros. rewrite <- Z.pow_succ_r by lia. f_equal. lia. Qed.

(** Setting all bits above the field subtracts [2^n] in 64-bit two's complement. *)
Lemma lor_high raw n :
  0 ≤ n ≤ 64 → 0 ≤ raw < 2 ^ n → Z.lor raw (u64_MAX - (2 ^ n - 1)) = raw + (2 ^ 64 - 2 ^ n).
Proof.
  intros Hn Hraw. pose proof (pow2_le n 64).
  replace (u64_MAX - (2 ^ n - 1)) with (2 ^ 64 - 2 ^ n) by (unfold u64_MAX; lia).
  replace (2 ^ 64 - 2 ^ n) with (Z.shiftl (2 ^ (64 - n) - 1) n)
    by (rewrite Z.shiftl_mul_pow2 by lia; rewrite Z.mul_sub_distr_r, <- Z.pow_add_r by lia; f_equal; [f_equal|]; lia).
  assert (Z.land raw (Z.shiftl (2 ^ (64 - n) - 1) n) = 0) as Hl.
  { apply Z.bits_inj'. intros i ?. rewrite Z.land_spec, Z.bits_0. destruct (decide (i < n)).
    - rewrite Z.shiftl_spec_low by done. apply andb_false_r.
    - rewrite <- (Z.mod_small raw (2 ^ n)) by done. rewrite Z.mod_pow2_bits_high by lia. done. }
  by rewrite <- Z.add_lor_land, Hl, Z.add_0_r.
Qed.

Lemma testbit_top raw n : 1 ≤ n → 0 ≤ raw < 2 ^ n → Z.testbit raw (n - 1) = (2 ^ (n - 1) <=? raw).
Proof.
  intros Hn Hraw. rewrite (pow2_half n) in Hraw by done. pose proof (pow2_le (n - 1) (n - 1)).
  rewrite Z.testbit_eqb by lia. destruct (Z.leb_spec (2 ^ (n - 1)) raw).
  - replace (raw / 2 ^ (n - 1)) with 1; [done|]. apply Z.div_unique with (raw - 2 ^ (n - 1)); lia.
  - by rewrite Z.div_small by lia.
Qed.

Lemma sign_extend_spec raw n :
  1 ≤ n ≤ 64 → 0 ≤ raw < 2 ^ n → sign_extend raw n = if 2 ^ (n - 1) <=? raw then raw - 2 ^ n else raw.
Proof.
  intros Hn Hraw. unfold sign_extend. pose proof (pow2_half n ltac:(lia)) as Hh.
  destruct (Z.eqb_spec n 64) as [->|].
  - unfold wrap_i64, wrap_u64, two64, i64_MAX.
    change (2 ^ 64) with 18446744073709551616 in *. change (2 ^ (64 - 1)) with 9223372036854775808.
    rewrite Z.mod_small by lia.
    destruct (Z.leb_spec raw 9223372036854775807), (Z.leb_spec 9223372036854775808 raw); lia.
  - rewrite !Z.shiftl_mul_pow2, !Z.mul_1_l, land_pow2_zero, testbit_top by lia.
    pose proof (pow2_le n 63) as ?. change (2 ^ 63) with 9223372036854775808 in *.
    destruct (Z.leb_spec (2 ^ (n - 1)) raw); simpl negb.
    + rewrite lor_high by lia. unfold wrap_i64, wrap_u64, two64, i64_MAX.
      change (2 ^ 64) with 18446744073709551616. rewrite Z.mod_small by lia.
      destruct (Z.leb_spec (raw + (18446744073709551616 - 2 ^ n)) 9223372036854775807); lia.
    + rewrite Z.sub_1_r, <- Z.ones_equiv, Z.land_ones, Z.mod_small by lia.
      apply wrap_i64_range. change (2 ^ 63) with 9223372036854775808. lia.
Qed.

Lemma encoding_ok_bits e : encoding_ok e → 1 ≤ bits e ≤ 64.
Proof. unfold encoding_ok. destruct (signed e); lia. Qed.

Lemma read_field_spec value e o :
  encoding_ok e → 0 ≤ o →
  read_field value e o = interpret e (field_at (bits_of value) (Z.to_nat o) (Z.to_nat (bits e))).
Proof.
  intros He Ho. pose proof (encoding_ok_bits e He). unfold read_field, interpret.
  set (l := field_at _ _ _).
  assert (Hu : read_unsigned_field value o (bits e) = be_value l).
  { rewrite <- (Z2Nat.id (bits e)) at 1 by lia. apply read_unsigned_nat; lia. }
  pose proof (be_value_range l) as Hr. unfold l in Hr at 3. rewrite field_at_length, Z2Nat.id in Hr by lia.
  rewrite Hu. unfold encoding_ok in He. destruct (signed e); simpl; [by apply sign_extend_spec|].
  apply wrap_i64_range. pose proof (pow2_le (bits e) 63). lia.
Qed.

(** ** Writing *)
Lemma truncate_to_bits_spec x n : 1 ≤ n ≤ 64 → truncate_to_bits x n = x mod 2 ^ n.
Proof.
  intros Hn. unfold truncate_to_bits, wrap_u64, two64, two128.
  destruct (Z.eqb_spec n 64) as [->|]; [done|].
  rewrite Z.shiftl_mul_pow2, Z.mul_1_l, Z.sub_1_r, <- Z.ones_equiv, Z.land_ones by lia.
  pose proof (Z.mod_pos_bound (x mod 2 ^ 128) (2 ^ n)). pose proof (pow2_le n 64).
  change 18446744073709551616 with (2 ^ 64). rewrite (Z.mod_small _ (2 ^ 64)) by lia.
  symmetry. apply Znumtheory.Zmod_div_mod; [lia|done|].
  exists (2 ^ (128 - n)). rewrite <- Z.pow_add_r by lia. f_equal. lia.
Qed.

Lemma source_bit raw s : 0 ≤ s → (Z.land (Z.shiftr raw s) 1 =? 1) = Z.testbit raw s.
Proof.
  intros. change 1 with (Z.ones 1) at 1. rewrite Z.land_ones by lia. change (2 ^ 1) with 2.
  rewrite Zmod_odd, Z.testbit_odd. by destruct (Z.odd _).
Qed.

Lemma write_bits_nat raw o (n k : nat) value :
  0 ≤ o → (k ≤ n)%nat → (Z.to_nat o + n ≤ 8 * length value)%nat → Forall is_u8 value →
  ∃ value', foldl (λ value bit, value ← value; let source_shift := (Z.of_nat n - bit - 1)%Z in
              write_bit value (o + bit) (Z.land (Z.shiftr raw source_shift) 1 =? 1)%Z) (Some value)
              (seqZ 0 (Z.of_nat k)) = Some value' ∧
    Forall is_u8 value' ∧ length value' = length value ∧
    ∀ j, bits_of value' !! j =
         if decide (Z.to_nat o ≤ j < Z.to_nat o + k)%nat then field_bits n raw !! (j - Z.to_nat o)%nat
         else bits_of value !! j.
Proof.
  intros Ho Hk Hlen Hu. induction k as [|k IH].
  { exists value. split; [done|]. split; [done|]. split; [done|]. intros j. by rewrite decide_False by lia. }
  destruct IH as (v & Ev & Hv & Hl & Hb); [lia|]. rewrite seqZ_S, foldl_app, Ev.
  cbn [foldl mbind option_bind]. rewrite source_bit by lia.
  destruct (write_bit_spec v (o + (0 + Z.of_nat k)) (Z.testbit raw (Z.of_nat n - (0 + Z.of_nat k) - 1)))
    as (v' & Ev' & Hv' & Hl' & Hb'); [lia|rewrite bits_of_length; lia|done|].
  exists v'. split; [done|]. split; [done|]. split; [congruence|]. intros j. rewrite Hb'.
  replace (Z.to_nat (o + (0 + Z.of_nat k))) with (Z.to_nat o + k)%nat by lia.
  destruct (decide (j = Z.to_nat o + k)%nat) as [->|].
  - rewrite list_lookup_insert_eq by (rewrite bits_of_length; lia).
    rewrite decide_True, field_bits_lookup by lia. do 2 f_equal. lia.
  - rewrite list_lookup_insert_ne, Hb by done. repeat case_decide; (done || lia).
Qed.

Lemma splice_lookup (l new : list bool) o j :
  (o + length new ≤ length l)%nat →
  (take o l ++ new ++ drop (o + length new) l) !! j =
  if decide (o ≤ j < o + length new)%nat then new !! (j - o)%nat else l !! j.
Proof.
  intros. assert (Ht : length (take o l) = o) by (rewrite length_take; lia).
  destruct (decide (j < o)%nat).
  - rewrite lookup_app_l, lookup_take_lt, decide_False by lia. done.
  - rewrite lookup_app_r, Ht by lia. destruct (decide (j - o < length new)%nat).
    + rewrite lookup_app_l, decide_True by lia. done.
    + rewrite lookup_app_r, lookup_drop, decide_False by lia. f_equal. lia.
Qed.

Lemma bits_of_app v w : bits_of (v ++ w) = bits_of v ++ bits_of w.
Proof. apply bind_app. Qed.

Lemma bits_of_zeros n : bits_of (replicate n 0) = replicate (8 * n) false.
Proof.
  induction n as [|n IH]; [done|]. simpl replicate at 1. rewrite bits_of_cons, IH.
  replace (8 * S n)%nat with (8 + 8 * n)%nat by lia. by rewrite replicate_add.
Qed.

Lemma resize_bytes_bits value n :
  Z.of_nat (length value) ≤ n → bits_of (resize_bytes n value) = resize (8 * Z.to_nat n) false (bits_of value).
Proof.
  intros. unfold resize_bytes. rewrite !resize_ge by (rewrite ?bits_of_length; lia).
  rewrite bits_of_app, bits_of_zeros, bits_of_length. do 2 f_equal. lia.
Qed.

Lemma resize_bytes_u8 value n : Forall is_u8 value → Forall is_u8 (resize_bytes n value).
Proof. intros. apply Forall_resize; [|done]. unfold is_u8. lia. Qed.

(** The buffer that [write_field] writes into. *)
Lemma write_buffer value last (needed := last / 8 + 1)
    (buffer := if Z.of_nat (length value) <? needed then resize_bytes needed value else value) :
  0 ≤ last → Forall is_u8 value →
  Forall is_u8 buffer ∧ bits_of buffer = grow (bits_of value) (Z.to_nat last) ∧
  (Z.to_nat last < 8 * length buffer)%nat.
Proof.
  intros Hlast Hu. subst buffer needed. unfold grow. rewrite bits_of_length.
  pose proof (offset_index last Hlast) as Hi. pose proof (Z.div_pos last 8).
  pose proof (Z.div_mod last 8). pose proof (Z.mod_pos_bound last 8).
  destruct (Z.ltb_spec (Z.of_nat (length value)) (last / 8 + 1)).
  - split; [by apply resize_bytes_u8|]. split.
    + rewrite resize_bytes_bits by lia. f_equal. rewrite <- Hi. lia.
    + unfold resize_bytes. rewrite length_resize. lia.
  - split; [done|]. split; [|lia]. rewrite resize_all_alt; [done|]. rewrite bits_of_length, <- Hi. lia.
Qed.

Lemma write_field_spec value e o x :
  encoding_ok e → 0 ≤ o → Forall is_u8 value →
  ∃ value', write_field value e o x = Some value' ∧ Forall is_u8 value' ∧
    bits_of value' = put_field (bits_of value) (Z.to_nat o) (field_bits (Z.to_nat (bits e)) x).
Proof.
  intros He Ho Hu. pose proof (encoding_ok_bits e He). unfold write_field.
  destruct (write_buffer value (o + bits e - 1)) as (Hb & Hg & Hl); [lia|done|].
  set (buffer := if _ <? _ then _ else _) in *. set (n := Z.to_nat (bits e)).
  unfold write_bits. rewrite truncate_to_bits_spec by lia.
  destruct (write_bits_nat (x mod 2 ^ bits e) o n n buffer) as (v & Ev & Hv & Hlv & Hbv); [lia|done|lia|done|].
  unfold n in Ev. rewrite Z2Nat.id in Ev by lia. exists v. split; [done|]. split; [done|].
  unfold put_field. rewrite field_bits_length.
  replace (Z.to_nat o + n - 1)%nat with (Z.to_nat (o + bits e - 1)) by (unfold n; lia). rewrite <- Hg.
  apply list_eq. intros j. rewrite Hbv.
  assert (Hf : field_bits n (x mod 2 ^ bits e) = field_bits n x).
  { apply list_fmap_ext. intros i0 i Hi%lookup_seq. apply Z.mod_pow2_bits_low. unfold n in *. lia. }
  pose proof (splice_lookup (bits_of buffer) (field_bits n x) (Z.to_nat o) j) as Hs.
  rewrite field_bits_length in Hs. rewrite Hf, Hs; [done|]. rewrite bits_of_length. unfold n. lia.
Qed.

(** ** Increments *)
Lemma value_bounds_spec e :
  encoding_ok e → value_bounds e = if signed e then (- 2 ^ (bits e - 1), 2 ^ (bits e - 1) - 1) else (0, 2 ^ bits e - 1).
Proof.
  intros He%encoding_ok_bits. unfold value_bounds. rewrite !Z.shiftl_mul_pow2, !Z.mul_1_l by lia. done.
Qed.

Lemma wrap_value_spec e x : encoding_ok e → wrap_value x e = interpret e (field_bits (Z.to_nat (bits e)) x).
Proof.
  intros He%encoding_ok_bits. unfold wrap_value, interpret.
  rewrite be_value_field_bits, Z2Nat.id, !Z.shiftl_mul_pow2, !Z.mul_1_l by lia. done.
Qed.

Lemma interpret_range e l :
  encoding_ok e → length l = Z.to_nat (bits e) → in_bounds e (interpret e l) = true.
Proof.
  intros He Hl. pose proof (be_value_range l) as Hr. pose proof (encoding_ok_bits e He).
  rewrite Hl, Z2Nat.id in Hr by lia. unfold in_bounds, interpret.
  pose proof (pow2_half (bits e) ltac:(lia)). destruct (signed e); simpl.
  - destruct (Z.leb_spec (2 ^ (bits e - 1)) (be_value l)); apply andb_true_iff; rewrite Z.leb_le, Z.ltb_lt; lia.
  - apply andb_true_iff. rewrite Z.leb_le, Z.ltb_lt. lia.
Qed.

Lemma in_bounds_i64 e v : encoding_ok e → in_bounds e v = true → is_i64 v.
Proof.
  unfold encoding_ok, in_bounds, is_i64, i64_MIN, i64_MAX. intros He.
  destruct (signed e); rewrite andb_true_iff, Z.leb_le, Z.ltb_lt.
  - pose proof (pow2_le (bits e - 1) 63) as Hp. change (2 ^ 63) with 9223372036854775808 in Hp. lia.
  - pose proof (pow2_le (bits e) 63) as Hp. change (2 ^ 63) with 9223372036854775808 in Hp. lia.
Qed.

(** The interpretation of the bits of a number in bounds is the number. *)
Lemma interpret_field_bits e v :
  encoding_ok e → in_bounds e v = true → interpret e (field_bits (Z.to_nat (bits e)) v) = v.
Proof.
  intros He Hv. pose proof (encoding_ok_bits e He). unfold interpret.
  rewrite be_value_field_bits, Z2Nat.id by lia. unfold in_bounds in Hv.
  pose proof (pow2_half (bits e) ltac:(lia)) as Hh. pose proof (pow2_le (bits e - 1) (bits e - 1)).
  destruct (signed e); rewrite andb_true_iff, Z.leb_le, Z.ltb_lt in Hv; simpl; [|by apply Z.mod_small].
  destruct (decide (0 ≤ v)).
  - rewrite Z.mod_small by lia. destruct (Z.leb_spec (2 ^ (bits e - 1)) v); lia.
  - assert (E : v mod 2 ^ bits e = v + 2 ^ bits e).
    { symmetry. apply Z.mod_unique with (-1); lia. }
    rewrite E. destruct (Z.leb_spec (2 ^ (bits e - 1)) (v + 2 ^ bits e)); lia.
Qed.

Lemma apply_increment_spec e old increment overflow :
  encoding_ok e → in_bounds e old = true → is_i64 increment →
  apply_increment old increment e overflow = spec_increment e overflow (old + increment).
Proof.
  intros He Hold%(in_bounds_i64 e) Hinc; [|done]. unfold is_i64, i64_MIN, i64_MAX in *.
  unfold apply_increment, spec_increment, i128_saturating_add, i128_MIN, i128_MAX.
  change (2 ^ 127) with 170141183460469231731687303715884105728.
  replace (Z.max _ _) with (old + increment) by lia. set (v := old + increment).
  rewrite value_bounds_spec by done. pose proof (encoding_ok_bits e He).
  pose proof (pow2_le (bits e - 1) (bits e)). unfold in_bounds, clamp.
  replace (wrap_value v e) with (interpret e (field_bits (Z.to_nat (bits e)) v))
    by (symmetry; by apply wrap_value_spec).
  destruct (signed e); simpl.
  - replace (v <=? 2 ^ (bits e - 1) - 1) with (v <? 2 ^ (bits e - 1))
      by (destruct (Z.ltb_spec v (2 ^ (bits e - 1))), (Z.leb_spec v (2 ^ (bits e - 1) - 1)); lia || done).
    destruct (_ && _) eqn:E; [done|]. destruct overflow; try done.
    apply andb_false_iff in E. rewrite Z.leb_gt, Z.ltb_ge in E.
    destruct (Z.ltb_spec v (- 2 ^ (bits e - 1))), (Z.ltb_spec v 0), (Z.ltb_spec (2 ^ (bits e - 1) - 1) v); lia || done.
  - replace (v <=? 2 ^ bits e - 1) with (v <? 2 ^ bits e)
      by (destruct (Z.ltb_spec v (2 ^ bits e)), (Z.leb_spec v (2 ^ bits e - 1)); lia || done).
    destruct (_ && _) eqn:E; [done|]. destruct overflow; try done.
    apply andb_false_iff in E. rewrite Z.leb_gt, Z.ltb_ge in E.
    destruct (Z.ltb_spec v 0), (Z.ltb_spec (2 ^ bits e - 1) v); lia || done.
Qed.

Lemma spec_increment_in_bounds e overflow v v' :
  encoding_ok e → spec_increment e overflow v = Some v' → in_bounds e v' = true.
Proof.
  intros He. unfold spec_increment. destruct (in_bounds e v) eqn:Ev; [by intros [= <-]|].
  pose proof (encoding_ok_bits e He). pose proof (pow2_le (bits e - 1) (bits e)).
  destruct overflow; [intros [= <-]|case_match; intros [= <-]|done].
  - apply interpret_range; [done|apply field_bits_length].
  - unfold in_bounds. destruct (signed e); apply andb_true_iff; rewrite Z.leb_le, Z.ltb_lt; lia.
  - unfold in_bounds. destruct (signed e); apply andb_true_iff; rewrite Z.leb_le, Z.ltb_lt; lia.
Qed.

(** ** One operation, and a sequence of them *)
Lemma write_op_spec value op :
  op_ok op → Forall is_u8 value →
  ∃ response value', write_op value op = Some (response, value') ∧ Forall is_u8 value' ∧
                     spec_op (bits_of value) op = (response, bits_of value').
Proof.
  intros Hok Hu. destruct op as [e o|e o v|e o i overflow]; simpl in Hok.
  - destruct Hok as [He [Ho _]]. eexists _, _. split; [done|]. split; [done|]. simpl. by rewrite read_field_spec.
  - destruct Hok as (He & [Ho _] & _). destruct (write_field_spec value e o v He Ho Hu) as (v' & Ev & Hv & Hb).
    simpl. rewrite Ev. eexists _, _. split; [done|]. split; [done|]. by rewrite Hb, read_field_spec.
  - destruct Hok as (He & [Ho _] & Hi). simpl.
    rewrite read_field_spec by done. set (old := interpret e _).
    assert (Hold : in_bounds e old = true) by (apply interpret_range; [done|apply field_at_length]).
    rewrite apply_increment_spec by done.
    destruct (spec_increment e overflow (old + i)) as [v|] eqn:Es; [|by eexists _, _].
    destruct (write_field_spec value e o v He Ho Hu) as (v' & Ev & Hv & Hb).
    rewrite Ev. eexists _, _. split; [done|]. split; [done|]. rewrite Hb, wrap_i64_id; [done|].
    by eapply in_bounds_i64, spec_increment_in_bounds.
Qed.

Lemma write_ops_spec value ops :
  Forall op_ok ops → Forall is_u8 value →
  ∃ responses value', write_ops value ops = Some (responses, value') ∧ Forall is_u8 value' ∧
                      spec_ops (bits_of value) ops = (responses, bits_of value').
Proof.
  revert value. induction ops as [|op ops IH]; intros value Hops Hu; [by eexists _, _|].
  apply Forall_cons in Hops as [Hop Hops].
  destruct (write_op_spec value op Hop Hu) as (r & v & E1 & Hv & S1).
  destruct (IH v Hops Hv) as (rs & v' & E2 & Hv' & S2).
  simpl. rewrite E1. simpl. rewrite E2. simpl. eexists _, _. split; [done|]. split; [done|]. by rewrite S1, S2.
Qed.

(** ** The parser *)
Lemma redis_parse_i64_range raw v : redis_parse_i64 raw = Some v → is_i64 v.
Proof.
  unfold redis_parse_i64, parse_i64_bytes. destruct (utf8_valid raw); [|done].
  intros (w & _ & Hw)%bind_Some. destruct (_ && _) eqn:E; [|done]. injection Hw as <-.
  apply andb_true_iff in E. rewrite !Z.leb_le in E. done.
Qed.

Lemma reply_bind_inr {A B} (x : Reply A) (f : A → Reply B) b :
  x ≫= f = inr b → ∃ a, x = inr a ∧ f a = inr b.
Proof. destruct x; [done|]. eauto. Qed.

Lemma or_reply_inr {A} (o : option A) frame a : or_reply o frame = inr a → o = Some a.
Proof. destruct o; [|done]. by intros [= ->]. Qed.

Lemma parse_encoding_ok raw e : parse_encoding raw = inr e → encoding_ok e.
Proof.
  unfold parse_encoding. destruct raw as [|kind raw]; [done|].
  intros (s & _ & (n & _ & Hn)%reply_bind_inr)%reply_bind_inr.
  destruct (_ && _) eqn:E; [|done]. injection Hn as <-. unfold encoding_ok. simpl.
  apply andb_true_iff in E. rewrite !Z.leb_le in E. done.
Qed.

Lemma usize_in_range_Some z v : usize_in_range z = Some v → v = z ∧ 0 ≤ z.
Proof.
  unfold usize_in_range. destruct (_ && _) eqn:E; [|done]. intros [= ->]. apply andb_true_iff in E.
  rewrite !Z.leb_le in E. tauto.
Qed.

Lemma parse_field_offset_ok raw n o :
  parse_field_offset raw n = inr o → 0 ≤ o ∧ o + n - 1 ≤ REDIS_STRING_MAX_BIT_OFFSET.
Proof.
  unfold parse_field_offset. destruct (match raw with [] => _ | _ => _ end) as [raw' m].
  intros (x & _ & Hx)%reply_bind_inr. destruct (x <? 0); [done|].
  apply reply_bind_inr in Hx as (y & [-> ?]%or_reply_inr%usize_in_range_Some & Hy).
  apply reply_bind_inr in Hy as (z & Hz%or_reply_inr & Hlast).
  apply bind_Some in Hz as (w & [-> ?]%usize_in_range_Some & [-> ?]%usize_in_range_Some).
  destruct (Z.ltb_spec REDIS_STRING_MAX_BIT_OFFSET (x * m + n - 1)); [done|]. by injection Hlast as <-.
Qed.

Lemma parse_encoding_and_offset_ok args e o :
  parse_encoding_and_offset args = inr (Some (e, o)) → encoding_ok e ∧ offset_ok e o.
Proof.
  unfold parse_encoding_and_offset. destruct args as [|re [|ro args]]; [done..|].
  intros (e' & He & (o' & Ho & [= -> ->])%reply_bind_inr)%reply_bind_inr.
  split; [by eapply parse_encoding_ok|by eapply parse_field_offset_ok].
Qed.

Lemma parse_write_ok args e o v :
  parse_write args = inr (e, o, v) → encoding_ok e ∧ offset_ok e o ∧ is_i64 v.
Proof.
  unfold parse_write. intros ([[e' o']|] & He & H)%reply_bind_inr; [|done].
  apply reply_bind_inr in H as (raw & _ & (v' & Hv%or_reply_inr%redis_parse_i64_range & [= -> -> ->])%reply_bind_inr).
  apply parse_encoding_and_offset_ok in He as [? ?]. done.
Qed.

Lemma parse_ops_from_ok fuel overflow args ops :
  parse_ops_from fuel overflow args = inr ops → Forall op_ok ops.
Proof.
  revert overflow args ops. induction fuel as [|fuel IH]; intros overflow args ops; [by intros [= <-]|].
  destruct args as [|command args]; [by intros [= <-]|]. cbn [parse_ops_from].
  destruct (eq_ignore_ascii_case command (text "OVERFLOW")).
  { intros (p & _ & H)%reply_bind_inr. by eapply IH. }
  destruct (eq_ignore_ascii_case command (text "GET")).
  { intros ([[e o]|] & He & H)%reply_bind_inr; [|done].
    apply reply_bind_inr in H as (os & Hos & [= <-]).
    constructor; [by eapply parse_encoding_and_offset_ok|by eapply IH]. }
  destruct (eq_ignore_ascii_case command (text "SET")).
  { intros ([[e o] v] & He & H)%reply_bind_inr. apply reply_bind_inr in H as (os & Hos & [= <-]).
    constructor; [by eapply parse_write_ok|by eapply IH]. }
  destruct (eq_ignore_ascii_case command (text "INCRBY")); [|done].
  intros ([[e o] v] & He & H)%reply_bind_inr. apply reply_bind_inr in H as (os & Hos & [= <-]).
  constructor; [by eapply parse_write_ok|by eapply IH].
Qed.

(** ** Fields of a string that has been written *)
Lemma grow_lookup l last j : default false (grow l last !! j) = default false (l !! j).
Proof.
  unfold grow. destruct (decide (j < length l)%nat).
  - rewrite lookup_resize by lia. done.
  - rewrite (lookup_ge_None_2 l) by lia.
    destruct (decide (j < length l `max` (8 * (last / 8 + 1)))%nat).
    + by rewrite lookup_resize_new by lia.
    + by rewrite lookup_resize_old by lia.
Qed.

Lemma grow_length l last : (last < length (grow l last))%nat.
Proof.
  unfold grow. rewrite length_resize. pose proof (Nat.div_mod_eq last 8). pose proof (Nat.mod_upper_bound last 8). lia.
Qed.

Lemma put_field_lookup l o new j :
  (0 < length new)%nat →
  default false (put_field l o new !! j) =
  if decide (o ≤ j < o + length new)%nat then default false (new !! (j - o)%nat) else default false (l !! j).
Proof.
  intros Hn. unfold put_field. pose proof (grow_length l (o + length new - 1)).
  rewrite splice_lookup by lia. case_decide; [done|]. apply grow_lookup.
Qed.

Lemma field_at_ext l l' o n :
  (∀ i, (i < n)%nat → default false (l !! (o + i)%nat) = default false (l' !! (o + i)%nat)) →
  field_at l o n = field_at l' o n.
Proof.
  intros Hl. apply list_eq_same_length with n; rewrite ?field_at_length; [done..|].
  intros i x y Hi. rewrite !field_at_lookup, Hl by done. congruence.
Qed.

Lemma field_at_put l o new : (0 < length new)%nat → field_at (put_field l o new) o (length new) = new.
Proof.
  intros Hn. apply list_eq_same_length with (length new); rewrite ?field_at_length; [done..|].
  intros i x y Hi. rewrite field_at_lookup, put_field_lookup, decide_True by lia.
  replace (o + i - o)%nat with i by lia. intros [= <-] ->. done.
Qed.

Lemma field_at_put_other l o new o' n' :
  (0 < length new)%nat → (o' + n' ≤ o ∨ o + length new ≤ o')%nat →
  field_at (put_field l o new) o' n' = field_at l o' n'.
Proof. intros Hn Hd. apply field_at_ext. intros i Hi. rewrite put_field_lookup, decide_False by lia. done. Qed.

(** ** Counting and finding bits *)
Lemma is_u8_count b : is_u8 b → count_ones b = Z.of_nat (length (filter (λ x, x = true) (byte_bits b))).
Proof.
  intros _. unfold count_ones, byte_bits. change (seqZ 0 8) with [0; 1; 2; 3; 4; 5; 6; 7].
  cbn [seq fmap list_fmap foldr].
  change (7 - Z.of_nat 0) with 7. change (7 - Z.of_nat 1) with 6. change (7 - Z.of_nat 2) with 5.
  change (7 - Z.of_nat 3) with 4. change (7 - Z.of_nat 4) with 3. change (7 - Z.of_nat 5) with 2.
  change (7 - Z.of_nat 6) with 1. change (7 - Z.of_nat 7) with 0.
  repeat match goal with |- context [Z.testbit b ?i] => destruct (Z.testbit b i) end; done.
Qed.

Definition ones (l : list bool) : Z := Z.of_nat (length (filter (λ x, x = true) l)).

Lemma ones_app l l' : ones (l ++ l') = ones l + ones l'.
Proof. unfold ones. rewrite filter_app, length_app. lia. Qed.

Lemma count_bits_spec value : Forall is_u8 value → count_bits value = ones (bits_of value).
Proof.
  unfold count_bits. intros Hu. cut (∀ a, foldl (λ n byte, n + count_ones byte) a value = a + ones (bits_of value)).
  { intros ->. done. }
  induction Hu as [|b value Hb Hu IH]; intros a; [unfold ones; simpl; lia|].
  simpl foldl. rewrite IH, bits_of_cons, ones_app, is_u8_count by done. unfold ones. lia.
Qed.

Lemma read_bits_ones value o (n : nat) :
  0 ≤ o → (Z.to_nat o + n ≤ length (bits_of value))%nat →
  Z.of_nat (length (filter (λ i, read_bit value i = true) (seqZ o (Z.of_nat n)))) =
  ones (take n (drop (Z.to_nat o) (bits_of value))).
Proof.
  intros Ho. induction n as [|n IH]; intros Hn; [done|].
  rewrite seqZ_S, filter_app, length_app, Nat2Z.inj_add, IH by lia.
  assert (Hlt : (Z.to_nat o + n < length (bits_of value))%nat) by lia.
  destruct (lookup_lt_is_Some_2 _ _ Hlt) as [b Hb].
  erewrite (take_S_r (drop _ _)); [|rewrite lookup_drop; exact Hb]. rewrite ones_app. f_equal.
  rewrite filter_cons, filter_nil, read_bit_spec by lia.
  replace (Z.to_nat (o + Z.of_nat n)) with (Z.to_nat o + n)%nat by lia. rewrite Hb. by destruct b.
Qed.

Lemma bits_of_take value n : bits_of (take n value) = take (8 * n) (bits_of value).
Proof.
  revert n. induction value as [|b value IH]; intros [|n]; try done.
  simpl take at 1. rewrite !bits_of_cons, IH. replace (8 * S n)%nat with (length (byte_bits b) + 8 * n)%nat
    by (rewrite byte_bits_length; lia). by rewrite take_app_add.
Qed.

Lemma bits_of_drop value n : bits_of (drop n value) = drop (8 * n) (bits_of value).
Proof.
  revert n. induction value as [|b value IH]; intros [|n]; try done.
  simpl drop at 1. rewrite !bits_of_cons, IH. replace (8 * S n)%nat with (length (byte_bits b) + 8 * n)%nat
    by (rewrite byte_bits_length; lia). by rewrite drop_app_add.
Qed.

(** The elements a clamped Redis range selects: the start is clamped into
    [0..=len], the stop into [0..len-1]. *)
Definition range_low (len : nat) (start : Z) : nat := Z.to_nat (Z.min (Z.max 0 (resolve len start)) (Z.of_nat len)).
Definition range_high (len : nat) (stop : Z) : nat := Z.to_nat (Z.max 0 (Z.min (resolve len stop) (Z.of_nat len - 1))).
Definition clamped_slice {A} (start stop : Z) (l : list A) : list A :=
  take (S (range_high (length l) stop) - range_low (length l) start) (drop (range_low (length l) start) l).

Lemma normalize_redis_range_spec len start stop :
  fits len → is_i64 start → is_i64 stop →
  normalize_redis_range len start stop =
  if decide (len ≠ 0%nat ∧ (range_low len start ≤ range_high len stop)%nat)
  then Some (mkRange (range_low len start) (range_high len stop)) else None.
Proof.
  intros Hf Hs Ht. unfold normalize_redis_range. destruct (Nat.eqb_spec len 0) as [->|Hlen].
  { by rewrite decide_False by tauto. }
  rewrite !resolve_i64, usize_as_i64_id by done. unfold range_low, range_high.
  assert (Hlo : clamp (resolve len start) 0 (Z.of_nat len) = Z.min (Z.max 0 (resolve len start)) (Z.of_nat len)).
  { unfold clamp. destruct (Z.ltb_spec (resolve len start) 0), (Z.ltb_spec (Z.of_nat len) (resolve len start)); lia. }
  assert (Hhi : clamp (resolve len stop) 0 (Z.of_nat len - 1) = Z.max 0 (Z.min (resolve len stop) (Z.of_nat len - 1))).
  { unfold clamp. destruct (Z.ltb_spec (resolve len stop) 0), (Z.ltb_spec (Z.of_nat len - 1) (resolve len stop)); lia. }
  rewrite Hlo, Hhi. case_decide as Hd; case_match eqn:E; try done; apply Z.leb_le in E || apply Z.leb_gt in E; lia.
Qed.

Lemma range_high_lt len stop : len ≠ 0%nat → (range_high len stop < len)%nat.
Proof. intros. unfold range_high. lia. Qed.

Lemma blen_bits_spec value : fits (8 * length value) → blen_bits value = Z.of_nat (length (bits_of value)).
Proof. intros Hf. rewrite bits_of_length. unfold fits, blen_bits, usize_saturating_mul, i64_MAX, u64_MAX in *. lia. Qed.

(** BITCOUNT counts the ones of the bytes, or of the bits, of its range. *)
Lemma count_bits_in_range_spec value start stop unit_ :
  fits (8 * length value) → Forall is_u8 value → is_i64 start → is_i64 stop →
  count_bits_in_range value start stop unit_ =
  match unit_ with
  | UnitByte => ones (bits_of (clamped_slice start stop value))
  | UnitBit => ones (clamped_slice start stop (bits_of value))
  end.
Proof.
  intros Hf Hu Hs Ht. unfold count_bits_in_range, clamped_slice. destruct unit_.
  - rewrite normalize_redis_range_spec by (unfold fits in *; try done; lia). case_decide as Hd; cbn [into_bounds].
    + apply count_bits_spec. by apply Forall_take, Forall_drop.
    + destruct value as [|b value]; [by rewrite drop_nil, take_nil|].
      replace (S _ - _)%nat with 0%nat; [done|]. simpl in Hd |- *. lia.
  - rewrite blen_bits_spec, Nat2Z.id by done.
    rewrite normalize_redis_range_spec by (rewrite ?bits_of_length; done).
    case_decide as Hd; cbn [into_bounds range_start range_stop].
    + unfold offsets. set (lo := range_low _ _) in *. set (hi := range_high _ _) in *.
      replace (Z.of_nat hi - Z.of_nat lo + 1) with (Z.of_nat (S hi - lo)) by lia.
      pose proof (range_high_lt (length (bits_of value)) stop) as Hh. fold hi in Hh.
      rewrite read_bits_ones by lia. by rewrite Nat2Z.id.
    + destruct (decide (length (bits_of value) = 0)%nat) as [E|].
      * rewrite (nil_length_inv _ E). by rewrite drop_nil, take_nil.
      * replace (S _ - _)%nat with 0%nat; [done|]. lia.
Qed.

(** A byte range counts what the bit range of its bits counts. *)
Lemma bits_of_slice start len value : bits_of (take len (drop start value)) = take (8 * len) (drop (8 * start) (bits_of value)).
Proof. by rewrite bits_of_take, bits_of_drop. Qed.

(** *** Finding a bit *)
Lemma first_bit_None value bit os :
  first_bit value bit os = None ↔ ∀ o, o ∈ os → read_bit value o ≠ bit.
Proof.
  induction os as [|o os IH]; simpl; [set_solver|].
  destruct (Bool.eqb (read_bit value o) bit) eqn:E.
  - apply eqb_prop in E. split; [done|]. intros Hc. exfalso. apply (Hc o); [set_solver|done].
  - apply eqb_false_iff in E. rewrite IH. set_solver.
Qed.

Lemma first_bit_Some value bit start (n : nat) o :
  first_bit value bit (seqZ start (Z.of_nat n)) = Some o →
  ∃ p, start ≤ p < start + Z.of_nat n ∧ o = wrap_i64 p ∧ read_bit value p = bit ∧
       ∀ j, start ≤ j < p → read_bit value j ≠ bit.
Proof.
  revert start. induction n as [|n IH]; intros start; [done|].
  rewrite seqZ_cons by lia. replace (Z.pred (Z.of_nat (S n))) with (Z.of_nat n) by lia. simpl.
  destruct (Bool.eqb (read_bit value start) bit) eqn:E.
  - intros [= <-]. exists start. apply eqb_prop in E. split; [lia|]. split; [done|]. split; [done|]. lia.
  - intros (p & Hp & Ho & Hb & Hj)%IH. exists p. split; [lia|]. split; [done|]. split; [done|].
    intros j Hj'. destruct (decide (j = start)) as [->|]; [by apply eqb_false_iff in E|]. apply Hj. lia.
Qed.

(** The positions a BITPOS range covers. *)
Definition in_window (value : Bytes) (start stop : option Z) (unit_ : BitRangeUnit) (o : nat) : Prop :=
  let len := match unit_ with UnitByte => length value | UnitBit => (8 * length value)%nat end in
  let index := match unit_ with UnitByte => (o / 8)%nat | UnitBit => o end in
  (range_low len (default 0%Z start) ≤ index ≤ range_high len (default (Z.of_nat len - 1)%Z stop) ∧ index < len)%nat.

(** The first position at or after the start of the range that is past the
    string, as far as an [i64] reaches. *)
Definition first_past (value : Bytes) (start : option Z) (unit_ : BitRangeUnit) : Z :=
  let start_bit := match unit_ with UnitByte => 8 * default 0 start | UnitBit => default 0 start end in
  Z.max (Z.of_nat (length (bits_of value))) (Z.min start_bit i64_MAX).

Lemma wrap_i64_nat n : fits n → wrap_i64 (Z.of_nat n) = Z.of_nat n.
Proof. intros. apply wrap_i64_id. unfold fits, is_i64, i64_MIN in *. lia. Qed.

Lemma find_bit_position_spec value bit start stop unit_ :
  fits (8 * length value) → (∀ s, start = Some s → is_i64 s) → (∀ s, stop = Some s → is_i64 s) →
  let p := find_bit_position value bit start stop unit_ in
  (∃ o, in_window value start stop unit_ o ∧ bits_of value !! o = Some bit ∧ p = Z.of_nat o ∧
        ∀ j, in_window value start stop unit_ j → (j < o)%nat → bits_of value !! j ≠ Some bit) ∨
  ((∀ j, in_window value start stop unit_ j → bits_of value !! j ≠ Some bit) ∧
   p = if negb bit && bool_decide (stop = None) then first_past value start unit_ else -1).
Proof.
  intros Hf Hs Ht p. subst p. unfold find_bit_position.
  set (len := match unit_ with UnitByte => length value | UnitBit => (8 * length value)%nat end).
  replace (match unit_ with UnitByte => Z.of_nat (length value) | UnitBit => blen_bits value end) with (Z.of_nat len)
    by (unfold len; destruct unit_; rewrite ?blen_bits_spec, ?bits_of_length by done; done).
  assert (Hlen : fits len) by (unfold len, fits in *; destruct unit_; lia).
  rewrite wrap_i64_nat by done. rewrite Nat2Z.id.
  assert (Hs' : is_i64 (default 0 start)) by (destruct start; simpl; [auto|by vm_compute]).
  assert (Ht' : is_i64 (default (Z.of_nat len - 1) stop))
    by (destruct stop; simpl; [auto|unfold fits, is_i64, i64_MIN, i64_MAX in *; lia]).
  rewrite normalize_redis_range_spec by done. pose proof (bits_of_length value) as Hbl.
  case_decide as Hd.
  - set (lo := range_low len _) in *. set (hi := range_high len _) in *.
    pose proof (range_high_lt len (default (Z.of_nat len - 1) stop)) as Hh. fold hi in Hh.
    cbn [into_bounds range_start range_stop].
    set (a := match unit_ with UnitByte => (8 * lo)%nat | UnitBit => lo end).
    set (b := match unit_ with UnitByte => (8 * hi + 7)%nat | UnitBit => hi end).
    replace (match unit_ with UnitByte => _ | UnitBit => _ end) with (Z.of_nat a, Z.of_nat b)
      by (unfold a, b, usize_saturating_mul, fits, i64_MAX, u64_MAX, len in *; destruct unit_; f_equal; lia).
    assert (Hw : ∀ j, in_window value start stop unit_ j ↔ (a ≤ j ≤ b)%nat).
    { intros j. unfold in_window. fold len lo hi. unfold a, b, len in *.
      pose proof (Nat.div_mod_eq j 8). pose proof (Nat.mod_upper_bound j 8). destruct unit_; lia. }
    unfold offsets. replace (Z.of_nat b - Z.of_nat a + 1) with (Z.of_nat (S b - a))
      by (unfold a, b; destruct unit_; lia).
    destruct (first_bit _ _ _) as [o|] eqn:E.
    + left. apply first_bit_Some in E as (q & Hq & -> & Hb & Hj). exists (Z.to_nat q).
      assert (Hlt : (Z.to_nat q < length (bits_of value))%nat) by (unfold a, b, len in *; destruct unit_; lia).
      assert (Hread : ∀ j, (j < length (bits_of value))%nat → bits_of value !! j = Some (read_bit value (Z.of_nat j))).
      { intros j Hlj. rewrite read_bit_spec, Nat2Z.id by lia.
        destruct (lookup_lt_is_Some_2 _ _ Hlj) as [x Hx]. by rewrite Hx. }
      split; [apply Hw; lia|]. split; [rewrite Hread, Z2Nat.id by lia; by rewrite Hb|].
      split; [rewrite <- (Z2Nat.id q) at 1 by lia; apply wrap_i64_nat; unfold fits in *; lia|].
      intros j Hjw%Hw Hlj. rewrite Hread by lia. intros [= Hc]. by apply (Hj (Z.of_nat j)); [lia|].
    + right. split.
      * intros j Hjw%Hw Hc. rewrite first_bit_None in E. apply (E (Z.of_nat j)).
        -- apply elem_of_seqZ. lia.
        -- rewrite read_bit_spec, Nat2Z.id, Hc by lia. done.
      * destruct (_ && _); [|done]. rewrite blen_bits_spec, wrap_i64_nat by (rewrite ?Hbl; done).
        assert (default 0 start ≤ Z.of_nat lo) by (unfold lo, range_low, resolve in *; destruct (_ <? 0) eqn:Hneg in *; lia).
        unfold first_past. clear Hw E. clearbody lo hi. unfold len in *. destruct unit_; rewrite Hbl; lia.
  - right. split.
    + intros j Hjw Hc. unfold in_window in Hjw. fold len in Hjw. lia.
    + destruct (_ && _); [|done]. unfold first_unbounded_zero_position.
      rewrite blen_bits_spec, wrap_i64_nat by (rewrite ?Hbl; done). unfold first_past, i64_saturating_mul.
      unfold is_i64, i64_MIN, i64_MAX in *. destruct (_ <? 0) eqn:E; destruct unit_; lia.
Qed.

(** *** BITOP *)
Definition bool_op (operation : BitOpKind) : bool → bool → bool :=
  match operation with OpAnd => andb | OpOr => orb | OpXor | OpNot => xorb end.

Definition bit_at (value : Bytes) (j : nat) : bool := default false (bits_of value !! j).

Lemma combine_byte_testbit op x y i : 0 ≤ i → Z.testbit (combine_byte op x y) i = bool_op op (Z.testbit x i) (Z.testbit y i).
Proof. intros. destruct op; simpl; rewrite ?Z.land_spec, ?Z.lor_spec, ?Z.lxor_spec; done. Qed.

Lemma combine_bytes_bit op result value j :
  (j < 8 * length result)%nat →
  bit_at (imap (λ index result_byte, combine_byte op result_byte (default 0 (value !! index))) result) j =
  bool_op op (bit_at result j) (bit_at value j).
Proof.
  intros Hj. unfold bit_at. rewrite !bits_of_lookup, list_lookup_imap.
  assert (Hi : (j / 8 < length result)%nat) by (apply Nat.Div0.div_lt_upper_bound; lia).
  destruct (lookup_lt_is_Some_2 _ _ Hi) as [x Hx]. rewrite Hx. cbn [fmap option_fmap option_map default].
  pose proof (Nat.mod_upper_bound j 8). rewrite combine_byte_testbit by lia. unfold id.
  destruct (value !! (j / 8)%nat); [done|]. cbn [default from_option fmap option_fmap option_map]. by rewrite Z.bits_0.
Qed.

Lemma fold_bitop_bit op values result j :
  (j < 8 * length result)%nat →
  bit_at (foldl (λ result value, imap (λ index result_byte,
            combine_byte op result_byte (default 0 (value !! index))) result) result values) j =
  foldl (λ b value, bool_op op b (bit_at value j)) (bit_at result j) values.
Proof.
  revert result. induction values as [|v values IH]; intros result Hj; [done|].
  cbn [foldl]. rewrite IH by (rewrite length_imap; done). by rewrite combine_bytes_bit.
Qed.

Lemma bit_at_replicate len x j :
  (j < 8 * len)%nat → bit_at (replicate len x) j = Z.testbit x (7 - Z.of_nat (j mod 8)).
Proof.
  intros Hj. unfold bit_at. rewrite bits_of_lookup, lookup_replicate_2; [done|].
  apply Nat.Div0.div_lt_upper_bound. lia.
Qed.

Lemma ones_255 i : 0 ≤ i < 8 → Z.testbit 255 i = true.
Proof. intros. change 255 with (Z.ones 8). apply Z.ones_spec_low. lia. Qed.
