(* ===== verification/Fast.v ===== *)
(** * The fast binary protocol: requests, routing keys, responses

    [protocol/fast.rs] above the command kinds of [FastKinds]: the routing keys
    of a command, the request and response types, and [FastCodec].  A reader
    over the body of a frame is a function of the body and the cursor ([Take]);
    [?] is its bind.  Error messages are constructors of [FastError]. *)

From S2P Require Import Prelude Helpers F64 Codec Resp FastKinds.

Definition FAST_REQUEST_MAGIC : Z := 250%Z.
Definition FAST_RESPONSE_MAGIC : Z := 251%Z.
Definition FAST_PROTOCOL_VERSION : Z := 2%Z.
Definition FAST_FLAG_KEY_HASH : Z := 1%Z.
Definition FAST_FLAG_ROUTE_SHARD : Z := 2%Z.
Definition FAST_FLAG_KEY_TAG : Z := 4%Z.
Definition FAST_FLAG_REDIS_COMMAND_ARGS : Z := 8%Z.
Definition REQUEST_HEADER_LEN : nat := 8.
Definition RESPONSE_HEADER_LEN : nat := 8.
Definition FAST_MAX_COLLECTION_ITEMS : Z := 65536%Z.

(** ** Routing keys *)

Inductive FastRedisRouteKeys :=
  | RouteNone
  | AllShards
  | Keys (keys : list Bytes).

Definition first_key (r : FastRedisRouteKeys) : option Bytes :=
  match r with Keys keys => head keys | RouteNone | AllShards => None end.

Definition has_keys (r : FastRedisRouteKeys) : bool :=
  match r with Keys (_ :: _) => true | _ => false end.

Definition all_route_keys (args : list Bytes) : FastRedisRouteKeys := Keys args.

Definition first_n_route_keys (args : list Bytes) (count : nat) : FastRedisRouteKeys :=
  Keys (take count args).

(** [iter().step_by(step)], [skip] elements before the next one. *)
Fixpoint step_by (step skip : nat) (l : list Bytes) : list Bytes :=
  match l with
  | [] => []
  | x :: l' => match skip with O => x :: step_by step (step - 1) l' | S skip' => step_by step skip' l' end
  end.

Definition every_nth_route_key (args : list Bytes) (start step : nat) : FastRedisRouteKeys :=
  Keys (step_by step 0 (drop start args)).

Definition first_and_tail_route_keys (args : list Bytes) (first_count tail_start : nat)
    : FastRedisRouteKeys :=
  Keys (take first_count args ++ drop tail_start args).

Definition route_keys_before_last_arg (args : list Bytes) : FastRedisRouteKeys :=
  Keys (take (length args - 1) args).

Definition parse_ascii_usize (raw : Bytes) : option Z :=
  if utf8_valid raw then parse_u64 raw else None.

Definition counted_key_span (args : list Bytes) (numkeys_index : nat) : option (list Bytes) :=
  raw ← args !! numkeys_index;
  numkeys ← parse_ascii_usize raw;
  key_start ← usize_checked (Z.of_nat numkeys_index + 1);
  key_end ← usize_checked (key_start + numkeys);
  if (numkeys =? 0)%Z then None
  else if (key_end <=? Z.of_nat (length args))%Z
  then Some (take (Z.to_nat numkeys) (drop (Z.to_nat key_start) args)) else None.

Definition counted_route_keys (args : list Bytes) (numkeys_index : nat) : FastRedisRouteKeys :=
  match counted_key_span args numkeys_index with
  | Some keys => Keys keys
  | None => AllShards
  end.

(** [Vec::<&[u8]>::with_capacity(n)] panics when [n] slices of 16 bytes exceed
    [isize::MAX] bytes.  [numkeys + 1] wraps as in a release build. *)
Definition with_capacity_panics (capacity : Z) : bool := (i64_MAX <? 16 * capacity)%Z.

(** [None] is the panic of [with_capacity]. *)
Definition zaggregate_store_route_keys (args : list Bytes) : option FastRedisRouteKeys :=
  match args with
  | destination :: count :: sources =>
      match parse_ascii_usize count with
      | None => Some AllShards
      | Some numkeys =>
          if with_capacity_panics (wrap_u64 (numkeys + 1)) then None
          else Some (Keys (destination :: take (Z.to_nat (Z.min numkeys (Z.of_nat (length sources)))) sources))
      end
  | _ => Some (first_n_route_keys args 1)
  end.

Definition redis_route_keys (kind : FastCommandKind) (args : list Bytes) : option FastRedisRouteKeys :=
  match kind with
  | KAuth | KHello | KSelect | KQuit | KPing | KEcho | KInfo | KCommand | KCommandDocs | KConfig
  | KConfigGet | KDbSize | KTime | KClient | KClientGetName | KClientSetName | KClientId
  | KClientList | KClientKill | KMulti | KExec | KDiscard | KUnwatch => Some RouteNone
  | KKeys | KRandomKey | KScan | KFlushAll | KFlushDb => Some AllShards
  | KDelete | KUnlink | KTouch | KMGet | KSUnion | KSInter | KSDiff | KWatch =>
      Some (all_route_keys args)
  | KMSet | KMSetNx => Some (every_nth_route_key args 0 2)
  | KCopy | KRename | KRenameNx | KRPopLPush | KBRPopLPush | KLMove | KBLMove | KSMove =>
      Some (first_n_route_keys args 2)
  | KObject | KMemory => Some (first_n_route_keys (drop 1 args) 1)
  | KBitOp => Some (all_route_keys (drop 1 args))
  | KLMPop | KZMPop | KZDiff | KZInter | KZUnion => Some (counted_route_keys args 0)
  | KBLMPop | KBZMPop => Some (counted_route_keys args 1)
  | KBLPop | KBRPop | KBZPopMin | KBZPopMax => Some (route_keys_before_last_arg args)
  | KSUnionStore | KSInterStore | KSDiffStore => Some (first_and_tail_route_keys args 0 1)
  | KZUnionStore | KZInterStore | KZDiffStore => zaggregate_store_route_keys args
  | KZInterCard => Some (counted_route_keys args 0)
  | KZRangeStore => Some (first_n_route_keys args 2)
  | _ => Some (first_n_route_keys args 1)
  end.

Definition route_key_from_redis_args (kind : FastCommandKind) (args : list Bytes) : option (option Bytes) :=
  first_key <$> redis_route_keys kind args.

Definition is_generic_redis_opcode (kind : FastCommandKind) : bool :=
  bool_decide (is_Some (redis_name kind)) &&
  match kind with
  | KGet | KSet | KSetEx | KGetEx | KDelete | KExists | KTtl | KExpire | KPing | KMGet | KMSet
  | KAuth | KHello | KSelect | KQuit | KEcho | KInfo | KCommand | KDbSize | KTime | KHSet | KHGet
  | KHDel | KHLen | KHMGet | KLPush | KRPush | KLPop | KRPop | KLLen | KLIndex | KLRange | KSAdd
  | KSRem | KSIsMember | KSCard | KSMembers | KZAdd | KZRem | KZScore | KZCard | KZRange => false
  | _ => true
  end.

(** ** Requests and responses *)

Inductive FastCommand :=
  | FPing (payload : option Bytes)
  | FAuth
  | FHello (proto : option Z)
  | FSelect (db : Z)
  | FQuit
  | FEcho (payload : Bytes)
  | FInfo
  | FCommand
  | FCommandDocs
  | FConfigGet (patterns : list Bytes)
  | FDbSize
  | FTime
  | FClientGetName
  | FClientSetName (name : Bytes)
  | FClientId
  | FClientList
  | FClientKill
  | FGet (key : Bytes)
  | FSet (key value : Bytes)
  | FSetEx (key value : Bytes) (ttl_ms : Z)
  | FGetEx (key : Bytes) (ttl_ms : Z)
  | FDelete (key : Bytes)
  | FExists (key : Bytes)
  | FTtl (key : Bytes)
  | FExpire (key : Bytes) (ttl_ms : Z)
  | FMGet (keys : list Bytes)
  | FMSet (items : list (Bytes * Bytes))
  | FHSet (key field value : Bytes)
  | FHGet (key field : Bytes)
  | FHDel (key field : Bytes)
  | FHLen (key : Bytes)
  | FHMGet (key : Bytes) (fields : list Bytes)
  | FLPush (key : Bytes) (values : list Bytes)
  | FRPush (key : Bytes) (values : list Bytes)
  | FLPop (key : Bytes)
  | FRPop (key : Bytes)
  | FLLen (key : Bytes)
  | FLIndex (key : Bytes) (index : Z)
  | FLRange (key : Bytes) (start stop : Z)
  | FSAdd (key : Bytes) (members : list Bytes)
  | FSRem (key : Bytes) (members : list Bytes)
  | FSIsMember (key member : Bytes)
  | FSCard (key : Bytes)
  | FSMembers (key : Bytes)
  | FZAdd (key : Bytes) (score : f64) (member : Bytes)
  | FZRem (key member : Bytes)
  | FZScore (key member : Bytes)
  | FZCard (key : Bytes)
  | FZRange (key : Bytes) (start stop : Z)
  | FRespCommand (parts : list Bytes)
  | FRedisCommand (kind : FastCommandKind) (args : list Bytes)
  | FNativeRedisCommand (command : Bytes) (args : list Bytes).

(** [FastCommand::kind]. *)
Definition command_kind (c : FastCommand) : FastCommandKind :=
  match c with
  | FGet _ => KGet | FSet _ _ => KSet | FSetEx _ _ _ => KSetEx | FGetEx _ _ => KGetEx
  | FDelete _ => KDelete | FExists _ => KExists | FTtl _ => KTtl | FExpire _ _ => KExpire
  | FPing _ => KPing | FMGet _ => KMGet | FMSet _ => KMSet | FAuth => KAuth | FHello _ => KHello
  | FSelect _ => KSelect | FQuit => KQuit | FEcho _ => KEcho | FInfo => KInfo | FCommand => KCommand
  | FCommandDocs => KCommandDocs | FConfigGet _ => KConfigGet | FDbSize => KDbSize | FTime => KTime
  | FClientGetName => KClientGetName | FClientSetName _ => KClientSetName | FClientId => KClientId
  | FClientList => KClientList | FClientKill => KClientKill | FHSet _ _ _ => KHSet
  | FHGet _ _ => KHGet | FHDel _ _ => KHDel | FHLen _ => KHLen | FHMGet _ _ => KHMGet
  | FLPush _ _ => KLPush | FRPush _ _ => KRPush | FLPop _ => KLPop | FRPop _ => KRPop
  | FLLen _ => KLLen | FLIndex _ _ => KLIndex | FLRange _ _ _ => KLRange | FSAdd _ _ => KSAdd
  | FSRem _ _ => KSRem | FSIsMember _ _ => KSIsMember | FSCard _ => KSCard
  | FSMembers _ => KSMembers | FZAdd _ _ _ => KZAdd | FZRem _ _ => KZRem | FZScore _ _ => KZScore
  | FZCard _ => KZCard | FZRange _ _ _ => KZRange | FRespCommand _ => KRespCommand
  | FRedisCommand kind _ => kind
  | FNativeRedisCommand _ _ => KNativeRedisCommand
  end.

Definition named_route_keys (command : Bytes) (args : list Bytes) : option FastRedisRouteKeys :=
  match from_redis_name command with
  | Some kind => redis_route_keys kind args
  | None => Some RouteNone
  end.

Definition route_keys (c : FastCommand) : option FastRedisRouteKeys :=
  match c with
  | FPing _ | FAuth | FHello _ | FSelect _ | FQuit | FEcho _ | FInfo | FCommand | FCommandDocs
  | FConfigGet _ | FDbSize | FTime | FClientGetName | FClientSetName _ | FClientId | FClientList
  | FClientKill => Some RouteNone
  | FRespCommand parts =>
      match parts with
      | command :: args => named_route_keys command args
      | [] => Some RouteNone
      end
  | FRedisCommand kind args => redis_route_keys kind args
  | FNativeRedisCommand command args => named_route_keys command args
  | FGet key | FSet key _ | FSetEx key _ _ | FGetEx key _ | FDelete key | FExists key | FTtl key
  | FExpire key _ | FHSet key _ _ | FHGet key _ | FHDel key _ | FHLen key | FHMGet key _
  | FLPush key _ | FRPush key _ | FLPop key | FRPop key | FLLen key | FLIndex key _
  | FLRange key _ _ | FSAdd key _ | FSRem key _ | FSIsMember key _ | FSCard key | FSMembers key
  | FZAdd key _ _ | FZRem key _ | FZScore key _ | FZCard key | FZRange key _ _ => Some (Keys [key])
  | FMGet keys => Some (Keys keys)
  | FMSet items => Some (Keys (items.*1))
  end.

(** [FastCommand::route_key]. *)
Definition command_route_key (c : FastCommand) : option (option Bytes) := first_key <$> route_keys c.

Record FastRequest := mkRequest {
  req_key_hash : option Z;
  req_route_shard : option Z;
  req_key_tag : option Z;
  req_command : FastCommand;
}.

Inductive FastResponse :=
  | FROk
  | FRNull
  | FRError (message : Bytes)
  | FRInteger (value : Z)
  | FRValue (bytes : Bytes)
  | FRBoolean (value : bool)
  | FRArray (values : list (option Bytes))
  | FRFloat (value : f64)
  | FRNativeFrame (bytes : Bytes).

(** ** Readers *)

Inductive FastError :=
  | RequestMagic
  | RequestVersion (version : Z)
  | UnsupportedCommand (id : Z)
  | UnsupportedFlags (flags : Z)
  | FrameLengthOverflow
  | NotRedisOpcode (id : Z)
  | NoRequestDecoder (id : Z)
  | FieldTruncated (field : string)
  | LengthMismatch (field : string)
  | CountExceeds (field : string)
  | VarintTruncated (field : string)
  | VarintTooLarge (field : string)
  | TrailingBytes (field : string)
  | ResponseMagic
  | ResponseVersion (version : Z)
  | UnsupportedStatus (status : Z).

Abbreviation FastDec A := (Outcome FastError A).

Definition Take (A : Type) : Type := Bytes → nat → FastDec (A * nat).

#[export] Instance take_ret : MRet Take := λ A a body cursor, Done (a, cursor).
#[export] Instance take_bind : MBind Take := λ A B f t body cursor,
  match t body cursor with
  | Panic => Panic
  | Incomplete => Incomplete
  | Err e => Err e
  | Done (a, cursor') => f a body cursor'
  end.

Definition take_fail {A} (e : FastError) : Take A := λ body cursor, Err e.

(** [body.len().saturating_sub(cursor)]. *)
Definition remaining : Take nat := λ body cursor, Done (length body - cursor, cursor).

(** [N] bytes as an integer, after the length check of [take_u32] and its like. *)
Definition take_fixed (n : nat) (field : string) : Take Bytes := λ body cursor,
  if length body - cursor <? n then Err (FieldTruncated field)
  else s ← or_panic (slice cursor (cursor + n) body); Done (s, cursor + n).

Definition take_u32 (field : string) : Take Z := bytes ← take_fixed 4 field; mret (from_le bytes).
Definition take_u64 (field : string) : Take Z := bytes ← take_fixed 8 field; mret (from_le bytes).
Definition take_i64 (field : string) : Take Z :=
  bytes ← take_fixed 8 field; mret (wrap_i64 (from_le bytes)).
Definition take_f64 (field : string) : Take f64 := bytes ← take_fixed 8 field; mret (from_le bytes).

Definition take_exact_slice (len : Z) (field : string) : Take Bytes := λ body cursor,
  if (Z.of_nat (length body - cursor) <? len)%Z then Err (LengthMismatch field)
  else s ← or_panic (slice cursor (cursor + Z.to_nat len) body); Done (s, cursor + Z.to_nat len).

Definition take_len_prefixed_slice (field : string) : Take Bytes :=
  len ← take_u32 field; take_exact_slice len field.

Definition take_key_value (field : string) : Take (Bytes * Bytes) :=
  key_len ← take_u32 field;
  value_len ← take_u32 field;
  key ← take_exact_slice key_len field;
  value ← take_exact_slice value_len field;
  mret (key, value).

Definition take_key_field (field : string) : Take (Bytes * Bytes) :=
  key_len ← take_u32 field;
  field_len ← take_u32 field;
  key ← take_exact_slice key_len field;
  member ← take_exact_slice field_len field;
  mret (key, member).

Definition take_key_field_value (field : string) : Take (Bytes * Bytes * Bytes) :=
  key_len ← take_u32 field;
  field_len ← take_u32 field;
  value_len ← take_u32 field;
  key ← take_exact_slice key_len field;
  member ← take_exact_slice field_len field;
  value ← take_exact_slice value_len field;
  mret (key, member, value).

(** [for _ in 0..count { values.push(item) }]. *)
Fixpoint take_times {A} (count : nat) (item : Take A) : Take (list A) :=
  match count with
  | O => mret []
  | S count' => value ← item; values ← take_times count' item; mret (value :: values)
  end.

(** The guard on a peer-controlled count: each item takes at least [unit] bytes. *)
Definition check_count (count : Z) (unit : nat) (field : string) : Take () :=
  left ← remaining;
  if ((FAST_MAX_COLLECTION_ITEMS <? count) || (Z.of_nat (left / unit) <? count))%Z
  then take_fail (CountExceeds field) else mret tt.

Definition take_len_prefixed_list (field : string) : Take (list Bytes) :=
  count ← take_u32 field;
  check_count count 4 field ≫= λ _,
  take_times (Z.to_nat count) (take_len_prefixed_slice field).

(** The loop of [take_var_u32]: [rounds] bytes are still allowed. *)
Fixpoint take_var_loop (rounds : nat) (value shift : Z) (field : string) : Take Z := λ body cursor,
  match rounds with
  | O => Err (VarintTooLarge field)
  | S rounds' =>
      match body !! cursor with
      | None => Err (VarintTruncated field)
      | Some byte =>
          let value := Z.lor value (Z.shiftl (Z.land byte 127) shift mod two32) in
          if (Z.land byte 128 =? 0)%Z then Done (value, cursor + 1)
          else take_var_loop rounds' value (shift + 7) field body (cursor + 1)
      end
  end.

Definition take_var_u32 (field : string) : Take Z := take_var_loop 5 0 0 field.

Definition take_compact_len_prefixed_slice (field : string) : Take Bytes :=
  len ← take_var_u32 field; take_exact_slice len field.

Definition take_compact_len_prefixed_list (field : string) : Take (list Bytes) :=
  count ← take_var_u32 field;
  check_count count 1 field ≫= λ _,
  take_times (Z.to_nat count) (take_compact_len_prefixed_slice field).

Definition take_key_list (field : string) : Take (Bytes * list Bytes) :=
  key ← take_len_prefixed_slice field;
  values ← take_len_prefixed_list field;
  mret (key, values).

Definition take_key_value_list (field : string) : Take (list (Bytes * Bytes)) :=
  count ← take_u32 field;
  check_count count 8 field ≫= λ _,
  take_times (Z.to_nat count) (take_key_value field).

Definition ensure_finished (field : string) : Take () := λ body cursor,
  if cursor =? length body then Done (tt, cursor) else Err (TrailingBytes field).

(** ** Requests: decoding *)

(** The typed bodies: the [match kind] of [decode_request]. *)
Definition take_command (kind : FastCommandKind) : Take FastCommand :=
  match kind with
  | KPing => λ body cursor,
      rest ← or_panic (slice_from cursor body);
      Done (FPing (match rest with [] => None | _ => Some rest end), length body)
  | KAuth => mret FAuth
  | KHello =>
      left ← remaining;
      if 8 <=? left then proto ← take_u64 "fast HELLO proto"; mret (FHello (Some proto))
      else mret (FHello None)
  | KSelect => db ← take_u64 "fast SELECT db"; mret (FSelect db)
  | KQuit => mret FQuit
  | KEcho => payload ← take_len_prefixed_slice "fast ECHO payload"; mret (FEcho payload)
  | KInfo => mret FInfo
  | KCommand => mret FCommand
  | KCommandDocs => mret FCommandDocs
  | KConfigGet =>
      patterns ← take_len_prefixed_list "fast CONFIG GET patterns"; mret (FConfigGet patterns)
  | KDbSize => mret FDbSize
  | KTime => mret FTime
  | KClientGetName => mret FClientGetName
  | KClientSetName =>
      name ← take_len_prefixed_slice "fast CLIENT SETNAME name"; mret (FClientSetName name)
  | KClientId => mret FClientId
  | KClientList => mret FClientList
  | KClientKill => mret FClientKill
  | KGet => key ← take_len_prefixed_slice "fast GET key"; mret (FGet key)
  | KSet => '(key, value) ← take_key_value "fast SET"; mret (FSet key value)
  | KSetEx =>
      ttl_ms ← take_u64 "fast SETEX ttl";
      '(key, value) ← take_key_value "fast SETEX";
      mret (FSetEx key value ttl_ms)
  | KGetEx =>
      ttl_ms ← take_u64 "fast GETEX ttl";
      key ← take_len_prefixed_slice "fast GETEX key";
      mret (FGetEx key ttl_ms)
  | KDelete => key ← take_len_prefixed_slice "fast DELETE key"; mret (FDelete key)
  | KExists => key ← take_len_prefixed_slice "fast EXISTS key"; mret (FExists key)
  | KTtl => key ← take_len_prefixed_slice "fast TTL key"; mret (FTtl key)
  | KExpire =>
      ttl_ms ← take_u64 "fast EXPIRE ttl";
      key ← take_len_prefixed_slice "fast EXPIRE key";
      mret (FExpire key ttl_ms)
  | KMGet => keys ← take_len_prefixed_list "fast MGET keys"; mret (FMGet keys)
  | KMSet => items ← take_key_value_list "fast MSET items"; mret (FMSet items)
  | KHSet =>
      '(key, field, value) ← take_key_field_value "fast HSET"; mret (FHSet key field value)
  | KHGet => '(key, field) ← take_key_field "fast HGET"; mret (FHGet key field)
  | KHDel => '(key, field) ← take_key_field "fast HDEL"; mret (FHDel key field)
  | KHLen => key ← take_len_prefixed_slice "fast HLEN key"; mret (FHLen key)
  | KHMGet => '(key, fields) ← take_key_list "fast HMGET"; mret (FHMGet key fields)
  | KLPush => '(key, values) ← take_key_list "fast LPUSH"; mret (FLPush key values)
  | KRPush => '(key, values) ← take_key_list "fast RPUSH"; mret (FRPush key values)
  | KLPop => key ← take_len_prefixed_slice "fast LPOP key"; mret (FLPop key)
  | KRPop => key ← take_len_prefixed_slice "fast RPOP key"; mret (FRPop key)
  | KLLen => key ← take_len_prefixed_slice "fast LLEN key"; mret (FLLen key)
  | KLIndex =>
      index ← take_i64 "fast LINDEX index";
      key ← take_len_prefixed_slice "fast LINDEX key";
      mret (FLIndex key index)
  | KLRange =>
      start ← take_i64 "fast LRANGE start";
      stop ← take_i64 "fast LRANGE stop";
      key ← take_len_prefixed_slice "fast LRANGE key";
      mret (FLRange key start stop)
  | KSAdd => '(key, members) ← take_key_list "fast SADD"; mret (FSAdd key members)
  | KSRem => '(key, members) ← take_key_list "fast SREM"; mret (FSRem key members)
  | KSIsMember => '(key, member) ← take_key_field "fast SISMEMBER"; mret (FSIsMember key member)
  | KSCard => key ← take_len_prefixed_slice "fast SCARD key"; mret (FSCard key)
  | KSMembers => key ← take_len_prefixed_slice "fast SMEMBERS key"; mret (FSMembers key)
  | KZAdd =>
      score ← take_f64 "fast ZADD score";
      '(key, member) ← take_key_field "fast ZADD";
      mret (FZAdd key score member)
  | KZRem => '(key, member) ← take_key_field "fast ZREM"; mret (FZRem key member)
  | KZScore => '(key, member) ← take_key_field "fast ZSCORE"; mret (FZScore key member)
  | KZCard => key ← take_len_prefixed_slice "fast ZCARD key"; mret (FZCard key)
  | KZRange =>
      start ← take_i64 "fast ZRANGE start";
      stop ← take_i64 "fast ZRANGE stop";
      key ← take_len_prefixed_slice "fast ZRANGE key";
      mret (FZRange key start stop)
  | KRespCommand =>
      parts ← take_len_prefixed_list "fast RESP command parts"; mret (FRespCommand parts)
  | kind =>
      if negb (is_generic_redis_opcode kind) then take_fail (NoRequestDecoder (opcode kind))
      else
        args ← take_compact_len_prefixed_list "fast Redis command arguments";
        mret (FRedisCommand kind args)
  end.

(** The bodies under [FAST_FLAG_REDIS_COMMAND_ARGS]. *)
Definition take_redis_command (kind : FastCommandKind) : Take FastCommand :=
  if bool_decide (kind = KNativeRedisCommand) then
    command ← take_len_prefixed_slice "fast native Redis command name";
    args ← take_compact_len_prefixed_list "fast native Redis command arguments";
    mret (FNativeRedisCommand command args)
  else
    match redis_name kind with
    | None => take_fail (NotRedisOpcode (opcode kind))
    | Some _ =>
        args ← take_compact_len_prefixed_list "fast Redis command arguments";
        mret (FRedisCommand kind args)
    end.

Definition take_if {A} (present : bool) (t : Take A) : Take (option A) :=
  if present then a ← t; mret (Some a) else mret None.

(** The body of a request: optional routing fields, then the command. *)
Definition take_request (kind : FastCommandKind) (flags : Z) : Take FastRequest :=
  let flag f := negb (Z.land flags f =? 0)%Z in
  key_hash ← take_if (flag FAST_FLAG_KEY_HASH) (take_u64 "fast key hash");
  route_shard ← take_if (flag FAST_FLAG_ROUTE_SHARD) (take_u32 "fast route shard");
  key_tag ← take_if (flag FAST_FLAG_KEY_TAG) (take_u64 "fast key tag");
  command ← (if flag FAST_FLAG_REDIS_COMMAND_ARGS then take_redis_command kind else take_command kind);
  ensure_finished "fast request" ≫= λ _,
  mret (mkRequest key_hash route_shard key_tag command).

(** All flag bits: the complement is refused. *)
Definition FAST_FLAGS : Z :=
  Z.lor (Z.lor (Z.lor FAST_FLAG_KEY_HASH FAST_FLAG_ROUTE_SHARD) FAST_FLAG_KEY_TAG)
    FAST_FLAG_REDIS_COMMAND_ARGS.

Definition decode_request (buffer : Bytes) : FastDec (FastRequest * nat) :=
  match buffer with
  | [] => Incomplete
  | magic :: _ =>
      if negb (magic =? FAST_REQUEST_MAGIC)%Z then Err RequestMagic
      else if length buffer <? REQUEST_HEADER_LEN then Incomplete
      else
        version ← or_panic (buffer !! 1);
        if negb (version =? FAST_PROTOCOL_VERSION)%Z then Err (RequestVersion version)
        else
          id ← or_panic (buffer !! 2);
          kind ← ok_or (from_opcode id) (UnsupportedCommand id);
          flags ← or_panic (buffer !! 3);
          if negb (Z.ldiff flags FAST_FLAGS =? 0)%Z then Err (UnsupportedFlags flags)
          else
            len ← or_panic (slice 4 8 buffer);
            frame_len ← ok_or (usize_checked (Z.of_nat REQUEST_HEADER_LEN + from_le len)) FrameLengthOverflow;
            if (Z.of_nat (length buffer) <? frame_len)%Z then Incomplete
            else
              body ← or_panic (slice REQUEST_HEADER_LEN (Z.to_nat frame_len) buffer);
              '(request, _) ← take_request kind flags body 0;
              Done (request, Z.to_nat frame_len)
  end.

(** ** Requests: encoding *)

Definition encode_len_prefixed (value : Bytes) : Bytes :=
  to_le 4 (usize_as_u32 (length value)) ++ value.

Definition encode_key_value (key value : Bytes) : Bytes :=
  to_le 4 (usize_as_u32 (length key)) ++ to_le 4 (usize_as_u32 (length value)) ++ key ++ value.

Definition encode_key_field (key field : Bytes) : Bytes :=
  to_le 4 (usize_as_u32 (length key)) ++ to_le 4 (usize_as_u32 (length field)) ++ key ++ field.

Definition encode_key_field_value (key field value : Bytes) : Bytes :=
  to_le 4 (usize_as_u32 (length key)) ++ to_le 4 (usize_as_u32 (length field)) ++
  to_le 4 (usize_as_u32 (length value)) ++ key ++ field ++ value.

Definition encode_len_prefixed_list (values : list Bytes) : Bytes :=
  to_le 4 (usize_as_u32 (length values)) ++ concat (map encode_len_prefixed values).

(** [while value >= 0x80]: five rounds empty any [u32]. *)
Fixpoint encode_var_loop (fuel : nat) (value : Z) : Bytes :=
  match fuel with
  | O => []
  | S fuel' =>
      if (128 <=? value)%Z
      then Z.lor (Z.land (value mod 256) 127) 128 :: encode_var_loop fuel' (Z.shiftr value 7)
      else [value]
  end.

Definition encode_var_u32 (value : Z) : Bytes := encode_var_loop 5 value.

Definition encode_compact_len_prefixed (value : Bytes) : Bytes :=
  encode_var_u32 (usize_as_u32 (length value)) ++ value.

Definition encode_compact_len_prefixed_list (values : list Bytes) : Bytes :=
  encode_var_u32 (usize_as_u32 (length values)) ++ concat (map encode_compact_len_prefixed values).

Definition encode_key_list (key : Bytes) (values : list Bytes) : Bytes :=
  encode_len_prefixed key ++ encode_len_prefixed_list values.

Definition encode_key_value_list (items : list (Bytes * Bytes)) : Bytes :=
  to_le 4 (usize_as_u32 (length items)) ++ concat (map (λ '(key, value), encode_key_value key value) items).

(** [i64::to_le_bytes]. *)
Definition i64_le (z : Z) : Bytes := to_le 8 (wrap_u64 z).

Definition encode_command (c : FastCommand) : Bytes :=
  match c with
  | FPing payload => default [] payload
  | FAuth | FQuit | FInfo | FCommand | FCommandDocs | FDbSize | FTime | FClientGetName | FClientId
  | FClientList | FClientKill => []
  | FHello proto => match proto with Some proto => to_le 8 proto | None => [] end
  | FSelect db => to_le 8 db
  | FEcho payload => encode_len_prefixed payload
  | FConfigGet patterns => encode_len_prefixed_list patterns
  | FClientSetName name => encode_len_prefixed name
  | FGet key | FDelete key | FExists key | FTtl key => encode_len_prefixed key
  | FSet key value => encode_key_value key value
  | FSetEx key value ttl_ms => to_le 8 ttl_ms ++ encode_key_value key value
  | FGetEx key ttl_ms | FExpire key ttl_ms => to_le 8 ttl_ms ++ encode_len_prefixed key
  | FMGet keys => encode_len_prefixed_list keys
  | FMSet items => encode_key_value_list items
  | FHSet key field value => encode_key_field_value key field value
  | FHGet key field | FHDel key field | FSIsMember key field | FZRem key field | FZScore key field =>
      encode_key_field key field
  | FHLen key | FLPop key | FRPop key | FLLen key | FSCard key | FSMembers key | FZCard key =>
      encode_len_prefixed key
  | FHMGet key fields => encode_key_list key fields
  | FLPush key values | FRPush key values => encode_key_list key values
  | FLIndex key index => i64_le index ++ encode_len_prefixed key
  | FLRange key start stop | FZRange key start stop =>
      i64_le start ++ i64_le stop ++ encode_len_prefixed key
  | FSAdd key members | FSRem key members => encode_key_list key members
  | FZAdd key score member => to_le 8 score ++ encode_key_field key member
  | FRespCommand parts => encode_len_prefixed_list parts
  | FRedisCommand _ args => encode_compact_len_prefixed_list args
  | FNativeRedisCommand command args =>
      encode_len_prefixed command ++ encode_compact_len_prefixed_list args
  end.

Definition is_redis_command (c : FastCommand) : bool :=
  match c with FRedisCommand _ _ | FNativeRedisCommand _ _ => true | _ => false end.

Definition request_flags (request : FastRequest) : Z :=
  let flag (b : bool) f := if b then f else 0%Z in
  Z.lor (Z.lor (Z.lor (flag (bool_decide (is_Some (req_key_hash request))) FAST_FLAG_KEY_HASH)
                      (flag (bool_decide (is_Some (req_route_shard request))) FAST_FLAG_ROUTE_SHARD))
               (flag (bool_decide (is_Some (req_key_tag request))) FAST_FLAG_KEY_TAG))
        (flag (is_redis_command (req_command request)) FAST_FLAG_REDIS_COMMAND_ARGS).

(** An optional field of a fixed width. *)
Definition opt_le (n : nat) (o : option Z) : Bytes :=
  match o with Some z => to_le n z | None => [] end.

Definition encode_request_body (request : FastRequest) : Bytes :=
  opt_le 8 (req_key_hash request) ++ opt_le 4 (req_route_shard request) ++
  opt_le 8 (req_key_tag request) ++ encode_command (req_command request).

(** The bytes appended to [out]; the length is patched in behind the body. *)
Definition encode_request (request : FastRequest) : Bytes :=
  let body := encode_request_body request in
  [FAST_REQUEST_MAGIC; FAST_PROTOCOL_VERSION; opcode (command_kind (req_command request));
   request_flags request] ++ to_le 4 (usize_as_u32 (length body)) ++ body.

(** ** Responses *)

Definition encode_array_item (value : option Bytes) : Bytes :=
  match value with
  | Some value => to_le 4 (usize_as_u32 (length value)) ++ value
  | None => to_le 4 u32_MAX
  end.

Definition encode_array_body (values : list (option Bytes)) : Bytes :=
  to_le 4 (usize_as_u32 (length values)) ++ concat (map encode_array_item values).

(** Status byte and body. *)
Definition response_parts (response : FastResponse) : Z * Bytes :=
  match response with
  | FROk => (0%Z, [])
  | FRNull => (1%Z, [])
  | FRError message => (2%Z, message)
  | FRInteger value => (3%Z, i64_le value)
  | FRValue bytes => (4%Z, bytes)
  | FRBoolean value => (5%Z, [bool_as_i64 value])
  | FRArray values => (6%Z, encode_array_body values)
  | FRFloat value => (7%Z, to_le 8 value)
  | FRNativeFrame bytes => (8%Z, bytes)
  end.

Definition encode_response (response : FastResponse) : Bytes :=
  let '(status, body) := response_parts response in
  [FAST_RESPONSE_MAGIC; FAST_PROTOCOL_VERSION; status; 0%Z] ++ to_le 4 (usize_as_u32 (length body)) ++ body.

Definition take_array_item : Take (option Bytes) :=
  len ← take_u32 "fast array item";
  if (len =? u32_MAX)%Z then mret None
  else value ← take_exact_slice len "fast array item"; mret (Some value).

Definition decode_array_body : Take (list (option Bytes)) :=
  count ← take_u32 "fast array count";
  check_count count 4 "fast array" ≫= λ _,
  values ← take_times (Z.to_nat count) take_array_item;
  ensure_finished "fast array response" ≫= λ _,
  mret values.

Definition decode_response_body (status : Z) (body : Bytes) : FastDec FastResponse :=
  match status with
  | 0%Z => Done FROk
  | 1%Z => Done FRNull
  | 2%Z => Done (FRError body)
  | 3%Z =>
      if negb (length body =? 8) then Err (FieldTruncated "fast integer response")
      else Done (FRInteger (wrap_i64 (from_le body)))
  | 4%Z => Done (FRValue body)
  | 5%Z =>
      match body with
      | [b] => Done (FRBoolean (negb (b =? 0)%Z))
      | _ => Err (FieldTruncated "fast boolean response")
      end
  | 6%Z => '(values, _) ← decode_array_body body 0; Done (FRArray values)
  | 7%Z =>
      if negb (length body =? 8) then Err (FieldTruncated "fast float response")
      else Done (FRFloat (from_le body))
  | 8%Z => Done (FRNativeFrame body)
  | other => Err (UnsupportedStatus other)
  end.

Definition decode_response (buffer : Bytes) : FastDec (FastResponse * nat) :=
  match buffer with
  | [] => Incomplete
  | magic :: _ =>
      if negb (magic =? FAST_RESPONSE_MAGIC)%Z then Err ResponseMagic
      else if length buffer <? RESPONSE_HEADER_LEN then Incomplete
      else
        version ← or_panic (buffer !! 1);
        if negb (version =? FAST_PROTOCOL_VERSION)%Z then Err (ResponseVersion version)
        else
          status ← or_panic (buffer !! 2);
          len ← or_panic (slice 4 8 buffer);
          frame_len ← ok_or (usize_checked (Z.of_nat RESPONSE_HEADER_LEN + from_le len)) FrameLengthOverflow;
          if (Z.of_nat (length buffer) <? frame_len)%Z then Incomplete
          else
            body ← or_panic (slice RESPONSE_HEADER_LEN (Z.to_nat frame_len) buffer);
            response ← decode_response_body status body;
            Done (response, Z.to_nat frame_len)
  end.

Definition is_fast_request_prefix (byte : Z) : bool := (byte =? FAST_REQUEST_MAGIC)%Z.
