(* ===== verification/FastProofs.v ===== *)
(** * The fast binary protocol: lemmas

    Two specifications of a reader: [reads], what it returns on the bytes a
    writer produced, and [yields], what it guarantees on arbitrary bytes; each
    with a rule for [mret] and for the bind, so that the readers of whole
    commands are proved by composing those of their fields. *)

From S2P Require Import Prelude Helpers F64 Codec Resp FastKinds Fast.

(** ** Reading what was written *)
Definition reads {A} (t : Take A) (bytes : Bytes) (a : A) : Prop := ∀ body cursor post,
  (Z.of_nat (length body) ≤ u32_MAX)%Z → cursor ≤ length body → drop cursor body = bytes ++ post →
  t body cursor = Done (a, cursor + length bytes).

Lemma reads_ret {A} (a : A) : reads (mret a) [] a.
Proof. intros body c post _ _ _. unfold mret, take_ret. by rewrite Nat.add_0_r. Qed.

Lemma reads_bind {A B} (t : Take A) (f : A → Take B) bs bs' a b :
  reads t bs a → reads (f a) bs' b → reads (t ≫= f) (bs ++ bs') b.
Proof.
  intros Ht Hf body c post Hl Hc Hd. rewrite <-app_assoc in Hd.
  unfold mbind, take_bind. rewrite (Ht body c _ Hl Hc Hd).
  destruct (drop_past c body bs _ _ Hd eq_refl Hc) as [Hd' Hc'].
  rewrite (Hf body _ _ Hl Hc' Hd'). by rewrite length_app, Nat.add_assoc.
Qed.

Lemma take_bind_assoc {A B C} (t : Take A) (f : A → Take B) (g : B → Take C) body cursor :
  ((t ≫= f) ≫= g) body cursor = (t ≫= (λ a, f a ≫= g)) body cursor.
Proof. unfold mbind, take_bind. by destruct (t body cursor) as [| | |[??]]. Qed.

Lemma take_bind_ext {A B} (t : Take A) (f g : A → Take B) body cursor :
  (∀ a c, f a body c = g a body c) → (t ≫= f) body cursor = (t ≫= g) body cursor.
Proof. intros Hfg. unfold mbind, take_bind. destruct (t body cursor) as [| | |[??]]; naive_solver. Qed.

(** The last read and a pure result. *)
Lemma reads_map {A B} (t : Take A) (g : A → B) bs a : reads t bs a → reads (a ← t; mret (g a)) bs (g a).
Proof. intros Ht. rewrite <-(app_nil_r bs). eapply reads_bind; [done|apply reads_ret]. Qed.

Lemma reads_fixed n bs field : length bs = n → reads (take_fixed n field) bs bs.
Proof.
  intros <- body c post _ Hc Hd. unfold take_fixed.
  pose proof (f_equal length Hd) as Hl. rewrite length_drop, length_app in Hl.
  rewrite (proj2 (Nat.ltb_ge _ _)) by lia.
  rewrite (slice_here c body bs post Hd Hc). done.
Qed.

Lemma reads_u32 z field : (0 ≤ z ≤ u32_MAX)%Z → reads (take_u32 field) (to_le 4 z) z.
Proof.
  intros Hz. rewrite <-(from_to_le_u32 z Hz) at 2.
  apply (reads_map _ from_le), reads_fixed, length_to_le.
Qed.

Lemma reads_u64 z field : is_u64 z → reads (take_u64 field) (to_le 8 z) z.
Proof.
  intros Hz. rewrite <-(from_to_le_u64 z Hz) at 2.
  apply (reads_map _ from_le), reads_fixed, length_to_le.
Qed.

Lemma wrap_u64_is_u64 z : is_u64 (wrap_u64 z).
Proof. unfold is_u64, wrap_u64, two64, u64_MAX. pose proof (Z.mod_pos_bound z 18446744073709551616). lia. Qed.

Lemma wrap_i64_wrap_u64 z : is_i64 z → wrap_i64 (wrap_u64 z) = z.
Proof.
  intros Hz. unfold wrap_i64. replace (wrap_u64 (wrap_u64 z)) with (wrap_u64 z).
  - fold (wrap_i64 z). by apply wrap_i64_id.
  - unfold wrap_u64. by rewrite Z.mod_mod.
Qed.

Lemma reads_i64 z field : is_i64 z → reads (take_i64 field) (i64_le z) z.
Proof.
  intros Hz. rewrite <-(wrap_i64_wrap_u64 z Hz) at 2.
  rewrite <-(from_to_le_u64 (wrap_u64 z) (wrap_u64_is_u64 z)).
  apply (reads_map _ (λ bs, wrap_i64 (from_le bs))), reads_fixed, length_to_le.
Qed.

Lemma reads_f64 z field : f64_valid z → reads (take_f64 field) (to_le 8 z) z.
Proof. intros Hz. apply reads_u64. unfold f64_valid, is_u64, two64, u64_MAX in *. lia. Qed.

Lemma reads_exact v len field : len = Z.of_nat (length v) → reads (take_exact_slice len field) v v.
Proof.
  intros -> body c post _ Hc Hd. unfold take_exact_slice.
  pose proof (f_equal length Hd) as Hl. rewrite length_drop, length_app in Hl.
  rewrite (proj2 (Z.ltb_ge _ _)) by lia. rewrite Nat2Z.id.
  by rewrite (slice_here c body v post Hd Hc).
Qed.

(** A length written in four bytes, where the rest of the bytes has room. *)
Lemma reads_len {A B} (l : list A) (f : Z → Take B) bs b field :
  length l ≤ length bs →
  reads (f (Z.of_nat (length l))) bs b →
  reads (len ← take_u32 field; f len) (to_le 4 (usize_as_u32 (length l)) ++ bs) b.
Proof.
  intros Hle Hf body c post Hl Hc Hd.
  pose proof (f_equal length Hd) as HL. rewrite length_drop, !length_app in HL.
  assert (Z.of_nat (length l) ≤ u32_MAX)%Z by lia.
  refine (reads_bind _ _ _ _ _ _ _ Hf body c post Hl Hc Hd).
  rewrite usize_as_u32_id by done. apply reads_u32. lia.
Qed.

Lemma reads_len_prefixed v field : reads (take_len_prefixed_slice field) (encode_len_prefixed v) v.
Proof. apply reads_len; [done|]. by apply reads_exact. Qed.

(** Two lengths, then the two byte strings. *)
Lemma reads_key_value k v field : reads (take_key_value field) (encode_key_value k v) (k, v).
Proof.
  apply reads_len; [rewrite !length_app; lia|]. apply reads_len; [rewrite !length_app; lia|].
  eapply reads_bind; [by apply reads_exact|]. by apply (reads_map _ (λ v, (k, v))), reads_exact.
Qed.

Lemma reads_key_field k v field : reads (take_key_field field) (encode_key_field k v) (k, v).
Proof. apply reads_key_value. Qed.

Lemma reads_key_field_value k f v field :
  reads (take_key_field_value field) (encode_key_field_value k f v) (k, f, v).
Proof.
  do 3 (apply reads_len; [rewrite !length_app; lia|]).
  eapply reads_bind; [by apply reads_exact|]. eapply reads_bind; [by apply reads_exact|].
  by apply (reads_map _ (λ v, (k, f, v))), reads_exact.
Qed.

(** A collection the decoder accepts. *)
Definition few {A} (l : list A) : Prop := (Z.of_nat (length l) ≤ FAST_MAX_COLLECTION_ITEMS)%Z.

(** *** Counted lists *)
Lemma reads_times {A} (t : Take A) (enc : A → Bytes) l :
  Forall (λ a, reads t (enc a) a) l → reads (take_times (length l) t) (concat (map enc l)) l.
Proof.
  induction 1 as [|a l Ha _ IH]; [apply reads_ret|].
  cbn [length take_times map concat]. eapply reads_bind; [done|]. by apply (reads_map _ (cons a)).
Qed.

(** [count] items of at least [unit] bytes each. *)
Lemma reads_counted {A} (t : Take A) (enc : A → Bytes) (unit : nat) l field :
  0 < unit → few l →
  Forall (λ a, reads t (enc a) a) l → Forall (λ a, unit ≤ length (enc a)) l →
  reads (check_count (Z.of_nat (length l)) unit field ≫= λ _, take_times (Z.to_nat (Z.of_nat (length l))) t)
    (concat (map enc l)) l.
Proof.
  intros Hu Hmax Hl Hlen body c post Hsz Hc Hd. rewrite Nat2Z.id.
  pose proof (f_equal length Hd) as HL. rewrite length_drop, length_app in HL.
  pose proof (concat_length_ge enc unit l Hlen).
  unfold check_count, remaining, mbind at 1 2, take_bind at 1 2.
  assert (length l ≤ (length body - c) / unit) by (apply Nat.div_le_lower_bound; lia).
  rewrite (proj2 (Z.ltb_ge _ _)) by done. rewrite (proj2 (Z.ltb_ge _ _)) by lia.
  cbn [orb]. by apply (reads_times t enc l Hl body c post).
Qed.

Lemma reads_list l field :
  few l →
  reads (take_len_prefixed_list field) (encode_len_prefixed_list l) l.
Proof.
  intros Hmax.
  assert (Forall (λ a, 4 ≤ length (encode_len_prefixed a)) l) as Hlen.
  { apply Forall_true. intros a. unfold encode_len_prefixed. rewrite length_app, length_to_le. lia. }
  apply reads_len; [pose proof (concat_length_ge _ 4 l Hlen); lia|].
  apply reads_counted; [lia|done| |done]. apply Forall_true. intros. apply reads_len_prefixed.
Qed.

Lemma reads_pairs l field :
  few l →
  reads (take_key_value_list field) (encode_key_value_list l) l.
Proof.
  intros Hmax.
  assert (Forall (λ a, 8 ≤ length ((λ '(key, value), encode_key_value key value) a)) l) as Hlen.
  { apply Forall_true. intros [k v]. unfold encode_key_value. rewrite !length_app, !length_to_le. lia. }
  apply reads_len; [pose proof (concat_length_ge _ 8 l Hlen); lia|].
  apply reads_counted; [lia|done| |done]. apply Forall_true. intros [k v]. apply reads_key_value.
Qed.

Lemma reads_key_list k l field :
  few l →
  reads (take_key_list field) (encode_key_list k l) (k, l).
Proof.
  intros. eapply reads_bind; [apply reads_len_prefixed|]. by apply (reads_map _ (λ l, (k, l))), reads_list.
Qed.

(** *** Variable-length integers *)
Lemma varint_byte m :
  (0 ≤ m < 128)%Z →
  Z.land m 127 = m ∧ Z.land m 128 = 0%Z ∧ Z.land (Z.lor m 128) 127 = m ∧ Z.land (Z.lor m 128) 128 = 128%Z.
Proof.
  intros Hm.
  enough (forallb (λ m, (Z.land m 127 =? m) && (Z.land m 128 =? 0) && (Z.land (Z.lor m 128) 127 =? m)
            && (Z.land (Z.lor m 128) 128 =? 128))%Z (seqZ 0 128) = true) as Hall.
  { rewrite forallb_forall in Hall. specialize (Hall m).
    rewrite <-list_elem_of_In, elem_of_seqZ in Hall. specialize (Hall ltac:(lia)).
    bool_case. done. }
  by vm_compute.
Qed.

Lemma lor_shifted acc m shift :
  (0 ≤ shift)%Z → (0 ≤ acc < 2 ^ shift)%Z → (0 ≤ m)%Z → (m * 2 ^ shift < two32)%Z →
  Z.lor acc (Z.shiftl m shift mod two32) = (acc + m * 2 ^ shift)%Z.
Proof.
  intros Hs Ha Hm Hb. rewrite Z.shiftl_mul_pow2 by done.
  rewrite Z.mod_small by (pose proof (Z.pow_pos_nonneg 2 shift); nia).
  rewrite <-Z.lxor_lor, <-Z.add_nocarry_lxor; [done| |].
  all: apply Z.bits_inj'; intros i Hi; rewrite Z.land_spec, Z.bits_0;
    rewrite <-Z.shiftl_mul_pow2, Z.shiftl_spec by done;
    destruct (decide (i < shift)%Z); [rewrite (Z.testbit_neg_r m) by lia; apply andb_false_r|];
    destruct (decide (acc = 0)%Z) as [->|]; [by rewrite Z.bits_0|];
    rewrite (Z.bits_above_log2 acc); [done|lia|];
    apply Z.log2_lt_pow2; [lia|]; pose proof (Z.pow_le_mono_r 2 shift i); lia.
Qed.

Lemma reads_var_loop rounds z acc shift field :
  0 < rounds → (0 ≤ z < 2 ^ (7 * Z.of_nat rounds))%Z → (0 ≤ shift)%Z → (0 ≤ acc < 2 ^ shift)%Z →
  (z * 2 ^ shift < two32)%Z →
  reads (take_var_loop rounds acc shift field) (encode_var_loop rounds z) (acc + z * 2 ^ shift)%Z.
Proof.
  revert z acc shift. induction rounds as [|rounds IH]; intros z acc shift Hr Hz Hs Ha Hb; [lia|].
  intros body c post Hl Hc Hd. cbn [take_var_loop encode_var_loop] in *.
  pose proof (Z.pow_pos_nonneg 2 shift ltac:(lia) Hs).
  assert (Hlook : ∀ x t, drop c body = x :: t → body !! c = Some x).
  { intros x t E. rewrite <-(Nat.add_0_r c), <-lookup_drop, E. done. }
  destruct (128 <=? z)%Z eqn:E; bool_case.
  - set (m := (z mod 128)%Z). assert (0 ≤ m < 128)%Z as Hm by (apply Z.mod_pos_bound; lia).
    destruct (varint_byte m Hm) as (H1 & H2 & H3 & H4).
    assert (Z.land (z mod 256) 127 = m) as Em.
    { change 127%Z with (Z.ones 7). rewrite Z.land_ones by lia. change (2 ^ 7)%Z with 128%Z.
      unfold m. rewrite <-(Znumtheory.Zmod_div_mod 128 256 z); [done|lia|lia|by exists 2%Z]. }
    rewrite Em in Hd |- *. cbn [app] in Hd. rewrite (Hlook _ _ Hd), H3, H4.
    change (128 =? 0)%Z with false. cbv iota.
    rewrite Z.shiftr_div_pow2 in Hd |- * by lia. change (2 ^ 7)%Z with 128%Z in *.
    pose proof (Z.div_mod z 128 ltac:(lia)) as Hdm. fold m in Hdm.
    rewrite lor_shifted; [|done|done|lia|nia].
    destruct (drop_past c body [Z.lor m 128] _ 1 Hd eq_refl Hc) as [Hd' Hc'].
    rewrite (IH (z / 128)%Z (acc + m * 2 ^ shift)%Z (shift + 7)%Z); try done; try lia.
    + cbn [length]. f_equal. f_equal; [|lia]. rewrite Z.pow_add_r by lia. change (2 ^ 7)%Z with 128%Z. nia.
    + destruct rounds; [|lia]. change (2 ^ (7 * Z.of_nat 1))%Z with 128%Z in Hz. lia.
    + split; [apply Z.div_pos; lia|]. apply Z.div_lt_upper_bound; [lia|].
      change 128%Z with (2 ^ 7)%Z. rewrite <-Z.pow_add_r by lia.
      replace (7 + 7 * Z.of_nat rounds)%Z with (7 * Z.of_nat (S rounds))%Z by lia. lia.
    + rewrite Z.pow_add_r by lia. change (2 ^ 7)%Z with 128%Z. nia.
    + rewrite Z.pow_add_r by lia. change (2 ^ 7)%Z with 128%Z. nia.
  - destruct (varint_byte z ltac:(lia)) as (H1 & H2 & _). cbn [app] in Hd.
    rewrite (Hlook _ _ Hd), H1, H2. change (0 =? 0)%Z with true. cbv iota.
    rewrite lor_shifted; [done|done|done|lia|done].
Qed.

Lemma reads_var_u32 z field : (0 ≤ z ≤ u32_MAX)%Z → reads (take_var_u32 field) (encode_var_u32 z) z.
Proof.
  intros Hz. replace z with (0 + z * 2 ^ 0)%Z at 2 by lia.
  unfold u32_MAX in Hz. apply reads_var_loop; [lia| |done|done|].
  - change (2 ^ (7 * Z.of_nat 5))%Z with 34359738368%Z. lia.
  - rewrite Z.pow_0_r. unfold two32. lia.
Qed.

Lemma encode_var_u32_length z : 1 ≤ length (encode_var_u32 z).
Proof.
  unfold encode_var_u32. change 5 with (S 4). generalize 4. intros n. cbn [encode_var_loop].
  destruct (128 <=? z)%Z; cbn [length]; lia.
Qed.

(** A length in variable-length form. *)
Lemma reads_var_len {A B} (l : list A) (f : Z → Take B) bs b field :
  length l ≤ length bs →
  reads (f (Z.of_nat (length l))) bs b →
  reads (len ← take_var_u32 field; f len) (encode_var_u32 (usize_as_u32 (length l)) ++ bs) b.
Proof.
  intros Hle Hf body c post Hl Hc Hd.
  pose proof (f_equal length Hd) as HL. rewrite length_drop, !length_app in HL.
  assert (Z.of_nat (length l) ≤ u32_MAX)%Z by lia.
  refine (reads_bind _ _ _ _ _ _ _ Hf body c post Hl Hc Hd).
  rewrite usize_as_u32_id by done. apply reads_var_u32. lia.
Qed.

Lemma reads_compact_list l field :
  few l →
  reads (take_compact_len_prefixed_list field) (encode_compact_len_prefixed_list l) l.
Proof.
  intros Hmax.
  assert (Forall (λ a, 1 ≤ length (encode_compact_len_prefixed a)) l) as Hlen.
  { apply Forall_true. intros a. unfold encode_compact_len_prefixed. rewrite length_app.
    pose proof (encode_var_u32_length (usize_as_u32 (length a))). lia. }
  apply reads_var_len; [pose proof (concat_length_ge _ 1 l Hlen); lia|].
  apply reads_counted; [lia|done| |done]. apply Forall_true. intros a.
  apply reads_var_len; [done|]. by apply reads_exact.
Qed.

(** ** Commands *)

(** The rest of a body. *)
Definition reads_end {A} (t : Take A) (bytes : Bytes) (a : A) : Prop := ∀ body cursor,
  (Z.of_nat (length body) ≤ u32_MAX)%Z → cursor ≤ length body → drop cursor body = bytes →
  t body cursor = Done (a, length body).

Lemma reads_reads_end {A} (t : Take A) bs a : reads t bs a → reads_end t bs a.
Proof.
  intros Ht body c Hl Hc Hd. rewrite (Ht body c []); [|done..|by rewrite app_nil_r].
  pose proof (f_equal length Hd) as HL. rewrite length_drop in HL. do 2 f_equal. lia.
Qed.

Lemma reads_end_bind {A B} (t : Take A) (f : A → Take B) bs bs' a b :
  reads t bs a → reads_end (f a) bs' b → reads_end (t ≫= f) (bs ++ bs') b.
Proof.
  intros Ht Hf body c Hl Hc Hd. unfold mbind, take_bind. rewrite (Ht body c _ Hl Hc Hd).
  destruct (drop_past c body bs _ _ Hd eq_refl Hc) as [Hd' Hc']. by apply Hf.
Qed.

Lemma reads_end_finished {A B} (t : Take A) (g : A → B) bs a field :
  reads_end t bs a →
  reads_end (a ← t; ensure_finished field ≫= λ _, mret (g a)) bs (g a).
Proof.
  intros Ht body c Hl Hc Hd. unfold mbind, take_bind. rewrite (Ht body c Hl Hc Hd).
  unfold ensure_finished. by rewrite Nat.eqb_refl.
Qed.

Lemma reads_bind0 {A B} (t : Take A) (f : A → Take B) bs a b :
  reads t bs a → reads (f a) [] b → reads (t ≫= f) bs b.
Proof. intros. rewrite <-(app_nil_r bs). by eapply reads_bind. Qed.

Create HintDb fast.
#[export] Hint Resolve reads_ret reads_u64 reads_u32 reads_i64 reads_f64 reads_len_prefixed
  reads_key_value reads_key_field reads_key_field_value reads_list reads_pairs reads_key_list
  reads_compact_list : fast.

Ltac reads_tac :=
  first
    [ by eauto with fast
    | eapply reads_bind0; [by eauto with fast|apply reads_ret]
    | eapply reads_bind; [by eauto with fast|reads_tac] ].

(** What the decoder can return: integers of their width, bounded collections,
    no empty PING payload, Redis kinds under the Redis flag. *)
Definition command_ok (c : FastCommand) : Prop :=
  match c with
  | FPing payload => payload ≠ Some []
  | FHello proto => match proto with Some z => is_u64 z | None => True end
  | FSelect z | FSetEx _ _ z | FGetEx _ z | FExpire _ z => is_u64 z
  | FConfigGet l | FMGet l | FRespCommand l | FHMGet _ l | FLPush _ l | FRPush _ l | FSAdd _ l
  | FSRem _ l | FNativeRedisCommand _ l => few l
  | FMSet items => few items
  | FLIndex _ index => is_i64 index
  | FLRange _ start stop | FZRange _ start stop => is_i64 start ∧ is_i64 stop
  | FZAdd _ score _ => f64_valid score
  | FRedisCommand kind args => is_Some (redis_name kind) ∧ few args
  | _ => True
  end.

Definition opt_ok (max : Z) (o : option Z) : Prop :=
  match o with Some z => (0 ≤ z ≤ max)%Z | None => True end.

Definition request_ok (r : FastRequest) : Prop :=
  opt_ok u64_MAX (req_key_hash r) ∧ opt_ok u32_MAX (req_route_shard r) ∧
  opt_ok u64_MAX (req_key_tag r) ∧ command_ok (req_command r) ∧
  (Z.of_nat (length (encode_request_body r)) ≤ u32_MAX)%Z.

Lemma reads_ping payload :
  payload ≠ Some [] → reads_end (take_command KPing) (default [] payload) (FPing payload).
Proof.
  intros Hp body c Hl Hc Hd. unfold take_command. rewrite slice_from_Some by done.
  cbn [or_panic mbind outcome_bind]. rewrite Hd. destruct payload as [[|b p]|]; done.
Qed.

Lemma reads_hello proto :
  match proto with Some z => is_u64 z | None => True end →
  reads_end (take_command KHello) (match proto with Some z => to_le 8 z | None => [] end) (FHello proto).
Proof.
  intros Hp body c Hl Hc Hd. unfold take_command, remaining, mbind at 1, take_bind at 1.
  pose proof (f_equal length Hd) as HL. rewrite length_drop in HL.
  destruct proto as [z|].
  - rewrite length_to_le in HL. rewrite (proj2 (Nat.leb_le _ _)) by lia.
    eapply reads_reads_end; [|done..]. reads_tac.
  - cbn [length] in HL. rewrite (proj2 (Nat.leb_gt _ _)) by lia.
    unfold mret, take_ret. do 2 f_equal. lia.
Qed.

Lemma reads_command c :
  command_ok c → is_redis_command c = false →
  reads_end (take_command (command_kind c)) (encode_command c) c.
Proof.
  intros Hc Hr. destruct c; try done; cbn [command_kind encode_command command_ok] in *;
    try (by apply reads_ping); try (by apply reads_hello); apply reads_reads_end;
    try match type of Hc with _ ∧ _ => destruct Hc end; cbn [take_command]; reads_tac.
Qed.

Lemma reads_redis_command c :
  command_ok c → is_redis_command c = true →
  reads_end (take_redis_command (command_kind c)) (encode_command c) c.
Proof.
  intros Hc Hr. destruct c; try done; cbn [command_kind encode_command command_ok] in *;
    apply reads_reads_end; unfold take_redis_command.
  - destruct Hc as [[name Hn] Hc]. rewrite bool_decide_eq_false_2 by (intros ->; done). rewrite Hn. reads_tac.
  - rewrite bool_decide_eq_true_2 by done. reads_tac.
Qed.

(** ** Requests *)
Lemma request_flag_tests r :
  let flag f := negb (Z.land (request_flags r) f =? 0)%Z in
  flag FAST_FLAG_KEY_HASH = bool_decide (is_Some (req_key_hash r)) ∧
  flag FAST_FLAG_ROUTE_SHARD = bool_decide (is_Some (req_route_shard r)) ∧
  flag FAST_FLAG_KEY_TAG = bool_decide (is_Some (req_key_tag r)) ∧
  flag FAST_FLAG_REDIS_COMMAND_ARGS = is_redis_command (req_command r) ∧
  Z.ldiff (request_flags r) FAST_FLAGS = 0%Z.
Proof.
  destruct r as [[h|] [s|] [t|] c]; unfold request_flags; cbn [req_key_hash req_route_shard req_key_tag req_command];
    destruct (is_redis_command c); done.
Qed.

Lemma reads_opt n o t :
  (∀ z, o = Some z → reads t (to_le n z) z) →
  reads (take_if (bool_decide (is_Some o)) t) (opt_le n o) o.
Proof.
  intros Ht. destruct o as [z|]; [|apply reads_ret].
  apply (reads_map _ Some). by apply Ht.
Qed.

Lemma reads_request r :
  request_ok r →
  reads_end (take_request (command_kind (req_command r)) (request_flags r)) (encode_request_body r) r.
Proof.
  intros (Hh & Hs & Ht & Hc & _). destruct (request_flag_tests r) as (E1 & E2 & E3 & E4 & _).
  unfold take_request. rewrite E1, E2, E3, E4. unfold encode_request_body.
  destruct r as [h s t c]; cbn [req_key_hash req_route_shard req_key_tag req_command] in *.
  eapply reads_end_bind; [apply reads_opt; intros z ->; by apply reads_u64|].
  eapply reads_end_bind; [apply reads_opt; intros z ->; by apply reads_u32|].
  eapply reads_end_bind; [apply reads_opt; intros z ->; by apply reads_u64|].
  apply (reads_end_finished _ (mkRequest h s t)).
  destruct (is_redis_command c) eqn:E; [by apply reads_redis_command|by apply reads_command].
Qed.

(** The fixed header in front of a body and of whatever follows. *)
Lemma frame_parts a b c d body rest :
  let buffer := [a; b; c; d] ++ (to_le 4 (usize_as_u32 (length body)) ++ body) ++ rest in
  length buffer = 8 + length body + length rest ∧
  slice 4 8 buffer = Some (to_le 4 (usize_as_u32 (length body))) ∧
  slice 8 (8 + length body) buffer = Some body.
Proof.
  intros buffer.
  assert (length buffer = 8 + length body + length rest) as Hl.
  { unfold buffer. rewrite !length_app, length_to_le. cbn [length]. lia. }
  split; [done|]. split; apply slice_Some; (split; [lia|]); unfold buffer; cbn [app drop]; rewrite <-app_assoc.
  - cbn [Nat.sub]. symmetry. apply (take_app_length' (to_le 4 _)). by rewrite length_to_le.
  - replace (8 + length body - 8) with (length body) by lia.
    rewrite (drop_app_length' (to_le 4 _)) by (by rewrite length_to_le). by rewrite take_app_length.
Qed.

Lemma frame_len n :
  (Z.of_nat n ≤ u32_MAX)%Z →
  usize_checked (Z.of_nat 8 + from_le (to_le 4 (usize_as_u32 n))) = Some (Z.of_nat (8 + n)).
Proof.
  intros Hn. rewrite usize_as_u32_id, from_to_le_u32 by lia. unfold usize_checked, u32_MAX, u64_MAX in *.
  rewrite (proj2 (Z.leb_le _ _)) by lia. f_equal. lia.
Qed.

(** The header of an encoded request leads the decoder to its body. *)
Lemma decode_frame r rest :
  (Z.of_nat (length (encode_request_body r)) ≤ u32_MAX)%Z →
  decode_request (encode_request r ++ rest) =
  ('(request, _) ← take_request (command_kind (req_command r)) (request_flags r) (encode_request_body r) 0;
   Done (request, length (encode_request r))).
Proof.
  intros Hb.
  destruct (request_flag_tests r) as (_ & _ & _ & _ & Hf).
  unfold encode_request. set (body := encode_request_body r) in *. rewrite <-app_assoc.
  destruct (frame_parts FAST_REQUEST_MAGIC FAST_PROTOCOL_VERSION
              (opcode (command_kind (req_command r))) (request_flags r) body rest) as (Hl & H4 & H8).
  set (buffer := [_; _; _; _] ++ _) in *. unfold decode_request.
  change buffer with (FAST_REQUEST_MAGIC :: drop 1 buffer) at 1. cbv iota beta.
  change (negb _) with false at 1. cbv iota. unfold REQUEST_HEADER_LEN.
  rewrite (proj2 (Nat.ltb_ge _ _)) by lia.
  change (buffer !! 1) with (Some FAST_PROTOCOL_VERSION). change (buffer !! 2) with (Some (opcode (command_kind (req_command r)))).
  change (buffer !! 3) with (Some (request_flags r)). cbn [or_panic ok_or mbind outcome_bind].
  change (negb (FAST_PROTOCOL_VERSION =? FAST_PROTOCOL_VERSION)%Z) with false. cbv iota.
  rewrite from_opcode_opcode, Hf, H4. cbn [or_panic ok_or mbind outcome_bind].
  change (negb (0 =? 0)%Z) with false. cbv iota. rewrite frame_len by done. cbn [or_panic ok_or mbind outcome_bind].
  rewrite (proj2 (Z.ltb_ge _ _)) by lia. rewrite Nat2Z.id, H8. cbn [or_panic ok_or mbind outcome_bind].
  done.
Qed.

Lemma decode_encode_request r rest :
  request_ok r →
  decode_request (encode_request r ++ rest) = Done (r, length (encode_request r)).
Proof.
  intros Hok. pose proof Hok as (_ & _ & _ & _ & Hb). rewrite decode_frame by done.
  by rewrite (reads_request r Hok (encode_request_body r) 0); [|done|lia|].
Qed.

(** A list of more items than the protocol allows is refused at its count. *)
Lemma compact_list_refused l field post :
  (FAST_MAX_COLLECTION_ITEMS < Z.of_nat (length l) ≤ u32_MAX)%Z →
  (Z.of_nat (length (encode_compact_len_prefixed_list l ++ post)) ≤ u32_MAX)%Z →
  take_compact_len_prefixed_list field (encode_compact_len_prefixed_list l ++ post) 0 = Err (CountExceeds field).
Proof.
  intros [Hn Hm] Hl. unfold take_compact_len_prefixed_list, mbind at 1, take_bind at 1.
  rewrite (reads_var_u32 (Z.of_nat (length l)) field ltac:(lia) _ 0
    (concat (map encode_compact_len_prefixed l) ++ post)); [|done|lia|].
  2:{ unfold encode_compact_len_prefixed_list. rewrite usize_as_u32_id by done. by rewrite <-app_assoc. }
  cbn [mbind outcome_bind]. unfold check_count, remaining, mbind, take_bind. cbn [mbind outcome_bind].
  by rewrite (proj2 (Z.ltb_lt _ _)).
Qed.

(** ** Reading arbitrary bytes *)
Definition yields {A} (t : Take A) (Q : A → nat → Prop) : Prop := ∀ body cursor,
  all_bytes body → cursor ≤ length body →
  match t body cursor with
  | Done (a, cursor') => cursor ≤ cursor' ≤ length body ∧ Q a (cursor' - cursor)
  | Err _ => True
  | Panic | Incomplete => False
  end.

Lemma yields_ret {A} (a : A) (Q : A → nat → Prop) : Q a 0 → yields (mret a) Q.
Proof. intros HQ body c _ Hc. unfold mret, take_ret. rewrite Nat.sub_diag. split; [lia|done]. Qed.

Lemma yields_fail {A} e (Q : A → nat → Prop) : yields (take_fail e) Q.
Proof. by intros body c _ _. Qed.

Lemma yields_bind {A B} (t : Take A) (f : A → Take B) Q (R : B → nat → Prop) :
  yields t Q → (∀ a n, Q a n → yields (f a) (λ b m, R b (n + m))) → yields (t ≫= f) R.
Proof.
  intros Ht Hf body c Hb Hc. unfold mbind, take_bind. specialize (Ht body c Hb Hc).
  destruct (t body c) as [| | |[a c']]; try done. destruct Ht as [Hc' Ha].
  specialize (Hf a _ Ha body c' Hb ltac:(lia)). destruct (f a body c') as [| | |[b c'']]; try done.
  destruct Hf as [? HR]. split; [lia|]. by replace (c'' - c) with (c' - c + (c'' - c')) by lia.
Qed.

Lemma yields_weaken {A} (t : Take A) (Q R : A → nat → Prop) :
  yields t Q → (∀ a n, Q a n → R a n) → yields t R.
Proof.
  intros Ht HQ body c Hb Hc. specialize (Ht body c Hb Hc). destruct (t body c) as [| | |[a c']]; naive_solver.
Qed.

Lemma yields_fixed k field : yields (take_fixed k field) (λ bs n, n = k ∧ length bs = k ∧ all_bytes bs).
Proof.
  intros body c Hb Hc. unfold take_fixed. destruct (_ <? k) eqn:E; [done|]. bool_case.
  rewrite slice_is_Some by lia. cbn [or_panic mbind outcome_bind]. split; [lia|].
  replace (c + k - c) with k by lia. rewrite length_take, length_drop. split; [done|]. split; [lia|].
  by apply Forall_take, Forall_drop.
Qed.

Lemma yields_u32 field : yields (take_u32 field) (λ z n, n = 4 ∧ (0 ≤ z ≤ u32_MAX)%Z).
Proof.
  eapply yields_bind; [apply yields_fixed|]. intros bs n (-> & Hl & Hb). apply yields_ret.
  split; [done|]. pose proof (from_le_bound bs Hb) as Hf. rewrite Hl in Hf.
  change (256 ^ Z.of_nat 4)%Z with 4294967296%Z in Hf. unfold u32_MAX. lia.
Qed.

Lemma yields_u64 field : yields (take_u64 field) (λ z n, n = 8 ∧ is_u64 z).
Proof.
  eapply yields_bind; [apply yields_fixed|]. intros bs n (-> & Hl & Hb). apply yields_ret.
  split; [done|]. pose proof (from_le_bound bs Hb) as Hf. rewrite Hl in Hf.
  change (256 ^ Z.of_nat 8)%Z with 18446744073709551616%Z in Hf. unfold is_u64, u64_MAX. lia.
Qed.

Lemma wrap_i64_is_i64 z : is_i64 (wrap_i64 z).
Proof.
  unfold is_i64, wrap_i64. pose proof (wrap_u64_is_u64 z) as Hz.
  unfold is_u64, i64_MIN, i64_MAX, u64_MAX, two64 in *. case_match; bool_case; lia.
Qed.

Lemma yields_i64 field : yields (take_i64 field) (λ z n, n = 8 ∧ is_i64 z).
Proof.
  eapply yields_bind; [apply yields_fixed|]. intros bs n (-> & Hl & Hb). apply yields_ret.
  split; [done|]. apply wrap_i64_is_i64.
Qed.

Lemma yields_f64 field : yields (take_f64 field) (λ z n, n = 8 ∧ f64_valid z).
Proof.
  eapply yields_weaken; [apply yields_u64|]. intros z n [-> Hz]. split; [done|].
  unfold is_u64, u64_MAX, f64_valid, two64 in *. lia.
Qed.

Lemma yields_exact len field :
  (0 ≤ len)%Z → yields (take_exact_slice len field) (λ v n, n = length v).
Proof.
  intros Hlen body c Hb Hc. unfold take_exact_slice. destruct (_ <? len)%Z eqn:E; [done|]. bool_case.
  rewrite slice_is_Some by lia. cbn [or_panic mbind outcome_bind]. split; [lia|].
  rewrite length_take, length_drop. lia.
Qed.

(** A reader of values that are written in at most the bytes read. *)
Definition sized {A} (enc : A → Bytes) : A → nat → Prop := λ a n, length (enc a) ≤ n.

Ltac yields_tac :=
  repeat first
    [ apply yields_ret
    | apply yields_fail
    | eapply yields_bind; [by eauto with fast|intros ? ? ?; destruct_and?; simplify_eq/=] ].

#[export] Hint Resolve yields_u32 yields_u64 yields_i64 yields_f64 : fast.
#[export] Hint Extern 2 (yields (take_exact_slice _ _) _) => apply yields_exact; lia : fast.

Lemma yields_len_prefixed field : yields (take_len_prefixed_slice field) (sized encode_len_prefixed).
Proof.
  eapply yields_bind; [apply yields_u32|]. intros len n [-> Hlen].
  eapply yields_weaken; [apply yields_exact; lia|]. intros v n ->.
  unfold sized, encode_len_prefixed. rewrite length_app, length_to_le. lia.
Qed.

Lemma yields_key_value field :
  yields (take_key_value field) (sized (λ '(key, value), encode_key_value key value)).
Proof.
  unfold take_key_value. yields_tac. unfold sized, encode_key_value.
  rewrite !length_app, !length_to_le. lia.
Qed.

Lemma yields_key_field field : yields (take_key_field field) (sized (λ '(key, value), encode_key_field key value)).
Proof. apply yields_key_value. Qed.

Lemma yields_key_field_value field :
  yields (take_key_field_value field) (sized (λ '(key, field, value), encode_key_field_value key field value)).
Proof.
  unfold take_key_field_value. yields_tac. unfold sized, encode_key_field_value.
  rewrite !length_app, !length_to_le. lia.
Qed.

Lemma yields_times {A} (t : Take A) (enc : A → Bytes) k :
  yields t (sized enc) →
  yields (take_times k t) (λ l n, length l = k ∧ length (concat (map enc l)) ≤ n).
Proof.
  intros Ht. induction k as [|k IH]; cbn [take_times]; [by apply yields_ret|].
  eapply yields_bind; [apply Ht|]. intros a n Ha. eapply yields_bind; [apply IH|].
  intros l m [Hl Hm]. apply yields_ret. cbn [length map concat]. rewrite length_app.
  unfold sized in Ha. lia.
Qed.

Lemma yields_check count unit field :
  yields (check_count count unit field) (λ _ n, n = 0 ∧ (count ≤ FAST_MAX_COLLECTION_ITEMS)%Z).
Proof.
  intros body c Hb Hc. unfold check_count, remaining, mbind, take_bind.
  destruct (_ || _) eqn:E; [done|]. bool_case. unfold mret, take_ret. rewrite Nat.sub_diag. lia.
Qed.

(** A counted list, whatever way its count was read. *)
Lemma yields_counted {A} (t : Take A) (enc : A → Bytes) count unit field :
  (0 ≤ count)%Z → yields t (sized enc) →
  yields (check_count count unit field ≫= λ _, take_times (Z.to_nat count) t)
    (λ l n, Z.of_nat (length l) = count ∧ few l ∧ length (concat (map enc l)) ≤ n).
Proof.
  intros Hc Ht. eapply yields_bind; [apply yields_check|]. intros ? n [-> Hmax].
  eapply yields_weaken; [by apply yields_times|]. intros l n [Hl Hn]. unfold few.
  cbn [Nat.add]. split; [lia|]. split; [lia|done].
Qed.

Lemma yields_list field :
  yields (take_len_prefixed_list field) (λ l n, few l ∧ sized encode_len_prefixed_list l n).
Proof.
  eapply yields_bind; [apply yields_u32|]. intros count n [-> Hc].
  eapply yields_weaken; [apply yields_counted; [lia|apply yields_len_prefixed]|].
  intros l n (_ & Hf & Hn). split; [done|]. unfold sized, encode_len_prefixed_list.
  rewrite length_app, length_to_le. lia.
Qed.

Lemma yields_pairs field :
  yields (take_key_value_list field) (λ l n, few l ∧ sized encode_key_value_list l n).
Proof.
  eapply yields_bind; [apply yields_u32|]. intros count n [-> Hc].
  eapply yields_weaken; [apply yields_counted; [lia|apply yields_key_value]|].
  intros l n (_ & Hf & Hn). split; [done|]. unfold sized, encode_key_value_list.
  rewrite length_app, length_to_le. lia.
Qed.

Lemma yields_key_list field :
  yields (take_key_list field) (λ '(k, l) n, few l ∧ length (encode_key_list k l) ≤ n).
Proof.
  eapply yields_bind; [apply yields_len_prefixed|]. intros k n Hk.
  eapply yields_bind; [apply yields_list|]. intros l m [Hf Hl]. apply yields_ret.
  split; [done|]. unfold sized, encode_key_list in *. rewrite length_app. lia.
Qed.

(** *** Variable-length integers, canonical or not *)
Lemma lor_bound a b n : (0 ≤ n)%Z → (0 ≤ a < 2 ^ n)%Z → (0 ≤ b < 2 ^ n)%Z → (0 ≤ Z.lor a b < 2 ^ n)%Z.
Proof.
  intros Hn Ha Hb. split; [apply Z.lor_nonneg; lia|].
  destruct (decide (Z.lor a b = 0)%Z) as [->|]; [apply Z.pow_pos_nonneg; lia|].
  apply Z.log2_lt_pow2; [pose proof (proj2 (Z.lor_nonneg a b)); lia|].
  rewrite Z.log2_lor by lia.
  assert (0 < n)%Z.
  { destruct (decide (n = 0)%Z) as [->|]; [|lia]. rewrite Z.pow_0_r in *.
    replace a with 0%Z in * by lia. by replace b with 0%Z in * by lia. }
  assert (∀ x, 0 ≤ x < 2 ^ n → Z.log2 x < n)%Z as Hx.
  { intros x Hx. destruct (decide (x = 0)%Z) as [->|]; [done|]. apply Z.log2_lt_pow2; lia. }
  apply Z.max_lub_lt; by apply Hx.
Qed.

Lemma encode_var_loop_length fuel k z :
  1 ≤ k → (0 ≤ z < 2 ^ (7 * Z.of_nat k))%Z → length (encode_var_loop fuel z) ≤ k.
Proof.
  revert k z. induction fuel as [|fuel IH]; intros k z Hk Hz; cbn [encode_var_loop]; [simpl; lia|].
  destruct (128 <=? z)%Z eqn:E; bool_case; cbn [length]; [|lia].
  destruct (decide (k = 1)) as [->|].
  { change (2 ^ (7 * Z.of_nat 1))%Z with 128%Z in Hz. lia. }
  enough (length (encode_var_loop fuel (Z.shiftr z 7)) ≤ k - 1) by lia. apply IH; [lia|].
  rewrite Z.shiftr_div_pow2 by lia. split; [apply Z.div_pos; lia|]. apply Z.div_lt_upper_bound; [lia|].
  rewrite <-Z.pow_add_r by lia. replace (7 + 7 * Z.of_nat (k - 1))%Z with (7 * Z.of_nat k)%Z by lia. lia.
Qed.

Lemma yields_var_loop rounds k acc field :
  (0 ≤ acc < 2 ^ (7 * Z.of_nat k))%Z → (acc < two32)%Z →
  yields (take_var_loop rounds acc (7 * Z.of_nat k) field)
    (λ z n, 1 ≤ n ∧ (0 ≤ z < 2 ^ (7 * Z.of_nat (k + n)))%Z ∧ (z < two32)%Z).
Proof.
  revert k acc. induction rounds as [|rounds IH]; intros k acc Ha Ha' body c Hb Hc; [done|].
  cbn [take_var_loop]. destruct (body !! c) as [byte|] eqn:E; [|done].
  apply lookup_lt_Some in E as Hlt.
  assert (is_byte byte) as Hbyte by (by eapply Forall_lookup_1).
  set (m := Z.land byte 127).
  assert (0 ≤ m < 128)%Z as Hm.
  { unfold m. change 127%Z with (Z.ones 7). rewrite Z.land_ones by lia. apply Z.mod_pos_bound. lia. }
  set (v := Z.lor acc _).
  assert (0 ≤ v < 2 ^ (7 * Z.of_nat (k + 1)) ∧ v < two32)%Z as [Hv Hv'].
  { pose proof (Z.mod_pos_bound (Z.shiftl m (7 * Z.of_nat k)) two32 ltac:(done)) as Hmod.
    pose proof (Z.pow_pos_nonneg 2 (7 * Z.of_nat k)) as Hp.
    replace (7 * Z.of_nat (k + 1))%Z with (7 * Z.of_nat k + 7)%Z by lia.
    assert (0 ≤ Z.shiftl m (7 * Z.of_nat k) < 2 ^ (7 * Z.of_nat k + 7))%Z as Hsh.
    { rewrite Z.shiftl_mul_pow2, Z.pow_add_r by lia. change (2 ^ 7)%Z with 128%Z. nia. }
    assert (Z.shiftl m (7 * Z.of_nat k) mod two32 ≤ Z.shiftl m (7 * Z.of_nat k))%Z
      by (apply Z.mod_le; [lia|done]).
    split; [apply lor_bound; [lia| |lia]; rewrite Z.pow_add_r by lia; change (2 ^ 7)%Z with 128%Z; lia|].
    change two32 with (2 ^ 32)%Z in *. apply lor_bound; [lia..|]. lia. }
  destruct (Z.land byte 128 =? 0)%Z.
  - split; [lia|]. replace (c + 1 - c) with 1 by lia. done.
  - replace (7 * Z.of_nat k + 7)%Z with (7 * Z.of_nat (k + 1))%Z by lia.
    specialize (IH (k + 1) v Hv Hv' body (c + 1) Hb ltac:(lia)).
    destruct (take_var_loop _ _ _ _ _ _) as [| | |[z c']]; try done.
    destruct IH as (? & ? & Hz & ?). split; [lia|]. split; [lia|]. split; [|done].
    by replace (k + (c' - c)) with (k + 1 + (c' - (c + 1))) by lia.
Qed.

Lemma yields_var_u32 field :
  yields (take_var_u32 field) (λ z n, (0 ≤ z ≤ u32_MAX)%Z ∧ length (encode_var_u32 z) ≤ n).
Proof.
  eapply yields_weaken; [apply (yields_var_loop 5 0 0); done|].
  intros z n (Hn & Hz & Hz'). split; [unfold two32, u32_MAX in *; lia|].
  by apply encode_var_loop_length.
Qed.

Lemma yields_compact_slice field :
  yields (take_compact_len_prefixed_slice field) (sized encode_compact_len_prefixed).
Proof.
  eapply yields_bind; [apply yields_var_u32|]. intros len n [Hlen Hn] body c Hb Hc.
  unfold take_exact_slice. destruct (_ <? len)%Z eqn:E; [done|]. bool_case.
  rewrite slice_is_Some by lia. cbn [or_panic mbind outcome_bind]. split; [lia|].
  set (v := take _ _).
  assert (length v = Z.to_nat len) as Hv by (unfold v; rewrite length_take, length_drop; lia).
  unfold sized, encode_compact_len_prefixed. rewrite length_app, Hv, usize_as_u32_id, Z2Nat.id by lia. lia.
Qed.

Lemma yields_compact_list field :
  yields (take_compact_len_prefixed_list field) (λ l n, few l ∧ sized encode_compact_len_prefixed_list l n).
Proof.
  eapply yields_bind; [apply yields_var_u32|]. intros count n [Hc Hn].
  eapply yields_weaken; [apply yields_counted; [lia|apply yields_compact_slice]|].
  intros l m (Hl & Hf & Hm). split; [done|]. unfold sized, encode_compact_len_prefixed_list.
  rewrite length_app, usize_as_u32_id, Hl by lia. lia.
Qed.

#[export] Hint Resolve yields_len_prefixed yields_key_value yields_key_field yields_key_field_value
  yields_list yields_pairs yields_key_list yields_compact_list : fast.

(** *** Commands and requests *)

(** What is known of a command that was read: well formed, of the kind asked
    for, and written in no more bytes than were read. *)
Definition good_command (kind : FastCommandKind) (redis : bool) : FastCommand → nat → Prop := λ c n,
  command_ok c ∧ command_kind c = kind ∧ (redis = true → is_redis_command c = true) ∧
  sized encode_command c n.

Ltac good_tac :=
  unfold good_command, sized in *; cbn [command_ok command_kind is_redis_command encode_command default] in *;
  unfold encode_key_field, encode_key_value in *; rewrite ?length_app, ?length_to_le in *; unfold i64_le; rewrite ?length_to_le;
  split_and!; try done; try lia; try (unfold f64_valid, is_u64, two64, u64_MAX in *; lia).

Lemma yields_redis kind :
  is_Some (redis_name kind) →
  yields (args ← take_compact_len_prefixed_list "fast Redis command arguments"; mret (FRedisCommand kind args))
    (good_command kind true).
Proof. intros Hk. eapply yields_bind; [apply yields_compact_list|]. intros l n [Hf Hl]. apply yields_ret. good_tac. Qed.

Lemma yields_generic kind :
  yields (if negb (is_generic_redis_opcode kind) then take_fail (NoRequestDecoder (opcode kind))
          else args ← take_compact_len_prefixed_list "fast Redis command arguments";
               mret (FRedisCommand kind args)) (good_command kind true).
Proof.
  destruct (is_generic_redis_opcode kind) eqn:E; cbn [negb]; [|apply yields_fail].
  apply yields_redis. unfold is_generic_redis_opcode in E. apply andb_true_iff in E as [E _].
  by apply bool_decide_eq_true in E.
Qed.

Lemma yields_ping : yields (take_command KPing) (good_command KPing false).
Proof.
  intros body c Hb Hc. unfold take_command. rewrite slice_from_Some by done.
  cbn [or_panic mbind outcome_bind]. split; [lia|]. pose proof (length_drop body c).
  destruct (drop c body) as [|b rest]; good_tac. unfold id. lia.
Qed.

Lemma yields_hello : yields (take_command KHello) (good_command KHello false).
Proof.
  intros body c Hb Hc. unfold take_command, remaining, mbind at 1, take_bind at 1.
  destruct (8 <=? length body - c); revert body c Hb Hc.
  - change (yields (proto ← take_u64 "fast HELLO proto"; mret (FHello (Some proto))) (good_command KHello false)).
    eapply yields_bind; [apply yields_u64|]. intros z n [-> Hz]. apply yields_ret. good_tac.
  - change (yields (mret (FHello None)) (good_command KHello false)). apply yields_ret. good_tac.
Qed.

(** The fields of a command one by one, then the command. *)
Ltac fields_tac :=
  repeat match goal with
  | a : (_ * _)%type |- _ => destruct a
  | Ha : _ ∧ _ |- _ => destruct Ha
  | |- yields (_ ≫= _) _ => let H := fresh in eapply yields_bind; [by eauto with fast|]; intros ? ? H; cbv beta in H
  | |- yields (mret _) _ => apply yields_ret
  end; cbv beta iota in *; destruct_and?; subst.

Lemma yields_command kind : yields (take_command kind) (good_command kind false).
Proof.
  destruct kind;
    try apply yields_ping; try apply yields_hello; cbn [take_command];
    try (eapply yields_weaken; [apply yields_generic|]; intros c n (? & ? & ? & ?); by split_and!);
    fields_tac; good_tac.
Qed.

Lemma yields_redis_command kind : yields (take_redis_command kind) (good_command kind true).
Proof.
  unfold take_redis_command. destruct (bool_decide _) eqn:E.
  - apply bool_decide_eq_true in E as ->. fields_tac. good_tac.
  - destruct (redis_name kind) as [name|] eqn:Hn; [|apply yields_fail]. apply yields_redis. by exists name.
Qed.

Lemma yields_opt present n t Q :
  yields t (λ z m, m = n ∧ Q z) →
  yields (take_if present t) (λ o m, m = length (opt_le n o) ∧ match o with Some z => Q z | None => True end).
Proof.
  intros Ht. destruct present; cbn [take_if]; [|by apply yields_ret].
  eapply yields_bind; [apply Ht|]. intros z m [-> Hz]. apply yields_ret. cbn [opt_le].
  rewrite length_to_le. split; [lia|done].
Qed.

Lemma yields_finished {A} (a : A) field (Q : A → nat → Prop) :
  Q a 0 → yields (ensure_finished field ≫= λ _, mret a) Q.
Proof.
  intros HQ body c Hb Hc. unfold ensure_finished, mbind, take_bind. destruct (c =? length body); [|done].
  unfold mret, take_ret. rewrite Nat.sub_diag. split; [lia|done].
Qed.

Lemma yields_request kind flags :
  yields (take_request kind flags) (λ r n,
    opt_ok u64_MAX (req_key_hash r) ∧ opt_ok u32_MAX (req_route_shard r) ∧
    opt_ok u64_MAX (req_key_tag r) ∧ command_ok (req_command r) ∧ sized encode_request_body r n).
Proof.
  unfold take_request. eapply yields_bind; [apply yields_opt, yields_u64|]. intros h n1 [-> Hh].
  eapply yields_bind; [apply yields_opt, yields_u32|]. intros s n2 [-> Hs].
  eapply yields_bind; [apply yields_opt, yields_u64|]. intros t n3 [-> Ht].
  eapply (yields_bind _ _ (λ c n, command_ok c ∧ sized encode_command c n)).
  { destruct (negb _); eapply yields_weaken; [apply yields_redis_command| |apply yields_command|];
      intros c n (? & ? & ? & ?); by split. }
  intros c n4 [Hc Hn]. apply yields_finished.
  split_and!; [by destruct h|by destruct s|by destruct t|done|].
  unfold sized, encode_request_body in *. cbn [req_key_hash req_route_shard req_key_tag req_command].
  rewrite !length_app. lia.
Qed.

(** ** Frames on arbitrary buffers

    Both decoders look at the header, wait for the announced body and hand the
    body to a reader.  [decode_request_eq] and [decode_response_eq] bring them
    to this form; the rest is proved once. *)
Definition frame {A} (magic : Z) (magic_err : FastError) (version_err : Z → FastError)
    (head : Z → Z → FastDec (Bytes → FastDec A)) (buffer : Bytes) : FastDec (A * nat) :=
  match buffer with
  | m :: v :: x :: f :: l0 :: l1 :: l2 :: l3 :: rest =>
      if negb (m =? magic)%Z then Err magic_err
      else if negb (v =? FAST_PROTOCOL_VERSION)%Z then Err (version_err v)
      else
        read ← head x f;
        len ← ok_or (usize_checked (8 + from_le [l0; l1; l2; l3])) FrameLengthOverflow;
        if (Z.of_nat (length rest) <? len - 8)%Z then Incomplete
        else
          body ← or_panic (slice 8 (Z.to_nat len) buffer);
          a ← read body; Done (a, Z.to_nat len)
  | m :: _ => if negb (m =? magic)%Z then Err magic_err else Incomplete
  | [] => Incomplete
  end.

Definition request_head (id flags : Z) : FastDec (Bytes → FastDec FastRequest) :=
  kind ← ok_or (from_opcode id) (UnsupportedCommand id);
  if negb (Z.ldiff flags FAST_FLAGS =? 0)%Z then Err (UnsupportedFlags flags)
  else Done (λ body, fst <$> take_request kind flags body 0).

Definition response_head (status flags : Z) : FastDec (Bytes → FastDec FastResponse) :=
  Done (decode_response_body status).

Lemma header_slice m v x f l0 l1 l2 l3 rest :
  slice 4 8 (m :: v :: x :: f :: l0 :: l1 :: l2 :: l3 :: rest) = Some [l0; l1; l2; l3].
Proof. apply slice_Some. split; [simpl; lia|done]. Qed.

Lemma decode_request_eq b :
  decode_request b = frame FAST_REQUEST_MAGIC RequestMagic RequestVersion request_head b.
Proof.
  do 8 (try destruct b as [|? b]; [try done; unfold decode_request, frame; by destruct (negb _)|]).
  unfold decode_request, frame. destruct (negb _); [done|].
  change (length _ <? REQUEST_HEADER_LEN) with false. cbv iota.
  cbn [lookup list_lookup or_panic mbind outcome_bind]. destruct (negb _); [done|].
  unfold request_head. destruct (from_opcode _) as [kind|]; [|done]. cbn [ok_or mbind outcome_bind].
  destruct (negb _); [done|]. rewrite header_slice. cbn [or_panic mbind outcome_bind].
  change (Z.of_nat REQUEST_HEADER_LEN) with 8%Z.
  destruct (usize_checked _) as [len|]; [|done]. cbn [ok_or mbind outcome_bind].
  replace (Z.of_nat (length b) <? len - 8)%Z with (Z.of_nat (length (z :: z0 :: z1 :: z2 :: z3 :: z4 :: z5 :: z6 :: b)) <? len)%Z
    by (cbn [length]; apply eq_true_iff_eq; rewrite !Z.ltb_lt; lia).
  destruct (_ <? len)%Z; [done|]. unfold REQUEST_HEADER_LEN. destruct (slice _ _ _); [|done].
  cbn [or_panic mbind outcome_bind]. by destruct (take_request _ _ _ _) as [| | |[??]].
Qed.

Lemma decode_response_eq b :
  decode_response b = frame FAST_RESPONSE_MAGIC ResponseMagic ResponseVersion response_head b.
Proof.
  do 8 (try destruct b as [|? b]; [try done; unfold decode_response, frame; by destruct (negb _)|]).
  unfold decode_response, frame. destruct (negb _); [done|].
  change (length _ <? RESPONSE_HEADER_LEN) with false. cbv iota.
  cbn [lookup list_lookup or_panic mbind outcome_bind]. destruct (negb _); [done|].
  rewrite header_slice. cbn [or_panic ok_or mbind outcome_bind response_head].
  change (Z.of_nat RESPONSE_HEADER_LEN) with 8%Z.
  destruct (usize_checked _) as [len|]; [|done]. cbn [ok_or mbind outcome_bind].
  replace (Z.of_nat (length b) <? len - 8)%Z with (Z.of_nat (length (z :: z0 :: z1 :: z2 :: z3 :: z4 :: z5 :: z6 :: b)) <? len)%Z
    by (cbn [length]; apply eq_true_iff_eq; rewrite !Z.ltb_lt; lia).
  by destruct (_ <? len)%Z.
Qed.

Section frames.
Context {A : Type} (magic : Z) (magic_err : FastError) (version_err : Z → FastError).
Context (head : Z → Z → FastDec (Bytes → FastDec A)).

Lemma frame_app b rest :
  frame magic magic_err version_err head b ≠ Incomplete →
  frame magic magic_err version_err head (b ++ rest) = frame magic magic_err version_err head b.
Proof.
  do 8 (destruct b as [|? b]; [unfold frame at 1; cbn [app];
    first [by intros ?|destruct (negb _) eqn:E; [intros _|by intros ?];
           cbn [frame]; rewrite E; repeat (destruct rest as [|? rest]; cbn [frame app]; rewrite ?E; try done)]|]).
  cbn [frame app]. destruct (negb _); [done|]. destruct (negb _); [done|].
  destruct (head _ _) as [| | |read] eqn:Eh; try done. cbn [mbind outcome_bind].
  destruct (usize_checked _) as [len|]; [|done]. cbn [ok_or mbind outcome_bind].
  destruct (Z.of_nat (length b) <? len - 8)%Z eqn:E; [done|]. bool_case. intros _.
  rewrite (proj2 (Z.ltb_ge _ _)) by (rewrite length_app; lia).
  set (b' := _ :: _ :: _ :: _ :: _ :: _ :: _ :: _ :: b).
  change (_ :: _ :: _ :: _ :: _ :: _ :: _ :: _ :: b ++ rest) with (b' ++ rest).
  destruct (decide (8 ≤ Z.to_nat len)).
  - rewrite (slice_app _ _ b' rest _ (slice_is_Some 8 (Z.to_nat len) b' ltac:(unfold b'; cbn [length]; lia))).
    by rewrite slice_is_Some by (unfold b'; cbn [length]; lia).
  - unfold slice. by rewrite (proj2 (Nat.leb_gt 8 (Z.to_nat len))) by lia.
Qed.

Lemma frame_consumed b a n : frame magic magic_err version_err head b = Done (a, n) → n ≤ length b.
Proof.
  do 8 (destruct b as [|? b]; [cbn [frame]; by try destruct (negb _)|]).
  cbn [frame]. destruct (negb _); [done|]. destruct (negb _); [done|].
  intros (read & _ & (len & _ & H)%bind_Done)%bind_Done. revert H.
  destruct (_ <? _)%Z eqn:E; [done|]. bool_case.
  intros (body & _ & (a' & _ & [= <- <-])%bind_Done)%bind_Done. cbn [length]. lia.
Qed.

(** [returns]-style specification of a body reader. *)
Definition total (Q : A → Prop) (o : FastDec A) : Prop :=
  match o with Done a => Q a | Err _ => True | Panic | Incomplete => False end.

Lemma frame_spec b (Q : A → Prop) :
  all_bytes b →
  (∀ x f, match head x f with
          | Done read => ∀ body, all_bytes body → (Z.of_nat (length body) ≤ u32_MAX)%Z → total Q (read body)
          | Err _ => True
          | _ => False
          end) →
  match frame magic magic_err version_err head b with
  | Done (a, n) => 8 ≤ n ≤ length b ∧ Q a
  | Panic => False
  | _ => True
  end.
Proof.
  intros Hb Hh. do 8 (destruct b as [|? b]; [cbn [frame]; by try destruct (negb _)|]).
  cbn [frame]. destruct (negb _); [done|]. destruct (negb _); [done|].
  match goal with |- context [head ?x ?f] => specialize (Hh x f); destruct (head x f) as [| | |read] end; try done.
  cbn [mbind outcome_bind]. set (l4 := [_; _; _; _]).
  assert (all_bytes l4) as H4 by (unfold l4; do 4 apply Forall_cons_1 in Hb as [? Hb];
    do 4 (apply Forall_cons_1 in Hb as [? Hb]; constructor; [done|]); constructor).
  pose proof (from_le_bound l4 H4) as Hl4. change (256 ^ Z.of_nat (length l4))%Z with 4294967296%Z in Hl4.
  unfold usize_checked. rewrite (proj2 (Z.leb_le _ _)) by (unfold u64_MAX; lia). cbn [ok_or mbind outcome_bind].
  destruct (_ <? _)%Z eqn:E; [done|]. bool_case.
  rewrite slice_is_Some by (cbn [length]; lia). cbn [or_panic mbind outcome_bind].
  set (body := take _ _). specialize (Hh body).
  assert (length body ≤ Z.to_nat (from_le l4)) as Hlen.
  { unfold body. rewrite length_take. lia. }
  specialize (Hh ltac:(by apply Forall_take, Forall_drop) ltac:(unfold u32_MAX; lia)).
  destruct (read body); try done. cbn [mbind outcome_bind total] in *. split; [cbn [length]; lia|done].
Qed.
End frames.

Lemma take_total {A} (t : Take A) (Q : A → nat → Prop) (R : A → Prop) body :
  yields t Q → all_bytes body → (∀ a n, Q a n → n ≤ length body → R a) →
  total R (fst <$> t body 0).
Proof.
  intros Ht Hb HR. specialize (Ht body 0 Hb ltac:(lia)).
  destruct (t body 0) as [| | |[a c]]; try done. destruct Ht as [? Ha].
  rewrite Nat.sub_0_r in Ha. apply (HR a c Ha). lia.
Qed.

Lemma decode_request_spec b :
  all_bytes b →
  match decode_request b with
  | Done (r, n) => 8 ≤ n ≤ length b ∧ request_ok r
  | Panic => False
  | _ => True
  end.
Proof.
  intros Hb. rewrite decode_request_eq. apply frame_spec; [done|]. intros x f. unfold request_head.
  destruct (from_opcode x) as [kind|]; [|done]. cbn [ok_or mbind outcome_bind]. destruct (negb _); [done|].
  intros body Hbody Hlen. eapply take_total; [apply yields_request|done|].
  intros r n (H1 & H2 & H3 & H4 & H5) Hn. unfold sized in H5. split_and!; try done. lia.
Qed.

(** ** Responses *)
Definition response_ok (r : FastResponse) : Prop :=
  match r with
  | FRInteger value => is_i64 value
  | FRFloat value => f64_valid value
  | FRArray values => few values
  | _ => True
  end ∧ (Z.of_nat (length (response_parts r).2) ≤ u32_MAX)%Z.

Lemma reads_array_item o : reads take_array_item (encode_array_item o) o.
Proof.
  destruct o as [v|]; cbn [encode_array_item].
  - intros body c post Hl Hc Hd. refine (reads_len v _ v (Some v) _ _ _ body c post Hl Hc Hd); [done|].
    pose proof (f_equal length Hd) as HL.
    rewrite length_drop, !length_app, length_to_le in HL.
    rewrite (proj2 (Z.eqb_neq _ _)) by lia. by apply (reads_map _ Some), reads_exact.
  - eapply reads_bind0; [apply reads_u32; done|]. apply reads_ret.
Qed.

Lemma reads_array values : few values → reads_end decode_array_body (encode_array_body values) values.
Proof.
  intros Hf.
  assert (Forall (λ a, 4 ≤ length (encode_array_item a)) values) as Hlen.
  { apply Forall_true. intros [v|]; unfold encode_array_item;
      rewrite ?length_app, length_to_le; lia. }
  intros body c Hl Hc Hd.
  assert (reads (count ← take_u32 "fast array count";
                 check_count count 4 "fast array" ≫= λ _, take_times (Z.to_nat count) take_array_item)
            (encode_array_body values) values) as Hr.
  { apply reads_len; [pose proof (concat_length_ge _ 4 values Hlen); lia|].
    apply (reads_counted _ encode_array_item); [lia|done| |done]. apply Forall_true. apply reads_array_item. }
  apply reads_reads_end, (reads_end_finished _ id _ _ "fast array response") in Hr.
  specialize (Hr body c Hl Hc Hd). rewrite take_bind_assoc in Hr. unfold id in Hr. rewrite <-Hr.
  apply take_bind_ext. intros count c'. symmetry. apply take_bind_assoc.
Qed.

Lemma decode_encode_response r rest :
  response_ok r →
  decode_response (encode_response r ++ rest) = Done (r, length (encode_response r)).
Proof.
  intros [Hok Hb]. unfold encode_response. destruct (response_parts r) as [status body] eqn:Er.
  cbn [snd] in Hb. rewrite <-app_assoc.
  destruct (frame_parts FAST_RESPONSE_MAGIC FAST_PROTOCOL_VERSION status 0 body rest) as (Hl & H4 & H8).
  set (buffer := [_; _; _; _] ++ _) in *. unfold decode_response.
  change buffer with (FAST_RESPONSE_MAGIC :: drop 1 buffer) at 1. cbv iota beta.
  change (negb _) with false at 1. cbv iota. unfold RESPONSE_HEADER_LEN.
  rewrite (proj2 (Nat.ltb_ge _ _)) by lia.
  change (buffer !! 1) with (Some FAST_PROTOCOL_VERSION). change (buffer !! 2) with (Some status).
  cbn [or_panic ok_or mbind outcome_bind].
  change (negb (FAST_PROTOCOL_VERSION =? FAST_PROTOCOL_VERSION)%Z) with false. cbv iota.
  rewrite H4. cbn [or_panic ok_or mbind outcome_bind]. rewrite frame_len by done.
  cbn [or_panic ok_or mbind outcome_bind]. rewrite (proj2 (Z.ltb_ge _ _)) by lia.
  rewrite Nat2Z.id, H8. cbn [or_panic ok_or mbind outcome_bind].
  enough (decode_response_body status body = Done r) as -> by done.
  clear - Hok Hb Er. destruct r; simplify_eq/=; try done.
  - unfold i64_le.
    rewrite from_to_le_u64 by apply wrap_u64_is_u64. by rewrite wrap_i64_wrap_u64.
  - by destruct value.
  - by rewrite (reads_array values Hok (encode_array_body values) 0 Hb ltac:(lia) eq_refl).
  - rewrite from_to_le_u64; [done|].
    unfold f64_valid, is_u64, two64, u64_MAX in *. lia.
Qed.

Lemma yields_array_item : yields take_array_item (sized encode_array_item).
Proof.
  eapply yields_bind; [apply yields_u32|]. intros len n [-> Hlen]. destruct (len =? u32_MAX)%Z.
  - apply yields_ret. unfold sized, encode_array_item. rewrite length_to_le. lia.
  - eapply yields_bind; [apply yields_exact; lia|]. intros v n ->. apply yields_ret.
    unfold sized, encode_array_item. rewrite length_app, length_to_le. lia.
Qed.

Lemma yields_array : yields decode_array_body (λ l n, few l ∧ sized encode_array_body l n).
Proof.
  unfold decode_array_body. eapply yields_bind; [apply yields_u32|]. intros count n [-> Hc].
  eapply yields_bind; [apply yields_check|]. intros ? n [-> Hmax].
  eapply yields_bind; [apply yields_times, yields_array_item|]. intros l n [Hl Hn].
  apply yields_finished. split; [unfold few; lia|]. unfold sized, encode_array_body.
  rewrite length_app, length_to_le. lia.
Qed.

Lemma decode_response_spec b :
  all_bytes b →
  match decode_response b with
  | Done (r, n) => 8 ≤ n ≤ length b ∧ response_ok r
  | Panic => False
  | _ => True
  end.
Proof.
  intros Hb. rewrite decode_response_eq. apply frame_spec; [done|]. intros status f body Hbody Hlen.
  assert (length body = 8 → is_u64 (from_le body)) as H8.
  { intros E. pose proof (from_le_bound body Hbody) as Hl. rewrite E in Hl.
    change (256 ^ Z.of_nat 8)%Z with 18446744073709551616%Z in Hl. unfold is_u64, u64_MAX. lia. }
  unfold decode_response_body, response_ok.
  destruct status as [|p|p]; [done| |done]. do 4 (try destruct p as [p|p|]); try done.
  - destruct (length body =? 8) eqn:E; [|done]. bool_case. cbn. split; [|done].
    specialize (H8 E). unfold f64_valid, is_u64, u64_MAX, two64 in *. lia.
  - destruct body as [|x [|y body]]; [done| |done]. split; done.
  - destruct (length body =? 8) eqn:E; [|done]. bool_case. split; [|done]. apply wrap_i64_is_i64.
  - pose proof (take_total decode_array_body _ (λ l, few l ∧ length (encode_array_body l) ≤ length body) body
      yields_array Hbody) as Ht.
    specialize (Ht ltac:(intros l n [??] ?; unfold sized in *; split; [done|lia])).
    destruct (decode_array_body body 0) as [| | |[l c]]; try done. cbn in Ht |- *.
    split; [apply Ht|]. cbn [response_parts snd]. lia.
Qed.

(** ** One command in three forms

    The Redis arguments of a typed request ([score_text] prints a score). *)
Section forms.
Context (score_text : f64 → Bytes).

Definition number (z : Z) : Bytes := i64_to_string z.

Definition redis_args (c : FastCommand) : option (list Bytes) :=
  match c with
  | FPing payload => Some (option_list payload)
  | FAuth | FQuit | FInfo | FCommand | FDbSize | FTime => Some []
  | FHello proto => Some (number <$> option_list proto)
  | FSelect db => Some [number db]
  | FEcho payload => Some [payload]
  | FGet key | FDelete key | FExists key | FTtl key | FHLen key | FLPop key | FRPop key | FLLen key
  | FSCard key | FSMembers key | FZCard key => Some [key]
  | FSet key value => Some [key; value]
  | FSetEx key value ttl_ms => Some [key; number ttl_ms; value]
  | FGetEx key ttl_ms => Some [key; text "PX"; number ttl_ms]
  | FExpire key ttl_ms => Some [key; number ttl_ms]
  | FMGet keys => Some keys
  | FMSet items => Some (concat (map (λ '(key, value), [key; value]) items))
  | FHSet key field value => Some [key; field; value]
  | FHGet key field | FHDel key field => Some [key; field]
  | FHMGet key l | FLPush key l | FRPush key l | FSAdd key l | FSRem key l => Some (key :: l)
  | FLIndex key index => Some [key; number index]
  | FLRange key start stop | FZRange key start stop => Some [key; number start; number stop]
  | FSIsMember key member | FZRem key member | FZScore key member => Some [key; member]
  | FZAdd key score member => Some [key; score_text score; member]
  | _ => None
  end.

Lemma step_by_pairs items :
  step_by 2 0 (concat (map (λ '(key, value), [key; value]) items)) = items.*1.
Proof. induction items as [|[k v] items IH]; [done|]. cbn. by rewrite IH. Qed.

Lemma route_forms c args name :
  redis_args c = Some args → redis_name (command_kind c) = Some name →
  route_keys (FRedisCommand (command_kind c) args) = route_keys c ∧
  route_keys (FNativeRedisCommand name args) = route_keys c ∧
  route_keys (FRespCommand (name :: args)) = route_keys c.
Proof.
  intros Ha Hn.
  assert (redis_route_keys (command_kind c) args = route_keys c) as Hr.
  { destruct c; cbn [redis_args] in Ha; simplify_eq; try done.
    unfold command_kind, redis_route_keys, route_keys, every_nth_route_key.
    by rewrite drop_0, step_by_pairs. }
  unfold route_keys at 1 3 5, named_route_keys. rewrite (from_redis_name_name _ _ Hn). done.
Qed.
End forms.
