(* ===== verification/FastClient.v ===== *)
(** * The client's fast requests

    [shardcache-client-rs/src/commands]: the client's table of Redis commands
    with its own routing metadata (constructor [CGet] is
    [RedisCommandKind::Get]), the request bodies its command types write, and
    the frame [ScnpConnection::execute] puts around them.  What the server
    makes of them is shown against [Fast]. *)

From S2P Require Import Prelude Helpers F64 Deps Codec Resp Routing FastKinds Fast FastProofs.

(** ** [RedisCommandKind] *)
Inductive RedisCommandKind :=
  | CAppend | CAuth | CBitCount | CBitField | CBitOp | CBitPos | CBLMove | CBLMPop | CBLPop
  | CBRPop | CBRPopLPush | CBZMPop | CBZPopMax | CBZPopMin | CClient | CCommand | CConfig
  | CCopy | CDbSize | CDecr | CDecrBy | CDelete | CDiscard | CDump | CEcho | CExec | CExists
  | CExpire | CExpireAt | CExpireTime | CFlushAll | CFlushDb | CGet | CGetBit | CGetDel
  | CGetEx | CGetRange | CSubstr | CGetSet | CHello | CHDel | CHExists | CHGet | CHGetAll
  | CHIncrBy | CHIncrByFloat | CHKeys | CHLen | CHMGet | CHMSet | CHRandField | CHScan | CHSet
  | CHSetNx | CHStrLen | CHVals | CInfo | CIncr | CIncrBy | CIncrByFloat | CKeys | CLIndex
  | CLInsert | CLLen | CLMove | CLMPop | CLPop | CLPush | CLPushX | CLRange | CLRem | CLSet
  | CLTrim | CMemory | CMGet | CMSet | CMSetNx | CMulti | CObject | CPersist | CPExpire
  | CPExpireAt | CPExpireTime | CPing | CPSetEx | CPTtl | CQuit | CRandomKey | CRename
  | CRenameNx | CRestore | CRestoreAsking | CRPop | CRPopLPush | CRPush | CRPushX | CSAdd
  | CScan | CSCard | CSDiff | CSDiffStore | CSelect | CSet | CSetBit | CSetEx | CSetNx
  | CSetRange | CSInter | CSInterStore | CSIsMember | CSMembers | CSMIsMember | CSMove | CSPop
  | CSRandMember | CSRem | CSScan | CStrLen | CSUnion | CSUnionStore | CTime | CTouch | CTtl
  | CType | CUnlink | CUnwatch | CWatch | CZAdd | CZCard | CZCount | CZDiff | CZDiffStore
  | CZIncrBy | CZInter | CZInterCard | CZInterStore | CZLexCount | CZMPop | CZMScore | CZPopMax
  | CZPopMin | CZRandMember | CZRange | CZRangeByLex | CZRangeByScore | CZRangeStore | CZRank
  | CZRem | CZRemRangeByLex | CZRemRangeByRank | CZRemRangeByScore | CZRevRange
  | CZRevRangeByLex | CZRevRangeByScore | CZRevRank | CZScan | CZScore | CZUnion | CZUnionStore
  | CVAdd | CVRem | CVSim.

Definition client_name (kind : RedisCommandKind) : Bytes :=
  match kind with
  | CAppend => text "APPEND" | CAuth => text "AUTH" | CBitCount => text "BITCOUNT"
  | CBitField => text "BITFIELD" | CBitOp => text "BITOP" | CBitPos => text "BITPOS"
  | CBLMove => text "BLMOVE" | CBLMPop => text "BLMPOP" | CBLPop => text "BLPOP"
  | CBRPop => text "BRPOP" | CBRPopLPush => text "BRPOPLPUSH" | CBZMPop => text "BZMPOP"
  | CBZPopMax => text "BZPOPMAX" | CBZPopMin => text "BZPOPMIN" | CClient => text "CLIENT"
  | CCommand => text "COMMAND" | CConfig => text "CONFIG" | CCopy => text "COPY"
  | CDbSize => text "DBSIZE" | CDecr => text "DECR" | CDecrBy => text "DECRBY"
  | CDelete => text "DEL" | CDiscard => text "DISCARD" | CDump => text "DUMP"
  | CEcho => text "ECHO" | CExec => text "EXEC" | CExists => text "EXISTS"
  | CExpire => text "EXPIRE" | CExpireAt => text "EXPIREAT" | CExpireTime => text "EXPIRETIME"
  | CFlushAll => text "FLUSHALL" | CFlushDb => text "FLUSHDB" | CGet => text "GET"
  | CGetBit => text "GETBIT" | CGetDel => text "GETDEL" | CGetEx => text "GETEX"
  | CGetRange => text "GETRANGE" | CSubstr => text "SUBSTR" | CGetSet => text "GETSET"
  | CHello => text "HELLO" | CHDel => text "HDEL" | CHExists => text "HEXISTS"
  | CHGet => text "HGET" | CHGetAll => text "HGETALL" | CHIncrBy => text "HINCRBY"
  | CHIncrByFloat => text "HINCRBYFLOAT" | CHKeys => text "HKEYS" | CHLen => text "HLEN"
  | CHMGet => text "HMGET" | CHMSet => text "HMSET" | CHRandField => text "HRANDFIELD"
  | CHScan => text "HSCAN" | CHSet => text "HSET" | CHSetNx => text "HSETNX"
  | CHStrLen => text "HSTRLEN" | CHVals => text "HVALS" | CInfo => text "INFO"
  | CIncr => text "INCR" | CIncrBy => text "INCRBY" | CIncrByFloat => text "INCRBYFLOAT"
  | CKeys => text "KEYS" | CLIndex => text "LINDEX" | CLInsert => text "LINSERT"
  | CLLen => text "LLEN" | CLMove => text "LMOVE" | CLMPop => text "LMPOP"
  | CLPop => text "LPOP" | CLPush => text "LPUSH" | CLPushX => text "LPUSHX"
  | CLRange => text "LRANGE" | CLRem => text "LREM" | CLSet => text "LSET"
  | CLTrim => text "LTRIM" | CMemory => text "MEMORY" | CMGet => text "MGET"
  | CMSet => text "MSET" | CMSetNx => text "MSETNX" | CMulti => text "MULTI"
  | CObject => text "OBJECT" | CPersist => text "PERSIST" | CPExpire => text "PEXPIRE"
  | CPExpireAt => text "PEXPIREAT" | CPExpireTime => text "PEXPIRETIME" | CPing => text "PING"
  | CPSetEx => text "PSETEX" | CPTtl => text "PTTL" | CQuit => text "QUIT"
  | CRandomKey => text "RANDOMKEY" | CRename => text "RENAME" | CRenameNx => text "RENAMENX"
  | CRestore => text "RESTORE" | CRestoreAsking => text "RESTORE-ASKING" | CRPop => text "RPOP"
  | CRPopLPush => text "RPOPLPUSH" | CRPush => text "RPUSH" | CRPushX => text "RPUSHX"
  | CSAdd => text "SADD" | CScan => text "SCAN" | CSCard => text "SCARD"
  | CSDiff => text "SDIFF" | CSDiffStore => text "SDIFFSTORE" | CSelect => text "SELECT"
  | CSet => text "SET" | CSetBit => text "SETBIT" | CSetEx => text "SETEX"
  | CSetNx => text "SETNX" | CSetRange => text "SETRANGE" | CSInter => text "SINTER"
  | CSInterStore => text "SINTERSTORE" | CSIsMember => text "SISMEMBER"
  | CSMembers => text "SMEMBERS" | CSMIsMember => text "SMISMEMBER" | CSMove => text "SMOVE"
  | CSPop => text "SPOP" | CSRandMember => text "SRANDMEMBER" | CSRem => text "SREM"
  | CSScan => text "SSCAN" | CStrLen => text "STRLEN" | CSUnion => text "SUNION"
  | CSUnionStore => text "SUNIONSTORE" | CTime => text "TIME" | CTouch => text "TOUCH"
  | CTtl => text "TTL" | CType => text "TYPE" | CUnlink => text "UNLINK"
  | CUnwatch => text "UNWATCH" | CWatch => text "WATCH" | CZAdd => text "ZADD"
  | CZCard => text "ZCARD" | CZCount => text "ZCOUNT" | CZDiff => text "ZDIFF"
  | CZDiffStore => text "ZDIFFSTORE" | CZIncrBy => text "ZINCRBY" | CZInter => text "ZINTER"
  | CZInterCard => text "ZINTERCARD" | CZInterStore => text "ZINTERSTORE"
  | CZLexCount => text "ZLEXCOUNT" | CZMPop => text "ZMPOP" | CZMScore => text "ZMSCORE"
  | CZPopMax => text "ZPOPMAX" | CZPopMin => text "ZPOPMIN"
  | CZRandMember => text "ZRANDMEMBER" | CZRange => text "ZRANGE"
  | CZRangeByLex => text "ZRANGEBYLEX" | CZRangeByScore => text "ZRANGEBYSCORE"
  | CZRangeStore => text "ZRANGESTORE" | CZRank => text "ZRANK" | CZRem => text "ZREM"
  | CZRemRangeByLex => text "ZREMRANGEBYLEX" | CZRemRangeByRank => text "ZREMRANGEBYRANK"
  | CZRemRangeByScore => text "ZREMRANGEBYSCORE" | CZRevRange => text "ZREVRANGE"
  | CZRevRangeByLex => text "ZREVRANGEBYLEX" | CZRevRangeByScore => text "ZREVRANGEBYSCORE"
  | CZRevRank => text "ZREVRANK" | CZScan => text "ZSCAN" | CZScore => text "ZSCORE"
  | CZUnion => text "ZUNION" | CZUnionStore => text "ZUNIONSTORE" | CVAdd => text "VADD"
  | CVRem => text "VREM" | CVSim => text "VSIM"
  end.

Definition client_opcode (kind : RedisCommandKind) : Z :=
  match kind with
  | CAppend => 80 | CAuth => 60 | CBitCount => 81 | CBitField => 82 | CBitOp => 83
  | CBitPos => 84 | CBLMove => 160 | CBLMPop => 161 | CBLPop => 162 | CBRPop => 163
  | CBRPopLPush => 173 | CBZMPop => 201 | CBZPopMax => 202 | CBZPopMin => 203 | CClient => 77
  | CCommand => 66 | CConfig => 76 | CCopy => 100 | CDbSize => 69 | CDecr => 85 | CDecrBy => 86
  | CDelete => 5 | CDiscard => 122 | CDump => 101 | CEcho => 64 | CExec => 121 | CExists => 6
  | CExpire => 8 | CExpireAt => 102 | CExpireTime => 103 | CFlushAll => 78 | CFlushDb => 79
  | CGet => 1 | CGetBit => 87 | CGetDel => 88 | CGetEx => 4 | CGetRange => 89 | CSubstr => 126
  | CGetSet => 90 | CHello => 61 | CHDel => 22 | CHExists => 140 | CHGet => 21
  | CHGetAll => 141 | CHIncrBy => 142 | CHIncrByFloat => 143 | CHKeys => 144 | CHLen => 23
  | CHMGet => 24 | CHMSet => 145 | CHRandField => 146 | CHScan => 147 | CHSet => 20
  | CHSetNx => 148 | CHStrLen => 149 | CHVals => 150 | CInfo => 65 | CIncr => 91
  | CIncrBy => 92 | CIncrByFloat => 93 | CKeys => 104 | CLIndex => 35 | CLInsert => 164
  | CLLen => 34 | CLMove => 165 | CLMPop => 166 | CLPop => 32 | CLPush => 30 | CLPushX => 167
  | CLRange => 36 | CLRem => 168 | CLSet => 169 | CLTrim => 170 | CMemory => 105 | CMGet => 10
  | CMSet => 11 | CMSetNx => 94 | CMulti => 120 | CObject => 106 | CPersist => 107
  | CPExpire => 108 | CPExpireAt => 109 | CPExpireTime => 110 | CPing => 9 | CPSetEx => 95
  | CPTtl => 111 | CQuit => 63 | CRandomKey => 112 | CRename => 113 | CRenameNx => 114
  | CRestore => 115 | CRestoreAsking => 125 | CRPop => 33 | CRPopLPush => 171 | CRPush => 31
  | CRPushX => 172 | CSAdd => 40 | CScan => 116 | CSCard => 43 | CSDiff => 180
  | CSDiffStore => 181 | CSelect => 62 | CSet => 2 | CSetBit => 96 | CSetEx => 3 | CSetNx => 97
  | CSetRange => 98 | CSInter => 182 | CSInterStore => 183 | CSIsMember => 42 | CSMembers => 44
  | CSMIsMember => 184 | CSMove => 185 | CSPop => 186 | CSRandMember => 187 | CSRem => 41
  | CSScan => 188 | CStrLen => 99 | CSUnion => 189 | CSUnionStore => 190 | CTime => 70
  | CTouch => 117 | CTtl => 7 | CType => 118 | CUnlink => 119 | CUnwatch => 124 | CWatch => 123
  | CZAdd => 50 | CZCard => 53 | CZCount => 204 | CZDiff => 205 | CZDiffStore => 206
  | CZIncrBy => 207 | CZInter => 208 | CZInterCard => 209 | CZInterStore => 210
  | CZLexCount => 211 | CZMPop => 212 | CZMScore => 213 | CZPopMax => 214 | CZPopMin => 215
  | CZRandMember => 216 | CZRange => 54 | CZRangeByLex => 217 | CZRangeByScore => 218
  | CZRangeStore => 219 | CZRank => 220 | CZRem => 51 | CZRemRangeByLex => 221
  | CZRemRangeByRank => 222 | CZRemRangeByScore => 223 | CZRevRange => 224
  | CZRevRangeByLex => 225 | CZRevRangeByScore => 226 | CZRevRank => 227 | CZScan => 228
  | CZScore => 52 | CZUnion => 229 | CZUnionStore => 230 | CVAdd => 231 | CVRem => 241
  | CVSim => 243
  end%Z.

Definition REDIS_COMMAND_KINDS : list RedisCommandKind := [
  CAppend; CAuth; CBitCount; CBitField; CBitOp; CBitPos; CBLMove; CBLMPop; CBLPop; CBRPop;
  CBRPopLPush; CBZMPop; CBZPopMax; CBZPopMin; CClient; CCommand; CConfig; CCopy; CDbSize;
  CDecr; CDecrBy; CDelete; CDiscard; CDump; CEcho; CExec; CExists; CExpire; CExpireAt;
  CExpireTime; CFlushAll; CFlushDb; CGet; CGetBit; CGetDel; CGetEx; CGetRange; CSubstr;
  CGetSet; CHello; CHDel; CHExists; CHGet; CHGetAll; CHIncrBy; CHIncrByFloat; CHKeys; CHLen;
  CHMGet; CHMSet; CHRandField; CHScan; CHSet; CHSetNx; CHStrLen; CHVals; CInfo; CIncr; CIncrBy;
  CIncrByFloat; CKeys; CLIndex; CLInsert; CLLen; CLMove; CLMPop; CLPop; CLPush; CLPushX;
  CLRange; CLRem; CLSet; CLTrim; CMemory; CMGet; CMSet; CMSetNx; CMulti; CObject; CPersist;
  CPExpire; CPExpireAt; CPExpireTime; CPing; CPSetEx; CPTtl; CQuit; CRandomKey; CRename;
  CRenameNx; CRestore; CRestoreAsking; CRPop; CRPopLPush; CRPush; CRPushX; CSAdd; CScan;
  CSCard; CSDiff; CSDiffStore; CSelect; CSet; CSetBit; CSetEx; CSetNx; CSetRange; CSInter;
  CSInterStore; CSIsMember; CSMembers; CSMIsMember; CSMove; CSPop; CSRandMember; CSRem; CSScan;
  CStrLen; CSUnion; CSUnionStore; CTime; CTouch; CTtl; CType; CUnlink; CUnwatch; CWatch; CZAdd;
  CZCard; CZCount; CZDiff; CZDiffStore; CZIncrBy; CZInter; CZInterCard; CZInterStore;
  CZLexCount; CZMPop; CZMScore; CZPopMax; CZPopMin; CZRandMember; CZRange; CZRangeByLex;
  CZRangeByScore; CZRangeStore; CZRank; CZRem; CZRemRangeByLex; CZRemRangeByRank;
  CZRemRangeByScore; CZRevRange; CZRevRangeByLex; CZRevRangeByScore; CZRevRank; CZScan;
  CZScore; CZUnion; CZUnionStore; CVAdd; CVRem; CVSim].

Definition client_from_name (name : Bytes) : option RedisCommandKind :=
  find (λ kind, eq_ignore_ascii_case name (client_name kind)) REDIS_COMMAND_KINDS.

Definition client_from_opcode (value : Z) : option RedisCommandKind :=
  match value with
  | 80%Z => Some CAppend | 60%Z => Some CAuth | 81%Z => Some CBitCount | 82%Z => Some CBitField
  | 83%Z => Some CBitOp | 84%Z => Some CBitPos | 160%Z => Some CBLMove | 161%Z => Some CBLMPop
  | 162%Z => Some CBLPop | 163%Z => Some CBRPop | 173%Z => Some CBRPopLPush
  | 201%Z => Some CBZMPop | 202%Z => Some CBZPopMax | 203%Z => Some CBZPopMin
  | 77%Z => Some CClient | 66%Z => Some CCommand | 76%Z => Some CConfig | 100%Z => Some CCopy
  | 69%Z => Some CDbSize | 85%Z => Some CDecr | 86%Z => Some CDecrBy | 5%Z => Some CDelete
  | 122%Z => Some CDiscard | 101%Z => Some CDump | 64%Z => Some CEcho | 121%Z => Some CExec
  | 6%Z => Some CExists | 8%Z => Some CExpire | 102%Z => Some CExpireAt
  | 103%Z => Some CExpireTime | 78%Z => Some CFlushAll | 79%Z => Some CFlushDb
  | 1%Z => Some CGet | 87%Z => Some CGetBit | 88%Z => Some CGetDel | 4%Z => Some CGetEx
  | 89%Z => Some CGetRange | 126%Z => Some CSubstr | 90%Z => Some CGetSet | 61%Z => Some CHello
  | 22%Z => Some CHDel | 140%Z => Some CHExists | 21%Z => Some CHGet | 141%Z => Some CHGetAll
  | 142%Z => Some CHIncrBy | 143%Z => Some CHIncrByFloat | 144%Z => Some CHKeys
  | 23%Z => Some CHLen | 24%Z => Some CHMGet | 145%Z => Some CHMSet | 146%Z => Some CHRandField
  | 147%Z => Some CHScan | 20%Z => Some CHSet | 148%Z => Some CHSetNx | 149%Z => Some CHStrLen
  | 150%Z => Some CHVals | 65%Z => Some CInfo | 91%Z => Some CIncr | 92%Z => Some CIncrBy
  | 93%Z => Some CIncrByFloat | 104%Z => Some CKeys | 35%Z => Some CLIndex
  | 164%Z => Some CLInsert | 34%Z => Some CLLen | 165%Z => Some CLMove | 166%Z => Some CLMPop
  | 32%Z => Some CLPop | 30%Z => Some CLPush | 167%Z => Some CLPushX | 36%Z => Some CLRange
  | 168%Z => Some CLRem | 169%Z => Some CLSet | 170%Z => Some CLTrim | 105%Z => Some CMemory
  | 10%Z => Some CMGet | 11%Z => Some CMSet | 94%Z => Some CMSetNx | 120%Z => Some CMulti
  | 106%Z => Some CObject | 107%Z => Some CPersist | 108%Z => Some CPExpire
  | 109%Z => Some CPExpireAt | 110%Z => Some CPExpireTime | 9%Z => Some CPing
  | 95%Z => Some CPSetEx | 111%Z => Some CPTtl | 63%Z => Some CQuit | 112%Z => Some CRandomKey
  | 113%Z => Some CRename | 114%Z => Some CRenameNx | 115%Z => Some CRestore
  | 125%Z => Some CRestoreAsking | 33%Z => Some CRPop | 171%Z => Some CRPopLPush
  | 31%Z => Some CRPush | 172%Z => Some CRPushX | 40%Z => Some CSAdd | 116%Z => Some CScan
  | 43%Z => Some CSCard | 180%Z => Some CSDiff | 181%Z => Some CSDiffStore
  | 62%Z => Some CSelect | 2%Z => Some CSet | 96%Z => Some CSetBit | 3%Z => Some CSetEx
  | 97%Z => Some CSetNx | 98%Z => Some CSetRange | 182%Z => Some CSInter
  | 183%Z => Some CSInterStore | 42%Z => Some CSIsMember | 44%Z => Some CSMembers
  | 184%Z => Some CSMIsMember | 185%Z => Some CSMove | 186%Z => Some CSPop
  | 187%Z => Some CSRandMember | 41%Z => Some CSRem | 188%Z => Some CSScan
  | 99%Z => Some CStrLen | 189%Z => Some CSUnion | 190%Z => Some CSUnionStore
  | 70%Z => Some CTime | 117%Z => Some CTouch | 7%Z => Some CTtl | 118%Z => Some CType
  | 119%Z => Some CUnlink | 124%Z => Some CUnwatch | 123%Z => Some CWatch | 50%Z => Some CZAdd
  | 53%Z => Some CZCard | 204%Z => Some CZCount | 205%Z => Some CZDiff
  | 206%Z => Some CZDiffStore | 207%Z => Some CZIncrBy | 208%Z => Some CZInter
  | 209%Z => Some CZInterCard | 210%Z => Some CZInterStore | 211%Z => Some CZLexCount
  | 212%Z => Some CZMPop | 213%Z => Some CZMScore | 214%Z => Some CZPopMax
  | 215%Z => Some CZPopMin | 216%Z => Some CZRandMember | 54%Z => Some CZRange
  | 217%Z => Some CZRangeByLex | 218%Z => Some CZRangeByScore | 219%Z => Some CZRangeStore
  | 220%Z => Some CZRank | 51%Z => Some CZRem | 221%Z => Some CZRemRangeByLex
  | 222%Z => Some CZRemRangeByRank | 223%Z => Some CZRemRangeByScore | 224%Z => Some CZRevRange
  | 225%Z => Some CZRevRangeByLex | 226%Z => Some CZRevRangeByScore | 227%Z => Some CZRevRank
  | 228%Z => Some CZScan | 52%Z => Some CZScore | 229%Z => Some CZUnion
  | 230%Z => Some CZUnionStore | 231%Z => Some CVAdd | 241%Z => Some CVRem | 243%Z => Some CVSim
  | _ => None
  end.

Definition client_uses_vector_shard (kind : RedisCommandKind) : bool :=
  match kind with CVAdd | CVRem | CVSim => true | _ => false end.

(** The client's [route_keys].  The helpers of [redis.rs] are copies of those
    of [fast.rs] and share their definitions here. *)
Definition client_route_keys (kind : RedisCommandKind) (args : list Bytes) : option FastRedisRouteKeys :=
  match kind with
  | CAuth | CHello | CSelect | CQuit | CPing | CEcho | CInfo | CCommand | CConfig | CDbSize | CTime
  | CClient | CMulti | CExec | CDiscard | CUnwatch => Some RouteNone
  | CKeys | CRandomKey | CScan | CFlushAll | CFlushDb => Some AllShards
  | CDelete | CUnlink | CTouch | CMGet | CSUnion | CSInter | CSDiff | CWatch => Some (all_route_keys args)
  | CMSet | CMSetNx => Some (every_nth_route_key args 0 2)
  | CCopy | CRename | CRenameNx | CRPopLPush | CBRPopLPush | CLMove | CBLMove | CSMove =>
      Some (first_n_route_keys args 2)
  | CObject | CMemory => Some (first_n_route_keys (drop 1 args) 1)
  | CBitOp => Some (all_route_keys (drop 1 args))
  | CLMPop | CZMPop | CZDiff | CZInter | CZUnion => Some (counted_route_keys args 0)
  | CBLMPop | CBZMPop => Some (counted_route_keys args 1)
  | CBLPop | CBRPop | CBZPopMin | CBZPopMax => Some (route_keys_before_last_arg args)
  | CSUnionStore | CSInterStore | CSDiffStore => Some (first_and_tail_route_keys args 0 1)
  | CZUnionStore | CZInterStore | CZDiffStore => zaggregate_store_route_keys args
  | CZInterCard => Some (counted_route_keys args 0)
  | CZRangeStore => Some (first_n_route_keys args 2)
  | _ => Some (first_n_route_keys args 1)
  end.

(** ** Request bodies *)

Definition ROUTED_FLAGS : Z := Z.lor (Z.lor FAST_FLAG_KEY_HASH FAST_FLAG_ROUTE_SHARD) FAST_FLAG_KEY_TAG.

(** [ScnpCommand]: what [execute] asks of a command. *)
Record ScnpCommand := mkScnp {
  sc_opcode : Z;
  sc_flags : Z;
  sc_body_len : nat;
  sc_body : Bytes;
}.

Abbreviation Route := (option Routing.Client.ShardCacheRoute).

(** [common::flags]; [get.rs] and [set.rs] have their own copies. *)
Definition key_flags (route : Route) : Z :=
  match route with Some _ => ROUTED_FLAGS | None => FAST_FLAG_KEY_HASH end.

Definition route_prefix_len (route : Route) : nat := match route with Some _ => 20 | None => 8 end.

Definition key_body_len (route : Route) (key_len : nat) : nat := route_prefix_len route + 4 + key_len.
Definition ttl_key_body_len (route : Route) (key_len : nat) : nat := route_prefix_len route + 8 + 4 + key_len.
Definition ttl_key_value_body_len (route : Route) (key_len value_len : nat) : nat :=
  route_prefix_len route + 8 + 4 + 4 + key_len + value_len.

(** [while value >= 0x80]: at most four times for a [u32]. *)
Fixpoint var_len_loop (fuel : nat) (value : Z) : nat :=
  match fuel with
  | O => 1
  | S fuel' => if (128 <=? value)%Z then S (var_len_loop fuel' (Z.shiftr value 7)) else 1
  end.

Definition var_u32_len (value : Z) : nat := var_len_loop 4 value.

Definition arg_list_len (args : list Bytes) : nat :=
  var_u32_len (usize_as_u32 (length args)) +
  sum_list (map (λ arg, var_u32_len (usize_as_u32 (length arg)) + length arg) args).

Definition write_arg_list (args : list Bytes) : Bytes :=
  encode_var_u32 (usize_as_u32 (length args)) ++
  concat (map (λ arg, encode_var_u32 (usize_as_u32 (length arg)) ++ arg) args).

Definition write_len_prefixed (value : Bytes) : Bytes := to_le 4 (usize_as_u32 (length value)) ++ value.

Section client.
Context `{Hashing}.

Definition write_route_prefix (route : Route) (key : Bytes) : Bytes :=
  match route with
  | Some route => Routing.Client.write_to route
  | None => to_le 8 (hash_key key)
  end.

Definition write_key_body (route : Route) (key : Bytes) : Bytes :=
  write_route_prefix route key ++ write_len_prefixed key.

Definition write_ttl_key_body (route : Route) (key : Bytes) (ttl_ms : Z) : Bytes :=
  write_route_prefix route key ++ to_le 8 ttl_ms ++ write_len_prefixed key.

Definition write_ttl_key_value_body (route : Route) (key value : Bytes) (ttl_ms : Z) : Bytes :=
  write_route_prefix route key ++ to_le 8 ttl_ms ++ to_le 4 (usize_as_u32 (length key)) ++
  to_le 4 (usize_as_u32 (length value)) ++ key ++ value.

(** [get.rs]. *)
Definition get_command (route : Route) (key : Bytes) : ScnpCommand :=
  mkScnp 1 (key_flags route) (match route with Some _ => 24 | None => 12 end + length key)
    (write_route_prefix route key ++ to_le 4 (usize_as_u32 (length key)) ++ key).

(** [set.rs]. *)
Definition set_command (route : Route) (key value : Bytes) : ScnpCommand :=
  mkScnp 2 (key_flags route) (match route with Some _ => 28 | None => 16 end + length key + length value)
    (write_route_prefix route key ++ to_le 4 (usize_as_u32 (length key)) ++
     to_le 4 (usize_as_u32 (length value)) ++ key ++ value).

(** [setex.rs], [getex.rs], [del.rs], [exists.rs], [ttl.rs], [expire.rs]. *)
Definition setex_command (route : Route) (key value : Bytes) (ttl_ms : Z) : ScnpCommand :=
  mkScnp 3 (key_flags route) (ttl_key_value_body_len route (length key) (length value))
    (write_ttl_key_value_body route key value ttl_ms).

Definition getex_command (route : Route) (key : Bytes) (ttl_ms : Z) : ScnpCommand :=
  mkScnp 4 (key_flags route) (ttl_key_body_len route (length key)) (write_ttl_key_body route key ttl_ms).

Definition del_command (route : Route) (key : Bytes) : ScnpCommand :=
  mkScnp 5 (key_flags route) (key_body_len route (length key)) (write_key_body route key).

Definition exists_command (route : Route) (key : Bytes) : ScnpCommand :=
  mkScnp 6 (key_flags route) (key_body_len route (length key)) (write_key_body route key).

Definition ttl_command (route : Route) (key : Bytes) : ScnpCommand :=
  mkScnp 7 (key_flags route) (key_body_len route (length key)) (write_key_body route key).

Definition expire_command (route : Route) (key : Bytes) (ttl_ms : Z) : ScnpCommand :=
  mkScnp 8 (key_flags route) (ttl_key_body_len route (length key)) (write_ttl_key_body route key ttl_ms).

(** [resp.rs]: [RespCommand]. *)
Definition resp_command (parts : list Bytes) : ScnpCommand :=
  mkScnp 200 0 (4 + sum_list (map (λ part, 4 + length part) parts))
    (to_le 4 (usize_as_u32 (length parts)) ++
     concat (map (λ part, to_le 4 (usize_as_u32 (length part)) ++ part) parts)).

(** [redis.rs]: [RedisCommand], [RedisRespCommand]. *)
Definition redis_command (kind : RedisCommandKind) (route : Route) (args : list Bytes) : ScnpCommand :=
  mkScnp (client_opcode kind)
    (Z.lor FAST_FLAG_REDIS_COMMAND_ARGS (match route with Some _ => ROUTED_FLAGS | None => 0 end))
    (match route with Some _ => 20 | None => 0 end + arg_list_len args)
    (match route with Some route => Routing.Client.write_to route | None => [] end ++ write_arg_list args).

Definition redis_resp_command (command : Bytes) (args : list Bytes) : ScnpCommand :=
  mkScnp 200 0 (4 + 4 + length command + sum_list (map (λ arg, 4 + length arg) args))
    (to_le 4 (usize_as_u32 (length args + 1)) ++ to_le 4 (usize_as_u32 (length command)) ++ command ++
     concat (map (λ arg, to_le 4 (usize_as_u32 (length arg)) ++ arg) args)).

(** [RedisNativeCommand::new]: [None] beyond the protocol limits. *)
Definition native_command (command : Bytes) (args : list Bytes) : option ScnpCommand :=
  if (u32_MAX <? Z.of_nat (length command))%Z || (u32_MAX <? Z.of_nat (length args))%Z
     || (RESP_MAX_CONTAINER_ITEMS <? Z.of_nat (length args))%Z
     || existsb (λ arg, u32_MAX <? Z.of_nat (length arg))%Z args
  then None
  else
    let body_len := 4 + length command + var_u32_len (usize_as_u32 (length args)) +
                    sum_list (map (λ arg, var_u32_len (usize_as_u32 (length arg)) + length arg) args) in
    if (u32_MAX <? Z.of_nat body_len)%Z then None
    else Some (mkScnp 244 FAST_FLAG_REDIS_COMMAND_ARGS body_len
                 (to_le 4 (usize_as_u32 (length command)) ++ command ++ write_arg_list args)).
End client.

(** ** Vector commands ([vector.rs])

    A finite [f32] is its bits; the counts are [usize]. *)
Definition PING_OPCODE : Z := 9.
Definition VADD_OPCODE : Z := 231.
Definition VREM_OPCODE : Z := 241.
Definition VSIM_OPCODE : Z := 243.
Definition MAX_TYPED_ARRAY_ITEMS : Z := 65536.
Definition MAX_VSIM_RESULTS : Z := MAX_TYPED_ARRAY_ITEMS / 3.
Definition MAX_VECTOR_GOVERNANCE_BYTES : Z := 64 * 1024.
Definition MAX_VECTOR_DIMENSIONS : Z := 65536.
Definition MAX_HNSW_M : Z := 1024.
Definition MAX_HNSW_EF_CONSTRUCTION : Z := 1000000.

Inductive VectorQuantization := NoQuant | Q8 | Binary.

Definition token (q : VectorQuantization) : Bytes :=
  match q with NoQuant => text "NOQUANT" | Q8 => text "Q8" | Binary => text "BIN" end.

Record VAddOptions := mkVAddOptions {
  va_attributes : option Bytes;
  va_governance : option Bytes;
  va_expected_governance : option Bytes;
  va_clear_governance : bool;
  va_quantization : option VectorQuantization;
  va_reduce_dim : option Z;
  va_hnsw_m : option Z;
  va_ef_construction : option Z;
  va_cas : bool;
}.

Record VSimOptions := mkVSimOptions {
  vs_count : Z;
  vs_filter : option Bytes;
  vs_ef_search : option Z;
  vs_truth : bool;
  vs_with_governance : bool;
  vs_allowed_governance : list Bytes;
  vs_max_response_bytes : Z;
}.

Definition f32_is_finite (bits : Z) : bool := negb (Z.land (Z.shiftr bits 23) 255 =? 255)%Z.

Definition validate_vector (vector : list Z) : bool :=
  negb (length vector =? 0) && (Z.of_nat (length vector) <=? MAX_VECTOR_DIMENSIONS)%Z
  && forallb f32_is_finite vector.

Definition validate_positive (value : option Z) : bool :=
  match value with Some v => negb (v =? 0)%Z | None => true end.

Definition governance_fits (metadata : option Bytes) : bool :=
  match metadata with Some m => (Z.of_nat (length m) <=? MAX_VECTOR_GOVERNANCE_BYTES)%Z | None => true end.

Definition at_most (max : Z) (value : option Z) : bool :=
  match value with Some v => (v <=? max)%Z | None => true end.

Definition encode_fp32 (vector : list Z) : Bytes := concat (map (to_le 4) vector).

(** An optional argument after its keyword. *)
Definition keyword (name : string) (value : option Bytes) : list Bytes :=
  match value with Some v => [text name; v] | None => [] end.

Definition number (value : option Z) : option Bytes := (λ v, digits_of 20 v []) <$> value.

(** The arguments of VADD; [None] is the configuration error. *)
Definition vadd_args (key element : Bytes) (vector : list Z) (options : VAddOptions) : option (list Bytes) :=
  if validate_vector vector && validate_positive (va_reduce_dim options) && validate_positive (va_hnsw_m options)
     && validate_positive (va_ef_construction options) && at_most MAX_HNSW_M (va_hnsw_m options)
     && at_most MAX_HNSW_EF_CONSTRUCTION (va_ef_construction options)
     && governance_fits (va_governance options) && governance_fits (va_expected_governance options)
     && negb (bool_decide (is_Some (va_governance options)) && va_clear_governance options)
     && negb (va_clear_governance options && bool_decide (va_expected_governance options = None))
  then Some ([key] ++ keyword "REDUCE" (number (va_reduce_dim options)) ++
             [text "FP32"; encode_fp32 vector; element] ++
             (if va_cas options then [text "CAS"] else []) ++
             (match va_quantization options with Some q => [token q] | None => [] end) ++
             keyword "EF" (number (va_ef_construction options)) ++
             keyword "M" (number (va_hnsw_m options)) ++
             keyword "SETATTR" (va_attributes options) ++
             keyword "GOVERNANCE" (va_governance options) ++
             keyword "IFGOVERNANCE" (va_expected_governance options) ++
             (if va_clear_governance options then [text "CLEARGOVERNANCE"] else []))
  else None.

Definition vrem_args (key element : Bytes) (governance : option Bytes) : option (list Bytes) :=
  if governance_fits governance then Some ([key; element] ++ keyword "GOVERNANCE" governance) else None.

Definition vsim_args (key : Bytes) (vector : list Z) (options : VSimOptions) : option (list Bytes) :=
  let tuple_width := (if vs_with_governance options then 4 else 3)%Z in
  if validate_vector vector && validate_positive (vs_ef_search options) && negb (vs_count options =? 0)%Z
     && (vs_count options <=? MAX_VSIM_RESULTS)%Z && negb (vs_max_response_bytes options =? 0)%Z
     && forallb (λ m, governance_fits (Some m)) (vs_allowed_governance options)
     && match usize_checked (vs_count options * tuple_width) with
        | Some max_items => (max_items <=? MAX_TYPED_ARRAY_ITEMS)%Z
        | None => false
        end
  then Some ([key; text "FP32"; encode_fp32 vector; text "COUNT"; digits_of 20 (vs_count options) [];
              text "WITHSCORES"; text "WITHATTRIBS"] ++
             (if vs_with_governance options then [text "WITHGOVERNANCE"] else []) ++
             concat (map (λ m, [text "GOVERNANCE"; m]) (vs_allowed_governance options)) ++
             keyword "FILTER" (vs_filter options) ++ keyword "EF" (number (vs_ef_search options)) ++
             (if vs_truth options then [text "TRUTH"] else []))
  else None.

(** [owned_arg_list_len] and [write_owned_arg_list] differ from the borrowed
    ones only in the type of their argument. *)
Definition vector_request (opcode : Z) (route : Route) (args : list Bytes) : ScnpCommand :=
  mkScnp opcode
    (Z.lor FAST_FLAG_REDIS_COMMAND_ARGS (match route with Some _ => ROUTED_FLAGS | None => 0 end))
    (match route with Some _ => 20 | None => 0 end + arg_list_len args)
    (match route with Some route => Routing.Client.write_to route | None => [] end ++ write_arg_list args).

Definition ping_command : ScnpCommand := mkScnp PING_OPCODE FAST_FLAG_REDIS_COMMAND_ARGS 1 [0%Z].

Definition vadd_command (route : Route) key element vector options : option ScnpCommand :=
  vector_request VADD_OPCODE route <$> vadd_args key element vector options.

Definition vrem_command (route : Route) key element governance : option ScnpCommand :=
  vector_request VREM_OPCODE route <$> vrem_args key element governance.

Definition vsim_command (route : Route) key vector options : option ScnpCommand :=
  vector_request VSIM_OPCODE route <$> vsim_args key vector options.

(** ** Frames *)
Definition write_header (cmd flags body_len : Z) : Bytes :=
  [FAST_REQUEST_MAGIC; FAST_PROTOCOL_VERSION; cmd; flags; body_len mod 256; Z.shiftr body_len 8 mod 256;
   Z.shiftr body_len 16 mod 256; Z.shiftr body_len 24 mod 256]%Z.

(** What [ScnpConnection::execute] sends: [None] when the body is too long. *)
Definition execute_bytes (c : ScnpCommand) : option Bytes :=
  if (u32_MAX <? Z.of_nat (sc_body_len c))%Z then None
  else Some (write_header (sc_opcode c) (sc_flags c) (Z.of_nat (sc_body_len c)) ++ sc_body c).

(** What the pipelined [write_request] functions send: the length is cast. *)
Definition write_request_bytes (c : ScnpCommand) : Bytes :=
  write_header (sc_opcode c) (sc_flags c) (usize_as_u32 (sc_body_len c)) ++ sc_body c.

(** ** Lemmas *)
Lemma var_u32_len_spec z : var_u32_len z = length (encode_var_u32 z).
Proof.
  unfold var_u32_len, encode_var_u32. change 5 with (S 4). generalize 4. intros n. revert z.
  induction n as [|n IH]; intros z.
  - cbn [var_len_loop encode_var_loop]. by destruct (128 <=? z)%Z.
  - cbn [var_len_loop]. change (S (S n)) with (S (S n)). cbn [encode_var_loop].
    destruct (128 <=? z)%Z; [|done]. cbn [length]. by rewrite IH.
Qed.

Lemma sum_concat {A} (len : A → nat) (enc : A → Bytes) l :
  (∀ a, len a = length (enc a)) → sum_list (map len l) = length (concat (map enc l)).
Proof. intros Hl. induction l as [|a l IH]; [done|]. cbn. by rewrite length_app, Hl, IH. Qed.

Lemma arg_list_len_spec args : arg_list_len args = length (write_arg_list args).
Proof.
  unfold arg_list_len, write_arg_list. rewrite length_app, var_u32_len_spec. f_equal.
  apply sum_concat. intros a. by rewrite length_app, var_u32_len_spec.
Qed.

Lemma write_header_eq cmd flags n :
  write_header cmd flags n = [FAST_REQUEST_MAGIC; FAST_PROTOCOL_VERSION; cmd; flags] ++ to_le 4 n.
Proof.
  unfold write_header, to_le. rewrite !Z.shiftr_div_pow2 by lia. rewrite !Z.div_div by lia. done.
Qed.

(** A command that announces its own length, and the request it stands for. *)
Definition stands_for (c : ScnpCommand) (r : FastRequest) : Prop :=
  sc_body_len c = length (sc_body c) ∧ sc_opcode c = opcode (command_kind (req_command r)) ∧
  sc_flags c = request_flags r ∧ sc_body c = encode_request_body r.

Lemma execute_stands_for c r bytes :
  stands_for c r → execute_bytes c = Some bytes →
  bytes = encode_request r ∧ (Z.of_nat (length (encode_request_body r)) ≤ u32_MAX)%Z.
Proof.
  intros (Hl & Ho & Hf & Hb). unfold execute_bytes. destruct (_ <? _)%Z eqn:E; [done|]. bool_case.
  intros <-%(inj Some). rewrite Hl, Hb in E. split; [|done].
  rewrite write_header_eq, Hl, Ho, Hf, Hb. unfold encode_request. rewrite <-app_assoc.
  by rewrite usize_as_u32_id by done.
Qed.

(** *** Every client command is a request *)
Section requests.
Context `{Hashing}.

(** The routing fields a route stands for; without one a key command sends the
    key hash only. *)
Definition routed_request (route : Route) (hash : option Z) (c : FastCommand) : FastRequest :=
  match route with
  | Some route => mkRequest (Some (Routing.Client.key_hash route))
                    (Some (Routing.Client.shard_id route mod two32)%Z) (Some (Routing.Client.key_tag route)) c
  | None => mkRequest hash None None c
  end.

(** The commands of the client and what the server is to receive. *)
Inductive client_command : ScnpCommand → FastRequest → Prop :=
  | client_get route key :
      client_command (get_command route key) (routed_request route (Some (hash_key key)) (FGet key))
  | client_set route key value :
      client_command (set_command route key value)
        (routed_request route (Some (hash_key key)) (FSet key value))
  | client_setex route key value ttl_ms :
      client_command (setex_command route key value ttl_ms)
        (routed_request route (Some (hash_key key)) (FSetEx key value ttl_ms))
  | client_getex route key ttl_ms :
      client_command (getex_command route key ttl_ms)
        (routed_request route (Some (hash_key key)) (FGetEx key ttl_ms))
  | client_del route key :
      client_command (del_command route key) (routed_request route (Some (hash_key key)) (FDelete key))
  | client_exists route key :
      client_command (exists_command route key) (routed_request route (Some (hash_key key)) (FExists key))
  | client_ttl route key :
      client_command (ttl_command route key) (routed_request route (Some (hash_key key)) (FTtl key))
  | client_expire route key ttl_ms :
      client_command (expire_command route key ttl_ms)
        (routed_request route (Some (hash_key key)) (FExpire key ttl_ms))
  | client_resp parts : client_command (resp_command parts) (mkRequest None None None (FRespCommand parts))
  | client_redis kind sk route args :
      from_opcode (client_opcode kind) = Some sk →
      client_command (redis_command kind route args) (routed_request route None (FRedisCommand sk args))
  | client_redis_resp command args :
      client_command (redis_resp_command command args)
        (mkRequest None None None (FRespCommand (command :: args)))
  | client_native command args c :
      native_command command args = Some c →
      client_command c (mkRequest None None None (FNativeRedisCommand command args))
  | client_ping : client_command ping_command (mkRequest None None None (FRedisCommand KPing []))
  | client_vadd route key element vector options args c :
      vadd_args key element vector options = Some args → vadd_command route key element vector options = Some c →
      client_command c (routed_request route None (FRedisCommand KVAdd args))
  | client_vrem route key element governance args c :
      vrem_args key element governance = Some args → vrem_command route key element governance = Some c →
      client_command c (routed_request route None (FRedisCommand KVRem args))
  | client_vsim route key vector options args c :
      vsim_args key vector options = Some args → vsim_command route key vector options = Some c →
      client_command c (routed_request route None (FRedisCommand KVSim args)).

Ltac unfold_bodies :=
  unfold get_command, set_command, setex_command, getex_command, del_command, exists_command, ttl_command,
    expire_command, resp_command, redis_command, redis_resp_command, vector_request,
    write_key_body, write_ttl_key_body, write_ttl_key_value_body, write_route_prefix, write_len_prefixed,
    Routing.Client.write_to, key_body_len, ttl_key_body_len, ttl_key_value_body_len, route_prefix_len;
  cbn [sc_body_len sc_body app].

(** The announced length, and the bytes. *)
Ltac length_tac :=
  unfold_bodies; rewrite ?arg_list_len_spec; rewrite ?length_app; rewrite ?length_to_le; lia.
Ltac body_tac :=
  unfold_bodies;
  unfold encode_request_body, routed_request, encode_command, encode_len_prefixed, encode_key_value,
    encode_compact_len_prefixed_list, encode_compact_len_prefixed, encode_len_prefixed_list, write_arg_list;
  cbn [req_key_hash req_route_shard req_key_tag req_command opt_le app]; rewrite <-?app_assoc; done.

Lemma list_len_spec (l : list Bytes) :
  4 + sum_list (map (λ part, 4 + length part) l) =
  length (to_le 4 (usize_as_u32 (length l)) ++ concat (map (λ part, to_le 4 (usize_as_u32 (length part)) ++ part) l)).
Proof.
  rewrite length_app, length_to_le. f_equal. apply sum_concat. intros a. by rewrite length_app, length_to_le.
Qed.

Lemma vector_stands_for kind route args :
  is_Some (redis_name kind) →
  stands_for (vector_request (opcode kind) route args) (routed_request route None (FRedisCommand kind args)).
Proof.
  intros _. destruct route as [route|]; split_and!; [length_tac|done|done|body_tac|length_tac|done|done|body_tac].
Qed.

Lemma client_stands_for c r : client_command c r → stands_for c r.
Proof.
  intros [route key|route key value|route key value ttl|route key ttl|route key|route key|route key
         |route key ttl|parts|kind sk route args Hk|command args|command args c' Hn
         | |route key element vector options args c' Ha Hc|route key element governance args c' Ha Hc
         |route key vector options args c' Ha Hc];
    try (destruct route as [route|]; split_and!; [length_tac|done|done|body_tac|length_tac|done|done|body_tac]).
  - split_and!; [apply list_len_spec|done|done|body_tac].
  - apply opcode_from_opcode in Hk.
    destruct route as [route|]; split_and!; [length_tac|done|done|body_tac|length_tac|done|done|body_tac].
  - split_and!; [|done|done|].
    + unfold redis_resp_command. cbn [sc_body_len sc_body]. pose proof (list_len_spec args) as Hl.
      rewrite length_app, length_to_le in Hl. rewrite !length_app, !length_to_le. lia.
    + unfold_bodies. unfold encode_request_body. cbn [req_key_hash req_route_shard req_key_tag req_command opt_le app encode_command].
      unfold encode_len_prefixed_list. cbn [length map concat]. rewrite Nat.add_1_r. unfold encode_len_prefixed at 1.
      by rewrite <-app_assoc.
  - revert Hn. unfold native_command. destruct (_ || _); [done|].
    destruct (_ <? _)%Z; [done|]. intros <-%(inj Some). split_and!; [|done|done|].
    + cbn [sc_body_len sc_body]. pose proof (arg_list_len_spec args) as Hl. unfold arg_list_len in Hl.
      rewrite !length_app, !length_to_le. lia.
    + cbn [sc_body]. body_tac.
  - by split_and!.
  - unfold vadd_command in Hc. rewrite Ha in Hc. injection Hc as <-. by apply (vector_stands_for KVAdd).
  - unfold vrem_command in Hc. rewrite Ha in Hc. injection Hc as <-. by apply (vector_stands_for KVRem).
  - unfold vsim_command in Hc. rewrite Ha in Hc. injection Hc as <-. by apply (vector_stands_for KVSim).
Qed.

(** The numbers of a request are of the width their Rust types have. *)
Definition typed_request (r : FastRequest) : Prop :=
  opt_ok u64_MAX (req_key_hash r) ∧ opt_ok u32_MAX (req_route_shard r) ∧ opt_ok u64_MAX (req_key_tag r) ∧
  match req_command r with FSetEx _ _ z | FGetEx _ z | FExpire _ z => is_u64 z | _ => True end.

(** The arguments of a request that carries a list of them. *)
Definition request_items (r : FastRequest) : nat :=
  match req_command r with
  | FRespCommand l | FRedisCommand _ l | FNativeRedisCommand _ l => length l
  | _ => 0
  end.

(** What a client writes to its connection: [execute], or a pipelined request. *)
Definition sends (c : ScnpCommand) (bytes : Bytes) : Prop :=
  execute_bytes c = Some bytes ∨ ((Z.of_nat (sc_body_len c) ≤ u32_MAX)%Z ∧ bytes = write_request_bytes c).

Lemma client_kind_named kind sk : from_opcode (client_opcode kind) = Some sk → is_Some (redis_name sk).
Proof. destruct kind; intros [= <-]; by eexists. Qed.

Lemma client_command_ok c r :
  client_command c r → typed_request r → (Z.of_nat (request_items r) ≤ FAST_MAX_COLLECTION_ITEMS)%Z →
  command_ok (req_command r).
Proof.
  intros Hc (_ & _ & _ & Ht) Hf.
  destruct Hc as [[]|[]|[]|[]|[]|[]|[]|[]| |kind sk [] args Hk| | | |[]|[]|[]]; cbn in *; try done;
    (split; [|done]); try (by eexists); by eapply client_kind_named.
Qed.

Lemma sends_executes c bytes : sends c bytes → execute_bytes c = Some bytes.
Proof.
  intros [?|[Hl ->]]; [done|]. unfold execute_bytes, write_request_bytes. rewrite (proj2 (Z.ltb_ge _ _)) by done.
  by rewrite usize_as_u32_id.
Qed.

Lemma client_decoded c r bytes rest :
  client_command c r → typed_request r → (Z.of_nat (request_items r) ≤ FAST_MAX_COLLECTION_ITEMS)%Z →
  sends c bytes → decode_request (bytes ++ rest) = Done (r, length bytes).
Proof.
  intros Hc Ht Hf He%sends_executes. pose proof (client_command_ok c r Hc Ht Hf) as Hok.
  destruct Ht as (H1 & H2 & H3 & _). destruct (execute_stands_for c r bytes) as [-> Hl]; [|done|].
  - by apply client_stands_for.
  - by apply decode_encode_request.
Qed.

(** A route of the client names the server's shard and hash, as far as the
    shard fits the 32 bits it is sent in. *)
Lemma routed_fields mode k router key hash c :
  (0 ≤ k ≤ 32)%Z → all_bytes key → Routing.Client.new (2 ^ k) mode = Some router →
  let r := routed_request (Some (Routing.Client.route_key router key)) hash c in
  let server := compute_key_route (server_mode mode) (shift_for (2 ^ k)) key in
  req_key_hash r = Some (route_key_hash server) ∧ req_route_shard r = Some (route_shard_id server).
Proof.
  intros Hk Hb Hn. cbn [routed_request req_key_hash req_route_shard].
  destruct (client_route_agrees mode (2 ^ k) router key) as [-> ->]; [|done|].
  { exists k. split; [lia|done]. }
  split; [done|]. f_equal. apply Z.mod_small.
  pose proof (compute_key_route_lt (server_mode mode) k key ltac:(lia) Hb) as Hlt.
  rewrite shift_for_pow2 by lia. pose proof (Z.pow_le_mono_r 2 k 32). change (2 ^ 32)%Z with two32 in *. lia.
Qed.
End requests.

(** *** The tables of client and server *)
Lemma client_kind_served kind :
  ∃ sk, from_opcode (client_opcode kind) = Some sk ∧ redis_name sk = Some (client_name kind) ∧
    client_from_opcode (client_opcode kind) = Some kind ∧
    (client_uses_vector_shard kind = true → uses_vector_shard sk = true) ∧
    ∀ args, client_route_keys kind args = redis_route_keys sk args.
Proof. destruct kind; eexists; by split_and!. Qed.
