(* ===== verification/Transactions.v ===== *)
(** * MULTI, EXEC and WATCH of one connection

    [server/transactions.rs]: which shards a command touches, the state a
    connection keeps between MULTI and EXEC, and the coordinator it shares with
    the other connections (the mode and the number of open transactions).  The
    locks of the coordinator and the interleaving of connections are in
    [Gates].

    The commands themselves are an interface: [Engine] says how a command is
    parsed and executed and what a watched key looks like.  A panic is [None];
    the only source of one is the routing of a command with a huge key count
    ([Fast.zaggregate_store_route_keys]) and the debug assertion of
    [end_transaction], which is proved never to fail. *)

From S2P Require Import Prelude Helpers Codec Resp Deps Routing FastKinds Fast.

(** [config.rs] *)
Inductive TransactionMode := Disabled | ShardLocal | CoordinatedCrossShard.

#[export] Instance transaction_mode_eq_dec : EqDecision TransactionMode.
Proof. solve_decision. Defined.

(** [server/wire.rs] *)
Inductive RespProtocolVersion := Resp2 | Resp3.

(** ** Command names *)

(** [NAMES.iter().find_map(..)] over a table of names. *)
Definition find_name {A} (names : list (Bytes * A)) (name : Bytes) : option A :=
  snd <$> List.find (λ entry, eq_ignore_ascii_case name entry.1) names.

Module RespTransactionCommand.
Inductive t := Watch | Unwatch | Multi | Discard | Exec.

Definition NAMES : list (Bytes * t) :=
  [(text "WATCH", Watch); (text "UNWATCH", Unwatch); (text "MULTI", Multi);
   (text "DISCARD", Discard); (text "EXEC", Exec)].

Definition from_name : Bytes → option t := find_name NAMES.
End RespTransactionCommand.

(** [server/direct_protocol.rs] *)
Module ScnpScanCommand.
Inductive t := Scan | ScanShard | Topology.

Definition NAMES : list (Bytes * t) :=
  [(text "SCNP.SCAN", Scan); (text "SCNP.SCANSHARD", ScanShard);
   (text "SCNP.SCAN.SHARD", ScanShard); (text "SCNP.TOPOLOGY", Topology)].

Definition from_name : Bytes → option t := find_name NAMES.

Definition from_parts (parts : list Bytes) : option t := head parts ≫= from_name.
End ScnpScanCommand.

(** [redis_compat/commands/vector_set.rs] *)
Definition VECTOR_NAMES : list Bytes :=
  text <$> ["VADD"; "VCARD"; "VDIM"; "VEMB"; "VGETATTR"; "VINFO"; "VISMEMBER"; "VLINKS";
            "VRANDMEMBER"; "VRANGE"; "VREM"; "VSETATTR"; "VSIM"]%string.

Definition is_vector_command_name (name : Bytes) : bool :=
  existsb (eq_ignore_ascii_case name) VECTOR_NAMES.

(** ** The keys of the commands the fast protocol has no kind for *)
Module Supplemental.
Inductive SupplementalCommandKeySpec :=
  | SNone
  | SAllShards
  | SAllArgs
  | SAt (index : nat)
  | SFirstN (count : nat)
  | SCounted (numkeys_index : nat)
  | SStreamRead
  | SSort.

(** Unlike the copy in [fast.rs] this one accepts a count of zero. *)
Definition counted_key_span (args : list Bytes) (numkeys_index : nat) : option (list Bytes) :=
  raw ← args !! numkeys_index;
  numkeys ← parse_ascii_usize raw;
  key_start ← usize_checked (Z.of_nat numkeys_index + 1);
  key_end ← usize_checked (key_start + numkeys);
  if (key_end <=? Z.of_nat (length args))%Z
  then Some (take (Z.to_nat numkeys) (drop (Z.to_nat key_start) args)) else None.

Definition counted_route_keys (args : list Bytes) (numkeys_index : nat) : FastRedisRouteKeys :=
  match counted_key_span args numkeys_index with
  | Some keys => Keys keys
  | None => AllShards
  end.

(** The arguments behind the first STREAMS. *)
Fixpoint after_streams (args : list Bytes) : option (list Bytes) :=
  match args with
  | [] => None
  | arg :: rest => if eq_ignore_ascii_case arg (text "STREAMS") then Some rest else after_streams rest
  end.

Definition stream_read_route_keys (args : list Bytes) : FastRedisRouteKeys :=
  match after_streams args with
  | None => AllShards
  | Some stream_args =>
      if (length stream_args <? 2) || negb (Nat.even (length stream_args)) then AllShards
      else Keys (take (length stream_args / 2) stream_args)
  end.

(** The loop over [args[index]] with [index + 1 < args.len()], stopping at the
    first STORE. *)
Fixpoint sort_store_key (args : list Bytes) : list Bytes :=
  match args with
  | arg :: ((next :: _) as rest) =>
      if eq_ignore_ascii_case arg (text "STORE") then [next] else sort_store_key rest
  | _ => []
  end.

Definition sort_route_keys (args : list Bytes) : FastRedisRouteKeys :=
  match args with
  | [] => RouteNone
  | source :: rest => Keys (source :: sort_store_key rest)
  end.

Definition route_keys (self : SupplementalCommandKeySpec) (args : list Bytes) : FastRedisRouteKeys :=
  match self with
  | SNone => RouteNone
  | SAllShards => AllShards
  | SAllArgs => all_route_keys args
  | SAt index => match args !! index with Some key => Keys [key] | None => RouteNone end
  | SFirstN count => first_n_route_keys args count
  | SCounted numkeys_index => counted_route_keys args numkeys_index
  | SStreamRead => stream_read_route_keys args
  | SSort => sort_route_keys args
  end.

Definition SUPPLEMENTAL_COMMAND_KEY_SPECS : list (list Bytes * SupplementalCommandKeySpec) :=
  [(text <$> ["ASKING"; "BGREWRITEAOF"; "BGSAVE"; "CLUSTER"; "DEBUG"; "FUNCTION"; "HOST:";
              "LASTSAVE"; "LATENCY"; "LOLWUT"; "MODULE"; "MONITOR"; "POST"; "PSUBSCRIBE"; "PSYNC";
              "PUBSUB"; "PUNSUBSCRIBE"; "READONLY"; "READWRITE"; "REPLCONF"; "REPLICAOF"; "ROLE";
              "SAVE"; "SCRIPT"; "SHUTDOWN"; "SLAVEOF"; "SLOWLOG"; "SPUBLISH"; "SUBSCRIBE";
              "SSUBSCRIBE"; "SUNSUBSCRIBE"; "SYNC"; "UNSUBSCRIBE"; "WAIT"]%string, SNone);
   (text <$> ["EVAL"; "EVALSHA"; "EVAL_RO"; "EVALSHA_RO"; "FCALL"; "FCALL_RO"]%string, SCounted 1);
   (text <$> ["GEOSEARCHSTORE"]%string, SFirstN 2);
   (text <$> ["MIGRATE"; "SWAPDB"]%string, SAllShards);
   (text <$> ["PFCOUNT"; "PFMERGE"]%string, SAllArgs);
   (text <$> ["PFDEBUG"; "XGROUP"; "XINFO"]%string, SAt 1);
   (text <$> ["PFSELFTEST"; "PUBLISH"]%string, SNone);
   (text <$> ["XREAD"; "XREADGROUP"]%string, SStreamRead);
   (text <$> ["SORT"; "SORT_RO"]%string, SSort)].

Definition supplemental_command_key_spec (command : Bytes) : option SupplementalCommandKeySpec :=
  snd <$> List.find (λ entry, existsb (eq_ignore_ascii_case command) entry.1)
            SUPPLEMENTAL_COMMAND_KEY_SPECS.
End Supplemental.

(** ** The shards of a command *)

(** What routing needs of the store. *)
Record StoreRouting := mkStoreRouting { sr_mode : EmbeddedRouteMode; sr_shard_count : Z }.

(** A [BTreeSet<usize>] as the ascending list of its elements. *)
Fixpoint btree_insert (x : Z) (s : list Z) : list Z :=
  match s with
  | [] => [x]
  | y :: s' => if (x <? y)%Z then x :: s else if (x =? y)%Z then s else y :: btree_insert x s'
  end.

Definition btree_extend (s xs : list Z) : list Z := foldl (λ s x, btree_insert x s) s xs.

Section shards.
Context `{Hashing} (store : StoreRouting).

Definition route_key (key : Bytes) : EmbeddedKeyRoute :=
  compute_key_route (sr_mode store) (shift_for (sr_shard_count store)) key.

Definition vector_shard_id : Z := 0%Z.

Definition all_shards : list Z := seqZ 0 (sr_shard_count store).

Definition command_route_keys (command : Bytes) (args : list Bytes) : option FastRedisRouteKeys :=
  match ScnpScanCommand.from_name command with
  | Some ScnpScanCommand.Scan => Some AllShards
  | _ =>
      match from_redis_name command with
      | Some kind => redis_route_keys kind args
      | None =>
          Some match Supplemental.supplemental_command_key_spec command with
               | Some spec => Supplemental.route_keys spec args
               | None => first_n_route_keys args 1
               end
      end
  end.

Definition route_keys_to_shards (keys : FastRedisRouteKeys) : list Z :=
  match keys with
  | RouteNone => []
  | AllShards => btree_extend [] all_shards
  | Keys keys => btree_extend [] ((λ key, route_shard_id (route_key key)) <$> keys)
  end.

Definition scnp_scan_shard (args : list Bytes) : list Z :=
  match head args ≫= parse_ascii_usize with
  | Some shard_id => if (shard_id <? sr_shard_count store)%Z then [shard_id] else all_shards
  | None => all_shards
  end.

Definition command_shards (parts : list Bytes) : option (list Z) :=
  match parts with
  | [] => Some []
  | command :: args =>
      match ScnpScanCommand.from_name command with
      | Some ScnpScanCommand.ScanShard => Some (scnp_scan_shard args)
      | _ => if is_vector_command_name command then Some [vector_shard_id]
             else route_keys_to_shards <$> command_route_keys command args
      end
  end.

Definition fast_request_shards (request : FastRequest) : option (list Z) :=
  match req_command request with
  | FRespCommand parts => command_shards parts
  | FNativeRedisCommand command args => command_shards (command :: args)
  | FRedisCommand kind args =>
      if uses_vector_shard kind then Some [vector_shard_id]
      else route_keys_to_shards <$> redis_route_keys kind args
  | command => route_keys_to_shards <$> Fast.route_keys command
  end.

(** The queued commands, first to last, into one set. *)
Fixpoint transaction_shards_from (shards : list Z) (commands : list (list Bytes)) : option (list Z) :=
  match commands with
  | [] => Some shards
  | parts :: commands => s ← command_shards parts; transaction_shards_from (btree_extend shards s) commands
  end.

Definition transaction_shards (commands : list (list Bytes)) : option (list Z) :=
  transaction_shards_from [] commands.

(** The gates [read_guard_for_scnp_key_hash] takes while a transaction is open. *)
Definition scnp_key_hash_shards (key_hash : Z) : list Z :=
  match sr_mode store with
  | FullKey => [stripe_index key_hash (shift_for (sr_shard_count store))]
  | SessionPrefix | OverflowSlot => all_shards
  end.
End shards.

(** ** The coordinator *)

(** [gates] is a vector of [shard_count] locks; their states are in [Gates]. *)
Record TransactionCoordinator := mkCoordinator {
  coord_mode : TransactionMode;
  coord_gates : Z;
  active_transactions : Z;
}.

Module Coordinator.
Definition new (shard_count : Z) (mode : TransactionMode) : option TransactionCoordinator :=
  match mode with
  | Disabled => None
  | ShardLocal | CoordinatedCrossShard => Some (mkCoordinator mode shard_count 0)
  end.

Definition begin_transaction (c : TransactionCoordinator) : TransactionCoordinator :=
  mkCoordinator (coord_mode c) (coord_gates c) (wrap_u64 (active_transactions c + 1)).

(** [None] is the failed debug assertion. *)
Definition end_transaction (c : TransactionCoordinator) : option TransactionCoordinator :=
  if (0 <? active_transactions c)%Z
  then Some (mkCoordinator (coord_mode c) (coord_gates c) (active_transactions c - 1)) else None.

Definition has_active_transactions (c : TransactionCoordinator) : bool :=
  negb (active_transactions c =? 0)%Z.
End Coordinator.

(** ** The commands, as the transactions see them *)

(** [World] is the contents of the store, [Value] a [RedisObjectValue] with its
    [PartialEq].  [parse_error] is the error text of [BorrowedCommand::from_parts]
    if it fails, [execute_borrowed] runs a command that parses and gives the
    bytes it writes. *)
Class Engine := {
  World : Type;
  Value : Type;
  value_eqb : Value → Value → bool;
  parse_error : list Bytes → option Bytes;
  execute_borrowed : RespProtocolVersion → list Bytes → World → World * Bytes;
  get_value_bytes : World → Bytes → option Bytes;
  clone_object_value : World → Bytes → option Value;
}.

(** ** Replies *)
Definition write_resp_error (msg : Bytes) : Bytes := text "-" ++ msg ++ CRLF.
Definition write_simple_string (value : Bytes) : Bytes := text "+" ++ value ++ CRLF.
Definition write_null_array : Bytes := text "*-1" ++ CRLF.
Definition write_resp_array_header (len : nat) : Bytes := header 42 len.
Definition write_wrong_arity (command : Bytes) : Bytes :=
  write_resp_error (text "ERR wrong number of arguments for '" ++ command ++ text "' command").

Definition CROSSSLOT_ERROR : Bytes := text "CROSSSLOT Keys in request don't hash to the same shard".
Definition DISABLED_ERROR : Bytes := write_resp_error (text "ERR transactions are disabled").
Definition EXECABORT_ERROR : Bytes :=
  write_resp_error (text "EXECABORT Transaction discarded because of previous errors.").

Section sessions.
Context `{Hashing} `{Engine} (store : StoreRouting).

Inductive WatchedSnapshot :=
  | Missing
  | SnapString (value : Bytes)
  | SnapObject (value : Value).

Definition capture (w : World) (key : Bytes) : WatchedSnapshot :=
  match get_value_bytes w key with
  | Some value => SnapString value
  | None => match clone_object_value w key with
            | Some value => SnapObject value
            | None => Missing
            end
  end.

(** The derived [PartialEq]. *)
Definition snapshot_eqb (x y : WatchedSnapshot) : bool :=
  match x, y with
  | Missing, Missing => true
  | SnapString a, SnapString b => bytes_eqb a b
  | SnapObject a, SnapObject b => value_eqb a b
  | _, _ => false
  end.

Record WatchedKey := mkWatched { watched_key : Bytes; watched_snapshot : WatchedSnapshot }.

Record TransactionState := mkTransaction {
  queued : list (list Bytes);
  dirty : bool;
  active : bool;
  counted_active : bool;
  watched : list WatchedKey;
}.

Definition transaction_default : TransactionState := mkTransaction [] false false false [].

Definition keys_changed (ks : list WatchedKey) (w : World) : bool :=
  existsb (λ k, negb (snapshot_eqb (capture w (watched_key k)) (watched_snapshot k))) ks.

Definition watched_keys_changed (st : TransactionState) (w : World) : bool := keys_changed (watched st) w.

(** Replace the snapshot of a watched key or watch a further one. *)
Fixpoint watch_key (ks : list WatchedKey) (key : Bytes) (snapshot : WatchedSnapshot) : list WatchedKey :=
  match ks with
  | [] => [mkWatched key snapshot]
  | k :: ks => if bytes_eqb (watched_key k) key then mkWatched key snapshot :: ks
               else k :: watch_key ks key snapshot
  end.

(** [coordinator.execute]: the reply of EXEC and the store after it.  [None] is
    a panic of the routing. *)
Definition run_command (protocol : RespProtocolVersion) (acc : World * Bytes) (parts : list Bytes)
    : World * Bytes :=
  let '(w, out) := acc in
  match parse_error parts with
  | None => let '(w', reply) := execute_borrowed protocol parts w in (w', out ++ reply)
  | Some error => (w, out ++ write_resp_error (text "ERR " ++ error))
  end.

Definition run_commands (protocol : RespProtocolVersion) (commands : list (list Bytes)) (w : World)
    : World * Bytes :=
  foldl (run_command protocol) (w, write_resp_array_header (length commands)) commands.

Definition execute (c : TransactionCoordinator) (commands : list (list Bytes))
    (protocol : RespProtocolVersion) (w : World) : option (World * Bytes) :=
  shards ← transaction_shards store commands;
  if bool_decide (coord_mode c = ShardLocal) && (1 <? length shards)
  then Some (w, write_resp_error CROSSSLOT_ERROR)
  else Some (run_commands protocol commands w).

(** A handler changes the connection's state, the coordinator and the store, and
    writes a reply. *)
Definition Handled : Type := TransactionState * option TransactionCoordinator * World * Bytes.

Definition finish_counted_transaction (st : TransactionState) (c : option TransactionCoordinator)
    : option (TransactionState * option TransactionCoordinator) :=
  if counted_active st then
    c' ← match c with
         | Some c => Some <$> Coordinator.end_transaction c
         | None => Some None
         end;
    Some (mkTransaction (queued st) (dirty st) (active st) false (watched st), c')
  else Some (st, c).

Definition clear (st : TransactionState) (c : option TransactionCoordinator)
    : option (TransactionState * option TransactionCoordinator) :=
  '(st, c) ← finish_counted_transaction st c;
  Some (mkTransaction [] false false (counted_active st) [], c).

Definition multi (st : TransactionState) (c : option TransactionCoordinator) (parts : list Bytes)
    (w : World) : Handled :=
  match c with
  | None => (st, c, w, DISABLED_ERROR)
  | Some c' =>
      if negb (length parts =? 1) then (st, c, w, write_wrong_arity (text "multi"))
      else if active st then (st, c, w, write_resp_error (text "ERR MULTI calls can not be nested"))
      else
        let '(c, counted) := if counted_active st then (c, true)
                             else (Some (Coordinator.begin_transaction c'), true) in
        (mkTransaction [] false true counted (watched st), c, w, write_simple_string (text "OK"))
  end.

Definition discard (st : TransactionState) (c : option TransactionCoordinator) (parts : list Bytes)
    (w : World) : option Handled :=
  if negb (length parts =? 1) then Some (st, c, w, write_wrong_arity (text "discard"))
  else if negb (active st) then Some (st, c, w, write_resp_error (text "ERR DISCARD without MULTI"))
  else '(st, c) ← clear st c; Some (st, c, w, write_simple_string (text "OK")).

Definition exec (st : TransactionState) (c : option TransactionCoordinator) (parts : list Bytes)
    (protocol : RespProtocolVersion) (w : World) : option Handled :=
  if negb (length parts =? 1) then Some (st, c, w, write_wrong_arity (text "exec"))
  else if negb (active st) then Some (st, c, w, write_resp_error (text "ERR EXEC without MULTI"))
  else if dirty st then '(st, c) ← clear st c; Some (st, c, w, EXECABORT_ERROR)
  else if watched_keys_changed st w then '(st, c) ← clear st c; Some (st, c, w, write_null_array)
  else
    match c with
    | None => '(st, c) ← clear st None; Some (st, c, w, DISABLED_ERROR)
    | Some c' =>
        let commands := queued st in
        let st := mkTransaction [] (dirty st) false (counted_active st) [] in
        '(w, out) ← execute c' commands protocol w;
        '(st, c) ← finish_counted_transaction st c;
        Some (st, c, w, out)
    end.

Definition queue_command (st : TransactionState) (parts : list Bytes) : TransactionState * Bytes :=
  match parse_error parts with
  | None => (mkTransaction (queued st ++ [parts]) (dirty st) (active st) (counted_active st) (watched st),
             write_simple_string (text "QUEUED"))
  | Some error => (mkTransaction (queued st) true (active st) (counted_active st) (watched st),
                   write_resp_error (text "ERR " ++ error))
  end.

Definition watch (st : TransactionState) (c : option TransactionCoordinator) (parts : list Bytes)
    (w : World) : Handled :=
  match c with
  | None => (st, c, w, DISABLED_ERROR)
  | Some _ =>
      if length parts <=? 1 then (st, c, w, write_wrong_arity (text "watch"))
      else if active st then (st, c, w, write_resp_error (text "ERR WATCH inside MULTI is not allowed"))
      else
        let ks := foldl (λ ks key, watch_key ks key (capture w key)) (watched st) (drop 1 parts) in
        (mkTransaction (queued st) (dirty st) (active st) (counted_active st) ks, c, w,
         write_simple_string (text "OK"))
  end.

Definition unwatch (st : TransactionState) (c : option TransactionCoordinator) (parts : list Bytes)
    (w : World) : Handled :=
  match c with
  | None => (st, c, w, DISABLED_ERROR)
  | Some _ =>
      if length parts =? 1
      then (mkTransaction (queued st) (dirty st) (active st) (counted_active st) [], c, w,
            write_simple_string (text "OK"))
      else (st, c, w, write_wrong_arity (text "unwatch"))
  end.

Definition mark_dirty (st : TransactionState) : TransactionState :=
  if active st then mkTransaction (queued st) true (active st) (counted_active st) (watched st) else st.

Definition close := clear.

(** [Some None] is a command the transactions leave to the caller (the method
    answers false). *)
Definition handle_resp_command (st : TransactionState) (c : option TransactionCoordinator)
    (parts : list Bytes) (protocol : RespProtocolVersion) (w : World) : option (option Handled) :=
  match head parts ≫= RespTransactionCommand.from_name with
  | Some RespTransactionCommand.Watch => Some (Some (watch st c parts w))
  | Some RespTransactionCommand.Unwatch => Some (Some (unwatch st c parts w))
  | Some RespTransactionCommand.Multi => Some (Some (multi st c parts w))
  | Some RespTransactionCommand.Discard => Some <$> discard st c parts w
  | Some RespTransactionCommand.Exec => Some <$> exec st c parts protocol w
  | None =>
      if active st
      then let '(st, out) := queue_command st parts in Some (Some (st, c, w, out))
      else Some None
  end.
End sessions.

(** ** The shards of a command are gates in ascending order *)

Lemma elem_of_btree_insert x y s : x ∈ btree_insert y s ↔ x = y ∨ x ∈ s.
Proof.
  induction s as [|z s IH]; cbn [btree_insert]; [set_solver|].
  destruct (y <? z)%Z; [set_solver|]. destruct (Z.eqb_spec y z) as [->|]; [set_solver|].
  rewrite !elem_of_cons, IH. set_solver.
Qed.

Lemma btree_insert_sorted x s : StronglySorted Z.lt s → StronglySorted Z.lt (btree_insert x s).
Proof.
  induction 1 as [|z s Hs IH Hz]; cbn [btree_insert]; [by repeat constructor|].
  destruct (Z.ltb_spec x z).
  - constructor; [by constructor|]. constructor; [done|]. eapply Forall_impl; [exact Hz|]. cbn. lia.
  - destruct (Z.eqb_spec x z) as [->|]; [by constructor|]. constructor; [done|].
    apply Forall_forall. intros u [->|Hu]%elem_of_btree_insert; [lia|].
    by apply (proj1 (Forall_forall _ _) Hz).
Qed.

Lemma elem_of_btree_extend x s xs : x ∈ btree_extend s xs ↔ x ∈ s ∨ x ∈ xs.
Proof.
  unfold btree_extend. revert s. induction xs as [|y xs IH]; intros s; cbn [foldl]; [set_solver|].
  rewrite IH, elem_of_btree_insert. set_solver.
Qed.

Lemma btree_extend_sorted s xs : StronglySorted Z.lt s → StronglySorted Z.lt (btree_extend s xs).
Proof.
  unfold btree_extend. revert s. induction xs as [|y xs IH]; intros s Hs; cbn [foldl]; [done|].
  by apply IH, btree_insert_sorted.
Qed.

#[export] Hint Resolve btree_insert_sorted btree_extend_sorted : shardkv.

(** Gate indexes in ascending order, each the index of a gate. *)
Definition gates_ok (n : Z) (shards : list Z) : Prop :=
  StronglySorted Z.lt shards ∧ Forall (λ g, 0 ≤ g < n)%Z shards.

Lemma seqZ_sorted m n : StronglySorted Z.lt (seqZ m n).
Proof.
  destruct (Z.le_gt_cases 0 n) as [Hn|Hn]; [|rewrite seqZ_nil by lia; constructor].
  revert m. pattern n. apply natlike_ind; [| |done]; clear n Hn.
  - intros m. rewrite seqZ_nil by lia. constructor.
  - intros n Hn IH m. rewrite seqZ_cons by lia. replace (Z.pred (Z.succ n)) with n by lia.
    constructor; [done|]. apply Forall_forall. intros x Hx%elem_of_seqZ. lia.
Qed.

(** ** The routing keys of a command are among its arguments *)

Lemma elem_of_step_by x step skip l : x ∈ step_by step skip l → x ∈ l.
Proof.
  revert skip. induction l as [|y l IH]; intros [|skip]; cbn [step_by]; [done..| |];
    rewrite ?elem_of_cons; naive_solver.
Qed.

Lemma elem_of_drop_inv {A} (x : A) n l : x ∈ drop n l → x ∈ l.
Proof. intros Hx. rewrite <-(take_drop n l). apply elem_of_app. by right. Qed.

Lemma elem_of_take_inv {A} (x : A) n l : x ∈ take n l → x ∈ l.
Proof. intros Hx. rewrite <-(take_drop n l). apply elem_of_app. by left. Qed.

#[export] Hint Resolve elem_of_step_by elem_of_drop_inv elem_of_take_inv : shardkv.

Lemma counted_route_keys_args args i keys key :
  counted_route_keys args i = Keys keys ∨ Supplemental.counted_route_keys args i = Keys keys →
  key ∈ keys → key ∈ args.
Proof.
  unfold counted_route_keys, Supplemental.counted_route_keys, counted_key_span, Supplemental.counted_key_span.
  destruct (args !! i) as [raw|]; cbn [mbind option_bind]; [|naive_solver].
  destruct (parse_ascii_usize raw) as [n|]; cbn [mbind option_bind]; [|naive_solver].
  destruct (usize_checked _) as [a|]; cbn [mbind option_bind]; [|naive_solver].
  destruct (usize_checked _) as [b|]; cbn [mbind option_bind]; [|naive_solver].
  intros [E|E] Hk; repeat case_match; simplify_eq; eauto with shardkv.
Qed.

Lemma zaggregate_store_route_keys_args args keys key :
  zaggregate_store_route_keys args = Some (Keys keys) → key ∈ keys → key ∈ args.
Proof.
  unfold zaggregate_store_route_keys, first_n_route_keys. intros E Hk.
  destruct args as [|d [|n args]]; [by simplify_eq|simplify_eq; eauto with shardkv|].
  destruct (parse_ascii_usize n) as [z|]; [|done]. destruct (with_capacity_panics _); [done|].
  simplify_eq. apply elem_of_cons in Hk as [->|Hk%elem_of_take_inv]; set_solver.
Qed.

Lemma redis_route_keys_args kind args keys key :
  redis_route_keys kind args = Some (Keys keys) → key ∈ keys → key ∈ args.
Proof.
  assert (∀ ks, Some (Keys ks) = Some (Keys keys) → (key ∈ ks → key ∈ args) → key ∈ keys → key ∈ args) as Hsub.
  { intros ks [= ->]. done. }
  intros E Hk. destruct kind; cbn [redis_route_keys] in E; try discriminate E;
    first [ eapply Hsub; [exact E| |exact Hk]; eauto with shardkv
          | injection E as E; eapply counted_route_keys_args; [by left|done]
          | idtac ].
  all: first [by eapply zaggregate_store_route_keys_args
             |rewrite elem_of_app; intros [?|?]; eauto with shardkv].
Qed.

Lemma sort_store_key_args key args : key ∈ Supplemental.sort_store_key args → key ∈ args.
Proof.
  induction args as [|a args IH]; [done|]. cbn [Supplemental.sort_store_key].
  destruct args as [|b args]; [set_solver|]. case_match; set_solver.
Qed.

Lemma after_streams_args args rest key : Supplemental.after_streams args = Some rest → key ∈ rest → key ∈ args.
Proof.
  induction args as [|a args IH]; cbn [Supplemental.after_streams]; [done|].
  case_match; intros ?; simplify_eq; set_solver.
Qed.

Lemma supplemental_route_keys_args spec args keys key :
  Supplemental.route_keys spec args = Keys keys → key ∈ keys → key ∈ args.
Proof.
  intros E Hk. destruct spec; cbn [Supplemental.route_keys] in E; try discriminate E.
  - unfold all_route_keys in E. by simplify_eq.
  - case_match; simplify_eq. apply list_elem_of_singleton in Hk as ->. by eapply list_elem_of_lookup_2.
  - unfold first_n_route_keys in E. simplify_eq. eauto with shardkv.
  - eapply counted_route_keys_args; [by right|done].
  - unfold Supplemental.stream_read_route_keys in E. repeat case_match; simplify_eq.
    eapply after_streams_args; eauto with shardkv.
  - destruct args as [|a args]; cbn [Supplemental.sort_route_keys] in E; simplify_eq.
    apply elem_of_cons in Hk as [->|Hk%sort_store_key_args]; set_solver.
Qed.

Lemma digit_nonneg b d : digit b = Some d → (0 ≤ d)%Z.
Proof. unfold digit. intros E. case_match; [|done]. simplify_eq. lia. Qed.

Lemma parse_digits_nonneg bs acc v : (0 ≤ acc)%Z → parse_digits acc bs = Some v → (0 ≤ v)%Z.
Proof.
  revert acc. induction bs as [|b bs IH]; intros acc Ha E; cbn [parse_digits] in E; [by simplify_eq|].
  destruct (digit b) as [d|] eqn:Ed; [|done]. apply digit_nonneg in Ed. eapply IH; [|exact E]. lia.
Qed.

Lemma parse_u64_nonneg s v : parse_u64 s = Some v → (0 ≤ v)%Z.
Proof.
  unfold parse_u64. generalize (match s with b :: s' => if (b =? 43)%Z then s' else s | [] => s end).
  intros [|b bs]; [done|]. destruct (parse_digits 0 (b :: bs)) as [n|] eqn:Ed; [|done]. cbn [mbind option_bind].
  destruct (n <=? u64_MAX)%Z; [|done]. intros ?; simplify_eq. by apply parse_digits_nonneg in Ed.
Qed.

Section shard_lemmas.
Context `{Hashing} (store : StoreRouting).

Lemma all_shards_ok : gates_ok (sr_shard_count store) (all_shards store).
Proof.
  split; [apply seqZ_sorted|]. apply Forall_forall. intros x Hx%elem_of_seqZ. lia.
Qed.

Lemma btree_extend_ok n s xs :
  gates_ok n s → Forall (λ g, 0 ≤ g < n)%Z xs → gates_ok n (btree_extend s xs).
Proof.
  intros [Hs Hr] Hx. split; [by apply btree_extend_sorted|]. rewrite Forall_forall in *.
  intros x [?|?]%elem_of_btree_extend; eauto.
Qed.

Lemma nil_gates_ok n : gates_ok n [].
Proof. split; constructor. Qed.

Lemma single_gate_ok n g : (0 ≤ g < n)%Z → gates_ok n [g].
Proof. intros Hg. split; repeat constructor; lia. Qed.

Context (Hcount : valid_count (sr_shard_count store)).

Lemma valid_count_pos : (0 < sr_shard_count store)%Z.
Proof. destruct Hcount as (k & Hk & ->). apply Z.pow_pos_nonneg; lia. Qed.

Lemma route_key_range key :
  all_bytes key → (0 ≤ route_shard_id (route_key store key) < sr_shard_count store)%Z.
Proof.
  intros Hb. unfold route_key. destruct Hcount as (k & Hk & E). rewrite E, shift_for_pow2 by lia.
  by apply compute_key_route_lt.
Qed.

Definition keys_bytes (r : FastRedisRouteKeys) : Prop :=
  match r with Keys keys => Forall all_bytes keys | _ => True end.

Lemma route_keys_to_shards_ok r :
  keys_bytes r → gates_ok (sr_shard_count store) (route_keys_to_shards store r).
Proof.
  intros Hk. destruct r as [| |keys]; cbn [route_keys_to_shards].
  - apply nil_gates_ok.
  - apply btree_extend_ok; [apply nil_gates_ok|apply all_shards_ok].
  - apply btree_extend_ok; [apply nil_gates_ok|]. apply Forall_fmap.
    eapply Forall_impl; [exact Hk|]. intros key. apply route_key_range.
Qed.

Lemma scnp_scan_shard_ok args : gates_ok (sr_shard_count store) (scnp_scan_shard store args).
Proof.
  unfold scnp_scan_shard. destruct (head args ≫= parse_ascii_usize) as [z|] eqn:E; [|apply all_shards_ok].
  destruct (Z.ltb_spec z (sr_shard_count store)); [|apply all_shards_ok]. apply single_gate_ok.
  split; [|done]. destruct args as [|a args]; cbn in E; [done|].
  unfold parse_ascii_usize in E. case_match; [|done]. by eapply parse_u64_nonneg.
Qed.

Lemma command_route_keys_bytes command args r :
  Forall all_bytes args → command_route_keys command args = Some r → keys_bytes r.
Proof.
  intros Hb E. destruct r as [| |keys]; [done..|]. cbn [keys_bytes].
  rewrite Forall_forall in Hb |- *. intros key Hk. apply Hb. unfold command_route_keys in E.
  destruct (ScnpScanCommand.from_name command) as [[]|]; [done|..];
    (destruct (from_redis_name command) as [kind|];
       [by eapply redis_route_keys_args|];
     destruct (Supplemental.supplemental_command_key_spec command) as [spec|];
       [by eapply (supplemental_route_keys_args spec); [injection E|]|];
     unfold first_n_route_keys in E; simplify_eq; by eapply elem_of_take_inv).
Qed.

(** Whatever the command, the gates it takes exist and are taken in ascending
    order. *)
Lemma command_shards_ok parts shards :
  Forall all_bytes parts → command_shards store parts = Some shards →
  gates_ok (sr_shard_count store) shards.
Proof.
  intros Hb E. destruct parts as [|command args]; cbn [command_shards] in E.
  { simplify_eq. apply nil_gates_ok. }
  inversion Hb as [|?? Hc Ha]; subst.
  assert (∀ s, (if is_vector_command_name command then Some [vector_shard_id]
     else route_keys_to_shards store <$> command_route_keys command args) = Some s →
     gates_ok (sr_shard_count store) s) as Hgen.
  { intros s. destruct (is_vector_command_name command).
    - intros ?; simplify_eq. apply single_gate_ok. pose proof valid_count_pos. unfold vector_shard_id. lia.
    - destruct (command_route_keys command args) as [r|] eqn:Er; [|done]. cbn.
      intros ?; simplify_eq. by eapply route_keys_to_shards_ok, command_route_keys_bytes. }
  destruct (ScnpScanCommand.from_name command) as [[]|]; try by apply Hgen.
  simplify_eq. apply scnp_scan_shard_ok.
Qed.

Lemma transaction_shards_from_ok commands : ∀ acc shards,
  gates_ok (sr_shard_count store) acc → Forall (Forall all_bytes) commands →
  transaction_shards_from store acc commands = Some shards →
  gates_ok (sr_shard_count store) shards ∧
  (∀ g, g ∈ shards ↔ g ∈ acc ∨ ∃ parts s, parts ∈ commands ∧ command_shards store parts = Some s ∧ g ∈ s).
Proof.
  induction commands as [|parts commands IH]; intros acc shards Ha Hb E; cbn [transaction_shards_from] in E.
  { simplify_eq. split; [done|]. set_solver. }
  inversion Hb as [|?? Hp Hb']; subst.
  destruct (command_shards store parts) as [s|] eqn:Es; [|done]. cbn [mbind option_bind] in E.
  pose proof (command_shards_ok parts s Hp Es) as Hs.
  destruct (IH (btree_extend acc s) shards) as [H1 H2]; [|done..|].
  { apply btree_extend_ok; [done|apply Hs]. }
  split; [done|]. intros g. rewrite H2, elem_of_btree_extend. split.
  - intros [[?|?]|(p & s' & ? & ? & ?)]; [by left|right; exists parts, s; set_solver|].
    right. exists p, s'. set_solver.
  - intros [?|(p & s' & [->|?]%elem_of_cons & Ep & ?)]; [by left; left| |right; by exists p, s'].
    rewrite Es in Ep. simplify_eq. by left; right.
Qed.

Lemma transaction_shards_ok commands shards :
  Forall (Forall all_bytes) commands → transaction_shards store commands = Some shards →
  gates_ok (sr_shard_count store) shards ∧
  (∀ g, g ∈ shards ↔ ∃ parts s, parts ∈ commands ∧ command_shards store parts = Some s ∧ g ∈ s).
Proof.
  intros Hb E. destruct (transaction_shards_from_ok commands [] shards) as [H1 H2]; [apply nil_gates_ok|done..|].
  split; [done|]. intros g. rewrite H2. set_solver.
Qed.

Lemma transaction_shards_commands commands shards parts :
  transaction_shards store commands = Some shards → parts ∈ commands →
  is_Some (command_shards store parts).
Proof.
  unfold transaction_shards. generalize (@nil Z). induction commands as [|p commands IH]; intros acc E Hp;
    [set_solver|]. cbn [transaction_shards_from] in E.
  destruct (command_shards store p) as [s|] eqn:Es; [|done]. cbn in E.
  apply elem_of_cons in Hp as [->|Hp]; [by rewrite Es|]. by eapply IH.
Qed.
End shard_lemmas.

(** ** The connections of a server

    Connections come and go, each handles one command at a time, and the store
    changes between the commands in any way.  Handlers of different
    connections are whole steps here; [Gates] interleaves the inside of EXEC. *)
Section server.
Context `{Hashing} `{Engine} (store : StoreRouting).

Record Server := mkServer {
  connections : gmap nat TransactionState;
  coordinator : option TransactionCoordinator;
  contents : World;
}.

Inductive server_step : Server → Server → Prop :=
  | server_connect s t :
      connections s !! t = None → (Z.of_nat (size (connections s)) < u64_MAX)%Z →
      server_step s (mkServer (<[t := transaction_default]> (connections s)) (coordinator s) (contents s))
  | server_command s t st parts protocol st' c' w' out :
      connections s !! t = Some st →
      handle_resp_command store st (coordinator s) parts protocol (contents s) = Some (Some (st', c', w', out)) →
      server_step s (mkServer (<[t := st']> (connections s)) c' w')
  | server_mark_dirty s t st :
      connections s !! t = Some st →
      server_step s (mkServer (<[t := mark_dirty st]> (connections s)) (coordinator s) (contents s))
  | server_close s t st st' c' :
      connections s !! t = Some st → close st (coordinator s) = Some (st', c') →
      server_step s (mkServer (delete t (connections s)) c' (contents s))
  | server_store s w' :
      server_step s (mkServer (connections s) (coordinator s) w').

Definition server_start (n : Z) (mode : TransactionMode) (w : World) : Server :=
  mkServer ∅ (Coordinator.new n mode) w.

Definition server_reachable (n : Z) (mode : TransactionMode) (s : Server) : Prop :=
  ∃ w, rtc server_step (server_start n mode w) s.

(** A connection is counted exactly while it is between MULTI and EXEC, and
    has then queued only commands that parse. *)
Record session_ok (st : TransactionState) : Prop := {
  ok_counted : counted_active st = active st;
  ok_idle : active st = false → queued st = [] ∧ dirty st = false;
  ok_queued : Forall (λ parts, parse_error parts = None) (queued st);
}.

(** The coordinator of a server in [mode] that counts [n] transactions. *)
Definition counts (shards : Z) (mode : TransactionMode) (c : option TransactionCoordinator) (n : nat) : Prop :=
  c = match mode with Disabled => None | _ => Some (mkCoordinator mode shards (Z.of_nat n)) end ∧
  (mode = Disabled → n = 0).

Definition open_count (s : Server) : nat := count_if active (connections s).

Record server_ok (n : Z) (mode : TransactionMode) (s : Server) : Prop := {
  ok_sessions : map_Forall (λ _, session_ok) (connections s);
  ok_coordinator : counts n mode (coordinator s) (open_count s);
  ok_size : (Z.of_nat (size (connections s)) ≤ u64_MAX)%Z;
}.

(** What a handler does to the count: it opens or closes its own connection's
    transaction. *)
Lemma finish_counted_ok n mode st c k :
  counts n mode c k → counted_active st = true → k ≠ 0 →
  ∃ c', finish_counted_transaction st c =
    Some (mkTransaction (queued st) (dirty st) (active st) false (watched st), c') ∧ counts n mode c' (k - 1).
Proof.
  intros [-> Hd] Hc Hk. unfold finish_counted_transaction. rewrite Hc.
  destruct mode; [destruct (Hk (Hd eq_refl))|..];
    unfold Coordinator.end_transaction; cbn [active_transactions coord_mode coord_gates];
    rewrite (proj2 (Z.ltb_lt 0 (Z.of_nat k)) ltac:(lia)); cbn [fmap option_fmap option_map mbind option_bind];
    eexists; (split; [done|]); (split; [|done]); do 2 f_equal; lia.
Qed.

Lemma clear_ok n mode st c k :
  session_ok st → counts n mode c k → (active st = true → k ≠ 0) →
  ∃ c', clear st c = Some (transaction_default, c') ∧ counts n mode c' (k - Nat.b2n (active st)).
Proof.
  intros [Hc _ _] Hk Hn. unfold clear. destruct (active st) eqn:Ea.
  - destruct (finish_counted_ok n mode st c k Hk Hc (Hn eq_refl)) as (c' & -> & Hc'). by exists c'.
  - unfold finish_counted_transaction. rewrite Hc. cbn [mbind option_bind]. rewrite Hc. exists c.
    split; [done|]. by rewrite Nat.sub_0_r.
Qed.

Lemma default_ok : session_ok transaction_default.
Proof. by split. Qed.

(** The result of a handler: a well-formed connection, and the coordinator
    counts it if and only if it is now in a transaction. *)
Definition handled_ok (n : Z) (mode : TransactionMode) (st : TransactionState) (k : nat) (r : Handled) : Prop :=
  session_ok r.1.1.1 ∧
  counts n mode r.1.1.2 (k - Nat.b2n (active st) + Nat.b2n (active r.1.1.1)).

Context (n : Z) (mode : TransactionMode) (st : TransactionState) (c : option TransactionCoordinator)
  (k : nat) (w : World).
Context (Hst : session_ok st) (Hc : counts n mode c k) (Hk : active st = true → k ≠ 0)
  (Hmax : active st = false → (Z.of_nat k < u64_MAX)%Z).

(** A reply that changes nothing but the watched keys. *)
Lemma handled_same ks out :
  handled_ok n mode st k (mkTransaction (queued st) (dirty st) (active st) (counted_active st) ks, c, w, out).
Proof.
  destruct Hst as [H1 H2 H3]. split; [by split|]. cbn [fst snd active].
  destruct (active st) eqn:E; cbn [Nat.b2n]; [|by rewrite Nat.sub_0_r, Nat.add_0_r].
  specialize (Hk eq_refl). by replace (k - 1 + 1) with k by lia.
Qed.

Lemma handled_id out : handled_ok n mode st k (st, c, w, out).
Proof. pose proof (handled_same (watched st) out) as Hs. by destruct st. Qed.

Lemma clear_handled out :
  ∃ c', clear st c = Some (transaction_default, c') ∧ handled_ok n mode st k (transaction_default, c', w, out).
Proof.
  destruct (clear_ok n mode st c k Hst Hc Hk) as (c' & E & Hc'). exists c'. split; [done|].
  split; [apply default_ok|]. cbn. by rewrite Nat.add_0_r.
Qed.

Lemma multi_ok parts : handled_ok n mode st k (multi st c parts w).
Proof.
  pose proof handled_id as Hid. pose proof Hmax as Hmax1. unfold multi. destruct Hc as [E Hd]. revert Hid E.
  generalize c as c1. intros [c0|] Hid E; [|apply Hid].
  destruct (negb (length parts =? 1)); [apply Hid|]. destruct (active st) eqn:Ea in Hmax1 |- *; [apply Hid|].
  rewrite (ok_counted _ Hst), Ea. split; [by split|]. rewrite Ea. cbn [fst snd active Nat.b2n].
  specialize (Hmax1 eq_refl). destruct mode; [done|..]; injection E as ->;
    (split; [|done]); unfold Coordinator.begin_transaction; cbn [coord_mode coord_gates active_transactions];
    do 2 f_equal; unfold wrap_u64, two64, u64_MAX in *; rewrite Z.mod_small; lia.
Qed.

Lemma discard_ok parts : ∃ r, discard st c parts w = Some r ∧ handled_ok n mode st k r.
Proof.
  unfold discard. case_match; [eexists; split; [done|apply handled_id]|].
  case_match; [eexists; split; [done|apply handled_id]|].
  destruct (clear_handled (write_simple_string (text "OK"))) as (c' & -> & Hr). by eexists.
Qed.

Lemma queue_ok parts : active st = true →
  handled_ok n mode st k (let '(st', out) := queue_command st parts in (st', c, w, out)).
Proof.
  intros Ea. destruct Hst as [H1 H2 H3]. unfold queue_command.
  assert (k - Nat.b2n (active st) + Nat.b2n (active st) = k) as Ek.
  { rewrite Ea. specialize (Hk Ea). cbn [Nat.b2n]. lia. }
  destruct (parse_error parts) eqn:Ep; (split; [split; cbn|]); try done; try (cbn; by rewrite Ek).
  - by rewrite Ea.
  - by rewrite Ea.
  - apply Forall_app. split; [done|]. by constructor.
Qed.

Lemma watch_ok parts : handled_ok n mode st k (watch st c parts w).
Proof.
  pose proof handled_id as Hid. pose proof handled_same as Hsame. unfold watch. revert Hid Hsame.
  generalize c as c1. intros [c0|] Hid Hsame; [|apply Hid].
  case_match; [apply Hid|]. destruct (active st) eqn:Ea; [apply Hid|apply Hsame].
Qed.

Lemma unwatch_ok parts : handled_ok n mode st k (unwatch st c parts w).
Proof.
  pose proof handled_id as Hid. pose proof handled_same as Hsame. unfold unwatch. revert Hid Hsame.
  generalize c as c1. intros [c0|] Hid Hsame; [|apply Hid]. case_match; [apply Hsame|apply Hid].
Qed.

(** EXEC can only panic in the routing of its commands. *)
Lemma exec_ok parts protocol :
  match exec store st c parts protocol w with
  | Some r => handled_ok n mode st k r
  | None => transaction_shards store (queued st) = None
  end.
Proof.
  pose proof handled_id as Hid. pose proof clear_handled as Hclear. pose proof Hk as Hk1. clear Hk.
  unfold exec. destruct (negb (length parts =? 1)); [apply Hid|]. destruct (active st) eqn:Ea; cbn [negb]; [|apply Hid].
  destruct (dirty st) eqn:Ed; [destruct (Hclear EXECABORT_ERROR) as (c' & -> & Hr); exact Hr|].
  destruct (watched_keys_changed st w); [destruct (Hclear write_null_array) as (c' & -> & Hr); exact Hr|].
  pose proof Hc as Hc1. revert Hclear Hc1. clear Hid.
  generalize c as c1. intros [c0|] Hclear Hc1.
  - unfold execute. destruct (transaction_shards store (queued st)) as [shards|]; [|done]. cbn [mbind option_bind].
    set (r := if bool_decide (coord_mode c0 = ShardLocal) && (1 <? length shards) then _ else _).
    destruct r as [[w' out]|] eqn:Er; [|unfold r in Er; by case_match]. cbn [mbind option_bind].
    set (st1 := mkTransaction [] false false (counted_active st) []).
    destruct (finish_counted_ok n mode st1 (Some c0) k Hc1) as (c' & -> & Hc');
      [cbn; by rewrite (ok_counted _ Hst)|by apply Hk1|].
    cbn [mbind option_bind]. split; [by split|]. cbn. rewrite Ea. cbn. by rewrite Nat.add_0_r.
  - destruct (Hclear DISABLED_ERROR) as (c' & -> & Hr). exact Hr.
Qed.

Lemma handle_ok parts protocol :
  match handle_resp_command store st c parts protocol w with
  | Some (Some r) => handled_ok n mode st k r
  | Some None => active st = false
  | None => transaction_shards store (queued st) = None
  end.
Proof.
  unfold handle_resp_command.
  destruct (head parts ≫= RespTransactionCommand.from_name) as [[]|].
  - apply watch_ok.
  - apply unwatch_ok.
  - apply multi_ok.
  - destruct (discard_ok parts) as (r & -> & Hr). exact Hr.
  - pose proof (exec_ok parts protocol) as He. by destruct (exec store st c parts protocol w).
  - pose proof (queue_ok parts) as Hq. clear Hk. destruct (active st) eqn:Ea; [|done].
    specialize (Hq eq_refl). by destruct (queue_command st parts).
Qed.
End server.

Section server_invariant.
Context `{Hashing} `{Engine} (store : StoreRouting) (n : Z) (mode : TransactionMode).

(** One connection changes, with the coordinator. *)
Lemma server_move s t st r :
  server_ok n mode s → connections s !! t = Some st → handled_ok n mode st (open_count s) r →
  server_ok n mode (mkServer (<[t := r.1.1.1]> (connections s)) r.1.1.2 r.1.2).
Proof.
  intros [Hs Hc Hz] Ht [Hr Hn]. split; cbn [connections coordinator].
  - by apply map_Forall_insert_2.
  - unfold open_count in *. cbn [connections].
    pose proof (count_if_insert active _ t st r.1.1.1 Ht).
    pose proof (count_if_pos active _ t st Ht) as Hp.
    replace (count_if active (<[t:=r.1.1.1]> (connections s)))
      with (count_if active (connections s) - Nat.b2n (active st) + Nat.b2n (active r.1.1.1)); [done|].
    destruct (active st); [specialize (Hp eq_refl)|]; cbn [Nat.b2n] in *; lia.
  - by rewrite map_size_insert_Some by by eexists.
Qed.

Lemma open_count_bound s t st :
  server_ok n mode s → connections s !! t = Some st →
  session_ok st ∧ (active st = true → open_count s ≠ 0) ∧
  (active st = false → (Z.of_nat (open_count s) < u64_MAX)%Z).
Proof.
  intros [Hs Hc Hz] Ht. split; [by apply (Hs t)|]. split; [intros; by eapply count_if_pos|].
  intros Ea. unfold open_count in *. pose proof (count_if_delete active _ t st Ht) as Hd. rewrite Ea in Hd.
  pose proof (count_if_size active (delete t (connections s))) as Hle.
  rewrite (map_size_delete_Some t (connections s) (ex_intro _ st Ht)) in Hle.
  assert (size (connections s) ≠ 0) by (rewrite map_size_ne_0_lookup; by exists t, st).
  cbn [Nat.b2n] in Hd. lia.
Qed.

Lemma server_step_ok s s' : server_step store s s' → server_ok n mode s → server_ok n mode s'.
Proof.
  intros Hstep Hok. destruct Hstep as [s t Hn Hz|s t st parts protocol st' c' w' out Ht E|s t st Ht|s t st st' c' Ht E|s w'].
  - destruct Hok as [Hs Hc _]. split; cbn [connections coordinator].
    + apply map_Forall_insert_2; [apply default_ok|done].
    + unfold open_count. cbn [connections]. rewrite count_if_new by done. by rewrite Nat.add_0_r.
    + rewrite map_size_insert_None by done. lia.
  - destruct (open_count_bound s t st Hok Ht) as (Hst & Hk & Hm).
    pose proof (handle_ok store n mode st (coordinator s) (open_count s) (contents s) Hst
                  (ok_coordinator _ _ _ Hok) Hk Hm parts protocol) as Hh.
    rewrite E in Hh. by apply (server_move s t st (st', c', w', out)).
  - destruct (open_count_bound s t st Hok Ht) as (Hst & Hk & _).
    apply (server_move s t st (mark_dirty st, coordinator s, contents s, [])); [done..|].
    destruct Hok as [_ Hc _]. destruct Hst as [H1 H2 H3].
    split; cbn; unfold mark_dirty; destruct (active st) eqn:Ea; try (by split; cbn; rewrite ?Ea); cbn.
    + specialize (Hk eq_refl). by replace (open_count s - 1 + 1) with (open_count s) by lia.
    + rewrite Ea. cbn. by rewrite Nat.sub_0_r, Nat.add_0_r.
  - destruct (open_count_bound s t st Hok Ht) as (Hst & Hk & _).
    destruct (clear_ok n mode st (coordinator s) (open_count s) Hst (ok_coordinator _ _ _ Hok) Hk) as (c1 & E1 & Hc1).
    unfold close in E. rewrite E1 in E. injection E as <- <-.
    destruct Hok as [Hs Hc Hz]. split; cbn [connections coordinator].
    + by apply map_Forall_delete.
    + unfold open_count in *. cbn [connections]. pose proof (count_if_delete active _ t st Ht).
      by replace (count_if active (delete t (connections s)))
        with (count_if active (connections s) - Nat.b2n (active st)) by lia.
    + rewrite map_size_delete_Some by by eexists. lia.
  - by destruct Hok.
Qed.

Lemma server_reachable_ok s : server_reachable store n mode s → server_ok n mode s.
Proof.
  intros [w Hr]. assert (server_ok n mode (server_start n mode w)) as Hs.
  { split; cbn; [apply map_Forall_empty| |done]. by destruct mode. }
  revert Hs. induction Hr as [|s1 s2 s3 Hs12 _ IH]; [done|]. intros Hok. by eapply IH, server_step_ok.
Qed.
End server_invariant.

(** ** A connection's conversation

    The commands a connection sends that concern a transaction, each with the
    contents of the store when it is handled; the replies with the contents
    after it.  [None] also when a command is left to the caller. *)
Section conversation.
Context `{Hashing} `{Engine} (store : StoreRouting) (protocol : RespProtocolVersion).

Fixpoint session (st : TransactionState) (c : option TransactionCoordinator)
    (script : list (World * list Bytes))
    : option (TransactionState * option TransactionCoordinator * list (World * Bytes)) :=
  match script with
  | [] => Some (st, c, [])
  | (w, parts) :: script =>
      r ← handle_resp_command store st c parts protocol w;
      '(st, c, w, out) ← r;
      '(st, c, replies) ← session st c script;
      Some (st, c, (w, out) :: replies)
  end.

Definition is_control (parts : list Bytes) : bool :=
  match head parts ≫= RespTransactionCommand.from_name with Some _ => true | None => false end.

Definition queue_reply (parts : list Bytes) : Bytes :=
  match parse_error parts with
  | None => write_simple_string (text "QUEUED")
  | Some error => write_resp_error (text "ERR " ++ error)
  end.

Definition parses (parts : list Bytes) : bool :=
  match parse_error parts with None => true | Some _ => false end.

Lemma session_app st c s1 s2 :
  session st c (s1 ++ s2) =
  '(st, c, r1) ← session st c s1; '(st, c, r2) ← session st c s2; Some (st, c, r1 ++ r2).
Proof.
  revert st c. induction s1 as [|[w parts] s1 IH]; intros st c; cbn [session app].
  { cbn. by destruct (session st c s2) as [[[]]|]. }
  destruct (handle_resp_command store st c parts protocol w) as [[[[[st1 c1] w1] out]|]|]; [|done..].
  cbn [mbind option_bind]. rewrite IH.
  destruct (session st1 c1 s1) as [[[st2 c2] r1]|]; [|done]. cbn [mbind option_bind].
  by destruct (session st2 c2 s2) as [[[]]|].
Qed.

(** The commands between MULTI and EXEC are only queued. *)
Lemma session_queue cmds : ∀ ws st c,
  active st = true → length ws = length cmds → forallb (λ p, negb (is_control p)) cmds = true →
  session st c (zip ws cmds) =
  Some (mkTransaction (queued st ++ filter (λ p, parses p = true) cmds)
          (dirty st || negb (forallb parses cmds)) true (counted_active st) (watched st), c,
        zip ws (queue_reply <$> cmds)).
Proof.
  induction cmds as [|parts cmds IH]; intros [|w ws] st c Ha Hl Hc; try done; cbn [zip_with].
  { cbn. rewrite app_nil_r, orb_false_r. destruct st; cbn in *. by subst. }
  cbn [session]. unfold handle_resp_command. cbn [forallb] in Hc. apply andb_true_iff in Hc as [Hp Hc].
  unfold is_control in Hp. destruct (head parts ≫= RespTransactionCommand.from_name) as [x|]; [done|].
  rewrite Ha. unfold queue_command. rewrite fmap_cons, filter_cons. cbn [forallb].
  assert (parses parts = match parse_error parts with None => true | Some _ => false end) as -> by done.
  change (queue_reply parts) with (match parse_error parts with
    | None => write_simple_string (text "QUEUED") | Some e => write_resp_error (text "ERR " ++ e) end).
  destruct (parse_error parts) as [e|]; cbn [mbind option_bind];
    (rewrite IH; [|done|by injection Hl|done]); cbn [mbind option_bind queued dirty counted_active watched];
    case_decide; try done; cbn.
  - by rewrite orb_true_r.
  - by rewrite <-app_assoc.
Qed.

(** What EXEC answers, given the watched keys and the commands sent since
    MULTI. *)
Definition exec_answer (mode : TransactionMode) (ks : list WatchedKey) (cmds : list (list Bytes))
    (shards : list Z) (w : World) : World * Bytes :=
  if negb (forallb parses cmds) then (w, EXECABORT_ERROR)
  else if keys_changed ks w then (w, write_null_array)
  else if bool_decide (mode = ShardLocal) && (1 <? length shards) then (w, write_resp_error CROSSSLOT_ERROR)
  else run_commands protocol cmds w.

Lemma filter_parses cmds : forallb parses cmds = true → filter (λ p, parses p = true) cmds = cmds.
Proof.
  induction cmds as [|p cmds IH]; [done|]. cbn [forallb]. intros [Hp Hc]%andb_true_iff.
  rewrite filter_cons. case_decide; [|done]. by rewrite IH.
Qed.
End conversation.
