(* ===== verification/Gates.v ===== *)
(** * Transactions and commands of several connections, interleaved

    [TransactionCoordinator] of [server/transactions.rs] keeps one read-write
    lock (a gate) per shard.  EXEC takes the gates of its shards for writing
    and runs its commands one by one; any other command loads the counter of
    open transactions and, when there are any, takes its gates for reading.
    Here these steps of different threads are interleaved: loads and updates of
    the counter, the acquisition of each single gate, the begin and the end of
    each command, the release of each gate.

    A command is not one step: between its begin and its end other threads may
    do anything, and a blocking command (BLPOP and the like) may wait there,
    with the gates it holds, until another client serves it
    ([commands/blocking.rs]).  What a command does to the store is not part of
    this model; the shards are those [command_shards] computes.

    The read-write lock (parking_lot) is its documented behaviour: a reader
    waits while the gate is held for writing, a writer while it is held at all;
    that a reader also waits behind a waiting writer (parking_lot is fair) is
    [polite], left open for safety and assumed where progress, or the lack of
    it, is shown. *)

From S2P Require Import Prelude Helpers Codec Resp Deps Routing FastKinds Fast Transactions.

(** The commands that end in [block_on_shard] when they find nothing. *)
Definition blocking_command (parts : list Bytes) : bool :=
  match parts with
  | command :: _ =>
      match from_redis_name command with
      | Some (KBLPop | KBRPop | KBLMove | KBLMPop | KBRPopLPush | KBZPopMin | KBZPopMax | KBZMPop) => true
      | _ => false
      end
  | [] => false
  end.

(** Where a thread is.  [CEnter] to [CDone]: a command outside a transaction,
    from [read_guard_for_parts] on; [guarded] says whether it found an open
    transaction.  [TMulti] to [TDone]: a transaction with its commands, from
    MULTI on.  A thread at [CRun] or [TRun] executes, at [CWait] or [TWait] it
    waits inside a blocking command. *)
Inductive PC :=
  | CEnter (parts : list Bytes)
  | CAcquire (parts : list Bytes) (held todo : list Z)
  | CRun (parts : list Bytes) (guarded : bool) (held : list Z)
  | CWait (parts : list Bytes) (guarded : bool) (held : list Z)
  | CRelease (held : list Z)
  | CDone
  | TMulti (cmds : list (list Bytes))
  | TExec (cmds : list (list Bytes))
  | TAcquire (cmds : list (list Bytes)) (held todo : list Z)
  | TRun (cmds : list (list Bytes)) (held : list Z) (rest : list (list Bytes))
  | TWait (cmds : list (list Bytes)) (held : list Z) (rest : list (list Bytes))
  | TRelease (held : list Z)
  | TDone.

#[export] Instance pc_eq_dec : EqDecision PC.
Proof. solve_decision. Defined.

Record GState := mkGState { g_active : Z; g_pcs : gmap nat PC }.

(** A step of a thread's own, or the begin or the end of a wait. *)
Inductive Label := Go (t : nat) | Wait (t : nat) | Resume (t : nat).

Definition write_held (pc : PC) : list Z :=
  match pc with TAcquire _ held _ | TRun _ held _ | TWait _ held _ | TRelease held => held | _ => [] end.

Definition read_held (pc : PC) : list Z :=
  match pc with CAcquire _ held _ | CRun _ _ held | CWait _ _ held | CRelease held => held | _ => [] end.

(** The command a thread outside a transaction executes, and whether guarded. *)
Definition executing (pc : PC) : option (list Bytes * bool) :=
  match pc with CRun parts guarded _ | CWait parts guarded _ => Some (parts, guarded) | _ => None end.

(** The transaction a thread executes, and its gates. *)
Definition running (pc : PC) : option (list (list Bytes) * list Z) :=
  match pc with TRun cmds held _ | TWait cmds held _ => Some (cmds, held) | _ => None end.

Definition waiting (pc : PC) : bool := match pc with CWait _ _ _ | TWait _ _ _ => true | _ => false end.

Definition finished (pc : PC) : bool := match pc with CDone | TDone => true | _ => false end.

Section gates.
Context `{Hashing} (store : StoreRouting) (mode : TransactionMode).
Implicit Types (st : GState) (t u : nat) (pc : PC) (l : Label).

(** No thread holds the gate for writing, or at all. *)
Definition no_writer st g : Prop := ∀ t pc, g_pcs st !! t = Some pc → g ∉ write_held pc.
Definition gate_free st g : Prop :=
  ∀ t pc, g_pcs st !! t = Some pc → g ∉ write_held pc ∧ g ∉ read_held pc.

Definition move st t pc : GState := mkGState (g_active st) (<[t := pc]> (g_pcs st)).
Definition set_active st a : GState := mkGState a (g_pcs st).

Inductive gate_step : GState → Label → GState → Prop :=
  (** [read_guard_for_parts] *)
  | gs_unguarded st t parts :
      g_pcs st !! t = Some (CEnter parts) → g_active st = 0%Z →
      gate_step st (Go t) (move st t (CRun parts false []))
  | gs_guarded st t parts shards :
      g_pcs st !! t = Some (CEnter parts) → g_active st ≠ 0%Z →
      command_shards store parts = Some shards →
      gate_step st (Go t) (move st t (CAcquire parts [] shards))
  (** [read_guard_for_shards] *)
  | gs_read st t parts held g todo :
      g_pcs st !! t = Some (CAcquire parts held (g :: todo)) → no_writer st g →
      gate_step st (Go t) (move st t (CAcquire parts (held ++ [g]) todo))
  | gs_read_all st t parts held :
      g_pcs st !! t = Some (CAcquire parts held []) →
      gate_step st (Go t) (move st t (CRun parts true held))
  (** [block_on_shard]: nothing found, woken up or timed out *)
  | gs_command_wait st t parts guarded held :
      g_pcs st !! t = Some (CRun parts guarded held) → blocking_command parts = true →
      gate_step st (Wait t) (move st t (CWait parts guarded held))
  | gs_command_resume st t parts guarded held :
      g_pcs st !! t = Some (CWait parts guarded held) →
      gate_step st (Resume t) (move st t (CRun parts guarded held))
  (** the end of the command *)
  | gs_command st t parts guarded held :
      g_pcs st !! t = Some (CRun parts guarded held) →
      gate_step st (Go t) (move st t (CRelease held))
  | gs_command_release st t g held :
      g_pcs st !! t = Some (CRelease (g :: held)) →
      gate_step st (Go t) (move st t (CRelease held))
  | gs_command_done st t :
      g_pcs st !! t = Some (CRelease []) → gate_step st (Go t) (move st t CDone)
  (** MULTI: [begin_transaction] *)
  | gs_multi st t cmds :
      g_pcs st !! t = Some (TMulti cmds) →
      gate_step st (Go t) (move (set_active st (g_active st + 1)) t (TExec cmds))
  (** DISCARD, an EXEC that a bad command or a watched key aborts, or the end
      of the connection *)
  | gs_abort st t cmds :
      g_pcs st !! t = Some (TExec cmds) → gate_step st (Go t) (move st t (TRelease []))
  (** EXEC: the shards, and then the gates *)
  | gs_crossslot st t cmds shards :
      g_pcs st !! t = Some (TExec cmds) → transaction_shards store cmds = Some shards →
      bool_decide (mode = ShardLocal) && (1 <? length shards) = true →
      gate_step st (Go t) (move st t (TRelease []))
  | gs_exec st t cmds shards :
      g_pcs st !! t = Some (TExec cmds) → transaction_shards store cmds = Some shards →
      bool_decide (mode = ShardLocal) && (1 <? length shards) = false →
      gate_step st (Go t) (move st t (TAcquire cmds [] shards))
  (** [write_guard_for_shards] *)
  | gs_write st t cmds held g todo :
      g_pcs st !! t = Some (TAcquire cmds held (g :: todo)) → gate_free st g →
      gate_step st (Go t) (move st t (TAcquire cmds (held ++ [g]) todo))
  | gs_write_all st t cmds held :
      g_pcs st !! t = Some (TAcquire cmds held []) →
      gate_step st (Go t) (move st t (TRun cmds held cmds))
  (** the loop over the commands: the end of one *)
  | gs_run st t cmds held parts rest :
      g_pcs st !! t = Some (TRun cmds held (parts :: rest)) →
      gate_step st (Go t) (move st t (TRun cmds held rest))
  | gs_wait st t cmds held parts rest :
      g_pcs st !! t = Some (TRun cmds held (parts :: rest)) → blocking_command parts = true →
      gate_step st (Wait t) (move st t (TWait cmds held (parts :: rest)))
  | gs_resume st t cmds held rest :
      g_pcs st !! t = Some (TWait cmds held rest) →
      gate_step st (Resume t) (move st t (TRun cmds held rest))
  | gs_commit st t cmds held :
      g_pcs st !! t = Some (TRun cmds held []) →
      gate_step st (Go t) (move st t (TRelease held))
  | gs_release st t g held :
      g_pcs st !! t = Some (TRelease (g :: held)) →
      gate_step st (Go t) (move st t (TRelease held))
  (** [end_transaction] *)
  | gs_end st t :
      g_pcs st !! t = Some (TRelease []) →
      gate_step st (Go t) (move (set_active st (g_active st - 1)) t TDone).

Inductive gate_steps : GState → GState → Prop :=
  | gate_steps_nil st : gate_steps st st
  | gate_steps_cons st l st1 st2 : gate_step st l st1 → gate_steps st1 st2 → gate_steps st st2.

(** The polite choice: a reader does not overtake a waiting writer. *)
Definition waits_to_write pc g : Prop :=
  match pc with TAcquire _ _ (g' :: _) => g' = g | _ => False end.
Definition waits_to_read pc g : Prop :=
  match pc with CAcquire _ _ (g' :: _) => g' = g | _ => False end.
Definition polite st st' : Prop :=
  ∀ t pc g, g_pcs st !! t = Some pc → waits_to_read pc g → g_pcs st' !! t ≠ Some pc →
    ∀ u pc', g_pcs st !! u = Some pc' → ¬ waits_to_write pc' g.

(** Polite runs whose labels satisfy [allowed]. *)
Inductive polite_steps (allowed : Label → Prop) : GState → GState → Prop :=
  | polite_nil st : polite_steps allowed st st
  | polite_cons st l st1 st2 :
      gate_step st l st1 → allowed l → polite st st1 → polite_steps allowed st1 st2 → polite_steps allowed st st2.

Definition is_go l : Prop := match l with Go _ => True | _ => False end.

(** Threads at their beginning: commands that parse and can be routed. *)
Definition routable (parts : list Bytes) : Prop :=
  Forall all_bytes parts ∧ is_Some (command_shards store parts).

Definition starting pc : Prop :=
  match pc with
  | CEnter parts => routable parts
  | TMulti cmds => Forall routable cmds
  | _ => False
  end.

Definition gate_initial st : Prop :=
  g_active st = 0%Z ∧ ∀ t pc, g_pcs st !! t = Some pc → starting pc.
End gates.

(** ** Who holds what *)
Section invariant.
Context `{Hashing} (store : StoreRouting) (mode : TransactionMode).
Implicit Types (st : GState) (t u : nat) (pc : PC).

(** The gates a thread has taken and still wants are those of its command or
    transaction. *)
Definition pc_ok pc : Prop :=
  match pc with
  | CEnter parts => routable store parts
  | CAcquire parts held todo => routable store parts ∧ command_shards store parts = Some (held ++ todo)
  | CRun parts guarded held | CWait parts guarded held =>
      routable store parts ∧
      (if guarded : bool then command_shards store parts = Some held else held = [])
  | TMulti cmds | TExec cmds => Forall (routable store) cmds
  | TAcquire cmds held todo =>
      Forall (routable store) cmds ∧ transaction_shards store cmds = Some (held ++ todo)
  | TRun cmds held rest | TWait cmds held rest =>
      Forall (routable store) cmds ∧ transaction_shards store cmds = Some held ∧ rest `suffix_of` cmds
  | CRelease _ | TRelease _ | CDone | TDone => True
  end.

(** A gate held for writing is held by nobody else. *)
Definition exclusive st : Prop :=
  ∀ t u pc pc' g, t ≠ u → g_pcs st !! t = Some pc → g_pcs st !! u = Some pc' →
    g ∈ write_held pc → g ∉ write_held pc' ∧ g ∉ read_held pc'.

Definition in_multi pc : bool :=
  match pc with TExec _ | TAcquire _ _ _ | TRun _ _ _ | TWait _ _ _ | TRelease _ => true | _ => false end.

Record gate_inv st : Prop := {
  gi_pcs : ∀ t pc, g_pcs st !! t = Some pc → pc_ok pc;
  gi_exclusive : exclusive st;
  gi_active : g_active st = Z.of_nat (count_if in_multi (g_pcs st));
}.

Lemma gate_inv_initial st : gate_initial store st → gate_inv st.
Proof.
  intros [Ha Hs]. split.
  - intros t pc Ht. specialize (Hs t pc Ht). by destruct pc.
  - intros t u pc pc' g _ Ht _ Hg. specialize (Hs t pc Ht). destruct pc; cbn in *; set_solver.
  - rewrite Ha, count_if_none; [done|]. intros t pc Ht. specialize (Hs t pc Ht). by destruct pc.
Qed.

(** One thread moves; it keeps its gates, drops some or takes a free one. *)
Lemma gate_inv_move st a t pc pc' :
  gate_inv st → g_pcs st !! t = Some pc → pc_ok pc' →
  (a + Z.of_nat (Nat.b2n (in_multi pc)) = g_active st + Z.of_nat (Nat.b2n (in_multi pc')))%Z →
  (∀ g, g ∈ write_held pc' → g ∈ write_held pc ∨ gate_free st g) →
  (∀ g, g ∈ read_held pc' → g ∈ read_held pc ∨ no_writer st g) →
  gate_inv (mkGState a (<[t := pc']> (g_pcs st))).
Proof.
  intros [Hp He Ha] Ht Hok Hn Hw Hr. split; cbn [g_pcs g_active].
  - intros u q [[<- <-]|[_ Hu]]%lookup_insert_Some; [done|by eapply Hp].
  - intros u v q q' g Huv Hu Hv Hg. cbn [g_pcs] in Hu, Hv.
    apply lookup_insert_Some in Hu as [[<- <-]|[Hu' Hu]], Hv as [Hv|[Hv' Hv]].
    + by destruct Hv as [<- _].
    + destruct (Hw g Hg) as [Hg'|Hfree]; [by eapply (He t v)|by eapply Hfree].
    + destruct Hv as [<- <-]. destruct (He u t q pc g) as [H1 H2]; [done..|]. split.
      * intros Hg'. destruct (Hw g Hg') as [?|Hfree]; [done|]. by destruct (Hfree u q Hu).
      * intros Hg'. destruct (Hr g Hg') as [?|Hno]; [done|]. by destruct (Hno u q Hu).
    + by eapply (He u v).
  - pose proof (count_if_insert in_multi _ t pc pc' Ht). lia.
Qed.

Lemma routable_ok parts s : valid_count (sr_shard_count store) →
  routable store parts → command_shards store parts = Some s → gates_ok (sr_shard_count store) s.
Proof. intros Hv [Hb _]. by apply command_shards_ok. Qed.

Lemma transaction_routable cmds : Forall (routable store) cmds → is_Some (transaction_shards store cmds).
Proof.
  unfold transaction_shards. generalize (@nil Z). intros acc Hr. revert acc.
  induction Hr as [|p cmds [_ [s Es]] _ IH]; intros acc; cbn [transaction_shards_from]; [by eexists|].
  rewrite Es. apply IH.
Qed.

Lemma gate_step_inv st l st' : gate_step store mode st l st' → gate_inv st → gate_inv st'.
Proof.
  intros Hs Hi. destruct Hs;
    match goal with Ht : g_pcs ?s !! ?t = Some ?pc |- _ =>
      pose proof (gi_pcs _ Hi t pc Ht) as Hok;
      apply (gate_inv_move s _ t pc); [done|done| | | |]
    end; cbn [pc_ok write_held read_held in_multi Nat.b2n g_active set_active] in *;
    try lia; try (intros ?; set_solver);
    try (intros g' [Hg'|Hg'%list_elem_of_singleton]%elem_of_app; [by left|subst; by right]).
  all: rewrite <-?app_assoc, ?app_nil_r in *; try naive_solver.
  destruct Hok as (? & ? & Hsuf). split_and!; [done..|]. by eapply suffix_cons_l.
Qed.

Lemma gate_steps_inv st st' : gate_steps store mode st st' → gate_inv st → gate_inv st'.
Proof. induction 1; eauto using gate_step_inv. Qed.

Lemma running_held pc cmds held : running pc = Some (cmds, held) → write_held pc = held ∧ in_multi pc = true.
Proof. destruct pc; intros [= <- <-]; done. Qed.

(** An open transaction is counted. *)
Lemma in_multi_active st t pc : gate_inv st → g_pcs st !! t = Some pc → in_multi pc = true → g_active st ≠ 0%Z.
Proof.
  intros Hi Ht Hm. rewrite (gi_active _ Hi). pose proof (count_if_pos in_multi (g_pcs st) t pc Ht Hm). lia.
Qed.

(** The gates of a running transaction are those of its commands. *)
Lemma running_shards st t pc cmds held :
  valid_count (sr_shard_count store) → gate_inv st → g_pcs st !! t = Some pc → running pc = Some (cmds, held) →
  transaction_shards store cmds = Some held ∧
  Forall (λ parts, ∃ s, command_shards store parts = Some s ∧ s ⊆ held) cmds.
Proof.
  intros Hv Hi Ht Hr. pose proof (gi_pcs _ Hi t pc Ht) as Hok.
  assert (Forall (routable store) cmds ∧ transaction_shards store cmds = Some held) as [Hc Es].
  { destruct pc; cbn in Hr; simplify_eq; by destruct Hok as (? & ? & _). }
  split; [done|]. rewrite Forall_forall in *. intros p Hp. destruct (Hc p Hp) as [_ [s Eps]]. exists s. split; [done|].
  assert (Forall (Forall all_bytes) cmds) as Hb by (apply Forall_forall; intros q Hq; apply Hc, Hq).
  destruct (transaction_shards_ok store Hv cmds held Hb Es) as [_ Hin].
  intros g Hg. apply Hin. by exists p, s.
Qed.

(** Nobody else holds one of its gates. *)
Lemma running_alone st t u pc pc' cmds held g :
  gate_inv st → g_pcs st !! t = Some pc → running pc = Some (cmds, held) → u ≠ t → g_pcs st !! u = Some pc' →
  g ∈ held → g ∉ write_held pc' ∧ g ∉ read_held pc'.
Proof.
  intros Hi Ht Hr Hu Hpc Hg. destruct (running_held pc cmds held Hr) as [E _].
  apply (gi_exclusive _ Hi t u pc pc' g); [done..|]. by rewrite E.
Qed.

(** A guarded command holds the gates of its shards. *)
Lemma guarded_held pc parts s : pc_ok pc → executing pc = Some (parts, true) → command_shards store parts = Some s → read_held pc = s.
Proof. destruct pc; try done; cbn; intros [_ Hg] He E; simplify_eq; congruence. Qed.

(** A command that begins to execute found no open transaction, or holds its
    gates. *)
Lemma begins_guarded st l st' u pc' parts guarded :
  gate_inv st → gate_step store mode st l st' → g_pcs st' !! u = Some pc' → executing pc' = Some (parts, guarded) →
  (∃ pc, g_pcs st !! u = Some pc ∧ executing pc = Some (parts, guarded)) ∨
  (g_active st = 0%Z ∧ guarded = false) ∨ guarded = true.
Proof.
  intros Hi Hs Hu He. destruct guarded; [by right; right|].
  destruct Hs; cbn [move set_active g_pcs] in Hu; apply lookup_insert_Some in Hu as [[<- <-]|[_ Hu]];
    cbn in He; simplify_eq; try (left; eexists; by split); auto.
Qed.
(** From MULTI to the release of its last gate a transaction is open. *)
Lemma multi_step st l st' t pc : gate_step store mode st l st' → g_pcs st !! t = Some pc → in_multi pc = true →
  ∃ pc', g_pcs st' !! t = Some pc' ∧ (in_multi pc' = true ∨ pc' = TDone).
Proof.
  intros Hs Ht Hm. destruct Hs; cbn [move set_active g_pcs];
    match goal with |- ∃ _, <[?u := _]> _ !! _ = _ ∧ _ => destruct (decide (t = u)) as [->|?] end;
    rewrite ?lookup_insert_eq, ?lookup_insert_ne by done; simplify_eq; eauto.
Qed.

Lemma done_stays st st' t : gate_steps store mode st st' → g_pcs st !! t = Some TDone → g_pcs st' !! t = Some TDone.
Proof.
  induction 1 as [|st l st1 st2 Hs _ IH]; [done|]. intros Ht. apply IH.
  destruct Hs; cbn [move set_active g_pcs]; rewrite lookup_insert_ne; try done; intros ->; by simplify_eq.
Qed.

(** A command without a guard, next to an open transaction, is older than it. *)
Lemma unguarded_older st st' t u pc pc' q parts :
  gate_inv st → gate_steps store mode st st' →
  g_pcs st !! t = Some pc → in_multi pc = true → g_pcs st' !! t = Some pc' → in_multi pc' = true →
  g_pcs st' !! u = Some q → executing q = Some (parts, false) →
  ∃ q0, g_pcs st !! u = Some q0 ∧ executing q0 = Some (parts, false).
Proof.
  intros Hi Hs. revert pc Hi. induction Hs as [st|st l st1 st2 Hs1 Hs2 IH]; intros pc Hi Ht Hm Ht' Hm' Hu He; [eauto|].
  destruct (multi_step st l st1 t pc Hs1 Ht Hm) as (pc1 & Ht1 & [Hm1| ->]).
  2:{ rewrite (done_stays _ _ t Hs2 Ht1) in Ht'. by simplify_eq. }
  destruct (IH pc1) as (q1 & Hu1 & He1); [by eapply gate_step_inv|done..|].
  destruct (begins_guarded st l st1 u q1 parts false Hi Hs1 Hu1 He1) as [Hold|[[Ha _]|]]; [done| |done].
  by destruct (in_multi_active st t pc Hi Ht Hm).
Qed.
End invariant.

(** ** Nobody waits for ever, unless somebody waits for a value *)
Section progress.
Context `{Hashing} (store : StoreRouting) (mode : TransactionMode) (Hcount : valid_count (sr_shard_count store)).
Implicit Types (st : GState) (t u : nat) (pc : PC).

Definition can_step st : Prop := ∃ t st', gate_step store mode st (Go t) st' ∧ polite st st'.

Definition waits_for pc : option Z :=
  match pc with TAcquire _ _ (g :: _) | CAcquire _ _ (g :: _) => Some g | _ => None end.

#[export] Instance waits_to_write_dec pc g : Decision (waits_to_write pc g).
Proof. destruct pc as [| | | | | | | |? ? []| | | |]; cbn; apply _. Defined.

(** A thread with a decidable property, or none. *)
Lemma find_thread st (P : PC → Prop) `{!∀ pc, Decision (P pc)} :
  (∃ u q, g_pcs st !! u = Some q ∧ P q) ∨ (∀ u q, g_pcs st !! u = Some q → ¬ P q).
Proof.
  destruct (decide (Exists (λ e, P e.2) (map_to_list (g_pcs st)))) as [Hx|Hx].
  - left. apply Exists_exists in Hx as ([u q] & Hu & Hx). apply elem_of_map_to_list in Hu. by exists u, q.
  - right. intros u q Hu Hq. apply Hx, Exists_exists. exists (u, q). by rewrite elem_of_map_to_list.
Qed.

(** A step of a thread that is not a waiting reader overtakes nobody. *)
Lemma polite_move st st' t pc pc' :
  g_pcs st' = <[t := pc']> (g_pcs st) → g_pcs st !! t = Some pc → (∀ g, ¬ waits_to_read pc g) → polite st st'.
Proof.
  intros E Ht Hn u q g Hu Hw Hne. destruct (decide (u = t)) as [->|Hut].
  - rewrite Ht in Hu. simplify_eq. by destruct (Hn g).
  - by rewrite E, lookup_insert_ne in Hne.
Qed.

Ltac polite_step := do 2 eexists; split; [econstructor; done|
  eapply polite_move; [reflexivity|done|intros g' Hg'; exact Hg']].

(** Whoever is not finished and waits neither for a gate nor for a value can go on. *)
Lemma step_unless_waiting st t pc :
  gate_inv store st → g_pcs st !! t = Some pc → finished pc = false → waiting pc = false → waits_for pc = None → can_step st.
Proof.
  intros Hi Ht Hf Hv Hw. pose proof (gi_pcs _ _ Hi t pc Ht) as Hok. unfold can_step.
  destruct pc as [parts|parts held [|g todo]|parts guarded held|parts guarded held|[|g held]| |cmds|cmds|cmds held [|g todo]
    |cmds held [|parts rest]|cmds held rest|[|g held]|]; cbn in Hf, Hv, Hw, Hok; try done; try polite_step.
  destruct Hok as [_ [s Es]]. destruct (decide (g_active st = 0%Z)); polite_step.
Qed.

(** The gates a thread holds are below the one it waits for. *)
Lemma waiting_sorted st t pc g g' :
  gate_inv store st → g_pcs st !! t = Some pc → waits_for pc = Some g →
  (g < sr_shard_count store)%Z ∧ (g' ∈ write_held pc ∨ g' ∈ read_held pc → (g' < g)%Z).
Proof.
  intros Hi Ht Hw. pose proof (gi_pcs _ _ Hi t pc Ht) as Hok.
  assert (∀ held todo, gates_ok (sr_shard_count store) (held ++ g :: todo) →
    (g < sr_shard_count store)%Z ∧ (g' ∈ held → (g' < g)%Z)) as Hgen.
  { intros held todo [Hs Hr]. split.
    - rewrite Forall_forall in Hr. destruct (Hr g); [set_solver|lia].
    - intros Hg. apply StronglySorted_app in Hs as (Hlt & _ & _). by apply Hlt; [|left]. }
  destruct pc as [|parts held [|h todo]| | | | | | |cmds held [|h todo]| | | |]; try done; cbn in Hok, Hw; simplify_eq.
  - destruct Hok as [Hr Es]. destruct (Hgen held todo) as [H1 H2]; [by eapply routable_ok|]. split; [done|].
    cbn [write_held read_held]. intros [Hg|Hg]; [set_solver|by apply H2].
  - destruct Hok as [Hr Es]. assert (Forall (Forall all_bytes) cmds) as Hb by (eapply Forall_impl; [exact Hr|]; by intros p []).
    destruct (Hgen held todo) as [H1 H2]; [by eapply transaction_shards_ok|]. split; [done|].
    cbn [write_held read_held]. intros [Hg|Hg]; [by apply H2|set_solver].
Qed.

(** Following the holder of the gate a thread waits for leads to higher and
    higher gates, and so to a thread that can go on. *)
Lemma waiting_progress st : gate_inv store st → (∀ t pc, g_pcs st !! t = Some pc → waiting pc = false) → ∀ m t pc g,
  g_pcs st !! t = Some pc → waits_for pc = Some g → (sr_shard_count store - g ≤ Z.of_nat m)%Z → can_step st.
Proof.
  intros Hi Hnw. induction m as [|m IH]; intros t pc g Ht Hw Hm.
  { destruct (waiting_sorted st t pc g 0 Hi Ht Hw). lia. }
  assert (∀ u q, g_pcs st !! u = Some q → g ∈ write_held q ∨ g ∈ read_held q → can_step st) as Hholder.
  { intros u q Hu Hg. destruct (waits_for q) as [g'|] eqn:Eq.
    - destruct (waiting_sorted st u q g' g Hi Hu Eq) as [_ Hlt]. specialize (Hlt Hg). eapply IH; [done..|lia].
    - eapply step_unless_waiting; [done..| |by eapply Hnw|done]. destruct q; try done; cbn in Hg; set_solver. }
  destruct (find_thread st (λ q, g ∈ write_held q ∨ g ∈ read_held q)) as [(u & q & Hu & Hg)|Hfree];
    [by eapply Hholder|].
  assert (gate_free st g) as Hgate by (intros u q Hu; specialize (Hfree u q Hu); naive_solver).
  assert (∀ u q, g_pcs st !! u = Some q → waits_to_write q g → can_step st) as Hwriter.
  { intros u q Hu Hq. destruct q as [| | | | | | | |cmds held [|h todo]| | | |]; try done. cbn in Hq. subst h.
    do 2 eexists. split; [by eapply gs_write|]. eapply polite_move; [reflexivity|exact Hu|intros g' Hg'; exact Hg']. }
  destruct (find_thread st (λ q, waits_to_write q g)) as [(u & q & Hu & Hq)|Hnone]; [by eapply Hwriter|].
  destruct pc as [|parts held [|h todo]| | | | | | |cmds held [|h todo]| | | |]; try done; cbn in Hw; simplify_eq.
  - do 2 eexists. split; [eapply gs_read; [done|]; intros u q Hu; by apply (Hgate u q Hu)|].
    intros u q g' Hu Hq Hne v q' Hv Hwv. destruct (decide (u = t)) as [->|Hut].
    + rewrite Ht in Hu. simplify_eq. cbn in Hq. subst g'. by eapply Hnone.
    + cbn in Hne. by rewrite lookup_insert_ne in Hne.
  - by eapply Hwriter.
Qed.

Lemma gates_progress st t pc :
  gate_inv store st → (∀ t pc, g_pcs st !! t = Some pc → waiting pc = false) →
  g_pcs st !! t = Some pc → finished pc = false → can_step st.
Proof.
  intros Hi Hnw Ht Hf. destruct (waits_for pc) as [g|] eqn:Ew; [|by eapply step_unless_waiting; eauto].
  eapply (waiting_progress st Hi Hnw (Z.to_nat (sr_shard_count store - g))); [done..|lia].
Qed.

(** ** Every step brings its thread nearer to its end *)
Definition command_gates (parts : list Bytes) : nat := length (default [] (command_shards store parts)).
Definition transaction_gates (cmds : list (list Bytes)) : nat :=
  length (default [] (transaction_shards store cmds)).

Definition rank pc : nat :=
  match pc with
  | CEnter parts => 2 * command_gates parts + 5
  | CAcquire _ held todo => length held + 2 * length todo + 4
  | CRun _ _ held | CWait _ _ held => length held + 3
  | CRelease held => length held + 1
  | CDone => 0
  | TMulti cmds => 2 * transaction_gates cmds + length cmds + 6
  | TExec cmds => 2 * transaction_gates cmds + length cmds + 5
  | TAcquire cmds held todo => length held + 2 * length todo + length cmds + 4
  | TRun _ held rest | TWait _ held rest => length held + length rest + 3
  | TRelease held => length held + 1
  | TDone => 0
  end.

Definition total_rank st : nat := sum_list (rank <$> (map_to_list (g_pcs st)).*2).

Lemma total_rank_move st a t pc pc' :
  g_pcs st !! t = Some pc →
  total_rank (mkGState a (<[t := pc']> (g_pcs st))) + rank pc = total_rank st + rank pc'.
Proof.
  intros Ht. unfold total_rank. cbn [g_pcs].
  assert (∀ (m : gmap nat PC) q, m !! t = None →
    sum_list (rank <$> (map_to_list (<[t := q]> m)).*2) = rank q + sum_list (rank <$> (map_to_list m).*2)) as Hi.
  { intros m q Hm. rewrite (map_to_list_insert m t q Hm). done. }
  rewrite <-(insert_delete_id (g_pcs st) t pc Ht) at 2. rewrite <-insert_delete_eq.
  rewrite !Hi by apply lookup_delete_eq. lia.
Qed.

Lemma gate_step_rank st t st' : gate_step store mode st (Go t) st' → total_rank st' < total_rank st.
Proof.
  intros Hs. inversion Hs; subst;
    match goal with Ht : g_pcs ?s !! ?t = Some ?pc |- total_rank (move ?s' _ ?pc') < _ =>
      pose proof (total_rank_move s (g_active s') t pc pc' Ht) as Hr
    end; unfold move, set_active in *; cbn [rank g_active g_pcs] in *;
    unfold command_gates, transaction_gates in *;
    repeat match goal with E : _ = Some ?x |- _ => rewrite E in Hr end;
    cbn [default length id] in Hr; rewrite ?length_app in Hr; cbn [length] in Hr; lia.
Qed.

Definition all_finished st : Prop := ∀ t pc, g_pcs st !! t = Some pc → finished pc = true.

Lemma go_not_waiting st t st' :
  gate_step store mode st (Go t) st' → (∀ u pc, g_pcs st !! u = Some pc → waiting pc = false) →
  ∀ u pc, g_pcs st' !! u = Some pc → waiting pc = false.
Proof.
  intros Hs Hn u pc. inversion Hs; subst; cbn [move set_active g_pcs];
    intros [[<- <-]|[_ Hu]]%lookup_insert_Some; try done; eauto.
Qed.

(** From any state in which the invariant holds and nobody waits for a value
    the threads run to their end. *)
Lemma gates_finish : ∀ st, gate_inv store st → (∀ t pc, g_pcs st !! t = Some pc → waiting pc = false) →
  ∃ st', polite_steps store mode is_go st st' ∧ all_finished st'.
Proof.
  assert (∀ m st, total_rank st ≤ m → gate_inv store st → (∀ t pc, g_pcs st !! t = Some pc → waiting pc = false) →
    ∃ st', polite_steps store mode is_go st st' ∧ all_finished st') as Hm; [|intros st; by apply (Hm (total_rank st))].
  induction m as [|m IH]; intros st Hle Hi Hnw;
    (destruct (find_thread st (λ q, finished q = false)) as [(t & pc & Ht & Hf)|Hn];
      [|exists st; split; [constructor|]; intros t pc Ht; by apply not_false_iff_true, (Hn t)]);
    destruct (gates_progress st t pc Hi Hnw Ht Hf) as (t' & st1 & Hs & Hp);
    pose proof (gate_step_rank st t' st1 Hs); [lia|].
  destruct (IH st1) as (st' & Hr & Hfin); [lia|by eapply gate_step_inv|by eapply go_not_waiting|].
  exists st'. split; [by econstructor|done].
Qed.
End progress.

(** ** What a waiting command does to its shard *)
Section stuck.
Context `{Hashing} (store : StoreRouting) (mode : TransactionMode).
Implicit Types (st : GState) (t u v : nat) (pc : PC) (l : Label).

(** A thread waits for a value with the gate held: for writing, or for reading
    while a transaction waits for the gate. *)
Definition gate_shut st t g : Prop :=
  (∃ cmds held rest, g_pcs st !! t = Some (TWait cmds held rest) ∧ g ∈ held) ∨
  (∃ parts guarded held u pc, g_pcs st !! t = Some (CWait parts guarded held) ∧ g ∈ held ∧
     g_pcs st !! u = Some pc ∧ waits_to_write pc g).

(** A command that needs the gate has not begun. *)
Definition not_begun g parts pc : Prop :=
  pc = CEnter parts ∨ ∃ held todo, pc = CAcquire parts held todo ∧ g ∈ todo.

Definition not_resumed t l : Prop := l ≠ Resume t.

Lemma waits_in_multi pc g : waits_to_write pc g → in_multi pc = true.
Proof. by destruct pc as [| | | | | | | |? ? []| | | |]. Qed.

Lemma shut_active st t g : gate_inv store st → gate_shut st t g → g_active st ≠ 0%Z.
Proof.
  intros Hi [(cmds & held & rest & Ht & _)|(parts & guarded & held & u & pc & _ & _ & Hu & Hw)];
    eapply in_multi_active; try done. by eapply waits_in_multi.
Qed.

(** Nobody can take a shut gate. *)
Lemma shut_not_free st t g : gate_shut st t g → ¬ gate_free st g.
Proof.
  intros [(cmds & held & rest & Ht & Hg)|(parts & guarded & held & u & pc & Ht & Hg & _)] Hf;
    by destruct (Hf t _ Ht).
Qed.

Lemma shut_reader st st' t g x parts held todo pc' :
  gate_shut st t g → g_pcs st !! x = Some (CAcquire parts held (g :: todo)) → no_writer st g → polite st st' →
  g_pcs st' !! x = Some pc' → pc' = CAcquire parts held (g :: todo).
Proof.
  intros [(cmds & h & rest & Ht & Hg)|(ps & guarded & h & u & pc & Ht & Hg & Hu & Hw)] Hx Hn Hp Hx'.
  - by destruct (Hn t _ Ht).
  - destruct (decide (g_pcs st' !! x = Some (CAcquire parts held (g :: todo)))) as [E|E]; [congruence|].
    by destruct (Hp x _ g Hx eq_refl E u pc Hu).
Qed.

Ltac moved x Hx := match type of Hx with <[?t := _]> _ !! _ = _ => destruct (decide (x = t)) as [->|?];
  [rewrite lookup_insert_eq in Hx|rewrite lookup_insert_ne in Hx by done] end.

Lemma shut_step st l st' t g :
  gate_shut st t g → gate_step store mode st l st' → not_resumed t l → gate_shut st' t g.
Proof.
  intros Hsh Hs Hl. pose proof (shut_not_free st t g Hsh) as Hnf.
  destruct Hsh as [(cmds & held & rest & Ht & Hg)|(parts & guarded & held & u & pc & Ht & Hg & Hu & Hw)].
  - left. exists cmds, held, rest. split; [|done].
    destruct Hs; cbn [move set_active g_pcs]; rewrite lookup_insert_ne; try done; intros ->; by simplify_eq.
  - right. exists parts, guarded, held, u, pc.
    assert (g_pcs st' !! t = Some (CWait parts guarded held)) as Ht'.
    { destruct Hs; cbn [move set_active g_pcs]; rewrite lookup_insert_ne; try done; intros ->; by simplify_eq. }
    split; [done|]. split; [done|]. split; [|done].
    destruct Hs; cbn [move set_active g_pcs]; rewrite lookup_insert_ne; try done; intros ->; simplify_eq;
      by destruct Hw.
Qed.

Lemma not_begun_step st l st' t g v parts s pc :
  gate_inv store st → gate_shut st t g → gate_step store mode st l st' → polite st st' →
  command_shards store parts = Some s → g ∈ s →
  g_pcs st !! v = Some pc → not_begun g parts pc → ∃ pc', g_pcs st' !! v = Some pc' ∧ not_begun g parts pc'.
Proof.
  intros Hi Hsh Hs Hp Es Hg Hv Hb. pose proof (shut_active st t g Hi Hsh) as Ha.
  destruct (g_pcs st' !! v) as [pc'|] eqn:Hv'.
  2:{ destruct Hs; cbn [move set_active g_pcs] in Hv'; apply lookup_insert_None in Hv' as [? _]; congruence. }
  exists pc'. split; [done|]. destruct (decide (pc' = pc)) as [->|Hne]; [done|].
  pose proof (λ held todo, shut_reader st st' t g v parts held todo pc' Hsh) as Hrd.
  destruct Hs; pose proof Hv' as Hm; cbn [move set_active g_pcs] in Hm;
    (apply lookup_insert_Some in Hm as [[<- <-]|[_ Hm]]; [|by simplify_eq]);
    destruct Hb as [->|(held' & todo' & -> & Hg')]; simplify_eq.
  - right. by exists [], shards.
  - right. destruct (decide (g0 = g)) as [->|?]; [by destruct Hne; eapply Hrd|].
    eexists _, todo. split; [done|]. set_solver.
  - set_solver.
Qed.

(** As long as the waiting thread is not served, no command that needs the
    gate begins, whatever else happens. *)
Lemma shut_stays st st' t g :
  gate_inv store st → gate_shut st t g → polite_steps store mode (not_resumed t) st st' →
  gate_shut st' t g ∧
  ∀ v parts s, g_pcs st !! v = Some (CEnter parts) → command_shards store parts = Some s → g ∈ s →
    ∃ pc, g_pcs st' !! v = Some pc ∧ not_begun g parts pc.
Proof.
  intros Hi Hsh Hs.
  assert (gate_shut st' t g ∧ ∀ v parts s pc, command_shards store parts = Some s → g ∈ s →
    g_pcs st !! v = Some pc → not_begun g parts pc → ∃ pc', g_pcs st' !! v = Some pc' ∧ not_begun g parts pc') as [H1 H2].
  { induction Hs as [st|st l st1 st2 Hs1 Hl Hp _ IH]; [eauto|].
    destruct IH as [H1 H2]; [by eapply gate_step_inv|by eapply shut_step|]. split; [done|].
    intros v parts s pc Es Hg Hv Hb. destruct (not_begun_step st l st1 t g v parts s pc) as (pc1 & Hv1 & Hb1); eauto. }
  split; [done|]. intros v parts s Hv Es Hg. apply (H2 v parts s (CEnter parts)); [done..|]. by left.
Qed.
End stuck.
