(* ===== verification/Wal.v ===== *)
(** * The write-ahead log: record codec

    [storage/records.rs] and the codec of [persistence/wal.rs]: framed records
    ([encode_frame], [WalFrameCursor]) whose payload is a legacy record
    ([encode_legacy], [LegacyRecordCursor]), optionally compressed.  The
    checksum ([crc32fast]) and the compressor ([lz4_flex]) are classes.  The
    decoding loops have fuel, one more than the bytes. *)

From S2P Require Import Prelude Helpers Codec.

(** [crc32fast::hash]: a [u32] of the bytes. *)
Class Crc32 := {
  crc32 : Bytes → Z;
  crc32_range : ∀ b, (0 ≤ crc32 b ≤ u32_MAX)%Z;
}.

(** [lz4_flex]: decompression inverts compression. *)
Class Lz4 := {
  compress_prepend_size : Bytes → Bytes;
  decompress_size_prepended : Bytes → option Bytes;
  decompress_compress : ∀ b, decompress_size_prepended (compress_prepend_size b) = Some b;
}.

(** ** Records *)
Inductive MutationOp := OpSet | OpDel | OpExpire.

#[export] Instance mutation_op_eq_dec : EqDecision MutationOp.
Proof. solve_decision. Defined.

Record MutationRecord := mkRecord {
  rec_shard_id : nat;
  rec_sequence : Z;
  rec_timestamp_ms : Z;
  rec_op : MutationOp;
  rec_key : Bytes;
  rec_value : Bytes;
  rec_expire_at_ms : option Z;
  rec_governance : option Bytes;
}.

(** [ShardCacheError::Persistence(message)], one constructor per message. *)
Inductive WalError :=
  | UnsupportedOp (b : Z)
  | TrailingBytes
  | TruncatedPayload
  | InvalidCompressed.

Definition WAL_FRAME_MAGIC : Bytes := [70; 67; 87; 50]%Z.
Definition WAL_FLAG_COMPRESSED : Z := 1%Z.
Definition WAL_FRAME_HEADER_LEN : nat := 9.
Definition WAL_CRC_LEN : nat := 4.
Definition LEGACY_RECORD_HEADER_TAIL_LEN : nat := 24.

Abbreviation WalDec A := (Outcome WalError A).

(** ** Encoding *)

Definition encode_op (record : MutationRecord) : Z :=
  match rec_op record, rec_governance record with
  | OpSet, Some _ => 4
  | OpSet, None => 1
  | OpDel, _ => 2
  | OpExpire, _ => 3
  end%Z.

Definition decode_op (value : Z) : WalDec MutationOp :=
  if ((value =? 1) || (value =? 4))%Z then Done OpSet
  else if (value =? 2)%Z then Done OpDel
  else if (value =? 3)%Z then Done OpExpire
  else Err (UnsupportedOp value).

Section codec.
Context `{Crc32, Lz4}.

(** The record before its checksum. *)
Definition legacy_body (record : MutationRecord) : Bytes :=
  encode_op record ::
  to_le 4 (usize_as_u32 (length (rec_key record))) ++
  to_le 4 (usize_as_u32 (length (rec_value record))) ++
  to_le 8 (rec_timestamp_ms record) ++
  to_le 8 (wrap_u64 (match rec_expire_at_ms record with
                     | Some value => wrap_i64 value | None => -1 end)%Z) ++
  rec_key record ++ rec_value record ++
  match rec_governance record with
  | Some governance => to_le 4 (usize_as_u32 (length governance)) ++ governance
  | None => []
  end.

Definition encode_legacy (record : MutationRecord) : Bytes :=
  let bytes := legacy_body record in bytes ++ to_le 4 (crc32 bytes).

(** [EncodedFramePayload::from_raw]: flags and bytes. *)
Definition compressed_when_smaller (raw : Bytes) : Z * Bytes :=
  let compressed := compress_prepend_size raw in
  if length compressed <? length raw then (WAL_FLAG_COMPRESSED, compressed) else (0%Z, raw).

Definition from_raw (raw : Bytes) (compress : bool) : Z * Bytes :=
  if compress then compressed_when_smaller raw else (0%Z, raw).

(** A frame around a payload. *)
Definition frame_bytes (flags : Z) (payload : Bytes) : Bytes :=
  let bytes := WAL_FRAME_MAGIC ++ flags :: to_le 4 (usize_as_u32 (length payload)) ++ payload in
  bytes ++ to_le 4 (crc32 bytes).

Definition encode_frame (record : MutationRecord) (compress : bool) : Bytes :=
  let '(flags, bytes) := from_raw (encode_legacy record) compress in frame_bytes flags bytes.

(** ** Decoding *)

Definition read_u32_at (bytes : Bytes) (cursor : nat) : WalDec Z :=
  from_le <$> or_panic (slice cursor (cursor + 4) bytes).

Definition read_u64_at (bytes : Bytes) (cursor : nat) : WalDec Z :=
  from_le <$> or_panic (slice cursor (cursor + 8) bytes).

Definition read_i64_at (bytes : Bytes) (cursor : nat) : WalDec Z :=
  (λ b, wrap_i64 (from_le b)) <$> or_panic (slice cursor (cursor + 8) bytes).

(** *** Legacy records *)

Record LegacyRecordHeader := mkLegacyHeader {
  op_byte : Z;
  key_len : nat;
  value_len : nat;
  timestamp_ms : Z;
  expire_raw : Z;
}.

Definition has_governance (h : LegacyRecordHeader) : bool := (op_byte h =? 4)%Z.

Definition expire_at_ms (h : LegacyRecordHeader) : option Z :=
  if (expire_raw h <? 0)%Z then None else Some (expire_raw h).

(** [usize::from(has_governance) * 4]. *)
Definition governance_prefix (h : LegacyRecordHeader) : nat := if has_governance h then 4 else 0.

(** [LegacyRecordCursor::read_header]: the header and the cursor behind it. *)
Definition legacy_read_header (bytes : Bytes) (cursor : nat) : WalDec (LegacyRecordHeader * nat) :=
  match bytes !! cursor with
  | Some op =>
      if length bytes - (cursor + 1) <? LEGACY_RECORD_HEADER_TAIL_LEN then Incomplete
      else
        let cursor := cursor + 1 in
        key_len ← read_u32_at bytes cursor;
        let cursor := cursor + 4 in
        value_len ← read_u32_at bytes cursor;
        let cursor := cursor + 4 in
        timestamp ← read_u64_at bytes cursor;
        let cursor := cursor + 8 in
        expire ← read_i64_at bytes cursor;
        Done (mkLegacyHeader op (Z.to_nat key_len) (Z.to_nat value_len) timestamp expire, cursor + 8)
  | None => Incomplete
  end.

Definition build_record (owner : Bytes) (h : LegacyRecordHeader)
    (key_start key_end value_start value_end governance_start governance_end : nat)
    : WalDec MutationRecord :=
  op ← decode_op (op_byte h);
  key ← or_panic (slice key_start key_end owner);
  value ← or_panic (slice value_start value_end owner);
  governance ← (if has_governance h
                then Some <$> or_panic (slice governance_start governance_end owner)
                else Done None);
  Done (mkRecord 0 0 (timestamp_ms h) op key value (expire_at_ms h) governance).

(** A complete body whose checksum does not match ends the log ([Ok(None)]). *)
Definition read_complete_body (owner : Bytes) (cursor record_start : nat) (h : LegacyRecordHeader)
    (governance_len : nat) : WalDec (MutationRecord * nat) :=
  let key_start := cursor in
  let key_end := key_start + key_len h in
  let value_start := key_end in
  let value_end := value_start + value_len h in
  let governance_start := value_end + governance_prefix h in
  let governance_end := governance_start + governance_len in
  let cursor := governance_end in
  expected_crc ← read_u32_at owner cursor;
  covered ← or_panic (slice record_start cursor owner);
  let cursor := cursor + WAL_CRC_LEN in
  if (expected_crc =? crc32 covered)%Z
  then record ← build_record owner h key_start key_end value_start value_end
                  governance_start governance_end;
       Done (record, cursor)
  else Incomplete.

Definition read_body (owner : Bytes) (cursor record_start : nat) (h : LegacyRecordHeader)
    : WalDec (MutationRecord * nat) :=
  let minimum_body_len := key_len h + value_len h + governance_prefix h + WAL_CRC_LEN in
  if length owner - cursor <? minimum_body_len then Incomplete
  else
    governance_len ← (if has_governance h
                      then read_u32_at owner (cursor + key_len h + value_len h)
                      else Done 0%Z);
    let body_len := minimum_body_len + Z.to_nat governance_len in
    if length owner - cursor <? body_len then Incomplete
    else read_complete_body owner cursor record_start h (Z.to_nat governance_len).

(** [LegacyRecordCursor::next_record]. *)
Definition next_record (owner : Bytes) (cursor : nat) : WalDec (MutationRecord * nat) :=
  '(h, after) ← legacy_read_header owner cursor;
  read_body owner after cursor h.

Definition decode_single_legacy_record (bytes : Bytes) : WalDec MutationRecord :=
  match next_record bytes 0 with
  | Done (record, cursor) => if cursor =? length bytes then Done record else Err TrailingBytes
  | Incomplete => Err TruncatedPayload
  | Err e => Err e
  | Panic => Panic
  end.

(** *** Frames *)

Record WalFrameHeader := mkFrameHeader { frame_start : nat; frame_flags : Z; payload_len : nat }.

(** [WalFrameCursor::read_header]. *)
Definition frame_read_header (bytes : Bytes) (cursor : nat) : WalDec (WalFrameHeader * nat) :=
  if length bytes - cursor <? WAL_FRAME_HEADER_LEN then Incomplete
  else
    magic ← or_panic (slice cursor (cursor + length WAL_FRAME_MAGIC) bytes);
    if bytes_eqb magic WAL_FRAME_MAGIC then
      let start := cursor in
      let cursor := cursor + length WAL_FRAME_MAGIC in
      flags ← or_panic (bytes !! cursor);
      let cursor := cursor + 1 in
      len ← read_u32_at bytes cursor;
      Done (mkFrameHeader start flags (Z.to_nat len), cursor + 4)
    else Incomplete.

Definition decode_payload (flags : Z) (payload : Bytes) : WalDec Bytes :=
  if negb (Z.land flags WAL_FLAG_COMPRESSED =? 0)%Z
  then ok_or (decompress_size_prepended payload) InvalidCompressed
  else Done payload.

Definition read_complete_payload (bytes : Bytes) (cursor : nat) (h : WalFrameHeader)
    : WalDec (Bytes * nat) :=
  let payload_start := cursor in
  let payload_end := payload_start + payload_len h in
  payload ← or_panic (slice payload_start payload_end bytes);
  let cursor := payload_end in
  expected_crc ← read_u32_at bytes cursor;
  covered ← or_panic (slice (frame_start h) cursor bytes);
  let cursor := cursor + WAL_CRC_LEN in
  if (expected_crc =? crc32 covered)%Z
  then raw ← decode_payload (frame_flags h) payload; Done (raw, cursor)
  else Incomplete.

Definition read_payload (bytes : Bytes) (cursor : nat) (h : WalFrameHeader) : WalDec (Bytes * nat) :=
  if length bytes - cursor <? payload_len h + WAL_CRC_LEN then Incomplete
  else read_complete_payload bytes cursor h.

(** [WalFrameCursor::next_payload]. *)
Definition next_payload (bytes : Bytes) (cursor : nat) : WalDec (Bytes * nat) :=
  '(h, after) ← frame_read_header bytes cursor;
  read_payload bytes after h.

(** ** Logs *)

(** [while let Some(raw) = cursor.next_payload()?]: [Ok(None)] ends the log. *)
Fixpoint decode_framed_records (fuel : nat) (bytes : Bytes) (cursor : nat)
    : WalDec (list MutationRecord) :=
  match fuel with
  | O => Panic
  | S fuel' =>
      match next_payload bytes cursor with
      | Done (raw, cursor') =>
          record ← decode_single_legacy_record raw;
          records ← decode_framed_records fuel' bytes cursor';
          Done (record :: records)
      | Incomplete => Done []
      | Err e => Err e
      | Panic => Panic
      end
  end.

Fixpoint decode_legacy_records (fuel : nat) (bytes : Bytes) (cursor : nat)
    : WalDec (list MutationRecord) :=
  match fuel with
  | O => Panic
  | S fuel' =>
      match next_record bytes cursor with
      | Done (record, cursor') =>
          records ← decode_legacy_records fuel' bytes cursor';
          Done (record :: records)
      | Incomplete => Done []
      | Err e => Err e
      | Panic => Panic
      end
  end.

(** [WalRecordFormat::detect]. *)
Definition detect_framed (bytes : Bytes) : bool :=
  bytes_eqb (take (length WAL_FRAME_MAGIC) bytes) WAL_FRAME_MAGIC.

Definition decode_records (bytes : Bytes) : WalDec (list MutationRecord) :=
  let fuel := S (length bytes) in
  if detect_framed bytes then decode_framed_records fuel bytes 0
  else decode_legacy_records fuel bytes 0.
End codec.

(** ** Executable instances *)
Module ConcreteWal.

(** The CRC-32 of [crc32fast] (reflected polynomial [0xEDB88320]). *)
Fixpoint crc_bits (n : nat) (c : Z) : Z :=
  match n with
  | O => c
  | S n' => crc_bits n' (if Z.odd c then Z.lxor (Z.shiftr c 1) 3988292384 else Z.shiftr c 1)
  end.

Definition crc_bytes (b : Bytes) : Z :=
  Z.land (Z.lxor (foldl (λ c x, crc_bits 8 (Z.lxor c x)) u32_MAX b) u32_MAX) u32_MAX.

#[export, refine] Instance crc32_instance : Crc32 := {| crc32 := crc_bytes |}.
Proof.
  intros b. unfold crc_bytes, u32_MAX. change 4294967295%Z with (Z.ones 32).
  rewrite (Z.land_ones _ 32) by lia. pose proof (Z.mod_pos_bound
    (Z.lxor (foldl (λ c x, crc_bits 8 (Z.lxor c x)) (Z.ones 32) b) (Z.ones 32)) (2 ^ 32)
    ltac:(lia)) as Hm.
  change (Z.ones 32) with (2 ^ 32 - 1)%Z in *. lia.
Defined.

(** Runs of one byte as a count and the byte; anything else stored. *)
Definition rle (b : Bytes) : Bytes :=
  match b with
  | x :: _ =>
      if bool_decide (b = replicate (length b) x) && (length b <? 256)
      then [1; Z.of_nat (length b); x]%Z else 0%Z :: b
  | [] => [0%Z]
  end.

Definition unrle (b : Bytes) : option Bytes :=
  match b with
  | [] => None
  | t :: r =>
      if (t =? 0)%Z then Some r
      else match r with [n; x] => Some (replicate (Z.to_nat n) x) | _ => None end
  end.

#[export, refine] Instance lz4_instance : Lz4 := {|
  compress_prepend_size := rle;
  decompress_size_prepended := unrle;
|}.
Proof.
  intros [|x b]; [done|]. unfold rle. destruct (_ && _) eqn:E; [|done]. bool_case.
  cbn -[Z.of_nat Z.to_nat]. rewrite Nat2Z.id. by f_equal.
Defined.
End ConcreteWal.

(** * Round trips of the log codec

    A record through its encoding, a log of frames, and a log whose last frame
    was not completely written. *)

Section wal.
Context `{Crc32, Lz4}.

(** Records the log can hold: fields within their widths, governance on
    [Set] only, a deadline below 2^63. *)
Record rec_ok (r : MutationRecord) : Prop := mkRecOk {
  ok_timestamp : is_u64 (rec_timestamp_ms r);
  ok_expire : ∀ e, rec_expire_at_ms r = Some e → (0 ≤ e ≤ i64_MAX)%Z;
  ok_governance : is_Some (rec_governance r) → rec_op r = OpSet;
  ok_size : (Z.of_nat (length (encode_legacy r)) ≤ u32_MAX)%Z;
}.

(** What a log keeps of a record. *)
Definition stripped (r : MutationRecord) : MutationRecord :=
  mkRecord 0 0 (rec_timestamp_ms r) (rec_op r) (rec_key r) (rec_value r) (rec_expire_at_ms r)
    (rec_governance r).

(** The governance suffix of a body. *)
Definition governance_bytes (r : MutationRecord) : Bytes :=
  match rec_governance r with
  | Some g => to_le 4 (usize_as_u32 (length g)) ++ g
  | None => []
  end.

Definition expire_field (r : MutationRecord) : Z :=
  wrap_u64 (match rec_expire_at_ms r with Some e => wrap_i64 e | None => -1 end)%Z.

Lemma length_legacy r :
  length (encode_legacy r) =
  25 + length (rec_key r) + length (rec_value r) + length (governance_bytes r) + 4.
Proof.
  unfold encode_legacy, legacy_body, governance_bytes. cbn [app length].
  repeat (rewrite ?length_app; cbn [length]). rewrite !length_to_le. lia.
Qed.

Lemma u64_wrap z : is_u64 (wrap_u64 z).
Proof.
  unfold is_u64, wrap_u64, u64_MAX, two64.
  pose proof (Z.mod_pos_bound z 18446744073709551616 ltac:(lia)). lia.
Qed.

Lemma expire_roundtrip r :
  (∀ e, rec_expire_at_ms r = Some e → (0 ≤ e ≤ i64_MAX)%Z) →
  (if (wrap_i64 (expire_field r) <? 0)%Z then None else Some (wrap_i64 (expire_field r))) =
  rec_expire_at_ms r.
Proof.
  intros He. unfold expire_field. destruct (rec_expire_at_ms r) as [e|].
  - specialize (He e eq_refl). rewrite (wrap_i64_id e) by (unfold is_i64, i64_MIN; lia).
    unfold wrap_u64, two64. rewrite Z.mod_small by (unfold i64_MAX in He; lia).
    rewrite wrap_i64_id by (unfold is_i64, i64_MIN; lia). rewrite (proj2 (Z.ltb_ge _ _)) by lia. done.
  - done.
Qed.

(** ** Reading fields *)
Section fields.
Context (b : Bytes) (c : nat) (Hc : c ≤ length b).

Lemma read_u32_ok n post :
  (Z.of_nat n ≤ u32_MAX)%Z → drop c b = to_le 4 (usize_as_u32 n) ++ post →
  read_u32_at b c = Done (Z.of_nat n).
Proof.
  intros Hn Hd. unfold read_u32_at.
  rewrite (slice_here c b _ post Hd Hc : slice c (c + 4) b = _). cbn.
  f_equal. rewrite from_to_le_u32 by (rewrite usize_as_u32_id; lia). by apply usize_as_u32_id.
Qed.

Lemma read_crc_ok x post :
  drop c b = to_le 4 (crc32 x) ++ post → read_u32_at b c = Done (crc32 x).
Proof.
  intros Hd. unfold read_u32_at.
  rewrite (slice_here c b _ post Hd Hc : slice c (c + 4) b = _). cbn.
  f_equal. apply from_to_le_u32, crc32_range.
Qed.

Lemma read_u64_ok z post :
  is_u64 z → drop c b = to_le 8 z ++ post → read_u64_at b c = Done z.
Proof.
  intros Hz Hd. unfold read_u64_at.
  rewrite (slice_here c b _ post Hd Hc : slice c (c + 8) b = _). cbn.
  f_equal. by apply from_to_le_u64.
Qed.

Lemma read_i64_ok z post :
  is_u64 z → drop c b = to_le 8 z ++ post → read_i64_at b c = Done (wrap_i64 z).
Proof.
  intros Hz Hd. unfold read_i64_at.
  rewrite (slice_here c b _ post Hd Hc : slice c (c + 8) b = _). cbn.
  f_equal. by rewrite from_to_le_u64.
Qed.
End fields.

(** ** A legacy record *)
Definition legacy_header (r : MutationRecord) : LegacyRecordHeader :=
  mkLegacyHeader (encode_op r) (length (rec_key r)) (length (rec_value r)) (rec_timestamp_ms r)
    (wrap_i64 (expire_field r)).

Lemma encode_legacy_layout r :
  encode_legacy r =
  encode_op r :: to_le 4 (usize_as_u32 (length (rec_key r))) ++
  to_le 4 (usize_as_u32 (length (rec_value r))) ++ to_le 8 (rec_timestamp_ms r) ++
  to_le 8 (expire_field r) ++ rec_key r ++ rec_value r ++ governance_bytes r ++
  to_le 4 (crc32 (legacy_body r)).
Proof.
  unfold encode_legacy at 1. unfold legacy_body at 1. rewrite <-app_comm_cons, <-!app_assoc. done.
Qed.

Lemma small_lengths r :
  rec_ok r → (Z.of_nat (length (rec_key r)) ≤ u32_MAX)%Z ∧ (Z.of_nat (length (rec_value r)) ≤ u32_MAX)%Z
  ∧ (Z.of_nat (length (governance_bytes r)) ≤ u32_MAX)%Z.
Proof. intros [_ _ _ Hs]. rewrite length_legacy in Hs. lia. Qed.

Lemma legacy_read_header_ok b c r post :
  rec_ok r → drop c b = encode_legacy r ++ post →
  legacy_read_header b c = Done (legacy_header r, c + 25) ∧ c + 25 ≤ length b ∧
  drop (c + 25) b = rec_key r ++ rec_value r ++ governance_bytes r ++
    to_le 4 (crc32 (legacy_body r)) ++ post.
Proof.
  intros Hr Hd. destruct (small_lengths r Hr) as (Hk & Hv & _).
  pose proof (f_equal length Hd) as Hl. rewrite length_drop, length_app, length_legacy in Hl.
  rewrite encode_legacy_layout, <-app_comm_cons, <-!app_assoc in Hd.
  assert (b !! c = Some (encode_op r)) as Hop.
  { rewrite <-(Nat.add_0_r c), <-lookup_drop, Hd. done. }
  destruct (drop_past c b [encode_op r] _ 1 Hd eq_refl ltac:(lia)) as [Hd1 Hc1].
  destruct (drop_past _ _ _ _ 4 Hd1 (length_to_le _ _) Hc1) as [Hd2 Hc2].
  destruct (drop_past _ _ _ _ 4 Hd2 (length_to_le _ _) Hc2) as [Hd3 Hc3].
  destruct (drop_past _ _ _ _ 8 Hd3 (length_to_le _ _) Hc3) as [Hd4 Hc4].
  destruct (drop_past _ _ _ _ 8 Hd4 (length_to_le _ _) Hc4) as [Hd5 Hc5].
  replace (c + 1 + 4 + 4 + 8 + 8) with (c + 25) in * by lia.
  split_and!; [|done..]. unfold legacy_read_header. rewrite Hop.
  rewrite (proj2 (Nat.ltb_ge _ _)) by (unfold LEGACY_RECORD_HEADER_TAIL_LEN; lia).
  rewrite (read_u32_ok b _ Hc1 _ _ Hk Hd1). cbn [mbind outcome_bind].
  rewrite (read_u32_ok b _ Hc2 _ _ Hv Hd2). cbn [mbind outcome_bind].
  rewrite (read_u64_ok b _ Hc3 _ _ (ok_timestamp r Hr) Hd3). cbn [mbind outcome_bind].
  rewrite (read_i64_ok b _ Hc4 _ _ (u64_wrap _) Hd4). cbn [mbind outcome_bind].
  rewrite !Nat2Z.id. f_equal. apply f_equal2; [done|lia].
Qed.

(** The governance field of the header agrees with the record. *)
Lemma has_governance_ok r :
  rec_ok r → has_governance (legacy_header r) = bool_decide (is_Some (rec_governance r)) ∧
  decode_op (encode_op r) = Done (rec_op r).
Proof.
  intros [_ _ Hg _]. unfold has_governance, legacy_header, encode_op. cbn [op_byte].
  destruct (rec_governance r) as [g|]; [rewrite Hg by eauto; done|].
  by destruct (rec_op r).
Qed.

Definition governance_len (r : MutationRecord) : nat :=
  match rec_governance r with Some g => length g | None => 0 end.

Lemma length_governance r :
  rec_ok r →
  length (governance_bytes r) = governance_prefix (legacy_header r) + governance_len r.
Proof.
  intros Hr. unfold governance_bytes, governance_prefix, governance_len.
  rewrite (proj1 (has_governance_ok r Hr)).
  destruct (rec_governance r) as [g|]; [|done]. by rewrite length_app, length_to_le.
Qed.

(** The body of a record behind its header, at [c]. *)
Section body.
Context (b : Bytes) (c : nat) (r : MutationRecord) (post : Bytes).
Context (Hr : rec_ok r) (Hc : c ≤ length b).
Context (Hd : drop c b = rec_key r ++ rec_value r ++ governance_bytes r ++
  to_le 4 (crc32 (legacy_body r)) ++ post).

#[local] Abbreviation key_end := (c + length (rec_key r)).
#[local] Abbreviation value_end := (key_end + length (rec_value r)).
#[local] Abbreviation body_end := (value_end + length (governance_bytes r)).

Lemma body_positions :
  drop key_end b = rec_value r ++ governance_bytes r ++ to_le 4 (crc32 (legacy_body r)) ++ post ∧
  drop value_end b = governance_bytes r ++ to_le 4 (crc32 (legacy_body r)) ++ post ∧
  drop body_end b = to_le 4 (crc32 (legacy_body r)) ++ post ∧
  key_end ≤ value_end ≤ body_end ∧ body_end + 4 ≤ length b.
Proof.
  destruct (drop_past _ _ _ _ _ Hd eq_refl Hc) as [Hd2 Hc2].
  destruct (drop_past _ _ _ _ _ Hd2 eq_refl Hc2) as [Hd3 Hc3].
  destruct (drop_past _ _ _ _ _ Hd3 eq_refl Hc3) as [Hd4 Hc4].
  destruct (drop_past _ _ _ _ 4 Hd4 (length_to_le _ _) Hc4) as [_ Hc5].
  split_and!; try done; lia.
Qed.

Lemma read_governance_len :
  (if has_governance (legacy_header r) then read_u32_at b value_end else Done 0%Z) =
  Done (Z.of_nat (governance_len r)).
Proof.
  destruct body_positions as (_ & Hd3 & _ & ? & ?). destruct (small_lengths r Hr) as (_ & _ & Hgl).
  rewrite (proj1 (has_governance_ok r Hr)). unfold governance_len, governance_bytes in *.
  destruct (rec_governance r) as [g|]; [|done]. rewrite <-app_assoc in Hd3.
  rewrite length_app in Hgl. by apply (read_u32_ok b value_end ltac:(lia) (length g) _ ltac:(lia) Hd3).
Qed.

Lemma build_record_ok :
  build_record b (legacy_header r) c key_end key_end value_end
    (value_end + governance_prefix (legacy_header r)) body_end = Done (stripped r).
Proof.
  destruct body_positions as (Hd2 & Hd3 & _ & ? & ?).
  destruct (has_governance_ok r Hr) as [Hg Hop].
  unfold build_record. cbn [legacy_header op_byte]. rewrite Hop. cbn [mbind outcome_bind].
  rewrite (slice_here _ _ _ _ Hd Hc). cbn [or_panic mbind outcome_bind].
  rewrite (slice_here _ _ _ _ Hd2) by lia. cbn [or_panic mbind outcome_bind].
  change (mkLegacyHeader _ _ _ _ _) with (legacy_header r).
  replace (if has_governance (legacy_header r) then _ else _) with
    (Done (E := WalError) (rec_governance r)).
  - cbn [mbind outcome_bind]. unfold expire_at_ms. cbn [legacy_header expire_raw timestamp_ms].
    by rewrite expire_roundtrip by apply Hr.
  - pose proof (length_governance r Hr) as Hgb. rewrite Hgb.
    unfold governance_prefix, governance_len, governance_bytes in *. rewrite Hg in *.
    destruct (rec_governance r) as [g|]; [|done]. rewrite bool_decide_eq_true_2 in * by eauto.
    rewrite <-app_assoc in Hd3.
    destruct (drop_past _ _ _ _ 4 Hd3 (length_to_le _ _) ltac:(lia)) as [Hd3' Hc3'].
    rewrite Nat.add_assoc. by rewrite (slice_here _ _ _ _ Hd3' Hc3').
Qed.

Lemma read_body_ok start :
  slice start body_end b = Some (legacy_body r) →
  read_body b c start (legacy_header r) = Done (stripped r, body_end + 4).
Proof.
  intros Hbody. destruct body_positions as (_ & _ & Hd4 & ? & ?).
  pose proof (length_governance r Hr) as Hgb. pose proof read_governance_len as Hrg.
  unfold read_body, WAL_CRC_LEN. cbn [key_len value_len legacy_header].
  change (mkLegacyHeader _ _ _ _ _) with (legacy_header r).
  rewrite (proj2 (Nat.ltb_ge _ _)) by lia.
  rewrite Hrg. cbn [mbind outcome_bind]. rewrite Nat2Z.id.
  rewrite (proj2 (Nat.ltb_ge _ _)) by lia.
  unfold read_complete_body. cbn [key_len value_len legacy_header].
  change (mkLegacyHeader _ _ _ _ _) with (legacy_header r).
  replace (value_end + governance_prefix (legacy_header r) + governance_len r) with body_end by lia.
  rewrite (read_crc_ok b body_end ltac:(lia) _ _ Hd4). cbn [mbind outcome_bind]. rewrite Hbody.
  cbn [or_panic mbind outcome_bind]. by rewrite Z.eqb_refl, build_record_ok.
Qed.
End body.

Lemma next_record_ok b c r post :
  rec_ok r → drop c b = encode_legacy r ++ post →
  next_record b c = Done (stripped r, c + length (encode_legacy r)).
Proof.
  intros Hr Hd. destruct (legacy_read_header_ok b c r post Hr Hd) as (Hh & Hc & Hd1).
  unfold next_record. rewrite Hh. cbn [mbind outcome_bind].
  rewrite (read_body_ok _ _ _ _ Hr Hc Hd1).
  - do 2 f_equal. rewrite length_legacy. lia.
  - unfold encode_legacy in Hd. rewrite <-app_assoc in Hd.
    rewrite <-(slice_here c b _ _ Hd) by lia. f_equal.
    pose proof (length_legacy r) as Hll. unfold encode_legacy in Hll.
    rewrite length_app, length_to_le in Hll. lia.
Qed.

(** ** Frames *)

Lemma length_frame flags payload : length (frame_bytes flags payload) = 13 + length payload.
Proof.
  unfold frame_bytes. rewrite !length_app. cbn [length]. rewrite length_app, !length_to_le.
  change (length WAL_FRAME_MAGIC) with 4. lia.
Qed.

(** The header of a frame, however much of its payload is there. *)
Lemma frame_read_header_ok b c flags (payload rest : Bytes) :
  (Z.of_nat (length payload) ≤ u32_MAX)%Z →
  drop c b = WAL_FRAME_MAGIC ++ flags :: to_le 4 (usize_as_u32 (length payload)) ++ rest →
  frame_read_header b c = Done (mkFrameHeader c flags (length payload), c + 9) ∧
  drop (c + 9) b = rest ∧ c + 9 ≤ length b.
Proof.
  intros Hp Hd. pose proof (f_equal length Hd) as Hl. rewrite length_drop, length_app in Hl.
  cbn [length] in Hl. rewrite length_app, length_to_le in Hl. change (length WAL_FRAME_MAGIC) with 4 in Hl.
  destruct (drop_past _ _ WAL_FRAME_MAGIC _ 4 Hd eq_refl ltac:(lia)) as [Hd1 Hc1].
  destruct (drop_past _ _ [flags] _ 1 Hd1 eq_refl Hc1) as [Hd2 Hc2].
  destruct (drop_past _ _ _ _ 4 Hd2 (length_to_le _ _) Hc2) as [Hd3 Hc3].
  replace (c + 4 + 1 + 4) with (c + 9) in * by lia. split_and!; [|done..].
  unfold frame_read_header, WAL_FRAME_HEADER_LEN. rewrite (proj2 (Nat.ltb_ge _ _)) by lia.
  rewrite (slice_here c b _ _ Hd) by lia. cbn [or_panic mbind outcome_bind].
  rewrite bytes_eqb_refl. change (length WAL_FRAME_MAGIC) with 4.
  replace (b !! (c + 4)) with (Some flags)
    by (symmetry; rewrite <-(Nat.add_0_r (c + 4)), <-lookup_drop, Hd1; done).
  cbn [or_panic mbind outcome_bind]. rewrite (read_u32_ok b _ Hc2 _ _ Hp Hd2).
  cbn [mbind outcome_bind]. rewrite Nat2Z.id. f_equal. apply f_equal2; [done|lia].
Qed.

Lemma next_payload_ok b c flags payload post :
  (Z.of_nat (length payload) ≤ u32_MAX)%Z → drop c b = frame_bytes flags payload ++ post →
  next_payload b c =
  raw ← decode_payload flags payload; Done (raw, c + length (frame_bytes flags payload)).
Proof.
  intros Hp Hd. rewrite length_frame. unfold frame_bytes in Hd.
  set (covered := WAL_FRAME_MAGIC ++ _) in Hd. rewrite <-app_assoc in Hd.
  assert (drop c b = WAL_FRAME_MAGIC ++ flags :: to_le 4 (usize_as_u32 (length payload)) ++
    payload ++ to_le 4 (crc32 covered) ++ post) as Hd0.
  { rewrite Hd. unfold covered at 1. by rewrite <-!app_assoc, <-app_comm_cons, <-!app_assoc. }
  destruct (frame_read_header_ok b c _ _ _ Hp Hd0) as (Hh & Hd1 & Hc1).
  destruct (drop_past _ _ _ _ _ Hd1 eq_refl Hc1) as [Hd2 Hc2].
  destruct (drop_past _ _ _ _ 4 Hd2 (length_to_le _ _) Hc2) as [_ Hc3].
  assert (length covered = 9 + length payload) as Hcl.
  { unfold covered. rewrite length_app. cbn [length]. by rewrite length_app, length_to_le. }
  unfold next_payload. rewrite Hh. cbn [mbind outcome_bind].
  unfold read_payload, WAL_CRC_LEN. cbn [payload_len]. rewrite (proj2 (Nat.ltb_ge _ _)) by lia.
  unfold read_complete_payload. cbn [payload_len frame_start frame_flags].
  rewrite (slice_here _ _ _ _ Hd1 Hc1). cbn [or_panic mbind outcome_bind].
  rewrite (read_crc_ok b _ Hc2 _ _ Hd2). cbn [mbind outcome_bind].
  replace (c + 9 + length payload) with (c + length covered) by lia.
  rewrite (slice_here _ _ _ _ Hd) by lia. cbn [or_panic mbind outcome_bind]. rewrite Z.eqb_refl.
  by replace (c + length covered + WAL_CRC_LEN) with (c + (13 + length payload))
    by (unfold WAL_CRC_LEN; lia).
Qed.

(** The payload chosen by the encoder decodes to the record's bytes. *)
Lemma from_raw_ok raw compress :
  let '(flags, payload) := from_raw raw compress in
  decode_payload flags payload = Done raw ∧ length payload ≤ length raw.
Proof.
  unfold from_raw, compressed_when_smaller. destruct compress; [|done].
  destruct (length (compress_prepend_size raw) <? length raw) eqn:E; [|done]. bool_case.
  split; [|lia]. unfold decode_payload. cbn. by rewrite decompress_compress.
Qed.

Lemma encode_frame_bytes r compress :
  ∃ flags payload, encode_frame r compress = frame_bytes flags payload ∧
    decode_payload flags payload = Done (encode_legacy r) ∧
    length payload ≤ length (encode_legacy r).
Proof.
  unfold encode_frame. pose proof (from_raw_ok (encode_legacy r) compress) as Hf.
  destruct (from_raw _ _) as [flags payload]. by exists flags, payload.
Qed.

Lemma decode_single_ok r : rec_ok r → decode_single_legacy_record (encode_legacy r) = Done (stripped r).
Proof.
  intros Hr. unfold decode_single_legacy_record.
  rewrite (next_record_ok _ 0 r [] Hr) by (by rewrite app_nil_r). simpl. by rewrite Nat.eqb_refl.
Qed.

(** ** Logs *)

Definition log_of (compress : bool) (rs : list MutationRecord) : Bytes :=
  concat (map (λ r, encode_frame r compress) rs).

(** A log followed by something the frame reader takes for its end. *)
Lemma decode_framed_log compress rs fuel b c tail :
  Forall rec_ok rs → drop c b = log_of compress rs ++ tail →
  next_payload b (c + length (log_of compress rs)) = Incomplete →
  length rs < fuel →
  decode_framed_records fuel b c = Done (map stripped rs).
Proof.
  intros Hrs. revert fuel c. induction Hrs as [|r rs Hr _ IH]; intros fuel c Hd Hend Hfuel;
    (destruct fuel as [|fuel]; [simpl in Hfuel; lia|]); cbn [decode_framed_records].
  { simpl in Hend. rewrite Nat.add_0_r in Hend. by rewrite Hend. }
  unfold log_of in *. cbn [map concat] in *. rewrite length_app in Hend. rewrite <-app_assoc in Hd.
  destruct (encode_frame_bytes r compress) as (flags & payload & E & Hdec & Hlen).
  rewrite E in *. pose proof (ok_size r Hr).
  rewrite (next_payload_ok b c flags payload _ ltac:(lia) Hd), Hdec. cbn [mbind outcome_bind].
  rewrite decode_single_ok by done. cbn [mbind outcome_bind].
  rewrite (IH fuel (c + length (frame_bytes flags payload))).
  - done.
  - by rewrite <-drop_drop, Hd, drop_app_length.
  - by rewrite <-Nat.add_assoc.
  - simpl in Hfuel. lia.
Qed.

(** *** The end of a log *)

(** A proper prefix of a frame is taken for the end. *)
Lemma torn_frame_incomplete b c r compress p q :
  rec_ok r → q ≠ [] → encode_frame r compress = p ++ q → drop c b = p → c ≤ length b →
  next_payload b c = Incomplete.
Proof.
  intros Hr Hq Hpq Hd Hc.
  assert (length b = c + length p) as Hl by (apply (f_equal length) in Hd; rewrite length_drop in Hd; lia).
  assert (0 < length q) by (destruct q; simpl; [done|lia]).
  destruct (encode_frame_bytes r compress) as (flags & payload & E & _ & Hlen).
  pose proof (ok_size r Hr) as Hsz. pose proof (length_frame flags payload) as Hfl.
  rewrite <-E, Hpq, length_app in Hfl.
  destruct (decide (length p < 9)).
  { unfold next_payload, frame_read_header, WAL_FRAME_HEADER_LEN.
    by rewrite (proj2 (Nat.ltb_lt _ _)) by lia. }
  assert (∃ rest, p = WAL_FRAME_MAGIC ++ flags :: to_le 4 (usize_as_u32 (length payload)) ++ rest) as [rest Hp].
  { exists (drop 9 p). set (h := WAL_FRAME_MAGIC ++ flags :: to_le 4 (usize_as_u32 (length payload))).
    assert (length h = 9) as Hh by done.
    assert (take 9 p = h) as Ht.
    { rewrite <-(take_app_le p q) by lia. rewrite <-Hpq, E. unfold frame_bytes.
      rewrite <-!app_assoc, <-app_comm_cons, <-!app_assoc.
      rewrite app_comm_cons, app_assoc. fold h. by rewrite take_app_le, <-Hh, firstn_all by lia. }
    rewrite <-(take_drop 9 p) at 1. rewrite Ht. unfold h. by rewrite <-app_assoc, <-app_comm_cons. }
  rewrite Hp in Hd. destruct (frame_read_header_ok b c flags payload rest ltac:(lia) Hd) as (Hh & _ & _).
  unfold next_payload. rewrite Hh. cbn [mbind outcome_bind]. unfold read_payload, WAL_CRC_LEN.
  cbn [payload_len]. by rewrite (proj2 (Nat.ltb_lt _ _)) by lia.
Qed.

Lemma next_payload_end b c : length b ≤ c → next_payload b c = Incomplete.
Proof.
  intros Hc. unfold next_payload, frame_read_header, WAL_FRAME_HEADER_LEN.
  by rewrite (proj2 (Nat.ltb_lt _ _)) by lia.
Qed.

(** *** Whole segments *)

Lemma encode_frame_magic r compress :
  ∃ rest, encode_frame r compress = WAL_FRAME_MAGIC ++ rest ∧ 9 ≤ length rest.
Proof.
  destruct (encode_frame_bytes r compress) as (flags & payload & -> & _ & _).
  pose proof (length_frame flags payload) as Hl. unfold frame_bytes in *.
  rewrite <-app_assoc in *. eexists. split; [done|]. rewrite length_app in Hl.
  change (length WAL_FRAME_MAGIC) with 4 in Hl. lia.
Qed.

Lemma log_length compress rs : length rs ≤ length (log_of compress rs).
Proof.
  induction rs as [|r rs IH]; [done|]. unfold log_of in *. cbn [map concat length].
  rewrite length_app. destruct (encode_frame_magic r compress) as (rest & -> & ?).
  rewrite length_app. lia.
Qed.

(** A segment of complete frames, possibly with a torn frame at its end,
    decodes to the records of the complete frames. *)
Lemma decode_segment compress rs r p q :
  Forall rec_ok rs → rec_ok r → q ≠ [] → encode_frame r compress = p ++ q →
  decode_records (log_of compress rs ++ p) = Done (map stripped rs).
Proof.
  intros Hrs Hr Hq Hpq. set (b := log_of compress rs ++ p).
  assert (next_payload b (0 + length (log_of compress rs)) = Incomplete) as Hend.
  { eapply (torn_frame_incomplete b _ r compress p q); try done.
    - unfold b. simpl. apply drop_app_length.
    - unfold b. rewrite length_app. lia. }
  unfold decode_records. fold b. destruct (detect_framed b) eqn:Ed.
  - eapply (decode_framed_log compress rs); [done|done|done|].
    unfold b. rewrite length_app. pose proof (log_length compress rs). lia.
  - assert (rs = [] ∧ length p < 4) as [-> Hp].
    { unfold detect_framed in Ed. apply bytes_eqb_false in Ed. destruct rs as [|r' rs].
      - split; [done|]. destruct (decide (length p < 4)); [done|]. exfalso. apply Ed.
        unfold b. simpl. destruct (encode_frame_magic r compress) as (rest & E & _).
        change 4 with (length WAL_FRAME_MAGIC).
        rewrite <-(take_app_le p q) by (simpl; lia). by rewrite <-Hpq, E, take_app_length.
      - exfalso. apply Ed. unfold b, log_of. cbn [map concat].
        destruct (encode_frame_magic r' compress) as (rest & -> & _).
        rewrite <-!app_assoc. apply take_app_length. }
    simpl in b. unfold b. destruct p as [|x [|y [|z [|w p]]]]; try done. simpl in Hp. lia.
Qed.

Lemma decode_log compress rs :
  Forall rec_ok rs → decode_records (log_of compress rs) = Done (map stripped rs).
Proof.
  intros Hrs. destruct rs as [|r rs]; [done|].
  rewrite <-(app_nil_r (log_of compress (r :: rs))).
  apply (decode_segment compress (r :: rs) r [] (encode_frame r compress)); [done| | |done].
  - by apply Forall_cons in Hrs as [? _].
  - destruct (encode_frame_magic r compress) as (rest & -> & _). done.
Qed.
End wal.
