(* ===== verification/Snapshot.v ===== *)
(** * Snapshots: the binary codec

    [SnapshotCodec] of [persistence/snapshot.rs] with [StoredEntry] of
    [storage/records.rs]: the encoder, which orders entries by key hash, the
    streaming writer that patches the entry count in at the end, the in-memory
    decoder and the streaming decoder, for format versions 1 and 2. *)

From S2P Require Import Prelude Deps Codec.
From S2P Require Import Helpers.

Record StoredEntry := mkEntry {
  e_key : Bytes;
  e_value : Bytes;
  e_expire_at_ms : option Z;
  e_governance : option Bytes;
}.

#[export] Instance stored_entry_eq_dec : EqDecision StoredEntry.
Proof. solve_decision. Defined.

(** [ShardCacheError::Persistence(message)], one constructor per message. *)
Inductive SnapshotError :=
  | TooLarge (what : string)
  | HeaderTruncated
  | MagicMismatch
  | UnsupportedVersion (v : Z)
  | FieldTruncated (field : string)
  | CountTooLarge
  | EntryHeaderTruncated
  | EntryBodyTruncated
  | StreamRead (what : string)
  | StreamTrailing.

Abbreviation Snap A := (Outcome SnapshotError A).

(** [FCSNAP1\0]. *)
Definition SNAPSHOT_MAGIC : Bytes := [70; 67; 83; 78; 65; 80; 49; 0]%Z.
Definition SNAPSHOT_VERSION_V1 : Z := 1%Z.
Definition SNAPSHOT_VERSION : Z := 2%Z.
Definition SNAPSHOT_HEADER_LEN : nat := 28.
Definition SNAPSHOT_ENTRY_HEADER_V1_LEN : nat := 16.
Definition SNAPSHOT_ENTRY_HEADER_LEN : nat := 20.
Definition GOVERNANCE_NONE : Z := u32_MAX.

(** ** Encoding *)

Definition encoded_len (len : nat) (message : string) : Snap Z :=
  if (Z.of_nat len <=? u32_MAX)%Z then Done (Z.of_nat len) else Err (TooLarge message).

Definition write_header (timestamp_ms entry_count : Z) : Bytes :=
  SNAPSHOT_MAGIC ++ to_le 4 SNAPSHOT_VERSION ++ to_le 8 timestamp_ms ++ to_le 8 entry_count.

(** The bytes [write_entry] appends. *)
Definition write_entry (entry : StoredEntry) : Snap Bytes :=
  key_len ← encoded_len (length (e_key entry)) "snapshot key is too large";
  value_len ← encoded_len (length (e_value entry)) "snapshot value is too large";
  governance_len ← match e_governance entry with
                   | Some metadata => encoded_len (length metadata) "snapshot governance is too large"
                   | None => Done GOVERNANCE_NONE
                   end;
  Done (to_le 4 key_len ++ to_le 4 value_len ++ to_le 4 governance_len ++
        to_le 8 (match e_expire_at_ms entry with Some e => e | None => u64_MAX end) ++
        e_key entry ++ e_value entry ++
        match e_governance entry with Some g => g | None => [] end).

Fixpoint write_entries (entries : list StoredEntry) : Snap Bytes :=
  match entries with
  | [] => Done []
  | entry :: rest => b ← write_entry entry; bs ← write_entries rest; Done (b ++ bs)
  end.

(** [slice::sort_by_key], a stable sort. *)
Section sort.
Context {A : Type} (key : A → Z).
Fixpoint insert_by_key (x : A) (l : list A) : list A :=
  match l with
  | [] => [x]
  | y :: l' => if (key x <=? key y)%Z then x :: l else y :: insert_by_key x l'
  end.
Definition sort_by_key (l : list A) : list A := foldr insert_by_key [] l.
End sort.

Definition encode_snapshot `{Hashing} (entries : list StoredEntry) (timestamp_ms : Z) : Snap Bytes :=
  let entries := sort_by_key (λ e, hash_key (e_key e)) entries in
  body ← write_entries entries;
  Done (write_header timestamp_ms (Z.of_nat (length entries)) ++ body).

(** The raw file of [write_streaming_staged]: a header with count 0, the
    entries as they are produced, then the count written over the header's. *)
Definition write_snapshot_streaming (entries : list StoredEntry) (timestamp_ms : Z) : Snap Bytes :=
  body ← write_entries entries;
  let raw := write_header timestamp_ms 0 ++ body in
  let at_ := length SNAPSHOT_MAGIC + 4 + 8 in
  Done (take at_ raw ++ to_le 8 (Z.of_nat (length entries)) ++ drop (at_ + 8) raw).

(** ** Decoding in memory *)

Definition read_exact (raw : Bytes) (cursor len : nat) (field : string) : Snap (Bytes * nat) :=
  if length raw - cursor <? len then Err (FieldTruncated field)
  else bytes ← or_panic (slice cursor (cursor + len) raw); Done (bytes, cursor + len).

Definition read_u32 (raw : Bytes) (cursor : nat) (field : string) : Snap (Z * nat) :=
  '(bytes, cursor) ← read_exact raw cursor 4 field; Done (from_le bytes, cursor).

Definition read_u64 (raw : Bytes) (cursor : nat) (field : string) : Snap (Z * nat) :=
  '(bytes, cursor) ← read_exact raw cursor 8 field; Done (from_le bytes, cursor).

Definition entry_header_len (version : Z) : nat :=
  if (version =? SNAPSHOT_VERSION_V1)%Z then SNAPSHOT_ENTRY_HEADER_V1_LEN
  else SNAPSHOT_ENTRY_HEADER_LEN.

Definition decode_entry (raw : Bytes) (cursor : nat) (version : Z) : Snap (StoredEntry * nat) :=
  if length raw - cursor <? entry_header_len version then Err EntryHeaderTruncated
  else
    '(key_len, cursor) ← read_u32 raw cursor "snapshot key length";
    '(value_len, cursor) ← read_u32 raw cursor "snapshot value length";
    '(governance_len, cursor) ←
      (if (version =? SNAPSHOT_VERSION_V1)%Z then Done (GOVERNANCE_NONE, cursor)
       else read_u32 raw cursor "snapshot governance length");
    '(expire_raw, cursor) ← read_u64 raw cursor "snapshot expiration";
    let governance_body_len :=
      if (governance_len =? GOVERNANCE_NONE)%Z then 0%Z else governance_len in
    let body_len := (key_len + value_len + governance_body_len)%Z in
    if (Z.of_nat (length raw - cursor) <? body_len)%Z then Err EntryBodyTruncated
    else
      let k := Z.to_nat key_len in
      let v := Z.to_nat value_len in
      let g := Z.to_nat governance_body_len in
      key ← or_panic (slice cursor (cursor + k) raw);
      let cursor := cursor + k in
      value ← or_panic (slice cursor (cursor + v) raw);
      let cursor := cursor + v in
      '(governance, cursor) ←
        (if (governance_len =? GOVERNANCE_NONE)%Z then Done (None, cursor)
         else b ← or_panic (slice cursor (cursor + g) raw); Done (Some b, cursor + g));
      Done (mkEntry key value
              (if (expire_raw =? u64_MAX)%Z then None else Some expire_raw) governance, cursor).

Fixpoint decode_entries (count : nat) (raw : Bytes) (cursor : nat) (version : Z)
    : Snap (list StoredEntry * nat) :=
  match count with
  | O => Done ([], cursor)
  | S count' =>
      '(entry, cursor) ← decode_entry raw cursor version;
      '(entries, cursor) ← decode_entries count' raw cursor version;
      Done (entry :: entries, cursor)
  end.

(** Also the cursor at the end, which the code drops. *)
Definition decode_body (raw : Bytes) (cursor : nat) (version : Z)
    : Snap (Z * list StoredEntry * nat) :=
  '(timestamp_ms, cursor) ← read_u64 raw cursor "snapshot timestamp";
  '(entry_count, cursor) ← read_u64 raw cursor "snapshot entry count";
  if (Z.of_nat ((length raw - cursor) / SNAPSHOT_ENTRY_HEADER_V1_LEN) <? entry_count)%Z
  then Err CountTooLarge
  else
    '(entries, cursor) ← decode_entries (Z.to_nat entry_count) raw cursor version;
    Done (timestamp_ms, entries, cursor).

Definition known_version (version : Z) : bool :=
  ((version =? SNAPSHOT_VERSION_V1) || (version =? SNAPSHOT_VERSION))%Z.

Definition decode_validated (raw : Bytes) : Snap (Z * list StoredEntry * nat) :=
  '(version, cursor) ← read_u32 raw (length SNAPSHOT_MAGIC) "snapshot version";
  if known_version version then decode_body raw cursor version
  else Err (UnsupportedVersion version).

Definition starts_with_magic (bytes : Bytes) : bool :=
  bytes_eqb (take (length SNAPSHOT_MAGIC) bytes) SNAPSHOT_MAGIC.

Definition decode_at (raw : Bytes) : Snap (Z * list StoredEntry * nat) :=
  if length raw <? SNAPSHOT_HEADER_LEN then Err HeaderTruncated
  else if negb (starts_with_magic raw) then Err MagicMismatch
  else decode_validated raw.

(** [SnapshotCodec::decode]. *)
Definition decode_snapshot (raw : Bytes) : Snap (Z * list StoredEntry) :=
  '(timestamp_ms, entries, _) ← decode_at raw; Done (timestamp_ms, entries).

(** ** Decoding a stream *)

(** [Read::read_exact] on the bytes that are left. *)
Definition stream_read (input : Bytes) (len : nat) (what : string) : Snap (Bytes * Bytes) :=
  if length input <? len then Err (StreamRead what) else Done (take len input, drop len input).

(** [read_stream_bytes]; the length is a [u32]. *)
Definition read_stream_bytes (input : Bytes) (len : Z) (field : string) : Snap (Bytes * Bytes) :=
  if (Z.of_nat (length input) <? len)%Z then Err (StreamRead field)
  else Done (take (Z.to_nat len) input, drop (Z.to_nat len) input).

(** [u32::from_le_bytes(header[a..b])] and [u64]. *)
Definition field (header : Bytes) (a b : nat) : Snap Z := from_le <$> or_panic (slice a b header).

Definition decode_stream_entry (input : Bytes) (version : Z) : Snap (StoredEntry * Bytes) :=
  '(header, input) ← stream_read input (entry_header_len version) "snapshot entry header";
  key_len ← field header 0 4;
  value_len ← field header 4 8;
  '(governance_len, expire_offset) ←
    (if (version =? SNAPSHOT_VERSION_V1)%Z then Done (GOVERNANCE_NONE, 8)
     else g ← field header 8 12; Done (g, 12));
  expire_raw ← field header expire_offset (expire_offset + 8);
  '(key, input) ← read_stream_bytes input key_len "key";
  '(value, input) ← read_stream_bytes input value_len "value";
  '(governance, input) ←
    (if (governance_len =? GOVERNANCE_NONE)%Z then Done (None, input)
     else '(g, input) ← read_stream_bytes input governance_len "governance"; Done (Some g, input));
  Done (mkEntry key value (if (expire_raw =? u64_MAX)%Z then None else Some expire_raw) governance,
        input).

Section stream.
(** The visitor, over a state of the caller's. *)
Context {S : Type} (visit : StoredEntry → S → Snap S).

(** [for _ in 0..entry_count]: the count is a [u64], the fuel bounds it by
    the bytes that are left. *)
Fixpoint stream_entries (fuel : nat) (entry_count : Z) (input : Bytes) (version : Z) (st : S)
    : Snap (S * Bytes) :=
  if (entry_count <=? 0)%Z then Done (st, input)
  else match fuel with
  | O => Panic
  | Datatypes.S fuel' =>
      '(entry, input) ← decode_stream_entry input version;
      st ← visit entry st;
      stream_entries fuel' (entry_count - 1) input version st
  end.

Definition decode_stream (input : Bytes) (st : S) : Snap (Z * S) :=
  '(header, input) ← stream_read input SNAPSHOT_HEADER_LEN "snapshot header";
  if negb (starts_with_magic header) then Err MagicMismatch
  else
    version ← field header 8 12;
    if negb (known_version version) then Err (UnsupportedVersion version)
    else
      timestamp_ms ← field header 12 20;
      entry_count ← field header 20 28;
      '(st, input) ← stream_entries (Datatypes.S (length input)) entry_count input version st;
      if bool_decide (input = []) then Done (timestamp_ms, st) else Err StreamTrailing.
End stream.

(** A visitor that collects, as the callers in recovery do. *)
Definition collect_entry (entry : StoredEntry) (st : list StoredEntry) : Snap (list StoredEntry) :=
  Done (st ++ [entry]).

(** * Round trips of the snapshot codecs

    The streaming decoder against the in-memory one, an entry through its
    encoding, and the whole file through both encoders. *)

(** ** Sorting by key hash *)
Section sort.
Context {A : Type} (key : A → Z).

Lemma insert_by_key_perm x l : insert_by_key key x l ≡ₚ x :: l.
Proof.
  induction l as [|y l IH]; [done|]. cbn [insert_by_key]. destruct (_ <=? _)%Z; [done|].
  rewrite IH. apply Permutation_swap.
Qed.

Lemma sort_by_key_perm l : sort_by_key key l ≡ₚ l.
Proof.
  induction l as [|x l IH]; [done|]. cbn [sort_by_key foldr].
  rewrite insert_by_key_perm. by constructor.
Qed.

Let by_key (x y : A) : Prop := (key x ≤ key y)%Z.

Lemma insert_by_key_sorted x l :
  StronglySorted by_key l → StronglySorted by_key (insert_by_key key x l).
Proof.
  induction 1 as [|y l Hl IH Hy]; cbn [insert_by_key]; [by repeat constructor|].
  destruct (_ <=? _)%Z eqn:E; bool_case.
  - constructor; [by constructor|]. constructor; [done|].
    eapply Forall_impl; [exact Hy|]. unfold by_key. intros; lia.
  - constructor; [done|]. rewrite insert_by_key_perm. constructor; [unfold by_key; lia|done].
Qed.

Lemma sort_by_key_sorted l : StronglySorted by_key (sort_by_key key l).
Proof. induction l; cbn [sort_by_key foldr]; [constructor|by apply insert_by_key_sorted]. Qed.
End sort.

(** ** Reads inside the buffer *)
Lemma slice_at c n (raw : Bytes) :
  c + n ≤ length raw → slice c (c + n) raw = Some (take n (drop c raw)).
Proof. intros. rewrite slice_is_Some by lia. do 2 f_equal. lia. Qed.

Lemma read_exact_ok raw c n f :
  c + n ≤ length raw → read_exact raw c n f = Done (take n (drop c raw), c + n).
Proof.
  intros Hn. unfold read_exact. rewrite (proj2 (Nat.ltb_ge _ _)) by lia.
  by rewrite slice_at.
Qed.

Lemma snap_read_u32 raw c f :
  c + 4 ≤ length raw → read_u32 raw c f = Done (from_le (take 4 (drop c raw)), c + 4).
Proof. intros. unfold read_u32. by rewrite read_exact_ok. Qed.

Lemma snap_read_u64 raw c f :
  c + 8 ≤ length raw → read_u64 raw c f = Done (from_le (take 8 (drop c raw)), c + 8).
Proof. intros. unfold read_u64. by rewrite read_exact_ok. Qed.

Lemma field_ok l n a b :
  a ≤ b ≤ n → n ≤ length l → field (take n l) a b = Done (from_le (take (b - a) (drop a l))).
Proof.
  intros ??. unfold field. rewrite slice_is_Some by (rewrite length_take; lia).
  cbn [or_panic fmap outcome_fmap]. do 2 f_equal.
  rewrite !take_drop_commute, take_take. do 2 f_equal. lia.
Qed.

Lemma from_le_nonneg l : all_bytes l → (0 ≤ from_le l)%Z.
Proof. intros. by apply from_le_bound. Qed.

(** ** The two entry decoders

    The stream decoder on the bytes from a cursor on, and the in-memory
    decoder at that cursor: the same entry and the same position after it. *)
Definition agrees {A} (raw : Bytes) (c : nat) (ahead : nat)
    (s : Snap (A * Bytes)) (m : Snap (A * nat)) : Prop :=
  match m with
  | Done (a, c') => c + ahead ≤ c' ≤ length raw ∧ s = Done (a, drop c' raw)
  | Err _ => ∃ e, s = Err e
  | _ => False
  end.

(** The fields of an entry and what follows them, by offset. *)
Section entry.
Context (raw : Bytes) (Hraw : all_bytes raw) (version : Z).
Let num (n c : nat) : Z := from_le (take n (drop c raw)).

Lemma num_nonneg n c : (0 ≤ num n c)%Z.
Proof. apply from_le_nonneg. by apply Forall_take, Forall_drop. Qed.

Lemma read_stream_bytes_at c len f :
  c ≤ length raw → (0 ≤ len)%Z →
  read_stream_bytes (drop c raw) len f =
  if (Z.of_nat (length raw - c) <? len)%Z then Err (StreamRead f)
  else Done (take (Z.to_nat len) (drop c raw), drop (c + Z.to_nat len) raw).
Proof. intros. unfold read_stream_bytes. by rewrite length_drop, drop_drop. Qed.

(** What is left to do once the numbers of the header are known. *)
Lemma body_agrees c0 c key_len value_len governance_len expire :
  c0 + 16 ≤ c ≤ length raw → (0 ≤ key_len)%Z → (0 ≤ value_len)%Z → (0 ≤ governance_len)%Z →
  agrees raw c0 16
   ('(key, input) ← read_stream_bytes (drop c raw) key_len "key";
    '(value, input) ← read_stream_bytes input value_len "value";
    '(governance, input) ←
      (if (governance_len =? GOVERNANCE_NONE)%Z then Done (None, input)
       else '(g, input) ← read_stream_bytes input governance_len "governance"; Done (Some g, input));
    Done (mkEntry key value expire governance, input))
   (let governance_body_len :=
      if (governance_len =? GOVERNANCE_NONE)%Z then 0%Z else governance_len in
    let body_len := (key_len + value_len + governance_body_len)%Z in
    if (Z.of_nat (length raw - c) <? body_len)%Z then Err EntryBodyTruncated
    else
      let k := Z.to_nat key_len in
      let v := Z.to_nat value_len in
      let g := Z.to_nat governance_body_len in
      key ← or_panic (slice c (c + k) raw);
      let cursor := c + k in
      value ← or_panic (slice cursor (cursor + v) raw);
      let cursor := cursor + v in
      '(governance, cursor) ←
        (if (governance_len =? GOVERNANCE_NONE)%Z then Done (None, cursor)
         else b ← or_panic (slice cursor (cursor + g) raw); Done (Some b, cursor + g));
      Done (mkEntry key value expire governance, cursor)).
Proof.
  intros Hc Hk Hv Hg. cbv zeta.
  set (gl := if (governance_len =? GOVERNANCE_NONE)%Z then 0%Z else governance_len).
  assert (0 ≤ gl)%Z as Hgl by (subst gl; by destruct (_ =? _)%Z).
  rewrite read_stream_bytes_at by (done || lia).
  destruct (Z.of_nat (length raw - c) <? key_len + value_len + gl)%Z eqn:E; bool_case.
  - destruct (_ <? key_len)%Z eqn:?; bool_case; [by eexists|]. cbn [mbind outcome_bind].
    rewrite read_stream_bytes_at by lia. destruct (_ <? value_len)%Z eqn:?; bool_case; [by eexists|].
    cbn [mbind outcome_bind]. subst gl. destruct (_ =? _)%Z; [lia|].
    rewrite read_stream_bytes_at by lia. rewrite (proj2 (Z.ltb_lt _ _)) by lia. by eexists.
  - rewrite (proj2 (Z.ltb_ge _ _)) by lia. cbn [mbind outcome_bind].
    rewrite read_stream_bytes_at by lia. rewrite (proj2 (Z.ltb_ge _ _)) by lia.
    cbn [mbind outcome_bind]. rewrite !slice_at by lia. cbn [or_panic mbind outcome_bind].
    subst gl. destruct (_ =? _)%Z; cbn [mbind outcome_bind].
    + split; [lia|done].
    + rewrite read_stream_bytes_at by lia. rewrite (proj2 (Z.ltb_ge _ _)) by lia.
      cbn [or_panic mbind outcome_bind]. split; [lia|done].
Qed.

Lemma entry_agrees c :
  c ≤ length raw →
  agrees raw c 16 (decode_stream_entry (drop c raw) version) (decode_entry raw c version).
Proof.
  intros Hc. unfold decode_stream_entry, decode_entry, stream_read. rewrite length_drop.
  destruct (_ <? entry_header_len version) eqn:E; bool_case; [by eexists|].
  cbn [mbind outcome_bind]. unfold entry_header_len in *.
  destruct (version =? SNAPSHOT_VERSION_V1)%Z;
    unfold SNAPSHOT_ENTRY_HEADER_V1_LEN, SNAPSHOT_ENTRY_HEADER_LEN in *;
    rewrite !field_ok by (rewrite ?length_drop; lia); cbn [mbind outcome_bind];
    rewrite !field_ok by (rewrite ?length_drop; lia); cbn [mbind outcome_bind];
    rewrite ?drop_drop, ?Nat.add_0_r;
    do 4 (first [rewrite snap_read_u32 by lia | rewrite snap_read_u64 by lia | idtac];
          cbn [mbind outcome_bind]);
    replace (c + 4 + 4) with (c + 8) by lia; replace (c + 8 + 8) with (c + 16) by lia;
    replace (c + 8 + 4) with (c + 12) by lia; replace (c + 12 + 8) with (c + 20) by lia.
  - apply body_agrees; [lia|apply num_nonneg..|done].
  - apply body_agrees; [lia|apply num_nonneg..].
Qed.
End entry.

(** ** The loop over entries *)
Section loop.
Context {S : Type} (visit : StoredEntry → S → Snap S).

(** The visitor on every entry in turn; it stops at the first error. *)
Fixpoint visit_all (entries : list StoredEntry) (st : S) : Snap S :=
  match entries with
  | [] => Done st
  | e :: rest => st ← visit e st; visit_all rest st
  end.

(** A visitor returns; it does not panic. *)
Definition returns {A} (o : Snap A) : Prop :=
  match o with Done _ | Err _ => True | _ => False end.

Context (Hvisit : ∀ e st, returns (visit e st)).

Lemma visit_all_returns es st : returns (visit_all es st).
Proof.
  revert st. induction es as [|e es IH]; intros st; [done|]. cbn [visit_all].
  pose proof (Hvisit e st). destruct (visit e st); try done. apply IH.
Qed.

Context (raw : Bytes) (Hraw : all_bytes raw).

Lemma entries_agree version n fuel c st :
  c ≤ length raw → length raw - c < fuel →
  match decode_entries n raw c version with
  | Done (es, c') =>
      c + 16 * n ≤ c' ≤ length raw ∧
      stream_entries visit fuel (Z.of_nat n) (drop c raw) version st =
      (st' ← visit_all es st; Done (st', drop c' raw))
  | Err _ => ∃ e, stream_entries visit fuel (Z.of_nat n) (drop c raw) version st = Err e
  | _ => False
  end.
Proof.
  revert fuel c st. induction n as [|n IH]; intros fuel c st Hc Hf.
  { cbn [decode_entries]. split; [lia|]. by destruct fuel. }
  destruct fuel as [|fuel]; [lia|]. cbn [decode_entries stream_entries].
  rewrite (proj2 (Z.leb_gt _ _)) by lia. replace (Z.of_nat _ - 1)%Z with (Z.of_nat n) by lia.
  pose proof (entry_agrees raw Hraw version c Hc) as Ha. unfold agrees in Ha.
  destruct (decode_entry raw c version) as [| |e|[e c1]]; [done|done| |].
  { destruct Ha as [e' ->]. by eexists. }
  destruct Ha as [Hc1 ->]. cbn [mbind outcome_bind].
  pose proof (Hvisit e st) as Hv. destruct (visit e st) as [| |x|st1] eqn:E; [done|done| |].
  - specialize (IH fuel c1 st ltac:(lia) ltac:(lia)).
    destruct (decode_entries n raw c1 version) as [| |?|[es c2]]; [done|done|by eexists|].
    cbn [mbind outcome_bind visit_all]. rewrite E. split; [lia|done].
  - specialize (IH fuel c1 st1 ltac:(lia) ltac:(lia)).
    destruct (decode_entries n raw c1 version) as [| |?|[es c2]]; [done|done| |].
    + destruct IH as [e' IH]. by exists e'.
    + cbn [mbind outcome_bind visit_all]. rewrite E. cbn [mbind outcome_bind]. destruct IH as [? ->]. split; [lia|done].
Qed.

(** [decode_stream] against [decode], every branch. *)
Lemma decode_stream_agrees st :
  match decode_at raw with
  | Done (ts, es, c) =>
      c ≤ length raw ∧
      decode_stream visit raw st =
      (st' ← visit_all es st; if c =? length raw then Done (ts, st') else Err StreamTrailing)
  | Err _ => ∃ e, decode_stream visit raw st = Err e
  | _ => False
  end.
Proof.
  unfold decode_at, decode_stream, stream_read.
  destruct (length raw <? SNAPSHOT_HEADER_LEN) eqn:Hl; bool_case; [by eexists|].
  unfold SNAPSHOT_HEADER_LEN in *. cbn [mbind outcome_bind].
  assert (starts_with_magic (take 28 raw) = starts_with_magic raw) as ->.
  { unfold starts_with_magic. by rewrite take_take. }
  destruct (negb (starts_with_magic raw)); [by eexists|].
  unfold decode_validated. rewrite snap_read_u32 by (cbn [length SNAPSHOT_MAGIC]; lia).
  rewrite !field_ok by lia. cbn [mbind outcome_bind length SNAPSHOT_MAGIC Nat.sub].
  destruct (known_version _); cbn [negb]; [|by eexists].
  unfold decode_body. rewrite snap_read_u64 by (cbn [length SNAPSHOT_MAGIC]; lia).
  cbn [mbind outcome_bind length SNAPSHOT_MAGIC Nat.sub Nat.add]. rewrite snap_read_u64 by lia.
  cbn [mbind outcome_bind Nat.add].
  set (ver := from_le (take 4 (drop 8 raw))). set (count := from_le (take 8 (drop 20 raw))).
  assert (0 ≤ count)%Z as Hcount by (apply from_le_nonneg; by apply Forall_take, Forall_drop).
  pose proof (entries_agree ver (Z.to_nat count) (Datatypes.S (length (drop 28 raw))) 28 st
    ltac:(lia) ltac:(rewrite length_drop; lia)) as Hes.
  rewrite Z2Nat.id in Hes by done.
  destruct (_ <? count)%Z eqn:Hcap; bool_case.
  - destruct (decode_entries _ raw 28 ver) as [| |e|[es c]]; [done|done| |].
    + destruct Hes as [e' ->]. by eexists.
    + destruct Hes as [Hc _]. unfold SNAPSHOT_ENTRY_HEADER_V1_LEN in Hcap.
      pose proof (Nat.div_le_lower_bound (length raw - 28) 16 (Z.to_nat count)). lia.
  - destruct (decode_entries _ raw 28 ver) as [| |e|[es c]]; [done|done| |].
    + destruct Hes as [e' ->]. by eexists.
    + destruct Hes as [Hc ->]. cbn [mbind outcome_bind]. split; [lia|].
      pose proof (visit_all_returns es st) as Hr. destruct (visit_all es st); try done.
      cbn [mbind outcome_bind]. destruct (decide (c = length raw)) as [->|].
      * by rewrite Nat.eqb_refl, drop_all.
      * rewrite (proj2 (Nat.eqb_neq _ _)) by done. rewrite bool_decide_false; [done|].
        intros Hd%(f_equal length). rewrite length_drop in Hd. cbn in Hd. lia.
Qed.
End loop.

(** Collecting visits every entry and returns them in order. *)
Lemma collect_entry_returns e st : returns (collect_entry e st).
Proof. done. Qed.

Lemma collect_all es st : visit_all collect_entry es st = Done (st ++ es).
Proof.
  revert st. induction es as [|e es IH]; intros st; [by rewrite app_nil_r|].
  cbn [visit_all collect_entry mbind outcome_bind]. by rewrite IH, <-app_assoc.
Qed.

(** ** An entry through its encoding *)
Record entry_ok (e : StoredEntry) : Prop := mkEntryOk {
  ok_key : all_bytes (e_key e);
  ok_key_len : (Z.of_nat (length (e_key e)) ≤ u32_MAX)%Z;
  ok_value : all_bytes (e_value e);
  ok_value_len : (Z.of_nat (length (e_value e)) ≤ u32_MAX)%Z;
  ok_gov : ∀ g, e_governance e = Some g → all_bytes g ∧ (Z.of_nat (length g) < u32_MAX)%Z;
  ok_deadline : ∀ d, e_expire_at_ms e = Some d → (0 ≤ d < u64_MAX)%Z;
}.

Definition governance_of (e : StoredEntry) : Bytes := default [] (e_governance e).
Definition deadline_field (e : StoredEntry) : Z := default u64_MAX (e_expire_at_ms e).
Definition governance_field (e : StoredEntry) : Z :=
  match e_governance e with Some g => Z.of_nat (length g) | None => GOVERNANCE_NONE end.

Definition entry_bytes (e : StoredEntry) : Bytes :=
  to_le 4 (Z.of_nat (length (e_key e))) ++ to_le 4 (Z.of_nat (length (e_value e))) ++
  to_le 4 (governance_field e) ++ to_le 8 (deadline_field e) ++
  e_key e ++ e_value e ++ governance_of e.

Lemma write_entry_ok e : entry_ok e → write_entry e = Done (entry_bytes e).
Proof.
  intros [_ Hk _ Hv Hg _]. unfold write_entry, encoded_len.
  rewrite !(proj2 (Z.leb_le _ _)) by done. cbn [mbind outcome_bind].
  unfold entry_bytes, governance_field, governance_of, deadline_field.
  destruct (e_governance e) as [g|]; [|by destruct (e_expire_at_ms e)].
  destruct (Hg g eq_refl) as [_ ?]. rewrite (proj2 (Z.leb_le _ _)) by lia.
  by destruct (e_expire_at_ms e).
Qed.

Lemma write_entries_ok es : Forall entry_ok es → write_entries es = Done (concat (entry_bytes <$> es)).
Proof.
  induction 1 as [|e es He _ IH]; [done|]. cbn [write_entries]. rewrite (write_entry_ok e He), IH. done.
Qed.

Lemma entry_bytes_bytes e : entry_ok e → all_bytes (entry_bytes e).
Proof.
  intros [Hk _ Hv _ Hg _]. unfold entry_bytes, governance_of.
  repeat (apply Forall_app_2; [apply to_le_bytes|]). repeat (apply Forall_app_2; [done|]).
  destruct (e_governance e) as [g|]; [|constructor]. by destruct (Hg g eq_refl).
Qed.

Lemma governance_field_range e : entry_ok e → (0 ≤ governance_field e ≤ u32_MAX)%Z.
Proof.
  intros [_ _ _ _ Hg _]. unfold governance_field, GOVERNANCE_NONE.
  destruct (e_governance e) as [g|]; [destruct (Hg g eq_refl)|unfold u32_MAX]; lia.
Qed.

Lemma deadline_field_range e : entry_ok e → is_u64 (deadline_field e).
Proof.
  intros [_ _ _ _ _ Hd]. unfold deadline_field, is_u64.
  destruct (e_expire_at_ms e) as [d|]; [specialize (Hd d eq_refl)|]; simpl; unfold u64_MAX in *; lia.
Qed.

(** A field of a layout: [take]/[drop] at the offset where it starts. *)
Lemma layout_field (pre f post : Bytes) n m :
  length pre = n → length f = m → take m (drop n (pre ++ f ++ post)) = f.
Proof. intros <- <-. by rewrite drop_app_length, take_app_length. Qed.

Lemma read_stream_bytes_app (b post : Bytes) f :
  read_stream_bytes (b ++ post) (Z.of_nat (length b)) f = Done (b, post).
Proof.
  unfold read_stream_bytes. rewrite length_app, (proj2 (Z.ltb_ge _ _)) by lia.
  by rewrite Nat2Z.id, take_app_length, drop_app_length.
Qed.

Lemma decode_stream_entry_ok e post :
  entry_ok e → decode_stream_entry (entry_bytes e ++ post) SNAPSHOT_VERSION = Done (e, post).
Proof.
  intros He. pose proof (governance_field_range e He) as Hgr.
  pose proof (deadline_field_range e He) as Hdr. destruct He as [_ Hk _ Hv Hg Hd].
  unfold entry_bytes. rewrite <-!app_assoc.
  set (k4 := to_le 4 (Z.of_nat (length (e_key e)))).
  set (v4 := to_le 4 (Z.of_nat (length (e_value e)))).
  set (g4 := to_le 4 (governance_field e)). set (d8 := to_le 8 (deadline_field e)).
  set (rest := e_key e ++ _).
  unfold decode_stream_entry, stream_read.
  change (entry_header_len SNAPSHOT_VERSION) with 20.
  rewrite !length_app, (proj2 (Nat.ltb_ge _ _)) by (subst k4 v4 g4 d8; rewrite !length_to_le; lia).
  cbn [mbind outcome_bind].
  change (SNAPSHOT_VERSION =? SNAPSHOT_VERSION_V1)%Z with false. cbn iota.
  rewrite !field_ok by (rewrite ?length_app; subst k4 v4 g4 d8; rewrite ?length_to_le; lia).
  cbn [mbind outcome_bind].
  rewrite !field_ok by (rewrite ?length_app; subst k4 v4 g4 d8; rewrite ?length_to_le; lia).
  cbn [mbind outcome_bind Nat.sub Nat.add].
  rewrite drop_0, (take_app_length' k4) by done.
  rewrite (layout_field k4 v4 (g4 ++ d8 ++ rest) 4 4 eq_refl eq_refl).
  rewrite (app_assoc k4 v4), (layout_field (k4 ++ v4) g4 (d8 ++ rest) 8 4 eq_refl eq_refl).
  rewrite (app_assoc (k4 ++ v4) g4), (layout_field ((k4 ++ v4) ++ g4) d8 rest 12 8 eq_refl eq_refl).
  rewrite (app_assoc _ d8 rest), (drop_app_length' (((k4 ++ v4) ++ g4) ++ d8) rest 20 eq_refl).
  subst k4 v4 g4 d8. rewrite !from_to_le_u32, from_to_le_u64 by (done || lia).
  subst rest. rewrite read_stream_bytes_app. cbn [mbind outcome_bind].
  rewrite read_stream_bytes_app. cbn [mbind outcome_bind].
  assert ((if (deadline_field e =? u64_MAX)%Z then None else Some (deadline_field e))
    = e_expire_at_ms e) as ->.
  { unfold deadline_field. destruct (e_expire_at_ms e) as [d|]; [|done]. specialize (Hd d eq_refl).
    change (default u64_MAX (Some d)) with d. by rewrite (proj2 (Z.eqb_neq _ _)) by lia. }
  unfold governance_field, governance_of, GOVERNANCE_NONE. destruct e as [k v d [g|]]; cbn in *.
  - destruct (Hg g eq_refl). rewrite (proj2 (Z.eqb_neq _ _)) by lia.
    by rewrite read_stream_bytes_app.
  - done.
Qed.

(** ** A file through its encoding *)
Definition snapshot_bytes (es : list StoredEntry) (ts : Z) : Bytes :=
  write_header ts (Z.of_nat (length es)) ++ concat (entry_bytes <$> es).

Lemma snapshot_bytes_bytes es ts : Forall entry_ok es → all_bytes (snapshot_bytes es ts).
Proof.
  intros Hes. unfold snapshot_bytes, write_header. rewrite <-!app_assoc. apply Forall_app_2.
  { repeat constructor; unfold is_byte; lia. }
  do 3 (apply Forall_app_2; [apply to_le_bytes|]).
  induction Hes; [constructor|]. cbn. apply Forall_app_2; [by apply entry_bytes_bytes|done].
Qed.

Section stream.
Context {S : Type} (visit : StoredEntry → S → Snap S) (Hvisit : ∀ e st, returns (visit e st)).

Lemma stream_entries_ok es fuel post st :
  Forall entry_ok es → length es < fuel →
  stream_entries visit fuel (Z.of_nat (length es)) (concat (entry_bytes <$> es) ++ post)
    SNAPSHOT_VERSION st = (st' ← visit_all visit es st; Done (st', post)).
Proof.
  intros Hes. revert fuel st. induction Hes as [|e es He _ IH]; intros fuel st Hf.
  { by destruct fuel. }
  destruct fuel as [|fuel]; [lia|]. cbn [length] in *. cbn [stream_entries].
  rewrite (proj2 (Z.leb_gt _ _)) by lia. replace (Z.of_nat _ - 1)%Z with (Z.of_nat (length es)) by lia.
  cbn [fmap list_fmap concat]. rewrite <-app_assoc, decode_stream_entry_ok by done.
  cbn [mbind outcome_bind visit_all].
  pose proof (Hvisit e st). destruct (visit e st); try done. apply IH. lia.
Qed.

Lemma length_concat_entries es : length es ≤ length (concat (entry_bytes <$> es)).
Proof.
  induction es as [|e es IH]; [done|]. cbn [fmap list_fmap concat length]. rewrite length_app.
  unfold entry_bytes at 1. rewrite !length_app, !length_to_le. unfold fmap in *. lia.
Qed.

Lemma decode_stream_ok es ts st :
  Forall entry_ok es → is_u64 ts → is_u64 (Z.of_nat (length es)) →
  decode_stream visit (snapshot_bytes es ts) st = (st' ← visit_all visit es st; Done (ts, st')).
Proof.
  intros Hes Hts Hn. unfold decode_stream, stream_read, snapshot_bytes, write_header.
  rewrite <-!app_assoc. set (body := concat _). set (v4 := to_le 4 _). set (t8 := to_le 8 ts).
  set (n8 := to_le 8 (Z.of_nat _)).
  assert (length (SNAPSHOT_MAGIC ++ v4 ++ t8 ++ n8 ++ body) = 28 + length body) as Hl.
  { rewrite !length_app. subst v4 t8 n8. by rewrite !length_to_le. }
  unfold SNAPSHOT_HEADER_LEN. rewrite (proj2 (Nat.ltb_ge _ _)) by lia. cbn [mbind outcome_bind].
  assert (starts_with_magic (take 28 (SNAPSHOT_MAGIC ++ v4 ++ t8 ++ n8 ++ body)) = true) as ->.
  { unfold starts_with_magic. rewrite take_take. reflexivity. }
  cbn [negb]. rewrite !field_ok by lia. cbn [Nat.sub].
  rewrite (layout_field SNAPSHOT_MAGIC v4 (t8 ++ n8 ++ body) 8 4 eq_refl eq_refl).
  rewrite (app_assoc SNAPSHOT_MAGIC v4), (layout_field (SNAPSHOT_MAGIC ++ v4) t8 (n8 ++ body) 12 8 eq_refl eq_refl).
  rewrite (app_assoc _ t8), (layout_field ((SNAPSHOT_MAGIC ++ v4) ++ t8) n8 body 20 8 eq_refl eq_refl).
  rewrite (app_assoc _ n8 body), (drop_app_length' (((SNAPSHOT_MAGIC ++ v4) ++ t8) ++ n8) body 28 eq_refl).
  subst v4 t8 n8. rewrite from_to_le_u32, !from_to_le_u64 by (done || unfold SNAPSHOT_VERSION, u32_MAX; lia).
  cbn [mbind outcome_bind]. change (known_version SNAPSHOT_VERSION) with true. cbn [negb].
  pose proof (length_concat_entries es) as Hlen.
  pose proof (stream_entries_ok es (Datatypes.S (length body)) [] st Hes ltac:(subst body; lia)) as He.
  rewrite app_nil_r in He. fold body in He. rewrite He.
  pose proof (visit_all_returns visit Hvisit es st). by destruct (visit_all visit es st).
Qed.
End stream.

(** The in-memory decoder on the same file, through the equivalence. *)
Lemma decode_at_ok es ts :
  Forall entry_ok es → is_u64 ts → is_u64 (Z.of_nat (length es)) →
  decode_at (snapshot_bytes es ts) = Done (ts, es, length (snapshot_bytes es ts)).
Proof.
  intros Hes Hts Hn.
  pose proof (decode_stream_agrees collect_entry collect_entry_returns _ (snapshot_bytes_bytes es ts Hes) []) as Ha.
  rewrite (decode_stream_ok collect_entry collect_entry_returns es ts [] Hes Hts Hn), collect_all in Ha.
  destruct (decode_at _) as [| |e|[[ts' es'] c]]; [done|done|by destruct Ha|].
  destruct Ha as [Hc Ha]. rewrite collect_all in Ha. cbn [mbind outcome_bind app] in Ha.
  destruct (c =? length _) eqn:E; [|done]. bool_case. apply Done_inj in Ha as [= -> ->].
  by rewrite E.
Qed.

Lemma encode_snapshot_ok `{Hashing} es ts :
  Forall entry_ok es →
  encode_snapshot es ts = Done (snapshot_bytes (sort_by_key (λ e, hash_key (e_key e)) es) ts).
Proof.
  intros Hes. unfold encode_snapshot. rewrite write_entries_ok; [done|].
  by rewrite sort_by_key_perm.
Qed.

(** The count written over the header's. *)
Lemma write_streaming_ok es ts :
  Forall entry_ok es → write_snapshot_streaming es ts = Done (snapshot_bytes es ts).
Proof.
  intros Hes. unfold write_snapshot_streaming. by rewrite write_entries_ok.
Qed.
