(* ===== verification/Recovery.v ===== *)
(** * Recovery: the newest snapshot, then the log

    [persistence/recovery.rs]: the accumulator that takes the entries of the
    newest snapshot and applies the records of the log that are not older than
    it.  The hash map is a finite map; [into_state] collects its values. *)

From S2P Require Import Prelude Helpers Codec Wal Snapshot.

Abbreviation Entries := (gmap Bytes StoredEntry).

Record LoadedSnapshot := mkLoaded {
  snap_timestamp_ms : Z;
  snap_entries : list StoredEntry;
}.

Record RecoveryAccumulator := mkAcc {
  acc_entries : Entries;
  acc_timestamp_ms : Z;
}.

(** ** recovery.rs *)

Definition acc_default : RecoveryAccumulator := mkAcc ∅ 0.

Definition insert_entry (m : Entries) (entry : StoredEntry) : Entries := <[e_key entry := entry]> m.

Definition apply_snapshot (acc : RecoveryAccumulator) (snapshot : LoadedSnapshot) : RecoveryAccumulator :=
  mkAcc (foldl insert_entry (acc_entries acc) (snap_entries snapshot)) (snap_timestamp_ms snapshot).

Definition load_snapshot (acc : RecoveryAccumulator) (loaded : option LoadedSnapshot) : RecoveryAccumulator :=
  match loaded with
  | Some snapshot => apply_snapshot acc snapshot
  | None => acc
  end.

Definition apply_write (m : Entries) (record : MutationRecord) : Entries :=
  <[rec_key record := mkEntry (rec_key record) (rec_value record) (rec_expire_at_ms record)
                        (rec_governance record)]> m.

Definition apply_expire (m : Entries) (record : MutationRecord) : Entries :=
  match m !! rec_key record with
  | Some entry =>
      <[rec_key record := mkEntry (e_key entry) (e_value entry) (rec_expire_at_ms record)
                            (e_governance entry)]> m
  | None => m
  end.

Definition apply_current_record (m : Entries) (record : MutationRecord) : Entries :=
  match rec_op record with
  | OpSet => apply_write m record
  | OpExpire => apply_expire m record
  | OpDel => delete (rec_key record) m
  end.

Definition apply_record (acc : RecoveryAccumulator) (record : MutationRecord) : RecoveryAccumulator :=
  if (rec_timestamp_ms record <? acc_timestamp_ms acc)%Z then acc
  else mkAcc (apply_current_record (acc_entries acc) record) (acc_timestamp_ms acc).

Definition replay_records (acc : RecoveryAccumulator) (records : list MutationRecord) : RecoveryAccumulator :=
  foldl apply_record acc records.

Definition into_state (acc : RecoveryAccumulator) : list StoredEntry * Z :=
  ((map_to_list (acc_entries acc)).*2, acc_timestamp_ms acc).

(** [load_enabled] on what the two repositories return. *)
Definition load_enabled (loaded : option LoadedSnapshot) (records : list MutationRecord)
    : RecoveryAccumulator :=
  replay_records (load_snapshot acc_default loaded) records.

(** ** One key at a time

    What the records of a key do to its entry. *)
Definition entry_step (o : option StoredEntry) (record : MutationRecord) : option StoredEntry :=
  match rec_op record with
  | OpSet => Some (mkEntry (rec_key record) (rec_value record) (rec_expire_at_ms record)
                     (rec_governance record))
  | OpDel => None
  | OpExpire =>
      (λ e, mkEntry (e_key e) (e_value e) (rec_expire_at_ms record) (e_governance e)) <$> o
  end.

Abbreviation entry_fold := (foldl entry_step).

Definition key_log (k : Bytes) (records : list MutationRecord) : list MutationRecord :=
  filter (λ r, rec_key r = k) records.

(** The map after a list of mutations, in order: what the log stands for. *)
Definition state_after (m : Entries) (records : list MutationRecord) : Entries :=
  foldl apply_current_record m records.

Lemma apply_current_lookup m r k :
  apply_current_record m r !! k = if decide (rec_key r = k) then entry_step (m !! k) r else m !! k.
Proof.
  unfold apply_current_record, entry_step, apply_write, apply_expire.
  destruct (decide (rec_key r = k)) as [<-|Hk]; destruct (rec_op r);
    rewrite ?lookup_insert_eq, ?lookup_insert_ne, ?lookup_delete_eq, ?lookup_delete_ne by done; try done.
  - destruct (m !! rec_key r) eqn:E; [by rewrite lookup_insert_eq|done].
  - destruct (m !! rec_key r) eqn:E; [by rewrite lookup_insert_ne|done].
Qed.

Lemma state_after_lookup m rs k : state_after m rs !! k = entry_fold (m !! k) (key_log k rs).
Proof.
  unfold state_after, key_log. revert m. induction rs as [|r rs IH]; intros m; [done|].
  cbn [foldl]. rewrite IH, apply_current_lookup, filter_cons. by destruct (decide _).
Qed.

Lemma filter_all {A} (P : A → Prop) `{∀ x, Decision (P x)} (l : list A) :
  Forall P l → filter P l = l.
Proof. induction 1; [done|]. rewrite filter_cons, decide_True by done. by f_equal. Qed.

Definition current (ts : Z) (r : MutationRecord) : Prop := (ts ≤ rec_timestamp_ms r)%Z.
#[export] Instance current_dec ts r : Decision (current ts r) := Z_le_dec _ _.

(** Replay is the mutations that are not older than the snapshot. *)
Lemma replay_records_eq acc rs :
  replay_records acc rs =
  mkAcc (state_after (acc_entries acc) (filter (current (acc_timestamp_ms acc)) rs)) (acc_timestamp_ms acc).
Proof.
  unfold replay_records, state_after. revert acc. induction rs as [|r rs IH]; intros acc.
  { by destruct acc. }
  cbn [foldl]. rewrite IH, filter_cons. unfold apply_record.
  destruct (decide (current _ r)) as [Hc|Hc]; unfold current in Hc.
  - by rewrite (proj2 (Z.ltb_ge _ _)) by lia.
  - by rewrite (proj2 (Z.ltb_lt _ _)) by lia.
Qed.

(** ** Replaying records twice

    A list of records of one key either decides the entry or only sets the
    deadline of whatever is there. *)
Inductive Effect := Const (o : option StoredEntry) | Deadline (d : option Z) | Nothing.

Definition run_effect (e : Effect) (o : option StoredEntry) : option StoredEntry :=
  match e with
  | Const c => c
  | Deadline d => (λ e, mkEntry (e_key e) (e_value e) d (e_governance e)) <$> o
  | Nothing => o
  end.

Lemma entry_fold_effect s : ∃ e, ∀ o, entry_fold o s = run_effect e o.
Proof.
  induction s as [|r s [e He] ] using rev_ind; [by exists Nothing|].
  destruct (rec_op r) eqn:Er.
  - exists (Const (entry_step None r)). intros o. rewrite foldl_snoc. unfold entry_step. by rewrite Er.
  - exists (Const None). intros o. rewrite foldl_snoc. unfold entry_step. by rewrite Er.
  - exists (match e with
            | Const c => Const (entry_step c r)
            | _ => Deadline (rec_expire_at_ms r)
            end).
    intros o. rewrite foldl_snoc, He. unfold entry_step. rewrite Er. destruct e; [done| |done].
    simpl. by destruct o.
Qed.

Lemma entry_fold_idem s o : entry_fold (entry_fold o s) s = entry_fold o s.
Proof.
  destruct (entry_fold_effect s) as [e He]. rewrite !He. destruct e; [done| |done]. by destruct o.
Qed.

(** Records of a key that come in the order of their times: those that are
    not older than the snapshot are a suffix. *)
Definition in_order (rs : list MutationRecord) : Prop :=
  StronglySorted (λ r r', rec_timestamp_ms r ≤ rec_timestamp_ms r')%Z rs.

Lemma current_suffix ts rs : in_order rs → ∃ p, rs = p ++ filter (current ts) rs.
Proof.
  unfold in_order. induction 1 as [|r rs _ [p IH] Hr]; [by exists []|]. rewrite filter_cons.
  destruct (decide (current ts r)) as [Hc|Hc].
  - exists []. simpl. f_equal. symmetry. apply filter_all.
    eapply Forall_impl; [exact Hr|]. unfold current in *. simpl. intros; lia.
  - exists (r :: p). simpl. by f_equal.
Qed.

(** Replaying, on the entry as it was after some of the records of its key,
    the records that are not older than the snapshot. *)
Lemma entry_replay ts o l1 l2 :
  in_order l1 → Forall (current ts) l2 →
  entry_fold (entry_fold o l1) (filter (current ts) (l1 ++ l2)) = entry_fold o (l1 ++ l2).
Proof.
  intros Hs Hl2. rewrite filter_app, (filter_all _ l2) by done.
  rewrite !foldl_app. f_equal. destruct (current_suffix ts l1 Hs) as [p Hp].
  rewrite Hp at 1. rewrite foldl_app, entry_fold_idem, <-foldl_app, <-Hp. done.
Qed.

Lemma key_log_filter k ts rs : key_log k (filter (current ts) rs) = filter (current ts) (key_log k rs).
Proof. unfold key_log. rewrite !list_filter_filter. apply list_filter_iff. naive_solver. Qed.

(** A snapshot of time [ts] taken while the mutations [records] run: the entry
    of a key is its state after those of the key's mutations that precede some
    point, all the later ones being of time [ts] or after. *)
Definition snapshot_of (base : Entries) (records : list MutationRecord) (s : LoadedSnapshot) : Prop :=
  ∀ k, ∃ l1 l2,
    key_log k records = l1 ++ l2 ∧
    foldl insert_entry ∅ (snap_entries s) !! k = entry_fold (base !! k) l1 ∧
    Forall (current (snap_timestamp_ms s)) l2.

Lemma recovery_sound base records s :
  (∀ k, in_order (key_log k records)) → snapshot_of base records s →
  acc_entries (load_enabled (Some s) records) = state_after base records.
Proof.
  intros Hord Hs. apply map_eq. intros k. unfold load_enabled.
  rewrite replay_records_eq. cbn [load_snapshot apply_snapshot acc_default acc_entries acc_timestamp_ms].
  rewrite !state_after_lookup, key_log_filter.
  destruct (Hs k) as (l1 & l2 & E & -> & Hl2). specialize (Hord k). rewrite E in *.
  apply entry_replay; [|done]. by apply StronglySorted_app_1_l in Hord.
Qed.

(** Recovery from the log alone. *)
Lemma recovery_log_only records :
  Forall (λ r, 0 ≤ rec_timestamp_ms r)%Z records →
  acc_entries (load_enabled None records) = state_after ∅ records.
Proof.
  intros H. unfold load_enabled. rewrite replay_records_eq. cbn [load_snapshot acc_default acc_entries acc_timestamp_ms].
  f_equal. by apply filter_all.
Qed.

(** Removing records older than the snapshot from the log. *)
Lemma recovery_filter s rs rs' :
  filter (current (snap_timestamp_ms s)) rs = filter (current (snap_timestamp_ms s)) rs' →
  load_enabled (Some s) rs = load_enabled (Some s) rs'.
Proof.
  intros Hf. unfold load_enabled. rewrite !replay_records_eq.
  cbn [load_snapshot apply_snapshot acc_timestamp_ms acc_entries]. by rewrite Hf.
Qed.

(** ** The entries of a state carry the key they are stored under *)
Definition keyed (m : Entries) : Prop := map_Forall (λ k e, e_key e = k) m.

Lemma keyed_insert_all m es : keyed m → keyed (foldl insert_entry m es).
Proof.
  revert m. induction es as [|e es IH]; intros m Hm; [done|]. cbn [foldl]. apply IH.
  by apply map_Forall_insert_2.
Qed.

Lemma keyed_apply m r : keyed m → keyed (apply_current_record m r).
Proof.
  intros Hm. unfold apply_current_record, apply_write, apply_expire. destruct (rec_op r).
  - by apply map_Forall_insert_2.
  - by apply map_Forall_delete.
  - destruct (m !! rec_key r) as [e|] eqn:E; [|done]. apply map_Forall_insert_2; [|done].
    exact (Hm _ _ E).
Qed.

Lemma keyed_load s rs : keyed (acc_entries (load_enabled s rs)).
Proof.
  unfold load_enabled. rewrite replay_records_eq. cbn [acc_entries].
  assert (keyed (acc_entries (load_snapshot acc_default s))) as Hk.
  { destruct s as [s|]; simpl; [by apply keyed_insert_all, map_Forall_empty|apply map_Forall_empty]. }
  revert Hk. generalize (acc_entries (load_snapshot acc_default s)).
  generalize (filter (current (acc_timestamp_ms (load_snapshot acc_default s))) rs). clear.
  intros rs. induction rs as [|r rs IH]; intros m Hm; [done|]. apply IH. by apply keyed_apply.
Qed.
