(* ===== verification/Segments.v ===== *)
(** * Log segments: names, directory, writer

    [WalSegmentName], [SegmentStore] and [SegmentWriter] of
    [persistence/wal.rs].  The data directory is a finite map from file names
    to files; a file has the bytes handed to the operating system and how many
    of them a sync has made durable.  The writer's [BufWriter] is the standard
    library's, with its 8 KiB buffer.  [now_millis] is an argument of the
    operations that read it.  Failing I/O calls are not modelled. *)

From stdpp Require Import sorting.
From S2P Require Import Prelude Helpers Codec Wal.

(** ** Segment names *)

(** ["segment"], ["-"], [".wal"], [".wal.lz4"]. *)
Definition SEGMENT : Bytes := [115; 101; 103; 109; 101; 110; 116]%Z.
Definition DASH : Z := 45%Z.
Definition WAL_SUFFIX : Bytes := [46; 119; 97; 108]%Z.
Definition WAL_COMPRESSED_SUFFIX : Bytes := [46; 119; 97; 108; 46; 108; 122; 52]%Z.

(** [{n}] and [{n:020}] of a [u64]. *)
Definition u64_to_string (n : Z) : Bytes := digits_of 20 n [].
Definition u64_padded (n : Z) : Bytes :=
  let s := u64_to_string n in replicate (20 - length s) 48%Z ++ s.

(** The file name of [WalSegmentName::path]. *)
Definition segment_name (sequence timestamp_ms : Z) (compress : bool) : Bytes :=
  SEGMENT ++ DASH :: u64_padded sequence ++ DASH :: u64_to_string timestamp_ms ++
  (if compress then WAL_COMPRESSED_SUFFIX else WAL_SUFFIX).

(** [str::strip_suffix] and [str::ends_with]. *)
Definition strip_suffix (suffix name : Bytes) : option Bytes :=
  let n := length name - length suffix in
  if (length suffix <=? length name) && bytes_eqb (drop n name) suffix then Some (take n name) else None.

Definition ends_with (suffix name : Bytes) : bool := bool_decide (is_Some (strip_suffix suffix name)).

(** [to_str] of a file name succeeds on UTF-8. *)
Definition segment_matches (name : Bytes) : bool :=
  utf8_valid name && (ends_with WAL_SUFFIX name || ends_with WAL_COMPRESSED_SUFFIX name).

Definition segment_stem (name : Bytes) : option Bytes :=
  match strip_suffix WAL_COMPRESSED_SUFFIX name with
  | Some stem => Some stem
  | None => strip_suffix WAL_SUFFIX name
  end.

(** [str::split('-')]. *)
Fixpoint split_dash (s : Bytes) : list Bytes :=
  match s with
  | [] => [[]]
  | b :: s' =>
      if (b =? DASH)%Z then [] :: split_dash s'
      else match split_dash s' with
           | part :: parts => (b :: part) :: parts
           | [] => [[b]]
           end
  end.

Definition segment_sequence (name : Bytes) : option Z :=
  if utf8_valid name then
    stem ← segment_stem name;
    match split_dash stem with
    | p0 :: sequence :: _ :: _ => if bytes_eqb p0 SEGMENT then parse_u64 sequence else None
    | _ => None
    end
  else None.

(** ** The directory *)

Record File := mkFile { f_content : Bytes; f_synced : nat }.
Abbreviation Disk := (gmap Bytes File).

(** [Ord] of paths in one directory: the names, byte by byte. *)
Fixpoint name_leb (x y : Bytes) : bool :=
  match x, y with
  | [], _ => true
  | _ :: _, [] => false
  | a :: x', b :: y' => if (a <? b)%Z then true else if (b <? a)%Z then false else name_leb x' y'
  end.
Definition name_le (x y : Bytes) : Prop := name_leb x y = true.
#[export] Instance name_le_dec : RelDecision name_le := λ x y, bool_eq_dec _ _.

Definition paths (d : Disk) : list Bytes :=
  merge_sort name_le (filter (λ name, segment_matches name = true) (elements (dom d))).

Definition next_sequence (d : Disk) : Z :=
  match omap segment_sequence (paths d) with
  | [] => 0
  | q :: qs => u64_saturating_add (foldl Z.max q qs) 1
  end%Z.

Section store.
Context `{Crc32, Lz4}.

(** The path was listed, so the file is there. *)
Definition read_segment (d : Disk) (name : Bytes) : WalDec (list MutationRecord) :=
  file ← or_panic (d !! name); decode_records (f_content file).

Fixpoint read_paths (d : Disk) (names : list Bytes) : WalDec (list MutationRecord) :=
  match names with
  | [] => Done []
  | name :: names' =>
      records ← read_segment d name; rest ← read_paths d names'; Done (records ++ rest)
  end.

Definition read_all (d : Disk) : WalDec (list MutationRecord) := read_paths d (paths d).

(** *** Pruning *)
Definition prune_remove (records : list MutationRecord) (snapshot_timestamp_ms : Z) : bool :=
  match records with
  | [] => true
  | _ => forallb (λ r, rec_timestamp_ms r <=? snapshot_timestamp_ms)%Z records
  end.

Definition prune_path (d : Disk) (name : Bytes) (snapshot_timestamp_ms : Z) : WalDec Disk :=
  records ← read_segment d name;
  Done (if prune_remove records snapshot_timestamp_ms then delete name d else d).

Fixpoint prune_paths (d : Disk) (names : list Bytes) (snapshot_timestamp_ms : Z) : WalDec Disk :=
  match names with
  | [] => Done d
  | name :: names' =>
      d ← prune_path d name snapshot_timestamp_ms; prune_paths d names' snapshot_timestamp_ms
  end.

Definition prune_through (d : Disk) (snapshot_timestamp_ms : Z) : WalDec Disk :=
  let names := paths d in
  if length names <=? 1 then Done d
  else prune_paths d (take (length names - 1) names) snapshot_timestamp_ms.
End store.

(** ** The writer *)

Record SegmentWriter := mkWriter {
  w_name : Bytes;
  w_buf : Bytes;
  w_compress : bool;
  w_sequence : Z;
  w_bytes_written : Z;
  w_last_entry_size : nat;
  w_rotation_count : Z;
}.

(** [OpenOptions::new().create(true).append(true).open(path)]. *)
Definition open_append (d : Disk) (name : Bytes) : Disk :=
  match d !! name with Some _ => d | None => <[name := mkFile [] 0]> d end.

(** [write(2)] on a file opened for appending. *)
Definition os_append (name : Bytes) (data : Bytes) (d : Disk) : Disk :=
  alter (λ f, mkFile (f_content f ++ data) (f_synced f)) name d.

(** [File::sync_data]. *)
Definition os_sync (name : Bytes) (d : Disk) : Disk :=
  alter (λ f, mkFile (f_content f) (length (f_content f))) name d.

(** [BufWriter::write_all] and [BufWriter::flush]. *)
Definition BUF_CAPACITY : nat := 8 * 1024.

Definition buf_write_all (d : Disk) (name buf data : Bytes) : Disk * Bytes :=
  if length data <? BUF_CAPACITY - length buf then (d, buf ++ data)
  else
    let '(d, buf) :=
      if BUF_CAPACITY - length buf <? length data then (os_append name buf d, []) else (d, buf) in
    if BUF_CAPACITY <=? length data then (os_append name data d, buf) else (d, buf ++ data).

Definition open_writer (d : Disk) (now_ms : Z) (compress : bool) : Disk * SegmentWriter :=
  let sequence := next_sequence d in
  let name := segment_name sequence now_ms compress in
  let d := open_append d name in
  let len := match d !! name with Some f => length (f_content f) | None => 0 end in
  (d, mkWriter name [] compress sequence (Z.of_nat len) 0 0).

(** [SegmentWriter::flush]: the buffer to the file, then a sync. *)
Definition writer_flush (d : Disk) (w : SegmentWriter) : Disk * SegmentWriter :=
  (os_sync (w_name w) (os_append (w_name w) (w_buf w) d),
   mkWriter (w_name w) [] (w_compress w) (w_sequence w) (w_bytes_written w) (w_last_entry_size w)
     (w_rotation_count w)).

(** The old file's buffer is empty when it is dropped. *)
Definition writer_rotate (d : Disk) (w : SegmentWriter) (now_ms : Z) : Disk * SegmentWriter :=
  let '(d, w) := writer_flush d w in
  let sequence := u64_saturating_add (w_sequence w) 1 in
  let name := segment_name sequence now_ms (w_compress w) in
  (open_append d name,
   mkWriter name [] (w_compress w) sequence 0 (w_last_entry_size w)
     (u64_saturating_add (w_rotation_count w) 1)).

Definition append_encoded (d : Disk) (w : SegmentWriter) (encoded : Bytes) (segment_size_bytes now_ms : Z)
    : Disk * SegmentWriter :=
  let '(d, buf) := buf_write_all d (w_name w) (w_buf w) encoded in
  let bytes_written := u64_saturating_add (w_bytes_written w) (Z.of_nat (length encoded)) in
  let w := mkWriter (w_name w) buf (w_compress w) (w_sequence w) bytes_written (length encoded)
             (w_rotation_count w) in
  if (segment_size_bytes <=? bytes_written)%Z then writer_rotate d w now_ms else (d, w).

Definition take_rotation_count (w : SegmentWriter) : Z * SegmentWriter :=
  (w_rotation_count w,
   mkWriter (w_name w) (w_buf w) (w_compress w) (w_sequence w) (w_bytes_written w)
     (w_last_entry_size w) 0).

(** ** A crash

    A file keeps at least what was synced and at most what was written; the
    writer's buffer is gone. *)
Definition crash (d d' : Disk) : Prop :=
  ∀ name, match d !! name with
          | Some f => ∃ k, f_synced f ≤ k ≤ length (f_content f) ∧
                           d' !! name = Some (mkFile (take k (f_content f)) k)
          | None => d' !! name = None
          end.

(** Everything in the directory is durable. *)
Definition settled (d : Disk) : Prop := map_Forall (λ _ f, f_synced f = length (f_content f)) d.

(** ** The order of names *)
Lemma name_leb_refl x : name_leb x x = true.
Proof. induction x; simpl; [done|]. by rewrite Z.ltb_irrefl. Qed.

Lemma name_leb_trans x y z : name_leb x y = true → name_leb y z = true → name_leb x z = true.
Proof.
  revert y z. induction x as [|a x IH]; intros [|b y] [|c z]; simpl; try done.
  destruct (a <? b)%Z eqn:?, (b <? a)%Z eqn:?, (b <? c)%Z eqn:?, (c <? b)%Z eqn:?,
    (a <? c)%Z eqn:?, (c <? a)%Z eqn:?; bool_case; try lia; try done. apply IH.
Qed.

#[export] Instance name_le_preorder : PreOrder name_le.
Proof. split; [exact name_leb_refl|exact name_leb_trans]. Qed.

#[export] Instance name_le_antisymm : AntiSymm (=) name_le.
Proof.
  unfold name_le. intros x. induction x as [|a x IH]; intros [|b y]; simpl; try done.
  destruct (a <? b)%Z eqn:?, (b <? a)%Z eqn:?; bool_case; try lia; try done.
  intros ??. f_equal; [lia|]. by apply IH.
Qed.

#[export] Instance name_le_total : Total name_le.
Proof.
  unfold name_le. intros x. induction x as [|a x IH]; intros [|b y]; simpl; auto.
  destruct (a <? b)%Z eqn:?, (b <? a)%Z eqn:?; bool_case; try lia; auto.
Qed.

(** [paths] is the one sorted listing of the matching names. *)
Lemma paths_perm d : paths d ≡ₚ filter (λ name, segment_matches name = true) (elements (dom d)).
Proof. unfold paths. apply merge_sort_Permutation. Qed.

Lemma paths_sorted d : StronglySorted name_le (paths d).
Proof. unfold paths. apply (StronglySorted_merge_sort _). Qed.

Lemma elem_of_paths d n : n ∈ paths d ↔ segment_matches n = true ∧ is_Some (d !! n).
Proof. rewrite paths_perm, list_elem_of_filter, elem_of_elements, elem_of_dom. done. Qed.

Lemma paths_unique d l :
  StronglySorted name_le l → NoDup l →
  (∀ n, n ∈ l ↔ segment_matches n = true ∧ is_Some (d !! n)) → paths d = l.
Proof.
  intros Hs Hnd Hl. apply (StronglySorted_unique name_le); [apply paths_sorted|done|].
  apply NoDup_Permutation; [|done|].
  - rewrite paths_perm. apply NoDup_filter, NoDup_elements.
  - intros n. by rewrite elem_of_paths, Hl.
Qed.

Lemma paths_nodup d : NoDup (paths d).
Proof. rewrite paths_perm. apply NoDup_filter, NoDup_elements. Qed.

Lemma paths_dom d d' : dom d = dom d' → paths d = paths d'.
Proof. unfold paths. by intros ->. Qed.
