(* ===== verification/SegmentProofs.v ===== *)
(** * Log segments: lemmas

    Names sort by sequence number and give it back, listing the directory gives
    the segments in the order they were written, and what a crash leaves of
    them decodes to a prefix of what was appended. *)

From S2P Require Import Prelude Helpers Codec Wal Segments.

(** ** Decimal digits of fixed width *)
Fixpoint fixed_digits (k : nat) (n : Z) : Bytes :=
  match k with
  | O => []
  | S k' => (48 + (n / 10 ^ Z.of_nat k') mod 10)%Z :: fixed_digits k' n
  end.

Lemma length_fixed_digits k n : length (fixed_digits k n) = k.
Proof. induction k; simpl; auto. Qed.

Lemma fixed_digits_mod k n m :
  (n mod 10 ^ Z.of_nat k = m mod 10 ^ Z.of_nat k)%Z → fixed_digits k n = fixed_digits k m.
Proof.
  revert n m. induction k as [|k IH]; intros n m Hnm; [done|]. cbn [fixed_digits].
  rewrite Nat2Z.inj_succ, Z.pow_succ_r in Hnm by lia.
  assert (0 < 10 ^ Z.of_nat k)%Z by (apply Z.pow_pos_nonneg; lia).
  rewrite (Z.mul_comm 10), !Z.rem_mul_r in Hnm by lia.
  pose proof (Z.mod_pos_bound n (10 ^ Z.of_nat k) ltac:(lia)).
  pose proof (Z.mod_pos_bound m (10 ^ Z.of_nat k) ltac:(lia)).
  assert ((n / 10 ^ Z.of_nat k) mod 10 = (m / 10 ^ Z.of_nat k) mod 10)%Z as Hd by nia.
  rewrite Hd in *. f_equal. apply IH. lia.
Qed.

Lemma parse_digits_fixed acc l v :
  parse_digits acc l = Some v →
  ∃ w, v = (acc * 10 ^ Z.of_nat (length l) + w)%Z ∧ (0 ≤ w < 10 ^ Z.of_nat (length l))%Z ∧
       l = fixed_digits (length l) w.
Proof.
  revert acc. induction l as [|b l IH]; intros acc Hp.
  { injection Hp as <-. exists 0%Z. simpl. split_and!; [lia..|done]. }
  cbn [parse_digits] in Hp. apply bind_Some in Hp as (x & Hx & Hp).
  destruct (IH _ Hp) as (w & -> & Hw & El). cbn [length fixed_digits].
  rewrite Nat2Z.inj_succ, Z.pow_succ_r by lia. set (P := (10 ^ Z.of_nat (length l))%Z) in *.
  assert (b = 48 + x ∧ 0 ≤ x ≤ 9)%Z as [-> Hx9].
  { unfold digit in Hx. destruct ((48 <=? b) && (b <=? 57))%Z eqn:E; [|done]. bool_case.
    injection Hx as <-. lia. }
  exists (x * P + w)%Z. split_and!; [nia..|]. f_equal.
  - rewrite Z.div_add_l by lia. rewrite (Z.div_small w) by lia. rewrite Z.mod_small; lia.
  - rewrite El at 1. apply fixed_digits_mod. fold P. rewrite Z.add_comm, Z_mod_plus_full. done.
Qed.

Lemma digits_of_length fuel n acc : length (digits_of fuel n acc) ≤ fuel + length acc.
Proof.
  revert n acc. induction fuel as [|fuel IH]; intros n acc; cbn [digits_of]; [lia|].
  destruct (n <? 10)%Z; [simpl; lia|]. specialize (IH (n / 10)%Z ((48 + n mod 10)%Z :: acc)).
  cbn [length] in IH. lia.
Qed.

Lemma parse_zeros m : parse_digits 0 (replicate m 48%Z) = Some 0%Z.
Proof. induction m as [|m IH]; [done|]. cbn [replicate parse_digits]. exact IH. Qed.

Lemma u64_lt_1e20 n : is_u64 n → (0 ≤ n < 10 ^ Z.of_nat 20)%Z.
Proof. unfold is_u64, u64_MAX. change (10 ^ Z.of_nat 20)%Z with 100000000000000000000%Z. lia. Qed.

Lemma u64_padded_fixed n :
  is_u64 n → u64_padded n = fixed_digits 20 n ∧ parse_digits 0 (u64_padded n) = Some n.
Proof.
  intros Hn%u64_lt_1e20. unfold u64_padded, u64_to_string.
  pose proof (digits_of_length 20 n []) as Hl. destruct (digits_of_parse 20 n [] Hn) as (ds & E & _ & Hp).
  rewrite app_nil_r in E. rewrite E in *. cbn [length] in Hl.
  assert (parse_digits 0 (replicate (20 - length ds) 48%Z ++ ds) = Some n) as Hpd.
  { rewrite parse_digits_app, parse_zeros. simpl. by rewrite Hp. }
  split; [|done]. destruct (parse_digits_fixed _ _ _ Hpd) as (w & Hv & _ & El).
  rewrite length_app, length_replicate in *. replace (20 - length ds + length ds) with 20 in * by lia.
  rewrite El. by replace w with n by lia.
Qed.

Lemma fixed_digits_lt k a b x y :
  (0 ≤ a < b)%Z → (b < 10 ^ Z.of_nat k)%Z →
  name_leb (fixed_digits k a ++ x) (fixed_digits k b ++ y) = true.
Proof.
  revert a b. induction k as [|k IH]; intros a b Hab Hb.
  { change (10 ^ Z.of_nat 0)%Z with 1%Z in Hb. lia. }
  cbn [fixed_digits app name_leb]. rewrite Nat2Z.inj_succ, Z.pow_succ_r in Hb by lia.
  set (P := (10 ^ Z.of_nat k)%Z) in *. assert (0 < P)%Z by (apply Z.pow_pos_nonneg; lia).
  pose proof (Z.div_mod a P ltac:(lia)). pose proof (Z.div_mod b P ltac:(lia)).
  pose proof (Z.mod_pos_bound a P ltac:(lia)). pose proof (Z.mod_pos_bound b P ltac:(lia)).
  rewrite !(Z.mod_small (_ / P) 10) by (split; [apply Z.div_pos; lia|apply Z.div_lt_upper_bound; lia]).
  destruct (_ <? _)%Z eqn:E1; [done|]. destruct (48 + b / P <? _)%Z eqn:E2; bool_case; [nia|].
  rewrite (fixed_digits_mod k a (a mod P)), (fixed_digits_mod k b (b mod P))
    by (fold P; by rewrite Z.mod_mod by lia).
  apply IH; [nia|lia].
Qed.

Lemma name_leb_app p x y : name_leb (p ++ x) (p ++ y) = name_leb x y.
Proof. induction p as [|a p IH]; [done|]. simpl. by rewrite Z.ltb_irrefl. Qed.

(** Names sort by sequence number, whatever the timestamps. *)
Lemma segment_name_le q q' t t' c c' :
  is_u64 q → is_u64 q' → (q < q')%Z → name_le (segment_name q t c) (segment_name q' t' c').
Proof.
  intros Hq Hq' Hlt. unfold name_le, segment_name. rewrite name_leb_app.
  cbn [name_leb]. rewrite Z.ltb_irrefl.
  rewrite (proj1 (u64_padded_fixed q Hq)), (proj1 (u64_padded_fixed q' Hq')).
  apply fixed_digits_lt; [unfold is_u64 in *; lia|]. by apply u64_lt_1e20.
Qed.

(** ** The sequence number of a name *)
Definition plain (b : Z) : Prop := is_ascii_digit b = true.

Lemma u64_to_string_plain n : is_u64 n → Forall plain (u64_to_string n).
Proof.
  intros Hn. apply Forall_forall. intros b Hb.
  destruct (digits_of_chars 20 n [] b ltac:(unfold is_u64 in *; lia) Hb) as [?|Hx]; [done|].
  by apply elem_of_nil in Hx.
Qed.

Lemma u64_padded_plain n : is_u64 n → Forall plain (u64_padded n).
Proof.
  intros Hn. unfold u64_padded. apply Forall_app_2; [|by apply u64_to_string_plain].
  apply Forall_replicate. done.
Qed.

Lemma split_dash_plain s rest :
  Forall plain s → split_dash (s ++ DASH :: rest) = s :: split_dash rest.
Proof.
  induction 1 as [|b s Hb _ IH]; [done|]. cbn [app split_dash]. rewrite IH.
  unfold plain, is_ascii_digit, in_range, DASH in *. bool_case. by rewrite (proj2 (Z.eqb_neq _ _)) by lia.
Qed.

Lemma strip_suffix_app s suffix : strip_suffix suffix (s ++ suffix) = Some s.
Proof.
  unfold strip_suffix. rewrite length_app, (proj2 (Nat.leb_le _ _)) by lia.
  replace (length s + length suffix - length suffix) with (length s) by lia.
  rewrite drop_app_length, take_app_length. cbn [andb]. by rewrite bytes_eqb_refl.
Qed.

Lemma strip_suffix_Some s suffix name : strip_suffix suffix name = Some s → name = s ++ suffix.
Proof.
  unfold strip_suffix. destruct (_ && _) eqn:E; [|done]. intros [= <-].
  apply andb_true_iff in E as [_ E%bytes_eqb_true]. by rewrite <-(take_drop (length name - length suffix) name) at 1; rewrite E.
Qed.

Lemma utf8_valid_ascii s rest :
  Forall (λ b, in_range 0 127 b = true) s → utf8_valid (s ++ rest) = utf8_valid rest.
Proof. induction 1 as [|b s Hb _ IH]; [done|]. cbn [app utf8_valid]. by rewrite Hb. Qed.

Lemma plain_ascii s : Forall plain s → Forall (λ b, in_range 0 127 b = true) s.
Proof.
  intros H. eapply Forall_impl; [exact H|]. unfold plain, is_ascii_digit, in_range. intros b Hb.
  bool_case. rewrite !(proj2 (Z.leb_le _ _)) by lia. done.
Qed.

Definition suffix_of (c : bool) : Bytes := if c then WAL_COMPRESSED_SUFFIX else WAL_SUFFIX.

(** The stem of a segment's name. *)
Definition segment_body (q t : Z) : Bytes :=
  SEGMENT ++ DASH :: u64_padded q ++ DASH :: u64_to_string t.

Lemma segment_name_eq q t c : segment_name q t c = segment_body q t ++ suffix_of c.
Proof. unfold segment_name, segment_body, suffix_of. by rewrite <-!app_assoc, <-!app_comm_cons, <-!app_assoc. Qed.

Lemma segment_utf8 q t c : is_u64 q → is_u64 t → utf8_valid (segment_name q t c) = true.
Proof.
  intros Hq Ht. unfold segment_name. rewrite utf8_valid_ascii by (repeat constructor).
  rewrite app_comm_cons, utf8_valid_ascii by (constructor; [done|by apply plain_ascii, u64_padded_plain]).
  rewrite app_comm_cons, utf8_valid_ascii by (constructor; [done|by apply plain_ascii, u64_to_string_plain]).
  by destruct c.
Qed.

Lemma segment_name_stem q t c : segment_stem (segment_name q t c) = Some (segment_body q t).
Proof.
  rewrite segment_name_eq. unfold segment_stem. destruct c; cbn [suffix_of].
  - by rewrite strip_suffix_app.
  - destruct (strip_suffix WAL_COMPRESSED_SUFFIX _) as [s|] eqn:E; [|by rewrite strip_suffix_app].
    apply strip_suffix_Some in E. apply (f_equal last) in E.
    rewrite !last_app in E. simpl in E. done.
Qed.

Lemma segment_sequence_name q t c :
  is_u64 q → is_u64 t → segment_sequence (segment_name q t c) = Some q.
Proof.
  intros Hq Ht. unfold segment_sequence. rewrite segment_utf8 by done.
  rewrite segment_name_stem. cbn [mbind option_bind]. unfold segment_body.
  assert (split_dash (SEGMENT ++ DASH :: u64_padded q ++ DASH :: u64_to_string t)
    = SEGMENT :: u64_padded q :: split_dash (u64_to_string t)) as ->.
  { cbn [app SEGMENT split_dash Z.eqb DASH]. rewrite split_dash_plain by (by apply u64_padded_plain). done. }
  assert (∃ p ps, split_dash (u64_to_string t) = p :: ps) as (p & ps & ->).
  { destruct (u64_to_string t) as [|b s]; simpl; [eauto|]. destruct (_ =? _)%Z; [eauto|].
    destruct (split_dash s); eauto. }
  rewrite bytes_eqb_refl. unfold parse_u64.
  destruct (u64_padded_fixed q Hq) as [Ef Hp]. pose proof (u64_padded_plain q Hq) as Hpl.
  destruct (u64_padded q) as [|b s] eqn:E; [done|].
  assert ((b =? 43)%Z = false) as ->.
  { apply Forall_cons in Hpl as [Hb _]. unfold plain, is_ascii_digit, in_range in Hb. bool_case.
    apply Z.eqb_neq. lia. }
  rewrite Hp. cbn [mbind option_bind]. unfold is_u64 in Hq. by rewrite (proj2 (Z.leb_le _ _)) by lia.
Qed.

Lemma segment_name_matches q t c : is_u64 q → is_u64 t → segment_matches (segment_name q t c) = true.
Proof.
  intros Hq Ht. unfold segment_matches. rewrite segment_utf8 by done. cbn [andb].
  rewrite segment_name_eq. unfold ends_with. destruct c; cbn [suffix_of]; rewrite strip_suffix_app;
    rewrite (bool_decide_true (is_Some (Some _))) by done; [by rewrite orb_true_r|done].
Qed.

(** ** A prefix of a log *)
Section prefix.
Context `{Crc32, Lz4} (c : bool).

Lemma log_of_app rs rs' : log_of c (rs ++ rs') = log_of c rs ++ log_of c rs'.
Proof. unfold log_of. by rewrite map_app, concat_app. Qed.

Lemma log_of_snoc rs r : log_of c (rs ++ [r]) = log_of c rs ++ encode_frame r c.
Proof. rewrite log_of_app. unfold log_of at 2. cbn [map concat]. by rewrite app_nil_r. Qed.

Lemma log_of_take_le rs i j : i ≤ j → length (log_of c (take i rs)) ≤ length (log_of c (take j rs)).
Proof.
  intros Hij. rewrite <-(take_drop i (take j rs)), take_take, Nat.min_l by done.
  rewrite log_of_app, length_app. lia.
Qed.

Lemma log_prefix_split rs p :
  p `prefix_of` log_of c rs →
  p = log_of c rs ∨
  ∃ pre r post p' q,
    rs = pre ++ r :: post ∧ p = log_of c pre ++ p' ∧ encode_frame r c = p' ++ q ∧ q ≠ [].
Proof.
  revert p. induction rs as [|r rs IH]; intros p [z Hz].
  { left. symmetry in Hz. by apply app_nil in Hz as [-> _]. }
  change (log_of c (r :: rs)) with (encode_frame r c ++ log_of c rs) in Hz |- *.
  destruct (app_eq_inv _ _ _ _ Hz) as [(k & E1 & E2)|(k & E1 & E2)].
  - destruct k as [|x k].
    + rewrite app_nil_r in E1. subst p. simpl in E2. destruct (IH []) as [Hl|Hr]; [by exists z| |].
      * left. by rewrite <-Hl, app_nil_r.
      * right. destruct Hr as (pre & r' & post & p' & q & -> & Ep & ? & ?).
        exists (r :: pre), r', post, p', q. split_and!; try done.
        change (log_of c (r :: pre)) with (encode_frame r c ++ log_of c pre).
        by rewrite <-app_assoc, <-Ep, app_nil_r.
    + right. by exists [], r, rs, p, (x :: k).
  - subst p. destruct (IH k) as [->|Hr]; [by exists z|by left|]. right.
    destruct Hr as (pre & r' & post & p' & q & -> & -> & ? & ?).
    exists (r :: pre), r', post, p', q. split_and!; try done.
    change (log_of c (r :: pre)) with (encode_frame r c ++ log_of c pre). by rewrite <-app_assoc.
Qed.

(** What a prefix of a log decodes to: at least the records that are
    completely inside it. *)
Lemma log_prefix_decodes rs p :
  Forall rec_ok rs → p `prefix_of` log_of c rs →
  ∃ m, m ≤ length rs ∧ decode_records p = Done (map stripped (take m rs)) ∧
       ∀ j, j ≤ length rs → length (log_of c (take j rs)) ≤ length p → j ≤ m.
Proof.
  intros Hrs [->|(pre & r & post & p' & q & -> & -> & Hf & Hq)]%log_prefix_split.
  - exists (length rs). split_and!; [done| |done]. rewrite firstn_all. by apply decode_log.
  - apply Forall_app in Hrs as [Hpre [Hr _]%Forall_cons]. exists (length pre).
    split_and!; [rewrite length_app; lia| |].
    + rewrite take_app_length. by eapply decode_segment.
    + intros j Hj Hlen. destruct (decide (j ≤ length pre)); [done|].
      pose proof (log_of_take_le (pre ++ r :: post) (S (length pre)) j ltac:(lia)) as Hle.
      replace (S (length pre)) with (length pre + 1) in Hle by lia.
      rewrite take_app_add in Hle. cbn [take] in Hle. rewrite take_0 in Hle.
      rewrite log_of_snoc, !length_app, Hf, length_app in *. destruct q; [done|]. simpl in Hle. lia.
Qed.
End prefix.

(** ** Listing the directory *)
Lemma paths_insert_last d n f :
  segment_matches n = true → d !! n = None → Forall (λ m, name_le m n) (paths d) →
  paths (<[n := f]> d) = paths d ++ [n].
Proof.
  intros Hm Hn Hle. apply paths_unique.
  - apply StronglySorted_app_2; [|apply paths_sorted|repeat constructor].
    intros x1 x2 Hx ->%list_elem_of_singleton. rewrite Forall_forall in Hle. by apply Hle.
  - apply NoDup_app. split_and!; [apply paths_nodup| |apply NoDup_singleton].
    intros x [_ Hx]%elem_of_paths ->%list_elem_of_singleton. rewrite Hn in Hx. by destruct Hx.
  - intros x. rewrite elem_of_app, elem_of_paths, list_elem_of_singleton.
    destruct (decide (x = n)) as [->|]; [rewrite lookup_insert_eq; naive_solver|].
    rewrite lookup_insert_ne by done. naive_solver.
Qed.

Lemma paths_alter g n d : paths (alter g n d) = paths d.
Proof. apply paths_dom, dom_alter_L. Qed.

Lemma paths_os_append n b d : paths (os_append n b d) = paths d.
Proof. apply paths_alter. Qed.

Lemma paths_os_sync n d : paths (os_sync n d) = paths d.
Proof. apply paths_alter. Qed.

Lemma crash_paths d d' : crash d d' → paths d' = paths d.
Proof.
  intros Hc. apply paths_dom, set_eq. intros n. rewrite !elem_of_dom. specialize (Hc n).
  destruct (d !! n); [destruct Hc as (? & _ & ->)|rewrite Hc]; by split.
Qed.

(** Every segment of the directory has a proper name, with a sequence number
    of at most [q]. *)
Definition named_upto (q : Z) (d : Disk) : Prop :=
  ∀ n, n ∈ paths d → ∃ q' t c, n = segment_name q' t c ∧ is_u64 q' ∧ is_u64 t ∧ (q' ≤ q)%Z.

Lemma foldl_max_ge (qs : list Z) q x : x ∈ q :: qs → (x ≤ foldl Z.max q qs)%Z.
Proof.
  revert q x. induction qs as [|a qs IH]; intros q x Hx.
  { apply list_elem_of_singleton in Hx. simpl. lia. }
  cbn [foldl]. pose proof (IH (q `max` a)%Z (q `max` a)%Z ltac:(by left)).
  apply elem_of_cons in Hx as [->|[->|Hx]%elem_of_cons]; [lia..|].
  apply IH. by right.
Qed.

Lemma foldl_max_le (qs : list Z) q b : Forall (λ x, x ≤ b)%Z (q :: qs) → (foldl Z.max q qs ≤ b)%Z.
Proof.
  revert q. induction qs as [|a qs IH]; intros q Hx; [by apply Forall_cons in Hx as [? _]|].
  cbn [foldl]. apply IH. apply Forall_cons in Hx as [? [? ?]%Forall_cons]. constructor; [lia|done].
Qed.

(** The next sequence number is above all of them. *)
Lemma next_sequence_spec q d :
  named_upto q d → (-1 ≤ q < u64_MAX)%Z →
  is_u64 (next_sequence d) ∧ (next_sequence d ≤ q + 1)%Z ∧
  (∀ n, n ∈ paths d → ∃ q' t c, n = segment_name q' t c ∧ is_u64 q' ∧ is_u64 t ∧ (q' < next_sequence d)%Z).
Proof.
  intros Hn Hq. unfold next_sequence.
  assert (∀ x, x ∈ omap segment_sequence (paths d) → 0 ≤ x ≤ q)%Z as Hall.
  { intros x (n & Hin & Hs)%list_elem_of_omap. destruct (Hn n Hin) as (q' & t & c & -> & Hq' & Ht & ?).
    rewrite segment_sequence_name in Hs by done. injection Hs as ->. unfold is_u64 in Hq'. lia. }
  assert (∀ n, n ∈ paths d → ∃ q' t c, n = segment_name q' t c ∧ is_u64 q' ∧ is_u64 t ∧
    q' ∈ omap segment_sequence (paths d)) as Hin.
  { intros n Hin. destruct (Hn n Hin) as (q' & t & c & -> & Hq' & Ht & ?). exists q', t, c.
    split_and!; try done. apply list_elem_of_omap. exists (segment_name q' t c).
    split; [done|by apply segment_sequence_name]. }
  destruct (omap segment_sequence (paths d)) as [|x xs].
  - split_and!; [unfold is_u64, u64_MAX; lia|lia|]. intros n (q' & t & c & _ & _ & _ & Hx)%Hin.
    by apply elem_of_nil in Hx.
  - pose proof (foldl_max_ge xs x x ltac:(by left)) as Hge. pose proof (Hall x ltac:(by left)).
    pose proof (foldl_max_le xs x q ltac:(apply Forall_forall; intros; by apply Hall)) as Hle.
    unfold u64_saturating_add. split; [unfold is_u64; lia|]. split; [lia|].
    intros n (q' & t & c & -> & ? & ? & Hx)%Hin. exists q', t, c. do 3 (split; [done|]).
    pose proof (foldl_max_ge xs x q' Hx). lia.
Qed.

(** ** A writer at work

    [running d0 d w closed cur nf]: the directory [d0] had its segments; since
    then the writer has filled the segments [closed] and is filling another one
    with [cur], of which the first [nf] records are durable. *)
Section writer.
Context `{Crc32, Lz4} (c : bool) (d0 : Disk).

Record running (d : Disk) (w : SegmentWriter) (closed : list (Bytes * list MutationRecord))
    (cur : list MutationRecord) (nf : nat) : Prop := mkRunning {
  run_compress : w_compress w = c;
  run_paths : paths d = paths d0 ++ closed.*1 ++ [w_name w];
  run_old : ∀ n, n ∈ paths d0 → d !! n = d0 !! n;
  run_closed : Forall (λ nr, d !! nr.1 = Some (mkFile (log_of c nr.2) (length (log_of c nr.2)))) closed;
  run_open : ∃ f, d !! w_name w = Some f ∧ f_content f ++ w_buf w = log_of c cur ∧
                  length (log_of c (take nf cur)) ≤ f_synced f ≤ length (f_content f);
  run_flushed : nf ≤ length cur;
  run_sequence : is_u64 (w_sequence w);
  run_named : named_upto (w_sequence w) d;
}.

Lemma running_name_fresh d w closed cur nf :
  running d w closed cur nf → w_name w ∉ paths d0 ∧ w_name w ∉ closed.*1.
Proof.
  intros Hr. pose proof (paths_nodup d) as Hnd. rewrite (run_paths _ _ _ _ _ Hr) in Hnd.
  apply NoDup_app in Hnd as (_ & Hd & Hnd). apply NoDup_app in Hnd as (_ & Hd' & _).
  split; intros Hin.
  - apply (Hd _ Hin). apply elem_of_app. right. by left.
  - apply (Hd' _ Hin). by left.
Qed.

(** Changing the open file only. *)
Lemma running_alter d w closed cur nf d' w' cur' nf' f f' :
  running d w closed cur nf → d !! w_name w = Some f → d' = <[w_name w := f']> d →
  w_name w' = w_name w → w_compress w' = w_compress w → w_sequence w' = w_sequence w →
  f_content f' ++ w_buf w' = log_of c cur' →
  length (log_of c (take nf' cur')) ≤ f_synced f' ≤ length (f_content f') → nf' ≤ length cur' →
  running d' w' closed cur' nf'.
Proof.
  intros Hr Hf -> En Ec Es Hc Hs Hnf. destruct (running_name_fresh _ _ _ _ _ Hr) as [Hn0 Hnc].
  destruct Hr as [Hc0 Hp Ho Hcl _ _ Hseq Hname].
  assert (paths (<[w_name w := f']> d) = paths d) as Hp'.
  { apply paths_dom. rewrite dom_insert_L. apply elem_of_dom_2 in Hf. set_solver. }
  split; rewrite ?En, ?Ec, ?Es; try done.
  - by rewrite Hp'.
  - intros n Hn. rewrite lookup_insert_ne; [by apply Ho|]. by intros <-.
  - apply Forall_forall. intros nr Hin. rewrite Forall_forall in Hcl.
    rewrite lookup_insert_ne; [by apply Hcl|]. intros E. apply Hnc. rewrite E. by apply list_elem_of_fmap_2.
  - exists f'. by rewrite lookup_insert_eq.
  - intros n. rewrite Hp'. apply Hname.
Qed.

Lemma flush_running d w closed cur nf :
  running d w closed cur nf →
  running (writer_flush d w).1 (writer_flush d w).2 closed cur (length cur).
Proof.
  intros Hr. destruct (run_open _ _ _ _ _ Hr) as (f & Hf & Hb & _).
  eapply (running_alter _ _ _ _ _ _ _ _ _ f (mkFile (log_of c cur) (length (log_of c cur)))); try done.
  - unfold writer_flush, os_sync, os_append. cbn [fst]. apply map_eq. intros n.
    destruct (decide (n = w_name w)) as [->|]; simplify_map_eq; [|done].
    simpl. by rewrite Hb.
  - cbn. by rewrite app_nil_r.
  - cbn [f_synced f_content]. by rewrite firstn_all.
Qed.

(** Bytes through the buffer. *)
Lemma buf_write_all_spec d n buf data d' buf' f :
  buf_write_all d n buf data = (d', buf') → d !! n = Some f →
  ∃ f', d' = <[n := f']> d ∧ f_content f' ++ buf' = f_content f ++ buf ++ data ∧
        f_synced f' = f_synced f ∧ length (f_content f) ≤ length (f_content f').
Proof.
  unfold buf_write_all, os_append. intros E Hf.
  assert (∀ x, alter (λ g, mkFile (f_content g ++ x) (f_synced g)) n d =
    <[n := mkFile (f_content f ++ x) (f_synced f)]> d) as Ha.
  { intros x. apply map_eq. intros m. destruct (decide (m = n)) as [->|]; by simplify_map_eq. }
  destruct (length data <? _) eqn:E1; [|destruct (_ <? length data) eqn:E2;
    destruct (BUF_CAPACITY <=? length data) eqn:E3]; cbv beta iota in E; injection E as <- <-.
  - exists f. rewrite insert_id by done. by split_and!.
  - exists (mkFile (f_content f ++ buf ++ data) (f_synced f)). split_and!; try done; cbn [f_content].
    + rewrite Ha. apply map_eq. intros m. destruct (decide (m = n)) as [->|]; simplify_map_eq; [|done].
      by rewrite app_assoc.
    + by rewrite app_nil_r.
    + rewrite length_app. lia.
  - exists (mkFile (f_content f ++ buf) (f_synced f)). split_and!; try done; cbn [f_content].
    + by rewrite <-app_assoc.
    + rewrite length_app. lia.
  - destruct buf as [|x buf].
    + exists (mkFile (f_content f ++ data) (f_synced f)). split_and!; try done; cbn [f_content].
      * by rewrite app_nil_r.
      * rewrite length_app. lia.
    + exfalso. unfold BUF_CAPACITY in *. bool_case. cbn [length] in *. lia.
  - exists f. rewrite insert_id by done. by split_and!.
Qed.

(** Opening the next segment, after those that are there. *)
Lemma open_fresh d q t f :
  named_upto (q - 1) d → is_u64 q → is_u64 t →
  d !! segment_name q t c = None ∧
  paths (<[segment_name q t c := f]> d) = paths d ++ [segment_name q t c] ∧
  named_upto q (<[segment_name q t c := f]> d).
Proof.
  intros Hn Hq Ht. set (n := segment_name q t c).
  assert (segment_matches n = true) as Hm by (by apply segment_name_matches).
  assert (Forall (λ m, name_le m n) (paths d)) as Hle.
  { apply Forall_forall. intros m (q' & t' & c' & -> & ? & ? & ?)%Hn. apply segment_name_le; [done..|lia]. }
  assert (d !! n = None) as Hf.
  { destruct (d !! n) eqn:E; [|done]. destruct (Hn n) as (q' & t' & c' & En & ? & ? & ?).
    { apply elem_of_paths. by rewrite E. }
    apply (f_equal segment_sequence) in En. unfold n in En. rewrite !segment_sequence_name in En by done.
    injection En as ->. lia. }
  split; [done|]. pose proof (paths_insert_last d n f Hm Hf Hle) as Hp. split; [done|].
  intros m. rewrite Hp, elem_of_app, list_elem_of_singleton. intros [Hin| ->].
  - destruct (Hn m Hin) as (q' & t' & c' & ? & ? & ? & ?). exists q', t', c'. split_and!; try done. lia.
  - by exists q, t, c.
Qed.

Lemma open_running t :
  named_upto (next_sequence d0 - 1) d0 → is_u64 (next_sequence d0) → is_u64 t →
  running (open_writer d0 t c).1 (open_writer d0 t c).2 [] [] 0.
Proof.
  intros Hn Hq Ht.
  destruct (open_fresh d0 (next_sequence d0) t (mkFile [] 0) Hn Hq Ht) as (Hf & Hp & Hn').
  unfold open_writer, open_append. rewrite Hf. cbn [fst snd].
  split; cbn [w_compress w_name w_buf w_sequence]; try done.
  - intros n Hin. apply elem_of_paths in Hin as [_ Hs]. rewrite lookup_insert_ne; [done|].
    intros <-. rewrite Hf in Hs. by destruct Hs.
  - exists (mkFile [] 0). by rewrite lookup_insert_eq.
Qed.

(** A full segment is closed and the next one opened. *)
Lemma rotate_running d w closed cur nf t :
  running d w closed cur nf → (w_sequence w < u64_MAX)%Z → is_u64 t →
  running (writer_rotate d w t).1 (writer_rotate d w t).2 (closed ++ [(w_name w, cur)]) [] 0.
Proof.
  intros Hr%flush_running Hw Ht. destruct (writer_flush d w) as [d1 w1] eqn:E. cbn [fst snd] in Hr.
  assert (w_sequence w1 = w_sequence w ∧ w_compress w1 = w_compress w ∧ w_name w1 = w_name w ∧ w_buf w1 = [])
    as (Es & Ec & Enm & Eb) by (unfold writer_flush in E; injection E as _ <-; done).
  unfold writer_rotate. rewrite E. rewrite Es. destruct Hr as [Hc Hp Ho Hcl Hop _ Hsq Hnm].
  rewrite Es in *. rewrite Hc. unfold u64_saturating_add. rewrite Z.min_r by lia.
  destruct (open_fresh d1 (w_sequence w + 1) t (mkFile [] 0)) as (Hf & Hp' & Hn'); [|unfold is_u64 in *; lia|done|].
  { by replace (w_sequence w + 1 - 1)%Z with (w_sequence w) by lia. }
  unfold open_append. rewrite Hf. cbn [fst snd].
  assert (∀ n, is_Some (d1 !! n) → <[segment_name (w_sequence w + 1) t c := mkFile [] 0]> d1 !! n = d1 !! n) as Hold.
  { intros n [g Hg]. rewrite lookup_insert_ne; [done|]. intros <-. congruence. }
  split; cbn [w_compress w_name w_buf w_sequence]; try done.
  - by rewrite Hp', Hp, Enm, fmap_app, <-!app_assoc.
  - intros n Hin. rewrite Hold; [by apply Ho|]. rewrite Ho by done. by apply elem_of_paths in Hin as [_ ?].
  - apply Forall_app_2.
    + eapply Forall_impl; [exact Hcl|]. intros nr Hnr. cbn. by rewrite Hold, Hnr; [|rewrite Hnr].
    + apply Forall_singleton. cbn [fst snd]. destruct Hop as (f & Hfl & Hcf & Hsy).
      rewrite Enm, Eb, app_nil_r, firstn_all in *.
      rewrite Hold by by rewrite Hfl. rewrite Hfl. destruct f as [fc fs]. cbn [f_content f_synced] in *.
      subst fc. do 2 f_equal. lia.
  - exists (mkFile [] 0). by rewrite lookup_insert_eq.
  - unfold is_u64 in *. lia.
Qed.

(** The records appended so far. *)
Definition appended (closed : list (Bytes * list MutationRecord)) (cur : list MutationRecord) :=
  concat closed.*2 ++ cur.

Lemma append_running d w closed cur nf r size t :
  running d w closed cur nf → (w_sequence w < u64_MAX)%Z → is_u64 t →
  let dw := append_encoded d w (encode_frame r c) size t in
  ∃ closed' cur' nf',
    running dw.1 dw.2 closed' cur' nf' ∧ appended closed' cur' = appended closed cur ++ [r] ∧
    length (concat closed.*2) + nf ≤ length (concat closed'.*2) + nf' ∧
    (w_sequence dw.2 ≤ w_sequence w + 1)%Z.
Proof.
  intros Hr Hw Ht. unfold append_encoded.
  destruct (buf_write_all d (w_name w) (w_buf w) (encode_frame r c)) as [d1 buf] eqn:E.
  destruct (run_open _ _ _ _ _ Hr) as (f & Hf & Hb & Hs).
  destruct (buf_write_all_spec _ _ _ _ _ _ f E Hf) as (f' & -> & Hc' & Hs' & Hl').
  set (w1 := mkWriter _ buf _ _ _ _ _).
  assert (running (<[w_name w := f']> d) w1 closed (cur ++ [r]) nf) as Hr1.
  { eapply (running_alter _ _ _ _ _ _ _ _ _ f f'); try done.
    - unfold w1. cbn [w_buf]. by rewrite Hc', app_assoc, Hb, log_of_snoc.
    - pose proof (run_flushed _ _ _ _ _ Hr). rewrite take_app_le by done. lia.
    - pose proof (run_flushed _ _ _ _ _ Hr). rewrite length_app. lia. }
  destruct (size <=? _)%Z.
  - exists (closed ++ [(w_name w, cur ++ [r])]), [], 0. split_and!.
    + by apply (rotate_running _ w1 _ _ nf).
    + unfold appended. rewrite fmap_app, concat_app. cbn. by rewrite !app_nil_r, app_assoc.
    + rewrite fmap_app, concat_app, length_app. cbn. rewrite app_nil_r, length_app.
      pose proof (run_flushed _ _ _ _ _ Hr). lia.
    + cbn. unfold u64_saturating_add. lia.
  - exists closed, (cur ++ [r]), nf. split_and!; [done| |done|cbn; lia].
    unfold appended. by rewrite app_assoc.
Qed.

(** *** What a crash leaves *)
Lemma read_paths_app d l1 l2 :
  read_paths d (l1 ++ l2) = (r1 ← read_paths d l1; r2 ← read_paths d l2; Done (r1 ++ r2)).
Proof.
  induction l1 as [|n l1 IH]; cbn [app read_paths].
  { cbn [mbind outcome_bind]. by destruct (read_paths d l2). }
  destruct (read_segment d n) as [| | |x]; try done. cbn [mbind outcome_bind]. rewrite IH.
  destruct (read_paths d l1); try done. cbn [mbind outcome_bind]. destruct (read_paths d l2); try done.
  cbn [mbind outcome_bind]. by rewrite app_assoc.
Qed.

Lemma read_paths_ext d d' l :
  Forall (λ n, f_content <$> d !! n = f_content <$> d' !! n) l → read_paths d l = read_paths d' l.
Proof.
  induction 1 as [|n l Hn _ IH]; [done|]. cbn [read_paths]. rewrite IH. unfold read_segment.
  destruct (d !! n), (d' !! n); simplify_eq/=; try done. by rewrite Hn.
Qed.

Lemma crash_settled d d' n f :
  crash d d' → d !! n = Some f → f_synced f = length (f_content f) → d' !! n = Some f.
Proof.
  intros Hc Hf Hs. specialize (Hc n). rewrite Hf in Hc. destruct Hc as (k & Hk & ->).
  replace k with (length (f_content f)) by lia. rewrite firstn_all, <-Hs. by destruct f.
Qed.

Lemma read_closed d' closed :
  Forall (Forall rec_ok) closed.*2 →
  Forall (λ nr, f_content <$> d' !! nr.1 = Some (log_of c nr.2)) closed →
  read_paths d' closed.*1 = Done (map stripped (concat closed.*2)).
Proof.
  induction closed as [|[n rs] closed IH]; intros Hok Hd; [done|].
  apply Forall_cons in Hok as [Hrs Hok]. apply Forall_cons in Hd as [Hn Hd]. cbn [fst snd] in *.
  cbn [fmap list_fmap read_paths concat fst snd]. unfold read_segment.
  destruct (d' !! n) as [f|]; [|done]. injection Hn as Hn. cbn [or_panic mbind outcome_bind].
  rewrite Hn, decode_log by done. cbn [mbind outcome_bind].
  specialize (IH Hok Hd). unfold fmap in *. rewrite IH. cbn [mbind outcome_bind]. by rewrite map_app.
Qed.

Lemma crash_running d w closed cur nf d' old :
  running d w closed cur nf → settled d0 → read_all d0 = Done old →
  Forall rec_ok (appended closed cur) → crash d d' →
  ∃ m, length (concat closed.*2) + nf ≤ m ≤ length (appended closed cur) ∧
       read_all d' = Done (old ++ map stripped (take m (appended closed cur))).
Proof.
  intros Hr Hset Hold Hok Hcr. unfold read_all. rewrite (crash_paths _ _ Hcr), (run_paths _ _ _ _ _ Hr).
  rewrite !read_paths_app.
  assert (read_paths d' (paths d0) = Done old) as ->.
  { rewrite <-Hold. apply read_paths_ext, Forall_forall. intros n Hin.
    pose proof (run_old _ _ _ _ _ Hr n Hin) as Hn. apply elem_of_paths in Hin as [_ [f Hf]].
    rewrite Hf in Hn. rewrite (crash_settled _ _ _ _ Hcr Hn), Hf; [done|]. exact (Hset _ _ Hf). }
  unfold appended in Hok. apply Forall_app in Hok as [Hokc Hok].
  assert (read_paths d' closed.*1 = Done (map stripped (concat closed.*2))) as ->.
  { apply read_closed; [by apply Forall_concat|].
    eapply Forall_impl; [exact (run_closed _ _ _ _ _ Hr)|]. cbn. intros nr Hnr.
    by rewrite (crash_settled _ _ _ _ Hcr Hnr). }
  destruct (run_open _ _ _ _ _ Hr) as (f & Hf & Hb & Hs).
  pose proof (Hcr (w_name w)) as Hk. rewrite Hf in Hk. destruct Hk as (k & Hk & Hd').
  destruct (log_prefix_decodes c cur (take k (f_content f)) Hok) as (m & Hm & Hdec & Hge).
  { etrans; [apply prefix_take|]. rewrite <-Hb. by apply prefix_app_r. }
  exists (length (concat closed.*2) + m). unfold appended. rewrite take_app_add, length_app.
  assert (nf ≤ m).
  { apply Hge; [by apply (run_flushed _ _ _ _ _ Hr)|]. rewrite length_take. lia. }
  split; [lia|]. cbn [mbind outcome_bind read_paths]. unfold read_segment. rewrite Hd'.
  cbn [or_panic mbind outcome_bind f_content]. rewrite Hdec. cbn [mbind outcome_bind].
  by rewrite app_nil_r, map_app, app_assoc.
Qed.
End writer.
