(* ===== verification/WalPipeline.v ===== *)
(** * The write-ahead log pipeline: shard appenders, channels, merger

    [WalAppender] of [persistence.rs], [WalChannels], [TcpExportQueue] and
    [WalWriter] of [persistence/runtime.rs] with the counters of
    [persistence/stats.rs].  Each shard collects records and publishes blocks
    on a bounded channel; one thread takes the blocks round robin, appends
    their records to the log and flushes it.  The threads are interleaved by
    [sys_step], one event at a time: a send that has to wait is an event that
    cannot happen yet.  Clock readings are arguments ([clock n] is read when
    the [n]-th record is appended), and so is what becomes of a frame handed
    to the TCP exporter ([export n]), another thread. *)

From S2P Require Import Prelude Helpers Codec Wal Segments.

(** The fields of [PersistenceConfig] that are read here. *)
Record PersistenceConfig := mkConfig {
  wal_channel_capacity : nat;
  wal_block_max_records : nat;
  wal_block_max_bytes : Z;
  fsync_interval_ms : Z;
  compress_wal : bool;
  segment_size_bytes : Z;
}.

(** ** Channels: [crossbeam_channel::bounded] *)
Abbreviation WalBlock := (list MutationRecord).

Record Channel := mkChannel {
  ch_capacity : nat;
  ch_blocks : list WalBlock;
  ch_open : bool;
}.

Inductive Sent := SentOk (ch : Channel) | SentClosed | SentWaits.

Definition channel_send (ch : Channel) (block : WalBlock) : Sent :=
  if negb (ch_open ch) then SentClosed
  else if length (ch_blocks ch) <? ch_capacity ch
  then SentOk (mkChannel (ch_capacity ch) (ch_blocks ch ++ [block]) (ch_open ch))
  else SentWaits.

Definition channel_try_recv (ch : Channel) : option (WalBlock * Channel) :=
  match ch_blocks ch with
  | [] => None
  | block :: blocks => Some (block, mkChannel (ch_capacity ch) blocks (ch_open ch))
  end.

(** ** Shard appenders *)
Record WalAppender := mkAppender {
  a_pending : list MutationRecord;
  a_pending_bytes : Z;
  a_max_records : nat;
  a_max_bytes : Z;
  a_flush_interval : Z;
  a_last_publish : Z;
}.

Definition estimated_record_bytes (record : MutationRecord) : Z :=
  let len (b : Bytes) := Z.of_nat (length b) in
  u64_saturating_add
    (u64_saturating_add (u64_saturating_add 64 (len (rec_key record))) (len (rec_value record)))
    (match rec_governance record with Some g => len g | None => 0%Z end).

(** [None]: the send waits for room. [false]: [ChannelClosed]. *)
Definition appender_flush (a : WalAppender) (ch : Channel) (now : Z)
    : option (WalAppender * Channel * bool) :=
  match a_pending a with
  | [] => Some (a, ch, true)
  | _ =>
      match channel_send ch (a_pending a) with
      | SentOk ch =>
          Some (mkAppender [] 0 (a_max_records a) (a_max_bytes a) (a_flush_interval a) now, ch, true)
      | SentClosed => Some (a, ch, false)
      | SentWaits => None
      end
  end.

Definition appender_append (a : WalAppender) (ch : Channel) (record : MutationRecord) (now : Z)
    : option (WalAppender * Channel * bool) :=
  let a := mkAppender (a_pending a ++ [record])
             (u64_saturating_add (a_pending_bytes a) (estimated_record_bytes record))
             (a_max_records a) (a_max_bytes a) (a_flush_interval a) (a_last_publish a) in
  if (a_max_records a <=? length (a_pending a)) || (a_max_bytes a <=? a_pending_bytes a)%Z
  then appender_flush a ch now
  else Some (a, ch, true).

Definition appender_flush_due (a : WalAppender) (ch : Channel) (now : Z)
    : option (WalAppender * Channel * bool) :=
  if bool_decide (a_pending a ≠ []) && (a_flush_interval a <=? now - a_last_publish a)%Z
  then appender_flush a ch now
  else Some (a, ch, true).

Definition next_flush_timeout (a : WalAppender) (now : Z) : option Z :=
  if bool_decide (a_pending a ≠ [])
  then Some (Z.max 0 (a_flush_interval a - (now - a_last_publish a))) else None.

(** [WalChannels::new]: appenders and channels, or a configuration error. *)
Definition channels_new (shard_count : nat) (config : PersistenceConfig) (now : Z)
    : option (list WalAppender * list Channel) :=
  if (shard_count =? 0) || (wal_channel_capacity config =? 0) || (wal_block_max_records config =? 0)
     || (wal_block_max_bytes config =? 0)%Z || (fsync_interval_ms config =? 0)%Z
  then None
  else
    let block_capacity :=
      Nat.max 1 ((wal_channel_capacity config + wal_block_max_records config - 1)
                 / wal_block_max_records config) in
    let a := mkAppender [] 0 (wal_block_max_records config) (wal_block_max_bytes config)
               (Z.max 1 (fsync_interval_ms config)) now in
    Some (replicate shard_count a, replicate shard_count (mkChannel block_capacity [] true)).

(** ** The merger *)
Record WalStats := mkStats {
  blocks_merged : Z;
  entries_written : Z;
  segments_rotated : Z;
  bytes_written : Z;
  last_flush_ms : Z;
  tcp_export_frames_queued : Z;
  tcp_export_frames_dropped : Z;
}.

Definition stats_new : WalStats := mkStats 0 0 0 0 0 0 0.

Definition record_append (s : WalStats) (bytes : nat) (rotations : Z) : WalStats :=
  mkStats (blocks_merged s) (u64_saturating_add (entries_written s) 1)
    (u64_saturating_add (segments_rotated s) rotations)
    (u64_saturating_add (bytes_written s) (Z.of_nat bytes)) (last_flush_ms s)
    (tcp_export_frames_queued s) (tcp_export_frames_dropped s).

Definition record_block_merged (s : WalStats) : WalStats :=
  mkStats (u64_saturating_add (blocks_merged s) 1) (entries_written s) (segments_rotated s)
    (bytes_written s) (last_flush_ms s) (tcp_export_frames_queued s) (tcp_export_frames_dropped s).

Definition record_flush (s : WalStats) (timestamp_ms : Z) : WalStats :=
  mkStats (blocks_merged s) (entries_written s) (segments_rotated s) (bytes_written s) timestamp_ms
    (tcp_export_frames_queued s) (tcp_export_frames_dropped s).

Inductive TcpExportQueueResult := Queued | Dropped.

Definition record_result (s : WalStats) (result : TcpExportQueueResult) : WalStats :=
  match result with
  | Queued =>
      mkStats (blocks_merged s) (entries_written s) (segments_rotated s) (bytes_written s)
        (last_flush_ms s) (u64_saturating_add (tcp_export_frames_queued s) 1)
        (tcp_export_frames_dropped s)
  | Dropped =>
      mkStats (blocks_merged s) (entries_written s) (segments_rotated s) (bytes_written s)
        (last_flush_ms s) (tcp_export_frames_queued s)
        (u64_saturating_add (tcp_export_frames_dropped s) 1)
  end.

(** The thread: the directory, its writer and the counters; the frames the
    exporter took; how many records were appended. *)
Record WalWriter := mkWalWriter {
  ww_disk : Disk;
  ww_segment : SegmentWriter;
  ww_stats : WalStats;
  ww_exported : list Bytes;
  ww_appends : nat;
  ww_receiver_index : Z;
  ww_dirty : bool;
  ww_last_flush : Z;
}.

Section merger.
Context `{Crc32, Lz4} (config : PersistenceConfig).
Context (clock : nat → Z) (export : option (nat → TcpExportQueueResult)).

(** [TcpExportQueue::enqueue]. *)
Definition enqueue (s : WalStats) (exported : list Bytes) (n : nat) (frame : Bytes)
    : WalStats * list Bytes :=
  match export with
  | None => (s, exported)
  | Some send =>
      (record_result s (send n),
       match send n with Queued => exported ++ [frame] | Dropped => exported end)
  end.

Definition append_record (ww : WalWriter) (record : MutationRecord) : WalWriter :=
  let encoded := encode_frame record (compress_wal config) in
  let n := ww_appends ww in
  let '(d, w) := append_encoded (ww_disk ww) (ww_segment ww) encoded (segment_size_bytes config) (clock n) in
  let bytes := w_last_entry_size w in
  let '(rotations, w) := take_rotation_count w in
  let '(s, exported) := enqueue (record_append (ww_stats ww) bytes rotations) (ww_exported ww) n encoded in
  mkWalWriter d w s exported (S n) (ww_receiver_index ww) (ww_dirty ww) (ww_last_flush ww).

Definition append_block (ww : WalWriter) (block : WalBlock) : WalWriter :=
  let ww := foldl append_record ww block in
  mkWalWriter (ww_disk ww) (ww_segment ww) (record_block_merged (ww_stats ww)) (ww_exported ww)
    (ww_appends ww) (ww_receiver_index ww) (ww_dirty ww) (ww_last_flush ww).

Definition next_receiver_index (ww : WalWriter) (receivers : nat) : nat * WalWriter :=
  (Z.to_nat (ww_receiver_index ww mod Z.of_nat receivers),
   mkWalWriter (ww_disk ww) (ww_segment ww) (ww_stats ww) (ww_exported ww) (ww_appends ww)
     (wrap_u64 (ww_receiver_index ww + 1)) (ww_dirty ww) (ww_last_flush ww)).

(** [dirty |= progressed], of [run_with_writer], in place. *)
Definition set_dirty (ww : WalWriter) (dirty : bool) : WalWriter :=
  mkWalWriter (ww_disk ww) (ww_segment ww) (ww_stats ww) (ww_exported ww) (ww_appends ww)
    (ww_receiver_index ww) dirty (ww_last_flush ww).

(** [poll_next_receiver]; the index is in range. *)
Definition poll_next_receiver (ww : WalWriter) (receivers : list Channel) : WalWriter * list Channel :=
  let '(index, ww) := next_receiver_index ww (length receivers) in
  match receivers !! index with
  | Some ch =>
      match channel_try_recv ch with
      | Some (block, ch) => (set_dirty (append_block ww block) true, <[index := ch]> receivers)
      | None => (ww, receivers)
      end
  | None => (ww, receivers)
  end.

Inductive WalFlushKind := Periodic | Final.

Definition flush_writer (ww : WalWriter) (kind : WalFlushKind) (now : Z) : WalWriter :=
  let '(d, w) := writer_flush (ww_disk ww) (ww_segment ww) in
  match kind with
  | Periodic => mkWalWriter d w (record_flush (ww_stats ww) now) (ww_exported ww) (ww_appends ww)
                  (ww_receiver_index ww) (ww_dirty ww) now
  | Final => mkWalWriter d w (ww_stats ww) (ww_exported ww) (ww_appends ww) (ww_receiver_index ww)
               (ww_dirty ww) (ww_last_flush ww)
  end.

Definition flush_due (ww : WalWriter) (now : Z) : bool :=
  ww_dirty ww && (Z.max 1 (fsync_interval_ms config) <=? now - ww_last_flush ww)%Z.

Definition flush_if_due (ww : WalWriter) (now : Z) : WalWriter :=
  if flush_due ww now then set_dirty (flush_writer ww Periodic now) false else ww.

(** [while let Ok(block) = receiver.try_recv()] on one receiver. *)
Definition drain_receiver (ww : WalWriter) (ch : Channel) : WalWriter * Channel :=
  (foldl append_block ww (ch_blocks ch), mkChannel (ch_capacity ch) [] (ch_open ch)).

(** ** All threads together *)
Inductive Phase := Running | Draining (next : nat) | Stopped.

Record Sys := mkSys {
  s_appenders : list WalAppender;
  s_channels : list Channel;
  s_writer : WalWriter;
  s_phase : Phase;
}.

Inductive Event :=
  | EvAppend (shard : nat) (record : MutationRecord) (now : Z)
  | EvFlush (shard : nat) (now : Z)
  | EvFlushDue (shard : nat) (now : Z)
  | EvPoll
  | EvFlushIfDue (now : Z)
  | EvStop
  | EvDrain
  | EvEnd (now : Z).

(** A shard's call on its appender. *)
Definition on_shard (s : Sys) (shard : nat)
    (f : WalAppender → Channel → option (WalAppender * Channel * bool)) : option Sys :=
  a ← s_appenders s !! shard; ch ← s_channels s !! shard;
  '(a, ch, _) ← f a ch;
  Some (mkSys (<[shard := a]> (s_appenders s)) (<[shard := ch]> (s_channels s)) (s_writer s) (s_phase s)).

Definition with_writer (s : Sys) (ww : WalWriter) (chs : list Channel) (ph : Phase) : Sys :=
  mkSys (s_appenders s) chs ww ph.

(** [run_with_writer], event by event: polls and periodic flushes until the
    stop signal, then each receiver drained once, the final flush, and the
    receivers dropped. *)
Definition sys_step (s : Sys) (e : Event) : option Sys :=
  match e with
  | EvAppend shard record now => on_shard s shard (λ a ch, appender_append a ch record now)
  | EvFlush shard now => on_shard s shard (λ a ch, appender_flush a ch now)
  | EvFlushDue shard now => on_shard s shard (λ a ch, appender_flush_due a ch now)
  | EvPoll =>
      match s_phase s with
      | Running =>
          let '(ww, chs) := poll_next_receiver (s_writer s) (s_channels s) in
          Some (with_writer s ww chs Running)
      | _ => None
      end
  | EvFlushIfDue now =>
      match s_phase s with
      | Running => Some (with_writer s (flush_if_due (s_writer s) now) (s_channels s) Running)
      | _ => None
      end
  | EvStop =>
      match s_phase s with
      | Running => Some (with_writer s (s_writer s) (s_channels s) (Draining 0))
      | _ => None
      end
  | EvDrain =>
      match s_phase s with
      | Draining i =>
          ch ← s_channels s !! i;
          let '(ww, ch) := drain_receiver (s_writer s) ch in
          Some (with_writer s ww (<[i := ch]> (s_channels s)) (Draining (S i)))
      | _ => None
      end
  | EvEnd now =>
      match s_phase s with
      | Draining i =>
          if i =? length (s_channels s)
          then Some (with_writer s (flush_writer (s_writer s) Final now)
                       (map (λ ch, mkChannel (ch_capacity ch) (ch_blocks ch) false) (s_channels s))
                       Stopped)
          else None
      | _ => None
      end
  end.

Fixpoint sys_run (s : Sys) (es : list Event) : option Sys :=
  match es with
  | [] => Some s
  | e :: es' => s ← sys_step s e; sys_run s es'
  end.

(** [PersistenceStartup::new] and [WalWriter::spawn] on a directory. *)
Definition sys_start (d : Disk) (shard_count : nat) (now : Z) : option Sys :=
  '(appenders, channels) ← channels_new shard_count config now;
  let '(d, w) := open_writer d now (compress_wal config) in
  Some (mkSys appenders channels (mkWalWriter d w stats_new [] 0 0 false now) Running).
End merger.
