(* ===== verification/WalPipelineProofs.v ===== *)
(** * The write-ahead log pipeline: lemmas

    What every interleaving of shards and merger keeps: the log, the channel
    and the pending records of a shard are, in this order, what the shard
    appended. *)

From S2P Require Import Prelude Helpers Codec Wal Segments SegmentProofs WalPipeline.

(** ** Appenders *)
Section appender.
Context (a : WalAppender) (ch : Channel).

(** Blocks in the channel, then the pending records. *)
Definition in_flight (a : WalAppender) (ch : Channel) : list MutationRecord :=
  concat (ch_blocks ch) ++ a_pending a.

Lemma appender_flush_spec now a' ch' ok :
  appender_flush a ch now = Some (a', ch', ok) →
  in_flight a' ch' = in_flight a ch ∧ ch_capacity ch' = ch_capacity ch ∧ ch_open ch' = ch_open ch ∧
  a_max_records a' = a_max_records a ∧ a_max_bytes a' = a_max_bytes a ∧
  (if ok then a_pending a' = [] ∧ (a_pending a ≠ [] → a_pending_bytes a' = 0%Z)
   else a' = a ∧ ch' = ch ∧ ch_open ch = false).
Proof.
  unfold appender_flush, channel_send, in_flight. destruct (a_pending a) as [|r rs] eqn:E.
  { intros [= <- <- <-]. by rewrite E. }
  destruct (ch_open ch) eqn:Eo; cbn [negb].
  - destruct (_ <? _); [|done]. intros [= <- <- <-]. cbn. rewrite concat_app. cbn.
    by rewrite !app_nil_r.
  - intros [= <- <- <-]. by rewrite E, Eo.
Qed.

End appender.

Lemma appender_append_spec a ch r now a' ch' ok :
  appender_append a ch r now = Some (a', ch', ok) →
  in_flight a' ch' = in_flight a ch ++ [r] ∧ ch_capacity ch' = ch_capacity ch ∧ ch_open ch' = ch_open ch.
Proof.
  unfold appender_append. set (a1 := mkAppender (a_pending a ++ [r]) _ _ _ _ _).
  assert (in_flight a1 ch = in_flight a ch ++ [r]) as E1 by (unfold in_flight; cbn; by rewrite app_assoc).
  destruct (_ || _); [|intros [= <- <- <-]; done].
  intros (Hf & ? & ? & _)%appender_flush_spec. by rewrite Hf.
Qed.

Lemma appender_flush_due_spec a ch now a' ch' ok :
  appender_flush_due a ch now = Some (a', ch', ok) →
  in_flight a' ch' = in_flight a ch ∧ ch_capacity ch' = ch_capacity ch ∧ ch_open ch' = ch_open ch.
Proof.
  unfold appender_flush_due. destruct (_ && _); [|intros [= <- <- <-]; done].
  intros (? & ? & ? & _)%appender_flush_spec. done.
Qed.

(** ** Records on their way

    [log] is written, [F !! i] is in flight in shard [i], [all] is what was
    appended: nothing is lost or invented, and each shard's records stay in
    order. *)
Abbreviation of_shard i := (filter (λ r, rec_shard_id r = i)).

Record flow (log : list MutationRecord) (F : list (list MutationRecord)) (all : list MutationRecord) : Prop :=
  mkFlow {
    flow_perm : log ++ concat F ≡ₚ all;
    flow_shard : ∀ i, of_shard i log ++ default [] (F !! i) = of_shard i all;
  }.

Lemma concat_insert_perm (F : list (list MutationRecord)) i f g :
  F !! i = Some f → f ++ concat (<[i := g]> F) ≡ₚ g ++ concat F.
Proof.
  intros Hf. rewrite <-(take_drop_middle F i f Hf) at 2.
  rewrite insert_take_drop by (by eapply lookup_lt_Some). rewrite !concat_app. cbn [concat].
  set (x := concat (take i F)). set (y := concat (drop (S i) F)). solve_Permutation.
Qed.

Lemma flow_append log F all i f r :
  flow log F all → rec_shard_id r = i → F !! i = Some f → flow log (<[i := f ++ [r]]> F) (all ++ [r]).
Proof.
  intros [Hp Hs] Hr Hf. split.
  - rewrite <-Hp. apply (Permutation_app_inv_l f).
    rewrite (Permutation_app_comm f), <-app_assoc, (Permutation_app_comm _ f).
    rewrite (concat_insert_perm F i f (f ++ [r]) Hf). solve_Permutation.
  - intros j. rewrite filter_app. destruct (decide (j = i)) as [->|Hj].
    + rewrite list_lookup_insert_eq by (by eapply lookup_lt_Some).
      rewrite filter_cons, decide_True, filter_nil by done. rewrite <-Hs, Hf. simpl. by rewrite app_assoc.
    + rewrite list_lookup_insert_ne by done. rewrite Hs.
      rewrite filter_cons, decide_False, filter_nil by congruence. by rewrite app_nil_r.
Qed.

(** Records of one shard's flight are that shard's. *)
Lemma flow_flight_shard log F all i f :
  flow log F all → F !! i = Some f → Forall (λ r, rec_shard_id r = i) f.
Proof.
  intros [_ Hs] Hf. specialize (Hs i). rewrite Hf in Hs. simpl in Hs.
  assert (Forall (λ r, rec_shard_id r = i) (of_shard i all)) as Hall.
  { apply Forall_forall. intros r [? _]%list_elem_of_filter. done. }
  rewrite <-Hs in Hall. by apply Forall_app in Hall as [_ ?].
Qed.

Lemma flow_move log F all i b f :
  flow log F all → F !! i = Some (b ++ f) → flow (log ++ b) (<[i := f]> F) all.
Proof.
  intros Hfl Hf. pose proof (flow_flight_shard _ _ _ _ _ Hfl Hf) as [Hb _]%Forall_app.
  destruct Hfl as [Hp Hs]. split.
  - rewrite <-Hp, <-app_assoc. apply Permutation_app_head. apply (Permutation_app_inv_l f).
    rewrite app_assoc, (Permutation_app_comm f b), (concat_insert_perm F i (b ++ f) f Hf). done.
  - intros j. rewrite <-Hs, filter_app. destruct (decide (j = i)) as [->|Hj].
    + rewrite list_lookup_insert_eq by (by eapply lookup_lt_Some). rewrite Hf. simpl.
      rewrite <-app_assoc. f_equal. f_equal. clear -Hb.
      induction Hb; [done|]. rewrite filter_cons, decide_True by done. by f_equal.
    + rewrite list_lookup_insert_ne by done. f_equal. rewrite <-(app_nil_r (of_shard j log)) at 2. f_equal.
      clear -Hb Hj. induction Hb; [done|]. by rewrite filter_cons, decide_False by congruence.
Qed.

Definition all_appended (es : list Event) : list MutationRecord :=
  omap (λ e, match e with EvAppend _ r _ => Some r | _ => None end) es.

(** What shard [i] appended. *)
Definition appended_by (i : nat) (es : list Event) : list MutationRecord := of_shard i (all_appended es).

(** A record carries the number of the shard that appends it. *)
Definition event_ok `{Crc32} (e : Event) : Prop :=
  match e with EvAppend i r _ => rec_shard_id r = i ∧ rec_ok r | _ => True end.

Definition flights (s : Sys) : list (list MutationRecord) :=
  zip_with in_flight (s_appenders s) (s_channels s).

Lemma all_appended_ok `{Crc32} es : Forall event_ok es → Forall rec_ok (all_appended es).
Proof.
  intros Hes. apply Forall_forall. intros r (e & He & Hr)%list_elem_of_omap.
  rewrite Forall_forall in Hes. specialize (Hes e He). destruct e; simplify_eq/=. by destruct Hes.
Qed.

(** ** The merger *)
Section merger.
Context `{Crc32, Lz4} (config : PersistenceConfig).
Context (clock : nat → Z) (Hclock : ∀ n, is_u64 (clock n)).
Context (export : option (nat → TcpExportQueueResult)).
Context (d0 : Disk) (q0 : Z).
Let c := compress_wal config.

(** The log as written so far: [log] in order, its prefix [base] durable. *)
Definition writer_ok (base : list MutationRecord) (log : list MutationRecord) (ww : WalWriter) : Prop :=
  ∃ closed cur nf,
    running c d0 (ww_disk ww) (ww_segment ww) closed cur nf ∧ appended closed cur = log ∧
    length base ≤ length (concat closed.*2) + nf ∧ base `prefix_of` log ∧ ww_appends ww = length log ∧
    (w_sequence (ww_segment ww) ≤ q0 + Z.of_nat (length log))%Z.

Lemma running_rotation_count d w closed cur nf :
  running c d0 d w closed cur nf → running c d0 d (take_rotation_count w).2 closed cur nf.
Proof. by intros []. Qed.

Lemma append_record_ok base log ww r :
  writer_ok base log ww → (q0 + Z.of_nat (length log) < u64_MAX)%Z →
  writer_ok base (log ++ [r]) (append_record config clock export ww r).
Proof.
  intros (closed & cur & nf & Hr & <- & Hfl & Hpre & Hn & Hq) Hlt. unfold append_record. fold c.
  destruct (append_running c d0 _ _ _ _ _ r (segment_size_bytes config) (clock (ww_appends ww)) Hr
    ltac:(lia) ltac:(apply Hclock)) as (closed' & cur' & nf' & Hr' & Happ & Hge & Hq').
  destruct (append_encoded _ _ _ _ _) as [d w]. cbn [fst snd] in *.
  destruct (take_rotation_count w) as [rot w1] eqn:Ew.
  apply running_rotation_count in Hr'. rewrite Ew in Hr'. cbn [snd] in Hr'.
  assert (w_sequence w1 = w_sequence w) as Es by (by injection Ew as _ <-).
  destruct (enqueue _ _ _ _ _) as [s exported]. exists closed', cur', nf'. cbn [ww_disk ww_segment ww_appends].
  rewrite <-Happ. split_and!; [done|done|lia|rewrite Happ; by apply prefix_app_r| |].
  - by rewrite Hn, Happ, length_app, Nat.add_1_r.
  - rewrite Es, Happ, length_app. cbn [length]. lia.
Qed.

Lemma append_records_ok base log ww rs :
  writer_ok base log ww → (q0 + Z.of_nat (length log + length rs) ≤ u64_MAX)%Z →
  writer_ok base (log ++ rs) (foldl (append_record config clock export) ww rs).
Proof.
  revert log ww. induction rs as [|r rs IH]; intros log ww Hw Hlt; [by rewrite app_nil_r|].
  cbn [foldl length] in *. replace (log ++ r :: rs) with ((log ++ [r]) ++ rs) by (by rewrite <-app_assoc).
  apply IH; [apply append_record_ok; [done|lia]|]. rewrite length_app. cbn [length]. lia.
Qed.

Lemma append_block_ok base log ww block :
  writer_ok base log ww → (q0 + Z.of_nat (length log + length block) ≤ u64_MAX)%Z →
  writer_ok base (log ++ block) (append_block config clock export ww block).
Proof. intros Hw Hlt. exact (append_records_ok base log ww block Hw Hlt). Qed.

Lemma append_blocks_ok base log ww blocks :
  writer_ok base log ww → (q0 + Z.of_nat (length log + length (concat blocks)) ≤ u64_MAX)%Z →
  writer_ok base (log ++ concat blocks) (foldl (append_block config clock export) ww blocks).
Proof.
  revert log ww. induction blocks as [|b bs IH]; intros log ww Hw Hlt; [by rewrite app_nil_r|].
  cbn [foldl concat] in *. rewrite length_app in Hlt. rewrite app_assoc.
  apply IH; [apply append_block_ok; [done|lia]|]. rewrite length_app. lia.
Qed.

(** A flush makes the whole log durable. *)
Lemma flush_writer_ok base log ww kind now :
  writer_ok base log ww → writer_ok log log (flush_writer ww kind now).
Proof.
  intros (closed & cur & nf & Hr & <- & Hfl & Hpre & Hn & Hq). unfold flush_writer.
  pose proof (flush_running c d0 _ _ _ _ _ Hr) as Hr'.
  assert (w_sequence (writer_flush (ww_disk ww) (ww_segment ww)).2 = w_sequence (ww_segment ww)) as Es by done.
  destruct (writer_flush _ _) as [d w]. cbn [fst snd] in *.
  exists closed, cur, (length cur). unfold appended in *. rewrite length_app in *.
  destruct kind; split_and!; try done; cbn; rewrite ?Es, ?length_app; lia.
Qed.

Lemma writer_ok_base base base' log ww :
  base' `prefix_of` base → writer_ok base log ww → writer_ok base' log ww.
Proof.
  intros Hle (closed & cur & nf & Hr & Ha & Hfl & Hpre & Hn & Hq). exists closed, cur, nf.
  pose proof (prefix_length _ _ Hle). split_and!; try done; [lia|by etrans].
Qed.

Lemma set_dirty_ok base log ww b : writer_ok base log ww → writer_ok base log (set_dirty ww b).
Proof. done. Qed.

Lemma writer_ok_durable base log ww : writer_ok base log ww → base `prefix_of` log.
Proof. by intros (closed & cur & nf & Hr & Ha & Hfl & Hpre & _). Qed.

(** What is left after a crash. *)
Lemma writer_ok_crash base log ww d' old :
  writer_ok base log ww → settled d0 → read_all d0 = Done old → Forall rec_ok log →
  crash (ww_disk ww) d' →
  ∃ log', base `prefix_of` log' ∧ log' `prefix_of` log ∧ read_all d' = Done (old ++ map stripped log').
Proof.
  intros (closed & cur & nf & Hr & <- & Hfl & Hpre & _) Hs Ho Hok Hc.
  destruct (crash_running c d0 _ _ _ _ _ _ _ Hr Hs Ho Hok Hc) as (m & Hm & E).
  exists (take m (appended closed cur)). split_and!; [|apply prefix_take|done].
  destruct Hpre as [k ->]. rewrite take_app_ge by lia. by apply prefix_app_r.
Qed.

(** ** The system *)
Definition sys_inv (base : list MutationRecord) (es : list Event) (s : Sys) : Prop :=
  ∃ log, writer_ok base log (s_writer s) ∧ length (s_appenders s) = length (s_channels s) ∧
         flow log (flights s) (all_appended es).

Lemma sys_inv_length base es s log :
  writer_ok base log (s_writer s) → flow log (flights s) (all_appended es) →
  length log + length (concat (flights s)) = length (all_appended es).
Proof. intros _ [Hp _]. by rewrite <-Hp, length_app. Qed.

(** A shard's call: [extra] is what it adds to its flight. *)
Lemma on_shard_inv base es s i f s' e extra :
  sys_inv base es s → on_shard s i f = Some s' →
  (∀ a ch a' ch' ok, f a ch = Some (a', ch', ok) → in_flight a' ch' = in_flight a ch ++ extra) →
  (extra = [] ∨ ∃ r, extra = [r] ∧ rec_shard_id r = i) → all_appended [e] = extra →
  sys_inv base (es ++ [e]) s'.
Proof.
  intros (log & Hw & Hl & Hfl) Hs Hf Hex He. unfold on_shard in Hs.
  apply bind_Some in Hs as (a & Ha & Hs). apply bind_Some in Hs as (ch & Hch & Hs).
  apply bind_Some in Hs as ([[a' ch'] ok] & Hf' & [= <-]). apply Hf in Hf'.
  exists log. split; [done|]. split; [cbn; by rewrite !length_insert|].
  unfold flights. cbn [s_appenders s_channels]. rewrite <-insert_zip_with, Hf'.
  assert (flights s !! i = Some (in_flight a ch)) as Hfi.
  { unfold flights. by rewrite lookup_zip_with, Ha, Hch. }
  unfold all_appended in *. rewrite omap_app, He. fold (flights s).
  destruct Hex as [->|(r & -> & Hr)].
  - rewrite !app_nil_r, list_insert_id by done. done.
  - by apply flow_append.
Qed.

(** Changing the channel of one receiver. *)
Lemma flights_channel s i a ch ch' :
  s_appenders s !! i = Some a → s_channels s !! i = Some ch →
  zip_with in_flight (s_appenders s) (<[i := ch']> (s_channels s)) =
  <[i := in_flight a ch']> (flights s).
Proof. intros Ha Hch. unfold flights. by rewrite insert_zip_with, (list_insert_id (s_appenders s) i a). Qed.

(** The merger takes the blocks [bs] from receiver [i]. *)
Lemma take_blocks_inv base es s i ch bs rest ww open :
  sys_inv base es s → s_channels s !! i = Some ch → ch_blocks ch = bs ++ rest →
  (∀ log, writer_ok base log (s_writer s) →
          (q0 + Z.of_nat (length log + length (concat bs)) ≤ u64_MAX)%Z →
          writer_ok base (log ++ concat bs) ww) →
  (q0 + Z.of_nat (length (all_appended es)) ≤ u64_MAX)%Z →
  sys_inv base es (mkSys (s_appenders s) (<[i := mkChannel (ch_capacity ch) rest open]> (s_channels s)) ww
    (s_phase s)).
Proof.
  intros (log & Hw & Hl & Hfl) Hch Hb Happ Hq.
  destruct (lookup_lt_is_Some_2 (s_appenders s) i) as [a Ha].
  { rewrite Hl. by eapply lookup_lt_Some. }
  set (ch' := mkChannel (ch_capacity ch) rest open).
  assert (flights s !! i = Some (concat bs ++ in_flight a ch')) as Hfi.
  { unfold flights. rewrite lookup_zip_with, Ha, Hch. cbn. unfold in_flight. rewrite Hb, concat_app. cbn.
    by rewrite app_assoc. }
  exists (log ++ concat bs). split_and!.
  - apply Happ; [done|]. pose proof (sys_inv_length _ _ _ _ Hw Hfl) as Hlen.
    pose proof (concat_insert_perm (flights s) i _ [] Hfi) as Hp%Permutation_length.
    rewrite !length_app in Hp. cbn [length] in Hp. lia.
  - cbn. by rewrite length_insert.
  - unfold flights. cbn [s_appenders s_channels]. rewrite (flights_channel s i a ch ch' Ha Hch).
    by apply flow_move.
Qed.

Lemma sys_step_inv base es s e s' :
  sys_inv base es s → event_ok e → (q0 + Z.of_nat (length (all_appended (es ++ [e]))) ≤ u64_MAX)%Z →
  sys_step config clock export s e = Some s' → sys_inv base (es ++ [e]) s'.
Proof.
  intros Hinv Hok Hq Hs.
  assert (all_appended (es ++ [e]) = all_appended es ++ all_appended [e]) as Ha
    by (unfold all_appended; by rewrite omap_app).
  assert (all_appended [e] = [] → sys_inv base es s' → sys_inv base (es ++ [e]) s') as Hnil.
  { intros E. unfold sys_inv. rewrite Ha, E, app_nil_r. done. }
  assert (q0 + Z.of_nat (length (all_appended es)) ≤ u64_MAX)%Z as Hq' by (rewrite Ha, length_app in Hq; lia).
  destruct e as [i r now|i now|i now| |now| | |now]; cbn [sys_step] in Hs.
  - eapply (on_shard_inv _ _ _ i _ _ _ [r]); try done; [|right; exists r; split; [done|by destruct Hok]].
    by intros ? ? ? ? ? (? & _)%appender_append_spec.
  - eapply (on_shard_inv _ _ _ i _ _ _ []); try done; [|by left].
    intros ? ? ? ? ? (? & _)%appender_flush_spec. by rewrite app_nil_r.
  - eapply (on_shard_inv _ _ _ i _ _ _ []); try done; [|by left].
    intros ? ? ? ? ? (? & _)%appender_flush_due_spec. by rewrite app_nil_r.
  - apply Hnil; [done|]. destruct (s_phase s) eqn:Ep; try done. unfold poll_next_receiver in Hs.
    destruct (next_receiver_index _ _) as [i ww] eqn:Ei.
    assert (∀ log, writer_ok base log (s_writer s) → writer_ok base log ww) as Hww.
    { intros log. by injection Ei as _ <-. }
    destruct (s_channels s !! i) as [ch|] eqn:Ech.
    + destruct (channel_try_recv ch) as [[b ch']|] eqn:Er.
      * injection Hs as <-. unfold channel_try_recv in Er. destruct (ch_blocks ch) as [|b' bs] eqn:Eb; [done|].
        injection Er as -> <-. unfold with_writer. rewrite <-Ep.
        eapply (take_blocks_inv _ _ _ i ch [b] bs); try done.
        cbn [concat]. rewrite app_nil_r. intros log Hw Hlt.
        apply set_dirty_ok, append_block_ok; [by apply Hww|done].
      * injection Hs as <-. destruct Hinv as (log & ? & ? & ?). exists log. split_and!; [by apply Hww|done..].
    + injection Hs as <-. destruct Hinv as (log & ? & ? & ?). exists log. split_and!; [by apply Hww|done..].
  - apply Hnil; [done|]. destruct (s_phase s); try done. injection Hs as <-.
    destruct Hinv as (log & Hw & ? & ?). exists log. split_and!; [|done..]. cbn [s_writer with_writer].
    unfold flush_if_due. destruct (flush_due _ _ _); [|done]. apply set_dirty_ok.
    eapply writer_ok_base; [|by eapply flush_writer_ok]. by eapply writer_ok_durable.
  - apply Hnil; [done|]. destruct (s_phase s); try done. injection Hs as <-. exact Hinv.
  - apply Hnil; [done|]. destruct (s_phase s) as [|i|] eqn:Ep; try done.
    apply bind_Some in Hs as (ch & Hch & [= <-]). unfold with_writer.
    pose proof (take_blocks_inv base es s i ch (ch_blocks ch) []
      (foldl (append_block config clock export) (s_writer s) (ch_blocks ch)) (ch_open ch)
      Hinv Hch ltac:(by rewrite app_nil_r) ltac:(intros; by apply append_blocks_ok) Hq') as Hi. exact Hi.
  - apply Hnil; [done|]. destruct (s_phase s) as [|i|]; try done. destruct (_ =? _); [|done].
    injection Hs as <-. destruct Hinv as (log & Hw & Hl & Hfl). exists log. split_and!.
    + cbn [s_writer with_writer]. eapply writer_ok_base; [|by eapply flush_writer_ok].
      by eapply writer_ok_durable.
    + cbn. by rewrite length_map.
    + unfold flights in *. cbn [s_appenders s_channels with_writer].
      change (map ?f ?l) with (f <$> l). rewrite zip_with_fmap_r. exact Hfl.
Qed.

Lemma sys_run_inv base es0 es s s' :
  sys_inv base es0 s → Forall event_ok es → (q0 + Z.of_nat (length (all_appended (es0 ++ es))) ≤ u64_MAX)%Z →
  sys_run config clock export s es = Some s' → sys_inv base (es0 ++ es) s'.
Proof.
  revert es0 s. induction es as [|e es IH]; intros es0 s Hinv Hok Hq Hr.
  { injection Hr as <-. by rewrite app_nil_r. }
  cbn [sys_run] in Hr. apply bind_Some in Hr as (s1 & Hs & Hr). apply Forall_cons in Hok as [He Hok].
  replace (es0 ++ e :: es) with ((es0 ++ [e]) ++ es) in * by (by rewrite <-app_assoc).
  eapply IH; try done. eapply sys_step_inv; try done.
  unfold all_appended in *. rewrite omap_app, length_app in Hq. lia.
Qed.
End merger.

(** ** Whole runs *)
Lemma sys_run_app `{Crc32, Lz4} config clock export s es1 es2 :
  sys_run config clock export s (es1 ++ es2) =
  (s1 ← sys_run config clock export s es1; sys_run config clock export s1 es2).
Proof.
  revert s. induction es1 as [|e es1 IH]; intros s; [done|]. cbn [app sys_run].
  destruct (sys_step config clock export s e); [apply IH|done].
Qed.

Section runs.
Context `{Crc32, Lz4} (config : PersistenceConfig).
Context (clock : nat → Z) (Hclock : ∀ n, is_u64 (clock n)).
Context (export : option (nat → TcpExportQueueResult)).

(** The directory at the start: durable, readable, its segments properly named
    with sequence numbers up to [q]. *)
Record start_ok (d0 : Disk) (q : Z) (old : list MutationRecord) : Prop := mkStartOk {
  start_settled : settled d0;
  start_read : read_all d0 = Done old;
  start_named : named_upto q d0;
  start_low : (-1 ≤ q)%Z;
}.

Context (d0 : Disk) (q : Z) (old : list MutationRecord) (Hd0 : start_ok d0 q old).

(** Sequence numbers suffice for the records of a run. *)
Definition room (es : list Event) : Prop := (q + 1 + Z.of_nat (length (all_appended es)) ≤ u64_MAX)%Z.

Lemma sys_start_inv n t s :
  (q < u64_MAX)%Z → is_u64 t → sys_start config d0 n t = Some s →
  sys_inv config d0 (q + 1) [] [] s ∧ s_phase s = Running ∧
  length (s_appenders s) = n ∧ length (s_channels s) = n.
Proof.
  intros Hq Ht Hs. destruct (next_sequence_spec q d0) as (Hn & Hle & Hnm).
  { apply Hd0. } { pose proof (start_low _ _ _ Hd0). lia. }
  unfold sys_start in Hs. apply bind_Some in Hs as ([as_ chs] & Hc & Hs).
  pose proof (open_running (compress_wal config) d0 t) as Hr.
  destruct (open_writer d0 t (compress_wal config)) as [d w] eqn:Ew. injection Hs as <-.
  unfold channels_new in Hc. destruct (_ || _); [done|]. injection Hc as <- <-.
  split_and!; [|done|cbn; by rewrite length_replicate..].
  exists []. split_and!.
  - exists [], [], 0. split_and!; try done.
    + apply Hr; [|done|done]. intros m (q' & t' & c' & -> & ? & ? & ?)%Hnm. exists q', t', c'.
      split_and!; try done. lia.
    + cbn. unfold open_writer in Ew. injection Ew as _ <-. cbn. lia.
  - cbn. by rewrite !length_replicate.
  - unfold flights. cbn [s_appenders s_channels]. rewrite zip_with_replicate.
    split.
    + cbn. clear. induction n; [done|]. cbn. done.
    + intros i. destruct (replicate n _ !! i) as [f|] eqn:E; [|done].
      apply lookup_replicate_1 in E as [-> _]. done.
Qed.

(** Any run, and a crash at its end. *)
Section crash.
Context (n : nat) (t : Z) (Ht : is_u64 t) (s0 : Sys) (Hs0 : sys_start config d0 n t = Some s0).

Lemma run_inv es s :
  Forall event_ok es → room es → sys_run config clock export s0 es = Some s →
  sys_inv config d0 (q + 1) [] es s.
Proof.
  intros Hok Hroom Hrun. unfold room in Hroom.
  destruct (sys_start_inv n t s0 ltac:(lia) Ht Hs0) as [Hi _].
  by apply (sys_run_inv config clock Hclock export d0 (q + 1) [] [] es s0 s Hi Hok).
Qed.

Lemma inv_crash base es s d' :
  sys_inv config d0 (q + 1) base es s → Forall event_ok es → crash (ww_disk (s_writer s)) d' →
  ∃ log, base `prefix_of` log ∧ read_all d' = Done (old ++ map stripped log) ∧
         ∀ i, of_shard i log `prefix_of` appended_by i es.
Proof.
  intros (log & Hw & _ & [Hp Hsh]) Hok Hc.
  destruct (writer_ok_crash config d0 _ _ _ _ d' old Hw (start_settled _ _ _ Hd0) (start_read _ _ _ Hd0))
    as (log' & Hb & Hl & Hrd); [|done|].
  { apply all_appended_ok in Hok. rewrite <-Hp in Hok. by apply Forall_app in Hok as [? _]. }
  exists log'. split_and!; [done..|]. intros i. unfold appended_by. rewrite <-Hsh.
  destruct Hl as [k ->]. rewrite filter_app, <-app_assoc. by apply prefix_app_r.
Qed.

Lemma pipeline_crash es s d' :
  Forall event_ok es → room es → sys_run config clock export s0 es = Some s →
  crash (ww_disk (s_writer s)) d' →
  ∃ log, read_all d' = Done (old ++ map stripped log) ∧
         ∀ i, of_shard i log `prefix_of` appended_by i es.
Proof.
  intros Hok Hroom Hrun Hc.
  destruct (inv_crash [] es s d' (run_inv es s Hok Hroom Hrun) Hok Hc) as (log & _ & ? & ?). eauto.
Qed.

(** What the merger had taken when it flushed survives. *)
Lemma pipeline_flushed es1 now es2 s1 s d' :
  let es := es1 ++ EvFlushIfDue now :: es2 in
  Forall event_ok es → room es →
  sys_run config clock export s0 es1 = Some s1 → s_phase s1 = Running →
  flush_due config (s_writer s1) now = true →
  sys_run config clock export s1 (EvFlushIfDue now :: es2) = Some s →
  crash (ww_disk (s_writer s)) d' →
  ∃ log1 log, read_all d' = Done (old ++ map stripped log) ∧ log1 `prefix_of` log ∧
    (∀ i, of_shard i log1 ++ default [] (flights s1 !! i) = appended_by i es1) ∧
    (∀ i, of_shard i log `prefix_of` appended_by i es).
Proof.
  intros es Hok Hroom Hr1 Hph Hdue Hr2 Hc.
  assert (Forall event_ok es1 ∧ Forall event_ok es2) as [Hok1 Hok2].
  { unfold es in Hok. apply Forall_app in Hok as [? Hok]. by apply Forall_cons in Hok as [_ ?]. }
  assert (room es1) as Hroom1.
  { unfold room, es, all_appended in *. rewrite omap_app, length_app in Hroom. lia. }
  destruct (run_inv es1 s1 Hok1 Hroom1 Hr1) as (log1 & Hw & Hl & Hfl).
  cbn [sys_run sys_step] in Hr2. rewrite Hph in Hr2. cbn [mbind option_bind] in Hr2.
  set (s2 := with_writer s1 _ _ _) in Hr2.
  assert (sys_inv config d0 (q + 1) log1 (es1 ++ [EvFlushIfDue now]) s2) as Hi.
  { exists log1. split_and!.
    - unfold s2, flush_if_due. cbn [s_writer with_writer]. rewrite Hdue. apply set_dirty_ok.
      by eapply flush_writer_ok.
    - done.
    - unfold all_appended. rewrite omap_app. cbn. rewrite app_nil_r. exact Hfl. }
  replace es with ((es1 ++ [EvFlushIfDue now]) ++ es2) in * by (unfold es; by rewrite <-app_assoc).
  pose proof (sys_run_inv config clock Hclock export d0 (q + 1) log1 _ es2 s2 s Hi Hok2 Hroom Hr2) as Hi2.
  destruct (inv_crash _ _ _ d' Hi2 Hok Hc) as (log & ? & ? & ?). exists log1, log. split_and!; try done.
  intros i. apply (flow_shard _ _ _ Hfl).
Qed.

(** *** Shutdown *)
Lemma drains s i k :
  s_phase s = Draining i → i + k = length (s_channels s) →
  ∃ s', sys_run config clock export s (replicate k EvDrain) = Some s' ∧ s_phase s' = Draining (i + k) ∧
        s_appenders s' = s_appenders s ∧ length (s_channels s') = length (s_channels s) ∧
        (∀ j ch, s_channels s' !! j = Some ch → i ≤ j → ch_blocks ch = []) ∧
        (∀ j, j < i → s_channels s' !! j = s_channels s !! j).
Proof.
  revert s i. induction k as [|k IH]; intros s i Hp Hk.
  { exists s. rewrite Nat.add_0_r in *. split_and!; try done. intros j ch Hch%lookup_lt_Some Hj. lia. }
  destruct (lookup_lt_is_Some_2 (s_channels s) i ltac:(lia)) as [ch Hch].
  cbn [replicate sys_run sys_step]. rewrite Hp, Hch. cbn [mbind option_bind drain_receiver].
  set (s1 := with_writer s _ _ _).
  destruct (IH s1 (S i)) as (s' & Hr & Hp' & Ha & Hl & He & Hsame).
  { done. } { cbn. rewrite length_insert. lia. }
  exists s'. cbn [s_channels s1 with_writer s_appenders] in *. rewrite length_insert in Hl.
  split_and!; try done.
  - rewrite Hp'. f_equal. lia.
  - intros j ch' Hch' Hj. destruct (decide (j = i)) as [->|]; [|apply (He j ch' Hch'); lia].
    rewrite Hsame, list_lookup_insert_eq in Hch' by (try lia; by eapply lookup_lt_Some).
    by injection Hch' as <-.
  - intros j Hj. rewrite Hsame, list_lookup_insert_ne by lia. done.
Qed.

(** With nothing pending in the shards, stopping drains the channels, ends,
    and leaves every record durable. *)
Lemma pipeline_shutdown es s now :
  Forall event_ok es → room es → sys_run config clock export s0 es = Some s → s_phase s = Running →
  Forall (λ a, a_pending a = []) (s_appenders s) →
  ∃ s', sys_run config clock export s (EvStop :: replicate (length (s_channels s)) EvDrain ++ [EvEnd now])
        = Some s' ∧ s_phase s' = Stopped ∧
  ∀ d', crash (ww_disk (s_writer s')) d' →
    ∃ log, read_all d' = Done (old ++ map stripped log) ∧ ∀ i, of_shard i log = appended_by i es.
Proof.
  intros Hok Hroom Hrun Hph Hpend. cbn [sys_run sys_step]. rewrite Hph. cbn [mbind option_bind].
  set (s1 := with_writer s _ _ _).
  destruct (drains s1 0 (length (s_channels s)) eq_refl eq_refl) as (s2 & Hr2 & Hp2 & Ha2 & Hl2 & He2 & _).
  set (ds := replicate (length (s_channels s)) EvDrain) in *.
  assert (Forall event_ok ds ∧ all_appended ds = []) as [Hokd Hd].
  { unfold ds. clear. induction (length (s_channels s)); [done|]. cbn. destruct IHn. by split; [constructor|]. }
  assert (sys_inv config d0 (q + 1) [] (es ++ ds) s2) as (log & Hw & Hl & Hfl).
  { eapply (sys_run_inv config clock Hclock export d0 (q + 1) [] es ds s1 s2); try done.
    - exact (run_inv es s Hok Hroom Hrun).
    - unfold room, all_appended in *. rewrite omap_app, Hd, app_nil_r. done. }
  rewrite sys_run_app, Hr2. cbn [mbind option_bind sys_run sys_step]. rewrite Hp2, Hl2, Nat.eqb_refl.
  cbn [mbind option_bind]. eexists. split; [done|]. split; [done|]. intros d' Hc. cbn [s_writer with_writer] in Hc.
  apply (flush_writer_ok config d0 (q + 1)) with (kind := Final) (now := now) in Hw.
  destruct (writer_ok_crash config d0 _ _ _ _ d' old Hw (start_settled _ _ _ Hd0) (start_read _ _ _ Hd0))
    as (log' & Hb & Hlog & Hrd); [|done|].
  { assert (Forall event_ok (es ++ ds)) as Hall%all_appended_ok by (by apply Forall_app).
    rewrite <-(flow_perm _ _ _ Hfl) in Hall. by apply Forall_app in Hall as [? _]. }
  exists log. assert (log' = log) as -> by (by apply (anti_symm prefix)). split; [done|]. intros i.
  pose proof (flow_shard _ _ _ Hfl i) as Hsh. unfold appended_by. unfold all_appended in *.
  rewrite omap_app, Hd, app_nil_r in Hsh. rewrite <-Hsh.
  enough (default [] (flights s2 !! i) = []) as -> by (by rewrite app_nil_r).
  unfold flights. rewrite lookup_zip_with. destruct (s_appenders s2 !! i) as [a|] eqn:Ea; [|done].
  destruct (s_channels s2 !! i) as [ch|] eqn:Ech; [|done]. cbn. unfold in_flight.
  rewrite (He2 i ch Ech ltac:(lia)). rewrite Ha2 in Ea. rewrite Forall_lookup in Hpend.
  by rewrite (Hpend i a Ea).
Qed.
End crash.
End runs.

(** ** Bounds of an appender, and the round robin *)
Lemma appender_append_bounded a ch r now a' ch' :
  appender_append a ch r now = Some (a', ch', true) → 0 < a_max_records a → (0 < a_max_bytes a)%Z →
  length (a_pending a') < a_max_records a ∧ (a_pending_bytes a' < a_max_bytes a)%Z ∧
  a_max_records a' = a_max_records a ∧ a_max_bytes a' = a_max_bytes a.
Proof.
  unfold appender_append. set (a1 := mkAppender _ _ _ _ _ _). intros Hs Hr Hb.
  destruct (_ || _) eqn:E.
  - apply appender_flush_spec in Hs as (_ & _ & _ & Em & Eb & Hp & Hpb).
    rewrite Hp, Hpb, Em, Eb; [cbn; lia|]. cbn. by destruct (a_pending a).
  - injection Hs as <- <-. apply orb_false_iff in E as [E1 E2].
    apply Nat.leb_gt in E1. apply Z.leb_gt in E2. done.
Qed.

Section polls.
Context `{Crc32, Lz4} (config : PersistenceConfig) (clock : nat → Z).
Context (export : option (nat → TcpExportQueueResult)).

Lemma append_block_index ww b :
  ww_receiver_index (append_block config clock export ww b) = ww_receiver_index ww.
Proof.
  unfold append_block. cbn [ww_receiver_index]. revert ww. induction b as [|r b IH]; intros ww; [done|].
  cbn [foldl]. rewrite IH. unfold append_record. destruct (append_encoded _ _ _ _ _).
  cbn. by destruct (enqueue _ _ _ _ _).
Qed.

(** One poll: the channel whose turn it is loses its first block. *)
Definition polled (i : nat) (chs chs' : list Channel) : Prop :=
  length chs' = length chs ∧
  ∀ j ch, chs !! j = Some ch →
    ∃ ch', chs' !! j = Some ch' ∧
           ch_blocks ch' = if j =? i then drop 1 (ch_blocks ch) else ch_blocks ch.

Lemma poll_one s :
  s_phase s = Running → 0 < length (s_channels s) →
  (0 ≤ ww_receiver_index (s_writer s))%Z → (ww_receiver_index (s_writer s) + 1 < two64)%Z →
  ∃ s', sys_step config clock export s EvPoll = Some s' ∧ s_phase s' = Running ∧
    ww_receiver_index (s_writer s') = (ww_receiver_index (s_writer s) + 1)%Z ∧
    polled (Z.to_nat (ww_receiver_index (s_writer s) mod Z.of_nat (length (s_channels s))))
      (s_channels s) (s_channels s').
Proof.
  intros Hp Hn Hr0 Hw. cbn [sys_step]. rewrite Hp. unfold poll_next_receiver, next_receiver_index.
  set (i := Z.to_nat _).
  assert (wrap_u64 (ww_receiver_index (s_writer s) + 1) = ww_receiver_index (s_writer s) + 1)%Z as ->.
  { unfold wrap_u64, two64 in *. apply Z.mod_small. lia. }
  destruct (lookup_lt_is_Some_2 (s_channels s) i) as [ch Hch].
  { unfold i. pose proof (Z.mod_pos_bound (ww_receiver_index (s_writer s)) (Z.of_nat (length (s_channels s)))). lia. }
  rewrite Hch. unfold channel_try_recv. destruct (ch_blocks ch) as [|b bs] eqn:Eb;
    (eexists; split; [done|]; split; [done|]; cbn [with_writer s_writer s_channels]).
  - split; [done|]. split; [done|]. intros j ch' Hj. exists ch'. split; [done|].
    destruct (j =? i) eqn:E; bool_case; [|done]. subst j. rewrite Hch in Hj. injection Hj as <-. by rewrite Eb.
  - split; [cbn [set_dirty ww_receiver_index]; by rewrite append_block_index|].
    split; [by rewrite length_insert|]. intros j ch' Hj. destruct (j =? i) eqn:E; bool_case.
    + subst j. rewrite Hch in Hj. injection Hj as <-. rewrite list_lookup_insert_eq by (by eapply lookup_lt_Some).
      eexists. split; [done|]. by rewrite Eb.
    + rewrite list_lookup_insert_ne by done. eauto.
Qed.

(** A round takes the first block of every channel. *)
Lemma poll_round s k :
  s_phase s = Running → k ≤ length (s_channels s) → (0 ≤ ww_receiver_index (s_writer s))%Z →
  (ww_receiver_index (s_writer s) + Z.of_nat (length (s_channels s)) < two64)%Z →
  ∃ s', sys_run config clock export s (replicate k EvPoll) = Some s' ∧ s_phase s' = Running ∧
    ww_receiver_index (s_writer s') = (ww_receiver_index (s_writer s) + Z.of_nat k)%Z ∧
    length (s_channels s') = length (s_channels s) ∧
    ∀ j ch, s_channels s !! j = Some ch →
      ∃ ch', s_channels s' !! j = Some ch' ∧
        ch_blocks ch' =
          if ((Z.of_nat j - ww_receiver_index (s_writer s)) mod Z.of_nat (length (s_channels s)) <? Z.of_nat k)%Z
          then drop 1 (ch_blocks ch) else ch_blocks ch.
Proof.
  intros Hp Hk Hr0 Hw. set (r := ww_receiver_index (s_writer s)) in *. set (n := Z.of_nat (length (s_channels s))) in *.
  induction k as [|k IH].
  { exists s. split_and!; try done; [lia|]. intros j ch Hj. exists ch. split; [done|].
    apply lookup_lt_Some in Hj. pose proof (Z.mod_pos_bound (Z.of_nat j - r) n ltac:(lia)).
    by rewrite (proj2 (Z.ltb_ge _ _)) by lia. }
  destruct IH as (s1 & Hr1 & Hp1 & Hi1 & Hl1 & Hc1); [lia|].
  destruct (poll_one s1 Hp1 ltac:(lia) ltac:(lia) ltac:(lia)) as (s2 & Hs2 & Hp2 & Hi2 & Hl2 & Hc2).
  exists s2. split_and!; [|done|lia|lia|].
  - replace (S k) with (k + 1) by lia. rewrite replicate_add.
    rewrite sys_run_app, Hr1. cbn [mbind option_bind replicate sys_run]. by rewrite Hs2.
  - intros j ch Hj. pose proof (lookup_lt_Some _ _ _ Hj) as Hjn.
    destruct (Hc1 j ch Hj) as (ch1 & Hj1 & E1). destruct (Hc2 j ch1 Hj1) as (ch2 & Hj2 & E2).
    exists ch2. split; [done|]. rewrite Hi1, Hl1 in E2. fold n in E2. rewrite E2, E1.
    pose proof (Z.mod_pos_bound (r + Z.of_nat k) n ltac:(lia)) as Hm1.
    pose proof (Z.mod_pos_bound (Z.of_nat j - r) n ltac:(lia)) as Hm2.
    destruct (j =? _) eqn:Ej; bool_case.
    + assert ((Z.of_nat j - r) mod n = Z.of_nat k)%Z as Hjk.
      { assert (Z.of_nat j = (r + Z.of_nat k) mod n)%Z as -> by (clear -Ej Hm1; lia).
        rewrite Zminus_mod_idemp_l. replace (r + Z.of_nat k - r)%Z with (Z.of_nat k) by lia.
        apply Z.mod_small. lia. }
      rewrite Hjk. rewrite (proj2 (Z.ltb_ge _ _)), (proj2 (Z.ltb_lt _ _)) by lia. done.
    + assert ((Z.of_nat j - r) mod n ≠ Z.of_nat k)%Z as Hjk.
      { intros Hjk. apply Ej. rewrite <-Hjk, Zplus_mod_idemp_r. replace (r + (Z.of_nat j - r))%Z with (Z.of_nat j) by lia.
        rewrite Z.mod_small by lia. by rewrite Nat2Z.id. }
      destruct (_ <? Z.of_nat k)%Z eqn:E3, (_ <? Z.of_nat (S k))%Z eqn:E4; bool_case; try done; lia.
Qed.
End polls.
