(* ===== verification/SnapshotStore.v ===== *)
(** * Snapshots on disk, and recovery from a directory

    [SnapshotCompression], [SnapshotName] and [SnapshotStore] of
    [persistence/snapshot.rs], [PersistenceRuntime::snapshot] and
    [snapshot_streaming] of [persistence.rs], and [RecoveryLoader] of
    [persistence/recovery.rs] on the directory of [Segments].  The order in
    which [read_dir] lists the directory is an argument of the operations that
    use it.  The framed compressor ([lz4_flex::frame]) is a class like the
    block compressor. *)

From S2P Require Import Prelude Deps Helpers Codec Wal Segments SegmentProofs Snapshot Recovery.

(** [FrameEncoder] and [FrameDecoder] over whole files. *)
Class Lz4Frame := {
  frame_encode : Bytes → Bytes;
  frame_decode : Bytes → option Bytes;
  frame_decode_encode : ∀ b, frame_decode (frame_encode b) = Some b;
}.

Inductive SnapshotCompression := CompressNone | CompressLz4.

Definition from_enabled (enabled : bool) : SnapshotCompression :=
  if enabled then CompressLz4 else CompressNone.

(** ** Names *)

(** ["snapshot-"], [".bin"], [".lz4"], [".lz4f"] and the last two without dot. *)
Definition SNAPSHOT_PREFIX : Bytes := [115; 110; 97; 112; 115; 104; 111; 116; 45]%Z.
Definition DOT : Z := 46%Z.
Definition BIN : Bytes := [98; 105; 110]%Z.
Definition SNAPSHOT_COMPRESSED_EXT : Bytes := [108; 122; 52]%Z.
Definition SNAPSHOT_FRAMED_COMPRESSED_EXT : Bytes := [108; 122; 52; 102]%Z.

Definition file_name (c : SnapshotCompression) (timestamp_ms : Z) : Bytes :=
  SNAPSHOT_PREFIX ++ u64_to_string timestamp_ms ++ DOT :: BIN ++
  match c with CompressNone => [] | CompressLz4 => DOT :: SNAPSHOT_COMPRESSED_EXT end.

Definition streaming_file_name (c : SnapshotCompression) (timestamp_ms : Z) : Bytes :=
  match c with
  | CompressNone => file_name CompressNone timestamp_ms
  | CompressLz4 =>
      SNAPSHOT_PREFIX ++ u64_to_string timestamp_ms ++ DOT :: BIN ++ DOT :: SNAPSHOT_FRAMED_COMPRESSED_EXT
  end.

(** [split('.').next()]: up to the first dot. *)
Fixpoint before_dot (s : Bytes) : Bytes :=
  match s with
  | [] => []
  | b :: s' => if (b =? DOT)%Z then [] else b :: before_dot s'
  end.

Definition strip_prefix (prefix name : Bytes) : option Bytes :=
  if bytes_eqb (take (length prefix) name) prefix then Some (drop (length prefix) name) else None.

Definition snapshot_timestamp (name : Bytes) : option Z :=
  if utf8_valid name then rest ← strip_prefix SNAPSHOT_PREFIX name; parse_u64 (before_dot rest) else None.

Definition snapshot_matches (name : Bytes) : bool := bool_decide (is_Some (snapshot_timestamp name)).

(** [Path::extension]: what follows the last dot, unless that dot is the first
    byte. *)
Definition extension (name : Bytes) : option Bytes :=
  let ext := reverse (before_dot (reverse name)) in
  if length name <=? length ext + 1 then None else Some ext.

Definition has_extension (name ext : Bytes) : bool := bool_decide (extension name = Some ext).

(** ** The repository *)
Inductive PersistError :=
  | PSnapshot (e : SnapshotError)
  | PWal (e : WalError)
  | PCompressed
  | PFramed
  | PDisabled.

Abbreviation Persist A := (Outcome PersistError A).

Definition lift {E E' A} (f : E → E') (o : Outcome E A) : Outcome E' A :=
  match o with Panic => Panic | Incomplete => Incomplete | Err e => Err (f e) | Done a => Done a end.

Section store.
Context `{Hashing, Crc32, Lz4, Lz4Frame}.

Definition compression_encode (c : SnapshotCompression) (body : Bytes) : Bytes :=
  match c with CompressNone => body | CompressLz4 => compress_prepend_size body end.

Definition decode_path (name bytes : Bytes) : Persist Bytes :=
  if has_extension name SNAPSHOT_COMPRESSED_EXT then ok_or (decompress_size_prepended bytes) PCompressed
  else if has_extension name SNAPSHOT_FRAMED_COMPRESSED_EXT then ok_or (frame_decode bytes) PFramed
  else Done bytes.

(** [fs::write]: no sync. *)
Definition snapshot_write (d : Disk) (entries : list StoredEntry) (timestamp_ms : Z)
    (c : SnapshotCompression) : Persist Disk :=
  body ← lift PSnapshot (encode_snapshot entries timestamp_ms);
  Done (<[file_name c timestamp_ms := mkFile (compression_encode c body) 0]> d).

(** [write_snapshot_streaming]: staged in temporary files that are removed or
    renamed, synced before the rename. *)
Definition snapshot_write_streaming (d : Disk) (entries : list StoredEntry) (timestamp_ms : Z)
    (c : SnapshotCompression) : Persist Disk :=
  raw ← lift PSnapshot (write_snapshot_streaming entries timestamp_ms);
  let bytes := match c with CompressNone => raw | CompressLz4 => frame_encode raw end in
  Done (<[streaming_file_name c timestamp_ms := mkFile bytes (length bytes)]> d).

(** The key of [max_by_key], and [max_by_key]: the last of the greatest. *)
Definition snapshot_key (name : Bytes) : Z * bool :=
  (match snapshot_timestamp name with Some t => t | None => 0%Z end,
   has_extension name SNAPSHOT_FRAMED_COMPRESSED_EXT).

Definition snapshot_key_le (x y : Z * bool) : bool :=
  if (x.1 <? y.1)%Z then true else if (y.1 <? x.1)%Z then false else implb x.2 y.2.

Definition max_by_key (names : list Bytes) : option Bytes :=
  foldl (λ best name,
    match best with
    | None => Some name
    | Some b => if snapshot_key_le (snapshot_key b) (snapshot_key name) then Some name else Some b
    end) None names.

Definition latest_path (listing : list Bytes) : option Bytes :=
  max_by_key (filter (λ name, snapshot_matches name = true) listing).

Definition load_latest (d : Disk) (listing : list Bytes) : Persist (option LoadedSnapshot) :=
  match latest_path listing with
  | None => Done None
  | Some name =>
      file ← or_panic (d !! name);
      raw ← decode_path name (f_content file);
      '(timestamp_ms, entries) ← lift PSnapshot (decode_snapshot raw);
      Done (Some (mkLoaded timestamp_ms entries))
  end.

(** [PersistenceRuntime::snapshot]; the configuration's [enabled] and
    [compress_snapshots]. *)
Definition runtime_snapshot (enabled compress : bool) (d : Disk) (entries : list StoredEntry)
    (timestamp_ms : Z) : Persist Disk :=
  if enabled then
    d ← snapshot_write d entries timestamp_ms (from_enabled compress);
    lift PWal (prune_through d timestamp_ms)
  else Err PDisabled.

Definition runtime_snapshot_streaming (enabled compress : bool) (d : Disk) (entries : list StoredEntry)
    (timestamp_ms : Z) : Persist Disk :=
  if enabled then
    d ← snapshot_write_streaming d entries timestamp_ms (from_enabled compress);
    lift PWal (prune_through d timestamp_ms)
  else Err PDisabled.

(** [RecoveryLoader::load]. *)
Definition recover (enabled : bool) (d : Disk) (listing : list Bytes) : Persist RecoveryAccumulator :=
  if enabled then
    loaded ← load_latest d listing;
    records ← lift PWal (read_all d);
    Done (load_enabled loaded records)
  else Done acc_default.
End store.
