(* ===== verification/PersistenceProofs.v ===== *)
(** * Snapshots, pruning and recovery together: lemmas *)

From S2P Require Import Prelude Deps Helpers Codec Wal Segments SegmentProofs Snapshot Recovery SnapshotStore WalPipeline WalPipelineProofs.

(** ** Snapshot names *)
Lemma before_dot_app s rest : DOT ∉ s → before_dot (s ++ DOT :: rest) = s.
Proof.
  induction s as [|b s IH]; intros Hn; [done|]. apply not_elem_of_cons in Hn as [Hb Hn].
  cbn [app before_dot]. rewrite (proj2 (Z.eqb_neq _ _)) by done. by rewrite IH.
Qed.

Lemma plain_no_dot s : Forall plain s → DOT ∉ s.
Proof.
  intros Hs Hin. rewrite Forall_forall in Hs. specialize (Hs _ Hin). done.
Qed.

(** What every snapshot name is: the time, then an ending that starts with a dot. *)
Definition snapshot_name (t : Z) (ending : Bytes) : Bytes :=
  SNAPSHOT_PREFIX ++ u64_to_string t ++ DOT :: ending.

Definition ending_of (streaming : bool) (c : SnapshotCompression) : Bytes :=
  match c, streaming with
  | CompressNone, _ => BIN
  | CompressLz4, false => BIN ++ DOT :: SNAPSHOT_COMPRESSED_EXT
  | CompressLz4, true => BIN ++ DOT :: SNAPSHOT_FRAMED_COMPRESSED_EXT
  end.

Lemma file_name_eq c t : file_name c t = snapshot_name t (ending_of false c).
Proof. by destruct c. Qed.

Lemma streaming_file_name_eq c t : streaming_file_name c t = snapshot_name t (ending_of true c).
Proof. by destruct c. Qed.

Lemma parse_u64_to_string t : is_u64 t → parse_u64 (u64_to_string t) = Some t.
Proof.
  intros Ht. unfold parse_u64, u64_to_string.
  destruct (parse_digits_20 t (u64_lt_1e20 t Ht)) as (b & ds & -> & Hb & Hp).
  rewrite (proj2 (Z.eqb_neq b 43)) by lia. rewrite Hp. cbn [mbind option_bind].
  unfold is_u64 in Ht. by rewrite (proj2 (Z.leb_le _ _)) by lia.
Qed.

Lemma snapshot_name_timestamp t st c :
  is_u64 t → snapshot_timestamp (snapshot_name t (ending_of st c)) = Some t.
Proof.
  intros Ht. unfold snapshot_timestamp, snapshot_name.
  rewrite utf8_valid_ascii by (repeat constructor).
  rewrite utf8_valid_ascii by (by apply plain_ascii, u64_to_string_plain).
  assert (utf8_valid (DOT :: ending_of st c) = true) as -> by (by destruct c, st).
  unfold strip_prefix. rewrite take_app_length, bytes_eqb_refl, drop_app_length. cbn [mbind option_bind].
  rewrite before_dot_app by (by apply plain_no_dot, u64_to_string_plain). by apply parse_u64_to_string.
Qed.

Lemma extension_app x e : x ≠ [] → DOT ∉ e → extension (x ++ DOT :: e) = Some e.
Proof.
  intros Hx He. unfold extension. rewrite reverse_app, reverse_cons, <-app_assoc. cbn [app].
  rewrite before_dot_app by (by rewrite elem_of_reverse).
  rewrite reverse_involutive, length_app. cbn [length].
  destruct x; [done|]. cbn [length]. by rewrite (proj2 (Nat.leb_gt _ _)) by lia.
Qed.

Lemma snapshot_extension t st c :
  extension (snapshot_name t (ending_of st c)) =
  Some (match c, st with
        | CompressNone, _ => BIN
        | CompressLz4, false => SNAPSHOT_COMPRESSED_EXT
        | CompressLz4, true => SNAPSHOT_FRAMED_COMPRESSED_EXT
        end).
Proof.
  unfold snapshot_name. rewrite app_assoc. set (x := SNAPSHOT_PREFIX ++ _).
  assert (x ≠ []) as Hx by done.
  destruct c; [|destruct st]; cbn [ending_of].
  - apply extension_app; [done|]. by apply (bool_decide_unpack _).
  - rewrite app_comm_cons, app_assoc. apply extension_app; [|by apply (bool_decide_unpack _)].
    by destruct x.
  - rewrite app_comm_cons, app_assoc. apply extension_app; [|by apply (bool_decide_unpack _)].
    by destruct x.
Qed.

(** Snapshots are not taken for log segments. *)
Lemma snapshot_not_segment t st c : segment_matches (snapshot_name t (ending_of st c)) = false.
Proof.
  unfold segment_matches. apply andb_false_iff. right. apply orb_false_iff.
  assert (∀ suffix, ends_with suffix (snapshot_name t (ending_of st c)) = true →
    ∃ s, SNAPSHOT_PREFIX ++ u64_to_string t ++ DOT :: ending_of st c = s ++ suffix) as He.
  { intros suffix Hs. unfold ends_with in Hs. apply bool_decide_eq_true in Hs as [s Hs].
    exists s. by apply strip_suffix_Some in Hs. }
  rewrite !app_assoc in He. set (x := SNAPSHOT_PREFIX ++ _) in He.
  split; destruct (ends_with _ _) eqn:E; try done; exfalso; apply He in E as [s E]; clear He.
  - apply (f_equal last) in E. rewrite !last_app in E. by destruct c, st.
  - destruct c; [|destruct st]; cbn [ending_of] in E.
    + apply (f_equal last) in E. rewrite !last_app in E. done.
    + apply (f_equal last) in E. rewrite !last_app in E. done.
    + apply app_inj_2 in E as [_ E]; [|done]. done.
Qed.

(** ** The newest snapshot *)
Lemma snapshot_key_le_total x y : snapshot_key_le x y = false → snapshot_key_le y x = true.
Proof.
  unfold snapshot_key_le. destruct (x.1 <? y.1)%Z eqn:?, (y.1 <? x.1)%Z eqn:?; bool_case; try done.
  by destruct x.2, y.2.
Qed.

Lemma snapshot_key_le_trans x y z : snapshot_key_le x y = true → snapshot_key_le y z = true → snapshot_key_le x z = true.
Proof.
  unfold snapshot_key_le. destruct (x.1 <? y.1)%Z eqn:?, (y.1 <? x.1)%Z eqn:?, (y.1 <? z.1)%Z eqn:?,
    (z.1 <? y.1)%Z eqn:?, (x.1 <? z.1)%Z eqn:?, (z.1 <? x.1)%Z eqn:?; bool_case; try lia; try done.
  by destruct x.2, y.2, z.2.
Qed.

Lemma max_by_key_spec names :
  match max_by_key names with
  | None => names = []
  | Some b => b ∈ names ∧ ∀ n, n ∈ names → snapshot_key_le (snapshot_key n) (snapshot_key b) = true
  end.
Proof.
  unfold max_by_key. induction names as [|n names IH] using rev_ind; [done|].
  rewrite foldl_snoc. destruct (foldl _ None names) as [b|].
  - destruct IH as [Hb Hmax]. destruct (snapshot_key_le (snapshot_key b) (snapshot_key n)) eqn:E.
    + split; [set_solver|]. intros m [Hm| ->%list_elem_of_singleton]%elem_of_app.
      * eapply snapshot_key_le_trans; [by apply Hmax|done].
      * unfold snapshot_key_le. rewrite Z.ltb_irrefl. by destruct (snapshot_key n).2.
    + split; [set_solver|]. intros m [Hm| ->%list_elem_of_singleton]%elem_of_app; [by apply Hmax|].
      by apply snapshot_key_le_total.
  - subst. split; [set_solver|]. intros m ->%list_elem_of_singleton.
    unfold snapshot_key_le. rewrite Z.ltb_irrefl. by destruct (snapshot_key n).2.
Qed.

Lemma latest_path_newest listing n t :
  n ∈ listing → snapshot_timestamp n = Some t →
  (∀ m t', m ∈ listing → m ≠ n → snapshot_timestamp m = Some t' → (t' < t)%Z) →
  latest_path listing = Some n.
Proof.
  intros Hin Ht Hmax. unfold latest_path.
  pose proof (max_by_key_spec (filter (λ m, snapshot_matches m = true) listing)) as Hs.
  assert (∀ m, m ∈ filter (λ m, snapshot_matches m = true) listing ↔
    m ∈ listing ∧ is_Some (snapshot_timestamp m)) as Hf.
  { intros m. rewrite list_elem_of_filter. unfold snapshot_matches. rewrite bool_decide_eq_true. naive_solver. }
  destruct (max_by_key _) as [b|].
  - destruct Hs as [[Hb [tb Htb]]%Hf Hle]. f_equal. destruct (decide (b = n)) as [|Hne]; [done|].
    specialize (Hmax b tb Hb Hne Htb). specialize (Hle n ltac:(apply Hf; by rewrite Ht)).
    unfold snapshot_key_le, snapshot_key in Hle. rewrite Ht, Htb in Hle. cbn [fst snd] in Hle.
    rewrite (proj2 (Z.ltb_ge t tb)), (proj2 (Z.ltb_lt tb t)) in Hle by lia. done.
  - exfalso. assert (n ∈ ([] : list Bytes)) as Hn; [|by apply elem_of_nil in Hn].
    rewrite <-Hs. apply Hf. by rewrite Ht.
Qed.

(** ** Files that are not segments *)
Lemma paths_insert_other d n f : segment_matches n = false → paths (<[n := f]> d) = paths d.
Proof.
  intros Hn. apply paths_unique; [apply paths_sorted|apply paths_nodup|].
  intros m. rewrite elem_of_paths. destruct (decide (m = n)) as [->|].
  - rewrite Hn. naive_solver.
  - by rewrite lookup_insert_ne.
Qed.

Section disk.
Context `{Hashing, Crc32, Lz4, Lz4Frame}.

Lemma read_all_insert_other d n f : segment_matches n = false → read_all (<[n := f]> d) = read_all d.
Proof.
  intros Hn. unfold read_all. rewrite paths_insert_other by done. apply read_paths_ext, Forall_forall.
  intros m [Hm _]%elem_of_paths. rewrite lookup_insert_ne; [done|]. intros <-. congruence.
Qed.

(** ** Pruning *)

(** [n] is untouched, or it was removed and all its records are of time [ts] or
    before. *)
Definition pruned_at (ts : Z) (d d' : Disk) (n : Bytes) : Prop :=
  d' !! n = d !! n ∨
  (d' !! n = None ∧ ∃ rs, read_segment d n = Done rs ∧ Forall (λ r, rec_timestamp_ms r ≤ ts)%Z rs).

Lemma prune_remove_spec rs ts :
  prune_remove rs ts = true → Forall (λ r, rec_timestamp_ms r ≤ ts)%Z rs.
Proof.
  unfold prune_remove. destruct rs as [|r rs]; [constructor|]. intros Hf%Is_true_true%forallb_True.
  eapply Forall_impl; [exact Hf|]. cbn. intros x Hx%Is_true_true. lia.
Qed.

Lemma prune_paths_spec names d ts d' :
  NoDup names → prune_paths d names ts = Done d' →
  (∀ n, pruned_at ts d d' n) ∧ (∀ n, n ∉ names → d' !! n = d !! n).
Proof.
  intros Hnd. revert d. induction Hnd as [|x names Hx _ IH]; intros d Hp.
  { injection Hp as <-. split; [by left|done]. }
  cbn [prune_paths] in Hp. apply bind_Done in Hp as (d1 & Hd1 & Hp).
  unfold prune_path in Hd1. apply bind_Done in Hd1 as (rs & Hrs & [= <-]).
  destruct (IH _ Hp) as [IHa IHb]. destruct (prune_remove rs ts) eqn:E.
  - split.
    + intros n. destruct (decide (n = x)) as [->|Hn].
      * right. split; [by rewrite IHb, lookup_delete_eq by done|]. exists rs. split; [done|by apply prune_remove_spec].
      * unfold pruned_at. destruct (IHa n) as [->|(-> & rs' & Hr & ?)]; rewrite ?lookup_delete_ne by done; [by left|].
        right. split; [done|]. exists rs'. split; [|done]. unfold read_segment in *.
        by rewrite lookup_delete_ne in Hr.
    + intros n [Hn1 Hn2]%not_elem_of_cons. by rewrite IHb, lookup_delete_ne by done.
  - split; [done|]. intros n [_ ?]%not_elem_of_cons. by apply IHb.
Qed.

Lemma prune_through_spec d ts d' :
  prune_through d ts = Done d' → ∀ n, pruned_at ts d d' n ∧ (n ∉ paths d → d' !! n = d !! n).
Proof.
  unfold prune_through. destruct (_ <=? 1); [intros [= <-] n; split; [by left|done]|].
  intros Hp n. assert (NoDup (take (length (paths d) - 1) (paths d))) as Hnd.
  { pose proof (paths_nodup d) as Hnd. rewrite <-(take_drop (length (paths d) - 1) (paths d)) in Hnd.
    by apply NoDup_app in Hnd as [? _]. }
  destruct (prune_paths_spec _ _ _ _ Hnd Hp) as [Ha Hb].
  split; [done|]. intros Hn. apply Hb. intros Hin. apply Hn.
  rewrite <-(take_drop (length (paths d) - 1) (paths d)). apply elem_of_app. by left.
Qed.

Lemma strongly_sorted_filter {A} (R : relation A) (P : A → Prop) `{∀ x, Decision (P x)} l :
  StronglySorted R l → StronglySorted R (filter P l).
Proof.
  induction 1 as [|x l _ IH Hx]; [constructor|]. rewrite filter_cons. destruct (decide (P x)); [|done].
  constructor; [done|]. apply Forall_forall. intros y [_ Hy]%list_elem_of_filter.
  rewrite Forall_forall in Hx. by apply Hx.
Qed.

Lemma prune_paths_left d ts d' :
  prune_through d ts = Done d' → paths d' = filter (λ n, is_Some (d' !! n)) (paths d).
Proof.
  intros Hp. apply paths_unique.
  - apply strongly_sorted_filter, paths_sorted.
  - apply NoDup_filter, paths_nodup.
  - intros n. rewrite list_elem_of_filter, elem_of_paths. split; [naive_solver|]. intros [Hm Hs].
    split; [done|]. split; [done|]. destruct (prune_through_spec d ts d' Hp n) as [[E|[E _]] _].
    + by rewrite <-E.
    + rewrite E in Hs. by destruct Hs.
Qed.

(** Records after [ts] survive pruning through [ts], in order. *)
Lemma prune_keeps_later d ts d' rs :
  prune_through d ts = Done d' → read_all d = Done rs →
  ∃ rs', read_all d' = Done rs' ∧ rs' `sublist_of` rs ∧ filter (current (ts + 1)) rs' = filter (current (ts + 1)) rs.
Proof.
  intros Hp Hr. unfold read_all in *. rewrite (prune_paths_left d ts d' Hp).
  assert (∀ n, pruned_at ts d d' n) as Hpr by (intros n; apply (prune_through_spec d ts d' Hp)).
  clear Hp. revert rs Hr. induction (paths d) as [|n l IH]; intros rs Hr.
  { injection Hr as <-. by exists []. }
  cbn [read_paths] in Hr. apply bind_Done in Hr as (r1 & Hr1 & Hr). apply bind_Done in Hr as (r2 & Hr2 & [= <-]).
  destruct (IH r2 Hr2) as (r2' & Hr2' & Hsub & Hf). rewrite filter_cons.
  destruct (Hpr n) as [E|(E & rs1 & Hrs1 & Hle)].
  - assert (is_Some (d !! n)) as Hn.
    { unfold read_segment in Hr1. destruct (d !! n); [done|]. done. }
    rewrite decide_True by (by rewrite E). exists (r1 ++ r2'). cbn [read_paths].
    assert (read_segment d' n = Done r1) as -> by (unfold read_segment in *; by rewrite E).
    cbn [mbind outcome_bind]. rewrite Hr2'. cbn [mbind outcome_bind]. split; [done|].
    split; [by apply sublist_app|]. by rewrite !filter_app, Hf.
  - rewrite decide_False by (rewrite E; by intros [? ?]). exists r2'. split; [done|].
    split; [by apply sublist_inserts_l|]. rewrite filter_app, Hf.
    rewrite Hr1 in Hrs1. apply Done_inj in Hrs1 as <-.
    assert (filter (current (ts + 1)) r1 = []) as ->; [|done].
    clear -Hle. induction Hle as [|r rs Hr _ IH]; [done|]. rewrite filter_cons, decide_False; [done|].
    unfold current. lia.
Qed.

(** With no record of exactly the snapshot's time, pruning changes nothing that
    replay looks at. *)
Lemma prune_keeps_current d ts d' rs :
  prune_through d ts = Done d' → read_all d = Done rs → Forall (λ r, rec_timestamp_ms r ≠ ts) rs →
  ∃ rs', read_all d' = Done rs' ∧ filter (current ts) rs' = filter (current ts) rs.
Proof.
  intros Hp Hr Hne. destruct (prune_keeps_later d ts d' rs Hp Hr) as (rs' & Hr' & Hsub & Hf).
  exists rs'. split; [done|].
  assert (∀ l, Forall (λ r, rec_timestamp_ms r ≠ ts) l → filter (current ts) l = filter (current (ts + 1)) l) as Hiff.
  { clear. induction 1 as [|r l Hr _ IH]; [done|]. rewrite !filter_cons, IH. unfold current.
    destruct (decide _), (decide _); try done; lia. }
  rewrite !Hiff; [done|done|]. rewrite Forall_forall in *. intros r Hin. apply Hne.
  by eapply elem_of_sublist.
Qed.

(** ** A snapshot and its recovery *)
Lemma decode_written es ts :
  Forall entry_ok es → is_u64 ts → is_u64 (Z.of_nat (length es)) →
  decode_snapshot (snapshot_bytes es ts) = Done (ts, es).
Proof. intros. unfold decode_snapshot. by rewrite decode_at_ok. Qed.

Lemma decode_path_written st c ts raw :
  decode_path (snapshot_name ts (ending_of st c))
    (match c, st with CompressNone, _ => raw | CompressLz4, false => compress_prepend_size raw
                    | CompressLz4, true => frame_encode raw end) = Done raw.
Proof.
  unfold decode_path, has_extension. rewrite snapshot_extension. destruct c; [done|]. destruct st; cbn -[ok_or].
  - by rewrite frame_decode_encode.
  - by rewrite decompress_compress.
Qed.

(** The snapshot that is loaded after writing one newer than all others. *)
Lemma load_written d listing st c es ts bytes k :
  Forall entry_ok es → is_u64 ts → is_u64 (Z.of_nat (length es)) →
  let n := snapshot_name ts (ending_of st c) in
  bytes = (match c, st with CompressNone, _ => snapshot_bytes es ts
           | CompressLz4, false => compress_prepend_size (snapshot_bytes es ts)
           | CompressLz4, true => frame_encode (snapshot_bytes es ts) end) →
  d !! n = Some (mkFile bytes k) → n ∈ listing →
  (∀ m t', m ∈ listing → m ≠ n → snapshot_timestamp m = Some t' → (t' < ts)%Z) →
  load_latest d listing = Done (Some (mkLoaded ts es)).
Proof.
  intros Hes Hts Hn n Hb Hd Hin Hmax. unfold load_latest.
  rewrite (latest_path_newest listing n ts Hin (snapshot_name_timestamp ts st c Hts) Hmax), Hd.
  cbn [or_panic mbind outcome_bind f_content]. subst bytes. unfold n. rewrite decode_path_written.
  cbn [mbind outcome_bind]. by rewrite decode_written.
Qed.

(** Recovery from a directory with a new snapshot, pruned through its time. *)
Section snapshot_recover.
Context (d : Disk) (rs : list MutationRecord) (base : Entries) (es : list StoredEntry) (ts : Z).
Context (Hread : read_all d = Done rs) (Hne : Forall (λ r, rec_timestamp_ms r ≠ ts) rs).
Context (Hes : Forall entry_ok es) (Hts : is_u64 ts) (Hn : is_u64 (Z.of_nat (length es))).
Context (Hord : ∀ k, in_order (key_log k rs)) (Hsnap : snapshot_of base rs (mkLoaded ts es)).
Context (Hnew : ∀ m t, is_Some (d !! m) → snapshot_timestamp m = Some t → (t < ts)%Z).

Lemma recover_written st c es' bytes k d' listing :
  let n := snapshot_name ts (ending_of st c) in
  bytes = (match c, st with CompressNone, _ => snapshot_bytes es' ts
           | CompressLz4, false => compress_prepend_size (snapshot_bytes es' ts)
           | CompressLz4, true => frame_encode (snapshot_bytes es' ts) end) →
  Forall entry_ok es' → length es' = length es → foldl insert_entry ∅ es' = foldl insert_entry ∅ es →
  prune_through (<[n := mkFile bytes k]> d) ts = Done d' → listing ≡ₚ elements (dom d') →
  ∃ acc, recover true d' listing = Done acc ∧ acc_entries acc = state_after base rs.
Proof.
  intros n Hb Hes' Hlen Hins Hp Hl.
  assert (segment_matches n = false) as Hseg by apply snapshot_not_segment.
  destruct (prune_keeps_current _ ts d' rs Hp) as (rs' & Hr' & Hf); [by rewrite read_all_insert_other|done|].
  pose proof (prune_through_spec _ _ _ Hp) as Hspec.
  assert (d' !! n = Some (mkFile bytes k)) as Hd'.
  { destruct (Hspec n) as [_ E]. rewrite E, lookup_insert_eq; [done|]. rewrite elem_of_paths, Hseg. naive_solver. }
  assert (load_latest d' listing = Done (Some (mkLoaded ts es'))) as Hload.
  { eapply (load_written d' listing st c es' ts bytes k); try done.
    - by rewrite Hlen.
    - rewrite Hl, elem_of_elements, elem_of_dom. fold n. by rewrite Hd'.
    - intros m t'. rewrite Hl, elem_of_elements, elem_of_dom. fold n. intros Hm Hmn Ht'.
      apply (Hnew m); [|done]. destruct (Hspec m) as [[E|[E _]] _]; rewrite E in Hm; [|by destruct Hm].
      by rewrite lookup_insert_ne in Hm. }
  unfold recover. rewrite Hload. cbn [mbind outcome_bind]. rewrite Hr'. cbn [lift mbind outcome_bind].
  eexists. split; [done|]. rewrite (recovery_filter (mkLoaded ts es') rs' rs Hf).
  apply recovery_sound; [done|]. intros key. destruct (Hsnap key) as (l1 & l2 & E1 & E2 & E3).
  exists l1, l2. split_and!; [done| |done]. cbn [snap_entries] in *. by rewrite Hins.
Qed.

Lemma streaming_recover compress d' listing :
  runtime_snapshot_streaming true compress d es ts = Done d' → listing ≡ₚ elements (dom d') →
  ∃ acc, recover true d' listing = Done acc ∧ acc_entries acc = state_after base rs.
Proof.
  unfold runtime_snapshot_streaming, snapshot_write_streaming. rewrite write_streaming_ok by done.
  cbn [lift mbind outcome_bind]. intros Hp Hl.
  destruct (prune_through _ ts) as [| | |d1] eqn:E; [done..|]. injection Hp as ->.
  rewrite streaming_file_name_eq in E.
  eapply (recover_written true (from_enabled compress) es); try done.
Qed.

(** The entries in the order of their hashes make the same map. *)
Lemma insert_all_perm l l' :
  NoDup (e_key <$> l) → l ≡ₚ l' → foldl insert_entry ∅ l = foldl insert_entry ∅ l'.
Proof.
  assert (∀ l, foldl insert_entry ∅ l = list_to_map (reverse ((λ e, (e_key e, e)) <$> l))) as E.
  { clear. intros l. induction l as [|e l IH] using rev_ind; [done|].
    by rewrite foldl_snoc, IH, fmap_app, reverse_app. }
  intros Hnd Hp. rewrite !E. apply list_to_map_proper.
  - rewrite reverse_Permutation, <-list_fmap_compose. done.
  - by rewrite !reverse_Permutation, Hp.
Qed.

Lemma snapshot_recover compress d' listing :
  NoDup (e_key <$> es) →
  runtime_snapshot true compress d es ts = Done d' → listing ≡ₚ elements (dom d') →
  ∃ acc, recover true d' listing = Done acc ∧ acc_entries acc = state_after base rs.
Proof.
  intros Hnd. unfold runtime_snapshot, snapshot_write. rewrite encode_snapshot_ok by done.
  cbn [lift mbind outcome_bind]. set (es' := sort_by_key _ es). intros Hp Hl.
  assert (es' ≡ₚ es) as Hperm by apply sort_by_key_perm.
  destruct (prune_through _ ts) as [| | |d1] eqn:E; [done..|]. injection Hp as ->.
  rewrite file_name_eq in E.
  eapply (recover_written false (from_enabled compress) es'); try done.
  - by rewrite Hperm.
  - by rewrite Hperm.
  - symmetry. by apply insert_all_perm.
Qed.
End snapshot_recover.
End disk.

(** ** The log after a shutdown, replayed *)
Lemma entry_step_stripped o r : entry_step o (stripped r) = entry_step o r.
Proof. done. Qed.

Lemma entry_fold_stripped o rs : entry_fold o (map stripped rs) = entry_fold o rs.
Proof. revert o. induction rs as [|r rs IH]; intros o; [done|]. cbn [map foldl]. by rewrite IH. Qed.

Lemma key_log_stripped k rs : key_log k (map stripped rs) = map stripped (key_log k rs).
Proof.
  unfold key_log. induction rs as [|r rs IH]; [done|]. cbn [map]. rewrite !filter_cons, IH. cbn [stripped rec_key].
  by destruct (decide _).
Qed.

(** A key that only shard [i] writes: its records are those of the shard. *)
Lemma key_log_shard k i log es :
  (∀ j, of_shard j log = appended_by j es) →
  (∀ r, r ∈ all_appended es → rec_key r = k → rec_shard_id r = i) →
  key_log k log = key_log k (appended_by i es).
Proof.
  intros Hsh Hk. rewrite <-Hsh. unfold key_log. rewrite list_filter_filter.
  assert (∀ r, r ∈ log → rec_key r = k → rec_shard_id r = i) as Hlog.
  { intros r Hr Hrk. apply Hk; [|done]. assert (r ∈ of_shard (rec_shard_id r) log) as Hin.
    { by apply list_elem_of_filter. }
    rewrite Hsh in Hin. unfold appended_by in Hin. by apply list_elem_of_filter in Hin as [_ ?]. }
  clear Hsh Hk. induction log as [|r log IH]; [done|]. rewrite !filter_cons, IH by (intros; apply Hlog; [by right|done]).
  pose proof (Hlog r ltac:(by left)). destruct (decide (rec_key r = k)), (decide _); try done; naive_solver.
Qed.

Lemma recovered_key k i log es old :
  (∀ j, of_shard j log = appended_by j es) →
  (∀ r, r ∈ all_appended es → rec_key r = k → rec_shard_id r = i) →
  Forall (λ r, 0 ≤ rec_timestamp_ms r)%Z (old ++ map stripped log) →
  acc_entries (load_enabled None (old ++ map stripped log)) !! k =
  entry_fold (state_after ∅ old !! k) (key_log k (appended_by i es)).
Proof.
  intros Hsh Hk Hts. rewrite recovery_log_only by done.
  rewrite !state_after_lookup. unfold key_log at 1. rewrite filter_app. fold (key_log k old).
  rewrite foldl_app. fold (key_log k (map stripped log)). rewrite key_log_stripped, entry_fold_stripped.
  by rewrite (key_log_shard k i log es Hsh Hk).
Qed.
