(* ===== verification/Types.v ===== *)
(** * Result and value types of the object store ([redis_objects.rs]) *)

From S2P Require Import Prelude F64.

Inductive RedisObjectResult :=
  | Simple (message : string)
  | Integer (n : Z)
  | IntegerArray (ns : list Z)
  | Bulk (v : option Bytes)
  | Array (vs : list (option Bytes))
  | WrongType.

Inductive RedisObjectReadOutcome := Written | Missing | ReadWrongType.

Inductive RedisObjectWriteAttempt :=
  | Complete (r : RedisObjectResult)
  | WriteMissing.

(** Items handed to an [emit] callback; an emission is the list of its calls. *)
Inductive RedisObjectArrayItem :=
  | Begin (count : nat)
  | Item (v : option Bytes).

Inductive RedisObjectZSetRangeItem :=
  | ZBegin (count : nat)
  | ZEntry (member : Bytes) (score : f64).

Inductive RedisObjectValue :=
  | VHash (entries : list (Bytes * Bytes))
  | VList (entries : list Bytes)
  | VSet (entries : list Bytes)
  | VZSet (entries : list (Bytes * f64)).
