(* ===== verification/HashSet.v ===== *)
(** * Hash and set objects

    [HashMap] is [std::collections::HashMap] as the store uses it: an
    association list in iteration order, where a fresh key lands wherever
    [TableOrder.place] puts it.  [HashObject] ([hash_object.rs]) and
    [SetObject] ([set_object.rs]) keep up to four entries inline and promote to
    a hash map; [abs] gives the finite map or set they store, and the lemmas
    show that the two representations are indistinguishable. *)

From S2P Require Import Prelude Deps Helpers.

Definition SMALL_HASH_INLINE : nat := 4.
Definition SMALL_SET_INLINE : nat := 4.

(** ** Association lists *)
Module Assoc.
Section Assoc.
Context {V : Type}.
Implicit Types (l : list (Bytes * V)).

Definition key_is (k : Bytes) (e : Bytes * V) : bool := bytes_eqb e.1 k.

Definition get (k : Bytes) l : option V := i ← position (key_is k) l; snd <$> l !! i.

Definition update (k : Bytes) (f : V → V) l : list (Bytes * V) :=
  match position (key_is k) l with
  | Some i => alter (λ e, (e.1, f e.2)) i l
  | None => l
  end.

Definition remove (k : Bytes) l : option (V * list (Bytes * V)) :=
  i ← position (key_is k) l; e ← l !! i; Some (e.2, delete i l).

Definition wf l : Prop := NoDup l.*1.
Definition abs l : gmap Bytes V := list_to_map l.

Lemma position_split k l i :
  position (key_is k) l = Some i →
  ∃ v, l !! i = Some (k, v) ∧ l = take i l ++ (k, v) :: drop (S i) l.
Proof.
  intros ([k' v] & Hi & Hk%bytes_eqb_true & _)%position_Some. simpl in Hk. subst.
  exists v. split; [done|]. by rewrite take_drop_middle.
Qed.

Lemma position_is_None k l : position (key_is k) l = None ↔ k ∉ l.*1.
Proof.
  rewrite position_None, list_elem_of_fmap. split.
  - intros Hn (e & -> & He). specialize (Hn e He). unfold key_is in Hn.
    by rewrite bytes_eqb_refl in Hn.
  - intros Hn e He. apply bytes_eqb_false. intros <-. eauto.
Qed.

Lemma wf_middle k v l1 l2 :
  wf (l1 ++ (k, v) :: l2) → k ∉ l1.*1 ∧ k ∉ l2.*1 ∧ wf (l1 ++ l2).
Proof.
  unfold wf. rewrite !fmap_app, fmap_cons. cbn [fst]. intros Hnd.
  rewrite <-Permutation_middle in Hnd. apply NoDup_cons in Hnd as [Hk Hnd].
  rewrite elem_of_app in Hk. tauto.
Qed.

Lemma abs_middle k v l1 l2 :
  k ∉ l1.*1 → abs (l1 ++ (k, v) :: l2) = <[k := v]> (abs (l1 ++ l2)).
Proof.
  intros Hk. unfold abs. rewrite !list_to_map_app. simpl.
  rewrite <-insert_union_r; [done|]. by apply not_elem_of_list_to_map_1.
Qed.

Lemma abs_get k l : get k l = abs l !! k.
Proof.
  unfold get, abs. induction l as [|[k' v] l IH]; simpl; [done|].
  unfold key_is at 1. simpl. destruct (bytes_eqb k' k) eqn:E.
  - apply bytes_eqb_true in E as ->. by rewrite lookup_insert_eq.
  - apply bytes_eqb_false in E. rewrite lookup_insert_ne, <-IH by done.
    by destruct (position (key_is k) l).
Qed.

Lemma position_abs_None k l : position (key_is k) l = None ↔ abs l !! k = None.
Proof.
  rewrite position_is_None. unfold abs. split.
  - apply not_elem_of_list_to_map_1.
  - apply not_elem_of_list_to_map_2.
Qed.

Lemma abs_snoc k v l : abs l !! k = None → abs (l ++ [(k, v)]) = <[k := v]> (abs l).
Proof.
  intros Hn. apply position_abs_None, position_is_None in Hn.
  by rewrite abs_middle, app_nil_r.
Qed.

Lemma wf_snoc k v l : wf l → abs l !! k = None → wf (l ++ [(k, v)]).
Proof.
  intros Hwf Hn. apply position_abs_None, position_is_None in Hn. unfold wf.
  rewrite fmap_app. simpl. apply NoDup_app. split; [done|]. split; [|apply NoDup_singleton].
  intros x Hx ->%list_elem_of_singleton. done.
Qed.

Lemma position_get k l i v :
  position (key_is k) l = Some i → abs l !! k = Some v → l !! i = Some (k, v).
Proof.
  intros Hp Hv. destruct (position_split _ _ _ Hp) as (v' & Hi & _).
  rewrite <-abs_get in Hv. unfold get in Hv. rewrite Hp in Hv. simpl in Hv.
  rewrite Hi in Hv. by simplify_eq/=.
Qed.

Lemma update_split k f l v :
  abs l !! k = Some v →
  ∃ l1 l2, l = l1 ++ (k, v) :: l2 ∧ update k f l = l1 ++ (k, f v) :: l2.
Proof.
  intros Hv. unfold update. destruct (position (key_is k) l) as [i|] eqn:Hp.
  - pose proof (position_get _ _ _ _ Hp Hv) as Hi.
    exists (take i l), (drop (S i) l). split; [by rewrite take_drop_middle|].
    rewrite <-(take_drop_middle l i (k, v) Hi) at 1.
    assert (i = length (take i l) + 0) as Hlen.
    { rewrite length_take_le; [lia|]. apply lookup_lt_Some in Hi. lia. }
    rewrite Hlen at 1. by rewrite alter_app_r.
  - apply position_abs_None in Hp. congruence.
Qed.

Lemma abs_update k f l v :
  wf l → abs l !! k = Some v →
  wf (update k f l) ∧ abs (update k f l) = <[k := f v]> (abs l) ∧
  length (update k f l) = length l.
Proof.
  intros Hwf Hv. destruct (update_split k f l v Hv) as (l1 & l2 & -> & ->).
  split_and!.
  - unfold wf in *. by rewrite fmap_app, fmap_cons in *.
  - apply wf_middle in Hwf as (H1 & _). rewrite !abs_middle by done.
    by rewrite insert_insert_eq.
  - by rewrite !length_app.
Qed.

Lemma remove_Some k l v :
  wf l → abs l !! k = Some v →
  ∃ l', remove k l = Some (v, l') ∧ wf l' ∧ abs l' = delete k (abs l) ∧ l ≡ₚ (k, v) :: l'.
Proof.
  intros Hwf Hv. unfold remove. destruct (position (key_is k) l) as [i|] eqn:Hp.
  - pose proof (position_get _ _ _ _ Hp Hv) as Hi. simpl. rewrite Hi. simpl.
    exists (delete i l). split; [done|]. rewrite delete_take_drop.
    pose proof (take_drop_middle l i (k, v) Hi) as Hl. rewrite <-Hl in Hwf.
    apply wf_middle in Hwf as (H1 & H2 & H3). split; [done|]. split.
    + rewrite <-Hl at 3. rewrite abs_middle by done. rewrite delete_insert_id; [done|].
      apply not_elem_of_list_to_map_1. rewrite fmap_app, elem_of_app. tauto.
    + rewrite <-Hl at 1. by rewrite Permutation_middle.
  - apply position_abs_None in Hp. congruence.
Qed.

Lemma remove_None k l : abs l !! k = None → remove k l = None.
Proof. unfold remove. by intros ->%position_abs_None. Qed.

Lemma abs_size l : wf l → size (abs l) = length l.
Proof.
  intros Hwf. unfold abs. rewrite <-length_map_to_list, map_to_list_to_map; done.
Qed.

Lemma abs_perm l : wf l → map_to_list (abs l) ≡ₚ l.
Proof. apply map_to_list_to_map. Qed.

Lemma abs_empty l : wf l → abs l = ∅ ↔ l = [].
Proof. intros Hwf. rewrite <-map_size_empty_iff, abs_size by done. by destruct l. Qed.

End Assoc.
End Assoc.

(** ** [FastHashMap] *)
Module HashMap.
Section HashMap.
Context `{TableOrder} {V : Type}.

Abbreviation t := (list (Bytes * V)).

Definition insert (m : t) (k : Bytes) (v : V) : option V * t :=
  match Assoc.get k m with
  | Some old => (Some old, Assoc.update k (λ _, v) m)
  | None => (None, place m k v)
  end.

Definition remove (m : t) (k : Bytes) : option V * t :=
  match Assoc.remove k m with
  | Some (v, m') => (Some v, m')
  | None => (None, m)
  end.

Lemma place_wf (m : t) k v : Assoc.wf m → Assoc.abs m !! k = None →
  Assoc.wf (place m k v) ∧ Assoc.abs (place m k v) = <[k := v]> (Assoc.abs m).
Proof.
  intros Hwf Hn. assert (Assoc.wf (place m k v)) as Hwf'.
  { unfold Assoc.wf. rewrite place_perm. simpl. apply NoDup_cons.
    split; [|done]. by apply Assoc.position_is_None, Assoc.position_abs_None. }
  split; [done|]. unfold Assoc.abs at 1. by rewrite (list_to_map_proper _ ((k, v) :: m)) by
    (done || apply place_perm).
Qed.

Lemma hm_insert_spec (m : t) k v :
  Assoc.wf m →
  (insert m k v).1 = Assoc.abs m !! k ∧ Assoc.wf (insert m k v).2 ∧
  Assoc.abs (insert m k v).2 = <[k := v]> (Assoc.abs m).
Proof.
  intros Hwf. unfold insert. rewrite Assoc.abs_get.
  destruct (Assoc.abs m !! k) as [old|] eqn:E; simpl.
  - destruct (Assoc.abs_update k (λ _, v) m old Hwf E) as (? & ? & _). done.
  - split; [done|]. by apply place_wf.
Qed.

Lemma hm_remove_spec (m : t) k :
  Assoc.wf m →
  (remove m k).1 = Assoc.abs m !! k ∧ Assoc.wf (remove m k).2 ∧
  Assoc.abs (remove m k).2 = delete k (Assoc.abs m).
Proof.
  intros Hwf. unfold remove. destruct (Assoc.abs m !! k) as [v|] eqn:E.
  - destruct (Assoc.remove_Some _ _ _ Hwf E) as (m' & -> & ? & ? & _). done.
  - rewrite Assoc.remove_None by done. split; [done|]. split; [done|]. by rewrite delete_id.
Qed.

End HashMap.
End HashMap.

(** Order of the sorted readers: by key bytes. *)
Definition key_le {V} (x y : Bytes * V) : Prop := bytes_le x.1 y.1.

#[export] Instance key_le_dec {V} : RelDecision (@key_le V).
Proof. intros x y. unfold key_le. apply _. Defined.
#[export] Instance key_le_total {V} : Total (@key_le V).
Proof. intros x y. apply bytes_le_total. Qed.
#[export] Instance key_le_trans {V} : Transitive (@key_le V).
Proof. intros x y z. apply bytes_le_trans. Qed.

(** The canonical listing of a finite map: ascending keys. *)
Definition sorted_entries {V} (m : gmap Bytes V) : list (Bytes * V) :=
  merge_sort key_le (map_to_list m).

Lemma sort_entries_canonical {V} (l : list (Bytes * V)) :
  Assoc.wf l → merge_sort key_le l = sorted_entries (Assoc.abs l).
Proof.
  intros Hwf. apply (Sorted_unique_strong key_le).
  - intros [k1 v1] [k2 v2] H1 H2 H12 H21. unfold key_le in *; simpl in *.
    pose proof (anti_symm bytes_le _ _ H12 H21) as ->. f_equal.
    rewrite merge_sort_Permutation in H1. unfold sorted_entries in H2.
    rewrite merge_sort_Permutation, Assoc.abs_perm in H2 by done.
    apply (elem_of_list_to_map (M := gmap Bytes)) in H1, H2; [congruence|done..].
  - apply Sorted_merge_sort, _.
  - apply Sorted_merge_sort, _.
  - unfold sorted_entries. by rewrite !merge_sort_Permutation, Assoc.abs_perm.
Qed.

Lemma sort_keys_canonical {V} (l : list (Bytes * V)) :
  Assoc.wf l → merge_sort bytes_le l.*1 = (sorted_entries (Assoc.abs l)).*1.
Proof.
  intros Hwf. apply (Sorted_unique bytes_le).
  - apply Sorted_merge_sort, _.
  - rewrite <-sort_entries_canonical by done.
    pose proof (Sorted_merge_sort key_le l) as Hs.
    induction Hs as [|x l' Hs IH Hhd]; simpl; constructor; [done|].
    destruct Hhd; simpl; by constructor.
  - unfold sorted_entries. by rewrite !merge_sort_Permutation, Assoc.abs_perm.
Qed.

(** ** [HashObject] *)
Module HashObject.
Section HashObject.
Context `{TableOrder}.

Inductive t :=
  | Small (entries : list (Bytes * Bytes))
  | Map (map : list (Bytes * Bytes)).

Definition single (field value : Bytes) : t := Small ([] ++ [(field, value)]).

(** [map_with_capacity]: capacity is an allocation hint only. *)
Definition map_with_capacity (capacity : nat) : t := Map [].

Definition insert_slice (h : t) (field value : Bytes) : bool * t :=
  match h with
  | Small entries =>
      let first :=
        match entries with
        | (existing_field, existing_value) :: rest =>
            if bytes_eqb existing_field field
            then Some (false, Small ((existing_field, replace_bytes existing_value value) :: rest))
            else None
        | [] => None
        end in
      match first with
      | Some r => r
      | None =>
          match position (Assoc.key_is field) entries with
          | Some _ => (false, Small (Assoc.update field (λ old, replace_bytes old value) entries))
          | None =>
              if length entries <? SMALL_HASH_INLINE
              then (true, Small (entries ++ [(field, value)]))
              else
                let map := foldl (λ m e, (HashMap.insert m e.1 e.2).2) [] entries in
                (true, Map (HashMap.insert map field value).2)
          end
      end
  | Map map =>
      let '(old, map') := HashMap.insert map field value in
      (bool_decide (old = None), Map map')
  end.

(** The entries in iteration order, for either representation. *)
Definition iter (h : t) : list (Bytes * Bytes) :=
  match h with Small entries => entries | Map map => map end.

Definition get (h : t) (field : Bytes) : option Bytes :=
  match h with
  | Small entries => Assoc.get field entries
  | Map map => Assoc.get field map
  end.

Definition contains_key (h : t) (field : Bytes) : bool := bool_decide (is_Some (get h field)).

Definition fields (h : t) : list Bytes :=
  merge_sort bytes_le
    match h with
    | Small entries => entries.*1
    | Map map => map.*1
    end.

Definition values (h : t) : list Bytes :=
  match h with
  | Small entries => entries.*2
  | Map map => map.*2
  end.

Definition entries (h : t) : list (Bytes * Bytes) :=
  merge_sort key_le
    match h with
    | Small entries => entries
    | Map map => map
    end.

(** The visitors hand out the entries in iteration order; a visitor is
    modelled by the sequence of its calls. *)
Definition visit_entries (h : t) : list (Bytes * Bytes) :=
  match h with Small entries => entries | Map map => map end.

Definition visit_fields (h : t) : list Bytes :=
  match h with Small entries => entries.*1 | Map map => map.*1 end.

Definition visit_values (h : t) : list Bytes :=
  match h with Small entries => entries.*2 | Map map => map.*2 end.

Definition remove (h : t) (field : Bytes) : option Bytes * t :=
  match h with
  | Small entries =>
      match Assoc.remove field entries with
      | Some (v, entries') => (Some v, Small entries')
      | None => (None, Small entries)
      end
  | Map map => let '(v, map') := HashMap.remove map field in (v, Map map')
  end.

Definition len (h : t) : nat :=
  match h with Small entries => length entries | Map map => length map end.

Definition is_empty (h : t) : bool :=
  match h with
  | Small entries => bool_decide (entries = [])
  | Map map => bool_decide (map = [])
  end.

(** ** What a hash object stores *)
Definition wf (h : t) : Prop :=
  Assoc.wf (iter h) ∧
  match h with Small entries => length entries ≤ SMALL_HASH_INLINE | Map _ => True end.

Definition abs (h : t) : gmap Bytes Bytes := Assoc.abs (iter h).

Lemma single_spec f v : wf (single f v) ∧ abs (single f v) = {[f := v]}.
Proof.
  split; [|done]. split; simpl; [apply NoDup_singleton|]. unfold SMALL_HASH_INLINE. lia.
Qed.

Lemma map_with_capacity_spec n :
  wf (map_with_capacity n) ∧ abs (map_with_capacity n) = ∅.
Proof. split; [|done]. split; [constructor|done]. Qed.

Lemma promote_spec (es : list (Bytes * Bytes)) m :
  Assoc.wf m → Assoc.wf es →
  (∀ k, k ∈ es.*1 → Assoc.abs m !! k = None) →
  let m' := foldl (λ m e, (HashMap.insert m e.1 e.2).2) m es in
  Assoc.wf m' ∧ Assoc.abs m' = Assoc.abs es ∪ Assoc.abs m.
Proof.
  revert m. induction es as [|[k v] es IH]; intros m Hm Hes Hfresh; simpl.
  - split; [done|]. by rewrite map_empty_union.
  - destruct (HashMap.hm_insert_spec m k v Hm) as (_ & Hwf & Habs).
    apply NoDup_cons in Hes as [Hk Hes].
    destruct (IH _ Hwf Hes) as [H1 H2].
    { intros k' Hk'. rewrite Habs, lookup_insert_ne by (intros ->; done).
      apply Hfresh. by right. }
    split; [done|]. rewrite H2, Habs. unfold Assoc.abs. simpl.
    rewrite <-insert_union_r by by apply not_elem_of_list_to_map_1.
    by rewrite insert_union_l.
Qed.

Lemma hash_insert_spec h f v :
  wf h →
  (insert_slice h f v).1 = bool_decide (abs h !! f = None) ∧
  wf (insert_slice h f v).2 ∧ abs (insert_slice h f v).2 = <[f := v]> (abs h).
Proof.
  intros [Hwf Hsmall]. destruct h as [es|m]; simpl in *.
  - destruct (match es with
              | (ef, ev) :: rest => if bytes_eqb ef f
                                    then Some (false, Small ((ef, replace_bytes ev v) :: rest))
                                    else None
              | [] => None end) as [r|] eqn:Hfirst; cbn beta.
    + destruct es as [|[ef ev] rest]; [done|]. destruct (bytes_eqb ef f) eqn:E; [|done].
      apply bytes_eqb_true in E as ->. simplify_eq. rewrite replace_bytes_value. simpl.
      unfold abs; simpl. unfold Assoc.abs; simpl. rewrite lookup_insert_eq.
      split_and!; [done|by split|by rewrite insert_insert_eq].
    + clear Hfirst. unfold abs; simpl.
      destruct (position (Assoc.key_is f) es) as [i|] eqn:Hp.
      * assert (is_Some (Assoc.abs es !! f)) as [old Hold].
        { apply not_eq_None_Some. rewrite <-Assoc.position_abs_None. congruence. }
        destruct (Assoc.abs_update f (λ old, replace_bytes old v) es old Hwf Hold) as (H1 & H2 & H3).
        rewrite Hold. simpl. rewrite H2, replace_bytes_value. split_and!; try done.
        unfold wf; simpl. by rewrite H3.
      * apply Assoc.position_abs_None in Hp. rewrite Hp.
        destruct (length es <? SMALL_HASH_INLINE) eqn:El; bool_case; simpl.
        -- split_and!; [done| |by apply Assoc.abs_snoc].
           split; simpl; [by apply Assoc.wf_snoc|]. rewrite length_app. simpl. lia.
        -- destruct (promote_spec es [] ltac:(constructor) Hwf ltac:(done)) as [H1 H2].
           change (Assoc.abs (V:=Bytes) []) with (∅ : gmap Bytes Bytes) in H2.
           rewrite map_union_empty in H2.
           destruct (HashMap.hm_insert_spec _ f v H1) as (_ & H3 & H4).
           rewrite H2 in H4. done.
  - destruct (HashMap.hm_insert_spec m f v Hwf) as (H1 & H2 & H3). unfold abs; simpl.
    destruct (HashMap.insert m f v) as [old m']. simpl in *. subst. done.
Qed.

Lemma hash_get_spec h f : get h f = abs h !! f.
Proof. destruct h; apply Assoc.abs_get. Qed.

Lemma hash_contains_spec h f : contains_key h f = bool_decide (is_Some (abs h !! f)).
Proof. unfold contains_key. by rewrite hash_get_spec. Qed.

Lemma hash_remove_spec h f :
  wf h →
  (remove h f).1 = abs h !! f ∧ wf (remove h f).2 ∧ abs (remove h f).2 = delete f (abs h).
Proof.
  intros [Hwf Hsmall]. destruct h as [es|m]; simpl in *; unfold abs; simpl.
  - destruct (Assoc.abs es !! f) as [v|] eqn:E.
    + destruct (Assoc.remove_Some _ _ _ Hwf E) as (es' & -> & H1 & H2 & H3). simpl.
      split_and!; [done| |done]. split; [done|]. apply Permutation_length in H3. simpl in *. lia.
    + rewrite Assoc.remove_None by done. simpl. split_and!; try done. by rewrite delete_id.
  - destruct (HashMap.hm_remove_spec m f Hwf) as (H1 & H2 & H3).
    destruct (HashMap.remove m f) as [old m']. simpl in *. done.
Qed.

Lemma hash_len_spec h : wf h → len h = size (abs h).
Proof. intros [Hwf _]. unfold abs. rewrite Assoc.abs_size by done. by destruct h. Qed.

Lemma hash_is_empty_spec h : wf h → is_empty h = bool_decide (abs h = ∅).
Proof.
  intros [Hwf _]. unfold abs.
  destruct h; simpl in *; apply bool_decide_ext; by rewrite Assoc.abs_empty.
Qed.

Lemma hash_entries_spec h : wf h → entries h = sorted_entries (abs h).
Proof. intros [Hwf _]. destruct h; by apply sort_entries_canonical. Qed.

Lemma hash_fields_spec h : wf h → fields h = (sorted_entries (abs h)).*1.
Proof. intros [Hwf _]. destruct h; by apply sort_keys_canonical. Qed.

Lemma hash_visit_spec h : wf h → visit_entries h ≡ₚ map_to_list (abs h).
Proof. intros [Hwf _]. destruct h; symmetry; by apply Assoc.abs_perm. Qed.

Lemma hash_visit_fields_spec h : visit_fields h = (visit_entries h).*1.
Proof. by destruct h. Qed.

Lemma hash_visit_values_spec h : visit_values h = (visit_entries h).*2.
Proof. by destruct h. Qed.

(** [remove] called for each of a list of fields. *)
Lemma hash_remove_all_spec h fs :
  wf h →
  wf (foldl (λ h f, (remove h f).2) h fs) ∧
  abs (foldl (λ h f, (remove h f).2) h fs) = filter (λ e, e.1 ∉ fs) (abs h).
Proof.
  revert h. induction fs as [|f fs IH]; intros h Hwf; simpl.
  - split; [done|]. symmetry. apply map_filter_id. intros i x _. simpl. apply not_elem_of_nil.
  - destruct (hash_remove_spec h f Hwf) as (_ & H1 & H2).
    destruct (IH _ H1) as [H3 H4]. split; [done|]. rewrite H4, H2.
    apply map_eq. intros k. apply option_eq. intros v.
    rewrite !map_lookup_filter_Some, lookup_delete_Some. simpl. rewrite not_elem_of_cons.
    naive_solver.
Qed.

(** [insert_slice] called for each of a list of entries. *)
Lemma hash_insert_all_spec h (fvs : list (Bytes * Bytes)) :
  wf h →
  wf (foldl (λ h e, (insert_slice h e.1 e.2).2) h fvs) ∧
  abs (foldl (λ h e, (insert_slice h e.1 e.2).2) h fvs) =
    foldl (λ m e, <[e.1 := e.2]> m) (abs h) fvs.
Proof.
  revert h. induction fvs as [|[f v] fvs IH]; intros h Hwf; simpl; [done|].
  destruct (hash_insert_spec h f v Hwf) as (_ & H1 & H2).
  destruct (IH _ H1) as [H3 H4]. split; [done|]. by rewrite H4, H2.
Qed.

End HashObject.
#[global] Arguments insert_slice : simpl never.
#[global] Arguments remove : simpl never.
End HashObject.

(** ** [SetObject] *)
Module SetObject.
Section SetObject.
Context `{TableOrder}.

(** [FastHashSet] is a hash map with unit values. *)
Inductive t :=
  | Small (entries : list Bytes)
  | Map (set : list (Bytes * unit)).

Definition empty : t := Small [].

Definition map_with_capacity (capacity : nat) : t := Map [].

(** [HashSet::insert]: true when the value was absent. *)
Definition set_insert (s : list (Bytes * unit)) (member : Bytes) : bool * list (Bytes * unit) :=
  let '(old, s') := HashMap.insert s member () in (bool_decide (old = None), s').

Definition insert_slice (s : t) (member : Bytes) : bool * t :=
  match s with
  | Small entries =>
      if match entries with e :: _ => bytes_eqb e member | [] => false end
      then (false, Small entries)
      else if existsb (λ e, bytes_eqb e member) entries then (false, Small entries)
      else if length entries <? SMALL_SET_INLINE then (true, Small (entries ++ [member]))
      else
        let set := foldl (λ s e, (set_insert s e).2) [] entries in
        let '(fresh, set') := set_insert set member in
        (fresh, Map set')
  | Map set => let '(fresh, set') := set_insert set member in (fresh, Map set')
  end.

Definition insert_many (s : t) (members : list Bytes) : nat * t :=
  foldl (λ '(inserted, s) member,
           let '(fresh, s') := insert_slice s member in
           (if fresh : bool then inserted + 1 else inserted, s'))
        (0, s) members.

Definition remove (s : t) (member : Bytes) : bool * t :=
  match s with
  | Small entries =>
      match position (λ e, bytes_eqb e member) entries with
      | Some index => (true, Small (delete index entries))
      | None => (false, Small entries)
      end
  | Map set =>
      let '(v, set') := HashMap.remove set member in (bool_decide (is_Some v), Map set')
  end.

Definition contains (s : t) (member : Bytes) : bool :=
  match s with
  | Small entries => existsb (λ e, bytes_eqb e member) entries
  | Map set => bool_decide (is_Some (Assoc.get member set))
  end.

Definition len (s : t) : nat :=
  match s with Small entries => length entries | Map set => length set end.

Definition is_empty (s : t) : bool :=
  match s with
  | Small entries => bool_decide (entries = [])
  | Map set => bool_decide (set = [])
  end.

Definition iter (s : t) : list Bytes :=
  match s with Small entries => entries | Map set => set.*1 end.

Definition visit_members (s : t) : list Bytes :=
  match s with Small entries => entries | Map set => set.*1 end.

Definition visit_members_limited (s : t) (limit : nat) : list Bytes :=
  match s with Small entries => take limit entries | Map set => take limit set.*1 end.

(** ** What a set object stores *)
Definition wf (s : t) : Prop :=
  NoDup (iter s) ∧
  match s with Small entries => length entries ≤ SMALL_SET_INLINE | Map _ => True end.

Definition abs (s : t) : gset Bytes := list_to_set (iter s).

Lemma elem_of_abs s x : x ∈ abs s ↔ x ∈ iter s.
Proof. unfold abs. by rewrite elem_of_list_to_set. Qed.

Lemma empty_spec : wf empty ∧ abs empty = ∅.
Proof. split; [|done]. split; simpl; [constructor|lia]. Qed.

Lemma existsb_elem es x : existsb (λ e, bytes_eqb e x) es = bool_decide (x ∈ es).
Proof.
  destruct (existsb _ es) eqn:E; symmetry.
  - apply bool_decide_eq_true. apply existsb_exists in E as (y & Hy & <-%bytes_eqb_true).
    by apply list_elem_of_In.
  - apply bool_decide_eq_false. intros Hx. apply not_true_iff_false in E. apply E.
    apply existsb_exists. exists x. split; [by apply list_elem_of_In|apply bytes_eqb_refl].
Qed.

Lemma set_insert_spec (m : list (Bytes * unit)) x :
  Assoc.wf m →
  (set_insert m x).1 = bool_decide (x ∉ m.*1) ∧ Assoc.wf (set_insert m x).2 ∧
  ∀ y, y ∈ (set_insert m x).2.*1 ↔ y = x ∨ y ∈ m.*1.
Proof.
  intros Hwf. unfold set_insert. destruct (HashMap.hm_insert_spec m x () Hwf) as (H1 & H2 & H3).
  destruct (HashMap.insert m x ()) as [old m']. simpl in *. subst old.
  assert (∀ (l : list (Bytes * unit)) y, y ∈ l.*1 ↔ Assoc.abs l !! y ≠ None) as Hin.
  { intros l y. rewrite <-Assoc.position_abs_None, Assoc.position_is_None.
    destruct (decide (y ∈ l.*1)); tauto. }
  split; [|split; [done|]].
  - apply bool_decide_ext. rewrite Hin. destruct (Assoc.abs m !! x); naive_solver.
  - intros y. rewrite !Hin, H3. destruct (decide (x = y)) as [->|].
    + rewrite lookup_insert_eq. naive_solver.
    + rewrite lookup_insert_ne by done. naive_solver.
Qed.

Lemma promote_set_spec (es : list Bytes) m :
  Assoc.wf m →
  let m' := foldl (λ s e, (set_insert s e).2) m es in
  Assoc.wf m' ∧ ∀ y, y ∈ m'.*1 ↔ y ∈ es ∨ y ∈ m.*1.
Proof.
  revert m. induction es as [|e es IH]; intros m Hwf; simpl.
  - split; [done|]. intros y. rewrite elem_of_nil. tauto.
  - destruct (set_insert_spec m e Hwf) as (_ & H1 & H2).
    destruct (IH _ H1) as [H3 H4]. split; [done|]. intros y.
    rewrite H4, H2, elem_of_cons. tauto.
Qed.

Lemma set_insert_slice_spec s x :
  wf s →
  (insert_slice s x).1 = bool_decide (x ∉ abs s) ∧
  wf (insert_slice s x).2 ∧ abs (insert_slice s x).2 = {[x]} ∪ abs s.
Proof.
  intros [Hnd Hsmall]. destruct s as [es|m]; simpl in *.
  - destruct (match es with e :: _ => bytes_eqb e x | [] => false end) eqn:Hfirst.
    + destruct es as [|e es]; [done|]. apply bytes_eqb_true in Hfirst as ->. simpl.
      split; [|split; [done|set_solver]].
      symmetry. apply bool_decide_eq_false. set_solver.
    + clear Hfirst. rewrite existsb_elem. case_bool_decide as Hin; simpl.
      * split; [|split; [done|set_solver]].
        symmetry. apply bool_decide_eq_false. set_solver.
      * destruct (length es <? SMALL_SET_INLINE) eqn:El; bool_case; simpl.
        -- split; [symmetry; apply bool_decide_eq_true; set_solver|]. split; [|set_solver].
           split; simpl; [|rewrite length_app; simpl; lia].
           apply NoDup_app. split; [done|]. split; [set_solver|apply NoDup_singleton].
        -- destruct (promote_set_spec es [] ltac:(constructor)) as [H1 H2].
           destruct (set_insert_spec _ x H1) as (H3 & H4 & H5).
           destruct (set_insert _ x) as [fresh set']. simpl in *. subst fresh.
           split; [|split; [done|]].
           ++ apply bool_decide_ext. rewrite H2, elem_of_abs. simpl. set_solver.
           ++ apply set_eq. intros y. rewrite elem_of_union, !elem_of_abs. simpl.
              rewrite H5, H2. set_solver.
  - destruct (set_insert_spec m x Hnd) as (H3 & H4 & H5).
    destruct (set_insert m x) as [fresh set']. simpl in *. subst fresh.
    split; [|split; [done|]].
    + apply bool_decide_ext. by rewrite elem_of_abs.
    + apply set_eq. intros y. rewrite elem_of_union, !elem_of_abs. simpl. rewrite H5. set_solver.
Qed.

Lemma set_len_spec s : wf s → len s = size (abs s).
Proof.
  intros [Hnd _]. unfold abs. rewrite size_list_to_set by done.
  destruct s; simpl; by rewrite ?length_fmap.
Qed.

Lemma insert_many_spec s members :
  wf s →
  wf (insert_many s members).2 ∧
  abs (insert_many s members).2 = list_to_set members ∪ abs s ∧
  (insert_many s members).1 = size (list_to_set members ∖ abs s : gset Bytes).
Proof.
  intros Hwf. unfold insert_many.
  assert (∀ n s, wf s →
    let r := foldl (λ '(inserted, s) member,
               let '(fresh, s') := insert_slice s member in
               (if fresh : bool then inserted + 1 else inserted, s')) (n, s) members in
    wf r.2 ∧ abs r.2 = list_to_set members ∪ abs s ∧
    r.1 = n + size (list_to_set members ∖ abs s : gset Bytes)) as Hgen.
  { clear. induction members as [|x members IH]; intros n s Hwf; simpl.
    - split_and!; [done|set_solver|].
      replace (∅ ∖ abs s) with (∅ : gset Bytes) by set_solver. rewrite size_empty. lia.
    - destruct (set_insert_slice_spec s x Hwf) as (H1 & H2 & H3).
      destruct (insert_slice s x) as [fresh s']. simpl in *. subst fresh.
      destruct (IH (if bool_decide (x ∉ abs s) then n + 1 else n) s' H2) as (H4 & H5 & H6).
      split_and!; [done|rewrite H5, H3; set_solver|]. rewrite H6, H3. clear.
      case_bool_decide as Hin.
      + replace (({[x]} ∪ list_to_set members) ∖ abs s)
          with ({[x]} ∪ list_to_set members ∖ ({[x]} ∪ abs s)) by
          (apply set_eq; intros y; destruct (decide (y = x)); set_solver).
        rewrite size_add_fresh by set_solver. lia.
      + replace (({[x]} ∪ list_to_set members) ∖ abs s)
          with (list_to_set members ∖ ({[x]} ∪ abs s)); [done|].
        apply set_eq. intros y. destruct (decide (y = x)); set_solver. }
  apply (Hgen 0 s Hwf).
Qed.

Lemma set_remove_spec s x :
  wf s →
  (remove s x).1 = bool_decide (x ∈ abs s) ∧
  wf (remove s x).2 ∧ abs (remove s x).2 = abs s ∖ {[x]}.
Proof.
  intros [Hnd Hsmall]. destruct s as [es|m]; simpl in *.
  - destruct (position _ es) as [i|] eqn:Hp; simpl.
    + apply position_Some in Hp as (y & Hi & Hy%bytes_eqb_true & _). subst y.
      pose proof (delete_Permutation es i x Hi) as Hperm.
      split; [symmetry; apply bool_decide_eq_true, elem_of_abs; by eapply list_elem_of_lookup_2|].
      rewrite Hperm in Hnd. apply NoDup_cons in Hnd as [Hx Hnd]. split.
      * split; [done|]. simpl. apply Permutation_length in Hperm. simpl in *. lia.
      * apply set_eq. intros y. rewrite elem_of_difference, !elem_of_abs. simpl.
        assert (y ∈ es ↔ y = x ∨ y ∈ delete i es) as -> by
          (rewrite Hperm at 1; by rewrite elem_of_cons). set_solver.
    + rewrite position_None in Hp.
      assert (x ∉ es). { intros Hx. specialize (Hp x Hx). by rewrite bytes_eqb_refl in Hp. }
      split; [symmetry; apply bool_decide_eq_false; set_solver|].
      split; [done|set_solver].
  - destruct (HashMap.hm_remove_spec m x Hnd) as (H1 & H2 & H3).
    destruct (HashMap.remove m x) as [v m']. simpl in *. subst v.
    assert (∀ (l : list (Bytes * unit)) y, y ∈ l.*1 ↔ is_Some (Assoc.abs l !! y)) as Hin.
    { intros l y. rewrite <-not_eq_None_Some, <-Assoc.position_abs_None, Assoc.position_is_None.
      destruct (decide (y ∈ l.*1)); tauto. }
    split; [|split; [done|]].
    + apply bool_decide_ext. rewrite elem_of_abs. simpl. by rewrite Hin.
    + apply set_eq. intros y. rewrite elem_of_difference, !elem_of_abs. simpl.
      rewrite !Hin, H3, lookup_delete_is_Some. set_solver.
Qed.

Lemma set_remove_all_spec s xs :
  wf s →
  wf (foldl (λ s x, (remove s x).2) s xs) ∧
  abs (foldl (λ s x, (remove s x).2) s xs) = abs s ∖ list_to_set xs.
Proof.
  revert s. induction xs as [|x xs IH]; intros s Hwf; simpl.
  - split; [done|]. set_solver.
  - destruct (set_remove_spec s x Hwf) as (_ & H1 & H2).
    destruct (IH _ H1) as [H3 H4]. split; [done|]. rewrite H4, H2. set_solver.
Qed.

Lemma set_contains_spec s x : contains s x = bool_decide (x ∈ abs s).
Proof.
  destruct s as [es|m]; simpl.
  - rewrite existsb_elem. apply bool_decide_ext. by rewrite elem_of_abs.
  - rewrite Assoc.abs_get. apply bool_decide_ext. rewrite elem_of_abs. simpl.
    rewrite <-not_eq_None_Some, <-Assoc.position_abs_None, Assoc.position_is_None.
    destruct (decide (x ∈ m.*1)); tauto.
Qed.

Lemma set_is_empty_spec s : is_empty s = bool_decide (abs s = ∅).
Proof.
  assert (∀ l : list Bytes, l = [] ↔ list_to_set l = (∅ : gset Bytes)) as Hnil.
  { intros [|x l]; [done|]. split; [done|]. intros E. exfalso. simpl in E. set_solver. }
  unfold abs. destruct s as [es|m]; simpl; apply bool_decide_ext.
  - apply Hnil.
  - rewrite <-Hnil. by destruct m.
Qed.

Lemma set_iter_spec s : wf s → NoDup (iter s) ∧ list_to_set (iter s) = abs s.
Proof. by intros [? _]. Qed.

Lemma set_sorted_spec s :
  wf s → merge_sort bytes_le (iter s) = merge_sort bytes_le (elements (abs s)).
Proof.
  intros [Hnd _]. apply (Sorted_unique bytes_le); [apply Sorted_merge_sort, _..|].
  rewrite !merge_sort_Permutation. apply NoDup_Permutation; [done|apply NoDup_elements|].
  intros x. by rewrite elem_of_elements, elem_of_abs.
Qed.

End SetObject.
#[global] Arguments insert_slice : simpl never.
#[global] Arguments insert_many : simpl never.
#[global] Arguments remove : simpl never.
End SetObject.
