(* ===== verification/ZSet.v ===== *)
(** * Sorted sets: [ZSetObject]

    [redis_objects/zset_object.rs]: up to four members inline, kept sorted, or
    a score map beside a rank-indexed ordered set.  [abs] is the map from
    members to scores; [zsorted] is its canonical listing, ascending by score
    ([f64::total_cmp]) and then by member.  Every reader is shown to be a
    function of that listing, in both representations. *)

From S2P Require Import Prelude Deps Helpers F64 Types HashSet.

Definition SMALL_ZSET_INLINE : nat := 4.

Record ZSetOrderKey := mkOrderKey { zk_score : f64; zk_member : Bytes }.

(** The order of [ZSetOrderKey] and of [sort_small_zset]. *)
Definition zcmp (x y : Bytes * f64) : comparison :=
  match total_cmp x.2 y.2 with
  | Eq => bytes_cmp x.1 y.1
  | c => c
  end.

Definition zk_pair (k : ZSetOrderKey) : Bytes * f64 := (zk_member k, zk_score k).
Definition zk_cmp (x y : ZSetOrderKey) : comparison := zcmp (zk_pair x) (zk_pair y).

Definition zle (x y : Bytes * f64) : Prop := zcmp x y ≠ Gt.

#[export] Instance zle_dec : RelDecision zle.
Proof. intros x y. unfold zle. apply _. Defined.

Definition sort_small_zset (entries : list (Bytes * f64)) : list (Bytes * f64) :=
  merge_sort zle entries.

Definition score_matches_lower (score min : f64) (inclusive : bool) : bool :=
  if inclusive then f64_le min score else f64_lt min score.

Definition score_matches_upper (score max : f64) (inclusive : bool) : bool :=
  if inclusive then f64_le score max else f64_lt score max.

Definition range_covers_sorted_scores (first last : option f64) (len : nat)
    (min : f64) (min_inclusive : bool) (max : f64) (max_inclusive : bool) : bool :=
  if len =? 0 then true
  else match first, last with
       | Some first, Some last =>
           score_matches_lower first min min_inclusive &&
           score_matches_upper last max max_inclusive
       | _, _ => false
       end.

(** ** The order *)

Lemma zcmp_refl x : zcmp x x = Eq.
Proof. unfold zcmp. by rewrite total_cmp_refl, bytes_cmp_refl. Qed.

Lemma zcmp_antisym x y : zcmp y x = CompOpp (zcmp x y).
Proof.
  unfold zcmp, total_cmp. rewrite Z.compare_antisym.
  destruct (Z.compare _ _); simpl; try done. apply bytes_cmp_antisym.
Qed.

Lemma zcmp_lt_trans x y z : zcmp x y = Lt → zcmp y z = Lt → zcmp x z = Lt.
Proof.
  unfold zcmp, total_cmp.
  destruct (Z.compare_spec (f64_key x.2) (f64_key y.2)),
    (Z.compare_spec (f64_key y.2) (f64_key z.2)),
    (Z.compare_spec (f64_key x.2) (f64_key z.2)); try done; try lia.
  apply bytes_cmp_lt_trans.
Qed.

Lemma zcmp_eq x y : zcmp x y = Eq → x.1 = y.1 ∧ f64_key x.2 = f64_key y.2.
Proof.
  unfold zcmp, total_cmp. destruct (Z.compare_spec (f64_key x.2) (f64_key y.2)); try done.
  by intros ?%bytes_cmp_eq.
Qed.

Lemma zcmp_key_le x y : zle x y → (f64_key x.2 ≤ f64_key y.2)%Z.
Proof.
  unfold zle, zcmp, total_cmp.
  destruct (Z.compare_spec (f64_key x.2) (f64_key y.2)); intros; try lia. done.
Qed.

#[export] Instance zle_total : Total zle.
Proof. intros x y. unfold zle. rewrite (zcmp_antisym x y). destruct (zcmp x y); auto. Qed.

#[export] Instance zle_trans : Transitive zle.
Proof.
  intros x y z Hxy Hyz. unfold zle in *. intros Hxz.
  assert (zcmp z x = Lt) as Hzx by by rewrite zcmp_antisym, Hxz.
  destruct (zcmp x y) eqn:E1; [| |done].
  2: { apply Hyz. by rewrite zcmp_antisym, (zcmp_lt_trans z x y Hzx E1). }
  apply zcmp_eq in E1 as [H1 H2].
  apply Hyz. rewrite <-Hxz. unfold zcmp, total_cmp. by rewrite H1, H2.
Qed.

Module ZSetObject.
Section ZSetObject.
Context `{TableOrder} {OT : Type} `{!IndexTreeSet ZSetOrderKey zk_cmp OT}.

Inductive t :=
  | Small (entries : list (Bytes * f64))
  | Map (scores : list (Bytes * f64)) (ordered : OT).

Definition single (member : Bytes) (score : f64) : t := Small [(member, score)].

Definition map_with_capacity (capacity : nat) : t := Map [] its_new.

(** Inserting a fresh member in both halves of the map form. *)
Definition map_insert (st : list (Bytes * f64) * OT) (e : Bytes * f64)
    : list (Bytes * f64) * OT :=
  ((HashMap.insert st.1 e.1 e.2).2, its_insert st.2 (mkOrderKey e.2 e.1)).

Definition insert_slice (z : t) (member : Bytes) (score : f64) : bool * t :=
  match z with
  | Small entries =>
      let only :=
        match entries with
        | [(existing, _)] => bytes_eqb existing member
        | _ => false
        end in
      if only then (false, Small [(member, score)])
      else match position (Assoc.key_is member) entries with
           | Some _ => (false, Small (sort_small_zset (Assoc.update member (λ _, score) entries)))
           | None =>
               if length entries <? SMALL_ZSET_INLINE
               then (true, Small (sort_small_zset (entries ++ [(member, score)])))
               else
                 let '(scores, ordered) := foldl map_insert ([], its_new) entries in
                 let '(scores', ordered') := map_insert (scores, ordered) (member, score) in
                 (true, Map scores' ordered')
           end
  | Map scores ordered =>
      match Assoc.get member scores with
      | Some old_score =>
          match total_cmp old_score score with
          | Eq => (false, Map scores ordered)
          | _ =>
              let ordered1 := its_remove ordered (mkOrderKey old_score member) in
              (false, Map (Assoc.update member (λ _, score) scores)
                          (its_insert ordered1 (mkOrderKey score member)))
          end
      | None =>
          let '(scores', ordered') := map_insert (scores, ordered) (member, score) in
          (true, Map scores' ordered')
      end
  end.

Definition remove (z : t) (member : Bytes) : bool * t :=
  match z with
  | Small entries =>
      match position (Assoc.key_is member) entries with
      | Some index => (true, Small (delete index entries))
      | None => (false, Small entries)
      end
  | Map scores ordered =>
      match Assoc.remove member scores with
      | Some (score, scores') => (true, Map scores' (its_remove ordered (mkOrderKey score member)))
      | None => (false, Map scores ordered)
      end
  end.

Definition score (z : t) (member : Bytes) : option f64 :=
  match z with
  | Small entries => Assoc.get member entries
  | Map scores _ => Assoc.get member scores
  end.

Definition len (z : t) : nat :=
  match z with Small entries => length entries | Map scores _ => length scores end.

Definition is_empty (z : t) : bool :=
  match z with
  | Small entries => bool_decide (entries = [])
  | Map scores _ => bool_decide (scores = [])
  end.

Definition extreme_ordered_item (ordered : OT) (max : bool) : option ZSetOrderKey :=
  if max then its_get_last ordered else its_get_first ordered.

(** The two pop loops: [take] iterations each. *)
Fixpoint pop_small (n : nat) (entries : list (Bytes * f64)) (max : bool)
    (popped : list (Bytes * f64)) : option (list (Bytes * f64) * list (Bytes * f64)) :=
  match n with
  | O => Some (popped, entries)
  | S n' =>
      let index := if max then length entries - 1 else 0 in
      '(e, entries') ← vec_remove index entries;
      pop_small n' entries' max (popped ++ [e])
  end.

Fixpoint pop_map (n : nat) (scores : list (Bytes * f64)) (ordered : OT) (max : bool)
    (popped : list (Bytes * f64)) : list (Bytes * f64) * (list (Bytes * f64) * OT) :=
  match n with
  | O => (popped, (scores, ordered))
  | S n' =>
      match extreme_ordered_item ordered max with
      | None => (popped, (scores, ordered))
      | Some item =>
          pop_map n' (HashMap.remove scores (zk_member item)).2 (its_remove ordered item) max
                  (popped ++ [zk_pair item])
      end
  end.

Definition pop_extreme (z : t) (count : nat) (max : bool) : option (list (Bytes * f64) * t) :=
  match z with
  | Small entries =>
      '(popped, entries') ← pop_small (count `min` length entries) entries max [];
      Some (popped, Small entries')
  | Map scores ordered =>
      let '(popped, (scores', ordered')) :=
        pop_map (count `min` length scores) scores ordered max [] in
      Some (popped, Map scores' ordered')
  end.

(** [zset_partition_point]: the binary search, with the interval as fuel. *)
Fixpoint partition_loop (fuel : nat) (ordered : OT) (pred : ZSetOrderKey → bool)
    (low high : nat) : option nat :=
  match fuel with
  | O => None
  | S fuel' =>
      if low <? high then
        let mid := low + (high - low) / 2 in
        item ← its_get_key_from_index ordered mid;
        if pred item then partition_loop fuel' ordered pred (mid + 1) high
        else partition_loop fuel' ordered pred low mid
      else Some low
  end.

Definition zset_partition_point (ordered : OT) (pred : ZSetOrderKey → bool) : option nat :=
  partition_loop (S (its_len ordered)) ordered pred 0 (its_len ordered).

Definition count_by_score (z : t) (min : f64) (min_inclusive : bool)
    (max : f64) (max_inclusive : bool) : option nat :=
  match z with
  | Small entries =>
      if range_covers_sorted_scores (snd <$> head entries) (snd <$> last entries)
           (length entries) min min_inclusive max max_inclusive
      then Some (length entries)
      else Some (length (filter (λ e, score_matches_lower e.2 min min_inclusive &&
                                      score_matches_upper e.2 max max_inclusive = true) entries))
  | Map scores ordered =>
      if bool_decide (scores = []) then Some 0
      else if range_covers_sorted_scores (zk_score <$> its_get_first ordered)
                (zk_score <$> its_get_last ordered) (length scores)
                min min_inclusive max max_inclusive
      then Some (length scores)
      else
        start ← zset_partition_point ordered
                  (λ item, if min_inclusive then f64_lt (zk_score item) min
                           else f64_le (zk_score item) min);
        stop ← zset_partition_point ordered
                 (λ item, if max_inclusive then f64_le (zk_score item) max
                          else f64_lt (zk_score item) max);
        Some (stop - start)
  end.

Definition rank (z : t) (member : Bytes) (rev : bool) : option nat :=
  match z with
  | Small entries =>
      if rev then position (Assoc.key_is member) (List.rev entries)
      else position (Assoc.key_is member) entries
  | Map scores ordered =>
      target_score ← Assoc.get member scores;
      r ← its_get_index_from_key ordered (mkOrderKey target_score member);
      Some (if rev then its_len ordered - r - 1 else r)
  end.

(** [(a..=b).filter_map(|index| ordered.get_key_from_index(index))]. *)
Definition keys_at (ordered : OT) (indices : list nat) : list ZSetOrderKey :=
  omap (its_get_key_from_index ordered) indices.

Definition range (z : t) (start stop : Z) : list (option Bytes) :=
  match z with
  | Small entries =>
      match normalize_range start stop (length entries) with
      | None => []
      | Some (start, stop) => (λ e, Some e.1) <$> take (stop - start + 1) (drop start entries)
      end
  | Map _ ordered =>
      match normalize_range start stop (its_len ordered) with
      | None => []
      | Some (start, stop) =>
          let count := stop - start + 1 in
          if count <? start
          then (λ k, Some (zk_member k)) <$> keys_at ordered (seq start (stop + 1 - start))
          else (λ k, Some (zk_member k)) <$> take count (drop start (its_iter ordered))
      end
  end.

Definition range_visit (z : t) (start stop : Z) : list RedisObjectArrayItem :=
  match z with
  | Small entries =>
      match normalize_range start stop (length entries) with
      | None => [Begin 0]
      | Some (start, stop) =>
          let count := stop - start + 1 in
          Begin count :: ((λ e, Item (Some e.1)) <$> take count (drop start entries))
      end
  | Map _ ordered =>
      match normalize_range start stop (its_len ordered) with
      | None => [Begin 0]
      | Some (start, stop) =>
          let count := stop - start + 1 in
          Begin count ::
          (if count <? start
           then (λ k, Item (Some (zk_member k))) <$> keys_at ordered (seq start (stop + 1 - start))
           else (λ k, Item (Some (zk_member k))) <$> take count (drop start (its_iter ordered)))
      end
  end.

Definition zentry (e : Bytes * f64) : RedisObjectZSetRangeItem := ZEntry e.1 e.2.

Definition range_entries_visit (z : t) (start stop : Z) (rev : bool)
    : list RedisObjectZSetRangeItem :=
  match z with
  | Small entries =>
      match normalize_range start stop (length entries) with
      | None => [ZBegin 0]
      | Some (start, stop) =>
          let count := stop - start + 1 in
          ZBegin count ::
          (if rev then zentry <$> take count (drop start (List.rev entries))
           else zentry <$> take count (drop start entries))
      end
  | Map _ ordered =>
      match normalize_range start stop (its_len ordered) with
      | None => [ZBegin 0]
      | Some (start, stop) =>
          let count := stop - start + 1 in
          ZBegin count ::
          match rev, count <? start with
          | true, _ =>
              let first := its_len ordered - 1 - stop in
              let last := its_len ordered - 1 - start in
              (zentry ∘ zk_pair) <$> keys_at ordered (List.rev (seq first (last + 1 - first)))
          | false, true =>
              (zentry ∘ zk_pair) <$> keys_at ordered (seq start (stop + 1 - start))
          | false, false =>
              (zentry ∘ zk_pair) <$> take count (drop start (its_iter ordered))
          end
      end
  end.

Definition entries (z : t) : list (Bytes * f64) :=
  match z with
  | Small entries => entries
  | Map _ ordered => zk_pair <$> its_iter ordered
  end.


(** ** What a sorted set stores *)
Definition scores_of (z : t) : list (Bytes * f64) :=
  match z with Small entries => entries | Map scores _ => scores end.

Definition abs (z : t) : gmap Bytes f64 := Assoc.abs (scores_of z).

Definition wf (z : t) : Prop :=
  Assoc.wf (scores_of z) ∧ Forall (λ e, score_ok e.2) (scores_of z) ∧
  match z with
  | Small entries => Sorted zle entries ∧ length entries ≤ SMALL_ZSET_INLINE
  | Map scores ordered => its_wf ordered ∧ (zk_pair <$> its_iter ordered) ≡ₚ scores
  end.

Definition zsorted (m : gmap Bytes f64) : list (Bytes * f64) := merge_sort zle (map_to_list m).

Lemma zsorted_unique l m :
  Assoc.wf l → Assoc.abs l = m → Sorted zle l → l = zsorted m.
Proof.
  intros Hwf <- Hs. apply (Sorted_unique_strong zle).
  - intros x y Hx Hy Hxy Hyx. unfold zle in *. rewrite (zcmp_antisym x y) in Hyx.
    destruct (zcmp x y) eqn:E; try done. apply zcmp_eq in E as [Hk _].
    destruct x as [k v], y as [k' v']. simpl in *. subst k'. f_equal.
    unfold zsorted in Hy. rewrite merge_sort_Permutation, Assoc.abs_perm in Hy by done.
    apply (elem_of_list_to_map (M := gmap Bytes)) in Hx, Hy; [congruence|done..].
  - done.
  - apply Sorted_merge_sort, _.
  - unfold zsorted. by rewrite merge_sort_Permutation, Assoc.abs_perm.
Qed.

Lemma zsorted_sorted m : StronglySorted zle (zsorted m).
Proof. apply StronglySorted_merge_sort; apply _. Qed.

Lemma zsorted_perm m : zsorted m ≡ₚ map_to_list m.
Proof. apply merge_sort_Permutation. Qed.

Lemma zsorted_wf m : Assoc.wf (zsorted m).
Proof. unfold Assoc.wf. rewrite zsorted_perm. apply NoDup_fst_map_to_list. Qed.

Lemma zsorted_abs m : Assoc.abs (zsorted m) = m.
Proof.
  unfold Assoc.abs. rewrite (list_to_map_proper _ (map_to_list m)).
  - apply list_to_map_to_list.
  - apply zsorted_wf.
  - apply zsorted_perm.
Qed.

Lemma iter_sorted ordered : its_wf ordered → Sorted zle (zk_pair <$> its_iter ordered).
Proof.
  intros Hs%its_sorted. apply StronglySorted_Sorted.
  induction Hs as [|k l Hs IH Hk]; simpl; constructor; [done|].
  apply Forall_fmap. eapply Forall_impl; [done|]. simpl. unfold zle, zk_cmp. by intros ? ->.
Qed.

(** Both representations list the same canonical sequence. *)
Lemma entries_canonical z : wf z → entries z = zsorted (abs z).
Proof.
  intros (Hwf & _ & Hrep). destruct z as [es|sc ord]; simpl in *.
  - destruct Hrep. by apply zsorted_unique.
  - destruct Hrep as [How Hperm]. apply zsorted_unique.
    + unfold Assoc.wf. by rewrite Hperm.
    + unfold abs, Assoc.abs; simpl. apply list_to_map_proper; [by rewrite Hperm|done].
    + by apply iter_sorted.
Qed.

Lemma entries_perm z : wf z → entries z ≡ₚ scores_of z.
Proof.
  intros (Hwf & _ & Hrep). destruct z; simpl in *; [done|]. by destruct Hrep.
Qed.

Lemma entries_scores_ok z : wf z → Forall (λ e, score_ok e.2) (entries z).
Proof. intros Hz. rewrite entries_perm by done. apply Hz. Qed.

Lemma entries_length z : wf z → length (entries z) = len z.
Proof. intros Hz. rewrite entries_perm by done. by destruct z. Qed.

Lemma zset_len_spec z : wf z → len z = size (abs z).
Proof. intros (Hwf & _). unfold abs. rewrite Assoc.abs_size by done. by destruct z. Qed.

Lemma zset_score_spec z m : score z m = abs z !! m.
Proof. destruct z; apply Assoc.abs_get. Qed.

Lemma zset_is_empty_spec z : wf z → is_empty z = bool_decide (abs z = ∅).
Proof.
  intros (Hwf & _). unfold abs.
  destruct z; simpl in *; apply bool_decide_ext; by rewrite Assoc.abs_empty.
Qed.

Lemma zset_single_spec m s :
  score_ok s → wf (single m s) ∧ abs (single m s) = {[m := s]}.
Proof.
  intros. split; [|done]. unfold wf, SMALL_ZSET_INLINE. simpl.
  split; [apply NoDup_singleton|]. split; [by constructor|]. split; [repeat constructor|lia].
Qed.

Lemma small_sorted_wf es :
  Assoc.wf es → Forall (λ e, score_ok e.2) es → length es ≤ SMALL_ZSET_INLINE →
  wf (Small (sort_small_zset es)) ∧ abs (Small (sort_small_zset es)) = Assoc.abs es.
Proof.
  intros Hwf Hok Hlen. unfold sort_small_zset.
  assert (Assoc.wf (merge_sort zle es)) as Hwf'.
  { unfold Assoc.wf. by rewrite merge_sort_Permutation. }
  split.
  - unfold wf. simpl. split_and!;
      [done|by rewrite merge_sort_Permutation|apply Sorted_merge_sort, _|].
    by rewrite merge_sort_Permutation.
  - unfold abs, Assoc.abs; simpl. apply list_to_map_proper; [done|apply merge_sort_Permutation].
Qed.

Lemma map_insert_spec sc ord m s :
  wf (Map sc ord) → score_ok s → Assoc.abs sc !! m = None →
  wf (Map (map_insert (sc, ord) (m, s)).1 (map_insert (sc, ord) (m, s)).2) ∧
  Assoc.abs (map_insert (sc, ord) (m, s)).1 = <[m := s]> (Assoc.abs sc).
Proof.
  intros (Hwf & Hok & How & Hperm) Hs Hn. simpl in *.
  unfold map_insert; simpl. unfold HashMap.insert. rewrite Assoc.abs_get, Hn. simpl.
  destruct (HashMap.place_wf sc m s Hwf Hn) as [H1 H2].
  assert (its_iter (its_insert ord (mkOrderKey s m)) ≡ₚ mkOrderKey s m :: its_iter ord) as Hins.
  { apply its_insert_iter; [done|]. intros y Hy Heq. apply zcmp_eq in Heq as [Hk _]. simpl in Hk.
    apply Assoc.position_abs_None, Assoc.position_is_None in Hn. apply Hn.
    rewrite <-Hperm. rewrite Hk. rewrite list_elem_of_fmap. exists (zk_pair y).
    split; [done|]. rewrite list_elem_of_fmap. eauto. }
  split; [|done]. unfold wf. simpl. split_and!.
  - done.
  - rewrite place_perm. by constructor.
  - by apply its_insert_wf.
  - rewrite Hins, place_perm. simpl. by rewrite Hperm.
Qed.

Lemma zset_promote_spec es sc ord :
  wf (Map sc ord) → Assoc.wf es → Forall (λ e, score_ok e.2) es →
  (∀ k, k ∈ es.*1 → Assoc.abs sc !! k = None) →
  let r := foldl map_insert (sc, ord) es in
  wf (Map r.1 r.2) ∧ Assoc.abs r.1 = Assoc.abs es ∪ Assoc.abs sc.
Proof.
  revert sc ord. induction es as [|[k v] es IH]; intros sc ord Hz Hes Hok Hfresh; simpl.
  - split; [done|]. by rewrite map_empty_union.
  - apply Forall_cons in Hok as [Hv Hok]. apply NoDup_cons in Hes as [Hk Hes].
    destruct (map_insert_spec sc ord k v Hz Hv) as [H1 H2]; [apply Hfresh; by left|].
    destruct (map_insert (sc, ord) (k, v)) as [sc' ord']. simpl in *.
    destruct (IH _ _ H1 Hes Hok) as [H3 H4].
    { intros k' Hk'. rewrite H2, lookup_insert_ne by (intros ->; done).
      apply Hfresh. by right. }
    split; [done|]. rewrite H4, H2. unfold Assoc.abs. simpl.
    rewrite <-insert_union_r by by apply not_elem_of_list_to_map_1.
    by rewrite insert_union_l.
Qed.

Lemma its_new_map_wf : wf (Map [] its_new).
Proof.
  unfold wf. simpl. rewrite its_new_iter.
  split_and!; [constructor|constructor|apply its_new_wf|done].
Qed.

Lemma update_scores_ok m s es v :
  Forall (λ e, score_ok e.2) es → score_ok s → Assoc.abs es !! m = Some v →
  Forall (λ e, score_ok e.2) (Assoc.update m (λ _, s) es).
Proof.
  intros Hok Hs Hv. destruct (Assoc.update_split m (λ _, s) es v Hv) as (l1 & l2 & -> & ->).
  rewrite Forall_app, Forall_cons in *. naive_solver.
Qed.

Lemma zset_insert_small es m s :
  wf (Small es) → score_ok s →
  (insert_slice (Small es) m s).1 = bool_decide (Assoc.abs es !! m = None) ∧
  wf (insert_slice (Small es) m s).2 ∧
  abs (insert_slice (Small es) m s).2 = <[m := s]> (Assoc.abs es).
Proof.
  intros (Hwf & Hok & Hsorted & Hlen) Hs. simpl in *.
  destruct (match es with [(existing, _)] => bytes_eqb existing m | _ => false end) eqn:Honly.
  { destruct es as [|[e sc] [|]]; try done. apply bytes_eqb_true in Honly as ->. simpl.
    destruct (zset_single_spec m s Hs) as [H1 H2].
    unfold abs, Assoc.abs; simpl. rewrite lookup_insert_eq, insert_insert_eq. done. }
  clear Honly. destruct (position (Assoc.key_is m) es) as [i|] eqn:Hp.
  - assert (is_Some (Assoc.abs es !! m)) as [old Hold].
    { apply not_eq_None_Some. rewrite <-Assoc.position_abs_None. congruence. }
    destruct (Assoc.abs_update m (λ _, s) es old Hwf Hold) as (H1 & H2 & H3).
    destruct (small_sorted_wf (Assoc.update m (λ _, s) es)) as [H4 H5];
      [done|by eapply update_scores_ok|by rewrite H3|].
    rewrite Hold. simpl. split; [done|]. split; [done|]. by rewrite H5, H2.
  - apply Assoc.position_abs_None in Hp. rewrite Hp.
    destruct (length es <? SMALL_ZSET_INLINE) eqn:El; bool_case; simpl.
    + destruct (small_sorted_wf (es ++ [(m, s)])) as [H4 H5].
      * by apply Assoc.wf_snoc.
      * apply Forall_app. split; [done|by constructor].
      * rewrite length_app. simpl. lia.
      * split; [done|]. split; [done|]. rewrite H5. by apply Assoc.abs_snoc.
    + destruct (zset_promote_spec es [] its_new its_new_map_wf Hwf Hok ltac:(done)) as [H1 H2].
      destruct (foldl map_insert ([], its_new) es) as [sc ord]. simpl in *.
      change (Assoc.abs (V:=f64) []) with (∅ : gmap Bytes f64) in H2.
      rewrite map_union_empty in H2.
      destruct (map_insert_spec sc ord m s H1 Hs) as [H3 H4]; [by rewrite H2|].
      destruct (map_insert (sc, ord) (m, s)) as [sc' ord'] eqn:Em.
      unfold map_insert in Em. simpl in Em. injection Em as <- <-. simpl in *.
      split; [done|]. split; [done|]. unfold abs. simpl. by rewrite H4, H2.
Qed.

(** Taking a member's key out of the ordered half. *)
Lemma ordered_remove_spec sc ord m old sc' :
  Assoc.wf sc → its_wf ord → (zk_pair <$> its_iter ord) ≡ₚ sc → sc ≡ₚ (m, old) :: sc' →
  its_wf (its_remove ord (mkOrderKey old m)) ∧
  (zk_pair <$> its_iter (its_remove ord (mkOrderKey old m))) ≡ₚ sc'.
Proof.
  intros Hwf How Hperm Hsc. split; [by apply its_remove_wf|].
  rewrite its_remove_iter by done.
  assert (NoDup ((zk_pair <$> its_iter ord).*1)) as Hnd by by rewrite Hperm.
  assert (m ∉ sc'.*1) as Hm.
  { unfold Assoc.wf in Hwf. rewrite Hsc in Hwf. simpl in Hwf. by apply NoDup_cons in Hwf as [? _]. }
  rewrite Hsc in Hperm. clear Hsc Hwf.
  assert (∀ l, NoDup (zk_pair <$> l).*1 → zk_pair <$> l ≡ₚ (m, old) :: sc' →
    zk_pair <$> filter (λ y, zk_cmp (mkOrderKey old m) y ≠ Eq) l ≡ₚ sc') as Hgen.
  { clear -Hm. intros l Hnd Hperm.
    assert ((m, old) ∈ zk_pair <$> l) as Hin by (rewrite Hperm; by left).
    apply list_elem_of_fmap in Hin as ([s0 m0] & [= <- <-] & Hin).
    apply list_elem_of_split in Hin as (l1 & l2 & ->).
    rewrite fmap_app, fmap_cons in *. unfold zk_pair in Hperm at 2. simpl in *.
    rewrite <-Permutation_middle in Hperm. apply Permutation_cons_inv in Hperm.
    assert (∀ y, y ∈ l1 ++ l2 → zk_cmp (mkOrderKey old m) y ≠ Eq) as Hne.
    { intros y Hy Heq. apply zcmp_eq in Heq as [Hk _]. simpl in Hk. apply Hm.
      rewrite <-Hperm, <-fmap_app, Hk. rewrite list_elem_of_fmap. exists (zk_pair y).
      split; [done|]. rewrite list_elem_of_fmap. eauto. }
    rewrite filter_app, filter_cons_False by
      (intros Hx; apply Hx; unfold zk_cmp; apply zcmp_refl).
    rewrite !filter_keep_all by (intros; apply Hne; rewrite elem_of_app; auto).
    by rewrite fmap_app. }
  by apply Hgen.
Qed.

Lemma zset_insert_spec z m s :
  wf z → score_ok s →
  (insert_slice z m s).1 = bool_decide (abs z !! m = None) ∧
  wf (insert_slice z m s).2 ∧ abs (insert_slice z m s).2 = <[m := s]> (abs z).
Proof.
  intros Hz Hs. destruct z as [es|sc ord]; [by apply zset_insert_small|].
  pose proof Hz as (Hwf & Hok & How & Hperm). simpl in *.
  unfold abs; simpl. rewrite Assoc.abs_get. destruct (Assoc.abs sc !! m) as [old|] eqn:Hold.
  - assert (score_ok old) as Hoo.
    { apply (elem_of_list_to_map (M := gmap Bytes)) in Hold; [|done].
      rewrite Forall_forall in Hok. by apply (Hok (m, old)). }
    destruct (total_cmp old s) eqn:Ec; simpl.
    { apply total_cmp_eq in Ec as ->; [|apply Hoo|apply Hs].
      split; [done|]. split; [done|]. by rewrite insert_id. }
    all: destruct (Assoc.abs_update m (λ _, s) sc old Hwf Hold) as (H1 & H2 & _);
      destruct (Assoc.remove_Some _ _ _ Hwf Hold) as (sc' & _ & H3 & H4 & H5);
      destruct (ordered_remove_spec _ _ _ _ _ Hwf How Hperm H5) as [H6 H7];
      assert (wf (Map sc' (its_remove ord (mkOrderKey old m)))) as Hz' by
        (unfold wf; simpl; split_and!; [done| |done..];
         rewrite H5 in Hok; by apply Forall_cons in Hok as [_ ?]);
      assert (Assoc.abs sc' !! m = None) as Hn by (rewrite H4; apply lookup_delete_eq);
      destruct (map_insert_spec _ _ m s Hz' Hs Hn) as [(_ & _ & H8 & H9) _];
      split; [done|]; split; [|done]; unfold wf; simpl; split_and!;
      [done|by eapply update_scores_ok|done|]; simpl in H9; rewrite H9;
      destruct (Assoc.update_split m (λ _, s) sc old Hold) as (l1 & l2 & Hl & ->);
      unfold HashMap.insert; rewrite Assoc.abs_get, Hn; simpl; rewrite place_perm;
      rewrite Hl, <-Permutation_middle in H5; apply Permutation_cons_inv in H5;
      by rewrite <-H5, Permutation_middle.
  - destruct (map_insert_spec sc ord m s Hz Hs Hold) as [H3 H4].
    destruct (map_insert (sc, ord) (m, s)) as [sc' ord'] eqn:Em.
    unfold map_insert in Em. simpl in Em. injection Em as <- <-. simpl in *. done.
Qed.
Lemma zset_remove_spec z m :
  wf z →
  (remove z m).1 = bool_decide (is_Some (abs z !! m)) ∧
  wf (remove z m).2 ∧ abs (remove z m).2 = delete m (abs z).
Proof.
  intros Hz. pose proof Hz as (Hwf & Hok & Hrep). unfold abs. destruct z as [es|sc ord]; simpl in *.
  - destruct (Assoc.abs es !! m) as [v|] eqn:Hv.
    + destruct (Assoc.remove_Some _ _ _ Hwf Hv) as (es' & Hr & H1 & H2 & H3).
      unfold Assoc.remove in Hr. destruct (position (Assoc.key_is m) es) as [i|]; [|done].
      simpl in *. destruct (es !! i) eqn:Hi; [|done]. injection Hr as _ <-. simpl.
      split; [done|]. split; [|done]. destruct Hrep as [Hs Hlen]. unfold wf. simpl. split_and!.
      * done.
      * rewrite H3 in Hok. by apply Forall_cons in Hok as [_ ?].
      * by apply StronglySorted_Sorted, strongly_sorted_delete, Sorted_StronglySorted; [apply _|].
      * apply Permutation_length in H3. simpl in H3. lia.
    + rewrite (proj2 (Assoc.position_abs_None m es) Hv). simpl.
      split; [done|]. split; [done|]. by rewrite delete_id.
  - destruct Hrep as [How Hperm]. destruct (Assoc.abs sc !! m) as [v|] eqn:Hv.
    + destruct (Assoc.remove_Some _ _ _ Hwf Hv) as (sc' & -> & H1 & H2 & H3). simpl.
      destruct (ordered_remove_spec _ _ _ _ _ Hwf How Hperm H3) as [H6 H7].
      split; [done|]. split; [|done]. unfold wf. simpl. split_and!; [done| |done..].
      rewrite H3 in Hok. by apply Forall_cons in Hok as [_ ?].
    + rewrite Assoc.remove_None by done. simpl.
      split; [done|]. split; [done|]. by rewrite delete_id.
Qed.

(** [remove] called for each of a list of members. *)
Lemma zset_remove_all_spec z ms :
  wf z →
  wf (foldl (λ z m, (remove z m).2) z ms) ∧
  abs (foldl (λ z m, (remove z m).2) z ms) = filter (λ e, e.1 ∉ ms) (abs z).
Proof.
  revert z. induction ms as [|m ms IH]; intros z Hwf; simpl.
  - split; [done|]. symmetry. apply map_filter_id. intros i x _. simpl. apply not_elem_of_nil.
  - destruct (zset_remove_spec z m Hwf) as (_ & H1 & H2).
    destruct (IH _ H1) as [H3 H4]. split; [done|]. rewrite H4, H2.
    apply map_eq. intros k. apply option_eq. intros v.
    rewrite !map_lookup_filter_Some, lookup_delete_Some. simpl. rewrite not_elem_of_cons.
    naive_solver.
Qed.

(** *** Popping from either end *)

(** The listing in the direction of a pop or of a range. *)
Definition directed (backward : bool) {A} (l : list A) : list A :=
  if backward then List.rev l else l.

Lemma directed_perm {A} backward (l : list A) : directed backward l ≡ₚ l.
Proof. destruct backward; simpl; [|done]. by rewrite <-Permutation_rev. Qed.

(** Deleting the first member of the directed listing leaves its tail. *)
Lemma directed_delete (max : bool) (m : gmap Bytes f64) (e : Bytes * f64) l :
  directed max (zsorted m) = e :: l → directed max (zsorted (delete e.1 m)) = l.
Proof.
  intros E. pose proof (zsorted_wf m) as Hwf. pose proof (zsorted_abs m) as Habs.
  pose proof (zsorted_sorted m) as Hs. destruct e as [k v]. simpl.
  destruct max; simpl in *.
  - apply (f_equal (@List.rev _)) in E. rewrite rev_involutive in E. simpl in E. rewrite E in *.
    destruct (Assoc.wf_middle _ _ _ _ Hwf) as (H1 & _ & H3). rewrite app_nil_r in H3.
    rewrite <-(zsorted_unique (List.rev l)); [by rewrite rev_involutive|done| |].
    + rewrite <-Habs, Assoc.abs_middle, app_nil_r by done. rewrite delete_insert_id; [done|].
      by apply Assoc.position_abs_None, Assoc.position_is_None.
    + apply StronglySorted_Sorted. by eapply StronglySorted_app_1_l in Hs.
  - rewrite E in *. destruct (Assoc.wf_middle k v [] l Hwf) as (_ & H2 & H3).
    rewrite <-(zsorted_unique l); [done|done| |].
    + rewrite <-Habs. change (Assoc.abs ((k, v) :: l)) with (<[k := v]> (Assoc.abs l)).
      rewrite delete_insert_id; [done|]. by apply Assoc.position_abs_None, Assoc.position_is_None.
    + apply StronglySorted_Sorted. by apply StronglySorted_inv in Hs as [? _].
Qed.

Lemma zset_pop_small n es max popped :
  wf (Small es) → n ≤ length es →
  ∃ es', pop_small n es max popped =
           Some (popped ++ take n (directed max (zsorted (Assoc.abs es))), es') ∧
         wf (Small es') ∧
         directed max (zsorted (Assoc.abs es')) = drop n (directed max (zsorted (Assoc.abs es))).
Proof.
  revert es popped. induction n as [|n IH]; intros es popped Hz Hn; simpl.
  { exists es. rewrite app_nil_r. eauto. }
  pose proof (entries_canonical _ Hz) as Hcan. simpl in Hcan. unfold abs in Hcan. simpl in Hcan.
  assert (∃ e l, directed max es = e :: l ∧ es !! (if max then length es - 1 else 0) = Some e)
    as (e & l & Hd & Hi).
  { destruct es as [|x es0 _] using rev_ind; simpl in *; [lia|].
    destruct max; simpl.
    - rewrite rev_app_distr. simpl. exists x, (List.rev es0). split; [done|].
      rewrite length_app. simpl. rewrite lookup_app_r by lia.
      by replace (length es0 + 1 - 1 - length es0) with 0 by lia.
    - destruct es0 as [|y es0]; simpl; eauto. }
  rewrite (vec_remove_Some _ e) by done. simpl. rewrite Hcan in Hd.
  destruct (zset_remove_spec _ e.1 Hz) as (_ & Hz' & Habs').
  assert ((remove (Small es) e.1).2 = Small (delete (if max then length es - 1 else 0) es)) as Hr.
  { assert (Assoc.wf es) as Hwf by apply Hz. destruct e as [k v]. cbn [fst remove].
    destruct (position (Assoc.key_is k) es) as [i|] eqn:Hp.
    - apply Assoc.position_split in Hp as (v' & Hi' & _). simpl. do 2 f_equal.
      eapply (NoDup_lookup es.*1); [done| |]; rewrite list_lookup_fmap.
      + by rewrite Hi'.
      + by rewrite Hi.
    - exfalso. apply Assoc.position_is_None in Hp. apply Hp. rewrite list_elem_of_fmap.
      exists (k, v). split; [done|]. by eapply list_elem_of_lookup_2. }
  rewrite Hr in Hz', Habs'. unfold abs in Habs'; simpl in Habs'.
  destruct (IH _ (popped ++ [e]) Hz') as (es' & -> & Hw & Hrest).
  { rewrite length_delete; [lia|eauto]. }
  rewrite Habs', (directed_delete _ _ _ _ Hd) in *.
  exists es'. rewrite Hd, <-app_assoc. done.
Qed.

Lemma extreme_spec sc ord max :
  wf (Map sc ord) →
  zk_pair <$> extreme_ordered_item ord max = head (directed max (zsorted (Assoc.abs sc))).
Proof.
  intros Hz. pose proof (entries_canonical _ Hz) as Hcan. unfold abs in Hcan; simpl in Hcan.
  rewrite <-Hcan. destruct Hz as (_ & _ & How & _). destruct max; simpl.
  - rewrite its_last_iter by done. rewrite <-fmap_last.
    set (l := zk_pair <$> its_iter ord). destruct l as [|x l _] using rev_ind; [done|].
    by rewrite last_snoc, rev_app_distr.
  - rewrite its_first_iter by done. by destruct (its_iter ord).
Qed.

Lemma zset_pop_map n sc ord max popped :
  wf (Map sc ord) →
  ∃ sc' ord', pop_map n sc ord max popped =
           (popped ++ take n (directed max (zsorted (Assoc.abs sc))), (sc', ord')) ∧
         wf (Map sc' ord') ∧
         directed max (zsorted (Assoc.abs sc')) = drop n (directed max (zsorted (Assoc.abs sc))).
Proof.
  revert sc ord popped. induction n as [|n IH]; intros sc ord popped Hz; simpl.
  { exists sc, ord. rewrite app_nil_r. eauto. }
  pose proof (extreme_spec sc ord max Hz) as Hex.
  destruct (directed max (zsorted (Assoc.abs sc))) as [|e l] eqn:Hd; simpl in Hex.
  { apply fmap_None in Hex. rewrite Hex, app_nil_r. exists sc, ord. by rewrite Hd. }
  apply fmap_Some in Hex as ([s m] & Hex & ->). rewrite Hex. simpl.
  assert (Assoc.abs sc !! m = Some s) as Hms.
  { rewrite <-(zsorted_abs (Assoc.abs sc)). unfold Assoc.abs at 1.
    apply elem_of_list_to_map_1; [apply zsorted_wf|].
    rewrite <-(directed_perm max (zsorted _)), Hd. by left. }
  destruct (zset_remove_spec _ m Hz) as (_ & Hz' & Habs'). unfold abs in Habs'; simpl in *.
  destruct (Assoc.remove_Some _ _ _ (proj1 Hz) Hms) as (sc1 & Hr & _). simpl in *.
  unfold HashMap.remove. rewrite Hr in *. simpl in *.
  destruct (IH _ _ (popped ++ [zk_pair (mkOrderKey s m)]) Hz') as (sc' & ord' & -> & Hw & Hrest).
  apply directed_delete in Hd. cbn [fst zk_pair zk_member] in Hd. rewrite Habs', Hd in *.
  exists sc', ord'. rewrite <-app_assoc. done.
Qed.

(** [ZPOPMIN]/[ZPOPMAX]: the first [count] of the directed listing go. *)
Lemma zset_pop_spec z count max :
  wf z →
  ∃ z', pop_extreme z count max = Some (take count (directed max (zsorted (abs z))), z') ∧
        wf z' ∧ directed max (zsorted (abs z')) = drop count (directed max (zsorted (abs z))).
Proof.
  intros Hz. assert (length (directed max (zsorted (abs z))) = len z) as Hlen.
  { rewrite directed_perm, <-entries_canonical by done. by apply entries_length. }
  assert (∀ {A} (l : list A), take (count `min` length l) l = take count l ∧
                               drop (count `min` length l) l = drop count l) as Hmin.
  { intros A l. destruct (decide (count ≤ length l)).
    - by rewrite Nat.min_l.
    - by rewrite Nat.min_r, !take_ge, !drop_ge by lia. }
  specialize (Hmin _ (directed max (zsorted (abs z)))). rewrite Hlen in Hmin.
  destruct Hmin as [Ht Hdr]. destruct z as [es|sc ord]; simpl in *.
  - destruct (zset_pop_small (count `min` length es) es max [] Hz) as (es' & -> & Hw & Hd); [lia|].
    simpl. exists (Small es'). unfold abs in *; simpl in *. by rewrite Ht, Hd, Hdr.
  - destruct (zset_pop_map (count `min` length sc) sc ord max [] Hz) as (sc' & ord' & -> & Hw & Hd).
    simpl. exists (Map sc' ord'). unfold abs in *; simpl in *. by rewrite Ht, Hd, Hdr.
Qed.

(** *** Counting by score *)

(** The binary search terminates within its fuel, never indexes out of range
    and returns the length of the prefix on which the test holds. *)
Lemma partition_loop_spec ord pred fuel low high k :
  its_wf ord → (∀ i x, its_iter ord !! i = Some x → pred x = true ↔ i < k) →
  low ≤ k ≤ high → high ≤ length (its_iter ord) → high - low < fuel →
  partition_loop fuel ord pred low high = Some k.
Proof.
  intros How Hpred. revert low high. induction fuel as [|fuel IH]; intros low high Hk Hh Hf; [lia|].
  cbn [partition_loop]. destruct (low <? high) eqn:E; bool_case; [|f_equal; lia].
  pose proof (Nat.div_lt (high - low) 2 ltac:(lia) ltac:(lia)) as Hdiv.
  set (mid := low + (high - low) / 2) in *.
  destruct (lookup_lt_is_Some_2 (its_iter ord) mid) as [x Hx]; [lia|].
  rewrite its_key_iter, Hx by done. simpl. specialize (Hpred mid x Hx).
  destruct (pred x); apply IH; lia.
Qed.

Lemma ordered_prefix ord pred :
  its_wf ord →
  (∀ x y, x ∈ its_iter ord → y ∈ its_iter ord → zle (zk_pair x) (zk_pair y) →
          pred y = true → pred x = true) →
  ∀ i x, its_iter ord !! i = Some x →
  pred x = true ↔ i < length (filter (λ x, pred x = true) (its_iter ord)).
Proof.
  intros How Hclosed. eapply sorted_prefix; [by apply its_sorted|]. intros x y Hx Hy Hlt.
  apply Hclosed; [done..|]. unfold zle, zk_cmp in *. by rewrite Hlt.
Qed.

Lemma partition_point_spec ord pred :
  its_wf ord →
  (∀ x y, x ∈ its_iter ord → y ∈ its_iter ord → zle (zk_pair x) (zk_pair y) →
          pred y = true → pred x = true) →
  zset_partition_point ord pred = Some (length (filter (λ x, pred x = true) (its_iter ord))).
Proof.
  intros How Hclosed. unfold zset_partition_point. rewrite its_len_iter by done.
  pose proof (length_filter (λ x, pred x = true) (its_iter ord)).
  apply partition_loop_spec; [done| |lia..]. by apply ordered_prefix.
Qed.

Lemma score_lower_mono min incl a b :
  score_ok min → score_ok a → score_ok b → (f64_key a ≤ f64_key b)%Z →
  score_matches_lower a min incl = true → score_matches_lower b min incl = true.
Proof.
  intros Hm Ha Hb Hk. unfold score_matches_lower. destruct incl.
  - intros. apply (f64_le_total_r min a b); [done|done|apply Hm|done|done].
  - rewrite !f64_lt_negb by done. destruct (f64_le b min) eqn:E; [|done].
    rewrite (f64_le_total_l min a b); [done|done|done|apply Hm|done|done].
Qed.

Lemma score_upper_mono max incl a b :
  score_ok max → score_ok a → score_ok b → (f64_key a ≤ f64_key b)%Z →
  score_matches_upper b max incl = true → score_matches_upper a max incl = true.
Proof.
  intros Hm Ha Hb Hk. unfold score_matches_upper. destruct incl.
  - intros. apply (f64_le_total_l max a b); [done|done|apply Hm|done|done].
  - rewrite !f64_lt_negb by done. destruct (f64_le max a) eqn:E; [|done].
    rewrite (f64_le_total_r max a b); [done|done|done|apply Hm|done|done].
Qed.

(** The test both bounds make. *)
Definition in_score_range (min : f64) (min_inclusive : bool) (max : f64) (max_inclusive : bool)
    (e : Bytes * f64) : bool :=
  score_matches_lower e.2 min min_inclusive && score_matches_upper e.2 max max_inclusive.

Lemma covers_all l min mi max xi :
  StronglySorted zle l → Forall (λ e, score_ok e.2) l → score_ok min → score_ok max →
  range_covers_sorted_scores (snd <$> head l) (snd <$> last l) (length l) min mi max xi = true →
  filter (λ e, in_score_range min mi max xi e = true) l = l.
Proof.
  intros Hs Hok Hmin Hmax Hc. destruct l as [|x l]; [done|].
  unfold range_covers_sorted_scores in Hc. simpl length in Hc. cbn [Nat.eqb head fmap option_fmap option_map] in Hc.
  destruct (last (x :: l)) as [y|] eqn:Hlast; [|done]. simpl in Hc. bool_case.
  rewrite last_lookup in Hlast. rewrite Forall_forall in Hok.
  assert (y ∈ x :: l) as Hyin by by eapply list_elem_of_lookup_2.
  apply filter_keep_all. intros e He. unfold in_score_range. apply andb_true_iff. split.
  - eapply score_lower_mono; [done| | | |done]; [apply Hok; by left|by apply Hok|].
    apply elem_of_cons in He as [->|He]; [done|].
    apply StronglySorted_inv in Hs as [_ Hs]. rewrite Forall_forall in Hs.
    by apply zcmp_key_le, Hs.
  - eapply score_upper_mono; [done| | | |done]; [by apply Hok|by apply Hok|].
    apply list_elem_of_lookup in He as [i Hi].
    destruct (decide (i = pred (length (x :: l)))) as [->|]; [by simplify_eq|].
    pose proof (lookup_lt_Some _ _ _ Hi).
    apply zcmp_key_le. eapply (strongly_sorted_lookup _ _ i (pred (length (x :: l)))); [done|lia|done|done].
Qed.

Lemma below_negb (s min : f64) (mi : bool) :
  score_ok s → score_ok min →
  (if mi then f64_lt s min else f64_le s min) = negb (score_matches_lower s min mi).
Proof.
  intros. unfold score_matches_lower. destruct mi; [by apply f64_lt_negb|].
  by rewrite f64_lt_negb, negb_involutive.
Qed.

(** The two binary searches bracket exactly the scores in range. *)
Lemma partition_window ord (min : f64) (mi : bool) (max : f64) (xi : bool) :
  its_wf ord → (∀ x, x ∈ its_iter ord → score_ok (zk_score x)) → score_ok min → score_ok max →
  (start ← zset_partition_point ord
             (λ item, if mi then f64_lt (zk_score item) min else f64_le (zk_score item) min);
   stop ← zset_partition_point ord
            (λ item, if xi then f64_le (zk_score item) max else f64_lt (zk_score item) max);
   Some (stop - start)) =
  Some (length (filter (λ e, in_score_range min mi max xi e = true) (zk_pair <$> its_iter ord))).
Proof.
  intros How Hsc Hmin Hmax.
  set (below := λ item, if mi then f64_lt (zk_score item) min else f64_le (zk_score item) min).
  set (upto := λ item, if xi then f64_le (zk_score item) max else f64_lt (zk_score item) max).
  assert (∀ x y, x ∈ its_iter ord → y ∈ its_iter ord → zle (zk_pair x) (zk_pair y) →
                 below y = true → below x = true) as Hlow.
  { intros x y Hx Hy Hle%zcmp_key_le. unfold below. rewrite !below_negb, !negb_true_iff by auto.
    intros Hf. apply not_true_iff_false. intros Ht. apply not_true_iff_false in Hf. apply Hf.
    eapply score_lower_mono; [done| | | |done]; auto. }
  assert (∀ x y, x ∈ its_iter ord → y ∈ its_iter ord → zle (zk_pair x) (zk_pair y) →
                 upto y = true → upto x = true) as Hup.
  { intros x y Hx Hy Hle%zcmp_key_le. apply (score_upper_mono max xi); auto. }
  rewrite !partition_point_spec by done. simpl. f_equal. symmetry.
  rewrite length_filter_fmap. apply filter_window; [apply length_filter|].
  intros i x Hx. pose proof Hx as Hin%list_elem_of_lookup_2.
  pose proof (ordered_prefix _ _ How Hlow i x Hx) as Ha.
  pose proof (ordered_prefix _ _ How Hup i x Hx) as Hb.
  transitivity (¬ below x = true ∧ upto x = true); [|rewrite Ha, Hb; lia].
  unfold in_score_range, below, upto, score_matches_upper. simpl.
  rewrite andb_true_iff, below_negb by auto.
  destruct (score_matches_lower _ _ _); naive_solver.
Qed.

(** [ZCOUNT] by binary search over the ordered set, or by scanning the inline
    entries, counts the members whose score is in range. *)
Lemma count_by_score_spec z min mi max xi :
  wf z → score_ok min → score_ok max →
  count_by_score z min mi max xi =
  Some (length (filter (λ e, in_score_range min mi max xi e = true) (zsorted (abs z)))).
Proof.
  intros Hz Hmin Hmax. rewrite <-entries_canonical by done.
  pose proof (entries_scores_ok z Hz) as Hok. pose proof (entries_canonical z Hz) as Hcan.
  pose proof (zsorted_sorted (abs z)) as Hs. rewrite <-Hcan in Hs. clear Hcan.
  pose proof (covers_all (entries z) min mi max xi Hs Hok Hmin Hmax) as Hcov.
  pose proof (entries_length z Hz) as Hlen.
  destruct z as [es|sc ord]; simpl in *.
  { case_match eqn:E; [by rewrite Hcov|done]. }
  destruct Hz as (_ & _ & How & Hperm).
  case_bool_decide as He; [subst sc; apply nil_length_inv in Hlen; by rewrite Hlen|].
  rewrite its_first_iter, its_last_iter by done.
  rewrite fmap_last in Hcov. rewrite <-Hlen.
  assert ((snd <$> head (zk_pair <$> its_iter ord)) = zk_score <$> head (its_iter ord)) as Hh
    by by destruct (its_iter ord). rewrite Hh in Hcov.
  assert ((snd <$> (zk_pair <$> last (its_iter ord))) = zk_score <$> last (its_iter ord)) as Hl
    by by destruct (last (its_iter ord)). rewrite Hl in Hcov.
  destruct (range_covers_sorted_scores _ _ _ _ _ _ _); [by rewrite Hcov|].
  apply partition_window; [done| |done|done].
  rewrite Forall_fmap, Forall_forall in Hok. apply Hok.
Qed.

(** *** Ranks and ranges *)

Lemma zset_rank_spec z m backward :
  wf z → rank z m backward = position (Assoc.key_is m) (directed backward (zsorted (abs z))).
Proof.
  intros Hz. rewrite <-entries_canonical by done. pose proof (entries_canonical z Hz) as Hcan.
  pose proof (zsorted_wf (abs z)) as Hnd. rewrite <-Hcan in Hnd.
  assert (∀ i j x y, entries z !! i = Some x → entries z !! j = Some y →
            Assoc.key_is m x = true → Assoc.key_is m y = true → i = j) as Huniq.
  { intros i j x y Hi Hj Hx%bytes_eqb_true Hy%bytes_eqb_true.
    eapply (NoDup_lookup (entries z).*1); [done| |]; rewrite list_lookup_fmap.
    - by rewrite Hi; simpl; f_equal.
    - by rewrite Hj; simpl; f_equal; rewrite Hy, <-Hx. }
  destruct z as [es|sc ord]; simpl in *; [by destruct backward|].
  rewrite Assoc.abs_get. destruct Hz as (Hwf & _ & How & Hperm). simpl in *.
  assert (Assoc.abs (zk_pair <$> its_iter ord) = Assoc.abs sc) as Habs.
  { by rewrite Hcan, zsorted_abs. }
  destruct (Assoc.abs sc !! m) as [s|] eqn:Hs; simpl.
  - rewrite its_index_iter, its_len_iter by done.
    rewrite (position_ext _ (λ k, Assoc.key_is m (zk_pair k))).
    + rewrite <-position_fmap. destruct backward; simpl; [|by destruct (position _ _)].
      rewrite position_rev by done. rewrite length_fmap. by destruct (position _ _).
    + intros k Hk. apply bool_decide_ext. split; [by intros [? _]%zcmp_eq|].
      intros Hkm. simpl in Hkm. destruct k as [s' m']. simpl in Hkm. subst m'.
      assert (Assoc.abs (zk_pair <$> its_iter ord) !! m = Some s') as Hs'.
      { apply elem_of_list_to_map_1; [done|]. rewrite list_elem_of_fmap. by exists (mkOrderKey s' m). }
      rewrite Habs, Hs in Hs'. injection Hs' as ->. apply zcmp_refl.
  - symmetry. rewrite <-Habs in Hs. apply Assoc.position_abs_None in Hs.
    destruct backward; simpl; [|done]. by rewrite position_rev, Hs.
Qed.

Lemma keys_at_seq ord a n :
  its_wf ord → keys_at ord (seq a n) = take n (drop a (its_iter ord)).
Proof.
  intros How. unfold keys_at. rewrite <-omap_lookup_seq.
  apply list_omap_ext, Forall2_same_length_lookup_2; [done|].
  intros i x y Hx Hy. simplify_eq. by apply its_key_iter.
Qed.

Lemma keys_at_rev ord l : keys_at ord (List.rev l) = List.rev (keys_at ord l).
Proof. apply omap_rev. Qed.

(** The three range readers, on the window the indices select. *)
Lemma range_window z start stop :
  wf z → fits (len z) → is_i64 start → is_i64 stop →
  normalize_range start stop (length (entries z)) =
    match z with
    | Small es => normalize_range start stop (length es)
    | Map _ ord => normalize_range start stop (its_len ord)
    end.
Proof.
  intros (_ & _ & Hrep). destruct z; simpl in *; [done|].
  rewrite length_fmap, its_len_iter by apply Hrep. done.
Qed.

Lemma zset_range_spec z start stop :
  wf z → fits (len z) → is_i64 start → is_i64 stop →
  range z start stop = (λ e, Some e.1) <$> redis_slice start stop (zsorted (abs z)).
Proof.
  intros Hz Hf H1 H2. rewrite <-entries_canonical by done.
  pose proof (entries_length z Hz) as Hlen. rewrite <-Hlen in Hf.
  pose proof (range_window z start stop Hz ltac:(by rewrite <-Hlen) H1 H2) as Hw.
  pose proof (normalize_range_cases start stop (entries z) Hf H1 H2) as Hcases.
  rewrite Hw in Hcases. destruct Hz as (_ & _ & Hrep).
  destruct z as [es|sc ord]; simpl in *;
    destruct Hcases as [[-> ->]|(a & b & -> & Hab & -> & Hl)]; [done..|].
  destruct Hrep as [How _]. rewrite <-fmap_drop, <-fmap_take, <-list_fmap_compose.
  rewrite keys_at_seq by done. replace (b + 1 - a) with (b - a + 1) by lia.
  by destruct (b - a + 1 <? a).
Qed.

Lemma zset_range_visit_spec z start stop :
  wf z → fits (len z) → is_i64 start → is_i64 stop →
  range_visit z start stop =
    let slice := redis_slice start stop (zsorted (abs z)) in
    Begin (length slice) :: ((λ e, Item (Some e.1)) <$> slice).
Proof.
  intros Hz Hf H1 H2. rewrite <-entries_canonical by done.
  pose proof (entries_length z Hz) as Hlen. rewrite <-Hlen in Hf.
  pose proof (range_window z start stop Hz ltac:(by rewrite <-Hlen) H1 H2) as Hw.
  pose proof (normalize_range_cases start stop (entries z) Hf H1 H2) as Hcases.
  rewrite Hw in Hcases. destruct Hz as (_ & _ & Hrep). cbn zeta.
  destruct z as [es|sc ord]; simpl in *;
    destruct Hcases as [[-> ->]|(a & b & -> & Hab & Hsl & Hl)]; [done| |done|];
    rewrite Hl, Hsl; [done|]. f_equal.
  destruct Hrep as [How _]. rewrite <-fmap_drop, <-fmap_take, <-list_fmap_compose.
  rewrite keys_at_seq by done. replace (b + 1 - a) with (b - a + 1) by lia.
  by destruct (b - a + 1 <? a).
Qed.

Lemma zset_range_entries_spec z start stop backward :
  wf z → fits (len z) → is_i64 start → is_i64 stop →
  range_entries_visit z start stop backward =
    let slice := redis_slice start stop (directed backward (zsorted (abs z))) in
    ZBegin (length slice) :: (zentry <$> slice).
Proof.
  intros Hz Hf H1 H2. rewrite <-entries_canonical by done.
  pose proof (entries_length z Hz) as Hlen. rewrite <-Hlen in Hf.
  pose proof (range_window z start stop Hz ltac:(by rewrite <-Hlen) H1 H2) as Hw.
  assert (length (directed backward (entries z)) = length (entries z)) as Hdl
    by by rewrite directed_perm.
  pose proof (normalize_range_cases start stop (directed backward (entries z))
                ltac:(by rewrite Hdl) H1 H2) as Hcases.
  rewrite Hdl, Hw in Hcases. destruct Hz as (_ & _ & Hrep). cbn zeta.
  destruct z as [es|sc ord]; simpl in *;
    destruct Hcases as [[-> ->]|(a & b & -> & Hab & Hsl & Hl)]; [done| |done|];
    rewrite Hl, Hsl; f_equal; [by destruct backward|].
  destruct Hrep as [How _]. rewrite length_fmap in *. destruct backward; simpl.
  - rewrite its_len_iter by done. rewrite keys_at_rev, keys_at_seq by done. rewrite take_drop_rev by (rewrite length_fmap; done).
    rewrite length_fmap, <-fmap_drop, <-fmap_take, !list_fmap_rev, <-list_fmap_compose.
    do 4 f_equal. lia.
  - rewrite <-fmap_drop, <-fmap_take, <-list_fmap_compose.
    rewrite keys_at_seq by done. replace (b + 1 - a) with (b - a + 1) by lia.
    by destruct (b - a + 1 <? a).
Qed.

End ZSetObject.
#[global] Arguments t OT : clear implicits.
#[global] Arguments insert_slice : simpl never.
#[global] Arguments remove : simpl never.
#[global] Arguments pop_extreme : simpl never.
#[global] Arguments count_by_score : simpl never.
#[global] Arguments rank : simpl never.
#[global] Arguments range : simpl never.
#[global] Arguments range_visit : simpl never.
#[global] Arguments range_entries_visit : simpl never.
End ZSetObject.
