(* ===== verification/Bucket.v ===== *)
(** * The object bucket: state, access paths, key-level operations

    [RedisObjectBucket] ([redis_objects.rs]) keeps four typed tables, the key
    deadlines and the per-field deadlines of hashes.  This file models the
    bucket's state, the access patterns its operations share, every operation
    of [bucket_core.rs], and the field-TTL helpers of [bucket_hash.rs].

    [AState] is the abstract key space: one map from keys to values of one of
    four types, key deadlines, field deadlines.  [phys b a] says that the
    bucket stores [a]; operations are shown to run without panicking and to
    commute with their abstract counterparts. *)

From S2P Require Import Prelude Deps Slab ListObject Helpers F64 Types HashSet ZSet.

(** The four object types, as an index for what the operations share. *)
Inductive Kind := KHash | KList | KSet | KZSet.

#[export] Instance Kind_eq_dec : EqDecision Kind.
Proof. solve_decision. Defined.

(** ** The abstract key space *)

Inductive AValue :=
  | AHash (fields : gmap Bytes Bytes)
  | AList (items : list Bytes)
  | ASet (members : gset Bytes)
  | AZSet (scores : gmap Bytes f64).

Definition val (K : Kind) : Type :=
  match K with
  | KHash => gmap Bytes Bytes
  | KList => list Bytes
  | KSet => gset Bytes
  | KZSet => gmap Bytes f64
  end.

Definition inj (K : Kind) : val K → AValue :=
  match K with KHash => AHash | KList => AList | KSet => ASet | KZSet => AZSet end.

Definition proj (K : Kind) (v : AValue) : option (val K) :=
  match K, v with
  | KHash, AHash h => Some h
  | KList, AList l => Some l
  | KSet, ASet s => Some s
  | KZSet, AZSet z => Some z
  | _, _ => None
  end.

Definition val_empty (K : Kind) : val K → bool :=
  match K with
  | KHash => λ h : gmap Bytes Bytes, bool_decide (h = ∅)
  | KList => λ l : list Bytes, bool_decide (l = [])
  | KSet => λ s : gset Bytes, bool_decide (s = ∅)
  | KZSet => λ z : gmap Bytes f64, bool_decide (z = ∅)
  end.

Record AState := mkA {
  a_objs : gmap Bytes AValue;
  a_exp : gmap Bytes Z;
  a_fexp : gmap Bytes (gmap Bytes Z);
}.

Implicit Types (a : AState) (key k : Bytes) (K : Kind).

Definition a_empty : AState := mkA ∅ ∅ ∅.

Definition a_get (K : Kind) (a : AState) (key : Bytes) : option (val K) :=
  a_objs a !! key ≫= proj K.

Definition a_has (a : AState) (key : Bytes) : bool := bool_decide (is_Some (a_objs a !! key)).

Definition a_put (K : Kind) (a : AState) (key : Bytes) (v : val K) : AState :=
  mkA (<[key := inj K v]> (a_objs a)) (a_exp a) (a_fexp a).

Definition a_delete (a : AState) (key : Bytes) : AState :=
  mkA (delete key (a_objs a)) (delete key (a_exp a)) (delete key (a_fexp a)).

Definition a_set_exp (a : AState) (exp : gmap Bytes Z) : AState :=
  mkA (a_objs a) exp (a_fexp a).

Definition a_set_fexp (a : AState) (fexp : gmap Bytes (gmap Bytes Z)) : AState :=
  mkA (a_objs a) (a_exp a) fexp.

(** Deadlines belong to stored objects; a key's field deadlines are non-empty
    and name fields of its hash. *)
Record wf_a (a : AState) : Prop := {
  wf_exp : ∀ k, is_Some (a_exp a !! k) → is_Some (a_objs a !! k);
  wf_fexp : ∀ k ttls, a_fexp a !! k = Some ttls →
    ttls ≠ ∅ ∧ ∃ h, a_objs a !! k = Some (AHash h) ∧ ∀ f, is_Some (ttls !! f) → is_Some (h !! f);
}.

(** The value of one type under a key, with what to answer when the key holds
    another type or nothing. *)
Definition a_read {R} (K : Kind) (a : AState) (key : Bytes) (g : val K → R) (wrong missing : R) : R :=
  match a_objs a !! key with
  | None => missing
  | Some v => match proj K v with Some x => g x | None => wrong end
  end.

(** Replacing the value of one type; an emptied value takes its key along.
    The flag reports that. *)
Definition a_modify {R} (K : Kind) (a : AState) (key : Bytes) (g : val K → R * val K)
    (wrong missing : R) : (R * bool) * AState :=
  match a_objs a !! key with
  | None => ((missing, false), a)
  | Some av =>
      match proj K av with
      | None => ((wrong, false), a)
      | Some v =>
          let '(r, v') := g v in
          if val_empty K v' then ((r, true), a_delete a key) else ((r, false), a_put K a key v')
      end
  end.

(** Replacing the value of one type, whatever it becomes. *)
Definition a_update {R} (K : Kind) (a : AState) (key : Bytes) (g : val K → R * val K)
    (wrong missing : R) : R * AState :=
  match a_objs a !! key with
  | None => (missing, a)
  | Some av =>
      match proj K av with
      | None => (wrong, a)
      | Some v => let '(r, v') := g v in (r, a_put K a key v')
      end
  end.

Lemma proj_inj K v : proj K (inj K v) = Some v.
Proof. by destruct K. Qed.

Lemma proj_Some K av v : proj K av = Some v ↔ av = inj K v.
Proof.
  split; [|intros ->; apply proj_inj].
  destruct K, av; simpl; intros; simplify_eq; done.
Qed.

Lemma proj_inj_ne K K' v : K ≠ K' → proj K' (inj K v) = None.
Proof. by destruct K, K'. Qed.

Lemma proj_total av : ∃ K v, av = inj K v.
Proof.
  destruct av as [h|l|s|z];
    [exists KHash, h|exists KList, l|exists KSet, s|exists KZSet, z]; done.
Qed.

#[global] Arguments proj : simpl never.
#[global] Arguments inj : simpl never.

Lemma a_get_Some K a key v : a_get K a key = Some v ↔ a_objs a !! key = Some (inj K v).
Proof.
  unfold a_get. rewrite bind_Some. split.
  - intros (av & -> & ->%proj_Some). done.
  - intros ->. exists (inj K v). by rewrite proj_inj.
Qed.

Lemma a_get_put K a key v : a_get K (a_put K a key v) key = Some v.
Proof. apply a_get_Some. apply lookup_insert_eq. Qed.

Lemma a_put_same K a key v : a_objs a !! key = Some (inj K v) → a_put K a key v = a.
Proof. intros Hv. unfold a_put. rewrite insert_id by done. by destruct a. Qed.

#[export] Hint Rewrite proj_inj a_get_put : shardkv_rw.

(** Case analysis on what a key holds, seen from one type. *)
Lemma a_cases K a key :
  (a_objs a !! key = None) ∨
  (∃ v, a_objs a !! key = Some (inj K v)) ∨
  (∃ K' v, K' ≠ K ∧ a_objs a !! key = Some (inj K' v)).
Proof.
  destruct (a_objs a !! key) as [av|]; [|by left]. right.
  destruct (proj_total av) as (K' & v & ->).
  destruct (decide (K' = K)) as [->|]; [left; eauto|right; eauto].
Qed.

Lemma wf_a_empty : wf_a a_empty.
Proof. split; intros k; simpl; rewrite lookup_empty; [by intros []|done]. Qed.

Lemma wf_a_delete a key : wf_a a → wf_a (a_delete a key).
Proof.
  intros [He Hf]. split; simpl; intros k.
  - intros [x [? Hx]%lookup_delete_Some]. rewrite lookup_delete_ne by done. eauto.
  - intros ttls [? Hx]%lookup_delete_Some. rewrite lookup_delete_ne by done. eauto.
Qed.

Lemma wf_a_put_ne K a key v :
  wf_a a → K ≠ KHash → a_get KHash a key = None → wf_a (a_put K a key v).
Proof.
  intros [He Hf] HK Hn. split; simpl; intros k.
  - intros Hk. destruct (decide (k = key)) as [->|]; [rewrite lookup_insert_eq; eauto|].
    rewrite lookup_insert_ne by done. auto.
  - intros ttls Hk. destruct (Hf k ttls Hk) as (Hne & h & Hh & Hdom). split; [done|].
    destruct (decide (k = key)) as [->|]; [unfold a_get in Hn; by rewrite Hh in Hn|].
    rewrite lookup_insert_ne by done. eauto.
Qed.

Lemma wf_a_put_hash a (key : Bytes) (h' : gmap Bytes Bytes) :
  wf_a a →
  (∀ ttls f, a_fexp a !! key = Some ttls → is_Some (ttls !! f) → is_Some (h' !! f)) →
  wf_a (a_put KHash a key h').
Proof.
  intros [He Hf] Hh'. split; simpl; intros k.
  - intros Hk. destruct (decide (k = key)) as [->|]; [rewrite lookup_insert_eq; eauto|].
    rewrite lookup_insert_ne by done. auto.
  - intros ttls Hk. destruct (Hf k ttls Hk) as (Hne & h & Hh & Hdom). split; [done|].
    destruct (decide (k = key)) as [->|]; [rewrite lookup_insert_eq; eauto|].
    rewrite lookup_insert_ne by done. eauto.
Qed.

(** Keys without a hash have no field deadlines. *)
Lemma wf_fexp_None a key : wf_a a → a_get KHash a key = None → a_fexp a !! key = None.
Proof.
  intros [_ Hf] Hn. destruct (a_fexp a !! key) as [ttls|] eqn:E; [|done].
  destruct (Hf _ _ E) as (_ & h & Hh & _). unfold a_get in Hn. by rewrite Hh in Hn.
Qed.

Lemma wf_exp_None a key : wf_a a → a_objs a !! key = None → a_exp a !! key = None.
Proof.
  intros [He _] Hn. destruct (a_exp a !! key) as [t|] eqn:E; [|done].
  destruct (He key); [eauto|congruence].
Qed.

(** ** The concrete bucket *)
Section Bucket.
Context `{Hashing} {HT : Type → Type} `{!HashTable HT} `{TableOrder}.
Context {OT : Type} `{!IndexTreeSet ZSetOrderKey zk_cmp OT}.

Record RedisObjectBucket := mkBucket {
  hashes : SlotMap.t HT;
  lists : SlotMap.t HT;
  sets : SlotMap.t HT;
  zsets : SlotMap.t HT;
  expire_at_ms : gmap Bytes Z;
  hash_field_expire_at_ms : gmap Bytes (gmap Bytes Z);
  hash_slab : ObjectSlab.t HashObject.t;
  list_slab : ObjectSlab.t ListObject.t;
  set_slab : ObjectSlab.t SetObject.t;
  zset_slab : ObjectSlab.t (ZSetObject.t OT);
}.

Implicit Types (b : RedisObjectBucket) (sm : SlotMap.t HT) (slot : SlotId).

Definition bucket_default : RedisObjectBucket :=
  mkBucket SlotMap.default SlotMap.default SlotMap.default SlotMap.default ∅ ∅
           ObjectSlab.default ObjectSlab.default ObjectSlab.default ObjectSlab.default.

Definition obj (K : Kind) : Type :=
  match K with
  | KHash => HashObject.t
  | KList => ListObject.t
  | KSet => SetObject.t
  | KZSet => ZSetObject.t OT
  end.

Definition tbl (K : Kind) (b : RedisObjectBucket) : SlotMap.t HT :=
  match K with KHash => hashes b | KList => lists b | KSet => sets b | KZSet => zsets b end.

Definition slab (K : Kind) (b : RedisObjectBucket) : ObjectSlab.t (obj K) :=
  match K return ObjectSlab.t (obj K) with
  | KHash => hash_slab b
  | KList => list_slab b
  | KSet => set_slab b
  | KZSet => zset_slab b
  end.

Definition set_table (K : Kind) :
    SlotMap.t HT → ObjectSlab.t (obj K) → RedisObjectBucket → RedisObjectBucket :=
  match K return SlotMap.t HT → ObjectSlab.t (obj K) → RedisObjectBucket → RedisObjectBucket with
  | KHash => λ sm sl '(mkBucket h l s z e f hs ls ss zs), mkBucket sm l s z e f sl ls ss zs
  | KList => λ sm sl '(mkBucket h l s z e f hs ls ss zs), mkBucket h sm s z e f hs sl ss zs
  | KSet => λ sm sl '(mkBucket h l s z e f hs ls ss zs), mkBucket h l sm z e f hs ls sl zs
  | KZSet => λ sm sl '(mkBucket h l s z e f hs ls ss zs), mkBucket h l s sm e f hs ls ss sl
  end.

Definition set_exp (e' : gmap Bytes Z) '(mkBucket h l s z e f hs ls ss zs) : RedisObjectBucket :=
  mkBucket h l s z e' f hs ls ss zs.

Definition set_fexp (f' : gmap Bytes (gmap Bytes Z)) '(mkBucket h l s z e f hs ls ss zs)
    : RedisObjectBucket :=
  mkBucket h l s z e f' hs ls ss zs.

(** *** Statements the operations repeat *)

(** [self.<slab>.insert(value)] and [self.<map>.insert_hashed(hash, key, slot)]. *)
Definition insert_object (K : Kind) (b : RedisObjectBucket) (hash : Z) (key : Bytes) (x : obj K)
    : option RedisObjectBucket :=
  '(slot, sl) ← ObjectSlab.insert x (slab K b);
  Some (set_table K (SlotMap.insert_hashed (tbl K b) hash key slot).2 sl b).

(** A mutation through [self.<slab>.get_mut(slot).expect(..)]. *)
Definition with_slot {R} (K : Kind) (b : RedisObjectBucket) (slot : SlotId)
    (f : obj K → option (R * obj K)) : option (R * RedisObjectBucket) :=
  x ← expect (ObjectSlab.get_mut (slab K b) slot);
  '(r, x') ← f x;
  Some (r, set_table K (tbl K b) (ObjectSlab.write_slot (slab K b) slot x') b).

(** [self.<map>.remove(key); self.<slab>.remove(slot); self.expire_at_ms.remove(key)]. *)
Definition drop_object (K : Kind) (b : RedisObjectBucket) (key : Bytes) (slot : SlotId)
    : RedisObjectBucket :=
  let b1 := set_table K (SlotMap.remove (tbl K b) key).2 (ObjectSlab.remove (slab K b) slot).2 b in
  set_exp (delete key (expire_at_ms b1)) b1.

Definition has_non_hash (b : RedisObjectBucket) (key : Bytes) : bool :=
  SlotMap.contains_key (lists b) key || SlotMap.contains_key (sets b) key ||
  SlotMap.contains_key (zsets b) key.

Definition has_non_list (b : RedisObjectBucket) (key : Bytes) : bool :=
  SlotMap.contains_key (hashes b) key || SlotMap.contains_key (sets b) key ||
  SlotMap.contains_key (zsets b) key.

Definition has_non_list_hashed (b : RedisObjectBucket) (hash : Z) (key : Bytes) : bool :=
  SlotMap.contains_key_hashed (hashes b) hash key ||
  SlotMap.contains_key_hashed (sets b) hash key ||
  SlotMap.contains_key_hashed (zsets b) hash key.

Definition has_non_set (b : RedisObjectBucket) (key : Bytes) : bool :=
  SlotMap.contains_key (hashes b) key || SlotMap.contains_key (lists b) key ||
  SlotMap.contains_key (zsets b) key.

Definition has_non_zset (b : RedisObjectBucket) (key : Bytes) : bool :=
  SlotMap.contains_key (hashes b) key || SlotMap.contains_key (lists b) key ||
  SlotMap.contains_key (sets b) key.

Definition has_non (K : Kind) (b : RedisObjectBucket) (key : Bytes) : bool :=
  match K with
  | KHash => has_non_hash b key
  | KList => has_non_list b key
  | KSet => has_non_set b key
  | KZSet => has_non_zset b key
  end.

(** The shape of every read: the slot's object, else wrong type, else absent. *)
Definition read_object {R} (K : Kind) (b : RedisObjectBucket) (key : Bytes)
    (f : obj K → option R) (wrong missing : R) : option R :=
  match SlotMap.get (tbl K b) key with
  | Some slot => x ← expect (ObjectSlab.get (slab K b) slot); f x
  | None => Some (if has_non K b key then wrong else missing)
  end.

(** The shape of every shrinking write: mutate the slot's object and drop the
    key when it became empty. *)
Definition obj_is_empty (K : Kind) : obj K → bool :=
  match K with
  | KHash => HashObject.is_empty
  | KList => ListObject.is_empty
  | KSet => SetObject.is_empty
  | KZSet => ZSetObject.is_empty
  end.

Definition modify_object {R} (K : Kind) (b : RedisObjectBucket) (key : Bytes)
    (f : obj K → option (R * obj K)) (wrong missing : R)
    : option ((R * bool) * RedisObjectBucket) :=
  match SlotMap.get (tbl K b) key with
  | Some slot =>
      '((r, empty), b1) ← with_slot K b slot
                            (λ x, '(r, x') ← f x; Some ((r, obj_is_empty K x'), x'));
      Some ((r, empty), if empty : bool then drop_object K b1 key slot else b1)
  | None => Some ((if has_non K b key then wrong else missing, false), b)
  end.

(** *** Representation *)

Definition rel (K : Kind) : obj K → val K → Prop :=
  match K return obj K → val K → Prop with
  | KHash => λ x v, HashObject.wf x ∧ HashObject.abs x = v
  | KList => ListObject.rep
  | KSet => λ x v, SetObject.wf x ∧ SetObject.abs x = v
  | KZSet => λ x v, ZSetObject.wf x ∧ ZSetObject.abs x = v
  end.

(** What one table stores under a key, against what the key space has there. *)
Definition kmatch (K : Kind) (o : option AValue) (x : option (obj K)) : Prop :=
  match o ≫= proj K with
  | Some v => ∃ y, x = Some y ∧ rel K y v
  | None => x = None
  end.

Definition kind_rep (K : Kind) (b : RedisObjectBucket) (objs : gmap Bytes AValue) : Prop :=
  ∃ m : gmap Bytes (obj K), Table.rep (tbl K b) (slab K b) m ∧ ∀ k, kmatch K (objs !! k) (m !! k).

Record phys (b : RedisObjectBucket) (a : AState) : Prop := {
  phys_kind : ∀ K, kind_rep K b (a_objs a);
  phys_exp : expire_at_ms b = a_exp a;
  phys_fexp : hash_field_expire_at_ms b = a_fexp a;
}.

(** The bucket invariant: it stores a well-formed key space. *)
Definition bucket_rep (b : RedisObjectBucket) (a : AState) : Prop := phys b a ∧ wf_a a.

Lemma tbl_set_eq K sm sl b : tbl K (set_table K sm sl b) = sm ∧ slab K (set_table K sm sl b) = sl.
Proof. by destruct K, b. Qed.

Lemma tbl_set_ne K K' sm sl b :
  K ≠ K' → tbl K' (set_table K sm sl b) = tbl K' b ∧ slab K' (set_table K sm sl b) = slab K' b.
Proof. by destruct K, K', b. Qed.

Lemma set_table_exp K sm sl b :
  expire_at_ms (set_table K sm sl b) = expire_at_ms b ∧
  hash_field_expire_at_ms (set_table K sm sl b) = hash_field_expire_at_ms b.
Proof. by destruct K, b. Qed.

Lemma kind_rep_same K b b' objs :
  tbl K b' = tbl K b → slab K b' = slab K b → kind_rep K b objs → kind_rep K b' objs.
Proof. intros E1 E2. unfold kind_rep. by rewrite E1, E2. Qed.

Lemma phys_set_exp b a e : phys b a → phys (set_exp e b) (a_set_exp a e).
Proof.
  intros [Hk He Hf]. split; [|by destruct b|by destruct b].
  intros K. eapply kind_rep_same; [| |apply Hk]; by destruct K, b.
Qed.

Lemma phys_set_fexp b a f : phys b a → phys (set_fexp f b) (a_set_fexp a f).
Proof.
  intros [Hk He Hf]. split; [|by destruct b|by destruct b].
  intros K. eapply kind_rep_same; [| |apply Hk]; by destruct K, b.
Qed.

Lemma phys_default : phys bucket_default a_empty.
Proof.
  split; [|done|done]. intros K. exists ∅. split; [|intros k; by rewrite lookup_empty].
  destruct K; apply Table.rep_empty.
Qed.

(** Looking a key up in the table of one type. *)
Lemma phys_lookup K b a key v :
  phys b a → a_get K a key = Some v →
  ∃ slot x, SlotMap.get (tbl K b) key = Some slot ∧
            SlotMap.get_hashed (tbl K b) (hash_key key) key = Some slot ∧
            ObjectSlab.get (slab K b) slot = Some x ∧ rel K x v.
Proof.
  intros [Hk _ _] Hv. destruct (Hk K) as (m & Hm & Hrel). specialize (Hrel key).
  unfold a_get in Hv. unfold kmatch in Hrel. rewrite Hv in Hrel. destruct Hrel as (x & Hx & Hr).
  destruct (Table.rep_Some _ _ _ _ _ Hm Hx) as (s & ? & ? & ?). eauto 10.
Qed.

Lemma phys_lookup_None K b a key :
  phys b a → a_get K a key = None →
  SlotMap.get (tbl K b) key = None ∧ SlotMap.get_hashed (tbl K b) (hash_key key) key = None.
Proof.
  intros [Hk _ _] Hv. destruct (Hk K) as (m & Hm & Hrel). specialize (Hrel key).
  unfold a_get in Hv. unfold kmatch in Hrel. rewrite Hv in Hrel. by apply (Table.rep_None _ _ _ _ Hm).
Qed.

Lemma phys_contains K b a key :
  phys b a →
  SlotMap.contains_key (tbl K b) key = bool_decide (is_Some (a_get K a key)) ∧
  SlotMap.contains_key_hashed (tbl K b) (hash_key key) key = bool_decide (is_Some (a_get K a key)).
Proof.
  intros Hp. unfold SlotMap.contains_key, SlotMap.contains_key_hashed.
  destruct (a_get K a key) eqn:E.
  - destruct (phys_lookup _ _ _ _ _ Hp E) as (s & x & -> & -> & _).
    by rewrite !bool_decide_eq_true_2.
  - destruct (phys_lookup_None _ _ _ _ Hp E) as [-> ->].
    by rewrite !bool_decide_eq_false_2 by by intros [].
Qed.

(** Replacing the table of one type together with the abstract value of one
    key of that type. *)
Lemma phys_update K b a key (objs' : gmap Bytes AValue) sm (sl : ObjectSlab.t (obj K)) (m m' : gmap Bytes (obj K)) :
  phys b a → (∀ k, kmatch K (a_objs a !! k) (m !! k)) → Table.rep sm sl m' →
  (∀ k, k ≠ key → objs' !! k = a_objs a !! k ∧ m' !! k = m !! k) →
  kmatch K (objs' !! key) (m' !! key) →
  (∀ K', K' ≠ K → a_get K' a key = objs' !! key ≫= proj K') →
  phys (set_table K sm sl b) (mkA objs' (a_exp a) (a_fexp a)).
Proof.
  intros [Hk He Hf] Hm Hrep Hne Hkey Hother.
  destruct (set_table_exp K sm sl b) as [E1 E2]. split; [|by rewrite E1|by rewrite E2].
  intros K'. destruct (decide (K' = K)) as [->|HK]; simpl.
  - destruct (tbl_set_eq K sm sl b) as [E3 E4]. exists m'. rewrite E3, E4. split; [done|].
    intros k. destruct (decide (k = key)) as [->|Hkk]; [done|].
    destruct (Hne k Hkk) as [-> ->]. apply Hm.
  - destruct (tbl_set_ne K K' sm sl b ltac:(done)) as [E3 E4].
    destruct (Hk K') as (m0 & Hm0 & Hk0). exists m0. rewrite E3, E4. split; [done|].
    intros k. destruct (decide (k = key)) as [->|Hkk].
    + specialize (Hk0 key). unfold kmatch in *. by rewrite <-Hother.
    + destruct (Hne k Hkk) as [-> _]. apply Hk0.
Qed.

Lemma phys_write K b a key slot x v v' :
  phys b a → a_get K a key = Some v → SlotMap.get (tbl K b) key = Some slot → rel K x v' →
  phys (set_table K (tbl K b) (ObjectSlab.write_slot (slab K b) slot x) b) (a_put K a key v').
Proof.
  intros Hp Hv Hs Hx. destruct (phys_kind _ _ Hp K) as (m & Hm & Hk).
  apply (phys_update K b a key _ _ _ m (<[key := x]> m)); [done|done|by apply Table.rep_write|..].
  - intros k Hne. by rewrite !lookup_insert_ne.
  - rewrite !lookup_insert_eq. unfold kmatch. simpl. rewrite proj_inj. eauto.
  - intros K' HK. rewrite lookup_insert_eq. unfold a_get. apply a_get_Some in Hv. rewrite Hv.
    simpl. by rewrite !proj_inj_ne.
Qed.

Lemma phys_insert K b a key x v :
  phys b a → a_objs a !! key = None → rel K x v →
  ∃ b', insert_object K b (hash_key key) key x = Some b' ∧ phys b' (a_put K a key v).
Proof.
  intros Hp Hn Hx. destruct (phys_kind _ _ Hp K) as (m & Hm & Hk).
  assert (m !! key = None) as Hmn. { specialize (Hk key). by rewrite Hn in Hk. }
  destruct (Table.rep_insert _ _ _ key x Hm Hmn) as (slot & sl & Hins & Hrep).
  unfold insert_object. rewrite Hins. simpl. eexists. split; [done|].
  apply (phys_update K b a key _ _ _ m (<[key := x]> m)); [done|done|done|..].
  - intros k Hne. by rewrite !lookup_insert_ne.
  - rewrite !lookup_insert_eq. unfold kmatch. simpl. rewrite proj_inj. eauto.
  - intros K' HK. rewrite lookup_insert_eq. unfold a_get. rewrite Hn. simpl. by rewrite proj_inj_ne.
Qed.

(** Dropping a key's object and its deadline. *)
Lemma phys_drop K b a key slot v :
  phys b a → a_get K a key = Some v → SlotMap.get (tbl K b) key = Some slot →
  phys (drop_object K b key slot) (mkA (delete key (a_objs a)) (delete key (a_exp a)) (a_fexp a)).
Proof.
  intros Hp Hv Hs. destruct (phys_kind _ _ Hp K) as (m & Hm & Hk).
  destruct (Table.rep_remove _ _ _ _ _ Hm Hs) as [_ Hrep]. unfold drop_object.
  pose proof (phys_update K b a key (delete key (a_objs a)) _ _ m (delete key m) Hp Hk Hrep) as Hu.
  set (b1 := set_table K _ _ b) in *.
  assert (phys b1 (mkA (delete key (a_objs a)) (a_exp a) (a_fexp a))) as Hp1.
  { apply Hu.
    - intros k Hne. by rewrite !lookup_delete_ne.
    - by rewrite !lookup_delete_eq.
    - intros K' HK. rewrite lookup_delete_eq. unfold a_get. apply a_get_Some in Hv. rewrite Hv.
      simpl. by rewrite proj_inj_ne. }
  replace (expire_at_ms b1) with (a_exp a) by (symmetry; apply (phys_exp _ _ Hp1)).
  apply (phys_set_exp _ _ _ Hp1).
Qed.

Lemma bucket_drop K b a key slot v :
  bucket_rep b a → K ≠ KHash → a_get K a key = Some v → SlotMap.get (tbl K b) key = Some slot →
  bucket_rep (drop_object K b key slot) (a_delete a key).
Proof.
  intros [Hp Hw] HK Hv Hs. split; [|by apply wf_a_delete].
  unfold a_delete. rewrite (delete_id (a_fexp a)); [by eapply phys_drop|].
  apply wf_fexp_None; [done|]. apply a_get_Some in Hv. unfold a_get. rewrite Hv. simpl.
  by rewrite proj_inj_ne.
Qed.

(** *** The shared access patterns *)

Lemma has_non_spec K b a key :
  phys b a → has_non K b key = match a_objs a !! key with
                               | Some av => bool_decide (proj K av = None)
                               | None => false
                               end.
Proof.
  intros Hp. unfold has_non, has_non_hash, has_non_list, has_non_set, has_non_zset.
  change (hashes b) with (tbl KHash b). change (lists b) with (tbl KList b).
  change (sets b) with (tbl KSet b). change (zsets b) with (tbl KZSet b).
  rewrite !(proj1 (phys_contains _ b a key Hp)). unfold a_get.
  destruct (a_objs a !! key) as [av|]; simpl; [|by destruct K].
  by destruct K, av.
Qed.

Lemma has_non_list_hashed_spec b a key :
  phys b a → has_non_list_hashed b (hash_key key) key = has_non KList b key.
Proof. done. Qed.

(** Reads, with a relational answer. *)
Lemma read_object_rel {R} K b a key (f : obj K → option R) wrong missing (P : val K → R → Prop) :
  phys b a → (∀ x v, rel K x v → a_get K a key = Some v → ∃ r, f x = Some r ∧ P v r) →
  ∃ r, read_object K b key f wrong missing = Some r ∧
       match a_objs a !! key with
       | None => r = missing
       | Some av => match proj K av with Some v => P v r | None => r = wrong end
       end.
Proof.
  intros Hp Hf. unfold read_object. rewrite (has_non_spec K b a key Hp).
  destruct (a_get K a key) as [v|] eqn:Hv.
  - destruct (phys_lookup _ _ _ _ _ Hp Hv) as (s & x & -> & _ & -> & Hx). simpl.
    apply a_get_Some in Hv as Hv'. rewrite Hv', proj_inj. by apply Hf.
  - destruct (phys_lookup_None _ _ _ _ Hp Hv) as [-> _]. eexists. split; [done|].
    unfold a_get in Hv. destruct (a_objs a !! key) as [av|]; [|done].
    simpl in Hv. by rewrite Hv.
Qed.

Lemma read_object_spec {R} K b a key (f : obj K → option R) (g : val K → R) wrong missing :
  phys b a → (∀ x v, rel K x v → a_get K a key = Some v → f x = Some (g v)) →
  read_object K b key f wrong missing = Some (a_read K a key g wrong missing).
Proof.
  intros Hp Hf. destruct (read_object_rel K b a key f wrong missing (λ v r, r = g v) Hp)
    as (r & -> & Hr); [intros; rewrite (Hf x v) by done; eauto|].
  unfold a_read. f_equal. destruct (a_objs a !! key) as [av|]; [|done].
  by destruct (proj K av).
Qed.

(** Mutating the object of a key in place. *)
Lemma with_slot_spec {R} K b a key slot v (f : obj K → option (R * obj K)) (P : R → val K → Prop) :
  phys b a → a_get K a key = Some v → SlotMap.get (tbl K b) key = Some slot →
  (∀ x, rel K x v → ∃ r x' v', f x = Some (r, x') ∧ rel K x' v' ∧ P r v') →
  ∃ r v' b', with_slot K b slot f = Some (r, b') ∧ phys b' (a_put K a key v') ∧ P r v' ∧
             tbl K b' = tbl K b.
Proof.
  intros Hp Hv Hs Hf. destruct (phys_lookup _ _ _ _ _ Hp Hv) as (s & x & Hs' & _ & Hx & Hr).
  rewrite Hs in Hs'. injection Hs' as <-. unfold with_slot.
  destruct (Hf x Hr) as (r & x' & v' & Hfx & Hx' & HP).
  change (ObjectSlab.get_mut (slab K b) slot) with (ObjectSlab.get (slab K b) slot).
  rewrite Hx. simpl. rewrite Hfx. simpl. exists r, v'. eexists. split; [done|].
  split; [by eapply phys_write|]. split; [done|]. apply tbl_set_eq.
Qed.

Lemma obj_is_empty_spec K x v : rel K x v → obj_is_empty K x = val_empty K v.
Proof.
  destruct K; simpl.
  - intros [? <-]. by apply HashObject.hash_is_empty_spec.
  - apply ListObject.is_empty_rep.
  - intros [? <-]. apply SetObject.set_is_empty_spec.
  - intros [? <-]. by apply ZSetObject.zset_is_empty_spec.
Qed.

(** Shrinking writes, with a relational answer. *)
Lemma modify_object_rel {R} K b a key (f : obj K → option (R * obj K)) wrong missing
    (P : val K → R → val K → Prop) :
  bucket_rep b a → K ≠ KHash →
  (∀ x v, rel K x v → a_get K a key = Some v →
          ∃ r x' v', f x = Some (r, x') ∧ rel K x' v' ∧ P v r v') →
  ∃ g b', (∀ v, a_get K a key = Some v → P v (g v).1 (g v).2) ∧
    modify_object K b key f wrong missing = Some ((a_modify K a key g wrong missing).1, b') ∧
    bucket_rep b' (a_modify K a key g wrong missing).2.
Proof.
  intros [Hp Hw] HK Hf. unfold modify_object, a_modify. rewrite (has_non_spec K b a key Hp).
  destruct (a_get K a key) as [v|] eqn:Hv.
  - destruct (phys_lookup _ _ _ _ _ Hp Hv) as (s & x0 & Hs & _ & _ & _). rewrite Hs.
    destruct (with_slot_spec K b a key s v (λ x, '(r, x') ← f x; Some ((r, obj_is_empty K x'), x'))
                (λ re v', P v re.1 v' ∧ re.2 = val_empty K v') Hp Hv Hs)
      as ([r e] & v' & b1 & -> & Hp1 & [HP He] & Htbl).
    { intros x Hx. destruct (Hf x v Hx eq_refl) as (r & x' & v' & -> & Hx' & HP). simpl.
      exists (r, obj_is_empty K x'), x', v'. split; [done|]. split; [done|]. split; [done|].
      by apply obj_is_empty_spec. }
    simpl in *. subst e. exists (λ _, (r, v')).
    apply a_get_Some in Hv as Hv'. rewrite Hv', proj_inj. cbn iota beta.
    assert (bucket_rep b1 (a_put K a key v')) as Hb1.
    { split; [done|]. apply wf_a_put_ne; [done..|]. unfold a_get. rewrite Hv'. simpl.
      by rewrite proj_inj_ne. }
    destruct (val_empty K v'); eexists; (split; [by intros ? [= <-]|]); (split; [done|]); [|done].
    assert (a_delete a key = a_delete (a_put K a key v') key) as ->.
    { unfold a_delete, a_put. simpl. by rewrite delete_insert_eq. }
    eapply bucket_drop; [done|done|apply a_get_put|]. by rewrite Htbl.
  - destruct (phys_lookup_None _ _ _ _ Hp Hv) as [-> _].
    unfold a_get in Hv. destruct (a_objs a !! key) as [av|] eqn:Ho; simpl in *.
    + rewrite Hv. simpl. eexists (λ v, (wrong, v)), b. split; [done|]. done.
    + eexists (λ v, (missing, v)), b. done.
Qed.

Lemma modify_object_spec {R} K b a key (f : obj K → option (R * obj K)) (g : val K → R * val K)
    wrong missing :
  bucket_rep b a → K ≠ KHash →
  (∀ x v, rel K x v → a_get K a key = Some v → ∃ x', f x = Some ((g v).1, x') ∧ rel K x' (g v).2) →
  ∃ b', modify_object K b key f wrong missing = Some ((a_modify K a key g wrong missing).1, b') ∧
    bucket_rep b' (a_modify K a key g wrong missing).2.
Proof.
  intros Hb HK Hf.
  destruct (modify_object_rel K b a key f wrong missing (λ v r v', g v = (r, v')) Hb HK)
    as (g' & b' & Hg & Hm & Hr).
  { intros x v Hx Hv. destruct (Hf x v Hx Hv) as (x' & ? & ?).
    exists (g v).1, x', (g v).2. split; [done|]. split; [done|]. by destruct (g v). }
  exists b'. assert (a_modify K a key g wrong missing = a_modify K a key g' wrong missing) as ->;
    [|done].
  unfold a_modify. destruct (a_objs a !! key) as [av|] eqn:Ho; [|done].
  destruct (proj K av) as [v|] eqn:Hpv; [|done].
  rewrite (Hg v); [by destruct (g' v)|]. unfold a_get. by rewrite Ho.
Qed.

(** In-place writes that never drop the key. *)
Lemma update_object_spec {R} K b a key (f : obj K → option (R * obj K)) (g : val K → R * val K)
    wrong missing :
  bucket_rep b a → K ≠ KHash →
  (∀ x v, rel K x v → a_get K a key = Some v → ∃ x', f x = Some ((g v).1, x') ∧ rel K x' (g v).2) →
  ∃ b', match SlotMap.get (tbl K b) key with
        | Some slot => with_slot K b slot f
        | None => Some (if has_non K b key then wrong else missing, b)
        end = Some ((a_update K a key g wrong missing).1, b') ∧
        bucket_rep b' (a_update K a key g wrong missing).2.
Proof.
  intros [Hp Hw] HK Hf. unfold a_update. rewrite (has_non_spec K b a key Hp).
  destruct (a_get K a key) as [v|] eqn:Hv.
  - destruct (phys_lookup _ _ _ _ _ Hp Hv) as (s & x0 & Hs & _ & _ & _). rewrite Hs.
    destruct (with_slot_spec K b a key s v f (λ r v', g v = (r, v')) Hp Hv Hs)
      as (r & v' & b1 & -> & Hp1 & Hg & _).
    { intros x Hx. destruct (Hf x v Hx eq_refl) as (x' & -> & Hx').
      exists (g v).1, x', (g v).2. split; [done|]. split; [done|]. by destruct (g v). }
    apply a_get_Some in Hv as Hv'. rewrite Hv', proj_inj, Hg. exists b1. split; [done|].
    split; [done|]. apply wf_a_put_ne; [done..|]. unfold a_get. rewrite Hv'. simpl.
    by rewrite proj_inj_ne.
  - destruct (phys_lookup_None _ _ _ _ Hp Hv) as [-> _].
    unfold a_get in Hv. destruct (a_objs a !! key) as [av|] eqn:Ho; simpl in *.
    + rewrite Hv. by exists b.
    + by exists b.
Qed.

(** The two steps a creating command takes: the attempt on an existing object,
    then the insertion, which is only reached for an absent key. *)
Lemma create_object_spec K b a key x v :
  bucket_rep b a → K ≠ KHash → a_objs a !! key = None → rel K x v →
  ∃ b', insert_object K b (hash_key key) key x = Some b' ∧ bucket_rep b' (a_put K a key v).
Proof.
  intros [Hp Hw] HK Hn Hx. destruct (phys_insert K b a key x v Hp Hn Hx) as (b' & -> & Hp').
  exists b'. split; [done|]. split; [done|]. apply wf_a_put_ne; [done..|].
  unfold a_get. by rewrite Hn.
Qed.

End Bucket.
