(* ===== verification/BucketCore.v ===== *)
(** * Key-level operations of a bucket

    Every operation of [redis_objects/bucket_core.rs], and the per-field TTL
    helpers at the end of [bucket_hash.rs] they call.  A clock read inside an
    operation is an argument ([clock]); a visitor is a state transformer that
    also says whether to go on. *)

From S2P Require Import Prelude Deps Slab ListObject Helpers F64 Types HashSet ZSet Bucket.

Section Core.
Context `{Hashing} {HT : Type → Type} `{!HashTable HT} `{TableOrder}.
Context {OT : Type} `{!IndexTreeSet ZSetOrderKey zk_cmp OT}.
Abbreviation bucket := (RedisObjectBucket (HT := HT) (OT := OT)).
Implicit Types (b : bucket) (a : AState) (key field : Bytes) (now_ms clock : Z) (slot : SlotId).

(** ** Per-field TTL helpers *)

Definition set_hash_field_expiry b key field (expire_at_ms : Z) : bucket :=
  let fexp := hash_field_expire_at_ms b in
  set_fexp (<[key := <[field := expire_at_ms]> (default ∅ (fexp !! key))]> fexp) b.

Definition clear_hash_field_ttl b key field : bucket :=
  match hash_field_expire_at_ms b !! key with
  | Some submap =>
      let submap' := delete field submap in
      if bool_decide (submap' = ∅)
      then set_fexp (delete key (hash_field_expire_at_ms b)) b
      else set_fexp (<[key := submap']> (hash_field_expire_at_ms b)) b
  | None => b
  end.

Definition hash_field_expiry b key field : option Z :=
  submap ← hash_field_expire_at_ms b !! key; submap !! field.

Definition hash_field_is_expired b key field now_ms : bool :=
  match hash_field_expiry b key field with
  | Some expire_at_ms => (expire_at_ms <=? now_ms)%Z
  | None => false
  end.

Definition remove_hash_slot b key (slot : SlotId) : bucket :=
  let b1 := drop_object KHash b key slot in
  set_fexp (delete key (hash_field_expire_at_ms b1)) b1.

Definition remove_expired_hash_fields b key now_ms : option bucket :=
  match hash_field_expire_at_ms b !! key with
  | None => Some b
  | Some ttls =>
      let expired := (filter (λ e, (e.2 <=? now_ms)%Z = true) (map_to_list ttls)).*1 in
      if bool_decide (expired = []) then Some b
      else
        b1 ← match SlotMap.get (hashes b) key with
             | Some slot =>
                 '(_, b1) ← with_slot KHash b slot
                              (λ hash, Some ((), foldl (λ h f, (HashObject.remove h f).2) hash expired));
                 Some b1
             | None => Some b
             end;
        Some (foldl (λ b f, clear_hash_field_ttl b key f) b1 expired)
  end.

Definition remove_hash_if_empty b key : option (bool * bucket) :=
  match SlotMap.get (hashes b) key with
  | None => Some (false, b)
  | Some slot =>
      hash ← expect (ObjectSlab.get (hash_slab b) slot);
      if negb (HashObject.is_empty hash) then Some (false, b)
      else Some (true, remove_hash_slot b key slot)
  end.

Definition remove_expired_hash_if_empty b key now_ms : option (bool * bucket) :=
  b1 ← remove_expired_hash_fields b key now_ms;
  remove_hash_if_empty b1 key.

Definition hash_has_live_fields b key now_ms : option bool :=
  match SlotMap.get (hashes b) key with
  | None => Some false
  | Some slot =>
      hash ← expect (ObjectSlab.get (hash_slab b) slot);
      if HashObject.is_empty hash then Some false
      else if negb (bool_decide (is_Some (hash_field_expire_at_ms b !! key))) then Some true
      else Some (existsb (λ field, negb (hash_field_is_expired b key field now_ms))
                         (HashObject.fields hash))
  end.

Definition hash_needs_empty_expiry_cleanup b key now_ms : option bool :=
  if SlotMap.contains_key (hashes b) key
  then live ← hash_has_live_fields b key now_ms; Some (negb live)
  else Some false.

Definition hash_field_lazily_expired b key field clock : bool :=
  if bool_decide (hash_field_expire_at_ms b = ∅) then false
  else hash_field_is_expired b key field clock.

Definition hash_field_now_ms_for b key clock : option Z :=
  if bool_decide (hash_field_expire_at_ms b = ∅) then None
  else match hash_field_expire_at_ms b !! key with
       | Some submap => if negb (bool_decide (submap = ∅)) then Some clock else None
       | None => None
       end.

Definition hash_expired_field_count b key clock : nat :=
  if bool_decide (hash_field_expire_at_ms b = ∅) then 0
  else match hash_field_expire_at_ms b !! key with
       | Some submap => length (filter (λ e, (e <=? clock)%Z = true) (map_to_list submap).*2)
       | None => 0
       end.

Definition remove_expired_hash_fields_for_write b key clock : option bucket :=
  if bool_decide (is_Some (hash_field_expire_at_ms b !! key))
  then remove_expired_hash_fields b key clock
  else Some b.

(** ** bucket_core.rs *)

Definition contains_object b key : bool :=
  SlotMap.contains_key (hashes b) key || SlotMap.contains_key (lists b) key ||
  SlotMap.contains_key (sets b) key || SlotMap.contains_key (zsets b) key.

Definition entry_expire_at b key : option (option Z) :=
  if contains_object b key then Some (expire_at_ms b !! key) else None.

Definition object_is_expired b key now_ms : bool :=
  match expire_at_ms b !! key with
  | Some expire_at_ms => (expire_at_ms <=? now_ms)%Z
  | None => false
  end.

Definition contains_live_object b key now_ms : option bool :=
  if object_is_expired b key now_ms then Some false
  else
    live ← hash_has_live_fields b key now_ms;
    Some (live || SlotMap.contains_key (lists b) key || SlotMap.contains_key (sets b) key ||
          SlotMap.contains_key (zsets b) key).

Definition has_expirations b : bool := negb (bool_decide (expire_at_ms b = ∅)).

(** One arm of [delete_any]: [if let Some(slot) = self.<map>.remove(key)]. *)
Definition take_object (K : Kind) b key : bool * bucket :=
  match SlotMap.remove (tbl K b) key with
  | (Some slot, sm) =>
      let b1 := set_table K sm (ObjectSlab.remove (slab K b) slot).2 b in
      (true, set_exp (delete key (expire_at_ms b1)) b1)
  | (None, sm) => (false, set_table K sm (slab K b) b)
  end.

Definition delete_any b key : bool * bucket :=
  let '(hit, b) := take_object KHash b key in
  if hit : bool then (true, set_fexp (delete key (hash_field_expire_at_ms b)) b)
  else
    let '(hit, b) := take_object KList b key in
    if hit : bool then (true, b)
    else
      let '(hit, b) := take_object KSet b key in
      if hit : bool then (true, b)
      else take_object KZSet b key.

Definition delete_expired b key now_ms : bool * bucket :=
  if object_is_expired b key now_ms then delete_any b key else (false, b).

Definition expire b key (at_ms now_ms : Z) : bool * bucket :=
  let '(deleted, b) := delete_expired b key now_ms in
  if deleted : bool then (false, b)
  else if contains_object b key then (true, set_exp (<[key := at_ms]> (expire_at_ms b)) b)
  else (false, b).

Definition persist b key now_ms : bool * bucket :=
  let '(deleted, b) := delete_expired b key now_ms in
  if deleted : bool then (false, b)
  else (bool_decide (is_Some (expire_at_ms b !! key)), set_exp (delete key (expire_at_ms b)) b).

Definition ttl_millis b key now_ms : option (Z * bucket) :=
  let '(deleted, b) := delete_expired b key now_ms in
  if deleted : bool then Some ((-2)%Z, b)
  else
    '(removed, b) ← remove_expired_hash_if_empty b key now_ms;
    if removed : bool then Some ((-2)%Z, b)
    else if negb (contains_object b key) then Some ((-2)%Z, b)
    else Some (match expire_at_ms b !! key with
               | Some at_ms => wrap_i64 (u64_saturating_sub at_ms now_ms)
               | None => (-1)%Z
               end, b).

(** Entries whose field is live, when the key has field deadlines. *)
Definition live_entry b key (now : option Z) (field : Bytes) : bool :=
  match now with
  | Some now_ms => negb (hash_field_is_expired b key field now_ms)
  | None => true
  end.

Definition clone_value b key now_ms clock : option (option RedisObjectValue) :=
  match SlotMap.get (hashes b) key with
  | Some slot =>
      live ← hash_has_live_fields b key now_ms;
      if negb live then Some None
      else
        let now := hash_field_now_ms_for b key clock in
        hash ← expect (ObjectSlab.get (hash_slab b) slot);
        Some (Some (VHash (filter (λ e, live_entry b key now e.1 = true) (HashObject.entries hash))))
  | None =>
      match SlotMap.get (lists b) key with
      | Some slot =>
          list ← expect (ObjectSlab.get (list_slab b) slot);
          Some (Some (VList (ListObject.iter list)))
      | None =>
          match SlotMap.get (sets b) key with
          | Some slot =>
              set ← expect (ObjectSlab.get (set_slab b) slot);
              Some (Some (VSet (SetObject.iter set)))
          | None =>
              match SlotMap.get (zsets b) key with
              | Some slot =>
                  zset ← expect (ObjectSlab.get (zset_slab b) slot);
                  Some (Some (VZSet (ZSetObject.entries zset)))
              | None => Some None
              end
          end
      end
  end.

Definition insert_value b key (value : RedisObjectValue) : option (bool * bucket) :=
  let '(existed, b) := delete_any b key in
  b' ← match value with
       | VHash entries =>
           let hash := foldl (λ h e, (HashObject.insert_slice h e.1 e.2).2)
                             (HashObject.map_with_capacity (length entries)) entries in
           insert_object KHash b (hash_key key) key hash
       | VList entries =>
           list ← ListObject.from_vec entries;
           insert_object KList b (hash_key key) key list
       | VSet entries =>
           let set := (SetObject.insert_many SetObject.empty entries).2 in
           insert_object KSet b (hash_key key) key set
       | VZSet entries =>
           let zset := foldl (λ z e, (ZSetObject.insert_slice z e.1 e.2).2)
                             (ZSetObject.map_with_capacity (length entries)) entries in
           insert_object KZSet b (hash_key key) key zset
       end;
  Some (negb existed, b').

Definition type_name b key now_ms : option (option string) :=
  hash_live ← hash_has_live_fields b key now_ms;
  Some match hash_live, SlotMap.contains_key (lists b) key, SlotMap.contains_key (sets b) key,
             SlotMap.contains_key (zsets b) key with
       | true, _, _, _ => Some "hash"%string
       | false, true, _, _ => Some "list"%string
       | false, false, true, _ => Some "set"%string
       | false, false, false, true => Some "zset"%string
       | false, false, false, false => None
       end.

Definition encoding b key now_ms : option (option string) :=
  hash_live ← hash_has_live_fields b key now_ms;
  Some match hash_live, SlotMap.contains_key (lists b) key, SlotMap.contains_key (sets b) key,
             SlotMap.contains_key (zsets b) key with
       | true, _, _, _ | false, false, true, _ => Some "hashtable"%string
       | false, true, _, _ => Some "quicklist"%string
       | false, false, false, true => Some "skiplist"%string
       | false, false, false, false => None
       end.

(** [.filter(|key| !self.object_is_expired(key, now_ms))]. *)
Definition unexpired b now_ms (keys : list Bytes) : list Bytes :=
  filter (λ key, object_is_expired b key now_ms = false) keys.

Definition keys_with_type b now_ms (out : list (Bytes * string)) : option (list (Bytes * string)) :=
  hs ← filterM (λ key, hash_has_live_fields b key now_ms)
               (unexpired b now_ms (SlotMap.keys (hashes b)));
  let out := out ++ ((λ key, (key, "hash"%string)) <$> hs) in
  let out := out ++ ((λ key, (key, "list"%string)) <$> unexpired b now_ms (SlotMap.keys (lists b))) in
  let out := out ++ ((λ key, (key, "set"%string)) <$> unexpired b now_ms (SlotMap.keys (sets b))) in
  Some (out ++ ((λ key, (key, "zset"%string)) <$> unexpired b now_ms (SlotMap.keys (zsets b)))).

Definition keys b now_ms (out : list Bytes) : option (list Bytes) :=
  hs ← filterM (λ key, hash_has_live_fields b key now_ms)
               (unexpired b now_ms (SlotMap.keys (hashes b)));
  let out := out ++ hs in
  let out := out ++ unexpired b now_ms (SlotMap.keys (lists b)) in
  let out := out ++ unexpired b now_ms (SlotMap.keys (sets b)) in
  Some (out ++ unexpired b now_ms (SlotMap.keys (zsets b))).

Definition live_object_count b now_ms : option nat :=
  if bool_decide (expire_at_ms b = ∅) && bool_decide (hash_field_expire_at_ms b = ∅)
  then Some (SlotMap.len (hashes b) + SlotMap.len (lists b) + SlotMap.len (sets b) +
             SlotMap.len (zsets b))
  else
    hs ← filterM (λ key, hash_has_live_fields b key now_ms)
                 (unexpired b now_ms (SlotMap.keys (hashes b)));
    let hash_count := length hs in
    if bool_decide (expire_at_ms b = ∅)
    then Some (hash_count + SlotMap.len (lists b) + SlotMap.len (sets b) + SlotMap.len (zsets b))
    else Some (hash_count + length (unexpired b now_ms (SlotMap.keys (lists b))) +
               length (unexpired b now_ms (SlotMap.keys (sets b))) +
               length (unexpired b now_ms (SlotMap.keys (zsets b)))).

(** *** Visiting and scanning keys

    A visitor is [S → Bytes → S * bool]: it updates the caller's state and
    answers. *)
Section Visit.
Context {S : Type} (visitor : S → Bytes → S * bool).

Fixpoint visit_key_iter (ks : list Bytes) (s : S) : S * bool :=
  match ks with
  | [] => (s, true)
  | key :: ks' =>
      let '(s, more) := visitor s key in
      if negb more then (s, false) else visit_key_iter ks' s
  end.

Fixpoint visit_live_hash_key_iter (ks : list Bytes) now_ms b (s : S) : option (S * bool) :=
  match ks with
  | [] => Some (s, true)
  | key :: ks' =>
      live ← hash_has_live_fields b key now_ms;
      if live : bool then
        let '(s, more) := visitor s key in
        if negb more then Some (s, false) else visit_live_hash_key_iter ks' now_ms b s
      else visit_live_hash_key_iter ks' now_ms b s
  end.

Fixpoint visit_unexpired_key_iter b (ks : list Bytes) now_ms (s : S) : S * bool :=
  match ks with
  | [] => (s, true)
  | key :: ks' =>
      if negb (object_is_expired b key now_ms) then
        let '(s, more) := visitor s key in
        if negb more then (s, false) else visit_unexpired_key_iter b ks' now_ms s
      else visit_unexpired_key_iter b ks' now_ms s
  end.

Fixpoint visit_unexpired_live_hash_key_iter b (ks : list Bytes) now_ms (s : S)
    : option (S * bool) :=
  match ks with
  | [] => Some (s, true)
  | key :: ks' =>
      if negb (object_is_expired b key now_ms) then
        live ← hash_has_live_fields b key now_ms;
        if live : bool then
          let '(s, more) := visitor s key in
          if negb more then Some (s, false) else visit_unexpired_live_hash_key_iter b ks' now_ms s
        else visit_unexpired_live_hash_key_iter b ks' now_ms s
      else visit_unexpired_live_hash_key_iter b ks' now_ms s
  end.

(** [first && second && ..] on visits. *)
Definition and_then (r : S * bool) (next : S → S * bool) : S * bool :=
  let '(s, more) := r in if more : bool then next s else (s, false).

Definition visit_keys b now_ms (s : S) : option (S * bool) :=
  if negb (has_expirations b)
  then
    r ← visit_live_hash_key_iter (SlotMap.keys (hashes b)) now_ms b s;
    Some (and_then (and_then (and_then r (visit_key_iter (SlotMap.keys (lists b))))
                             (visit_key_iter (SlotMap.keys (sets b))))
                   (visit_key_iter (SlotMap.keys (zsets b))))
  else
    r ← visit_unexpired_live_hash_key_iter b (SlotMap.keys (hashes b)) now_ms s;
    Some (and_then (and_then (and_then r (visit_unexpired_key_iter b (SlotMap.keys (lists b)) now_ms))
                             (visit_unexpired_key_iter b (SlotMap.keys (sets b)) now_ms))
                   (visit_unexpired_key_iter b (SlotMap.keys (zsets b)) now_ms)).

(** The cursor of a scan: the counters of the source, and the caller's state. *)
Record ScanState := mkScan { sc_position : Z; sc_visited : Z; sc_emitted : Z; sc_state : S }.

(** [usize::saturating_add(1)]. *)
Definition saturating_inc (n : Z) : Z := Z.min (n + 1) u64_MAX.

(** One key that passed the filters. *)
Definition scan_step (cursor_offset limit : Z) (st : ScanState) (key : Bytes)
    : ScanState * option Z :=
  if (sc_position st <? cursor_offset)%Z
  then (mkScan (sc_position st + 1) (sc_visited st) (sc_emitted st) (sc_state st), None)
  else
    let '(s, emit) := visitor (sc_state st) key in
    let visited := saturating_inc (sc_visited st) in
    let st' := mkScan (sc_position st + 1) visited
                 (if emit : bool then saturating_inc (sc_emitted st) else sc_emitted st) s in
    (st', if (limit <=? visited)%Z then Some (sc_position st + 1)%Z else None).

Fixpoint scan_key_iter_no_expiration (ks : list Bytes) (cursor_offset limit : Z)
    (live_hash_filter : option (bucket * Z)) (st : ScanState) : option (ScanState * option Z) :=
  match ks with
  | [] => Some (st, None)
  | key :: ks' =>
      skip ← match live_hash_filter with
             | Some (b, now_ms) => live ← hash_has_live_fields b key now_ms; Some (negb live)
             | None => Some false
             end;
      if skip : bool then scan_key_iter_no_expiration ks' cursor_offset limit live_hash_filter st
      else
        match scan_step cursor_offset limit st key with
        | (st', Some offset) => Some (st', Some offset)
        | (st', None) => scan_key_iter_no_expiration ks' cursor_offset limit live_hash_filter st'
        end
  end.

Fixpoint scan_key_loop b (ks : list Bytes) now_ms (cursor_offset limit : Z)
    (hash_keys : bool) (st : ScanState) : option (ScanState * option Z) :=
  match ks with
  | [] => Some (st, None)
  | key :: ks' =>
      if object_is_expired b key now_ms
      then scan_key_loop b ks' now_ms cursor_offset limit hash_keys st
      else
        skip ← (if hash_keys then live ← hash_has_live_fields b key now_ms; Some (negb live)
                else Some false);
        if skip : bool then scan_key_loop b ks' now_ms cursor_offset limit hash_keys st
        else
          match scan_step cursor_offset limit st key with
          | (st', Some offset) => Some (st', Some offset)
          | (st', None) => scan_key_loop b ks' now_ms cursor_offset limit hash_keys st'
          end
  end.

Definition scan_key_iter b (ks : list Bytes) now_ms (cursor_offset limit : Z)
    (hash_keys : bool) (st : ScanState) : option (ScanState * option Z) :=
  if negb (has_expirations b)
  then scan_key_iter_no_expiration ks cursor_offset limit
         (if hash_keys then Some (b, now_ms) else None) st
  else scan_key_loop b ks now_ms cursor_offset limit hash_keys st.

Definition b_hash : Bytes := [104; 97; 115; 104]%Z.
Definition b_list : Bytes := [108; 105; 115; 116]%Z.
Definition b_set : Bytes := [115; 101; 116]%Z.
Definition b_zset : Bytes := [122; 115; 101; 116]%Z.

Definition scan_keys_visit b now_ms (type_filter : option Bytes) (cursor_offset limit : Z)
    (st : ScanState) : option (ScanState * option Z) :=
  let scan ks hash_keys st := scan_key_iter b ks now_ms cursor_offset limit hash_keys st in
  match type_filter with
  | Some kind =>
      if eq_ignore_ascii_case kind b_hash then scan (SlotMap.keys (hashes b)) true st
      else if eq_ignore_ascii_case kind b_list then scan (SlotMap.keys (lists b)) false st
      else if eq_ignore_ascii_case kind b_set then scan (SlotMap.keys (sets b)) false st
      else if eq_ignore_ascii_case kind b_zset then scan (SlotMap.keys (zsets b)) false st
      else Some (st, None)
  | None =>
      '(st, r) ← scan (SlotMap.keys (hashes b)) true st;
      match r with
      | Some offset => Some (st, Some offset)
      | None =>
          '(st, r) ← scan (SlotMap.keys (lists b)) false st;
          match r with
          | Some offset => Some (st, Some offset)
          | None =>
              '(st, r) ← scan (SlotMap.keys (sets b)) false st;
              match r with
              | Some offset => Some (st, Some offset)
              | None => scan (SlotMap.keys (zsets b)) false st
              end
          end
      end
  end.

End Visit.

(** ** Abstract counterparts *)

Definition a_field_expired a key field now_ms : bool :=
  match a_fexp a !! key with
  | Some ttls => match ttls !! field with Some at_ms => (at_ms <=? now_ms)%Z | None => false end
  | None => false
  end.

(** The fields of a hash that are live at a time. *)
Definition a_live a key now_ms (h : gmap Bytes Bytes) : gmap Bytes Bytes :=
  filter (λ e, a_field_expired a key e.1 now_ms = false) h.

(** Installing a key's field deadlines; an empty table of deadlines is none. *)
Definition put_ttls key (ttls : gmap Bytes Z) (fexp : gmap Bytes (gmap Bytes Z))
    : gmap Bytes (gmap Bytes Z) :=
  if bool_decide (ttls = ∅) then delete key fexp else <[key := ttls]> fexp.

Definition a_ttls a key : gmap Bytes Z := default ∅ (a_fexp a !! key).

(** A hash and its field deadlines. *)
Definition a_put_hash a key (h : gmap Bytes Bytes) (ttls : gmap Bytes Z) : AState :=
  mkA (<[key := AHash h]> (a_objs a)) (a_exp a) (put_ttls key ttls (a_fexp a)).

(** Physically dropping the fields whose deadline passed. *)
Definition a_purge a key now_ms : AState :=
  match a_get KHash a key with
  | Some h => a_put_hash a key (a_live a key now_ms h)
                (filter (λ e, (e.2 <=? now_ms)%Z = false) (a_ttls a key))
  | None => a
  end.

Definition a_hash_live a key now_ms : bool :=
  match a_get KHash a key with
  | Some h => bool_decide (a_live a key now_ms h ≠ ∅)
  | None => false
  end.

Definition a_expired a key now_ms : bool :=
  match a_exp a !! key with Some at_ms => (at_ms <=? now_ms)%Z | None => false end.

(** Whether a key is visible to key-level commands. *)
Definition a_visible a now_ms key : bool :=
  negb (a_expired a key now_ms) &&
  match a_objs a !! key with
  | Some (AHash h) => bool_decide (a_live a key now_ms h ≠ ∅)
  | Some _ => true
  | None => false
  end.

Definition a_type_name (av : AValue) : string :=
  match av with AHash _ => "hash" | AList _ => "list" | ASet _ => "set" | AZSet _ => "zset" end.

(** ** Field deadlines *)

Lemma put_ttls_lookup key ttls fexp k :
  put_ttls key ttls fexp !! k =
  if decide (k = key) then (if bool_decide (ttls = ∅) then None else Some ttls) else fexp !! k.
Proof.
  unfold put_ttls. case_bool_decide; case_decide; subst;
    rewrite ?lookup_delete_eq, ?lookup_insert_eq, ?lookup_delete_ne, ?lookup_insert_ne by done; done.
Qed.

Lemma put_ttls_put key t1 t2 fexp : put_ttls key t2 (put_ttls key t1 fexp) = put_ttls key t2 fexp.
Proof.
  apply map_eq. intros k. rewrite !put_ttls_lookup. by case_decide.
Qed.

Lemma put_ttls_same a key : wf_a a → put_ttls key (a_ttls a key) (a_fexp a) = a_fexp a.
Proof.
  intros Hw. apply map_eq. intros k. rewrite put_ttls_lookup. case_decide; [subst|done].
  unfold a_ttls. destruct (a_fexp a !! key) as [ttls|] eqn:E; simpl.
  - destruct (wf_fexp _ Hw _ _ E) as [Hne _]. by rewrite bool_decide_eq_false_2.
  - by rewrite bool_decide_eq_true_2.
Qed.

Lemma a_ttls_fields a key h f :
  wf_a a → a_get KHash a key = Some h → is_Some (a_ttls a key !! f) → is_Some (h !! f).
Proof.
  intros Hw Hh. unfold a_ttls. destruct (a_fexp a !! key) as [ttls|] eqn:E; simpl.
  - destruct (wf_fexp _ Hw _ _ E) as (_ & h' & Hh' & Hf). apply a_get_Some in Hh.
    rewrite Hh' in Hh. injection Hh as ->. apply Hf.
  - rewrite lookup_empty. by intros [].
Qed.

Lemma a_field_expired_ttls a key f now_ms :
  a_field_expired a key f now_ms =
  match a_ttls a key !! f with Some at_ms => (at_ms <=? now_ms)%Z | None => false end.
Proof.
  unfold a_field_expired, a_ttls. destruct (a_fexp a !! key); simpl; [done|]. by rewrite lookup_empty.
Qed.

Lemma wf_a_put_hash_ttls a key (h : gmap Bytes Bytes) (ttls : gmap Bytes Z) :
  wf_a a → (∀ f, is_Some (ttls !! f) → is_Some (h !! f)) → wf_a (a_put_hash a key h ttls).
Proof.
  intros Hw Hd. split; simpl; intros k.
  - intros Hk. destruct (decide (k = key)) as [->|]; [rewrite lookup_insert_eq; eauto|].
    rewrite lookup_insert_ne by done. by apply (wf_exp _ Hw).
  - intros ts. rewrite put_ttls_lookup. case_decide; [subst|].
    + case_bool_decide; [done|]. intros [= ->]. split; [done|]. exists h.
      by rewrite lookup_insert_eq.
    + intros Hk. rewrite lookup_insert_ne by done. by apply (wf_fexp _ Hw).
Qed.

(** Storing the hash a key has, with the deadlines it has, changes nothing. *)
Lemma a_put_hash_same a key h :
  wf_a a → a_get KHash a key = Some h → a_put_hash a key h (a_ttls a key) = a.
Proof.
  intros Hw Hh. unfold a_put_hash. rewrite put_ttls_same by done.
  apply a_get_Some in Hh. rewrite insert_id by done. by destruct a.
Qed.

Lemma clear_hash_field_ttl_phys b a key field :
  phys b a → (∀ ttls, a_fexp a !! key = Some ttls → ttls ≠ ∅) →
  phys (clear_hash_field_ttl b key field)
       (a_set_fexp a (put_ttls key (delete field (a_ttls a key)) (a_fexp a))).
Proof.
  intros Hp Hne. unfold clear_hash_field_ttl. rewrite (phys_fexp _ _ Hp). unfold a_ttls, put_ttls.
  destruct (a_fexp a !! key) as [ttls|] eqn:E; simpl.
  - case_bool_decide; by apply phys_set_fexp.
  - rewrite delete_empty, bool_decide_eq_true_2, delete_id by done.
    by destruct a.
Qed.

Lemma clear_fields_phys b a key fs :
  phys b a → (∀ ttls, a_fexp a !! key = Some ttls → ttls ≠ ∅) →
  phys (foldl (λ b f, clear_hash_field_ttl b key f) b fs)
       (a_set_fexp a (put_ttls key (filter (λ e, e.1 ∉ fs) (a_ttls a key)) (a_fexp a))).
Proof.
  revert b a. induction fs as [|f fs IH]; intros b a Hp Hne; simpl.
  - rewrite map_filter_id by (intros; apply not_elem_of_nil).
    assert (put_ttls key (a_ttls a key) (a_fexp a) = a_fexp a) as ->; [|by destruct a].
    apply map_eq. intros k. rewrite put_ttls_lookup. case_decide; [subst|done].
    unfold a_ttls. destruct (a_fexp a !! key) eqn:E; simpl.
    + rewrite bool_decide_eq_false_2; [done|]. by apply Hne.
    + by rewrite bool_decide_eq_true_2.
  - pose proof (clear_hash_field_ttl_phys b a key f Hp Hne) as Hp1.
    apply IH in Hp1.
    + eapply (eq_ind_r (phys _)); [exact Hp1|]. unfold a_set_fexp. simpl. f_equal.
      rewrite put_ttls_put. f_equal. unfold a_ttls at 2. simpl. rewrite put_ttls_lookup.
      rewrite decide_True by done. apply map_eq. intros g. apply option_eq. intros v.
      rewrite !map_lookup_filter_Some. simpl. rewrite not_elem_of_cons.
      case_bool_decide as He; simpl.
      * rewrite lookup_empty. split; [|naive_solver]. intros (Hv & Hgf & _).
        assert (delete f (a_ttls a key) !! g = Some v) as Hd by by apply lookup_delete_Some.
        by rewrite He, lookup_empty in Hd.
      * rewrite lookup_delete_Some. naive_solver.
    + simpl. intros ttls. rewrite put_ttls_lookup, decide_True by done.
      case_bool_decide; [done|]. by intros [= <-].
Qed.

Lemma clear_fields_rep b a key fs :
  bucket_rep b a →
  bucket_rep (foldl (λ b f, clear_hash_field_ttl b key f) b fs)
    (a_set_fexp a (put_ttls key (filter (λ e, e.1 ∉ fs) (a_ttls a key)) (a_fexp a))).
Proof.
  intros [Hp Hw]. split.
  - apply clear_fields_phys; [done|]. intros ttls E. by apply (wf_fexp _ Hw) in E as [? _].
  - split; simpl; [apply (wf_exp _ Hw)|]. intros k ttls. rewrite put_ttls_lookup.
    case_decide; [subst|by apply (wf_fexp _ Hw)]. case_bool_decide; [done|]. intros [= <-].
    split; [done|]. destruct (a_fexp a !! key) as [ts|] eqn:E.
    + destruct (wf_fexp _ Hw _ _ E) as (_ & h & Hh & Hf). exists h. split; [done|].
      intros f [v [Hv _]%map_lookup_filter_Some]. apply Hf. unfold a_ttls in Hv.
      rewrite E in Hv. simpl in Hv. eauto.
    + exfalso. match goal with Hx : filter _ _ ≠ ∅ |- _ => apply Hx end.
      unfold a_ttls. rewrite E. apply map_filter_empty.
Qed.

Lemma expired_elem (ttls : gmap Bytes Z) now_ms f :
  f ∈ (filter (λ e, (e.2 <=? now_ms)%Z = true) (map_to_list ttls)).*1 ↔
  ∃ at_ms, ttls !! f = Some at_ms ∧ (at_ms <=? now_ms)%Z = true.
Proof.
  rewrite list_elem_of_fmap. split.
  - intros ([f' at_ms] & -> & [Hle Hin%elem_of_map_to_list]%list_elem_of_filter). eauto.
  - intros (at_ms & Hin & Hle). exists (f, at_ms).
    by rewrite list_elem_of_filter, elem_of_map_to_list.
Qed.

(** Purging keeps the live fields and the pending deadlines. *)
Lemma a_purge_fields a key now_ms (h : gmap Bytes Bytes) :
  wf_a a → a_get KHash a key = Some h →
  wf_a (a_purge a key now_ms) ∧ a_get KHash (a_purge a key now_ms) key = Some (a_live a key now_ms h).
Proof.
  intros Hw Hh. unfold a_purge. rewrite Hh. split.
  - apply wf_a_put_hash_ttls; [done|]. intros f [at_ms [Ht Hn]%map_lookup_filter_Some].
    destruct (a_ttls_fields a key h f Hw Hh) as [v Hv]; [eauto|]. exists v.
    unfold a_live. rewrite map_lookup_filter_Some. split; [done|]. simpl.
    by rewrite a_field_expired_ttls, Ht.
  - apply a_get_Some. simpl. by rewrite lookup_insert_eq.
Qed.

Lemma a_purge_wf a key now_ms : wf_a a → wf_a (a_purge a key now_ms).
Proof.
  intros Hw. destruct (a_get KHash a key) as [h|] eqn:Hh.
  - by apply (a_purge_fields a key now_ms h).
  - unfold a_purge. by rewrite Hh.
Qed.

Lemma a_purge_id a key now_ms :
  wf_a a → (∀ f at_ms, a_ttls a key !! f = Some at_ms → (at_ms <=? now_ms)%Z = false) →
  a_purge a key now_ms = a.
Proof.
  intros Hw Hn. unfold a_purge. destruct (a_get KHash a key) as [h|] eqn:Hh; [|done].
  unfold a_live. rewrite !map_filter_id.
  - by apply a_put_hash_same.
  - intros f at_ms Ht. simpl. eauto.
  - intros f v _. simpl. rewrite a_field_expired_ttls.
    destruct (a_ttls a key !! f) eqn:E; [eauto|done].
Qed.

Lemma remove_expired_hash_fields_spec b a key now_ms :
  bucket_rep b a →
  ∃ b', remove_expired_hash_fields b key now_ms = Some b' ∧ bucket_rep b' (a_purge a key now_ms).
Proof.
  intros [Hp Hw]. unfold remove_expired_hash_fields. rewrite (phys_fexp _ _ Hp).
  destruct (a_fexp a !! key) as [ttls|] eqn:E.
  2: { exists b. rewrite a_purge_id; [done|done|]. unfold a_ttls. by rewrite E. }
  assert (a_ttls a key = ttls) as Ht by (unfold a_ttls; by rewrite E).
  set (expired := (filter _ _).*1). case_bool_decide as He.
  { exists b. rewrite a_purge_id; [done|done|]. rewrite Ht. intros f at_ms Hf.
    apply not_true_iff_false. intros Hle.
    assert (f ∈ expired) as Hin by (apply expired_elem; eauto). rewrite He in Hin. set_solver. }
  destruct (wf_fexp _ Hw _ _ E) as (Hne & h & Hh & Hf).
  assert (a_get KHash a key = Some h) as Hg by by apply a_get_Some.
  destruct (phys_lookup _ _ _ _ _ Hp Hg) as (s & x & Hs & _). simpl in Hs. rewrite Hs.
  destruct (with_slot_spec KHash b a key s h
    (λ hash, Some ((), foldl (λ h f, (HashObject.remove h f).2) hash expired))
    (λ _ v', v' = filter (λ e, e.1 ∉ expired) h) Hp Hg Hs) as (r & v' & b1 & -> & Hp1 & -> & _).
  { intros y [Hy Ha]. destruct (HashObject.hash_remove_all_spec y expired Hy) as [H1 H2].
    eexists _, _, _. split; [done|]. split; [|done]. split; [done|]. by rewrite H2, Ha. }
  simpl. eexists. split; [done|]. split; [|by apply a_purge_wf].
  pose proof (clear_fields_phys _ _ key expired Hp1) as Hp2. simpl in Hp2.
  assert (a_purge a key now_ms = a_set_fexp (a_put KHash a key (filter (λ e, e.1 ∉ expired) h))
    (put_ttls key (filter (λ e, e.1 ∉ expired) (a_ttls (a_put KHash a key
       (filter (λ e, e.1 ∉ expired) h)) key)) (a_fexp a))) as ->.
  { unfold a_purge. rewrite Hg. unfold a_put_hash, a_set_fexp, a_put, a_live. simpl.
    change (a_ttls (mkA _ (a_exp a) (a_fexp a)) key) with (a_ttls a key). rewrite Ht.
    repeat f_equal; apply map_filter_ext; intros f v Hv; simpl; unfold expired;
      rewrite expired_elem.
    - rewrite a_field_expired_ttls, Ht. destruct (ttls !! f) as [t|] eqn:Etf; [|naive_solver].
      rewrite <-not_true_iff_false. naive_solver.
    - rewrite <-not_true_iff_false. naive_solver. }
  apply Hp2. intros ts Hts. rewrite E in Hts. by injection Hts as <-.
Qed.

Lemma remove_hash_slot_phys b a key slot (h : gmap Bytes Bytes) :
  phys b a → a_get KHash a key = Some h → SlotMap.get (hashes b) key = Some slot →
  phys (remove_hash_slot b key slot) (a_delete a key).
Proof.
  intros Hp Hh Hs. unfold remove_hash_slot.
  pose proof (phys_drop KHash b a key slot h Hp Hh Hs) as Hp1.
  rewrite (phys_fexp _ _ Hp1). apply (phys_set_fexp _ _ _ Hp1).
Qed.

Lemma remove_hash_slot_rep b a key slot (h : gmap Bytes Bytes) :
  bucket_rep b a → a_get KHash a key = Some h → SlotMap.get (hashes b) key = Some slot →
  bucket_rep (remove_hash_slot b key slot) (a_delete a key).
Proof.
  intros [Hp Hw] Hh Hs. split; [by eapply remove_hash_slot_phys|by apply wf_a_delete].
Qed.

Lemma remove_hash_if_empty_spec b a key :
  bucket_rep b a →
  let emptied := bool_decide (a_get KHash a key = Some ∅) in
  ∃ b', remove_hash_if_empty b key = Some (emptied, b') ∧
        bucket_rep b' (if emptied then a_delete a key else a).
Proof.
  intros [Hp Hw] emptied. unfold remove_hash_if_empty, emptied.
  destruct (a_get KHash a key) as [h|] eqn:Hh.
  - destruct (phys_lookup _ _ _ _ _ Hp Hh) as (s & x & Hs & _ & Hx & Hr). simpl in Hs, Hx, Hr.
    rewrite Hs, Hx. simpl. destruct Hr as [Hxw Hxa].
    rewrite HashObject.hash_is_empty_spec, Hxa by done.
    case_bool_decide as Hem; simpl.
    + subst h. rewrite bool_decide_eq_true_2 by congruence. eexists. split; [done|].
      by eapply remove_hash_slot_rep.
    + rewrite bool_decide_eq_false_2 by congruence. by eexists.
  - destruct (phys_lookup_None _ _ _ _ Hp Hh) as [Hs _]. simpl in Hs. rewrite Hs. by exists b.
Qed.

(** Purging, then dropping a hash with nothing left. *)
Definition a_cleanup a key now_ms : bool * AState :=
  let a1 := a_purge a key now_ms in
  if bool_decide (a_get KHash a1 key = Some ∅) then (true, a_delete a1 key) else (false, a1).

Lemma remove_expired_hash_if_empty_spec b a key now_ms :
  bucket_rep b a →
  ∃ b', remove_expired_hash_if_empty b key now_ms = Some ((a_cleanup a key now_ms).1, b') ∧
        bucket_rep b' (a_cleanup a key now_ms).2.
Proof.
  intros Hb. unfold remove_expired_hash_if_empty, a_cleanup.
  destruct (remove_expired_hash_fields_spec b a key now_ms Hb) as (b1 & -> & Hb1). simpl.
  destruct (remove_hash_if_empty_spec b1 _ key Hb1) as (b2 & -> & Hb2).
  exists b2. revert Hb2. by repeat case_bool_decide.
Qed.

Lemma hash_field_is_expired_spec b a key field now_ms :
  phys b a → hash_field_is_expired b key field now_ms = a_field_expired a key field now_ms.
Proof.
  intros Hp. unfold hash_field_is_expired, hash_field_expiry, a_field_expired.
  rewrite (phys_fexp _ _ Hp). by destruct (a_fexp a !! key).
Qed.

Lemma a_live_no_ttls a key now_ms h : a_fexp a !! key = None → a_live a key now_ms h = h.
Proof. intros E. unfold a_live, a_field_expired. rewrite E. by apply map_filter_id. Qed.

Lemma sorted_fields_elem (h : gmap Bytes Bytes) f :
  f ∈ (sorted_entries h).*1 ↔ is_Some (h !! f).
Proof.
  unfold sorted_entries. rewrite list_elem_of_fmap. split.
  - intros ([f' v] & -> & Hin). rewrite merge_sort_Permutation, elem_of_map_to_list in Hin. eauto.
  - intros [v Hv]. exists (f, v). by rewrite merge_sort_Permutation, elem_of_map_to_list.
Qed.

Lemma hash_has_live_fields_spec b a key now_ms :
  bucket_rep b a → hash_has_live_fields b key now_ms = Some (a_hash_live a key now_ms).
Proof.
  intros [Hp Hw]. unfold hash_has_live_fields, a_hash_live.
  destruct (a_get KHash a key) as [h|] eqn:Hh.
  2: { destruct (phys_lookup_None _ _ _ _ Hp Hh) as [Hs _]. simpl in Hs. by rewrite Hs. }
  destruct (phys_lookup _ _ _ _ _ Hp Hh) as (s & x & Hs & _ & Hx & Hxw & Hxa).
  simpl in Hs, Hx, Hxw, Hxa. rewrite Hs, Hx. simpl.
  rewrite HashObject.hash_is_empty_spec, Hxa by done. rewrite (phys_fexp _ _ Hp).
  case_bool_decide as Hem.
  { subst h. f_equal. symmetry. apply bool_decide_eq_false. intros Hn. apply Hn. rewrite Hem.
    apply map_filter_empty. }
  case_bool_decide as Ht; simpl.
  - f_equal. apply eq_true_iff_eq. rewrite existsb_exists, bool_decide_eq_true. split.
    + intros (f & Hin%list_elem_of_In & Hf). rewrite HashObject.hash_fields_spec, Hxa in Hin by done.
      apply sorted_fields_elem in Hin as [v Hv]. rewrite (hash_field_is_expired_spec b a) in Hf by done.
      intros He. assert (a_live a key now_ms h !! f = Some v) as Hl.
      { unfold a_live. rewrite map_lookup_filter_Some. split; [done|]. by apply negb_true_iff in Hf. }
      by rewrite He, lookup_empty in Hl.
    + intros (f & v & [Hv Hf]%map_lookup_filter_Some)%map_choose. exists f.
      rewrite <-list_elem_of_In, HashObject.hash_fields_spec, Hxa by done.
      rewrite sorted_fields_elem, (hash_field_is_expired_spec b a) by done.
      simpl in Hf. rewrite Hf. eauto.
  - rewrite a_live_no_ttls by (apply eq_None_not_Some; done).
    f_equal. symmetry. by apply bool_decide_eq_true.
Qed.
End Core.
