(* ===== verification/BucketKeys.v ===== *)
(** * Key-level operations: correctness

    What the operations of [BucketCore] do to the abstract key space. *)

From S2P Require Import Prelude Deps Slab ListObject Helpers F64 Types HashSet ZSet Bucket.
From S2P Require Import BucketCore.

Section Keys.
Context `{Hashing} {HT : Type → Type} `{!HashTable HT} `{TableOrder}.
Context {OT : Type} `{!IndexTreeSet ZSetOrderKey zk_cmp OT}.
Abbreviation bucket := (RedisObjectBucket (HT := HT) (OT := OT)).
Implicit Types (b : bucket) (a : AState) (key field : Bytes) (now_ms clock : Z) (slot : SlotId).

Lemma contains_spec K b a key :
  phys b a → SlotMap.contains_key (tbl K b) key = bool_decide (is_Some (a_get K a key)).
Proof. intros Hp. apply (phys_contains K b a key Hp). Qed.

Lemma contains_object_spec b a key : phys b a → contains_object b key = a_has a key.
Proof.
  intros Hp. unfold contains_object, a_has.
  change (hashes b) with (tbl KHash b). change (lists b) with (tbl KList b).
  change (sets b) with (tbl KSet b). change (zsets b) with (tbl KZSet b).
  rewrite !(contains_spec _ b a key Hp). unfold a_get.
  destruct (a_objs a !! key) as [av|]; simpl; [|done]. by destruct av.
Qed.

Lemma take_object_Some K b a key v :
  phys b a → a_get K a key = Some v →
  ∃ b', take_object K b key = (true, b') ∧
        phys b' (mkA (delete key (a_objs a)) (delete key (a_exp a)) (a_fexp a)).
Proof.
  intros Hp Hv. destruct (phys_lookup _ _ _ _ _ Hp Hv) as (s & x & Hs & _).
  destruct (phys_kind _ _ Hp K) as (m & Hm & _).
  destruct (Table.rep_remove _ _ _ _ _ Hm Hs) as [Hr _].
  pose proof (phys_drop K b a key s v Hp Hv Hs) as Hd. unfold take_object, drop_object in *.
  destruct (SlotMap.remove (tbl K b) key) as [r sm]. simpl in *. subst r. eauto.
Qed.

Lemma take_object_None K b a key :
  phys b a → a_get K a key = None → ∃ b', take_object K b key = (false, b') ∧ phys b' a.
Proof.
  intros Hp Hv. destruct (phys_kind _ _ Hp K) as (m & Hm & Hk).
  assert (m !! key = None) as Hn.
  { specialize (Hk key). unfold kmatch in Hk. unfold a_get in Hv. by rewrite Hv in Hk. }
  destruct (Table.rep_remove_None _ _ _ _ Hm Hn) as [Hr Hm']. unfold take_object.
  destruct (SlotMap.remove (tbl K b) key) as [r sm]. simpl in *. subst r. eexists. split; [done|].
  replace a with (mkA (a_objs a) (a_exp a) (a_fexp a)) by by destruct a.
  by apply (phys_update K b a key _ _ _ m m).
Qed.

(** [delete_any] removes the key, whatever its type, with its deadlines. *)
Lemma delete_any_spec b a key :
  bucket_rep b a →
  ∃ b', delete_any b key = (a_has a key, b') ∧ bucket_rep b' (a_delete a key).
Proof.
  intros [Hp Hw]. unfold delete_any, a_has.
  assert (∀ K v b, phys b a → K ≠ KHash → a_get K a key = Some v →
    ∃ b', take_object K b key = (true, b') ∧ bucket_rep b' (a_delete a key)) as Hhit.
  { intros K v b0 Hp0 HK Hv. destruct (take_object_Some K b0 a key v Hp0 Hv) as (b' & -> & Hp').
    eexists. split; [done|]. split; [|by apply wf_a_delete]. unfold a_delete.
    rewrite (delete_id (a_fexp a)); [done|]. apply wf_fexp_None; [done|].
    apply a_get_Some in Hv. unfold a_get. rewrite Hv. simpl. by rewrite proj_inj_ne. }
  destruct (a_get KHash a key) as [h|] eqn:Hh.
  { destruct (take_object_Some KHash b a key h Hp Hh) as (b' & -> & Hp').
    apply a_get_Some in Hh. rewrite Hh. eexists. split; [done|].
    split; [|by apply wf_a_delete]. rewrite (phys_fexp _ _ Hp'). apply (phys_set_fexp _ _ _ Hp'). }
  destruct (take_object_None KHash b a key Hp Hh) as (b1 & -> & Hp1).
  destruct (a_get KList a key) as [l|] eqn:Hl.
  { destruct (Hhit KList l b1 Hp1 ltac:(done) Hl) as (b' & -> & Hb').
    apply a_get_Some in Hl. rewrite Hl. eauto. }
  destruct (take_object_None KList b1 a key Hp1 Hl) as (b2 & -> & Hp2).
  destruct (a_get KSet a key) as [s|] eqn:Hs.
  { destruct (Hhit KSet s b2 Hp2 ltac:(done) Hs) as (b' & -> & Hb').
    apply a_get_Some in Hs. rewrite Hs. eauto. }
  destruct (take_object_None KSet b2 a key Hp2 Hs) as (b3 & -> & Hp3).
  destruct (a_get KZSet a key) as [z|] eqn:Hz.
  { destruct (Hhit KZSet z b3 Hp3 ltac:(done) Hz) as (b' & -> & Hb').
    apply a_get_Some in Hz. rewrite Hz. eauto. }
  destruct (take_object_None KZSet b3 a key Hp3 Hz) as (b4 & -> & Hp4).
  assert (a_objs a !! key = None) as Hn.
  { unfold a_get in *. destruct (a_objs a !! key) as [av|]; [|done]. by destruct av. }
  rewrite Hn. exists b4. split; [done|]. unfold bucket_rep, a_delete.
  rewrite !delete_id; [by destruct a|..]; [by apply wf_fexp_None|by apply wf_exp_None|done].
Qed.

Lemma object_is_expired_spec b a key now_ms :
  phys b a → object_is_expired b key now_ms = a_expired a key now_ms.
Proof. intros Hp. unfold object_is_expired, a_expired. by rewrite (phys_exp _ _ Hp). Qed.

Lemma a_expired_has a key now_ms : wf_a a → a_expired a key now_ms = true → a_has a key = true.
Proof.
  intros Hw He. apply bool_decide_eq_true, (wf_exp _ Hw). unfold a_expired in He.
  by destruct (a_exp a !! key).
Qed.

Definition a_delete_expired a key now_ms : bool * AState :=
  if a_expired a key now_ms then (true, a_delete a key) else (false, a).

Lemma delete_expired_spec b a key now_ms :
  bucket_rep b a →
  ∃ b', delete_expired b key now_ms = ((a_delete_expired a key now_ms).1, b') ∧
        bucket_rep b' (a_delete_expired a key now_ms).2.
Proof.
  intros Hb. unfold delete_expired, a_delete_expired.
  rewrite (object_is_expired_spec b a) by apply Hb.
  destruct (a_expired a key now_ms) eqn:E; [|by exists b].
  destruct (delete_any_spec b a key Hb) as (b' & -> & Hb').
  rewrite (a_expired_has a key now_ms) by (done || apply Hb). eauto.
Qed.

Definition a_expire a key (at_ms now_ms : Z) : bool * AState :=
  let '(deleted, a) := a_delete_expired a key now_ms in
  if deleted : bool then (false, a)
  else if a_has a key then (true, a_set_exp a (<[key := at_ms]> (a_exp a)))
  else (false, a).

Definition a_persist a key now_ms : bool * AState :=
  let '(deleted, a) := a_delete_expired a key now_ms in
  if deleted : bool then (false, a)
  else (bool_decide (is_Some (a_exp a !! key)), a_set_exp a (delete key (a_exp a))).

Definition a_ttl_millis a key now_ms : Z * AState :=
  let '(deleted, a) := a_delete_expired a key now_ms in
  if deleted : bool then ((-2)%Z, a)
  else
    let '(removed, a) := a_cleanup a key now_ms in
    if (removed : bool) || negb (a_has a key) then ((-2)%Z, a)
    else (match a_exp a !! key with
          | Some at_ms => wrap_i64 (u64_saturating_sub at_ms now_ms)
          | None => (-1)%Z
          end, a).

Lemma wf_a_set_exp a key at_ms :
  wf_a a → a_has a key = true → wf_a (a_set_exp a (<[key := at_ms]> (a_exp a))).
Proof.
  intros [He Hf] Hh%bool_decide_eq_true. split; [|done]. intros k. simpl.
  intros [t [[<- _]|[_ Ht]]%lookup_insert_Some]; [done|eauto].
Qed.

Lemma wf_a_del_exp a key : wf_a a → wf_a (a_set_exp a (delete key (a_exp a))).
Proof.
  intros [He Hf]. split; [|done]. intros k. simpl. intros [t [_ Ht]%lookup_delete_Some]. eauto.
Qed.

Lemma expire_spec b a key at_ms now_ms :
  bucket_rep b a →
  ∃ b', expire b key at_ms now_ms = ((a_expire a key at_ms now_ms).1, b') ∧
        bucket_rep b' (a_expire a key at_ms now_ms).2.
Proof.
  intros Hb. unfold expire, a_expire.
  destruct (delete_expired_spec b a key now_ms Hb) as (b1 & -> & Hb1).
  destruct (a_delete_expired a key now_ms) as [d a1]. simpl in *. destruct d; [eauto|].
  rewrite (contains_object_spec b1 a1) by apply Hb1. destruct (a_has a1 key) eqn:E; [|eauto].
  eexists. split; [done|]. destruct Hb1 as [Hp Hw]. split.
  - rewrite (phys_exp _ _ Hp). by apply phys_set_exp.
  - by apply wf_a_set_exp.
Qed.

Lemma persist_spec b a key now_ms :
  bucket_rep b a →
  ∃ b', persist b key now_ms = ((a_persist a key now_ms).1, b') ∧
        bucket_rep b' (a_persist a key now_ms).2.
Proof.
  intros Hb. unfold persist, a_persist.
  destruct (delete_expired_spec b a key now_ms Hb) as (b1 & -> & Hb1).
  destruct (a_delete_expired a key now_ms) as [d a1]. simpl in *. destruct d; [eauto|].
  destruct Hb1 as [Hp Hw]. rewrite (phys_exp _ _ Hp). eexists. split; [done|]. split.
  - by apply phys_set_exp.
  - by apply wf_a_del_exp.
Qed.

Lemma ttl_millis_spec b a key now_ms :
  bucket_rep b a →
  ∃ b', ttl_millis b key now_ms = Some ((a_ttl_millis a key now_ms).1, b') ∧
        bucket_rep b' (a_ttl_millis a key now_ms).2.
Proof.
  intros Hb. unfold ttl_millis, a_ttl_millis.
  destruct (delete_expired_spec b a key now_ms Hb) as (b1 & -> & Hb1).
  destruct (a_delete_expired a key now_ms) as [d a1]. simpl in *. destruct d; [eauto|].
  destruct (remove_expired_hash_if_empty_spec b1 a1 key now_ms Hb1) as (b2 & -> & Hb2).
  destruct (a_cleanup a1 key now_ms) as [r a2]. simpl in *. destruct r; [eauto|].
  rewrite (contains_object_spec b2 a2) by apply Hb2. simpl.
  destruct (a_has a2 key); simpl; [|eauto]. rewrite (phys_exp _ _ (proj1 Hb2)). eauto.
Qed.

(** ** Types and whole values *)

Lemma type_name_spec b a key now_ms :
  bucket_rep b a →
  type_name b key now_ms =
  Some match a_objs a !! key with
       | Some (AHash h) => if bool_decide (a_live a key now_ms h ≠ ∅) then Some "hash"%string else None
       | Some av => Some (a_type_name av)
       | None => None
       end.
Proof.
  intros Hb. unfold type_name. rewrite (hash_has_live_fields_spec b a) by done. simpl.
  change (lists b) with (tbl KList b). change (sets b) with (tbl KSet b).
  change (zsets b) with (tbl KZSet b). rewrite !(contains_spec _ b a key (proj1 Hb)).
  unfold a_hash_live, a_get. by destruct (a_objs a !! key) as [[]|].
Qed.

Lemma encoding_spec b a key now_ms :
  bucket_rep b a →
  encoding b key now_ms =
  Some match a_objs a !! key with
       | Some (AHash h) =>
           if bool_decide (a_live a key now_ms h ≠ ∅) then Some "hashtable"%string else None
       | Some (AList _) => Some "quicklist"%string
       | Some (ASet _) => Some "hashtable"%string
       | Some (AZSet _) => Some "skiplist"%string
       | None => None
       end.
Proof.
  intros Hb. unfold encoding. rewrite (hash_has_live_fields_spec b a) by done. simpl.
  change (lists b) with (tbl KList b). change (sets b) with (tbl KSet b).
  change (zsets b) with (tbl KZSet b). rewrite !(contains_spec _ b a key (proj1 Hb)).
  unfold a_hash_live, a_get. by destruct (a_objs a !! key) as [[]|].
Qed.

(** *** [clone_value] and [insert_value] *)

(** What a clone of a key may be: sets come in any order. *)
Definition clone_ok a key now_ms clock (r : option RedisObjectValue) : Prop :=
  match a_objs a !! key with
  | None => r = None
  | Some (AHash h) =>
      r = if bool_decide (a_live a key now_ms h ≠ ∅)
          then Some (VHash (filter (λ e, a_field_expired a key e.1 clock = false) (sorted_entries h)))
          else None
  | Some (AList l) => r = Some (VList l)
  | Some (ASet ms) => ∃ l, r = Some (VSet l) ∧ NoDup l ∧ list_to_set l = ms
  | Some (AZSet z) => r = Some (VZSet (ZSetObject.zsorted z))
  end.

Lemma live_entry_spec b a key clock field :
  bucket_rep b a →
  live_entry b key (hash_field_now_ms_for b key clock) field = negb (a_field_expired a key field clock).
Proof.
  intros [Hp Hw]. unfold hash_field_now_ms_for, live_entry. rewrite (phys_fexp _ _ Hp).
  unfold a_field_expired. case_bool_decide as He; [by rewrite He, lookup_empty|].
  destruct (a_fexp a !! key) as [ttls|] eqn:E; [|done].
  destruct (wf_fexp _ Hw _ _ E) as [Hne _]. rewrite bool_decide_eq_false_2 by done. simpl.
  rewrite (hash_field_is_expired_spec b a) by done. unfold a_field_expired. by rewrite E.
Qed.

Lemma clone_value_spec b a key now_ms clock :
  bucket_rep b a → ∃ r, clone_value b key now_ms clock = Some r ∧ clone_ok a key now_ms clock r.
Proof.
  intros Hb. pose proof Hb as [Hp Hw]. unfold clone_value, clone_ok.
  assert (∀ K, a_get K a key = None → SlotMap.get (tbl K b) key = None) as Hnone.
  { intros K Hk. by apply (phys_lookup_None K b a). }
  pose proof (Hnone KHash) as Hn1. pose proof (Hnone KList) as Hn2. pose proof (Hnone KSet) as Hn3.
  pose proof (Hnone KZSet) as Hn4. clear Hnone. unfold a_get in *. simpl in Hn1, Hn2, Hn3, Hn4.
  destruct (a_objs a !! key) as [[h|l|m|z]|] eqn:Ho; simpl in *.
  - destruct (phys_lookup KHash b a key h Hp) as (s & x & Hs & _ & Hx & Hxw & Hxa);
      [by apply a_get_Some|]. simpl in *. rewrite Hs, Hx.
    rewrite (hash_has_live_fields_spec b a) by done. simpl.
    unfold a_hash_live, a_get. rewrite Ho. simpl. unfold proj.
    case_bool_decide; simpl; eexists; (split; [done|]); [|done].
    do 2 f_equal. rewrite HashObject.hash_entries_spec, Hxa by done.
    apply list_filter_iff. intros [f v]. simpl. rewrite (live_entry_spec b a) by done.
    by rewrite negb_true_iff.
  - rewrite Hn1 by done. destruct (phys_lookup KList b a key l Hp) as (s & x & Hs & _ & Hx & Hr);
      [by apply a_get_Some|]. simpl in *. rewrite Hs, Hx. simpl.
    rewrite (ListObject.list_iter_rep x l) by done. eauto.
  - rewrite Hn1, Hn2 by done.
    destruct (phys_lookup KSet b a key m Hp) as (s & x & Hs & _ & Hx & Hxw & Hxa);
      [by apply a_get_Some|]. simpl in *. rewrite Hs, Hx. simpl.
    destruct (SetObject.set_iter_spec x Hxw) as [H1' H2]. eexists. split; [done|].
    eexists. split; [done|]. split; [done|]. by rewrite H2.
  - rewrite Hn1, Hn2, Hn3 by done.
    destruct (phys_lookup KZSet b a key z Hp) as (s & x & Hs & _ & Hx & Hxw & Hxa);
      [by apply a_get_Some|]. simpl in *. rewrite Hs, Hx. simpl.
    rewrite (ZSetObject.entries_canonical x Hxw), Hxa. eauto.
  - rewrite Hn1, Hn2, Hn3, Hn4 by done. eauto.
Qed.

Definition a_value (v : RedisObjectValue) : AValue :=
  match v with
  | VHash es => AHash (foldl (λ m e, <[e.1 := e.2]> m) ∅ es)
  | VList l => AList l
  | VSet l => ASet (list_to_set l)
  | VZSet es => AZSet (foldl (λ m e, <[e.1 := e.2]> m) ∅ es)
  end.

Definition value_ok (v : RedisObjectValue) : Prop :=
  match v with VZSet es => Forall (λ e, score_ok e.2) es | _ => True end.

Definition a_insert_value a key (v : RedisObjectValue) : bool * AState :=
  (negb (a_has a key), mkA (<[key := a_value v]> (a_objs a)) (delete key (a_exp a)) (delete key (a_fexp a))).

Lemma zset_insert_all_spec (z : ZSetObject.t OT) (es : list (Bytes * f64)) :
  ZSetObject.wf z → Forall (λ e, score_ok e.2) es →
  let z' := foldl (λ z e, (ZSetObject.insert_slice z e.1 e.2).2) z es in
  ZSetObject.wf z' ∧ ZSetObject.abs z' = foldl (λ m e, <[e.1 := e.2]> m) (ZSetObject.abs z) es.
Proof.
  intros Hz Hok. revert z Hz. induction Hok as [|[m s] es Hs Hok IH]; intros z Hz; simpl; [done|].
  destruct (ZSetObject.zset_insert_spec z m s Hz Hs) as (_ & H1' & H2).
  destruct (IH _ H1') as [H3 H4]. split; [done|]. by rewrite H4, H2.
Qed.

Lemma insert_value_spec b a key v :
  bucket_rep b a → value_ok v →
  ∃ b', insert_value b key v = Some ((a_insert_value a key v).1, b') ∧
        bucket_rep b' (a_insert_value a key v).2.
Proof.
  intros Hb Hv. unfold insert_value, a_insert_value.
  destruct (delete_any_spec b a key Hb) as (b1 & -> & Hp1 & Hw1). simpl.
  assert (∀ K x w, rel K x w → a_value v = inj K w →
    ∃ b', insert_object K b1 (hash_key key) key x = Some b' ∧
      bucket_rep b' (mkA (<[key := a_value v]> (a_objs a)) (delete key (a_exp a)) (delete key (a_fexp a))))
    as Hins.
  { intros K x w Hx Hav. destruct (phys_insert K b1 _ key x w Hp1) as (b' & -> & Hp'); [|done|].
    { simpl. apply lookup_delete_eq. }
    exists b'. split; [done|]. rewrite Hav. unfold a_put in Hp'. simpl in Hp'.
    rewrite insert_delete_eq in Hp'. split; [done|]. destruct Hb as [_ Hw]. split; simpl; intros k.
    - intros [t [Hne Ht]%lookup_delete_Some]. rewrite lookup_insert_ne by done.
      apply (wf_exp _ Hw). eauto.
    - intros ttls [Hne Ht]%lookup_delete_Some. rewrite lookup_insert_ne by done.
      by apply (wf_fexp _ Hw). }
  destruct v as [es|l|l|es]; simpl in *.
  - destruct (HashObject.map_with_capacity_spec (length es)) as [Hw0 Ha0].
    destruct (HashObject.hash_insert_all_spec _ es Hw0) as [H1' H2].
    edestruct (Hins KHash) as (b' & -> & Hb'); [split; [exact H1'|exact H2]|by rewrite Ha0|].
    simpl. eauto.
  - destruct (ListObject.list_from_vec_rep l) as (x & -> & Hx). simpl.
    destruct (Hins KList x l Hx eq_refl) as (b' & -> & Hb'). simpl. eauto.
  - destruct (SetObject.insert_many_spec _ l (proj1 SetObject.empty_spec)) as (H1' & H2 & _).
    edestruct (Hins KSet) as (b' & -> & Hb'); [split; [exact H1'|exact H2]| |].
    { rewrite (proj2 SetObject.empty_spec). unfold inj. f_equal. set_solver. }
    simpl. eauto.
  - destruct (zset_insert_all_spec _ es ZSetObject.its_new_map_wf Hv) as [H1' H2].
    edestruct (Hins KZSet) as (b' & -> & Hb'); [split; [exact H1'|exact H2]|done|].
    simpl. eauto.
Qed.

(** Inserting entries with distinct keys builds the map of the entries. *)
Lemma foldl_insert_list {V} (es : list (Bytes * V)) :
  Assoc.wf es → foldl (λ m e, <[e.1 := e.2]> m) ∅ es = Assoc.abs es.
Proof.
  unfold Assoc.abs, Assoc.wf. intros Hnd.
  assert (∀ m : gmap Bytes V, foldl (λ m e, <[e.1 := e.2]> m) m es = list_to_map es ∪ m) as Hgen.
  { induction es as [|[k v] es IH]; intros m; simpl; [by rewrite map_empty_union|].
    apply NoDup_cons in Hnd as [Hk Hnd]. rewrite (IH Hnd).
    rewrite <-insert_union_r by by apply not_elem_of_list_to_map_1. by rewrite insert_union_l. }
  by rewrite Hgen, map_union_empty.
Qed.

Lemma sorted_entries_wf {V} (m : gmap Bytes V) : Assoc.wf (sorted_entries m).
Proof.
  unfold Assoc.wf, sorted_entries. rewrite merge_sort_Permutation. apply NoDup_fst_map_to_list.
Qed.

Lemma filter_entries_abs {V} (P : Bytes → bool) (m : gmap Bytes V) :
  Assoc.wf (filter (λ e, P e.1 = false) (sorted_entries m)) ∧
  Assoc.abs (filter (λ e, P e.1 = false) (sorted_entries m)) = filter (λ e, P e.1 = false) m.
Proof.
  assert (Assoc.wf (filter (λ e, P e.1 = false) (sorted_entries m))) as Hwf.
  { unfold Assoc.wf. eapply sublist_NoDup; [apply (sorted_entries_wf m)|].
    apply fmap_sublist, sublist_filter. }
  split; [done|]. apply map_eq. intros k. apply option_eq. intros v. unfold Assoc.abs.
  rewrite <-elem_of_list_to_map, list_elem_of_filter, map_lookup_filter_Some by done.
  unfold sorted_entries. rewrite merge_sort_Permutation, elem_of_map_to_list. naive_solver.
Qed.

(** What cloning a key and inserting the clone elsewhere stores there. *)
Lemma clone_ok_value a key now_ms clock v :
  clone_ok a key now_ms clock (Some v) →
  a_value v = match a_objs a !! key with
              | Some (AHash h) => AHash (a_live a key clock h)
              | Some av => av
              | None => a_value v
              end.
Proof.
  unfold clone_ok. destruct (a_objs a !! key) as [[h|l|m|z]|]; [..|done].
  - case_bool_decide; [|done]. intros [= ->]. simpl.
    destruct (filter_entries_abs (λ f, a_field_expired a key f clock) h) as [H1' H2].
    rewrite foldl_insert_list by done. by rewrite H2.
  - by intros [= ->].
  - intros (l & [= ->] & _ & <-). done.
  - intros [= ->]. simpl. rewrite foldl_insert_list by apply ZSetObject.zsorted_wf.
    by rewrite ZSetObject.zsorted_abs.
Qed.

(** ** Listing, counting and visiting keys *)

Lemma kind_keys K b a :
  phys b a →
  NoDup (SlotMap.keys (tbl K b)) ∧
  (∀ k, k ∈ SlotMap.keys (tbl K b) ↔ is_Some (a_get K a k)) ∧
  SlotMap.len (tbl K b) = length (SlotMap.keys (tbl K b)).
Proof.
  intros Hp. destruct (phys_kind _ _ Hp K) as (m & Hm & _). pose proof (Table.rep_sm _ _ _ Hm) as Hsm.
  split; [apply Hsm|]. split.
  - intros k. rewrite SlotMap.elem_of_keys, <-SlotMap.get_abs by done.
    destruct (a_get K a k) eqn:E.
    + destruct (phys_lookup _ _ _ _ _ Hp E) as (s & x & -> & _). naive_solver.
    + destruct (phys_lookup_None _ _ _ _ Hp E) as [-> _]. split; by intros [].
  - unfold SlotMap.len, SlotMap.keys. by rewrite ht_len_elements, length_fmap.
Qed.

(** The keys of the four tables, in the order every listing uses. *)
Definition all_keys b : list Bytes :=
  SlotMap.keys (hashes b) ++ SlotMap.keys (lists b) ++ SlotMap.keys (sets b) ++ SlotMap.keys (zsets b).

Definition visible_keys b a now_ms : list Bytes :=
  filter (λ k, a_visible a now_ms k = true) (all_keys b).

Lemma all_keys_spec b a :
  phys b a → NoDup (all_keys b) ∧ ∀ k, k ∈ all_keys b ↔ is_Some (a_objs a !! k).
Proof.
  intros Hp. unfold all_keys.
  destruct (kind_keys KHash b a Hp) as (N1 & E1 & _). destruct (kind_keys KList b a Hp) as (N2 & E2 & _).
  destruct (kind_keys KSet b a Hp) as (N3 & E3 & _). destruct (kind_keys KZSet b a Hp) as (N4 & E4 & _).
  simpl in *. unfold a_get in *. split.
  - rewrite !NoDup_app. split_and!; try done; intros k; rewrite ?elem_of_app, ?E1, ?E2, ?E3, ?E4;
      destruct (a_objs a !! k) as [[]|]; unfold proj, is_Some; naive_solver.
  - intros k. rewrite !elem_of_app, E1, E2, E3, E4.
    destruct (a_objs a !! k) as [[]|]; unfold proj, is_Some; naive_solver.
Qed.

(** Which keys of one table are visible. *)
Lemma visible_kind K b a now_ms k :
  phys b a → k ∈ SlotMap.keys (tbl K b) →
  a_visible a now_ms k =
  negb (a_expired a k now_ms) && match K with KHash => a_hash_live a k now_ms | _ => true end.
Proof.
  intros Hp Hk. apply (kind_keys K b a Hp) in Hk as [v Hv]. unfold a_visible, a_hash_live.
  apply a_get_Some in Hv as Ho. rewrite Ho. f_equal. destruct K; simpl; [|done..].
  unfold a_get. by rewrite Ho.
Qed.

Lemma unexpired_visible K b a now_ms :
  phys b a → K ≠ KHash →
  unexpired b now_ms (SlotMap.keys (tbl K b)) =
  filter (λ k, a_visible a now_ms k = true) (SlotMap.keys (tbl K b)).
Proof.
  intros Hp HK. unfold unexpired. pose proof (λ k, visible_kind K b a now_ms k Hp) as Hv.
  induction (SlotMap.keys (tbl K b)) as [|k l IH]; [done|]. rewrite !filter_cons.
  rewrite IH by (intros k' Hk'; apply Hv; by right).
  rewrite (object_is_expired_spec b a) by done. rewrite (Hv k) by by left.
  destruct K; [done|..]; rewrite andb_true_r; by destruct (a_expired a k now_ms).
Qed.

Lemma live_hashes_visible b a now_ms :
  bucket_rep b a →
  filterM (λ key, hash_has_live_fields b key now_ms) (unexpired b now_ms (SlotMap.keys (hashes b))) =
  Some (filter (λ k, a_visible a now_ms k = true) (SlotMap.keys (hashes b))).
Proof.
  intros Hb. rewrite (filterM_spec _ (λ k, a_hash_live a k now_ms)) by
    (intros; by apply hash_has_live_fields_spec).
  f_equal. unfold unexpired. destruct Hb as [Hp _].
  pose proof (λ k, visible_kind KHash b a now_ms k Hp) as Hv. simpl in Hv.
  induction (SlotMap.keys (hashes b)) as [|k l IH]; [done|]. rewrite !filter_cons.
  rewrite (object_is_expired_spec b a) by done. rewrite (Hv k) by by left.
  assert (∀ k', k' ∈ l → a_visible a now_ms k' =
    negb (a_expired a k' now_ms) && a_hash_live a k' now_ms) as Hl by
    (intros k' Hk'; apply Hv; by right).
  destruct (a_expired a k now_ms); simpl; [by apply IH|]. rewrite filter_cons.
  destruct (a_hash_live a k now_ms); simpl; rewrite ?IH by done; done.
Qed.

Ltac by_kind b := change (lists b) with (tbl KList b) in *; change (sets b) with (tbl KSet b) in *;
  change (zsets b) with (tbl KZSet b) in *.

Lemma keys_spec b a now_ms out :
  bucket_rep b a → keys b now_ms out = Some (out ++ visible_keys b a now_ms).
Proof.
  intros Hb. unfold keys. rewrite (live_hashes_visible b a) by done. simpl. by_kind b.
  rewrite !(unexpired_visible _ b a) by (done || apply Hb).
  unfold visible_keys, all_keys. rewrite !filter_app. by rewrite <-!app_assoc.
Qed.

Lemma keys_with_type_spec b a now_ms out :
  bucket_rep b a →
  keys_with_type b now_ms out =
  Some (out ++ ((λ k, (k, match a_objs a !! k with
                          | Some av => a_type_name av | None => ""%string end))
                  <$> visible_keys b a now_ms)).
Proof.
  intros Hb. unfold keys_with_type. rewrite (live_hashes_visible b a) by done. simpl. by_kind b.
  rewrite !(unexpired_visible _ b a) by (done || apply Hb).
  unfold visible_keys, all_keys. rewrite !filter_app, !fmap_app, <-!app_assoc. by_kind b.
  change (hashes b) with (tbl KHash b).
  assert (∀ K (name : string), (∀ v, a_type_name (inj K v) = name) →
    (λ key, (key, name)) <$> filter (λ k, a_visible a now_ms k = true) (SlotMap.keys (tbl K b)) =
    (λ k, (k, match a_objs a !! k with Some av => a_type_name av | None => ""%string end))
      <$> filter (λ k, a_visible a now_ms k = true) (SlotMap.keys (tbl K b))) as Hk.
  { intros K name Hname. apply list_fmap_ext. intros i k Hk%list_elem_of_lookup_2.
    apply list_elem_of_filter in Hk as [_ Hk]. apply (kind_keys K b a (proj1 Hb)) in Hk as [v Hv].
    apply a_get_Some in Hv. by rewrite Hv, Hname. }
  rewrite (Hk KHash "hash"%string), (Hk KList "list"%string), (Hk KSet "set"%string),
    (Hk KZSet "zset"%string) by done. done.
Qed.

Lemma no_expirations a now_ms k : a_exp a = ∅ → a_expired a k now_ms = false.
Proof. intros E. unfold a_expired. by rewrite E, lookup_empty. Qed.

Lemma all_visible K b a now_ms :
  phys b a → K ≠ KHash → a_exp a = ∅ →
  filter (λ k, a_visible a now_ms k = true) (SlotMap.keys (tbl K b)) = SlotMap.keys (tbl K b).
Proof.
  intros Hp HK E. apply filter_keep_all. intros k Hk. rewrite (visible_kind K b) by done.
  rewrite no_expirations by done. by destruct K.
Qed.

(** [live_object_count] counts the visible keys on each of its three paths,
    when every stored hash has a field. *)
Lemma live_object_count_spec b a now_ms :
  bucket_rep b a → (∀ k, a_objs a !! k ≠ Some (AHash ∅)) →
  live_object_count b now_ms = Some (length (visible_keys b a now_ms)).
Proof.
  intros Hb Hne. pose proof Hb as [Hp Hw]. unfold live_object_count.
  rewrite (phys_exp _ _ Hp), (phys_fexp _ _ Hp), (live_hashes_visible b a) by done.
  destruct (kind_keys KHash b a Hp) as (_ & _ & L1). destruct (kind_keys KList b a Hp) as (_ & _ & L2).
  destruct (kind_keys KSet b a Hp) as (_ & _ & L3). destruct (kind_keys KZSet b a Hp) as (_ & _ & L4).
  simpl in L1, L2, L3, L4. rewrite L1, L2, L3, L4.
  unfold visible_keys, all_keys. rewrite !filter_app, !length_app.
  change (hashes b) with (tbl KHash b) in *. by_kind b.
  case_bool_decide as He; cbn [andb].
  - rewrite (all_visible KList b a), (all_visible KSet b a), (all_visible KZSet b a) by done.
    case_bool_decide as Hf.
    + rewrite filter_keep_all; [f_equal; lia|]. intros k Hk.
      rewrite (visible_kind KHash b) by done. rewrite no_expirations by done. simpl.
      apply (kind_keys KHash b a Hp) in Hk as [h Hh]. unfold a_hash_live. rewrite Hh.
      apply bool_decide_eq_true. rewrite a_live_no_ttls by (rewrite Hf; apply lookup_empty).
      intros ->. apply a_get_Some in Hh. by apply (Hne k).
    + cbn [mbind option_bind]. f_equal. lia.
  - cbn [mbind option_bind]. rewrite !(unexpired_visible _ b a) by done. f_equal. lia.
Qed.

Lemma length_visible b a now_ms :
  phys b a →
  length (visible_keys b a now_ms) = size (filter (λ kv, a_visible a now_ms kv.1 = true) (a_objs a)).
Proof.
  intros Hp. destruct (all_keys_spec b a Hp) as [Hnd Hin].
  rewrite <-length_map_to_list, <-(length_fmap fst (map_to_list _)).
  apply Permutation_length, NoDup_Permutation.
  - by apply NoDup_filter.
  - apply NoDup_fst_map_to_list.
  - intros k. unfold visible_keys. rewrite list_elem_of_filter, Hin, list_elem_of_fmap. split.
    + intros [Hv [av Hav]]. exists (k, av). split; [done|].
      by rewrite elem_of_map_to_list, map_lookup_filter_Some.
    + intros ([k' av] & -> & [Hav Hv]%elem_of_map_to_list%map_lookup_filter_Some). eauto.
Qed.

Section VisitKeys.
Context {S : Type} (visitor : S → Bytes → S * bool).

Lemma visit_app ks1 ks2 s :
  visit_key_iter visitor (ks1 ++ ks2) s =
  and_then (visit_key_iter visitor ks1 s) (visit_key_iter visitor ks2).
Proof.
  revert s. induction ks1 as [|k ks1 IH]; intros s; simpl; [done|].
  destruct (visitor s k) as [s' []]; simpl; [apply IH|done].
Qed.

Lemma visit_unexpired b ks now_ms s :
  visit_unexpired_key_iter visitor b ks now_ms s = visit_key_iter visitor (unexpired b now_ms ks) s.
Proof.
  revert s. induction ks as [|k ks IH]; intros s; simpl; [done|].
  unfold unexpired. rewrite filter_cons. fold (unexpired b now_ms ks).
  destruct (object_is_expired b k now_ms); simpl; [apply IH|].
  destruct (visitor s k) as [s' []]; simpl; [apply IH|done].
Qed.

Lemma visit_live_hash b a ks now_ms s :
  bucket_rep b a →
  visit_live_hash_key_iter visitor ks now_ms b s =
  Some (visit_key_iter visitor (filter (λ k, a_hash_live a k now_ms = true) ks) s).
Proof.
  intros Hb. revert s. induction ks as [|k ks IH]; intros s; simpl; [done|].
  rewrite (hash_has_live_fields_spec b a) by done. simpl. rewrite filter_cons.
  destruct (a_hash_live a k now_ms); simpl; [|apply IH].
  destruct (visitor s k) as [s' []]; simpl; [apply IH|done].
Qed.

Lemma visit_unexpired_live_hash b a ks now_ms s :
  bucket_rep b a →
  visit_unexpired_live_hash_key_iter visitor b ks now_ms s =
  Some (visit_key_iter visitor
          (filter (λ k, a_hash_live a k now_ms = true) (unexpired b now_ms ks)) s).
Proof.
  intros Hb. revert s. induction ks as [|k ks IH]; intros s; simpl; [done|].
  unfold unexpired. rewrite !filter_cons. fold (unexpired b now_ms ks).
  destruct (object_is_expired b k now_ms); simpl; [apply IH|].
  rewrite (hash_has_live_fields_spec b a) by done. simpl. rewrite filter_cons.
  destruct (a_hash_live a k now_ms); simpl; [|apply IH].
  destruct (visitor s k) as [s' []]; simpl; [apply IH|done].
Qed.

(** Visiting walks the visible keys in listing order, stopping when told. *)
Lemma visit_keys_spec b a now_ms s :
  bucket_rep b a →
  visit_keys visitor b now_ms s = Some (visit_key_iter visitor (visible_keys b a now_ms) s).
Proof.
  intros Hb. pose proof Hb as [Hp _]. unfold visit_keys, visible_keys, all_keys, has_expirations.
  pose proof (live_hashes_visible b a now_ms Hb) as Hlv.
  rewrite (filterM_spec _ (λ k, a_hash_live a k now_ms)) in Hlv by
    (intros; by apply hash_has_live_fields_spec). injection Hlv as Hlv.
  rewrite !filter_app, !visit_app. by_kind b. rewrite (phys_exp _ _ Hp).
  assert (∀ (r : S * bool) f g h, and_then (and_then (and_then r f) g) h =
    and_then r (λ s, and_then (f s) (λ s, and_then (g s) h))) as Hassoc.
  { intros [s' []] f g h; simpl; [|done]. destruct (f s') as [s2 []]; simpl; [|done].
    destruct (g s2) as [s3 []]; done. }
  assert (∀ (r : S * bool) f g, (∀ s, f s = g s) → and_then r f = and_then r g) as Hext.
  { intros [s' []] f g Hfg; simpl; [apply Hfg|done]. }
  case_bool_decide as He; cbn [negb].
  - rewrite (visit_live_hash b a) by done. cbn [mbind option_bind]. rewrite Hassoc.
    rewrite (all_visible KList b a), (all_visible KSet b a), (all_visible KZSet b a) by done.
    assert (unexpired b now_ms (SlotMap.keys (hashes b)) = SlotMap.keys (hashes b)) as Hun.
    { apply filter_keep_all. intros k _. rewrite (object_is_expired_spec b a) by done.
      by apply no_expirations. }
    rewrite Hun in Hlv. rewrite Hlv. f_equal. apply Hext. intros s1. rewrite visit_app.
    apply Hext. intros s2. by rewrite visit_app.
  - rewrite (visit_unexpired_live_hash b a) by done. cbn [mbind option_bind].
    rewrite Hassoc, Hlv. f_equal.
    apply Hext. intros s1. rewrite visit_app, visit_unexpired, (unexpired_visible KList b a) by done.
    apply Hext. intros s2. rewrite visit_app, visit_unexpired, (unexpired_visible KSet b a) by done.
    apply Hext. intros s3. by rewrite visit_unexpired, (unexpired_visible KZSet b a) by done.
Qed.

(** *** Scanning in pages *)

(** The scan of a list of keys that all pass the filters. *)
Fixpoint scan_list (cursor_offset limit : Z) (ks : list Bytes) (st : ScanState (S := S))
    : ScanState (S := S) * option Z :=
  match ks with
  | [] => (st, None)
  | key :: ks' =>
      match scan_step visitor cursor_offset limit st key with
      | (st', Some offset) => (st', Some offset)
      | (st', None) => scan_list cursor_offset limit ks' st'
      end
  end.

Lemma scan_list_app co lim ks1 ks2 st :
  scan_list co lim (ks1 ++ ks2) st =
  match scan_list co lim ks1 st with
  | (st', Some offset) => (st', Some offset)
  | (st', None) => scan_list co lim ks2 st'
  end.
Proof.
  revert st. induction ks1 as [|k ks1 IH]; intros st; simpl; [done|].
  by destruct (scan_step visitor co lim st k) as [st' [o|]].
Qed.

Lemma scan_no_expiration b a ks now_ms co lim (hash_keys : bool) st :
  bucket_rep b a →
  scan_key_iter_no_expiration visitor ks co lim (if hash_keys then Some (b, now_ms) else None) st =
  Some (scan_list co lim
          (filter (λ k, (if hash_keys then a_hash_live a k now_ms else true) = true) ks) st).
Proof.
  intros Hb. revert st. induction ks as [|k ks IH]; intros st; simpl; [done|].
  rewrite filter_cons. destruct hash_keys; simpl.
  - rewrite (hash_has_live_fields_spec b a) by done. simpl.
    destruct (a_hash_live a k now_ms); simpl; [|apply IH].
    destruct (scan_step visitor co lim st k) as [st' [o|]]; [done|apply IH].
  - destruct (scan_step visitor co lim st k) as [st' [o|]]; [done|apply IH].
Qed.

Lemma scan_loop_spec b a ks now_ms co lim (hash_keys : bool) st :
  bucket_rep b a →
  scan_key_loop visitor b ks now_ms co lim hash_keys st =
  Some (scan_list co lim
          (filter (λ k, (if hash_keys then a_hash_live a k now_ms else true) = true)
                  (unexpired b now_ms ks)) st).
Proof.
  intros Hb. revert st. induction ks as [|k ks IH]; intros st; simpl; [done|].
  unfold unexpired. rewrite filter_cons. fold (unexpired b now_ms ks).
  destruct (object_is_expired b k now_ms); simpl; [apply IH|]. rewrite filter_cons.
  destruct hash_keys; simpl.
  - rewrite (hash_has_live_fields_spec b a) by done. simpl.
    destruct (a_hash_live a k now_ms); simpl; [|apply IH].
    destruct (scan_step visitor co lim st k) as [st' [o|]]; [done|apply IH].
  - destruct (scan_step visitor co lim st k) as [st' [o|]]; [done|apply IH].
Qed.

(** Scanning one table scans its visible keys. *)
Lemma scan_key_iter_spec K b a now_ms co lim st :
  bucket_rep b a →
  scan_key_iter visitor b (SlotMap.keys (tbl K b)) now_ms co lim (bool_decide (K = KHash)) st =
  Some (scan_list co lim (filter (λ k, a_visible a now_ms k = true) (SlotMap.keys (tbl K b))) st).
Proof.
  intros Hb. pose proof Hb as [Hp _]. unfold scan_key_iter, has_expirations.
  rewrite (phys_exp _ _ Hp).
  assert (∀ k, k ∈ SlotMap.keys (tbl K b) → a_visible a now_ms k =
    negb (a_expired a k now_ms) &&
    (if bool_decide (K = KHash) then a_hash_live a k now_ms else true)) as Hv.
  { intros k Hk. rewrite (visible_kind K b) by done. by destruct K. }
  destruct (bool_decide (a_exp a = ∅)) eqn:He; bool_case; cbn [negb].
  - rewrite (scan_no_expiration b a) by done. do 2 f_equal.
    induction (SlotMap.keys (tbl K b)) as [|k l IH]; [done|]. rewrite !filter_cons.
    rewrite (Hv k) by by left. rewrite no_expirations, IH by (done || set_solver). done.
  - rewrite (scan_loop_spec b a) by done. do 2 f_equal. unfold unexpired.
    induction (SlotMap.keys (tbl K b)) as [|k l IH]; [done|]. rewrite !filter_cons.
    rewrite (Hv k) by by left. rewrite (object_is_expired_spec b a) by done.
    destruct (a_expired a k now_ms); simpl; [apply IH; set_solver|]. rewrite filter_cons.
    rewrite IH by set_solver. done.
Qed.

Lemma scan_keys_visit_spec b a now_ms co lim st :
  bucket_rep b a →
  scan_keys_visit visitor b now_ms None co lim st =
  Some (scan_list co lim (visible_keys b a now_ms) st).
Proof.
  intros Hb. unfold scan_keys_visit, visible_keys, all_keys. rewrite !filter_app.
  pose proof (λ K st, scan_key_iter_spec K b a now_ms co lim st Hb) as Hs.
  rewrite (Hs KHash). cbn [mbind option_bind]. rewrite !scan_list_app.
  change (tbl KHash b) with (hashes b).
  destruct (scan_list co lim _ st) as [st1 [o|]]; [done|].
  rewrite (Hs KList). cbn [mbind option_bind]. rewrite !scan_list_app.
  change (tbl KList b) with (lists b).
  destruct (scan_list co lim _ st1) as [st2 [o|]]; [done|].
  rewrite (Hs KSet). cbn [mbind option_bind]. rewrite !scan_list_app.
  change (tbl KSet b) with (sets b).
  destruct (scan_list co lim _ st2) as [st3 [o|]]; [done|]. apply (Hs KZSet).
Qed.

(** The page: past the cursor, at most [limit] keys are handed out. *)
Lemma scan_list_page co lim ks p v e s :
  (co ≤ p)%Z → (0 ≤ v < lim)%Z → (v + Z.of_nat (length ks) ≤ u64_MAX)%Z →
  let n := Z.to_nat (lim - v) in
  let r := scan_list co lim ks (mkScan p v e s) in
  sc_state r.1 = foldl (λ s k, (visitor s k).1) s (take n ks) ∧
  r.2 = if n <=? length ks then Some (p + Z.of_nat n)%Z else None.
Proof.
  revert p v e s. induction ks as [|k ks IH]; intros p v e s Hp Hv Hlen n r.
  { unfold r, n. simpl. rewrite take_nil. split; [done|].
    destruct (Z.to_nat (lim - v)) eqn:E; [lia|done]. }
  unfold r. cbn [scan_list]. unfold scan_step. simpl sc_position. simpl sc_visited.
  rewrite (proj2 (Z.ltb_ge p co)) by done. simpl sc_state.
  destruct (visitor s k) as [s' em] eqn:Ev.
  simpl length in Hlen. unfold saturating_inc. rewrite Z.min_l by lia.
  assert (n = Datatypes.S (Z.to_nat (lim - (v + 1)))) as Hn by lia.
  destruct (Z.leb_spec lim (v + 1)) as [Hl|Hl].
  - assert (n = 1) as -> by lia. simpl. by rewrite Ev.
  - cbn [sc_position sc_visited sc_emitted].
    match goal with |- context [scan_list co lim ks (mkScan ?p1 ?v1 ?e1 ?s1)] =>
      destruct (IH p1 v1 e1 s1) as [H1' H2] end; [lia|lia|lia|].
    rewrite H1', H2, Hn. cbn [take foldl length Nat.leb]. rewrite Ev. split; [done|].
    destruct (_ <=? _); [f_equal; lia|done].
Qed.

Lemma scan_list_skip co lim ks p e s :
  (0 ≤ p ≤ co)%Z →
  scan_list co lim ks (mkScan p 0 e s) =
  let n := Z.to_nat (co - p) in
  if length ks <=? n then (mkScan (p + Z.of_nat (length ks)) 0 e s, None)
  else scan_list co lim (drop n ks) (mkScan co 0 e s).
Proof.
  revert p. induction ks as [|k ks IH]; intros p Hp; cbn [scan_list].
  { simpl. do 2 f_equal. lia. }
  destruct (Z.to_nat (co - p)) as [|n] eqn:En.
  - assert (p = co) as -> by lia. done.
  - unfold scan_step at 1. simpl sc_position. rewrite (proj2 (Z.ltb_lt p co)) by lia.
    simpl sc_visited. simpl sc_emitted. simpl sc_state. rewrite IH by lia.
    replace (Z.to_nat (co - (p + 1))) with n by lia. cbn [length Nat.leb drop].
    case_match; [|done]. do 2 f_equal. lia.
Qed.

(** A scan from a cursor hands out exactly the next page of the listing, and
    answers the cursor after it while a full page was found. *)
Lemma scan_page co lim ks s :
  (0 ≤ co)%Z → (1 ≤ lim)%Z → (Z.of_nat (length ks) ≤ u64_MAX)%Z →
  let page := take (Z.to_nat lim) (drop (Z.to_nat co) ks) in
  let r := scan_list co lim ks (mkScan 0 0 0 s) in
  sc_state r.1 = foldl (λ s k, (visitor s k).1) s page ∧
  r.2 = if Z.to_nat lim <=? length page then Some (co + lim)%Z else None.
Proof.
  intros Hco Hlim Hlen page r. unfold r. rewrite scan_list_skip by lia. cbn zeta.
  rewrite Z.sub_0_r. unfold page.
  destruct (length ks <=? Z.to_nat co) eqn:E; bool_case; simpl.
  - rewrite drop_ge, take_nil by done. split; [done|]. simpl.
    destruct (Z.to_nat lim) eqn:E2; [lia|done].
  - destruct (scan_list_page co lim (drop (Z.to_nat co) ks) co 0 0 s) as [H1' H2].
    { lia. } { lia. } { rewrite length_drop. lia. }
    rewrite Z.sub_0_r in *. rewrite H1', H2. split; [done|]. rewrite length_take, length_drop.
    destruct (Z.to_nat lim <=? length ks - Z.to_nat co) eqn:E3; bool_case.
    + rewrite (proj2 (Nat.leb_le _ _)) by lia. f_equal. lia.
    + rewrite (proj2 (Nat.leb_gt _ _)) by lia. done.
Qed.
End VisitKeys.
End Keys.
