(* ===== verification/BucketList.v ===== *)
(** * List commands of a bucket ([redis_objects/bucket_list.rs])

    Each command, its abstract counterpart on the key space, and the theorem
    that the command never panics and commutes with it. *)

From S2P Require Import Prelude Deps Slab ListObject Helpers F64 Types HashSet ZSet Bucket.
From S2P Require Import BucketCore.

Section Lists.
Context `{Hashing} {HT : Type → Type} `{!HashTable HT} `{TableOrder}.
Context {OT : Type} `{!IndexTreeSet ZSetOrderKey zk_cmp OT}.
Abbreviation bucket := (RedisObjectBucket (HT := HT) (OT := OT)).
Implicit Types (b : bucket) (a : AState) (key : Bytes) (values : list Bytes) (front : bool).

Definition list_presence_hashed b (key_hash : Z) key : RedisObjectReadOutcome :=
  match bool_decide (is_Some (SlotMap.get_hashed (lists b) key_hash key)),
        has_non_list_hashed b key_hash key with
  | true, _ => Written
  | false, true => ReadWrongType
  | false, false => Missing
  end.

Definition push_list_existing_or_wrongtype_hashed b (key_hash : Z) key values front
    : option (RedisObjectWriteAttempt * bucket) :=
  if bool_decide (values = []) then Some (Complete (Integer 0), b)
  else match SlotMap.get_hashed (lists b) key_hash key with
       | Some slot =>
           with_slot KList b slot (λ list,
             list' ← ListObject.push_values list values front;
             Some (Complete (Integer (usize_as_i64 (ListObject.len list'))), list'))
       | None => Some (if has_non_list b key then Complete WrongType else WriteMissing, b)
       end.

Definition push_list_new_unchecked_hashed b (key_hash : Z) key values front
    : option (RedisObjectResult * bucket) :=
  list ← ListObject.from_values values front;
  b' ← insert_object KList b key_hash key list;
  Some (Integer (usize_as_i64 (length values)), b').

Definition push_list_existing_hashed b (key_hash : Z) key values front
    : option ((RedisObjectResult * bool) * bucket) :=
  if bool_decide (values = []) then Some ((Integer 0, false), b)
  else match SlotMap.get_hashed (lists b) key_hash key with
       | Some slot =>
           with_slot KList b slot (λ list,
             list' ← ListObject.push_values list values front;
             Some ((Integer (usize_as_i64 (ListObject.len list')), false), list'))
       | None =>
           Some (if has_non_list_hashed b key_hash key then (WrongType, false) else (Integer 0, false), b)
       end.

(** One pop at either end. *)
Definition pop_end front (list : ListObject.t) : option Bytes * ListObject.t :=
  if front then ListObject.pop_front list else ListObject.pop_back list.

Definition pop_list b key front : option ((RedisObjectResult * bool) * bucket) :=
  modify_object KList b key
    (λ list, let '(value, list') := pop_end front list in Some (Bulk value, list'))
    WrongType (Bulk None).

(** The loop [for _ in 0..count], with its early [break]. *)
Fixpoint pop_loop (count : nat) front (lst : ListObject.t) (acc : list (option Bytes))
    : list (option Bytes) * ListObject.t :=
  match count with
  | O => (acc, lst)
  | S count' =>
      match pop_end front lst with
      | (None, lst') => (acc, lst')
      | (Some value, lst') => pop_loop count' front lst' (acc ++ [Some value])
      end
  end.

Definition pop_list_count b key (count : nat) front
    : option ((RedisObjectResult * bool) * bucket) :=
  if count =? 0 then Some ((Array [], false), b)
  else modify_object KList b key
         (λ list, let '(vs, list') := pop_loop count front list [] in Some (Array vs, list'))
         WrongType (Bulk None).

Definition llen b key : option RedisObjectResult :=
  read_object KList b key (λ list, Some (Integer (usize_as_i64 (ListObject.len list))))
    WrongType (Integer 0).

(** Visiting readers answer an outcome and the values written. *)
Definition llen_visit b key : option (RedisObjectReadOutcome * option Z) :=
  read_object KList b key (λ list, Some (Written, Some (usize_as_i64 (ListObject.len list))))
    (ReadWrongType, None) (Missing, None).

Definition lindex b key (index : Z) : option RedisObjectResult :=
  read_object KList b key (λ list,
    match normalize_index index (ListObject.len list) with
    | None => Some (Bulk None)
    | Some index => Some (Bulk (ListObject.get list index))
    end) WrongType (Bulk None).

Definition lindex_visit b key (index : Z) : option (RedisObjectReadOutcome * option (option Bytes)) :=
  read_object KList b key (λ list,
    let value := index ← normalize_index index (ListObject.len list); ListObject.get list index in
    Some (Written, Some value)) (ReadWrongType, None) (Missing, None).

Definition lrange b key (start stop : Z) : option RedisObjectResult :=
  read_object KList b key (λ list,
    match normalize_range start stop (ListObject.len list) with
    | None => Some (Array [])
    | Some (start, stop) =>
        Some (Array (Some <$> take (stop - start + 1) (drop start (ListObject.iter list))))
    end) WrongType (Array []).

Definition lrange_visit b key (start stop : Z)
    : option (RedisObjectReadOutcome * list RedisObjectArrayItem) :=
  read_object KList b key (λ list,
    match normalize_range start stop (ListObject.len list) with
    | None => Some (Written, [Begin 0])
    | Some (start, stop) =>
        let count := stop - start + 1 in
        Some (Written, Begin count ::
                ((λ v, Item (Some v)) <$> take count (drop start (ListObject.iter list))))
    end) (ReadWrongType, []) (Missing, []).

Definition lset b key (index : Z) (value : Bytes) : option ((RedisObjectResult * bool) * bucket) :=
  match SlotMap.get (lists b) key with
  | Some slot =>
      with_slot KList b slot (λ list,
        match normalize_index index (ListObject.len list) with
        | None => Some ((Simple "ERR index out of range", false), list)
        | Some index => Some ((Simple "OK", false), ListObject.set list index value)
        end)
  | None => Some (if has_non_list b key then (WrongType, false) else (Simple "ERR no such key", false), b)
  end.

(** The two loops of [lrem]. *)
Definition item_is (list : ListObject.t) (index : nat) (value : Bytes) : bool :=
  match ListObject.get list index with Some item => bytes_eqb item value | None => false end.

Fixpoint lrem_forward (fuel : nat) (list : ListObject.t) (index : nat) (removed : nat) (limit : Z)
    (value : Bytes) : option (nat * ListObject.t) :=
  match fuel with
  | O => None
  | S fuel' =>
      if (index <? ListObject.len list) && (Z.of_nat removed <? limit)%Z then
        if item_is list index value then
          '(_, list') ← ListObject.remove list index;
          lrem_forward fuel' list' index (removed + 1) limit value
        else lrem_forward fuel' list (index + 1) removed limit value
      else Some (removed, list)
  end.

Fixpoint lrem_backward (index : nat) (list : ListObject.t) (removed : nat) (limit : Z)
    (value : Bytes) : option (nat * ListObject.t) :=
  match index with
  | O => Some (removed, list)
  | S index' =>
      if (Z.of_nat removed <? limit)%Z then
        if item_is list index' value then
          '(_, list') ← ListObject.remove list index';
          lrem_backward index' list' (removed + 1) limit value
        else lrem_backward index' list removed limit value
      else Some (removed, list)
  end.

Definition lrem b key (count : Z) (value : Bytes) : option ((RedisObjectResult * bool) * bucket) :=
  modify_object KList b key (λ list,
    '(removed, list') ←
      (if (0 <=? count)%Z then
         let limit := if (count =? 0)%Z then u64_MAX else count in
         lrem_forward (S (ListObject.len list)) list 0 0 limit value
       else
         let limit := Z.abs count in
         lrem_backward (ListObject.len list) list 0 limit value);
    Some (Integer (usize_as_i64 removed), list')) WrongType (Integer 0).

(** [for _ in 0..start { list.pop_front(); }] *)
Fixpoint drop_front (n : nat) (list : ListObject.t) : ListObject.t :=
  match n with O => list | S n' => drop_front n' (ListObject.pop_front list).2 end.

(** [while list.len() > keep { list.pop_back(); }] *)
Fixpoint drop_back (fuel : nat) (keep : nat) (list : ListObject.t) : option ListObject.t :=
  match fuel with
  | O => None
  | S fuel' =>
      if keep <? ListObject.len list then drop_back fuel' keep (ListObject.pop_back list).2
      else Some list
  end.

Definition ltrim b key (start stop : Z) : option ((RedisObjectResult * bool) * bucket) :=
  modify_object KList b key (λ list,
    match normalize_range start stop (ListObject.len list) with
    | None => Some (Simple "OK", ListObject.clear list)
    | Some (start, stop) =>
        let keep := stop - start + 1 in
        let list := drop_front start list in
        list ← drop_back (S (ListObject.len list)) keep list;
        Some (Simple "OK", list)
    end) WrongType (Simple "OK").

Definition linsert b key (before : bool) (pivot value : Bytes)
    : option ((RedisObjectResult * bool) * bucket) :=
  match SlotMap.get (lists b) key with
  | Some slot =>
      with_slot KList b slot (λ list,
        match position (λ item, bytes_eqb item pivot) (ListObject.iter list) with
        | None => Some ((Integer (-1), false), list)
        | Some index =>
            let index := if before then index else index + 1 in
            list' ← ListObject.insert list index value;
            Some ((Integer (usize_as_i64 (ListObject.len list')), false), list')
        end)
  | None => Some (if has_non_list b key then (WrongType, false) else (Integer 0, false), b)
  end.

(** [lpos_scan]: the [collect] closure threads [skip] and [results] and says
    whether to stop. *)
Definition collect (wanted : option Z) (position : Z) (skip : Z) (results : list Z)
    : bool * (Z * list Z) :=
  if (0 <? skip)%Z then (false, (skip - 1, results)%Z)
  else
    let results := results ++ [position] in
    (match wanted with
     | None => true
     | Some 0%Z => false
     | Some limit => (limit <=? Z.of_nat (length results))%Z
     end, (skip, results)).

Fixpoint lpos_forward (wanted : option Z) (element : Bytes) (compare_limit : Z) (index : nat)
    (items : list Bytes) (skip : Z) (results : list Z) : list Z :=
  match items with
  | [] => results
  | item :: items' =>
      if (negb (compare_limit =? 0) && (compare_limit <=? Z.of_nat index))%Z then results
      else if bytes_eqb item element then
        let '(stop, (skip, results)) := collect wanted (usize_as_i64 index) skip results in
        if stop : bool then results
        else lpos_forward wanted element compare_limit (index + 1) items' skip results
      else lpos_forward wanted element compare_limit (index + 1) items' skip results
  end.

Fixpoint lpos_matched (element : Bytes) (window_start : nat) (index : nat) (items : list Bytes)
    : list Z :=
  match items with
  | [] => []
  | item :: items' =>
      let rest := lpos_matched element window_start (index + 1) items' in
      if (window_start <=? index) && bytes_eqb item element
      then usize_as_i64 index :: rest else rest
  end.

Fixpoint lpos_backward (wanted : option Z) (matched : list Z) (skip : Z) (results : list Z)
    : list Z :=
  match matched with
  | [] => results
  | position :: matched' =>
      let '(stop, (skip, results)) := collect wanted position skip results in
      if stop : bool then results else lpos_backward wanted matched' skip results
  end.

Definition lpos_scan (lst : ListObject.t) (element : Bytes) (rank : Z) (count : option Z)
    (maxlen : Z) : list Z :=
  let len := ListObject.len lst in
  if len =? 0 then []
  else
    let skip := wrap_u64 (Z.abs rank - 1) in
    let wanted := wrap_u64 <$> count in
    let compare_limit := wrap_u64 maxlen in
    if (0 <? rank)%Z then
      lpos_forward wanted element compare_limit 0 (ListObject.iter lst) skip []
    else
      let window_start :=
        if (compare_limit =? 0)%Z then 0 else Z.to_nat (Z.of_nat len - compare_limit) in
      let matched := lpos_matched element window_start 0 (ListObject.iter lst) in
      lpos_backward wanted (rev matched) skip [].

Definition lpos_visit b key (element : Bytes) (rank : Z) (count : option Z) (maxlen : Z)
    : option (RedisObjectReadOutcome * option (list Z)) :=
  read_object KList b key (λ list, Some (Written, Some (lpos_scan list element rank count maxlen)))
    (ReadWrongType, None) (Missing, None).


(** ** Abstract counterparts *)

Definition a_pop front (l : list Bytes) : option Bytes * list Bytes :=
  if front then (head l, tail l) else (last l, take (length l - 1) l).

Definition a_pop_count front (n : nat) (l : list Bytes) : list Bytes * list Bytes :=
  if front then (take n l, drop n l) else (take n (rev l), take (length l - n) l).

(** Removing up to [limit] occurrences, from the head. *)
Fixpoint rem_upto (limit : Z) (value : Bytes) (l : list Bytes) : nat * list Bytes :=
  match l with
  | [] => (0, [])
  | x :: l' =>
      if (limit <=? 0)%Z then (0, l)
      else if bytes_eqb x value then
        let '(n, r) := rem_upto (limit - 1) value l' in (S n, r)
      else let '(n, r) := rem_upto limit value l' in (n, x :: r)
  end.

Definition a_lrem (count : Z) (value : Bytes) (l : list Bytes) : nat * list Bytes :=
  if (0 <=? count)%Z then rem_upto (if (count =? 0)%Z then u64_MAX else count) value l
  else let '(n, r) := rem_upto (Z.abs count) value (rev l) in (n, rev r).

Definition a_linsert (before : bool) (pivot value : Bytes) (l : list Bytes) : Z * list Bytes :=
  match position (λ item, bytes_eqb item pivot) l with
  | None => ((-1)%Z, l)
  | Some i =>
      let i := if before then i else i + 1 in
      (usize_as_i64 (S (length l)), take i l ++ value :: drop i l)
  end.

(** The element an index denotes. *)
Definition a_lindex (l : list Bytes) (index : Z) : option Bytes :=
  let i := resolve (length l) index in
  if (0 <=? i)%Z then l !! Z.to_nat i else None.

Definition a_lset (l : list Bytes) (index : Z) (value : Bytes) : option (list Bytes) :=
  let i := resolve (length l) index in
  if ((0 <=? i) && (i <? Z.of_nat (length l)))%Z then Some (<[Z.to_nat i := value]> l) else None.

(** Positions of an element, ascending, and the answer [LPOS] selects among
    them: skip [|rank| - 1] matches from the scanning side, keep at most
    [count] ([None]: one, [0]: all), comparing at most [maxlen] elements. *)
Fixpoint matches (element : Bytes) (index : nat) (l : list Bytes) : list Z :=
  match l with
  | [] => []
  | x :: l' =>
      if bytes_eqb x element then Z.of_nat index :: matches element (index + 1) l'
      else matches element (index + 1) l'
  end.

Definition select (skip : Z) (wanted : option Z) (ms : list Z) : list Z :=
  let ms := drop (Z.to_nat skip) ms in
  match wanted with
  | None => take 1 ms
  | Some 0%Z => ms
  | Some n => take (Z.to_nat n) ms
  end.

Definition a_lpos (l : list Bytes) (element : Bytes) (rank : Z) (count : option Z) (maxlen : Z)
    : list Z :=
  let window := if (maxlen =? 0)%Z then length l else Z.to_nat maxlen in
  if (0 <? rank)%Z
  then select (rank - 1) count (matches element 0 (take window l))
  else select (Z.abs rank - 1) count
         (rev (matches element (length l - window) (drop (length l - window) l))).

(** ** Lemmas on list objects *)

Lemma list_get_last (l : list Bytes) :
  l = [] ∨ ∃ l' x, l = l' ++ [x] ∧ last l = Some x ∧ take (length l - 1) l = l'.
Proof.
  destruct l as [|x l' _] using rev_ind; [by left|]. right. exists l', x.
  rewrite last_snoc, length_app. simpl. split; [done|]. split; [done|].
  rewrite take_app_length'; [done|lia].
Qed.

Lemma pop_end_rep front x l :
  ListObject.rep x l →
  ∃ x', pop_end front x = ((a_pop front l).1, x') ∧ ListObject.rep x' (a_pop front l).2.
Proof.
  intros Hx. unfold pop_end, a_pop. destruct front; simpl.
  - destruct l as [|v l]; [by apply ListObject.list_pop_front_nil|by apply ListObject.list_pop_front_rep].
  - destruct (list_get_last l) as [->|(l' & v & -> & -> & ->)].
    + by apply ListObject.list_pop_back_nil.
    + by apply ListObject.list_pop_back_rep.
Qed.

Lemma pop_loop_rep n front x l acc :
  ListObject.rep x l →
  ∃ x', pop_loop n front x acc = (acc ++ (Some <$> (a_pop_count front n l).1), x') ∧
        ListObject.rep x' (a_pop_count front n l).2.
Proof.
  revert x l acc. induction n as [|n IH]; intros x l acc Hx; simpl.
  { exists x. unfold a_pop_count. destruct front; simpl.
    - by rewrite app_nil_r.
    - rewrite Nat.sub_0_r, take_ge by lia. by rewrite app_nil_r. }
  destruct (pop_end_rep front x l Hx) as (x1 & -> & Hx1).
  unfold a_pop in *. destruct front; simpl in *.
  - destruct l as [|v l]; simpl in *; [exists x1; by rewrite app_nil_r|].
    destruct (IH x1 l (acc ++ [Some v]) Hx1) as (x' & -> & Hx'). exists x'.
    unfold a_pop_count in *. simpl in *. by rewrite <-app_assoc.
  - destruct (list_get_last l) as [->|(l' & v & El & E1 & E2)]; simpl in *.
    { exists x1. by rewrite app_nil_r. }
    rewrite E1, E2 in *. destruct (IH x1 l' (acc ++ [Some v]) Hx1) as (x' & -> & Hx'). exists x'.
    unfold a_pop_count in *. simpl in *. subst l. rewrite rev_app_distr. simpl.
    rewrite <-app_assoc. split; [done|]. rewrite length_app. simpl.
    by rewrite take_app_le by lia; replace (length l' + 1 - S n) with (length l' - n) by lia.
Qed.

Lemma lrem_forward_rep fuel x vs i r limit value :
  ListObject.rep x vs → i ≤ length vs → length vs - i < fuel →
  ∃ x', lrem_forward fuel x i r limit value =
          Some (r + (rem_upto (limit - Z.of_nat r) value (drop i vs)).1, x') ∧
        ListObject.rep x' (take i vs ++ (rem_upto (limit - Z.of_nat r) value (drop i vs)).2).
Proof.
  revert x vs i r. induction fuel as [|fuel IH]; intros x vs i r Hx Hi Hf; [lia|].
  cbn [lrem_forward]. rewrite (ListObject.len_rep _ _ Hx).
  destruct (decide (i < length vs)) as [Hlt|].
  2: { rewrite (proj2 (Nat.ltb_ge i (length vs))) by lia. rewrite drop_ge, take_ge by lia. simpl.
       exists x. rewrite app_nil_r. split; [do 2 f_equal; lia|done]. }
  rewrite (proj2 (Nat.ltb_lt i (length vs))) by done. cbn [andb].
  destruct (lookup_lt_is_Some_2 vs i Hlt) as [v Hv].
  rewrite (drop_S _ _ _ Hv). cbn [rem_upto].
  destruct (Z.ltb_spec (Z.of_nat r) limit) as [Hl|Hl].
  2: { rewrite (proj2 (Z.leb_le _ _)) by lia. simpl. exists x.
       rewrite <-(drop_S _ _ _ Hv), take_drop. split; [do 2 f_equal; lia|done]. }
  rewrite (proj2 (Z.leb_gt _ _)) by lia. unfold item_is.
  rewrite (ListObject.list_get_rep _ _ i Hx), Hv. destruct (bytes_eqb v value) eqn:Ev.
  - destruct (ListObject.list_remove_rep _ _ _ _ Hx Hv) as (x1 & -> & Hx1). simpl.
    assert (length (delete i vs) = length vs - 1) as Hdl by (rewrite length_delete; [done|eauto]).
    destruct (IH x1 (delete i vs) i (r + 1) Hx1) as (x' & -> & Hx'); [lia|lia|].
    assert (drop i (delete i vs) = drop (S i) vs ∧ take i (delete i vs) = take i vs) as [E1 E2].
    { rewrite delete_take_drop. rewrite drop_app_length', take_app_length'; [done|..];
        rewrite length_take; lia. }
    rewrite E1, E2 in *. replace (limit - Z.of_nat (r + 1))%Z with (limit - Z.of_nat r - 1)%Z in * by lia.
    destruct (rem_upto _ _ _) as [n l']. simpl in *. exists x'. split; [do 2 f_equal; lia|done].
  - destruct (IH x vs (i + 1) r Hx) as (x' & -> & Hx'); [lia|lia|].
    rewrite Nat.add_1_r in *. rewrite (take_S_r _ _ _ Hv) in Hx'.
    destruct (rem_upto _ _ _) as [n l']. simpl in *. exists x'.
    split; [done|]. by rewrite <-app_assoc in Hx'.
Qed.

Lemma lrem_backward_rep i x vs ws r limit value :
  ListObject.rep x (vs ++ ws) → length vs = i →
  ∃ x', lrem_backward i x r limit value =
          Some (r + (rem_upto (limit - Z.of_nat r) value (rev vs)).1, x') ∧
        ListObject.rep x' (rev (rem_upto (limit - Z.of_nat r) value (rev vs)).2 ++ ws).
Proof.
  revert x vs ws r. induction i as [|i IH]; intros x vs ws r Hx Hi; cbn [lrem_backward].
  { apply nil_length_inv in Hi as ->. simpl. exists x. split; [do 2 f_equal; lia|done]. }
  destruct vs as [|v vs _] using rev_ind; [done|]. rewrite length_app in Hi. simpl in Hi.
  rewrite rev_app_distr. cbn [rev app rem_upto].
  destruct (Z.ltb_spec (Z.of_nat r) limit) as [Hl|Hl].
  2: { rewrite (proj2 (Z.leb_le _ _)) by lia. simpl. exists x. rewrite rev_involutive.
       split; [do 2 f_equal; lia|done]. }
  rewrite (proj2 (Z.leb_gt _ _)) by lia. unfold item_is.
  assert (((vs ++ [v]) ++ ws) !! i = Some v) as Hv.
  { rewrite <-app_assoc, lookup_app_r by lia. by replace (i - length vs) with 0 by lia. }
  rewrite (ListObject.list_get_rep _ _ i Hx), Hv. destruct (bytes_eqb v value) eqn:Ev.
  - destruct (ListObject.list_remove_rep _ _ _ _ Hx Hv) as (x1 & -> & Hx1). simpl.
    assert (delete i ((vs ++ [v]) ++ ws) = vs ++ ws) as Ed.
    { rewrite delete_take_drop, <-app_assoc. rewrite take_app_length' by lia.
      rewrite (drop_app_ge vs) by lia. by replace (S i - length vs) with 1 by lia. }
    rewrite Ed in Hx1. destruct (IH x1 vs ws (r + 1) Hx1) as (x' & -> & Hx'); [lia|].
    replace (limit - Z.of_nat (r + 1))%Z with (limit - Z.of_nat r - 1)%Z in * by lia.
    destruct (rem_upto _ _ _) as [n l']. simpl in *. exists x'. split; [do 2 f_equal; lia|done].
  - rewrite <-app_assoc in Hx. destruct (IH x vs ([v] ++ ws) r Hx) as (x' & -> & Hx'); [lia|].
    destruct (rem_upto _ _ _) as [n l']. simpl in *. exists x'. split; [done|].
    by rewrite <-app_assoc.
Qed.

Lemma drop_front_rep n x l : ListObject.rep x l → ListObject.rep (drop_front n x) (drop n l).
Proof.
  revert x l. induction n as [|n IH]; intros x l Hx; simpl; [done|]. destruct l as [|v l].
  - destruct (ListObject.list_pop_front_nil x Hx) as (x' & -> & Hx'). simpl.
    rewrite <-(drop_nil n). by apply IH.
  - destruct (ListObject.list_pop_front_rep x v l Hx) as (x' & -> & Hx'). simpl. by apply IH.
Qed.

Lemma drop_back_rep fuel keep x l :
  ListObject.rep x l → length l < fuel →
  ∃ x', drop_back fuel keep x = Some x' ∧ ListObject.rep x' (take keep l).
Proof.
  revert x l. induction fuel as [|fuel IH]; intros x l Hx Hf; [lia|]. simpl.
  rewrite (ListObject.len_rep _ _ Hx). destruct (Nat.ltb_spec keep (length l)).
  - destruct l as [|v l _] using rev_ind; simpl in *; [lia|]. rewrite length_app in *. simpl in *.
    destruct (ListObject.list_pop_back_rep x l v Hx) as (x1 & -> & Hx1). simpl.
    destruct (IH x1 l Hx1) as (x' & -> & Hx'); [lia|]. exists x'. split; [done|].
    by rewrite take_app_le by lia.
  - exists x. split; [done|]. by rewrite take_ge.
Qed.

(** *** [lpos_scan] *)

Lemma matches_app element i l1 l2 :
  matches element i (l1 ++ l2) = matches element i l1 ++ matches element (i + length l1) l2.
Proof.
  revert i. induction l1 as [|x l1 IH]; intros i; simpl.
  - by rewrite Nat.add_0_r.
  - rewrite !IH. replace (i + 1 + length l1) with (i + S (length l1)) by lia.
    by destruct (bytes_eqb x element).
Qed.

(** Feeding matches to [collect] until it stops. *)
Lemma lpos_backward_spec wanted ms skip results :
  (0 ≤ skip)%Z → (∀ n, wanted = Some n → 0 ≤ n)%Z →
  (∀ n, wanted = Some n → n = 0 ∨ Z.of_nat (length results) < n)%Z →
  lpos_backward wanted ms skip results =
  results ++ select skip (match wanted with
                          | Some n => Some (if (n =? 0)%Z then 0%Z
                                            else (n - Z.of_nat (length results))%Z)
                          | None => None end) ms.
Proof.
  intros Hs Hw Hr. revert skip results Hs Hr. induction ms as [|m ms IH]; intros skip results Hs Hr; simpl.
  { unfold select. rewrite drop_nil. destruct wanted as [n|]; [|by rewrite app_nil_r].
    destruct (n =? 0)%Z; rewrite ?app_nil_r; [done|]. by destruct (n - _)%Z; rewrite ?take_nil, app_nil_r. }
  unfold collect. destruct (Z.ltb_spec 0 skip) as [Hsk|Hsk].
  { rewrite IH by (done || lia). unfold select.
    replace (Z.to_nat skip) with (S (Z.to_nat (skip - 1))) by lia. done. }
  assert (skip = 0)%Z as -> by lia. unfold select. cbn [Z.to_nat drop].
  destruct wanted as [n|]; [|done].
  specialize (Hw n eq_refl). specialize (Hr n eq_refl).
  destruct (Z.eqb_spec n 0) as [->|Hn].
  { cbn iota. rewrite IH by (intros; lia || (left; congruence)). unfold select. simpl.
    by rewrite <-app_assoc. }
  destruct n as [|n|n]; [done| |lia]. cbn iota. rewrite length_app. simpl length.
  set (nz := Z.pos n) in *.
  destruct (Z.leb_spec nz (Z.of_nat (length results + 1))) as [Hle|Hle].
  - replace (nz - Z.of_nat (length results))%Z with 1%Z by lia. simpl. by rewrite take_0.
  - rewrite IH; [|lia|]. 2: { intros ? [= <-]. rewrite length_app. simpl. right. lia. }
    rewrite <-app_assoc. f_equal. unfold select. rewrite length_app. simpl length.
    change (Z.to_nat 0) with 0. cbn [drop].
    destruct (nz - Z.of_nat (length results + 1))%Z eqn:E1; [lia| |lia].
    destruct (nz - Z.of_nat (length results))%Z eqn:E2; [lia| |lia].
    by replace (Z.to_nat (Z.pos p0)) with (S (Z.to_nat (Z.pos p))) by lia.
Qed.

Lemma lpos_forward_spec wanted element lim i l skip results :
  (∀ j, j < i + length l → fits j) → (0 ≤ lim)%Z →
  lpos_forward wanted element lim i l skip results =
  lpos_backward wanted
    (matches element i (if (lim =? 0)%Z then l else take (Z.to_nat (lim - Z.of_nat i)) l))
    skip results.
Proof.
  intros Hfit Hlim. revert i skip results Hfit.
  induction l as [|x l IH]; intros i skip results Hfit; cbn [lpos_forward].
  { by destruct (lim =? 0)%Z; rewrite ?take_nil. }
  assert (usize_as_i64 i = Z.of_nat i) as Hi by (apply usize_as_i64_id, Hfit; simpl; lia).
  assert (∀ skip results, lpos_forward wanted element lim (i + 1) l skip results =
    lpos_backward wanted (matches element (i + 1)
      (if (lim =? 0)%Z then l else take (Z.to_nat (lim - Z.of_nat (i + 1))) l)) skip results) as IH'.
  { intros sk rs. apply IH. intros j Hj. apply Hfit. simpl. lia. }
  destruct (Z.eqb_spec lim 0) as [->|Hl]; cbn [negb andb].
  - cbn [matches]. destruct (bytes_eqb x element); [|by rewrite IH'].
    cbn [lpos_backward]. rewrite Hi. destruct (collect _ _ _ _) as [[] [sk rs]]; [done|].
    by rewrite IH'.
  - destruct (Z.leb_spec lim (Z.of_nat i)) as [Hle|Hle].
    { by replace (Z.to_nat (lim - Z.of_nat i)) with 0 by lia. }
    replace (Z.to_nat (lim - Z.of_nat i)) with (S (Z.to_nat (lim - Z.of_nat (i + 1)))) by lia.
    cbn [take matches]. destruct (bytes_eqb x element); [|by rewrite IH'].
    cbn [lpos_backward]. rewrite Hi. destruct (collect _ _ _ _) as [[] [sk rs]]; [done|].
    by rewrite IH'.
Qed.

Lemma lpos_matched_spec element w i l :
  (∀ j, j < i + length l → fits j) →
  lpos_matched element w i l = matches element (i + (w - i)) (drop (w - i) l).
Proof.
  revert i. induction l as [|x l IH]; intros i Hfit; cbn [lpos_matched].
  { by rewrite drop_nil. }
  rewrite IH by (intros j Hj; apply Hfit; simpl; lia).
  destruct (Nat.leb_spec w i) as [Hw|Hw]; cbn [andb].
  - replace (w - i) with 0 by lia. replace (w - (i + 1)) with 0 by lia. cbn [drop matches].
    rewrite !Nat.add_0_r. rewrite usize_as_i64_id by (apply Hfit; simpl; lia). done.
  - replace (w - i) with (S (w - (i + 1))) by lia. cbn [drop]. f_equal. lia.
Qed.

(** [LPOS] on a list object answers the positions the command asks for. *)
Lemma lpos_scan_spec x l element rank count maxlen :
  ListObject.rep x l → fits (length l) → is_i64 rank → rank ≠ 0%Z →
  (∀ n, count = Some n → 0 ≤ n ≤ i64_MAX)%Z → (0 ≤ maxlen ≤ i64_MAX)%Z →
  lpos_scan x element rank count maxlen = a_lpos l element rank count maxlen.
Proof.
  intros Hx Hfit Hrank Hr0 Hcount Hmax. unfold lpos_scan, a_lpos.
  rewrite (ListObject.len_rep _ _ Hx), (ListObject.list_iter_rep _ _ Hx).
  assert (∀ z, 0 ≤ z ≤ i64_MAX + 1 → wrap_u64 z = z)%Z as Hwrap.
  { intros z Hz. unfold wrap_u64. apply Z.mod_small. unfold i64_MAX, two64 in *. lia. }
  assert (wrap_u64 <$> count = count) as ->.
  { destruct count as [n|]; [|done]. simpl. f_equal. apply Hwrap. specialize (Hcount n eq_refl). lia. }
  rewrite !Hwrap by (unfold is_i64, i64_MIN, i64_MAX in *; lia).
  assert (∀ skip ms, (0 ≤ skip)%Z → lpos_backward count ms skip [] = select skip count ms) as Hsel.
  { intros skip ms Hs. rewrite lpos_backward_spec; [|done|intros n E; apply (Hcount n E)|].
    - simpl. unfold select. destruct count as [n|]; [|done]. rewrite Z.sub_0_r.
      by destruct (Z.eqb_spec n 0) as [->|].
    - intros n E. simpl. specialize (Hcount n E). lia. }
  assert (∀ j, j < 0 + length l → fits j) as Hfits by (unfold fits in *; intros; lia).
  destruct (Nat.eqb_spec (length l) 0) as [Hl|Hl].
  { apply nil_length_inv in Hl as ->. unfold select. simpl. rewrite take_nil, drop_nil. simpl.
    rewrite !drop_nil. by destruct (0 <? rank)%Z, count as [[]|]; rewrite ?take_nil. }
  destruct (Z.ltb_spec 0 rank).
  - rewrite lpos_forward_spec by (done || lia). rewrite Hsel by lia.
    replace (Z.abs rank) with rank by lia. rewrite Z.sub_0_r.
    destruct (Z.eqb_spec maxlen 0); [|done]. by rewrite take_ge by lia.
  - rewrite Hsel by lia. do 2 f_equal. rewrite lpos_matched_spec by done. rewrite Nat.sub_0_r.
    destruct (Z.eqb_spec maxlen 0) as [->|].
    + rewrite Nat.sub_diag. done.
    + replace (Z.to_nat (Z.of_nat (length l) - maxlen)) with (length l - Z.to_nat maxlen) by lia.
      done.
Qed.

(** ** The commands on the key space *)

(** Lists fit: the length of a stored list is an [i64]. *)
Definition list_fits a key : Prop := ∀ l, a_get KList a key = Some l → fits (length l).

Inductive ListWrite :=
  | WPushExisting (values : list Bytes) (front : bool)
  | WPop (front : bool)
  | WPopCount (count : nat) (front : bool)
  | WSet (index : Z) (value : Bytes)
  | WRem (count : Z) (value : Bytes)
  | WTrim (start stop : Z)
  | WInsert (before : bool) (pivot value : Bytes).

Definition run_list_write b key (w : ListWrite) : option ((RedisObjectResult * bool) * bucket) :=
  match w with
  | WPushExisting values front => push_list_existing_hashed b (hash_key key) key values front
  | WPop front => pop_list b key front
  | WPopCount count front => pop_list_count b key count front
  | WSet index value => lset b key index value
  | WRem count value => lrem b key count value
  | WTrim start stop => ltrim b key start stop
  | WInsert before pivot value => linsert b key before pivot value
  end.

(** Index arguments are [i64]; a push must leave the list addressable. *)
Definition list_write_ok a key (w : ListWrite) : Prop :=
  list_fits a key ∧
  match w with
  | WSet index _ => is_i64 index
  | WTrim start stop => is_i64 start ∧ is_i64 stop
  | _ => True
  end.

Definition a_list_write a key (w : ListWrite) : (RedisObjectResult * bool) * AState :=
  match w with
  | WPushExisting values front =>
      if bool_decide (values = []) then ((Integer 0, false), a)
      else a_update KList a key
             (λ l, ((Integer (usize_as_i64 (length l + length values)), false),
                    ListObject.pushed front values l))
             (WrongType, false) (Integer 0, false)
  | WPop front =>
      a_modify KList a key (λ l, (Bulk (a_pop front l).1, (a_pop front l).2)) WrongType (Bulk None)
  | WPopCount count front =>
      if count =? 0 then ((Array [], false), a)
      else a_modify KList a key
             (λ l, (Array (Some <$> (a_pop_count front count l).1), (a_pop_count front count l).2))
             WrongType (Bulk None)
  | WSet index value =>
      a_update KList a key
        (λ l, match a_lset l index value with
              | Some l' => ((Simple "OK", false), l')
              | None => ((Simple "ERR index out of range", false), l)
              end)
        (WrongType, false) (Simple "ERR no such key", false)
  | WRem count value =>
      a_modify KList a key
        (λ l, (Integer (usize_as_i64 (a_lrem count value l).1), (a_lrem count value l).2))
        WrongType (Integer 0)
  | WTrim start stop =>
      a_modify KList a key (λ l, (Simple "OK", redis_slice start stop l)) WrongType (Simple "OK")
  | WInsert before pivot value =>
      a_update KList a key
        (λ l, ((Integer (a_linsert before pivot value l).1, false), (a_linsert before pivot value l).2))
        (WrongType, false) (Integer 0, false)
  end.

Lemma lset_value x l index value :
  ListObject.rep x l → fits (length l) → is_i64 index →
  match normalize_index index (ListObject.len x) with
  | Some i => ∃ l', a_lset l index value = Some l' ∧ ListObject.rep (ListObject.set x i value) l'
  | None => a_lset l index value = None
  end.
Proof.
  intros Hx Hf Hi. rewrite (ListObject.len_rep _ _ Hx). unfold a_lset.
  destruct (normalize_index index (length l)) as [i|] eqn:E.
  - apply normalize_index_Some in E as [Hlt Hr]; [|done..]. rewrite <-Hr.
    rewrite (proj2 (Z.leb_le _ _)), (proj2 (Z.ltb_lt _ _)) by lia. simpl. rewrite Nat2Z.id.
    eexists. split; [done|]. by apply ListObject.list_set_rep.
  - apply normalize_index_None in E; [|done..]. case_match eqn:E2; [|done]. bool_case. lia.
Qed.

Lemma lrem_value x l count value :
  ListObject.rep x l →
  ∃ x', (if (0 <=? count)%Z
         then lrem_forward (S (ListObject.len x)) x 0 0 (if (count =? 0)%Z then u64_MAX else count) value
         else lrem_backward (ListObject.len x) x 0 (Z.abs count) value)
        = Some ((a_lrem count value l).1, x') ∧ ListObject.rep x' (a_lrem count value l).2.
Proof.
  intros Hx. rewrite (ListObject.len_rep _ _ Hx). unfold a_lrem. destruct (0 <=? count)%Z.
  - destruct (lrem_forward_rep (S (length l)) x l 0 0 (if (count =? 0)%Z then u64_MAX else count) value
                Hx) as (x' & -> & Hx'); [lia|lia|].
    rewrite Z.sub_0_r in *. exists x'. done.
  - rewrite <-(app_nil_r l) in Hx.
    destruct (lrem_backward_rep (length l) x l [] 0 (Z.abs count) value Hx eq_refl) as (x' & -> & Hx').
    rewrite Z.sub_0_r in *. rewrite app_nil_r in Hx'. exists x'.
    by destruct (rem_upto _ _ _).
Qed.

Lemma ltrim_value x l start stop :
  ListObject.rep x l → fits (length l) → is_i64 start → is_i64 stop →
  ∃ x', match normalize_range start stop (ListObject.len x) with
        | None => Some (Simple "OK", ListObject.clear x)
        | Some (start, stop) =>
            let keep := stop - start + 1 in
            let list := drop_front start x in
            list ← drop_back (S (ListObject.len list)) keep list;
            Some (Simple "OK", list)
        end = Some (Simple "OK", x') ∧ ListObject.rep x' (redis_slice start stop l).
Proof.
  intros Hx Hf H1 H2. rewrite (ListObject.len_rep _ _ Hx).
  destruct (normalize_range_cases start stop l Hf H1 H2) as [[-> ->]|(i & j & -> & Hij & -> & _)].
  - eexists. split; [done|]. apply ListObject.list_clear_rep.
  - cbn zeta. pose proof (drop_front_rep i x l Hx) as Hd. rewrite (ListObject.len_rep _ _ Hd).
    destruct (drop_back_rep (S (length (drop i l))) (j - i + 1) _ _ Hd) as (x' & -> & Hx'); [lia|].
    simpl. eauto.
Qed.

Lemma linsert_value x l before pivot value :
  ListObject.rep x l →
  ∃ x', match position (λ item, bytes_eqb item pivot) (ListObject.iter x) with
        | None => Some ((Integer (-1), false), x)
        | Some index =>
            let index := if before : bool then index else index + 1 in
            list' ← ListObject.insert x index value;
            Some ((Integer (usize_as_i64 (ListObject.len list')), false), list')
        end = Some ((Integer (a_linsert before pivot value l).1, false), x') ∧
        ListObject.rep x' (a_linsert before pivot value l).2.
Proof.
  intros Hx. rewrite (ListObject.list_iter_rep _ _ Hx). unfold a_linsert.
  destruct (position _ l) as [i|] eqn:Hp; [|by exists x].
  apply position_lt in Hp. cbn zeta. set (j := if before then i else i + 1).
  assert (j ≤ length l) as Hj by (unfold j; destruct before; lia).
  destruct (ListObject.list_insert_rep x l j value Hx Hj) as (x' & -> & Hx'). simpl.
  exists x'. split; [|done]. rewrite (ListObject.len_rep _ _ Hx'), length_app. simpl.
  rewrite length_take, length_drop.
  by replace (j `min` length l + S (length l - j)) with (S (length l)) by lia.
Qed.

(** Every list write runs, answers and stores what its abstract counterpart
    does. *)
Lemma list_write_refines b a key w :
  bucket_rep b a → list_write_ok a key w →
  ∃ b', run_list_write b key w = Some ((a_list_write a key w).1, b') ∧
        bucket_rep b' (a_list_write a key w).2.
Proof.
  intros Hb [Hfit Hok]. destruct w; simpl.
  - unfold push_list_existing_hashed. case_bool_decide; [by exists b|].
    apply (update_object_spec KList b a key); [done..|]. intros x l Hx _.
    destruct (ListObject.list_push_values_rep x l values front Hx) as (x' & -> & Hx').
    exists x'. split; [|done]. simpl. do 4 f_equal.
    by rewrite (ListObject.len_rep _ _ Hx'), ListObject.length_pushed.
  - apply modify_object_spec; [done..|]. intros x l Hx _.
    destruct (pop_end_rep front x l Hx) as (x' & -> & Hx'). eauto.
  - unfold pop_list_count. destruct (count =? 0); [by exists b|].
    apply modify_object_spec; [done..|]. intros x l Hx _.
    destruct (pop_loop_rep count front x l [] Hx) as (x' & -> & Hx'). eauto.
  - apply (update_object_spec KList b a key); [done..|]. intros x l Hx Hl.
    pose proof (lset_value x l index value Hx (Hfit l Hl) Hok) as Hv.
    destruct (normalize_index index (ListObject.len x)).
    + destruct Hv as (l' & -> & Hl'). eauto.
    + rewrite Hv. eauto.
  - apply modify_object_spec; [done..|]. intros x l Hx _.
    destruct (lrem_value x l count value Hx) as (x' & E & Hx').
    cbv zeta beta. rewrite E. simpl. eauto.
  - destruct Hok as [H1 H2]. apply modify_object_spec; [done..|]. intros x l Hx Hl.
    apply (ltrim_value x l start stop Hx (Hfit l Hl) H1 H2).
  - apply (update_object_spec KList b a key); [done..|]. intros x l Hx Hl.
    apply (linsert_value x l before pivot value Hx).
Qed.

(** *** Creating pushes *)

Definition a_push_attempt a key values front : RedisObjectWriteAttempt * AState :=
  if bool_decide (values = []) then (Complete (Integer 0), a)
  else a_update KList a key
         (λ l, (Complete (Integer (usize_as_i64 (length l + length values))),
                ListObject.pushed front values l))
         (Complete WrongType) WriteMissing.

Lemma push_attempt_refines b a key values front :
  bucket_rep b a →
  ∃ b', push_list_existing_or_wrongtype_hashed b (hash_key key) key values front =
          Some ((a_push_attempt a key values front).1, b') ∧
        bucket_rep b' (a_push_attempt a key values front).2.
Proof.
  intros Hb. unfold push_list_existing_or_wrongtype_hashed, a_push_attempt.
  case_bool_decide; [by exists b|].
  apply (update_object_spec KList b a key); [done..|]. intros x l Hx _.
  destruct (ListObject.list_push_values_rep x l values front Hx) as (x' & -> & Hx').
  exists x'. split; [|done]. simpl. do 3 f_equal.
  by rewrite (ListObject.len_rep _ _ Hx'), ListObject.length_pushed.
Qed.

Lemma push_new_refines b a key values front :
  bucket_rep b a → a_objs a !! key = None →
  ∃ b', push_list_new_unchecked_hashed b (hash_key key) key values front =
          Some (Integer (usize_as_i64 (length values)), b') ∧
        bucket_rep b' (a_put KList a key (ListObject.pushed front values [])).
Proof.
  intros Hb Hn. unfold push_list_new_unchecked_hashed.
  destruct (ListObject.from_values_rep values front) as (x & -> & Hx). simpl.
  destruct (create_object_spec KList b a key x _ Hb ltac:(done) Hn Hx) as (b' & -> & Hb').
  simpl. eauto.
Qed.

(** *** Reads *)

Lemma lindex_value x l index :
  ListObject.rep x l → fits (length l) → is_i64 index →
  (i ← normalize_index index (ListObject.len x); ListObject.get x i) = a_lindex l index.
Proof.
  intros Hx Hf Hi. rewrite (ListObject.len_rep _ _ Hx). unfold a_lindex.
  destruct (normalize_index index (length l)) as [i|] eqn:E; simpl.
  - apply normalize_index_Some in E as [Hlt Hr]; [|done..]. rewrite <-Hr.
    rewrite (proj2 (Z.leb_le _ _)), Nat2Z.id by lia. by apply ListObject.list_get_rep.
  - apply normalize_index_None in E; [|done..]. case_match; bool_case; [|done].
    symmetry. apply lookup_ge_None_2. lia.
Qed.

Section Reads.
Context b a key (Hb : bucket_rep b a) (Hfit : list_fits a key).

Lemma llen_spec :
  llen b key = Some (a_read KList a key (λ l, Integer (Z.of_nat (length l))) WrongType (Integer 0)).
Proof.
  apply read_object_spec; [apply Hb|]. intros x l Hx Hl.
  by rewrite (ListObject.len_rep _ _ Hx), usize_as_i64_id by by apply Hfit.
Qed.

Lemma llen_visit_spec :
  llen_visit b key = Some (a_read KList a key (λ l, (Written, Some (Z.of_nat (length l))))
                             (ReadWrongType, None) (Missing, None)).
Proof.
  apply read_object_spec; [apply Hb|]. intros x l Hx Hl.
  by rewrite (ListObject.len_rep _ _ Hx), usize_as_i64_id by by apply Hfit.
Qed.

Lemma lindex_spec index :
  is_i64 index →
  lindex b key index = Some (a_read KList a key (λ l, Bulk (a_lindex l index)) WrongType (Bulk None)).
Proof.
  intros Hi. apply read_object_spec; [apply Hb|]. intros x l Hx Hl.
  rewrite <-(lindex_value x l index Hx (Hfit l Hl) Hi). by destruct (normalize_index _ _).
Qed.

Lemma lindex_visit_spec index :
  is_i64 index →
  lindex_visit b key index =
  Some (a_read KList a key (λ l, (Written, Some (a_lindex l index))) (ReadWrongType, None) (Missing, None)).
Proof.
  intros Hi. apply read_object_spec; [apply Hb|]. intros x l Hx Hl.
  by rewrite <-(lindex_value x l index Hx (Hfit l Hl) Hi).
Qed.

Lemma lrange_spec start stop :
  is_i64 start → is_i64 stop →
  lrange b key start stop =
  Some (a_read KList a key (λ l, Array (Some <$> redis_slice start stop l)) WrongType (Array [])).
Proof.
  intros H1 H2. apply read_object_spec; [apply Hb|]. intros x l Hx Hl.
  rewrite (ListObject.len_rep _ _ Hx), (ListObject.list_iter_rep _ _ Hx).
  by destruct (normalize_range_cases start stop l (Hfit l Hl) H1 H2)
    as [[-> ->]|(i & j & -> & _ & -> & _)].
Qed.

Lemma lrange_visit_spec start stop :
  is_i64 start → is_i64 stop →
  lrange_visit b key start stop =
  Some (a_read KList a key
          (λ l, let slice := redis_slice start stop l in
                (Written, Begin (length slice) :: ((λ v, Item (Some v)) <$> slice)))
          (ReadWrongType, []) (Missing, [])).
Proof.
  intros H1 H2. apply read_object_spec; [apply Hb|]. intros x l Hx Hl.
  rewrite (ListObject.len_rep _ _ Hx), (ListObject.list_iter_rep _ _ Hx). cbn zeta.
  by destruct (normalize_range_cases start stop l (Hfit l Hl) H1 H2)
    as [[-> ->]|(i & j & -> & _ & E & ->)]; rewrite ?E.
Qed.

Lemma lpos_visit_spec element rank count maxlen :
  is_i64 rank → rank ≠ 0%Z → (∀ n, count = Some n → 0 ≤ n ≤ i64_MAX)%Z → (0 ≤ maxlen ≤ i64_MAX)%Z →
  lpos_visit b key element rank count maxlen =
  Some (a_read KList a key (λ l, (Written, Some (a_lpos l element rank count maxlen)))
          (ReadWrongType, None) (Missing, None)).
Proof.
  intros. apply read_object_spec; [apply Hb|]. intros x l Hx Hl.
  by rewrite (lpos_scan_spec x l) by auto.
Qed.

Lemma list_presence_spec :
  list_presence_hashed b (hash_key key) key =
  a_read KList a key (λ _, Written) ReadWrongType Missing.
Proof.
  unfold list_presence_hashed, a_read.
  change (has_non_list_hashed b (hash_key key) key) with (has_non KList b key).
  change (SlotMap.get_hashed (lists b) (hash_key key) key) with (SlotMap.get (tbl KList b) key).
  fold (SlotMap.contains_key (tbl KList b) key).
  rewrite (proj1 (phys_contains KList b a key (proj1 Hb))), (has_non_spec KList b a key (proj1 Hb)).
  unfold a_get. destruct (a_objs a !! key) as [av|]; simpl; [|done]. by destruct (proj KList av).
Qed.
End Reads.
End Lists.
