(* ===== verification/BucketSet.v ===== *)
(** * Set commands of a bucket ([redis_objects/bucket_set.rs])

    Answers that follow the iteration order of a hash set are specified up to
    the choice of an enumeration of the set's members. *)

From S2P Require Import Prelude Deps Slab ListObject Helpers F64 Types HashSet ZSet Bucket.
From S2P Require Import BucketCore.

Section Sets.
Context `{Hashing} {HT : Type → Type} `{!HashTable HT} `{TableOrder}.
Context {OT : Type} `{!IndexTreeSet ZSetOrderKey zk_cmp OT}.
Abbreviation bucket := (RedisObjectBucket (HT := HT) (OT := OT)).
Implicit Types (b : bucket) (a : AState) (key member : Bytes) (members : list Bytes).

(** [if let [member] = members { insert_slice } else { insert_many }]. *)
Definition set_add (set : SetObject.t) members : nat * SetObject.t :=
  match members with
  | [member] =>
      let '(fresh, set') := SetObject.insert_slice set member in
      (if fresh : bool then 1 else 0, set')
  | _ => SetObject.insert_many set members
  end.

Definition sadd_existing_or_wrongtype_hashed b (key_hash : Z) key members
    : option (RedisObjectWriteAttempt * bucket) :=
  if bool_decide (members = []) then Some (Complete (Integer 0), b)
  else match SlotMap.get_hashed (sets b) key_hash key with
       | Some slot =>
           with_slot KSet b slot (λ set,
             let '(inserted, set') := set_add set members in
             Some (Complete (Integer (usize_as_i64 inserted)), set'))
       | None => Some (if has_non_set b key then Complete WrongType else WriteMissing, b)
       end.

Definition sadd_new_unchecked_hashed b (key_hash : Z) key members
    : option (RedisObjectResult * bucket) :=
  let '(inserted, set) := set_add SetObject.empty members in
  b' ← insert_object KSet b key_hash key set;
  Some (Integer (usize_as_i64 inserted), b').

(** [members.iter().filter(|member| set.remove(member)).count()]. *)
Definition remove_count (set : SetObject.t) members : nat * SetObject.t :=
  foldl (λ '(n, set) member,
           let '(removed, set') := SetObject.remove set member in
           (if removed : bool then n + 1 else n, set'))
        (0, set) members.

Definition srem b key members : option ((RedisObjectResult * bool) * bucket) :=
  modify_object KSet b key (λ set,
    let '(removed, set') := remove_count set members in
    Some (Integer (usize_as_i64 removed), set')) WrongType (Integer 0).

Definition sismember b key member : option RedisObjectResult :=
  read_object KSet b key (λ set, Some (Integer (bool_as_i64 (SetObject.contains set member))))
    WrongType (Integer 0).

Definition smismember b key members : option RedisObjectResult :=
  read_object KSet b key
    (λ set, Some (IntegerArray ((λ member, bool_as_i64 (SetObject.contains set member)) <$> members)))
    WrongType (IntegerArray (replicate (length members) 0%Z)).

Definition sismember_visit b key member : option (RedisObjectReadOutcome * option Z) :=
  read_object KSet b key
    (λ set, Some (Written, Some (bool_as_i64 (SetObject.contains set member))))
    (ReadWrongType, None) (Missing, None).

Definition scard b key : option RedisObjectResult :=
  read_object KSet b key (λ set, Some (Integer (usize_as_i64 (SetObject.len set))))
    WrongType (Integer 0).

Definition scard_visit b key : option (RedisObjectReadOutcome * option Z) :=
  read_object KSet b key (λ set, Some (Written, Some (usize_as_i64 (SetObject.len set))))
    (ReadWrongType, None) (Missing, None).

(** Sorting [Vec<Option<Bytes>>] of [Some]s sorts by the bytes. *)
Definition smembers b key : option RedisObjectResult :=
  read_object KSet b key
    (λ set, Some (Array (Some <$> merge_sort bytes_le (SetObject.iter set))))
    WrongType (Array []).

Definition smembers_visit b key : option (RedisObjectReadOutcome * list RedisObjectArrayItem) :=
  read_object KSet b key
    (λ set, Some (Written, Begin (SetObject.len set) ::
                             ((λ m, Item (Some m)) <$> SetObject.visit_members set)))
    (ReadWrongType, []) (Missing, []).

Definition set_members b key : option (() + list Bytes) :=
  read_object KSet b key (λ set, Some (inr (merge_sort bytes_le (SetObject.iter set))))
    (inl ()) (inr []).

Definition spop b key (count : option nat) : option ((RedisObjectResult * bool) * bucket) :=
  modify_object KSet b key (λ set,
    let requested := default 1 count in
    let members := take requested (SetObject.iter set) in
    let set' := foldl (λ s m, (SetObject.remove s m).2) set members in
    Some (match count with
          | None => Bulk (head members)
          | Some _ => Array (Some <$> members)
          end, set'))
    WrongType (match count with Some _ => Array [] | None => Bulk None end).

Definition srandmember b key (count : option Z) : option RedisObjectResult :=
  read_object KSet b key (λ set,
    match count with
    | Some count =>
        let members := SetObject.iter set in
        if bool_decide (members = []) then Some (Array [])
        else
          let requested := Z.to_nat (Z.abs count) in
          if (0 <=? count)%Z then Some (Array (Some <$> take requested members))
          else
            values ← mapM (λ index, Some <$> members !! (index mod length members))
                          (seq 0 requested);
            Some (Array values)
    | None => Some (Bulk (head (SetObject.iter set)))
    end) WrongType (match count with Some _ => Array [] | None => Bulk None end).

Definition srandmember_positive_visit b key (requested : nat)
    : option (RedisObjectReadOutcome * list RedisObjectArrayItem) :=
  read_object KSet b key (λ set,
    let count := requested `min` SetObject.len set in
    Some (Written, Begin count :: ((λ m, Item (Some m)) <$> SetObject.visit_members_limited set count)))
    (ReadWrongType, []) (Missing, []).

(** ** Abstract counterparts *)

Definition enum (s : gset Bytes) (l : list Bytes) : Prop := NoDup l ∧ list_to_set l = s.

(** The members in ascending order. *)
Definition sorted_members (s : gset Bytes) : list Bytes := merge_sort bytes_le (elements s).

Definition a_sadd_attempt a key members : RedisObjectWriteAttempt * AState :=
  if bool_decide (members = []) then (Complete (Integer 0), a)
  else a_update KSet a key
         (λ s, (Complete (Integer (usize_as_i64 (size (list_to_set members ∖ s : gset Bytes)))),
                list_to_set members ∪ s))
         (Complete WrongType) WriteMissing.

Definition a_srem a key members : (RedisObjectResult * bool) * AState :=
  a_modify KSet a key
    (λ s, (Integer (usize_as_i64 (size (list_to_set members ∩ s : gset Bytes))),
           s ∖ list_to_set members))
    WrongType (Integer 0).

(** What [SPOP] may do to a set: some enumeration loses its first members. *)
Definition spop_ok (count : option nat) (s : gset Bytes) (r : RedisObjectResult) (s' : gset Bytes) : Prop :=
  ∃ l, enum s l ∧ s' = s ∖ list_to_set (take (default 1 count) l) ∧
       r = match count with
           | None => Bulk (head l)
           | Some n => Array (Some <$> take n l)
           end.

(** What [SRANDMEMBER] may answer. *)
Definition srandmember_ok (count : option Z) (s : gset Bytes) (r : RedisObjectResult) : Prop :=
  ∃ l, enum s l ∧
    match count with
    | None => r = Bulk (head l)
    | Some n =>
        if (0 <=? n)%Z then r = Array (Some <$> take (Z.to_nat n) l)
        else ∃ vs, r = Array (Some <$> vs) ∧ (∀ v, v ∈ vs → v ∈ s) ∧
                   length vs = if bool_decide (s = ∅) then 0 else Z.to_nat (- n)
    end.

(** ** Refinement *)

Lemma set_add_spec x members :
  SetObject.wf x →
  SetObject.wf (set_add x members).2 ∧
  SetObject.abs (set_add x members).2 = list_to_set members ∪ SetObject.abs x ∧
  (set_add x members).1 = size (list_to_set members ∖ SetObject.abs x : gset Bytes).
Proof.
  intros Hx. unfold set_add. destruct members as [|m [|m' ms]]; [by apply SetObject.insert_many_spec| |
    by apply SetObject.insert_many_spec].
  destruct (SetObject.set_insert_slice_spec x m Hx) as (H1 & H2 & H3).
  destruct (SetObject.insert_slice x m) as [fresh x']. simpl in *. subst fresh.
  split; [done|]. split; [rewrite H3; set_solver|]. case_bool_decide as Hm.
  - replace (({[m]} ∪ ∅) ∖ SetObject.abs x) with ({[m]} : gset Bytes) by set_solver.
    by rewrite size_singleton.
  - replace (({[m]} ∪ ∅) ∖ SetObject.abs x) with (∅ : gset Bytes) by set_solver.
    by rewrite size_empty.
Qed.

Lemma remove_count_spec x members :
  SetObject.wf x →
  SetObject.wf (remove_count x members).2 ∧
  SetObject.abs (remove_count x members).2 = SetObject.abs x ∖ list_to_set members ∧
  (remove_count x members).1 = size (list_to_set members ∩ SetObject.abs x : gset Bytes).
Proof.
  unfold remove_count.
  assert (∀ n x, SetObject.wf x →
    let r := foldl (λ '(n, set) member,
               let '(removed, set') := SetObject.remove set member in
               (if removed : bool then n + 1 else n, set')) (n, x) members in
    SetObject.wf r.2 ∧ SetObject.abs r.2 = SetObject.abs x ∖ list_to_set members ∧
    r.1 = n + size (list_to_set members ∩ SetObject.abs x : gset Bytes)) as Hgen; [|by apply Hgen].
  induction members as [|m ms IH]; intros n y Hy; simpl.
  - split; [done|]. split; [set_solver|].
    replace (∅ ∩ SetObject.abs y) with (∅ : gset Bytes) by set_solver. rewrite size_empty. lia.
  - destruct (SetObject.set_remove_spec y m Hy) as (H1 & H2 & H3).
    destruct (SetObject.remove y m) as [removed y']. simpl in *. subst removed.
    destruct (IH (if bool_decide (m ∈ SetObject.abs y) then n + 1 else n) y' H2) as (H4 & H5 & H6).
    split; [done|]. split; [rewrite H5, H3; set_solver|]. rewrite H6, H3. case_bool_decide as Hm.
    + replace (({[m]} ∪ list_to_set ms) ∩ SetObject.abs y)
        with ({[m]} ∪ list_to_set ms ∩ (SetObject.abs y ∖ {[m]})) by
        (apply set_eq; intros z; destruct (decide (z = m)); set_solver).
      rewrite size_add_fresh by set_solver. lia.
    + f_equal. f_equal. apply set_eq. intros z. destruct (decide (z = m)); set_solver.
Qed.

Lemma enum_iter x s : SetObject.wf x → SetObject.abs x = s → enum s (SetObject.iter x).
Proof. intros Hx <-. by apply SetObject.set_iter_spec. Qed.

Lemma sadd_attempt_refines b a key members :
  bucket_rep b a →
  ∃ b', sadd_existing_or_wrongtype_hashed b (hash_key key) key members =
          Some ((a_sadd_attempt a key members).1, b') ∧
        bucket_rep b' (a_sadd_attempt a key members).2.
Proof.
  intros Hb. unfold sadd_existing_or_wrongtype_hashed, a_sadd_attempt.
  case_bool_decide; [by exists b|].
  apply (update_object_spec KSet b a key); [done..|]. intros x s [Hx <-] _.
  destruct (set_add_spec x members Hx) as (H1' & H2 & H3).
  destruct (set_add x members) as [n x']. simpl in *. subst n. eauto.
Qed.

Lemma sadd_new_refines b a key members :
  bucket_rep b a → a_objs a !! key = None →
  ∃ b', sadd_new_unchecked_hashed b (hash_key key) key members =
          Some (Integer (usize_as_i64 (size (list_to_set members : gset Bytes))), b') ∧
        bucket_rep b' (a_put KSet a key (list_to_set members)).
Proof.
  intros Hb Hn. unfold sadd_new_unchecked_hashed. destruct SetObject.empty_spec as [Hw He].
  destruct (set_add_spec SetObject.empty members Hw) as (H1' & H2 & H3).
  destruct (set_add SetObject.empty members) as [n x]. simpl in *.
  rewrite He, union_empty_r_L in H2. rewrite He, difference_empty_L in H3. subst n.
  destruct (create_object_spec KSet b a key x (list_to_set members) Hb) as (b' & -> & Hb'); [done..|].
  simpl. eauto.
Qed.

Lemma srem_refines b a key members :
  bucket_rep b a →
  ∃ b', srem b key members = Some ((a_srem a key members).1, b') ∧
        bucket_rep b' (a_srem a key members).2.
Proof.
  intros Hb. apply (modify_object_spec KSet); [done..|]. intros x s [Hx <-] _.
  destruct (remove_count_spec x members Hx) as (H1' & H2 & H3).
  destruct (remove_count x members) as [n x']. simpl in *. subst n. eauto.
Qed.

Lemma spop_refines b a key count :
  bucket_rep b a →
  ∃ g b',
    (∀ s, a_get KSet a key = Some s → spop_ok count s (g s).1 (g s).2) ∧
    let r := a_modify KSet a key g WrongType (match count with Some _ => Array [] | None => Bulk None end) in
    spop b key count = Some (r.1, b') ∧ bucket_rep b' r.2.
Proof.
  intros Hb. apply (modify_object_rel KSet b a key _ _ _ (spop_ok count)); [done..|].
  intros x s [Hx Hs] _. pose proof (enum_iter x s Hx Hs) as Hen.
  destruct (SetObject.set_remove_all_spec x (take (default 1 count) (SetObject.iter x)) Hx) as [H1' H2].
  eexists _, _, (s ∖ list_to_set (take (default 1 count) (SetObject.iter x))).
  split; [done|]. split; [split; [done|by rewrite H2, Hs]|]. exists (SetObject.iter x).
  split; [done|]. split; [done|]. destruct count; [done|].
  simpl. by destruct (SetObject.iter x).
Qed.

Section Reads.
Context b a key (Hb : bucket_rep b a).
Context (Hfit : ∀ s, a_get KSet a key = Some s → fits (size s)).

Lemma sismember_spec member :
  sismember b key member =
  Some (a_read KSet a key (λ s, Integer (bool_as_i64 (bool_decide (member ∈ s)))) WrongType (Integer 0)).
Proof.
  apply (read_object_spec KSet); [apply Hb|]. intros x s [_ <-] _. by rewrite SetObject.set_contains_spec.
Qed.

Lemma sismember_visit_spec member :
  sismember_visit b key member =
  Some (a_read KSet a key (λ s, (Written, Some (bool_as_i64 (bool_decide (member ∈ s)))))
          (ReadWrongType, None) (Missing, None)).
Proof.
  apply (read_object_spec KSet); [apply Hb|]. intros x s [_ <-] _. by rewrite SetObject.set_contains_spec.
Qed.

Lemma smismember_spec members :
  smismember b key members =
  Some (a_read KSet a key
          (λ s, IntegerArray ((λ m, bool_as_i64 (bool_decide (m ∈ s))) <$> members))
          WrongType (IntegerArray (replicate (length members) 0%Z))).
Proof.
  apply (read_object_spec KSet); [apply Hb|]. intros x s [_ <-] _. do 2 f_equal.
  apply list_fmap_ext. intros. by rewrite SetObject.set_contains_spec.
Qed.

Lemma scard_spec :
  scard b key = Some (a_read KSet a key (λ s, Integer (Z.of_nat (size s))) WrongType (Integer 0)).
Proof.
  apply (read_object_spec KSet); [apply Hb|]. intros x s [Hx Hs] Hg.
  by rewrite SetObject.set_len_spec, Hs, usize_as_i64_id by (done || by apply Hfit).
Qed.

Lemma scard_visit_spec :
  scard_visit b key = Some (a_read KSet a key (λ s, (Written, Some (Z.of_nat (size s))))
                              (ReadWrongType, None) (Missing, None)).
Proof.
  apply (read_object_spec KSet); [apply Hb|]. intros x s [Hx Hs] Hg.
  by rewrite SetObject.set_len_spec, Hs, usize_as_i64_id by (done || by apply Hfit).
Qed.

Lemma smembers_spec :
  smembers b key = Some (a_read KSet a key (λ s, Array (Some <$> sorted_members s)) WrongType (Array [])).
Proof.
  apply (read_object_spec KSet); [apply Hb|]. intros x s [Hx <-] _.
  by rewrite SetObject.set_sorted_spec.
Qed.

Lemma set_members_spec :
  set_members b key = Some (a_read KSet a key (λ s, inr (sorted_members s)) (inl ()) (inr [])).
Proof.
  apply (read_object_spec KSet); [apply Hb|]. intros x s [Hx <-] _.
  by rewrite SetObject.set_sorted_spec.
Qed.

Lemma smembers_visit_spec :
  ∃ r, smembers_visit b key = Some r ∧
       match a_objs a !! key with
       | None => r = (Missing, [])
       | Some av =>
           match proj KSet av with
           | Some s => ∃ l, enum s l ∧ r = (Written, Begin (size s) :: ((λ m, Item (Some m)) <$> l))
           | None => r = (ReadWrongType, [])
           end
       end.
Proof.
  apply (read_object_rel KSet); [apply Hb|]. intros x s [Hx Hs] _. eexists. split; [done|].
  exists (SetObject.iter x). split; [by apply enum_iter|].
  rewrite SetObject.set_len_spec, Hs by done. by destruct x.
Qed.

Lemma srandmember_spec count :
  ∃ r, srandmember b key count = Some r ∧
       match a_objs a !! key with
       | None => r = match count with Some _ => Array [] | None => Bulk None end
       | Some av => match proj KSet av with Some s => srandmember_ok count s r | None => r = WrongType end
       end.
Proof.
  apply (read_object_rel KSet); [apply Hb|]. intros x s [Hx Hs] _.
  pose proof (enum_iter x s Hx Hs) as Hen. unfold srandmember_ok. destruct count as [n|].
  2: { eexists. split; [done|]. eauto. }
  assert (SetObject.iter x = [] ↔ s = ∅) as Hemp.
  { destruct Hen as [_ <-]. destruct (SetObject.iter x); simpl; [done|]. split; [done|set_solver]. }
  case_bool_decide as He.
  { eexists. split; [done|]. exists (SetObject.iter x). split; [done|]. rewrite He.
    case_match; [by rewrite take_nil|]. exists []. split; [done|]. split; [set_solver|].
    by rewrite bool_decide_eq_true_2 by by apply Hemp. }
  destruct (Z.leb_spec 0 n) as [Hn|Hn].
  { eexists. split; [done|]. exists (SetObject.iter x). split; [done|]. by rewrite Z.abs_eq. }
  assert (0 < length (SetObject.iter x)) as Hlen by (destruct (SetObject.iter x); simpl; [done|lia]).
  assert (∃ vs, mapM (λ index, Some <$> SetObject.iter x !! (index mod length (SetObject.iter x)))
                     (seq 0 (Z.to_nat (Z.abs n))) = Some (Some <$> vs) ∧
                (∀ v, v ∈ vs → v ∈ s) ∧ length vs = Z.to_nat (Z.abs n)) as (vs & -> & Hvs & Hl).
  { generalize 0 as from. induction (Z.to_nat (Z.abs n)) as [|m IH]; intros from.
    - exists []. split; [done|]. split; [set_solver|done].
    - destruct (IH (S from)) as (vs & Hm & Hvs & Hl).
      destruct (lookup_lt_is_Some_2 (SetObject.iter x) (from mod length (SetObject.iter x))) as [v Hv];
        [by apply Nat.mod_upper_bound; lia|].
      exists (v :: vs). cbn [seq mapM]. rewrite Hv. simpl. rewrite Hm. split; [done|].
      split; [|simpl; lia]. intros w [->|Hw]%elem_of_cons; [|auto].
      destruct Hen as [_ <-]. apply elem_of_list_to_set. by eapply list_elem_of_lookup_2. }
  simpl. eexists. split; [done|]. exists (SetObject.iter x). split; [done|]. exists vs.
  split; [done|]. split; [done|]. rewrite bool_decide_eq_false_2 by (rewrite <-Hemp; done). lia.
Qed.

Lemma srandmember_positive_visit_spec requested :
  ∃ r, srandmember_positive_visit b key requested = Some r ∧
       match a_objs a !! key with
       | None => r = (Missing, [])
       | Some av =>
           match proj KSet av with
           | Some s => ∃ l, enum s l ∧
               r = (Written, Begin (requested `min` size s) ::
                               ((λ m, Item (Some m)) <$> take (requested `min` size s) l))
           | None => r = (ReadWrongType, [])
           end
       end.
Proof.
  apply (read_object_rel KSet); [apply Hb|]. intros x s [Hx Hs] _. eexists. split; [done|].
  exists (SetObject.iter x). split; [by apply enum_iter|].
  rewrite SetObject.set_len_spec, Hs by done. by destruct x.
Qed.
End Reads.
End Sets.
