(* ===== verification/BucketZSet.v ===== *)
(** * Sorted-set commands of a bucket ([redis_objects/bucket_zset.rs])

    Every reader is a function of the canonical listing
    [ZSetObject.zsorted], by score and then by member. *)

From S2P Require Import Prelude Deps Slab ListObject Helpers F64 Types HashSet ZSet Bucket.
From S2P Require Import BucketCore.

Section ZSets.
Context `{Hashing} {HT : Type → Type} `{!HashTable HT} `{TableOrder} `{FloatOps}.
Context {OT : Type} `{!IndexTreeSet ZSetOrderKey zk_cmp OT}.
Abbreviation bucket := (RedisObjectBucket (HT := HT) (OT := OT)).
Implicit Types (b : bucket) (a : AState) (key member : Bytes) (members : list Bytes) (score : f64).

Definition zadd_existing_or_wrongtype_hashed b (key_hash : Z) key score member
    : option (RedisObjectWriteAttempt * bucket) :=
  match SlotMap.get_hashed (zsets b) key_hash key with
  | Some slot =>
      with_slot KZSet b slot (λ zset,
        let '(inserted, zset') := ZSetObject.insert_slice zset member score in
        Some (Complete (Integer (bool_as_i64 inserted)), zset'))
  | None => Some (if has_non_zset b key then Complete WrongType else WriteMissing, b)
  end.

Definition zadd_new_unchecked_hashed b (key_hash : Z) key score member
    : option (RedisObjectResult * bucket) :=
  b' ← insert_object KZSet b key_hash key (ZSetObject.single member score);
  Some (Integer 1, b').

(** The guard of [zadd_cond]: NX, XX, GT and LT against the stored score. *)
Definition zadd_rejected (existing_score : option f64) score (nx xx gt lt : bool) : bool :=
  (nx && bool_decide (is_Some existing_score)) ||
  (xx && bool_decide (existing_score = None)) ||
  (gt && match existing_score with Some old => f64_le score old | None => false end) ||
  (lt && match existing_score with Some old => f64_le old score | None => false end).

Definition zadd_cond b key score member (nx xx gt lt ch incr : bool)
    : option ((RedisObjectResult * bool) * bucket) :=
  if has_non_zset b key then Some ((WrongType, false), b)
  else
    let existing_slot := SlotMap.get (zsets b) key in
    existing_score ← match existing_slot with
                     | Some slot =>
                         zset ← expect (ObjectSlab.get (zset_slab b) slot);
                         Some (ZSetObject.score zset member)
                     | None => Some None
                     end;
    if zadd_rejected existing_score score nx xx gt lt
    then Some ((if incr then Bulk None else Integer 0, false), b)
    else
      let value := f64_add (default 0%Z existing_score) score in
      if incr && negb (f64_is_finite value)
      then Some ((Simple "ERR resulting score is not finite", false), b)
      else
        let next_score := if incr then value else score in
        '(created, b') ← match existing_slot with
                         | Some slot =>
                             '(_, b') ← with_slot KZSet b slot
                                          (λ zset, Some (ZSetObject.insert_slice zset member next_score));
                             Some (false, b')
                         | None =>
                             b' ← insert_object KZSet b (hash_key key) key
                                    (ZSetObject.single member next_score);
                             Some (true, b')
                         end;
        if incr then Some ((Bulk (Some (format_score next_score)), created), b')
        else
          let changed := match existing_score with
                         | Some old => match total_cmp old next_score with Eq => false | _ => true end
                         | None => true
                         end in
          let response := if ch then bool_as_i64 changed
                          else bool_as_i64 (bool_decide (existing_score = None)) in
          Some ((Integer response, created), b').

Definition zincrby b key (delta : f64) member : option ((RedisObjectResult * bool) * bucket) :=
  zadd_cond b key delta member false false false false true true.

Definition zrem b key member : option ((RedisObjectResult * bool) * bucket) :=
  modify_object KZSet b key (λ zset,
    let '(removed, zset') := ZSetObject.remove zset member in
    Some (Integer (bool_as_i64 removed), zset')) WrongType (Integer 0).

(** [members.iter().filter(|member| zset.remove(member)).count()]. *)
Definition zremove_count (zset : ZSetObject.t OT) members : nat * ZSetObject.t OT :=
  foldl (λ '(n, zset) member,
           let '(removed, zset') := ZSetObject.remove zset member in
           (if removed : bool then n + 1 else n, zset'))
        (0, zset) members.

Definition zrem_many b key members : option ((RedisObjectResult * bool) * bucket) :=
  modify_object KZSet b key (λ zset,
    let '(removed, zset') := zremove_count zset members in
    Some (Integer (usize_as_i64 removed), zset')) WrongType (Integer 0).

Definition zscore b key member : option RedisObjectResult :=
  read_object KZSet b key (λ zset, Some (Bulk (format_score <$> ZSetObject.score zset member)))
    WrongType (Bulk None).

Definition zscore_value b key member : option (() + option f64) :=
  read_object KZSet b key (λ zset, Some (inr (ZSetObject.score zset member))) (inl ()) (inr None).

Definition zmscore b key members : option RedisObjectResult :=
  read_object KZSet b key
    (λ zset, Some (Array ((λ member, format_score <$> ZSetObject.score zset member) <$> members)))
    WrongType (Array (replicate (length members) None)).

Definition zscore_visit b key member : option (RedisObjectReadOutcome * option (option f64)) :=
  read_object KZSet b key (λ zset, Some (Written, Some (ZSetObject.score zset member)))
    (ReadWrongType, None) (Missing, None).

Definition zcard b key : option RedisObjectResult :=
  read_object KZSet b key (λ zset, Some (Integer (usize_as_i64 (ZSetObject.len zset))))
    WrongType (Integer 0).

Definition zcard_visit b key : option (RedisObjectReadOutcome * option Z) :=
  read_object KZSet b key (λ zset, Some (Written, Some (usize_as_i64 (ZSetObject.len zset))))
    (ReadWrongType, None) (Missing, None).

Definition zrange b key (start stop : Z) : option RedisObjectResult :=
  read_object KZSet b key (λ zset, Some (Array (ZSetObject.range zset start stop)))
    WrongType (Array []).

Definition zentries b key : option (() + list (Bytes * f64)) :=
  read_object KZSet b key (λ zset, Some (inr (ZSetObject.entries zset))) (inl ()) (inr []).

Definition zrank b key member (rev : bool) : option RedisObjectResult :=
  read_object KZSet b key
    (λ zset, Some (Integer (default (-1)%Z (usize_as_i64 <$> ZSetObject.rank zset member rev))))
    WrongType (Integer (-1)).

Definition zrank_value b key member (rev : bool) : option (() + option nat) :=
  read_object KZSet b key (λ zset, Some (inr (ZSetObject.rank zset member rev))) (inl ()) (inr None).

Definition zrank_visit b key member (rev : bool) : option (RedisObjectReadOutcome * option (option nat)) :=
  read_object KZSet b key (λ zset, Some (Written, Some (ZSetObject.rank zset member rev)))
    (ReadWrongType, None) (Missing, None).

Definition zcount b key (min max : f64) : option RedisObjectResult :=
  read_object KZSet b key (λ zset,
    n ← ZSetObject.count_by_score zset min true max true; Some (Integer (usize_as_i64 n)))
    WrongType (Integer 0).

Definition zcount_range_visit b key (min : f64) (min_inclusive : bool) (max : f64)
    (max_inclusive : bool) : option (RedisObjectReadOutcome * option Z) :=
  read_object KZSet b key (λ zset,
    n ← ZSetObject.count_by_score zset min min_inclusive max max_inclusive;
    Some (Written, Some (usize_as_i64 n))) (ReadWrongType, None) (Missing, None).

Definition zpop b key (count : nat) (max : bool) : option ((RedisObjectResult * bool) * bucket) :=
  modify_object KZSet b key (λ zset,
    '(entries, zset') ← ZSetObject.pop_extreme zset count max;
    Some (Array (mjoin ((λ e, [Some e.1; Some (format_score e.2)]) <$> entries)), zset'))
    WrongType (Array []).

Definition zrange_visit b key (start stop : Z)
    : option (RedisObjectReadOutcome * list RedisObjectArrayItem) :=
  read_object KZSet b key (λ zset, Some (Written, ZSetObject.range_visit zset start stop))
    (ReadWrongType, []) (Missing, []).

Definition zrange_entries_visit b key (start stop : Z) (rev : bool)
    : option (RedisObjectReadOutcome * list RedisObjectZSetRangeItem) :=
  read_object KZSet b key (λ zset, Some (Written, ZSetObject.range_entries_visit zset start stop rev))
    (ReadWrongType, []) (Missing, []).

(** ** Abstract counterparts *)

Definition a_zadd_attempt a key score member : RedisObjectWriteAttempt * AState :=
  a_update KZSet a key
    (λ z, (Complete (Integer (bool_as_i64 (bool_decide (z !! member = None)))), <[member := score]> z))
    (Complete WrongType) WriteMissing.

Definition a_zadd_cond a key score member (nx xx gt lt ch incr : bool)
    : (RedisObjectResult * bool) * AState :=
  if a_has a key && bool_decide (a_get KZSet a key = None) then ((WrongType, false), a)
  else
    let z : gmap Bytes f64 := default ∅ (a_get KZSet a key) in
    let value := f64_add (default 0%Z (z !! member)) score in
    let next := if incr then value else score in
    if zadd_rejected (z !! member) score nx xx gt lt
    then ((if incr then Bulk None else Integer 0, false), a)
    else if incr && negb (f64_is_finite value)
    then ((Simple "ERR resulting score is not finite", false), a)
    else
      ((if incr then Bulk (Some (format_score next))
        else Integer (bool_as_i64
               (if ch then bool_decide (z !! member ≠ Some next) else bool_decide (z !! member = None))),
        negb (a_has a key)),
       a_put KZSet a key (<[member := next]> z)).

Definition a_zrem_many a key members : (RedisObjectResult * bool) * AState :=
  a_modify KZSet a key
    (λ z, (Integer (usize_as_i64 (size (list_to_set members ∩ dom z : gset Bytes))),
           filter (λ e, e.1 ∉ members) z))
    WrongType (Integer 0).

Definition a_zrem a key member : (RedisObjectResult * bool) * AState :=
  a_modify KZSet a key
    (λ z, (Integer (bool_as_i64 (bool_decide (is_Some (z !! member)))), delete member z))
    WrongType (Integer 0).

Definition a_zpop a key (count : nat) (max : bool) : (RedisObjectResult * bool) * AState :=
  a_modify KZSet a key
    (λ z, let order := ZSetObject.directed max (ZSetObject.zsorted z) in
          (Array (mjoin ((λ e, [Some e.1; Some (format_score e.2)]) <$> take count order)),
           list_to_map (drop count order)))
    WrongType (Array []).

(** ** Refinement *)

Lemma zadd_attempt_refines b a key score member :
  bucket_rep b a → score_ok score →
  ∃ b', zadd_existing_or_wrongtype_hashed b (hash_key key) key score member =
          Some ((a_zadd_attempt a key score member).1, b') ∧
        bucket_rep b' (a_zadd_attempt a key score member).2.
Proof.
  intros Hb Hs. apply (update_object_spec KZSet b a key); [done..|]. intros x z [Hx <-] _.
  destruct (ZSetObject.zset_insert_spec x member score Hx Hs) as (H2' & H3 & H4).
  destruct (ZSetObject.insert_slice x member score) as [fresh x']. simpl in *. subst fresh. eauto.
Qed.

Lemma zadd_new_refines b a key score member :
  bucket_rep b a → a_objs a !! key = None → score_ok score →
  ∃ b', zadd_new_unchecked_hashed b (hash_key key) key score member = Some (Integer 1, b') ∧
        bucket_rep b' (a_put KZSet a key {[member := score]}).
Proof.
  intros Hb Hn Hs. unfold zadd_new_unchecked_hashed.
  destruct (create_object_spec KZSet b a key (ZSetObject.single member score) {[member := score]} Hb)
    as (b' & -> & Hb'); [done|done|by apply ZSetObject.zset_single_spec|]. simpl. eauto.
Qed.

Lemma zadd_wrongtype b a key :
  phys b a → has_non_zset b key = a_has a key && bool_decide (a_get KZSet a key = None).
Proof.
  intros Hp. change (has_non_zset b key) with (has_non KZSet b key).
  rewrite (has_non_spec KZSet b a key Hp). unfold a_has, a_get.
  by destruct (a_objs a !! key).
Qed.

Lemma phys_scores b a key z m s :
  phys b a → a_get KZSet a key = Some z → z !! m = Some s → score_ok s.
Proof.
  intros Hp Hz Hs. destruct (phys_lookup _ _ _ _ _ Hp Hz) as (sl & x & _ & _ & _ & Hx & <-).
  destruct Hx as (Hwf & Hok & _). unfold ZSetObject.abs in Hs.
  apply (elem_of_list_to_map (M := gmap Bytes)) in Hs; [|done].
  rewrite Forall_forall in Hok. by apply (Hok (m, s)).
Qed.

Lemma next_score_ok (old score : f64) (incr : bool) :
  score_ok score → incr && negb (f64_is_finite (f64_add old score)) = false →
  score_ok (if incr then f64_add old score else score).
Proof.
  intros Hs Hfin. destruct incr; [|done]. simpl in Hfin. bool_case.
  apply f64_finite_ok; [apply f64_add_valid|done].
Qed.

Lemma changed_spec (existing : option f64) (next : f64) :
  (∀ old, existing = Some old → score_ok old) → score_ok next →
  match existing with
  | Some old => match total_cmp old next with Eq => false | _ => true end
  | None => true
  end = bool_decide (existing ≠ Some next).
Proof.
  intros Hok Hnext. destruct existing as [old|]; [|done]. specialize (Hok old eq_refl).
  destruct (total_cmp old next) eqn:Ec; symmetry.
  - apply total_cmp_eq in Ec; [|apply Hok|apply Hnext]. apply bool_decide_eq_false. naive_solver.
  - apply bool_decide_eq_true. intros [= ->]. by rewrite total_cmp_refl in Ec.
  - apply bool_decide_eq_true. intros [= ->]. by rewrite total_cmp_refl in Ec.
Qed.

Lemma zadd_cond_refines b a key score member nx xx gt lt ch incr :
  bucket_rep b a → score_ok score →
  ∃ b', zadd_cond b key score member nx xx gt lt ch incr =
          Some ((a_zadd_cond a key score member nx xx gt lt ch incr).1, b') ∧
        bucket_rep b' (a_zadd_cond a key score member nx xx gt lt ch incr).2.
Proof.
  intros Hb Hs. pose proof Hb as [Hp Hw]. unfold zadd_cond, a_zadd_cond.
  rewrite (zadd_wrongtype b a) by done.
  destruct (a_has a key && bool_decide (a_get KZSet a key = None)) eqn:Hwrong; [by exists b|].
  destruct (a_get KZSet a key) as [z|] eqn:Hz; [change (gmap Bytes f64) in z|].
  - destruct (phys_lookup _ _ _ _ _ Hp Hz) as (sl & x & Hsl & _ & Hx & Hxw & Hxa).
    simpl in Hsl, Hx, Hxw, Hxa. rewrite Hsl, Hx.
    cbn [expect mbind option_bind default from_option id]. rewrite ZSetObject.zset_score_spec, Hxa.
    destruct (zadd_rejected (z !! member) score nx xx gt lt); [by exists b|].
    destruct (incr && negb (f64_is_finite (f64_add (default 0%Z (z !! member)) score))) eqn:Hfin;
      [by exists b|].
    set (next := if incr then f64_add (default 0%Z (z !! member)) score else score).
    assert (score_ok next) as Hnext by by apply next_score_ok.
    destruct (with_slot_spec KZSet b a key sl z
      (λ zset, Some (ZSetObject.insert_slice zset member next))
      (λ _ v', v' = <[member := next]> z) Hp Hz Hsl) as (r & v' & b' & -> & Hp' & -> & _).
    { intros y [Hy Hya]. destruct (ZSetObject.zset_insert_spec y member next Hy Hnext) as (_ & H3 & H4).
      destruct (ZSetObject.insert_slice y member next) as [f y'] eqn:E. simpl in *.
      eexists _, y', _. split; [done|]. split; [split; [done|exact H4]|]. by rewrite Hya. }
    assert (bucket_rep b' (a_put KZSet a key (<[member := next]> z))) as Hb'.
    { split; [done|]. apply wf_a_put_ne; [done..|]. apply a_get_Some in Hz. unfold a_get.
      by rewrite Hz. }
    assert (a_has a key = true) as -> by (apply a_get_Some in Hz; unfold a_has; by rewrite Hz).
    simpl. destruct incr; [by eexists|]. exists b'. split; [|done]. do 5 f_equal.
    destruct ch; [|done]. f_equal. apply changed_spec; [|done].
    intros old Hold. apply (phys_scores b a key z member old Hp Hz Hold).
  - assert (a_objs a !! key = None) as Hn.
    { unfold a_has in Hwrong. destruct (a_objs a !! key); [|done]. by rewrite bool_decide_eq_true_2 in Hwrong. }
    destruct (phys_lookup_None _ _ _ _ Hp Hz) as [Hsl _]. simpl in Hsl. rewrite Hsl. simpl.
    rewrite lookup_empty. destruct (zadd_rejected None score nx xx gt lt); [by exists b|].
    simpl. destruct (incr && negb (f64_is_finite (f64_add 0%Z score))) eqn:Hfin; [by exists b|].
    set (next := if incr then f64_add 0%Z score else score).
    assert (score_ok next) as Hnext by by apply next_score_ok.
    destruct (create_object_spec KZSet b a key (ZSetObject.single member next) {[member := next]} Hb)
      as (b' & -> & Hb'); [done|done|by apply ZSetObject.zset_single_spec|]. simpl.
    assert (a_has a key = false) as -> by (unfold a_has; by rewrite Hn).
    exists b'. rewrite insert_empty. split; [|done]. by destruct incr, ch.
Qed.

Lemma zrem_refines b a key member :
  bucket_rep b a →
  ∃ b', zrem b key member = Some ((a_zrem a key member).1, b') ∧ bucket_rep b' (a_zrem a key member).2.
Proof.
  intros Hb. apply (modify_object_spec KZSet); [done..|]. intros x z [Hx <-] _.
  destruct (ZSetObject.zset_remove_spec x member Hx) as (H2' & H3 & H4).
  destruct (ZSetObject.remove x member) as [r x']. simpl in *. subst r. eauto.
Qed.

Lemma zremove_count_spec (x : ZSetObject.t OT) members :
  ZSetObject.wf x →
  ZSetObject.wf (zremove_count x members).2 ∧
  ZSetObject.abs (zremove_count x members).2 = filter (λ e, e.1 ∉ members) (ZSetObject.abs x) ∧
  (zremove_count x members).1 = size (list_to_set members ∩ dom (ZSetObject.abs x) : gset Bytes).
Proof.
  unfold zremove_count.
  assert (∀ n x, ZSetObject.wf x →
    let r := foldl (λ '(n, zset) member,
               let '(removed, zset') := ZSetObject.remove (OT := OT) zset member in
               (if removed : bool then n + 1 else n, zset')) (n, x) members in
    ZSetObject.wf r.2 ∧ ZSetObject.abs r.2 = filter (λ e, e.1 ∉ members) (ZSetObject.abs x) ∧
    r.1 = n + size (list_to_set members ∩ dom (ZSetObject.abs x) : gset Bytes)) as Hgen;
    [|by apply Hgen].
  induction members as [|m ms IH]; intros n y Hy; simpl.
  - split; [done|]. split; [symmetry; apply map_filter_id; intros; apply not_elem_of_nil|].
    replace (∅ ∩ dom (ZSetObject.abs y)) with (∅ : gset Bytes) by set_solver. rewrite size_empty. lia.
  - destruct (ZSetObject.zset_remove_spec y m Hy) as (H2' & H3 & H4).
    destruct (ZSetObject.remove y m) as [removed y']. simpl in *. subst removed.
    destruct (IH (if bool_decide (is_Some (ZSetObject.abs y !! m)) then n + 1 else n) y' H3)
      as (H5 & H6 & H7).
    split; [done|]. split.
    + rewrite H6, H4. apply map_eq. intros k. apply option_eq. intros v.
      rewrite !map_lookup_filter_Some, lookup_delete_Some. simpl. rewrite not_elem_of_cons. naive_solver.
    + rewrite H7, H4, dom_delete_L. case_bool_decide as Hm; apply elem_of_dom in Hm || rewrite <-elem_of_dom in Hm.
      * replace (({[m]} ∪ list_to_set ms) ∩ dom (ZSetObject.abs y))
          with ({[m]} ∪ list_to_set ms ∩ (dom (ZSetObject.abs y) ∖ {[m]}) : gset Bytes) by
          (apply set_eq; intros w; destruct (decide (w = m)); set_solver).
        rewrite size_add_fresh by set_solver. lia.
      * f_equal. f_equal. apply set_eq. intros w. destruct (decide (w = m)); set_solver.
Qed.

Lemma zrem_many_refines b a key members :
  bucket_rep b a →
  ∃ b', zrem_many b key members = Some ((a_zrem_many a key members).1, b') ∧
        bucket_rep b' (a_zrem_many a key members).2.
Proof.
  intros Hb. apply (modify_object_spec KZSet); [done..|]. intros x z [Hx <-] _.
  destruct (zremove_count_spec x members Hx) as (H2' & H3 & H4).
  destruct (zremove_count x members) as [n x']. simpl in *. subst n. eauto.
Qed.

Lemma zpop_refines b a key count max :
  bucket_rep b a →
  ∃ b', zpop b key count max = Some ((a_zpop a key count max).1, b') ∧
        bucket_rep b' (a_zpop a key count max).2.
Proof.
  intros Hb. apply (modify_object_spec KZSet); [done..|]. intros x z [Hx <-] _.
  destruct (ZSetObject.zset_pop_spec x count max Hx) as (x' & -> & Hx' & Hd). simpl.
  exists x'. split; [done|]. split; [done|]. rewrite <-Hd.
  rewrite <-(ZSetObject.zsorted_abs (ZSetObject.abs x')) at 1.
  unfold Assoc.abs. symmetry. apply list_to_map_proper.
  - rewrite ZSetObject.directed_perm. apply ZSetObject.zsorted_wf.
  - apply ZSetObject.directed_perm.
Qed.

Section Reads.
Context b a key (Hb : bucket_rep b a).
Context (Hfit : ∀ z, a_get KZSet a key = Some z → fits (size z)).

Lemma zset_fits (x : ZSetObject.t OT) z :
  rel KZSet x z → a_get KZSet a key = Some z → fits (ZSetObject.len x).
Proof. intros [Hx Hz] Hg. rewrite ZSetObject.zset_len_spec, Hz by done. by apply Hfit. Qed.

Lemma zscore_spec member :
  zscore b key member =
  Some (a_read KZSet a key (λ z, Bulk (format_score <$> (z : gmap Bytes f64) !! member)) WrongType (Bulk None)).
Proof.
  apply (read_object_spec KZSet); [apply Hb|]. intros x z [_ <-] _. by rewrite ZSetObject.zset_score_spec.
Qed.

Lemma zscore_value_spec member :
  zscore_value b key member =
  Some (a_read KZSet a key (λ z, inr ((z : gmap Bytes f64) !! member)) (inl ()) (inr None)).
Proof.
  apply (read_object_spec KZSet); [apply Hb|]. intros x z [_ <-] _. by rewrite ZSetObject.zset_score_spec.
Qed.

Lemma zscore_visit_spec member :
  zscore_visit b key member =
  Some (a_read KZSet a key (λ z, (Written, Some ((z : gmap Bytes f64) !! member)))
          (ReadWrongType, None) (Missing, None)).
Proof.
  apply (read_object_spec KZSet); [apply Hb|]. intros x z [_ <-] _. by rewrite ZSetObject.zset_score_spec.
Qed.

Lemma zmscore_spec members :
  zmscore b key members =
  Some (a_read KZSet a key
          (λ z, Array ((λ m, format_score <$> (z : gmap Bytes f64) !! m) <$> members))
          WrongType (Array (replicate (length members) None))).
Proof.
  apply (read_object_spec KZSet); [apply Hb|]. intros x z [_ <-] _. do 2 f_equal.
  apply list_fmap_ext. intros. by rewrite ZSetObject.zset_score_spec.
Qed.

Lemma zcard_spec :
  zcard b key = Some (a_read KZSet a key (λ z, Integer (Z.of_nat (size z))) WrongType (Integer 0)).
Proof.
  apply (read_object_spec KZSet); [apply Hb|]. intros x z Hx Hz.
  rewrite usize_as_i64_id by by eapply zset_fits. destruct Hx as [Hx <-].
  by rewrite ZSetObject.zset_len_spec.
Qed.

Lemma zcard_visit_spec :
  zcard_visit b key = Some (a_read KZSet a key (λ z, (Written, Some (Z.of_nat (size z))))
                              (ReadWrongType, None) (Missing, None)).
Proof.
  apply (read_object_spec KZSet); [apply Hb|]. intros x z Hx Hz.
  rewrite usize_as_i64_id by by eapply zset_fits. destruct Hx as [Hx <-].
  by rewrite ZSetObject.zset_len_spec.
Qed.

Lemma zentries_spec :
  zentries b key = Some (a_read KZSet a key (λ z, inr (ZSetObject.zsorted z)) (inl ()) (inr [])).
Proof.
  apply (read_object_spec KZSet); [apply Hb|]. intros x z [Hx <-] _.
  by rewrite ZSetObject.entries_canonical.
Qed.

Lemma zrange_spec start stop :
  is_i64 start → is_i64 stop →
  zrange b key start stop =
  Some (a_read KZSet a key
          (λ z, Array ((λ e, Some e.1) <$> redis_slice start stop (ZSetObject.zsorted z)))
          WrongType (Array [])).
Proof.
  intros H2 H3. apply (read_object_spec KZSet); [apply Hb|]. intros x z Hx Hz.
  pose proof (zset_fits x z Hx Hz) as Hf. destruct Hx as [Hx <-].
  by rewrite ZSetObject.zset_range_spec.
Qed.

Lemma zrange_visit_spec start stop :
  is_i64 start → is_i64 stop →
  zrange_visit b key start stop =
  Some (a_read KZSet a key
          (λ z, let slice := redis_slice start stop (ZSetObject.zsorted z) in
                (Written, Begin (length slice) :: ((λ e, Item (Some e.1)) <$> slice)))
          (ReadWrongType, []) (Missing, [])).
Proof.
  intros H2 H3. apply (read_object_spec KZSet); [apply Hb|]. intros x z Hx Hz.
  pose proof (zset_fits x z Hx Hz) as Hf. destruct Hx as [Hx <-].
  by rewrite ZSetObject.zset_range_visit_spec.
Qed.

Lemma zrange_entries_visit_spec start stop backward :
  is_i64 start → is_i64 stop →
  zrange_entries_visit b key start stop backward =
  Some (a_read KZSet a key
          (λ z, let slice := redis_slice start stop
                               (ZSetObject.directed backward (ZSetObject.zsorted z)) in
                (Written, ZBegin (length slice) :: (ZSetObject.zentry <$> slice)))
          (ReadWrongType, []) (Missing, [])).
Proof.
  intros H2 H3. apply (read_object_spec KZSet); [apply Hb|]. intros x z Hx Hz.
  pose proof (zset_fits x z Hx Hz) as Hf. destruct Hx as [Hx <-].
  by rewrite ZSetObject.zset_range_entries_spec.
Qed.

(** The rank of a member: its position in the directed listing. *)
Definition a_rank (z : gmap Bytes f64) member (backward : bool) : option nat :=
  position (Assoc.key_is member) (ZSetObject.directed backward (ZSetObject.zsorted z)).

Lemma zrank_value_spec member backward :
  zrank_value b key member backward =
  Some (a_read KZSet a key (λ z, inr (a_rank z member backward)) (inl ()) (inr None)).
Proof.
  apply (read_object_spec KZSet); [apply Hb|]. intros x z [Hx <-] _.
  by rewrite ZSetObject.zset_rank_spec.
Qed.

Lemma zrank_visit_spec member backward :
  zrank_visit b key member backward =
  Some (a_read KZSet a key (λ z, (Written, Some (a_rank z member backward)))
          (ReadWrongType, None) (Missing, None)).
Proof.
  apply (read_object_spec KZSet); [apply Hb|]. intros x z [Hx <-] _.
  by rewrite ZSetObject.zset_rank_spec.
Qed.

Lemma zrank_spec member backward :
  zrank b key member backward =
  Some (a_read KZSet a key
          (λ z, Integer (default (-1)%Z (Z.of_nat <$> a_rank z member backward)))
          WrongType (Integer (-1))).
Proof.
  apply (read_object_spec KZSet); [apply Hb|]. intros x z Hx Hz.
  pose proof (zset_fits x z Hx Hz) as Hf. destruct Hx as [Hx <-].
  rewrite ZSetObject.zset_rank_spec by done. fold (a_rank (ZSetObject.abs x) member backward).
  destruct (a_rank (ZSetObject.abs x) member backward) as [r|] eqn:E; simpl; [|done].
  apply position_lt in E. rewrite ZSetObject.directed_perm, <-ZSetObject.entries_canonical in E by done.
  rewrite ZSetObject.entries_length in E by done.
  rewrite usize_as_i64_id; [done|]. unfold fits in Hf. lia.
Qed.

(** The number of members with a score in range. *)
Definition a_zcount (z : gmap Bytes f64) (min : f64) (mi : bool) (max : f64) (xi : bool) : nat :=
  length (filter (λ e, ZSetObject.in_score_range min mi max xi e = true) (ZSetObject.zsorted z)).

Lemma a_zcount_fits (z : gmap Bytes f64) min mi max xi :
  a_get KZSet a key = Some z → fits (a_zcount z min mi max xi).
Proof.
  intros Hz. pose proof (Hfit z Hz) as Hf. unfold a_zcount, fits in *.
  pose proof (length_filter (λ e, ZSetObject.in_score_range min mi max xi e = true) (ZSetObject.zsorted z)).
  assert (length (ZSetObject.zsorted z) = size z) as Hl.
  { by rewrite ZSetObject.zsorted_perm, length_map_to_list. }
  change (Z.of_nat (size (z : gmap Bytes f64)) ≤ i64_MAX)%Z in Hf. lia.
Qed.

Lemma zcount_spec min max :
  score_ok min → score_ok max →
  zcount b key min max =
  Some (a_read KZSet a key (λ z, Integer (Z.of_nat (a_zcount z min true max true))) WrongType (Integer 0)).
Proof.
  intros H2 H3. apply (read_object_spec KZSet); [apply Hb|]. intros x z [Hx <-] Hz.
  rewrite ZSetObject.count_by_score_spec by done. cbn [mbind option_bind].
  by rewrite usize_as_i64_id by by apply a_zcount_fits.
Qed.

Lemma zcount_range_visit_spec min mi max xi :
  score_ok min → score_ok max →
  zcount_range_visit b key min mi max xi =
  Some (a_read KZSet a key (λ z, (Written, Some (Z.of_nat (a_zcount z min mi max xi))))
          (ReadWrongType, None) (Missing, None)).
Proof.
  intros H2 H3. apply (read_object_spec KZSet); [apply Hb|]. intros x z [Hx <-] Hz.
  rewrite ZSetObject.count_by_score_spec by done. cbn [mbind option_bind].
  by rewrite usize_as_i64_id by by apply a_zcount_fits.
Qed.
End Reads.
End ZSets.
