(* ===== verification/BucketHash.v ===== *)
(** * Hash commands of a bucket ([redis_objects/bucket_hash.rs])

    A write first purges the fields of the key whose deadline passed at the
    clock it reads; a read filters them.  [a_live] is what a reader may see. *)

From S2P Require Import Prelude Deps Slab ListObject Helpers F64 Types HashSet ZSet Bucket.
From S2P Require Import BucketCore BucketKeys.

Section Hashes.
Context `{Hashing} {HT : Type → Type} `{!HashTable HT} `{TableOrder} `{FloatOps}.
Context {OT : Type} `{!IndexTreeSet ZSetOrderKey zk_cmp OT}.
Abbreviation bucket := (RedisObjectBucket (HT := HT) (OT := OT)).
Implicit Types (b : bucket) (a : AState) (key field value : Bytes) (fields fs : list Bytes) (clock : Z).
Implicit Types (slot : SlotId) (x : HashObject.t).

Definition hset b key field value clock : option ((RedisObjectResult * bool) * bucket) :=
  b ← remove_expired_hash_fields_for_write b key clock;
  match SlotMap.get (hashes b) key with
  | Some slot =>
      '(inserted, b) ← with_slot KHash b slot (λ hash, Some (HashObject.insert_slice hash field value));
      let b := if bool_decide (hash_field_expire_at_ms b = ∅) then b
               else clear_hash_field_ttl b key field in
      Some ((Integer (bool_as_i64 inserted), false), b)
  | None =>
      if has_non_hash b key then Some ((WrongType, false), b)
      else
        b ← insert_object KHash b (hash_key key) key (HashObject.single field value);
        Some ((Integer 1, true), b)
  end.

Definition hset_existing_or_wrongtype_hashed b (key_hash : Z) key field value clock
    : option (RedisObjectWriteAttempt * bucket) :=
  b ← remove_expired_hash_fields_for_write b key clock;
  match SlotMap.get_hashed (hashes b) key_hash key with
  | Some slot =>
      '(inserted, b) ← with_slot KHash b slot (λ hash, Some (HashObject.insert_slice hash field value));
      let b := if bool_decide (hash_field_expire_at_ms b = ∅) then b
               else clear_hash_field_ttl b key field in
      Some (Complete (Integer (bool_as_i64 inserted)), b)
  | None => Some (if has_non_hash b key then Complete WrongType else WriteMissing, b)
  end.

Definition hset_new_unchecked_hashed b (key_hash : Z) key field value
    : option (RedisObjectResult * bucket) :=
  b ← insert_object KHash b key_hash key (HashObject.single field value);
  Some (Integer 1, b).

(** [fields.iter().filter(|(field, value)| hash.insert_slice(field, value)).count()]. *)
Definition insert_count (hash : HashObject.t) (fvs : list (Bytes * Bytes)) : nat * HashObject.t :=
  foldl (λ '(n, hash) e,
           let '(inserted, hash') := HashObject.insert_slice hash e.1 e.2 in
           (if inserted : bool then n + 1 else n, hash'))
        (0, hash) fvs.

Definition hset_many b key (fvs : list (Bytes * Bytes)) clock
    : option ((RedisObjectResult * bool) * bucket) :=
  if bool_decide (fvs = []) then Some ((Integer 0, false), b)
  else
    b ← remove_expired_hash_fields_for_write b key clock;
    match SlotMap.get (hashes b) key with
    | Some slot =>
        '(inserted, b) ← with_slot KHash b slot (λ hash, Some (insert_count hash fvs));
        let b := if bool_decide (hash_field_expire_at_ms b = ∅) then b
                 else foldl (λ b field, clear_hash_field_ttl b key field) b fvs.*1 in
        Some ((Integer (usize_as_i64 inserted), false), b)
    | None =>
        if has_non_hash b key then Some ((WrongType, false), b)
        else
          let '(inserted, hash) := insert_count (HashObject.map_with_capacity (length fvs)) fvs in
          b ← insert_object KHash b (hash_key key) key hash;
          Some ((Integer (usize_as_i64 inserted), true), b)
    end.

Definition hget b key field clock : option RedisObjectResult :=
  read_object KHash b key (λ hash,
    if hash_field_lazily_expired b key field clock then Some (Bulk None)
    else Some (Bulk (HashObject.get hash field))) WrongType (Bulk None).

Definition hexists b key field clock : option RedisObjectResult :=
  read_object KHash b key (λ hash,
    if hash_field_lazily_expired b key field clock then Some (Integer 0)
    else Some (Integer (bool_as_i64 (HashObject.contains_key hash field)))) WrongType (Integer 0).

Definition hexists_visit b key field clock : option (RedisObjectReadOutcome * option Z) :=
  read_object KHash b key (λ hash,
    if hash_field_lazily_expired b key field clock then Some (Written, Some 0%Z)
    else Some (Written, Some (bool_as_i64 (HashObject.contains_key hash field))))
    (ReadWrongType, None) (Missing, None).

Definition hget_visit b key field clock : option (RedisObjectReadOutcome * option (option Bytes)) :=
  read_object KHash b key (λ hash,
    if hash_field_lazily_expired b key field clock then Some (Written, Some None)
    else Some (Written, Some (HashObject.get hash field))) (ReadWrongType, None) (Missing, None).

Definition hdel b key field clock : option ((RedisObjectResult * bool) * bucket) :=
  b ← remove_expired_hash_fields_for_write b key clock;
  '(gone, b) ← remove_hash_if_empty b key;
  if gone : bool then Some ((Integer 0, true), b)
  else
    match SlotMap.get (hashes b) key with
    | Some slot =>
        '((removed, empty), b) ← with_slot KHash b slot (λ hash,
             let '(old, hash') := HashObject.remove hash field in
             Some ((bool_decide (is_Some old), HashObject.is_empty hash'), hash'));
        let b := match empty : bool, removed : bool with
                 | true, _ => remove_hash_slot b key slot
                 | false, true => clear_hash_field_ttl b key field
                 | false, false => b
                 end in
        Some ((Integer (bool_as_i64 removed), empty), b)
    | None => Some (if has_non_hash b key then (WrongType, false) else (Integer 0, false), b)
    end.

(** [fields.iter().copied().filter(|field| hash.remove(field).is_some()).collect()]. *)
Definition remove_fields (hash : HashObject.t) fields : list Bytes * HashObject.t :=
  foldl (λ '(removed, hash) field,
           let '(old, hash') := HashObject.remove hash field in
           (if bool_decide (is_Some old) then removed ++ [field] else removed, hash'))
        ([], hash) fields.

Definition hdel_many b key fields clock : option ((RedisObjectResult * bool) * bucket) :=
  b ← remove_expired_hash_fields_for_write b key clock;
  '(gone, b) ← remove_hash_if_empty b key;
  if gone : bool then Some ((Integer 0, true), b)
  else
    match SlotMap.get (hashes b) key with
    | Some slot =>
        '((removed_fields, empty), b) ← with_slot KHash b slot (λ hash,
             let '(removed_fields, hash') := remove_fields hash fields in
             Some ((removed_fields, HashObject.is_empty hash'), hash'));
        let b := if empty : bool then remove_hash_slot b key slot
                 else foldl (λ b field, clear_hash_field_ttl b key field) b removed_fields in
        Some ((Integer (usize_as_i64 (length removed_fields)), empty), b)
    | None => Some (if has_non_hash b key then (WrongType, false) else (Integer 0, false), b)
    end.

Definition hlen b key clock : option RedisObjectResult :=
  read_object KHash b key (λ hash,
    Some (Integer (usize_as_i64 (HashObject.len hash - hash_expired_field_count b key clock))))
    WrongType (Integer 0).

Definition hlen_visit b key clock : option (RedisObjectReadOutcome * option Z) :=
  read_object KHash b key (λ hash,
    Some (Written, Some (usize_as_i64 (HashObject.len hash - hash_expired_field_count b key clock))))
    (ReadWrongType, None) (Missing, None).

Definition hmget b key fields clock : option RedisObjectResult :=
  read_object KHash b key (λ hash,
    let now := if bool_decide (hash_field_expire_at_ms b = ∅) then None else Some clock in
    Some (Array ((λ field, if live_entry b key now field then HashObject.get hash field else None)
                   <$> fields)))
    WrongType (Array (replicate (length fields) None)).

Definition hkeys b key clock : option RedisObjectResult :=
  read_object KHash b key (λ hash,
    let now := hash_field_now_ms_for b key clock in
    Some (Array (Some <$> filter (λ field, live_entry b key now field = true) (HashObject.fields hash))))
    WrongType (Array []).

Definition hvals b key clock : option RedisObjectResult :=
  read_object KHash b key (λ hash,
    let now := hash_field_now_ms_for b key clock in
    Some (Array ((λ e, Some e.2) <$>
                   filter (λ e, live_entry b key now e.1 = true) (HashObject.entries hash))))
    WrongType (Array []).

Definition hgetall b key clock : option RedisObjectResult :=
  read_object KHash b key (λ hash,
    let now := hash_field_now_ms_for b key clock in
    Some (Array (mjoin ((λ e, [Some e.1; Some e.2]) <$>
                          filter (λ e, live_entry b key now e.1 = true) (HashObject.entries hash)))))
    WrongType (Array []).

(** The visiting readers hand the entries out in iteration order when the key
    has no field deadlines, else the live ones in field order. *)
Definition hkeys_visit b key clock : option (RedisObjectReadOutcome * list RedisObjectArrayItem) :=
  read_object KHash b key (λ hash,
    match hash_field_now_ms_for b key clock with
    | None =>
        Some (Written, Begin (HashObject.len hash) ::
                         ((λ f, Item (Some f)) <$> HashObject.visit_fields hash))
    | Some now_ms =>
        let live := filter (λ f, hash_field_is_expired b key f now_ms = false) (HashObject.fields hash) in
        Some (Written, Begin (length live) :: ((λ f, Item (Some f)) <$> live))
    end) (ReadWrongType, []) (Missing, []).

Definition hvals_visit b key clock : option (RedisObjectReadOutcome * list RedisObjectArrayItem) :=
  read_object KHash b key (λ hash,
    match hash_field_now_ms_for b key clock with
    | None =>
        Some (Written, Begin (HashObject.len hash) ::
                         ((λ v, Item (Some v)) <$> HashObject.visit_values hash))
    | Some now_ms =>
        let live := filter (λ e, hash_field_is_expired b key e.1 now_ms = false)
                           (HashObject.entries hash) in
        Some (Written, Begin (length live) :: ((λ e, Item (Some e.2)) <$> live))
    end) (ReadWrongType, []) (Missing, []).

Definition hgetall_visit b key clock : option (RedisObjectReadOutcome * list RedisObjectArrayItem) :=
  read_object KHash b key (λ hash,
    match hash_field_now_ms_for b key clock with
    | None =>
        Some (Written, Begin (HashObject.len hash * 2) ::
                mjoin ((λ e, [Item (Some e.1); Item (Some e.2)]) <$> HashObject.visit_entries hash))
    | Some now_ms =>
        let live := filter (λ e, hash_field_is_expired b key e.1 now_ms = false)
                           (HashObject.entries hash) in
        Some (Written, Begin (length live * 2) ::
                mjoin ((λ e, [Item (Some e.1); Item (Some e.2)]) <$> live))
    end) (ReadWrongType, []) (Missing, []).

Definition hmget_visit b key fields clock
    : option (RedisObjectReadOutcome * list RedisObjectArrayItem) :=
  read_object KHash b key (λ hash,
    let now := hash_field_now_ms_for b key clock in
    Some (Written, Begin (length fields) ::
      ((λ field, Item (if live_entry b key now field then HashObject.get hash field else None))
         <$> fields)))
    (ReadWrongType, []) (Missing, []).

Definition hsetnx b key field value clock : option ((RedisObjectResult * bool) * bucket) :=
  b ← remove_expired_hash_fields_for_write b key clock;
  match SlotMap.get (hashes b) key with
  | Some slot =>
      '(r, b) ← with_slot KHash b slot (λ hash,
         if HashObject.contains_key hash field then Some (0%Z, hash)
         else Some (1%Z, (HashObject.insert_slice hash field value).2));
      Some ((Integer r, false), b)
  | None =>
      if has_non_hash b key then Some ((WrongType, false), b)
      else
        b ← insert_object KHash b (hash_key key) key (HashObject.single field value);
        Some ((Integer 1, true), b)
  end.

(** The value a read-modify-write starts from: [None] is the parse error, or
    the wrong type. *)
Inductive Current (V : Type) := CWrongType | CInvalid | CValue (v : option V).
Arguments CWrongType {V}.
Arguments CInvalid {V}.
Arguments CValue {V} v.

Definition current_value {V} b key field (parse : Bytes → option V) : option (Current V) :=
  match SlotMap.get (hashes b) key with
  | Some slot =>
      hash ← expect (ObjectSlab.get (hash_slab b) slot);
      Some match HashObject.get hash field with
           | Some text => match parse text with Some v => CValue (Some v) | None => CInvalid end
           | None => CValue None
           end
  | None => Some (if has_non_hash b key then CWrongType else CValue None)
  end.

(** [hincrby] reads the clock twice: in its own purge and in [hset]'s. *)
Definition hincrby b key field (delta : Z) (clock clock2 : Z)
    : option ((RedisObjectResult * bool) * bucket) :=
  b ← remove_expired_hash_fields_for_write b key clock;
  current ← current_value b key field parse_i64_bytes;
  match current with
  | CWrongType => Some ((WrongType, false), b)
  | CInvalid => Some ((Simple "ERR hash value is not an integer", false), b)
  | CValue current =>
      match i64_checked_add (default 0%Z current) delta with
      | None => Some ((Simple "ERR increment or decrement would overflow", false), b)
      | Some v =>
          '((result, created), b) ← hset b key field (i64_to_string v) clock2;
          Some ((match result with WrongType => result | _ => Integer v end, created), b)
      end
  end.

Definition hincrbyfloat b key field (delta : f64) (clock clock2 : Z)
    : option ((RedisObjectResult * bool) * bucket) :=
  b ← remove_expired_hash_fields_for_write b key clock;
  current ← current_value b key field parse_f64_bytes;
  match current with
  | CWrongType => Some ((WrongType, false), b)
  | CInvalid => Some ((Simple "ERR hash value is not a float", false), b)
  | CValue current =>
      let v := f64_add (default 0%Z current) delta in
      if negb (f64_is_finite v)
      then Some ((Simple "ERR increment would produce NaN or Infinity", false), b)
      else
        let value_bytes := format_score v in
        '((result, created), b) ← hset b key field value_bytes clock2;
        Some ((match result with WrongType => result | _ => Bulk (Some value_bytes) end, created), b)
  end.

Definition hrandfield b key (count : option Z) (with_values : bool) clock : option RedisObjectResult :=
  read_object KHash b key (λ hash,
    let entries := match hash_field_now_ms_for b key clock with
                   | Some now_ms =>
                       filter (λ e, hash_field_is_expired b key e.1 now_ms = false)
                              (HashObject.entries hash)
                   | None => HashObject.entries hash
                   end in
    match count with
    | Some count =>
        let iter := take (Z.to_nat (Z.abs count)) entries in
        Some (Array (if with_values then mjoin ((λ e, [Some e.1; Some e.2]) <$> iter)
                     else (λ e, Some e.1) <$> iter))
    | None => Some (Bulk (fst <$> head entries))
    end) WrongType (match count with Some _ => Array [] | None => Bulk None end).


(** ** Abstract counterparts of the writes *)

Definition a_hset a key field value clock : (RedisObjectResult * bool) * AState :=
  let a := a_purge a key clock in
  match a_objs a !! key with
  | Some (AHash h) =>
      ((Integer (bool_as_i64 (bool_decide (h !! field = None))), false),
       a_put_hash a key (<[field := value]> h) (delete field (a_ttls a key)))
  | Some _ => ((WrongType, false), a)
  | None => ((Integer 1, true), a_put KHash a key {[field := value]})
  end.

Definition a_hset_attempt a key field value clock : RedisObjectWriteAttempt * AState :=
  let a := a_purge a key clock in
  match a_objs a !! key with
  | Some (AHash h) =>
      (Complete (Integer (bool_as_i64 (bool_decide (h !! field = None)))),
       a_put_hash a key (<[field := value]> h) (delete field (a_ttls a key)))
  | Some _ => (Complete WrongType, a)
  | None => (WriteMissing, a)
  end.

(** Writing a run of fields, later ones winning. *)
Definition put_fields (h : gmap Bytes Bytes) (fvs : list (Bytes * Bytes)) : gmap Bytes Bytes :=
  foldl (λ m e, <[e.1 := e.2]> m) h fvs.

Definition a_hset_many a key (fvs : list (Bytes * Bytes)) clock : (RedisObjectResult * bool) * AState :=
  if bool_decide (fvs = []) then ((Integer 0, false), a)
  else
    let a := a_purge a key clock in
    match a_objs a !! key with
    | Some (AHash h) =>
        ((Integer (usize_as_i64 (size (list_to_set fvs.*1 ∖ dom h : gset Bytes))), false),
         a_put_hash a key (put_fields h fvs) (filter (λ e, e.1 ∉ fvs.*1) (a_ttls a key)))
    | Some _ => ((WrongType, false), a)
    | None =>
        ((Integer (usize_as_i64 (size (list_to_set fvs.*1 : gset Bytes))), true),
         a_put KHash a key (put_fields ∅ fvs))
    end.

(** Removing fields with their deadlines; the key goes with its last field. *)
Definition a_remove_fields a key (h : gmap Bytes Bytes) fields : bool * AState :=
  let h' := filter (λ e, e.1 ∉ fields) h in
  if bool_decide (h' = ∅) then (true, a_delete a key)
  else (false, a_put_hash a key h' (filter (λ e, e.1 ∉ fields) (a_ttls a key))).

Definition a_hdel_many a key fields clock : (RedisObjectResult * bool) * AState :=
  let a := a_purge a key clock in
  match a_objs a !! key with
  | Some (AHash h) =>
      if bool_decide (h = ∅) then ((Integer 0, true), a_delete a key)
      else
        let '(empty, a') := a_remove_fields a key h fields in
        ((Integer (usize_as_i64 (size (list_to_set fields ∩ dom h : gset Bytes))), empty), a')
  | Some _ => ((WrongType, false), a)
  | None => ((Integer 0, false), a)
  end.

Definition a_hdel a key field clock : (RedisObjectResult * bool) * AState :=
  let a := a_purge a key clock in
  match a_objs a !! key with
  | Some (AHash h) =>
      if bool_decide (h = ∅) then ((Integer 0, true), a_delete a key)
      else
        let '(empty, a') := a_remove_fields a key h [field] in
        ((Integer (bool_as_i64 (bool_decide (is_Some (h !! field)))), empty), a')
  | Some _ => ((WrongType, false), a)
  | None => ((Integer 0, false), a)
  end.

Definition a_hsetnx a key field value clock : (RedisObjectResult * bool) * AState :=
  let a := a_purge a key clock in
  match a_objs a !! key with
  | Some (AHash h) =>
      match h !! field with
      | Some _ => ((Integer 0, false), a)
      | None => ((Integer 1, false), a_put KHash a key (<[field := value]> h))
      end
  | Some _ => ((WrongType, false), a)
  | None => ((Integer 1, true), a_put KHash a key {[field := value]})
  end.

Definition a_current {V} a key field (parse : Bytes → option V) : Current V :=
  match a_objs a !! key with
  | Some (AHash h) =>
      match h !! field with
      | Some text => match parse text with Some v => CValue (Some v) | None => CInvalid end
      | None => CValue None
      end
  | Some _ => CWrongType
  | None => CValue None
  end.

Definition a_hincrby a key field (delta clock clock2 : Z) : (RedisObjectResult * bool) * AState :=
  let a := a_purge a key clock in
  match a_current a key field parse_i64_bytes with
  | CWrongType => ((WrongType, false), a)
  | CInvalid => ((Simple "ERR hash value is not an integer", false), a)
  | CValue current =>
      match i64_checked_add (default 0%Z current) delta with
      | None => ((Simple "ERR increment or decrement would overflow", false), a)
      | Some v =>
          let '((_, created), a') := a_hset a key field (i64_to_string v) clock2 in
          ((Integer v, created), a')
      end
  end.

Definition a_hincrbyfloat a key field (delta : f64) (clock clock2 : Z)
    : (RedisObjectResult * bool) * AState :=
  let a := a_purge a key clock in
  match a_current a key field parse_f64_bytes with
  | CWrongType => ((WrongType, false), a)
  | CInvalid => ((Simple "ERR hash value is not a float", false), a)
  | CValue current =>
      let v := f64_add (default 0%Z current) delta in
      if negb (f64_is_finite v)
      then ((Simple "ERR increment would produce NaN or Infinity", false), a)
      else
        let '((_, created), a') := a_hset a key field (format_score v) clock2 in
        ((Bulk (Some (format_score v)), created), a')
  end.

(** ** Refinement of the writes *)

Lemma purge_for_write_spec b a key clock :
  bucket_rep b a →
  ∃ b', remove_expired_hash_fields_for_write b key clock = Some b' ∧
        bucket_rep b' (a_purge a key clock).
Proof.
  intros Hb. unfold remove_expired_hash_fields_for_write.
  case_bool_decide as Ht; [by apply remove_expired_hash_fields_spec|].
  exists b. rewrite a_purge_id; [done|apply Hb|]. unfold a_ttls.
  rewrite (phys_fexp _ _ (proj1 Hb)) in Ht. destruct (a_fexp a !! key) eqn:E; [|done].
  destruct Ht. eauto.
Qed.

Lemma hash_cases a key :
  (∃ h : gmap Bytes Bytes, a_objs a !! key = Some (AHash h)) ∨ a_get KHash a key = None.
Proof. unfold a_get. destruct (a_objs a !! key) as [[]|]; eauto. Qed.

(** Where the hash of a key is stored. *)
Lemma hash_slot b a key (h : gmap Bytes Bytes) :
  phys b a → a_objs a !! key = Some (AHash h) →
  ∃ slot x, SlotMap.get (hashes b) key = Some slot ∧ ObjectSlab.get (hash_slab b) slot = Some x ∧
            HashObject.wf x ∧ HashObject.abs x = h.
Proof.
  intros Hp Hh. destruct (phys_lookup KHash b a key h Hp) as (s & x & ? & _ & ? & ? & ?);
    [by apply a_get_Some|]. eauto 10.
Qed.

Lemma no_hash_slot b a key :
  phys b a → a_get KHash a key = None →
  SlotMap.get (hashes b) key = None ∧ has_non_hash b key = a_has a key.
Proof.
  intros Hp Hn. split; [by apply (phys_lookup_None KHash b a)|].
  change (has_non_hash b key) with (has_non KHash b key).
  rewrite (has_non_spec KHash b a key Hp). unfold a_has. unfold a_get in Hn.
  destruct (a_objs a !! key); [|done]. simpl in Hn. by rewrite Hn.
Qed.

(** Rewriting the hash of a key and clearing deadlines of some fields. *)
Lemma hash_update_spec {R : Type} b a key slot (h h' : gmap Bytes Bytes) (r : R) fs
    (f : obj (OT := OT) KHash → option (R * obj (OT := OT) KHash)) :
  bucket_rep b a → a_objs a !! key = Some (AHash h) → SlotMap.get (hashes b) key = Some slot →
  (∀ x, HashObject.wf x → HashObject.abs x = h →
        ∃ x', f x = Some (r, x') ∧ HashObject.wf x' ∧ HashObject.abs x' = h') →
  (∀ g, is_Some (a_ttls a key !! g) → is_Some (h !! g) → g ∈ fs ∨ is_Some (h' !! g)) →
  ∃ b1, with_slot KHash b slot f = Some (r, b1) ∧ SlotMap.get (hashes b1) key = Some slot ∧
        phys b1 (a_put KHash a key h') ∧
        bucket_rep (foldl (λ b g, clear_hash_field_ttl b key g) b1 fs)
          (a_put_hash a key h' (filter (λ e, e.1 ∉ fs) (a_ttls a key))).
Proof.
  intros [Hp Hw] Hh Hs Hf Hfs. assert (a_get KHash a key = Some h) as Hg by by apply a_get_Some.
  destruct (with_slot_spec KHash b a key slot h f (λ r' v', r' = r ∧ v' = h') Hp Hg Hs)
    as (r' & v' & b1 & -> & Hp1 & [-> ->] & Htbl).
  { intros x [Hx Hxa]. destruct (Hf x Hx Hxa) as (x' & Hfx & ? & ?).
    exists r, x', h'. split; [done|]. done. }
  exists b1. split; [done|]. split; [change (hashes b1) with (tbl KHash b1); by rewrite Htbl|]. split; [done|]. split.
  - apply (clear_fields_phys b1 _ key fs Hp1). simpl. intros ttls E. by apply (wf_fexp _ Hw) in E as [? _].
  - apply wf_a_put_hash_ttls; [done|]. intros g [t [Ht Hn]%map_lookup_filter_Some].
    destruct (Hfs g) as [?|?]; [eauto| |done|done].
    eapply a_ttls_fields; [done|done|eauto].
Qed.

Lemma clear_guard b key fs :
  (if bool_decide (hash_field_expire_at_ms b = ∅) then b
   else foldl (λ b g, clear_hash_field_ttl b key g) b fs) =
  foldl (λ b g, clear_hash_field_ttl b key g) b fs.
Proof.
  case_bool_decide as He; [|done]. induction fs as [|g fs IH]; [done|]. simpl.
  unfold clear_hash_field_ttl at 2. by rewrite He, lookup_empty.
Qed.

Lemma clear_guard_one b key field :
  (if bool_decide (hash_field_expire_at_ms b = ∅) then b else clear_hash_field_ttl b key field) =
  clear_hash_field_ttl b key field.
Proof. apply (clear_guard b key [field]). Qed.

Lemma filter_singleton_delete {V : Type} (m : gmap Bytes V) (f : Bytes) : filter (λ e, e.1 ∉ [f]) m = delete f m.
Proof.
  apply map_eq. intros k. apply option_eq. intros v.
  rewrite map_lookup_filter_Some, lookup_delete_Some. simpl.
  rewrite list_elem_of_singleton. naive_solver.
Qed.

(** A fresh hash for an absent key. *)
Lemma hash_create_spec b a key x (h : gmap Bytes Bytes) :
  bucket_rep b a → a_objs a !! key = None → HashObject.wf x → HashObject.abs x = h →
  ∃ b', insert_object KHash b (hash_key key) key x = Some b' ∧ bucket_rep b' (a_put KHash a key h).
Proof.
  intros [Hp Hw] Hn Hx Ha. destruct (phys_insert KHash b a key x h Hp Hn) as (b' & -> & Hp'); [done|].
  exists b'. split; [done|]. split; [done|]. apply wf_a_put_hash; [done|].
  intros ttls f Ht. rewrite wf_fexp_None in Ht; [done|done|]. unfold a_get. by rewrite Hn.
Qed.

(** Writing one field of an existing hash clears its deadline. *)
Lemma hash_put_field b a key slot (h : gmap Bytes Bytes) field value :
  bucket_rep b a → a_objs a !! key = Some (AHash h) → SlotMap.get (hashes b) key = Some slot →
  ∃ b2, with_slot KHash b slot (λ hash, Some (HashObject.insert_slice hash field value)) =
          Some (bool_decide (h !! field = None), b2) ∧
        bucket_rep (if bool_decide (hash_field_expire_at_ms b2 = ∅) then b2
                    else clear_hash_field_ttl b2 key field)
          (a_put_hash a key (<[field := value]> h) (delete field (a_ttls a key))).
Proof.
  intros Hb Hg Hs.
  destruct (hash_update_spec b a key slot h (<[field := value]> h) (bool_decide (h !! field = None)) [field]
    (λ hash, Some (HashObject.insert_slice hash field value)) Hb Hg Hs) as (b2 & -> & _ & _ & Hb2).
  - intros y Hy Hya. destruct (HashObject.hash_insert_spec y field value Hy) as (H3 & H4 & H5).
    rewrite Hya in *. destruct (HashObject.insert_slice y field value) as [ins y']. simpl in *.
    subst ins. by exists y'.
  - intros g _ Hg'. right. destruct (decide (g = field)) as [->|]; [rewrite lookup_insert_eq; eauto|].
    by rewrite lookup_insert_ne.
  - exists b2. split; [done|]. rewrite clear_guard_one. by rewrite <-filter_singleton_delete.
Qed.

Lemma hset_refines b a key field value clock :
  bucket_rep b a →
  ∃ b', hset b key field value clock = Some ((a_hset a key field value clock).1, b') ∧
        bucket_rep b' (a_hset a key field value clock).2.
Proof.
  intros Hb0. unfold hset, a_hset.
  destruct (purge_for_write_spec b a key clock Hb0) as (b1 & -> & Hb). cbn [mbind option_bind].
  clear Hb0 b. generalize dependent (a_purge a key clock). clear a. intros a Hb.
  pose proof Hb as [Hp Hw]. destruct (hash_cases a key) as [[h Hg]|Hg].
  - rewrite Hg. destruct (hash_slot b1 a key h Hp Hg) as (s & x & Hs & _). rewrite Hs.
    destruct (hash_put_field b1 a key s h field value Hb Hg Hs) as (b2 & -> & Hb2). simpl. eauto.
  - destruct (no_hash_slot b1 a key Hp Hg) as [-> ->]. unfold a_has.
    destruct (a_objs a !! key) as [av|] eqn:Ho.
    + exists b1. unfold a_get in Hg. rewrite Ho in Hg. simpl. by destruct av.
    + simpl. destruct (HashObject.single_spec field value) as [H3 H4].
      destruct (hash_create_spec b1 a key _ _ Hb Ho H3 H4) as (b' & -> & Hb'). simpl. eauto.
Qed.

Lemma hset_attempt_refines b a key field value clock :
  bucket_rep b a →
  ∃ b', hset_existing_or_wrongtype_hashed b (hash_key key) key field value clock =
          Some ((a_hset_attempt a key field value clock).1, b') ∧
        bucket_rep b' (a_hset_attempt a key field value clock).2.
Proof.
  intros Hb0. unfold hset_existing_or_wrongtype_hashed, a_hset_attempt.
  destruct (purge_for_write_spec b a key clock Hb0) as (b1 & -> & Hb). cbn [mbind option_bind].
  clear Hb0 b. generalize dependent (a_purge a key clock). clear a. intros a Hb.
  change (SlotMap.get_hashed (hashes b1) (hash_key key) key) with (SlotMap.get (hashes b1) key).
  pose proof Hb as [Hp Hw]. destruct (hash_cases a key) as [[h Hg]|Hg].
  - rewrite Hg. destruct (hash_slot b1 a key h Hp Hg) as (s & x & Hs & _). rewrite Hs.
    destruct (hash_put_field b1 a key s h field value Hb Hg Hs) as (b2 & -> & Hb2). simpl. eauto.
  - destruct (no_hash_slot b1 a key Hp Hg) as [-> ->]. unfold a_has. exists b1.
    unfold a_get in Hg. destruct (a_objs a !! key) as [[]|]; done.
Qed.

Lemma hset_new_refines b a key field value :
  bucket_rep b a → a_objs a !! key = None →
  ∃ b', hset_new_unchecked_hashed b (hash_key key) key field value = Some (Integer 1, b') ∧
        bucket_rep b' (a_put KHash a key {[field := value]}).
Proof.
  intros Hb Ho. unfold hset_new_unchecked_hashed.
  destruct (HashObject.single_spec field value) as [H3 H4].
  destruct (hash_create_spec b a key _ _ Hb Ho H3 H4) as (b' & -> & Hb'). simpl. eauto.
Qed.

Lemma insert_count_spec x (fvs : list (Bytes * Bytes)) :
  HashObject.wf x →
  HashObject.wf (insert_count x fvs).2 ∧
  HashObject.abs (insert_count x fvs).2 = put_fields (HashObject.abs x) fvs ∧
  (insert_count x fvs).1 = size (list_to_set fvs.*1 ∖ dom (HashObject.abs x) : gset Bytes).
Proof.
  unfold insert_count, put_fields.
  assert (∀ n x, HashObject.wf x →
    let r := foldl (λ '(n, hash) (e : Bytes * Bytes),
               let '(inserted, hash') := HashObject.insert_slice hash e.1 e.2 in
               (if inserted : bool then n + 1 else n, hash')) (n, x) fvs in
    HashObject.wf r.2 ∧ HashObject.abs r.2 = foldl (λ m e, <[e.1 := e.2]> m) (HashObject.abs x) fvs ∧
    r.1 = n + size (list_to_set fvs.*1 ∖ dom (HashObject.abs x) : gset Bytes)) as Hgen;
    [|by apply Hgen].
  clear x. induction fvs as [|[f v] fvs IH]; intros n y Hy;
    [simpl|rewrite fmap_cons, list_to_set_cons; cbn [foldl fst snd]].
  - split_and!; [done..|].
    replace (∅ ∖ dom (HashObject.abs y)) with (∅ : gset Bytes) by set_solver. rewrite size_empty. lia.
  - destruct (HashObject.hash_insert_spec y f v Hy) as (H2 & H3 & H4).
    destruct (HashObject.insert_slice y f v) as [ins y']. simpl in *. subst ins.
    destruct (IH (if bool_decide (HashObject.abs y !! f = None) then n + 1 else n) y' H3) as (H5 & H6 & H7).
    split; [done|]. split; [by rewrite H6, H4|]. rewrite H7, H4, dom_insert_L.
    case_bool_decide as Hf.
    + apply not_elem_of_dom in Hf.
      replace (({[f]} ∪ list_to_set fvs.*1) ∖ dom (HashObject.abs y))
        with ({[f]} ∪ list_to_set fvs.*1 ∖ ({[f]} ∪ dom (HashObject.abs y)) : gset Bytes) by
        (apply set_eq; intros w; destruct (decide (w = f)); set_solver).
      rewrite size_add_fresh by set_solver. lia.
    + assert (f ∈ dom (HashObject.abs y)) as Hd by (apply elem_of_dom; by apply not_eq_None_Some).
      f_equal. f_equal. apply set_eq. intros w. destruct (decide (w = f)); set_solver.
Qed.

Lemma put_fields_lookup (h : gmap Bytes Bytes) (fvs : list (Bytes * Bytes)) (g : Bytes) :
  is_Some (h !! g) → is_Some (put_fields h fvs !! g).
Proof.
  revert h. induction fvs as [|[f v] fvs IH]; intros h Hg; simpl; [done|]. apply IH.
  destruct (decide (g = f)) as [->|]; [rewrite lookup_insert_eq; eauto|]. by rewrite lookup_insert_ne.
Qed.

Lemma hset_many_refines b a key fvs clock :
  bucket_rep b a →
  ∃ b', hset_many b key fvs clock = Some ((a_hset_many a key fvs clock).1, b') ∧
        bucket_rep b' (a_hset_many a key fvs clock).2.
Proof.
  intros Hb0. unfold hset_many, a_hset_many. case_bool_decide; [by exists b|].
  destruct (purge_for_write_spec b a key clock Hb0) as (b1 & -> & Hb). cbn [mbind option_bind].
  clear Hb0 b. generalize dependent (a_purge a key clock). clear a. intros a Hb.
  pose proof Hb as [Hp Hw]. destruct (hash_cases a key) as [[h Hg]|Hg].
  - rewrite Hg. destruct (hash_slot b1 a key h Hp Hg) as (s & x & Hs & _). rewrite Hs.
    destruct (hash_update_spec b1 a key s h (put_fields h fvs)
      (size (list_to_set fvs.*1 ∖ dom h : gset Bytes)) fvs.*1
      (λ hash, Some (insert_count hash fvs)) Hb Hg Hs) as (b2 & -> & _ & _ & Hb2).
    + intros y Hy Hya. destruct (insert_count_spec y fvs Hy) as (H3 & H4 & H5).
      rewrite Hya in *. destruct (insert_count y fvs) as [n y']. simpl in *. subst n. by exists y'.
    + intros g _ Hg'. right. by apply put_fields_lookup.
    + cbn [mbind option_bind]. rewrite clear_guard. eauto.
  - destruct (no_hash_slot b1 a key Hp Hg) as [-> ->]. unfold a_has.
    destruct (a_objs a !! key) as [av|] eqn:Ho.
    + exists b1. unfold a_get in Hg. rewrite Ho in Hg. simpl. by destruct av.
    + simpl. destruct (HashObject.map_with_capacity_spec (length fvs)) as [Hw0 Ha0].
      destruct (insert_count_spec _ fvs Hw0) as (H3 & H4 & H5). rewrite Ha0 in *.
      rewrite dom_empty_L, difference_empty_L in H5.
      destruct (insert_count _ fvs) as [n y]. simpl in *. subst n.
      destruct (hash_create_spec b1 a key y _ Hb Ho H3 H4) as (b' & -> & Hb'). simpl. eauto.
Qed.

(** Dropping the key of a hash whose content was just replaced. *)
Lemma drop_after_put b a key slot (h' : gmap Bytes Bytes) :
  wf_a a → phys b (a_put KHash a key h') → SlotMap.get (hashes b) key = Some slot →
  bucket_rep (remove_hash_slot b key slot) (a_delete a key).
Proof.
  intros Hw Hp Hs. split; [|by apply wf_a_delete].
  assert (a_delete a key = a_delete (a_put KHash a key h') key) as ->.
  { unfold a_delete, a_put. simpl. by rewrite delete_insert_eq. }
  eapply remove_hash_slot_phys; [done|apply a_get_put|done].
Qed.

Lemma remove_fields_spec x fields :
  HashObject.wf x →
  let r := remove_fields x fields in
  HashObject.wf r.2 ∧ HashObject.abs r.2 = filter (λ e, e.1 ∉ fields) (HashObject.abs x) ∧
  NoDup r.1 ∧ ∀ g, g ∈ r.1 ↔ g ∈ fields ∧ is_Some (HashObject.abs x !! g).
Proof.
  intros Hx. cbn zeta. induction fields as [|f fs IH] using rev_ind; simpl.
  - split; [done|]. split; [symmetry; apply map_filter_id; intros; apply not_elem_of_nil|].
    split; [constructor|]. intros g. rewrite elem_of_nil. naive_solver.
  - destruct IH as (H2 & H3 & H4 & H5). unfold remove_fields. rewrite foldl_app. cbn [foldl].
    fold (remove_fields x fs). destruct (remove_fields x fs) as [rs y]. simpl in *.
    destruct (HashObject.hash_remove_spec y f H2) as (H6 & H7 & H8).
    destruct (HashObject.remove y f) as [old y']. simpl in *. subst old. rewrite H3 in *.
    split; [done|]. split.
    { rewrite H8. apply map_eq. intros k. apply option_eq. intros v.
      rewrite lookup_delete_Some, !map_lookup_filter_Some. simpl.
      rewrite not_elem_of_app, list_elem_of_singleton. naive_solver. }
    case_bool_decide as Hf.
    + destruct Hf as [v [Hv Hn]%map_lookup_filter_Some]. simpl in Hn. split.
      * apply NoDup_app. split; [done|]. split; [|apply NoDup_singleton].
        intros g Hg ->%list_elem_of_singleton. apply H5 in Hg as [? _]. done.
      * intros g. rewrite !elem_of_app, !list_elem_of_singleton, H5.
        assert (is_Some (HashObject.abs x !! f)) by eauto. naive_solver.
    + split; [done|]. intros g. rewrite H5, elem_of_app, list_elem_of_singleton.
      split; [naive_solver|]. intros [[?| ->] Hs]; [done|]. split; [|done].
      destruct Hs as [v Hv]. destruct (decide (f ∈ fs)) as [|Hn]; [done|]. destruct Hf.
      exists v. by rewrite map_lookup_filter_Some.
Qed.

Lemma removed_count (h : gmap Bytes Bytes) fields (rs : list Bytes) :
  NoDup rs → (∀ g, g ∈ rs ↔ g ∈ fields ∧ is_Some (h !! g)) →
  length rs = size (list_to_set fields ∩ dom h : gset Bytes).
Proof.
  intros Hnd Hin. rewrite <-(size_list_to_set (C := gset Bytes) rs) by done. f_equal.
  apply set_eq. intros g. rewrite elem_of_list_to_set, Hin, elem_of_intersection,
    elem_of_list_to_set, elem_of_dom. done.
Qed.

(** Deadlines of the fields actually removed are those of the fields named. *)
Lemma removed_ttls a key (h : gmap Bytes Bytes) fields (rs : list Bytes) :
  wf_a a → a_objs a !! key = Some (AHash h) →
  (∀ g, g ∈ rs ↔ g ∈ fields ∧ is_Some (h !! g)) →
  filter (λ e, e.1 ∉ rs) (a_ttls a key) = filter (λ e, e.1 ∉ fields) (a_ttls a key).
Proof.
  intros Hw Hh Hin. apply map_filter_ext. intros g t Hg. simpl. rewrite Hin.
  assert (is_Some (h !! g)). { eapply a_ttls_fields; [done|by apply a_get_Some|eauto]. }
  tauto.
Qed.

(** The purge and empty check the deleting commands start with. *)
Lemma purge_gone_spec b a key clock :
  bucket_rep b a →
  let a1 := a_purge a key clock in
  ∃ b1 b2 (gone : bool), remove_expired_hash_fields_for_write b key clock = Some b1 ∧
           remove_hash_if_empty b1 key = Some (gone, b2) ∧
           (gone = true ↔ a_objs a1 !! key = Some (AHash ∅)) ∧
           bucket_rep b2 (if gone then a_delete a1 key else a1).
Proof.
  intros Hb a1. destruct (purge_for_write_spec b a key clock Hb) as (b1 & -> & Hb1).
  destruct (remove_hash_if_empty_spec b1 a1 key Hb1) as (b2 & Hr & Hb2).
  exists b1, b2. eexists. split; [done|]. split; [done|]. split; [|done].
  by rewrite bool_decide_eq_true, a_get_Some.
Qed.

(** Removing fields of a stored hash, then either the emptied key or the
    deadlines of the fields removed. *)
Lemma hash_shrink_spec {R : Type} b a key slot (h : gmap Bytes Bytes) fields (P : R → Prop)
    (f : obj (OT := OT) KHash → option (R * obj (OT := OT) KHash)) :
  bucket_rep b a → a_objs a !! key = Some (AHash h) → SlotMap.get (hashes b) key = Some slot →
  (∀ x, HashObject.wf x → HashObject.abs x = h →
        ∃ r x', f x = Some (r, x') ∧ HashObject.wf x' ∧
                HashObject.abs x' = filter (λ e, e.1 ∉ fields) h ∧ P r) →
  ∃ r b1, with_slot KHash b slot f = Some (r, b1) ∧ P r ∧
    bucket_rep (remove_hash_slot b1 key slot) (a_delete a key) ∧
    ∀ rs, (∀ g, g ∈ rs ↔ g ∈ fields ∧ is_Some (h !! g)) →
      bucket_rep (foldl (λ b g, clear_hash_field_ttl b key g) b1 rs)
        (a_put_hash a key (filter (λ e, e.1 ∉ fields) h) (filter (λ e, e.1 ∉ fields) (a_ttls a key))).
Proof.
  intros [Hp Hw] Hg Hs Hf.
  destruct (with_slot_spec KHash b a key slot h f
    (λ r v', v' = filter (λ e, e.1 ∉ fields) h ∧ P r) Hp)
    as (r & v' & b1 & -> & Hp1 & [-> HP] & Htbl); [by apply a_get_Some|done| |].
  { intros x [Hx Hxa]. destruct (Hf x Hx Hxa) as (r & x' & ? & ? & ? & ?).
    exists r, x', (filter (λ e, e.1 ∉ fields) h). done. }
  exists r, b1. split; [done|]. split; [done|]. split.
  { eapply drop_after_put; [done|done|]. change (hashes b1) with (tbl KHash b1). by rewrite Htbl. }
  intros rs Hrs. split.
  - rewrite <-(removed_ttls a key h fields rs) by done.
    apply (clear_fields_phys b1 _ key rs Hp1). simpl. intros ttls Et.
    by apply (wf_fexp _ Hw) in Et as [? _].
  - apply wf_a_put_hash_ttls; [done|]. intros g [t [Ht Hn]%map_lookup_filter_Some].
    destruct (a_ttls_fields a key h g Hw) as [v Hv]; [by apply a_get_Some|eauto|].
    exists v. by rewrite map_lookup_filter_Some.
Qed.

Lemma hdel_many_refines b a key fields clock :
  bucket_rep b a →
  ∃ b', hdel_many b key fields clock = Some ((a_hdel_many a key fields clock).1, b') ∧
        bucket_rep b' (a_hdel_many a key fields clock).2.
Proof.
  intros Hb0. unfold hdel_many, a_hdel_many.
  destruct (purge_gone_spec b a key clock Hb0) as (b0 & b1 & gone & -> & E & Hgone & Hb).
  cbn [mbind option_bind]. rewrite E. clear E b0 Hb0 b. cbn [mbind option_bind].
  generalize dependent (a_purge a key clock). clear a. intros a Hgone Hb.
  destruct gone.
  { rewrite (proj1 Hgone), bool_decide_eq_true_2 by done. eauto. }
  assert (a_objs a !! key ≠ Some (AHash ∅)) as Hne by (intros ?%Hgone; done).
  pose proof Hb as [Hp Hw]. destruct (hash_cases a key) as [[h Hg]|Hg].
  2: { destruct (no_hash_slot b1 a key Hp Hg) as [-> ->]. unfold a_has, a_get in *. exists b1.
       by destruct (a_objs a !! key) as [[]|]. }
  rewrite Hg, bool_decide_eq_false_2 by congruence.
  destruct (hash_slot b1 a key h Hp Hg) as (s & x & Hs & _). rewrite Hs.
  destruct (hash_shrink_spec b1 a key s h fields
    (λ re, re.2 = bool_decide (filter (λ e, e.1 ∉ fields) h = ∅) ∧
       NoDup re.1 ∧ ∀ g, g ∈ re.1 ↔ g ∈ fields ∧ is_Some (h !! g))
    (λ hash, let '(removed_fields, hash') := remove_fields hash fields in
             Some ((removed_fields, HashObject.is_empty hash'), hash')) Hb Hg Hs)
    as ([rs e] & b2 & -> & (He & Hnd & Hin) & Hdrop & Hkeep).
  { intros y Hy Hya. destruct (remove_fields_spec y fields Hy) as (Q1 & Q2 & Q3 & Q4).
    rewrite Hya in *. destruct (remove_fields y fields) as [rs y']. simpl in *.
    exists (rs, HashObject.is_empty y'), y'. split; [done|]. split; [done|]. split; [done|]. split; [|done]. simpl.
    by rewrite HashObject.hash_is_empty_spec, Q2. }
  simpl in He, Hnd, Hin. cbn [mbind option_bind]. rewrite (removed_count h fields rs) by done.
  unfold a_remove_fields. subst e. case_bool_decide; eexists; (split; [done|]); [done|]. by apply Hkeep.
Qed.

Lemma hdel_refines b a key field clock :
  bucket_rep b a →
  ∃ b', hdel b key field clock = Some ((a_hdel a key field clock).1, b') ∧
        bucket_rep b' (a_hdel a key field clock).2.
Proof.
  intros Hb0. unfold hdel, a_hdel.
  destruct (purge_gone_spec b a key clock Hb0) as (b0 & b1 & gone & -> & E & Hgone & Hb).
  cbn [mbind option_bind]. rewrite E. clear E b0 Hb0 b. cbn [mbind option_bind].
  generalize dependent (a_purge a key clock). clear a. intros a Hgone Hb.
  destruct gone.
  { rewrite (proj1 Hgone), bool_decide_eq_true_2 by done. eauto. }
  assert (a_objs a !! key ≠ Some (AHash ∅)) as Hne by (intros ?%Hgone; done).
  pose proof Hb as [Hp Hw]. destruct (hash_cases a key) as [[h Hg]|Hg].
  2: { destruct (no_hash_slot b1 a key Hp Hg) as [-> ->]. unfold a_has, a_get in *. exists b1.
       by destruct (a_objs a !! key) as [[]|]. }
  rewrite Hg, bool_decide_eq_false_2 by congruence.
  destruct (hash_slot b1 a key h Hp Hg) as (s & x & Hs & _). rewrite Hs.
  destruct (hash_shrink_spec b1 a key s h [field]
    (λ re, re = (bool_decide (is_Some (h !! field)), bool_decide (filter (λ e, e.1 ∉ [field]) h = ∅)))
    (λ hash, let '(old, hash') := HashObject.remove hash field in
             Some ((bool_decide (is_Some old), HashObject.is_empty hash'), hash')) Hb Hg Hs)
    as (re & b2 & -> & -> & Hdrop & Hkeep).
  { intros y Hy Hya. destruct (HashObject.hash_remove_spec y field Hy) as (Q1 & Q2 & Q3).
    rewrite Hya in *. destruct (HashObject.remove y field) as [old y']. simpl in *. subst old.
    rewrite <-filter_singleton_delete in Q3.
    eexists _, y'. split_and!; [done|done|done|]. by rewrite HashObject.hash_is_empty_spec, Q3. }
  cbn [mbind option_bind]. unfold a_remove_fields.
  case_bool_decide as Hf; case_bool_decide as Hem; eexists; (split; [done|]); [done| |done|].
  - apply (Hkeep [field]). intros g. rewrite list_elem_of_singleton. naive_solver.
  - apply (Hkeep []). intros g. rewrite list_elem_of_singleton, elem_of_nil. naive_solver.
Qed.

Lemma hsetnx_refines b a key field value clock :
  bucket_rep b a →
  ∃ b', hsetnx b key field value clock = Some ((a_hsetnx a key field value clock).1, b') ∧
        bucket_rep b' (a_hsetnx a key field value clock).2.
Proof.
  intros Hb0. unfold hsetnx, a_hsetnx.
  destruct (purge_for_write_spec b a key clock Hb0) as (b1 & -> & Hb). cbn [mbind option_bind].
  clear Hb0 b. generalize dependent (a_purge a key clock). clear a. intros a Hb.
  pose proof Hb as [Hp Hw]. destruct (hash_cases a key) as [[h Hg]|Hg].
  - rewrite Hg. destruct (hash_slot b1 a key h Hp Hg) as (s & x & Hs & _). rewrite Hs.
    set (h' := match h !! field with Some _ => h | None => <[field := value]> h end).
    set (r := match h !! field with Some _ => 0%Z | None => 1%Z end).
    destruct (hash_update_spec b1 a key s h h' r []
      (λ hash, if HashObject.contains_key hash field then Some (0%Z, hash)
               else Some (1%Z, (HashObject.insert_slice hash field value).2)) Hb Hg Hs)
      as (b2 & -> & _ & Hp2 & [_ Hw2]).
    + intros y Hy Hya. rewrite HashObject.hash_contains_spec, Hya by done. unfold h', r.
      destruct (h !! field) eqn:Ef; [by exists y|].
      destruct (HashObject.hash_insert_spec y field value Hy) as (_ & H4 & H5).
      rewrite Hya in H5. eauto.
    + intros g _ Hg'. right. unfold h'. destruct (h !! field) eqn:Ef; [done|].
      destruct (decide (g = field)) as [->|]; [rewrite lookup_insert_eq; eauto|].
      by rewrite lookup_insert_ne.
    + cbn [mbind option_bind]. exists b2. rewrite map_filter_id in Hw2 by (intros; apply not_elem_of_nil).
      unfold a_put_hash in Hw2. rewrite put_ttls_same in Hw2 by done.
      unfold h', r in *. destruct (h !! field); (split; [done|]); split; try done.
      by rewrite <-(a_put_same KHash a key h).
  - destruct (no_hash_slot b1 a key Hp Hg) as [-> ->]. unfold a_has.
    destruct (a_objs a !! key) as [av|] eqn:Ho.
    + exists b1. unfold a_get in Hg. rewrite Ho in Hg. simpl. by destruct av.
    + simpl. destruct (HashObject.single_spec field value) as [H3 H4].
      destruct (hash_create_spec b1 a key _ _ Hb Ho H3 H4) as (b' & -> & Hb'). simpl. eauto.
Qed.

Lemma current_value_spec {V : Type} b a key field (parse : Bytes → option V) :
  bucket_rep b a → current_value b key field parse = Some (a_current a key field parse).
Proof.
  intros [Hp Hw]. unfold current_value, a_current. destruct (hash_cases a key) as [[h Hg]|Hg].
  - rewrite Hg. destruct (hash_slot b a key h Hp Hg) as (s & x & -> & -> & Hxw & Hxa). simpl.
    by rewrite HashObject.hash_get_spec, Hxa.
  - destruct (no_hash_slot b a key Hp Hg) as [-> ->]. unfold a_has, a_get in *.
    by destruct (a_objs a !! key) as [[]|].
Qed.

Lemma a_hset_wrong_type a key field value clock :
  (a_hset a key field value clock).1.1 = WrongType →
  ∃ av, a_objs a !! key = Some av ∧ proj KHash av = None.
Proof.
  unfold a_hset, a_purge. destruct (a_get KHash a key) as [h|] eqn:E.
  - simpl. by rewrite lookup_insert_eq.
  - unfold a_get in E. destruct (a_objs a !! key) as [[]|]; simpl; eauto; done.
Qed.

Lemma hincrby_refines b a key field (delta : Z) clock (clock2 : Z) :
  bucket_rep b a →
  ∃ b', hincrby b key field delta clock clock2 = Some ((a_hincrby a key field delta clock clock2).1, b') ∧
        bucket_rep b' (a_hincrby a key field delta clock clock2).2.
Proof.
  intros Hb0. unfold hincrby, a_hincrby.
  destruct (purge_for_write_spec b a key clock Hb0) as (b1 & -> & Hb). cbn [mbind option_bind].
  clear Hb0 b. generalize dependent (a_purge a key clock). clear a. intros a Hb.
  rewrite (current_value_spec b1 a) by done. cbn [mbind option_bind].
  destruct (a_current a key field parse_i64_bytes) as [| |cur] eqn:Ec; [by exists b1..|].
  destruct (i64_checked_add _ _) as [v|]; [|by exists b1].
  destruct (hset_refines b1 a key field (i64_to_string v) clock2 Hb) as (b2 & -> & Hb2).
  pose proof (a_hset_wrong_type a key field (i64_to_string v) clock2) as Hnw.
  destruct (a_hset a key field (i64_to_string v) clock2) as [[r created] a']. simpl in *.
  exists b2. split; [|done]. do 3 f_equal. destruct r; try done.
  destruct (Hnw eq_refl) as (av & Ho & Hav). unfold a_current in Ec. rewrite Ho in Ec.
  by destruct av.
Qed.

Lemma hincrbyfloat_refines b a key field (delta : f64) clock (clock2 : Z) :
  bucket_rep b a →
  ∃ b', hincrbyfloat b key field delta clock clock2 =
          Some ((a_hincrbyfloat a key field delta clock clock2).1, b') ∧
        bucket_rep b' (a_hincrbyfloat a key field delta clock clock2).2.
Proof.
  intros Hb0. unfold hincrbyfloat, a_hincrbyfloat.
  destruct (purge_for_write_spec b a key clock Hb0) as (b1 & -> & Hb). cbn [mbind option_bind].
  clear Hb0 b. generalize dependent (a_purge a key clock). clear a. intros a Hb.
  rewrite (current_value_spec b1 a) by done. cbn [mbind option_bind].
  destruct (a_current a key field parse_f64_bytes) as [| |cur] eqn:Ec; [by exists b1..|].
  cbn zeta. destruct (negb _); [by exists b1|]. set (text := format_score _).
  destruct (hset_refines b1 a key field text clock2 Hb) as (b2 & -> & Hb2).
  pose proof (a_hset_wrong_type a key field text clock2) as Hnw.
  destruct (a_hset a key field text clock2) as [[r created] a']. simpl in *.
  exists b2. split; [|done]. do 3 f_equal. destruct r; try done.
  destruct (Hnw eq_refl) as (av & Ho & Hav). unfold a_current in Ec. rewrite Ho in Ec.
  by destruct av.
Qed.
End Hashes.
