(* ===== verification/BucketHashReads.v ===== *)
(** * Hash reads of a bucket: what a reader sees

    The reads of [redis_objects/bucket_hash.rs] do not purge: they filter the
    fields whose deadline passed.  Each is shown to answer from [a_live], the
    live fields of the key at the clock it reads. *)

From S2P Require Import Prelude Deps Slab ListObject Helpers F64 Types HashSet ZSet Bucket.
From S2P Require Import BucketCore BucketKeys BucketHash.

Section HashReads.
Context `{Hashing} {HT : Type → Type} `{!HashTable HT} `{TableOrder} `{FloatOps}.
Context {OT : Type} `{!IndexTreeSet ZSetOrderKey zk_cmp OT}.
Abbreviation bucket := (RedisObjectBucket (HT := HT) (OT := OT)).
Implicit Types (b : bucket) (a : AState) (key field value : Bytes) (fields : list Bytes) (clock : Z).
Implicit Types (h : gmap Bytes Bytes).

Lemma Sorted_filter {A : Type} (R : relation A) `{!Transitive R} (P : A → Prop)
    `{∀ x, Decision (P x)} (l : list A) :
  Sorted R l → Sorted R (filter P l).
Proof.
  intros Hl%Sorted_StronglySorted; [|done]. apply StronglySorted_Sorted.
  induction Hl as [|x l Hl IH Hx]; [constructor|]. rewrite filter_cons. case_decide; [|done].
  constructor; [done|]. rewrite Forall_forall in *. intros y [_ Hy]%list_elem_of_filter. auto.
Qed.

(** Filtering the canonical listing lists the filtered map. *)
Lemma filter_sorted_entries (P : Bytes → bool) h :
  filter (λ e, P e.1 = false) (sorted_entries h) = sorted_entries (filter (λ e, P e.1 = false) h).
Proof.
  destruct (filter_entries_abs P h) as [Hwf Habs]. rewrite <-Habs.
  rewrite <-sort_entries_canonical by done. symmetry. apply (Sorted_unique_strong key_le).
  - intros [k1 v1] [k2 v2] Hi1 Hi2 H12 H21. unfold key_le in *; simpl in *.
    pose proof (anti_symm bytes_le _ _ H12 H21) as ->. f_equal.
    rewrite merge_sort_Permutation in Hi1.
    apply (elem_of_list_to_map (M := gmap Bytes)) in Hi1, Hi2; [congruence|done..].
  - apply Sorted_merge_sort, _.
  - apply Sorted_filter; [apply _|]. apply Sorted_merge_sort, _.
  - by rewrite merge_sort_Permutation.
Qed.

Lemma fst_filter {V : Type} (P : Bytes → bool) (l : list (Bytes * V)) :
  filter (λ f, P f = false) l.*1 = (filter (λ e, P e.1 = false) l).*1.
Proof.
  induction l as [|[f v] l IH]; [done|]. rewrite fmap_cons, !filter_cons. simpl.
  case_decide; simpl; by rewrite IH.
Qed.

(** The live entries, in field order. *)
Lemma live_entries b a key clock (x : HashObject.t) h :
  bucket_rep b a → HashObject.wf x → HashObject.abs x = h →
  filter (λ e, live_entry b key (hash_field_now_ms_for b key clock) e.1 = true)
         (HashObject.entries x) = sorted_entries (a_live a key clock h).
Proof.
  intros Hb Hx Hxa. rewrite HashObject.hash_entries_spec, Hxa by done. unfold a_live.
  rewrite <-(filter_sorted_entries (λ f, a_field_expired a key f clock)).
  apply list_filter_iff. intros [f v]. simpl. rewrite (live_entry_spec b a) by done.
  by rewrite negb_true_iff.
Qed.

Lemma live_fields b a key clock (x : HashObject.t) h :
  bucket_rep b a → HashObject.wf x → HashObject.abs x = h →
  filter (λ f, live_entry b key (hash_field_now_ms_for b key clock) f = true)
         (HashObject.fields x) = (sorted_entries (a_live a key clock h)).*1.
Proof.
  intros Hb Hx Hxa. rewrite <-(live_entries b a key clock x h) by done.
  rewrite HashObject.hash_fields_spec, HashObject.hash_entries_spec by done.
  rewrite (list_filter_iff _ (λ f, negb (live_entry b key (hash_field_now_ms_for b key clock) f) = false)),
    (list_filter_iff (λ e : Bytes * Bytes, live_entry b key _ e.1 = true)
       (λ e, negb (live_entry b key (hash_field_now_ms_for b key clock) e.1) = false));
    [|intros ?; by rewrite negb_false_iff..].
  apply (fst_filter (λ f, negb _)).
Qed.

Lemma lazily_expired_spec b a key field clock :
  bucket_rep b a → hash_field_lazily_expired b key field clock = a_field_expired a key field clock.
Proof.
  intros [Hp Hw]. unfold hash_field_lazily_expired. rewrite (hash_field_is_expired_spec b a) by done.
  case_bool_decide as He; [|done]. rewrite (phys_fexp _ _ Hp) in He.
  unfold a_field_expired. by rewrite He, lookup_empty.
Qed.

Lemma a_live_lookup a key clock h field :
  a_live a key clock h !! field = if a_field_expired a key field clock then None else h !! field.
Proof.
  unfold a_live. destruct (a_field_expired a key field clock) eqn:E.
  - apply map_lookup_filter_None_2. right. intros v _. simpl. congruence.
  - destruct (h !! field) eqn:Hf.
    + by apply map_lookup_filter_Some_2.
    + apply map_lookup_filter_None_2. by left.
Qed.

Lemma hash_reads_spec {R : Type} b a key (f : obj (OT := OT) KHash → option R)
    (g : gmap Bytes Bytes → R) (wrong missing : R) :
  bucket_rep b a → (∀ x h, HashObject.wf x → HashObject.abs x = h → a_get KHash a key = Some h →
                     f x = Some (g h)) →
  read_object KHash b key f wrong missing = Some (a_read KHash a key g wrong missing).
Proof.
  intros [Hp _] Hf. apply read_object_spec; [done|]. intros x v [Hx Hxa] Hg. by apply Hf.
Qed.

(** Reads of one field. *)
Lemma hget_spec b a key field clock :
  bucket_rep b a →
  hget b key field clock = Some (a_read KHash a key (λ h, Bulk (a_live a key clock h !! field))
                                        WrongType (Bulk None)) ∧
  hget_visit b key field clock =
    Some (a_read KHash a key (λ h, (Written, Some (a_live a key clock h !! field)))
                 (ReadWrongType, None) (Missing, None)).
Proof.
  intros Hb. split; apply hash_reads_spec; try done; intros x h Hx Hxa _;
    rewrite (lazily_expired_spec b a), a_live_lookup by done;
    rewrite HashObject.hash_get_spec, Hxa; by destruct (a_field_expired _ _ _ _).
Qed.

Lemma hexists_spec b a key field clock :
  bucket_rep b a →
  hexists b key field clock =
    Some (a_read KHash a key (λ h, Integer (bool_as_i64 (bool_decide (is_Some (a_live a key clock h !! field)))))
                 WrongType (Integer 0)) ∧
  hexists_visit b key field clock =
    Some (a_read KHash a key (λ h, (Written, Some (bool_as_i64 (bool_decide (is_Some (a_live a key clock h !! field))))))
                 (ReadWrongType, None) (Missing, None)).
Proof.
  intros Hb. split; apply hash_reads_spec; try done; intros x h Hx Hxa _;
    rewrite (lazily_expired_spec b a), a_live_lookup by done;
    rewrite HashObject.hash_contains_spec, Hxa; by destruct (a_field_expired _ _ _ _).
Qed.

(** Counting: the stored fields less the expired ones. *)
Lemma expired_count_spec b a key clock h :
  bucket_rep b a → a_get KHash a key = Some h →
  size h - hash_expired_field_count b key clock = size (a_live a key clock h).
Proof.
  intros [Hp Hw] Hh.
  assert (hash_expired_field_count b key clock = length (filter (λ e, (e.2 <=? clock)%Z = true)
            (map_to_list (a_ttls a key)))) as ->.
  { unfold hash_expired_field_count. rewrite (phys_fexp _ _ Hp). unfold a_ttls.
    case_bool_decide as He.
    - rewrite He, lookup_empty. simpl. by rewrite map_to_list_empty.
    - destruct (a_fexp a !! key) as [ttls|]; simpl; [|by rewrite map_to_list_empty].
      induction (map_to_list ttls) as [|[f t] l IH]; [done|].
      rewrite fmap_cons, !filter_cons. simpl. by case_decide; simpl; rewrite IH. }
  rewrite <-(length_fmap fst).
  set (expired := (filter _ _).*1).
  assert (NoDup expired) as Hnd.
  { unfold expired. eapply sublist_NoDup; [apply (NoDup_fst_map_to_list (a_ttls a key))|].
    apply fmap_sublist, sublist_filter. }
  assert (a_live a key clock h = filter (λ e, e.1 ∉ expired) h) as ->.
  { apply map_filter_ext. intros f v Hv. simpl. rewrite a_field_expired_ttls. unfold expired.
    rewrite expired_elem, <-not_true_iff_false. destruct (a_ttls a key !! f); naive_solver. }
  rewrite <-(size_list_to_set (C := gset Bytes) expired) by done.
  rewrite <-!size_dom. rewrite (dom_filter_L (λ e, e.1 ∉ expired) h (dom h ∖ list_to_set expired)).
  - rewrite size_difference; [done|]. intros f. rewrite elem_of_list_to_set. unfold expired.
    rewrite expired_elem. intros (t & Ht & _). apply elem_of_dom. eapply a_ttls_fields; eauto.
  - intros f. rewrite elem_of_difference, elem_of_dom, elem_of_list_to_set. split.
    + intros [[v Hv] Hn]. eauto.
    + intros (v & Hv & Hn). eauto.
Qed.

Lemma hlen_spec b a key clock :
  bucket_rep b a →
  hlen b key clock = Some (a_read KHash a key (λ h, Integer (usize_as_i64 (size (a_live a key clock h))))
                                  WrongType (Integer 0)) ∧
  hlen_visit b key clock =
    Some (a_read KHash a key (λ h, (Written, Some (usize_as_i64 (size (a_live a key clock h)))))
                 (ReadWrongType, None) (Missing, None)).
Proof.
  intros Hb. split; apply hash_reads_spec; try done; intros x h Hx Hxa Hh;
    by rewrite HashObject.hash_len_spec, Hxa, (expired_count_spec b a key clock h).
Qed.

(** Reads of several fields. *)
Lemma hmget_spec b a key fields clock :
  bucket_rep b a →
  hmget b key fields clock =
    Some (a_read KHash a key (λ h, Array ((λ f, a_live a key clock h !! f) <$> fields))
                 WrongType (Array (replicate (length fields) None))) ∧
  hmget_visit b key fields clock =
    Some (a_read KHash a key
            (λ h, (Written, Begin (length fields) :: ((λ f, Item (a_live a key clock h !! f)) <$> fields)))
            (ReadWrongType, []) (Missing, [])).
Proof.
  intros Hb. split; apply hash_reads_spec; try done; intros x h Hx Hxa _.
  - do 2 f_equal. apply list_fmap_ext. intros i f _. rewrite a_live_lookup, HashObject.hash_get_spec, Hxa.
    rewrite <-(lazily_expired_spec b a) by done. unfold hash_field_lazily_expired.
    case_bool_decide; [done|]. simpl. by destruct (hash_field_is_expired _ _ _ _).
  - do 3 f_equal. apply list_fmap_ext. intros i f _. rewrite (live_entry_spec b a) by done.
    rewrite a_live_lookup, HashObject.hash_get_spec, Hxa. by destruct (a_field_expired _ _ _ _).
Qed.

Definition flat_entries (es : list (Bytes * Bytes)) : list (option Bytes) :=
  mjoin ((λ e, [Some e.1; Some e.2]) <$> es).

(** The listing reads answer in field order. *)
Lemma hash_listing_spec b a key clock :
  bucket_rep b a →
  hkeys b key clock =
    Some (a_read KHash a key (λ h, Array (Some <$> (sorted_entries (a_live a key clock h)).*1))
                 WrongType (Array [])) ∧
  hvals b key clock =
    Some (a_read KHash a key (λ h, Array (Some <$> (sorted_entries (a_live a key clock h)).*2))
                 WrongType (Array [])) ∧
  hgetall b key clock =
    Some (a_read KHash a key (λ h, Array (flat_entries (sorted_entries (a_live a key clock h))))
                 WrongType (Array [])).
Proof.
  intros Hb. split_and!; apply hash_reads_spec; try done; intros x h Hx Hxa _; cbn zeta;
    rewrite ?(live_fields b a key clock x h), ?(live_entries b a key clock x h) by done; try done.
  by rewrite <-list_fmap_compose.
Qed.

(** The visiting reads announce the number of live fields and hand each of
    them out once, in an order of their own. *)
Lemma visit_live b a key clock (x : HashObject.t) h :
  bucket_rep b a → HashObject.wf x → HashObject.abs x = h → a_get KHash a key = Some h →
  match hash_field_now_ms_for b key clock with
  | None => HashObject.visit_entries x ≡ₚ map_to_list (a_live a key clock h) ∧
            HashObject.len x = size (a_live a key clock h)
  | Some now_ms =>
      filter (λ e, hash_field_is_expired b key e.1 now_ms = false) (HashObject.entries x) =
        sorted_entries (a_live a key clock h) ∧
      filter (λ f, hash_field_is_expired b key f now_ms = false) (HashObject.fields x) =
        (sorted_entries (a_live a key clock h)).*1
  end.
Proof.
  intros Hb Hx Hxa Hh. pose proof (live_entries b a key clock x h Hb Hx Hxa) as He.
  pose proof (live_fields b a key clock x h Hb Hx Hxa) as Hf.
  destruct (hash_field_now_ms_for b key clock) as [now|] eqn:E.
  - split; [rewrite <-He|rewrite <-Hf]; apply list_filter_iff; intros y; simpl;
      by rewrite negb_true_iff.
  - assert (a_live a key clock h = h) as ->.
    { apply map_filter_id. intros f v _. simpl.
      pose proof (live_entry_spec b a key clock f Hb) as Hl. rewrite E in Hl. simpl in Hl.
      by destruct (a_field_expired a key f clock). }
    rewrite HashObject.hash_visit_spec, HashObject.hash_len_spec, Hxa by done. done.
Qed.

Lemma sorted_entries_perm h : sorted_entries h ≡ₚ map_to_list h.
Proof. apply merge_sort_Permutation. Qed.

Lemma sorted_entries_length h : length (sorted_entries h) = size h.
Proof. rewrite sorted_entries_perm. apply length_map_to_list. Qed.

Definition visits (r : RedisObjectReadOutcome * list RedisObjectArrayItem) (h : gmap Bytes Bytes)
    (n : nat) (emit : Bytes * Bytes → list RedisObjectArrayItem) : Prop :=
  ∃ es, es ≡ₚ map_to_list h ∧ r = (Written, Begin n :: mjoin (emit <$> es)).

Lemma mjoin_singletons {A B : Type} (f : A → B) (l : list A) : mjoin ((λ x, [f x]) <$> l) = f <$> l.
Proof. induction l as [|x l IH]; [done|]. simpl. by f_equal. Qed.

Lemma hash_visit_reads b a key clock (k : nat) (emit : Bytes * Bytes → list RedisObjectArrayItem)
    (f : obj (OT := OT) KHash → option (RedisObjectReadOutcome * list RedisObjectArrayItem)) :
  bucket_rep b a →
  (∀ x, HashObject.wf x → f x =
     match hash_field_now_ms_for b key clock with
     | None => Some (Written, Begin (HashObject.len x * k) :: mjoin (emit <$> HashObject.visit_entries x))
     | Some now_ms =>
         let live := filter (λ e, hash_field_is_expired b key e.1 now_ms = false) (HashObject.entries x) in
         Some (Written, Begin (length live * k) :: mjoin (emit <$> live))
     end) →
  ∃ r, read_object KHash b key f (ReadWrongType, []) (Missing, []) = Some r ∧
    match a_objs a !! key with
    | Some (AHash h) => visits r (a_live a key clock h) (size (a_live a key clock h) * k) emit
    | Some _ => r = (ReadWrongType, [])
    | None => r = (Missing, [])
    end.
Proof.
  intros Hb Hf. destruct (read_object_rel KHash b a key f (ReadWrongType, []) (Missing, [])
    (λ h r, visits r (a_live a key clock h) (size (a_live a key clock h) * k) emit) (proj1 Hb))
    as (r & Hr & HP).
  - intros x h [Hx Hxa] Hh. change HashObject.t in x. change (gmap Bytes Bytes) in h.
    rewrite (Hf x Hx). pose proof (visit_live b a key clock x h Hb Hx Hxa Hh) as Hv.
    destruct (hash_field_now_ms_for b key clock) as [now|]; destruct Hv as [Hv1 Hv2];
      cbn zeta; (eexists; split; [done|]).
    + exists (sorted_entries (a_live a key clock h)). split; [apply sorted_entries_perm|].
      by rewrite Hv1, sorted_entries_length.
    + exists (HashObject.visit_entries x). by rewrite Hv2.
  - exists r. split; [done|]. destruct (a_objs a !! key) as [[]|]; done.
Qed.

(** The visiting counterparts of the listing reads. *)
Definition hash_visit_ok a key clock (k : nat) (emit : Bytes * Bytes → list RedisObjectArrayItem)
    (r : RedisObjectReadOutcome * list RedisObjectArrayItem) : Prop :=
  match a_objs a !! key with
  | Some (AHash h) => visits r (a_live a key clock h) (size (a_live a key clock h) * k) emit
  | Some _ => r = (ReadWrongType, [])
  | None => r = (Missing, [])
  end.

Lemma hkeys_visit_spec b a key clock :
  bucket_rep b a →
  ∃ r, hkeys_visit b key clock = Some r ∧ hash_visit_ok a key clock 1 (λ e, [Item (Some e.1)]) r.
Proof.
  intros Hb. apply (hash_visit_reads b a key clock 1 (λ e, [Item (Some e.1)])); [done|].
  intros x Hx. destruct (hash_field_now_ms_for b key clock) as [now|]; cbn zeta;
    rewrite mjoin_singletons, Nat.mul_1_r.
  - rewrite HashObject.hash_fields_spec, HashObject.hash_entries_spec by done.
    rewrite (fst_filter (λ f, hash_field_is_expired b key f now)), length_fmap.
    by rewrite <-list_fmap_compose.
  - rewrite HashObject.hash_visit_fields_spec. by rewrite <-list_fmap_compose.
Qed.

Lemma hvals_visit_spec b a key clock :
  bucket_rep b a →
  ∃ r, hvals_visit b key clock = Some r ∧ hash_visit_ok a key clock 1 (λ e, [Item (Some e.2)]) r.
Proof.
  intros Hb. apply (hash_visit_reads b a key clock 1 (λ e, [Item (Some e.2)])); [done|].
  intros x Hx. destruct (hash_field_now_ms_for b key clock) as [now|]; cbn zeta;
    rewrite mjoin_singletons, Nat.mul_1_r; [done|].
  rewrite HashObject.hash_visit_values_spec. by rewrite <-list_fmap_compose.
Qed.

Lemma hgetall_visit_spec b a key clock :
  bucket_rep b a →
  ∃ r, hgetall_visit b key clock = Some r ∧
       hash_visit_ok a key clock 2 (λ e, [Item (Some e.1); Item (Some e.2)]) r.
Proof.
  intros Hb. by apply (hash_visit_reads b a key clock 2 (λ e, [Item (Some e.1); Item (Some e.2)])).
Qed.

(** The "random" field is deterministic: the first ones in field order. *)
Lemma hrandfield_spec b a key (count : option Z) (with_values : bool) clock :
  bucket_rep b a →
  hrandfield b key count with_values clock =
    Some (a_read KHash a key
      (λ h, let es := sorted_entries (a_live a key clock h) in
            match count with
            | Some n => let es := take (Z.to_nat (Z.abs n)) es in
                        Array (if with_values then flat_entries es else Some <$> es.*1)
            | None => Bulk (head es.*1)
            end)
      WrongType (match count with Some _ => Array [] | None => Bulk None end)).
Proof.
  intros Hb. apply hash_reads_spec; [done|]. intros x h Hx Hxa Hh. cbn zeta.
  assert (match hash_field_now_ms_for b key clock with
          | Some now_ms => filter (λ e, hash_field_is_expired b key e.1 now_ms = false) (HashObject.entries x)
          | None => HashObject.entries x
          end = sorted_entries (a_live a key clock h)) as ->.
  { rewrite <-(live_entries b a key clock x h) by done.
    destruct (hash_field_now_ms_for b key clock) as [now|]; simpl.
    - apply list_filter_iff. intros y. by rewrite negb_true_iff.
    - induction (HashObject.entries x) as [|y l IH]; [done|]. rewrite filter_cons_True by done.
      by rewrite <-IH. }
  destruct count as [n|].
  - destruct with_values; [done|]. by rewrite <-list_fmap_compose.
  - by destruct (sorted_entries (a_live a key clock h)).
Qed.
End HashReads.
