(* ===== verification/BucketHashTtl.v ===== *)
(** * Field deadlines of hashes ([redis_objects/bucket_hash_ttl.rs])

    The HEXPIRE, HTTL, HPERSIST, HGETDEL, HGETEX and HSETEX cores.  All but
    the query purge the key first; [on_live_hash] is the statement they share. *)

From S2P Require Import Prelude Deps Slab ListObject Helpers F64 Types HashSet ZSet Bucket.
From S2P Require Import BucketCore BucketKeys BucketHash BucketHashReads.

Module HashFieldExpireCond.
Inductive t := Any | Nx | Xx | Gt | Lt.
End HashFieldExpireCond.

Module HashFieldGetExpireAction.
Inductive t := Keep | Persist | ExpireAt (expire_at_ms : Z).
End HashFieldGetExpireAction.

Module HashFieldSetCondition.
Inductive t := Always | FnX | FxX.
End HashFieldSetCondition.

Module HashFieldSetExpireAction.
Inductive t := Clear | KeepTtl | ExpireAt (expire_at_ms : Z).
End HashFieldSetExpireAction.

Section HashTtl.
Context `{Hashing} {HT : Type → Type} `{!HashTable HT} `{TableOrder} `{FloatOps}.
Context {OT : Type} `{!IndexTreeSet ZSetOrderKey zk_cmp OT}.
Abbreviation bucket := (RedisObjectBucket (HT := HT) (OT := OT)).
Implicit Types (b : bucket) (a : AState) (key field value : Bytes) (fields fs : list Bytes).
Implicit Types (fvs : list (Bytes * Bytes)) (now_ms at_ms : Z) (slot : SlotId) (x : HashObject.t).
Implicit Types (h : gmap Bytes Bytes) (ttls : gmap Bytes Z).

(** ** Operations *)

(** The opening of every operation but the query: the slot, wrong type or
    missing, then the purge and the removal of an emptied hash. *)
Definition on_live_hash b key now_ms (missing : RedisObjectResult)
    (body : SlotId → bucket → option ((RedisObjectResult * bool) * bucket))
    : option ((RedisObjectResult * bool) * bucket) :=
  match SlotMap.get (hashes b) key with
  | None => Some ((if has_non_hash b key then WrongType else missing, false), b)
  | Some slot =>
      b ← remove_expired_hash_fields b key now_ms;
      '(gone, b) ← remove_hash_if_empty b key;
      if gone : bool then Some ((missing, true), b) else body slot b
  end.

(** [for field in .. { hash.remove(field); } let now_empty = hash.is_empty();]. *)
Definition remove_each (to_delete : list Bytes) (hash : HashObject.t) : option (bool * HashObject.t) :=
  let hash' := foldl (λ x f, (HashObject.remove x f).2) hash to_delete in
  Some (HashObject.is_empty hash', hash').

(** The closing of the deleting operations. *)
Definition delete_fields b key slot (to_delete : list Bytes) : option (bool * bucket) :=
  if bool_decide (to_delete = []) then Some (false, b)
  else
    '(now_empty, b) ← with_slot KHash b slot (remove_each to_delete);
    let b := foldl (λ b f, clear_hash_field_ttl b key f) b to_delete in
    Some (if now_empty : bool then (true, remove_hash_slot b key slot) else (false, b)).

Definition cond_allows (cond : HashFieldExpireCond.t) (current : option Z) at_ms : bool :=
  match cond with
  | HashFieldExpireCond.Any => true
  | HashFieldExpireCond.Nx => bool_decide (current = None)
  | HashFieldExpireCond.Xx => bool_decide (is_Some current)
  | HashFieldExpireCond.Gt => match current with Some c => (c <? at_ms)%Z | None => false end
  | HashFieldExpireCond.Lt => match current with Some c => (at_ms <? c)%Z | None => true end
  end.

(** The loop of [hash_field_expire]: codes and fields to delete, in order. *)
Fixpoint expire_fields b key slot fields at_ms (cond : HashFieldExpireCond.t) now_ms
    : option (list Z * list Bytes * bucket) :=
  match fields with
  | [] => Some ([], [], b)
  | field :: fields =>
      hash ← expect (ObjectSlab.get (hash_slab b) slot);
      let present := HashObject.contains_key hash field &&
                     negb (hash_field_is_expired b key field now_ms) in
      let '(code, del, b) :=
        if negb present then ((-2)%Z, [], b)
        else if negb (cond_allows cond (hash_field_expiry b key field) at_ms) then (0%Z, [], b)
        else if (at_ms <=? now_ms)%Z then (2%Z, [field], b)
        else (1%Z, [], set_hash_field_expiry b key field at_ms) in
      '(codes, to_delete, b) ← expire_fields b key slot fields at_ms cond now_ms;
      Some (code :: codes, del ++ to_delete, b)
  end.

Definition hash_field_expire b key fields at_ms (cond : HashFieldExpireCond.t) now_ms
    : option ((RedisObjectResult * bool) * bucket) :=
  on_live_hash b key now_ms (IntegerArray (replicate (length fields) (-2)%Z)) (λ slot b,
    '(codes, to_delete, b) ← expire_fields b key slot fields at_ms cond now_ms;
    '(emptied, b) ← delete_fields b key slot to_delete;
    Some ((IntegerArray codes, emptied), b)).

(** One answer of HTTL, HPTTL, HEXPIRETIME or HPEXPIRETIME. *)
Definition ttl_answer (as_millis absolute : bool) (at_ms now_ms : Z) : Z :=
  match absolute, as_millis with
  | true, true => wrap_i64 at_ms
  | true, false => wrap_i64 (at_ms / 1000)
  | false, true => wrap_i64 (u64_saturating_sub at_ms now_ms)
  | false, false => wrap_i64 ((u64_saturating_sub at_ms now_ms + 999) / 1000)
  end.

Definition hash_field_ttl_query b key fields (as_millis absolute : bool) now_ms
    : option RedisObjectResult :=
  read_object KHash b key (λ hash,
    Some (IntegerArray ((λ field,
      if negb (HashObject.contains_key hash field) || hash_field_is_expired b key field now_ms
      then (-2)%Z
      else match hash_field_expiry b key field with
           | None => (-1)%Z
           | Some at_ms => ttl_answer as_millis absolute at_ms now_ms
           end) <$> fields)))
    WrongType (IntegerArray (replicate (length fields) (-2)%Z)).

Fixpoint persist_fields b key slot fields now_ms : option (list Z * bucket) :=
  match fields with
  | [] => Some ([], b)
  | field :: fields =>
      hash ← expect (ObjectSlab.get (hash_slab b) slot);
      let '(code, b) :=
        if negb (HashObject.contains_key hash field) || hash_field_is_expired b key field now_ms
        then ((-2)%Z, b)
        else match hash_field_expiry b key field with
             | Some _ => (1%Z, clear_hash_field_ttl b key field)
             | None => ((-1)%Z, b)
             end in
      '(codes, b) ← persist_fields b key slot fields now_ms;
      Some (code :: codes, b)
  end.

Definition hash_field_persist b key fields now_ms : option ((RedisObjectResult * bool) * bucket) :=
  on_live_hash b key now_ms (IntegerArray (replicate (length fields) (-2)%Z)) (λ slot b,
    '(codes, b) ← persist_fields b key slot fields now_ms;
    Some ((IntegerArray codes, false), b)).

(** [fields.iter().zip(values.iter()).filter(|(_, value)| value.is_some())]. *)
Definition existing (fields : list Bytes) (values : list (option Bytes)) : list Bytes :=
  (filter (λ fv, is_Some fv.2) (zip fields values)).*1.

Definition hash_field_getdel b key fields now_ms : option ((RedisObjectResult * bool) * bucket) :=
  on_live_hash b key now_ms (Array (replicate (length fields) None)) (λ slot b,
    hash ← expect (ObjectSlab.get (hash_slab b) slot);
    let values := HashObject.get hash <$> fields in
    '(emptied, b) ← delete_fields b key slot (existing fields values);
    Some ((Array values, emptied), b)).

Definition hash_field_getex b key fields (action : HashFieldGetExpireAction.t) now_ms
    : option ((RedisObjectResult * bool) * bucket) :=
  on_live_hash b key now_ms (Array (replicate (length fields) None)) (λ slot b,
    hash ← expect (ObjectSlab.get (hash_slab b) slot);
    let values := HashObject.get hash <$> fields in
    let existing_fields := existing fields values in
    let '(to_delete, b) :=
      match action with
      | HashFieldGetExpireAction.Keep => ([], b)
      | HashFieldGetExpireAction.Persist =>
          ([], foldl (λ b f, clear_hash_field_ttl b key f) b existing_fields)
      | HashFieldGetExpireAction.ExpireAt at_ms =>
          if (at_ms <=? now_ms)%Z then (existing_fields, b)
          else ([], foldl (λ b f, set_hash_field_expiry b key f at_ms) b existing_fields)
      end in
    '(emptied, b) ← delete_fields b key slot to_delete;
    Some ((Array values, emptied), b)).

Definition set_allowed (condition : HashFieldSetCondition.t) (existing_count total : nat) : bool :=
  match condition with
  | HashFieldSetCondition.Always => true
  | HashFieldSetCondition.FnX => bool_decide (existing_count = 0)
  | HashFieldSetCondition.FxX => bool_decide (existing_count = total)
  end.

(** The tail of [hash_field_setex]: what happens to the deadlines. *)
Definition setex_ttls b key slot fvs (action : HashFieldSetExpireAction.t) now_ms (created : bool)
    : option ((RedisObjectResult * bool) * bucket) :=
  match action with
  | HashFieldSetExpireAction.KeepTtl => Some ((Integer 1, created), b)
  | HashFieldSetExpireAction.Clear =>
      Some ((Integer 1, created), foldl (λ b f, clear_hash_field_ttl b key f) b fvs.*1)
  | HashFieldSetExpireAction.ExpireAt at_ms =>
      if (at_ms <=? now_ms)%Z then
        '(now_empty, b) ← with_slot KHash b slot (remove_each fvs.*1);
        let b := foldl (λ b f, clear_hash_field_ttl b key f) b fvs.*1 in
        if now_empty : bool then Some ((Integer 1, true), remove_hash_slot b key slot)
        else Some ((Integer 1, created), b)
      else
        Some ((Integer 1, created), foldl (λ b f, set_hash_field_expiry b key f at_ms) b fvs.*1)
  end.

Definition hash_field_setex b key fvs (condition : HashFieldSetCondition.t)
    (action : HashFieldSetExpireAction.t) now_ms : option ((RedisObjectResult * bool) * bucket) :=
  if bool_decide (fvs = []) then Some ((Integer 0, false), b)
  else
    b ← remove_expired_hash_fields b key now_ms;
    '(gone, b) ← remove_hash_if_empty b key;
    let b := if gone : bool then set_exp (delete key (expire_at_ms b)) b else b in
    let existing_slot := SlotMap.get (hashes b) key in
    if bool_decide (existing_slot = None) && has_non_hash b key then Some ((WrongType, false), b)
    else
      let existing_count :=
        match existing_slot ≫= ObjectSlab.get (hash_slab b) with
        | Some hash => length (filter (λ fv, HashObject.contains_key hash fv.1 = true) fvs)
        | None => 0
        end in
      if negb (set_allowed condition existing_count (length fvs)) then Some ((Integer 0, false), b)
      else
        '(slot, created, b) ←
          match existing_slot with
          | Some slot => Some (slot, false, b)
          | None =>
              '(slot, sl) ← ObjectSlab.insert (HashObject.map_with_capacity (length fvs)) (hash_slab b);
              Some (slot, true,
                    set_table KHash (SlotMap.insert (hashes b) key slot).2 sl b)
          end;
        '(_, b) ← with_slot KHash b slot (λ hash,
           Some ((), foldl (λ x fv, (HashObject.insert_slice x fv.1 fv.2).2) hash fvs));
        setex_ttls b key slot fvs action now_ms created.

(** ** Abstract counterparts *)

Definition a_on_live a key now_ms (missing : RedisObjectResult)
    (body : gmap Bytes Bytes → AState → (RedisObjectResult * bool) * AState)
    : (RedisObjectResult * bool) * AState :=
  match a_objs a !! key with
  | None => ((missing, false), a)
  | Some (AHash h) =>
      let live := a_live a key now_ms h in
      if bool_decide (live = ∅) then ((missing, true), a_delete a key)
      else body live (a_purge a key now_ms)
  | Some _ => ((WrongType, false), a)
  end.

(** What HEXPIRE answers for one field and does to its deadline. *)
Definition a_expire_code h (ttls : gmap Bytes Z) at_ms (cond : HashFieldExpireCond.t) now_ms field : Z :=
  match h !! field with
  | None => (-2)%Z
  | Some _ => if negb (cond_allows cond (ttls !! field) at_ms) then 0%Z
              else if (at_ms <=? now_ms)%Z then 2%Z else 1%Z
  end.

Fixpoint a_expire_fields h ttls fields at_ms (cond : HashFieldExpireCond.t) now_ms
    : list Z * list Bytes * gmap Bytes Z :=
  match fields with
  | [] => ([], [], ttls)
  | field :: fields =>
      let code := a_expire_code h ttls at_ms cond now_ms field in
      let ttls := if (code =? 1)%Z then <[field := at_ms]> ttls else ttls in
      let '(codes, dels, ttls) := a_expire_fields h ttls fields at_ms cond now_ms in
      (code :: codes, (if (code =? 2)%Z then [field] else []) ++ dels, ttls)
  end.

Definition a_hash_field_expire a key fields at_ms (cond : HashFieldExpireCond.t) now_ms :=
  a_on_live a key now_ms (IntegerArray (replicate (length fields) (-2)%Z)) (λ h a,
    let '(codes, dels, ttls) := a_expire_fields h (a_ttls a key) fields at_ms cond now_ms in
    let '(emptied, a) := a_remove_fields (a_put_hash a key h ttls) key h dels in
    ((IntegerArray codes, emptied), a)).

Definition a_hash_field_ttl_query a key fields (as_millis absolute : bool) now_ms : RedisObjectResult :=
  a_read KHash a key (λ h, IntegerArray ((λ field,
    match a_live a key now_ms h !! field, a_ttls a key !! field with
    | None, _ => (-2)%Z
    | Some _, None => (-1)%Z
    | Some _, Some at_ms => ttl_answer as_millis absolute at_ms now_ms
    end) <$> fields)) WrongType (IntegerArray (replicate (length fields) (-2)%Z)).

Fixpoint a_persist_codes h ttls fields : list Z :=
  match fields with
  | [] => []
  | field :: fields =>
      match h !! field, ttls !! field with
      | None, _ => (-2)%Z
      | Some _, None => (-1)%Z
      | Some _, Some _ => 1%Z
      end :: a_persist_codes h (delete field ttls) fields
  end.

Definition a_hash_field_persist a key fields now_ms :=
  a_on_live a key now_ms (IntegerArray (replicate (length fields) (-2)%Z)) (λ h a,
    ((IntegerArray (a_persist_codes h (a_ttls a key) fields), false),
     a_put_hash a key h (filter (λ e, e.1 ∉ fields) (a_ttls a key)))).

Definition a_hash_field_getdel a key fields now_ms :=
  a_on_live a key now_ms (Array (replicate (length fields) None)) (λ h a,
    let '(emptied, a) := a_remove_fields a key h fields in
    ((Array ((h !!.) <$> fields), emptied), a)).

(** Giving the fields that exist a deadline. *)
Definition put_deadlines h ttls fields at_ms : gmap Bytes Z :=
  foldl (λ t f, match h !! f with Some _ => <[f := at_ms]> t | None => t end) ttls fields.

Definition a_hash_field_getex a key fields (action : HashFieldGetExpireAction.t) now_ms :=
  a_on_live a key now_ms (Array (replicate (length fields) None)) (λ h a,
    let values := (h !!.) <$> fields in
    match action with
    | HashFieldGetExpireAction.Keep => ((Array values, false), a)
    | HashFieldGetExpireAction.Persist =>
        ((Array values, false), a_put_hash a key h (filter (λ e, e.1 ∉ fields) (a_ttls a key)))
    | HashFieldGetExpireAction.ExpireAt at_ms =>
        if (at_ms <=? now_ms)%Z then
          let '(emptied, a) := a_remove_fields a key h fields in ((Array values, emptied), a)
        else ((Array values, false), a_put_hash a key h (put_deadlines h (a_ttls a key) fields at_ms))
    end).

Definition a_setex_ttls a key h fvs (action : HashFieldSetExpireAction.t) now_ms (created : bool)
    : (RedisObjectResult * bool) * AState :=
  let ttls := a_ttls a key in
  match action with
  | HashFieldSetExpireAction.KeepTtl => ((Integer 1, created), a_put_hash a key h ttls)
  | HashFieldSetExpireAction.Clear =>
      ((Integer 1, created), a_put_hash a key h (filter (λ e, e.1 ∉ fvs.*1) ttls))
  | HashFieldSetExpireAction.ExpireAt at_ms =>
      if (at_ms <=? now_ms)%Z then
        let '(emptied, a) := a_remove_fields a key h fvs.*1 in
        ((Integer 1, if emptied : bool then true else created), a)
      else ((Integer 1, created), a_put_hash a key h (put_deadlines h ttls fvs.*1 at_ms))
  end.

Definition a_hash_field_setex a key fvs (condition : HashFieldSetCondition.t)
    (action : HashFieldSetExpireAction.t) now_ms : (RedisObjectResult * bool) * AState :=
  if bool_decide (fvs = []) then ((Integer 0, false), a)
  else
    let a := (a_cleanup a key now_ms).2 in
    match a_objs a !! key with
    | Some (AHash h) =>
        let count := length (filter (λ fv, is_Some (h !! fv.1)) fvs) in
        if set_allowed condition count (length fvs)
        then a_setex_ttls a key (put_fields h fvs) fvs action now_ms false
        else ((Integer 0, false), a)
    | Some _ => ((WrongType, false), a)
    | None =>
        if set_allowed condition 0 (length fvs)
        then a_setex_ttls a key (put_fields ∅ fvs) fvs action now_ms true
        else ((Integer 0, false), a)
    end.

(** ** What the deadline updates keep *)

Lemma clear_keeps_slots b key fs :
  hashes (foldl (λ b f, clear_hash_field_ttl b key f) b fs) = hashes b.
Proof.
  revert b. induction fs as [|f fs IH]; intros b; [done|]. simpl. rewrite IH.
  unfold clear_hash_field_ttl. destruct (hash_field_expire_at_ms b !! key); [|done].
  cbn zeta. destruct b. by case_bool_decide.
Qed.

Lemma with_slot_keeps_slots {R : Type} b slot (r : R) b'
    (f : obj (OT := OT) KHash → option (R * obj (OT := OT) KHash)) :
  with_slot KHash b slot f = Some (r, b') → hashes b' = hashes b.
Proof.
  unfold with_slot. destruct (expect _); simpl; [|done]. destruct (f _) as [[]|]; simpl; [|done].
  intros [= <- <-]. by destruct b.
Qed.

Lemma purge_keeps_slots b key now_ms b' :
  remove_expired_hash_fields b key now_ms = Some b' → hashes b' = hashes b.
Proof.
  unfold remove_expired_hash_fields. destruct (hash_field_expire_at_ms b !! key); [|by intros [= ->]].
  case_bool_decide; [by intros [= ->]|]. destruct (SlotMap.get _ _); simpl.
  - destruct (with_slot _ _ _ _) as [[[] b1]|] eqn:E; simpl; [|done]. intros [= <-].
    rewrite clear_keeps_slots. by eapply with_slot_keeps_slots.
  - intros [= <-]. apply clear_keeps_slots.
Qed.

Lemma a_delete_put_hash a key h ttls : a_delete (a_put_hash a key h ttls) key = a_delete a key.
Proof.
  unfold a_delete, a_put_hash. simpl. f_equal; [by rewrite delete_insert_eq|].
  unfold put_ttls. case_bool_decide; [by rewrite delete_delete_eq|by rewrite delete_insert_eq].
Qed.

Lemma a_put_hash_twice a key h ttls h' ttls' :
  a_put_hash (a_put_hash a key h ttls) key h' ttls' = a_put_hash a key h' ttls'.
Proof. unfold a_put_hash. simpl. by rewrite insert_insert_eq, put_ttls_put. Qed.

Lemma a_ttls_put_hash a key h ttls : a_ttls (a_put_hash a key h ttls) key = ttls.
Proof.
  unfold a_ttls, a_put_hash. simpl. rewrite put_ttls_lookup, decide_True by done.
  by case_bool_decide.
Qed.

Lemma a_objs_put_hash a key h ttls : a_objs (a_put_hash a key h ttls) !! key = Some (AHash h).
Proof. apply lookup_insert_eq. Qed.

Lemma gone_spec b a key :
  bucket_rep b a →
  ∃ b' (gone : bool), remove_hash_if_empty b key = Some (gone, b') ∧
    (gone = true ↔ a_objs a !! key = Some (AHash ∅)) ∧ (gone = false → b' = b) ∧
    bucket_rep b' (if gone then a_delete a key else a).
Proof.
  intros Hb. destruct (remove_hash_if_empty_spec b a key Hb) as (b' & Hr & Hb').
  exists b'. eexists. split; [done|]. split; [by rewrite bool_decide_eq_true, a_get_Some|].
  split; [|done]. intros Hf. rewrite Hf in Hr. unfold remove_hash_if_empty in Hr.
  destruct (SlotMap.get _ _); [|congruence]. destruct (expect _); simpl in Hr; [|done].
  destruct (negb _); congruence.
Qed.

(** The purged key space, as seen by the bodies. *)
Lemma a_purge_hash a key now_ms h :
  wf_a a → a_objs a !! key = Some (AHash h) →
  a_purge a key now_ms = a_put_hash a key (a_live a key now_ms h)
    (filter (λ e, (e.2 <=? now_ms)%Z = false) (a_ttls a key)).
Proof. intros Hw Hh. unfold a_purge. by rewrite (proj2 (a_get_Some KHash a key h) Hh). Qed.

Lemma on_live_spec b a key now_ms (missing : RedisObjectResult)
    (body : SlotId → bucket → option ((RedisObjectResult * bool) * bucket))
    (abody : gmap Bytes Bytes → AState → (RedisObjectResult * bool) * AState) :
  bucket_rep b a →
  (∀ b1 a1 slot h, bucket_rep b1 a1 → a_objs a1 !! key = Some (AHash h) → h ≠ ∅ →
     SlotMap.get (hashes b1) key = Some slot →
     (∀ f t, a_ttls a1 key !! f = Some t → (t <=? now_ms)%Z = false) →
     ∃ b', body slot b1 = Some ((abody h a1).1, b') ∧ bucket_rep b' (abody h a1).2) →
  ∃ b', on_live_hash b key now_ms missing body = Some ((a_on_live a key now_ms missing abody).1, b') ∧
        bucket_rep b' (a_on_live a key now_ms missing abody).2.
Proof.
  intros Hb Hbody. pose proof Hb as [Hp Hw]. unfold on_live_hash, a_on_live.
  destruct (hash_cases a key) as [[h Hg]|Hg].
  2: { destruct (no_hash_slot b a key Hp Hg) as [-> ->]. unfold a_has, a_get in *. exists b.
       by destruct (a_objs a !! key) as [[]|]. }
  rewrite Hg. destruct (hash_slot b a key h Hp Hg) as (s & x & Hs & _). rewrite Hs.
  destruct (remove_expired_hash_fields_spec b a key now_ms Hb) as (b1 & E1 & Hb1).
  rewrite E1. cbn [mbind option_bind]. apply purge_keeps_slots in E1.
  destruct (gone_spec b1 _ key Hb1) as (b2 & gone & -> & Hgone & Hkeep & Hb2).
  rewrite (a_purge_hash a key now_ms h) in * by done. set (a1 := a_put_hash _ _ _ _) in *.
  assert (a_objs a1 !! key = Some (AHash (a_live a key now_ms h))) as Ho by apply lookup_insert_eq.
  cbn [mbind option_bind]. case_bool_decide as Hem.
  - destruct gone; [|naive_solver congruence].
    eexists. split; [done|]. unfold a1 in Hb2. by rewrite a_delete_put_hash in Hb2.
  - destruct gone; [naive_solver congruence|]. rewrite (Hkeep eq_refl).
    apply Hbody; [done|done|done|by rewrite E1|]. intros f t. unfold a1. rewrite a_ttls_put_hash.
    rewrite map_lookup_filter_Some. by intros [_ ?].
Qed.

(** Deleting fields and their deadlines, and the key with the last one. *)
Lemma remove_and_clear_spec b a key slot h fields (dels : list Bytes) :
  bucket_rep b a → a_objs a !! key = Some (AHash h) → SlotMap.get (hashes b) key = Some slot →
  (∀ g, g ∈ dels ↔ g ∈ fields ∧ is_Some (h !! g)) →
  let h' := filter (λ e, e.1 ∉ fields) h in
  ∃ b1, with_slot KHash b slot (remove_each dels) = Some (bool_decide (h' = ∅), b1) ∧
        let b2 := foldl (λ b f, clear_hash_field_ttl b key f) b1 dels in
        bucket_rep (remove_hash_slot b2 key slot) (a_delete a key) ∧
        bucket_rep b2 (a_put_hash a key h' (filter (λ e, e.1 ∉ fields) (a_ttls a key))).
Proof.
  intros Hb Hg Hs Hdels h'. destruct (hash_shrink_spec b a key slot h fields
    (λ r, r = bool_decide (h' = ∅)) (remove_each dels) Hb Hg Hs) as (r & b1 & Ew & -> & _ & Hkeep).
  { intros x Hx Hxa. destruct (HashObject.hash_remove_all_spec x dels Hx) as [Q1 Q2].
    assert (HashObject.abs (foldl (λ x f, (HashObject.remove x f).2) x dels) = h') as Q3.
    { rewrite Q2, Hxa. apply map_filter_ext. intros g v Hv. simpl. rewrite Hdels.
      assert (is_Some (h !! g)) by eauto. tauto. }
    eexists _, _. split; [done|]. split; [done|]. split; [done|].
    by rewrite HashObject.hash_is_empty_spec, Q3. }
  rewrite Ew. exists b1. split; [done|]. cbn zeta. pose proof (Hkeep dels Hdels) as Hb2. split; [|done].
  rewrite <-(a_delete_put_hash a key h' (filter (λ e, e.1 ∉ fields) (a_ttls a key))).
  eapply remove_hash_slot_rep; [done|apply a_get_Some, a_objs_put_hash|].
  rewrite clear_keeps_slots. apply with_slot_keeps_slots in Ew. by rewrite Ew.
Qed.

Lemma delete_fields_spec b a key slot h fields (dels : list Bytes) :
  bucket_rep b a → a_objs a !! key = Some (AHash h) → h ≠ ∅ → SlotMap.get (hashes b) key = Some slot →
  (∀ g, g ∈ dels ↔ g ∈ fields ∧ is_Some (h !! g)) →
  ∃ b', delete_fields b key slot dels = Some ((a_remove_fields a key h fields).1, b') ∧
        bucket_rep b' (a_remove_fields a key h fields).2.
Proof.
  intros Hb Hg Hne Hs Hdels. unfold delete_fields, a_remove_fields.
  case_bool_decide as Hd.
  - subst dels. assert (∀ g, is_Some (h !! g) → g ∉ fields) as Hnone.
    { intros g Hsg Hin. assert (g ∈ []) as Hn by by apply Hdels. set_solver. }
    rewrite !map_filter_id; [|intros g t Ht; simpl; apply Hnone; eapply a_ttls_fields;
      [apply Hb|by apply a_get_Some|eauto]|intros g v Hv; simpl; eauto].
    rewrite bool_decide_eq_false_2 by done. rewrite a_put_hash_same; [by exists b|apply Hb|].
    by apply a_get_Some.
  - destruct (remove_and_clear_spec b a key slot h fields dels Hb Hg Hs Hdels) as (b1 & -> & Hdrop & Hkeep).
    cbn [mbind option_bind]. case_bool_decide; by eexists.
Qed.

(** Deadlines of the key change while its hash stays. *)
Section Deadlines.
Context (a : AState) (key : Bytes) (h : gmap Bytes Bytes).

Lemma set_deadline_rep b ttls field at_ms :
  bucket_rep b (a_put_hash a key h ttls) → is_Some (h !! field) →
  bucket_rep (set_hash_field_expiry b key field at_ms) (a_put_hash a key h (<[field := at_ms]> ttls)).
Proof.
  intros [Hp Hw] Hf.
  assert (a_put_hash a key h (<[field := at_ms]> ttls) =
          a_set_fexp (a_put_hash a key h ttls)
            (<[key := <[field := at_ms]> ttls]> (a_fexp (a_put_hash a key h ttls)))) as E.
  { unfold a_put_hash, a_set_fexp. simpl. f_equal. apply map_eq. intros k.
    rewrite put_ttls_lookup. case_decide; [subst|].
    - rewrite lookup_insert_eq, bool_decide_eq_false_2; [done|]. apply insert_non_empty.
    - rewrite lookup_insert_ne by done. by rewrite put_ttls_lookup, decide_False. }
  split.
  - unfold set_hash_field_expiry. rewrite (phys_fexp _ _ Hp).
    change (default ∅ (a_fexp (a_put_hash a key h ttls) !! key))
      with (a_ttls (a_put_hash a key h ttls) key).
    rewrite a_ttls_put_hash, E. by apply phys_set_fexp.
  - rewrite <-(a_put_hash_twice a key h ttls). apply wf_a_put_hash_ttls; [done|].
    intros f. destruct (decide (f = field)) as [->|]; [done|]. rewrite lookup_insert_ne by done.
    intros Hs. eapply (a_ttls_fields (a_put_hash a key h ttls) key); [done| |].
    + apply a_get_Some, a_objs_put_hash.
    + by rewrite a_ttls_put_hash.
Qed.

Lemma clear_deadlines_rep b ttls fs :
  bucket_rep b (a_put_hash a key h ttls) →
  bucket_rep (foldl (λ b f, clear_hash_field_ttl b key f) b fs)
             (a_put_hash a key h (filter (λ e, e.1 ∉ fs) ttls)).
Proof.
  intros Hb. apply (clear_fields_rep b _ key fs) in Hb. rewrite a_ttls_put_hash in Hb.
  unfold a_set_fexp, a_put_hash in *. simpl in *. by rewrite put_ttls_put in Hb.
Qed.

Lemma set_deadlines_rep b ttls fs at_ms :
  bucket_rep b (a_put_hash a key h ttls) → (∀ f, f ∈ fs → is_Some (h !! f)) →
  bucket_rep (foldl (λ b f, set_hash_field_expiry b key f at_ms) b fs)
             (a_put_hash a key h (put_deadlines h ttls fs at_ms)).
Proof.
  revert b ttls. induction fs as [|f fs IH]; intros b ttls Hb Hfs; [done|]. unfold put_deadlines. simpl.
  destruct (Hfs f) as [v Hv]; [set_solver|]. rewrite Hv.
  apply IH; [|intros; apply Hfs; set_solver]. apply set_deadline_rep; eauto.
Qed.

Lemma put_deadlines_existing ttls fs at_ms (P : Bytes → Prop) `{∀ f, Decision (P f)} :
  (∀ f, P f ↔ is_Some (h !! f)) →
  put_deadlines h ttls (filter P fs) at_ms = put_deadlines h ttls fs at_ms.
Proof.
  intros HP. revert ttls. induction fs as [|f fs IH]; intros ttls; [done|].
  rewrite filter_cons. unfold put_deadlines in *. simpl. case_decide as Hf; simpl; [apply IH|].
  rewrite HP in Hf. apply eq_None_not_Some in Hf. rewrite Hf. apply IH.
Qed.
End Deadlines.

Lemma set_keeps_slots b key fs at_ms :
  hashes (foldl (λ b f, set_hash_field_expiry b key f at_ms) b fs) = hashes b.
Proof. revert b. induction fs as [|f fs IH]; intros b; [done|]. simpl. rewrite IH. by destruct b. Qed.

(** ** Refinement *)

Lemma hash_field_expiry_spec b a key field :
  phys b a → hash_field_expiry b key field = a_ttls a key !! field.
Proof.
  intros Hp. unfold hash_field_expiry, a_ttls. rewrite (phys_fexp _ _ Hp).
  destruct (a_fexp a !! key); simpl; [done|]. by rewrite lookup_empty.
Qed.

(** No deadline of the key passed: what holds after a purge. *)
Definition pending ttls now_ms : Prop := ∀ f t, ttls !! f = Some t → (t <=? now_ms)%Z = false.

Lemma pending_not_expired a key field now_ms :
  pending (a_ttls a key) now_ms → a_field_expired a key field now_ms = false.
Proof.
  intros Hpend. rewrite a_field_expired_ttls. destruct (a_ttls a key !! field) eqn:E; [|done]. eauto.
Qed.

(** Looking at one field inside a loop over fields. *)
Lemma loop_field_spec b a key slot h ttls field now_ms :
  bucket_rep b (a_put_hash a key h ttls) → SlotMap.get (hashes b) key = Some slot → pending ttls now_ms →
  ∃ x, ObjectSlab.get (hash_slab b) slot = Some x ∧
       HashObject.contains_key x field = bool_decide (is_Some (h !! field)) ∧
       hash_field_is_expired b key field now_ms = false ∧
       hash_field_expiry b key field = ttls !! field.
Proof.
  intros [Hp Hw] Hs Hpend.
  destruct (hash_slot b _ key h Hp (a_objs_put_hash _ _ _ _)) as (s & x & Hs' & Hx & Hxw & Hxa).
  rewrite Hs in Hs'. injection Hs' as <-. exists x. split; [done|].
  split; [by rewrite HashObject.hash_contains_spec, Hxa|]. split.
  - rewrite (hash_field_is_expired_spec b _ key field now_ms Hp).
    apply pending_not_expired. by rewrite a_ttls_put_hash.
  - rewrite (hash_field_expiry_spec b _ key field Hp). by rewrite a_ttls_put_hash.
Qed.

Lemma expire_fields_spec b a key slot h ttls fields at_ms (cond : HashFieldExpireCond.t) now_ms :
  bucket_rep b (a_put_hash a key h ttls) → SlotMap.get (hashes b) key = Some slot → pending ttls now_ms →
  let r := a_expire_fields h ttls fields at_ms cond now_ms in
  ∃ b', expire_fields b key slot fields at_ms cond now_ms = Some (r.1.1, r.1.2, b') ∧
        bucket_rep b' (a_put_hash a key h r.2) ∧ SlotMap.get (hashes b') key = Some slot ∧
        (∀ g, g ∈ r.1.2 → is_Some (h !! g)).
Proof.
  revert b ttls. induction fields as [|field fields IH]; intros b ttls Hb Hs Hpend.
  { exists b. split_and!; [done..|]. intros g Hg. simpl in Hg. set_solver. }
  destruct (loop_field_spec b a key slot h ttls field now_ms Hb Hs Hpend) as (x & E1 & E2 & E3 & E4).
  cbn [expire_fields a_expire_fields]. rewrite E1. cbn [expect mbind option_bind]. rewrite E2, E3, E4.
  unfold a_expire_code. destruct (h !! field) as [v|] eqn:Ef; cbn -[expire_fields a_expire_fields].
  2: { destruct (IH b ttls Hb Hs Hpend) as (b' & -> & H2 & H3 & H4).
       destruct (a_expire_fields _ _ _ _ _ _) as [[codes dels] ttls']. simpl in *. by exists b'. }
  destruct (cond_allows cond (ttls !! field) at_ms); cbn -[expire_fields a_expire_fields].
  2: { destruct (IH b ttls Hb Hs Hpend) as (b' & -> & H2 & H3 & H4).
       destruct (a_expire_fields _ _ _ _ _ _) as [[codes dels] ttls']. simpl in *. by exists b'. }
  destruct (at_ms <=? now_ms)%Z eqn:Et; cbn -[expire_fields a_expire_fields].
  - destruct (IH b ttls Hb Hs Hpend) as (b' & -> & H2 & H3 & H4).
    destruct (a_expire_fields _ _ _ _ _ _) as [[codes dels] ttls']. simpl in *. exists b'.
    split_and!; [done..|]. intros g [->|]%elem_of_cons; [eauto|auto].
  - destruct (IH (set_hash_field_expiry b key field at_ms) (<[field := at_ms]> ttls)) as (b' & -> & H2 & H3 & H4).
    + apply set_deadline_rep; [done|eauto].
    + by destruct b.
    + intros f t. rewrite lookup_insert_Some. naive_solver.
    + destruct (a_expire_fields _ _ _ _ _ _) as [[codes dels] ttls']. simpl in *. by exists b'.
Qed.

Lemma hash_field_expire_refines b a key fields at_ms (cond : HashFieldExpireCond.t) now_ms :
  bucket_rep b a →
  let r := a_hash_field_expire a key fields at_ms cond now_ms in
  ∃ b', hash_field_expire b key fields at_ms cond now_ms = Some (r.1, b') ∧ bucket_rep b' r.2.
Proof.
  intros Hb. apply on_live_spec; [done|]. intros b1 a1 slot h Hb1 Hg Hne Hs Hpend.
  rewrite <-(a_put_hash_same a1 key h) in Hb1 by first [apply Hb1|by apply a_get_Some].
  destruct (expire_fields_spec b1 a1 key slot h (a_ttls a1 key) fields at_ms cond now_ms Hb1 Hs Hpend)
    as (b2 & -> & Hb2 & Hs2 & Hdels).
  destruct (a_expire_fields _ _ _ _ _ _) as [[codes dels] ttls]. simpl in *.
  destruct (delete_fields_spec b2 _ key slot h dels dels Hb2) as (b3 & -> & Hb3);
    [apply a_objs_put_hash|done|done|naive_solver|].
  destruct (a_remove_fields _ _ _ _) as [e a2]. by exists b3.
Qed.

Lemma hash_field_ttl_query_spec b a key fields (as_millis absolute : bool) now_ms :
  bucket_rep b a →
  hash_field_ttl_query b key fields as_millis absolute now_ms =
    Some (a_hash_field_ttl_query a key fields as_millis absolute now_ms).
Proof.
  intros Hb. apply hash_reads_spec; [done|]. intros x h Hx Hxa Hh. do 2 f_equal.
  apply list_fmap_ext. intros i f _. rewrite a_live_lookup.
  rewrite (hash_field_is_expired_spec b a), (hash_field_expiry_spec b a) by apply Hb.
  rewrite HashObject.hash_contains_spec, Hxa by done.
  destruct (h !! f); simpl; by destruct (a_field_expired _ _ _ _).
Qed.

Lemma filter_cons_delete ttls field fs :
  filter (λ e, e.1 ∉ fs) (delete field ttls) = filter (λ e, e.1 ∉ field :: fs) ttls.
Proof.
  apply map_eq. intros k. apply option_eq. intros v.
  rewrite !map_lookup_filter_Some, lookup_delete_Some. simpl. rewrite not_elem_of_cons. naive_solver.
Qed.

Lemma persist_fields_spec b a key slot h ttls fields now_ms :
  bucket_rep b (a_put_hash a key h ttls) → SlotMap.get (hashes b) key = Some slot → pending ttls now_ms →
  ∃ b', persist_fields b key slot fields now_ms = Some (a_persist_codes h ttls fields, b') ∧
        bucket_rep b' (a_put_hash a key h (filter (λ e, e.1 ∉ fields) ttls)).
Proof.
  revert b ttls. induction fields as [|field fields IH]; intros b ttls Hb Hs Hpend.
  { exists b. rewrite map_filter_id by (intros; apply not_elem_of_nil). done. }
  destruct (loop_field_spec b a key slot h ttls field now_ms Hb Hs Hpend) as (x & E1 & E2 & E3 & E4).
  cbn [persist_fields a_persist_codes]. rewrite E1. cbn [expect mbind option_bind]. rewrite E2, E3, E4.
  assert (∀ f, is_Some (ttls !! f) → is_Some (h !! f)) as Hdom.
  { intros f Hf. eapply (a_ttls_fields (a_put_hash a key h ttls) key); [apply Hb| |].
    - apply a_get_Some, a_objs_put_hash.
    - by rewrite a_ttls_put_hash. }
  rewrite <-filter_cons_delete.
  assert (pending (delete field ttls) now_ms) as Hpend'.
  { intros f t [_ Ht]%lookup_delete_Some. eauto. }
  destruct (ttls !! field) as [t|] eqn:Et.
  - destruct (Hdom field) as [v Hv]; [eauto|]. rewrite Hv. cbn -[persist_fields].
    destruct (IH (clear_hash_field_ttl b key field) (delete field ttls)) as (b' & -> & Hb'); [| |done|].
    + rewrite <-filter_singleton_delete. apply (clear_deadlines_rep a key h b ttls [field] Hb).
    + change (clear_hash_field_ttl b key field)
        with (foldl (λ b f, clear_hash_field_ttl b key f) b [field]). by rewrite clear_keeps_slots.
    + simpl. eauto.
  - rewrite delete_id in * by done. destruct (IH b ttls Hb Hs Hpend) as (b' & Hb' & ?).
    destruct (h !! field); cbn -[persist_fields]; rewrite Hb'; simpl; eauto.
Qed.

Lemma hash_field_persist_refines b a key fields now_ms :
  bucket_rep b a →
  let r := a_hash_field_persist a key fields now_ms in
  ∃ b', hash_field_persist b key fields now_ms = Some (r.1, b') ∧ bucket_rep b' r.2.
Proof.
  intros Hb. apply on_live_spec; [done|]. intros b1 a1 slot h Hb1 Hg Hne Hs Hpend.
  rewrite <-(a_put_hash_same a1 key h) in Hb1 by first [apply Hb1|by apply a_get_Some].
  destruct (persist_fields_spec b1 a1 key slot h (a_ttls a1 key) fields now_ms Hb1 Hs Hpend)
    as (b2 & -> & Hb2).
  by exists b2.
Qed.

Lemma existing_spec h fields : existing fields ((h !!.) <$> fields) = filter (λ f, is_Some (h !! f)) fields.
Proof.
  unfold existing. induction fields as [|f fs IH]; [done|].
  rewrite fmap_cons. cbn [zip zip_with]. rewrite !filter_cons. simpl.
  case_decide; [rewrite fmap_cons|]; by rewrite IH.
Qed.

Lemma existing_elem h fields g :
  g ∈ filter (λ f, is_Some (h !! f)) fields ↔ g ∈ fields ∧ is_Some (h !! g).
Proof. rewrite list_elem_of_filter. tauto. Qed.

(** Reading the values at the start of HGETDEL and HGETEX. *)
Lemma read_values_spec b a key slot h fields :
  bucket_rep b a → a_objs a !! key = Some (AHash h) → SlotMap.get (hashes b) key = Some slot →
  ∃ x, ObjectSlab.get (hash_slab b) slot = Some x ∧ HashObject.get x <$> fields = (h !!.) <$> fields.
Proof.
  intros [Hp _] Hg Hs. destruct (hash_slot b a key h Hp Hg) as (s & x & Hs' & Hx & Hxw & Hxa).
  rewrite Hs in Hs'. injection Hs' as <-. exists x. split; [done|].
  apply list_fmap_ext. intros i f _. by rewrite HashObject.hash_get_spec, Hxa.
Qed.

Lemma hash_field_getdel_refines b a key fields now_ms :
  bucket_rep b a →
  let r := a_hash_field_getdel a key fields now_ms in
  ∃ b', hash_field_getdel b key fields now_ms = Some (r.1, b') ∧ bucket_rep b' r.2.
Proof.
  intros Hb. apply on_live_spec; [done|]. intros b1 a1 slot h Hb1 Hg Hne Hs _.
  destruct (read_values_spec b1 a1 key slot h fields Hb1 Hg Hs) as (x & -> & Hv).
  cbn [expect mbind option_bind]. cbn zeta. rewrite Hv, existing_spec.
  destruct (delete_fields_spec b1 a1 key slot h fields (filter (λ f, is_Some (h !! f)) fields))
    as (b2 & -> & Hb2); [done..|intros g; apply existing_elem|].
  destruct (a_remove_fields a1 key h fields) as [e a2]. by exists b2.
Qed.

Lemma delete_no_fields b key slot : delete_fields b key slot [] = Some (false, b).
Proof. done. Qed.

Lemma hash_field_getex_refines b a key fields (action : HashFieldGetExpireAction.t) now_ms :
  bucket_rep b a →
  let r := a_hash_field_getex a key fields action now_ms in
  ∃ b', hash_field_getex b key fields action now_ms = Some (r.1, b') ∧ bucket_rep b' r.2.
Proof.
  intros Hb. apply on_live_spec; [done|]. intros b1 a1 slot h Hb1 Hg Hne Hs _.
  destruct (read_values_spec b1 a1 key slot h fields Hb1 Hg Hs) as (x & -> & Hv).
  cbn [expect mbind option_bind]. cbn zeta. rewrite Hv, existing_spec.
  assert (a_put_hash a1 key h (a_ttls a1 key) = a1) as Esame.
  { apply a_put_hash_same; [apply Hb1|by apply a_get_Some]. }
  set (ex := filter (λ f, is_Some (h !! f)) fields).
  assert (∀ g, g ∈ ex ↔ g ∈ fields ∧ is_Some (h !! g)) as Hex by (intros g; apply existing_elem).
  pose proof Hb1 as Hb1'. rewrite <-Esame in Hb1'. destruct action as [| |at_ms].
  - rewrite delete_no_fields. by exists b1.
  - rewrite delete_no_fields. simpl. eexists. split; [done|].
    rewrite <-(removed_ttls a1 key h fields ex) by first [apply Hb1|done].
    by apply clear_deadlines_rep.
  - destruct (at_ms <=? now_ms)%Z.
    + destruct (delete_fields_spec b1 a1 key slot h fields ex) as (b2 & -> & Hb2); [done..|].
      destruct (a_remove_fields a1 key h fields) as [e a2]. by exists b2.
    + rewrite delete_no_fields. simpl. eexists. split; [done|].
      rewrite <-(put_deadlines_existing h (a_ttls a1 key) fields at_ms (λ f, is_Some (h !! f))) by done.
      apply set_deadlines_rep; [done|]. intros f Hf. by apply Hex in Hf as [_ ?].
Qed.

(** *** HSETEX *)

Lemma put_fields_in h fvs f : f ∈ fvs.*1 → is_Some (put_fields h fvs !! f).
Proof.
  revert h. induction fvs as [|[g v] fvs IH]; intros h; simpl; [set_solver|].
  intros [->|Hf]%elem_of_cons; [|by apply IH].
  apply put_fields_lookup. rewrite lookup_insert_eq. eauto.
Qed.

Lemma setex_ttls_spec b a key slot h fvs (action : HashFieldSetExpireAction.t) now_ms (created : bool) :
  bucket_rep b (a_put_hash a key h (a_ttls a key)) → SlotMap.get (hashes b) key = Some slot →
  (∀ f, f ∈ fvs.*1 → is_Some (h !! f)) →
  let r := a_setex_ttls a key h fvs action now_ms created in
  ∃ b', setex_ttls b key slot fvs action now_ms created = Some (r.1, b') ∧ bucket_rep b' r.2.
Proof.
  intros Hb Hs Hin. cbn zeta. destruct action as [| |at_ms]; simpl.
  - eexists. split; [done|]. by apply clear_deadlines_rep.
  - by eexists.
  - destruct (at_ms <=? now_ms)%Z; simpl.
    + destruct (remove_and_clear_spec b _ key slot h fvs.*1 fvs.*1 Hb) as (b1 & -> & Hdrop & Hkeep);
        [apply a_objs_put_hash|done|naive_solver|]. cbn [mbind option_bind].
      rewrite a_delete_put_hash in Hdrop. rewrite a_put_hash_twice, a_ttls_put_hash in Hkeep.
      unfold a_remove_fields. case_bool_decide; by eexists.
    + eexists. split; [done|]. by apply set_deadlines_rep.
Qed.

(** Writing the fields into the slot of the key. *)
Lemma setex_write_spec b a key slot h fvs :
  bucket_rep b a → a_objs a !! key = Some (AHash h) → SlotMap.get (hashes b) key = Some slot →
  ∃ b', with_slot KHash b slot (λ hash : obj (OT := OT) KHash,
          Some ((), foldl (λ x fv, (HashObject.insert_slice x fv.1 fv.2).2) hash fvs)) = Some ((), b') ∧
        SlotMap.get (hashes b') key = Some slot ∧
        bucket_rep b' (a_put_hash a key (put_fields h fvs) (a_ttls a key)).
Proof.
  intros Hb Hg Hs.
  destruct (hash_update_spec b a key slot h (put_fields h fvs) () []
    (λ hash : obj (OT := OT) KHash,
       Some ((), foldl (λ x fv, (HashObject.insert_slice x fv.1 fv.2).2) hash fvs)) Hb Hg Hs)
    as (b1 & -> & Hs1 & _ & Hb1).
  - intros x Hx Hxa. destruct (HashObject.hash_insert_all_spec x fvs Hx) as [Q1 Q2].
    eexists. split; [done|]. split; [done|]. by rewrite Q2, Hxa.
  - intros g _ Hg'. right. by apply put_fields_lookup.
  - exists b1. split; [done|]. split; [done|]. simpl in Hb1.
    by rewrite map_filter_id in Hb1 by (intros; apply not_elem_of_nil).
Qed.

(** Creating the hash of an absent key. *)
Lemma setex_create_spec b a key (n : nat) :
  bucket_rep b a → a_objs a !! key = None →
  ∃ slot sl, ObjectSlab.insert (HashObject.map_with_capacity n) (hash_slab b) = Some (slot, sl) ∧
    let b' := set_table KHash (SlotMap.insert (hashes b) key slot).2 sl b in
    bucket_rep b' (a_put KHash a key ∅) ∧ SlotMap.get (hashes b') key = Some slot.
Proof.
  intros Hb Hn. destruct (HashObject.map_with_capacity_spec n) as [Hx Hxa].
  destruct (hash_create_spec b a key _ ∅ Hb Hn Hx Hxa) as (b' & Hi & Hb').
  unfold insert_object in Hi. simpl in Hi.
  destruct (ObjectSlab.insert _ _) as [[slot sl]|]; [|done]. injection Hi as Hi.
  exists slot, sl. split; [done|]. cbn zeta.
  change (SlotMap.insert (hashes b) key slot)
    with (SlotMap.insert_hashed (hashes b) (hash_key key) key slot).
  rewrite <-Hi in Hb'. split; [done|].
  destruct (phys_lookup_None KHash b a key) as [Hnone _]; [apply Hb|unfold a_get; by rewrite Hn|].
  destruct (phys_kind _ _ (proj1 Hb) KHash) as (m & Hm & _). pose proof (Table.rep_sm _ _ _ Hm) as Hsm.
  simpl in *. rewrite SlotMap.get_abs in Hnone by done.
  destruct (SlotMap.insert_hashed_spec (hashes b) (hash_key key) key slot Hsm eq_refl Hnone) as (_ & H2 & H3).
  destruct b. simpl in *. rewrite SlotMap.get_abs, H3 by done. apply lookup_insert_eq.
Qed.

(** The cleanup HSETEX starts with. *)
Lemma setex_cleanup_spec b a key now_ms :
  bucket_rep b a →
  ∃ b1 b2 (gone : bool), remove_expired_hash_fields b key now_ms = Some b1 ∧
    remove_hash_if_empty b1 key = Some (gone, b2) ∧
    bucket_rep (if gone then set_exp (delete key (expire_at_ms b2)) b2 else b2)
               (a_cleanup a key now_ms).2 ∧
    a_objs (a_cleanup a key now_ms).2 !! key ≠ Some (AHash ∅).
Proof.
  intros Hb. destruct (remove_expired_hash_fields_spec b a key now_ms Hb) as (b1 & -> & Hb1).
  destruct (gone_spec b1 _ key Hb1) as (b2 & gone & Hr & Hgone & _ & Hb2).
  exists b1, b2, gone. split; [done|]. split; [done|]. unfold a_cleanup.
  case_bool_decide as Hc; simpl.
  - apply a_get_Some in Hc. destruct gone; [|naive_solver congruence].
    split; [|rewrite lookup_delete_eq; done]. destruct Hb2 as [Hp Hw]. split; [|done].
    rewrite (phys_exp _ _ Hp). simpl. rewrite delete_delete_eq.
    apply (phys_set_exp _ _ (delete key (a_exp (a_purge a key now_ms)))) in Hp.
    by unfold a_set_exp, a_delete in *.
  - rewrite a_get_Some in Hc. destruct gone; [naive_solver|]. done.
Qed.

Lemma hash_field_setex_refines b a key fvs (condition : HashFieldSetCondition.t)
    (action : HashFieldSetExpireAction.t) now_ms :
  bucket_rep b a →
  let r := a_hash_field_setex a key fvs condition action now_ms in
  ∃ b', hash_field_setex b key fvs condition action now_ms = Some (r.1, b') ∧ bucket_rep b' r.2.
Proof.
  intros Hb0. cbn zeta. unfold hash_field_setex, a_hash_field_setex.
  case_bool_decide; [by exists b|].
  destruct (setex_cleanup_spec b a key now_ms Hb0) as (b0 & b1 & gone & -> & E & Hb & _).
  cbn [mbind option_bind]. rewrite E. cbn [mbind option_bind]. cbn zeta.
  generalize dependent ((a_cleanup a key now_ms).2). clear E Hb0. intros a1 Hb.
  set (b2 := if gone then _ else _) in *. pose proof Hb as [Hp Hw].
  destruct (hash_cases a1 key) as [[h Hg]|Hg].
  - rewrite Hg. destruct (hash_slot b2 a1 key h Hp Hg) as (s & x & Hs & Hx & Hxw & Hxa).
    rewrite Hs, bool_decide_eq_false_2 by done. cbn [andb mbind option_bind]. rewrite Hx.
    assert (length (filter (λ fv, HashObject.contains_key x fv.1 = true) fvs) =
            length (filter (λ fv, is_Some (h !! fv.1)) fvs)) as ->.
    { f_equal. apply list_filter_iff. intros fv. rewrite HashObject.hash_contains_spec, Hxa.
      by rewrite bool_decide_eq_true. }
    destruct (set_allowed _ _ _); [|by exists b2]. cbn [negb mbind option_bind].
    destruct (setex_write_spec b2 a1 key s h fvs Hb Hg Hs) as (b3 & -> & Hs3 & Hb3).
    cbn [mbind option_bind]. apply setex_ttls_spec; [done|done|]. intros f. apply put_fields_in.
  - destruct (no_hash_slot b2 a1 key Hp Hg) as [-> ->]. unfold a_has.
    destruct (a_objs a1 !! key) as [av|] eqn:Ho.
    { exists b2. unfold a_get in Hg. rewrite Ho in Hg. by destruct av. }
    rewrite bool_decide_eq_true_2, bool_decide_eq_false_2 by (done || by intros []).
    cbn [andb mbind option_bind]. destruct (set_allowed _ _ _); [|by exists b2].
    cbn [negb mbind option_bind].
    destruct (setex_create_spec b2 a1 key (length fvs) Hb Ho) as (s & sl & -> & Hb3 & Hs3).
    cbn [mbind option_bind]. set (b3 := set_table _ _ _ _) in *.
    destruct (setex_write_spec b3 _ key s ∅ fvs Hb3) as (b4 & -> & Hs4 & Hb4);
      [apply lookup_insert_eq|done|].
    cbn [mbind option_bind]. apply setex_ttls_spec; [|done|intros f; apply put_fields_in].
    revert Hb4. unfold a_put_hash, a_put. simpl. by rewrite insert_insert_eq.
Qed.
End HashTtl.
