(* ===== verification/Store.v ===== *)
(** * The object store: shards, counters, routed access

    [redis_objects/store.rs] keeps per shard 256 buckets and a counter of
    stored objects; [embedded_store/objects/access.rs] runs a bucket operation
    for a key: it drops what expired, runs the operation and keeps the counter.
    Each access holds the bucket's lock throughout a write, so it is one step
    here.  The answer of the string keyspace for the key
    ([string_exists_routed]) and the clock are arguments. *)

From S2P Require Import Prelude Deps Slab ListObject Helpers F64 Types HashSet ZSet Bucket.
From S2P Require Import BucketCore BucketKeys BucketList BucketSet BucketZSet BucketHash.
From S2P Require Import BucketHashTtl.

Definition OBJECT_BUCKETS : nat := 256.

Record EmbeddedKeyRoute := mkRoute { shard_id : nat; key_hash : Z }.

Section Store.
Context `{Hashing} {HT : Type → Type} `{!HashTable HT} `{TableOrder} `{FloatOps}.
Context {OT : Type} `{!IndexTreeSet ZSetOrderKey zk_cmp OT}.
Abbreviation bucket := (RedisObjectBucket (HT := HT) (OT := OT)).

Record RedisObjectShard := mkShard {
  buckets : list bucket;
  object_count : Z;
}.

Record RedisObjectStore := mkStore {
  shards : list RedisObjectShard;
  has_objects_hint : bool;
}.

Implicit Types (b : bucket) (a : AState) (key : Bytes) (now_ms : Z) (s : RedisObjectStore).
Implicit Types (sh : RedisObjectShard) (route : EmbeddedKeyRoute) (sid : nat) (hash : Z).

(** ** store.rs *)

Definition store_new (shard_count : nat) : RedisObjectStore :=
  mkStore (replicate (Nat.max shard_count 1) (mkShard (replicate OBJECT_BUCKETS bucket_default) 0)) false.

Definition has_objects s : bool := has_objects_hint s.

(** [self.shards[shard_id].object_count.load().max(0) as usize]. *)
Definition shard_object_count_hint s sid : option nat :=
  sh ← shards s !! sid; Some (Z.to_nat (Z.max (object_count sh) 0)).

Definition shard_has_objects s sid : option bool :=
  n ← shard_object_count_hint s sid; Some (negb (n =? 0)).

(** The sum of the shard counters, clamped; stores the hint. *)
Definition store_object_count s : nat * RedisObjectStore :=
  let count := foldl (λ acc sh, wrap_i64 (acc + object_count sh)) 0%Z (shards s) in
  let count := Z.to_nat (Z.max count 0) in
  (count, mkStore (shards s) (negb (count =? 0))).

Fixpoint sum_live (bs : list bucket) now_ms : option nat :=
  match bs with
  | [] => Some 0
  | b :: bs => n ← live_object_count b now_ms; m ← sum_live bs now_ms; Some (n + m)
  end.

Fixpoint sum_live_shards (shs : list RedisObjectShard) now_ms : option nat :=
  match shs with
  | [] => Some 0
  | sh :: shs =>
      n ← (if (object_count sh <=? 0)%Z then Some 0 else sum_live (buckets sh) now_ms);
      m ← sum_live_shards shs now_ms;
      Some (n + m)
  end.

Definition store_live_object_count s now_ms : option nat :=
  if negb (has_objects s) then Some 0 else sum_live_shards (shards s) now_ms.

(** [self.shards[shard_id].buckets[bucket_index(key_hash)]]. *)
Definition get_bucket s sid hash : option bucket :=
  sh ← shards s !! sid; buckets sh !! bucket_index hash.

Definition put_bucket s sid hash b : RedisObjectStore :=
  mkStore (alter (λ sh, mkShard (<[bucket_index hash := b]> (buckets sh)) (object_count sh)) sid (shards s))
          (has_objects_hint s).

Definition note_created s sid : option RedisObjectStore :=
  sh ← shards s !! sid;
  let previous := object_count sh in
  Some (mkStore (<[sid := mkShard (buckets sh) (wrap_i64 (previous + 1))]> (shards s))
                (if (previous <=? 0)%Z then true else has_objects_hint s)).

Definition note_deleted s sid : option RedisObjectStore :=
  sh ← shards s !! sid;
  Some (mkStore (<[sid := mkShard (buckets sh) (wrap_i64 (object_count sh - 1))]> (shards s))
                (has_objects_hint s)).

Fixpoint keys_of_buckets (bs : list bucket) now_ms (out : list Bytes) : option (list Bytes) :=
  match bs with
  | [] => Some out
  | b :: bs => out ← keys b now_ms out; keys_of_buckets bs now_ms out
  end.

Definition keys_in_shard s sid now_ms : option (list Bytes) :=
  n ← shard_object_count_hint s sid;
  if n =? 0 then Some []
  else sh ← shards s !! sid; keys_of_buckets (buckets sh) now_ms [].

Fixpoint keys_from s now_ms (sids : list nat) (out : list Bytes) : option (list Bytes) :=
  match sids with
  | [] => Some out
  | sid :: sids => ks ← keys_in_shard s sid now_ms; keys_from s now_ms sids (out ++ ks)
  end.

Fixpoint typed_keys_of_buckets (bs : list bucket) now_ms (out : list (Bytes * string))
    : option (list (Bytes * string)) :=
  match bs with
  | [] => Some out
  | b :: bs => out ← keys_with_type b now_ms out; typed_keys_of_buckets bs now_ms out
  end.

Definition keys_with_type_in_shard s sid now_ms : option (list (Bytes * string)) :=
  n ← shard_object_count_hint s sid;
  if n =? 0 then Some []
  else sh ← shards s !! sid; typed_keys_of_buckets (buckets sh) now_ms [].

Fixpoint visit_buckets {S : Type} (visitor : S → Bytes → S * bool) (bs : list bucket) now_ms (st : S)
    : option (S * bool) :=
  match bs with
  | [] => Some (st, true)
  | b :: bs =>
      '(st, more) ← visit_keys visitor b now_ms st;
      if negb more then Some (st, false) else visit_buckets visitor bs now_ms st
  end.

Fixpoint visit_shards {S : Type} (visitor : S → Bytes → S * bool) (shs : list RedisObjectShard) now_ms
    (st : S) : option (S * bool) :=
  match shs with
  | [] => Some (st, true)
  | sh :: shs =>
      if Z.to_nat (Z.max (object_count sh) 0) =? 0 then visit_shards visitor shs now_ms st
      else
        '(st, more) ← visit_buckets visitor (buckets sh) now_ms st;
        if negb more then Some (st, false) else visit_shards visitor shs now_ms st
  end.

Definition store_visit_keys {S : Type} (visitor : S → Bytes → S * bool) s now_ms (st : S)
    : option (S * bool) :=
  if negb (has_objects s) then Some (st, true) else visit_shards visitor (shards s) now_ms st.

Fixpoint scan_buckets {S : Type} (visitor : S → Bytes → S * bool) (bs : list bucket) now_ms
    (type_filter : option Bytes) (offset limit : Z) (st : ScanState (S := S))
    : option (ScanState (S := S) * option Z) :=
  match bs with
  | [] => Some (st, None)
  | b :: bs =>
      '(st, stopped) ← scan_keys_visit visitor b now_ms type_filter offset limit st;
      match stopped with
      | Some offset => Some (st, Some offset)
      | None => scan_buckets visitor bs now_ms type_filter offset limit st
      end
  end.

(** The position starts at 0 for the shard and runs on through its buckets. *)
Definition scan_keys_in_shard_visit {S : Type} (visitor : S → Bytes → S * bool) s sid now_ms
    (type_filter : option Bytes) (offset limit visited emitted : Z) (st : S)
    : option (ScanState (S := S) * option Z) :=
  n ← shard_object_count_hint s sid;
  if n =? 0 then Some (mkScan 0 visited emitted st, None)
  else
    sh ← shards s !! sid;
    scan_buckets visitor (buckets sh) now_ms type_filter offset limit (mkScan 0 visited emitted st).

Fixpoint typed_keys_from s now_ms (sids : list nat) (out : list (Bytes * string))
    : option (list (Bytes * string)) :=
  match sids with
  | [] => Some out
  | sid :: sids => ks ← keys_with_type_in_shard s sid now_ms; typed_keys_from s now_ms sids (out ++ ks)
  end.

Definition store_keys_with_type s now_ms : option (list (Bytes * string) * RedisObjectStore) :=
  let '(_, s) := store_object_count s in
  ks ← typed_keys_from s now_ms (seq 0 (length (shards s))) [];
  Some (ks, s).

(** [keys] asks [object_count] for the capacity, which stores the hint. *)
Definition store_keys s now_ms : option (list Bytes * RedisObjectStore) :=
  let '(_, s) := store_object_count s in
  ks ← keys_from s now_ms (seq 0 (length (shards s))) [];
  Some (ks, s).

(** ** access.rs *)

(** [(bucket.has_expirations() && bucket.delete_expired(..))
      || bucket.remove_expired_hash_if_empty(..)]. *)
Definition drop_expired b key now_ms : option (bool * bucket) :=
  let '(deleted, b) := if has_expirations b then delete_expired b key now_ms else (false, b) in
  if deleted : bool then Some (true, b) else remove_expired_hash_if_empty b key now_ms.

Definition note_if (changed : bool) (note : RedisObjectStore → nat → option RedisObjectStore) s sid
    : option RedisObjectStore :=
  if changed then note s sid else Some s.

Definition object_write_routed s route key (string_exists : bool) now_ms
    (op : bucket → option ((RedisObjectResult * bool) * bucket))
    : option (RedisObjectResult * RedisObjectStore) :=
  b ← get_bucket s (shard_id route) (key_hash route);
  '(removed, b) ← drop_expired b key now_ms;
  s ← note_if removed note_deleted s (shard_id route);
  let had_object := contains_object b key in
  if negb had_object && string_exists
  then Some (WrongType, put_bucket s (shard_id route) (key_hash route) b)
  else
    '((result, object_changed), b) ← op b;
    s ← match had_object, object_changed : bool with
        | false, true => note_created s (shard_id route)
        | true, true => note_deleted s (shard_id route)
        | _, false => Some s
        end;
    Some (result, put_bucket s (shard_id route) (key_hash route) b).

Definition object_create_hashed s route key (string_exists : bool) now_ms
    (existing : bucket → Z → option (RedisObjectWriteAttempt * bucket))
    (create : bucket → Z → option (RedisObjectResult * bucket))
    : option (RedisObjectResult * RedisObjectStore) :=
  b ← get_bucket s (shard_id route) (key_hash route);
  '(removed, b) ← drop_expired b key now_ms;
  s ← note_if removed note_deleted s (shard_id route);
  '(attempt, b) ← existing b (key_hash route);
  match attempt with
  | Complete result => Some (result, put_bucket s (shard_id route) (key_hash route) b)
  | WriteMissing =>
      if string_exists then Some (WrongType, put_bucket s (shard_id route) (key_hash route) b)
      else
        '(result, b) ← create b (key_hash route);
        s ← note_created s (shard_id route);
        Some (result, put_bucket s (shard_id route) (key_hash route) b)
  end.

Definition object_read_routed s route key (string_exists : bool) now_ms
    (op : bucket → option RedisObjectResult) : option (RedisObjectResult * RedisObjectStore) :=
  b ← get_bucket s (shard_id route) (key_hash route);
  if has_expirations b && object_is_expired b key now_ms then
    let '(deleted, b) := delete_expired b key now_ms in
    s ← note_if deleted note_deleted s (shard_id route);
    result ← (if string_exists then Some WrongType else op b);
    Some (result, put_bucket s (shard_id route) (key_hash route) b)
  else
    cleanup ← hash_needs_empty_expiry_cleanup b key now_ms;
    if cleanup : bool then
      '(removed, b) ← remove_expired_hash_if_empty b key now_ms;
      s ← note_if removed note_deleted s (shard_id route);
      result ← (if string_exists then Some WrongType else op b);
      Some (result, put_bucket s (shard_id route) (key_hash route) b)
    else
      result ← op b;
      Some (match result with
            | WrongType => result
            | _ => if contains_object b key then result
                   else if string_exists then WrongType else result
            end, s).

Definition object_read_hashed_visit {E} s route key (string_exists : bool) now_ms
    (op : bucket → option (RedisObjectReadOutcome * E)) (nothing : E)
    : option ((RedisObjectReadOutcome * E) * RedisObjectStore) :=
  let absent := ((if string_exists then ReadWrongType else Missing), nothing) in
  present ← shard_has_objects s (shard_id route);
  if negb present then Some (absent, s)
  else
    b ← get_bucket s (shard_id route) (key_hash route);
    if has_expirations b && object_is_expired b key now_ms then
      let '(deleted, b) := delete_expired b key now_ms in
      s ← note_if deleted note_deleted s (shard_id route);
      Some (absent, put_bucket s (shard_id route) (key_hash route) b)
    else
      cleanup ← hash_needs_empty_expiry_cleanup b key now_ms;
      if cleanup : bool then
        '(removed, b) ← remove_expired_hash_if_empty b key now_ms;
        s ← note_if removed note_deleted s (shard_id route);
        Some (absent, put_bucket s (shard_id route) (key_hash route) b)
      else
        '(outcome, emitted) ← op b;
        Some ((match outcome with
               | Missing => (if string_exists then ReadWrongType else Missing, emitted)
               | _ => (outcome, emitted)
               end), s).

(** ** Representation *)

(** Objects stored in a shard. *)
Definition stored (As : list AState) : nat := sum_list ((λ a, size (a_objs a)) <$> As).

Record shard_rep sh (As : list AState) : Prop := {
  sr_buckets : Forall2 bucket_rep (buckets sh) As;
  sr_length : length As = OBJECT_BUCKETS;
  sr_count : object_count sh = Z.of_nat (stored As);
}.

(** Every shard counts its objects, and a counted object raises the hint. *)
Record store_rep s (A : list (list AState)) : Prop := {
  st_shards : Forall2 shard_rep (shards s) A;
  st_hint : ∀ sh, sh ∈ shards s → (0 < object_count sh)%Z → has_objects_hint s = true;
}.

(** A change of the object under one key, and the flag that reports it. *)
Definition toggles key a a' (flag : bool) : Prop :=
  (∀ k, k ≠ key → a_objs a' !! k = a_objs a !! k) ∧ flag = xorb (a_has a key) (a_has a' key).

(** What a write command of a bucket promises to the store. *)
Class ObjectWrite (key : Bytes) (op : bucket → option ((RedisObjectResult * bool) * bucket))
    (pre : AState → Prop) (post : AState → RedisObjectResult → bool → AState → Prop) : Prop := {
  write_runs : ∀ b a, bucket_rep b a → pre a →
    ∃ r flag b' a', op b = Some ((r, flag), b') ∧ bucket_rep b' a' ∧ post a r flag a';
  write_toggles : ∀ a r flag a', wf_a a → pre a → post a r flag a' → toggles key a a' flag;
}.

(** What a creating command promises: the attempt leaves an absent key alone. *)
Class ObjectCreate (key : Bytes) (existing : bucket → Z → option (RedisObjectWriteAttempt * bucket))
    (create : bucket → Z → option (RedisObjectResult * bucket))
    (attempt : AState → RedisObjectWriteAttempt * AState) (fresh : RedisObjectResult)
    (K : Kind) (v : val K) : Prop := {
  attempt_runs : ∀ b a, bucket_rep b a →
    ∃ b', existing b (hash_key key) = Some ((attempt a).1, b') ∧ bucket_rep b' (attempt a).2;
  attempt_keeps : ∀ a, wf_a a → toggles key a (attempt a).2 false;
  attempt_absent : ∀ a, wf_a a → (attempt a).1 = WriteMissing → a_objs (attempt a).2 !! key = None;
  create_runs : ∀ b a, bucket_rep b a → a_objs a !! key = None →
    ∃ b', create b (hash_key key) = Some (fresh, b') ∧ bucket_rep b' (a_put K a key v);
}.

Definition bool_Z (x : bool) : Z := if x then 1 else 0.

Lemma toggles_size key a a' flag :
  toggles key a a' flag →
  Z.of_nat (size (a_objs a')) =
    (Z.of_nat (size (a_objs a)) + bool_Z (a_has a' key) - bool_Z (a_has a key))%Z.
Proof.
  intros [Hk _]. unfold a_has, bool_Z.
  assert (delete key (a_objs a') = delete key (a_objs a)) as E.
  { apply map_eq. intros k. destruct (decide (k = key)) as [->|]; [by rewrite !lookup_delete_eq|].
    rewrite !lookup_delete_ne by done. by apply Hk. }
  apply (f_equal size) in E. rewrite !map_size_delete in E.
  destruct (a_objs a !! key) eqn:E1; destruct (a_objs a' !! key) eqn:E2;
    repeat first [rewrite bool_decide_eq_true_2 by eauto|rewrite bool_decide_eq_false_2 by by intros []];
    try (assert (size (a_objs a) ≠ 0) by (rewrite map_size_ne_0_lookup; eauto));
    try (assert (size (a_objs a') ≠ 0) by (rewrite map_size_ne_0_lookup; eauto)); simpl in *; lia.
Qed.

Lemma stored_insert (As : list AState) (i : nat) a a' :
  As !! i = Some a →
  Z.of_nat (stored (<[i := a']> As)) =
    (Z.of_nat (stored As) + Z.of_nat (size (a_objs a')) - Z.of_nat (size (a_objs a)))%Z.
Proof.
  unfold stored. revert i. induction As as [|x As IH]; intros [|i] Hi; simplify_eq/=; [lia|].
  specialize (IH i Hi). lia.
Qed.

(** ** Dropping what expired *)

Definition a_drop_expired a key now_ms : bool * AState :=
  if a_expired a key now_ms then (true, a_delete a key) else a_cleanup a key now_ms.

Lemma drop_expired_spec b a key now_ms :
  bucket_rep b a →
  ∃ b', drop_expired b key now_ms = Some ((a_drop_expired a key now_ms).1, b') ∧
        bucket_rep b' (a_drop_expired a key now_ms).2.
Proof.
  intros Hb. unfold drop_expired, a_drop_expired, has_expirations. rewrite (phys_exp _ _ (proj1 Hb)).
  case_bool_decide as He; cbn [negb].
  - assert (a_expired a key now_ms = false) as -> by (unfold a_expired; by rewrite He, lookup_empty).
    by apply remove_expired_hash_if_empty_spec.
  - destruct (delete_expired_spec b a key now_ms Hb) as (b' & -> & Hb'). unfold a_delete_expired in *.
    destruct (a_expired a key now_ms); simpl in *; [by eexists|].
    by apply remove_expired_hash_if_empty_spec.
Qed.

Lemma toggles_delete key a : a_has a key = true → toggles key a (a_delete a key) true.
Proof.
  intros Ha. split; [intros k Hk; simpl; by rewrite lookup_delete_ne|]. rewrite Ha. unfold a_has. simpl.
  by rewrite lookup_delete_eq.
Qed.

Lemma a_purge_objs a key now_ms k : k ≠ key → a_objs (a_purge a key now_ms) !! k = a_objs a !! k.
Proof.
  intros Hk. unfold a_purge. destruct (a_get KHash a key); [|done]. simpl. by rewrite lookup_insert_ne.
Qed.

Lemma a_purge_has a key now_ms : a_has (a_purge a key now_ms) key = a_has a key.
Proof.
  unfold a_purge. destruct (a_get KHash a key) as [h|] eqn:E; [|done]. apply a_get_Some in E.
  unfold a_has. simpl. by rewrite lookup_insert_eq, E.
Qed.

Lemma toggles_drop_expired a key now_ms :
  wf_a a → toggles key a (a_drop_expired a key now_ms).2 (a_drop_expired a key now_ms).1.
Proof.
  intros Hw. unfold a_drop_expired. destruct (a_expired a key now_ms) eqn:He.
  { apply toggles_delete. by eapply a_expired_has. }
  unfold a_cleanup. case_bool_decide as Hc; simpl.
  - split; simpl.
    + intros k Hk. rewrite lookup_delete_ne by done. by apply a_purge_objs.
    + rewrite <-(a_purge_has a key now_ms). apply a_get_Some in Hc. unfold a_has. simpl.
      by rewrite Hc, lookup_delete_eq.
  - split; [by apply a_purge_objs|]. rewrite a_purge_has. by destruct (a_has a key).
Qed.

(** ** The counter of one shard *)

(** A store with the counter of one shard and the hint replaced. *)
Definition noted s sid sh (c : Z) (h : bool) : RedisObjectStore :=
  mkStore (<[sid := mkShard (buckets sh) c]> (shards s)) h.

Lemma noted_same s sid sh : shards s !! sid = Some sh → noted s sid sh (object_count sh) (has_objects_hint s) = s.
Proof. intros Hs. unfold noted. destruct sh. rewrite list_insert_id by done. by destruct s. Qed.

Lemma noted_lookup s sid sh c h sh0 :
  shards s !! sid = Some sh0 → shards (noted s sid sh c h) !! sid = Some (mkShard (buckets sh) c).
Proof. intros Hs. simpl. apply list_lookup_insert_eq. by eapply lookup_lt_Some. Qed.

Lemma noted_created s sid sh c h :
  shards s !! sid = Some sh →
  note_created (noted s sid sh c h) sid = Some (noted s sid sh (wrap_i64 (c + 1)) (if (c <=? 0)%Z then true else h)).
Proof.
  intros Hs. unfold note_created. rewrite (noted_lookup s sid sh c h sh Hs). simpl.
  unfold noted. simpl. by rewrite list_insert_insert_eq.
Qed.

Lemma noted_deleted s sid sh c h :
  shards s !! sid = Some sh →
  note_deleted (noted s sid sh c h) sid = Some (noted s sid sh (wrap_i64 (c - 1)) h).
Proof.
  intros Hs. unfold note_deleted. rewrite (noted_lookup s sid sh c h sh Hs). simpl.
  unfold noted. simpl. by rewrite list_insert_insert_eq.
Qed.

(** The hint stays right: it is up, or the counter did not become positive. *)
Definition hint_ok s sh (c : Z) (h : bool) : Prop :=
  h = true ∨ (h = has_objects_hint s ∧ ((0 < c)%Z → (0 < object_count sh)%Z)).

Definition put_state (A : list (list AState)) sid hash a' : list (list AState) :=
  alter (λ As, <[bucket_index hash := a']> As) sid A.

Lemma store_put_rep s A sid hash sh (As : list AState) a b' a' c h :
  store_rep s A → shards s !! sid = Some sh → A !! sid = Some As → As !! bucket_index hash = Some a →
  bucket_rep b' a' → hint_ok s sh c h →
  c = (object_count sh + Z.of_nat (size (a_objs a')) - Z.of_nat (size (a_objs a)))%Z →
  store_rep (put_bucket (noted s sid sh c h) sid hash b') (put_state A sid hash a').
Proof.
  intros [Hsh Hhint] Hs HA Ha Hb' Hh Hc.
  destruct (Forall2_lookup_lr _ _ _ _ _ _ Hsh Hs HA) as [Hbk Hlen Hcnt].
  set (sh' := mkShard (<[bucket_index hash := b']> (buckets sh)) c).
  assert (put_bucket (noted s sid sh c h) sid hash b' = mkStore (<[sid := sh']> (shards s)) h) as ->.
  { unfold put_bucket, noted. simpl. f_equal. apply list_eq. intros i.
    destruct (decide (i = sid)) as [->|Hne].
    - rewrite list_lookup_alter_eq, !list_lookup_insert_eq by (by eapply lookup_lt_Some). done.
    - by rewrite list_lookup_alter_ne, !list_lookup_insert_ne. }
  assert (put_state A sid hash a' = <[sid := <[bucket_index hash := a']> As]> A) as ->.
  { unfold put_state. apply list_eq. intros i. destruct (decide (i = sid)) as [->|Hne].
    - rewrite list_lookup_alter_eq, list_lookup_insert_eq by (by eapply lookup_lt_Some). by rewrite HA.
    - by rewrite list_lookup_alter_ne, list_lookup_insert_ne. }
  split; simpl.
  - apply Forall2_insert; [done|]. split; simpl.
    + by apply Forall2_insert.
    + by rewrite length_insert.
    + rewrite (stored_insert As _ a) by done. rewrite Hc, Hcnt. lia.
  - intros x [i Hi]%list_elem_of_lookup. rewrite list_lookup_insert_Some in Hi.
    destruct Hi as [(-> & <- & _)|[Hne Hi]]; simpl; intros Hpos.
    + destruct Hh as [->|[-> Hp]]; [done|]. apply (Hhint sh); [by eapply list_elem_of_lookup_2|auto].
    + destruct Hh as [->|[-> _]]; [done|]. apply (Hhint x); [by eapply list_elem_of_lookup_2|done].
Qed.

(** Where a key's bucket is. *)
Lemma store_bucket s A sid hash (As : list AState) a :
  store_rep s A → A !! sid = Some As → As !! bucket_index hash = Some a →
  ∃ sh b, shards s !! sid = Some sh ∧ get_bucket s sid hash = Some b ∧ bucket_rep b a ∧
          object_count sh = Z.of_nat (stored As) ∧ (size (a_objs a) ≤ stored As).
Proof.
  intros [Hsh _] HA Ha. destruct (Forall2_lookup_r _ _ _ _ _ Hsh HA) as (sh & Hs & [Hbk Hlen Hcnt]).
  destruct (Forall2_lookup_r _ _ _ _ _ Hbk Ha) as (b & Hb & Hrep). exists sh, b.
  unfold get_bucket. rewrite Hs. split_and!; [done..|].
  pose proof (stored_insert As _ a a_empty Ha) as E. change (a_objs a_empty) with (∅ : gmap Bytes AValue) in E.
  rewrite map_size_empty in E. lia.
Qed.

(** ** Routed access *)

Lemma toggles_bool_Z key a a' flag :
  toggles key a a' flag →
  Z.of_nat (size (a_objs a')) =
    (Z.of_nat (size (a_objs a)) + (if flag then if a_has a key then -1 else 1 else 0))%Z.
Proof.
  intros Ht. rewrite (toggles_size key a a' flag Ht). destruct Ht as [_ ->].
  destruct (a_has a key), (a_has a' key); simpl; lia.
Qed.

Lemma drop_had a key now_ms :
  wf_a a → (a_drop_expired a key now_ms).1 = true → a_has a key = true.
Proof.
  intros Hw. unfold a_drop_expired. destruct (a_expired a key now_ms) eqn:E; [by eauto using a_expired_has|].
  unfold a_cleanup. case_bool_decide as Hc; [|done]. intros _. apply a_get_Some in Hc.
  rewrite <-(a_purge_has a key now_ms). apply bool_decide_eq_true. eauto.
Qed.

(** The counter after the expiry step, for the two ways it is taken. *)
Lemma note_deleted_spec s sid sh (removed : bool) :
  shards s !! sid = Some sh → is_i64 (object_count sh) → (removed = true → (0 < object_count sh)%Z) →
  note_if removed note_deleted s sid =
    Some (noted s sid sh (object_count sh - bool_Z removed) (has_objects_hint s)).
Proof.
  intros Hs Hi Hpos. rewrite <-(noted_same s sid sh Hs) at 1. unfold note_if. destruct removed; simpl.
  - rewrite noted_deleted, wrap_i64_id; [done| |done].
    unfold is_i64, i64_MIN, i64_MAX in *. specialize (Hpos eq_refl). lia.
  - by rewrite Z.sub_0_r.
Qed.

Section Access.
Context (s : RedisObjectStore) (A : list (list AState)) (route : EmbeddedKeyRoute) (key : Bytes).
Context (As : list AState) (a : AState) (string_exists : bool) (now_ms : Z).
Context (Hrep : store_rep s A) (HA : A !! shard_id route = Some As).
Context (Ha : As !! bucket_index (key_hash route) = Some a) (Hfits : fits (Datatypes.S (stored As))).

(** Both writes start by dropping what expired. *)
Lemma access_prepare :
  let r := a_drop_expired a key now_ms in
  ∃ sh b b1, shards s !! shard_id route = Some sh ∧
    get_bucket s (shard_id route) (key_hash route) = Some b ∧
    drop_expired b key now_ms = Some (r.1, b1) ∧ bucket_rep b1 r.2 ∧
    note_if r.1 note_deleted s (shard_id route) =
      Some (noted s (shard_id route) sh (object_count sh - bool_Z r.1) (has_objects_hint s)) ∧
    (Z.of_nat (size (a_objs r.2)) = Z.of_nat (size (a_objs a)) - bool_Z r.1)%Z ∧
    (0 ≤ object_count sh < i64_MAX)%Z ∧
    (Z.of_nat (size (a_objs r.2)) ≤ object_count sh - bool_Z r.1)%Z.
Proof.
  cbn zeta. destruct (store_bucket s A _ _ As a Hrep HA Ha) as (sh & b & Hs & Hg & Hb & Hc & Hle).
  destruct (drop_expired_spec b a key now_ms Hb) as (b1 & Hd & Hb1).
  pose proof (toggles_bool_Z _ _ _ _ (toggles_drop_expired a key now_ms (proj2 Hb))) as Ht.
  pose proof (drop_had a key now_ms (proj2 Hb)) as Hhad.
  exists sh, b, b1. unfold fits in Hfits.
  assert ((a_drop_expired a key now_ms).1 = true → (0 < object_count sh)%Z) as Hpos.
  { intros E. rewrite Hc. specialize (Hhad E). rewrite E, Hhad in Ht. lia. }
  split_and!; [done|done|done|done| | | | |].
  - apply note_deleted_spec; [done| |done]. unfold is_i64, i64_MIN, i64_MAX in *. lia.
  - destruct (a_drop_expired a key now_ms).1; simpl in *; [rewrite Hhad in Ht by done|]; lia.
  - lia.
  - lia.
  - destruct (a_drop_expired a key now_ms).1; simpl in *; [rewrite Hhad in Ht by done|]; lia.
Qed.

Lemma object_write_spec (op : bucket → option ((RedisObjectResult * bool) * bucket)) pre post :
  ObjectWrite key op pre post → pre (a_drop_expired a key now_ms).2 →
  let a1 := (a_drop_expired a key now_ms).2 in
  ∃ r s' a', object_write_routed s route key string_exists now_ms op = Some (r, s') ∧
    store_rep s' (put_state A (shard_id route) (key_hash route) a') ∧
    if negb (a_has a1 key) && string_exists then r = WrongType ∧ a' = a1
    else ∃ flag, post a1 r flag a' ∧ toggles key a1 a' flag.
Proof.
  intros Hop Hpre a1.
  destruct access_prepare as (sh & b & b1 & Hs & Hg & Hd & Hb1 & Hn & Hsz & Hc & Hle).
  fold a1 in Hb1, Hsz, Hle, Hpre. unfold object_write_routed. rewrite Hg. cbn [mbind option_bind].
  rewrite Hd. cbn [mbind option_bind]. rewrite Hn. cbn [mbind option_bind].
  rewrite (contains_object_spec b1 a1) by apply Hb1.
  set (c := (object_count sh - _)%Z) in *.
  assert (hint_ok s sh c (has_objects_hint s)) as Hh.
  { right. split; [done|]. unfold c, bool_Z. destruct (a_drop_expired a key now_ms).1; lia. }
  destruct (negb (a_has a1 key) && string_exists) eqn:E.
  { exists WrongType. eexists. exists a1. split; [done|]. split; [|done].
    eapply store_put_rep; [done..|]. unfold c. lia. }
  destruct (write_runs b1 a1 Hb1 Hpre) as (r & flag & b2 & a2 & -> & Hb2 & Hpost).
  cbn [mbind option_bind].
  pose proof (write_toggles a1 r flag a2 (proj2 Hb1) Hpre Hpost) as Ht.
  pose proof (toggles_bool_Z _ _ _ _ Ht) as Hsz2.
  assert (is_i64 (c + 1) ∧ (a_has a1 key = true → 0 < c)%Z) as [Hi Hpos].
  { unfold is_i64, i64_MIN, i64_MAX in *. split; [unfold c, bool_Z in *; destruct (a_drop_expired a key now_ms).1; lia|].
    unfold a_has. rewrite bool_decide_eq_true. intros Hx. assert (size (a_objs a1) ≠ 0); [|lia].
    apply map_size_ne_0_lookup. eauto. }
  assert (is_i64 (c - 1)) as Hi' by (unfold is_i64, i64_MIN, i64_MAX, c, bool_Z in *; destruct (a_drop_expired a key now_ms).1; lia).
  destruct (a_has a1 key) eqn:Hhad, flag; rewrite ?noted_created, ?noted_deleted, ?wrap_i64_id by done;
    cbn [mbind option_bind]; exists r; eexists; exists a2; (split; [done|]); (split; [|eauto]);
    (eapply store_put_rep; [done..| |unfold c in *; lia]).
  - right. split; [done|]. specialize (Hpos eq_refl). unfold c, bool_Z in *. destruct (a_drop_expired a key now_ms).1; lia.
  - done.
  - destruct (c <=? 0)%Z eqn:Ec; [by left|]. right. split; [done|]. apply Z.leb_gt in Ec.
    unfold c, bool_Z in *. destruct (a_drop_expired a key now_ms).1; lia.
  - done.
Qed.

Lemma object_create_spec existing create attempt fresh K (v : val K) :
  ObjectCreate key existing create attempt fresh K v → key_hash route = hash_key key →
  let a1 := (a_drop_expired a key now_ms).2 in
  ∃ r s' a', object_create_hashed s route key string_exists now_ms existing create = Some (r, s') ∧
    store_rep s' (put_state A (shard_id route) (key_hash route) a') ∧
    match (attempt a1).1 with
    | Complete r0 => r = r0 ∧ a' = (attempt a1).2
    | WriteMissing => if string_exists then r = WrongType ∧ a' = (attempt a1).2
                      else r = fresh ∧ a' = a_put K (attempt a1).2 key v
    end.
Proof.
  intros Hop Hkh a1.
  destruct access_prepare as (sh & b & b1 & Hs & Hg & Hd & Hb1 & Hn & Hsz & Hc & Hle).
  fold a1 in Hb1, Hsz, Hle. unfold object_create_hashed. rewrite Hg. cbn [mbind option_bind].
  rewrite Hd. cbn [mbind option_bind]. rewrite Hn. cbn [mbind option_bind].
  set (c := (object_count sh - _)%Z) in *.
  assert (hint_ok s sh c (has_objects_hint s)) as Hh.
  { right. split; [done|]. unfold c, bool_Z. destruct (a_drop_expired a key now_ms).1; lia. }
  rewrite Hkh. destruct (attempt_runs b1 a1 Hb1) as (b2 & -> & Hb2). cbn [mbind option_bind].
  pose proof (toggles_bool_Z _ _ _ _ (attempt_keeps a1 (proj2 Hb1))) as Hsz2.
  pose proof (attempt_absent a1 (proj2 Hb1)) as Habs.
  destruct (attempt a1) as [[r0|] a2]; simpl in *.
  { exists r0. eexists. exists a2. split; [done|]. split; [|done]. rewrite <-Hkh.
    eapply store_put_rep; [done..|]. unfold c. lia. }
  destruct string_exists.
  { exists WrongType. eexists. exists a2. split; [done|]. split; [|done]. rewrite <-Hkh.
    eapply store_put_rep; [done..|]. unfold c. lia. }
  destruct (create_runs b2 a2 Hb2 (Habs eq_refl)) as (b3 & -> & Hb3). cbn [mbind option_bind].
  assert (is_i64 (c + 1)) as Hi.
  { unfold is_i64, i64_MIN, i64_MAX, c, bool_Z in *. destruct (a_drop_expired a key now_ms).1; lia. }
  rewrite noted_created, wrap_i64_id by done. cbn [mbind option_bind].
  exists fresh. eexists. exists (a_put K a2 key v). split; [done|]. split; [|done].
  rewrite <-Hkh. eapply store_put_rep; [done..| |].
  - destruct (c <=? 0)%Z eqn:Ec; [by left|]. right. split; [done|]. apply Z.leb_gt in Ec.
    unfold c, bool_Z in *. destruct (a_drop_expired a key now_ms).1; lia.
  - unfold a_put. simpl. rewrite map_size_insert_None by by apply Habs. unfold c. lia.
Qed.

(** What a read leaves behind: an expired key is dropped, a live one is not
    touched, not even purged. *)
Definition a_after_read a key now_ms : AState :=
  if (a_drop_expired a key now_ms).1 then (a_drop_expired a key now_ms).2 else a.

(** The outcome of the two read paths up to the operation itself. *)
Lemma read_prepare (b : bucket) :
  bucket_rep b a →
  if has_expirations b && object_is_expired b key now_ms
  then (a_drop_expired a key now_ms).1 = true ∧
       ∃ b1, delete_expired b key now_ms = (true, b1) ∧ bucket_rep b1 (a_drop_expired a key now_ms).2
  else hash_needs_empty_expiry_cleanup b key now_ms = Some (a_drop_expired a key now_ms).1 ∧
       ∃ b1, remove_expired_hash_if_empty b key now_ms = Some ((a_drop_expired a key now_ms).1, b1) ∧
             bucket_rep b1 (a_drop_expired a key now_ms).2.
Proof.
  intros Hb. pose proof Hb as [Hp Hw]. unfold has_expirations.
  rewrite (phys_exp _ _ Hp), (object_is_expired_spec b a) by done.
  assert (negb (bool_decide (a_exp a = ∅)) && a_expired a key now_ms = a_expired a key now_ms) as ->.
  { case_bool_decide as He; [|done]. unfold a_expired. by rewrite He, lookup_empty. }
  unfold a_drop_expired. destruct (a_expired a key now_ms) eqn:Ee.
  - split; [done|]. destruct (delete_expired_spec b a key now_ms Hb) as (b1 & Hd & Hb1).
    unfold a_delete_expired in *. rewrite Ee in *. eauto.
  - split; [|by apply remove_expired_hash_if_empty_spec].
    unfold hash_needs_empty_expiry_cleanup. rewrite (hash_has_live_fields_spec b a) by done.
    change (hashes b) with (tbl KHash b). rewrite (proj1 (phys_contains KHash b a key Hp)).
    unfold a_cleanup, a_hash_live. destruct (a_get KHash a key) as [h|] eqn:Eg.
    + rewrite (proj2 (a_purge_fields a key now_ms h Hw Eg)).
      rewrite (bool_decide_eq_true_2 (is_Some _)) by eauto. simpl. f_equal.
      repeat case_bool_decide; simplify_eq; try done; congruence.
    + rewrite bool_decide_eq_false_2 by by intros []. unfold a_purge. rewrite Eg.
      rewrite bool_decide_eq_false_2; [done|]. by rewrite Eg.
Qed.

Lemma a_has_drop a0 now0 : wf_a a0 → (a_drop_expired a0 key now0).1 = true →
  a_has (a_drop_expired a0 key now0).2 key = false.
Proof.
  intros Hw Ht. destruct (toggles_drop_expired a0 key now0 Hw) as [_ E].
  rewrite Ht, (drop_had a0 key now0 Hw Ht) in E. by destruct (a_has _ key).
Qed.

(** The store after a read, whatever its answer. *)
Lemma read_store_rep sh (b1 : bucket) :
  shards s !! shard_id route = Some sh → bucket_rep b1 (a_drop_expired a key now_ms).2 →
  (a_drop_expired a key now_ms).1 = true →
  ∃ s1, note_if true note_deleted s (shard_id route) = Some s1 ∧
    store_rep (put_bucket s1 (shard_id route) (key_hash route) b1)
      (put_state A (shard_id route) (key_hash route) (a_after_read a key now_ms)).
Proof.
  intros Hs Hb1 Ht. destruct access_prepare as (sh' & b & b2 & Hs' & Hg & Hd & _ & Hn & Hsz & Hc & Hle).
  rewrite Hs in Hs'. injection Hs' as <-. rewrite Ht in *. eexists. split; [done|].
  unfold a_after_read. rewrite Ht. eapply store_put_rep; [done..| |lia].
  right. split; [done|]. unfold bool_Z. lia.
Qed.

(** A read answers for the key space without what expired; the string key
    space only counts for a key that has no object. *)
Lemma object_read_spec (op : bucket → option RedisObjectResult) (Q : RedisObjectResult → Prop) :
  let a' := a_after_read a key now_ms in
  (∀ b, bucket_rep b a' → ∃ r, op b = Some r ∧ Q r) →
  ∃ r s', object_read_routed s route key string_exists now_ms op = Some (r, s') ∧
    store_rep s' (put_state A (shard_id route) (key_hash route) a') ∧
    if negb (a_has a' key) && string_exists then r = WrongType else Q r.
Proof.
  intros a' Hop. destruct (store_bucket s A _ _ As a Hrep HA Ha) as (sh & b & Hs & Hg & Hb & Hc & Hle).
  pose proof (read_prepare b Hb) as Hr. unfold object_read_routed. rewrite Hg. cbn [mbind option_bind].
  assert (A = put_state A (shard_id route) (key_hash route) a) as Esame.
  { unfold put_state. apply list_eq. intros i. destruct (decide (i = shard_id route)) as [->|Hne].
    - rewrite list_lookup_alter_eq, HA. simpl. by rewrite list_insert_id.
    - by rewrite list_lookup_alter_ne. }
  pose proof (a_has_drop a now_ms (proj2 Hb)) as Hnone. unfold a', a_after_read in *.
  destruct (has_expirations b && object_is_expired b key now_ms).
  - destruct Hr as [Ht (b1 & -> & Hb1)]. destruct (read_store_rep sh b1 Hs Hb1 Ht) as (s1 & -> & Hs1).
    cbn [mbind option_bind]. unfold a_after_read in Hs1. rewrite Ht in *. rewrite (Hnone eq_refl).
    destruct (Hop b1 Hb1) as (r & Er & Hq).
    destruct string_exists; [|rewrite Er]; cbn [mbind option_bind]; by eexists _, _.
  - destruct Hr as [-> (b1 & E & Hb1)]. cbn [mbind option_bind].
    destruct (a_drop_expired a key now_ms).1 eqn:Ht.
    + rewrite E. cbn [mbind option_bind]. destruct (read_store_rep sh b1 Hs Hb1 Ht) as (s1 & -> & Hs1).
      cbn [mbind option_bind]. unfold a_after_read in Hs1. rewrite Ht in Hs1. rewrite (Hnone eq_refl).
      destruct (Hop b1 Hb1) as (r & Er & Hq).
      destruct string_exists; [|rewrite Er]; cbn [mbind option_bind]; by eexists _, _.
    + destruct (Hop b Hb) as (r & -> & Hq). cbn [mbind option_bind].
      rewrite (contains_object_spec b a) by apply Hb. eexists _, s. rewrite <-Esame. split; [done|].
      split; [done|]. destruct r; try done; by destruct (a_has a key), string_exists.
Qed.

(** The visiting reads, which also use the counter to skip an empty shard. *)
Lemma object_visit_spec {E : Type} (op : bucket → option (RedisObjectReadOutcome * E)) (nothing : E)
    (P : RedisObjectReadOutcome * E → Prop) :
  let a' := a_after_read a key now_ms in
  (∀ b, bucket_rep b a' → ∃ r, op b = Some r ∧
     if a_has a' key then P r ∧ r.1 ≠ Missing else r = (Missing, nothing)) →
  ∃ r s', object_read_hashed_visit s route key string_exists now_ms op nothing = Some (r, s') ∧
    store_rep s' (put_state A (shard_id route) (key_hash route) a') ∧
    if a_has a' key then P r
    else r = ((if string_exists then ReadWrongType else Missing), nothing).
Proof.
  intros a' Hop. destruct (store_bucket s A _ _ As a Hrep HA Ha) as (sh & b & Hs & Hg & Hb & Hc & Hle).
  pose proof (read_prepare b Hb) as Hr. unfold object_read_hashed_visit, shard_has_objects, shard_object_count_hint.
  rewrite Hs. cbn [mbind option_bind].
  assert (A = put_state A (shard_id route) (key_hash route) a) as Esame.
  { unfold put_state. apply list_eq. intros i. destruct (decide (i = shard_id route)) as [->|Hne].
    - rewrite list_lookup_alter_eq, HA. simpl. by rewrite list_insert_id.
    - by rewrite list_lookup_alter_ne. }
  pose proof (a_has_drop a now_ms (proj2 Hb)) as Hnone.
  pose proof (drop_had a key now_ms (proj2 Hb)) as Hhad. unfold a', a_after_read in *.
  destruct (Z.to_nat (Z.max (object_count sh) 0) =? 0) eqn:Ez; cbn [negb].
  { apply Nat.eqb_eq in Ez. assert (a_has a key = false) as Hn.
    { unfold a_has. rewrite bool_decide_eq_false, <-eq_None_not_Some.
      assert (a_objs a = ∅) as -> by (apply map_size_empty_inv; lia). apply lookup_empty. }
    destruct (a_drop_expired a key now_ms).1; [by rewrite Hhad in Hn|].
    eexists _, s. rewrite Hn, <-Esame. done. }
  rewrite Hg. cbn [mbind option_bind]. destruct (has_expirations b && object_is_expired b key now_ms).
  - destruct Hr as [Ht (b1 & -> & Hb1)]. destruct (read_store_rep sh b1 Hs Hb1 Ht) as (s1 & -> & Hs1).
    cbn [mbind option_bind]. unfold a_after_read in Hs1. rewrite Ht in *. rewrite (Hnone eq_refl).
    eexists _, _. done.
  - destruct Hr as [-> (b1 & E1 & Hb1)]. cbn [mbind option_bind].
    destruct (a_drop_expired a key now_ms).1 eqn:Ht.
    + rewrite E1. cbn [mbind option_bind]. destruct (read_store_rep sh b1 Hs Hb1 Ht) as (s1 & -> & Hs1).
      cbn [mbind option_bind]. unfold a_after_read in Hs1. rewrite Ht in Hs1. rewrite (Hnone eq_refl).
      eexists _, _. done.
    + destruct (Hop b Hb) as ([o e] & -> & HP). cbn [mbind option_bind].
      destruct (a_has a key).
      * destruct HP as [HP Ho]. exists (o, e), s. rewrite <-Esame. split; [by destruct o|done].
      * injection HP as -> ->. eexists _, s. rewrite <-Esame. done.
Qed.
End Access.

(** ** Counting and listing across the store *)

Lemma stored_pos (As : list AState) a : a ∈ As → stored As = 0 → a_objs a = ∅.
Proof.
  induction As as [|x As IH]; [by intros ?%elem_of_nil|].
  change (stored (x :: As)) with (size (a_objs x) + stored As).
  intros [->|Hin]%elem_of_cons Hs; [apply map_size_empty_inv; lia|apply IH; [done|lia]].
Qed.

Lemma visible_empty b a now_ms : phys b a → a_objs a = ∅ → visible_keys b a now_ms = [].
Proof.
  intros Hp He. destruct (all_keys_spec b a Hp) as [_ Hk]. unfold visible_keys.
  destruct (all_keys b) as [|k l]; [done|]. assert (k ∈ k :: l) as Hin by set_solver.
  apply Hk in Hin as [v Hv]. by rewrite He, lookup_empty in Hv.
Qed.

(** The visible keys of the buckets of a shard. *)
Definition shard_keys now_ms (bs : list bucket) (As : list AState) : list Bytes :=
  mjoin (zip_with (λ b a, visible_keys b a now_ms) bs As).

Lemma keys_of_buckets_spec (bs : list bucket) (As : list AState) now_ms (out : list Bytes) :
  Forall2 bucket_rep bs As → keys_of_buckets bs now_ms out = Some (out ++ shard_keys now_ms bs As).
Proof.
  intros Hb. revert out. induction Hb as [|b a bs As Hba Hb IH]; intros out; simpl.
  - by rewrite app_nil_r.
  - rewrite (keys_spec b a) by done. simpl. rewrite IH. by rewrite <-app_assoc.
Qed.

Lemma sum_live_spec (bs : list bucket) (As : list AState) now_ms :
  Forall2 bucket_rep bs As → Forall (λ a, ∀ k, a_objs a !! k ≠ Some (AHash ∅)) As →
  sum_live bs now_ms = Some (length (shard_keys now_ms bs As)).
Proof.
  intros Hb. induction Hb as [|b a bs As Hba Hb IH]; intros Hne; [done|].
  apply Forall_cons in Hne as [Hn Hne]. simpl. rewrite (live_object_count_spec b a) by done.
  cbn [mbind option_bind]. rewrite IH by done. cbn [mbind option_bind].
  change (shard_keys now_ms (b :: bs) (a :: As)) with (visible_keys b a now_ms ++ shard_keys now_ms bs As).
  by rewrite length_app.
Qed.

Lemma visit_buckets_spec {S : Type} (visitor : S → Bytes → S * bool) (bs : list bucket)
    (As : list AState) now_ms (st : S) :
  Forall2 bucket_rep bs As →
  visit_buckets visitor bs now_ms st = Some (visit_key_iter visitor (shard_keys now_ms bs As) st).
Proof.
  intros Hb. revert st. induction Hb as [|b a bs As Hba Hb IH]; intros st; [done|]. simpl.
  rewrite (visit_keys_spec visitor b a) by done. simpl.
  change (shard_keys now_ms (b :: bs) (a :: As)) with (visible_keys b a now_ms ++ shard_keys now_ms bs As).
  rewrite visit_app. destruct (visit_key_iter visitor (visible_keys b a now_ms) st) as [st' []]; simpl; [|done].
  apply IH.
Qed.

Lemma scan_buckets_spec {S : Type} (visitor : S → Bytes → S * bool) (bs : list bucket)
    (As : list AState) now_ms (offset limit : Z) (st : ScanState (S := S)) :
  Forall2 bucket_rep bs As →
  scan_buckets visitor bs now_ms None offset limit st =
    Some (scan_list visitor offset limit (shard_keys now_ms bs As) st).
Proof.
  intros Hb. revert st. induction Hb as [|b a bs As Hba Hb IH]; intros st; [done|]. cbn [scan_buckets].
  rewrite (scan_keys_visit_spec visitor b a) by done. cbn [mbind option_bind].
  change (shard_keys now_ms (b :: bs) (a :: As)) with (visible_keys b a now_ms ++ shard_keys now_ms bs As).
  rewrite scan_list_app.
  destruct (scan_list visitor offset limit (visible_keys b a now_ms) st) as [st' [o|]]; [done|]. apply IH.
Qed.

(** The listing with types names the listed keys. *)
Lemma typed_keys_of_buckets_spec (bs : list bucket) (As : list AState) now_ms (out : list (Bytes * string)) :
  Forall2 bucket_rep bs As →
  ∃ typed, typed_keys_of_buckets bs now_ms out = Some (out ++ typed) ∧ typed.*1 = shard_keys now_ms bs As.
Proof.
  intros Hb. revert out. induction Hb as [|b a bs As Hba Hb IH]; intros out; simpl.
  - exists []. by rewrite app_nil_r.
  - rewrite (keys_with_type_spec b a) by done. cbn [mbind option_bind].
    edestruct IH as (typed & -> & Ht). rewrite <-app_assoc. eexists. split; [done|].
    change (shard_keys now_ms (b :: bs) (a :: As)) with (visible_keys b a now_ms ++ shard_keys now_ms bs As).
    rewrite fmap_app, Ht. f_equal. rewrite <-list_fmap_compose. apply list_fmap_id.
Qed.

(** A shard whose counter is zero has nothing to list. *)
Lemma shard_keys_empty sh (As : list AState) now_ms :
  shard_rep sh As → (object_count sh ≤ 0)%Z → shard_keys now_ms (buckets sh) As = [].
Proof.
  intros [Hb _ Hc] Hle. assert (stored As = 0) as Hs by lia. clear Hc Hle.
  induction Hb as [|b a bs As' Hba Hb IH]; [done|].
  change (shard_keys now_ms (b :: bs) (a :: As')) with (visible_keys b a now_ms ++ shard_keys now_ms bs As').
  rewrite visible_empty; [|apply Hba|apply (stored_pos (a :: As')); [set_solver|done]].
  apply IH. change (stored (a :: As')) with (size (a_objs a) + stored As') in Hs. lia.
Qed.

Definition store_all_keys now_ms s (A : list (list AState)) : list Bytes :=
  mjoin (zip_with (λ sh As, shard_keys now_ms (buckets sh) As) (shards s) A).

Lemma keys_in_shard_spec s A sid sh (As : list AState) now_ms :
  store_rep s A → shards s !! sid = Some sh → A !! sid = Some As →
  keys_in_shard s sid now_ms = Some (shard_keys now_ms (buckets sh) As).
Proof.
  intros [Hsh _] Hs HA. pose proof (Forall2_lookup_lr _ _ _ _ _ _ Hsh Hs HA) as Hrep.
  unfold keys_in_shard, shard_object_count_hint. rewrite Hs. simpl.
  destruct (Z.to_nat (Z.max (object_count sh) 0) =? 0) eqn:E.
  - apply Nat.eqb_eq in E. rewrite shard_keys_empty; [done|done|lia].
  - by apply (keys_of_buckets_spec _ _ now_ms []), Hrep.
Qed.

Lemma typed_keys_in_shard_spec s A sid sh (As : list AState) now_ms :
  store_rep s A → shards s !! sid = Some sh → A !! sid = Some As →
  ∃ typed, keys_with_type_in_shard s sid now_ms = Some typed ∧ typed.*1 = shard_keys now_ms (buckets sh) As.
Proof.
  intros [Hsh _] Hs HA. pose proof (Forall2_lookup_lr _ _ _ _ _ _ Hsh Hs HA) as Hrep.
  unfold keys_with_type_in_shard, shard_object_count_hint. rewrite Hs. simpl.
  destruct (Z.to_nat (Z.max (object_count sh) 0) =? 0) eqn:E.
  - apply Nat.eqb_eq in E. exists []. rewrite shard_keys_empty; [done|done|lia].
  - destruct (typed_keys_of_buckets_spec (buckets sh) As now_ms []) as (typed & -> & Ht); [apply Hrep|].
    by exists typed.
Qed.

Lemma scan_in_shard_spec {S : Type} (visitor : S → Bytes → S * bool) s A sid sh (As : list AState) now_ms
    (offset limit visited emitted : Z) (st : S) :
  store_rep s A → shards s !! sid = Some sh → A !! sid = Some As →
  scan_keys_in_shard_visit visitor s sid now_ms None offset limit visited emitted st =
    Some (scan_list visitor offset limit (shard_keys now_ms (buckets sh) As) (mkScan 0 visited emitted st)).
Proof.
  intros [Hsh _] Hs HA. pose proof (Forall2_lookup_lr _ _ _ _ _ _ Hsh Hs HA) as Hrep.
  unfold scan_keys_in_shard_visit, shard_object_count_hint. rewrite Hs. cbn [mbind option_bind].
  destruct (Z.to_nat (Z.max (object_count sh) 0) =? 0) eqn:E.
  - apply Nat.eqb_eq in E. rewrite shard_keys_empty; [done|done|lia].
  - by apply scan_buckets_spec, Hrep.
Qed.

Lemma typed_keys_from_spec s A now_ms (i n : nat) (out : list (Bytes * string)) :
  store_rep s A → i + n = length (shards s) →
  ∃ typed, typed_keys_from s now_ms (seq i n) out = Some (out ++ typed) ∧
    typed.*1 = mjoin (zip_with (λ sh As, shard_keys now_ms (buckets sh) As) (drop i (shards s)) (drop i A)).
Proof.
  intros Hr. pose proof (Forall2_length _ _ _ (st_shards _ _ Hr)) as Hlen.
  revert i out. induction n as [|n IH]; intros i out Hi; simpl.
  - exists []. rewrite !drop_ge by lia. by rewrite app_nil_r.
  - destruct (lookup_lt_is_Some_2 (shards s) i) as [sh Hs]; [lia|].
    destruct (lookup_lt_is_Some_2 A i) as [As HA]; [lia|].
    destruct (typed_keys_in_shard_spec s A i sh As now_ms Hr Hs HA) as (t1 & -> & Ht1). cbn [mbind option_bind].
    destruct (IH (Datatypes.S i) (out ++ t1)) as (t2 & -> & Ht2); [lia|]. exists (t1 ++ t2).
    rewrite app_assoc. split; [done|].
    rewrite (drop_S (shards s) sh i Hs), (drop_S A As i HA). simpl. by rewrite fmap_app, Ht1, Ht2.
Qed.

Lemma keys_from_spec s A now_ms (i n : nat) (out : list Bytes) :
  store_rep s A → i + n = length (shards s) →
  keys_from s now_ms (seq i n) out =
    Some (out ++ mjoin (zip_with (λ sh As, shard_keys now_ms (buckets sh) As) (drop i (shards s)) (drop i A))).
Proof.
  intros Hr. pose proof (Forall2_length _ _ _ (st_shards _ _ Hr)) as Hlen.
  revert i out. induction n as [|n IH]; intros i out Hi; simpl.
  - rewrite !drop_ge by lia. by rewrite app_nil_r.
  - destruct (lookup_lt_is_Some_2 (shards s) i) as [sh Hs]; [lia|].
    destruct (lookup_lt_is_Some_2 A i) as [As HA]; [lia|].
    rewrite (keys_in_shard_spec s A i sh As) by done. simpl. rewrite IH by lia.
    rewrite (drop_S (shards s) sh i Hs), (drop_S A As i HA). simpl. by rewrite <-app_assoc.
Qed.

(** Objects stored in all shards. *)
Definition total (A : list (list AState)) : nat := sum_list (stored <$> A).

Lemma sum_counts (shs : list RedisObjectShard) (A : list (list AState)) (acc : nat) :
  Forall2 shard_rep shs A → fits (acc + total A) →
  foldl (λ acc sh, wrap_i64 (acc + object_count sh)) (Z.of_nat acc) shs = Z.of_nat (acc + total A).
Proof.
  intros Hs. revert acc. induction Hs as [|sh As shs A Hsh Hs IH]; intros acc Hf.
  - change (total []) with 0. simpl. f_equal. lia.
  - change (total (As :: A)) with (stored As + total A) in *. cbn [foldl].
    rewrite (sr_count _ _ Hsh), wrap_i64_id.
    + rewrite <-Nat2Z.inj_add, IH by (unfold fits in *; lia). f_equal. lia.
    + unfold fits, is_i64, i64_MIN, i64_MAX in *. lia.
Qed.

Lemma total_elem (A : list (list AState)) (As : list AState) : As ∈ A → stored As ≤ total A.
Proof.
  induction A as [|x A IH]; [by intros ?%elem_of_nil|].
  change (total (x :: A)) with (stored x + total A). intros [->|Hin]%elem_of_cons; [lia|].
  specialize (IH Hin). lia.
Qed.

Lemma store_object_count_spec s A :
  store_rep s A → fits (total A) →
  (store_object_count s).1 = total A ∧ store_rep (store_object_count s).2 A.
Proof.
  intros [Hs Hh] Hf. unfold store_object_count.
  pose proof (sum_counts (shards s) A 0 Hs Hf) as Hsum. change (Z.of_nat 0) with 0%Z in Hsum. rewrite Hsum.
  rewrite Z.max_l, Nat2Z.id by lia. split; [done|]. split; [done|]. simpl.
  intros sh [i Hi]%list_elem_of_lookup Hpos. destruct (Forall2_lookup_l _ _ _ _ _ Hs Hi) as (As & HA & Hsh).
  apply list_elem_of_lookup_2, total_elem in HA. rewrite (sr_count _ _ Hsh) in Hpos.
  apply negb_true_iff, Nat.eqb_neq. lia.
Qed.

Lemma store_keys_spec s A now_ms :
  store_rep s A → fits (total A) →
  ∃ s', store_keys s now_ms = Some (store_all_keys now_ms s A, s') ∧ store_rep s' A.
Proof.
  intros Hr Hf. destruct (store_object_count_spec s A Hr Hf) as [_ Hr']. unfold store_keys.
  assert (shards (store_object_count s).2 = shards s) as Es by done.
  destruct (store_object_count s) as [n s']. simpl in *.
  rewrite (keys_from_spec s' A now_ms 0 (length (shards s')) [] Hr') by done. simpl.
  exists s'. split; [|done]. unfold store_all_keys. by rewrite Es, !drop_0.
Qed.

Lemma store_keys_with_type_spec s A now_ms :
  store_rep s A → fits (total A) →
  ∃ typed s', store_keys_with_type s now_ms = Some (typed, s') ∧ typed.*1 = store_all_keys now_ms s A ∧
              store_rep s' A.
Proof.
  intros Hr Hf. destruct (store_object_count_spec s A Hr Hf) as [_ Hr']. unfold store_keys_with_type.
  assert (shards (store_object_count s).2 = shards s) as Es by done.
  destruct (store_object_count s) as [n s']. simpl in *.
  destruct (typed_keys_from_spec s' A now_ms 0 (length (shards s')) [] Hr') as (typed & -> & Ht); [done|].
  exists typed, s'. split; [done|]. split; [|done]. rewrite Ht. unfold store_all_keys. by rewrite Es, !drop_0.
Qed.

Lemma store_all_keys_empty s A now_ms :
  store_rep s A → has_objects s = false → store_all_keys now_ms s A = [].
Proof.
  intros [Hs Hh] Hno. unfold store_all_keys.
  assert (∀ sh, sh ∈ shards s → (object_count sh ≤ 0)%Z) as Hz.
  { intros sh Hin. destruct (Z.le_gt_cases (object_count sh) 0) as [?|Hp]; [done|].
    unfold has_objects in Hno. by rewrite (Hh sh Hin Hp) in Hno. }
  clear Hh Hno. induction Hs as [|sh As shs A Hsh Hs IH]; [done|]. simpl.
  rewrite (shard_keys_empty sh As) by first [done|apply Hz; set_solver].
  apply IH. intros x Hx. apply Hz. set_solver.
Qed.

(** The number the counting command reports is the number of keys listed. *)
Lemma store_live_object_count_spec s A now_ms :
  store_rep s A → Forall (Forall (λ a, ∀ k, a_objs a !! k ≠ Some (AHash ∅))) A →
  store_live_object_count s now_ms = Some (length (store_all_keys now_ms s A)).
Proof.
  intros Hr Hne. unfold store_live_object_count. destruct (has_objects s) eqn:Hn; cbn [negb].
  2: by rewrite (store_all_keys_empty s A) by done.
  clear Hn. destruct Hr as [Hs _]. unfold store_all_keys.
  induction Hs as [|sh As shs A Hsh Hs IH]; [done|]. apply Forall_cons in Hne as [Hn1 Hne].
  simpl. rewrite length_app, IH by done. destruct (object_count sh <=? 0)%Z eqn:E.
  - apply Z.leb_le in E. rewrite (shard_keys_empty sh As) by done. done.
  - by rewrite (sum_live_spec (buckets sh) As) by (done || apply Hsh).
Qed.

Lemma store_visit_keys_spec {S : Type} (visitor : S → Bytes → S * bool) s A now_ms (st : S) :
  store_rep s A →
  store_visit_keys visitor s now_ms st = Some (visit_key_iter visitor (store_all_keys now_ms s A) st).
Proof.
  intros Hr. unfold store_visit_keys. destruct (has_objects s) eqn:Hn; cbn [negb].
  2: by rewrite (store_all_keys_empty s A) by done.
  clear Hn. destruct Hr as [Hs _]. unfold store_all_keys. revert st.
  induction Hs as [|sh As shs A Hsh Hs IH]; intros st; [done|]. simpl. rewrite visit_app.
  destruct (_ =? 0) eqn:E.
  - apply Nat.eqb_eq in E. rewrite (shard_keys_empty sh As) by (done || lia). apply IH.
  - rewrite (visit_buckets_spec visitor (buckets sh) As) by apply Hsh. simpl.
    destruct (visit_key_iter visitor (shard_keys now_ms (buckets sh) As) st) as [st' []]; simpl; [|done].
    apply IH.
Qed.

(** What is listed: the visible keys of every bucket. *)
Lemma elem_of_shard_keys (bs : list bucket) (As : list AState) now_ms (k : Bytes) :
  Forall2 bucket_rep bs As →
  k ∈ shard_keys now_ms bs As ↔ ∃ a, a ∈ As ∧ a_visible a now_ms k = true.
Proof.
  intros Hb. induction Hb as [|b a bs As Hba Hb IH].
  - rewrite elem_of_nil. split; [done|]. by intros (a & ?%elem_of_nil & _).
  - change (shard_keys now_ms (b :: bs) (a :: As)) with (visible_keys b a now_ms ++ shard_keys now_ms bs As).
    rewrite elem_of_app, IH. unfold visible_keys. rewrite list_elem_of_filter.
    destruct (all_keys_spec b a (proj1 Hba)) as [_ Hk]. rewrite Hk. split.
    + intros [[? _]|(a' & ? & ?)]; [exists a|exists a']; set_solver.
    + intros (a' & [->|Hin]%elem_of_cons & Hv); [left|right; eauto]. split; [done|].
      unfold a_visible in Hv. destruct (a_objs a !! k); [eauto|]. by rewrite andb_false_r in Hv.
Qed.

Lemma elem_of_store_keys s A now_ms (k : Bytes) :
  store_rep s A →
  k ∈ store_all_keys now_ms s A ↔ ∃ As a, As ∈ A ∧ a ∈ As ∧ a_visible a now_ms k = true.
Proof.
  intros [Hs _]. unfold store_all_keys. induction Hs as [|sh As shs A Hsh Hs IH]; simpl.
  - rewrite elem_of_nil. split; [done|]. by intros (As & a & ?%elem_of_nil & _).
  - rewrite elem_of_app, IH, (elem_of_shard_keys (buckets sh) As) by apply Hsh. split.
    + intros [(a & ? & ?)|(As' & a & ? & ? & ?)]; [exists As, a|exists As', a]; set_solver.
    + intros (As' & a & [->|Hin]%elem_of_cons & ? & ?); [left|right]; eauto.
Qed.

(** The empty store. *)
Lemma store_new_rep (n : nat) :
  store_rep (store_new n) (replicate (Nat.max n 1) (replicate OBJECT_BUCKETS a_empty)).
Proof.
  unfold store_new. split; cbn [shards has_objects_hint].
  - apply Forall2_replicate. split; cbn [buckets object_count].
    + apply Forall2_replicate. split; [apply phys_default|apply wf_a_empty].
    + apply length_replicate.
    + generalize OBJECT_BUCKETS. intros k. induction k as [|k IHk]; [done|].
      change (stored (replicate (Datatypes.S k) a_empty))
        with (size (a_objs a_empty) + stored (replicate k a_empty)).
      change (a_objs a_empty) with (∅ : gmap Bytes AValue). by rewrite map_size_empty.
  - intros sh [i [-> _]%lookup_replicate]%list_elem_of_lookup. simpl. lia.
Qed.
End Store.
