(* ===== verification/StoreOps.v ===== *)
(** * The commands discharge the store's contracts

    [ObjectWrite] and [ObjectCreate] say what the store relies on when it
    counts objects.  This file proves them for every write command of a
    bucket, so the counter theorems of [Store] apply to all of them. *)

From S2P Require Import Prelude Deps Slab ListObject Helpers F64 Types HashSet ZSet Bucket.
From S2P Require Import BucketCore BucketKeys BucketList BucketSet BucketZSet BucketHash.
From S2P Require Import BucketHashReads BucketHashTtl Store.

(** The write commands that go through [object_write_routed].  A clock read
    inside a hash command is an argument. *)
Inductive WriteCommand :=
  | CmdList (w : ListWrite)
  | CmdSrem (members : list Bytes)
  | CmdSpop (count : option nat)
  | CmdZaddCond (score : f64) (member : Bytes) (nx xx gt lt ch incr : bool)
  | CmdZincrby (delta : f64) (member : Bytes)
  | CmdZrem (member : Bytes)
  | CmdZremMany (members : list Bytes)
  | CmdZpop (count : nat) (max : bool)
  | CmdHset (field value : Bytes) (clock : Z)
  | CmdHsetMany (fvs : list (Bytes * Bytes)) (clock : Z)
  | CmdHdel (field : Bytes) (clock : Z)
  | CmdHdelMany (fields : list Bytes) (clock : Z)
  | CmdHsetnx (field value : Bytes) (clock : Z)
  | CmdHincrby (field : Bytes) (delta clock clock2 : Z)
  | CmdHincrbyfloat (field : Bytes) (delta : f64) (clock clock2 : Z)
  | CmdHexpire (fields : list Bytes) (at_ms : Z) (cond : HashFieldExpireCond.t) (now_ms : Z)
  | CmdHpersist (fields : list Bytes) (now_ms : Z)
  | CmdHgetdel (fields : list Bytes) (now_ms : Z)
  | CmdHgetex (fields : list Bytes) (action : HashFieldGetExpireAction.t) (now_ms : Z)
  | CmdHsetex (fvs : list (Bytes * Bytes)) (condition : HashFieldSetCondition.t)
      (action : HashFieldSetExpireAction.t) (now_ms : Z).

(** The commands that go through [object_create_hashed]: LPUSH/RPUSH, SADD,
    plain ZADD and HSET. *)
Inductive CreateCommand :=
  | CreatePush (values : list Bytes) (front : bool)
  | CreateSadd (members : list Bytes)
  | CreateZadd (score : f64) (member : Bytes)
  | CreateHset (field value : Bytes) (clock : Z).

(** The reads that go through [object_read_routed]; hash reads take a clock. *)
Inductive ReadCommand :=
  | ReadLlen | ReadLindex (index : Z) | ReadLrange (start stop : Z)
  | ReadSismember (member : Bytes) | ReadSmismember (members : list Bytes) | ReadScard | ReadSmembers
  | ReadSrandmember (count : option Z)
  | ReadZscore (member : Bytes) | ReadZmscore (members : list Bytes) | ReadZcard
  | ReadZrange (start stop : Z) | ReadZrank (member : Bytes) (backward : bool) | ReadZcount (min max : f64)
  | ReadHget (field : Bytes) (clock : Z) | ReadHexists (field : Bytes) (clock : Z) | ReadHlen (clock : Z)
  | ReadHmget (fields : list Bytes) (clock : Z) | ReadHkeys (clock : Z) | ReadHvals (clock : Z)
  | ReadHgetall (clock : Z) | ReadHrandfield (count : option Z) (with_values : bool) (clock : Z)
  | ReadHttl (fields : list Bytes) (as_millis absolute : bool) (now_ms : Z).

Section StoreOps.
Context `{Hashing} {HT : Type → Type} `{!HashTable HT} `{TableOrder} `{FloatOps}.
Context {OT : Type} `{!IndexTreeSet ZSetOrderKey zk_cmp OT}.
Abbreviation bucket := (RedisObjectBucket (HT := HT) (OT := OT)).
Implicit Types (b : bucket) (a : AState) (key field value : Bytes) (now_ms clock : Z) (cmd : WriteCommand).

Definition run_write key cmd (b : bucket) : option ((RedisObjectResult * bool) * bucket) :=
  match cmd with
  | CmdList w => run_list_write b key w
  | CmdSrem members => srem b key members
  | CmdSpop count => spop b key count
  | CmdZaddCond score member nx xx gt lt ch incr => zadd_cond b key score member nx xx gt lt ch incr
  | CmdZincrby delta member => zincrby b key delta member
  | CmdZrem member => zrem b key member
  | CmdZremMany members => zrem_many b key members
  | CmdZpop count max => zpop b key count max
  | CmdHset field value clock => hset b key field value clock
  | CmdHsetMany fvs clock => hset_many b key fvs clock
  | CmdHdel field clock => hdel b key field clock
  | CmdHdelMany fields clock => hdel_many b key fields clock
  | CmdHsetnx field value clock => hsetnx b key field value clock
  | CmdHincrby field delta clock clock2 => hincrby b key field delta clock clock2
  | CmdHincrbyfloat field delta clock clock2 => hincrbyfloat b key field delta clock clock2
  | CmdHexpire fields at_ms cond now_ms => hash_field_expire b key fields at_ms cond now_ms
  | CmdHpersist fields now_ms => hash_field_persist b key fields now_ms
  | CmdHgetdel fields now_ms => hash_field_getdel b key fields now_ms
  | CmdHgetex fields action now_ms => hash_field_getex b key fields action now_ms
  | CmdHsetex fvs condition action now_ms => hash_field_setex b key fvs condition action now_ms
  end.

(** What the caller must have checked: indexes are [i64], lists are
    addressable, scores are not NaN. *)
Definition write_pre key cmd a : Prop :=
  match cmd with
  | CmdList w => list_write_ok a key w
  | CmdZaddCond score _ _ _ _ _ _ _ | CmdZincrby score _ => score_ok score
  | _ => True
  end.

(** HSETEX reports a creation although nothing is stored when it creates a
    hash whose fields are all past their deadline at once, and when the hash
    it finds is wholly expired. *)
Definition hsetex_pre key (action : HashFieldSetExpireAction.t) now_ms a : Prop :=
  (a_cleanup a key now_ms).1 = false ∧
  (a_objs a !! key = None →
   match action with HashFieldSetExpireAction.ExpireAt at_ms => (now_ms < at_ms)%Z | _ => True end).

(** Where the flag a write returns is right: everywhere, but for HSETEX. *)
Definition flag_right key cmd a : Prop :=
  match cmd with CmdHsetex _ _ action now_ms => hsetex_pre key action now_ms a | _ => True end.

Definition counted_pre key cmd a : Prop := write_pre key cmd a ∧ flag_right key cmd a.

(** The abstract counterpart; [SPOP] may pick any members. *)
Definition write_post key cmd a (r : RedisObjectResult) (flag : bool) a' : Prop :=
  match cmd with
  | CmdList w => ((r, flag), a') = a_list_write a key w
  | CmdSrem members => ((r, flag), a') = a_srem a key members
  | CmdSpop count =>
      ∃ g, (∀ s, a_get KSet a key = Some s → spop_ok count s (g s).1 (g s).2) ∧
           ((r, flag), a') = a_modify KSet a key g WrongType
                               (match count with Some _ => Array [] | None => Bulk None end)
  | CmdZaddCond score member nx xx gt lt ch incr =>
      ((r, flag), a') = a_zadd_cond a key score member nx xx gt lt ch incr
  | CmdZincrby delta member =>
      ((r, flag), a') = a_zadd_cond a key delta member false false false false true true
  | CmdZrem member => ((r, flag), a') = a_zrem a key member
  | CmdZremMany members => ((r, flag), a') = a_zrem_many a key members
  | CmdZpop count max => ((r, flag), a') = a_zpop a key count max
  | CmdHset field value clock => ((r, flag), a') = a_hset a key field value clock
  | CmdHsetMany fvs clock => ((r, flag), a') = a_hset_many a key fvs clock
  | CmdHdel field clock => ((r, flag), a') = a_hdel a key field clock
  | CmdHdelMany fields clock => ((r, flag), a') = a_hdel_many a key fields clock
  | CmdHsetnx field value clock => ((r, flag), a') = a_hsetnx a key field value clock
  | CmdHincrby field delta clock clock2 => ((r, flag), a') = a_hincrby a key field delta clock clock2
  | CmdHincrbyfloat field delta clock clock2 =>
      ((r, flag), a') = a_hincrbyfloat a key field delta clock clock2
  | CmdHexpire fields at_ms cond now_ms =>
      ((r, flag), a') = a_hash_field_expire a key fields at_ms cond now_ms
  | CmdHpersist fields now_ms => ((r, flag), a') = a_hash_field_persist a key fields now_ms
  | CmdHgetdel fields now_ms => ((r, flag), a') = a_hash_field_getdel a key fields now_ms
  | CmdHgetex fields action now_ms => ((r, flag), a') = a_hash_field_getex a key fields action now_ms
  | CmdHsetex fvs condition action now_ms =>
      ((r, flag), a') = a_hash_field_setex a key fvs condition action now_ms
  end.

(** ** How the abstract commands change the key *)

Definition result_toggles key a (x : (RedisObjectResult * bool) * AState) : Prop :=
  toggles key a x.2 x.1.2.

Lemma toggles_same key a : toggles key a a false.
Proof. split; [done|]. by destruct (a_has a key). Qed.

(** Replacing the object of a key that has one. *)
Lemma toggles_replace key a a' :
  (∀ k, k ≠ key → a_objs a' !! k = a_objs a !! k) → a_has a key = true → a_has a' key = true →
  toggles key a a' false.
Proof. intros Hk H1' H2. split; [done|]. by rewrite H1', H2. Qed.

Lemma a_has_put K a key (v : val K) : a_has (a_put K a key v) key = true.
Proof. apply bool_decide_eq_true. simpl. rewrite lookup_insert_eq. eauto. Qed.

Lemma a_has_put_hash a key (h : gmap Bytes Bytes) (ttls : gmap Bytes Z) : a_has (a_put_hash a key h ttls) key = true.
Proof. apply bool_decide_eq_true. simpl. rewrite lookup_insert_eq. eauto. Qed.

Lemma a_has_Some a key av : a_objs a !! key = Some av → a_has a key = true.
Proof. intros E. apply bool_decide_eq_true. eauto. Qed.

Lemma a_has_None a key : a_objs a !! key = None → a_has a key = false.
Proof. intros E. apply bool_decide_eq_false. rewrite E. by intros []. Qed.

Lemma toggles_put K a key (v : val K) (flag : bool) :
  flag = negb (a_has a key) → toggles key a (a_put K a key v) flag.
Proof.
  intros ->. split; [intros k Hk; simpl; by rewrite lookup_insert_ne|].
  rewrite a_has_put. by destruct (a_has a key).
Qed.

Lemma toggles_put_hash a key (h : gmap Bytes Bytes) (ttls : gmap Bytes Z) (flag : bool) :
  flag = negb (a_has a key) → toggles key a (a_put_hash a key h ttls) flag.
Proof.
  intros ->. split; [intros k Hk; simpl; by rewrite lookup_insert_ne|].
  rewrite a_has_put_hash. by destruct (a_has a key).
Qed.

Lemma toggles_trans key a a1 a2 (flag : bool) :
  toggles key a a1 false → toggles key a1 a2 flag → toggles key a a2 flag.
Proof.
  intros [H1a H1b] [H2a H2b]. split; [intros k Hk; by rewrite H2a, H1a|].
  rewrite H2b. by destruct (a_has a key), (a_has a1 key), (a_has a2 key).
Qed.

Lemma toggles_purge key a clock : toggles key a (a_purge a key clock) false.
Proof.
  split; [by apply a_purge_objs|]. rewrite a_purge_has. by destruct (a_has a key).
Qed.

Lemma modify_toggles {K} a key (g : val K → RedisObjectResult * val K) wrong missing :
  result_toggles key a (a_modify K a key g wrong missing).
Proof.
  unfold result_toggles, a_modify. destruct (a_objs a !! key) as [av|] eqn:E; [|apply toggles_same].
  destruct (proj K av); [|apply toggles_same]. destruct (g v) as [r v'].
  destruct (val_empty K v'); simpl.
  - apply toggles_delete. by eapply a_has_Some.
  - apply toggles_put. by rewrite (a_has_Some a key av).
Qed.

Lemma update_toggles {R : Type} {K} a key (g : val K → R * val K) wrong missing :
  toggles key a (a_update K a key g wrong missing).2 false.
Proof.
  unfold a_update. destruct (a_objs a !! key) as [av|] eqn:E; [|apply toggles_same].
  destruct (proj K av); [|apply toggles_same]. destruct (g v) as [r v']. simpl.
  apply toggles_put. by rewrite (a_has_Some a key av).
Qed.

Lemma update_flag {K} a key (g : val K → (RedisObjectResult * bool) * val K) wrong missing :
  (∀ v, (g v).1.2 = false) → wrong.2 = false → missing.2 = false →
  result_toggles key a (a_update K a key g wrong missing).
Proof.
  intros Hg Hw Hm. unfold result_toggles.
  assert ((a_update K a key g wrong missing).1.2 = false) as ->; [|apply update_toggles].
  unfold a_update. destruct (a_objs a !! key) as [av|]; [|done]. destruct (proj K av); [|done].
  specialize (Hg v). by destruct (g v).
Qed.

Lemma list_write_toggles a key w : result_toggles key a (a_list_write a key w).
Proof.
  destruct w; simpl; repeat case_match; try apply modify_toggles; try apply toggles_same;
    apply update_flag; try done.
  intros l. by destruct (a_lset l index value).
Qed.

Lemma zadd_cond_toggles a key score member nx xx gt lt ch incr :
  result_toggles key a (a_zadd_cond a key score member nx xx gt lt ch incr).
Proof.
  unfold a_zadd_cond. repeat case_match; try apply toggles_same; by apply toggles_put.
Qed.

(** Hash commands start with a purge, which keeps the key. *)
Ltac after_purge a key clock :=
  unfold result_toggles; apply (toggles_trans key a (a_purge a key clock)); [apply toggles_purge|];
  generalize (a_purge a key clock); intros a'.

Lemma remove_fields_toggles a key (h : gmap Bytes Bytes) (fields : list Bytes) :
  a_has a key = true → toggles key a (a_remove_fields a key h fields).2 (a_remove_fields a key h fields).1.
Proof.
  intros Ha. unfold a_remove_fields. case_bool_decide; simpl; [by apply toggles_delete|].
  apply toggles_put_hash. by rewrite Ha.
Qed.

Ltac by_presence :=
  match goal with
  | Ho : a_objs ?a !! ?k = Some _ |- _ => by rewrite (a_has_Some a k _ Ho)
  | Ho : a_objs ?a !! ?k = None |- _ => by rewrite (a_has_None a k Ho)
  end.

Ltac hash_cases_toggles :=
  lazymatch goal with
  | |- context [a_objs ?a !! ?k] => destruct (a_objs a !! k) as [[h|l|m|z]|] eqn:?Ho
  end; simpl;
  first [ apply toggles_same
        | apply toggles_put_hash; by_presence
        | apply toggles_put; by_presence
        | idtac ].

Lemma hset_toggles a key field value clock : result_toggles key a (a_hset a key field value clock).
Proof. unfold a_hset. after_purge a key clock. hash_cases_toggles.
Qed.

Lemma hset_many_toggles a key (fvs : list (Bytes * Bytes)) clock :
  result_toggles key a (a_hset_many a key fvs clock).
Proof.
  unfold a_hset_many. case_bool_decide; [apply toggles_same|]. after_purge a key clock. hash_cases_toggles.
Qed.

Lemma hdel_many_toggles a key (fields : list Bytes) clock :
  result_toggles key a (a_hdel_many a key fields clock).
Proof.
  unfold a_hdel_many. after_purge a key clock. hash_cases_toggles.
  case_bool_decide; simpl; [apply toggles_delete; by_presence|].
  pose proof (remove_fields_toggles a' key h fields) as Ht.
  destruct (a_remove_fields a' key h fields) as [e a2]. apply Ht. by_presence.
Qed.

Lemma hdel_toggles a key field clock : result_toggles key a (a_hdel a key field clock).
Proof.
  unfold a_hdel. after_purge a key clock. hash_cases_toggles.
  case_bool_decide; simpl; [apply toggles_delete; by_presence|].
  pose proof (remove_fields_toggles a' key h [field]) as Ht.
  destruct (a_remove_fields a' key h [field]) as [e a2]. apply Ht. by_presence.
Qed.

Lemma hsetnx_toggles a key field value clock : result_toggles key a (a_hsetnx a key field value clock).
Proof.
  unfold a_hsetnx. after_purge a key clock. hash_cases_toggles.
  destruct (h !! field); simpl; [apply toggles_same|]. apply toggles_put. by_presence.
Qed.

Lemma hincrby_toggles a key field (delta clock clock2 : Z) :
  result_toggles key a (a_hincrby a key field delta clock clock2).
Proof.
  unfold a_hincrby. after_purge a key clock. destruct (a_current _ _ _ _); try apply toggles_same.
  destruct (i64_checked_add _ _) as [n|]; [|apply toggles_same].
  pose proof (hset_toggles a' key field (i64_to_string n) clock2) as Ht. unfold result_toggles in Ht.
  by destruct (a_hset a' key field (i64_to_string n) clock2) as [[r c] a2].
Qed.

Lemma hincrbyfloat_toggles a key field (delta : f64) (clock clock2 : Z) :
  result_toggles key a (a_hincrbyfloat a key field delta clock clock2).
Proof.
  unfold a_hincrbyfloat. after_purge a key clock. destruct (a_current _ _ _ _); try apply toggles_same.
  cbn zeta. destruct (negb _); [apply toggles_same|]. set (text := format_score _).
  pose proof (hset_toggles a' key field text clock2) as Ht. unfold result_toggles in Ht.
  by destruct (a_hset a' key field text clock2) as [[r c] a2].
Qed.

Lemma on_live_toggles a key now_ms (missing : RedisObjectResult)
    (body : gmap Bytes Bytes → AState → (RedisObjectResult * bool) * AState) :
  (∀ h a1, a_has a1 key = true → result_toggles key a1 (body h a1)) →
  result_toggles key a (a_on_live a key now_ms missing body).
Proof.
  intros Hbody. unfold a_on_live. destruct (a_objs a !! key) as [[h|l|m|z]|] eqn:Ho;
    try apply toggles_same. cbn zeta. case_bool_decide.
  - apply toggles_delete. by_presence.
  - eapply toggles_trans; [apply (toggles_purge key a now_ms)|]. apply Hbody.
    rewrite a_purge_has. by_presence.
Qed.

Lemma hash_field_expire_toggles a key (fields : list Bytes) (at_ms : Z)
    (cond : HashFieldExpireCond.t) now_ms :
  result_toggles key a (a_hash_field_expire a key fields at_ms cond now_ms).
Proof.
  apply on_live_toggles. intros h a1 Ha. destruct (a_expire_fields _ _ _ _ _ _) as [[codes dels] ttls].
  pose proof (remove_fields_toggles (a_put_hash a1 key h ttls) key h dels) as Ht.
  destruct (a_remove_fields _ _ _ _) as [e a2]. unfold result_toggles. simpl in *.
  eapply toggles_trans; [|apply Ht, a_has_put_hash]. apply toggles_put_hash. by rewrite Ha.
Qed.

Lemma hash_field_persist_toggles a key (fields : list Bytes) now_ms :
  result_toggles key a (a_hash_field_persist a key fields now_ms).
Proof. apply on_live_toggles. intros h a1 Ha. apply toggles_put_hash. by rewrite Ha. Qed.

Lemma hash_field_getdel_toggles a key (fields : list Bytes) now_ms :
  result_toggles key a (a_hash_field_getdel a key fields now_ms).
Proof.
  apply on_live_toggles. intros h a1 Ha. pose proof (remove_fields_toggles a1 key h fields Ha) as Ht.
  by destruct (a_remove_fields a1 key h fields).
Qed.

Lemma hash_field_getex_toggles a key (fields : list Bytes) (action : HashFieldGetExpireAction.t) now_ms :
  result_toggles key a (a_hash_field_getex a key fields action now_ms).
Proof.
  apply on_live_toggles. intros h a1 Ha. cbn zeta. destruct action as [| |at_ms]; [apply toggles_same|..].
  - apply toggles_put_hash. by rewrite Ha.
  - destruct (at_ms <=? now_ms)%Z; [|apply toggles_put_hash; by rewrite Ha].
    pose proof (remove_fields_toggles a1 key h fields Ha) as Ht.
    by destruct (a_remove_fields a1 key h fields).
Qed.

Lemma cleanup_kept a key now_ms : (a_cleanup a key now_ms).1 = false → (a_cleanup a key now_ms).2 = a_purge a key now_ms.
Proof. unfold a_cleanup. by case_bool_decide. Qed.

Lemma setex_ttls_toggles a key (h : gmap Bytes Bytes) (fvs : list (Bytes * Bytes))
    (action : HashFieldSetExpireAction.t) now_ms (created : bool) :
  created = negb (a_has a key) →
  (created = true →
   match action with HashFieldSetExpireAction.ExpireAt at_ms => (now_ms < at_ms)%Z | _ => True end) →
  result_toggles key a (a_setex_ttls a key h fvs action now_ms created).
Proof.
  intros Hc Hp. unfold a_setex_ttls. destruct action as [| |at_ms]; try (by apply toggles_put_hash).
  destruct (at_ms <=? now_ms)%Z eqn:E; [|by apply toggles_put_hash]. apply Z.leb_le in E.
  destruct created; [specialize (Hp eq_refl); lia|]. symmetry in Hc. apply negb_false_iff in Hc.
  pose proof (remove_fields_toggles a key h fvs.*1 Hc) as Ht. unfold result_toggles.
  destruct (a_remove_fields a key h fvs.*1) as [[] a']; done.
Qed.

Lemma setex_toggles a key (fvs : list (Bytes * Bytes)) (condition : HashFieldSetCondition.t)
    (action : HashFieldSetExpireAction.t) now_ms :
  hsetex_pre key action now_ms a →
  result_toggles key a (a_hash_field_setex a key fvs condition action now_ms).
Proof.
  intros [Hcl Hnew]. unfold a_hash_field_setex. case_bool_decide; [apply toggles_same|].
  rewrite (cleanup_kept _ _ _ Hcl). cbn zeta. unfold result_toggles.
  apply (toggles_trans key a (a_purge a key now_ms)); [apply toggles_purge|].
  assert (a_objs (a_purge a key now_ms) !! key = None → a_objs a !! key = None) as Habs.
  { pose proof (a_purge_has a key now_ms) as Hh. unfold a_has in Hh. intros E. rewrite E in Hh.
    apply eq_None_not_Some. intros Hs. by rewrite (bool_decide_eq_true_2 _ Hs) in Hh. }
  generalize dependent (a_purge a key now_ms). intros a1 Habs.
  destruct (a_objs a1 !! key) as [[h|l|m|z]|] eqn:Ho; try apply toggles_same.
  - destruct (set_allowed _ _ _); [|apply toggles_same]. apply setex_ttls_toggles; [by_presence|done].
  - destruct (set_allowed _ _ _); [|apply toggles_same]. apply setex_ttls_toggles; [by_presence|intros _; apply Hnew, Habs; done].
Qed.

(** ** The contracts *)

Lemma write_command_toggles key cmd a r (flag : bool) a' :
  flag_right key cmd a → write_post key cmd a r flag a' → toggles key a a' flag.
Proof.
  assert (∀ x, result_toggles key a x → ((r, flag), a') = x → toggles key a a' flag) as Hx
    by (intros [[r0 f0] a0]; unfold result_toggles; simpl; intros Hr; by intros [= -> -> ->]).
  destruct cmd; simpl; intros Hok; try (intros (g & _ & E); revert E); apply Hx; unfold a_srem, a_zrem, a_zrem_many, a_zpop;
    eauto using modify_toggles, list_write_toggles, zadd_cond_toggles, hset_toggles, hset_many_toggles,
      hdel_toggles, hdel_many_toggles, hsetnx_toggles, hincrby_toggles, hincrbyfloat_toggles,
      hash_field_expire_toggles, hash_field_persist_toggles, hash_field_getdel_toggles,
      hash_field_getex_toggles, setex_toggles.
Qed.

(** Whatever its flag, a write leaves the objects of other keys alone. *)
Lemma cleanup_objs a key now_ms (k : Bytes) : k ≠ key → a_objs (a_cleanup a key now_ms).2 !! k = a_objs a !! k.
Proof.
  intros Hk. unfold a_cleanup. case_bool_decide; simpl; [rewrite lookup_delete_ne by done|]; by apply a_purge_objs.
Qed.

Lemma setex_ttls_objs a key (h : gmap Bytes Bytes) (fvs : list (Bytes * Bytes))
    (action : HashFieldSetExpireAction.t) now_ms (created : bool) (k : Bytes) :
  k ≠ key → a_objs (a_setex_ttls a key h fvs action now_ms created).2 !! k = a_objs a !! k.
Proof.
  intros Hk. unfold a_setex_ttls, a_remove_fields. destruct action; simpl; repeat case_match; simplify_eq/=;
    by rewrite ?lookup_insert_ne, ?lookup_delete_ne.
Qed.

Lemma write_command_frame key cmd a r (flag : bool) a' (k : Bytes) :
  write_post key cmd a r flag a' → k ≠ key → a_objs a' !! k = a_objs a !! k.
Proof.
  intros Hp Hk. destruct cmd;
    try (eapply write_command_toggles in Hp; [by apply (proj1 Hp)|exact I]).
  cbn [write_post] in Hp. apply (f_equal snd) in Hp. cbn [snd] in Hp. subst a'. unfold a_hash_field_setex.
  destruct (bool_decide (fvs = [])); [done|]. rewrite <-(cleanup_objs a key now_ms k Hk).
  generalize (a_cleanup a key now_ms).2. intros a1. cbn zeta.
  repeat case_match; simpl; try done; by apply setex_ttls_objs.
Qed.

(** Every write command runs and does what its abstract counterpart says. *)
Lemma write_command_runs key cmd b a :
  bucket_rep b a → write_pre key cmd a →
  ∃ r flag b' a', run_write key cmd b = Some ((r, flag), b') ∧ bucket_rep b' a' ∧
                  write_post key cmd a r flag a'.
Proof.
  intros Hb Hpre.
  assert (∀ x, (∃ b', run_write key cmd b = Some (x.1, b') ∧ bucket_rep b' x.2) →
    (∀ r flag a', ((r, flag), a') = x → write_post key cmd a r flag a') →
    ∃ r flag b' a', run_write key cmd b = Some ((r, flag), b') ∧ bucket_rep b' a' ∧
                    write_post key cmd a r flag a') as Hx.
  { intros [[r f] a'] (b' & Hr & Hb') Hpost. exists r, f, b', a'. split; [done|]. split; [done|]. by apply Hpost. }
  destruct cmd; simpl in Hpre.
  - eapply Hx; [by apply (list_write_refines b a key w)|done].
  - eapply Hx; [by apply srem_refines|done].
  - destruct (spop_refines b a key count Hb) as (g & b' & Hg & Hr & Hb'). eapply Hx; [by eexists|].
    simpl. eauto.
  - eapply Hx; [by apply zadd_cond_refines|done].
  - eapply Hx; [by apply zadd_cond_refines|done].
  - eapply Hx; [by apply zrem_refines|done].
  - eapply Hx; [by apply zrem_many_refines|done].
  - eapply Hx; [by apply zpop_refines|done].
  - eapply Hx; [by apply hset_refines|done].
  - eapply Hx; [by apply hset_many_refines|done].
  - eapply Hx; [by apply hdel_refines|done].
  - eapply Hx; [by apply hdel_many_refines|done].
  - eapply Hx; [by apply hsetnx_refines|done].
  - eapply Hx; [by apply hincrby_refines|done].
  - eapply Hx; [by apply hincrbyfloat_refines|done].
  - eapply Hx; [by apply hash_field_expire_refines|done].
  - eapply Hx; [by apply hash_field_persist_refines|done].
  - eapply Hx; [by apply hash_field_getdel_refines|done].
  - eapply Hx; [by apply hash_field_getex_refines|done].
  - eapply Hx; [by apply hash_field_setex_refines|done].
Qed.

#[export] Instance write_command_contract key cmd :
  ObjectWrite key (run_write key cmd) (counted_pre key cmd) (write_post key cmd).
Proof.
  split.
  - intros b a Hb [Hpre _]. by apply write_command_runs.
  - intros a r flag a' _ [_ Hok]. by apply write_command_toggles.
Qed.

(** The exception: the fields are written, found past their deadline, removed
    with the key, and the flag still says the object was created. *)
Lemma setex_past_absent a key (fvs : list (Bytes * Bytes)) (at_ms : Z) now_ms :
  wf_a a → a_objs a !! key = None → fvs ≠ [] → (at_ms ≤ now_ms)%Z →
  a_hash_field_setex a key fvs HashFieldSetCondition.Always (HashFieldSetExpireAction.ExpireAt at_ms) now_ms =
    ((Integer 1, true), a).
Proof.
  intros Hw Hn Hne Hp. unfold a_hash_field_setex. rewrite bool_decide_eq_false_2 by done.
  assert (a_get KHash a key = None) as Hg by (unfold a_get; by rewrite Hn).
  assert ((a_cleanup a key now_ms).2 = a) as ->.
  { unfold a_cleanup, a_purge. rewrite Hg. case_bool_decide as E; [|done]. by rewrite Hg in E. }
  cbn zeta. rewrite Hn. cbn [set_allowed]. unfold a_setex_ttls. rewrite (proj2 (Z.leb_le _ _)) by done.
  unfold a_remove_fields. rewrite bool_decide_eq_true_2.
  - f_equal. unfold a_delete. rewrite !delete_id; [by destruct a|by apply wf_fexp_None|by apply wf_exp_None|done].
  - apply map_empty. intros f. apply map_lookup_filter_None_2.
    destruct (decide (f ∈ fvs.*1)) as [Hin|Hin]; [right; intros v _; simpl; by intros []|left].
    clear Hne. rewrite <-(lookup_empty (M := gmap Bytes) (A := Bytes) f). unfold put_fields.
    revert Hin. generalize (∅ : gmap Bytes Bytes).
    induction fvs as [|[g w] fvs IH]; intros m Hin; [done|]. simpl. rewrite IH by set_solver.
    apply lookup_insert_ne. set_solver.
Qed.

(** ** Creating commands *)

Lemma update_missing {K} a key (g : val K → RedisObjectWriteAttempt * val K) :
  (∀ v, (g v).1 ≠ WriteMissing) →
  (a_update K a key g (Complete WrongType) WriteMissing).1 = WriteMissing →
  a_objs (a_update K a key g (Complete WrongType) WriteMissing).2 !! key = None.
Proof.
  intros Hg. unfold a_update. destruct (a_objs a !! key) as [av|] eqn:E; [|done].
  destruct (proj K av); simpl; [|done]. specialize (Hg v). by destruct (g v).
Qed.

#[export] Instance push_contract key (values : list Bytes) (front : bool) :
  ObjectCreate key (λ (b : bucket) h, push_list_existing_or_wrongtype_hashed b h key values front)
    (λ b h, push_list_new_unchecked_hashed b h key values front)
    (λ a, a_push_attempt a key values front) (Integer (usize_as_i64 (length values)))
    KList (ListObject.pushed front values []).
Proof.
  split.
  - intros b a. apply push_attempt_refines.
  - intros a _. unfold a_push_attempt. case_bool_decide; [apply toggles_same|apply update_toggles].
  - intros a _. unfold a_push_attempt. case_bool_decide; [done|]. by apply update_missing.
  - intros b a. apply push_new_refines.
Qed.

#[export] Instance sadd_contract key (members : list Bytes) :
  ObjectCreate key (λ (b : bucket) h, sadd_existing_or_wrongtype_hashed b h key members)
    (λ b h, sadd_new_unchecked_hashed b h key members) (λ a, a_sadd_attempt a key members)
    (Integer (usize_as_i64 (size (list_to_set members : gset Bytes)))) KSet (list_to_set members).
Proof.
  split.
  - intros b a. apply sadd_attempt_refines.
  - intros a _. unfold a_sadd_attempt. case_bool_decide; [apply toggles_same|apply update_toggles].
  - intros a _. unfold a_sadd_attempt. case_bool_decide; [done|]. by apply update_missing.
  - intros b a. apply sadd_new_refines.
Qed.

Lemma zadd_contract key (score : f64) (member : Bytes) :
  score_ok score →
  ObjectCreate key (λ (b : bucket) h, zadd_existing_or_wrongtype_hashed b h key score member)
    (λ b h, zadd_new_unchecked_hashed b h key score member) (λ a, a_zadd_attempt a key score member)
    (Integer 1) KZSet {[member := score]}.
Proof.
  intros Hs. split.
  - intros b a Hb. by apply zadd_attempt_refines.
  - intros a _. apply update_toggles.
  - intros a _. by apply update_missing.
  - intros b a Hb Hn. by apply zadd_new_refines.
Qed.

#[export] Instance hset_create_contract key field value clock :
  ObjectCreate key (λ (b : bucket) h, hset_existing_or_wrongtype_hashed b h key field value clock)
    (λ b h, hset_new_unchecked_hashed b h key field value)
    (λ a, a_hset_attempt a key field value clock) (Integer 1) KHash {[field := value]}.
Proof.
  split.
  - intros b a. apply hset_attempt_refines.
  - intros a _. unfold a_hset_attempt. apply (toggles_trans key a (a_purge a key clock)); [apply toggles_purge|].
    generalize (a_purge a key clock). intros a'. hash_cases_toggles.
  - intros a _. unfold a_hset_attempt. generalize (a_purge a key clock). intros a'.
    by destruct (a_objs a' !! key) as [[]|] eqn:E.
  - intros b a. apply hset_new_refines.
Qed.

(** The first half of a creating command, on a key that may exist. *)
Definition create_existing key (cmd : CreateCommand) b (h : Z) : option (RedisObjectWriteAttempt * bucket) :=
  match cmd with
  | CreatePush values front => push_list_existing_or_wrongtype_hashed b h key values front
  | CreateSadd members => sadd_existing_or_wrongtype_hashed b h key members
  | CreateZadd score member => zadd_existing_or_wrongtype_hashed b h key score member
  | CreateHset field value clock => hset_existing_or_wrongtype_hashed b h key field value clock
  end.

(** The second half, on a key without object. *)
Definition create_new key (cmd : CreateCommand) b (h : Z) : option (RedisObjectResult * bucket) :=
  match cmd with
  | CreatePush values front => push_list_new_unchecked_hashed b h key values front
  | CreateSadd members => sadd_new_unchecked_hashed b h key members
  | CreateZadd score member => zadd_new_unchecked_hashed b h key score member
  | CreateHset field value clock => hset_new_unchecked_hashed b h key field value
  end.

Definition create_attempt key (cmd : CreateCommand) a : RedisObjectWriteAttempt * AState :=
  match cmd with
  | CreatePush values front => a_push_attempt a key values front
  | CreateSadd members => a_sadd_attempt a key members
  | CreateZadd score member => a_zadd_attempt a key score member
  | CreateHset field value clock => a_hset_attempt a key field value clock
  end.

(** What a new key holds, and the answer. *)
Definition created_value (cmd : CreateCommand) : AValue :=
  match cmd with
  | CreatePush values front => AList (ListObject.pushed front values [])
  | CreateSadd members => ASet (list_to_set members)
  | CreateZadd score member => AZSet {[member := score]}
  | CreateHset field value _ => AHash {[field := value]}
  end.

Definition created_answer (cmd : CreateCommand) : RedisObjectResult :=
  match cmd with
  | CreatePush values _ => Integer (usize_as_i64 (length values))
  | CreateSadd members => Integer (usize_as_i64 (size (list_to_set members : gset Bytes)))
  | CreateZadd _ _ | CreateHset _ _ _ => Integer 1
  end.

Definition create_ok (cmd : CreateCommand) : Prop :=
  match cmd with CreateZadd score _ => score_ok score | _ => True end.

Lemma create_command_contract key (cmd : CreateCommand) :
  create_ok cmd →
  ∃ K (v : val K), inj K v = created_value cmd ∧
    ObjectCreate key (create_existing key cmd) (create_new key cmd) (create_attempt key cmd)
      (created_answer cmd) K v.
Proof.
  destruct cmd; intros Hok; [exists KList|exists KSet|exists KZSet|exists KHash]; eexists; (split; [done|]).
  - apply push_contract.
  - apply sadd_contract.
  - by apply zadd_contract.
  - apply hset_create_contract.
Qed.

(** ** Reads *)

Definition run_read key (cmd : ReadCommand) b : option RedisObjectResult :=
  match cmd with
  | ReadLlen => llen b key
  | ReadLindex index => lindex b key index
  | ReadLrange start stop => lrange b key start stop
  | ReadSismember member => sismember b key member
  | ReadSmismember members => smismember b key members
  | ReadScard => scard b key
  | ReadSmembers => smembers b key
  | ReadSrandmember count => srandmember b key count
  | ReadZscore member => zscore b key member
  | ReadZmscore members => zmscore b key members
  | ReadZcard => zcard b key
  | ReadZrange start stop => zrange b key start stop
  | ReadZrank member backward => zrank b key member backward
  | ReadZcount min max => zcount b key min max
  | ReadHget field clock => hget b key field clock
  | ReadHexists field clock => hexists b key field clock
  | ReadHlen clock => hlen b key clock
  | ReadHmget fields clock => hmget b key fields clock
  | ReadHkeys clock => hkeys b key clock
  | ReadHvals clock => hvals b key clock
  | ReadHgetall clock => hgetall b key clock
  | ReadHrandfield count with_values clock => hrandfield b key count with_values clock
  | ReadHttl fields as_millis absolute now_ms => hash_field_ttl_query b key fields as_millis absolute now_ms
  end.

(** Lengths that fit a signed word, arguments in range. *)
Definition key_fits key a : Prop :=
  list_fits a key ∧ (∀ s, a_get KSet a key = Some s → fits (size s)) ∧
  (∀ z, a_get KZSet a key = Some z → fits (size z)) ∧ (∀ h, a_get KHash a key = Some h → fits (size h)).

Definition read_ok key (cmd : ReadCommand) a : Prop :=
  key_fits key a ∧
  match cmd with
  | ReadLindex index => is_i64 index
  | ReadLrange start stop | ReadZrange start stop => is_i64 start ∧ is_i64 stop
  | ReadZcount min max => score_ok min ∧ score_ok max
  | _ => True
  end.

(** What each read answers, from the key space; SRANDMEMBER may pick. *)
Definition read_post key (cmd : ReadCommand) a (r : RedisObjectResult) : Prop :=
  let live clock h := a_live a key clock h in
  match cmd with
  | ReadLlen => r = a_read KList a key (λ l, Integer (Z.of_nat (length l))) WrongType (Integer 0)
  | ReadLindex index => r = a_read KList a key (λ l, Bulk (a_lindex l index)) WrongType (Bulk None)
  | ReadLrange start stop =>
      r = a_read KList a key (λ l, Array (Some <$> redis_slice start stop l)) WrongType (Array [])
  | ReadSismember member =>
      r = a_read KSet a key (λ s, Integer (bool_as_i64 (bool_decide (member ∈ s)))) WrongType (Integer 0)
  | ReadSmismember members =>
      r = a_read KSet a key (λ s, IntegerArray ((λ m, bool_as_i64 (bool_decide (m ∈ s))) <$> members))
            WrongType (IntegerArray (replicate (length members) 0%Z))
  | ReadScard => r = a_read KSet a key (λ s, Integer (Z.of_nat (size s))) WrongType (Integer 0)
  | ReadSmembers => r = a_read KSet a key (λ s, Array (Some <$> sorted_members s)) WrongType (Array [])
  | ReadSrandmember count =>
      match a_objs a !! key with
      | None => r = match count with Some _ => Array [] | None => Bulk None end
      | Some av => match proj KSet av with Some s => srandmember_ok count s r | None => r = WrongType end
      end
  | ReadZscore member =>
      r = a_read KZSet a key (λ z, Bulk (format_score <$> (z : gmap Bytes f64) !! member)) WrongType (Bulk None)
  | ReadZmscore members =>
      r = a_read KZSet a key (λ z, Array ((λ m, format_score <$> (z : gmap Bytes f64) !! m) <$> members))
            WrongType (Array (replicate (length members) None))
  | ReadZcard => r = a_read KZSet a key (λ z, Integer (Z.of_nat (size z))) WrongType (Integer 0)
  | ReadZrange start stop =>
      r = a_read KZSet a key (λ z, Array ((λ e, Some e.1) <$> redis_slice start stop (ZSetObject.zsorted z)))
            WrongType (Array [])
  | ReadZrank member backward =>
      r = a_read KZSet a key (λ z, Integer (default (-1)%Z (Z.of_nat <$> a_rank z member backward)))
            WrongType (Integer (-1))
  | ReadZcount min max =>
      r = a_read KZSet a key (λ z, Integer (Z.of_nat (a_zcount z min true max true))) WrongType (Integer 0)
  | ReadHget field clock => r = a_read KHash a key (λ h, Bulk (live clock h !! field)) WrongType (Bulk None)
  | ReadHexists field clock =>
      r = a_read KHash a key (λ h, Integer (bool_as_i64 (bool_decide (is_Some (live clock h !! field)))))
            WrongType (Integer 0)
  | ReadHlen clock => r = a_read KHash a key (λ h, Integer (Z.of_nat (size (live clock h)))) WrongType (Integer 0)
  | ReadHmget fields clock =>
      r = a_read KHash a key (λ h, Array ((λ f, live clock h !! f) <$> fields))
            WrongType (Array (replicate (length fields) None))
  | ReadHkeys clock =>
      r = a_read KHash a key (λ h, Array (Some <$> (sorted_entries (live clock h)).*1)) WrongType (Array [])
  | ReadHvals clock =>
      r = a_read KHash a key (λ h, Array (Some <$> (sorted_entries (live clock h)).*2)) WrongType (Array [])
  | ReadHgetall clock =>
      r = a_read KHash a key (λ h, Array (flat_entries (sorted_entries (live clock h)))) WrongType (Array [])
  | ReadHrandfield count with_values clock =>
      r = a_read KHash a key
            (λ h, let es := sorted_entries (live clock h) in
                  match count with
                  | Some n => let es := take (Z.to_nat (Z.abs n)) es in
                              Array (if with_values then flat_entries es else Some <$> es.*1)
                  | None => Bulk (head es.*1)
                  end)
            WrongType (match count with Some _ => Array [] | None => Bulk None end)
  | ReadHttl fields as_millis absolute now_ms =>
      r = a_hash_field_ttl_query a key fields as_millis absolute now_ms
  end.

Lemma live_size_fits a key clock (h : gmap Bytes Bytes) : fits (size h) → fits (size (a_live a key clock h)).
Proof.
  intros Hf. assert (size (a_live a key clock h) ≤ size h) by (apply map_subseteq_size, map_filter_subseteq).
  unfold fits in *. lia.
Qed.

(** Every read command answers, and as [read_post] says. *)
Lemma read_command_runs key (cmd : ReadCommand) b a :
  bucket_rep b a → read_ok key cmd a → ∃ r, run_read key cmd b = Some r ∧ read_post key cmd a r.
Proof.
  intros Hb [(Hl & Hs & Hz & Hh) Hok]. destruct cmd; cbn [run_read read_post] in *;
    try (destruct Hok as [Hok1 Hok2]); try (apply srandmember_spec; assumption); eexists; (split; [|reflexivity]).
  - by apply llen_spec.
  - by apply lindex_spec.
  - by apply lrange_spec.
  - by apply sismember_spec.
  - by apply smismember_spec.
  - by apply scard_spec.
  - by apply smembers_spec.
  - by apply zscore_spec.
  - by apply zmscore_spec.
  - by apply zcard_spec.
  - by apply zrange_spec.
  - by apply zrank_spec.
  - by apply zcount_spec.
  - by apply hget_spec.
  - by apply hexists_spec.
  - rewrite (proj1 (hlen_spec b a key clock Hb)). f_equal. unfold a_read.
    destruct (a_objs a !! key) as [av|] eqn:E; [|done]. destruct (proj KHash av) as [h|] eqn:Ep; [|done].
    rewrite usize_as_i64_id; [done|]. apply live_size_fits, Hh. unfold a_get. by rewrite E.
  - by apply hmget_spec.
  - by apply hash_listing_spec.
  - by apply hash_listing_spec.
  - by apply hash_listing_spec.
  - by apply hrandfield_spec.
  - by apply hash_field_ttl_query_spec.
Qed.
End StoreOps.
