(* ===== verification/Waiters.v ===== *)
(** * Waiting for a change of a shard

    Blocking list commands wait until a push changes their shard.
    [redis_objects/store.rs] does this with a generation number under a mutex,
    a waiter counter and a condition variable.  Threads are interleaved here
    at the granularity of the atomic operations of that code: mutex
    acquisition and release, the counter updates and loads, the condition
    variable's atomic release-and-block, and wake-ups (also spurious ones and
    time-outs, which the standard library allows at any time). *)

From S2P Require Import Prelude.

(** Where a thread is.  [timed] says whether it waits with a deadline. *)
Inductive PC :=
  | WEnter (observed : Z) (timed : bool)
  | WLock (observed : Z) (timed : bool)
  | WHeld (observed : Z) (timed : bool)
  | WBlocked (observed : Z) (timed : bool)
  | WExit (changed : bool)
  | WDone (changed : bool)
  | NLock
  | NHeld
  | NNotify (has_waiters : bool)
  | NDone.

Record Shared := mkShared {
  generation : Z;
  waiter_count : nat;
  lock : option nat;
  pcs : gmap nat PC;
}.

Implicit Types (st : Shared) (t w : nat) (pc : PC).

Definition set_pc st t pc : Shared := mkShared (generation st) (waiter_count st) (lock st) (<[t := pc]> (pcs st)).
Definition set_lock st (l : option nat) : Shared := mkShared (generation st) (waiter_count st) l (pcs st).
Definition set_waiters st (n : nat) : Shared := mkShared (generation st) n (lock st) (pcs st).
Definition set_generation st (g : Z) : Shared := mkShared g (waiter_count st) (lock st) (pcs st).

(** [notify_all]: the blocked threads go back for the mutex. *)
Definition wake pc : PC := match pc with WBlocked o d => WLock o d | _ => pc end.

Definition notify_all st : Shared :=
  mkShared (generation st) (waiter_count st) (lock st) (wake <$> pcs st).

Inductive step : Shared → Shared → Prop :=
  (** [wait_for_shard_change] *)
  | step_register st t o d :
      pcs st !! t = Some (WEnter o d) →
      step st (set_pc (set_waiters st (S (waiter_count st))) t (WLock o d))
  | step_unregister st t r :
      pcs st !! t = Some (WExit r) →
      step st (set_pc (set_waiters st (waiter_count st - 1)) t (WDone r))
  (** [wait_for_generation_change] and [wait_for_generation_change_until] *)
  | step_acquire st t o d :
      pcs st !! t = Some (WLock o d) → lock st = None →
      step st (set_pc (set_lock st (Some t)) t (WHeld o d))
  | step_changed st t o d :
      pcs st !! t = Some (WHeld o d) → generation st ≠ o →
      step st (set_pc (set_lock st None) t (WExit true))
  | step_block st t o d :
      pcs st !! t = Some (WHeld o d) → generation st = o →
      step st (set_pc (set_lock st None) t (WBlocked o d))
  | step_deadline st t o :
      pcs st !! t = Some (WHeld o true) → generation st = o →
      step st (set_pc (set_lock st None) t (WExit false))
  | step_spurious st t o d :
      pcs st !! t = Some (WBlocked o d) →
      step st (set_pc st t (WLock o d))
  (** [notify_shard_waiters] *)
  | step_notify_acquire st t :
      pcs st !! t = Some NLock → lock st = None →
      step st (set_pc (set_generation (set_lock st (Some t)) (wrap_u64 (generation st + 1))) t NHeld)
  | step_notify_load st t :
      pcs st !! t = Some NHeld →
      step st (set_pc st t (NNotify (negb (waiter_count st =? 0))))
  | step_notify_all st t :
      pcs st !! t = Some (NNotify true) →
      step st (set_pc (set_lock (notify_all st) None) t NDone)
  | step_notify_skip st t :
      pcs st !! t = Some (NNotify false) →
      step st (set_pc (set_lock st None) t NDone).

(** Threads start before their first action. *)
Definition initial st : Prop :=
  waiter_count st = 0 ∧ lock st = None ∧
  ∀ t pc, pcs st !! t = Some pc → match pc with WEnter _ _ | NLock => True | _ => False end.

Inductive reachable : Shared → Prop :=
  | reach_init st : initial st → reachable st
  | reach_step st st' : reachable st → step st st' → reachable st'.

(** ** The invariant *)

Definition holds pc : bool :=
  match pc with WHeld _ _ | NHeld | NNotify _ => true | _ => false end.

Definition counted pc : bool :=
  match pc with WLock _ _ | WHeld _ _ | WBlocked _ _ | WExit _ => true | _ => false end.

Definition count : gmap nat PC → nat := count_if counted.

Definition waking pc : bool := match pc with NHeld | NNotify true => true | _ => false end.

Record inv st : Prop := {
  inv_lock : ∀ t pc, pcs st !! t = Some pc → holds pc = true → lock st = Some t;
  inv_count : waiter_count st = count (pcs st);
  inv_blocked : ∀ t o d, pcs st !! t = Some (WBlocked o d) → generation st ≠ o →
    ∃ n pc, pcs st !! n = Some pc ∧ waking pc = true;
  inv_skip : ∀ n t o d, pcs st !! n = Some (NNotify false) → pcs st !! t ≠ Some (WBlocked o d);
}.


Lemma count_insert (m : gmap nat PC) t pc pc' :
  m !! t = Some pc → count (<[t := pc']> m) + Nat.b2n (counted pc) = count m + Nat.b2n (counted pc').
Proof. apply count_if_insert. Qed.

Lemma count_wake (m : gmap nat PC) : count (wake <$> m) = count m.
Proof.
  unfold count, count_if. rewrite map_filter_fmap, map_size_fmap. f_equal. apply map_filter_ext.
  intros t pc _. simpl. by destruct pc.
Qed.

Lemma count_pos (m : gmap nat PC) t pc : m !! t = Some pc → counted pc = true → count m ≠ 0.
Proof. apply count_if_pos. Qed.

Lemma inv_initial st : initial st → inv st.
Proof.
  intros (Hw & Hl & Hp). split.
  - intros t pc Ht. specialize (Hp t pc Ht). by destruct pc.
  - rewrite Hw. symmetry. apply count_if_none. intros t pc Ht. specialize (Hp t pc Ht). by destruct pc.
  - intros t o d Ht. by specialize (Hp _ _ Ht).
  - intros n t o d Hn. by specialize (Hp _ _ Hn).
Qed.

(** Moving one thread; the other fields are given. *)
Lemma inv_move st g n (l : option nat) t pc pc' :
  inv st → pcs st !! t = Some pc →
  n + Nat.b2n (counted pc) = waiter_count st + Nat.b2n (counted pc') →
  (holds pc' = true → l = Some t) →
  (∀ u q, u ≠ t → pcs st !! u = Some q → holds q = true → l = Some u) →
  (∀ u o d, u ≠ t → pcs st !! u = Some (WBlocked o d) → g ≠ o →
     waking pc' = true ∨ ∃ v q, v ≠ t ∧ pcs st !! v = Some q ∧ waking q = true) →
  (∀ o d, pc' = WBlocked o d → g = o ∧ ∀ v, v ≠ t → pcs st !! v ≠ Some (NNotify false)) →
  (pc' = NNotify false → ∀ u o d, u ≠ t → pcs st !! u ≠ Some (WBlocked o d)) →
  inv (mkShared g n l (<[t := pc']> (pcs st))).
Proof.
  intros [Hl Hc Hb Hs] Ht Hn Hl1 Hl2 Hw Hblk Hskip. split; simpl.
  - intros u q. rewrite lookup_insert_Some. intros [[<- <-]|[Hne Hu]]; [done|]. by apply Hl2.
  - pose proof (count_insert (pcs st) t pc pc' Ht). lia.
  - intros u o d. rewrite lookup_insert_Some. intros [[-> ->]|[Hne Hu]] Hg.
    + by destruct (Hblk o d eq_refl).
    + destruct (Hw u o d) as [Hp|(v & q & Hv & Hvq & Hq)]; [done..| |].
      * exists t, pc'. by rewrite lookup_insert_eq.
      * exists v, q. by rewrite lookup_insert_ne.
  - intros v u o d. rewrite !lookup_insert_Some. intros [[-> ->]|[Hne Hv]] [[-> Eu]|[Hne' Hu]].
    + done.
    + by eapply Hskip.
    + destruct (Hblk o d Eu) as [_ Hno]. by apply (Hno v).
    + by apply (Hs v u o d).
Qed.

(** Nobody else holds the mutex when it is free or held by the mover. *)
Lemma others_free st t : inv st → lock st = None ∨ lock st = Some t →
  ∀ u q (l : option nat), u ≠ t → pcs st !! u = Some q → holds q = true → l = Some u.
Proof.
  intros Hi Hl u q l Hne Hu Hq. pose proof (inv_lock _ Hi u q Hu Hq) as E.
  destruct Hl as [Hl|Hl]; congruence.
Qed.

(** A blocked thread that missed a change has its waker elsewhere. *)
Lemma blocked_waker st t pc u o d :
  inv st → pcs st !! t = Some pc → waking pc = false → pcs st !! u = Some (WBlocked o d) → generation st ≠ o →
  ∃ v q, v ≠ t ∧ pcs st !! v = Some q ∧ waking q = true.
Proof.
  intros Hi Ht Hpc Hu Hg. destruct (inv_blocked _ Hi u o d Hu Hg) as (v & q & Hv & Hq).
  exists v, q. split; [|done]. intros ->. congruence.
Qed.

(** The mutex holder is unique, so with a waiter inside nobody is waking. *)
Lemma holder_alone st t pc v q :
  inv st → pcs st !! t = Some pc → holds pc = true → pcs st !! v = Some q → holds q = true → v = t.
Proof.
  intros Hi Ht Hp Hv Hq. pose proof (inv_lock _ Hi t pc Ht Hp). pose proof (inv_lock _ Hi v q Hv Hq).
  congruence.
Qed.

(** Steps that keep the generation and do not wake anybody. *)
Lemma inv_quiet st n (l : option nat) t pc pc' :
  inv st → pcs st !! t = Some pc → waking pc = false → waking pc' = false →
  n + Nat.b2n (counted pc) = waiter_count st + Nat.b2n (counted pc') →
  (holds pc' = true → l = Some t) →
  (l = lock st ∨ lock st = None ∨ lock st = Some t) →
  (∀ o d, pc' = WBlocked o d → generation st = o ∧ holds pc = true) → pc' ≠ NNotify false →
  inv (mkShared (generation st) n l (<[t := pc']> (pcs st))).
Proof.
  intros Hi Ht Hw Hw' Hn Hh Hl Hblk Hns. apply (inv_move st _ _ _ t pc pc'); try done.
  - intros u q Hne Hu Hq. destruct Hl as [->|Hl]; [by apply (inv_lock _ Hi u q)|].
    by apply (others_free st t Hi Hl u q).
  - intros u o d Hne Hu Hg. right. by eapply blocked_waker.
  - intros o d E. destruct (Hblk o d E) as [Hg Hhold]. split; [done|]. intros v Hne Hv.
    destruct Hne. by eapply (holder_alone st t pc v).
Qed.

Lemma inv_step st st' : inv st → step st st' → inv st'.
Proof.
  intros Hi Hst. pose proof (inv_lock _ Hi) as Hlk.
  destruct Hst as [st t o d Ht|st t r Ht|st t o d Ht Hl|st t o d Ht Hg|st t o d Ht Hg|st t o Ht Hg
    |st t o d Ht|st t Ht Hl|st t Ht|st t Ht|st t Ht].
  - apply (inv_quiet st _ _ t _ (WLock o d) Hi Ht); simpl; try done; try lia; by left.
  - pose proof (count_pos _ _ _ Ht eq_refl). pose proof (inv_count _ Hi).
    apply (inv_quiet st _ _ t _ (WDone r) Hi Ht); simpl; try done; try lia; by left.
  - apply (inv_quiet st _ _ t _ (WHeld o d) Hi Ht); simpl; try done; try lia; by right; left.
  - apply (inv_quiet st _ _ t _ (WExit true) Hi Ht); simpl; try done; try lia. right; right. by eapply Hlk.
  - apply (inv_quiet st _ _ t _ (WBlocked o d) Hi Ht); simpl; try done; try lia; [|naive_solver].
    right; right. by eapply Hlk.
  - apply (inv_quiet st _ _ t _ (WExit false) Hi Ht); simpl; try done; try lia. right; right. by eapply Hlk.
  - apply (inv_quiet st _ _ t _ (WLock o d) Hi Ht); simpl; try done; try lia; by left.
  - apply (inv_move st _ _ _ t _ NHeld Hi Ht); simpl; try done; try lia.
    intros u q Hne Hu Hq. by apply (others_free st t Hi (or_introl Hl) u q).
  - apply (inv_move st _ _ _ t _ (NNotify _) Hi Ht); simpl; try done; try lia.
    + intros _. by eapply Hlk.
    + intros u q Hne. by apply Hlk.
    + intros u o d Hne Hu Hg. left. pose proof (count_pos _ _ _ Hu eq_refl) as Hp.
      rewrite <-(inv_count _ Hi) in Hp. apply Nat.eqb_neq in Hp. by rewrite Hp.
    + intros [= E] u o d Hne Hu. pose proof (count_pos _ _ _ Hu eq_refl) as Hp.
      rewrite <-(inv_count _ Hi) in Hp. apply Nat.eqb_neq in Hp. by rewrite Hp in E.
  - assert (∀ u q, (wake <$> pcs st) !! u = Some q →
      ∃ q0, pcs st !! u = Some q0 ∧ q = wake q0 ∧ ∀ o d, q ≠ WBlocked o d) as Hwk.
    { intros u q. rewrite lookup_fmap_Some. intros (q0 & <- & Hq0). exists q0. split; [done|].
      split; [done|]. intros o d. by destruct q0. }
    split; simpl.
    + intros u q. rewrite lookup_insert_Some. intros [[<- <-]|[Hne Hu]]; [done|]. intros Hq.
      destruct (Hwk u q Hu) as (q0 & Hu0 & -> & _). destruct Hne. symmetry.
      eapply (holder_alone st t _ u q0); [done|done|done|done|]. by destruct q0.
    + rewrite (inv_count _ Hi), <-(count_wake (pcs st)).
      pose proof (count_insert (wake <$> pcs st) t (NNotify true) NDone) as E. rewrite lookup_fmap, Ht in E.
      specialize (E eq_refl). simpl in E. lia.
    + intros u o d. rewrite lookup_insert_Some. intros [[_ ?]|[_ Hu]]; [done|].
      destruct (Hwk u _ Hu) as (_ & _ & _ & Hno). by destruct (Hno o d).
    + intros v u o d _. rewrite lookup_insert_Some. intros [[_ ?]|[_ Hu]]; [done|].
      destruct (Hwk u _ Hu) as (_ & _ & _ & Hno). by destruct (Hno o d).
  - apply (inv_move st _ _ _ t _ NDone Hi Ht); simpl; try done; try lia.
    + intros u q Hne Hu Hq. eapply (others_free st t Hi); [right; by eapply Hlk|done..].
    + intros u o d Hne Hu. by destruct (inv_skip _ Hi t u o d Ht).
Qed.

Lemma reachable_inv st : reachable st → inv st.
Proof. induction 1; [by apply inv_initial|by eapply inv_step]. Qed.

(** A notifier that is done leaves nobody blocked. *)
Lemma notify_wakes st st' n :
  inv st → step st st' → (∃ b, pcs st !! n = Some (NNotify b)) → pcs st' !! n = Some NDone →
  ∀ t o d, pcs st' !! t ≠ Some (WBlocked o d).
Proof.
  intros Hi Hst [b Hn] Hn' t o d.
  destruct Hst as [st u o' d' Hu|st u r Hu|st u o' d' Hu Hl|st u o' d' Hu Hg|st u o' d' Hu Hg|st u o' Hu Hg
    |st u o' d' Hu|st u Hu Hl|st u Hu|st u Hu|st u Hu]; simpl in *;
    (destruct (decide (u = n)) as [->|Hne];
      [rewrite lookup_insert_eq in Hn'|rewrite lookup_insert_ne in Hn' by done]); try congruence.
  - rewrite lookup_insert_Some. intros [[_ ?]|[_ Hb]]; [done|].
    rewrite lookup_fmap_Some in Hb. destruct Hb as (q & Hq & _). by destruct q.
  - rewrite lookup_fmap, Hn in Hn'. done.
  - rewrite lookup_insert_Some. intros [[_ ?]|[_ Hb]]; [done|]. by destruct (inv_skip _ Hi n t o d Hu).
Qed.

(** A wait reports a change only if the generation moved while it held the
    mutex, and gives up only with a deadline. *)
Lemma wait_result st st' t (r : bool) :
  step st st' → pcs st !! t ≠ Some (WExit r) → pcs st' !! t = Some (WExit r) →
  ∃ o d, pcs st !! t = Some (WHeld o d) ∧ r = negb (bool_decide (generation st = o)) ∧ (r = false → d = true).
Proof.
  intros Hst Hn Hn'.
  destruct Hst as [st u o' d' Hu|st u r' Hu|st u o' d' Hu Hl|st u o' d' Hu Hg|st u o' d' Hu Hg|st u o' Hu Hg
    |st u o' d' Hu|st u Hu Hl|st u Hu|st u Hu|st u Hu]; simpl in *;
    (destruct (decide (u = t)) as [->|Hne];
      [rewrite lookup_insert_eq in Hn'|rewrite lookup_insert_ne in Hn' by done]); simplify_eq; try congruence.
  - exists o', d'. rewrite bool_decide_eq_false_2 by done. done.
  - exists (generation st), true. rewrite bool_decide_eq_true_2 by done. done.
  - rewrite lookup_fmap_Some in Hn'. destruct Hn' as (q & Hq & Hn'). destruct q; simpl in Hq; congruence.
Qed.
