(* ===== verification/FlatMap.v ===== *)
(** * The string key space of a shard

    [storage/flat_map.rs] and its submodules: the table of string values with
    deadlines, governance metadata, the memory limit with its eviction
    policies, the log of LRU touches, and the pool of reusable value buffers.

    The model is the default build: no experimental point storage, no
    telemetry, no prefix eviction, and no object-overflow runtime, so
    [remote_entries] and the pending offloads are empty and
    [evict_or_offload_hashed] always evicts.  A [bytes::Bytes] is its contents;
    whether the map holds the only handle of a buffer ([try_into_mut]) is the
    argument [unique] of the writes that ask.  [usize] and [u64] are [Z] with
    the saturation and wrap-around of the code. *)

From S2P Require Import Prelude Deps Codec Snapshot.

(** [config.rs] *)
Inductive EvictionPolicy := NoEviction | Lru | Lfu.

#[export] Instance eviction_policy_eq_dec : EqDecision EvictionPolicy.
Proof. solve_decision. Defined.

Inductive DeleteReason := Explicit | Expired | Evicted.

#[export] Instance delete_reason_eq_dec : EqDecision DeleteReason.
Proof. solve_decision. Defined.

(** ** Entries *)
Record EntryAccessMeta := mkAccess { last_touch : Z; frequency : Z }.

Definition record_access (meta : EntryAccessMeta) (tick : Z) : EntryAccessMeta :=
  mkAccess tick (Z.max (Z.min (frequency meta + 1) u32_MAX) 1).

(** The derived order: primary, then secondary. *)
Record EvictionRank := mkRank { primary : Z; secondary : Z }.

Definition rank_le (a b : EvictionRank) : bool :=
  (primary a <? primary b)%Z || (primary a =? primary b)%Z && (secondary a <=? secondary b)%Z.

Definition rank_lt (a b : EvictionRank) : bool := negb (rank_le b a).

Definition rank (meta : EntryAccessMeta) (policy : EvictionPolicy) : EvictionRank :=
  match policy with
  | NoEviction => mkRank u64_MAX u64_MAX
  | Lru => mkRank (last_touch meta) 0
  | Lfu => mkRank (frequency meta) (last_touch meta)
  end.

(** [fe_semantic] is the size of a semantic-index token. *)
Record FlatEntry := mkFlat {
  fe_hash : Z;
  fe_key_tag : Z;
  fe_key : Bytes;
  fe_value : Bytes;
  fe_expire_at_ms : option Z;
  fe_semantic : option Z;
  fe_governance : option Bytes;
  fe_access : EntryAccessMeta;
}.

Definition hash_key_tag_from_hash (hash : Z) : Z := Z.shiftr hash 56.

Definition blen (b : Bytes) : Z := Z.of_nat (length b).

Definition is_protected (e : FlatEntry) : bool :=
  match fe_governance e with Some _ => true | None => false end.

Definition matches_hashed_key (hash : Z) (key : Bytes) (e : FlatEntry) : bool :=
  (fe_hash e =? hash)%Z && (length (fe_key e) =? length key) && bytes_eqb (fe_key e) key.

Definition matches_readable (hash : Z) (key : Bytes) (e : FlatEntry) : bool :=
  negb (is_protected e) && matches_hashed_key hash key e.

Definition matches_tagged (hash key_tag key_len : Z) (e : FlatEntry) : bool :=
  (fe_hash e =? hash)%Z && (fe_key_tag e =? key_tag)%Z && (blen (fe_key e) =? key_len)%Z.

Definition matches_readable_tagged (hash key_tag key_len : Z) (e : FlatEntry) : bool :=
  negb (is_protected e) && matches_tagged hash key_tag key_len e.

Definition deadline_passed (expire_at_ms : option Z) (now_ms : Z) : bool :=
  match expire_at_ms with Some deadline => (deadline <=? now_ms)%Z | None => false end.

Definition is_expired (e : FlatEntry) (now_ms : Z) : bool := deadline_passed (fe_expire_at_ms e) now_ms.

Definition semantic_bytes (e : FlatEntry) : Z :=
  u64_saturating_add (default 0%Z (fe_semantic e)) (from_option blen 0%Z (fe_governance e)).

Definition entry_stored_bytes (e : FlatEntry) : Z :=
  u64_saturating_add (u64_saturating_add (blen (fe_key e)) (blen (fe_value e))) (semantic_bytes e).

Definition has_ttl (expire_at_ms : option Z) : bool :=
  match expire_at_ms with Some _ => true | None => false end.

(** [clear_semantic_embedding] with the new value, governance, access and
    deadline of a write. *)
Definition rewrite_entry (e : FlatEntry) (value : Bytes) (governance : option Bytes)
    (access : EntryAccessMeta) (expire_at_ms : option Z) : FlatEntry :=
  mkFlat (fe_hash e) (fe_key_tag e) (fe_key e) value expire_at_ms None governance access.

Definition set_deadline (expire_at_ms : option Z) (e : FlatEntry) : FlatEntry :=
  mkFlat (fe_hash e) (fe_key_tag e) (fe_key e) (fe_value e) expire_at_ms (fe_semantic e)
    (fe_governance e) (fe_access e).

Definition touch_entry (tick : Z) (e : FlatEntry) : FlatEntry :=
  mkFlat (fe_hash e) (fe_key_tag e) (fe_key e) (fe_value e) (fe_expire_at_ms e) (fe_semantic e)
    (fe_governance e) (record_access (fe_access e) tick).

Record LruTouch := mkTouch { touch_tick : Z; touch_hash : Z }.

(** ** Reusable value buffers *)
Definition REUSABLE_VALUE_MIN_BYTES : Z := 4096.
Definition MAX_REUSABLE_VALUE_BUFFERS : Z := 128.
Definition MAX_REUSABLE_VALUE_BYTES : Z := 8388608.

Definition should_reuse_value_buffer (value_len : Z) : bool := (REUSABLE_VALUE_MIN_BYTES <=? value_len)%Z.

(** [reusable_values] and [reusable_value_bytes]. *)
Record Pool := mkPool { pool_values : list Bytes; pool_bytes : Z }.

(** [Vec::swap_remove]. *)
Definition swap_remove {A} (i : nat) (l : list A) : list A :=
  match last l with
  | Some x => take (length l - 1) (<[i := x]> l)
  | None => l
  end.

(** The buffer that is taken is overwritten with the value, or dropped for a
    fresh copy of it. *)
Definition shared_bytes_from_reusable_pool (value : Bytes) (p : Pool) : Bytes * Pool :=
  match position (λ candidate, length candidate =? length value) (pool_values p) with
  | None => (value, p)
  | Some i =>
      (value, mkPool (swap_remove i (pool_values p)) (u64_saturating_sub (pool_bytes p) (blen value)))
  end.

Definition recycle_value_into_pool (value : Bytes) (p : Pool) : Pool :=
  if negb (should_reuse_value_buffer (blen value)) then p
  else if (MAX_REUSABLE_VALUE_BUFFERS <=? Z.of_nat (length (pool_values p)))%Z then p
  else if (MAX_REUSABLE_VALUE_BYTES <? u64_saturating_add (pool_bytes p) (blen value))%Z then p
  else mkPool (pool_values p ++ [value]) (u64_saturating_add (pool_bytes p) (blen value)).

(** ** The map *)
Section flat_map.
Context `{Hashing} {HT : Type → Type} `{!HashTable HT}.

Record FlatMap := mkFlatMap {
  entries : HT FlatEntry;
  ttl_entries : Z;
  active_readers : Z;
  retired_values : list Bytes;
  pool : Pool;
  stored_bytes : Z;
  memory_limit_bytes : option Z;
  eviction_policy : EvictionPolicy;
  access_clock : Z;
  read_sample_counter : Z;
  lru_touch_log : list LruTouch;
  evictions : Z;
}.

Implicit Types (m : FlatMap) (key value : Bytes) (hash now_ms tick : Z).

Definition flat_new : FlatMap :=
  mkFlatMap ht_new 0 0 [] (mkPool [] 0) 0 None NoEviction 0 0 [] 0.

(** Field updates. *)
Definition with_entries m t : FlatMap :=
  mkFlatMap t (ttl_entries m) (active_readers m) (retired_values m) (pool m) (stored_bytes m)
    (memory_limit_bytes m) (eviction_policy m) (access_clock m) (read_sample_counter m)
    (lru_touch_log m) (evictions m).
Definition with_ttl m n : FlatMap :=
  mkFlatMap (entries m) n (active_readers m) (retired_values m) (pool m) (stored_bytes m)
    (memory_limit_bytes m) (eviction_policy m) (access_clock m) (read_sample_counter m)
    (lru_touch_log m) (evictions m).
Definition with_readers m n : FlatMap :=
  mkFlatMap (entries m) (ttl_entries m) n (retired_values m) (pool m) (stored_bytes m)
    (memory_limit_bytes m) (eviction_policy m) (access_clock m) (read_sample_counter m)
    (lru_touch_log m) (evictions m).
Definition with_buffers m retired p : FlatMap :=
  mkFlatMap (entries m) (ttl_entries m) (active_readers m) retired p (stored_bytes m)
    (memory_limit_bytes m) (eviction_policy m) (access_clock m) (read_sample_counter m)
    (lru_touch_log m) (evictions m).
Definition with_stored m n : FlatMap :=
  mkFlatMap (entries m) (ttl_entries m) (active_readers m) (retired_values m) (pool m) n
    (memory_limit_bytes m) (eviction_policy m) (access_clock m) (read_sample_counter m)
    (lru_touch_log m) (evictions m).
Definition with_policy m limit policy : FlatMap :=
  mkFlatMap (entries m) (ttl_entries m) (active_readers m) (retired_values m) (pool m) (stored_bytes m)
    limit policy (access_clock m) (read_sample_counter m) (lru_touch_log m) (evictions m).
Definition with_access m clock counter log : FlatMap :=
  mkFlatMap (entries m) (ttl_entries m) (active_readers m) (retired_values m) (pool m) (stored_bytes m)
    (memory_limit_bytes m) (eviction_policy m) clock counter log (evictions m).
Definition with_evictions m n : FlatMap :=
  mkFlatMap (entries m) (ttl_entries m) (active_readers m) (retired_values m) (pool m) (stored_bytes m)
    (memory_limit_bytes m) (eviction_policy m) (access_clock m) (read_sample_counter m)
    (lru_touch_log m) n.

Definition flat_entries m : list FlatEntry := (ht_elements (entries m)).*2.
Definition flat_len m : Z := Z.of_nat (ht_len (entries m)).
Definition flat_is_empty m : bool := (flat_len m =? 0)%Z.

Definition find_key m hash key : option FlatEntry :=
  ht_find (entries m) (local_table_hash hash) (matches_hashed_key hash key).
Definition find_readable m hash key : option FlatEntry :=
  ht_find (entries m) (local_table_hash hash) (matches_readable hash key).

(** ** Buffers *)
Definition has_active_readers m : bool := (0 <? active_readers m)%Z.

Definition recycle_value m value : FlatMap :=
  match eviction_policy m, memory_limit_bytes m with
  | NoEviction, _ | _, None => m
  | _, Some _ => with_buffers m (retired_values m) (recycle_value_into_pool value (pool m))
  end.

Definition retire_value m value : FlatMap :=
  if has_active_readers m then with_buffers m (retired_values m ++ [value]) (pool m)
  else recycle_value m value.

Definition reclaim_retired_if_quiescent m : FlatMap :=
  if negb (bool_decide (retired_values m = [])) && negb (has_active_readers m)
  then foldl recycle_value (with_buffers m [] (pool m)) (retired_values m)
  else m.

Definition begin_read_epoch m : FlatMap := with_readers m (wrap_u64 (active_readers m + 1)).
Definition end_read_epoch m : FlatMap := with_readers m (wrap_u64 (active_readers m - 1)).

(** ** Access order *)
Definition next_access_tick m : Z * FlatMap :=
  let clock := wrap_u64 (access_clock m + 1) in
  (clock, with_access m clock (read_sample_counter m) (lru_touch_log m)).

Definition touch_le (a b : LruTouch) : Prop := (touch_tick a ≤ touch_tick b)%Z.
#[local] Instance touch_le_dec : RelDecision touch_le := λ a b, Z_le_dec _ _.

Definition rebuild_lru_touch_log m : FlatMap :=
  let touches := omap (λ e, if (last_touch (fe_access e) =? 0)%Z then None
                            else Some (mkTouch (last_touch (fe_access e)) (fe_hash e))) (flat_entries m) in
  with_access m (access_clock m) (read_sample_counter m) (merge_sort touch_le touches).

Definition compact_lru_touch_log_if_needed m : FlatMap :=
  let max_log_len := Z.max (Z.min u64_MAX (flat_len m * 4)) 1024 in
  if (Z.of_nat (length (lru_touch_log m)) <=? max_log_len)%Z then m else rebuild_lru_touch_log m.

Definition record_lru_touch m hash tick : FlatMap :=
  if (tick =? 0)%Z || negb (bool_decide (eviction_policy m = Lru)) then m
  else compact_lru_touch_log_if_needed
         (with_access m (access_clock m) (read_sample_counter m) (lru_touch_log m ++ [mkTouch tick hash])).

Definition READ_TOUCH_SAMPLE_MASK : Z := 1023.

Definition should_sample_read m : bool * FlatMap :=
  if bool_decide (eviction_policy m = NoEviction) then (false, m)
  else if match memory_limit_bytes m with
          | Some limit => (stored_bytes m <? Z.max (Z.min u64_MAX (limit * 3) / 4) 1)%Z
          | None => false
          end then (false, m)
  else
    let counter := wrap_u64 (read_sample_counter m + 1) in
    ((Z.land counter READ_TOUCH_SAMPLE_MASK =? 0)%Z,
     with_access m (access_clock m) counter (lru_touch_log m)).

(** ** Deadlines and removal *)
Definition adjust_ttl_count m (had has : bool) : FlatMap :=
  match had, has with
  | false, true => with_ttl m (u64_saturating_add (ttl_entries m) 1)
  | true, false => with_ttl m (u64_saturating_sub (ttl_entries m) 1)
  | _, _ => m
  end.

Definition entry_is_expired_hashed m hash key now_ms : bool :=
  match find_key m hash key with Some e => is_expired e now_ms | None => false end.

(** The part of a removal that both variants share: the deadline counter, the
    table and the byte count. *)
Definition take_out m hash key : option (FlatEntry * FlatMap) :=
  '(e, t) ← ht_remove (entries m) (local_table_hash hash) (matches_hashed_key hash key);
  let m := if has_ttl (fe_expire_at_ms e) then with_ttl m (u64_saturating_sub (ttl_entries m) 1) else m in
  Some (e, with_stored (with_entries m t) (u64_saturating_sub (stored_bytes m) (entry_stored_bytes e))).

Definition count_eviction m (reason : DeleteReason) : FlatMap :=
  if bool_decide (reason = Evicted) then with_evictions m (u64_saturating_add (evictions m) 1) else m.

Definition delete_hashed_internal m hash key (reason : DeleteReason) : bool * FlatMap :=
  let m := reclaim_retired_if_quiescent m in
  match take_out m hash key with
  | None => (false, m)
  | Some (e, m) => (true, count_eviction (retire_value m (fe_value e)) reason)
  end.

Definition delete_hashed_local_internal m hash key (reason : DeleteReason) : bool * FlatMap :=
  match take_out m hash key with
  | None => (false, m)
  | Some (e, m) => (true, count_eviction m reason)
  end.

Definition delete_hashed m hash key : bool * FlatMap := delete_hashed_internal m hash key Explicit.
Definition flat_delete m key : bool * FlatMap := delete_hashed m (hash_key key) key.
Definition delete_hashed_local m hash key : bool * FlatMap := delete_hashed_local_internal m hash key Explicit.

Definition remove_value_hashed m hash key now_ms : option Bytes * FlatMap :=
  let m := reclaim_retired_if_quiescent m in
  match find_key m hash key with
  | None => (None, m)
  | Some e =>
      if is_expired e now_ms then (None, (delete_hashed_internal m hash key Expired).2)
      else match take_out m hash key with
           | None => (None, m)
           | Some (e, m) => if is_protected e then (None, retire_value m (fe_value e))
                            else (Some (fe_value e), m)
           end
  end.

Definition process_maintenance m now_ms : Z * FlatMap :=
  let m := reclaim_retired_if_quiescent m in
  if (ttl_entries m =? 0)%Z then (0%Z, m)
  else
    let expired := (λ e, (fe_hash e, fe_key e)) <$> filter (λ e, is_expired e now_ms = true) (flat_entries m) in
    (Z.of_nat (length expired),
     foldl (λ m '(hash, key), (delete_hashed_internal m hash key Expired).2) m expired).


(** ** Eviction *)
Definition with_log m log : FlatMap := with_access m (access_clock m) (read_sample_counter m) log.

Definition evict_or_offload_hashed m hash key : bool * FlatMap := delete_hashed_internal m hash key Evicted.

(** The first entry of least rank, in the order of the table. *)
Definition eviction_candidate m (policy : EvictionPolicy) : option (EvictionRank * Z * Bytes) :=
  if bool_decide (policy = NoEviction) || flat_is_empty m then None
  else foldl (λ selected e,
         let candidate := (rank (fe_access e) policy, fe_hash e, fe_key e) in
         match selected with
         | Some current => if rank_le current.1.1 candidate.1.1 then Some current else Some candidate
         | None => Some candidate
         end) None (flat_entries m).

(** The entry a touch of the log still describes. *)
Definition find_touched m (touch : LruTouch) : option FlatEntry :=
  ht_find (entries m) (local_table_hash (touch_hash touch))
    (λ e, (last_touch (fe_access e) =? touch_tick touch)%Z).

(** The loop of [evict_one_with_policy] over the log. *)
Fixpoint evict_first_logged (log : list LruTouch) m : option Bytes * FlatMap :=
  match log with
  | [] => (None, m)
  | touch :: log =>
      let m := with_log m log in
      match find_touched m touch with
      | None => evict_first_logged log m
      | Some e =>
          let '(evicted, m) := evict_or_offload_hashed m (touch_hash touch) (fe_key e) in
          if evicted then (Some (fe_key e), m) else evict_first_logged log m
      end
  end.

Definition evict_one_with_policy m (policy : EvictionPolicy) : option Bytes * FlatMap :=
  let '(logged, m) := if bool_decide (policy = Lru) then evict_first_logged (lru_touch_log m) m
                      else (None, m) in
  match logged with
  | Some key => (Some key, m)
  | None =>
      match eviction_candidate m policy with
      | None => (None, m)
      | Some (_, hash, key) =>
          let '(evicted, m) := evict_or_offload_hashed m hash key in
          (if evicted then Some key else None, m)
      end
  end.

Definition evict_with_policy m (policy : EvictionPolicy) : bool * FlatMap :=
  let '(key, m) := evict_one_with_policy m policy in
  (match key with Some _ => true | None => false end, m).

(** The loop of [evict_lru_from_touch_log]. *)
Fixpoint evict_logged (target_bytes : Z) (log : list LruTouch) m : bool * FlatMap :=
  if (stored_bytes m <=? target_bytes)%Z then (false, m)
  else match log with
       | [] => (false, m)
       | touch :: log =>
           let m := with_log m log in
           match find_touched m touch with
           | None => evict_logged target_bytes log m
           | Some e =>
               let '(evicted, m) := evict_or_offload_hashed m (touch_hash touch) (fe_key e) in
               let '(more, m) := evict_logged target_bytes log m in
               (evicted || more, m)
           end
       end.

Definition evict_lru_from_touch_log m (target_bytes : Z) : bool * FlatMap :=
  evict_logged target_bytes (lru_touch_log m) m.

(** [usize::div_ceil]. *)
Definition div_ceil (a b : Z) : Z := (a / b + (if (a mod b =? 0)%Z then 0 else 1))%Z.

Definition eviction_candidate_count m (target_bytes : Z) : Z :=
  let bytes_to_free := u64_saturating_sub (stored_bytes m) target_bytes in
  if (bytes_to_free =? 0)%Z || flat_is_empty m then 0%Z
  else
    let average_entry_bytes := Z.max (stored_bytes m / flat_len m) 1 in
    let estimated_count := div_ceil bytes_to_free average_entry_bytes in
    let safety_margin := u64_saturating_add (estimated_count / 8) 8 in
    Z.min (u64_saturating_add estimated_count safety_margin) (flat_len m).

Record EvictionCandidate := mkCandidate { cand_rank : EvictionRank; cand_hash : Z; cand_key : Bytes }.

Definition candidate_of (policy : EvictionPolicy) (e : FlatEntry) : EvictionCandidate :=
  mkCandidate (rank (fe_access e) policy) (fe_hash e) (fe_key e).

(** [Ord for EvictionCandidate]: rank, then hash. *)
Definition candidate_le (a b : EvictionCandidate) : bool :=
  rank_lt (cand_rank a) (cand_rank b)
  || rank_le (cand_rank a) (cand_rank b) && (cand_hash a <=? cand_hash b)%Z.

(** The heap is the list of its elements; [peek_mut] is the first greatest. *)
Definition offer (target_count : Z) (candidates : list EvictionCandidate) (c : EvictionCandidate) :
    list EvictionCandidate :=
  if (Z.of_nat (length candidates) <? target_count)%Z then candidates ++ [c]
  else match position (λ x, forallb (λ y, candidate_le y x) candidates) candidates with
       | None => candidates
       | Some i =>
           match candidates !! i with
           | Some warmest => if rank_lt (cand_rank c) (cand_rank warmest) then <[i := c]> candidates
                             else candidates
           | None => candidates
           end
       end.

Definition eviction_candidates_for_target m (policy : EvictionPolicy) (target_bytes : Z) :
    list EvictionCandidate :=
  let target_count := eviction_candidate_count m target_bytes in
  if (target_count =? 0)%Z then []
  else foldl (offer target_count) [] (candidate_of policy <$> flat_entries m).

Definition candidate_rank_le (a b : EvictionCandidate) : Prop := rank_le (cand_rank a) (cand_rank b) = true.
#[global] Instance candidate_rank_le_dec : RelDecision candidate_rank_le.
Proof. intros a b. unfold candidate_rank_le. apply _. Defined.

Fixpoint evict_batch (target_bytes : Z) (candidates : list EvictionCandidate) m : bool * FlatMap :=
  match candidates with
  | [] => (false, m)
  | c :: candidates =>
      if (stored_bytes m <=? target_bytes)%Z then (false, m)
      else
        let '(evicted, m) := evict_or_offload_hashed m (cand_hash c) (cand_key c) in
        let '(more, m) := evict_batch target_bytes candidates m in
        (evicted || more, m)
  end.

(** The loop of [evict_to_memory_target]; [fuel] bounds its rounds. *)
Fixpoint evict_rounds (fuel : nat) (policy : EvictionPolicy) (target_bytes : Z) m : bool * FlatMap :=
  match fuel with
  | 0 => (false, m)
  | S fuel =>
      if (stored_bytes m <=? target_bytes)%Z then (false, m)
      else match merge_sort candidate_rank_le (eviction_candidates_for_target m policy target_bytes) with
           | [] => (false, m)
           | candidates =>
               let '(evicted_batch, m) := evict_batch target_bytes candidates m in
               if evicted_batch then (true, (evict_rounds fuel policy target_bytes m).2) else (false, m)
           end
  end.

(** Every round but the last removes an entry. *)
Definition evict_fuel m : nat := S (length (flat_entries m)).

Definition evict_to_memory_target m (policy : EvictionPolicy) (target_bytes : Z) : bool * FlatMap :=
  if bool_decide (policy = NoEviction) || flat_is_empty m then (false, m)
  else
    let '(evicted, m) := if bool_decide (policy = Lru) then evict_lru_from_touch_log m target_bytes
                         else (false, m) in
    if bool_decide (policy = Lru) && ((stored_bytes m <=? target_bytes)%Z || flat_is_empty m)
    then (evicted, m)
    else evict_rounds (evict_fuel m) policy target_bytes m.

Definition EXACT_EVICTION_LIMIT_BYTES : Z := 4096.

Definition eviction_target_bytes (limit : Z) : Z :=
  if (limit <=? EXACT_EVICTION_LIMIT_BYTES)%Z then limit
  else u64_saturating_sub limit (Z.max (limit / 20) 1).

Definition enforce_memory_limit m now_ms : FlatMap :=
  match memory_limit_bytes m with
  | None => m
  | Some limit =>
      if (stored_bytes m <=? limit)%Z then m
      else
        let m := if (0 <? ttl_entries m)%Z then (process_maintenance m now_ms).2 else m in
        (evict_to_memory_target m (eviction_policy m) (eviction_target_bytes limit)).2
  end.

Definition configure_memory_policy m (limit : option Z) (policy : EvictionPolicy) now_ms : FlatMap :=
  let limit := match limit with
               | Some l => if (0 <? l)%Z then Some l else None
               | None => None
               end in
  let m := with_policy m limit policy in
  let m := match limit, policy with
           | None, NoEviction => with_buffers m (retired_values m) (mkPool [] 0)
           | _, _ => m
           end in
  enforce_memory_limit m now_ms.

(** ** Writes *)

(** The tick of a write and its record in the log. *)
Definition touch_for_write m hash : Z * FlatMap :=
  let '(tick, m) := if bool_decide (eviction_policy m = NoEviction) then (0%Z, m) else next_access_tick m in
  (tick, record_lru_touch m hash tick).

Definition insert_entry m (e : FlatEntry) : FlatMap :=
  with_entries m (ht_insert_unique (entries m) (local_table_hash (fe_hash e)) e
                    (λ e, local_table_hash (fe_hash e))).

Definition update_key m hash key (f : FlatEntry → FlatEntry) : FlatMap :=
  with_entries m (ht_update (entries m) (local_table_hash hash) (matches_hashed_key hash key) f).

Definition replace_bytes m (previous_entry_bytes new_entry_bytes : Z) : FlatMap :=
  with_stored m (u64_saturating_add (u64_saturating_sub (stored_bytes m) previous_entry_bytes) new_entry_bytes).

Definition replace_bytes_if_changed m (previous_entry_bytes new_entry_bytes : Z) : FlatMap :=
  if (previous_entry_bytes =? new_entry_bytes)%Z then m
  else replace_bytes m previous_entry_bytes new_entry_bytes.

(** What every write does to the table, the byte count and the deadline
    counter: the occupied arm applies [upd] and accounts for the difference
    with [account], the vacant arm inserts [fresh].  Also returns the entry
    that was replaced. *)
Definition upsert m hash key (account : FlatMap → Z → Z → FlatMap) (upd : FlatEntry → FlatEntry)
    (fresh : FlatEntry) : option FlatEntry * FlatMap :=
  match find_key m hash key with
  | Some e =>
      let m := account (update_key m hash key upd) (entry_stored_bytes e) (entry_stored_bytes (upd e)) in
      (Some e, adjust_ttl_count m (has_ttl (fe_expire_at_ms e)) (has_ttl (fe_expire_at_ms (upd e))))
  | None =>
      let m := insert_entry m fresh in
      let m := with_stored m
        (u64_saturating_add
           (u64_saturating_add (u64_saturating_add (stored_bytes m) (blen (fe_key fresh)))
              (blen (fe_value fresh)))
           (from_option blen 0%Z (fe_governance fresh))) in
      (None, if has_ttl (fe_expire_at_ms fresh) then with_ttl m (u64_saturating_add (ttl_entries m) 1) else m)
  end.

Definition new_entry hash (key_tag : Z) key value (governance : option Bytes) (expire_at_ms : option Z) tick :
    FlatEntry :=
  mkFlat hash key_tag key value expire_at_ms None governance (mkAccess tick 1).

(** The access a write leaves: [record_access], skipped by the slice writes
    when no policy tracks it. *)
Definition touch_access (should_touch : bool) tick (meta : EntryAccessMeta) : EntryAccessMeta :=
  if should_touch then record_access meta tick else meta.

Definition retire_replaced m (old : option FlatEntry) : FlatMap :=
  match old with Some e => retire_value m (fe_value e) | None => m end.

Definition set_bytes_hashed_with_governance_option m hash key value (governance : option Bytes)
    (expire_at_ms : option Z) now_ms : FlatMap :=
  let m := reclaim_retired_if_quiescent m in
  let '(tick, m) := touch_for_write m hash in
  let '(old, m) :=
    upsert m hash key replace_bytes
      (λ e, rewrite_entry e value governance (record_access (fe_access e) tick) expire_at_ms)
      (new_entry hash (hash_key_tag_from_hash hash) key value governance expire_at_ms tick) in
  enforce_memory_limit (retire_replaced m old) now_ms.

Definition set_bytes_hashed m hash key value (expire_at_ms : option Z) now_ms : FlatMap :=
  set_bytes_hashed_with_governance_option m hash key value None expire_at_ms now_ms.

Definition set_bytes_hashed_with_governance m hash key value (governance : Bytes)
    (expire_at_ms : option Z) now_ms : FlatMap :=
  set_bytes_hashed_with_governance_option m hash key value (Some governance) expire_at_ms now_ms.

Definition set_hashed m hash key value (expire_at_ms : option Z) now_ms : FlatMap :=
  let m := reclaim_retired_if_quiescent m in
  let '(tick, m) := touch_for_write m hash in
  let '(old, m) :=
    upsert m hash key replace_bytes
      (λ e, rewrite_entry e value None (record_access (fe_access e) tick) expire_at_ms)
      (new_entry hash (hash_key_tag_from_hash hash) key value None expire_at_ms tick) in
  enforce_memory_limit (retire_replaced m old) now_ms.

Definition flat_set m key value (expire_at_ms : option Z) now_ms : FlatMap :=
  set_hashed m (hash_key key) key value expire_at_ms now_ms.

(** The old value of an embedded write is dropped, not retired. *)
Definition set_hashed_local m hash key value (expire_at_ms : option Z) now_ms : FlatMap :=
  let '(tick, m) := touch_for_write m hash in
  let '(_, m) :=
    upsert m hash key replace_bytes
      (λ e, rewrite_entry e value None (record_access (fe_access e) tick) expire_at_ms)
      (new_entry hash (hash_key_tag_from_hash hash) key value None expire_at_ms tick) in
  enforce_memory_limit m now_ms.

(** The buffers of a slice write.  [reuse_values] and [readers] are read before
    the table is touched; [unique] says whether the buffer of the old value has
    no other handle and is overwritten in place. *)
Definition slice_buffers m (unique reuse_values readers : bool) (old : option FlatEntry) value : FlatMap :=
  let take_buffer p := if reuse_values then (shared_bytes_from_reusable_pool value p).2 else p in
  match old with
  | None => with_buffers m (retired_values m) (take_buffer (pool m))
  | Some e =>
      if negb (length (fe_value e) =? length value) || readers || negb unique then
        let m := with_buffers m (retired_values m) (take_buffer (pool m)) in
        if readers then retire_value m (fe_value e)
        else if reuse_values
             then with_buffers m (retired_values m) (recycle_value_into_pool (fe_value e) (pool m))
             else recycle_value m (fe_value e)
      else m
  end.

Definition reuses_values m value : bool :=
  should_reuse_value_buffer (blen value) && negb (bool_decide (pool_values (pool m) = [])).

(** The body of [set_slice_hashed], up to the enforcement of the limit. *)
Definition write_slice m hash (key_tag : Z) key value (expire_at_ms : option Z) (unique : bool) : FlatMap :=
  let m := reclaim_retired_if_quiescent m in
  let readers := has_active_readers m in
  let should_touch := negb (bool_decide (eviction_policy m = NoEviction)) in
  let '(tick, m) := touch_for_write m hash in
  let reuse_values := reuses_values m value in
  let '(old, m) :=
    upsert m hash key replace_bytes_if_changed
      (λ e, rewrite_entry e value None (touch_access should_touch tick (fe_access e)) expire_at_ms)
      (new_entry hash key_tag key value None expire_at_ms tick) in
  slice_buffers m unique reuse_values readers old value.

Definition set_slice_hashed m hash key value (expire_at_ms : option Z) (unique : bool) now_ms : FlatMap :=
  enforce_memory_limit (write_slice m hash (hash_key_tag_from_hash hash) key value expire_at_ms unique) now_ms.

Definition set_slice m key value (expire_at_ms : option Z) (unique : bool) now_ms : FlatMap :=
  set_slice_hashed m (hash_key key) key value expire_at_ms unique now_ms.

(** The limit is enforced at time 0. *)
Definition set_slice_hashed_no_ttl m hash key value (unique : bool) : FlatMap :=
  enforce_memory_limit (write_slice m hash (hash_key_tag_from_hash hash) key value None unique) 0.

(** The only write that does not enforce the limit. *)
Definition set_slice_hashed_tagged_no_ttl_local m hash (key_tag : Z) key value (unique : bool) : FlatMap :=
  write_slice m hash key_tag key value None unique.

(** Never takes a buffer from the pool, and retires rather than recycles. *)
Definition set_slice_hashed_tagged_local m hash (key_tag : Z) key value (expire_at_ms : option Z)
    (unique : bool) now_ms : FlatMap :=
  let m := reclaim_retired_if_quiescent m in
  let readers := has_active_readers m in
  let should_touch := negb (bool_decide (eviction_policy m = NoEviction)) in
  let '(tick, m) := touch_for_write m hash in
  let '(old, m) :=
    upsert m hash key replace_bytes_if_changed
      (λ e, rewrite_entry e value None (touch_access should_touch tick (fe_access e)) expire_at_ms)
      (new_entry hash key_tag key value None expire_at_ms tick) in
  let m := match old with
           | Some e => if (length (fe_value e) =? length value) && negb readers && unique then m
                       else retire_value m (fe_value e)
           | None => m
           end in
  enforce_memory_limit m now_ms.

Definition set_slice_hashed_local m hash key value (expire_at_ms : option Z) (unique : bool) now_ms : FlatMap :=
  set_slice_hashed_tagged_local m hash (hash_key_tag_from_hash hash) key value expire_at_ms unique now_ms.

(** [transform_value_hashed]: a read-modify-write by a fallible function of the
    visible value.  A failure keeps the touch in the log. *)
Definition transform_value_hashed {R Err} m hash key now_ms (clear_ttl : bool)
    (transform : option Bytes → Err + (R * Bytes)) : (Err + R) * FlatMap :=
  let m := reclaim_retired_if_quiescent m in
  let m := if negb (ttl_entries m =? 0)%Z && entry_is_expired_hashed m hash key now_ms
           then (delete_hashed_internal m hash key Expired).2 else m in
  let '(tick, m) := touch_for_write m hash in
  let visible := e ← find_key m hash key; if is_protected e then None else Some (fe_value e) in
  match transform visible with
  | inl error => (inl error, m)
  | inr (result, value) =>
      let '(old, m) :=
        upsert m hash key replace_bytes
          (λ e, rewrite_entry e value None (record_access (fe_access e) tick)
                  (if clear_ttl then None else fe_expire_at_ms e))
          (new_entry hash (hash_key_tag_from_hash hash) key value None None tick) in
      (inr result, enforce_memory_limit (retire_replaced m old) now_ms)
  end.

(** ** Reads *)
Definition matches_readable_prepared hash key (_key_tag : Z) (e : FlatEntry) : bool :=
  negb (is_protected e) && matches_hashed_key hash key e.

(** [lookup_ref_hashed_lazy]: a sampled read records the access in the entry. *)
Definition lookup_lazy m hash (matches : FlatEntry → bool) : option Bytes * FlatMap :=
  let '(sampled, m) := should_sample_read m in
  let '(tick, m) := if sampled : bool then next_access_tick m else (0%Z, m) in
  (fe_value <$> ht_find (entries m) (local_table_hash hash) matches,
   if (tick =? 0)%Z then m
   else match ht_find (entries m) (local_table_hash hash) matches with
        | Some _ => with_entries m (ht_update (entries m) (local_table_hash hash) matches (touch_entry tick))
        | None => m
        end).

Definition lookup_ref_hashed_lazy m hash key : option Bytes * FlatMap :=
  lookup_lazy m hash (matches_readable hash key).

Definition lookup_ref_hashed_prepared_lazy m hash key (key_tag : Z) : option Bytes * FlatMap :=
  lookup_lazy m hash (matches_readable_prepared hash key key_tag).

Definition get_ref_hashed m hash key now_ms : option Bytes * FlatMap :=
  if (ttl_entries m =? 0)%Z then lookup_ref_hashed_lazy m hash key
  else if entry_is_expired_hashed m hash key now_ms
       then (None, (delete_hashed_internal m hash key Expired).2)
       else lookup_ref_hashed_lazy m hash key.

Definition get_ref_hashed_local m hash key now_ms : option Bytes * FlatMap :=
  if (ttl_entries m =? 0)%Z then lookup_ref_hashed_lazy m hash key
  else if entry_is_expired_hashed m hash key now_ms
       then (None, (delete_hashed_local_internal m hash key Expired).2)
       else lookup_ref_hashed_lazy m hash key.

Definition flat_get m key now_ms : option Bytes * FlatMap := get_ref_hashed m (hash_key key) key now_ms.

(** Reads that leave the map as it is. *)
Definition live (now_ms : Z) (o : option FlatEntry) : option FlatEntry :=
  e ← o; if is_expired e now_ms then None else Some e.

Definition has_no_ttl_entries m : bool := (ttl_entries m =? 0)%Z.

Definition get_ref_hashed_shared_no_ttl m hash key : option Bytes := fe_value <$> find_readable m hash key.

Definition get_ref_hashed_shared m hash key now_ms : option Bytes :=
  if (ttl_entries m =? 0)%Z then fe_value <$> find_readable m hash key
  else fe_value <$> live now_ms (find_readable m hash key).

Definition get_shared_value_bytes_hashed_no_ttl m hash key : option Bytes :=
  fe_value <$> find_readable m hash key.

Definition get_shared_value_bytes_hashed m hash key now_ms : option Bytes :=
  fe_value <$> live now_ms (find_readable m hash key).

Definition get_value_bytes_hashed m hash key now_ms : option Bytes :=
  fe_value <$> live now_ms (find_readable m hash key).

(** The tagged read compares the hash, its tag and the length of the key. *)
Definition get_shared_value_bytes_hashed_tagged_no_ttl m hash (key_tag key_len : Z) : option Bytes :=
  fe_value <$> ht_find (entries m) (local_table_hash hash) (matches_readable_tagged hash key_tag key_len).

(** The value and, from [owner_min_len] bytes on, its shared owner. *)
Definition with_response_value_bytes_hashed m hash key now_ms (owner_min_len : Z) :
    option (Bytes * option Bytes) :=
  let value := if has_no_ttl_entries m then get_ref_hashed_shared_no_ttl m hash key
               else get_ref_hashed_shared m hash key now_ms in
  value ← value;
  Some (value,
        if (owner_min_len <=? blen value)%Z then
          if has_no_ttl_entries m then get_shared_value_bytes_hashed_no_ttl m hash key
          else get_shared_value_bytes_hashed m hash key now_ms
        else None).

Inductive GovernedRead := Missing | Denied | Authorized (value : Bytes).

Definition get_value_bytes_hashed_with_governance_filter m hash key now_ms
    (authorize : option Bytes → bool) : GovernedRead :=
  match live now_ms (find_key m hash key) with
  | Some e => if authorize (fe_governance e) then Authorized (fe_value e) else Denied
  | None => Missing
  end.

Definition is_value_protected_hashed m hash key now_ms : bool :=
  match live now_ms (find_key m hash key) with Some e => is_protected e | None => false end.

Definition flat_exists m key now_ms : bool * FlatMap :=
  let hash := hash_key key in
  if negb (ttl_entries m =? 0)%Z && entry_is_expired_hashed m hash key now_ms
  then (false, (delete_hashed_internal m hash key Expired).2)
  else (match find_readable m hash key with Some _ => true | None => false end, m).

(** ** Deadlines *)
Definition entry_expire_at_for_keep_ttl_hashed m hash key now_ms : option (option Z) * FlatMap :=
  match find_key m hash key with
  | Some e => if is_expired e now_ms then (None, (delete_hashed_internal m hash key Expired).2)
              else (Some (fe_expire_at_ms e), m)
  | None => (None, m)
  end.

Definition entry_expire_at_hashed m hash key now_ms : option (option Z) * FlatMap :=
  if (ttl_entries m =? 0)%Z then (fe_expire_at_ms <$> find_key m hash key, m)
  else if entry_is_expired_hashed m hash key now_ms
       then (None, (delete_hashed_internal m hash key Expired).2)
       else (fe_expire_at_ms <$> find_key m hash key, m).

(** [ttl_seconds] rounds up; [ttl_millis] is exact. *)
Definition ttl_with m key now_ms (units : Z → Z) : Z * FlatMap :=
  let hash := hash_key key in
  match find_key m hash key with
  | None => ((-2)%Z, m)
  | Some e =>
      match fe_expire_at_ms e with
      | None => ((-1)%Z, m)
      | Some expire_at_ms =>
          if (expire_at_ms <=? now_ms)%Z then ((-2)%Z, (delete_hashed_internal m hash key Expired).2)
          else (wrap_i64 (units (u64_saturating_sub expire_at_ms now_ms)), m)
      end
  end.

Definition ttl_seconds m key now_ms : Z * FlatMap := ttl_with m key now_ms (λ ms, div_ceil ms 1000).
Definition ttl_millis m key now_ms : Z * FlatMap := ttl_with m key now_ms (λ ms, ms).

Definition persist m key now_ms : bool * FlatMap :=
  let hash := hash_key key in
  if entry_is_expired_hashed m hash key now_ms then (false, (delete_hashed m hash key).2)
  else match find_key m hash key with
       | None => (false, m)
       | Some e =>
           if has_ttl (fe_expire_at_ms e)
           then (true, adjust_ttl_count (update_key m hash key (set_deadline None)) true false)
           else (false, m)
       end.

Definition expire m key (expire_at_ms : Z) now_ms : bool * FlatMap :=
  let hash := hash_key key in
  if entry_is_expired_hashed m hash key now_ms then (false, (delete_hashed m hash key).2)
  else match find_key m hash key with
       | None => (false, m)
       | Some e =>
           (true, adjust_ttl_count (update_key m hash key (set_deadline (Some expire_at_ms)))
                    (has_ttl (fe_expire_at_ms e)) true)
       end.

(** GETEX: the value, with a new deadline. *)
Definition get_value_bytes_hashed_and_expire m hash key (expire_at_ms : Z) now_ms : option Bytes * FlatMap :=
  match find_readable m hash key with
  | None => (None, m)
  | Some e =>
      if is_expired e now_ms then (None, (delete_hashed m hash key).2)
      else
        (Some (fe_value e),
         adjust_ttl_count
           (with_entries m (ht_update (entries m) (local_table_hash hash) (matches_readable hash key)
                              (set_deadline (Some expire_at_ms))))
           (has_ttl (fe_expire_at_ms e)) true)
  end.

(** [update_value_hashed_no_ttl]: [update] overwrites the bytes of the value in
    place, when the map holds the only handle of an unprotected value without
    a deadline. *)
Definition update_value_hashed_no_ttl {R} m hash key (unique : bool) (update : Bytes → R * Bytes) :
    option R * FlatMap :=
  let should_touch := negb (bool_decide (eviction_policy m = NoEviction)) in
  let '(tick, m) := if should_touch then next_access_tick m else (0%Z, m) in
  match find_key m hash key with
  | Some e =>
      if negb (is_protected e) && negb (has_ttl (fe_expire_at_ms e)) && unique then
        let m := if should_touch then record_lru_touch m hash tick else m in
        let upd e := rewrite_entry e (fe_value e) None (touch_access should_touch tick (fe_access e))
                       (fe_expire_at_ms e) in
        let m := replace_bytes_if_changed (update_key m hash key upd)
                   (entry_stored_bytes e) (entry_stored_bytes (upd e)) in
        let '(result, value) := update (fe_value e) in
        (Some result,
         update_key m hash key (λ e, mkFlat (fe_hash e) (fe_key_tag e) (fe_key e) value (fe_expire_at_ms e)
                                       (fe_semantic e) (fe_governance e) (fe_access e)))
      else (None, m)
  | None => (None, m)
  end.

(** ** Whole-map operations *)
Definition stored_entry (e : FlatEntry) : StoredEntry :=
  mkEntry (fe_key e) (fe_value e) (fe_expire_at_ms e) (fe_governance e).

Definition snapshot_entries m now_ms : list StoredEntry :=
  stored_entry <$> filter (λ e, is_expired e now_ms = false) (flat_entries m).

Definition listable now_ms (e : FlatEntry) : bool := negb (is_expired e now_ms) && negb (is_protected e).

Definition snapshot_keys m now_ms : list Bytes :=
  fe_key <$> filter (λ e, listable now_ms e = true) (flat_entries m).

(** [scan_keys_visit]: the keys visited from [offset] on, the total visited,
    and the index to continue from when [limit] was reached. *)
Fixpoint scan_from (index : nat) (es : list FlatEntry) (limit now_ms visited : Z) : list Bytes * Z * option nat :=
  match es with
  | [] => ([], visited, None)
  | e :: es =>
      if listable now_ms e then
        let visited := u64_saturating_add visited 1 in
        if (limit <=? visited)%Z then ([fe_key e], visited, Some (S index))
        else let '(keys, visited, next) := scan_from (S index) es limit now_ms visited in
             (fe_key e :: keys, visited, next)
      else scan_from (S index) es limit now_ms visited
  end.

Definition scan_keys_visit m (offset : nat) (limit now_ms visited : Z) : list Bytes * Z * option nat :=
  scan_from offset (drop offset (flat_entries m)) limit now_ms visited.

Definition from_entries (es : list StoredEntry) now_ms : FlatMap :=
  foldl (λ m e,
    if deadline_passed (e_expire_at_ms e) now_ms then m
    else set_bytes_hashed_with_governance_option m (hash_key (e_key e)) (e_key e) (e_value e)
           (e_governance e) (e_expire_at_ms e) now_ms) flat_new es.
End flat_map.
