(* ===== verification/FlatMapProofs.v ===== *)
(** * The string key space: invariant and refinement

    What [FlatMap] keeps true across every operation: the table stores each key
    once, under its hash; the byte count and the deadline counter are exact;
    the buffer pool stays within its bounds.  And what each operation does to
    the map from keys to stored entries that the table stands for. *)

From S2P Require Import Prelude Deps Codec Snapshot Recovery FlatMap.

Section flat_map_proofs.
Context `{Hashing} {HT : Type → Type} `{!HashTable HT}.
Abbreviation FlatMap := (FlatMap (HT := HT)).
Implicit Types (m : FlatMap) (key value : Bytes) (hash now_ms : Z) (e : FlatEntry).

(** ** Meaning and invariant *)
Definition entry_map (es : list FlatEntry) : Entries :=
  list_to_map ((λ e, (fe_key e, stored_entry e)) <$> es).

(** The map from keys to entries that the table stands for. *)
Definition contents m : Entries := entry_map (flat_entries m).

(** The bytes an entry accounts for, without saturation. *)
Definition ebytes e : Z :=
  (blen (fe_key e) + blen (fe_value e) + default 0 (fe_semantic e) + from_option blen 0 (fe_governance e))%Z.

Definition ttl_of e : Z := if has_ttl (fe_expire_at_ms e) then 1%Z else 0%Z.

(** An entry's bytes and one more: what an entry can add to any counter. *)
Definition weight e : Z := (1 + ebytes e)%Z.

Definition well_placed (x : Z * FlatEntry) : Prop :=
  x.1 = local_table_hash (fe_hash x.2) ∧ fe_hash x.2 = hash_key (fe_key x.2) ∧
  (0 ≤ default 0 (fe_semantic x.2))%Z.

Record table_ok m : Prop := {
  ok_placed : Forall well_placed (ht_elements (entries m));
  ok_keys : NoDup (fe_key <$> flat_entries m);
  ok_bytes : stored_bytes m = sum_of ebytes (flat_entries m);
  ok_ttl : ttl_entries m = sum_of ttl_of (flat_entries m);
  ok_evictions : (0 ≤ evictions m)%Z;
  ok_budget : (sum_of weight (flat_entries m) + evictions m ≤ u64_MAX)%Z;
}.

Definition pool_ok (p : Pool) : Prop :=
  pool_bytes p = sum_of blen (pool_values p) ∧ (pool_bytes p ≤ MAX_REUSABLE_VALUE_BYTES)%Z ∧
  (Z.of_nat (length (pool_values p)) ≤ MAX_REUSABLE_VALUE_BUFFERS)%Z.

Definition flat_ok m : Prop := table_ok m ∧ pool_ok (pool m).

(** Bookkeeping that leaves the table and its counters alone. *)
Definition same_table m m' : Prop :=
  entries m' = entries m ∧ stored_bytes m' = stored_bytes m ∧ ttl_entries m' = ttl_entries m ∧
  evictions m' = evictions m ∧ memory_limit_bytes m' = memory_limit_bytes m ∧
  eviction_policy m' = eviction_policy m.

#[global] Instance same_table_preorder : PreOrder same_table.
Proof. unfold same_table. split; [done|]. intros x y z (?&?&?&?&?&?) (?&?&?&?&?&?). repeat split; congruence. Qed.

(** [tidy m m']: as [same_table], and the pool stays within its bounds. *)
Definition tidy m m' : Prop := same_table m m' ∧ (pool_ok (pool m) → pool_ok (pool m')).

#[global] Instance tidy_preorder : PreOrder tidy.
Proof. unfold tidy. split; [done|]. intros x y z [??] [??]. split; [by etrans|auto]. Qed.

Lemma same_table_ok m m' : same_table m m' → table_ok m → table_ok m'.
Proof.
  intros (E1&E2&E3&E4&_&_) []. unfold flat_entries in *.
  split; unfold flat_entries; rewrite ?E1, ?E2, ?E3, ?E4; done.
Qed.

Lemma same_table_contents m m' : same_table m m' → contents m' = contents m.
Proof. intros (E&_). unfold contents, flat_entries. by rewrite E. Qed.

Lemma same_table_entries m m' : same_table m m' → flat_entries m' = flat_entries m.
Proof. intros (E&_). unfold flat_entries. by rewrite E. Qed.

Lemma tidy_ok m m' : tidy m m' → flat_ok m → flat_ok m'.
Proof. intros [Hs Hp] [??]. split; [by eapply same_table_ok|auto]. Qed.

(** ** Buffers and access order are bookkeeping *)
Lemma blen_nonneg (b : Bytes) : (0 ≤ blen b)%Z.
Proof. unfold blen. lia. Qed.

Lemma recycle_into_pool_ok value p : pool_ok p → pool_ok (recycle_value_into_pool value p).
Proof.
  intros (Hb & Hm & Hl). unfold recycle_value_into_pool, should_reuse_value_buffer, REUSABLE_VALUE_MIN_BYTES,
    MAX_REUSABLE_VALUE_BYTES, MAX_REUSABLE_VALUE_BUFFERS in *.
  pose proof (blen_nonneg value). pose proof (sum_of_nonneg blen (pool_values p) (λ x _, blen_nonneg x)).
  repeat (case_code; [by repeat split|]).
  unfold u64_saturating_add, u64_MAX in *. repeat split; unfold MAX_REUSABLE_VALUE_BUFFERS, MAX_REUSABLE_VALUE_BYTES; simpl.
  - rewrite sum_of_app. simpl. lia.
  - lia.
  - rewrite length_app. simpl. lia.
Qed.

Lemma swap_remove_perm {A} i (l : list A) x : l !! i = Some x → l ≡ₚ x :: swap_remove i l.
Proof.
  intros Hi. unfold swap_remove. destruct (last l) as [y|] eqn:Hy; [|by apply last_None in Hy as ->].
  apply last_Some in Hy as [l' ->]. rewrite length_app. simpl. replace (length l' + 1 - 1) with (length l') by lia.
  apply lookup_app_Some in Hi as [Hi|[Hge Hi]].
  - rewrite insert_app_l by by eapply lookup_lt_Some. rewrite take_app_length' by by rewrite length_insert.
    rewrite <- (take_drop_middle _ _ _ Hi) at 1. rewrite insert_take_drop by by eapply lookup_lt_Some.
    solve_Permutation.
  - assert (i = length l') as -> by (apply list_lookup_singleton_Some in Hi; lia).
    rewrite Nat.sub_diag in Hi. simplify_eq/=. rewrite insert_app_r_alt by lia. rewrite take_app_length.
    by rewrite Permutation_app_comm.
Qed.

Lemma take_from_pool_ok value p : pool_ok p → pool_ok (shared_bytes_from_reusable_pool value p).2.
Proof.
  intros (Hb & Hm & Hl). unfold shared_bytes_from_reusable_pool.
  destruct (position _ _) as [i|] eqn:Hi; [|by repeat split].
  apply position_Some in Hi as (x & Hi & Hx & _). apply Nat.eqb_eq in Hx. apply swap_remove_perm in Hi.
  assert (blen x = blen value) by (unfold blen; lia).
  pose proof (Permutation_length Hi). rewrite Hi in Hb. simpl in *.
  pose proof (sum_of_nonneg blen (swap_remove i (pool_values p)) (λ x _, blen_nonneg x)).
  pose proof (blen_nonneg value).
  repeat split; simpl; [rewrite u64_saturating_sub_exact by lia; lia|unfold u64_saturating_sub; lia|lia].
Qed.

Lemma recycle_value_tidy m value : tidy m (recycle_value m value).
Proof.
  unfold recycle_value. destruct (eviction_policy m) eqn:E, (memory_limit_bytes m); try done.
  all: split; [done|]; apply recycle_into_pool_ok.
Qed.

Lemma retire_value_tidy m value : tidy m (retire_value m value).
Proof. unfold retire_value. case_code; [done|apply recycle_value_tidy]. Qed.

Lemma reclaim_tidy m : tidy m (reclaim_retired_if_quiescent m).
Proof.
  unfold reclaim_retired_if_quiescent. case_code; [|done].
  enough (∀ l m', tidy m m' → tidy m (foldl recycle_value m' l)) as Hl by by apply Hl.
  induction l as [|v l IH]; intros m' Hm; simpl; [done|]. apply IH. etrans; [done|apply recycle_value_tidy].
Qed.

Lemma with_access_tidy m c r l : tidy m (with_access m c r l).
Proof. done. Qed.

Lemma record_lru_touch_tidy m hash tick : tidy m (record_lru_touch m hash tick).
Proof.
  unfold record_lru_touch, compact_lru_touch_log_if_needed, rebuild_lru_touch_log.
  case_code; [done|]. by case_code.
Qed.

Lemma touch_for_write_tidy m hash : tidy m (touch_for_write m hash).2.
Proof.
  unfold touch_for_write. case_code; simpl; [apply record_lru_touch_tidy|].
  etrans; [|apply record_lru_touch_tidy]. done.
Qed.

Lemma should_sample_read_tidy m : tidy m (should_sample_read m).2.
Proof. unfold should_sample_read. case_code; [done|]. by case_code. Qed.

(** ** The table *)
Lemma entry_map_cons e es : entry_map (e :: es) = <[fe_key e := stored_entry e]> (entry_map es).
Proof. done. Qed.

Lemma entry_map_lookup_None es key : entry_map es !! key = None ↔ key ∉ fe_key <$> es.
Proof.
  unfold entry_map. rewrite <- not_elem_of_list_to_map. rewrite <- list_fmap_compose. done.
Qed.

Lemma entry_map_perm es es' : NoDup (fe_key <$> es) → es ≡ₚ es' → entry_map es = entry_map es'.
Proof.
  intros Hnd Hp. apply list_to_map_proper; [|by rewrite Hp]. by rewrite <- list_fmap_compose.
Qed.

Lemma entry_map_elem es e : NoDup (fe_key <$> es) → e ∈ es → entry_map es !! fe_key e = Some (stored_entry e).
Proof.
  intros Hnd He. apply elem_of_list_to_map; [by rewrite <- list_fmap_compose|].
  apply list_elem_of_fmap. by exists e.
Qed.

Lemma entry_map_lookup_Some es key s :
  entry_map es !! key = Some s → ∃ e, e ∈ es ∧ fe_key e = key ∧ stored_entry e = s.
Proof.
  intros (e & Hs & He)%elem_of_list_to_map_2%list_elem_of_fmap. simplify_eq. eauto.
Qed.

Lemma elem_placed m e :
  table_ok m → e ∈ flat_entries m →
  (local_table_hash (fe_hash e), e) ∈ ht_elements (entries m) ∧ fe_hash e = hash_key (fe_key e).
Proof.
  intros Hok ([h e'] & -> & He)%list_elem_of_fmap. simpl.
  pose proof (proj1 (Forall_forall _ _) (ok_placed m Hok) _ He) as (Hh & ? & _). simpl in *. by subst h.
Qed.

Lemma ebytes_nonneg m e : table_ok m → e ∈ flat_entries m → (0 ≤ ebytes e)%Z.
Proof.
  intros Hok (x & -> & He)%list_elem_of_fmap.
  pose proof (proj1 (Forall_forall _ _) (ok_placed m Hok) _ He) as (_ & _ & ?).
  unfold ebytes. pose proof (blen_nonneg (fe_key x.2)). pose proof (blen_nonneg (fe_value x.2)).
  destruct (fe_governance x.2) as [g|]; simpl; [pose proof (blen_nonneg g)|]; lia.
Qed.

Lemma ht_find_elem m hash p e :
  ht_find (entries m) (local_table_hash hash) p = Some e → p e = true ∧ e ∈ flat_entries m.
Proof.
  intros [Hp [h' He]]%ht_find_Some. split; [done|]. apply list_elem_of_fmap. by exists (h', e).
Qed.

Lemma matches_hashed_key_true hash key e :
  matches_hashed_key hash key e = true ↔ fe_hash e = hash ∧ fe_key e = key.
Proof.
  unfold matches_hashed_key. rewrite !andb_true_iff, Z.eqb_eq, Nat.eqb_eq, bytes_eqb_true. naive_solver.
Qed.

Lemma find_key_Some m hash key e :
  find_key m hash key = Some e → e ∈ flat_entries m ∧ fe_hash e = hash ∧ fe_key e = key.
Proof. intros [Hp He]%ht_find_elem. by apply matches_hashed_key_true in Hp as []. Qed.

Lemma find_key_None m key e :
  table_ok m → find_key m (hash_key key) key = None → e ∈ flat_entries m → fe_key e ≠ key.
Proof.
  intros Hok Hf He Hk. destruct (elem_placed m e Hok He) as [Hin Hh].
  unfold find_key in Hf. rewrite <- Hk, <- Hh in Hf. pose proof (ht_find_None _ _ _ _ Hf Hin) as Hm.
  by rewrite (proj2 (matches_hashed_key_true _ _ _) (conj eq_refl eq_refl)) in Hm.
Qed.

(** The table looks keys up as its contents do. *)
Lemma contents_lookup m key :
  table_ok m → contents m !! key = stored_entry <$> find_key m (hash_key key) key.
Proof.
  intros Hok. destruct (find_key m (hash_key key) key) as [e|] eqn:Hf; simpl.
  - apply find_key_Some in Hf as (He & _ & <-). by apply entry_map_elem; [apply ok_keys|].
  - apply entry_map_lookup_None. intros (e & -> & He)%list_elem_of_fmap. by eapply find_key_None.
Qed.

Lemma table_ok_unique m e e' :
  table_ok m → e ∈ flat_entries m → e' ∈ flat_entries m → fe_key e = fe_key e' → e = e'.
Proof.
  intros Hok He He' Hk. pose proof (ok_keys m Hok) as Hnd. revert He He' Hnd.
  generalize (flat_entries m). induction l as [|x l IH]; intros He He' Hnd; [by apply not_elem_of_nil in He|].
  rewrite fmap_cons in Hnd. apply NoDup_cons in Hnd as [Hx Hnd].
  apply elem_of_cons in He as [->|He], He' as [->|He']; try done; [| |by apply IH].
  - destruct Hx. rewrite Hk. by apply list_elem_of_fmap_2.
  - destruct Hx. rewrite <- Hk. by apply list_elem_of_fmap_2.
Qed.

(** ** Replacing, inserting and removing the entry of one key

    All three exchange an optional old entry of the key for an optional new
    one and leave the [rest] of the table. *)
Definition slot_of key (o : option FlatEntry) : list (Z * FlatEntry) :=
  match o with Some e => [(local_table_hash (hash_key key), e)] | None => [] end.

Definition sum_opt (f : FlatEntry → Z) (o : option FlatEntry) : Z := from_option f 0%Z o.

Definition exchanged (key : Bytes) (old new : option FlatEntry) (m m' : FlatMap) : Prop :=
  ∃ rest, ht_elements (entries m) ≡ₚ slot_of key old ++ rest ∧
          ht_elements (entries m') ≡ₚ slot_of key new ++ rest ∧
          key ∉ (λ x, fe_key x.2) <$> rest ∧
          (∀ e, old = Some e ∨ new = Some e → well_placed (local_table_hash (hash_key key), e) ∧ fe_key e = key).

Lemma exchanged_sum f key old new m m' :
  exchanged key old new m m' →
  sum_of f (flat_entries m') = (sum_of f (flat_entries m) - sum_opt f old + sum_opt f new)%Z.
Proof.
  intros (rest & Hm & Hm' & _). unfold flat_entries. rewrite Hm, Hm'. rewrite !fmap_app, !sum_of_app.
  destruct old, new; simpl; lia.
Qed.

Lemma exchanged_contents key old new m m' :
  table_ok m → exchanged key old new m m' →
  contents m' = match new with
                | Some e => <[key := stored_entry e]> (contents m)
                | None => delete key (contents m)
                end ∧ NoDup (fe_key <$> flat_entries m') ∧ Forall well_placed (ht_elements (entries m')).
Proof.
  intros Hok (rest & Hm & Hm' & Hk & Hw).
  pose proof (ok_keys m Hok) as Hnd. pose proof (ok_placed m Hok) as Hpl.
  assert (flat_entries m ≡ₚ (slot_of key old).*2 ++ rest.*2) as Em
    by (unfold flat_entries; by rewrite Hm, fmap_app).
  assert (flat_entries m' ≡ₚ (slot_of key new).*2 ++ rest.*2) as Em'
    by (unfold flat_entries; by rewrite Hm', fmap_app).
  assert (key ∉ fe_key <$> rest.*2) as Hk' by by rewrite <- list_fmap_compose.
  assert (NoDup (fe_key <$> rest.*2)) as Hr.
  { rewrite Em in Hnd. rewrite fmap_app in Hnd. by apply NoDup_app in Hnd as (_&_&?). }
  assert (NoDup (fe_key <$> flat_entries m')) as Hnd'.
  { rewrite Em'. destruct new as [e|]; simpl; [|done]. constructor; [|done].
    destruct (Hw e (or_intror eq_refl)) as [_ ->]. done. }
  split; [|split; [done|]].
  - unfold contents. rewrite (entry_map_perm _ _ Hnd Em), (entry_map_perm _ _ Hnd' Em').
    assert (∀ o, (∀ e, o = Some e → fe_key e = key) → delete key (entry_map ((slot_of key o).*2 ++ rest.*2)) = entry_map rest.*2) as Hd.
    { intros [e|] He; simpl.
      - rewrite entry_map_cons, (He e eq_refl). rewrite delete_insert_eq. apply delete_id. by apply entry_map_lookup_None.
      - apply delete_id. by apply entry_map_lookup_None. }
    destruct new as [e|]; simpl.
    + rewrite entry_map_cons, (proj2 (Hw e (or_intror eq_refl))).
      rewrite <- (Hd old) by (intros x Hx; apply Hw; auto). by rewrite insert_delete_eq.
    + rewrite Hd; [done|]. intros x Hx. apply Hw. auto.
  - rewrite Hm'. rewrite Hm in Hpl. apply Forall_app in Hpl as [_ Hpl]. apply Forall_app. split; [|done].
    destruct new as [e|]; simpl; [|done]. constructor; [|done]. apply Hw. auto.
Qed.

Lemma exchanged_ok key old new m m' :
  table_ok m → exchanged key old new m m' →
  stored_bytes m' = (stored_bytes m - sum_opt ebytes old + sum_opt ebytes new)%Z →
  ttl_entries m' = (ttl_entries m - sum_opt ttl_of old + sum_opt ttl_of new)%Z →
  (0 ≤ evictions m')%Z →
  (sum_of weight (flat_entries m) - sum_opt weight old + sum_opt weight new + evictions m' ≤ u64_MAX)%Z →
  table_ok m'.
Proof.
  intros Hok Hx Hb Ht He Hw. destruct (exchanged_contents _ _ _ _ _ Hok Hx) as (_ & ? & ?).
  pose proof (λ f, exchanged_sum f _ _ _ _ _ Hx) as Hs. destruct Hok.
  split; [done|done|rewrite Hs; lia|rewrite Hs; lia|done|rewrite Hs; lia].
Qed.

(** ** Removal *)
Definition same_config m m' : Prop :=
  memory_limit_bytes m' = memory_limit_bytes m ∧ eviction_policy m' = eviction_policy m.

#[global] Instance same_config_preorder : PreOrder same_config.
Proof. unfold same_config. split; [done|]. intros x y z [] []. split; congruence. Qed.

Lemma tidy_config m m' : tidy m m' → same_config m m'.
Proof. intros [(?&?&?&?&?&?) _]. done. Qed.

Lemma tidy_contents m m' : tidy m m' → contents m' = contents m.
Proof. intros [Hs _]. by apply same_table_contents. Qed.

Lemma weight_pos m e : table_ok m → e ∈ flat_entries m → (1 ≤ weight e)%Z.
Proof. intros Hok He. unfold weight. pose proof (ebytes_nonneg m e Hok He). lia. Qed.

Lemma weight_le m e : table_ok m → e ∈ flat_entries m → (weight e ≤ sum_of weight (flat_entries m))%Z.
Proof.
  intros Hok He. apply sum_of_elem; [|done]. intros y Hy. pose proof (weight_pos m y Hok Hy). lia.
Qed.

Lemma ebytes_le m e : table_ok m → e ∈ flat_entries m → (ebytes e ≤ stored_bytes m)%Z.
Proof. intros Hok He. rewrite (ok_bytes m Hok). apply sum_of_elem; [|done]. intros. by eapply ebytes_nonneg. Qed.

Lemma ttl_of_range e : (0 ≤ ttl_of e ≤ 1)%Z.
Proof. unfold ttl_of. case_code; lia. Qed.

Lemma ttl_le m e : table_ok m → e ∈ flat_entries m → (ttl_of e ≤ ttl_entries m)%Z.
Proof. intros Hok He. rewrite (ok_ttl m Hok). apply sum_of_elem; [|done]. intros y _. apply ttl_of_range. Qed.

Lemma ttl_bound m : table_ok m → (0 ≤ ttl_entries m ≤ sum_of weight (flat_entries m))%Z.
Proof.
  intros Hok. rewrite (ok_ttl m Hok). split; [apply sum_of_nonneg; intros; apply ttl_of_range|].
  apply sum_of_le. intros e He. pose proof (weight_pos m e Hok He). pose proof (ttl_of_range e). lia.
Qed.

Lemma stored_bound m : table_ok m → (0 ≤ stored_bytes m ≤ sum_of weight (flat_entries m))%Z.
Proof.
  intros Hok. rewrite (ok_bytes m Hok). split; [apply sum_of_nonneg; intros; by eapply ebytes_nonneg|].
  apply sum_of_le. intros e He. unfold weight. lia.
Qed.

Lemma entry_bytes_exact e :
  (0 ≤ default 0 (fe_semantic e))%Z → (ebytes e ≤ u64_MAX)%Z → entry_stored_bytes e = ebytes e.
Proof.
  unfold entry_stored_bytes, semantic_bytes, ebytes, u64_saturating_add. intros.
  pose proof (blen_nonneg (fe_key e)). pose proof (blen_nonneg (fe_value e)).
  assert (0 ≤ from_option blen 0%Z (fe_governance e))%Z by (destruct (fe_governance e); simpl; [apply blen_nonneg|done]).
  lia.
Qed.

Lemma entry_stored_bytes_ok m e : table_ok m → e ∈ flat_entries m → entry_stored_bytes e = ebytes e.
Proof.
  intros Hok He. apply entry_bytes_exact.
  - apply list_elem_of_fmap in He as (x & -> & He).
    by pose proof (proj1 (Forall_forall _ _) (ok_placed m Hok) _ He) as (_ & _ & ?).
  - pose proof (weight_le m e Hok He). pose proof (ok_budget m Hok). pose proof (ok_evictions m Hok).
    unfold weight in *. lia.
Qed.

(** An element of the table is alone under its key, where its hash says. *)
Lemma ht_split m h e rest :
  table_ok m → ht_elements (entries m) ≡ₚ (h, e) :: rest →
  well_placed (local_table_hash (hash_key (fe_key e)), e) ∧ h = local_table_hash (hash_key (fe_key e)) ∧
  fe_key e ∉ (λ x, fe_key x.2) <$> rest.
Proof.
  intros Hok Hp. pose proof (ok_placed m Hok) as Hpl. pose proof (ok_keys m Hok) as Hnd.
  unfold flat_entries in Hnd. rewrite Hp in Hpl, Hnd. apply Forall_cons in Hpl as [(Hh & He & Hs) _].
  rewrite !fmap_cons in Hnd. apply NoDup_cons in Hnd as [Hnd _]. simpl in *.
  rewrite <- list_fmap_compose in Hnd. rewrite <- He. repeat split; [done..|].
  intros Hin. apply Hnd. done.
Qed.

(** [m'] is [m] without its entry [e]. *)
Definition dropped (reason : DeleteReason) e m m' : Prop :=
  e ∈ flat_entries m ∧ exchanged (fe_key e) (Some e) None m m' ∧ flat_ok m' ∧
  evictions m' = (evictions m + if bool_decide (reason = Evicted) then 1 else 0)%Z ∧ same_config m m'.

Lemma take_out_spec m hash key :
  table_ok m →
  match find_key m hash key with
  | None => take_out m hash key = None
  | Some e => ∃ m', take_out m hash key = Some (e, m') ∧ exchanged key (Some e) None m m' ∧ table_ok m' ∧
                    evictions m' = evictions m ∧ pool m' = pool m ∧ same_config m m'
  end.
Proof.
  intros Hok. destruct (find_key m hash key) as [e|] eqn:Hf; unfold take_out.
  2:{ by rewrite (ht_remove_None _ _ _ Hf). }
  destruct (ht_remove_Some _ _ _ _ Hf) as (h' & t' & -> & Hp). simpl.
  destruct (find_key_Some _ _ _ _ Hf) as (He & _ & Hk).
  destruct (ht_split m _ _ _ Hok Hp) as (Hw & Hh & Hn).
  set (m1 := if has_ttl (fe_expire_at_ms e) then _ else m).
  set (m' := with_stored _ _). exists m'.
  assert (exchanged key (Some e) None m m') as Hx.
  { subst key. exists (ht_elements t'). simpl. rewrite Hp, Hh. split; [done|]. split; [done|].
    split; [done|]. intros x [?|?]; by simplify_eq. }
  assert (stored_bytes m1 = stored_bytes m) as E1 by (unfold m1; by case_code).
  assert (evictions m1 = evictions m) as E2 by (unfold m1; by case_code).
  assert (pool m1 = pool m) as E3 by (unfold m1; by case_code).
  assert (same_config m m1) as E4 by (unfold m1; by case_code).
  split; [done|]. split; [done|]. split; [|done].
  pose proof (ok_evictions m Hok). pose proof (ok_budget m Hok). pose proof (weight_pos m e Hok He).
  eapply exchanged_ok; [done|done|..]; simpl; rewrite ?E2; [|..|done|lia].
  - unfold m1. case_code; simpl; rewrite (entry_stored_bytes_ok m e Hok He);
      (rewrite u64_saturating_sub_exact by by apply ebytes_le); lia.
  - pose proof (ttl_le m e Hok He). unfold m1, ttl_of in *. case_code; simpl; [|lia].
    rewrite u64_saturating_sub_exact by lia. lia.
Qed.

Lemma tidy_dropped reason e m m1 m2 : tidy m m1 → dropped reason e m1 m2 → dropped reason e m m2.
Proof.
  intros Ht (He & Hx & Hok & Hev & Hc). pose proof (tidy_config _ _ Ht). destruct Ht as [(E1&E2&E3&E4&_) _].
  unfold exchanged, flat_entries in *. rewrite E1 in He, Hx. rewrite E4 in Hev.
  split; [done|]. split; [done|]. split; [done|]. split; [done|]. by etrans.
Qed.

Lemma dropped_tidy reason e m m1 m2 : dropped reason e m m1 → tidy m1 m2 → dropped reason e m m2.
Proof.
  intros (He & Hx & Hok & Hev & Hc) Ht. pose proof (tidy_ok _ _ Ht Hok).
  destruct Ht as [(E1&E2&E3&E4&E5&E6) _].
  unfold dropped, exchanged, flat_entries, same_config in *. rewrite E1, E4, E5, E6. done.
Qed.

Lemma count_eviction_ok m m' reason e :
  table_ok m → exchanged (fe_key e) (Some e) None m m' → e ∈ flat_entries m → table_ok m' → pool_ok (pool m') →
  evictions m' = evictions m → same_config m m' → dropped reason e m (count_eviction m' reason).
Proof.
  intros Hok Hx He Hok' Hp Hev Hc. unfold dropped, count_eviction.
  pose proof (ok_evictions m Hok). pose proof (ok_budget m Hok). pose proof (weight_pos m e Hok He).
  pose proof (exchanged_sum weight _ _ _ _ _ Hx) as Hs. simpl in Hs.
  pose proof (sum_of_nonneg weight (flat_entries m') (λ x Hx, Z.le_trans _ _ _ Z.le_0_1 (weight_pos m' x Hok' Hx))).
  case_bool_decide; (split; [done|]); (split; [done|]).
  - rewrite Hev, u64_saturating_add_exact by lia. split; [|done]. split; [|done].
    destruct Hok'. split; simpl; [done..|lia|].
    change (sum_of weight (flat_entries m') + (evictions m + 1) ≤ u64_MAX)%Z. lia.
  - split; [done|]. split; [lia|done].
Qed.

Lemma delete_internal_spec m hash key reason :
  flat_ok m →
  match find_key m hash key with
  | None => (delete_hashed_internal m hash key reason).1 = false ∧
            tidy m (delete_hashed_internal m hash key reason).2
  | Some e => (delete_hashed_internal m hash key reason).1 = true ∧
              dropped reason e m (delete_hashed_internal m hash key reason).2
  end.
Proof.
  intros Hok. unfold delete_hashed_internal. pose proof (reclaim_tidy m) as Ht.
  assert (flat_ok (reclaim_retired_if_quiescent m)) as Hok1 by by eapply tidy_ok.
  replace (find_key m hash key) with (find_key (reclaim_retired_if_quiescent m) hash key)
    by (unfold find_key; destruct Ht as [(-> & _) _]; done).
  set (m1 := reclaim_retired_if_quiescent m) in *. clearbody m1.
  pose proof (take_out_spec m1 hash key (proj1 Hok1)) as Hs.
  destruct (find_key m1 hash key) as [e|] eqn:Hf; [|by rewrite Hs].
  destruct Hs as (m2 & -> & Hx & Hok2 & Hev & Hp & Hc). split; [done|].
  apply find_key_Some in Hf as (He & _ & <-). eapply tidy_dropped; [done|].
  pose proof (retire_value_tidy m2 (fe_value e)) as Ht2.
  assert (flat_ok (retire_value m2 (fe_value e))) as [Hok3 Hp3].
  { eapply tidy_ok; [done|]. split; [done|]. rewrite Hp. apply Hok1. }
  apply count_eviction_ok; [apply Hok1| |done|done|done| |].
  - destruct Ht2 as [(E&_) _]. unfold exchanged in *. by rewrite E.
  - destruct Ht2 as [(_&_&_&->&_) _]. done.
  - etrans; [done|]. by apply tidy_config.
Qed.

Lemma delete_local_spec m hash key reason :
  flat_ok m →
  match find_key m hash key with
  | None => delete_hashed_local_internal m hash key reason = (false, m)
  | Some e => (delete_hashed_local_internal m hash key reason).1 = true ∧
              dropped reason e m (delete_hashed_local_internal m hash key reason).2
  end.
Proof.
  intros Hok. unfold delete_hashed_local_internal.
  pose proof (take_out_spec m hash key (proj1 Hok)) as Hs.
  destruct (find_key m hash key) as [e|] eqn:Hf; [|by rewrite Hs].
  destruct Hs as (m2 & -> & Hx & Hok2 & Hev & Hp & Hc). split; [done|].
  apply find_key_Some in Hf as (He & _ & <-).
  apply count_eviction_ok; try done; [apply Hok|]. rewrite Hp. apply Hok.
Qed.

(** ** Updates in place and writes *)
Definition budget m : Z := (sum_of weight (flat_entries m) + evictions m)%Z.

Lemma budget_ge m : table_ok m → (0 ≤ budget m)%Z.
Proof.
  intros Hok. pose proof (ok_evictions m Hok). unfold budget.
  pose proof (sum_of_nonneg weight (flat_entries m) (λ x Hx, Z.le_trans _ _ _ Z.le_0_1 (weight_pos m x Hok Hx))).
  lia.
Qed.

Lemma tidy_budget m m' : tidy m m' → budget m' = budget m.
Proof. intros [Hs _]. unfold budget. rewrite (same_table_entries _ _ Hs). by destruct Hs as (_&_&_&->&_). Qed.

(** Changes of an entry that keep its place in the table. *)
Definition keeps_place (f : FlatEntry → FlatEntry) : Prop :=
  ∀ e, fe_key (f e) = fe_key e ∧ fe_hash (f e) = fe_hash e ∧
       ((0 ≤ default 0 (fe_semantic e)) → 0 ≤ default 0 (fe_semantic (f e)))%Z.

Lemma update_exchanged m hash p f e :
  table_ok m → keeps_place f → ht_find (entries m) (local_table_hash hash) p = Some e →
  exchanged (fe_key e) (Some e) (Some (f e)) m
    (with_entries m (ht_update (entries m) (local_table_hash hash) p f)).
Proof.
  intros Hok Hf He. destruct (ht_update_Some _ _ _ f _ He) as (h' & l1 & l2 & E1 & E2).
  assert (ht_elements (entries m) ≡ₚ (h', e) :: (l1 ++ l2)) as Hp by (rewrite E1; solve_Permutation).
  destruct (ht_split m _ _ _ Hok Hp) as ((Hw1 & Hw2 & Hw3) & Hh & Hn). destruct (Hf e) as (F1 & F2 & F3).
  exists (l1 ++ l2). simpl. rewrite Hp, Hh, E2, Hh. split; [done|]. split; [solve_Permutation|]. split; [done|].
  simpl in *. intros x [?|?]; simplify_eq; [done|]. unfold well_placed. simpl. rewrite F1, F2. auto.
Qed.

(** How the two accounting variants behave when nothing saturates. *)
Definition accounts (account : FlatMap → Z → Z → FlatMap) : Prop :=
  ∀ m a b, (0 ≤ a ≤ stored_bytes m)%Z → (0 ≤ b)%Z → (stored_bytes m - a + b ≤ u64_MAX)%Z →
  account m a b = with_stored m (stored_bytes m - a + b).

Lemma replace_bytes_accounts : accounts replace_bytes.
Proof.
  intros m a b Ha Hb Hm. unfold replace_bytes. rewrite u64_saturating_sub_exact by lia.
  by rewrite u64_saturating_add_exact by lia.
Qed.

Lemma replace_bytes_if_changed_accounts : accounts replace_bytes_if_changed.
Proof.
  intros m a b Ha Hb Hm. unfold replace_bytes_if_changed. case_code; [|by apply replace_bytes_accounts].
  subst b. replace (stored_bytes m - a + a)%Z with (stored_bytes m) by lia. by destruct m.
Qed.

(** [m'] is [m] with [new] in place of the [old] entry of the key. *)
Definition written key (old : option FlatEntry) (new : FlatEntry) m m' : Prop :=
  exchanged key old (Some new) m m' ∧ flat_ok m' ∧ evictions m' = evictions m ∧ same_config m m'.

Lemma adjust_ttl_exact m had has :
  (0 ≤ ttl_entries m)%Z → (had = false → ttl_entries m + 1 ≤ u64_MAX)%Z → (had = true → 1 ≤ ttl_entries m)%Z →
  adjust_ttl_count m had has =
  with_ttl m (ttl_entries m - (if had : bool then 1 else 0) + (if has : bool then 1 else 0)).
Proof.
  intros Hn Hm Hh. unfold adjust_ttl_count. destruct had, has; simpl.
  - replace (ttl_entries m - 1 + 1)%Z with (ttl_entries m) by lia. by destruct m.
  - rewrite u64_saturating_sub_exact by auto. f_equal. lia.
  - rewrite u64_saturating_add_exact by auto. f_equal. lia.
  - replace (ttl_entries m - 0 + 0)%Z with (ttl_entries m) by lia. by destruct m.
Qed.

(** There is room to count a deadline on an entry that has none. *)
Lemma ttl_room m e :
  table_ok m → e ∈ flat_entries m → has_ttl (fe_expire_at_ms e) = false → (ttl_entries m + 1 ≤ u64_MAX)%Z.
Proof.
  intros Hok He Ht. pose proof (ok_budget m Hok). pose proof (ok_evictions m Hok). rewrite (ok_ttl m Hok).
  enough (1 ≤ sum_of weight (flat_entries m) - sum_of ttl_of (flat_entries m))%Z by lia.
  assert (∀ l : list FlatEntry, sum_of weight l - sum_of ttl_of l = sum_of (λ x, weight x - ttl_of x) l)%Z as ->.
  { induction l; simpl; lia. }
  etrans; [|apply sum_of_elem, He].
  - pose proof (weight_pos m e Hok He). cbn beta. unfold ttl_of. rewrite Ht. lia.
  - intros x Hx. pose proof (weight_pos m x Hok Hx). pose proof (ttl_of_range x). lia.
Qed.

Lemma upsert_occupied m key account upd e :
  flat_ok m → accounts account → keeps_place upd → find_key m (hash_key key) key = Some e →
  (0 ≤ ebytes (upd e))%Z → (budget m + weight (upd e) ≤ u64_MAX)%Z →
  written key (Some e) (upd e) m
    (adjust_ttl_count (account (update_key m (hash_key key) key upd) (entry_stored_bytes e) (entry_stored_bytes (upd e)))
       (has_ttl (fe_expire_at_ms e)) (has_ttl (fe_expire_at_ms (upd e)))).
Proof.
  intros [Hok Hp] Ha Hu Hf Hb Hw. destruct (find_key_Some _ _ _ _ Hf) as (He & Hh & Hk).
  pose proof (update_exchanged m _ _ upd e Hok Hu Hf) as Hx. rewrite Hk in Hx.
  pose proof (ebytes_le m e Hok He). pose proof (ebytes_nonneg m e Hok He). pose proof (weight_pos m e Hok He).
  pose proof (stored_bound m Hok). pose proof (ttl_bound m Hok). pose proof (ttl_le m e Hok He).
  pose proof (ok_evictions m Hok). unfold budget in Hw.
  assert (weight (upd e) = 1 + ebytes (upd e))%Z as Ew by done. assert (weight e = 1 + ebytes e)%Z as Ew' by done.
  rewrite (entry_stored_bytes_ok m e Hok He). rewrite (entry_bytes_exact (upd e)); [|apply Hu|lia].
  2:{ destruct (elem_placed m e Hok He) as [Hin _].
      by pose proof (proj1 (Forall_forall _ _) (ok_placed m Hok) _ Hin) as (_ & _ & ?). }
  rewrite Ha by (simpl; lia). rewrite adjust_ttl_exact; simpl; [|lia|lia|].
  2:{ unfold ttl_of in *. intros Ht. rewrite Ht in *. lia. }
  split; [done|]. split; [|done]. split; [|done]. eapply exchanged_ok; [done|done|..]; simpl; try lia.
  - unfold ttl_of. destruct (has_ttl (fe_expire_at_ms e)), (has_ttl (fe_expire_at_ms (upd e))); lia.
Qed.

Lemma insert_exchanged m e :
  table_ok m → fe_hash e = hash_key (fe_key e) → (0 ≤ default 0 (fe_semantic e))%Z →
  find_key m (hash_key (fe_key e)) (fe_key e) = None → exchanged (fe_key e) None (Some e) m (insert_entry m e).
Proof.
  intros Hok Hh Hs Hf. exists (ht_elements (entries m)). simpl. split; [done|]. split; [|split].
  - unfold insert_entry. simpl. rewrite ht_insert_elements, Hh; [done|]. intros h' x Hx.
    by pose proof (proj1 (Forall_forall _ _) (ok_placed m Hok) _ Hx) as [? _].
  - intros ([h x] & Hk & Hx)%list_elem_of_fmap. simpl in Hk.
    refine (find_key_None m (fe_key e) x Hok Hf _ (eq_sym Hk)). apply list_elem_of_fmap. by exists (h, x).
  - intros x [?|?]; simplify_eq. unfold well_placed. simpl. by rewrite Hh.
Qed.

Lemma upsert_vacant m fresh :
  flat_ok m → fe_hash fresh = hash_key (fe_key fresh) → fe_semantic fresh = None →
  find_key m (hash_key (fe_key fresh)) (fe_key fresh) = None → (budget m + weight fresh ≤ u64_MAX)%Z →
  written (fe_key fresh) None fresh m
    (upsert m (hash_key (fe_key fresh)) (fe_key fresh) replace_bytes (λ e, e) fresh).2.
Proof.
  intros [Hok Hp] Hh Hs Hf Hw. unfold upsert. rewrite Hf. simpl.
  assert (exchanged (fe_key fresh) None (Some fresh) m (insert_entry m fresh)) as Hx
    by (apply insert_exchanged; [done|done|by rewrite Hs|done]).
  pose proof (stored_bound m Hok). pose proof (ttl_bound m Hok). pose proof (ok_evictions m Hok).
  unfold budget in Hw.
  assert (ebytes fresh = blen (fe_key fresh) + blen (fe_value fresh) + from_option blen 0 (fe_governance fresh))%Z as Eb
    by (unfold ebytes; rewrite Hs; simpl; lia).
  assert (weight fresh = 1 + ebytes fresh)%Z as Ew by done.
  pose proof (blen_nonneg (fe_key fresh)). pose proof (blen_nonneg (fe_value fresh)).
  assert (0 ≤ from_option blen 0%Z (fe_governance fresh))%Z by (destruct (fe_governance fresh); simpl; [apply blen_nonneg|done]).
  rewrite (u64_saturating_add_exact (stored_bytes m)) by lia.
  rewrite (u64_saturating_add_exact (stored_bytes m + _)) by lia.
  rewrite (u64_saturating_add_exact (stored_bytes m + _ + _)) by lia.
  rewrite (u64_saturating_add_exact (ttl_entries m)) by lia.
  split; [by case_code|]. split; [|by case_code]. split; [|by case_code].
  eapply exchanged_ok; [done|by case_code|..].
  - unfold sum_opt. simpl. case_code; simpl; lia.
  - unfold ttl_of, sum_opt. case_code; simpl; rewrite ?E; lia.
  - by case_code.
  - unfold sum_opt. simpl. case_code; simpl; lia.
Qed.

(** What a write leaves under its key. *)
Definition upserted m key (upd : FlatEntry → FlatEntry) (fresh : FlatEntry) : FlatEntry :=
  match find_key m (hash_key key) key with Some e => upd e | None => fresh end.

Lemma upsert_spec m key account upd fresh :
  flat_ok m → accounts account → keeps_place upd → (∀ e, fe_semantic (upd e) = None) →
  fe_key fresh = key → fe_hash fresh = hash_key key → fe_semantic fresh = None →
  (budget m + weight (upserted m key upd fresh) ≤ u64_MAX)%Z →
  (upsert m (hash_key key) key account upd fresh).1 = find_key m (hash_key key) key ∧
  written key (find_key m (hash_key key) key) (upserted m key upd fresh) m
    (upsert m (hash_key key) key account upd fresh).2.
Proof.
  intros Hok Ha Hu Hsu <- Hh Hs Hw. unfold upserted in *.
  destruct (find_key m (hash_key (fe_key fresh)) (fe_key fresh)) as [e|] eqn:Hf.
  - unfold upsert. rewrite Hf. split; [done|]. apply upsert_occupied; try done.
    unfold ebytes. rewrite Hsu. pose proof (blen_nonneg (fe_key (upd e))). pose proof (blen_nonneg (fe_value (upd e))).
    destruct (fe_governance (upd e)) as [g|]; simpl; [pose proof (blen_nonneg g)|]; lia.
  - pose proof (upsert_vacant m fresh Hok Hh Hs Hf Hw) as Hv. unfold upsert in *. rewrite Hf in *. done.
Qed.

Lemma written_contents key old new m m' :
  flat_ok m → written key old new m m' → contents m' = <[key := stored_entry new]> (contents m).
Proof. intros [Hok _] (Hx & _). by destruct (exchanged_contents _ _ _ _ _ Hok Hx) as [-> _]. Qed.

Lemma written_budget key old new m m' :
  flat_ok m → written key old new m m' → (budget m' ≤ budget m + weight new)%Z.
Proof.
  intros [Hok _] (Hx & _ & Hev & _). unfold budget. rewrite (exchanged_sum weight _ _ _ _ _ Hx), Hev. simpl.
  enough (0 ≤ sum_opt weight old)%Z by lia. destruct old as [e|]; simpl; [|lia].
  destruct Hx as (rest & Hm & _). assert (e ∈ flat_entries m) as He.
  { unfold flat_entries. rewrite Hm. simpl. left. }
  pose proof (weight_pos m e Hok He). lia.
Qed.

Lemma tidy_written key old new m m1 m2 : tidy m m1 → written key old new m1 m2 → written key old new m m2.
Proof.
  intros Ht (Hx & Hok & Hev & Hc). pose proof (tidy_config _ _ Ht). destruct Ht as [(E1&E2&E3&E4&_) _].
  unfold written, exchanged in *. rewrite E1 in Hx. rewrite E4 in Hev.
  split; [done|]. split; [done|]. split; [done|]. by etrans.
Qed.

Lemma written_tidy key old new m m1 m2 : written key old new m m1 → tidy m1 m2 → written key old new m m2.
Proof.
  intros (Hx & Hok & Hev & Hc) Ht. pose proof (tidy_config _ _ Ht). pose proof (tidy_ok _ _ Ht Hok).
  destruct Ht as [(E1&E2&E3&E4&_) _]. unfold written, exchanged in *. rewrite E1, E4.
  split; [done|]. split; [done|]. split; [done|]. by etrans.
Qed.

(** ** Shedding entries

    [live_size] counts the entries of a map that are not expired. *)
Definition unexpired now_ms (s : StoredEntry) : Prop := deadline_passed (e_expire_at_ms s) now_ms = false.
#[global] Instance unexpired_dec now_ms s : Decision (unexpired now_ms s).
Proof. unfold unexpired. apply _. Defined.

Definition live_part now_ms (S : Entries) : Entries := filter (λ x, unexpired now_ms x.2) S.
Definition live_size now_ms (S : Entries) : Z := Z.of_nat (size (live_part now_ms S)).

Lemma live_size_delete now_ms S key :
  (live_size now_ms S ≤ live_size now_ms (delete key S) + 1)%Z.
Proof.
  unfold live_size, live_part. rewrite map_filter_delete. rewrite map_size_delete.
  destruct (_ !! key); unfold id; lia.
Qed.

Lemma live_size_delete_expired now_ms (S : Entries) key s :
  S !! key = Some s → ¬ unexpired now_ms s → live_size now_ms (delete key S) = live_size now_ms S.
Proof.
  intros Hs Hu. unfold live_size, live_part. rewrite map_filter_delete, delete_id; [done|].
  apply map_lookup_filter_None. right. intros x Hx. by simplify_eq.
Qed.

(** Nothing that is counted grows. *)
Definition lighter m m' : Prop :=
  (budget m' ≤ budget m)%Z ∧ (stored_bytes m' ≤ stored_bytes m)%Z ∧
  length (flat_entries m') ≤ length (flat_entries m).

#[global] Instance lighter_preorder : PreOrder lighter.
Proof. unfold lighter. split; [done|]. intros x y z (?&?&?) (?&?&?). lia. Qed.

Record shed now_ms m m' : Prop := {
  shed_ok : flat_ok m';
  shed_sub : contents m' ⊆ contents m;
  shed_live : (live_size now_ms (contents m) + evictions m ≤ live_size now_ms (contents m') + evictions m')%Z;
  shed_evictions : (evictions m ≤ evictions m')%Z;
  shed_lighter : lighter m m';
  shed_config : same_config m m';
}.

Lemma shed_refl now_ms m : flat_ok m → shed now_ms m m.
Proof. intros. split; try done; lia. Qed.

Lemma shed_trans now_ms m1 m2 m3 : shed now_ms m1 m2 → shed now_ms m2 m3 → shed now_ms m1 m3.
Proof. intros [] []. split; try done; try lia; by etrans. Qed.

Lemma tidy_lighter m m' : tidy m m' → lighter m m'.
Proof.
  intros Ht. pose proof (tidy_budget _ _ Ht). destruct Ht as [Hs _]. pose proof (same_table_entries _ _ Hs) as Ee.
  destruct Hs as (_&E2&_). unfold lighter. rewrite Ee. lia.
Qed.

Lemma tidy_shed now_ms m m' : flat_ok m → tidy m m' → shed now_ms m m'.
Proof.
  intros Hok Ht. pose proof (tidy_ok _ _ Ht Hok). pose proof (tidy_contents _ _ Ht) as Ec.
  pose proof (tidy_lighter _ _ Ht). pose proof (tidy_config _ _ Ht).
  destruct Ht as [(_&_&_&E4&_) _]. split; rewrite ?Ec; done || lia.
Qed.

Lemma dropped_contents reason e m m' :
  table_ok m → dropped reason e m m' →
  contents m' = delete (fe_key e) (contents m) ∧ contents m !! fe_key e = Some (stored_entry e).
Proof.
  intros Hok (He & Hx & _). split; [by destruct (exchanged_contents _ _ _ _ _ Hok Hx) as [-> _]|].
  by apply entry_map_elem; [apply ok_keys|].
Qed.

Lemma dropped_length reason e m m' : dropped reason e m m' → length (flat_entries m) = S (length (flat_entries m')).
Proof.
  intros (_ & (rest & Hm & Hm' & _) & _). unfold flat_entries. rewrite !length_fmap.
  by rewrite (Permutation_length Hm), (Permutation_length Hm').
Qed.

Lemma dropped_lighter reason e m m' : table_ok m → dropped reason e m m' → lighter m m'.
Proof.
  intros Hok Hd. pose proof (dropped_length _ _ _ _ Hd). destruct Hd as (He & Hx & Hok' & Hev & Hc).
  pose proof (weight_pos m e Hok He). pose proof (ebytes_nonneg m e Hok He). unfold lighter. split; [|split].
  - unfold budget. rewrite (exchanged_sum weight _ _ _ _ _ Hx), Hev. simpl. case_bool_decide; lia.
  - rewrite (ok_bytes _ (proj1 Hok')), (ok_bytes _ Hok), (exchanged_sum ebytes _ _ _ _ _ Hx). simpl. lia.
  - lia.
Qed.

Lemma dropped_shed reason now_ms e m m' :
  table_ok m → dropped reason e m m' → reason = Evicted ∨ is_expired e now_ms = true → shed now_ms m m'.
Proof.
  intros Hok Hd Hr. destruct (dropped_contents _ _ _ _ Hok Hd) as [Ec Hl].
  pose proof (dropped_lighter _ _ _ _ Hok Hd). destruct Hd as (He & Hx & Hok' & Hev & Hc).
  split; [done| | | |done|done].
  - rewrite Ec. apply delete_subseteq.
  - rewrite Ec, Hev. case_bool_decide as Hre.
    + pose proof (live_size_delete now_ms (contents m) (fe_key e)). lia.
    + destruct Hr as [?|Hr]; [done|]. rewrite (live_size_delete_expired _ _ _ _ Hl); [lia|].
      unfold unexpired. simpl. unfold is_expired in Hr. by rewrite Hr.
  - rewrite Hev. case_bool_decide; lia.
Qed.

(** An eviction sheds, and succeeds when the key is there under its hash. *)
Lemma evict_shed now_ms m hash key :
  flat_ok m → shed now_ms m (evict_or_offload_hashed m hash key).2.
Proof.
  intros Hok. pose proof (delete_internal_spec m hash key Evicted Hok) as Hd. unfold evict_or_offload_hashed.
  destruct (find_key m hash key) as [e|].
  - destruct Hd as [_ Hd]. eapply dropped_shed; [apply Hok|done|by left].
  - destruct Hd as [_ Ht]. by apply tidy_shed.
Qed.

Lemma evict_present m e :
  flat_ok m → e ∈ flat_entries m →
  (evict_or_offload_hashed m (fe_hash e) (fe_key e)).1 = true ∧
  dropped Evicted e m (evict_or_offload_hashed m (fe_hash e) (fe_key e)).2.
Proof.
  intros Hok He. pose proof (delete_internal_spec m (fe_hash e) (fe_key e) Evicted Hok) as Hd.
  destruct (elem_placed m e (proj1 Hok) He) as [_ Hh].
  destruct (find_key m (fe_hash e) (fe_key e)) as [e'|] eqn:Hf.
  - apply find_key_Some in Hf as (He' & _ & Hk).
    by rewrite (table_ok_unique m e' e (proj1 Hok) He' He Hk) in Hd.
  - rewrite Hh in Hf. by destruct (find_key_None m (fe_key e) e (proj1 Hok) Hf He).
Qed.
End flat_map_proofs.
