(* ===== verification/FlatEviction.v ===== *)
(** * The string key space: expiry sweeps and the memory limit

    The sweep removes exactly the expired entries.  Eviction removes entries
    one by one, counts them, reaches its target in the rounds its fuel allows,
    and takes the coldest entries first when it chooses by rank. *)

From S2P Require Import Prelude Deps Codec Snapshot Recovery FlatMap FlatMapProofs.

Section eviction.
Context `{Hashing} {HT : Type → Type} `{!HashTable HT}.
Abbreviation FlatMap := (FlatMap (HT := HT)).
Implicit Types (m : FlatMap) (key value : Bytes) (hash now_ms : Z) (e : FlatEntry).

(** ** The sweep *)
Lemma flat_delete_expired_spec m key :
  flat_ok m →
  flat_ok (delete_hashed_internal m (hash_key key) key Expired).2 ∧
  contents (delete_hashed_internal m (hash_key key) key Expired).2 = delete key (contents m) ∧
  evictions (delete_hashed_internal m (hash_key key) key Expired).2 = evictions m ∧
  same_config m (delete_hashed_internal m (hash_key key) key Expired).2 ∧
  lighter m (delete_hashed_internal m (hash_key key) key Expired).2.
Proof.
  intros Hok. pose proof (delete_internal_spec m (hash_key key) key Expired Hok) as Hd.
  pose proof (contents_lookup m key (proj1 Hok)) as Hl. destruct (find_key m (hash_key key) key) as [e|] eqn:Hf.
  - destruct Hd as [_ Hd]. apply find_key_Some in Hf as (_ & _ & <-).
    destruct (dropped_contents _ _ _ _ (proj1 Hok) Hd) as [Ec _].
    pose proof (dropped_lighter _ _ _ _ (proj1 Hok) Hd). destruct Hd as (_ & _ & Hok' & Hev & Hc).
    rewrite bool_decide_eq_false_2, Z.add_0_r in Hev by done. done.
  - destruct Hd as [_ Ht]. split; [by eapply tidy_ok|]. split; [|split; [|by split; [apply tidy_config|apply tidy_lighter]]].
    + rewrite (tidy_contents _ _ Ht). by rewrite delete_id.
    + by destruct Ht as [(_&_&_&?&_) _].
Qed.

Lemma sweep_spec m (ks : list Bytes) :
  flat_ok m →
  let m' := foldl (λ m '(hash, key), (delete_hashed_internal m hash key Expired).2) m
              ((λ k, (hash_key k, k)) <$> ks) in
  flat_ok m' ∧ contents m' = filter (λ x, x.1 ∉ ks) (contents m) ∧ evictions m' = evictions m ∧
  same_config m m' ∧ lighter m m'.
Proof.
  revert m. induction ks as [|k ks IH]; intros m Hok; simpl.
  - split; [done|]. split; [|done]. symmetry. apply map_filter_id. intros i x _. apply not_elem_of_nil.
  - destruct (flat_delete_expired_spec m k Hok) as (Hok1 & Ec1 & Ev1 & Hc1 & Hl1).
    destruct (IH _ Hok1) as (Hok2 & Ec2 & Ev2 & Hc2 & Hl2). split; [done|].
    split; [|split; [exact (eq_trans Ev2 Ev1)|by split; etrans]]. etrans; [exact Ec2|]. rewrite Ec1. apply map_eq. intros i.
    destruct (decide (i = k)) as [->|Hne].
    + rewrite !map_lookup_filter, lookup_delete_eq. simpl. symmetry. destruct (contents m !! k); simpl; [|done].
      rewrite option_guard_False; [done|]. intros Hn. apply Hn. left.
    + rewrite !map_lookup_filter, lookup_delete_ne by done. destruct (contents m !! i); simpl; [|done].
      apply option_guard_iff. simpl. rewrite not_elem_of_cons. naive_solver.
Qed.

Lemma no_deadlines m now_ms :
  table_ok m → ttl_entries m = 0%Z → live_part now_ms (contents m) = contents m.
Proof.
  intros Hok Ht. apply map_filter_id. intros k s (e & He & _ & <-)%entry_map_lookup_Some.
  pose proof (ttl_le m e Hok He) as Hle. unfold ttl_of, unexpired, deadline_passed in *. simpl.
  destruct (fe_expire_at_ms e); simpl in *; [lia|done].
Qed.

(** The sweep leaves exactly what is not expired, and counts the rest. *)
Lemma process_maintenance_spec m now_ms :
  flat_ok m →
  let '(removed, m') := process_maintenance m now_ms in
  flat_ok m' ∧ contents m' = live_part now_ms (contents m) ∧ evictions m' = evictions m ∧
  same_config m m' ∧ lighter m m'.
Proof.
  intros Hok. unfold process_maintenance. pose proof (reclaim_tidy m) as Ht.
  pose proof (tidy_ok _ _ Ht Hok) as Hok1. rewrite <- (tidy_contents _ _ Ht).
  assert (evictions (reclaim_retired_if_quiescent m) = evictions m) as Ev by by destruct Ht as [(_&_&_&?&_) _].
  pose proof (tidy_config _ _ Ht) as Hc. pose proof (tidy_lighter _ _ Ht) as Hl. set (m1 := reclaim_retired_if_quiescent m) in *. clearbody m1.
  destruct (ttl_entries m1 =? 0)%Z eqn:Hz; bool_case.
  - split; [done|]. split; [|done]. symmetry. by apply no_deadlines; [apply Hok1|].
  - set (dead := filter (λ e, is_expired e now_ms = true) (flat_entries m1)).
    assert ((λ e, (fe_hash e, fe_key e)) <$> dead = (λ k, (hash_key k, k)) <$> (fe_key <$> dead)) as ->.
    { rewrite <- list_fmap_compose. apply list_fmap_ext. intros i e Hi. simpl.
      apply list_elem_of_lookup_2, list_elem_of_filter in Hi as [_ Hi].
      by rewrite (proj2 (elem_placed m1 e (proj1 Hok1) Hi)). }
    destruct (sweep_spec m1 (fe_key <$> dead) Hok1) as (Hok2 & Ec & Ev2 & Hc2 & Hl2).
    split; [done|]. split; [|split; [by rewrite Ev2|by split; etrans]]. rewrite Ec. apply map_filter_ext.
    intros k s (e & He & <- & <-)%entry_map_lookup_Some. simpl. unfold unexpired, dead. simpl.
    rewrite list_elem_of_fmap. setoid_rewrite list_elem_of_filter. split.
    + intros Hn. apply not_true_is_false. intros Hd. apply Hn. by exists e.
    + intros Hu (e' & Hk & Hd & He'). rewrite (table_ok_unique m1 e' e (proj1 Hok1) He' He) in Hd by done.
      unfold is_expired in Hd. congruence.
Qed.

Lemma live_part_live (now_ms now' : Z) (S : Entries) :
  (now_ms ≤ now')%Z → live_size now' (live_part now_ms S) = live_size now' S.
Proof.
  intros Hle. unfold live_size, live_part. rewrite map_filter_filter. do 2 f_equal. apply map_filter_ext.
  intros k s _. simpl. unfold unexpired, deadline_passed. destruct (e_expire_at_ms s) as [d|]; [|naive_solver].
  rewrite !Z.leb_gt. lia.
Qed.

Lemma maintenance_shed m (now_ms now' : Z) :
  flat_ok m → (now_ms ≤ now')%Z → shed now' m (process_maintenance m now_ms).2.
Proof.
  intros Hok Hle. pose proof (process_maintenance_spec m now_ms Hok) as Hs.
  destruct (process_maintenance m now_ms) as [n m']. destruct Hs as (Hok' & Ec & Ev & Hc & Hl). simpl.
  split; [done| | |lia|done|done].
  - rewrite Ec. apply map_filter_subseteq.
  - rewrite Ec, live_part_live by done. lia.
Qed.

(** ** Eviction loops *)
Lemma with_log_tidy m log : tidy m (with_log m log).
Proof. done. Qed.

Lemma find_touched_elem m touch e : find_touched m touch = Some e → e ∈ flat_entries m.
Proof. by intros [_ He]%ht_find_elem. Qed.

Lemma evict_logged_shed now_ms target log m : flat_ok m → shed now_ms m (evict_logged target log m).2.
Proof.
  revert m. induction log as [|touch log IH]; intros m Hok; cbn [evict_logged]; case_code;
    try by apply shed_refl.
  assert (flat_ok (with_log m log)) as Hok1 by by eapply tidy_ok; [apply with_log_tidy|].
  assert (shed now_ms m (with_log m log)) as Hs by by apply tidy_shed.
  destruct (find_touched (with_log m log) touch) as [e|].
  - pose proof (evict_shed now_ms _ (touch_hash touch) (fe_key e) Hok1) as Hs1.
    destruct (evict_or_offload_hashed _ _ _) as [b m1]. simpl in Hs1.
    pose proof (IH m1 (shed_ok _ _ _ Hs1)) as Hs2. destruct (evict_logged target log m1) as [b2 m2]. simpl in *.
    eapply shed_trans; [done|]. by eapply shed_trans.
  - eapply shed_trans; [done|]. by apply IH.
Qed.

Lemma evict_first_logged_shed now_ms log m : flat_ok m → shed now_ms m (evict_first_logged log m).2.
Proof.
  revert m. induction log as [|touch log IH]; intros m Hok; cbn [evict_first_logged]; [by apply shed_refl|].
  assert (flat_ok (with_log m log)) as Hok1 by by eapply tidy_ok; [apply with_log_tidy|].
  assert (shed now_ms m (with_log m log)) as Hs by by apply tidy_shed.
  destruct (find_touched (with_log m log) touch) as [e|].
  - pose proof (evict_shed now_ms _ (touch_hash touch) (fe_key e) Hok1) as Hs1.
    destruct (evict_or_offload_hashed _ _ _) as [b m1]. simpl in Hs1.
    eapply shed_trans; [done|]. eapply shed_trans; [done|].
    destruct b; [apply shed_refl; apply Hs1|]. apply IH, Hs1.
  - eapply shed_trans; [done|]. by apply IH.
Qed.

Lemma evict_batch_shed now_ms target cs m : flat_ok m → shed now_ms m (evict_batch target cs m).2.
Proof.
  revert m. induction cs as [|c cs IH]; intros m Hok; cbn [evict_batch]; [by apply shed_refl|].
  case_code; [by apply shed_refl|].
  pose proof (evict_shed now_ms m (cand_hash c) (cand_key c) Hok) as Hs1.
  destruct (evict_or_offload_hashed _ _ _) as [b m1]. simpl in Hs1.
  pose proof (IH m1 (shed_ok _ _ _ Hs1)) as Hs2. destruct (evict_batch target cs m1) as [b2 m2]. simpl in *.
  by eapply shed_trans.
Qed.

Lemma evict_rounds_shed now_ms fuel policy target m :
  flat_ok m → shed now_ms m (evict_rounds fuel policy target m).2.
Proof.
  revert m. induction fuel as [|fuel IH]; intros m Hok; cbn [evict_rounds]; [by apply shed_refl|].
  case_code; [by apply shed_refl|].
  destruct (merge_sort _ _) as [|c cs]; [by apply shed_refl|].
  pose proof (evict_batch_shed now_ms target (c :: cs) m Hok) as Hs.
  destruct (evict_batch target (c :: cs) m) as [b m1]. simpl in Hs.
  destruct b; [|done]. simpl. eapply shed_trans; [done|]. apply IH, Hs.
Qed.

Lemma evict_to_target_shed now_ms policy target m :
  flat_ok m → shed now_ms m (evict_to_memory_target m policy target).2.
Proof.
  intros Hok. unfold evict_to_memory_target. case_code; [by apply shed_refl|].
  pose proof (evict_logged_shed now_ms target (lru_touch_log m) m Hok) as Hs.
  destruct (bool_decide (policy = Lru)); [|by apply evict_rounds_shed].
  unfold evict_lru_from_touch_log. destruct (evict_logged target (lru_touch_log m) m) as [b m1]. simpl in Hs.
  case_code; [done|]. eapply shed_trans; [done|]. apply evict_rounds_shed, Hs.
Qed.

Lemma evict_one_shed now_ms policy m : flat_ok m → shed now_ms m (evict_one_with_policy m policy).2.
Proof.
  intros Hok. unfold evict_one_with_policy.
  assert (∀ m1, shed now_ms m m1 → shed now_ms m
    (match eviction_candidate m1 policy with
     | None => (None, m1)
     | Some (_, hash, key) =>
         let '(evicted, m) := evict_or_offload_hashed m1 hash key in (if evicted then Some key else None, m)
     end).2) as Hrest.
  { intros m1 Hs. destruct (eviction_candidate m1 policy) as [[[r h] k]|]; [|done].
    pose proof (evict_shed now_ms m1 h k (shed_ok _ _ _ Hs)) as Hs1.
    destruct (evict_or_offload_hashed m1 h k) as [b m2]. by eapply shed_trans. }
  destruct (bool_decide (policy = Lru)); [|apply Hrest; by apply shed_refl].
  pose proof (evict_first_logged_shed now_ms (lru_touch_log m) m Hok) as Hs.
  destruct (evict_first_logged (lru_touch_log m) m) as [[k|] m1]; [done|]. by apply Hrest.
Qed.

(** ** Candidates *)
Lemma offer_length n cs c : length cs ≤ length (offer n cs c) ∧ offer n cs c ≠ [] ∨ (n ≤ 0)%Z.
Proof.
  unfold offer. case_code; [left; rewrite length_app; split; [lia|by destruct cs]|].
  destruct cs as [|x cs]; [right; simpl in *; lia|]. left.
  destruct (position _ _) as [i|]; [|done]. destruct ((x :: cs) !! i); [|done]. case_code; [|done].
  rewrite length_insert. split; [lia|]. by destruct i.
Qed.

Lemma offer_elem n cs c x : x ∈ offer n cs c → x ∈ cs ∨ x = c.
Proof.
  unfold offer. case_code; [rewrite elem_of_app, list_elem_of_singleton; naive_solver|].
  destruct (position _ _) as [i|]; [|auto]. destruct (cs !! i); [|auto]. case_code; [|auto].
  intros (j & Hj)%list_elem_of_lookup. apply list_lookup_insert_Some in Hj as [(_&<-&_)|[_ Hj]]; [auto|].
  left. by eapply list_elem_of_lookup_2.
Qed.

Lemma offers_elem n l cs x : x ∈ foldl (offer n) cs l → x ∈ cs ∨ x ∈ l.
Proof.
  revert cs. induction l as [|c l IH]; intros cs; simpl; [auto|].
  intros [Hx|Hx]%IH; [apply offer_elem in Hx as [?| ->]|]; rewrite elem_of_cons; auto.
Qed.

Lemma offers_ne n l cs : (0 < n)%Z → cs ≠ [] ∨ l ≠ [] → foldl (offer n) cs l ≠ [].
Proof.
  intros Hn. revert cs. induction l as [|c l IH]; intros cs Hl; simpl; [naive_solver|]. apply IH. left.
  destruct (offer_length n cs c) as [[_ ?]|?]; [done|lia].
Qed.

Lemma div_ceil_pos a b : (0 < a)%Z → (0 < b)%Z → (1 ≤ div_ceil a b)%Z.
Proof.
  intros Ha Hb. unfold div_ceil. pose proof (Z.div_pos a b). pose proof (Z.mod_pos_bound a b Hb).
  pose proof (Z.div_mod a b). case_code; nia.
Qed.

Lemma flat_len_entries m : flat_len m = Z.of_nat (length (flat_entries m)).
Proof. unfold flat_len, flat_entries. by rewrite ht_len_elements, length_fmap. Qed.

Lemma entries_ne m : flat_ok m → (0 < stored_bytes m)%Z → flat_entries m ≠ [].
Proof. intros [Hok _] Hs He. rewrite (ok_bytes m Hok), He in Hs. simpl in Hs. lia. Qed.

Lemma candidate_count_pos m target :
  flat_ok m → (0 ≤ target < stored_bytes m)%Z → (1 ≤ eviction_candidate_count m target)%Z.
Proof.
  intros Hok Ht. pose proof (entries_ne m Hok ltac:(lia)) as Hne. unfold eviction_candidate_count, flat_is_empty.
  rewrite flat_len_entries. assert (1 ≤ Z.of_nat (length (flat_entries m)))%Z by (destruct (flat_entries m); simpl; [done|lia]).
  rewrite u64_saturating_sub_exact by lia.
  replace (stored_bytes m - target =? 0)%Z with false by (symmetry; apply Z.eqb_neq; lia).
  replace (Z.of_nat (length (flat_entries m)) =? 0)%Z with false by (symmetry; apply Z.eqb_neq; lia). simpl.
  set (avg := Z.max _ 1). pose proof (div_ceil_pos (stored_bytes m - target) avg ltac:(lia) ltac:(lia)) as Hd.
  set (est := div_ceil _ avg) in *. pose proof (Z.div_pos est 8 ltac:(lia) ltac:(lia)).
  unfold u64_saturating_add, u64_MAX. lia.
Qed.

Lemma candidates_spec m policy target :
  flat_ok m → (0 ≤ target < stored_bytes m)%Z →
  eviction_candidates_for_target m policy target ≠ [] ∧
  ∀ c, c ∈ eviction_candidates_for_target m policy target →
       ∃ e, e ∈ flat_entries m ∧ c = candidate_of policy e.
Proof.
  intros Hok Ht. pose proof (candidate_count_pos m target Hok Ht). unfold eviction_candidates_for_target.
  replace (eviction_candidate_count m target =? 0)%Z with false by (symmetry; apply Z.eqb_neq; lia). split.
  - apply offers_ne; [lia|]. right. intros He%fmap_nil_inv. revert He. apply entries_ne; [done|lia].
  - intros c [Hc|Hc]%offers_elem; [by apply not_elem_of_nil in Hc|].
    apply list_elem_of_fmap in Hc as (e & -> & He). eauto.
Qed.

(** A batch that starts with a stored candidate evicts it. *)
Lemma evict_batch_progress target policy e cs m :
  flat_ok m → (target < stored_bytes m)%Z → e ∈ flat_entries m →
  (evict_batch target (candidate_of policy e :: cs) m).1 = true ∧
  length (flat_entries (evict_batch target (candidate_of policy e :: cs) m).2) < length (flat_entries m).
Proof.
  intros Hok Ht He. cbn [evict_batch]. rewrite (proj2 (Z.leb_gt _ _) Ht).
  destruct (evict_present m e Hok He) as [Hb Hd]. simpl. destruct (evict_or_offload_hashed _ _ _) as [b m1].
  simpl in Hb, Hd. subst b. pose proof (dropped_length _ _ _ _ Hd) as Hl. destruct Hd as (_ & _ & Hok1 & _).
  pose proof (evict_batch_shed 0 target cs m1 Hok1) as Hs. destruct (evict_batch target cs m1) as [b2 m2].
  simpl in *. destruct (shed_lighter _ _ _ Hs) as (_ & _ & ?). split; [done|lia].
Qed.

(** The rounds reach their target: each one evicts an entry. *)
Lemma evict_rounds_target fuel policy target m :
  flat_ok m → (0 ≤ target)%Z → length (flat_entries m) < fuel →
  (stored_bytes (evict_rounds fuel policy target m).2 ≤ target)%Z.
Proof.
  revert m. induction fuel as [|fuel IH]; intros m Hok Ht Hf; [lia|]. cbn [evict_rounds]. case_code; [done|].
  destruct (candidates_spec m policy target Hok ltac:(lia)) as [Hne Hc].
  pose proof (merge_sort_Permutation candidate_rank_le (eviction_candidates_for_target m policy target)) as Hp.
  destruct (merge_sort _ _) as [|c cs]; [by apply Permutation_nil_l in Hp|].
  destruct (Hc c) as (e & He & ->). { rewrite <- Hp. left. }
  destruct (evict_batch_progress target policy e cs m Hok ltac:(lia) He) as [Hb Hl].
  pose proof (evict_batch_shed 0 target (candidate_of policy e :: cs) m Hok) as Hs.
  destruct (evict_batch target _ m) as [b m1]. simpl in Hb, Hl, Hs. subst b. simpl.
  apply IH; [apply Hs|done|lia].
Qed.

Lemma evict_to_target_reaches policy target m :
  flat_ok m → policy ≠ NoEviction → (0 ≤ target)%Z →
  (stored_bytes (evict_to_memory_target m policy target).2 ≤ target)%Z.
Proof.
  intros Hok Hp Ht. unfold evict_to_memory_target. rewrite (bool_decide_eq_false_2 _ Hp). simpl.
  assert (∀ m : FlatMap, flat_ok m → flat_is_empty m = true → (stored_bytes m ≤ target)%Z) as Hempty.
  { intros m1 [Hok1 _] He. unfold flat_is_empty in He. rewrite flat_len_entries in He. bool_case.
    destruct (flat_entries m1) eqn:E; [|simpl in He; lia]. rewrite (ok_bytes m1 Hok1), E. simpl. lia. }
  case_code; [by apply Hempty|]. pose proof (evict_logged_shed 0 target (lru_touch_log m) m Hok) as Hs.
  destruct (bool_decide (policy = Lru)); cbn [andb].
  - unfold evict_lru_from_touch_log. destruct (evict_logged target (lru_touch_log m) m) as [b m1]. simpl in Hs.
    destruct (_ || _) eqn:E0; cbn [snd].
    + apply orb_true_iff in E0 as [E0|E0]; bool_case; [done|]. apply Hempty; [apply Hs|done].
    + apply (evict_rounds_target (evict_fuel m1)); [apply Hs|done|unfold evict_fuel; lia].
  - apply (evict_rounds_target (evict_fuel m)); [done|done|unfold evict_fuel; lia].
Qed.

(** ** Eviction by rank takes the coldest entries *)
Lemma rank_le_spec a b :
  rank_le a b = true ↔ (primary a < primary b ∨ primary a = primary b ∧ secondary a ≤ secondary b)%Z.
Proof. unfold rank_le. rewrite orb_true_iff, andb_true_iff, Z.ltb_lt, Z.eqb_eq, Z.leb_le. done. Qed.

Lemma rank_le_refl a : rank_le a a = true.
Proof. apply rank_le_spec. lia. Qed.

Lemma rank_le_trans a b c : rank_le a b = true → rank_le b c = true → rank_le a c = true.
Proof. rewrite !rank_le_spec. lia. Qed.

Lemma rank_le_total a b : rank_le a b = true ∨ rank_le b a = true.
Proof. rewrite !rank_le_spec. lia. Qed.

Lemma rank_lt_le a b : rank_lt a b = true → rank_le a b = true.
Proof. unfold rank_lt. rewrite negb_true_iff. intros. by destruct (rank_le_total a b); [|congruence]. Qed.

Lemma candidate_le_rank a b : candidate_le a b = true → rank_le (cand_rank a) (cand_rank b) = true.
Proof.
  unfold candidate_le. rewrite orb_true_iff, andb_true_iff. intros [?%rank_lt_le|[? _]]; done.
Qed.

Lemma candidate_le_total a b : candidate_le a b = true ∨ candidate_le b a = true.
Proof.
  unfold candidate_le, rank_lt. rewrite !orb_true_iff, !andb_true_iff, !negb_true_iff, !Z.leb_le.
  destruct (rank_le (cand_rank a) (cand_rank b)) eqn:E1, (rank_le (cand_rank b) (cand_rank a)) eqn:E2.
  - lia.
  - tauto.
  - tauto.
  - destruct (rank_le_total (cand_rank a) (cand_rank b)); congruence.
Qed.

Lemma candidate_le_trans a b c : candidate_le a b = true → candidate_le b c = true → candidate_le a c = true.
Proof.
  unfold candidate_le, rank_lt. rewrite !orb_true_iff, !andb_true_iff, !negb_true_iff, !Z.leb_le.
  rewrite <- !not_true_iff_false, !rank_le_spec. lia.
Qed.

#[local] Instance candidate_rank_total : Total candidate_rank_le.
Proof. intros a b. apply rank_le_total. Qed.
#[local] Instance candidate_rank_trans : Transitive candidate_rank_le.
Proof. intros a b c. apply rank_le_trans. Qed.

(** The heap has a greatest element. *)
Lemma warmest_position cs :
  cs ≠ [] → ∃ i w, position (λ x, forallb (λ y, candidate_le y x) cs) cs = Some i ∧ cs !! i = Some w ∧
                   ∀ y, y ∈ cs → candidate_le y w = true.
Proof.
  intros Hne. assert (∃ w, w ∈ cs ∧ ∀ y, y ∈ cs → candidate_le y w = true) as (w & Hw & Hm).
  { induction cs as [|c cs IH]; [done|]. destruct (decide (cs = [])) as [->|Hc].
    - exists c. split; [left|]. intros y ->%list_elem_of_singleton. by destruct (candidate_le_total c c).
    - destruct (IH Hc) as (w & Hw & Hm). destruct (candidate_le_total c w) as [Hcw|Hwc].
      + exists w. split; [by right|]. intros y [->|Hy]%elem_of_cons; auto.
      + exists c. split; [left|]. intros y [->|Hy]%elem_of_cons; [by destruct (candidate_le_total c c)|].
        by eapply candidate_le_trans; [apply Hm|]. }
  destruct (position _ cs) as [i|] eqn:Hi.
  - apply position_Some in Hi as (x & Hx & Hall & _). exists i, x. split; [done|]. split; [done|].
    intros y Hy. rewrite forallb_forall in Hall. apply Hall. by apply list_elem_of_In.
  - pose proof (proj1 (position_None _ _) Hi w Hw) as Hf. cbn beta in Hf. apply not_true_iff_false in Hf.
    destruct Hf. apply forallb_forall. intros y Hy. apply Hm. by apply list_elem_of_In.
Qed.

Definition no_warmer (cs rest : list EvictionCandidate) : Prop :=
  ∀ c x, c ∈ cs → x ∈ rest → rank_le (cand_rank c) (cand_rank x) = true.

Lemma offer_coldest n cs rest c :
  (0 < n)%Z → no_warmer cs rest → (Z.of_nat (length cs) < n → rest = [])%Z →
  ∃ rest', c :: cs ++ rest ≡ₚ offer n cs c ++ rest' ∧ no_warmer (offer n cs c) rest' ∧
           (Z.of_nat (length (offer n cs c)) < n → rest' = [])%Z.
Proof.
  intros Hn Hw Hr. unfold offer. destruct (Z.ltb_spec (Z.of_nat (length cs)) n) as [Hlt|Hge].
  - rewrite (Hr Hlt) in *. exists []. split; [rewrite !app_nil_r; by rewrite Permutation_app_comm|].
    split; [by intros ? ? _ ?%not_elem_of_nil|done].
  - assert (cs ≠ []) as Hne by (destruct cs; simpl in *; [lia|done]).
    destruct (warmest_position cs Hne) as (i & w & -> & Hi & Hm). rewrite Hi.
    destruct (rank_lt (cand_rank c) (cand_rank w)) eqn:E.
    + exists (w :: rest). rewrite insert_take_drop by by eapply lookup_lt_Some.
      pose proof (take_drop_middle cs i w Hi) as Hs.
      assert (∀ y, y ∈ take i cs ++ drop (S i) cs → y ∈ cs) as Hsub.
      { intros y Hy. rewrite <- Hs. rewrite !elem_of_app, elem_of_cons in *. tauto. }
      split; [rewrite <- Hs at 1; solve_Permutation|]. split.
      * intros y x Hy Hx. apply elem_of_cons in Hx as [->|Hx].
        -- apply elem_of_app in Hy as [Hy|[->|Hy]%elem_of_cons]; [|by apply rank_lt_le|];
             apply candidate_le_rank, Hm, Hsub, elem_of_app; auto.
        -- assert (rank_le (cand_rank w) (cand_rank x) = true) by (apply Hw; [by eapply list_elem_of_lookup_2|done]).
           apply elem_of_app in Hy as [Hy|[->|Hy]%elem_of_cons].
           ++ apply Hw; [apply Hsub, elem_of_app; auto|done].
           ++ by eapply rank_le_trans; [apply rank_lt_le|].
           ++ apply Hw; [apply Hsub, elem_of_app; auto|done].
      * rewrite <- insert_take_drop by by eapply lookup_lt_Some. rewrite length_insert. lia.
    + exists (c :: rest). split; [solve_Permutation|]. split; [|lia].
      unfold rank_lt in E. apply negb_false_iff in E. intros y x Hy [->|Hx]%elem_of_cons; [|by apply Hw].
      eapply rank_le_trans; [|done]. by apply candidate_le_rank, Hm.
Qed.

Lemma offers_coldest n l cs rest :
  (0 < n)%Z → no_warmer cs rest → (Z.of_nat (length cs) < n → rest = [])%Z →
  ∃ rest', l ++ cs ++ rest ≡ₚ foldl (offer n) cs l ++ rest' ∧ no_warmer (foldl (offer n) cs l) rest'.
Proof.
  intros Hn. revert cs rest. induction l as [|c l IH]; intros cs rest Hw Hr; simpl; [eauto|].
  destruct (offer_coldest n cs rest c Hn Hw Hr) as (rest1 & Hp & Hw1 & Hr1).
  destruct (IH _ _ Hw1 Hr1) as (rest2 & Hp2 & Hw2). exists rest2. split; [|done].
  rewrite <- Hp2, <- Hp. solve_Permutation.
Qed.

(** [m'] keeps entries of [m] that are at least as warm as those it lost. *)
Definition coldest_gone (policy : EvictionPolicy) m m' : Prop :=
  ∃ gone, flat_entries m ≡ₚ gone ++ flat_entries m' ∧
          ∀ e e', e ∈ gone → e' ∈ flat_entries m' →
                  rank_le (rank (fe_access e) policy) (rank (fe_access e') policy) = true.

Lemma coldest_gone_refl policy m : coldest_gone policy m m.
Proof. exists []. split; [done|]. by intros ? ? ?%not_elem_of_nil. Qed.

Lemma coldest_gone_trans policy m1 m2 m3 :
  coldest_gone policy m1 m2 → coldest_gone policy m2 m3 → coldest_gone policy m1 m3.
Proof.
  intros (g1 & H1 & W1) (g2 & H2 & W2). exists (g1 ++ g2). split; [rewrite H1, H2; by rewrite app_assoc|].
  intros e e' [He|He]%elem_of_app He'; [|by apply W2]. apply W1; [done|]. rewrite H2. apply elem_of_app. auto.
Qed.

Lemma dropped_entries reason e m m' : dropped reason e m m' → flat_entries m ≡ₚ e :: flat_entries m'.
Proof.
  intros (_ & (rest & Hm & Hm' & _) & _). unfold flat_entries. rewrite Hm, Hm'. done.
Qed.

(** A batch evicts a prefix of its sorted candidates. *)
Lemma evict_batch_prefix target policy es rest m :
  flat_ok m → flat_entries m ≡ₚ es ++ rest →
  ∃ es1 es2, es = es1 ++ es2 ∧
    flat_entries (evict_batch target (candidate_of policy <$> es) m).2 ≡ₚ es2 ++ rest.
Proof.
  revert m. induction es as [|e es IH]; intros m Hok Hp; [by exists [], []|]. simpl.
  destruct (stored_bytes m <=? target)%Z; [by exists [], (e :: es)|].
  assert (e ∈ flat_entries m) as He by (rewrite Hp; left).
  destruct (evict_present m e Hok He) as [_ Hd]. destruct (evict_or_offload_hashed _ _ _) as [b m1]. simpl in Hd.
  pose proof (dropped_entries _ _ _ _ Hd) as Hp1. rewrite Hp in Hp1. apply Permutation_cons_inv in Hp1.
  destruct Hd as (_ & _ & Hok1 & _). destruct (IH m1 Hok1 (symmetry Hp1)) as (es1 & es2 & -> & Hp2).
  exists (e :: es1), es2. split; [done|]. by destruct (evict_batch target _ m1).
Qed.

Lemma evict_batch_coldest policy target m :
  flat_ok m → (0 ≤ target < stored_bytes m)%Z →
  coldest_gone policy m
    (evict_batch target (merge_sort candidate_rank_le (eviction_candidates_for_target m policy target)) m).2.
Proof.
  intros Hok Ht. pose proof (candidate_count_pos m target Hok Ht) as Hn. unfold eviction_candidates_for_target.
  replace (eviction_candidate_count m target =? 0)%Z with false by (symmetry; apply Z.eqb_neq; lia).
  assert (0 < eviction_candidate_count m target)%Z as Hpos by lia.
  destruct (offers_coldest _ (candidate_of policy <$> flat_entries m) [] [] Hpos) as (rest & Hp & Hw);
    [by intros ? ? ?%not_elem_of_nil|done|].
  rewrite app_nil_r in Hp. set (cs := foldl _ _ _) in *.
  pose proof (merge_sort_Permutation candidate_rank_le cs) as Hs.
  assert (StronglySorted candidate_rank_le (merge_sort candidate_rank_le cs)) as Hss
    by (apply StronglySorted_merge_sort; apply _).
  set (scs := merge_sort candidate_rank_le cs) in *. rewrite <- Hs in Hp.
  symmetry in Hp. apply Permutation_map_inv in Hp as (l3 & E & Hp). symmetry in E.
  change (candidate_of policy <$> l3 = scs ++ rest) in E. apply fmap_app_inv in E as (es & res & Ecs & Erest & ->).
  assert (no_warmer scs rest) as Hw' by (intros c x Hc Hx; apply Hw; [by rewrite <- Hs|done]). clear Hw.
  rewrite Ecs in *. clear Hs. clearbody scs. subst scs rest.
  destruct (evict_batch_prefix target policy es res m Hok Hp) as (es1 & es2 & -> & Hp2).
  exists es1. split; [rewrite Hp, Hp2; by rewrite app_assoc|]. intros e e' He He'. rewrite Hp2 in He'.
  apply elem_of_app in He' as [He'|He'].
  - rewrite fmap_app in Hss. apply (StronglySorted_app_1_elem_of candidate_rank_le _ _ (candidate_of policy e)
      (candidate_of policy e') Hss); by apply list_elem_of_fmap_2.
  - apply (Hw' (candidate_of policy e) (candidate_of policy e')); [|by apply list_elem_of_fmap_2].
    apply list_elem_of_fmap_2, elem_of_app. auto.
Qed.

Lemma evict_rounds_coldest fuel policy target m :
  flat_ok m → (0 ≤ target)%Z → coldest_gone policy m (evict_rounds fuel policy target m).2.
Proof.
  intros Hok Ht. revert m Hok. induction fuel as [|fuel IH]; intros m Hok; cbn [evict_rounds]; [apply coldest_gone_refl|].
  destruct (Z.leb_spec (stored_bytes m) target) as [_|Hgt]; [apply coldest_gone_refl|].
  pose proof (evict_batch_coldest policy target m Hok ltac:(lia)) as Hc.
  pose proof (evict_batch_shed 0 target
    (merge_sort candidate_rank_le (eviction_candidates_for_target m policy target)) m Hok) as Hs.
  destruct (merge_sort _ _) as [|c cs]; [apply coldest_gone_refl|].
  destruct (evict_batch target (c :: cs) m) as [b m1]. simpl in Hc, Hs. destruct b; [|done]. simpl.
  eapply coldest_gone_trans; [done|]. apply IH, Hs.
Qed.

(** ** The limit *)
Lemma eviction_target_le limit : (0 ≤ limit)%Z → (0 ≤ eviction_target_bytes limit ≤ limit)%Z.
Proof.
  intros Hl. unfold eviction_target_bytes, EXACT_EVICTION_LIMIT_BYTES, u64_saturating_sub. case_code; [lia|].
  pose proof (Z.div_pos limit 20). pose proof (Z.mul_div_le limit 20). lia.
Qed.

Lemma enforce_shed m (now_ms now' : Z) :
  flat_ok m → (now_ms ≤ now')%Z → shed now' m (enforce_memory_limit m now_ms).
Proof.
  intros Hok Hn. unfold enforce_memory_limit. destruct (memory_limit_bytes m) as [limit|]; [|by apply shed_refl].
  case_code; [by apply shed_refl|].
  set (m1 := if (0 <? ttl_entries m)%Z then _ else m). assert (shed now' m m1) as Hs.
  { unfold m1. case_code; [by apply maintenance_shed|by apply shed_refl]. }
  eapply shed_trans; [done|]. apply evict_to_target_shed, Hs.
Qed.

Definition limit_ok (limit : option Z) : Prop := match limit with Some l => (0 < l)%Z | None => True end.

(** With a policy, the limit holds afterwards. *)
Lemma enforce_limit m now_ms limit :
  flat_ok m → memory_limit_bytes m = Some limit → (0 < limit)%Z → eviction_policy m ≠ NoEviction →
  (stored_bytes (enforce_memory_limit m now_ms) ≤ limit)%Z.
Proof.
  intros Hok El Hl Hp. unfold enforce_memory_limit. rewrite El. case_code; [done|].
  set (m1 := if (0 <? ttl_entries m)%Z then _ else m). assert (shed now_ms m m1) as Hs.
  { unfold m1. case_code; [by apply maintenance_shed|by apply shed_refl]. }
  destruct (shed_config _ _ _ Hs) as [_ Ep]. pose proof (eviction_target_le limit ltac:(lia)).
  pose proof (evict_to_target_reaches (eviction_policy m1) (eviction_target_bytes limit) m1 (shed_ok _ _ _ Hs)) as Hr.
  rewrite Ep in Hr. specialize (Hr Hp ltac:(lia)). rewrite Ep. lia.
Qed.

(** Below the limit, or without a limit, nothing is removed; without a policy
    only expired entries are. *)
Lemma enforce_below m now_ms :
  match memory_limit_bytes m with Some limit => (stored_bytes m ≤ limit)%Z | None => True end →
  enforce_memory_limit m now_ms = m.
Proof.
  intros Hl. unfold enforce_memory_limit. destruct (memory_limit_bytes m) as [limit|]; [|done].
  by rewrite (proj2 (Z.leb_le _ _) Hl).
Qed.

Lemma enforce_no_policy m now_ms :
  flat_ok m → eviction_policy m = NoEviction → evictions (enforce_memory_limit m now_ms) = evictions m.
Proof.
  intros Hok Hp. unfold enforce_memory_limit. destruct (memory_limit_bytes m) as [limit|]; [|done].
  case_code; [done|]. pose proof (process_maintenance_spec m now_ms Hok) as Hs.
  destruct (process_maintenance m now_ms) as [n m']. destruct Hs as (_ & _ & Ev & (_ & Ep) & _).
  case_code; simpl; unfold evict_to_memory_target; rewrite bool_decide_eq_true_2 by congruence; done.
Qed.
End eviction.
