(* ===== verification/FlatRefine.v ===== *)
(** * The string key space refines a map from keys to entries

    [flat_spec] says what every request of a shard's string key space means on
    a plain map; [flat_step] runs the code.  [flat_step_refines] is the
    simulation: same answer, and a table whose contents are those of the map,
    less the expired entries a write swept and the entries it evicted, each of
    which is counted. *)

From S2P Require Import Prelude Deps Codec Snapshot Recovery FlatMap FlatMapProofs FlatEviction.

(** ** Requests *)
Inductive FlatRequest :=
  | RSet (key value : Bytes) (expire_at_ms : option Z)
  | RSetBytes (key value : Bytes) (governance : option Bytes) (expire_at_ms : option Z)
  | RSetLocal (key value : Bytes) (expire_at_ms : option Z)
  | RSetSlice (key value : Bytes) (expire_at_ms : option Z) (unique : bool)
  | RSetSliceNoTtl (key value : Bytes) (unique : bool)
  | RSetTagged (key value : Bytes) (expire_at_ms : option Z) (unique : bool)
  | RSetTaggedNoTtl (key value : Bytes) (unique : bool)
  | RTransform (key : Bytes) (clear_ttl : bool) (transform : option Bytes → Bytes + (Bytes * Bytes))
  | RUpdate (key : Bytes) (unique : bool) (update : Bytes → Bytes * Bytes)
  | RGet (key : Bytes)
  | RGetLocal (key : Bytes)
  | RGetEx (key : Bytes) (expire_at_ms : Z)
  | RKeepTtl (key : Bytes)
  | RExpireAt (key : Bytes)
  | RExists (key : Bytes)
  | RTtlSeconds (key : Bytes)
  | RTtlMillis (key : Bytes)
  | RPersist (key : Bytes)
  | RExpire (key : Bytes) (expire_at_ms : Z)
  | RDelete (key : Bytes)
  | RDeleteLocal (key : Bytes)
  | RRemove (key : Bytes)
  | RConfigure (limit : option Z) (policy : EvictionPolicy)
  | REvict (policy : EvictionPolicy)
  | RMaintenance
  | RBeginRead
  | REndRead.

Inductive FlatAnswer :=
  | AUnit
  | ABool (b : bool)
  | AInt (z : Z)
  | AValue (value : option Bytes)
  | ADeadline (expire_at_ms : option (option Z))
  | AResult (result : Bytes + Bytes).

(** ** The abstract map *)
Definition s_protected (s : StoredEntry) : bool :=
  match e_governance s with Some _ => true | None => false end.

Definition s_expired (s : StoredEntry) (now_ms : Z) : bool := deadline_passed (e_expire_at_ms s) now_ms.

Definition s_visible (s : StoredEntry) : option Bytes := if s_protected s then None else Some (e_value s).

Definition with_deadline (d : option Z) (s : StoredEntry) : StoredEntry :=
  mkEntry (e_key s) (e_value s) d (e_governance s).

(** Reads drop the entry of an expired key. *)
Definition purge (S : Entries) (key : Bytes) (now_ms : Z) : Entries :=
  match S !! key with
  | Some s => if s_expired s now_ms then delete key S else S
  | None => S
  end.

Definition s_ttl (S : Entries) (key : Bytes) (now_ms : Z) (units : Z → Z) : Z :=
  match purge S key now_ms !! key with
  | None => -2
  | Some s => match e_expire_at_ms s with None => -1 | Some at_ms => wrap_i64 (units (at_ms - now_ms)) end
  end%Z.

Definition flat_spec (S : Entries) (now_ms : Z) (r : FlatRequest) : FlatAnswer * Entries :=
  match r with
  | RSet key value d | RSetLocal key value d | RSetSlice key value d _ | RSetTagged key value d _ =>
      (AUnit, <[key := mkEntry key value d None]> S)
  | RSetBytes key value g d => (AUnit, <[key := mkEntry key value d g]> S)
  | RSetSliceNoTtl key value _ | RSetTaggedNoTtl key value _ => (AUnit, <[key := mkEntry key value None None]> S)
  | RTransform key clear_ttl f =>
      let S := purge S key now_ms in
      match f (S !! key ≫= s_visible) with
      | inl error => (AResult (inl error), S)
      | inr (result, value) =>
          let d := if clear_ttl : bool then None else S !! key ≫= e_expire_at_ms in
          (AResult (inr result), <[key := mkEntry key value d None]> S)
      end
  | RUpdate key unique f =>
      match S !! key with
      | Some s =>
          if negb (s_protected s) && negb (has_ttl (e_expire_at_ms s)) && unique then
            (AValue (Some (f (e_value s)).1), <[key := mkEntry key (f (e_value s)).2 None None]> S)
          else (AValue None, S)
      | None => (AValue None, S)
      end
  | RGet key | RGetLocal key =>
      let S := purge S key now_ms in (AValue (S !! key ≫= s_visible), S)
  | RGetEx key at_ms =>
      match S !! key with
      | Some s =>
          if s_protected s then (AValue None, S)
          else if s_expired s now_ms then (AValue None, delete key S)
          else (AValue (Some (e_value s)), <[key := with_deadline (Some at_ms) s]> S)
      | None => (AValue None, S)
      end
  | RKeepTtl key | RExpireAt key =>
      let S := purge S key now_ms in (ADeadline (e_expire_at_ms <$> S !! key), S)
  | RExists key =>
      let S := purge S key now_ms in
      (ABool (match S !! key ≫= s_visible with Some _ => true | None => false end), S)
  | RTtlSeconds key => (AInt (s_ttl S key now_ms (λ ms, div_ceil ms 1000)), purge S key now_ms)
  | RTtlMillis key => (AInt (s_ttl S key now_ms (λ ms, ms)), purge S key now_ms)
  | RPersist key =>
      let S := purge S key now_ms in
      match S !! key with
      | Some s => if has_ttl (e_expire_at_ms s) then (ABool true, <[key := with_deadline None s]> S)
                  else (ABool false, S)
      | None => (ABool false, S)
      end
  | RExpire key at_ms =>
      let S := purge S key now_ms in
      match S !! key with
      | Some s => (ABool true, <[key := with_deadline (Some at_ms) s]> S)
      | None => (ABool false, S)
      end
  | RDelete key | RDeleteLocal key => (ABool (bool_decide (is_Some (S !! key))), delete key S)
  | RRemove key => (AValue (purge S key now_ms !! key ≫= s_visible), delete key S)
  | RMaintenance => (AInt (Z.of_nat (size S - size (live_part now_ms S))), live_part now_ms S)
  | RConfigure _ _ | REvict _ | RBeginRead | REndRead => (AUnit, S)
  end.

(** The requests after which the memory limit is enforced, or that evict. *)
Definition sheds (r : FlatRequest) : bool :=
  match r with
  | RSet _ _ _ | RSetBytes _ _ _ _ | RSetLocal _ _ _ | RSetSlice _ _ _ _ | RSetSliceNoTtl _ _ _
  | RSetTagged _ _ _ _ | RTransform _ _ _ | RConfigure _ _ | REvict _ => true
  | _ => false
  end.

(** What the entry a request writes adds to the counters. *)
Definition s_weight (s : StoredEntry) : Z :=
  (1 + blen (e_key s) + blen (e_value s) + from_option blen 0 (e_governance s))%Z.

Definition request_weight (S : Entries) (now_ms : Z) (r : FlatRequest) : Z :=
  match r with
  | RSet key value d | RSetLocal key value d | RSetSlice key value d _ | RSetTagged key value d _ =>
      s_weight (mkEntry key value d None)
  | RSetBytes key value g d => s_weight (mkEntry key value d g)
  | RSetSliceNoTtl key value _ | RSetTaggedNoTtl key value _ => s_weight (mkEntry key value None None)
  | RTransform key _ f =>
      match f (purge S key now_ms !! key ≫= s_visible) with
      | inl _ => 0
      | inr (_, value) => s_weight (mkEntry key value None None)
      end
  | _ => 0
  end%Z.

Section refine.
Context `{Hashing} {HT : Type → Type} `{!HashTable HT}.
Abbreviation FlatMap := (FlatMap (HT := HT)).
Implicit Types (m : FlatMap) (key value : Bytes) (hash now_ms : Z) (e : FlatEntry).

(** ** The code *)
Definition flat_step m now_ms (r : FlatRequest) : FlatAnswer * FlatMap :=
  match r with
  | RSet key value d => (AUnit, set_hashed m (hash_key key) key value d now_ms)
  | RSetBytes key value g d =>
      (AUnit, set_bytes_hashed_with_governance_option m (hash_key key) key value g d now_ms)
  | RSetLocal key value d => (AUnit, set_hashed_local m (hash_key key) key value d now_ms)
  | RSetSlice key value d unique => (AUnit, set_slice_hashed m (hash_key key) key value d unique now_ms)
  | RSetSliceNoTtl key value unique => (AUnit, set_slice_hashed_no_ttl m (hash_key key) key value unique)
  | RSetTagged key value d unique => (AUnit, set_slice_hashed_local m (hash_key key) key value d unique now_ms)
  | RSetTaggedNoTtl key value unique =>
      (AUnit, set_slice_hashed_tagged_no_ttl_local m (hash_key key) (hash_key_tag_from_hash (hash_key key))
                key value unique)
  | RTransform key clear_ttl f =>
      let '(result, m) := transform_value_hashed m (hash_key key) key now_ms clear_ttl f in (AResult result, m)
  | RUpdate key unique f =>
      let '(result, m) := update_value_hashed_no_ttl m (hash_key key) key unique f in (AValue result, m)
  | RGet key => let '(value, m) := flat_get m key now_ms in (AValue value, m)
  | RGetLocal key => let '(value, m) := get_ref_hashed_local m (hash_key key) key now_ms in (AValue value, m)
  | RGetEx key at_ms =>
      let '(value, m) := get_value_bytes_hashed_and_expire m (hash_key key) key at_ms now_ms in (AValue value, m)
  | RKeepTtl key =>
      let '(d, m) := entry_expire_at_for_keep_ttl_hashed m (hash_key key) key now_ms in (ADeadline d, m)
  | RExpireAt key => let '(d, m) := entry_expire_at_hashed m (hash_key key) key now_ms in (ADeadline d, m)
  | RExists key => let '(b, m) := flat_exists m key now_ms in (ABool b, m)
  | RTtlSeconds key => let '(z, m) := ttl_seconds m key now_ms in (AInt z, m)
  | RTtlMillis key => let '(z, m) := ttl_millis m key now_ms in (AInt z, m)
  | RPersist key => let '(b, m) := persist m key now_ms in (ABool b, m)
  | RExpire key at_ms => let '(b, m) := expire m key at_ms now_ms in (ABool b, m)
  | RDelete key => let '(b, m) := flat_delete m key in (ABool b, m)
  | RDeleteLocal key => let '(b, m) := delete_hashed_local m (hash_key key) key in (ABool b, m)
  | RRemove key => let '(value, m) := remove_value_hashed m (hash_key key) key now_ms in (AValue value, m)
  | RConfigure limit policy => (AUnit, configure_memory_policy m limit policy now_ms)
  | REvict policy => (AUnit, (evict_with_policy m policy).2)
  | RMaintenance => let '(n, m) := process_maintenance m now_ms in (AInt n, m)
  | RBeginRead => (AUnit, begin_read_epoch m)
  | REndRead => (AUnit, end_read_epoch m)
  end.

(** The state [m'] stands for [S], and no counter grew by more than [w]. *)
Record exactly (S : Entries) (w : Z) m m' : Prop := {
  ex_ok : flat_ok m';
  ex_contents : contents m' = S;
  ex_evictions : evictions m' = evictions m;
  ex_budget : (budget m' ≤ budget m + w)%Z;
}.

(** The state [m'] stands for [S], less entries that had expired and entries
    that were evicted and counted. *)
Record refined now_ms (S : Entries) (w : Z) m m' : Prop := {
  re_ok : flat_ok m';
  re_sub : contents m' ⊆ S;
  re_live : (live_size now_ms S + evictions m ≤ live_size now_ms (contents m') + evictions m')%Z;
  re_evictions : (evictions m ≤ evictions m')%Z;
  re_budget : (budget m' ≤ budget m + w)%Z;
}.

Lemma exactly_refined now_ms S w m m' : exactly S w m m' → refined now_ms S w m m'.
Proof. intros [Hok <- Hev Hb]. split; done || lia. Qed.

Lemma exactly_shed now_ms S w m m1 m2 : exactly S w m m1 → shed now_ms m1 m2 → refined now_ms S w m m2.
Proof. intros [? <- ? ?] [? ? ? ? (? & _) ?]. split; [done|done|lia..]. Qed.

Lemma exactly_tidy S w m m1 m2 : exactly S w m m1 → tidy m1 m2 → exactly S w m m2.
Proof.
  intros [? <- Ev ?] Ht. pose proof (tidy_budget _ _ Ht). split; [by eapply tidy_ok|by apply tidy_contents| |lia].
  destruct Ht as [(_&_&_&->&_) _]. done.
Qed.

Lemma tidy_exactly S w m m1 m2 : tidy m m1 → exactly S w m1 m2 → exactly S w m m2.
Proof.
  intros Ht []. pose proof (tidy_budget _ _ Ht). destruct Ht as [(_&_&_&E&_) _]. split; [done|done|congruence|lia].
Qed.

(** ** Lookups *)
Lemma lookup_found m key e :
  table_ok m → find_key m (hash_key key) key = Some e → contents m !! key = Some (stored_entry e).
Proof. intros Hok Hf. by rewrite contents_lookup, Hf. Qed.

Lemma lookup_missing m key :
  table_ok m → find_key m (hash_key key) key = None → contents m !! key = None.
Proof. intros Hok Hf. by rewrite contents_lookup, Hf. Qed.

Lemma find_readable_spec m key :
  table_ok m →
  find_readable m (hash_key key) key =
  e ← find_key m (hash_key key) key; if is_protected e then None else Some e.
Proof.
  intros Hok. destruct (find_key m (hash_key key) key) as [e|] eqn:Hf; simpl.
  - destruct (find_key_Some _ _ _ _ Hf) as (He & Hh & Hk).
    destruct (find_readable m (hash_key key) key) as [e'|] eqn:Hr.
    + apply ht_find_elem in Hr as [Hm He']. unfold matches_readable in Hm. bool_case.
      apply matches_hashed_key_true in H1 as [_ Hk']. rewrite <- Hk' in Hk.
      rewrite (table_ok_unique m e e' Hok He He' Hk). by rewrite H0.
    + destruct (elem_placed m e Hok He) as [Hin _]. rewrite Hh in Hin.
      pose proof (ht_find_None _ _ _ _ Hr Hin) as Hm. unfold matches_readable in Hm.
      rewrite (proj2 (matches_hashed_key_true _ _ _) (conj Hh Hk)) in Hm.
      destruct (is_protected e); [done|]. by simpl in Hm.
  - destruct (find_readable m (hash_key key) key) as [e'|] eqn:Hr; [|done].
    apply ht_find_elem in Hr as [Hm He']. unfold matches_readable in Hm. bool_case.
    apply matches_hashed_key_true in H1 as [_ Hk']. by destruct (find_key_None m key e' Hok Hf He').
Qed.

Lemma readable_visible m key :
  table_ok m → fe_value <$> find_readable m (hash_key key) key = contents m !! key ≫= s_visible.
Proof.
  intros Hok. rewrite find_readable_spec, contents_lookup by done.
  destruct (find_key m (hash_key key) key) as [e|]; [|done]. simpl. unfold s_visible, s_protected, is_protected. simpl.
  by destruct (fe_governance e).
Qed.

Lemma expired_lookup m key now_ms :
  table_ok m →
  entry_is_expired_hashed m (hash_key key) key now_ms =
  match contents m !! key with Some s => s_expired s now_ms | None => false end.
Proof.
  intros Hok. unfold entry_is_expired_hashed. rewrite contents_lookup by done.
  by destruct (find_key m (hash_key key) key).
Qed.

Lemma no_ttl_not_expired m key now_ms :
  table_ok m → ttl_entries m = 0%Z → entry_is_expired_hashed m (hash_key key) key now_ms = false.
Proof.
  intros Hok Ht. unfold entry_is_expired_hashed. destruct (find_key m (hash_key key) key) as [e|] eqn:Hf; [|done].
  apply find_key_Some in Hf as (He & _). pose proof (ttl_le m e Hok He) as Hle.
  unfold ttl_of, is_expired, deadline_passed in *. destruct (fe_expire_at_ms e); simpl in *; [lia|done].
Qed.

(** The test [ttl_entries != 0 && expired] is the test [expired]. *)
Lemma ttl_guard m key now_ms :
  table_ok m →
  negb (ttl_entries m =? 0)%Z && entry_is_expired_hashed m (hash_key key) key now_ms =
  entry_is_expired_hashed m (hash_key key) key now_ms.
Proof.
  intros Hok. destruct (Z.eqb_spec (ttl_entries m) 0) as [E|]; [|done]. simpl. by rewrite no_ttl_not_expired.
Qed.

Lemma purge_expired m key now_ms :
  table_ok m →
  purge (contents m) key now_ms =
  if entry_is_expired_hashed m (hash_key key) key now_ms then delete key (contents m) else contents m.
Proof. intros Hok. unfold purge. rewrite expired_lookup by done. by destruct (contents m !! key). Qed.

(** ** Deletions *)
Lemma delete_expired_exactly m key now_ms w :
  flat_ok m → (0 ≤ w)%Z →
  exactly (delete key (contents m)) w m (delete_hashed_internal m (hash_key key) key Expired).2.
Proof.
  intros Hok Hw. destruct (flat_delete_expired_spec m key Hok) as (Hok' & Ec & Ev & _ & (Hb & _)).
  apply Build_exactly; try done. lia.
Qed.

Lemma same_exactly m : flat_ok m → exactly (contents m) 0 m m.
Proof. intros. apply Build_exactly; done || lia. Qed.

Lemma drop_exactly reason e m m' now_ms :
  flat_ok m → dropped reason e m m' → reason ≠ Evicted → exactly (delete (fe_key e) (contents m)) 0 m m'.
Proof.
  intros [Hok _] Hd Hr. destruct (dropped_contents _ _ _ _ Hok Hd) as [Ec _].
  destruct (dropped_lighter _ _ _ _ Hok Hd) as (Hb & _). destruct Hd as (_ & _ & Hok' & Hev & _).
  rewrite bool_decide_eq_false_2, Z.add_0_r in Hev by done. apply Build_exactly; try done. lia.
Qed.

Lemma delete_answer m key :
  flat_ok m → (flat_delete m key).1 = bool_decide (is_Some (contents m !! key)).
Proof.
  intros Hok. unfold flat_delete, delete_hashed. pose proof (delete_internal_spec m (hash_key key) key Explicit Hok) as Hd.
  rewrite contents_lookup by apply Hok. by destruct (find_key m (hash_key key) key); destruct Hd as [-> _].
Qed.

Lemma delete_exactly m key now_ms reason :
  flat_ok m → reason ≠ Evicted →
  exactly (delete key (contents m)) 0 m (delete_hashed_internal m (hash_key key) key reason).2.
Proof.
  intros Hok Hr. pose proof (delete_internal_spec m (hash_key key) key reason Hok) as Hd.
  destruct (find_key m (hash_key key) key) as [e|] eqn:Hf.
  - destruct Hd as [_ Hd]. apply find_key_Some in Hf as (_ & _ & <-). by eapply drop_exactly.
  - destruct Hd as [_ Ht]. rewrite delete_id by by apply lookup_missing; [apply Hok|].
    eapply exactly_tidy; [by apply same_exactly|done].
Qed.

Lemma delete_local_exactly m key now_ms reason :
  flat_ok m → reason ≠ Evicted →
  exactly (delete key (contents m)) 0 m (delete_hashed_local_internal m (hash_key key) key reason).2 ∧
  (delete_hashed_local_internal m (hash_key key) key reason).1 = bool_decide (is_Some (contents m !! key)).
Proof.
  intros Hok Hr. pose proof (delete_local_spec m (hash_key key) key reason Hok) as Hd.
  rewrite contents_lookup by apply Hok. destruct (find_key m (hash_key key) key) as [e|] eqn:Hf; simpl.
  - destruct Hd as [-> Hd]. apply find_key_Some in Hf as (_ & _ & <-).
    split; [by eapply drop_exactly|done].
  - rewrite Hd. simpl. rewrite delete_id by by apply lookup_missing; [apply Hok|].
    split; [by apply same_exactly|done].
Qed.

(** ** Writes *)
Lemma s_weight_entry e : fe_semantic e = None → weight e = s_weight (stored_entry e).
Proof. intros Hs. unfold weight, ebytes, s_weight. rewrite Hs. simpl. lia. Qed.

Lemma written_exactly key old new m m' now_ms :
  flat_ok m → written key old new m m' → fe_semantic new = None →
  exactly (<[key := stored_entry new]> (contents m)) (s_weight (stored_entry new)) m m'.
Proof.
  intros Hok Hw Hs. pose proof (written_budget _ _ _ _ _ Hok Hw). rewrite <- s_weight_entry by done.
  pose proof (written_contents _ _ _ _ _ Hok Hw). destruct Hw as (_ & ? & ? & _). by apply Build_exactly.
Qed.

(** The rewriting a write does in the occupied arm. *)
Lemma rewrite_keeps_place value gov acc dl :
  keeps_place (λ e, rewrite_entry e value (gov e) (acc e) (dl e)).
Proof. intros e. by repeat split. Qed.

Lemma upsert_exactly m key account value gov acc dl fresh now_ms s :
  flat_ok m → accounts account → fe_key fresh = key → fe_hash fresh = hash_key key → fe_semantic fresh = None →
  (find_key m (hash_key key) key = None → stored_entry fresh = s) →
  (∀ e, find_key m (hash_key key) key = Some e → stored_entry (rewrite_entry e value (gov e) (acc e) (dl e)) = s) →
  (budget m + s_weight s ≤ u64_MAX)%Z →
  let r := upsert m (hash_key key) key account (λ e, rewrite_entry e value (gov e) (acc e) (dl e)) fresh in
  r.1 = find_key m (hash_key key) key ∧ exactly (<[key := s]> (contents m)) (s_weight s) m r.2 ∧
  same_config m r.2.
Proof.
  intros Hok Ha Hk Hh Hs Ef Eu Hb.
  set (upd := λ e, rewrite_entry e value (gov e) (acc e) (dl e)).
  assert (stored_entry (upserted m key upd fresh) = s ∧ fe_semantic (upserted m key upd fresh) = None) as [E1 E2].
  { unfold upserted. destruct (find_key m (hash_key key) key) as [e|] eqn:Hf; [split; [by apply Eu|done]|auto]. }
  destruct (upsert_spec m key account upd fresh Hok Ha (rewrite_keeps_place _ _ _ _)) as [Ho Hw]; try done.
  { by rewrite s_weight_entry, E1. }
  split; [done|]. rewrite <- E1. split; [by eapply written_exactly|]. apply Hw.
Qed.

Lemma retire_replaced_tidy m old : tidy m (retire_replaced m old).
Proof. destruct old; simpl; [apply retire_value_tidy|done]. Qed.

Lemma with_buffers_tidy m retired p : (pool_ok (pool m) → pool_ok p) → tidy m (with_buffers m retired p).
Proof. done. Qed.

Lemma slice_buffers_tidy m unique reuse readers old value : tidy m (slice_buffers m unique reuse readers old value).
Proof.
  unfold slice_buffers. set (taken := if reuse then _ else _).
  assert (pool_ok (pool m) → pool_ok taken) as Ht.
  { unfold taken. destruct reuse; [apply take_from_pool_ok|done]. }
  destruct old as [e|]; [|by apply with_buffers_tidy]. case_code; [|done].
  assert (tidy m (with_buffers m (retired_values m) taken)) as Hm by by apply with_buffers_tidy.
  etrans; [exact Hm|]. destruct readers; [apply retire_value_tidy|].
  destruct reuse; [apply with_buffers_tidy, recycle_into_pool_ok|apply recycle_value_tidy].
Qed.

(** A write of [s] under [key], up to and with the enforcement of the limit. *)
Definition wrote key (s : StoredEntry) now_ms m m' : Prop :=
  ∃ m1 now0, exactly (<[key := s]> (contents m)) (s_weight s) m m1 ∧ same_config m m1 ∧
             (now0 ≤ now_ms)%Z ∧ m' = enforce_memory_limit m1 now0.

Lemma wrote_refined key s now_ms m m' :
  wrote key s now_ms m m' → refined now_ms (<[key := s]> (contents m)) (s_weight s) m m'.
Proof.
  intros (m1 & now0 & Hr & _ & Hn & ->). eapply exactly_shed; [done|]. apply enforce_shed; [apply Hr|done].
Qed.

Section writes.
Context (m : FlatMap) (key value : Bytes) (now_ms : Z).
Context (Hok : flat_ok m).

(** The common start of a write. *)
Lemma write_start (m0 : FlatMap) :
  tidy m m0 → let m1 := (touch_for_write m0 (hash_key key)).2 in
  tidy m m1 ∧ flat_ok m1 ∧ contents m1 = contents m ∧ budget m1 = budget m ∧ same_config m m1.
Proof.
  intros Ht m1. assert (tidy m m1) as Ht1 by (etrans; [exact Ht|apply touch_for_write_tidy]).
  split; [done|]. split; [by eapply tidy_ok|]. split; [by apply tidy_contents|].
  split; [by apply tidy_budget|by apply tidy_config].
Qed.

(** The common middle: the entry goes in, and the buffers are put away. *)
Lemma write_upsert (m0 m1 : FlatMap) tick account gov acc dl tag s (finish : option FlatEntry → FlatMap → FlatMap) :
  tidy m m0 → touch_for_write m0 (hash_key key) = (tick, m1) → accounts account →
  s = mkEntry key value dl gov → (∀ old m', tidy m' (finish old m')) →
  (budget m + s_weight s ≤ u64_MAX)%Z →
  let r := upsert m1 (hash_key key) key account (λ e, rewrite_entry e value gov (acc e) dl)
             (new_entry (hash_key key) tag key value gov dl tick) in
  exactly (<[key := s]> (contents m)) (s_weight s) m (finish r.1 r.2) ∧ same_config m (finish r.1 r.2).
Proof.
  intros Ht E Ha -> Hfin Hb. destruct (write_start m0 Ht) as (Ht1 & Hok1 & Ec & Eb & Hc). rewrite E in *. simpl in *.
  destruct (upsert_exactly m1 key account value (λ _, gov) acc (λ _, dl)
    (new_entry (hash_key key) tag key value gov dl tick) now_ms (mkEntry key value dl gov))
    as (_ & Hr & Hc2); try done.
  { intros e (_ & _ & <-)%find_key_Some. done. }
  { by rewrite Eb. }
  rewrite <- Ec. split; [eapply tidy_exactly; [done|]; eapply exactly_tidy; [done|apply Hfin]|].
  etrans; [done|]. etrans; [done|]. apply tidy_config, Hfin.
Qed.

Lemma set_bytes_wrote gov dl :
  (budget m + s_weight (mkEntry key value dl gov) ≤ u64_MAX)%Z →
  wrote key (mkEntry key value dl gov) now_ms m
    (set_bytes_hashed_with_governance_option m (hash_key key) key value gov dl now_ms).
Proof.
  intros Hb. unfold set_bytes_hashed_with_governance_option.
  destruct (touch_for_write (reclaim_retired_if_quiescent m) (hash_key key)) as [tick m1] eqn:E.
  pose proof (write_upsert _ m1 tick replace_bytes gov (λ e, record_access (fe_access e) tick) dl
    (hash_key_tag_from_hash (hash_key key)) _ (λ old m', retire_replaced m' old)
    (reclaim_tidy m) E replace_bytes_accounts eq_refl (λ _ _, retire_replaced_tidy _ _) Hb) as [Hr Hc].
  destruct (upsert _ _ _ _ _ _) as [old m2]. exists (retire_replaced m2 old), now_ms. done.
Qed.

Lemma set_hashed_wrote dl :
  (budget m + s_weight (mkEntry key value dl None) ≤ u64_MAX)%Z →
  wrote key (mkEntry key value dl None) now_ms m (set_hashed m (hash_key key) key value dl now_ms).
Proof. apply (set_bytes_wrote None dl). Qed.

Lemma set_hashed_local_wrote dl :
  (budget m + s_weight (mkEntry key value dl None) ≤ u64_MAX)%Z →
  wrote key (mkEntry key value dl None) now_ms m (set_hashed_local m (hash_key key) key value dl now_ms).
Proof.
  intros Hb. unfold set_hashed_local. destruct (touch_for_write m (hash_key key)) as [tick m1] eqn:E.
  pose proof (write_upsert m m1 tick replace_bytes None (λ e, record_access (fe_access e) tick) dl
    (hash_key_tag_from_hash (hash_key key)) _ (λ _ m', m')
    (reflexivity m) E replace_bytes_accounts eq_refl (λ _ m', reflexivity m') Hb) as [Hr Hc].
  destruct (upsert _ _ _ _ _ _) as [old m2]. exists m2, now_ms. done.
Qed.

Lemma write_slice_exactly tag dl unique :
  (budget m + s_weight (mkEntry key value dl None) ≤ u64_MAX)%Z →
  exactly (<[key := mkEntry key value dl None]> (contents m)) (s_weight (mkEntry key value dl None)) m
    (write_slice m (hash_key key) tag key value dl unique) ∧
  same_config m (write_slice m (hash_key key) tag key value dl unique).
Proof.
  intros Hb. unfold write_slice. set (should := negb _). set (readers := has_active_readers _).
  destruct (touch_for_write (reclaim_retired_if_quiescent m) (hash_key key)) as [tick m1] eqn:E.
  pose proof (write_upsert _ m1 tick replace_bytes_if_changed None (λ e, touch_access should tick (fe_access e)) dl
    tag _ (λ old m', slice_buffers m' unique (reuses_values m1 value) readers old value)
    (reclaim_tidy m) E replace_bytes_if_changed_accounts eq_refl (λ _ _, slice_buffers_tidy _ _ _ _ _ _) Hb) as [Hr Hc].
  by destruct (upsert _ _ _ _ _ _) as [old m2].
Qed.

Lemma set_slice_wrote dl unique :
  (budget m + s_weight (mkEntry key value dl None) ≤ u64_MAX)%Z →
  wrote key (mkEntry key value dl None) now_ms m (set_slice_hashed m (hash_key key) key value dl unique now_ms).
Proof.
  intros Hb. destruct (write_slice_exactly (hash_key_tag_from_hash (hash_key key)) dl unique Hb).
  by eexists _, now_ms.
Qed.

Lemma set_slice_no_ttl_wrote unique :
  (0 ≤ now_ms)%Z → (budget m + s_weight (mkEntry key value None None) ≤ u64_MAX)%Z →
  wrote key (mkEntry key value None None) now_ms m (set_slice_hashed_no_ttl m (hash_key key) key value unique).
Proof.
  intros Hn Hb. destruct (write_slice_exactly (hash_key_tag_from_hash (hash_key key)) None unique Hb).
  by eexists _, 0%Z.
Qed.

Lemma set_tagged_wrote dl unique :
  (budget m + s_weight (mkEntry key value dl None) ≤ u64_MAX)%Z →
  wrote key (mkEntry key value dl None) now_ms m (set_slice_hashed_local m (hash_key key) key value dl unique now_ms).
Proof.
  intros Hb. unfold set_slice_hashed_local, set_slice_hashed_tagged_local.
  set (should := negb _). set (readers := has_active_readers _).
  destruct (touch_for_write (reclaim_retired_if_quiescent m) (hash_key key)) as [tick m1] eqn:E.
  set (fin := λ (old : option FlatEntry) (m' : FlatMap),
    match old with
    | Some e => if (length (fe_value e) =? length value) && negb readers && unique then m'
                else retire_value m' (fe_value e)
    | None => m'
    end).
  assert (∀ old m', tidy m' (fin old m')) as Hfin.
  { intros [e|] m'; simpl; [|done]. destruct (_ && _); [done|apply retire_value_tidy]. }
  pose proof (write_upsert _ m1 tick replace_bytes_if_changed None (λ e, touch_access should tick (fe_access e)) dl
    (hash_key_tag_from_hash (hash_key key)) _ fin
    (reclaim_tidy m) E replace_bytes_if_changed_accounts eq_refl Hfin Hb) as [Hr Hc].
  destruct (upsert _ _ _ _ _ _) as [old m2]. exists (fin old m2), now_ms. done.
Qed.
End writes.

(** ** In-place changes *)
Lemma exactly_after S w m m1 m2 :
  evictions m1 = evictions m → (budget m1 ≤ budget m)%Z → exactly S w m1 m2 → exactly S w m m2.
Proof. intros Ev Hb []. split; [done|done|lia..]. Qed.

Lemma update_same_bytes m hash p f e :
  flat_ok m → keeps_place f → ht_find (entries m) (local_table_hash hash) p = Some e →
  ebytes (f e) = ebytes e → ttl_of (f e) = ttl_of e →
  let m' := with_entries m (ht_update (entries m) (local_table_hash hash) p f) in
  flat_ok m' ∧ contents m' = <[fe_key e := stored_entry (f e)]> (contents m) ∧ budget m' = budget m.
Proof.
  intros [Hok Hp] Hf He Eb Et m'. pose proof (update_exchanged m hash p f e Hok Hf He) as Hx. fold m' in Hx.
  destruct (exchanged_contents _ _ _ _ _ Hok Hx) as [Ec _]. pose proof (exchanged_sum weight _ _ _ _ _ Hx) as Ew.
  unfold sum_opt, weight in Ew. simpl in Ew. fold weight in Ew. rewrite Eb in Ew.
  assert (budget m' = budget m) as Ebud by (unfold budget; simpl; lia).
  split; [|done]. split; [|done]. eapply exchanged_ok; [done|done|..]; unfold sum_opt; simpl.
  - rewrite Eb. lia.
  - rewrite Et. lia.
  - by apply ok_evictions.
  - unfold weight at 2 3. rewrite Eb. pose proof (ok_budget m Hok). lia.
Qed.

Lemma touch_keeps_place tick : keeps_place (touch_entry tick).
Proof. intros e. by repeat split. Qed.

Lemma lookup_lazy_spec m key p now_ms :
  flat_ok m →
  (lookup_lazy m (hash_key key) p).1 = fe_value <$> ht_find (entries m) (local_table_hash (hash_key key)) p ∧
  exactly (contents m) 0 m (lookup_lazy m (hash_key key) p).2.
Proof.
  intros Hok. unfold lookup_lazy. pose proof (should_sample_read_tidy m) as Ht.
  destruct (should_sample_read m) as [sampled m1]. simpl in Ht.
  assert (tidy m (if sampled then next_access_tick m1 else (0%Z, m1)).2) as Ht2.
  { destruct sampled; [|done]. etrans; [done|]. apply with_access_tidy. }
  destruct (if sampled then next_access_tick m1 else (0%Z, m1)) as [tick m2]. simpl in Ht2. clear Ht.
  pose proof (tidy_ok _ _ Ht2 Hok) as Hok2. pose proof (tidy_contents _ _ Ht2) as Ec.
  assert (entries m2 = entries m) as Ee by by destruct Ht2 as [(?&_) _].
  rewrite Ee. split; [done|]. simpl. assert (exactly (contents m) 0 m m2) as Hr.
  { eapply exactly_tidy; [by apply same_exactly|done]. }
  destruct (tick =? 0)%Z; [done|].
  destruct (ht_find (entries m) (local_table_hash (hash_key key)) p) as [e|] eqn:Hf; [|done]. rewrite <- Ee in Hf |- *.
  destruct (update_same_bytes m2 _ _ (touch_entry tick) e Hok2 (touch_keeps_place tick) Hf eq_refl eq_refl)
    as (Hok3 & Ec3 & Eb3). eapply tidy_exactly; [done|]. apply Build_exactly; [done| |done|lia].
  rewrite Ec3, Ec. change (stored_entry (touch_entry tick e)) with (stored_entry e). apply insert_id.
  rewrite <- Ec. apply entry_map_elem; [apply ok_keys, Hok2|].
  by apply ht_find_elem in Hf as [_ ?].
Qed.

Lemma set_deadline_keeps_place d : keeps_place (set_deadline d).
Proof. intros e. by repeat split. Qed.

Lemma update_deadline_exactly m hash p e d now_ms :
  flat_ok m → ht_find (entries m) (local_table_hash hash) p = Some e →
  exactly (<[fe_key e := with_deadline d (stored_entry e)]> (contents m)) 0 m
    (adjust_ttl_count (with_entries m (ht_update (entries m) (local_table_hash hash) p (set_deadline d)))
       (has_ttl (fe_expire_at_ms e)) (has_ttl d)).
Proof.
  intros [Hok Hp] Hf. pose proof (update_exchanged m hash p _ e Hok (set_deadline_keeps_place d) Hf) as Hx.
  set (m1 := with_entries m _) in *. destruct (exchanged_contents _ _ _ _ _ Hok Hx) as [Ec _].
  apply ht_find_elem in Hf as [_ He]. pose proof (ttl_bound m Hok). pose proof (ttl_le m e Hok He) as Hle.
  pose proof (ok_budget m Hok). pose proof (ok_evictions m Hok). pose proof (weight_le m e Hok He).
  pose proof (exchanged_sum weight _ _ _ _ _ Hx) as Ew.
  assert (sum_opt weight (Some (set_deadline d e)) = sum_opt weight (Some e)) as Ewe by done.
  rewrite adjust_ttl_exact; [|simpl; lia|intros; by apply (ttl_room m e)|].
  2:{ intros Ht. unfold ttl_of in Hle. rewrite Ht in Hle. done. }
  apply Build_exactly; [|done|done|].
  2:{ change (budget m1 ≤ budget m + 0)%Z. unfold budget. change (evictions m1) with (evictions m). lia. }
  split; [|done]. eapply exchanged_ok; [done|done|..]; simpl.
  - unfold ebytes. simpl. lia.
  - unfold ttl_of. simpl. destruct (has_ttl (fe_expire_at_ms e)), (has_ttl d); lia.
  - done.
  - change (sum_of weight (flat_entries m) - weight e + weight e + evictions m ≤ u64_MAX)%Z. lia.
Qed.

(** ** Requests, one by one

    [means m now_ms r] is the simulation for one request: the writes that
    enforce the limit may shed entries, everything else is exact. *)
Definition means m now_ms (r : FlatRequest) : Prop :=
  let '(answer, m') := flat_step m now_ms r in
  let '(answer', S') := flat_spec (contents m) now_ms r in
  answer = answer' ∧
  if sheds r then refined now_ms S' (request_weight (contents m) now_ms r) m m'
  else exactly S' (request_weight (contents m) now_ms r) m m'.

Lemma purged_lookup m key now_ms :
  table_ok m → entry_is_expired_hashed m (hash_key key) key now_ms = true →
  purge (contents m) key now_ms !! key = None.
Proof. intros Hok E. rewrite purge_expired, E by done. apply lookup_delete_eq. Qed.

Lemma lookup_exactly m key now_ms :
  flat_ok m → entry_is_expired_hashed m (hash_key key) key now_ms = false →
  (lookup_ref_hashed_lazy m (hash_key key) key).1 = purge (contents m) key now_ms !! key ≫= s_visible ∧
  exactly (purge (contents m) key now_ms) 0 m (lookup_ref_hashed_lazy m (hash_key key) key).2.
Proof.
  intros Hok E. rewrite purge_expired, E by apply Hok.
  destruct (lookup_lazy_spec m key (matches_readable (hash_key key) key) now_ms Hok) as [Ha Hr].
  split; [|done]. unfold lookup_ref_hashed_lazy. rewrite Ha. apply readable_visible, Hok.
Qed.

Lemma get_means m key now_ms : flat_ok m → means m now_ms (RGet key).
Proof.
  intros Hok. unfold means. simpl. unfold flat_get, get_ref_hashed.
  destruct (entry_is_expired_hashed m (hash_key key) key now_ms) eqn:E.
  - destruct (Z.eqb_spec (ttl_entries m) 0) as [Et|]; [by rewrite (no_ttl_not_expired m key now_ms (proj1 Hok) Et) in E|].
    rewrite purged_lookup by (apply Hok || done). simpl. split; [done|].
    rewrite purge_expired, E by apply Hok. by apply delete_expired_exactly.
  - destruct (lookup_exactly m key now_ms Hok E) as [Ha Hr].
    destruct (ttl_entries m =? 0)%Z; destruct (lookup_ref_hashed_lazy m (hash_key key) key); simpl in *;
      by rewrite Ha.
Qed.

Lemma get_local_means m key now_ms : flat_ok m → means m now_ms (RGetLocal key).
Proof.
  intros Hok. unfold means. simpl. unfold get_ref_hashed_local.
  destruct (entry_is_expired_hashed m (hash_key key) key now_ms) eqn:E.
  - destruct (Z.eqb_spec (ttl_entries m) 0) as [Et|]; [by rewrite (no_ttl_not_expired m key now_ms (proj1 Hok) Et) in E|].
    rewrite purged_lookup by (apply Hok || done). simpl. split; [done|].
    rewrite purge_expired, E by apply Hok. by apply delete_local_exactly.
  - destruct (lookup_exactly m key now_ms Hok E) as [Ha Hr].
    destruct (ttl_entries m =? 0)%Z; destruct (lookup_ref_hashed_lazy m (hash_key key) key); simpl in *;
      by rewrite Ha.
Qed.

Lemma exists_means m key now_ms : flat_ok m → means m now_ms (RExists key).
Proof.
  intros Hok. unfold means. simpl. unfold flat_exists. rewrite ttl_guard by apply Hok.
  destruct (entry_is_expired_hashed m (hash_key key) key now_ms) eqn:E.
  - rewrite purged_lookup by (apply Hok || done). simpl. split; [done|].
    rewrite purge_expired, E by apply Hok. by apply delete_expired_exactly.
  - rewrite purge_expired, E by apply Hok. simpl. split; [|by apply same_exactly].
    rewrite <- readable_visible by apply Hok. by destruct (find_readable m (hash_key key) key).
Qed.

Lemma keep_ttl_means m key now_ms : flat_ok m → means m now_ms (RKeepTtl key).
Proof.
  intros Hok. unfold means. simpl. unfold entry_expire_at_for_keep_ttl_hashed, purge.
  rewrite contents_lookup by apply Hok. destruct (find_key m (hash_key key) key) as [e|] eqn:Hf; simpl.
  - unfold s_expired, is_expired. simpl. destruct (deadline_passed (fe_expire_at_ms e) now_ms); simpl.
    + rewrite lookup_delete_eq. split; [done|]. by apply delete_expired_exactly.
    + rewrite (lookup_found m key e) by (apply Hok || done). split; [done|]. by apply same_exactly.
  - rewrite (lookup_missing m key) by (apply Hok || done). split; [done|]. by apply same_exactly.
Qed.

Lemma expire_at_means m key now_ms : flat_ok m → means m now_ms (RExpireAt key).
Proof.
  intros Hok. unfold means. simpl. unfold entry_expire_at_hashed.
  assert (ADeadline (fe_expire_at_ms <$> find_key m (hash_key key) key) =
          ADeadline (e_expire_at_ms <$> contents m !! key)) as Hd.
  { rewrite contents_lookup by apply Hok. by destruct (find_key m (hash_key key) key). }
  destruct (entry_is_expired_hashed m (hash_key key) key now_ms) eqn:E.
  - destruct (Z.eqb_spec (ttl_entries m) 0) as [Et|]; [by rewrite (no_ttl_not_expired m key now_ms (proj1 Hok) Et) in E|].
    rewrite purged_lookup by (apply Hok || done). simpl. split; [done|].
    rewrite purge_expired, E by apply Hok. by apply delete_expired_exactly.
  - rewrite purge_expired, E by apply Hok. destruct (ttl_entries m =? 0)%Z; (split; [done|by apply same_exactly]).
Qed.

Lemma ttl_with_means m key now_ms units :
  flat_ok m → (ttl_with m key now_ms units).1 = s_ttl (contents m) key now_ms units ∧
  exactly (purge (contents m) key now_ms) 0 m (ttl_with m key now_ms units).2.
Proof.
  intros Hok. unfold ttl_with, s_ttl. rewrite purge_expired by apply Hok. unfold entry_is_expired_hashed.
  destruct (find_key m (hash_key key) key) as [e|] eqn:Hf.
  - unfold is_expired, deadline_passed. destruct (fe_expire_at_ms e) as [d|] eqn:Ed.
    + destruct (Z.leb_spec d now_ms) as [Hle|Hgt].
      * rewrite lookup_delete_eq. split; [done|]. by apply delete_expired_exactly.
      * rewrite (lookup_found m key e) by (apply Hok || done). simpl. rewrite Ed.
        rewrite u64_saturating_sub_exact by lia. split; [done|]. by apply same_exactly.
    + rewrite (lookup_found m key e) by (apply Hok || done). simpl. rewrite Ed. split; [done|]. by apply same_exactly.
  - rewrite (lookup_missing m key) by (apply Hok || done). split; [done|]. by apply same_exactly.
Qed.

Lemma ttl_means m key now_ms :
  flat_ok m → means m now_ms (RTtlSeconds key) ∧ means m now_ms (RTtlMillis key).
Proof.
  intros Hok. unfold means. simpl. unfold ttl_seconds, ttl_millis.
  destruct (ttl_with_means m key now_ms (λ ms, div_ceil ms 1000) Hok) as [H1 H2].
  destruct (ttl_with_means m key now_ms (λ ms, ms) Hok) as [H3 H4].
  destruct (ttl_with m key now_ms (λ ms, div_ceil ms 1000)), (ttl_with m key now_ms (λ ms, ms)). simpl in *.
  by rewrite H1, H3.
Qed.

(** PERSIST and EXPIRE on a key that is not expired. *)
Lemma redeadline_exactly m key e d now_ms :
  flat_ok m → find_key m (hash_key key) key = Some e →
  exactly (<[key := with_deadline d (stored_entry e)]> (contents m)) 0 m
    (adjust_ttl_count (update_key m (hash_key key) key (set_deadline d)) (has_ttl (fe_expire_at_ms e)) (has_ttl d)).
Proof.
  intros Hok Hf. pose proof (find_key_Some _ _ _ _ Hf) as (_ & _ & Hk).
  pose proof (update_deadline_exactly m _ _ e d now_ms Hok Hf) as Hr. by rewrite Hk in Hr.
Qed.

Lemma persist_means m key now_ms : flat_ok m → means m now_ms (RPersist key).
Proof.
  intros Hok. unfold means. simpl. unfold persist.
  destruct (entry_is_expired_hashed m (hash_key key) key now_ms) eqn:E.
  - rewrite purged_lookup by (apply Hok || done). simpl. split; [done|].
    rewrite purge_expired, E by apply Hok. by apply delete_exactly.
  - rewrite purge_expired, E by apply Hok. rewrite contents_lookup by apply Hok.
    destruct (find_key m (hash_key key) key) as [e|] eqn:Hf; simpl; [|split; [done|by apply same_exactly]].
    destruct (has_ttl (fe_expire_at_ms e)) eqn:Ht; [|split; [done|by apply same_exactly]].
    split; [done|]. pose proof (redeadline_exactly m key e None now_ms Hok Hf) as Hr. by rewrite Ht in Hr.
Qed.

Lemma expire_means m key at_ms now_ms : flat_ok m → means m now_ms (RExpire key at_ms).
Proof.
  intros Hok. unfold means. simpl. unfold expire.
  destruct (entry_is_expired_hashed m (hash_key key) key now_ms) eqn:E.
  - rewrite purged_lookup by (apply Hok || done). simpl. split; [done|].
    rewrite purge_expired, E by apply Hok. by apply delete_exactly.
  - rewrite purge_expired, E by apply Hok. rewrite contents_lookup by apply Hok.
    destruct (find_key m (hash_key key) key) as [e|] eqn:Hf; simpl; [|split; [done|by apply same_exactly]].
    split; [done|]. by apply (redeadline_exactly m key e (Some at_ms)).
Qed.

Lemma getex_means m key at_ms now_ms : flat_ok m → means m now_ms (RGetEx key at_ms).
Proof.
  intros Hok. unfold means. simpl. unfold get_value_bytes_hashed_and_expire.
  pose proof (find_readable_spec m key (proj1 Hok)) as Hr. rewrite contents_lookup by apply Hok.
  destruct (find_key m (hash_key key) key) as [e|] eqn:Hf; simpl in *; rewrite ?Hr; simpl;
    [|split; [done|by apply same_exactly]].
  change (s_protected (stored_entry e)) with (is_protected e).
  change (s_expired (stored_entry e) now_ms) with (is_expired e now_ms).
  destruct (is_protected e) eqn:Ep; simpl; [split; [done|by apply same_exactly]|].
  destruct (is_expired e now_ms); simpl.
  - split; [done|]. by apply delete_exactly.
  - split; [done|]. pose proof (find_key_Some _ _ _ _ Hf) as (_ & _ & Hk).
    pose proof (update_deadline_exactly m _ _ e (Some at_ms) now_ms Hok Hr) as Hu. by rewrite Hk in Hu.
Qed.

Lemma delete_means m key now_ms : flat_ok m → means m now_ms (RDelete key) ∧ means m now_ms (RDeleteLocal key).
Proof.
  intros Hok. unfold means. simpl. split.
  - pose proof (delete_answer m key Hok) as Ha. pose proof (delete_exactly m key now_ms Explicit Hok ltac:(done)) as Hr.
    unfold flat_delete, delete_hashed in *. destruct (delete_hashed_internal _ _ _ _). simpl in *. by rewrite Ha.
  - destruct (delete_local_exactly m key now_ms Explicit Hok ltac:(done)) as [Hr Ha].
    unfold delete_hashed_local. destruct (delete_hashed_local_internal _ _ _ _). simpl in *. by rewrite Ha.
Qed.

Lemma remove_means m key now_ms : flat_ok m → means m now_ms (RRemove key).
Proof.
  intros Hok. unfold means. simpl. unfold remove_value_hashed. pose proof (reclaim_tidy m) as Ht.
  pose proof (tidy_ok _ _ Ht Hok) as Hok1. rewrite <- (tidy_contents _ _ Ht).
  set (m1 := reclaim_retired_if_quiescent m) in *. clearbody m1.
  rewrite purge_expired by apply Hok1. unfold entry_is_expired_hashed.
  destruct (find_key m1 (hash_key key) key) as [e|] eqn:Hf.
  2:{ rewrite (lookup_missing m1 key) by (apply Hok1 || done). split; [done|].
      rewrite delete_id by by apply lookup_missing; [apply Hok1|]. eapply tidy_exactly; [done|]. by apply same_exactly. }
  destruct (is_expired e now_ms).
  { rewrite lookup_delete_eq. split; [done|]. simpl. eapply tidy_exactly; [done|]. by apply delete_exactly. }
  rewrite (lookup_found m1 key e) by (apply Hok1 || done).
  pose proof (take_out_spec m1 (hash_key key) key (proj1 Hok1)) as Hs. rewrite Hf in Hs.
  destruct Hs as (m2 & -> & Hx & Hok2 & Hev & Hp & Hc). apply find_key_Some in Hf as (He & _ & Hk).
  assert (dropped Explicit e m1 m2) as Hd.
  { split; [done|]. rewrite Hk. split; [done|]. split; [split; [done|rewrite Hp; apply Hok1]|].
    rewrite bool_decide_eq_false_2 by done. split; [lia|done]. }
  assert (exactly (delete key (contents m1)) 0 m m2) as Hr.
  { eapply tidy_exactly; [done|]. rewrite <- Hk. by eapply drop_exactly. }
  change (Some (stored_entry e) ≫= s_visible) with (if is_protected e then None else Some (fe_value e)).
  destruct (is_protected e); simpl; (split; [done|]); [|done]. eapply exactly_tidy; [done|apply retire_value_tidy].
Qed.

(** [transform_value_hashed] up to the call of the function. *)
Lemma transform_start m key now_ms :
  flat_ok m →
  let m1 := reclaim_retired_if_quiescent m in
  let m2 := if negb (ttl_entries m1 =? 0)%Z && entry_is_expired_hashed m1 (hash_key key) key now_ms
            then (delete_hashed_internal m1 (hash_key key) key Expired).2 else m1 in
  let m3 := (touch_for_write m2 (hash_key key)).2 in
  flat_ok m3 ∧ contents m3 = purge (contents m) key now_ms ∧ evictions m3 = evictions m ∧
  (budget m3 ≤ budget m)%Z ∧ same_config m m3 ∧ (stored_bytes m3 ≤ stored_bytes m)%Z.
Proof.
  intros Hok m1. pose proof (reclaim_tidy m) as Ht. fold m1 in Ht. pose proof (tidy_ok _ _ Ht Hok) as Hok1.
  pose proof (tidy_contents _ _ Ht) as Ec. pose proof (tidy_config _ _ Ht) as Hc.
  pose proof (tidy_lighter _ _ Ht) as Hl. assert (evictions m1 = evictions m) as Ev by by destruct Ht as [(_&_&_&?&_) _].
  rewrite ttl_guard by apply Hok1. intros m2. rewrite <- Ec, purge_expired by apply Hok1.
  assert (flat_ok m2 ∧ contents m2 = (if entry_is_expired_hashed m1 (hash_key key) key now_ms
    then delete key (contents m1) else contents m1) ∧ evictions m2 = evictions m ∧ same_config m m2 ∧ lighter m m2)
    as (Hok2 & Ec2 & Ev2 & Hc2 & Hl2).
  { unfold m2. destruct (entry_is_expired_hashed m1 (hash_key key) key now_ms); [|done].
    destruct (flat_delete_expired_spec m1 key Hok1) as (? & ? & ? & ? & ?). split; [done|]. split; [done|].
    split; [congruence|]. by split; etrans. }
  clearbody m2. pose proof (touch_for_write_tidy m2 (hash_key key)) as Ht3. intros m3. fold m3 in Ht3.
  pose proof (tidy_lighter _ _ Ht3) as Hl3. pose proof (transitivity Hl2 Hl3) as (Hb & Hs & _).
  split; [by eapply tidy_ok|]. split; [by rewrite (tidy_contents _ _ Ht3)|].
  split; [by destruct Ht3 as [(_&_&_&->&_) _]|]. split; [done|]. split; [|done].
  etrans; [done|]. by apply tidy_config.
Qed.

(** What [transform_value_hashed] does with the answer of the function. *)
Lemma transform_spec {R Err} m key clear (f : option Bytes → Err + (R * Bytes)) now_ms :
  flat_ok m →
  (budget m + match f (purge (contents m) key now_ms !! key ≫= s_visible) with
              | inl _ => 0
              | inr (_, value) => s_weight (mkEntry key value None None)
              end ≤ u64_MAX)%Z →
  match f (purge (contents m) key now_ms !! key ≫= s_visible) with
  | inl error =>
      (transform_value_hashed m (hash_key key) key now_ms clear f).1 = inl error ∧
      exactly (purge (contents m) key now_ms) 0 m (transform_value_hashed m (hash_key key) key now_ms clear f).2 ∧
      same_config m (transform_value_hashed m (hash_key key) key now_ms clear f).2 ∧
      (stored_bytes (transform_value_hashed m (hash_key key) key now_ms clear f).2 ≤ stored_bytes m)%Z
  | inr (result, value) =>
      let s := mkEntry key value (if clear then None else purge (contents m) key now_ms !! key ≫= e_expire_at_ms) None in
      (transform_value_hashed m (hash_key key) key now_ms clear f).1 = inr result ∧
      ∃ m1, exactly (<[key := s]> (purge (contents m) key now_ms)) (s_weight s) m m1 ∧ same_config m m1 ∧
            (transform_value_hashed m (hash_key key) key now_ms clear f).2 = enforce_memory_limit m1 now_ms
  end.
Proof.
  intros Hok Hw. simpl in Hw. pose proof (transform_start m key now_ms Hok) as Hst. unfold transform_value_hashed.
  cbv zeta in Hst |- *. destruct (touch_for_write _ (hash_key key)) as [tick m3]. simpl in Hst.
  destruct Hst as (Hok3 & Ec3 & Ev3 & Eb3 & Hc3 & Hs3). rewrite <- Ec3 in *.
  assert ((e ← find_key m3 (hash_key key) key; if is_protected e then None else Some (fe_value e)) =
          contents m3 !! key ≫= s_visible) as ->.
  { rewrite contents_lookup by apply Hok3. by destruct (find_key m3 (hash_key key) key). }
  destruct (f (contents m3 !! key ≫= s_visible)) as [error|[result value]].
  { split; [done|]. split; [|done]. eapply exactly_after; [done|done|]. by apply same_exactly. }
  set (s := mkEntry key value (if clear then None else contents m3 !! key ≫= e_expire_at_ms) None).
  destruct (upsert_exactly m3 key replace_bytes value (λ _, None) (λ e, record_access (fe_access e) tick)
    (λ e, if clear then None else fe_expire_at_ms e)
    (new_entry (hash_key key) (hash_key_tag_from_hash (hash_key key)) key value None None tick) now_ms s)
    as (_ & Hr & Hc); [done|apply replace_bytes_accounts|done|done|done|..].
  - intros Hf. unfold s. rewrite (lookup_missing m3 key) by (apply Hok3 || done). by destruct clear.
  - intros e Hf. unfold s. rewrite (lookup_found m3 key e) by (apply Hok3 || done).
    by apply find_key_Some in Hf as (_ & _ & <-).
  - change (s_weight s) with (s_weight (mkEntry key value None None)). lia.
  - destruct (upsert _ _ _ _ _ _) as [old m4]. simpl in *. split; [done|]. exists (retire_replaced m4 old).
    split; [|split; [|done]].
    + eapply exactly_after; [done|done|]. eapply exactly_tidy; [done|apply retire_replaced_tidy].
    + etrans; [done|]. etrans; [done|]. apply tidy_config, retire_replaced_tidy.
Qed.

Lemma transform_means m key clear f now_ms :
  flat_ok m → (budget m + request_weight (contents m) now_ms (RTransform key clear f) ≤ u64_MAX)%Z →
  means m now_ms (RTransform key clear f).
Proof.
  intros Hok Hw. pose proof (transform_spec m key clear f now_ms Hok Hw) as Hs. unfold means. simpl.
  destruct (f (purge (contents m) key now_ms !! key ≫= s_visible)) as [error|[result value]].
  - destruct Hs as (Ha & Hr & _). destruct (transform_value_hashed _ _ _ _ _ _). simpl in *. rewrite Ha.
    split; [done|]. by apply exactly_refined.
  - destruct Hs as (Ha & m1 & Hr & _ & Em). destruct (transform_value_hashed _ _ _ _ _ _). simpl in *.
    rewrite Ha, Em. split; [done|]. eapply exactly_shed; [exact Hr|]. apply enforce_shed; [apply Hr|done].
Qed.

(** An update in place that does not grow the entry. *)
Lemma shrink_spec m key account upd e :
  flat_ok m → accounts account → keeps_place upd → find_key m (hash_key key) key = Some e →
  (0 ≤ ebytes (upd e) ≤ ebytes e)%Z → ttl_of (upd e) = ttl_of e →
  let m' := account (update_key m (hash_key key) key upd) (entry_stored_bytes e) (entry_stored_bytes (upd e)) in
  flat_ok m' ∧ contents m' = <[key := stored_entry (upd e)]> (contents m) ∧ evictions m' = evictions m ∧
  (budget m' ≤ budget m)%Z ∧ same_config m m' ∧ (stored_bytes m' ≤ stored_bytes m)%Z.
Proof.
  intros [Hok Hp] Ha Hu Hf Hb Et m'. destruct (find_key_Some _ _ _ _ Hf) as (He & Hh & Hk).
  pose proof (update_exchanged m _ _ upd e Hok Hu Hf) as Hx. rewrite Hk in Hx.
  pose proof (ebytes_le m e Hok He). pose proof (stored_bound m Hok). pose proof (weight_le m e Hok He).
  pose proof (ok_budget m Hok). pose proof (ok_evictions m Hok).
  assert (weight e = 1 + ebytes e)%Z as Ew by done. assert (weight (upd e) = 1 + ebytes (upd e))%Z as Ew' by done.
  assert (m' = with_stored (update_key m (hash_key key) key upd) (stored_bytes m - ebytes e + ebytes (upd e))) as Em.
  { unfold m'. rewrite (entry_stored_bytes_ok m e Hok He), (entry_bytes_exact (upd e)); [|apply Hu|lia].
    - rewrite Ha by (simpl; lia). done.
    - destruct (elem_placed m e Hok He) as [Hin _].
      by pose proof (proj1 (Forall_forall _ _) (ok_placed m Hok) _ Hin) as (_ & _ & ?). }
  rewrite Em. clear Em m'. set (m' := with_stored _ _). change (exchanged key (Some e) (Some (upd e)) m m') in Hx.
  destruct (exchanged_contents _ _ _ _ _ Hok Hx) as [Ec _]. pose proof (exchanged_sum weight _ _ _ _ _ Hx) as Es.
  unfold sum_opt in Es. simpl in Es. split; [|split; [done|split; [done|split; [|split; [done|simpl; lia]]]]].
  2:{ unfold budget. change (evictions m') with (evictions m). lia. }
  split; [|done]. eapply exchanged_ok; [done|done|..]; unfold sum_opt; simpl; [lia|lia|done|lia].
Qed.

Lemma cleared_ebytes m e acc dl :
  table_ok m → e ∈ flat_entries m → (0 ≤ ebytes (rewrite_entry e (fe_value e) None acc dl) ≤ ebytes e)%Z.
Proof.
  intros Hok He. pose proof (ebytes_nonneg m e Hok He). unfold ebytes in *. simpl.
  destruct (elem_placed m e Hok He) as [Hin _].
  pose proof (proj1 (Forall_forall _ _) (ok_placed m Hok) _ Hin) as (_ & _ & ?). simpl in *.
  pose proof (blen_nonneg (fe_key e)). pose proof (blen_nonneg (fe_value e)).
  destruct (fe_governance e) as [g|]; simpl; [pose proof (blen_nonneg g)|]; lia.
Qed.

Definition set_value value e : FlatEntry :=
  mkFlat (fe_hash e) (fe_key_tag e) (fe_key e) value (fe_expire_at_ms e) (fe_semantic e) (fe_governance e) (fe_access e).

Lemma set_value_keeps_place value : keeps_place (set_value value).
Proof. intros e. by repeat split. Qed.

(** [update_value_hashed_no_ttl] on a function that keeps the length. *)
Definition updates_in_place m (r : FlatRequest) : Prop :=
  match r with
  | RUpdate key _ f => ∀ s, contents m !! key = Some s → length (f (e_value s)).2 = length (e_value s)
  | _ => True
  end.

Lemma update_means m key unique f now_ms :
  flat_ok m → updates_in_place m (RUpdate key unique f) →
  means m now_ms (RUpdate key unique f) ∧ same_config m (flat_step m now_ms (RUpdate key unique f)).2 ∧
  (stored_bytes (flat_step m now_ms (RUpdate key unique f)).2 ≤ stored_bytes m)%Z.
Proof.
  intros Hok Hlen. unfold means. simpl. unfold update_value_hashed_no_ttl. set (should := negb _).
  assert (tidy m (if should then next_access_tick m else (0%Z, m)).2) as Ht.
  { destruct should; [apply with_access_tidy|done]. }
  destruct (if should then next_access_tick m else (0%Z, m)) as [tick m1]. simpl in Ht.
  pose proof (tidy_ok _ _ Ht Hok) as Hok1. pose proof (tidy_contents _ _ Ht) as Ec.
  pose proof (tidy_lighter _ _ Ht) as (_ & Hs1 & _). pose proof (tidy_config _ _ Ht) as Hc1.
  simpl in Hlen. rewrite <- Ec in *. rewrite contents_lookup in * by apply Hok1.
  destruct (find_key m1 (hash_key key) key) as [e|] eqn:Hf; simpl.
  2:{ split; [|done]. split; [done|]. eapply tidy_exactly; [done|]. by apply same_exactly. }
  change (s_protected (stored_entry e)) with (is_protected e).
  destruct (negb (is_protected e) && negb (has_ttl (fe_expire_at_ms e)) && unique) eqn:Eg.
  2:{ simpl. split; [|done]. split; [done|]. eapply tidy_exactly; [done|]. by apply same_exactly. }
  apply andb_true_iff in Eg as [[Ep Ed]%andb_true_iff _]. apply negb_true_iff in Ep, Ed.
  specialize (Hlen _ eq_refl). simpl in Hlen. destruct (f (fe_value e)) as [result value']. simpl in Hlen |- *.
  assert (fe_expire_at_ms e = None) as Ed' by by destruct (fe_expire_at_ms e).
  set (m2 := if should then record_lru_touch m1 (hash_key key) tick else m1).
  assert (tidy m1 m2) as Ht2 by (unfold m2; destruct should; [apply record_lru_touch_tidy|done]).
  pose proof (tidy_ok _ _ Ht2 Hok1) as Hok2. assert (entries m2 = entries m1) as Ee by by destruct Ht2 as [(?&_) _].
  assert (find_key m2 (hash_key key) key = Some e) as Hf2 by (unfold find_key; by rewrite Ee).
  pose proof (tidy_contents _ _ Ht2) as Ec2. pose proof (tidy_config _ _ Ht2) as Hc2.
  pose proof (tidy_lighter _ _ Ht2) as (_ & Hs2 & _). pose proof (transitivity Ht Ht2) as Ht02. clearbody m2.
  destruct (find_key_Some _ _ _ _ Hf2) as (He2 & _ & Hk).
  set (upd := λ e0, rewrite_entry e0 (fe_value e0) None (touch_access should tick (fe_access e0)) (fe_expire_at_ms e0)).
  pose proof (cleared_ebytes m2 e (touch_access should tick (fe_access e)) (fe_expire_at_ms e) (proj1 Hok2) He2) as Hb.
  destruct (shrink_spec m2 key _ upd e Hok2 replace_bytes_if_changed_accounts
    (λ e, conj eq_refl (conj eq_refl (λ _, Z.le_refl 0))) Hf2 Hb eq_refl) as (Hok3 & Ec3 & Ev3 & Hb3 & Hc3 & Hs3).
  set (m3 := replace_bytes_if_changed _ _ _) in *. clearbody m3.
  pose proof (contents_lookup m3 key (proj1 Hok3)) as Hl. rewrite Ec3, lookup_insert_eq in Hl.
  destruct (find_key m3 (hash_key key) key) as [e3|] eqn:Hf3; [|done]. simpl in Hl. simplify_eq.
  destruct (find_key_Some _ _ _ _ Hf3) as (He3 & _ & Hk3).
  destruct (update_same_bytes m3 _ _ (set_value value') e3 Hok3 (set_value_keeps_place value') Hf3)
    as (Hok4 & Ec4 & Hb4); [|done|].
  { unfold ebytes, blen. simpl. congruence. }
  rewrite Hk3, Ec3, insert_insert_eq in Ec4.
  split; [split; [done|]|].
  - eapply tidy_exactly; [done|]. eapply exactly_after; [done|exact Hb3|]. apply Build_exactly; [done| |done|].
    + simpl. rewrite <- Ec2. etrans; [exact Ec4|]. f_equal. unfold stored_entry. simpl. f_equal; congruence.
    + rewrite Z.add_0_r. by apply Z.eq_le_incl.
  - simpl. split; [by etrans; [done|]; etrans; [done|]|]. lia.
Qed.

(** ** The sweep, the configuration and the epochs *)
Lemma entry_map_size es : NoDup (fe_key <$> es) → size (entry_map es) = length es.
Proof.
  induction es as [|e es IH]; intros Hnd; [done|]. rewrite fmap_cons in Hnd. apply NoDup_cons in Hnd as [Hn Hnd].
  rewrite entry_map_cons, map_size_insert_None; [by rewrite IH|]. by apply entry_map_lookup_None.
Qed.

Lemma entry_map_filter now_ms es :
  NoDup (fe_key <$> es) →
  live_part now_ms (entry_map es) = entry_map (filter (λ e, is_expired e now_ms = false) es).
Proof.
  induction es as [|e es IH]; intros Hnd; [apply map_filter_empty|].
  rewrite fmap_cons in Hnd. apply NoDup_cons in Hnd as [Hn Hnd].
  rewrite entry_map_cons, filter_cons. unfold live_part in *.
  assert (entry_map es !! fe_key e = None) as Hl by by apply entry_map_lookup_None.
  case_decide as Hu.
  - rewrite entry_map_cons, <- IH by done. by apply map_filter_insert_True.
  - rewrite <- IH by done. rewrite map_filter_insert_False by done. by rewrite delete_id.
Qed.

Lemma swept_count m now_ms :
  table_ok m →
  length (filter (λ e, is_expired e now_ms = true) (flat_entries m)) =
  size (contents m) - size (live_part now_ms (contents m)).
Proof.
  intros Hok. pose proof (ok_keys m Hok) as Hnd. unfold contents.
  assert (NoDup (fe_key <$> filter (λ e, is_expired e now_ms = false) (flat_entries m))) as Hnd'.
  { eapply sublist_NoDup; [done|]. apply fmap_sublist, sublist_filter. }
  rewrite entry_map_filter, !entry_map_size by done. clear Hnd Hnd'. generalize (flat_entries m). induction l as [|e l IH]; [done|]. rewrite !filter_cons.
  pose proof (length_filter (λ e, is_expired e now_ms = false) l).
  destruct (is_expired e now_ms); simpl; rewrite ?decide_True, ?decide_False by done; simpl; lia.
Qed.

Lemma maintenance_means m now_ms : flat_ok m → means m now_ms RMaintenance.
Proof.
  intros Hok. unfold means. simpl. pose proof (process_maintenance_spec m now_ms Hok) as Hs.
  assert ((process_maintenance m now_ms).1 = Z.of_nat (size (contents m) - size (live_part now_ms (contents m)))) as Hn.
  { unfold process_maintenance. pose proof (reclaim_tidy m) as Ht. pose proof (tidy_ok _ _ Ht Hok) as Hok1.
    rewrite <- (tidy_contents _ _ Ht). set (m1 := reclaim_retired_if_quiescent m) in *. clearbody m1.
    destruct (Z.eqb_spec (ttl_entries m1) 0) as [E|].
    - rewrite no_deadlines by (apply Hok1 || done). simpl. lia.
    - simpl. by rewrite length_fmap, swept_count by apply Hok1. }
  destruct (process_maintenance m now_ms) as [n m']. simpl in *. rewrite Hn. split; [done|].
  destruct Hs as (? & ? & ? & ? & (Hb & _)). apply Build_exactly; [done..|lia].
Qed.

(** A new limit and policy, before they are enforced. *)
Definition reconfigured m limit policy : FlatMap :=
  let limit := match limit with Some l => if (0 <? l)%Z then Some l else None | None => None end in
  let m := with_policy m limit policy in
  match limit, policy with
  | None, NoEviction => with_buffers m (retired_values m) (mkPool [] 0)
  | _, _ => m
  end.

Lemma configure_enforces m limit policy now_ms :
  configure_memory_policy m limit policy now_ms = enforce_memory_limit (reconfigured m limit policy) now_ms.
Proof. done. Qed.

Lemma pool_ok_empty : pool_ok (mkPool [] 0).
Proof. unfold pool_ok, MAX_REUSABLE_VALUE_BYTES, MAX_REUSABLE_VALUE_BUFFERS. simpl. lia. Qed.

Lemma reconfigured_spec m limit policy :
  flat_ok m →
  let m' := reconfigured m limit policy in
  flat_ok m' ∧ contents m' = contents m ∧ evictions m' = evictions m ∧ budget m' = budget m ∧
  limit_ok (memory_limit_bytes m').
Proof.
  intros [Hok Hp] m'.
  assert (entries m' = entries m ∧ stored_bytes m' = stored_bytes m ∧ ttl_entries m' = ttl_entries m ∧
          evictions m' = evictions m ∧ pool_ok (pool m') ∧ limit_ok (memory_limit_bytes m')) as (E1&E2&E3&E4&E5&E6).
  { unfold m', reconfigured. pose proof pool_ok_empty. destruct limit as [l|].
    - destruct (Z.ltb_spec 0 l); destruct policy; simpl; auto 10.
    - destruct policy; simpl; auto 10. }
  clearbody m'. assert (flat_entries m' = flat_entries m) as Ee by (unfold flat_entries; by rewrite E1).
  split; [|unfold contents, budget; by rewrite Ee, E4]. split; [|done].
  destruct Hok. split; unfold flat_entries in *; rewrite ?E1, ?E2, ?E3, ?E4; done.
Qed.

Lemma configure_means m limit policy now_ms : flat_ok m → means m now_ms (RConfigure limit policy).
Proof.
  intros Hok. unfold means. simpl. split; [done|]. rewrite configure_enforces.
  destruct (reconfigured_spec m limit policy Hok) as (Hok' & Ec & Ev & Eb & _).
  eapply exactly_shed; [apply Build_exactly; [done|done|done|lia]|]. by apply enforce_shed.
Qed.

Lemma evict_means m policy now_ms : flat_ok m → means m now_ms (REvict policy).
Proof.
  intros Hok. unfold means. simpl. split; [done|]. unfold evict_with_policy.
  pose proof (evict_one_shed now_ms policy m Hok) as Hs. destruct (evict_one_with_policy m policy).
  eapply exactly_shed; [by apply same_exactly|done].
Qed.

(** ** The simulation *)
Definition request_ok m now_ms (r : FlatRequest) : Prop :=
  (0 ≤ now_ms)%Z ∧ (budget m + request_weight (contents m) now_ms r ≤ u64_MAX)%Z ∧ updates_in_place m r.

Lemma flat_step_refines m now_ms r : flat_ok m → request_ok m now_ms r → means m now_ms r.
Proof.
  intros Hok (Hn & Hb & Hu). destruct r; simpl in Hb.
  - split; [done|]. by apply wrote_refined, set_hashed_wrote.
  - split; [done|]. by apply wrote_refined, set_bytes_wrote.
  - split; [done|]. by apply wrote_refined, set_hashed_local_wrote.
  - split; [done|]. by apply wrote_refined, set_slice_wrote.
  - split; [done|]. by apply wrote_refined, set_slice_no_ttl_wrote.
  - split; [done|]. by apply wrote_refined, set_tagged_wrote.
  - split; [done|]. by apply write_slice_exactly.
  - by apply transform_means.
  - by apply update_means.
  - by apply get_means.
  - by apply get_local_means.
  - by apply getex_means.
  - by apply keep_ttl_means.
  - by apply expire_at_means.
  - by apply exists_means.
  - by apply ttl_means.
  - by apply ttl_means.
  - by apply persist_means.
  - by apply expire_means.
  - by apply delete_means.
  - by apply delete_means.
  - by apply remove_means.
  - by apply configure_means.
  - by apply evict_means.
  - by apply maintenance_means.
  - split; [done|]. eapply exactly_tidy; [by apply same_exactly|done].
  - split; [done|]. eapply exactly_tidy; [by apply same_exactly|done].
Qed.
End refine.
