(* ===== verification/FlatRun.v ===== *)
(** * The string key space: sequences of requests

    Runs of a shard's string key space from empty, the abstract runs that
    explain them, and the memory limit along a run. *)

From S2P Require Import Prelude Deps Codec Snapshot Recovery FlatMap FlatMapProofs FlatEviction FlatRefine.

(** [allowed S rs answers n S']: the abstract map may go from [S] to [S'] on
    the requests [rs] with these answers, having given up at most [n] entries
    that were not expired.  Only after the requests that enforce the memory
    limit may it drop entries; those that were not expired count towards [n]. *)
Inductive allowed : Entries → list (Z * FlatRequest) → list FlatAnswer → Z → Entries → Prop :=
  | allowed_nil S : allowed S [] [] 0 S
  | allowed_cons S now_ms r S1 k rs answers n S2 :
      S1 ⊆ (flat_spec S now_ms r).2 →
      (live_size now_ms (flat_spec S now_ms r).2 ≤ live_size now_ms S1 + k)%Z → (0 ≤ k)%Z →
      (sheds r = false → S1 = (flat_spec S now_ms r).2) →
      allowed S1 rs answers n S2 →
      allowed S ((now_ms, r) :: rs) ((flat_spec S now_ms r).1 :: answers) (k + n) S2.

Section run.
Context `{Hashing} {HT : Type → Type} `{!HashTable HT}.
Abbreviation FlatMap := (FlatMap (HT := HT)).
Implicit Types (m : FlatMap) (key value : Bytes) (hash now_ms : Z) (e : FlatEntry).

Fixpoint flat_run m (rs : list (Z * FlatRequest)) : list FlatAnswer * FlatMap :=
  match rs with
  | [] => ([], m)
  | (now_ms, r) :: rs =>
      let '(answer, m) := flat_step m now_ms r in
      let '(answers, m) := flat_run m rs in (answer :: answers, m)
  end.

(** The requests can be served without a counter overflowing. *)
Fixpoint requests_ok m (rs : list (Z * FlatRequest)) : Prop :=
  match rs with
  | [] => True
  | (now_ms, r) :: rs => request_ok m now_ms r ∧ requests_ok (flat_step m now_ms r).2 rs
  end.

Lemma flat_new_ok : flat_ok (flat_new : FlatMap).
Proof.
  split; [|apply pool_ok_empty].
  assert (flat_entries (flat_new : FlatMap) = []) as E by (unfold flat_entries; simpl; by rewrite ht_new_elements).
  split; rewrite ?E; simpl; rewrite ?ht_new_elements; try done; constructor.
Qed.

Lemma flat_new_contents : contents (flat_new : FlatMap) = ∅.
Proof. unfold contents, flat_entries. simpl. by rewrite ht_new_elements. Qed.

Lemma flat_step_refined m now_ms r :
  flat_ok m → request_ok m now_ms r →
  (flat_step m now_ms r).1 = (flat_spec (contents m) now_ms r).1 ∧
  refined now_ms (flat_spec (contents m) now_ms r).2 (request_weight (contents m) now_ms r) m (flat_step m now_ms r).2 ∧
  (sheds r = false → contents (flat_step m now_ms r).2 = (flat_spec (contents m) now_ms r).2).
Proof.
  intros Hok Hr. pose proof (flat_step_refines m now_ms r Hok Hr) as Hm. unfold means in Hm.
  destruct (flat_step m now_ms r) as [a m1], (flat_spec (contents m) now_ms r) as [a' S']. simpl.
  destruct Hm as [-> Hm]. split; [done|]. destruct (sheds r); [by split|].
  split; [by apply exactly_refined|]. intros _. apply Hm.
Qed.

Lemma flat_run_ok m rs : flat_ok m → requests_ok m rs → flat_ok (flat_run m rs).2.
Proof.
  revert m. induction rs as [|[now_ms r] rs IH]; intros m Hok Hrs; simpl in *; [done|].
  destruct Hrs as [Hr Hrs]. destruct (flat_step_refined m now_ms r Hok Hr) as (_ & Hre & _).
  destruct (flat_step m now_ms r) as [a m1]. specialize (IH m1 (re_ok _ _ _ _ _ Hre) Hrs).
  by destruct (flat_run m1 rs).
Qed.

Lemma flat_run_allowed m rs :
  flat_ok m → requests_ok m rs →
  allowed (contents m) rs (flat_run m rs).1 (evictions (flat_run m rs).2 - evictions m) (contents (flat_run m rs).2).
Proof.
  revert m. induction rs as [|[now_ms r] rs IH]; intros m Hok Hrs; simpl in *.
  - rewrite Z.sub_diag. constructor.
  - destruct Hrs as [Hr Hrs]. destruct (flat_step_refined m now_ms r Hok Hr) as (Ha & Hre & Hex).
    destruct (flat_step m now_ms r) as [a m1]. simpl in Ha, Hre, Hrs, Hex. destruct Hre as [Hok1 Hsub Hlive Hev Hb].
    specialize (IH m1 Hok1 Hrs). destruct (flat_run m1 rs) as [answers m2]. simpl in *. rewrite Ha.
    replace (evictions m2 - evictions m)%Z with ((evictions m1 - evictions m) + (evictions m2 - evictions m1))%Z by lia.
    econstructor; [done|lia|lia|done|exact IH].
Qed.

(** ** The memory limit along a run *)
Definition calm m m' : Prop := same_config m m' ∧ (stored_bytes m' ≤ stored_bytes m)%Z.

Lemma tidy_calm m m' : tidy m m' → calm m m'.
Proof. intros Ht. split; [by apply tidy_config|]. by destruct (tidy_lighter _ _ Ht) as (_ & ? & _). Qed.

Lemma shed_calm now_ms m m' : shed now_ms m m' → calm m m'.
Proof. intros Hs. split; [apply Hs|]. by destruct (shed_lighter _ _ _ Hs) as (_ & ? & _). Qed.

Lemma dropped_calm reason e m m' : flat_ok m → dropped reason e m m' → calm m m'.
Proof.
  intros Hok Hd. destruct (dropped_lighter _ _ _ _ (proj1 Hok) Hd) as (_ & ? & _). split; [apply Hd|done].
Qed.

Lemma calm_trans m1 m2 m3 : calm m1 m2 → calm m2 m3 → calm m1 m3.
Proof. intros [] []. split; [by etrans|lia]. Qed.

Lemma delete_calm m hash key reason : flat_ok m → calm m (delete_hashed_internal m hash key reason).2.
Proof.
  intros Hok. pose proof (delete_internal_spec m hash key reason Hok) as Hd.
  destruct (find_key m hash key); destruct Hd as [_ Hd]; [by eapply dropped_calm|by apply tidy_calm].
Qed.

Lemma delete_local_calm m hash key reason : flat_ok m → calm m (delete_hashed_local_internal m hash key reason).2.
Proof.
  intros Hok. pose proof (delete_local_spec m hash key reason Hok) as Hd.
  destruct (find_key m hash key); [destruct Hd as [_ Hd]; by eapply dropped_calm|by rewrite Hd].
Qed.

Lemma lookup_lazy_calm m hash p : calm m (lookup_lazy m hash p).2.
Proof.
  unfold lookup_lazy. pose proof (should_sample_read_tidy m) as Ht. destruct (should_sample_read m) as [sampled m1].
  simpl in Ht. assert (tidy m (if sampled then next_access_tick m1 else (0%Z, m1)).2) as Ht2.
  { destruct sampled; [|done]. etrans; [done|]. apply with_access_tidy. }
  destruct (if sampled then next_access_tick m1 else (0%Z, m1)) as [tick m2]. apply tidy_calm in Ht2. simpl in *.
  destruct (tick =? 0)%Z; [done|]. by destruct (ht_find _ _ _).
Qed.

Lemma adjust_ttl_calm m t had has : calm m (adjust_ttl_count (with_entries m t) had has).
Proof. by destruct had, has. Qed.

Create HintDb calm.
#[local] Hint Resolve delete_calm delete_local_calm lookup_lazy_calm adjust_ttl_calm : calm.

Lemma calm_refl m : calm m m.
Proof. done. Qed.
#[local] Hint Resolve calm_refl : calm.

Ltac calm_cases :=
  repeat match goal with
         | |- calm _ (let '(_, _) := ?x in (_, _)).2 => rewrite (surjective_pairing x); cbn [fst snd]
         | |- calm _ (snd (if ?b then _ else _)) => destruct b
         | |- calm _ (snd (match ?o with _ => _ end)) => destruct o
         | |- calm _ (snd (_, _)) => cbn [snd]
         end; auto with calm.

(** The requests that only read, or change a deadline, or remove. *)
Definition writes (r : FlatRequest) : bool :=
  match r with
  | RSet _ _ _ | RSetBytes _ _ _ _ | RSetLocal _ _ _ | RSetSlice _ _ _ _ | RSetSliceNoTtl _ _ _
  | RSetTagged _ _ _ _ | RSetTaggedNoTtl _ _ _ | RTransform _ _ _ | RUpdate _ _ _ | RConfigure _ _ => true
  | _ => false
  end.

Lemma reads_calm m now_ms r : flat_ok m → writes r = false → calm m (flat_step m now_ms r).2.
Proof.
  intros Hok Hw. destruct r; try done; cbn [flat_step].
  - unfold flat_get, get_ref_hashed, lookup_ref_hashed_lazy. calm_cases.
  - unfold get_ref_hashed_local, lookup_ref_hashed_lazy. calm_cases.
  - unfold get_value_bytes_hashed_and_expire, delete_hashed. calm_cases.
  - unfold entry_expire_at_for_keep_ttl_hashed. calm_cases.
  - unfold entry_expire_at_hashed. calm_cases.
  - unfold flat_exists. calm_cases.
  - unfold ttl_seconds, ttl_with. calm_cases.
  - unfold ttl_millis, ttl_with. calm_cases.
  - unfold persist, delete_hashed, update_key. calm_cases.
  - unfold expire, delete_hashed, update_key. calm_cases.
  - unfold flat_delete, delete_hashed. calm_cases.
  - unfold delete_hashed_local. calm_cases.
  - unfold remove_value_hashed. pose proof (reclaim_tidy m) as Ht. pose proof (tidy_ok _ _ Ht Hok) as Hok1.
    apply tidy_calm in Ht. set (m1 := reclaim_retired_if_quiescent m) in *. clearbody m1.
    eapply calm_trans; [done|].
    pose proof (take_out_spec m1 (hash_key key) key (proj1 Hok1)) as Hs.
    destruct (find_key m1 (hash_key key) key) as [e|]; [|done]. destruct (is_expired e now_ms); [by apply delete_calm|].
    destruct Hs as (m2 & -> & Hx & Hok2 & Hev & Hp & Hc).
    assert (calm m1 m2) as Hc2.
    { split; [done|]. rewrite (ok_bytes _ Hok2), (ok_bytes _ (proj1 Hok1)), (exchanged_sum ebytes _ _ _ _ _ Hx). simpl.
      enough (0 ≤ ebytes e)%Z by lia. destruct Hx as (rest & Hm & _). eapply ebytes_nonneg; [apply Hok1|].
      unfold flat_entries. rewrite Hm. left. }
    destruct (is_protected e); simpl; [|done]. eapply calm_trans; [done|]. apply tidy_calm, retire_value_tidy.
  - unfold evict_with_policy. pose proof (evict_one_shed 0 policy m Hok) as Hs.
    destruct (evict_one_with_policy m policy). by eapply shed_calm.
  - pose proof (maintenance_shed m now_ms now_ms Hok ltac:(lia)) as Hs. destruct (process_maintenance m now_ms).
    by eapply shed_calm.
Qed.

(** Under a policy the stored bytes are within the limit. *)
Definition within m : Prop :=
  limit_ok (memory_limit_bytes m) ∧
  match memory_limit_bytes m with
  | Some limit => eviction_policy m ≠ NoEviction → (stored_bytes m ≤ limit)%Z
  | None => True
  end.

Lemma calm_within m m' : calm m m' → within m → within m'.
Proof.
  intros [[El Ep] Hs] [Hl Hw]. unfold within. rewrite El, Ep. split; [done|].
  destruct (memory_limit_bytes m) as [limit|]; [|done]. intros Hp. specialize (Hw Hp). lia.
Qed.

Lemma enforce_within m now_ms : flat_ok m → limit_ok (memory_limit_bytes m) → within (enforce_memory_limit m now_ms).
Proof.
  intros Hok Hl. destruct (shed_config _ _ _ (enforce_shed m now_ms now_ms Hok ltac:(lia))) as [El Ep].
  unfold within. rewrite El, Ep. split; [done|]. destruct (memory_limit_bytes m) as [limit|] eqn:E; [|done].
  by apply enforce_limit.
Qed.

Lemma wrote_within key s now_ms m m' :
  wrote key s now_ms m m' → limit_ok (memory_limit_bytes m) → within m'.
Proof.
  intros (m1 & now0 & Hr & (El & _) & _ & ->) Hl. apply enforce_within; [apply Hr|by rewrite El].
Qed.

(** The one write that does not enforce the limit. *)
Definition unlimited (r : FlatRequest) : bool :=
  match r with RSetTaggedNoTtl _ _ _ => true | _ => false end.

Lemma flat_step_within m now_ms r :
  flat_ok m → request_ok m now_ms r → within m → unlimited r = false → within (flat_step m now_ms r).2.
Proof.
  intros Hok (Hn & Hb & Hu) Hw Hr. pose proof (proj1 Hw) as Hl.
  destruct (writes r) eqn:Ew; [|eapply calm_within; [by apply reads_calm|done]].
  destruct r; try done; cbn [flat_step snd]; simpl in Hb.
  - eapply wrote_within; [by apply set_hashed_wrote|done].
  - eapply wrote_within; [by apply set_bytes_wrote|done].
  - eapply wrote_within; [by apply set_hashed_local_wrote|done].
  - eapply wrote_within; [by apply set_slice_wrote|done].
  - eapply wrote_within; [by apply (set_slice_no_ttl_wrote m key value now_ms)|done].
  - eapply wrote_within; [by apply set_tagged_wrote|done].
  - pose proof (transform_spec m key clear_ttl transform now_ms Hok Hb) as Hs.
    destruct (transform (purge (contents m) key now_ms !! key ≫= s_visible)) as [error|[result value]].
    + destruct Hs as (_ & _ & Hc & Hs). destruct (transform_value_hashed _ _ _ _ _ _) as [? m'].
      apply (calm_within m); [by split|done].
    + destruct Hs as (_ & m1 & Hre & (El & _) & Em). destruct (transform_value_hashed _ _ _ _ _ _) as [? m'].
      simpl in *. rewrite Em. apply enforce_within; [apply Hre|by rewrite El].
  - destruct (update_means m key unique update now_ms Hok Hu) as (_ & Hc & Hs).
    apply (calm_within m); [by split|done].
  - rewrite configure_enforces. destruct (reconfigured_spec m limit policy Hok) as (Hok' & _ & _ & _ & Hl').
    by apply enforce_within.
Qed.

Lemma flat_run_within m rs :
  flat_ok m → requests_ok m rs → within m → Forall (λ x, unlimited x.2 = false) rs → within (flat_run m rs).2.
Proof.
  revert m. induction rs as [|[now_ms r] rs IH]; intros m Hok Hrs Hw Hu; simpl in *; [done|].
  destruct Hrs as [Hr Hrs]. apply Forall_cons in Hu as [Hu1 Hu]. simpl in Hu1.
  pose proof (flat_step_within m now_ms r Hok Hr Hw Hu1) as Hw1.
  destruct (flat_step_refined m now_ms r Hok Hr) as (_ & Hre & _). destruct (flat_step m now_ms r) as [a m1]. simpl in *.
  specialize (IH m1 (re_ok _ _ _ _ _ Hre) Hrs Hw1 Hu). by destruct (flat_run m1 rs).
Qed.

(** ** Snapshots *)
Lemma snapshot_contents m now_ms :
  table_ok m → list_to_map ((λ s, (e_key s, s)) <$> snapshot_entries m now_ms) = live_part now_ms (contents m).
Proof.
  intros Hok. unfold contents, snapshot_entries. rewrite entry_map_filter by by apply ok_keys.
  unfold entry_map. by rewrite <- list_fmap_compose.
Qed.

Lemma snapshot_keys_distinct m now_ms : table_ok m → NoDup (e_key <$> snapshot_entries m now_ms).
Proof.
  intros Hok. unfold snapshot_entries. rewrite <- list_fmap_compose.
  change (e_key ∘ stored_entry) with fe_key.
  eapply sublist_NoDup; [by apply (ok_keys m Hok)|]. apply fmap_sublist, sublist_filter.
Qed.

(** Restoring entries into an empty map stores the ones that have not expired. *)
Definition restore now_ms (S : Entries) (es : list StoredEntry) : Entries :=
  foldl (λ S s, if deadline_passed (e_expire_at_ms s) now_ms then S else <[e_key s := s]> S) S es.

Lemma s_weight_nonneg s : (0 ≤ s_weight s)%Z.
Proof.
  unfold s_weight. pose proof (blen_nonneg (e_key s)). pose proof (blen_nonneg (e_value s)).
  destruct (e_governance s) as [g|]; simpl; [pose proof (blen_nonneg g)|]; lia.
Qed.

Definition load now_ms m (s : StoredEntry) : FlatMap :=
  if deadline_passed (e_expire_at_ms s) now_ms then m
  else set_bytes_hashed_with_governance_option m (hash_key (e_key s)) (e_key s) (e_value s)
         (e_governance s) (e_expire_at_ms s) now_ms.

Lemma load_spec now_ms m s :
  flat_ok m → memory_limit_bytes m = None → (budget m + s_weight s ≤ u64_MAX)%Z →
  flat_ok (load now_ms m s) ∧ memory_limit_bytes (load now_ms m s) = None ∧
  (budget (load now_ms m s) ≤ budget m + s_weight s)%Z ∧ evictions (load now_ms m s) = evictions m ∧
  contents (load now_ms m s) =
    if deadline_passed (e_expire_at_ms s) now_ms then contents m else <[e_key s := s]> (contents m).
Proof.
  intros Hok El Hw. pose proof (s_weight_nonneg s). unfold load.
  destruct (deadline_passed (e_expire_at_ms s) now_ms); [split; [done|]; split; [done|]; split; [lia|done]|].
  assert (mkEntry (e_key s) (e_value s) (e_expire_at_ms s) (e_governance s) = s) as Es by by destruct s.
  destruct (set_bytes_wrote m (e_key s) (e_value s) now_ms Hok (e_governance s) (e_expire_at_ms s))
    as (m1 & now0 & [Hok1 Ec1 Ev1 Eb1] & [El1 _] & _ & ->); [by rewrite Es|].
  rewrite enforce_below by by rewrite El1, El. rewrite Es in *. by rewrite El1.
Qed.

Lemma loads_spec now_ms es m :
  flat_ok m → memory_limit_bytes m = None → (budget m + sum_of s_weight es ≤ u64_MAX)%Z →
  flat_ok (foldl (load now_ms) m es) ∧ evictions (foldl (load now_ms) m es) = evictions m ∧
  contents (foldl (load now_ms) m es) = restore now_ms (contents m) es.
Proof.
  revert m. induction es as [|s es IH]; intros m Hok El Hw; [done|]. simpl in Hw |- *.
  pose proof (sum_of_nonneg s_weight es (λ x _, s_weight_nonneg x)).
  destruct (load_spec now_ms m s Hok El ltac:(lia)) as (Hok1 & El1 & Eb1 & Ev1 & Ec1).
  destruct (IH (load now_ms m s) Hok1 El1 ltac:(lia)) as (Hok2 & Ev2 & Ec2). rewrite Ev2, Ev1, Ec2, Ec1. done.
Qed.

Lemma from_entries_spec es now_ms :
  (sum_of s_weight es ≤ u64_MAX)%Z →
  flat_ok (from_entries es now_ms : FlatMap) ∧ evictions (from_entries es now_ms : FlatMap) = 0%Z ∧
  contents (from_entries es now_ms : FlatMap) = restore now_ms ∅ es.
Proof.
  intros Hw. rewrite <- flat_new_contents. apply (loads_spec now_ms es flat_new); [apply flat_new_ok|done|].
  unfold budget, flat_entries. simpl. rewrite ht_new_elements. simpl. lia.
Qed.

(** Restoring entries with distinct keys keeps those that are not expired. *)
Lemma restore_spec now_ms (es : list StoredEntry) S :
  NoDup (e_key <$> es) →
  restore now_ms S es = live_part now_ms (list_to_map ((λ s, (e_key s, s)) <$> es)) ∪ S.
Proof.
  revert S. induction es as [|s es IH]; intros S Hnd.
  { unfold live_part. simpl. by rewrite map_filter_empty, (left_id_L ∅ (∪)). }
  rewrite fmap_cons in Hnd. apply NoDup_cons in Hnd as [Hn Hnd].
  assert ((list_to_map ((λ s, (e_key s, s)) <$> es) : Entries) !! e_key s = None) as Hl.
  { apply not_elem_of_list_to_map_1. by rewrite <- list_fmap_compose. }
  unfold restore. cbn [foldl]. fold (restore now_ms). rewrite fmap_cons. cbn [list_to_map foldr uncurry].
  fold (restore now_ms (if deadline_passed (e_expire_at_ms s) now_ms then S else <[e_key s := s]> S) es).
  change (list_to_map ((e_key s, s) :: ((λ s, (e_key s, s)) <$> es)) : Entries)
    with (<[e_key s := s]> (list_to_map ((λ s, (e_key s, s)) <$> es)) : Entries).
  rewrite IH by done. unfold live_part. destruct (deadline_passed (e_expire_at_ms s) now_ms) eqn:E.
  - rewrite map_filter_insert_False, delete_id; [done|done|]. unfold unexpired. simpl. by rewrite E.
  - rewrite map_filter_insert_True by done. rewrite <- insert_union_l, insert_union_r; [done|].
    apply map_lookup_filter_None. by left.
Qed.

Lemma snapshot_weight m now_ms : table_ok m → (sum_of s_weight (snapshot_entries m now_ms) ≤ u64_MAX)%Z.
Proof.
  intros Hok. pose proof (ok_budget m Hok). pose proof (ok_evictions m Hok).
  enough (sum_of s_weight (snapshot_entries m now_ms) ≤ sum_of weight (flat_entries m))%Z by lia.
  unfold snapshot_entries. pose proof (ok_placed m Hok) as Hpl.
  assert (∀ e, e ∈ flat_entries m → (s_weight (stored_entry e) ≤ weight e ∧ 0 ≤ weight e)%Z) as Hle.
  { intros e He. destruct (elem_placed m e Hok He) as [Hin _].
    pose proof (proj1 (Forall_forall _ _) Hpl _ Hin) as (_ & _ & Hs). simpl in Hs.
    pose proof (ebytes_nonneg m e Hok He). unfold weight, s_weight, ebytes in *. simpl. lia. }
  clear H0 H1. revert Hle. generalize (flat_entries m). induction l as [|e l IH]; intros Hle; [done|].
  rewrite filter_cons. destruct (Hle e (list_elem_of_here _ _)).
  assert (sum_of s_weight (stored_entry <$> filter (λ e, is_expired e now_ms = false) l) ≤ sum_of weight l)%Z as IH'.
  { apply IH. intros x Hx. apply Hle. by right. }
  case_decide; rewrite ?fmap_cons; cbn [sum_of foldr] in *; unfold sum_of in *; lia.
Qed.
End run.
