(* ===== verification/KeyScan.v ===== *)
(** * SCAN across the string and the object key space

    [redis_compat/storage/embedded_store/key_scan.rs]: a cursor names a phase
    (string keys or objects), a shard and a position in it; a call visits up to
    a count of keys from there, through the shards of the phase and, when all
    types are asked for, from the last string shard to the first object shard.
    The clock is an argument; [KeySpaces] is what the scan uses of the store. *)

From S2P Require Import Prelude Deps Slab ListObject Helpers F64 Codec Types HashSet ZSet Bucket.
From S2P Require Import BucketCore BucketKeys Store FlatMap.
From S2P Require Import Snapshot Recovery FlatMapProofs FlatEviction.

(** ** Cursors *)
Definition DEFAULT_SCAN_COUNT : Z := 10.
Definition CURSOR_OBJECT_PHASE : Z := Z.shiftl 1 63.
Definition CURSOR_SHARD_SHIFT : Z := 32.
Definition CURSOR_OFFSET_MASK : Z := u32_MAX.

Inductive KeyScanPhase := PhaseString | PhaseObject.
#[global] Instance KeyScanPhase_eq_dec : EqDecision KeyScanPhase.
Proof. solve_decision. Defined.

Record KeyScanCursor := mkCursor { cur_phase : KeyScanPhase; cur_shard : Z; cur_offset : Z }.

Inductive RedisKeyScanType := ScanAll | ScanString | ScanObject (kind : Bytes).

Definition phase_bits (phase : KeyScanPhase) : Z :=
  match phase with PhaseString => 0 | PhaseObject => CURSOR_OBJECT_PHASE end%Z.

Definition decode_phase (cursor : Z) : KeyScanPhase :=
  if (Z.land cursor CURSOR_OBJECT_PHASE =? 0)%Z then PhaseString else PhaseObject.

Definition decode_global_cursor (cursor : Z) : KeyScanCursor :=
  mkCursor (decode_phase cursor)
    (Z.shiftr (Z.land cursor (u64_MAX - CURSOR_OBJECT_PHASE)) CURSOR_SHARD_SHIFT)
    (Z.land cursor CURSOR_OFFSET_MASK).

Definition decode_local_cursor (cursor : Z) : KeyScanCursor :=
  mkCursor (decode_phase cursor) 0 (Z.land cursor CURSOR_OFFSET_MASK).

Definition encode_global_cursor (phase : KeyScanPhase) (shard_id offset : Z) : Z :=
  Z.lor (Z.lor (phase_bits phase) (wrap_u64 (Z.shiftl shard_id CURSOR_SHARD_SHIFT)))
    (Z.land offset CURSOR_OFFSET_MASK).

Definition encode_local_cursor (phase : KeyScanPhase) (offset : Z) : Z :=
  Z.lor (phase_bits phase) (Z.land offset CURSOR_OFFSET_MASK).

Definition initial_scan_phase (kind : RedisKeyScanType) : KeyScanPhase :=
  match kind with ScanAll | ScanString => PhaseString | ScanObject _ => PhaseObject end.

Definition initial_local_scan_phase (cursor : Z) (kind : RedisKeyScanType) : KeyScanPhase :=
  if (cursor =? 0)%Z then initial_scan_phase kind
  else
    let decoded := decode_local_cursor cursor in
    match kind, cur_phase decoded with
    | ScanObject _, PhaseString => PhaseObject
    | ScanString, PhaseObject => PhaseString
    | _, phase => phase
    end.

Section key_scan.
Context `{Hashing} {HT : Type → Type} `{!HashTable HT} `{TableOrder} `{FloatOps}.
Context {OT : Type} `{!IndexTreeSet ZSetOrderKey zk_cmp OT}.
Abbreviation FlatMap := (FlatMap (HT := HT)).
Abbreviation RedisObjectStore := (RedisObjectStore (HT := HT) (OT := OT)).

(** The string key space of every shard, the hints of their sizes, and the
    object store. *)
Record KeySpaces := mkSpaces {
  ks_maps : list FlatMap;
  string_key_counts : list Z;
  ks_objects : RedisObjectStore;
}.

Implicit Types (ks : KeySpaces) (now_ms limit : Z) (kind : RedisKeyScanType).

Definition initial_global_scan_cursor ks (cursor : Z) kind : KeyScanCursor :=
  if (cursor =? 0)%Z then mkCursor (initial_scan_phase kind) 0 0
  else
    let decoded := decode_global_cursor cursor in
    match kind, cur_phase decoded with
    | ScanObject _, PhaseString => mkCursor PhaseObject (cur_shard decoded) (cur_offset decoded)
    | ScanString, PhaseObject => mkCursor PhaseString (Z.of_nat (length (ks_maps ks))) 0
    | _, _ => decoded
    end.

Section visitor.
Context {S : Type} (visitor : S → Bytes → S * bool).

(** What the calls share: keys visited, keys emitted, and the caller's state. *)
Record Progress := mkProgress { visited : Z; emitted : Z; caller : S }.

(** The visit of one key; [scan_keys_visit] counts before it calls. *)
Definition visit_one (p : Progress) (key : Bytes) : Progress :=
  let '(s, emit) := visitor (caller p) key in
  mkProgress (visited p) (if emit : bool then u64_saturating_add (emitted p) 1 else emitted p) s.

Definition scan_string_shard ks (shard_id : nat) (offset limit now_ms : Z) (p : Progress) : option (Progress * option Z) :=
  count ← string_key_counts ks !! shard_id;
  if (count =? 0)%Z then Some (p, None)
  else
    m ← ks_maps ks !! shard_id;
    let '(keys, total, next) := FlatMap.scan_keys_visit m (Z.to_nat offset) limit now_ms (visited p) in
    let p := foldl visit_one p keys in
    Some (mkProgress total (emitted p) (caller p), Z.of_nat <$> next).

Definition scan_object_shard ks (shard_id : nat) (offset limit now_ms : Z) kind (p : Progress) : option (Progress * option Z) :=
  count ← shard_object_count_hint (ks_objects ks) shard_id;
  if count =? 0 then Some (p, None)
  else
    match kind with
    | ScanString => Some (p, None)
    | _ =>
        let type_filter := match kind with ScanObject k => Some k | _ => None end in
        '(st, next) ← scan_keys_in_shard_visit visitor (ks_objects ks) shard_id now_ms type_filter offset limit
                        (visited p) (emitted p) (caller p);
        Some (mkProgress (sc_visited st) (sc_emitted st) (sc_state st), next)
    end.

Definition scan_shard ks (phase : KeyScanPhase) (shard_id : nat) (offset limit now_ms : Z) kind (p : Progress) :=
  match phase with
  | PhaseString => scan_string_shard ks shard_id offset limit now_ms p
  | PhaseObject => scan_object_shard ks shard_id offset limit now_ms kind p
  end.

(** The inner loop: the [n] shards from [shard_id] on; where it stopped. *)
Fixpoint scan_shards (n : nat) ks (phase : KeyScanPhase) (shard_id : nat) (offset limit now_ms : Z) kind (p : Progress)
    : option (Progress * option (Z * Z)) :=
  match n with
  | 0 => Some (p, None)
  | Datatypes.S n =>
      '(p, stopped) ← scan_shard ks phase shard_id offset limit now_ms kind p;
      match stopped with
      | Some offset => Some (p, Some (Z.of_nat shard_id, offset))
      | None => scan_shards n ks phase (Datatypes.S shard_id) 0 limit now_ms kind p
      end
  end.

Definition scan_phase ks (phase : KeyScanPhase) (shard_id : Z) (offset limit now_ms : Z) kind (p : Progress) :=
  scan_shards (length (ks_maps ks) - Z.to_nat shard_id) ks phase (Z.to_nat shard_id) offset limit now_ms kind p.

(** Answer: the next cursor, 0 at the end, and the progress. *)
Definition scan_redis_keys_visit ks (cursor count : Z) kind now_ms (s : S) : option (Z * Progress) :=
  let limit := Z.max count 1 in
  let c := initial_global_scan_cursor ks cursor kind in
  '(p, stopped) ← scan_phase ks (cur_phase c) (cur_shard c) (cur_offset c) limit now_ms kind (mkProgress 0 0 s);
  match stopped with
  | Some (shard_id, offset) => Some (encode_global_cursor (cur_phase c) shard_id offset, p)
  | None =>
      match cur_phase c, kind with
      | PhaseString, ScanAll =>
          if has_objects (ks_objects ks) then
            '(p, stopped) ← scan_phase ks PhaseObject 0 0 limit now_ms kind p;
            match stopped with
            | Some (shard_id, offset) => Some (encode_global_cursor PhaseObject shard_id offset, p)
            | None => Some (0%Z, p)
            end
          else Some (0%Z, p)
      | _, _ => Some (0%Z, p)
      end
  end.

Definition scan_redis_keys_in_shard_visit ks (shard_id : nat) (cursor count : Z) kind now_ms (s : S) :
    option (option (Z * Progress)) :=
  if length (ks_maps ks) <=? shard_id then Some None
  else
    let limit := Z.max count 1 in
    let phase := initial_local_scan_phase cursor kind in
    let offset := cur_offset (decode_local_cursor cursor) in
    '(p, stopped) ← scan_shard ks phase shard_id offset limit now_ms kind (mkProgress 0 0 s);
    match stopped with
    | Some offset => Some (Some (encode_local_cursor phase offset, p))
    | None =>
        objects ← shard_object_count_hint (ks_objects ks) shard_id;
        match phase, kind with
        | PhaseString, ScanAll =>
            if 0 <? objects then
              '(p, stopped) ← scan_shard ks PhaseObject shard_id 0 limit now_ms kind p;
              match stopped with
              | Some offset => Some (Some (encode_local_cursor PhaseObject offset, p))
              | None => Some (Some (0%Z, p))
              end
            else Some (Some (0%Z, p))
        | _, _ => Some (Some (0%Z, p))
        end
    end.

(** [visit_redis_keys]: every key, until the visitor says stop. *)
Fixpoint visit_maps (shards : list (FlatMap * Z)) now_ms (s : S) : S * bool :=
  match shards with
  | [] => (s, true)
  | (m, count) :: shards =>
      if (count =? 0)%Z then visit_maps shards now_ms s
      else let '(s, more) := visit_key_iter visitor (snapshot_keys m now_ms) s in
           if more : bool then visit_maps shards now_ms s else (s, false)
  end.

Definition visit_redis_keys ks now_ms (s : S) : option S :=
  let '(s, more) := visit_maps (zip (ks_maps ks) (string_key_counts ks)) now_ms s in
  if more : bool then '(s, _) ← store_visit_keys visitor (ks_objects ks) now_ms s; Some s else Some s.
End visitor.
End key_scan.

(** * What a scan hands out

    The keys of a store stand in a line: the string keys shard by shard, then
    the objects shard by shard.  A cursor is a place on that line; a call hands
    out the next page of it and answers the place after the page. *)

(** ** Cursors *)
Definition in_cursor (shard_id offset : Z) : Prop := (0 ≤ shard_id < 2 ^ 31 ∧ 0 ≤ offset < 2 ^ 32)%Z.

Lemma land_shiftl_low (a b k : Z) : (0 ≤ k)%Z → (0 ≤ b < 2 ^ k)%Z → Z.land (Z.shiftl a k) b = 0%Z.
Proof.
  intros Hk Hb. destruct (Z.eq_dec b 0) as [->|]; [apply Z.land_0_r|]. apply Z.bits_inj'. intros i Hi. rewrite Z.land_spec, Z.bits_0. destruct (Z.ltb_spec i k) as [Hl|Hl].
  - by rewrite Z.shiftl_spec_low by lia.
  - rewrite (Z.bits_above_log2 b), andb_false_r; [done|lia|].
    apply Z.log2_lt_pow2; [lia|]. eapply Z.lt_le_trans; [apply Hb|]. apply Z.pow_le_mono_r; lia.
Qed.

Lemma encode_sum phase shard_id offset :
  in_cursor shard_id offset →
  encode_global_cursor phase shard_id offset = (phase_bits phase + shard_id * 2 ^ 32 + offset)%Z.
Proof.
  intros [Hs Ho]. unfold encode_global_cursor, CURSOR_OFFSET_MASK, CURSOR_SHARD_SHIFT.
  change u32_MAX with (Z.ones 32). rewrite Z.land_ones, Z.mod_small, Z.shiftl_mul_pow2 by lia.
  unfold wrap_u64. rewrite Z.mod_small by (unfold two64 in *; simpl; lia).
  assert (Hp : phase_bits phase = ((match phase with PhaseString => 0 | PhaseObject => 1 end) * 2 ^ 63)%Z) by by destruct phase.
  set (b := match phase with PhaseString => 0%Z | PhaseObject => 1%Z end) in Hp.
  assert (Hb : (0 ≤ b ≤ 1)%Z) by (unfold b; destruct phase; lia). rewrite Hp.
  replace (b * 2 ^ 63)%Z with (Z.shiftl b 63) by (rewrite Z.shiftl_mul_pow2; lia).
  rewrite <- (Z.shiftl_mul_pow2 shard_id 32) by lia.
  assert (E1 : Z.land (Z.shiftl b 63) (Z.shiftl shard_id 32) = 0%Z)
    by (apply land_shiftl_low; [lia|rewrite Z.shiftl_mul_pow2; lia]).
  rewrite <- (Z.lxor_lor _ _ E1), <- (Z.add_nocarry_lxor _ _ E1).
  assert (E2 : Z.land (Z.shiftl b 63 + Z.shiftl shard_id 32) offset = 0%Z).
  { replace (Z.shiftl b 63 + Z.shiftl shard_id 32)%Z with (Z.shiftl (b * 2 ^ 31 + shard_id) 32)
      by (rewrite !Z.shiftl_mul_pow2 by lia; ring).
    apply land_shiftl_low; lia. }
  by rewrite <- (Z.lxor_lor _ _ E2), <- (Z.add_nocarry_lxor _ _ E2).
Qed.

(** A cursor that was handed out names its phase, shard and position. *)
Lemma cursor_decode phase shard_id offset :
  in_cursor shard_id offset →
  decode_global_cursor (encode_global_cursor phase shard_id offset) = mkCursor phase shard_id offset.
Proof.
  intros Hc. rewrite encode_sum by done. destruct Hc as [Hs Ho]. unfold decode_global_cursor, decode_phase.
  set (c := (phase_bits phase + shard_id * 2 ^ 32 + offset)%Z).
  assert (Hlow : (c mod 2 ^ 63 = shard_id * 2 ^ 32 + offset)%Z).
  { unfold c. destruct phase; simpl phase_bits.
    - apply Z.mod_small. lia.
    - unfold CURSOR_OBJECT_PHASE. rewrite Z.shiftl_mul_pow2 by lia. rewrite <- Z.add_assoc, Z.add_comm.
      rewrite Z.mul_1_l. rewrite <- (Z.mul_1_l (2 ^ 63)) at 1. rewrite Z.mod_add by lia. apply Z.mod_small. lia. }
  assert (Hbit : Z.land c CURSOR_OBJECT_PHASE = phase_bits phase).
  { apply Z.bits_inj'. intros i Hi. unfold CURSOR_OBJECT_PHASE at 1. rewrite Z.land_spec, Z.shiftl_spec by lia.
    destruct (Z.eq_dec i 63) as [->|Hn].
    - rewrite andb_true_r, Z.testbit_eqb by lia. unfold c. destruct phase; simpl phase_bits.
      + rewrite Z.div_small by lia. done.
      + unfold CURSOR_OBJECT_PHASE. rewrite Z.shiftl_mul_pow2, <- Z.add_assoc, Z.add_comm by lia.
        rewrite Z.div_add by lia. rewrite Z.div_small by lia. done.
    - assert (Z.testbit 1 (i - 63) = false) as ->.
      { destruct (Z.ltb_spec (i - 63) 0); [by apply Z.testbit_neg_r|].
        change 1%Z with (2 ^ 0)%Z. apply Z.pow2_bits_false. lia. }
      rewrite andb_false_r. destruct phase; [by rewrite Z.bits_0|]. unfold phase_bits, CURSOR_OBJECT_PHASE.
      rewrite Z.shiftl_spec by lia. symmetry. destruct (Z.ltb_spec (i - 63) 0); [by apply Z.testbit_neg_r|].
      change 1%Z with (2 ^ 0)%Z. apply Z.pow2_bits_false. lia. }
  rewrite Hbit. f_equal.
  - by destruct phase.
  - change (u64_MAX - CURSOR_OBJECT_PHASE)%Z with (Z.ones 63). rewrite Z.land_ones, Hlow by lia.
    unfold CURSOR_SHARD_SHIFT. rewrite Z.shiftr_div_pow2, Z.add_comm, Z.div_add by lia.
    rewrite Z.div_small by lia. lia.
  - unfold CURSOR_OFFSET_MASK. change u32_MAX with (Z.ones 32). rewrite Z.land_ones by lia.
    assert (c mod 2 ^ 32 = (c mod 2 ^ 63) mod 2 ^ 32)%Z as ->.
    { rewrite <- Znumtheory.Zmod_div_mod; [done|lia|lia|]. by exists (2 ^ 31)%Z. }
    rewrite Hlow, Z.add_comm, Z.mod_add by lia. apply Z.mod_small. lia.
Qed.

Lemma cursor_nonzero phase shard_id offset :
  in_cursor shard_id offset → (0 < offset)%Z → encode_global_cursor phase shard_id offset ≠ 0%Z.
Proof.
  intros Hc Ho. rewrite encode_sum by done. destruct Hc. destruct phase; simpl phase_bits; [lia|].
  unfold CURSOR_OBJECT_PHASE. rewrite Z.shiftl_mul_pow2 by lia. lia.
Qed.

(** ** One shard *)
Lemma scan_list_general {S} (visitor : S → Bytes → S * bool) (co lim : Z) (l : list Bytes) (p v e : Z) (s : S) :
  (0 ≤ p)%Z → (0 ≤ v < lim)%Z → (v + Z.of_nat (length l) ≤ u64_MAX)%Z →
  let skip := Z.to_nat (co - p) in
  let page := take (Z.to_nat (lim - v)) (drop skip l) in
  let '(st, next) := scan_list visitor co lim l (mkScan p v e s) in
  sc_state st = foldl (λ s k, (visitor s k).1) s page ∧ sc_visited st = (v + Z.of_nat (length page))%Z ∧
  next = if (Z.to_nat (lim - v) <=? length (drop skip l))%nat then Some (Z.max p co + (lim - v))%Z else None.
Proof.
  revert p v e s. induction l as [|k l IH]; intros p v e s Hp Hv Hlen; cbn [scan_list].
  { rewrite drop_nil, take_nil. simpl. split; [done|]. split; [lia|]. destruct (Z.to_nat (lim - v)) eqn:E; [lia|done]. }
  unfold scan_step. simpl sc_position. simpl sc_visited. simpl sc_emitted. simpl sc_state. simpl length in Hlen.
  destruct (Z.ltb_spec p co) as [Hlt|Hge].
  - specialize (IH (p + 1)%Z v e s ltac:(lia) Hv ltac:(lia)). cbn [option_map].
    replace (Z.to_nat (co - p)) with (Datatypes.S (Z.to_nat (co - (p + 1)))) by lia. cbn [drop].
    replace (Z.max p co) with (Z.max (p + 1) co) by lia. exact IH.
  - replace (Z.to_nat (co - p)) with 0 by lia. rewrite drop_0. destruct (visitor s k) as [s' em] eqn:Ev.
    unfold saturating_inc. rewrite Z.min_l by lia.
    destruct (Z.leb_spec lim (v + 1)) as [Hl|Hl].
    + replace (Z.to_nat (lim - v)) with 1 by lia. cbn [take]. rewrite take_0. simpl. rewrite Ev.
      split; [done|]. split; [done|]. f_equal. lia.
    + specialize (IH (p + 1)%Z (v + 1)%Z (if em then Z.min (e + 1) u64_MAX else e) s' ltac:(lia) ltac:(lia) ltac:(lia)).
      cbv zeta in IH. replace (Z.to_nat (co - (p + 1))) with 0 in IH by lia. rewrite drop_0 in IH.
      replace (Z.to_nat (lim - v)) with (Datatypes.S (Z.to_nat (lim - (v + 1)))) by lia. cbn [take foldl length].
      rewrite Ev. destruct (scan_list visitor co lim l _) as [st next]. destruct IH as (-> & -> & ->).
      split; [done|]. split; [lia|]. cbn [Nat.leb]. destruct (_ <=? _); [f_equal; lia|done].
Qed.

Section key_scan_proofs.
Context `{Hashing} {HT : Type → Type} `{!HashTable HT} `{TableOrder} `{FloatOps}.
Context {OT : Type} `{!IndexTreeSet ZSetOrderKey zk_cmp OT}.
Abbreviation FlatMap := (FlatMap (HT := HT)).
Abbreviation KeySpaces := (KeySpaces (HT := HT) (OT := OT)).
Abbreviation collect := (λ (l : list Bytes) (k : Bytes), (l ++ [k], true)).
Abbreviation Progress := (Progress (S := list Bytes)).
Implicit Types (ks : KeySpaces) (m : FlatMap) (now_ms lim : Z).

Lemma collect_fold (l acc : list Bytes) : foldl (λ s k, (collect s k).1) acc l = acc ++ l.
Proof. revert acc. induction l as [|k l IH]; intros acc; simpl; [by rewrite app_nil_r|]. by rewrite IH, <- app_assoc. Qed.

Definition keys_from_entry now_ms (es : list FlatEntry) : list Bytes :=
  fe_key <$> filter (λ e, listable now_ms e = true) es.

Lemma scan_from_spec now_ms (es : list FlatEntry) (index : nat) (lim v : Z) :
  (0 ≤ v < lim)%Z → (v + Z.of_nat (length es) ≤ u64_MAX)%Z →
  let page := take (Z.to_nat (lim - v)) (keys_from_entry now_ms es) in
  let '(keys, total, next) := scan_from index es lim now_ms v in
  keys = page ∧ total = (v + Z.of_nat (length page))%Z ∧
  match next with
  | None => length (keys_from_entry now_ms es) < Z.to_nat (lim - v)
  | Some j => Z.to_nat (lim - v) ≤ length (keys_from_entry now_ms es) ∧ index < j ≤ index + length es ∧
              keys_from_entry now_ms (drop (j - index) es) = drop (Z.to_nat (lim - v)) (keys_from_entry now_ms es)
  end.
Proof.
  revert index v. induction es as [|e es IH]; intros index v Hv Hlen; cbn [scan_from].
  { unfold keys_from_entry. simpl. rewrite take_nil. simpl. split; [done|]. split; [lia|]. lia. }
  simpl length in Hlen. unfold keys_from_entry. rewrite filter_cons. destruct (listable now_ms e) eqn:El.
  - rewrite decide_True by done. rewrite u64_saturating_add_exact by lia. cbn [fmap list_fmap].
    destruct (Z.leb_spec lim (v + 1)) as [Hl|Hl].
    + replace (Z.to_nat (lim - v)) with 1 by lia. cbn [take]. rewrite take_0. simpl. split; [done|]. split; [done|].
      split; [lia|]. split; [lia|]. replace (Datatypes.S index - index) with 1 by lia. simpl. by rewrite !drop_0.
    + specialize (IH (Datatypes.S index) (v + 1)%Z ltac:(lia) ltac:(lia)).
      destruct (scan_from (Datatypes.S index) es lim now_ms (v + 1)) as [[keys total] next].
      destruct IH as (-> & -> & Hn). replace (Z.to_nat (lim - v)) with (Datatypes.S (Z.to_nat (lim - (v + 1)))) by lia.
      cbn [take length drop]. split; [done|]. split; [fold (keys_from_entry now_ms es); lia|]. destruct next as [j|]; [|unfold keys_from_entry in Hn; lia].
      destruct Hn as (Hn & Hj & E). unfold keys_from_entry in Hn, E. split; [lia|]. split; [lia|].
      replace (j - index) with (Datatypes.S (j - Datatypes.S index)) by lia. exact E.
  - rewrite decide_False by congruence. specialize (IH (Datatypes.S index) v Hv ltac:(lia)).
    destruct (scan_from (Datatypes.S index) es lim now_ms v) as [[keys total] next]. fold (keys_from_entry now_ms es).
    destruct IH as (-> & -> & Hn). split; [done|]. split; [done|]. destruct next as [j|]; [|done].
    destruct Hn as (Hn & Hj & E). split; [done|]. split; [simpl; lia|].
    replace (j - index) with (Datatypes.S (j - Datatypes.S index)) by lia. exact E.
Qed.

(** ** The line of keys *)
Section line.
Context (ks : KeySpaces) (A : list (list AState)) (now_ms : Z).

(** The keys of a shard from a position on. *)
Definition rest_in (phase : KeyScanPhase) (i : nat) (offset : Z) : list Bytes :=
  match phase with
  | PhaseString => from_option (λ m, keys_from_entry now_ms (drop (Z.to_nat offset) (flat_entries m))) [] (ks_maps ks !! i)
  | PhaseObject =>
      match shards (ks_objects ks) !! i, A !! i with
      | Some sh, Some As => drop (Z.to_nat offset) (shard_keys now_ms (buckets sh) As)
      | _, _ => []
      end
  end.

(** The keys of [n] shards from a position on. *)
Fixpoint line (phase : KeyScanPhase) (n i : nat) (offset : Z) : list Bytes :=
  match n with 0 => [] | Datatypes.S n => rest_in phase i offset ++ line phase n (Datatypes.S i) 0 end.

Record spaces_ok : Prop := {
  sp_counts : Forall2 (λ m c, (c = 0)%Z → flat_entries m = []) (ks_maps ks) (string_key_counts ks);
  sp_store : store_rep (ks_objects ks) A;
  sp_len : length A = length (ks_maps ks);
  sp_shards : (Z.of_nat (length (ks_maps ks)) ≤ 2 ^ 31)%Z;
  sp_strings : ∀ m, m ∈ ks_maps ks → (Z.of_nat (length (flat_entries m)) < 2 ^ 32)%Z;
  sp_objects : ∀ i, (Z.of_nat (length (rest_in PhaseObject i 0)) < 2 ^ 32)%Z;
}.

Context (Hok : spaces_ok).

(** A call on a shard, counted from [v] keys visited, that may visit up to [lim]. *)
Definition scans (lim v : Z) (l : list Bytes) (rest : list Bytes) (r : option (Progress * option Z)) (next : Z → Prop) : Prop :=
  let n := Z.to_nat (lim - v) in
  ∃ e stopped, r = Some (mkProgress (v + Z.of_nat (length (take n rest))) e (l ++ take n rest), stopped) ∧
    match stopped with None => length rest < n | Some offset => n ≤ length rest ∧ next offset end.

Lemma scan_string_spec (i : nat) (offset lim v e : Z) (l : list Bytes) :
  i < length (ks_maps ks) → (0 ≤ offset)%Z → (0 ≤ v < lim)%Z → (lim ≤ 2 ^ 63)%Z →
  scans lim v l (rest_in PhaseString i offset) (scan_string_shard collect ks i offset lim now_ms (mkProgress v e l))
    (λ o, (0 < o < 2 ^ 32)%Z ∧ rest_in PhaseString i o = drop (Z.to_nat (lim - v)) (rest_in PhaseString i offset)).
Proof.
  intros Hi Ho Hv Hl. apply lookup_lt_is_Some in Hi as [m Hm].
  destruct (Forall2_lookup_l _ _ _ _ _ (sp_counts Hok) Hm) as (c & Hc & Hz).
  pose proof (sp_strings Hok m (list_elem_of_lookup_2 _ _ _ Hm)) as Hlen.
  unfold scans, scan_string_shard, rest_in. rewrite Hc, Hm. cbn [mbind option_bind from_option].
  destruct (Z.eqb_spec c 0) as [E|E].
  - rewrite (Hz E), drop_nil. unfold keys_from_entry. simpl. rewrite take_nil. exists e, None. simpl.
    rewrite Z.add_0_r, app_nil_r. split; [done|]. lia.
  - pose proof (scan_from_spec now_ms (drop (Z.to_nat offset) (flat_entries m)) (Z.to_nat offset) lim v Hv) as Hs.
    rewrite length_drop in Hs. specialize (Hs ltac:(unfold u64_MAX; lia)). unfold FlatMap.scan_keys_visit. cbn [visited].
    destruct (scan_from _ _ lim now_ms v) as [[keys total] next]. destruct Hs as (-> & -> & Hn).
    set (page := take _ _) in *.
    assert (∀ (ps : list Bytes) (p : Progress), caller (foldl (visit_one collect) p ps) = caller p ++ ps) as Hf.
    { induction ps as [|k ps IH]; intros p; simpl; [by rewrite app_nil_r|]. rewrite IH. simpl. by rewrite <- app_assoc. }
    rewrite Hf. simpl caller. eexists _, _. split; [done|]. destruct next as [j|]; simpl; [|done].
    destruct Hn as (Hn & Hj & E2). split; [done|]. split; [lia|]. rewrite Nat2Z.id. rewrite drop_drop in E2.
    replace (Z.to_nat offset + (j - Z.to_nat offset)) with j in E2 by lia. exact E2.
Qed.

Lemma scan_object_spec (i : nat) (offset lim v e : Z) (l : list Bytes) :
  i < length (ks_maps ks) → (0 ≤ offset)%Z → (0 ≤ v < lim)%Z → (lim ≤ 2 ^ 63)%Z →
  scans lim v l (rest_in PhaseObject i offset) (scan_object_shard collect ks i offset lim now_ms ScanAll (mkProgress v e l))
    (λ o, (0 < o < 2 ^ 32)%Z ∧ rest_in PhaseObject i o = drop (Z.to_nat (lim - v)) (rest_in PhaseObject i offset)).
Proof.
  intros Hi Ho Hv Hl. rewrite <- (sp_len Hok) in Hi. apply lookup_lt_is_Some in Hi as [As HA].
  destruct (Forall2_lookup_r _ _ _ _ _ (st_shards _ _ (sp_store Hok)) HA) as (sh & Hsh & Hrep).
  pose proof (sp_objects Hok i) as Hlen. unfold rest_in in Hlen. rewrite Hsh, HA, drop_0 in Hlen.
  unfold scans, scan_object_shard, rest_in. rewrite Hsh, HA.
  set (keys := shard_keys now_ms (buckets sh) As) in *. unfold shard_object_count_hint. rewrite Hsh. cbn [mbind option_bind].
  destruct (_ =? 0) eqn:E.
  - apply Nat.eqb_eq in E. assert (keys = []) as -> by (apply shard_keys_empty; [done|lia]).
    rewrite drop_nil, take_nil. exists e, None. simpl. rewrite Z.add_0_r, app_nil_r. split; [done|]. lia.
  - cbn [visited emitted caller]. rewrite (scan_in_shard_spec _ _ A i sh As) by (apply Hok || done). fold keys.
    pose proof (scan_list_general collect offset lim keys 0 v e l ltac:(lia) Hv ltac:(unfold u64_MAX; lia)) as Hs.
    cbn [mbind option_bind]. destruct (scan_list collect offset lim keys _) as [st next].
    cbv zeta in Hs. rewrite Z.sub_0_r, collect_fold in Hs. destruct Hs as (-> & -> & ->).
    eexists _, _. split; [done|]. destruct (_ <=? _) eqn:En; bool_case; [|lia].
    split; [done|]. rewrite length_drop in En. split; [lia|]. rewrite drop_drop. f_equal. lia.
Qed.

Lemma scan_shard_spec (phase : KeyScanPhase) (i : nat) (offset lim v e : Z) (l : list Bytes) :
  i < length (ks_maps ks) → (0 ≤ offset)%Z → (0 ≤ v < lim)%Z → (lim ≤ 2 ^ 63)%Z →
  scans lim v l (rest_in phase i offset) (scan_shard collect ks phase i offset lim now_ms ScanAll (mkProgress v e l))
    (λ o, (0 < o < 2 ^ 32)%Z ∧ rest_in phase i o = drop (Z.to_nat (lim - v)) (rest_in phase i offset)).
Proof. destruct phase; [apply scan_string_spec|apply scan_object_spec]. Qed.

(** The place where a call stopped: what is left is the line without the page. *)
Definition left_at (phase : KeyScanPhase) (after : list Bytes) (x : Z * Z) : Prop :=
  in_cursor x.1 x.2 ∧ (0 < x.2)%Z ∧ (x.1 < Z.of_nat (length (ks_maps ks)))%Z ∧
  line phase (length (ks_maps ks) - Z.to_nat x.1) (Z.to_nat x.1) x.2 = after.

Lemma scan_shards_spec (phase : KeyScanPhase) (n i : nat) (offset lim v e : Z) (l : list Bytes) :
  i + n = length (ks_maps ks) → (0 ≤ offset)%Z → (0 ≤ v < lim)%Z → (lim ≤ 2 ^ 63)%Z →
  let N := Z.to_nat (lim - v) in
  let rest := line phase n i offset in
  ∃ e' stopped,
    scan_shards collect n ks phase i offset lim now_ms ScanAll (mkProgress v e l) =
      Some (mkProgress (v + Z.of_nat (length (take N rest))) e' (l ++ take N rest), stopped) ∧
    match stopped with None => length rest < N | Some x => N ≤ length rest ∧ left_at phase (drop N rest) x end.
Proof.
  revert i offset v e l. induction n as [|n IH]; intros i offset v e l Hin Ho Hv Hl; cbn zeta.
  { simpl. rewrite take_nil. exists e, None. simpl. rewrite Z.add_0_r, app_nil_r. split; [done|]. lia. }
  cbn [scan_shards line]. pose proof (sp_shards Hok) as Hsz.
  destruct (scan_shard_spec phase i offset lim v e l ltac:(lia) Ho Hv Hl) as (e1 & stopped & -> & Hs). cbn [mbind option_bind].
  set (r := rest_in phase i offset) in *. set (t := line phase n (Datatypes.S i) 0). destruct stopped as [o|].
  - destruct Hs as (HN & Hoff & Hr). exists e1, (Some (Z.of_nat i, o)). rewrite take_app_le by done. split; [done|].
    split; [rewrite length_app; lia|]. rewrite drop_app_le by done. unfold left_at. simpl. rewrite Nat2Z.id.
    split; [split; lia|]. split; [lia|]. split; [lia|].
    replace (length (ks_maps ks) - i) with (Datatypes.S n) by lia. simpl. by rewrite Hr.
  - rewrite (take_ge r) by lia.
    destruct (IH (Datatypes.S i) 0%Z (v + Z.of_nat (length r))%Z e1 (l ++ r)) as (e2 & stopped & -> & Hs2); [lia|lia|lia|done|].
    fold t in Hs2 |- *. replace (Z.to_nat (lim - (v + Z.of_nat (length r)))) with (Z.to_nat (lim - v) - length r) in * by lia.
    assert (Et : take (Z.to_nat (lim - v)) (r ++ t) = r ++ take (Z.to_nat (lim - v) - length r) t).
    { rewrite take_app. by rewrite (take_ge r) by lia. }
    rewrite Et, length_app, app_assoc. eexists _, stopped. split; [by rewrite Nat2Z.inj_add, Z.add_assoc|].
    destruct stopped as [x|]; [|rewrite length_app; lia]. destruct Hs2 as (HN & Hx). split; [rewrite length_app; lia|].
    rewrite drop_app, (drop_ge r) by lia. exact Hx.
Qed.

(** ** The whole scan *)
Definition object_line : list Bytes := line PhaseObject (length (ks_maps ks)) 0 0.

(** What is left of the scan at a cursor. *)
Definition left_from (c : KeyScanCursor) : list Bytes :=
  let here := line (cur_phase c) (length (ks_maps ks) - Z.to_nat (cur_shard c)) (Z.to_nat (cur_shard c)) (cur_offset c) in
  match cur_phase c with PhaseString => here ++ object_line | PhaseObject => here end.

Definition good_cursor (c : KeyScanCursor) : Prop :=
  in_cursor (cur_shard c) (cur_offset c) ∧ (cur_shard c ≤ Z.of_nat (length (ks_maps ks)))%Z.

Lemma no_objects_line : has_objects (ks_objects ks) = false → object_line = [].
Proof.
  intros Hn. unfold object_line. generalize 0%Z as offset. generalize 0 as i. generalize (length (ks_maps ks)) as n.
  induction n as [|n IH]; intros i offset; [done|]. cbn [line]. rewrite IH, app_nil_r. unfold rest_in.
  destruct (shards (ks_objects ks) !! i) as [sh|] eqn:Esh; [|done]. destruct (A !! i) as [As|] eqn:EA; [|done].
  rewrite shard_keys_empty; [apply drop_nil|exact (Forall2_lookup_lr _ _ _ _ _ _ (st_shards _ _ (sp_store Hok)) Esh EA)|].
  destruct (Z.le_gt_cases (object_count sh) 0) as [?|Hc]; [done|].
  assert (has_objects_hint (ks_objects ks) = true) as Hh.
  { apply (st_hint _ _ (sp_store Hok) sh); [by eapply list_elem_of_lookup_2|lia]. }
  unfold has_objects in Hn. congruence.
Qed.

Lemma scan_phase_spec (phase : KeyScanPhase) (shard_id offset lim v e : Z) (l : list Bytes) :
  (0 ≤ shard_id ≤ Z.of_nat (length (ks_maps ks)))%Z → (0 ≤ offset)%Z → (0 ≤ v < lim)%Z → (lim ≤ 2 ^ 63)%Z →
  let N := Z.to_nat (lim - v) in
  let rest := line phase (length (ks_maps ks) - Z.to_nat shard_id) (Z.to_nat shard_id) offset in
  ∃ e' stopped,
    scan_phase collect ks phase shard_id offset lim now_ms ScanAll (mkProgress v e l) =
      Some (mkProgress (v + Z.of_nat (length (take N rest))) e' (l ++ take N rest), stopped) ∧
    match stopped with None => length rest < N | Some x => N ≤ length rest ∧ left_at phase (drop N rest) x end.
Proof. intros Hs Ho Hv Hl. unfold scan_phase. apply scan_shards_spec; [lia|done|done|done]. Qed.

(** A cursor that was answered. *)
Definition handed (cursor : Z) (after : list Bytes) : Prop :=
  ∃ c, cursor ≠ 0%Z ∧ decode_global_cursor cursor = c ∧ good_cursor c ∧ left_from c = after.

Lemma handed_at (phase : KeyScanPhase) (x : Z * Z) (after : list Bytes) :
  left_at phase after x →
  handed (encode_global_cursor phase x.1 x.2) (match phase with PhaseString => after ++ object_line | PhaseObject => after end).
Proof.
  intros (Hc & Hp & Hlt & E). exists (mkCursor phase x.1 x.2). split; [by apply cursor_nonzero|].
  split; [by apply cursor_decode|]. split; [split; [done|simpl; lia]|]. unfold left_from. simpl. rewrite E. by destruct phase.
Qed.

(** A call from a cursor: the next page, and the cursor after it. *)
Lemma scan_call_spec (cursor count : Z) (l : list Bytes) :
  (count ≤ 2 ^ 63)%Z →
  let c := initial_global_scan_cursor ks cursor ScanAll in
  let N := Z.to_nat (Z.max count 1) in
  good_cursor c →
  ∃ next p, scan_redis_keys_visit collect ks cursor count ScanAll now_ms l = Some (next, p) ∧
    caller p = l ++ take N (left_from c) ∧
    if decide (N ≤ length (left_from c)) then handed next (drop N (left_from c)) else next = 0%Z.
Proof.
  intros Hcount c N [[Hs Ho] Hle]. unfold scan_redis_keys_visit. fold c.
  set (lim := Z.max count 1) in *. assert (Hlim : (1 ≤ lim ≤ 2 ^ 63)%Z) by lia. assert (HN : 1 ≤ N) by lia.
  destruct (scan_phase_spec (cur_phase c) (cur_shard c) (cur_offset c) lim 0 0 l) as (e1 & stopped & -> & Hst); [lia..|].
  cbn [mbind option_bind]. rewrite Z.sub_0_r in *. fold N in Hst |- *. unfold left_from. set (here := line _ _ _ _) in *.
  destruct stopped as [[j o]|].
  { destruct Hst as (HNl & Hleft). pose proof (handed_at _ _ _ Hleft) as Hh. simpl in Hh. eexists _, _. split; [done|].
    simpl caller. destruct (cur_phase c).
    - rewrite take_app_le, drop_app_le by done. split; [done|]. rewrite decide_True; [done|rewrite length_app; lia].
    - split; [done|]. by rewrite decide_True. }
  rewrite (take_ge here) by lia. destruct (cur_phase c).
  2:{ eexists _, _. split; [done|]. rewrite (take_ge here) by lia. split; [done|]. rewrite decide_False; [done|lia]. }
  destruct (has_objects (ks_objects ks)) eqn:Eh.
  2:{ rewrite no_objects_line by done. rewrite app_nil_r. eexists _, _. split; [done|]. rewrite (take_ge here) by lia.
      split; [done|]. rewrite decide_False; [done|lia]. }
  destruct (scan_phase_spec PhaseObject 0 0 lim (Z.of_nat (length here)) e1 (l ++ here)) as (e2 & stopped & E2 & Hst2); [lia..|].
  rewrite Z.add_0_l, E2. cbn [mbind option_bind]. clear E2. change (Z.to_nat 0) with 0 in *. rewrite Nat.sub_0_r in *. fold object_line in Hst2 |- *.
  replace (Z.to_nat (lim - Z.of_nat (length here))) with (N - length here) in * by lia.
  assert (Et : take N (here ++ object_line) = here ++ take (N - length here) object_line)
    by (rewrite take_app; by rewrite (take_ge here) by lia).
  rewrite Et. destruct stopped as [[j o]|].
  - destruct Hst2 as (HNl & Hleft). pose proof (handed_at _ _ _ Hleft) as Hh. simpl in Hh. eexists _, _. split; [done|].
    simpl. rewrite app_assoc. split; [done|]. rewrite decide_True by (rewrite length_app; lia).
    by rewrite drop_app, (drop_ge here) by lia.
  - eexists _, _. split; [done|]. simpl. rewrite app_assoc. split; [done|]. rewrite decide_False; [done|rewrite length_app; lia].
Qed.

(** A client that follows the cursor to the end. *)
Fixpoint scan_everything (fuel : nat) (cursor count : Z) : option (list Bytes) :=
  match fuel with
  | 0 => None
  | Datatypes.S fuel =>
      '(next, p) ← scan_redis_keys_visit collect ks cursor count ScanAll now_ms [];
      if (next =? 0)%Z then Some (caller p)
      else rest ← scan_everything fuel next count; Some (caller p ++ rest)
  end.

Lemma scan_everything_spec (fuel : nat) (cursor count : Z) :
  (count ≤ 2 ^ 63)%Z → let c := initial_global_scan_cursor ks cursor ScanAll in
  good_cursor c → length (left_from c) < fuel → scan_everything fuel cursor count = Some (left_from c).
Proof.
  intros Hcount. revert cursor. induction fuel as [|fuel IH]; intros cursor c Hc Hf; [lia|]. cbn [scan_everything].
  destruct (scan_call_spec cursor count [] Hcount Hc) as (next & p & -> & Hp & Hn). fold c in Hn, Hp |- *.
  cbn [mbind option_bind]. rewrite Hp.
  case_decide as Hd.
  - destruct Hn as (c' & Hnz & Hdec & Hg & Hl). rewrite (proj2 (Z.eqb_neq _ _) Hnz).
    assert (initial_global_scan_cursor ks next ScanAll = c') as Ec.
    { unfold initial_global_scan_cursor. rewrite (proj2 (Z.eqb_neq _ _) Hnz), Hdec. by destruct (cur_phase c'). }
    rewrite (IH next) by (rewrite Ec; [done|rewrite Hl, length_drop; lia] || (rewrite Ec; done) || (rewrite Ec, Hl, length_drop; lia)).
    rewrite Ec, Hl. cbn [mbind option_bind app]. f_equal. apply take_drop.
  - subst next. simpl. f_equal. apply take_ge. lia.
Qed.

(** The line is the listing of both key spaces. *)
Lemma line_strings_from (i : nat) :
  line PhaseString (length (ks_maps ks) - i) i 0 = drop i (ks_maps ks) ≫= λ m, snapshot_keys m now_ms.
Proof.
  remember (length (ks_maps ks) - i) as n eqn:En. revert i En. induction n as [|n IH]; intros i En; cbn [line].
  - by rewrite drop_ge by lia.
  - destruct (lookup_lt_is_Some_2 (ks_maps ks) i ltac:(lia)) as [m Hm]. rewrite (drop_S _ _ _ Hm). simpl. rewrite Hm. simpl.
    rewrite drop_0. f_equal. apply IH. lia.
Qed.

Lemma line_objects_from (i : nat) :
  line PhaseObject (length (ks_maps ks) - i) i 0 =
  mjoin (drop i (zip_with (λ sh As, shard_keys now_ms (buckets sh) As) (shards (ks_objects ks)) A)).
Proof.
  pose proof (Forall2_length _ _ _ (st_shards _ _ (sp_store Hok))) as Hl. pose proof (sp_len Hok) as Hl2.
  assert (Hz : length (zip_with (λ sh As, shard_keys now_ms (buckets sh) As) (shards (ks_objects ks)) A) = length (ks_maps ks))
    by (rewrite length_zip_with; lia).
  remember (length (ks_maps ks) - i) as n eqn:En. revert i En. induction n as [|n IH]; intros i En; cbn [line].
  - by rewrite drop_ge by lia.
  - destruct (lookup_lt_is_Some_2 (shards (ks_objects ks)) i ltac:(lia)) as [sh Hsh].
    destruct (lookup_lt_is_Some_2 A i ltac:(lia)) as [As HA].
    rewrite (drop_S _ (shard_keys now_ms (buckets sh) As)) by (rewrite lookup_zip_with, Hsh; simpl; by rewrite HA).
    simpl. rewrite Hsh, HA, drop_0. f_equal. apply IH. lia.
Qed.

Lemma left_from_start :
  left_from (mkCursor PhaseString 0 0) =
  (ks_maps ks ≫= λ m, snapshot_keys m now_ms) ++ store_all_keys now_ms (ks_objects ks) A.
Proof.
  pose proof (line_strings_from 0) as Es. pose proof (line_objects_from 0) as Eo. rewrite Nat.sub_0_r in Es, Eo.
  unfold left_from, object_line. cbn [cur_phase cur_shard cur_offset]. change (Z.to_nat 0) with 0.
  rewrite Nat.sub_0_r, Es, Eo. done.
Qed.

Lemma collect_visit (l acc : list Bytes) : visit_key_iter collect l acc = (acc ++ l, true).
Proof. revert acc. induction l as [|k l IH]; intros acc; simpl; [by rewrite app_nil_r|]. by rewrite IH, <- app_assoc. Qed.

Lemma visit_maps_spec (ms : list FlatMap) (counts : list Z) (l : list Bytes) :
  Forall2 (λ m c, (c = 0)%Z → flat_entries m = []) ms counts →
  visit_maps collect (zip ms counts) now_ms l = (l ++ (ms ≫= λ m, snapshot_keys m now_ms), true).
Proof.
  intros Hf. revert l. induction Hf as [|m c ms counts Hz Hf IH]; intros l; [simpl; by rewrite app_nil_r|].
  cbn [zip zip_with visit_maps mbind list_bind]. destruct (Z.eqb_spec c 0) as [E|E].
  - rewrite IH. assert (snapshot_keys m now_ms = []) as -> by (unfold snapshot_keys; by rewrite (Hz E)). done.
  - rewrite collect_visit, IH. by rewrite <- app_assoc.
Qed.

Lemma visit_redis_keys_spec :
  visit_redis_keys collect ks now_ms [] =
  Some ((ks_maps ks ≫= λ m, snapshot_keys m now_ms) ++ store_all_keys now_ms (ks_objects ks) A).
Proof.
  unfold visit_redis_keys. rewrite visit_maps_spec by apply Hok.
  by rewrite (store_visit_keys_spec _ _ A), collect_visit by apply Hok.
Qed.
End line.
End key_scan_proofs.
