(* ===== verification/KeyedTable.v ===== *)
(** * Hash tables whose entries carry their key

    A [hashbrown::HashTable] whose entries store their key and its hash, each
    key once and under its hash, stands for a finite map.  What find, update,
    insert and remove do to that map, for any type of entries. *)

From S2P Require Import Prelude Deps.

Section keyed_table.
Context `{Hashing} {HT : Type → Type} `{!HashTable HT}.
Context {E : Type} (ekey : E → Bytes) (ehash : E → Z).
Implicit Types (t : HT E) (e : E) (key : Bytes).

Definition telems t : list E := (ht_elements t).*2.
Definition placed (x : Z * E) : Prop := x.1 = local_table_hash (ehash x.2) ∧ ehash x.2 = hash_key (ekey x.2).
Definition twf t : Prop := Forall placed (ht_elements t) ∧ NoDup (ekey <$> telems t).
Definition tmap t : gmap Bytes E := list_to_map ((λ e, (ekey e, e)) <$> telems t).

(** The predicates with which the entry of a key is looked up. *)
Definition finds key (p : E → bool) : Prop := ∀ e, p e = true ↔ ehash e = hash_key key ∧ ekey e = key.

Lemma keyed_fst (l : list E) : ((λ e, (ekey e, e)) <$> l).*1 = ekey <$> l.
Proof. rewrite <- list_fmap_compose. done. Qed.

Lemma twf_new : twf ht_new ∧ tmap ht_new = ∅.
Proof. unfold twf, tmap, telems. rewrite ht_new_elements. split; [split; constructor|done]. Qed.

Lemma telems_lookup t e : twf t → e ∈ telems t → tmap t !! ekey e = Some e.
Proof.
  intros [_ Hnd] He. apply elem_of_list_to_map; [by rewrite keyed_fst|]. by apply (list_elem_of_fmap_2 (λ e, (ekey e, e))).
Qed.

Lemma tmap_Some t key e : tmap t !! key = Some e → e ∈ telems t ∧ ekey e = key.
Proof. intros He%elem_of_list_to_map_2. apply list_elem_of_fmap in He as (e' & [= -> ->] & ?). done. Qed.

Lemma telem_placed t e : twf t → e ∈ telems t → (local_table_hash (hash_key (ekey e)), e) ∈ ht_elements t.
Proof.
  intros [Hp _] ([h e'] & -> & Hx)%list_elem_of_fmap. rewrite Forall_forall in Hp. destruct (Hp _ Hx) as [E1 E2].
  simpl in *. by rewrite <- E2, <- E1.
Qed.

Lemma tfind t key p : twf t → finds key p → ht_find t (local_table_hash (hash_key key)) p = tmap t !! key.
Proof.
  intros Hwf Hp. destruct (ht_find t _ p) as [e|] eqn:Hf.
  - apply ht_find_Some in Hf as [[_ <-]%Hp [h He]]. symmetry. apply telems_lookup; [done|].
    by apply (list_elem_of_fmap_2 snd) in He.
  - destruct (tmap t !! key) as [e|] eqn:Hm; [|done]. apply tmap_Some in Hm as [He <-].
    pose proof (proj1 Hwf) as Hpl. rewrite Forall_forall in Hpl.
    pose proof (telem_placed t e Hwf He) as Hin. destruct (Hpl _ Hin) as [_ Hh].
    pose proof (ht_find_None _ _ _ _ Hf Hin) as Hc. rewrite (proj2 (Hp e)) in Hc; done.
Qed.

(** Splitting off the entry of a key. *)
Lemma tmap_perm (l l' : list E) :
  NoDup (ekey <$> l) → l ≡ₚ l' →
  (list_to_map ((λ e, (ekey e, e)) <$> l) : gmap Bytes E) = list_to_map ((λ e, (ekey e, e)) <$> l').
Proof. intros Hnd Hl. apply list_to_map_proper; [by rewrite keyed_fst|by rewrite Hl]. Qed.

Lemma tmap_rest t e rest :
  twf t → telems t ≡ₚ e :: rest →
  NoDup (ekey <$> rest) ∧ ekey e ∉ ekey <$> rest ∧
  (list_to_map ((λ e, (ekey e, e)) <$> rest) : gmap Bytes E) = delete (ekey e) (tmap t).
Proof.
  intros [_ Hnd] Hl. unfold tmap. rewrite (tmap_perm _ _ Hnd Hl). rewrite Hl in Hnd.
  rewrite fmap_cons in Hnd. apply NoDup_cons in Hnd as [Hk Hnd]. split; [done|]. split; [done|].
  cbn [fmap list_fmap list_to_map foldr uncurry]. rewrite delete_insert_id; [done|].
  apply not_elem_of_list_to_map_1. by rewrite keyed_fst.
Qed.

Lemma tupdate t key p f e :
  twf t → finds key p → tmap t !! key = Some e → ekey (f e) = ekey e → ehash (f e) = ehash e →
  let t' := ht_update t (local_table_hash (hash_key key)) p f in
  twf t' ∧ tmap t' = <[key := f e]> (tmap t) ∧ ∃ rest, telems t ≡ₚ e :: rest ∧ telems t' ≡ₚ f e :: rest.
Proof.
  intros Hwf Hp He Hk Hh t'. pose proof Hwf as [Hpl Hnd]. rewrite <- (tfind t key p Hwf Hp) in He.
  pose proof He as He'. rewrite tfind in He' by done. apply tmap_Some in He' as [_ Hkey].
  destruct (ht_update_Some _ _ _ f _ He) as (h & l1 & l2 & E1 & E2). fold t' in E2.
  assert (Ht : telems t ≡ₚ e :: (l1.*2 ++ l2.*2)).
  { unfold telems. rewrite E1, fmap_app, fmap_cons. cbn [snd]. by rewrite Permutation_middle. }
  assert (Ht' : telems t' ≡ₚ f e :: (l1.*2 ++ l2.*2)).
  { unfold telems. rewrite E2, fmap_app, fmap_cons. cbn [snd]. by rewrite Permutation_middle. }
  destruct (tmap_rest _ _ _ Hwf Ht) as (Hr & Hkr & Hrest).
  assert (Hnd' : NoDup (ekey <$> telems t')).
  { rewrite Ht', fmap_cons, Hk. by constructor. }
  assert (Hwf' : twf t').
  { split; [|done]. rewrite E2. rewrite E1 in Hpl. rewrite !Forall_app, !Forall_cons in *.
    destruct Hpl as (? & [Q1 Q2] & ?). split; [done|]. split; [|done].
    split; simpl in *; rewrite ?Hh, ?Hk; done. }
  split; [done|]. split; [|by exists (l1.*2 ++ l2.*2)].
  unfold tmap at 1. rewrite (tmap_perm _ _ Hnd' Ht'). cbn [fmap list_fmap list_to_map foldr uncurry].
  rewrite Hrest, Hk, Hkey. by rewrite insert_delete_eq.
Qed.

Lemma tinsert t e :
  twf t → tmap t !! ekey e = None → ehash e = hash_key (ekey e) →
  let t' := ht_insert_unique t (local_table_hash (hash_key (ekey e))) e (λ e, local_table_hash (ehash e)) in
  twf t' ∧ tmap t' = <[ekey e := e]> (tmap t) ∧ telems t' ≡ₚ e :: telems t.
Proof.
  intros [Hpl Hnd] Hn Hh t'.
  assert (Hel : ht_elements t' ≡ₚ (local_table_hash (hash_key (ekey e)), e) :: ht_elements t).
  { apply ht_insert_elements. intros h x Hx. rewrite Forall_forall in Hpl. by destruct (Hpl _ Hx). }
  assert (Ht : telems t' ≡ₚ e :: telems t) by (unfold telems; rewrite Hel; done).
  assert (Hnd' : NoDup (ekey <$> telems t')).
  { rewrite Ht, fmap_cons. constructor; [|done]. rewrite <- keyed_fst. by apply not_elem_of_list_to_map_2. }
  split; [|split; [|done]].
  - split; [|done]. rewrite Hel. constructor; [|done]. by split; simpl; rewrite ?Hh.
  - unfold tmap at 1. by rewrite (tmap_perm _ _ Hnd' Ht).
Qed.

Lemma tremove t key p :
  twf t → finds key p →
  match tmap t !! key with
  | None => ht_remove t (local_table_hash (hash_key key)) p = None
  | Some e => ∃ t', ht_remove t (local_table_hash (hash_key key)) p = Some (e, t') ∧
                    twf t' ∧ tmap t' = delete key (tmap t) ∧ telems t ≡ₚ e :: telems t'
  end.
Proof.
  intros Hwf Hp. rewrite <- (tfind t key p) by done. destruct (ht_find t _ p) as [e|] eqn:Hf; [|by apply ht_remove_None].
  destruct (ht_remove_Some _ _ _ _ Hf) as (h & t' & -> & Hel). exists t'. split; [done|].
  assert (Ht : telems t ≡ₚ e :: telems t') by (unfold telems; rewrite Hel; done).
  destruct (tmap_rest _ _ _ Hwf Ht) as (Hr & _ & Hrest). rewrite tfind in Hf by done.
  apply tmap_Some in Hf as [_ <-]. split; [|done].
  split; [|done]. destruct Hwf as [Hpl _]. rewrite Hel in Hpl. by apply Forall_cons in Hpl as [_ ?].
Qed.

Lemma tlen t : ht_len t = length (telems t).
Proof. rewrite ht_len_elements. unfold telems. by rewrite length_fmap. Qed.

Lemma tmap_empty t : twf t → telems t = [] ↔ tmap t = ∅.
Proof.
  intros Hwf. split; [unfold tmap; by intros ->|]. intros Hm. destruct (telems t) as [|e l] eqn:Ht; [done|].
  assert (He : e ∈ telems t) by (rewrite Ht; apply list_elem_of_here).
  apply telems_lookup in He; [|done]. by rewrite Hm, lookup_empty in He.
Qed.
End keyed_table.
