(* ===== verification/SessionSlots.v ===== *)
(** * Session slots of a shard

    [storage/embedded_store/session_slots.rs]: the chunks of a session are kept
    in a slab of their own, values either owned or packed into one buffer of
    the slab.  A packed value is an offset and a length cast to [u32]. *)

From S2P Require Import Prelude Deps Codec HashSet FlatMap.

Section session_slots.
Context `{Hashing} {HT : Type → Type} `{!HashTable HT} `{TableOrder}.

(** ** Entries *)
Inductive SessionSlotValue :=
  | Owned (bytes : Bytes)
  | Packed (offset len : Z).

Definition slot_value_len (v : SessionSlotValue) : Z :=
  match v with Owned bytes => blen bytes | Packed _ len => len end.

Record SessionAccessMeta := mkSlotAccess { slot_last_touch : Z; slot_frequency : Z }.

Definition slot_record_access (meta : SessionAccessMeta) (tick : Z) : SessionAccessMeta :=
  mkSlotAccess tick (Z.max (Z.min (slot_frequency meta + 1) u32_MAX) 1).

Definition slot_rank (meta : SessionAccessMeta) (policy : EvictionPolicy) : EvictionRank :=
  match policy with
  | NoEviction => mkRank u64_MAX u64_MAX
  | Lru => mkRank (slot_last_touch meta) 0
  | Lfu => mkRank (slot_frequency meta) (slot_last_touch meta)
  end.

Record SessionSlotEntry := mkSlot {
  se_hash : Z;
  se_key : Bytes;
  se_value : SessionSlotValue;
  se_access : SessionAccessMeta;
}.

Definition slot_matches (hash : Z) (key : Bytes) (e : SessionSlotEntry) : bool :=
  (se_hash e =? hash)%Z && bytes_eqb (se_key e) key.

Definition slot_touch (tick : Z) (e : SessionSlotEntry) : SessionSlotEntry :=
  mkSlot (se_hash e) (se_key e) (se_value e) (slot_record_access (se_access e) tick).

Definition slot_write (value : SessionSlotValue) (tick : Z) (e : SessionSlotEntry) : SessionSlotEntry :=
  mkSlot (se_hash e) (se_key e) value (slot_record_access (se_access e) tick).

(** ** Slabs *)
Record SessionSlotSlab := mkSlab {
  slab_entries : HT SessionSlotEntry;
  packed_values : Bytes;
  slab_bytes : Z;
}.

Definition slab_new : SessionSlotSlab := mkSlab ht_new [] 0.

Definition slab_find (s : SessionSlotSlab) (hash : Z) (key : Bytes) : option SessionSlotEntry :=
  ht_find (slab_entries s) (local_table_hash hash) (slot_matches hash key).

(** A slice of the packed buffer; a range outside it is a panic. *)
Definition packed_slice (packed : Bytes) (offset len : Z) : option Bytes :=
  if (offset + len <=? blen packed)%Z then Some (take (Z.to_nat len) (drop (Z.to_nat offset) packed)) else None.

Definition entry_value_slice (s : SessionSlotSlab) (e : SessionSlotEntry) : option Bytes :=
  match se_value e with
  | Owned bytes => Some bytes
  | Packed offset len => packed_slice (packed_values s) offset len
  end.

Definition as_u32 (z : Z) : Z := (z mod (u32_MAX + 1))%Z.

(** The counter after a value of [old] bytes became one of [new] bytes. *)
Definition rewrite_bytes (stored old new : Z) : Z := u64_saturating_add (u64_saturating_sub stored old) new.
(** The counter after a fresh entry. *)
Definition add_bytes (stored key_len value_len : Z) : Z := u64_saturating_add (u64_saturating_add stored key_len) value_len.

(** Writes the value of a key: the slab, and the old entry if there was one. *)
Definition slab_write (s : SessionSlotSlab) (hash : Z) (key : Bytes) (value : SessionSlotValue)
    (packed : Bytes) (tick : Z) : option SessionSlotEntry * SessionSlotSlab :=
  match slab_find s hash key with
  | Some e =>
      (Some e, mkSlab (ht_update (slab_entries s) (local_table_hash hash) (slot_matches hash key) (slot_write value tick))
                 packed (rewrite_bytes (slab_bytes s) (slot_value_len (se_value e)) (slot_value_len value)))
  | None =>
      (None, mkSlab (ht_insert_unique (slab_entries s) (local_table_hash hash)
                       (mkSlot hash key value (mkSlotAccess tick 1)) (λ e, local_table_hash (se_hash e)))
               packed (add_bytes (slab_bytes s) (blen key) (slot_value_len value)))
  end.

(** [set_packed_hashed]: the value is appended to the buffer; its offset and
    length are cast to [u32], the counter takes the length itself. *)
Definition set_packed_hashed (s : SessionSlotSlab) (hash : Z) (key value : Bytes) (tick : Z) : SessionSlotSlab :=
  let offset := blen (packed_values s) in
  let '(old, s') := slab_write s hash key (Packed (as_u32 offset) (as_u32 (blen value))) (packed_values s ++ value) tick in
  mkSlab (slab_entries s') (packed_values s')
    (match old with
     | Some e => rewrite_bytes (slab_bytes s) (slot_value_len (se_value e)) (blen value)
     | None => add_bytes (slab_bytes s) (blen key) (blen value)
     end).

Definition set_prepacked_hashed (s : SessionSlotSlab) (hash : Z) (key : Bytes) (offset len tick : Z) : SessionSlotSlab :=
  let '(old, s') := slab_write s hash key (Packed (as_u32 offset) (as_u32 len)) (packed_values s) tick in
  mkSlab (slab_entries s') (packed_values s')
    (match old with
     | Some e => rewrite_bytes (slab_bytes s) (slot_value_len (se_value e)) len
     | None => add_bytes (slab_bytes s) (blen key) len
     end).

(** ** Packed writes *)
Record PackedSessionWrite := mkPackedWrite { pw_prefix : Bytes; pw_slab : SessionSlotSlab }.

Definition pw_tick (p : PackedSessionWrite) : Z := (Z.of_nat (ht_len (slab_entries (pw_slab p))) + 1)%Z.

Definition push_owned_record (p : PackedSessionWrite) (key value : Bytes) : PackedSessionWrite :=
  mkPackedWrite (pw_prefix p) (set_packed_hashed (pw_slab p) (hash_key key) key value (pw_tick p)).

Definition push_prepacked_record (p : PackedSessionWrite) (key : Bytes) (offset len : Z) : PackedSessionWrite :=
  mkPackedWrite (pw_prefix p) (set_prepacked_hashed (pw_slab p) (hash_key key) key offset len (pw_tick p)).

Definition from_owned_items (session_prefix : Bytes) (items : list (Bytes * Bytes)) : PackedSessionWrite :=
  foldl (λ p item, push_owned_record p item.1 item.2) (mkPackedWrite session_prefix slab_new) items.

Definition cloned_records (p : PackedSessionWrite) : option (list (Bytes * Bytes)) :=
  mapM (λ e, value ← entry_value_slice (pw_slab p) e; Some (se_key e, value)) ((ht_elements (slab_entries (pw_slab p))).*2).

(** ** The map of sessions *)
Record SessionSlotMap := mkSlotMap {
  sessions : list (Bytes * SessionSlotSlab);
  slot_readers : Z;
  retired_slot_values : list Bytes;
  retired_slabs : list SessionSlotSlab;
  slot_bytes : Z;
  track_access : bool;
  sample_reads : bool;
  slot_clock : Z;
  slot_sample_counter : Z;
  slot_evictions : Z;
}.

Definition slots_new : SessionSlotMap := mkSlotMap [] 0 [] [] 0 false false 0 0 0.
Implicit Types (m : SessionSlotMap).

Definition with_sessions m ss bytes : SessionSlotMap :=
  mkSlotMap ss (slot_readers m) (retired_slot_values m) (retired_slabs m) bytes (track_access m) (sample_reads m)
    (slot_clock m) (slot_sample_counter m) (slot_evictions m).
Definition with_retired m values slabs : SessionSlotMap :=
  mkSlotMap (sessions m) (slot_readers m) values slabs (slot_bytes m) (track_access m) (sample_reads m)
    (slot_clock m) (slot_sample_counter m) (slot_evictions m).
Definition with_clock m clock counter : SessionSlotMap :=
  mkSlotMap (sessions m) (slot_readers m) (retired_slot_values m) (retired_slabs m) (slot_bytes m) (track_access m)
    (sample_reads m) clock counter (slot_evictions m).
Definition with_slot_evictions m n : SessionSlotMap :=
  mkSlotMap (sessions m) (slot_readers m) (retired_slot_values m) (retired_slabs m) (slot_bytes m) (track_access m)
    (sample_reads m) (slot_clock m) (slot_sample_counter m) n.

Definition slots_is_empty m : bool := match sessions m with [] => true | _ => false end.

Definition slots_len m : Z := sum_of (λ x, Z.of_nat (ht_len (slab_entries x.2))) (sessions m).

Definition slots_have_readers m : bool := (0 <? slot_readers m)%Z.

Definition retire_slot_value m value : SessionSlotMap :=
  if slots_have_readers m then with_retired m (retired_slot_values m ++ [value]) (retired_slabs m) else m.
Definition retire_slab m slab : SessionSlotMap :=
  if slots_have_readers m then with_retired m (retired_slot_values m) (retired_slabs m ++ [slab]) else m.
Definition reclaim_slots_if_quiescent m : SessionSlotMap :=
  if slots_have_readers m then m else with_retired m [] [].

Definition configure_access_tracking m (enabled : bool) : SessionSlotMap :=
  mkSlotMap (sessions m) (slot_readers m) (retired_slot_values m) (retired_slabs m) (slot_bytes m) enabled
    (sample_reads m) (slot_clock m) (slot_sample_counter m) (slot_evictions m).
Definition configure_read_sampling m (enabled : bool) : SessionSlotMap :=
  mkSlotMap (sessions m) (slot_readers m) (retired_slot_values m) (retired_slabs m) (slot_bytes m) (track_access m)
    enabled (slot_clock m) (slot_sample_counter m) (slot_evictions m).

Definition has_session m (session_prefix : Bytes) : bool :=
  match Assoc.get session_prefix (sessions m) with Some _ => true | None => false end.

Definition slot_next_tick m : Z * SessionSlotMap :=
  let tick := u64_saturating_add (slot_clock m) 1 in (tick, with_clock m tick (slot_sample_counter m)).

Definition slot_should_sample m : bool * SessionSlotMap :=
  if negb (track_access m) || negb (sample_reads m) then (false, m)
  else let counter := u64_saturating_add (slot_sample_counter m) 1 in
       ((Z.land counter READ_TOUCH_SAMPLE_MASK =? 0)%Z, with_clock m (slot_clock m) counter).

(** [get_ref_hashed_shared]; the outer option is a panic of the slice. *)
Definition slot_get_shared m (session_prefix : Bytes) (hash : Z) (key : Bytes) : option (option Bytes) :=
  match Assoc.get session_prefix (sessions m) with
  | None => Some None
  | Some slab =>
      match slab_find slab hash key with
      | None => Some None
      | Some e => value ← entry_value_slice slab e; Some (Some value)
      end
  end.

(** [get_ref_hashed] and [get_ref_hashed_local]: a sampled read records the access. *)
Definition slot_get m (session_prefix : Bytes) (hash : Z) (key : Bytes) : option (option Bytes * SessionSlotMap) :=
  let '(sampled, m) := slot_should_sample m in
  value ← slot_get_shared m session_prefix hash key;
  if sampled : bool then
    let '(tick, m) := slot_next_tick m in
    Some (value,
          match value with
          | None => m
          | Some _ =>
              with_sessions m (Assoc.update session_prefix (λ slab,
                mkSlab (ht_update (slab_entries slab) (local_table_hash hash) (slot_matches hash key) (slot_touch tick))
                  (packed_values slab) (slab_bytes slab)) (sessions m)) (slot_bytes m)
          end)
  else Some (value, m).

Definition slot_set m (session_prefix : Bytes) (hash : Z) (key value : Bytes) : SessionSlotMap :=
  let m := reclaim_slots_if_quiescent m in
  let readers := slots_have_readers m in
  let '(tick, m) := if track_access m then slot_next_tick m else (0%Z, m) in
  let m := match Assoc.get session_prefix (sessions m) with
           | Some _ => m
           | None => with_sessions m (place (sessions m) session_prefix slab_new) (slot_bytes m)
           end in
  let slab := default slab_new (Assoc.get session_prefix (sessions m)) in
  let '(old, slab') := slab_write slab hash key (Owned value) (packed_values slab) tick in
  let ss := Assoc.update session_prefix (λ _, slab') (sessions m) in
  match old with
  | None => with_sessions m ss (add_bytes (slot_bytes m) (blen key) (blen value))
  | Some e =>
      let m := with_sessions m ss (rewrite_bytes (slot_bytes m) (slot_value_len (se_value e)) (blen value)) in
      match se_value e with
      | Owned existing => if negb readers && (length existing =? length value) then m else retire_slot_value m existing
      | Packed _ _ => m
      end
  end.

(** [delete_hashed]; [delete_hashed_local] also retires the emptied slab. *)
Definition slot_delete_with (retire_empty : bool) m (session_prefix : Bytes) (hash : Z) (key : Bytes) :
    bool * SessionSlotMap :=
  let m := reclaim_slots_if_quiescent m in
  match Assoc.get session_prefix (sessions m) with
  | None => (false, m)
  | Some slab =>
      match ht_remove (slab_entries slab) (local_table_hash hash) (slot_matches hash key) with
      | None => (false, m)
      | Some (e, t) =>
          let removed := u64_saturating_add (blen (se_key e)) (slot_value_len (se_value e)) in
          let slab := mkSlab t (packed_values slab) (u64_saturating_sub (slab_bytes slab) removed) in
          let bytes := u64_saturating_sub (slot_bytes m) removed in
          let m := if ht_len t =? 0 then with_sessions m (HashMap.remove (sessions m) session_prefix).2 bytes
                   else with_sessions m (Assoc.update session_prefix (λ _, slab) (sessions m)) bytes in
          let m := match se_value e with Owned value => retire_slot_value m value | Packed _ _ => m end in
          (true, if retire_empty && (ht_len t =? 0) then retire_slab m slab else m)
      end
  end.

Definition slot_delete := slot_delete_with false.
Definition slot_delete_local := slot_delete_with true.

(** [replace_session_slab] and its local variant. *)
Definition replace_session_slab m (packed : PackedSessionWrite) : SessionSlotMap :=
  let m := reclaim_slots_if_quiescent m in
  let new_bytes := slab_bytes (pw_slab packed) in
  let '(previous, ss) := HashMap.insert (sessions m) (pw_prefix packed) (pw_slab packed) in
  match previous with
  | Some previous => retire_slab (with_sessions m ss (rewrite_bytes (slot_bytes m) (slab_bytes previous) new_bytes)) previous
  | None => with_sessions m ss (u64_saturating_add (slot_bytes m) new_bytes)
  end.

(** [eviction_candidate]: the first entry of least rank over all sessions. *)
Definition slot_candidates m (policy : EvictionPolicy) : list (EvictionRank * Bytes * Z * Bytes) :=
  sessions m ≫= λ x, (λ e, (slot_rank (se_access e) policy, x.1, se_hash e, se_key e)) <$> (ht_elements (slab_entries x.2)).*2.

Definition min_by_rank {A} (rank_of : A → EvictionRank) (l : list A) : option A :=
  foldl (λ selected x, match selected with
                       | Some current => if rank_le (rank_of current) (rank_of x) then Some current else Some x
                       | None => Some x
                       end) None l.

Definition slot_eviction_candidate m (policy : EvictionPolicy) : option (EvictionRank * Bytes * Z * Bytes) :=
  if bool_decide (policy = NoEviction) then None else min_by_rank (λ c, c.1.1.1) (slot_candidates m policy).

Definition slot_evict m (policy : EvictionPolicy) : bool * SessionSlotMap :=
  match slot_eviction_candidate m policy with
  | None => (false, m)
  | Some (_, session_prefix, hash, key) =>
      let '(deleted, m) := slot_delete m session_prefix hash key in
      (deleted, if deleted : bool then with_slot_evictions m (u64_saturating_add (slot_evictions m) 1) else m)
  end.
End session_slots.
