(* ===== verification/SessionSlotsProofs.v ===== *)
(** * Session slots: invariant and refinement

    The slots of a shard stand for a map from sessions to the map of their
    chunks; every operation is the operation on that map, and the byte counter
    is the sum of the bytes of the keys and values stored. *)

From S2P Require Import Prelude Deps Codec HashSet FlatMap FlatMapProofs KeyedTable SessionSlots.

Section session_proofs.
Context `{Hashing} {HT : Type → Type} `{!HashTable HT} `{TableOrder}.
Abbreviation SessionSlotSlab := (SessionSlotSlab (HT := HT)).
Abbreviation SessionSlotMap := (SessionSlotMap (HT := HT)).
Abbreviation PackedSessionWrite := (PackedSessionWrite (HT := HT)).
Abbreviation smap := (tmap se_key).
Abbreviation swf := (twf se_key se_hash).
Implicit Types (s : SessionSlotSlab) (m : SessionSlotMap) (e : SessionSlotEntry) (key value : Bytes).

(** ** Slabs *)
Definition slab_elems s : list SessionSlotEntry := telems (slab_entries s).
Definition slot_weight e : Z := (blen (se_key e) + slot_value_len (se_value e))%Z.

Definition in_buffer (packed : Bytes) (v : SessionSlotValue) : Prop :=
  match v with Owned _ => True | Packed offset len => (0 ≤ offset ∧ 0 ≤ len ∧ offset + len ≤ blen packed)%Z end.

Record slab_ok s : Prop := {
  slab_wf : swf (slab_entries s);
  slab_bytes_exact : slab_bytes s = sum_of slot_weight (slab_elems s);
  slab_in_buffer : ∀ e, e ∈ slab_elems s → in_buffer (packed_values s) (se_value e);
}.

Definition value_of (packed : Bytes) (v : SessionSlotValue) : Bytes :=
  match v with Owned bytes => bytes | Packed offset len => take (Z.to_nat len) (drop (Z.to_nat offset) packed) end.

Definition slab_map s : gmap Bytes Bytes := (λ e, value_of (packed_values s) (se_value e)) <$> smap (slab_entries s).

Lemma slot_matches_finds key : finds se_key se_hash key (slot_matches (hash_key key) key).
Proof. intros e. unfold slot_matches, bytes_eqb. by rewrite andb_true_iff, Z.eqb_eq, bool_decide_eq_true. Qed.

Lemma slab_find_spec s key : slab_ok s → slab_find s (hash_key key) key = smap (slab_entries s) !! key.
Proof. intros Hok. apply (tfind se_key se_hash); [apply Hok|apply slot_matches_finds]. Qed.

Lemma value_slice s e : in_buffer (packed_values s) (se_value e) → entry_value_slice s e = Some (value_of (packed_values s) (se_value e)).
Proof.
  unfold in_buffer, entry_value_slice, value_of, packed_slice. destruct (se_value e) as [|o l]; [done|].
  intros (?&?&?). by rewrite (proj2 (Z.leb_le _ _)) by lia.
Qed.

Lemma blen_app (a b : Bytes) : blen (a ++ b) = (blen a + blen b)%Z.
Proof. unfold blen. rewrite length_app. lia. Qed.

Lemma in_buffer_app packed extra v : in_buffer packed v → in_buffer (packed ++ extra) v ∧ value_of (packed ++ extra) v = value_of packed v.
Proof.
  destruct v as [|o l]; [done|]. unfold in_buffer, value_of. rewrite blen_app. intros (?&?&?).
  pose proof (blen_nonneg extra). split; [lia|]. unfold blen in *.
  rewrite drop_app_le, take_app_le by (rewrite ?length_drop; lia). done.
Qed.

Lemma slot_value_len_nonneg packed v : in_buffer packed v → (0 ≤ slot_value_len v)%Z.
Proof. destruct v; simpl; [intros _; apply blen_nonneg|lia]. Qed.

Lemma slot_weight_le s e : slab_ok s → e ∈ slab_elems s → (0 ≤ slot_weight e ≤ slab_bytes s)%Z.
Proof.
  intros Hok He.
  assert (Hn : ∀ x, x ∈ slab_elems s → (0 ≤ slot_weight x)%Z).
  { intros x Hx%(slab_in_buffer s Hok)%slot_value_len_nonneg. unfold slot_weight. pose proof (blen_nonneg (se_key x)). lia. }
  split; [auto|]. rewrite (slab_bytes_exact s Hok). by apply sum_of_elem.
Qed.

Lemma slab_bytes_nonneg s : slab_ok s → (0 ≤ slab_bytes s)%Z.
Proof.
  intros Hok. rewrite (slab_bytes_exact s Hok). apply sum_of_nonneg. intros e He. by apply (slot_weight_le s e Hok).
Qed.

Lemma slab_new_ok : slab_ok slab_new ∧ slab_map slab_new = ∅.
Proof.
  destruct (twf_new se_key se_hash) as [Hwf Hm]. split; [split; [done| |]|].
  - unfold slab_elems, telems. simpl. by rewrite ht_new_elements.
  - unfold slab_elems, telems. simpl. rewrite ht_new_elements. set_solver.
  - unfold slab_map. simpl. rewrite Hm. apply fmap_empty.
Qed.

(** The counters are exact while the total stays below [u64::MAX]. *)
Lemma rewrite_bytes_exact stored old new :
  (0 ≤ old ≤ stored)%Z → (0 ≤ new)%Z → (stored + new ≤ u64_MAX)%Z → rewrite_bytes stored old new = (stored - old + new)%Z.
Proof. unfold rewrite_bytes, u64_saturating_add, u64_saturating_sub. lia. Qed.

Lemma add_bytes_exact stored k v :
  (0 ≤ k)%Z → (0 ≤ v)%Z → (stored + k + v ≤ u64_MAX)%Z → add_bytes stored k v = (stored + k + v)%Z.
Proof. unfold add_bytes, u64_saturating_add. lia. Qed.

(** The bytes an old entry accounted for. *)
Definition old_bytes (old : option SessionSlotEntry) (key : Bytes) : Z :=
  match old with Some e => slot_value_len (se_value e) | None => (- blen key)%Z end.

(** Writing a value over a buffer that grew by [extra]. *)
Lemma slab_write_spec s key v extra tick :
  slab_ok s → in_buffer (packed_values s ++ extra) v → (slab_bytes s + blen key + slot_value_len v ≤ u64_MAX)%Z →
  let '(old, s') := slab_write s (hash_key key) key v (packed_values s ++ extra) tick in
  old = smap (slab_entries s) !! key ∧ slab_ok s' ∧ packed_values s' = packed_values s ++ extra ∧
  slab_bytes s' = (slab_bytes s - old_bytes old key + slot_value_len v)%Z ∧
  slab_map s' = <[key := value_of (packed_values s ++ extra) v]> (slab_map s).
Proof.
  intros Hok Hv Hroom. pose proof (slot_value_len_nonneg _ _ Hv). pose proof (blen_nonneg key).
  pose proof (slab_bytes_nonneg s Hok). unfold slab_write. rewrite slab_find_spec by done.
  assert (Hmap : ∀ t e', se_value e' = v → smap t = <[key := e']> (smap (slab_entries s)) →
    (λ e, value_of (packed_values s ++ extra) (se_value e)) <$> smap t =
    <[key := value_of (packed_values s ++ extra) v]> (slab_map s)).
  { intros t e' Ee Et. rewrite Et, fmap_insert, Ee. f_equal. apply map_fmap_ext. intros k x Hx.
    apply tmap_Some in Hx as [Hx _]. by apply in_buffer_app, (slab_in_buffer s Hok). }
  assert (Hin : ∀ e e' rest, slab_elems s ≡ₚ rest ∨ slab_elems s ≡ₚ e :: rest → se_value e' = v →
    ∀ x, x ∈ e' :: rest → in_buffer (packed_values s ++ extra) (se_value x)).
  { intros e e' rest Hl Ee x [->|Hx]%elem_of_cons; [by rewrite Ee|].
    apply in_buffer_app, (slab_in_buffer s Hok). destruct Hl as [-> | ->]; [done|set_solver]. }
  destruct (smap (slab_entries s) !! key) as [e|] eqn:Ee.
  - destruct (tupdate se_key se_hash (slab_entries s) key (slot_matches (hash_key key) key) (slot_write v tick) e)
      as (Hwf & Hm & rest & Hl & Hl'); [apply Hok|apply slot_matches_finds|done|done|done|].
    assert (He : e ∈ slab_elems s) by (by apply tmap_Some in Ee as [? _]).
    pose proof (slot_weight_le s e Hok He) as Hw. unfold slot_weight in Hw. pose proof (blen_nonneg (se_key e)).
    pose proof (slab_in_buffer s Hok e He) as Hb%slot_value_len_nonneg.
    assert (Hbytes : rewrite_bytes (slab_bytes s) (slot_value_len (se_value e)) (slot_value_len v) =
                     (slab_bytes s - slot_value_len (se_value e) + slot_value_len v)%Z)
      by (apply rewrite_bytes_exact; lia).
    split; [done|]. split; [|split; [done|split; [done|]]].
    + split; [done| |].
      * cbn [slab_bytes]. rewrite Hbytes. unfold slab_elems. cbn [slab_entries].
        rewrite Hl', (slab_bytes_exact s Hok). unfold slab_elems. rewrite Hl. simpl.
        unfold slot_weight. simpl. lia.
      * intros x Hx. unfold slab_elems in Hx. cbn [slab_entries] in Hx. rewrite Hl' in Hx.
        by apply (Hin e (slot_write v tick e) rest); [right| |].
    + unfold slab_map at 1. cbn [slab_entries packed_values]. by apply (Hmap _ (slot_write v tick e)).
  - destruct (tinsert se_key se_hash (slab_entries s) (mkSlot (hash_key key) key v (mkSlotAccess tick 1)))
      as (Hwf & Hm & Hl); [apply Hok|done|done|]. simpl in Hwf, Hm, Hl.
    assert (Hbytes : add_bytes (slab_bytes s) (blen key) (slot_value_len v) = (slab_bytes s + blen key + slot_value_len v)%Z)
      by (apply add_bytes_exact; lia).
    split; [done|]. split; [|split; [done|split; [cbn [slab_bytes old_bytes]; lia|]]].
    + split; [done| |].
      * cbn [slab_bytes]. rewrite Hbytes. unfold slab_elems. cbn [slab_entries]. rewrite Hl. simpl.
        rewrite (slab_bytes_exact s Hok). unfold slab_elems, slot_weight at 2. simpl. lia.
      * intros x Hx. unfold slab_elems in Hx. cbn [slab_entries] in Hx. rewrite Hl in Hx.
        by eapply (Hin (mkSlot 0 [] v (mkSlotAccess 0 0))); [left; reflexivity| |exact Hx].
    + unfold slab_map at 1. cbn [slab_entries packed_values].
      by apply (Hmap _ (mkSlot (hash_key key) key v (mkSlotAccess tick 1))).
Qed.

(** [set_packed_hashed] while the buffer stays below 4 GiB. *)
Lemma as_u32_small z : (0 ≤ z ≤ u32_MAX)%Z → as_u32 z = z.
Proof. intros. unfold as_u32. apply Z.mod_small. lia. Qed.

Lemma set_packed_spec s key value tick :
  slab_ok s → (blen (packed_values s) + blen value ≤ u32_MAX)%Z → (slab_bytes s + blen key + blen value ≤ u64_MAX)%Z →
  let s' := set_packed_hashed s (hash_key key) key value tick in
  slab_ok s' ∧ packed_values s' = packed_values s ++ value ∧ slab_map s' = <[key := value]> (slab_map s) ∧
  (slab_bytes s' ≤ slab_bytes s + blen key + blen value)%Z.
Proof.
  intros Hok Hfit Hroom. pose proof (blen_nonneg value). pose proof (blen_nonneg (packed_values s)).
  unfold set_packed_hashed. rewrite !as_u32_small by lia. set (v := Packed (blen (packed_values s)) (blen value)).
  assert (Hv : in_buffer (packed_values s ++ value) v) by (simpl; rewrite blen_app; lia).
  pose proof (slab_write_spec s key v value tick Hok Hv Hroom) as Hw.
  assert (Hval : value_of (packed_values s ++ value) v = value).
  { simpl. unfold blen. rewrite !Nat2Z.id, drop_app_length, firstn_all. done. }
  rewrite Hval in Hw.
  destruct (slab_write s (hash_key key) key v (packed_values s ++ value) tick) as [old s'] eqn:Ew.
  destruct Hw as (Hold & Hok' & Hp & Hb & Hm). simpl.
  assert (Hsame : match old with
     | Some e => rewrite_bytes (slab_bytes s) (slot_value_len (se_value e)) (blen value)
     | None => add_bytes (slab_bytes s) (blen key) (blen value)
     end = slab_bytes s').
  { unfold slab_write in Ew. destruct (slab_find s (hash_key key) key); by injection Ew as <- <-. }
  rewrite Hsame. destruct s' as [t p b]. simpl in *. split; [done|]. split; [done|]. split; [done|].
  pose proof (blen_nonneg key). subst b. destruct old as [e|]; simpl; [|lia].
  symmetry in Hold. apply tmap_Some in Hold as [He _].
  pose proof (slab_in_buffer s Hok e He) as Hb'%slot_value_len_nonneg. lia.
Qed.

(** ** Packed writes *)
Definition packed_size (items : list (Bytes * Bytes)) : Z := sum_of (λ i, blen i.2) items.
Definition items_size (items : list (Bytes * Bytes)) : Z := sum_of (λ i, blen i.1 + blen i.2)%Z items.

(** The map a sequence of records leaves: the last record of a key wins. *)
Definition items_map (M : gmap Bytes Bytes) (items : list (Bytes * Bytes)) : gmap Bytes Bytes :=
  foldl (λ M item, <[item.1 := item.2]> M) M items.

Lemma push_all_spec items (p : PackedSessionWrite) :
  slab_ok (pw_slab p) → (blen (packed_values (pw_slab p)) + packed_size items ≤ u32_MAX)%Z →
  (slab_bytes (pw_slab p) + items_size items ≤ u64_MAX)%Z →
  let p' := foldl (λ p item, push_owned_record p item.1 item.2) p items in
  slab_ok (pw_slab p') ∧ pw_prefix p' = pw_prefix p ∧
  slab_map (pw_slab p') = items_map (slab_map (pw_slab p)) items ∧
  (slab_bytes (pw_slab p') ≤ slab_bytes (pw_slab p) + items_size items)%Z.
Proof.
  revert p. induction items as [|[k v] items IH]; intros p Hok Hfit Hroom; [simpl in *; unfold items_size; simpl; auto with lia|].
  unfold packed_size, items_size in *. simpl in *.
  assert (Hn : (0 ≤ sum_of (λ i : Bytes * Bytes, blen i.2) items)%Z) by (apply sum_of_nonneg; intros; apply blen_nonneg).
  assert (Hn' : (0 ≤ sum_of (λ i : Bytes * Bytes, blen i.1 + blen i.2)%Z items)%Z).
  { apply sum_of_nonneg. intros i _. pose proof (blen_nonneg i.1). pose proof (blen_nonneg i.2). lia. }
  destruct (set_packed_spec (pw_slab p) k v (pw_tick p) Hok) as (Hok' & Hp & Hm & Hb); [lia|lia|].
  destruct (IH (push_owned_record p k v)) as (Ho & Hpre & Hmap & Hle).
  - done.
  - simpl. rewrite Hp, blen_app. lia.
  - simpl. lia.
  - split; [done|]. split; [by rewrite Hpre|]. split; [by rewrite Hmap; simpl; rewrite Hm|].
    simpl in Hle. lia.
Qed.

Lemma from_owned_items_spec prefix items :
  (packed_size items ≤ u32_MAX)%Z → (items_size items ≤ u64_MAX)%Z →
  let p := from_owned_items prefix items in
  slab_ok (pw_slab p) ∧ pw_prefix p = prefix ∧ slab_map (pw_slab p) = items_map ∅ items ∧
  (slab_bytes (pw_slab p) ≤ items_size items)%Z.
Proof.
  intros Hfit Hroom. destruct slab_new_ok as [Hok Hm]. unfold from_owned_items.
  destruct (push_all_spec items (mkPackedWrite prefix slab_new)) as (? & ? & Hmap & Hle); [done|done|done|].
  cbn [pw_slab] in Hmap. rewrite Hm in Hmap. done.
Qed.

Lemma cloned_records_spec (p : PackedSessionWrite) :
  slab_ok (pw_slab p) → ∃ rs, cloned_records p = Some rs ∧ NoDup rs.*1 ∧ list_to_map rs = slab_map (pw_slab p).
Proof.
  intros Hok. unfold cloned_records. fold (telems (slab_entries (pw_slab p))).
  exists ((λ e, (se_key e, value_of (packed_values (pw_slab p)) (se_value e))) <$> telems (slab_entries (pw_slab p))).
  split; [|split].
  - apply mapM_Some. apply Forall2_fmap_r, Forall_Forall2_diag, Forall_forall. intros e He.
    rewrite value_slice by (by apply (slab_in_buffer _ Hok)). done.
  - rewrite <- list_fmap_compose. apply (slab_wf _ Hok).
  - unfold slab_map, tmap. rewrite <- list_to_map_fmap, <- list_fmap_compose. done.
Qed.

(** ** The map of sessions *)
Definition sessions_bytes (ss : list (Bytes * SessionSlotSlab)) : Z := sum_of (λ x, slab_bytes x.2) ss.

Record slots_ok m : Prop := {
  slots_wf : Assoc.wf (sessions m);
  slots_slabs : ∀ p s, Assoc.abs (sessions m) !! p = Some s → slab_ok s;
  slots_bytes : slot_bytes m = sessions_bytes (sessions m);
  slots_room : (slot_bytes m ≤ u64_MAX)%Z;
}.

Definition slots_map m : gmap Bytes (gmap Bytes Bytes) := slab_map <$> Assoc.abs (sessions m).
Definition chunk m (session key : Bytes) : option Bytes := M ← slots_map m !! session; M !! key.

Lemma slots_new_ok : slots_ok slots_new ∧ slots_map slots_new = ∅.
Proof.
  split; [split|done]; simpl; [constructor|by intros p s ?%lookup_empty_Some|done|unfold u64_MAX; lia].
Qed.

(** Bookkeeping that leaves the sessions and the counter alone. *)
Definition same_slots m m' : Prop := sessions m' = sessions m ∧ slot_bytes m' = slot_bytes m.

Lemma same_slots_ok m m' : same_slots m m' → slots_ok m → slots_ok m' ∧ slots_map m' = slots_map m.
Proof.
  intros [E1 E2] []. split; [split; rewrite ?E1, ?E2; done|]. unfold slots_map. by rewrite E1.
Qed.

Lemma same_slots_refl m : same_slots m m. Proof. done. Qed.
Lemma reclaim_same m : same_slots m (reclaim_slots_if_quiescent m).
Proof. unfold reclaim_slots_if_quiescent. by destruct (slots_have_readers m). Qed.
Lemma retire_value_same m v : same_slots m (retire_slot_value m v).
Proof. unfold retire_slot_value. by destruct (slots_have_readers m). Qed.
Lemma retire_slab_same m s : same_slots m (retire_slab m s).
Proof. unfold retire_slab. by destruct (slots_have_readers m). Qed.
Lemma next_tick_same m : same_slots m (slot_next_tick m).2.
Proof. done. Qed.
Lemma should_sample_same m : same_slots m (slot_should_sample m).2.
Proof. unfold slot_should_sample. by destruct (_ || _). Qed.

Lemma sessions_sum_nonneg (ss : list (Bytes * SessionSlotSlab)) :
  Assoc.wf ss → (∀ p s, Assoc.abs ss !! p = Some s → slab_ok s) → ∀ x, x ∈ ss → (0 ≤ slab_bytes x.2)%Z.
Proof.
  intros Hwf Hs [p s] Hx. apply slab_bytes_nonneg, (Hs p). by apply elem_of_list_to_map.
Qed.

Lemma slab_bytes_le m p s : slots_ok m → Assoc.abs (sessions m) !! p = Some s → (0 ≤ slab_bytes s ≤ slot_bytes m)%Z.
Proof.
  intros Hok Hs. pose proof (sessions_sum_nonneg _ (slots_wf m Hok) (slots_slabs m Hok)) as Hn.
  assert (Hin : (p, s) ∈ sessions m) by (by apply elem_of_list_to_map_2 in Hs).
  split; [by apply (Hn _ Hin)|]. rewrite (slots_bytes m Hok). by apply (sum_of_elem (λ x, slab_bytes x.2) _ (p, s)).
Qed.

(** Replacing the slab of a session. *)
Lemma update_slab_ok m p s s' bytes :
  slots_ok m → Assoc.abs (sessions m) !! p = Some s → slab_ok s' →
  bytes = (slot_bytes m - slab_bytes s + slab_bytes s')%Z → (bytes ≤ u64_MAX)%Z →
  let m' := with_sessions m (Assoc.update p (λ _, s') (sessions m)) bytes in
  slots_ok m' ∧ slots_map m' = <[p := slab_map s']> (slots_map m).
Proof.
  intros Hok Hs Hs' Hb Hroom m'.
  destruct (Assoc.abs_update p (λ _, s') (sessions m) s (slots_wf m Hok) Hs) as (Hwf & Habs & _).
  split; [split|].
  - done.
  - intros q t. simpl. rewrite Habs, lookup_insert_Some. intros [[-> ->]|[_ Hq]]; [done|]. by eapply (slots_slabs m Hok).
  - simpl. destruct (Assoc.update_split p (λ _, s') (sessions m) s Hs) as (l1 & l2 & E1 & E2).
    rewrite E2, Hb, (slots_bytes m Hok), E1. unfold sessions_bytes. rewrite !sum_of_app. simpl. lia.
  - done.
  - unfold slots_map. simpl. by rewrite Habs, fmap_insert.
Qed.

(** A fresh session. *)
Lemma place_slab_ok m p s bytes :
  slots_ok m → Assoc.abs (sessions m) !! p = None → slab_ok s →
  bytes = (slot_bytes m + slab_bytes s)%Z → (bytes ≤ u64_MAX)%Z →
  let m' := with_sessions m (place (sessions m) p s) bytes in
  slots_ok m' ∧ slots_map m' = <[p := slab_map s]> (slots_map m) ∧ Assoc.abs (sessions m') !! p = Some s.
Proof.
  intros Hok Hn Hs Hb Hroom m'. destruct (HashMap.place_wf (sessions m) p s (slots_wf m Hok) Hn) as [Hwf Habs].
  split; [split|split].
  - done.
  - intros q t. simpl. rewrite Habs, lookup_insert_Some. intros [[-> ->]|[_ Hq]]; [done|]. by eapply (slots_slabs m Hok).
  - simpl. unfold sessions_bytes. rewrite place_perm. simpl. rewrite Hb, (slots_bytes m Hok). unfold sessions_bytes. lia.
  - done.
  - unfold slots_map. simpl. by rewrite Habs, fmap_insert.
  - simpl. rewrite Habs. apply lookup_insert_eq.
Qed.

(** Removing a session. *)
Lemma remove_slab_ok m p s bytes :
  slots_ok m → Assoc.abs (sessions m) !! p = Some s → bytes = (slot_bytes m - slab_bytes s)%Z →
  let m' := with_sessions m (HashMap.remove (sessions m) p).2 bytes in
  slots_ok m' ∧ slots_map m' = delete p (slots_map m).
Proof.
  intros Hok Hs Hb m'. pose proof (slab_bytes_le m p s Hok Hs) as Hle. pose proof (slots_room m Hok).
  destruct (Assoc.remove_Some p (sessions m) s (slots_wf m Hok) Hs) as (l & Hr & Hwf & Habs & Hperm).
  assert (El : (HashMap.remove (sessions m) p).2 = l) by (unfold HashMap.remove; by rewrite Hr).
  subst m'. rewrite El. split; [split|]; simpl.
  - done.
  - intros q t. rewrite Habs, lookup_delete_Some. intros [_ Hq]. by eapply (slots_slabs m Hok).
  - rewrite Hb, (slots_bytes m Hok). unfold sessions_bytes. rewrite Hperm. simpl. lia.
  - lia.
  - unfold slots_map. simpl. by rewrite Habs, fmap_delete.
Qed.

(** ** Reads *)
Lemma slot_get_shared_spec m p key :
  slots_ok m → slot_get_shared m p (hash_key key) key = Some (chunk m p key).
Proof.
  intros Hok. unfold slot_get_shared, chunk, slots_map. rewrite Assoc.abs_get, lookup_fmap.
  destruct (Assoc.abs (sessions m) !! p) as [s|] eqn:Es; [|done].
  pose proof (slots_slabs m Hok p s Es) as Hs. rewrite slab_find_spec by done.
  cbn [fmap option_fmap option_map mbind option_bind]. unfold slab_map. rewrite lookup_fmap.
  destruct (smap (slab_entries s) !! key) as [e|] eqn:Ee; [|done]. apply tmap_Some in Ee as [He _].
  rewrite value_slice by (by apply (slab_in_buffer s Hs)). done.
Qed.

Lemma touch_slab_ok s key tick :
  slab_ok s →
  let s' := mkSlab (ht_update (slab_entries s) (local_table_hash (hash_key key)) (slot_matches (hash_key key) key)
              (slot_touch tick)) (packed_values s) (slab_bytes s) in
  slab_find s (hash_key key) key ≠ None → slab_ok s' ∧ slab_map s' = slab_map s.
Proof.
  intros Hok s'. rewrite slab_find_spec by done. destruct (smap (slab_entries s) !! key) as [e|] eqn:Ee; [intros _|done].
  destruct (tupdate se_key se_hash (slab_entries s) key (slot_matches (hash_key key) key) (slot_touch tick) e)
    as (Hwf & Hm & rest & Hl & Hl'); [apply Hok|apply slot_matches_finds|done|done|done|].
  split; [split|].
  - done.
  - simpl. rewrite (slab_bytes_exact s Hok). unfold slab_elems. simpl. by rewrite Hl, Hl'.
  - intros x Hx. unfold slab_elems in Hx. simpl in *. rewrite Hl' in Hx.
    apply elem_of_cons in Hx as [->|Hx].
    + apply (slab_in_buffer s Hok e). unfold slab_elems. rewrite Hl. apply list_elem_of_here.
    + apply (slab_in_buffer s Hok x). unfold slab_elems. rewrite Hl. by apply list_elem_of_further.
  - unfold slab_map. simpl. rewrite Hm, fmap_insert. simpl. by rewrite insert_id by (by rewrite lookup_fmap, Ee).
Qed.

Lemma slot_get_spec m p key :
  slots_ok m →
  ∃ m', slot_get m p (hash_key key) key = Some (chunk m p key, m') ∧ slots_ok m' ∧ slots_map m' = slots_map m ∧
        slot_bytes m' = slot_bytes m.
Proof.
  intros Hok. unfold slot_get. pose proof (should_sample_same m) as Hss.
  destruct (slot_should_sample m) as [sampled m1]. simpl in Hss.
  destruct (same_slots_ok m m1 Hss Hok) as [Hok1 Hm1]. destruct Hss as [_ Eb]. rewrite slot_get_shared_spec by done.
  assert (Ec : chunk m1 p key = chunk m p key) by (unfold chunk; by rewrite Hm1). rewrite Ec. simpl.
  destruct sampled; [|by eexists]. simpl. eexists. split; [done|].
  destruct (same_slots_ok m1 (with_clock m1 (u64_saturating_add (slot_clock m1) 1) (slot_sample_counter m1)))
    as [Hok2 Hm2]; [done|done|].
  set (m2 := with_clock _ _ _) in *. destruct (chunk m p key) as [v|] eqn:Ev; [|by rewrite Hm2].
  assert (Hex : ∃ s, Assoc.abs (sessions m2) !! p = Some s ∧ slab_find s (hash_key key) key ≠ None).
  { unfold chunk in Ev. rewrite <- Hm1, <- Hm2 in Ev. unfold slots_map in Ev. rewrite lookup_fmap in Ev.
    destruct (Assoc.abs (sessions m2) !! p) as [s|] eqn:Es; [|done]. exists s. split; [done|].
    rewrite slab_find_spec by (by apply (slots_slabs m2 Hok2 p)). simpl in Ev. unfold slab_map in Ev.
    rewrite lookup_fmap in Ev. by destruct (smap (slab_entries s) !! key). }
  destruct Hex as (s & Es & Hf). pose proof (slots_slabs m2 Hok2 p s Es) as Hs.
  destruct (touch_slab_ok s key (u64_saturating_add (slot_clock m1) 1) Hs Hf) as [Hs' Hmap].
  change (sessions m1) with (sessions m2). change (slot_bytes m1) with (slot_bytes m2).
  set (f := λ slab : SessionSlotSlab, _).
  assert (Eu : Assoc.update p f (sessions m2) = Assoc.update p (λ _, f s) (sessions m2)).
  { unfold Assoc.update. destruct (position (Assoc.key_is p) (sessions m2)) as [i|] eqn:Ei; [|done].
    pose proof (Assoc.position_get _ _ _ _ Ei Es) as Hi. apply list_alter_ext; [|done].
    intros x Hx. rewrite Hi in Hx. by injection Hx as <-. }
  rewrite Eu. destruct (update_slab_ok m2 p s (f s) (slot_bytes m2) Hok2 Es Hs') as [Ho Hm']; [simpl; lia|apply Hok2|].
  split; [done|]. split; [|done]. rewrite Hm', <- Hm1, <- Hm2. unfold f. rewrite Hmap. apply insert_id.
  unfold slots_map. by rewrite lookup_fmap, Es.
Qed.

(** ** Writes *)
Definition session_of m (p : Bytes) : gmap Bytes Bytes := default ∅ (slots_map m !! p).

Lemma old_bytes_range s key old :
  slab_ok s → old = smap (slab_entries s) !! key → (- blen key ≤ old_bytes old key ≤ slab_bytes s)%Z.
Proof.
  intros Hok ->. pose proof (blen_nonneg key). pose proof (slab_bytes_nonneg s Hok).
  destruct (smap (slab_entries s) !! key) as [e|] eqn:Ee; simpl; [|lia].
  apply tmap_Some in Ee as [He _]. pose proof (slot_weight_le s e Hok He) as Hw. unfold slot_weight in Hw.
  pose proof (slab_in_buffer s Hok e He) as Hb%slot_value_len_nonneg. pose proof (blen_nonneg (se_key e)). lia.
Qed.

Lemma slot_set_spec m p key value :
  slots_ok m → (slot_bytes m + blen key + blen value ≤ u64_MAX)%Z →
  let m' := slot_set m p (hash_key key) key value in
  slots_ok m' ∧ slots_map m' = <[p := <[key := value]> (session_of m p)]> (slots_map m) ∧
  (slot_bytes m' ≤ slot_bytes m + blen key + blen value)%Z.
Proof.
  intros Hok Hroom. unfold slot_set. pose proof (blen_nonneg key). pose proof (blen_nonneg value).
  set (m0 := reclaim_slots_if_quiescent m). destruct (reclaim_same m) as [Es0 Eb0]. fold m0 in Es0, Eb0.
  set (tm := if track_access m0 then slot_next_tick m0 else (0%Z, m0)).
  assert (Hm1 : same_slots m tm.2) by (unfold tm; destruct (track_access m0); split; simpl; done).
  destruct tm as [tick m1]. simpl in Hm1. destruct (same_slots_ok m m1 Hm1 Hok) as [Hok1 Hmap1].
  destruct Hm1 as [Es1 Eb1]. rewrite (Assoc.abs_get p (sessions m1)).
  set (m2 := match Assoc.abs (sessions m1) !! p with
            | Some _ => m1 | None => with_sessions m1 (place (sessions m1) p slab_new) (slot_bytes m1) end).
  destruct slab_new_ok as [Hno Hnm].
  assert (HH2 : slots_ok m2 ∧ slot_bytes m2 = slot_bytes m ∧ ∃ s, Assoc.abs (sessions m2) !! p = Some s ∧ slab_map s = session_of m p ∧
               ∀ M, <[p := M]> (slots_map m2) = <[p := M]> (slots_map m)).
  { unfold m2, session_of. destruct (Assoc.abs (sessions m1) !! p) as [s|] eqn:Es.
    - split; [done|]. split; [done|]. exists s. split; [done|]. split; [|by rewrite Hmap1].
      rewrite <- Hmap1. unfold slots_map. by rewrite lookup_fmap, Es.
    - destruct (place_slab_ok m1 p slab_new (slot_bytes m1) Hok1 Es Hno) as (Ho & Hm & Hl);
        [simpl; lia|apply Hok1|]. split; [done|]. split; [done|]. exists slab_new. split; [done|]. split.
      + rewrite <- Hmap1. unfold slots_map. by rewrite lookup_fmap, Es.
      + intros M. by rewrite Hm, Hmap1, insert_insert_eq. }
  destruct HH2 as (Hok2 & Eb2 & s & Es & Hsm & Hins). rewrite (Assoc.abs_get p (sessions m2)), Es. simpl default.
  pose proof (slots_slabs m2 Hok2 p s Es) as Hs. pose proof (slab_bytes_le m2 p s Hok2 Es) as Hle.
  pose proof (slab_write_spec s key (Owned value) [] tick Hs) as Hw. rewrite app_nil_r in Hw.
  specialize (Hw I). cbn [slot_value_len] in Hw. specialize (Hw ltac:(lia)).
  destruct (slab_write s (hash_key key) key (Owned value) (packed_values s) tick) as [old s'].
  destruct Hw as (Hold & Hok' & _ & Hb & Hmap). cbn [value_of] in Hmap.
  pose proof (old_bytes_range s key old Hs Hold) as Hob.
  assert (Hfin : ∀ bytes, bytes = (slot_bytes m2 - old_bytes old key + blen value)%Z →
    let m' := with_sessions m2 (Assoc.update p (λ _, s') (sessions m2)) bytes in
    slots_ok m' ∧ slots_map m' = <[p := <[key := value]> (session_of m p)]> (slots_map m) ∧ (bytes ≤ slot_bytes m + blen key + blen value)%Z).
  { intros bytes Ebytes m'. destruct (update_slab_ok m2 p s s' bytes Hok2 Es Hok') as [Ho Hm']; [lia|lia|].
    split; [done|]. split; [|lia]. unfold m'. by rewrite Hm', Hins, Hmap, Hsm. }
  destruct old as [e|]; cbn [old_bytes] in *.
  - symmetry in Hold. apply tmap_Some in Hold as [He _].
    pose proof (slab_in_buffer s Hs e He) as Hb'%slot_value_len_nonneg.
    destruct (Hfin (rewrite_bytes (slot_bytes m2) (slot_value_len (se_value e)) (blen value))) as (Ho & Hm' & Hle');
      [apply rewrite_bytes_exact; lia|].
    destruct (se_value e) as [existing|]; [|done]. destruct (_ && _); [done|].
    destruct (same_slots_ok _ _ (retire_value_same _ existing) Ho) as [Ho' Hm'']. split; [exact Ho'|].
    split; [by rewrite Hm''|]. by destruct (retire_value_same (with_sessions m2 (Assoc.update p (λ _, s') (sessions m2))
      (rewrite_bytes (slot_bytes m2) (slot_value_len (Owned existing)) (blen value))) existing) as [_ ->].
  - apply (Hfin (add_bytes (slot_bytes m2) (blen key) (blen value))). rewrite add_bytes_exact; lia.
Qed.

(** ** Deletion *)
Definition delete_chunk (M : gmap Bytes (gmap Bytes Bytes)) (p key : Bytes) : gmap Bytes (gmap Bytes Bytes) :=
  match M !! p with
  | None => M
  | Some C => if decide (C !! key = None) then M
              else if decide (delete key C = ∅) then delete p M else <[p := delete key C]> M
  end.

(** A slab without the entry of a key. *)
Lemma slab_remove_ok s key e t :
  slab_ok s → (slab_bytes s ≤ u64_MAX)%Z → e ∈ slab_elems s → swf t → smap t = delete key (smap (slab_entries s)) → slab_elems s ≡ₚ e :: telems t →
  let s' := mkSlab t (packed_values s) (u64_saturating_sub (slab_bytes s) (slot_weight e)) in
  u64_saturating_add (blen (se_key e)) (slot_value_len (se_value e)) = slot_weight e ∧
  slab_ok s' ∧ slab_map s' = delete key (slab_map s) ∧ slab_bytes s' = (slab_bytes s - slot_weight e)%Z ∧
  (ht_len t =? 0) = bool_decide (delete key (slab_map s) = ∅).
Proof.
  intros Hs Hmax He Hwf Hm Hl s'. pose proof (slot_weight_le s e Hs He) as Hw.
  assert (Hsm : slab_map s' = delete key (slab_map s)) by (unfold slab_map; simpl; by rewrite Hm, fmap_delete).
  assert (Hbytes : slab_bytes s = (slot_weight e + sum_of slot_weight (telems t))%Z)
    by (rewrite (slab_bytes_exact s Hs), Hl; done).
  assert (Hroom : u64_saturating_sub (slab_bytes s) (slot_weight e) = (slab_bytes s - slot_weight e)%Z)
    by (unfold u64_saturating_sub; lia).
  split; [|split; [split|split; [done|split; [done|]]]].
  - unfold u64_saturating_add, slot_weight in *. lia.
  - done.
  - simpl. unfold slab_elems. simpl. lia.
  - intros x Hx. apply (slab_in_buffer s Hs). rewrite Hl. by apply list_elem_of_further.
  - rewrite <- Hsm. unfold slab_map. simpl. rewrite tlen. destruct (telems t) as [|x l] eqn:Ht; simpl; symmetry.
    + apply bool_decide_eq_true. rewrite (proj1 (tmap_empty se_key se_hash t Hwf) Ht). apply fmap_empty.
    + apply bool_decide_eq_false. intros Hc%fmap_empty_iff.
      by rewrite (proj2 (tmap_empty se_key se_hash t Hwf) Hc) in Ht.
Qed.

Lemma slot_delete_with_spec retire m p key :
  slots_ok m →
  let '(deleted, m') := slot_delete_with retire m p (hash_key key) key in
  deleted = bool_decide (is_Some (chunk m p key)) ∧ slots_ok m' ∧ slots_map m' = delete_chunk (slots_map m) p key ∧
  (slot_bytes m' ≤ slot_bytes m)%Z ∧ (slot_evictions m' = slot_evictions m).
Proof.
  intros Hok. unfold slot_delete_with. set (m0 := reclaim_slots_if_quiescent m).
  destruct (same_slots_ok m m0 (reclaim_same m) Hok) as [Hok0 Hm0]. destruct (reclaim_same m) as [_ Eb0]. fold m0 in Eb0.
  assert (Ev0 : slot_evictions m0 = slot_evictions m) by (unfold m0, reclaim_slots_if_quiescent; by destruct (slots_have_readers m)).
  unfold chunk, delete_chunk. rewrite <- Hm0.
  assert (Hp : slots_map m0 !! p = slab_map <$> Assoc.abs (sessions m0) !! p) by (unfold slots_map; by rewrite lookup_fmap).
  rewrite Hp, Assoc.abs_get. destruct (Assoc.abs (sessions m0) !! p) as [s|] eqn:Es; simpl; [|by rewrite Eb0].
  pose proof (slots_slabs m0 Hok0 p s Es) as Hs. pose proof (slab_bytes_le m0 p s Hok0 Es) as Hle.
  pose proof (slots_room m0 Hok0) as Hroom.
  pose proof (tremove se_key se_hash (slab_entries s) key _ (slab_wf s Hs) (slot_matches_finds key)) as Hr.
  assert (Hk : slab_map s !! key = (λ e, value_of (packed_values s) (se_value e)) <$> smap (slab_entries s) !! key)
    by (unfold slab_map; by rewrite lookup_fmap).
  rewrite Hk. destruct (smap (slab_entries s) !! key) as [e|] eqn:Ee.
  2: { rewrite Hr. simpl. by rewrite Eb0. }
  destruct Hr as (t & -> & Hwf & Hm & Hl). simpl.
  assert (He : e ∈ slab_elems s) by (by apply tmap_Some in Ee as [? _]).
  destruct (slab_remove_ok s key e t Hs ltac:(lia) He Hwf Hm Hl) as (Eadd & Hs' & Hsm' & Hsb' & Hemp).
  pose proof (slot_weight_le s e Hs He) as Hw. rewrite Eadd. unfold u64_saturating_sub in *.
  set (s' := mkSlab t (packed_values s) _) in *.
  set (bytes := Z.max 0 (slot_bytes m0 - _)).
  set (m1 := if ht_len t =? 0 then _ else _).
  assert (HH1 : slots_ok m1 ∧ slots_map m1 = (if decide (delete key (slab_map s) = ∅) then delete p (slots_map m0)
               else <[p := delete key (slab_map s)]> (slots_map m0)) ∧ (slot_bytes m1 ≤ slot_bytes m)%Z ∧
               slot_evictions m1 = slot_evictions m).
  { unfold m1. rewrite Hemp. destruct (decide (delete key (slab_map s) = ∅)) as [Hd|Hd].
    - rewrite bool_decide_true by done.
      assert (Hz : slab_bytes s' = 0%Z).
      { rewrite (slab_bytes_exact s' Hs'). unfold slab_elems. simpl.
        rewrite (proj2 (tmap_empty se_key se_hash t Hwf)); [done|]. rewrite <- Hsm' in Hd. by apply fmap_empty_iff in Hd. }
      destruct (remove_slab_ok m0 p s bytes Hok0 Es) as [Ho Hm1]; [unfold bytes; lia|].
      split; [done|]. split; [done|]. split; [simpl; unfold bytes; lia|done].
    - rewrite bool_decide_false by done.
      destruct (update_slab_ok m0 p s s' bytes Hok0 Es Hs') as [Ho Hm1]; [unfold bytes; lia|unfold bytes; lia|].
      split; [done|]. split; [by rewrite Hm1, Hsm'|]. split; [simpl; unfold bytes; lia|done]. }
  destruct HH1 as (Ho1 & Hmap1 & Hb1 & Hev1).
  set (m2 := match se_value e with Owned value => retire_slot_value m1 value | Packed _ _ => m1 end).
  assert (HH2 : same_slots m1 m2 ∧ slot_evictions m2 = slot_evictions m1).
  { unfold m2. destruct (se_value e); [|done]. split; [apply retire_value_same|].
    unfold retire_slot_value. by destruct (slots_have_readers m1). }
  set (m3 := if retire && _ then _ else m2).
  assert (HH3 : same_slots m2 m3 ∧ slot_evictions m3 = slot_evictions m2).
  { unfold m3. destruct (_ && _); [|done]. split; [apply retire_slab_same|].
    unfold retire_slab. by destruct (slots_have_readers m2). }
  destruct HH2 as [[Q1 Q2] Q3], HH3 as [[R1 R2] R3].
  assert (Hs13 : same_slots m1 m3) by (split; congruence).
  destruct (same_slots_ok m1 m3 Hs13 Ho1) as [Ho3 Hm3]. split; [done|]. split; [done|]. split; [|split; [lia|congruence]].
  by rewrite Hm3, Hmap1.
Qed.

(** Counting the chunks. *)
Lemma update_sum (f : SessionSlotSlab → Z) p s s' (ss : list (Bytes * SessionSlotSlab)) :
  Assoc.abs ss !! p = Some s →
  sum_of (λ x, f x.2) (Assoc.update p (λ _, s') ss) = (sum_of (λ x, f x.2) ss - f s + f s')%Z.
Proof.
  intros Es. destruct (Assoc.update_split p (λ _, s') ss s Es) as (l1 & l2 & -> & ->).
  rewrite !sum_of_app. simpl. lia.
Qed.

Lemma remove_sum (f : SessionSlotSlab → Z) p s (ss : list (Bytes * SessionSlotSlab)) :
  Assoc.wf ss → Assoc.abs ss !! p = Some s →
  sum_of (λ x, f x.2) (HashMap.remove ss p).2 = (sum_of (λ x, f x.2) ss - f s)%Z.
Proof.
  intros Hwf Es. destruct (Assoc.remove_Some p ss s Hwf Es) as (l & Hr & _ & _ & Hp).
  unfold HashMap.remove. rewrite Hr. simpl. rewrite Hp. simpl. lia.
Qed.

Lemma same_slots_len m m' : same_slots m m' → slots_len m' = slots_len m.
Proof. intros [E _]. unfold slots_len. by rewrite E. Qed.

Lemma slot_delete_len retire m p key :
  slots_ok m → (slot_delete_with retire m p (hash_key key) key).1 = true →
  slots_len (slot_delete_with retire m p (hash_key key) key).2 = (slots_len m - 1)%Z.
Proof.
  intros Hok. unfold slot_delete_with. set (m0 := reclaim_slots_if_quiescent m).
  destruct (same_slots_ok m m0 (reclaim_same m) Hok) as [Hok0 _]. rewrite <- (same_slots_len m m0 (reclaim_same m)).
  rewrite Assoc.abs_get. destruct (Assoc.abs (sessions m0) !! p) as [s|] eqn:Es; [|done].
  pose proof (slab_wf s (slots_slabs m0 Hok0 p s Es)) as Hwf.
  pose proof (tremove se_key se_hash (slab_entries s) key _ Hwf (slot_matches_finds key)) as Hr.
  destruct (smap (slab_entries s) !! key) as [e|]; [destruct Hr as (t & -> & _ & _ & Hl)|by rewrite Hr].
  assert (Hlen : ht_len (slab_entries s) = S (ht_len t)) by (rewrite !tlen, Hl; done).
  intros _. cbn [snd]. set (s' := mkSlab t _ _). set (bytes := u64_saturating_sub (slot_bytes m0) _).
  set (m1 := if ht_len t =? 0 then _ else _).
  assert (H1 : slots_len m1 = (slots_len m0 - 1)%Z).
  { unfold m1, slots_len. destruct (Nat.eqb_spec (ht_len t) 0).
    - cbn [with_sessions sessions]. rewrite (remove_sum (λ s, Z.of_nat (ht_len (slab_entries s))) p s) by (apply Hok0 || done). lia.
    - cbn [with_sessions sessions]. rewrite (update_sum (λ s, Z.of_nat (ht_len (slab_entries s))) p s) by done. simpl. lia. }
  rewrite <- H1. destruct (_ && _).
  - rewrite (same_slots_len _ _ (retire_slab_same _ s')). destruct (se_value e); [|done].
    apply (same_slots_len _ _ (retire_value_same m1 bytes0)).
  - destruct (se_value e); [|done]. apply (same_slots_len _ _ (retire_value_same m1 bytes0)).
Qed.

(** ** Replacing a session *)
Lemma replace_session_spec m (packed : PackedSessionWrite) :
  slots_ok m → slab_ok (pw_slab packed) → (slot_bytes m + slab_bytes (pw_slab packed) ≤ u64_MAX)%Z →
  let m' := replace_session_slab m packed in
  slots_ok m' ∧ slots_map m' = <[pw_prefix packed := slab_map (pw_slab packed)]> (slots_map m) ∧
  (slot_bytes m' ≤ slot_bytes m + slab_bytes (pw_slab packed))%Z.
Proof.
  intros Hok Hs Hroom. unfold replace_session_slab. set (m0 := reclaim_slots_if_quiescent m).
  destruct (same_slots_ok m m0 (reclaim_same m) Hok) as [Hok0 Hm0]. destruct (reclaim_same m) as [_ Eb0]. fold m0 in Eb0.
  pose proof (slab_bytes_nonneg _ Hs). unfold HashMap.insert. rewrite Assoc.abs_get.
  destruct (Assoc.abs (sessions m0) !! pw_prefix packed) as [s|] eqn:Es.
  - pose proof (slab_bytes_le m0 _ s Hok0 Es).
    assert (Er : rewrite_bytes (slot_bytes m0) (slab_bytes s) (slab_bytes (pw_slab packed)) =
                 (slot_bytes m0 - slab_bytes s + slab_bytes (pw_slab packed))%Z) by (apply rewrite_bytes_exact; lia).
    destruct (update_slab_ok m0 (pw_prefix packed) s (pw_slab packed) _ Hok0 Es Hs Er) as [Ho Hm]; [lia|].
    destruct (retire_slab_same (with_sessions m0 (Assoc.update (pw_prefix packed) (λ _, pw_slab packed) (sessions m0))
                (rewrite_bytes (slot_bytes m0) (slab_bytes s) (slab_bytes (pw_slab packed)))) s) as [Q1 Q2].
    destruct (same_slots_ok _ _ (conj Q1 Q2) Ho) as [Ho' Hm']. split; [exact Ho'|]. split; [by rewrite Hm', Hm, Hm0|].
    rewrite Q2. simpl. lia.
  - assert (Er : u64_saturating_add (slot_bytes m0) (slab_bytes (pw_slab packed)) =
                 (slot_bytes m0 + slab_bytes (pw_slab packed))%Z) by (unfold u64_saturating_add; lia).
    destruct (place_slab_ok m0 (pw_prefix packed) (pw_slab packed) _ Hok0 Es Hs Er) as (Ho & Hm & _); [lia|].
    split; [exact Ho|]. split; [by rewrite Hm, Hm0|]. simpl. lia.
Qed.

(** ** Eviction *)
Lemma min_by_rank_spec {A} (rank_of : A → EvictionRank) (l : list A) :
  match min_by_rank rank_of l with
  | None => l = []
  | Some x => x ∈ l ∧ ∀ y, y ∈ l → rank_le (rank_of x) (rank_of y) = true
  end.
Proof.
  unfold min_by_rank. induction l as [|x l IH] using rev_ind; [done|]. rewrite foldl_app. simpl.
  destruct (foldl _ None l) as [c|].
  - destruct IH as [Hc Hmin]. destruct (rank_le (rank_of c) (rank_of x)) eqn:E.
    + split; [set_solver|]. intros y [Hy|Hy%list_elem_of_singleton]%elem_of_app; [auto|by subst].
    + split; [set_solver|]. intros y [Hy|Hy%list_elem_of_singleton]%elem_of_app; [|subst y].
      * specialize (Hmin y Hy). unfold rank_le in *. destruct (rank_of c), (rank_of x), (rank_of y); simpl in *.
        rewrite !orb_true_iff, !andb_true_iff, !Z.ltb_lt, !Z.eqb_eq, !Z.leb_le in *.
        rewrite orb_false_iff, andb_false_iff, Z.ltb_ge, Z.eqb_neq, Z.leb_gt in E. lia.
      * unfold rank_le. by rewrite Z.eqb_refl, Z.leb_refl, orb_true_r.
  - subst l. simpl. split; [set_solver|]. intros y Hy%list_elem_of_singleton. subst y. unfold rank_le.
    by rewrite Z.eqb_refl, Z.leb_refl, orb_true_r.
Qed.

Lemma slot_candidates_elem m policy r p h k :
  slots_ok m → (r, p, h, k) ∈ slot_candidates m policy → h = hash_key k ∧ is_Some (chunk m p k).
Proof.
  intros Hok Hc. unfold slot_candidates in Hc. apply list_elem_of_bind in Hc as ([q s] & Hc & Hin).
  apply list_elem_of_fmap in Hc as (e & [= -> -> -> ->] & He). simpl in *.
  assert (Es : Assoc.abs (sessions m) !! q = Some s) by (apply elem_of_list_to_map; [apply (slots_wf m Hok)|done]).
  pose proof (slots_slabs m Hok q s Es) as Hs. pose proof (slab_wf s Hs) as Hwf.
  pose proof (telems_lookup se_key se_hash _ e Hwf He) as Hl. split.
  - destruct Hwf as [Hpl _]. rewrite Forall_forall in Hpl.
    apply list_elem_of_fmap in He as ([h e'] & -> & Hx). by apply Hpl in Hx as [_ Hx].
  - unfold chunk, slots_map. rewrite lookup_fmap, Es. simpl. unfold slab_map. rewrite lookup_fmap, Hl. by eexists.
Qed.

Lemma slot_evict_spec m policy :
  slots_ok m →
  let '(evicted, m') := slot_evict m policy in
  slots_ok m' ∧ (slot_bytes m' ≤ slot_bytes m)%Z ∧
  if evicted : bool then ∃ p k, is_Some (chunk m p k) ∧ slots_map m' = delete_chunk (slots_map m) p k
  else slots_map m' = slots_map m ∧ (policy = NoEviction ∨ ∀ p k, chunk m p k = None).
Proof.
  intros Hok. unfold slot_evict, slot_eviction_candidate. case_bool_decide as Hp; [simpl; auto with lia|].
  pose proof (min_by_rank_spec (λ c : EvictionRank * Bytes * Z * Bytes, c.1.1.1) (slot_candidates m policy)) as Hmin.
  revert Hmin. destruct (min_by_rank _ _) as [[[[r p] h] k]|]; intros Hmin.
  - destruct Hmin as [Hin _]. apply slot_candidates_elem in Hin as [-> Hsome]; [|done].
    pose proof (slot_delete_with_spec false m p k Hok) as Hd. unfold slot_delete.
    destruct (slot_delete_with false m p (hash_key k) k) as [deleted m'].
    destruct Hd as (-> & Hok' & Hm' & Hb & _). rewrite bool_decide_true by done.
    destruct (same_slots_ok m' (with_slot_evictions m' (u64_saturating_add (slot_evictions m') 1))) as [Ho Hm]; [done|done|].
    split; [done|]. split; [done|]. exists p, k. split; [done|]. by rewrite Hm.
  - split; [done|]. split; [done|]. split; [done|]. right. intros p k.
    destruct (chunk m p k) as [v|] eqn:Ev; [|done]. exfalso.
    unfold chunk, slots_map in Ev. rewrite lookup_fmap in Ev.
    destruct (Assoc.abs (sessions m) !! p) as [s|] eqn:Es; [|done]. simpl in Ev.
    unfold slab_map in Ev. rewrite lookup_fmap in Ev. destruct (smap (slab_entries s) !! k) as [e|] eqn:Ee; [|done].
    apply tmap_Some in Ee as [He <-]. apply elem_of_list_to_map_2 in Es.
    assert (Hin : (slot_rank (se_access e) policy, p, se_hash e, se_key e) ∈ slot_candidates m policy).
    { unfold slot_candidates. apply list_elem_of_bind. exists (p, s). split; [|done].
      by apply (list_elem_of_fmap_2 (λ e, (slot_rank (se_access e) policy, p, se_hash e, se_key e))). }
    rewrite Hmin in Hin. by apply not_elem_of_nil in Hin.
Qed.

Lemma slots_bytes_nonneg m : slots_ok m → (0 ≤ slot_bytes m)%Z.
Proof.
  intros Hok. rewrite (slots_bytes m Hok). apply sum_of_nonneg.
  exact (sessions_sum_nonneg _ (slots_wf m Hok) (slots_slabs m Hok)).
Qed.

(** An eviction removes a chunk; when none is left nothing is stored. *)
Lemma slot_evict_progress m policy :
  slots_ok m → policy ≠ NoEviction →
  if slot_eviction_candidate m policy is Some _
  then (slot_evict m policy).1 = true ∧ slots_len (slot_evict m policy).2 = (slots_len m - 1)%Z
  else slot_bytes m = 0%Z.
Proof.
  intros Hok Hp. unfold slot_evict, slot_eviction_candidate. rewrite bool_decide_false by done.
  pose proof (min_by_rank_spec (λ c : EvictionRank * Bytes * Z * Bytes, c.1.1.1) (slot_candidates m policy)) as Hmin.
  revert Hmin. destruct (min_by_rank _ _) as [[[[r p] h] k]|]; intros Hmin.
  - destruct Hmin as [Hin _]. apply slot_candidates_elem in Hin as [-> Hsome]; [|done].
    pose proof (slot_delete_with_spec false m p k Hok) as Hd. pose proof (slot_delete_len false m p k Hok) as Hl.
    unfold slot_delete in *. destruct (slot_delete_with false m p (hash_key k) k) as [deleted m'].
    destruct Hd as (-> & _). rewrite bool_decide_true in * by done. split; [done|]. exact (Hl eq_refl).
  - rewrite (slots_bytes m Hok). unfold sessions_bytes. rewrite (sum_of_ext _ (λ _, 0%Z)).
    { generalize (sessions m). induction l; simpl; lia. }
    intros [p s] Hin. simpl. assert (Es : Assoc.abs (sessions m) !! p = Some s)
      by (apply elem_of_list_to_map; [apply (slots_wf m Hok)|done]).
    pose proof (slots_slabs m Hok p s Es) as Hs. rewrite (slab_bytes_exact s Hs). unfold slab_elems, telems.
    destruct (ht_elements (slab_entries s)) as [|x l] eqn:El; [done|]. exfalso.
    assert (Hc : (slot_rank (se_access x.2) policy, p, se_hash x.2, se_key x.2) ∈ slot_candidates m policy).
    { unfold slot_candidates. apply list_elem_of_bind. exists (p, s). split; [|done]. simpl. rewrite El. simpl.
      apply list_elem_of_here. }
    rewrite Hmin in Hc. by apply not_elem_of_nil in Hc.
Qed.

(** ** Runs *)
Inductive SlotRequest :=
  | SlotGet (session key : Bytes)
  | SlotSet (session key value : Bytes)
  | SlotDelete (session key : Bytes)
  | SlotReplace (session : Bytes) (items : list (Bytes * Bytes))
  | SlotEvict (policy : EvictionPolicy).

Inductive SlotAnswer := SlotValue (v : option Bytes) | SlotFlag (b : bool) | SlotUnit.

Definition slot_step m (r : SlotRequest) : option (SlotAnswer * SessionSlotMap) :=
  match r with
  | SlotGet p k => '(v, m) ← slot_get m p (hash_key k) k; Some (SlotValue v, m)
  | SlotSet p k v => Some (SlotUnit, slot_set m p (hash_key k) k v)
  | SlotDelete p k => let '(b, m) := slot_delete m p (hash_key k) k in Some (SlotFlag b, m)
  | SlotReplace p items => Some (SlotUnit, replace_session_slab m (from_owned_items p items))
  | SlotEvict policy => let '(b, m) := slot_evict m policy in Some (SlotFlag b, m)
  end.

(** The same requests on a map from sessions to maps. *)
Definition chunk_of (M : gmap Bytes (gmap Bytes Bytes)) (p k : Bytes) : option Bytes := C ← M !! p; C !! k.

Inductive spec_step (M : gmap Bytes (gmap Bytes Bytes)) : SlotRequest → SlotAnswer → gmap Bytes (gmap Bytes Bytes) → Prop :=
  | SpecGet p k : spec_step M (SlotGet p k) (SlotValue (chunk_of M p k)) M
  | SpecSet p k v : spec_step M (SlotSet p k v) SlotUnit (<[p := <[k := v]> (default ∅ (M !! p))]> M)
  | SpecDelete p k : spec_step M (SlotDelete p k) (SlotFlag (bool_decide (is_Some (chunk_of M p k)))) (delete_chunk M p k)
  | SpecReplace p items : spec_step M (SlotReplace p items) SlotUnit (<[p := items_map ∅ items]> M)
  | SpecEvicted policy p k : is_Some (chunk_of M p k) → spec_step M (SlotEvict policy) (SlotFlag true) (delete_chunk M p k)
  | SpecNothing policy : policy = NoEviction ∨ (∀ p k, chunk_of M p k = None) → spec_step M (SlotEvict policy) (SlotFlag false) M.

(** The bytes a request can add, and the packing limit of a replacement. *)
Definition request_size (r : SlotRequest) : Z :=
  match r with
  | SlotSet _ k v => blen k + blen v
  | SlotReplace _ items => items_size items
  | _ => 0
  end%Z.
Definition packable (r : SlotRequest) : Prop :=
  match r with SlotReplace _ items => (packed_size items ≤ u32_MAX)%Z | _ => True end.

Lemma slot_step_spec m r :
  slots_ok m → packable r → (slot_bytes m + request_size r ≤ u64_MAX)%Z →
  ∃ a m', slot_step m r = Some (a, m') ∧ slots_ok m' ∧ spec_step (slots_map m) r a (slots_map m') ∧
          (slot_bytes m' ≤ slot_bytes m + request_size r)%Z.
Proof.
  intros Hok Hp Hroom. destruct r as [p k|p k v|p k|p items|policy]; simpl in *.
  - destruct (slot_get_spec m p k Hok) as (m' & -> & Hok' & Hm & Hb). eexists _, m'. split; [done|]. split; [done|].
    rewrite Hm. split; [constructor|lia].
  - destruct (slot_set_spec m p k v Hok) as (Hok' & Hm & Hb); [lia|]. eexists _, _. split; [done|]. split; [done|].
    rewrite Hm. split; [constructor|lia].
  - pose proof (slot_delete_with_spec false m p k Hok) as Hd. unfold slot_delete.
    destruct (slot_delete_with false m p (hash_key k) k) as [b m']. destruct Hd as (-> & Hok' & Hm & Hb & _).
    eexists _, m'. split; [done|]. split; [done|]. rewrite Hm. split; [constructor|lia].
  - destruct (from_owned_items_spec p items) as (Hs & Hpre & Hmap & Hle); [done|pose proof (slots_bytes_nonneg m Hok); lia|].
    destruct (replace_session_spec m (from_owned_items p items) Hok Hs) as (Hok' & Hm & Hb); [lia|].
    eexists _, _. split; [done|]. split; [done|]. rewrite Hm, Hpre, Hmap. split; [constructor|lia].
  - pose proof (slot_evict_spec m policy Hok) as He. destruct (slot_evict m policy) as [b m'].
    destruct He as (Hok' & Hb & He). eexists _, m'. split; [done|]. split; [done|]. split; [|lia].
    destruct b; [destruct He as (p & k & Hs & ->); by constructor|destruct He as [-> Hn]; by constructor].
Qed.

(** A sequence of requests on the slots, and on the map. *)
Fixpoint slot_run m (rs : list SlotRequest) : option (list SlotAnswer * SessionSlotMap) :=
  match rs with
  | [] => Some ([], m)
  | r :: rs => '(a, m) ← slot_step m r; '(l, m) ← slot_run m rs; Some (a :: l, m)
  end.

Inductive spec_run (M : gmap Bytes (gmap Bytes Bytes)) : list SlotRequest → list SlotAnswer → gmap Bytes (gmap Bytes Bytes) → Prop :=
  | SpecDone : spec_run M [] [] M
  | SpecMore r a M1 rs l M2 : spec_step M r a M1 → spec_run M1 rs l M2 → spec_run M (r :: rs) (a :: l) M2.

Lemma slot_run_spec m rs :
  slots_ok m → Forall packable rs → (slot_bytes m + sum_of request_size rs ≤ u64_MAX)%Z →
  ∃ l m', slot_run m rs = Some (l, m') ∧ slots_ok m' ∧ spec_run (slots_map m) rs l (slots_map m').
Proof.
  revert m. induction rs as [|r rs IH]; intros m Hok Hp Hroom; [eexists _, m; split; [done|]; split; [done|constructor]|].
  apply Forall_cons in Hp as [Hp Hps]. simpl in Hroom.
  assert (Hn : (0 ≤ sum_of request_size rs)%Z).
  { apply sum_of_nonneg. intros x _. destruct x; simpl; try lia.
    - pose proof (blen_nonneg key). pose proof (blen_nonneg value). lia.
    - apply sum_of_nonneg. intros i _. pose proof (blen_nonneg i.1). pose proof (blen_nonneg i.2). lia. }
  destruct (slot_step_spec m r Hok Hp) as (a & m1 & E1 & Hok1 & Hs & Hb); [lia|].
  destruct (IH m1 Hok1 Hps) as (l & m' & E2 & Hok' & Hr); [lia|].
  simpl. rewrite E1. simpl. rewrite E2. eexists _, m'. split; [done|]. split; [done|]. by econstructor.
Qed.
End session_proofs.
