(* ===== verification/EmbeddedShard.v ===== *)
(** * A shard of the embedded store

    [storage/embedded_store/shard.rs]: a string key space and the session
    slots beside it, under one memory limit, and the functions of
    [storage/embedded_store/routing.rs] that say which keys belong to a
    session.  Semantic-search entries are not modelled. *)

From S2P Require Import Prelude Deps Codec HashSet Routing FastKinds FlatMap SessionSlots.

(** ** Session prefixes of keys *)

(** [str::split('@')] on the bytes. *)
Fixpoint split_at (sep : Z) (s : Bytes) : list Bytes :=
  match s with
  | [] => [[]]
  | b :: s =>
      if (b =? sep)%Z then [] :: split_at sep s
      else match split_at sep s with part :: parts => (b :: part) :: parts | [] => [[b]] end
  end.

(** [str::str_strip_prefix]. *)
Definition str_strip_prefix (prefix s : Bytes) : option Bytes :=
  if bytes_eqb (take (length prefix) s) prefix then Some (drop (length prefix) s) else None.

Definition derived_session_storage_prefix (key : Bytes) : option Bytes :=
  if is_session_key key then Some (session_route_prefix key)
  else if negb (existsb (Z.eqb 64) key) then None
  else if negb (utf8_valid key) then None
  else session ← head (omap (str_strip_prefix (text "session%")) (split_at 64 key));
       Some (text "lmcache-session:" ++ session).

Definition point_write_session_storage_prefix (key : Bytes) : option Bytes :=
  if is_session_key key then Some (session_route_prefix key) else None.

Definition uses_flat_key_storage (route_mode : EmbeddedRouteMode) (key : Bytes) : bool :=
  bool_decide (route_mode = FullKey) || bool_decide (derived_session_storage_prefix key = None).

Section embedded_shard.
Context `{Hashing} {HT : Type → Type} `{!HashTable HT} `{TableOrder}.
Abbreviation FlatMap := (FlatMap (HT := HT)).
Abbreviation SessionSlotMap := (SessionSlotMap (HT := HT)).

Record EmbeddedShard := mkEmbedded {
  es_map : FlatMap;
  session_slots : SessionSlotMap;
  es_limit : option Z;
  es_semantic_limit : option Z;
  es_policy : EvictionPolicy;
}.

Implicit Types (sh : EmbeddedShard) (key value : Bytes) (hash now_ms : Z).

Definition with_map sh m : EmbeddedShard := mkEmbedded m (session_slots sh) (es_limit sh) (es_semantic_limit sh) (es_policy sh).
Definition with_slots sh s : EmbeddedShard := mkEmbedded (es_map sh) s (es_limit sh) (es_semantic_limit sh) (es_policy sh).

Definition es_stored_bytes sh : Z := u64_saturating_add (stored_bytes (es_map sh)) (slot_bytes (session_slots sh)).

(** ** Memory limit *)
Definition update_lazy_read_sampling sh : EmbeddedShard :=
  let enabled := match es_policy sh, es_limit sh with
                 | NoEviction, _ | _, None => false
                 | _, Some limit =>
                     let watermark := (Z.min u64_MAX (limit * 3) / 4)%Z in
                     (Z.max watermark 1 <=? es_stored_bytes sh)%Z
                 end in
  with_slots sh (configure_read_sampling (session_slots sh) enabled).

(** One eviction, from the side whose coldest entry is colder. *)
Definition evict_colder sh : bool * EmbeddedShard :=
  let from_map := let '(evicted, m) := evict_with_policy (es_map sh) (es_policy sh) in (evicted, with_map sh m) in
  let from_slots := let '(evicted, s) := slot_evict (session_slots sh) (es_policy sh) in (evicted, with_slots sh s) in
  match eviction_candidate (es_map sh) (es_policy sh), slot_eviction_candidate (session_slots sh) (es_policy sh) with
  | Some (map_rank, _, _), Some (session_rank, _, _, _) =>
      if rank_lt session_rank map_rank then from_slots else from_map
  | Some _, None => from_map
  | None, Some _ => from_slots
  | None, None => (false, sh)
  end.

(** The loop of [enforce_memory_limit_to]; [fuel] bounds the evictions. *)
Fixpoint evict_until (fuel : nat) (limit : Z) sh : EmbeddedShard :=
  match fuel with
  | 0 => sh
  | S fuel =>
      if (es_stored_bytes sh <=? limit)%Z then sh
      else let '(evicted, sh) := evict_colder sh in
           if evicted : bool then evict_until fuel limit sh else sh
  end.

Definition shard_fuel sh : nat := S (length (flat_entries (es_map sh)) + Z.to_nat (slots_len (session_slots sh))).

Definition enforce_memory_limit_to sh (limit now_ms : Z) : EmbeddedShard :=
  let sh := update_lazy_read_sampling sh in
  if (es_stored_bytes sh <=? limit)%Z then sh
  else
    let sh := with_map sh (process_maintenance (es_map sh) now_ms).2 in
    if slots_is_empty (session_slots sh) then
      update_lazy_read_sampling
        (with_map sh (evict_to_memory_target (es_map sh) (es_policy sh) (eviction_target_bytes limit)).2)
    else update_lazy_read_sampling (evict_until (shard_fuel sh) limit sh).

Definition es_enforce_memory_limit sh now_ms : EmbeddedShard :=
  match es_limit sh with None => sh | Some limit => enforce_memory_limit_to sh limit now_ms end.

Definition positive_limit (limit : option Z) : option Z :=
  match limit with Some l => if (0 <? l)%Z then Some l else None | None => None end.

(** The string key space itself runs without a limit. *)
Definition es_configure_memory_policy sh (limit : option Z) (policy : EvictionPolicy) now_ms : EmbeddedShard :=
  let limit := positive_limit limit in
  let sh := mkEmbedded (es_map sh) (session_slots sh) limit (es_semantic_limit sh) policy in
  let tracked := match limit with Some _ => negb (bool_decide (policy = NoEviction)) | None => false end in
  let sh := with_slots sh (configure_access_tracking (session_slots sh) tracked) in
  let sh := update_lazy_read_sampling sh in
  let sh := with_map sh (configure_memory_policy (es_map sh) None policy now_ms) in
  es_enforce_memory_limit sh now_ms.

Definition with_limits (limit : option Z) (policy : EvictionPolicy) : EmbeddedShard :=
  es_configure_memory_policy (mkEmbedded flat_new slots_new None None NoEviction) limit policy 0.

(** ** Writes *)

(** [session_slots.delete_hashed] when the key has a session. *)
Definition drop_session_chunk sh (prefix : option Bytes) hash key : EmbeddedShard :=
  match prefix with
  | Some p => with_slots sh (slot_delete (session_slots sh) p hash key).2
  | None => sh
  end.

(** The session of a key that a write must leave, under the shard's route mode. *)
Definition write_session (route_mode : EmbeddedRouteMode) key : option Bytes :=
  if bool_decide (route_mode = SessionPrefix) then derived_session_storage_prefix key else None.

Definition set_value_bytes_hashed sh (route_mode : EmbeddedRouteMode) hash key value (expire_at_ms : option Z) now_ms :
    EmbeddedShard :=
  let sh := drop_session_chunk sh (write_session route_mode key) hash key in
  es_enforce_memory_limit (with_map sh (set_bytes_hashed (es_map sh) hash key value expire_at_ms now_ms)) now_ms.

Definition set_value_bytes_hashed_with_governance sh (route_mode : EmbeddedRouteMode) hash key value (governance : Bytes)
    (expire_at_ms : option Z) now_ms : EmbeddedShard :=
  let sh := drop_session_chunk sh (write_session route_mode key) hash key in
  es_enforce_memory_limit
    (with_map sh (set_bytes_hashed_with_governance (es_map sh) hash key value governance expire_at_ms now_ms)) now_ms.

Definition es_set_slice_hashed sh (route_mode : EmbeddedRouteMode) hash key value (expire_at_ms : option Z) (unique : bool)
    now_ms : EmbeddedShard :=
  let sh := drop_session_chunk sh (write_session route_mode key) hash key in
  es_enforce_memory_limit (with_map sh (set_slice_hashed (es_map sh) hash key value expire_at_ms unique now_ms)) now_ms.

Definition es_set_slice_hashed_no_ttl sh (route_mode : EmbeddedRouteMode) hash key value (unique : bool) : EmbeddedShard :=
  let sh := drop_session_chunk sh (write_session route_mode key) hash key in
  es_enforce_memory_limit (with_map sh (set_slice_hashed_no_ttl (es_map sh) hash key value unique)) 0.

Definition set_session_slice_hashed_no_ttl sh (session_prefix : Bytes) hash key value : EmbeddedShard :=
  let sh := if flat_is_empty (es_map sh) then sh else with_map sh (delete_hashed (es_map sh) hash key).2 in
  es_enforce_memory_limit (with_slots sh (slot_set (session_slots sh) session_prefix hash key value)) 0.

Definition es_remove_value_hashed sh hash key now_ms : option Bytes * EmbeddedShard :=
  let '(removed, m) := remove_value_hashed (es_map sh) hash key now_ms in
  let sh := with_map sh m in
  (removed, match removed with Some _ => es_enforce_memory_limit sh now_ms | None => sh end).

(** The read-modify-write of [map.transform_value_hashed_no_ttl],
    [map.transform_value_hashed_preserve_ttl] and [map.update_value_hashed_no_ttl]. *)
Definition es_transform_no_ttl {R Err} sh hash key now_ms (transform : option Bytes → Err + (R * Bytes)) :
    (Err + R) * EmbeddedShard :=
  let '(r, m) := transform_value_hashed (es_map sh) hash key now_ms true transform in (r, with_map sh m).

Definition es_transform_preserve_ttl {R Err} sh hash key now_ms (transform : option Bytes → Err + (R * Bytes)) :
    (Err + R) * EmbeddedShard :=
  let '(r, m) := transform_value_hashed (es_map sh) hash key now_ms false transform in (r, with_map sh m).

Definition es_update_no_ttl {R} sh hash key (unique : bool) (update : Bytes → R * Bytes) : option R * EmbeddedShard :=
  let '(r, m) := update_value_hashed_no_ttl (es_map sh) hash key unique update in (r, with_map sh m).

(** ** Reads *)
Definition get_ref_hashed_session_or_flat sh hash key now_ms : option (option Bytes * EmbeddedShard) :=
  let flat sh := let '(v, m) := get_ref_hashed (es_map sh) hash key now_ms in (v, with_map sh m) in
  match derived_session_storage_prefix key with
  | None => Some (flat sh)
  | Some p =>
      '(v, s) ← slot_get (session_slots sh) p hash key;
      let sh := with_slots sh s in
      Some (match v with Some _ => (v, sh) | None => flat sh end)
  end.

Definition get_ref_hashed_published_session_or_flat sh hash key now_ms : option (option Bytes * EmbeddedShard) :=
  let flat sh := let '(v, m) := get_ref_hashed (es_map sh) hash key now_ms in (v, with_map sh m) in
  match derived_session_storage_prefix key with
  | Some p => if has_session (session_slots sh) p
              then '(v, s) ← slot_get (session_slots sh) p hash key; Some (v, with_slots sh s)
              else Some (flat sh)
  | None => Some (flat sh)
  end.
End embedded_shard.
