(* ===== verification/EmbeddedShardProofs.v ===== *)
(** * A shard of the embedded store: invariant, limit and refinement

    A shard keeps a key either in its string key space or as a chunk of a
    session, never in both.  What a read sees is one map; writes and reads are
    the operations on that map, the memory limit only takes entries away, and
    with an eviction policy it holds after every write. *)

From S2P Require Import Prelude Deps Codec HashSet Snapshot Recovery FlatMap FlatMapProofs FlatEviction FlatRefine FlatRun.
From S2P Require Import Routing FastKinds KeyedTable SessionSlots SessionSlotsProofs EmbeddedShard.

Section embedded_proofs.
Context `{Hashing} {HT : Type → Type} `{!HashTable HT} `{TableOrder}.
Abbreviation FlatMap := (FlatMap (HT := HT)).
Abbreviation SessionSlotMap := (SessionSlotMap (HT := HT)).
Abbreviation EmbeddedShard := (EmbeddedShard (HT := HT)).
Implicit Types (m : FlatMap) (s : SessionSlotMap) (sh : EmbeddedShard) (key value : Bytes) (now_ms : Z).

(** ** One eviction from the string key space *)
Lemma evict_first_logged_spec log m :
  flat_ok m →
  let '(r, m') := evict_first_logged log m in
  if r is Some _ then length (flat_entries m') < length (flat_entries m) else tidy m m'.
Proof.
  revert m. induction log as [|touch log IH]; intros m Hok; cbn [evict_first_logged]; [done|].
  pose proof (tidy_ok _ _ (with_log_tidy m log) Hok) as Hok1.
  destruct (find_touched (with_log m log) touch) as [e|].
  - pose proof (delete_internal_spec (with_log m log) (touch_hash touch) (fe_key e) Evicted Hok1) as Hd.
    unfold evict_or_offload_hashed. destruct (delete_hashed_internal _ _ _ _) as [b m1]. simpl in Hd.
    destruct (find_key _ _ _) as [e'|]; destruct Hd as [-> Hd].
    + apply dropped_length in Hd. change (flat_entries (with_log m log)) with (flat_entries m) in Hd. lia.
    + assert (tidy m m1) as Ht by (etrans; [apply with_log_tidy|done]).
      specialize (IH m1 (tidy_ok _ _ Ht Hok)). destruct (evict_first_logged log m1) as [[k|] m2].
      * by rewrite (same_table_entries _ _ (proj1 Ht)) in IH.
      * by etrans.
  - specialize (IH _ Hok1). destruct (evict_first_logged log _) as [[k|] m2]; [done|].
    etrans; [apply with_log_tidy|done].
Qed.

Lemma eviction_candidate_spec m policy :
  policy ≠ NoEviction →
  if eviction_candidate m policy is Some (_, h, k)
  then ∃ e, e ∈ flat_entries m ∧ h = fe_hash e ∧ k = fe_key e else flat_entries m = [].
Proof.
  intros Hp. unfold eviction_candidate, flat_is_empty. rewrite bool_decide_false, flat_len_entries, orb_false_l by done.
  generalize (flat_entries m) as es. intros es. destruct (decide (es = [])) as [->|Hne]; [done|].
  replace (Z.of_nat (length es) =? 0)%Z with false by (destruct es; simpl; [done|lia]).
  assert (∀ (l : list FlatEntry) sel, (∀ c, sel = Some c → ∃ e, e ∈ es ∧ c.1.2 = fe_hash e ∧ c.2 = fe_key e) →
    (∀ e, e ∈ l → e ∈ es) → is_Some sel ∨ l ≠ [] →
    ∃ c e, foldl (λ selected e,
       let candidate := (rank (fe_access e) policy, fe_hash e, fe_key e) in
       match selected with
       | Some current => if rank_le current.1.1 candidate.1.1 then Some current else Some candidate
       | None => Some candidate
       end) sel l = Some c ∧ e ∈ es ∧ c.1.2 = fe_hash e ∧ c.2 = fe_key e) as Hfold.
  { induction l as [|e l IH]; intros sel Hs Hl Hn; simpl.
    - destruct Hn as [[c ->]|?]; [|done]. destruct (Hs c eq_refl) as (e & ?). eauto.
    - apply IH; [|intros; apply Hl; by right|left; by destruct sel as [[[? ?] ?]|]; [case_match|]].
      intros c. destruct sel as [c0|]; [case_match; [by apply Hs|]|]; intros [= <-]; simpl; exists e;
        (split; [apply Hl; left|done]). }
  destruct (Hfold es None) as ([[r h] k] & e & E & He); [done|done|by right|].
  lazymatch goal with |- context [foldl ?f None es] => assert (foldl f None es = Some (r, h, k)) as -> by exact E end.
  by exists e.
Qed.

Lemma evict_with_policy_progress m policy :
  flat_ok m → policy ≠ NoEviction →
  if eviction_candidate m policy is Some _
  then (evict_with_policy m policy).1 = true ∧
       length (flat_entries (evict_with_policy m policy).2) < length (flat_entries m)
  else stored_bytes m = 0%Z.
Proof.
  intros Hok Hp. pose proof (eviction_candidate_spec m policy Hp) as Hc.
  destruct (eviction_candidate m policy) as [[[r h] k]|] eqn:Ec; [|by rewrite (ok_bytes m (proj1 Hok)), Hc].
  unfold evict_with_policy, evict_one_with_policy.
  set (first := if bool_decide (policy = Lru) then _ else _).
  assert (let '(r, m') := first in
          if r is Some _ then length (flat_entries m') < length (flat_entries m) else tidy m m') as Hf.
  { unfold first. case_bool_decide; [by apply evict_first_logged_spec|done]. }
  destruct first as [[k'|] m1]; [done|].
  assert (eviction_candidate m1 policy = Some (r, h, k)) as ->.
  { rewrite <- Ec. destruct Hf as [(E & _) _]. unfold eviction_candidate, flat_is_empty, flat_len, flat_entries.
    by rewrite E. }
  destruct Hc as (e & He & -> & ->). rewrite <- (same_table_entries _ _ (proj1 Hf)) in *.
  destruct (evict_present m1 e (tidy_ok _ _ Hf Hok) He) as [Hb Hd].
  destruct (evict_or_offload_hashed m1 (fe_hash e) (fe_key e)) as [b m2]. simpl in *. subst b.
  apply dropped_length in Hd. split; [done|]. simpl. lia.
Qed.

Lemma evict_with_policy_shed m policy : flat_ok m → shed 0 m (evict_with_policy m policy).2.
Proof.
  intros Hok. pose proof (evict_one_shed 0 policy m Hok) as Hs. unfold evict_with_policy.
  by destruct (evict_one_with_policy m policy).
Qed.

(** ** What a read sees, and the invariant *)
Definition session_chunk s key : option Bytes := p ← derived_session_storage_prefix key; chunk s p key.

Definition seen sh key : option StoredEntry :=
  match session_chunk (session_slots sh) key with
  | Some v => Some (mkEntry key v None None)
  | None => contents (es_map sh) !! key
  end.

Record shard_ok sh : Prop := {
  sh_map : flat_ok (es_map sh);
  sh_slots : slots_ok (session_slots sh);
  sh_unlimited : memory_limit_bytes (es_map sh) = None;
  sh_apart : ∀ key, is_Some (session_chunk (session_slots sh) key) → contents (es_map sh) !! key = None;
  sh_limit : limit_ok (es_limit sh);
}.

(** [sh'] keeps some of what [sh] holds, and no counter grew. *)
Record fades sh sh' : Prop := {
  fa_ok : shard_ok sh';
  fa_seen : ∀ key, seen sh' key = None ∨ seen sh' key = seen sh key;
  fa_budget : (budget (es_map sh') ≤ budget (es_map sh))%Z;
  fa_slots : (slot_bytes (session_slots sh') ≤ slot_bytes (session_slots sh))%Z;
  fa_limit : es_limit sh' = es_limit sh;
  fa_policy : es_policy sh' = es_policy sh;
}.

Lemma fades_refl sh : shard_ok sh → fades sh sh.
Proof. intros Hok. split; auto with lia. Qed.

Lemma fades_trans sh1 sh2 sh3 : fades sh1 sh2 → fades sh2 sh3 → fades sh1 sh3.
Proof.
  intros [? H2 ? ? ? ?] [? H3 ? ? ? ?]. split; [done| |lia|lia|congruence|congruence].
  intros key. destruct (H3 key) as [?| ->]; auto.
Qed.

Lemma fades_map now sh m : shard_ok sh → shed now (es_map sh) m → fades sh (with_map sh m).
Proof.
  intros Hok [Hm Hsub _ _ (Hb & _) [Hc _]]. assert (Hsub' : ∀ key, contents m !! key = None ∨ contents m !! key = contents (es_map sh) !! key).
  { intros key. destruct (contents m !! key) as [e|] eqn:E; [|auto]. right. by rewrite (lookup_weaken _ _ _ _ E Hsub). }
  split; [|intros key; unfold seen; simpl; destruct (session_chunk _ key); auto|done|done|done|done].
  destruct Hok as [? ? Hu Ha ?]. split; simpl; [done|done|by rewrite Hc|intros key Hk|done].
  destruct (Hsub' key) as [?| ->]; auto.
Qed.

Definition chunks_fade s s' : Prop := ∀ p k, chunk s' p k = None ∨ chunk s' p k = chunk s p k.

Lemma fades_chunks sh s :
  shard_ok sh → slots_ok s → chunks_fade (session_slots sh) s → (slot_bytes s ≤ slot_bytes (session_slots sh))%Z →
  fades sh (with_slots sh s).
Proof.
  intros [? ? ? Ha ?] Hs Hf Hb.
  assert (Hf' : ∀ key, session_chunk s key = None ∨ session_chunk s key = session_chunk (session_slots sh) key)
    by (intros key; unfold session_chunk; destruct (derived_session_storage_prefix key); simpl; auto).
  assert (Hseen : ∀ key, session_chunk s key = None → is_Some (session_chunk (session_slots sh) key) →
                         contents (es_map sh) !! key = None) by auto.
  split; [|intros key|done|done|done|done].
  - split; simpl; try done. intros key. destruct (Hf' key) as [->| ->]; [by intros []|auto].
  - unfold seen. simpl. destruct (Hf' key) as [E| ->]; [|auto]. rewrite E.
    destruct (session_chunk (session_slots sh) key) as [v|] eqn:Ev; [|auto]. left. by apply Hseen; [|rewrite Ev].
Qed.

Lemma delete_chunk_lookup M p k p' k' :
  chunk_of (delete_chunk M p k) p' k' = if decide (p = p' ∧ k = k') then None else chunk_of M p' k'.
Proof.
  unfold delete_chunk, chunk_of. destruct (M !! p) as [C|] eqn:Ep.
  2:{ destruct (decide _) as [[<- <-]|]; [by rewrite Ep|done]. }
  destruct (decide (C !! k = None)) as [Ek|Ek].
  { destruct (decide _) as [[<- <-]|]; [by rewrite Ep|done]. }
  destruct (decide (p = p')) as [<-|Hp].
  - rewrite Ep. simpl. destruct (decide (delete k C = ∅)) as [E|E].
    + rewrite lookup_delete_eq. destruct (decide _) as [?|Hn]; [done|]. simpl. symmetry.
      rewrite <- (lookup_delete_ne C k k') by naive_solver. by rewrite E, lookup_empty.
    + rewrite lookup_insert_eq. simpl. destruct (decide _) as [[_ <-]|Hn]; [apply lookup_delete_eq|].
      apply lookup_delete_ne. naive_solver.
  - rewrite (decide_False (P := p = p' ∧ k = k')) by naive_solver.
    destruct (decide (delete k C = ∅)); [by rewrite lookup_delete_ne|by rewrite lookup_insert_ne].
Qed.

Lemma same_slots_fades sh s : shard_ok sh → same_slots (session_slots sh) s → fades sh (with_slots sh s).
Proof.
  intros Hok Hs. destruct (same_slots_ok _ _ Hs (sh_slots sh Hok)) as [Hs' Hm]. apply fades_chunks; [done|done| |].
  - intros p k. right. unfold chunk. by rewrite Hm.
  - destruct Hs as [_ ->]. lia.
Qed.

Lemma update_sampling_fades sh : shard_ok sh → fades sh (update_lazy_read_sampling sh).
Proof. intros Hok. by apply same_slots_fades. Qed.

Lemma slot_evict_fades sh policy : shard_ok sh → fades sh (with_slots sh (slot_evict (session_slots sh) policy).2).
Proof.
  intros Hok. pose proof (slot_evict_spec _ policy (sh_slots sh Hok)) as He.
  destruct (slot_evict (session_slots sh) policy) as [b s]. destruct He as (Hs & Hb & He). apply fades_chunks; [done|done| |done].
  simpl. intros p k. unfold chunk. destruct b.
  - destruct He as (p' & k' & _ & ->). pose proof (delete_chunk_lookup (slots_map (session_slots sh)) p' k' p k) as Hl.
    unfold chunk_of in Hl. rewrite Hl. case_decide; auto.
  - destruct He as [-> _]. auto.
Qed.

(** ** The limit *)
Lemma slots_len_nonneg s : (0 ≤ slots_len s)%Z.
Proof. apply sum_of_nonneg. intros. lia. Qed.

Definition shard_size sh : nat := length (flat_entries (es_map sh)) + Z.to_nat (slots_len (session_slots sh)).

Lemma evict_colder_fades sh : shard_ok sh → fades sh (evict_colder sh).2.
Proof.
  intros Hok. pose proof (fades_map 0 sh _ Hok (evict_with_policy_shed _ (es_policy sh) (sh_map sh Hok))) as Hm.
  pose proof (slot_evict_fades sh (es_policy sh) Hok) as Hs. unfold evict_colder.
  destruct (evict_with_policy (es_map sh) (es_policy sh)) as [bm m], (slot_evict (session_slots sh) (es_policy sh)) as [bs s].
  destruct (eviction_candidate _ _) as [[[r h] k]|], (slot_eviction_candidate _ _) as [[[[r' p'] h'] k']|]; simpl in *;
    try done; [by case_match|by apply fades_refl].
Qed.

Lemma evict_colder_progress sh :
  shard_ok sh → es_policy sh ≠ NoEviction →
  if (evict_colder sh).1 : bool then shard_size (evict_colder sh).2 < shard_size sh else es_stored_bytes sh = 0%Z.
Proof.
  intros Hok Hp. pose proof (evict_with_policy_progress _ _ (sh_map sh Hok) Hp) as Hm.
  pose proof (slot_evict_progress _ _ (sh_slots sh Hok) Hp) as Hs.
  pose proof (slots_len_nonneg (slot_evict (session_slots sh) (es_policy sh)).2) as Hn. unfold evict_colder, shard_size.
  destruct (evict_with_policy (es_map sh) (es_policy sh)) as [bm m], (slot_evict (session_slots sh) (es_policy sh)) as [bs s].
  simpl in Hm, Hs, Hn.
  destruct (eviction_candidate (es_map sh) (es_policy sh)) as [[[r h] k]|];
    destruct (slot_eviction_candidate (session_slots sh) (es_policy sh)) as [[[[r' p'] h'] k']|];
    [destruct Hm as [-> Hm], Hs as [-> Hs]; destruct (rank_lt r' r)
    |destruct Hm as [-> Hm]|destruct Hs as [-> Hs]|]; simpl; try lia.
  unfold es_stored_bytes. rewrite Hm, Hs. done.
Qed.

Lemma evict_until_fades fuel limit sh : shard_ok sh → fades sh (evict_until fuel limit sh).
Proof.
  revert sh. induction fuel as [|fuel IH]; intros sh Hok; simpl; [by apply fades_refl|].
  case_match; [by apply fades_refl|]. pose proof (evict_colder_fades sh Hok) as Hf.
  destruct (evict_colder sh) as [b sh1]. simpl in Hf. destruct b; [|done]. eapply fades_trans; [done|]. apply IH, Hf.
Qed.

Lemma evict_until_limit fuel limit sh :
  shard_ok sh → es_policy sh ≠ NoEviction → (0 ≤ limit)%Z → shard_size sh < fuel →
  (es_stored_bytes (evict_until fuel limit sh) ≤ limit)%Z.
Proof.
  revert sh. induction fuel as [|fuel IH]; intros sh Hok Hp Hl Hf; [lia|]. simpl. case_match; [by apply Z.leb_le|].
  pose proof (evict_colder_progress sh Hok Hp) as Hg. pose proof (evict_colder_fades sh Hok) as Hfa.
  destruct (evict_colder sh) as [b sh1]. simpl in *. destruct b.
  - apply IH; [apply Hfa|by rewrite (fa_policy _ _ Hfa)|done|lia].
  - destruct (Z.leb_spec (es_stored_bytes sh) limit); [done|lia].
Qed.

Lemma maintenance_fades sh now_ms : shard_ok sh → fades sh (with_map sh (process_maintenance (es_map sh) now_ms).2).
Proof. intros Hok. eapply (fades_map now_ms); [done|]. apply maintenance_shed; [apply Hok|done]. Qed.

Lemma enforce_to_fades sh limit now_ms : shard_ok sh → fades sh (enforce_memory_limit_to sh limit now_ms).
Proof.
  intros Hok. unfold enforce_memory_limit_to. pose proof (update_sampling_fades sh Hok) as F1.
  case_match; [done|]. eapply fades_trans; [done|]. set (sh1 := update_lazy_read_sampling sh) in *.
  pose proof (maintenance_fades sh1 now_ms (fa_ok _ _ F1)) as F2. eapply fades_trans; [done|].
  set (sh2 := with_map sh1 _) in *. case_match.
  - pose proof (fades_map 0 sh2 _ (fa_ok _ _ F2)
      (evict_to_target_shed 0 (es_policy sh2) (eviction_target_bytes limit) _ (sh_map _ (fa_ok _ _ F2)))) as F3.
    eapply fades_trans; [done|]. apply update_sampling_fades, F3.
  - pose proof (evict_until_fades (shard_fuel sh2) limit sh2 (fa_ok _ _ F2)) as F3.
    eapply fades_trans; [done|]. apply update_sampling_fades, F3.
Qed.

Lemma es_enforce_fades sh now_ms : shard_ok sh → fades sh (es_enforce_memory_limit sh now_ms).
Proof.
  intros Hok. unfold es_enforce_memory_limit. destruct (es_limit sh); [by apply enforce_to_fades|by apply fades_refl].
Qed.

Lemma es_enforce_limit sh limit now_ms :
  shard_ok sh → es_limit sh = Some limit → es_policy sh ≠ NoEviction →
  (es_stored_bytes (es_enforce_memory_limit sh now_ms) ≤ limit)%Z.
Proof.
  intros Hok El Hp. pose proof (sh_limit sh Hok) as Hl. unfold es_enforce_memory_limit. rewrite El in *. simpl in Hl.
  unfold enforce_memory_limit_to. pose proof (update_sampling_fades sh Hok) as F1.
  destruct (Z.leb_spec (es_stored_bytes (update_lazy_read_sampling sh)) limit); [done|].
  set (sh1 := update_lazy_read_sampling sh) in *. pose proof (maintenance_fades sh1 now_ms (fa_ok _ _ F1)) as F2.
  set (sh2 := with_map sh1 _) in *. destruct (slots_is_empty (session_slots sh2)) eqn:Ee.
  - assert (slot_bytes (session_slots sh2) = 0%Z) as E0.
    { rewrite (slots_bytes _ (sh_slots _ (fa_ok _ _ F2))). unfold slots_is_empty in Ee.
      by destruct (sessions (session_slots sh2)). }
    pose proof (eviction_target_le limit ltac:(lia)).
    pose proof (evict_to_target_reaches (es_policy sh2) (eviction_target_bytes limit) _ (sh_map _ (fa_ok _ _ F2)) Hp ltac:(lia)).
    change (u64_saturating_add (stored_bytes (evict_to_memory_target (es_map sh2) (es_policy sh2)
      (eviction_target_bytes limit)).2) (slot_bytes (session_slots sh2)) ≤ limit)%Z.
    rewrite E0. unfold u64_saturating_add. lia.
  - apply (evict_until_limit (shard_fuel sh2) limit sh2); [apply F2|done|lia|]. unfold shard_fuel, shard_size. lia.
Qed.

(** ** Writes and reads *)
Definition shows sh (V : Entries) : Prop := ∀ key, V !! key = seen sh key.

(** Enforcing the limit keeps part of what was there, all of it without a limit. *)
Lemma es_enforce_shows sh (V : Entries) now_ms :
  shard_ok sh → shows sh V →
  ∃ V', shows (es_enforce_memory_limit sh now_ms) V' ∧ V' ⊆ V ∧ (es_limit sh = None → V' = V).
Proof.
  intros Hok HV. pose proof (es_enforce_fades sh now_ms Hok) as [_ Hs _ _ _ _]. set (sh' := es_enforce_memory_limit sh now_ms) in *.
  exists (filter (λ x, seen sh' x.1 = Some x.2) V). split; [|split; [apply map_filter_subseteq|]].
  - intros key. rewrite map_lookup_filter, HV. destruct (Hs key) as [E|E]; rewrite E.
    + destruct (seen sh key); simpl; [|done]. rewrite option_guard_False; [done|congruence].
    + destruct (seen sh key); simpl; [|done]. rewrite option_guard_True; [done|congruence].
  - intros El. apply map_filter_id. intros key e He. simpl. rewrite HV in He.
    unfold sh', es_enforce_memory_limit. by rewrite El.
Qed.

(** A write of the string key space, which has no limit of its own. *)
Lemma wrote_exactly key e now_ms m m' :
  memory_limit_bytes m = None → wrote key e now_ms m m' →
  exactly (<[key := e]> (contents m)) (s_weight e) m m' ∧ same_config m m'.
Proof.
  intros Hn (m1 & now0 & Hx & Hc & _ & ->). rewrite enforce_below; [done|]. destruct Hc as [-> _]. by rewrite Hn.
Qed.

Lemma drop_chunk_spec sh key :
  shard_ok sh →
  let sh' := drop_session_chunk sh (write_session SessionPrefix key) (hash_key key) key in
  fades sh sh' ∧ es_map sh' = es_map sh ∧
  ∀ k, session_chunk (session_slots sh') k = if decide (k = key) then None else session_chunk (session_slots sh) k.
Proof.
  intros Hok. unfold write_session. rewrite bool_decide_true by done. unfold drop_session_chunk.
  destruct (derived_session_storage_prefix key) as [p|] eqn:Ep.
  - pose proof (slot_delete_with_spec false _ p key (sh_slots sh Hok)) as Hd. unfold slot_delete.
    destruct (slot_delete_with false _ p _ key) as [b s]. destruct Hd as (_ & Hs & Hm & Hb & _). simpl.
    assert (Hl : ∀ p' k, chunk s p' k = if decide (p = p' ∧ key = k) then None else chunk (session_slots sh) p' k).
    { intros p' k. unfold chunk. rewrite Hm. apply delete_chunk_lookup. }
    split; [|split; [done|]].
    + apply fades_chunks; [done|done| |done]. intros p' k. rewrite Hl. case_decide; auto.
    + intros k. unfold session_chunk. destruct (decide (k = key)) as [->|Hn]; [rewrite Ep; simpl; rewrite Hl; by rewrite decide_True|].
      destruct (derived_session_storage_prefix k) as [p'|]; [|done]. simpl. rewrite Hl. rewrite decide_False; naive_solver.
  - split; [by apply fades_refl|]. split; [done|]. intros k. case_decide; subst; [|done]. unfold session_chunk. by rewrite Ep.
Qed.

(** A key goes into the string key space, and out of its session. *)
Lemma write_flat_spec sh (V : Entries) key e now_ms m' :
  let sh0 := drop_session_chunk sh (write_session SessionPrefix key) (hash_key key) key in
  shard_ok sh → shows sh V → wrote key e now_ms (es_map sh0) m' →
  shard_ok (with_map sh0 m') ∧ shows (with_map sh0 m') (<[key := e]> V) ∧
  (budget m' ≤ budget (es_map sh) + s_weight e)%Z ∧
  (slot_bytes (session_slots sh0) ≤ slot_bytes (session_slots sh))%Z ∧
  es_limit sh0 = es_limit sh ∧ es_policy sh0 = es_policy sh.
Proof.
  intros sh0 Hok HV Hw. destruct (drop_chunk_spec sh key Hok) as ([Hok0 _ Hb0 Hs0 El Ep] & Em & Hc). fold sh0 in Hok0, Hb0, Hs0, El, Ep, Em, Hc.
  apply wrote_exactly in Hw as [[Hm Ec _ Hb] [Hl _]]; [|apply Hok0]. rewrite Em in Ec, Hb.
  split; [|split; [|done]].
  - split; simpl; [done|apply Hok0|rewrite Hl; apply Hok0| |apply Hok0].
    intros k Hk. rewrite Hc in Hk. case_decide as Hd; [by destruct Hk|]. rewrite Ec, lookup_insert_ne by done.
    by apply (sh_apart sh Hok).
  - intros k. unfold seen. simpl. rewrite Hc, Ec. destruct (decide (k = key)) as [->|Hn]; [by rewrite !lookup_insert_eq|].
    rewrite !lookup_insert_ne by done. apply HV.
Qed.

(** A chunk goes into its session, and out of the string key space. *)
Lemma write_chunk_spec sh (V : Entries) p key value :
  let m' := if flat_is_empty (es_map sh) then es_map sh else (delete_hashed (es_map sh) (hash_key key) key).2 in
  let s' := slot_set (session_slots sh) p (hash_key key) key value in
  let sh' := with_slots (with_map sh m') s' in
  shard_ok sh → shows sh V → derived_session_storage_prefix key = Some p →
  (slot_bytes (session_slots sh) + blen key + blen value ≤ u64_MAX)%Z →
  shard_ok sh' ∧ shows sh' (<[key := mkEntry key value None None]> V) ∧ (budget m' ≤ budget (es_map sh))%Z ∧
  (slot_bytes s' ≤ slot_bytes (session_slots sh) + blen key + blen value)%Z.
Proof.
  intros m' s' sh' Hok HV Ep Hroom. destruct (slot_set_spec _ p key value (sh_slots sh Hok) Hroom) as (Hs & Hm & Hb). fold s' in Hs, Hm, Hb.
  assert (flat_ok m' ∧ contents m' = delete key (contents (es_map sh)) ∧ (budget m' ≤ budget (es_map sh))%Z ∧
          memory_limit_bytes m' = None) as (Hfm & Ec & Hbm & Hl).
  { unfold m'. pose proof (sh_map sh Hok) as Hf. pose proof (sh_unlimited sh Hok) as Hu. destruct (flat_is_empty (es_map sh)) eqn:Ee.
    - split; [done|]. split; [|done]. rewrite delete_id; [done|]. unfold flat_is_empty in Ee. rewrite flat_len_entries in Ee.
      unfold contents. destruct (flat_entries (es_map sh)); [done|simpl in Ee; lia].
    - destruct (delete_exactly (es_map sh) key 0 Explicit Hf ltac:(done)) as [? ? _ ?].
      destruct (delete_calm (es_map sh) (hash_key key) key Explicit Hf) as [[El _] _]. unfold delete_hashed.
      rewrite El. split; [done|]. split; [done|]. split; [lia|done]. }
  assert (Hc : ∀ k, session_chunk s' k = if decide (k = key) then Some value else session_chunk (session_slots sh) k).
  { intros k. unfold session_chunk. destruct (decide (k = key)) as [->|Hn].
    - rewrite Ep. simpl. unfold chunk. rewrite Hm, lookup_insert_eq. simpl. apply lookup_insert_eq.
    - destruct (derived_session_storage_prefix k) as [p'|]; [|done]. simpl. unfold chunk. rewrite Hm.
      destruct (decide (p = p')) as [<-|Hp]; [|by rewrite lookup_insert_ne].
      rewrite lookup_insert_eq. simpl. rewrite lookup_insert_ne by done. unfold session_of.
      by destruct (slots_map (session_slots sh) !! p). }
  split; [|split; [|done]].
  - split; simpl; [done|done|done| |apply Hok]. intros k Hk. rewrite Hc in Hk. rewrite Ec.
    destruct (decide (k = key)) as [->|Hn]; [apply lookup_delete_eq|]. rewrite lookup_delete_ne by done. by apply (sh_apart sh Hok).
  - intros k. unfold seen. simpl. rewrite Hc, Ec. destruct (decide (k = key)) as [->|Hn]; [by rewrite lookup_insert_eq|].
    rewrite lookup_insert_ne, lookup_delete_ne by done. apply HV.
Qed.

Lemma read_flat_spec sh (V : Entries) key now_ms :
  shard_ok sh → shows sh V → session_chunk (session_slots sh) key = None →
  ∃ sh', (let '(v, m) := get_ref_hashed (es_map sh) (hash_key key) key now_ms in (v, with_map sh m)) =
         (purge V key now_ms !! key ≫= s_visible, sh') ∧ fades sh sh' ∧ shows sh' (purge V key now_ms).
Proof.
  intros Hok HV Hc. pose proof (get_means (es_map sh) key now_ms (sh_map _ Hok)) as Hm.
  pose proof (reads_calm (es_map sh) now_ms (RGet key) (sh_map _ Hok) eq_refl) as [[Hl _] _].
  unfold means in Hm. simpl in Hm, Hl. unfold flat_get in Hm, Hl.
  destruct (get_ref_hashed (es_map sh) (hash_key key) key now_ms) as [v m]. simpl in Hm, Hl. destruct Hm as [Ha [Hm Ec _ Hb]].
  injection Ha as ->. assert (EV : contents (es_map sh) !! key = V !! key) by (rewrite (HV key); unfold seen; by rewrite Hc).
  assert (Hp : ∀ k, purge (contents (es_map sh)) key now_ms !! k =
               if decide (k = key) then purge V key now_ms !! key else contents (es_map sh) !! k).
  { intros k. unfold purge. rewrite EV. destruct (V !! key) as [e|] eqn:Ek;
      [destruct (s_expired e now_ms)|]; case_decide; subst; rewrite ?lookup_delete_eq, ?lookup_delete_ne by done; congruence. }
  assert (HVp : ∀ k, k ≠ key → purge V key now_ms !! k = V !! k).
  { intros k Hk. unfold purge. destruct (V !! key) as [e|]; [destruct (s_expired e now_ms)|]; by rewrite ?lookup_delete_ne. }
  exists (with_map sh m). rewrite Hp, decide_True by done. split; [done|].
  assert (Hs : ∀ k, seen (with_map sh m) k = if decide (k = key) then purge V key now_ms !! key else seen sh k).
  { intros k. unfold seen. simpl. rewrite Ec, Hp. case_decide as Hk; subst; [by rewrite Hc|done]. }
  split; [|intros k; rewrite Hs; case_decide as Hk; [by subst|by rewrite HVp]].
  split; simpl; [|intros k; rewrite Hs|lia|lia|done|done].
  - destruct Hok as [? ? Hu Hap ?]. split; simpl; [done|done|by rewrite Hl| |done].
    intros k Hk. rewrite Ec, Hp. case_decide as Hd; [subst; rewrite Hc in Hk; by destruct Hk|auto].
  - case_decide as Hk; [|auto]. subst. rewrite <- (HV key). unfold purge.
    destruct (V !! key) as [e|] eqn:Ek; [destruct (s_expired e now_ms)|]; rewrite ?lookup_delete_eq; auto.
Qed.

(** A read answers from the map, and drops the entry of an expired key. *)
Lemma read_spec sh (V : Entries) key now_ms :
  shard_ok sh → shows sh V →
  ∃ sh', get_ref_hashed_session_or_flat sh (hash_key key) key now_ms = Some (purge V key now_ms !! key ≫= s_visible, sh') ∧
         fades sh sh' ∧ shows sh' (purge V key now_ms).
Proof.
  intros Hok HV. unfold get_ref_hashed_session_or_flat.
  destruct (derived_session_storage_prefix key) as [p|] eqn:Ep.
  2:{ destruct (read_flat_spec sh V key now_ms Hok HV) as (sh' & -> & Hr); [unfold session_chunk; by rewrite Ep|eauto]. }
  destruct (slot_get_spec (session_slots sh) p key (sh_slots sh Hok)) as (s & -> & Hs & Hm & Hb). simpl.
  assert (Ec : ∀ k, session_chunk s k = session_chunk (session_slots sh) k).
  { intros k. unfold session_chunk, chunk. by rewrite Hm. }
  assert (Hf : fades sh (with_slots sh s)).
  { apply fades_chunks; [done|done| |lia]. intros p' k. right. unfold chunk. by rewrite Hm. }
  assert (HV' : shows (with_slots sh s) V) by (intros k; unfold seen; simpl; rewrite Ec; apply HV).
  destruct (chunk (session_slots sh) p key) as [v|] eqn:Ev.
  - exists (with_slots sh s). assert (EV : V !! key = Some (mkEntry key v None None)).
    { rewrite HV. unfold seen, session_chunk. rewrite Ep. simpl. by rewrite Ev. }
    assert (purge V key now_ms = V) as -> by (unfold purge; by rewrite EV). rewrite EV. done.
  - destruct (read_flat_spec (with_slots sh s) V key now_ms (fa_ok _ _ Hf) HV') as (sh' & E & Hr & ?).
    { simpl. rewrite Ec. unfold session_chunk. rewrite Ep. done. }
    exists sh'. split; [by f_equal|]. split; [by eapply fades_trans|done].
Qed.

(** ** Requests *)
Inductive ShardRequest :=
  | EsSet (key value : Bytes) (expire_at_ms : option Z)
  | EsSetProtected (key value governance : Bytes) (expire_at_ms : option Z)
  | EsSetSlice (key value : Bytes) (expire_at_ms : option Z) (unique : bool)
  | EsSetSliceNoTtl (key value : Bytes) (unique : bool)
  | EsSetChunk (session key value : Bytes)
  | EsGet (key : Bytes)
  | EsTransform (key : Bytes) (clear_ttl : bool) (transform : option Bytes → Bytes + (Bytes * Bytes))
  | EsUpdate (key : Bytes) (unique : bool) (update : Bytes → Bytes * Bytes)
  | EsRemove (key : Bytes).

(** The requests on a shard that routes by session prefix. *)
Definition shard_step sh now_ms (r : ShardRequest) : option (FlatAnswer * EmbeddedShard) :=
  match r with
  | EsSet key value d => Some (AUnit, set_value_bytes_hashed sh SessionPrefix (hash_key key) key value d now_ms)
  | EsSetProtected key value g d =>
      Some (AUnit, set_value_bytes_hashed_with_governance sh SessionPrefix (hash_key key) key value g d now_ms)
  | EsSetSlice key value d unique =>
      Some (AUnit, es_set_slice_hashed sh SessionPrefix (hash_key key) key value d unique now_ms)
  | EsSetSliceNoTtl key value unique =>
      Some (AUnit, es_set_slice_hashed_no_ttl sh SessionPrefix (hash_key key) key value unique)
  | EsSetChunk p key value => Some (AUnit, set_session_slice_hashed_no_ttl sh p (hash_key key) key value)
  | EsGet key =>
      '(value, sh) ← get_ref_hashed_session_or_flat sh (hash_key key) key now_ms; Some (AValue value, sh)
  | EsTransform key clear_ttl f =>
      let '(result, sh) := if clear_ttl then es_transform_no_ttl sh (hash_key key) key now_ms f
                           else es_transform_preserve_ttl sh (hash_key key) key now_ms f in
      Some (AResult result, sh)
  | EsUpdate key unique f =>
      let '(result, sh) := es_update_no_ttl sh (hash_key key) key unique f in Some (AValue result, sh)
  | EsRemove key => let '(value, sh) := es_remove_value_hashed sh (hash_key key) key now_ms in Some (AValue value, sh)
  end.

(** The entry of a write that is followed by the limit. *)
Definition shard_writes (r : ShardRequest) : option StoredEntry :=
  match r with
  | EsSet key value d | EsSetSlice key value d _ => Some (mkEntry key value d None)
  | EsSetProtected key value g d => Some (mkEntry key value d (Some g))
  | EsSetSliceNoTtl key value _ | EsSetChunk _ key value => Some (mkEntry key value None None)
  | EsGet _ | EsTransform _ _ _ | EsUpdate _ _ _ | EsRemove _ => None
  end.

(** The request of the string key space behind the others. *)
Definition flat_request (r : ShardRequest) : option (Bytes * FlatRequest) :=
  match r with
  | EsTransform key clear_ttl f => Some (key, RTransform key clear_ttl f)
  | EsUpdate key unique f => Some (key, RUpdate key unique f)
  | EsRemove key => Some (key, RRemove key)
  | _ => None
  end.

(** The same requests on a map. *)
Definition shard_spec (V : Entries) now_ms (r : ShardRequest) : FlatAnswer * Entries :=
  match shard_writes r, flat_request r, r with
  | Some e, _, _ => (AUnit, <[e_key e := e]> V)
  | None, Some (_, fr), _ => flat_spec V now_ms fr
  | None, None, EsGet key => (AValue (purge V key now_ms !! key ≫= s_visible), purge V key now_ms)
  | None, None, _ => (AUnit, V)
  end.

(** What a request can add to the counters. *)
Definition request_cost sh now_ms (r : ShardRequest) : Z :=
  match shard_writes r, flat_request r with
  | Some e, _ => s_weight e
  | None, Some (_, fr) => request_weight (contents (es_map sh)) now_ms fr
  | None, None => 0
  end.

(** A chunk is written to the session its key belongs to; a read-modify-write
    or a removal is of a key that belongs to no session, and a write in place
    keeps the length. *)
Definition request_routed (r : ShardRequest) : Prop :=
  match r with
  | EsSetChunk p key _ => derived_session_storage_prefix key = Some p
  | EsTransform key _ _ | EsRemove key => derived_session_storage_prefix key = None
  | EsUpdate key _ f => derived_session_storage_prefix key = None ∧ ∀ v, length (f v).2 = length v
  | _ => True
  end.

Definition room sh (w : Z) : Prop :=
  (budget (es_map sh) + w ≤ u64_MAX ∧ slot_bytes (session_slots sh) + w ≤ u64_MAX)%Z.

Record stepped sh (w : Z) sh' : Prop := {
  sp_ok : shard_ok sh';
  sp_budget : (budget (es_map sh') ≤ budget (es_map sh) + w)%Z;
  sp_slots : (slot_bytes (session_slots sh') ≤ slot_bytes (session_slots sh) + w)%Z;
  sp_limit : es_limit sh' = es_limit sh;
  sp_policy : es_policy sh' = es_policy sh;
}.

Lemma room_stepped sh (w v : Z) sh' : room sh (w + v) → stepped sh w sh' → room sh' v.
Proof. intros [] [_ ? ? _ _]. unfold room. lia. Qed.

Lemma enforced_stepped sh sh1 (w : Z) now_ms (V1 : Entries) :
  stepped sh w sh1 → shows sh1 V1 →
  stepped sh w (es_enforce_memory_limit sh1 now_ms) ∧
  (∃ V', shows (es_enforce_memory_limit sh1 now_ms) V' ∧ V' ⊆ V1 ∧ (es_limit sh = None → V' = V1)) ∧
  (∀ limit, es_limit sh = Some limit → es_policy sh ≠ NoEviction →
            (es_stored_bytes (es_enforce_memory_limit sh1 now_ms) ≤ limit)%Z).
Proof.
  intros [Hok Hb Hs El Ep] HV. pose proof (es_enforce_fades sh1 now_ms Hok) as [? _ ? ? ? ?]. split; [|split].
  - split; [done|lia|lia|congruence|congruence].
  - rewrite <- El. by apply es_enforce_shows.
  - intros limit. rewrite <- El, <- Ep. by apply es_enforce_limit.
Qed.

(** Every write stores its entry before the limit is enforced. *)
Lemma shard_write_spec sh (V : Entries) now_ms r e :
  shard_ok sh → shows sh V → request_routed r → room sh (s_weight e) → (0 ≤ now_ms)%Z → shard_writes r = Some e →
  ∃ sh1 now0, shard_step sh now_ms r = Some (AUnit, es_enforce_memory_limit sh1 now0) ∧
              stepped sh (s_weight e) sh1 ∧ shows sh1 (<[e_key e := e]> V).
Proof.
  intros Hok HV Hr [Hb Hs] Hn Hw.
  set (sh0 := drop_session_chunk sh (write_session SessionPrefix (e_key e)) (hash_key (e_key e)) (e_key e)).
  assert (Hm0 : es_map sh0 = es_map sh) by apply (drop_chunk_spec sh (e_key e) Hok).
  assert (∀ m', wrote (e_key e) e now_ms (es_map sh0) m' →
                stepped sh (s_weight e) (with_map sh0 m') ∧ shows (with_map sh0 m') (<[e_key e := e]> V)) as Hflat.
  { intros m' Hm'. destruct (write_flat_spec sh V (e_key e) e now_ms m' Hok HV Hm') as (? & ? & ? & Hle & ? & ?).
    fold sh0 in Hle. split; [|done]. pose proof (s_weight_nonneg e).
    split; simpl; [done|done|lia|done|done]. }
  assert (Hf0 : flat_ok (es_map sh0)) by (rewrite Hm0; apply Hok).
  assert (Hb0 : (budget (es_map sh0) + s_weight e ≤ u64_MAX)%Z) by by rewrite Hm0.
  destruct r; simpl in Hw; try done; injection Hw as <-; simpl in *.
  - destruct (Hflat _ (set_bytes_wrote (es_map sh0) key value now_ms Hf0 None expire_at_ms Hb0)). by eexists _, now_ms.
  - destruct (Hflat _ (set_bytes_wrote (es_map sh0) key value now_ms Hf0 (Some governance) expire_at_ms Hb0)). by eexists _, now_ms.
  - destruct (Hflat _ (set_slice_wrote (es_map sh0) key value now_ms Hf0 expire_at_ms unique Hb0)). by eexists _, now_ms.
  - destruct (Hflat _ (set_slice_no_ttl_wrote (es_map sh0) key value now_ms Hf0 unique Hn Hb0)). by eexists _, 0%Z.
  - pose proof (blen_nonneg key). pose proof (blen_nonneg value). unfold s_weight in *. simpl in *.
    destruct (write_chunk_spec sh V session key value Hok HV Hr) as (? & ? & ? & ?); [lia|].
    unfold set_session_slice_hashed_no_ttl. destruct (flat_is_empty (es_map sh)); eexists _, 0%Z; (split; [done|]);
      (split; [|done]); (split; simpl in *; [done|lia|lia|done|done]).
Qed.

(** A request of the string key space on one key. *)
Lemma purge_at (V : Entries) key now_ms k :
  purge V key now_ms !! k =
  if decide (k = key) then e ← V !! key; if s_expired e now_ms then None else Some e else V !! k.
Proof.
  unfold purge. destruct (V !! key) as [e|] eqn:E; [destruct (s_expired e now_ms) eqn:Ex|]; case_decide; subst;
    rewrite ?lookup_delete_eq, ?lookup_delete_ne by done; simpl; rewrite ?Ex; congruence.
Qed.

Lemma flat_spec_local (S V : Entries) now_ms r key fr :
  flat_request r = Some (key, fr) → S !! key = V !! key →
  (flat_spec S now_ms fr).1 = (flat_spec V now_ms fr).1 ∧
  (flat_spec S now_ms fr).2 !! key = (flat_spec V now_ms fr).2 !! key ∧
  ∀ k, k ≠ key → (flat_spec S now_ms fr).2 !! k = S !! k ∧ (flat_spec V now_ms fr).2 !! k = V !! k.
Proof.
  intros Hr E. assert (∀ k, k ≠ key → purge S key now_ms !! k = S !! k ∧ purge V key now_ms !! k = V !! k) as Hk
    by (intros k Hk; by rewrite !purge_at, !decide_False).
  assert (purge S key now_ms !! key = purge V key now_ms !! key) as Ep by (rewrite !purge_at; by rewrite E).
  destruct r; simpl in Hr; try done; injection Hr as -> <-; cbn [flat_spec].
  - rewrite Ep. destruct (transform _) as [error|[result value]]; cbn [fst snd]; [done|].
    rewrite !lookup_insert_eq. split_and!; [done..|]. intros k Hn. rewrite !lookup_insert_ne by done. auto.
  - rewrite E. destruct (V !! key) as [e|] eqn:Ev; [destruct (_ && _)|]; cbn [fst snd]; rewrite ?lookup_insert_eq;
      (split_and!; [done|congruence|]); intros k Hn; by rewrite ?lookup_insert_ne by done.
  - rewrite Ep. cbn [fst snd]. rewrite !lookup_delete_eq. split_and!; [done..|]. intros k Hn. by rewrite !lookup_delete_ne by done.
Qed.

(** Such a request on a string key space without a limit of its own. *)
Lemma flat_request_exactly m now_ms r key fr :
  flat_request r = Some (key, fr) → flat_ok m → memory_limit_bytes m = None → request_ok m now_ms fr →
  (flat_step m now_ms fr).1 = (flat_spec (contents m) now_ms fr).1 ∧
  exactly (flat_spec (contents m) now_ms fr).2 (request_weight (contents m) now_ms fr) m (flat_step m now_ms fr).2 ∧
  memory_limit_bytes (flat_step m now_ms fr).2 = None.
Proof.
  intros Hr Hok Hl (Hn & Hb & Hu). destruct r; simpl in Hr; try done; injection Hr as -> <-.
  - pose proof (transform_spec m key clear_ttl transform now_ms Hok Hb) as Hs. simpl.
    destruct (transform_value_hashed m _ _ _ _ _) as [result m'].
    destruct (transform (purge (contents m) key now_ms !! key ≫= s_visible)) as [error|[x value]]; simpl in *.
    + destruct Hs as (-> & Hx & [El _] & _). split; [done|]. split; [done|]. by rewrite El.
    + destruct Hs as (-> & m1 & Hx & [El _] & ->). rewrite enforce_below by by rewrite El, Hl.
      split; [done|]. split; [exact Hx|]. by rewrite El.
  - destruct (update_means m key unique update now_ms Hok Hu) as (Hm & [El _] & _). unfold means in Hm.
    destruct (flat_step m now_ms _) as [a m'], (flat_spec (contents m) now_ms _) as [a' S']. simpl in *.
    destruct Hm as [-> Hx]. split; [done|]. split; [done|]. by rewrite El.
  - pose proof (remove_means m key now_ms Hok) as Hm. pose proof (reads_calm m now_ms (RRemove key) Hok eq_refl) as [[El _] _].
    unfold means in Hm. destruct (flat_step m now_ms _) as [a m'], (flat_spec (contents m) now_ms _) as [a' S']. simpl in *.
    destruct Hm as [-> Hx]. split; [done|]. split; [done|]. by rewrite El.
Qed.

Lemma flat_only_spec sh (V : Entries) now_ms r key fr :
  flat_request r = Some (key, fr) → shard_ok sh → shows sh V → request_routed r → room sh (request_cost sh now_ms r) →
  (0 ≤ now_ms)%Z →
  let m' := (flat_step (es_map sh) now_ms fr).2 in
  (flat_step (es_map sh) now_ms fr).1 = (flat_spec V now_ms fr).1 ∧
  stepped sh (request_cost sh now_ms r) (with_map sh m') ∧ shows (with_map sh m') (flat_spec V now_ms fr).2.
Proof.
  intros Hf Hok HV Hr [Hb Hs] Hn m'.
  assert (derived_session_storage_prefix key = None) as Ek by (destruct r; simpl in *; try done; injection Hf as -> <-; tauto).
  assert (request_cost sh now_ms r = request_weight (contents (es_map sh)) now_ms fr) as Ew
    by (unfold request_cost; rewrite Hf; by destruct r).
  assert (contents (es_map sh) !! key = V !! key) as EV by (rewrite (HV key); unfold seen, session_chunk; by rewrite Ek).
  destruct (flat_spec_local (contents (es_map sh)) V now_ms r key fr Hf EV) as (Ea & Ekey & Hother).
  destruct (flat_request_exactly (es_map sh) now_ms r key fr Hf (sh_map sh Hok) (sh_unlimited sh Hok)) as (Ha & Hx & El).
  { split; [done|]. rewrite <- Ew. split; [done|]. destruct r; simpl in *; try done; injection Hf as -> <-; try done.
    intros e _. by apply Hr. }
  fold m' in Hx, El. destruct Hx as [Hm Ec _ Hbm].
  assert (0 ≤ request_cost sh now_ms r)%Z as Hc.
  { rewrite Ew. destruct r; simpl in Hf; try done; injection Hf as -> <-; simpl; try lia.
    case_match; [lia|]. case_match. apply s_weight_nonneg. }
  split; [by rewrite Ha, Ea|]. split.
  - rewrite Ew in *. split; simpl; [|lia|lia|done|done]. destruct Hok as [? ? ? Hap ?]. split; simpl; [done|done|done| |done].
    intros k Hk. rewrite Ec. destruct (decide (k = key)) as [->|Hne].
    + unfold session_chunk in Hk. rewrite Ek in Hk. by destruct Hk.
    + rewrite (proj1 (Hother k Hne)). by apply Hap.
  - intros k. unfold seen. simpl. destruct (decide (k = key)) as [->|Hne].
    + unfold session_chunk. rewrite Ek. simpl. by rewrite Ec.
    + rewrite (proj2 (Hother k Hne)), (HV k). unfold seen. by rewrite Ec, (proj1 (Hother k Hne)).
Qed.

Lemma shard_step_spec sh (V : Entries) now_ms r :
  shard_ok sh → shows sh V → request_routed r → room sh (request_cost sh now_ms r) → (0 ≤ now_ms)%Z →
  ∃ sh' V', shard_step sh now_ms r = Some ((shard_spec V now_ms r).1, sh') ∧ stepped sh (request_cost sh now_ms r) sh' ∧ shows sh' V' ∧
    V' ⊆ (shard_spec V now_ms r).2 ∧ (es_limit sh = None → V' = (shard_spec V now_ms r).2) ∧
    (∀ limit, is_Some (shard_writes r) → es_limit sh = Some limit → es_policy sh ≠ NoEviction →
              (es_stored_bytes sh' ≤ limit)%Z).
Proof.
  intros Hok HV Hr Hroom Hn. unfold shard_spec. destruct (shard_writes r) as [e|] eqn:Hw.
  { assert (request_cost sh now_ms r = s_weight e) as Ew by (unfold request_cost; by rewrite Hw). rewrite Ew in *.
    destruct (shard_write_spec sh V now_ms r e Hok HV Hr Hroom Hn Hw) as (sh1 & now0 & -> & Hs & HV1).
    destruct (enforced_stepped sh sh1 _ now0 _ Hs HV1) as (Hs' & (V' & HV' & Hsub & Heq) & Hl).
    exists (es_enforce_memory_limit sh1 now0), V'. split_and!; [done..|]. intros limit _. apply Hl. }
  destruct (flat_request r) as [[key fr]|] eqn:Hf.
  - pose proof (flat_only_spec sh V now_ms r key fr Hf Hok HV Hr Hroom Hn) as Hflat. cbv zeta in Hflat.
    destruct r; simpl in Hf; try done; injection Hf as -> <-; cbn [flat_step shard_step] in *.
    + unfold es_transform_no_ttl, es_transform_preserve_ttl. destruct clear_ttl;
        (destruct (transform_value_hashed _ _ _ _ _ _) as [result m]; cbn [fst snd] in Hflat; destruct Hflat as (<- & Hs & HV');
         eexists _, _; split_and!; [done..|]; by intros limit [? ?]).
    + unfold es_update_no_ttl. destruct (update_value_hashed_no_ttl _ _ _ _ _) as [result m]. cbn [fst snd] in Hflat.
      destruct Hflat as (<- & Hs & HV'). eexists _, _. split_and!; [done..|]. by intros limit [? ?].
    + unfold es_remove_value_hashed. destruct (remove_value_hashed _ _ _ _) as [result m]. cbn [fst snd] in Hflat.
      destruct Hflat as (<- & Hs & HV'). destruct result as [v|].
      * destruct (enforced_stepped sh _ _ now_ms _ Hs HV') as (Hs' & (V' & HV2 & Hsub & Heq) & _).
        eexists _, V'. split_and!; [done..|]. by intros limit [? ?].
      * eexists _, _. split_and!; [done..|]. by intros limit [? ?].
  - destruct r; try done. simpl. destruct (read_spec sh V key now_ms Hok HV) as (sh' & -> & [? _ ? ? ? ?] & HV'). simpl.
    eexists _, _. split_and!; [done|split; [done|unfold request_cost; simpl; lia..|done|done]|done|done|done|].
    by intros limit [? ?].
Qed.

(** ** Runs *)
Fixpoint shard_run sh (rs : list (Z * ShardRequest)) : option (list FlatAnswer * EmbeddedShard) :=
  match rs with
  | [] => Some ([], sh)
  | (now_ms, r) :: rs => '(a, sh) ← shard_step sh now_ms r; '(l, sh) ← shard_run sh rs; Some (a :: l, sh)
  end.

(** The run on a map: each answer is that of the map; under a limit, entries
    may be missing after a step. *)
Inductive shard_allowed (limit : option Z) (V : Entries) : list (Z * ShardRequest) → list FlatAnswer → Entries → Prop :=
  | AllowedDone : shard_allowed limit V [] [] V
  | AllowedStep now_ms r V1 rs l V2 :
      V1 ⊆ (shard_spec V now_ms r).2 → (limit = None → V1 = (shard_spec V now_ms r).2) →
      shard_allowed limit V1 rs l V2 →
      shard_allowed limit V ((now_ms, r) :: rs) ((shard_spec V now_ms r).1 :: l) V2.

(** Requests that can be served without a counter overflowing. *)
Fixpoint shard_requests_ok sh (rs : list (Z * ShardRequest)) : Prop :=
  match rs with
  | [] => True
  | (now_ms, r) :: rs =>
      (0 ≤ now_ms)%Z ∧ request_routed r ∧ room sh (request_cost sh now_ms r) ∧
      match shard_step sh now_ms r with Some (_, sh') => shard_requests_ok sh' rs | None => True end
  end.

Lemma shard_run_spec sh (V : Entries) rs :
  shard_ok sh → shows sh V → shard_requests_ok sh rs →
  ∃ l sh' V', shard_run sh rs = Some (l, sh') ∧ shard_ok sh' ∧ shows sh' V' ∧
    es_limit sh' = es_limit sh ∧ es_policy sh' = es_policy sh ∧ shard_allowed (es_limit sh) V rs l V'.
Proof.
  revert sh V. induction rs as [|[now_ms r] rs IH]; intros sh V Hok HV Hrs; simpl in *.
  { exists [], sh, V. split_and!; [done..|constructor]. }
  destruct Hrs as (Hn & Hr & Hroom & Hrs).
  destruct (shard_step_spec sh V now_ms r Hok HV Hr Hroom Hn) as (sh1 & V1 & E & [Hok1 _ _ El Ep] & HV1 & Hsub & Heq & _).
  rewrite E in Hrs |- *. simpl. destruct (IH sh1 V1 Hok1 HV1 Hrs) as (l & sh' & V' & -> & Hok' & HV' & El' & Ep' & Ha). simpl.
  eexists _, sh', V'. split_and!; [done..|congruence|congruence|]. rewrite El in Ha. by econstructor.
Qed.

(** The requests of a run, and one more after it. *)
Lemma shard_requests_app sh rs1 rs2 l sh1 :
  shard_requests_ok sh (rs1 ++ rs2) → shard_run sh rs1 = Some (l, sh1) →
  shard_requests_ok sh rs1 ∧ shard_requests_ok sh1 rs2.
Proof.
  revert sh l. induction rs1 as [|[now_ms r] rs1 IH]; intros sh l Hrs E; simpl in *; [by injection E as _ <-|].
  destruct Hrs as (Hn & Hr & Hroom & Hrs). destruct (shard_step sh now_ms r) as [[a sh0]|]; [|done]. simpl in E.
  destruct (shard_run sh0 rs1) as [[l0 sh2]|] eqn:E0; [|done]. simpl in E. injection E as _ ->.
  destruct (IH sh0 l0 Hrs E0). done.
Qed.

(** A new shard is empty, whatever its limit. *)
Lemma with_limits_ok (limit : option Z) policy :
  let sh := with_limits limit policy : EmbeddedShard in
  shard_ok sh ∧ shows sh ∅ ∧ budget (es_map sh) = 0%Z ∧ slot_bytes (session_slots sh) = 0%Z ∧
  es_limit sh = positive_limit limit ∧ es_policy sh = policy.
Proof.
  intros sh. set (sh0 := with_map (update_lazy_read_sampling
    (with_slots (mkEmbedded flat_new slots_new (positive_limit limit) None policy)
       (configure_access_tracking slots_new
          (match positive_limit limit with Some _ => negb (bool_decide (policy = NoEviction)) | None => false end))))
    (configure_memory_policy flat_new None policy 0)).
  assert (Hm : tidy (with_policy flat_new None policy) (es_map sh0)) by (by destruct policy).
  assert (Hf : flat_ok (with_policy (flat_new : FlatMap) None policy))
    by (destruct (flat_new_ok (HT := HT)) as [[] ?]; by split; [split|]).
  assert (Ec : contents (es_map sh0) = ∅) by (rewrite (tidy_contents _ _ Hm); apply flat_new_contents).
  assert (Eb : budget (es_map sh0) = 0%Z).
  { rewrite (tidy_budget _ _ Hm). unfold budget, flat_entries. simpl. by rewrite ht_new_elements. }
  assert (Hok0 : shard_ok sh0).
  { split; [by eapply tidy_ok|apply (same_slots_ok slots_new (session_slots sh0)); [done|apply slots_new_ok]
           |by destruct (tidy_config _ _ Hm)|by intros; rewrite Ec|].
    unfold sh0. simpl. destruct limit as [l|]; simpl; [|done]. destruct (Z.ltb_spec 0 l); done. }
  pose proof (es_enforce_fades sh0 0 Hok0) as [Hok Hs Hb Hsl El Ep]. change (es_enforce_memory_limit sh0 0) with sh in *.
  assert (Hn : ∀ key, seen sh0 key = None).
  { intros key. unfold seen. rewrite Ec. assert (session_chunk (session_slots sh0) key = None) as ->; [|done].
    unfold session_chunk. by destruct (derived_session_storage_prefix key). }
  split; [done|]. split; [intros key; rewrite lookup_empty; destruct (Hs key) as [?|E]; [done|by rewrite E, Hn]|].
  pose proof (budget_ge _ (proj1 (sh_map _ Hok))). pose proof (slots_bytes_nonneg _ (sh_slots _ Hok)).
  change (slot_bytes (session_slots sh0)) with 0%Z in Hsl. split; [lia|]. split; [lia|]. done.
Qed.
End embedded_proofs.
