(* ===== verification/Engine.v ===== *)
(** * Shard workers of the engine

    [storage/engine.rs]: the thread that owns a shard.  It applies operations to
    the shard's string key space and hands a record of each mutation to the
    write-ahead log.  The log appender is an interface, [WalSink]; the appender
    and channel of [WalPipeline] implement it. *)

From S2P Require Import Prelude Deps Helpers Codec Wal Snapshot Recovery Segments WalPipeline Routing FlatMap.

(** ** The interface of the log

    [sink_append] is [WalAppender::append]: [None] while it waits for room in the
    channel, [false] when the channel is closed.  [sink_records] are the records
    handed over so far, whether still pending, queued or already received. *)
Class WalSink (W : Type) := {
  sink_append : W → MutationRecord → Z → option (W * bool);
  sink_flush : W → Z → option (W * bool);
  sink_flush_due : W → Z → option (W * bool);
  sink_records : W → list MutationRecord;
  sink_append_records : ∀ w r now w' ok,
    sink_append w r now = Some (w', ok) → sink_records w' = sink_records w ++ [r];
  sink_flush_records : ∀ w now w' ok, sink_flush w now = Some (w', ok) → sink_records w' = sink_records w;
  sink_flush_due_records : ∀ w now w' ok, sink_flush_due w now = Some (w', ok) → sink_records w' = sink_records w;
}.

(** An appender, its channel, and the records the merger has received. *)
Record ShardLog := mkShardLog {
  sl_appender : WalAppender;
  sl_channel : Channel;
  sl_received : list MutationRecord;
}.

Definition shard_log_with (l : ShardLog) (r : WalAppender * Channel * bool) : ShardLog * bool :=
  let '(a, ch, ok) := r in (mkShardLog a ch (sl_received l), ok).

Definition shard_log_records (l : ShardLog) : list MutationRecord :=
  sl_received l ++ concat (ch_blocks (sl_channel l)) ++ a_pending (sl_appender l).

(** The merger takes the next block. *)
Definition shard_log_drain (l : ShardLog) : ShardLog :=
  match channel_try_recv (sl_channel l) with
  | Some (block, ch) => mkShardLog (sl_appender l) ch (sl_received l ++ block)
  | None => l
  end.

Lemma shard_log_drain_records l : shard_log_records (shard_log_drain l) = shard_log_records l.
Proof.
  unfold shard_log_drain, channel_try_recv. destruct (ch_blocks (sl_channel l)) eqn:E; [done|].
  unfold shard_log_records. rewrite E. simpl. by rewrite <- !app_assoc.
Qed.

Lemma flush_records a ch now a' ch' ok :
  appender_flush a ch now = Some (a', ch', ok) →
  concat (ch_blocks ch') ++ a_pending a' = concat (ch_blocks ch) ++ a_pending a.
Proof.
  unfold appender_flush, channel_send. destruct (a_pending a) as [|r rs] eqn:E.
  { intros ?. simplify_eq. by rewrite E. }
  destruct (negb (ch_open ch)); [intros ?; simplify_eq; by rewrite E|].
  destruct (_ <? _); [|done]. intros ?. simplify_eq. simpl. rewrite concat_app. simpl. by rewrite !app_nil_r.
Qed.

#[export, refine] Instance shard_log_sink : WalSink ShardLog := {|
  sink_append l r now := shard_log_with l <$> appender_append (sl_appender l) (sl_channel l) r now;
  sink_flush l now := shard_log_with l <$> appender_flush (sl_appender l) (sl_channel l) now;
  sink_flush_due l now := shard_log_with l <$> appender_flush_due (sl_appender l) (sl_channel l) now;
  sink_records := shard_log_records;
|}.
Proof.
  - intros l r now l' ok ([[a ch] b] & Ha & Hl)%fmap_Some. simpl in Hl. simplify_eq.
    unfold shard_log_records. simpl. unfold appender_append in Ha. revert Ha. destruct (_ || _); intros Ha.
    + apply flush_records in Ha. simpl in Ha. rewrite Ha. by rewrite !app_assoc.
    + simplify_eq. simpl. by rewrite !app_assoc.
  - intros l now l' ok ([[a ch] b] & Ha & Hl)%fmap_Some. simpl in Hl. simplify_eq.
    unfold shard_log_records. simpl. by rewrite (flush_records _ _ _ _ _ _ Ha).
  - intros l now l' ok ([[a ch] b] & Ha & Hl)%fmap_Some. simpl in Hl. simplify_eq.
    unfold shard_log_records, appender_flush_due in *. simpl. revert Ha. destruct (_ && _); intros Ha; [|by simplify_eq].
    by rewrite (flush_records _ _ _ _ _ _ Ha).
Defined.

(** ** Operations *)
Definition MULTIKEY_INLINE_KEY_MAX : nat := 32.
Definition RESP_SPANNED_VALUE_MIN : nat := 2048.

Inductive ShardKey := InlineKey (key : Bytes) | SharedKey (key : Bytes).
Inductive ShardValue := InlineValue (value : Bytes) | SharedValue (value : Bytes).

(** [as_ref] and [into_shared]: the bytes either way. *)
Definition key_bytes (k : ShardKey) : Bytes := match k with InlineKey b | SharedKey b => b end.
Definition value_bytes (v : ShardValue) : Bytes := match v with InlineValue b | SharedValue b => b end.

Definition slice (owner : Bytes) (range_start range_end : nat) : Bytes :=
  take (range_end - range_start) (drop range_start owner).

Definition key_from_owner (owner : Bytes) (range_start range_end : nat) : ShardKey :=
  if range_end - range_start <=? MULTIKEY_INLINE_KEY_MAX then InlineKey (slice owner range_start range_end)
  else SharedKey (slice owner range_start range_end).

Definition value_from_owner (owner : Bytes) (range_start range_end : nat) : ShardValue :=
  if RESP_SPANNED_VALUE_MIN <=? range_end - range_start then SharedValue (slice owner range_start range_end)
  else InlineValue (slice owner range_start range_end).

Inductive ExpirationChange := Keep | ExpireAt (expire_at_ms : Z) | Persist.

#[export] Instance expiration_change_eq_dec : EqDecision ExpirationChange.
Proof. solve_decision. Defined.

Definition change_expire_at_ms (c : ExpirationChange) : option Z :=
  match c with Keep | Persist => None | ExpireAt at_ms => Some at_ms end.

Inductive ShardOperation :=
  | SGet (key : Bytes)
  | SGetEx (key_hash : Z) (key : ShardKey) (expiration : ExpirationChange)
  | SSet (key_hash : Z) (key : ShardKey) (value : ShardValue) (expire_at_ms : option Z)
  | SDelete (key_hash : Z) (key : ShardKey)
  | SExists (key : Bytes)
  | STtl (key : Bytes) (millis : bool)
  | SExpire (key_hash : Z) (key : ShardKey) (expire_at_ms : option Z).

Inductive ShardReply := ReplyValue (value : option Bytes) | ReplyInteger (n : Z) | ReplyOk.

(** [ShardCacheError::ChannelClosed] from the log. *)
Inductive EngineError := ChannelClosed.

(** ** Routing and the partition of recovered entries *)
Section engine_routing.
Context `{Hashing}.

(** [EngineHandle::route] and [route_hash_to_shard]. *)
Definition engine_route (route_mode : EmbeddedRouteMode) (shift : Z) (key : Bytes) : Z :=
  match route_mode, overflow_slot_shard key shift with
  | OverflowSlot, Some shard_id => shard_id
  | _, _ => stripe_index (hash_key key) shift
  end.

Definition route_hash_to_shard (shift route_hash : Z) : Z := stripe_index route_hash shift.

(** [RecoveredShardEntries::partition]. *)
Definition partition_step (shift : Z) (route_mode : EmbeddedRouteMode)
    (shards : gmap Z (list StoredEntry)) (entry : StoredEntry) : gmap Z (list StoredEntry) :=
  let shard :=
    if bool_decide (route_mode = OverflowSlot) then
      default (stripe_index (hash_key (e_key entry)) shift) (overflow_slot_shard (e_key entry) shift)
    else stripe_index (hash_key (e_key entry)) shift in
  <[shard := default [] (shards !! shard) ++ [entry]]> shards.

Definition partition (entries : list StoredEntry) (shift : Z) (route_mode : EmbeddedRouteMode) :
    gmap Z (list StoredEntry) :=
  foldl (partition_step shift route_mode) ∅ entries.

(** What [open] hands to shard [shard_id]: [recovered.get(&shard_id).cloned().unwrap_or_default()]. *)
Definition shard_entries (entries : list StoredEntry) (shift : Z) (route_mode : EmbeddedRouteMode) (shard_id : nat) :
    list StoredEntry :=
  default [] (partition entries shift route_mode !! Z.of_nat shard_id).

(** [configured_engine_route_mode]. *)
Definition configured_engine_route_mode (kv_overflow_replica_enabled : bool) : EmbeddedRouteMode :=
  if kv_overflow_replica_enabled then OverflowSlot else FullKey.
End engine_routing.

Section engine.
Context `{Hashing} {HT : Type → Type} `{!HashTable HT}.
Context {W : Type} `{!WalSink W}.
Abbreviation FlatMap := (FlatMap (HT := HT)).

Record ShardState := mkShard {
  sh_id : nat;
  sh_map : FlatMap;
  sh_wal : option W;
  sh_sequence : Z;
}.

Implicit Types (st : ShardState) (now_ms instant : Z).

Definition with_map st (m : FlatMap) : ShardState := mkShard (sh_id st) m (sh_wal st) (sh_sequence st).

(** A mutation of the map, with its record: the sequence advances, the map
    changes, the record is appended.  [None]: the append waits. *)
Definition logged st (w : W) (m : FlatMap) now_ms instant (op : MutationOp) (key value : Bytes)
    (expire_at_ms : option Z) : option ((EngineError + unit) * ShardState) :=
  let sequence := u64_saturating_add (sh_sequence st) 1 in
  '(w, ok) ← sink_append w (mkRecord (sh_id st) sequence now_ms op key value expire_at_ms None) instant;
  Some (if ok : bool then inr tt else inl ChannelClosed, mkShard (sh_id st) m (Some w) sequence).

Definition set_and_append_wal st (key_hash : Z) (key : ShardKey) (value : ShardValue) (expire_at_ms : option Z)
    now_ms instant (unique : bool) : option ((EngineError + unit) * ShardState) :=
  match sh_wal st with
  | Some w =>
      let m := set_bytes_hashed (sh_map st) key_hash (key_bytes key) (value_bytes value) expire_at_ms now_ms in
      logged st w m now_ms instant OpSet (key_bytes key) (value_bytes value) expire_at_ms
  | None =>
      let m := match value with
               | InlineValue value =>
                   set_slice_hashed (sh_map st) key_hash (key_bytes key) value expire_at_ms unique now_ms
               | SharedValue value => set_bytes_hashed (sh_map st) key_hash (key_bytes key) value expire_at_ms now_ms
               end in
      Some (inr tt, with_map st m)
  end.

Definition delete_and_append_wal st (key_hash : Z) (key : ShardKey) now_ms instant :
    option ((EngineError + bool) * ShardState) :=
  let '(deleted, m) := delete_hashed (sh_map st) key_hash (key_bytes key) in
  match sh_wal st with
  | Some w =>
      '(result, st) ← logged st w m now_ms instant OpDel (key_bytes key) [] None;
      Some (match result with inl error => inl error | inr _ => inr deleted end, st)
  | None => Some (inr deleted, with_map st m)
  end.

Definition apply_expiration_change st (key : ShardKey) (expiration : ExpirationChange) now_ms instant :
    option ((EngineError + bool) * ShardState) :=
  let '(changed, m) :=
    match expiration with
    | Keep => (false, sh_map st)
    | ExpireAt expire_at_ms => expire (sh_map st) (key_bytes key) expire_at_ms now_ms
    | Persist => persist (sh_map st) (key_bytes key) now_ms
    end in
  if changed : bool then
    match sh_wal st with
    | Some w =>
        '(result, st) ← logged st w m now_ms instant OpExpire (key_bytes key) [] (change_expire_at_ms expiration);
        Some (match result with inl error => inl error | inr _ => inr true end, st)
    | None => Some (inr true, with_map st m)
    end
  else Some (inr false, with_map st m).

Definition execute st (op : ShardOperation) now_ms instant (unique : bool) :
    option ((EngineError + ShardReply) * ShardState) :=
  match op with
  | SGet key =>
      let '(value, m) := flat_get (sh_map st) key now_ms in Some (inr (ReplyValue value), with_map st m)
  | SGetEx _ key expiration =>
      let '(value, m) := flat_get (sh_map st) (key_bytes key) now_ms in
      let st := with_map st m in
      match value with
      | Some _ =>
          if bool_decide (expiration = Keep) then Some (inr (ReplyValue value), st)
          else '(result, st) ← apply_expiration_change st key expiration now_ms instant;
               Some (match result with inl error => inl error | inr _ => inr (ReplyValue value) end, st)
      | None => Some (inr (ReplyValue value), st)
      end
  | SSet key_hash key value expire_at_ms =>
      '(result, st) ← set_and_append_wal st key_hash key value expire_at_ms now_ms instant unique;
      Some (match result with inl error => inl error | inr _ => inr ReplyOk end, st)
  | SDelete key_hash key =>
      '(result, st) ← delete_and_append_wal st key_hash key now_ms instant;
      Some (match result with
            | inl error => inl error
            | inr deleted => inr (ReplyInteger (bool_as_i64 deleted))
            end, st)
  | SExists key =>
      let '(b, m) := flat_exists (sh_map st) key now_ms in
      Some (inr (ReplyInteger (bool_as_i64 b)), with_map st m)
  | STtl key millis =>
      let '(ttl, m) := if millis : bool then ttl_millis (sh_map st) key now_ms
                       else ttl_seconds (sh_map st) key now_ms in
      Some (inr (ReplyInteger ttl), with_map st m)
  | SExpire _ key expire_at_ms =>
      let expiration := match expire_at_ms with Some at_ms => ExpireAt at_ms | None => Persist end in
      '(result, st) ← apply_expiration_change st key expiration now_ms instant;
      Some (match result with
            | inl error => inl error
            | inr changed => inr (ReplyInteger (bool_as_i64 changed))
            end, st)
  end.

(** ** The worker *)

(** A failed flush is logged and ignored. *)
Definition flush_wal st instant : option ShardState :=
  match sh_wal st with
  | Some w => '(w, _) ← sink_flush w instant; Some (mkShard (sh_id st) (sh_map st) (Some w) (sh_sequence st))
  | None => Some st
  end.

Definition flush_wal_due st instant : option ShardState :=
  match sh_wal st with
  | Some w => '(w, _) ← sink_flush_due w instant; Some (mkShard (sh_id st) (sh_map st) (Some w) (sh_sequence st))
  | None => Some st
  end.

Inductive ShardMessage := MExecute (op : ShardOperation) | MSnapshot | MShutdown | MTimeout (maintenance_due : bool).

Inductive WorkerOutput :=
  | OExecuted (result : EngineError + ShardReply)
  | OSnapshot (entries : list StoredEntry)
  | OShutdown
  | ONothing.

(** One turn of the loop of [ShardWorker::run]. *)
Definition worker_step st (message : ShardMessage) now_ms instant (unique : bool) :
    option (WorkerOutput * ShardState) :=
  st ← flush_wal_due st instant;
  match message with
  | MExecute op => '(result, st) ← execute st op now_ms instant unique; Some (OExecuted result, st)
  | MSnapshot => Some (OSnapshot (snapshot_entries (sh_map st) now_ms), st)
  | MShutdown => st ← flush_wal st instant; Some (OShutdown, st)
  | MTimeout maintenance_due =>
      st ← flush_wal_due st instant;
      Some (ONothing, if maintenance_due then with_map st (process_maintenance (sh_map st) now_ms).2 else st)
  end.

(** The start of [ShardWorker::run]. *)
Definition worker_start (shard_id : nat) (recovered_entries : list StoredEntry) (limit : option Z)
    (policy : EvictionPolicy) (wal : option W) (now1 now2 : Z) : ShardState :=
  mkShard shard_id (configure_memory_policy (from_entries recovered_entries now1) limit policy now2) wal 0.
End engine.
