(* ===== verification/EngineProofs.v ===== *)
(** * Shard workers: the log covers the map

    Every entry of a shard's map is what replaying the shard's log over the
    entries it started from gives, and what the replay gives beyond the map has
    expired or was evicted and counted. *)

From S2P Require Import Prelude Deps Helpers Codec Wal Snapshot Recovery Segments WalPipeline WalPipelineProofs PersistenceProofs Routing FlatMap FlatMapProofs FlatEviction FlatRefine FlatRun Engine.

Section engine_proofs.
Context `{Hashing} {HT : Type → Type} `{!HashTable HT}.
Context {W : Type} `{!WalSink W}.
Abbreviation FlatMap := (FlatMap (HT := HT)).
Abbreviation ShardState := (ShardState (HT := HT) (W := W)).
Implicit Types (m : FlatMap) (st : ShardState) (L : Entries) (now_ms : Z).

(** ** Maps and what their log says *)
Record covers now_ms (ev0 : Z) m L : Prop := {
  cov_ok : flat_ok m;
  cov_sub : contents m ⊆ L;
  cov_live : ∃ X : gset Bytes, (Z.of_nat (size X) ≤ evictions m - ev0)%Z ∧
    ∀ k s, L !! k = Some s → unexpired now_ms s → k ∉ X → contents m !! k = Some s;
}.

Lemma unexpired_earlier (now_ms now' : Z) s : (now_ms ≤ now')%Z → unexpired now' s → unexpired now_ms s.
Proof.
  unfold unexpired, deadline_passed. destruct (e_expire_at_ms s); [|done]. rewrite !Z.leb_gt. lia.
Qed.

Lemma covers_later (now_ms now' ev0 : Z) m L : (now_ms ≤ now')%Z → covers now_ms ev0 m L → covers now' ev0 m L.
Proof.
  intros Hle [Hok Hsub (X & HX & Hlive)]. split; [done|done|]. exists X. split; [done|].
  intros k s Hl Hu Hk. apply Hlive; [done| |done]. by eapply unexpired_earlier.
Qed.

(** The keys a shedding step lost. *)
Lemma lost_size now_ms (S S' : Entries) :
  S' ⊆ S →
  (Z.of_nat (size (dom (live_part now_ms S) ∖ dom S' : gset Bytes)) ≤ live_size now_ms S - live_size now_ms S')%Z.
Proof.
  intros Hsub. unfold live_size.
  assert (live_part now_ms S' ⊆ live_part now_ms S) as Hl.
  { apply map_subseteq_spec. intros k s (Hk & Hu)%map_lookup_filter_Some.
    apply map_lookup_filter_Some_2; [|done]. by eapply lookup_weaken. }
  assert (dom (live_part now_ms S) ∖ dom S' ⊆ dom (live_part now_ms S) ∖ dom (live_part now_ms S')) as Hd.
  { assert (dom (live_part now_ms S') ⊆ dom S') by (apply subseteq_dom; apply map_filter_subseteq). set_solver. }
  pose proof (subseteq_dom (D := gset Bytes) _ _ Hl) as Hdl.
  apply subseteq_size in Hd. rewrite (size_difference _ _ Hdl) in Hd.
  rewrite !size_dom in Hd. pose proof (map_subseteq_size _ _ Hl). lia.
Qed.

Lemma covers_step now_ms ev0 m L S w m' L' :
  covers now_ms ev0 m L → refined now_ms S w m m' → S ⊆ L' →
  (∀ k s, L' !! k = Some s → unexpired now_ms s →
     S !! k = Some s ∨ (L !! k = Some s ∧ contents m !! k ≠ Some s)) →
  covers now_ms ev0 m' L'.
Proof.
  intros [Hok Hsub (X & HX & Hlive)] [Hok' Hsub' Hre Hev Hb] HSL Hl. split; [done|by etrans|].
  exists (X ∪ (dom (live_part now_ms S) ∖ dom (contents m'))). split.
  - pose proof (lost_size now_ms S (contents m') Hsub').
    pose proof (size_union_alt X (dom (live_part now_ms S) ∖ dom (contents m'))) as Hu.
    assert (size ((dom (live_part now_ms S) ∖ dom (contents m')) ∖ X) ≤ size (dom (live_part now_ms S) ∖ dom (contents m')))
      by (apply subseteq_size; set_solver). lia.
  - intros k s Hk Hu Hnot. apply not_elem_of_union in Hnot as [HkX Hnot].
    destruct (Hl k s Hk Hu) as [HS|[HL Hne]]; [|by destruct Hne; apply Hlive].
    destruct (contents m' !! k) as [s'|] eqn:E.
    + pose proof (lookup_weaken _ _ _ _ E Hsub'). congruence.
    + destruct Hnot. apply elem_of_difference. split; [|by apply not_elem_of_dom].
      apply elem_of_dom. exists s. by apply map_lookup_filter_Some_2.
Qed.

(** Steps that only drop expired entries leave the log as it is. *)
Lemma covers_keep now_ms ev0 m L S w m' :
  covers now_ms ev0 m L → refined now_ms S w m m' → S ⊆ contents m →
  (∀ k s, contents m !! k = Some s → unexpired now_ms s → S !! k = Some s) → covers now_ms ev0 m' L.
Proof.
  intros Hc Hr Hs Hk. eapply covers_step; [done|done|etrans; [done|apply Hc]|].
  intros k s HL Hu. destruct (decide (contents m !! k = Some s)); auto.
Qed.

Lemma purge_sub (S : Entries) key now_ms : purge S key now_ms ⊆ S.
Proof. unfold purge. destruct (S !! key); [|done]. destruct (s_expired _ _); [apply delete_subseteq|done]. Qed.

Lemma purge_keeps (S : Entries) key now_ms k s :
  S !! k = Some s → unexpired now_ms s → purge S key now_ms !! k = Some s.
Proof.
  intros Hk Hu. unfold purge. destruct (S !! key) as [s0|] eqn:E; [|done]. unfold s_expired.
  destruct (deadline_passed _ _) eqn:Ed; [|done]. rewrite lookup_delete_ne; [done|].
  intros ->. unfold unexpired in Hu. simplify_eq. congruence.
Qed.

Lemma covers_purge now_ms ev0 m L key w m' :
  covers now_ms ev0 m L → refined now_ms (purge (contents m) key now_ms) w m m' → covers now_ms ev0 m' L.
Proof.
  intros Hc Hr. eapply covers_keep; [done|done|apply purge_sub|]. intros. by apply purge_keeps.
Qed.

(** The three kinds of record. *)
Lemma covers_set now_ms ev0 m L s w m' :
  covers now_ms ev0 m L → refined now_ms (<[e_key s := s]> (contents m)) w m m' →
  covers now_ms ev0 m' (<[e_key s := s]> L).
Proof.
  intros Hc Hr. eapply covers_step; [done|done|apply insert_mono, Hc|].
  intros k s' Hk Hu. destruct (decide (k = e_key s)) as [->|Hne].
  - rewrite lookup_insert_eq in Hk. left. by rewrite lookup_insert_eq.
  - rewrite lookup_insert_ne in * by done. destruct (decide (contents m !! k = Some s')); auto.
Qed.

Lemma covers_delete now_ms ev0 m L key w m' :
  covers now_ms ev0 m L → refined now_ms (delete key (contents m)) w m m' → covers now_ms ev0 m' (delete key L).
Proof.
  intros Hc Hr. eapply covers_step; [done|done|apply delete_mono, Hc|].
  intros k s' Hk Hu. destruct (decide (k = key)) as [->|Hne]; [by rewrite lookup_delete_eq in Hk|].
  rewrite lookup_delete_ne in * by done. destruct (decide (contents m !! k = Some s')); auto.
Qed.

Lemma covers_deadline now_ms ev0 m L key s d w m' :
  covers now_ms ev0 m L → purge (contents m) key now_ms !! key = Some s →
  refined now_ms (<[key := with_deadline d s]> (purge (contents m) key now_ms)) w m m' →
  L !! key = Some s ∧ covers now_ms ev0 m' (<[key := with_deadline d s]> L).
Proof.
  intros Hc Hs Hr. pose proof (cov_sub _ _ _ _ Hc) as Hsub.
  assert (L !! key = Some s) as HL by (eapply lookup_weaken; [done|]; etrans; [apply purge_sub|done]).
  split; [done|]. eapply covers_step; [done|done|apply insert_mono; etrans; [apply purge_sub|done]|].
  intros k s' Hk Hu. destruct (decide (k = key)) as [->|Hne].
  - rewrite lookup_insert_eq in *. auto.
  - rewrite lookup_insert_ne in * by done. destruct (decide (contents m !! k = Some s')); [|auto].
    left. by apply purge_keeps.
Qed.

(** ** The invariant of a worker

    The worker started with the entries [L0] and the log [l0], and has appended
    [l1] since; [t] is the latest time it has read. *)
Definition numbered (id : nat) (l1 : list MutationRecord) : Prop :=
  ∀ i r, l1 !! i = Some r → rec_shard_id r = id ∧ rec_sequence r = Z.min u64_MAX (Z.of_nat i + 1).

Record log_inv (l0 : list MutationRecord) (L0 : Entries) (id : nat) (t : Z) st (w : W) (l1 : list MutationRecord) : Prop := {
  li_wal : sh_wal st = Some w;
  li_records : sink_records w = l0 ++ l1;
  li_covers : covers t 0 (sh_map st) (state_after L0 l1);
  li_id : sh_id st = id;
  li_sequence : sh_sequence st = Z.min u64_MAX (Z.of_nat (length l1));
  li_numbered : numbered id l1;
  li_times : Forall (λ r, 0 ≤ rec_timestamp_ms r ≤ t)%Z l1;
  li_order : in_order l1;
}.

Section steps.
Context (l0 : list MutationRecord) (L0 : Entries) (id : nat) (t now_ms : Z) (Ht : (t ≤ now_ms)%Z) (Hn : (0 ≤ now_ms)%Z).
Abbreviation inv := (λ t st, ∃ w l1, log_inv l0 L0 id t st w l1).

(** A step that appends nothing. *)
Lemma log_inv_quiet st m' w l1 :
  log_inv l0 L0 id t st w l1 → covers now_ms 0 m' (state_after L0 l1) → inv now_ms (with_map st m').
Proof.
  intros [] Hc. exists w, l1. split; try done. eapply Forall_impl; [done|]. simpl. intros; lia.
Qed.

(** A step that appends a record. *)
Lemma log_inv_logged st m' w l1 instant op key value d result st' :
  log_inv l0 L0 id t st w l1 →
  (∀ seq, covers now_ms 0 m' (apply_current_record (state_after L0 l1)
     (mkRecord id seq now_ms op key value d None))) →
  logged st w m' now_ms instant op key value d = Some (result, st') → inv now_ms st'.
Proof.
  intros [] Hc Hl. unfold logged in Hl. apply bind_Some in Hl as ([w' ok] & Ha & Hst). simplify_eq.
  set (r := mkRecord _ _ _ _ _ _ _ _) in *. apply sink_append_records in Ha. exists w', (l1 ++ [r]).
  assert (rec_sequence r = Z.min u64_MAX (Z.of_nat (length l1) + 1)) as Es.
  { simpl. rewrite li_sequence0. unfold u64_saturating_add. lia. }
  split; simpl; try done.
  - rewrite Ha, li_records0. by rewrite app_assoc.
  - unfold state_after. rewrite foldl_snoc. apply Hc.
  - change (rec_sequence r = Z.min u64_MAX (Z.of_nat (length (l1 ++ [r])))). rewrite Es, length_app. simpl. lia.
  - intros i x [Hi|[Hi Hx]]%lookup_app_Some; [by apply li_numbered0|].
    apply list_lookup_singleton_Some in Hx as [Hz <-]. split; [done|]. rewrite Es. do 2 f_equal. lia.
  - apply Forall_app. split; [|repeat constructor; simpl; lia]. eapply Forall_impl; [done|]. simpl. intros; lia.
  - apply StronglySorted_app_2; [|done|repeat constructor]. intros x y Hx ->%list_elem_of_singleton.
    rewrite Forall_forall in li_times0. specialize (li_times0 x Hx). simpl. lia.
Qed.
End steps.

Lemma step_exactly m now_ms r :
  flat_ok m → (0 ≤ now_ms)%Z → (budget m + request_weight (contents m) now_ms r ≤ u64_MAX)%Z → updates_in_place m r →
  (flat_step m now_ms r).1 = (flat_spec (contents m) now_ms r).1 ∧
  refined now_ms (flat_spec (contents m) now_ms r).2 (request_weight (contents m) now_ms r) m (flat_step m now_ms r).2.
Proof.
  intros Hok Hn Hb Hu. destruct (flat_step_refined m now_ms r Hok) as (? & ? & _); [by split|done].
Qed.

Lemma quiet_room m : flat_ok m → (budget m + 0 ≤ u64_MAX)%Z.
Proof. intros [Hok _]. pose proof (ok_budget m Hok). unfold budget. lia. Qed.

Definition op_ok m (op : ShardOperation) : Prop :=
  match op with
  | SSet key_hash key value d =>
      key_hash = hash_key (key_bytes key) ∧
      (budget m + s_weight (mkEntry (key_bytes key) (value_bytes value) d None) ≤ u64_MAX)%Z
  | SDelete key_hash key | SGetEx key_hash key _ | SExpire key_hash key _ => key_hash = hash_key (key_bytes key)
  | _ => True
  end.

Section execute.
Context (l0 : list MutationRecord) (L0 : Entries) (id : nat) (t now_ms : Z) (Ht : (t ≤ now_ms)%Z) (Hn : (0 ≤ now_ms)%Z).
Abbreviation inv := (λ t st, ∃ w l1, log_inv l0 L0 id t st w l1).

Lemma set_inv st w l1 key value d instant unique result st' :
  log_inv l0 L0 id t st w l1 →
  (budget (sh_map st) + s_weight (mkEntry (key_bytes key) (value_bytes value) d None) ≤ u64_MAX)%Z →
  set_and_append_wal st (hash_key (key_bytes key)) key value d now_ms instant unique = Some (result, st') →
  inv now_ms st'.
Proof.
  intros Hi Hb. pose proof Hi as [Hw _ Hc _ _ _ _ _]. unfold set_and_append_wal. rewrite Hw.
  intros Hl. eapply (log_inv_logged l0 L0 id t now_ms Ht Hn); [done| |done]. intros seq.
  apply (covers_later t now_ms) in Hc; [|done].
  destruct (step_exactly (sh_map st) now_ms (RSetBytes (key_bytes key) (value_bytes value) None d))
    as [_ Hr]; [apply Hc|done|done|done|].
  exact (covers_set now_ms 0 _ _ (mkEntry (key_bytes key) (value_bytes value) d None) _ _ Hc Hr).
Qed.

Lemma delete_inv st w l1 key instant result st' :
  log_inv l0 L0 id t st w l1 →
  delete_and_append_wal st (hash_key (key_bytes key)) key now_ms instant = Some (result, st') → inv now_ms st'.
Proof.
  intros Hi. pose proof Hi as [Hw _ Hc _ _ _ _ _]. unfold delete_and_append_wal.
  apply (covers_later t now_ms) in Hc; [|done].
  destruct (step_exactly (sh_map st) now_ms (RDelete (key_bytes key))) as [_ Hr];
    [apply Hc|done|apply quiet_room, Hc|done|].
  simpl in Hr. unfold flat_delete in Hr. destruct (delete_hashed _ _ _) as [deleted m']. simpl in Hr. rewrite Hw.
  intros ([result' st1] & Hl & Hst)%bind_Some. simplify_eq.
  eapply (log_inv_logged l0 L0 id t now_ms Ht Hn); [done| |done]. intros seq. by eapply covers_delete.
Qed.

Lemma expiration_inv st w l1 key change instant result st' :
  log_inv l0 L0 id t st w l1 → apply_expiration_change st key change now_ms instant = Some (result, st') →
  inv now_ms st'.
Proof.
  intros Hi. pose proof Hi as [Hw _ Hc _ _ _ _ _]. unfold apply_expiration_change. rewrite Hw.
  apply (covers_later t now_ms) in Hc; [|done]. set (k := key_bytes key).
  assert (∀ (changed : bool) m' d,
    (if changed then ∃ s, purge (contents (sh_map st)) k now_ms !! k = Some s ∧
       refined now_ms (<[k := with_deadline d s]> (purge (contents (sh_map st)) k now_ms)) 0 (sh_map st) m'
     else refined now_ms (purge (contents (sh_map st)) k now_ms) 0 (sh_map st) m') →
    (if changed then
       '(result, st) ← logged st w m' now_ms instant OpExpire k [] d;
       Some (match result with inl error => inl error | inr _ => inr true end, st)
     else Some (inr false, with_map st m')) = Some (result, st') → inv now_ms st') as Hgo.
  { intros [] m' d Hm.
    - intros ([result' st1] & Hl & Hst)%bind_Some. simplify_eq. destruct Hm as (s & Hs & Hr).
      eapply (log_inv_logged l0 L0 id t now_ms Ht Hn); [done| |done]. intros seq.
      destruct (covers_deadline _ _ _ _ _ _ d _ _ Hc Hs Hr) as [HL Hc'].
      unfold apply_current_record, apply_expire. simpl. fold k. by rewrite HL.
    - intros ?. simplify_eq. eapply (log_inv_quiet l0 L0 id t now_ms Ht); [done|]. by eapply covers_purge. }
  destruct change as [|at_ms|].
  - intros ?. simplify_eq. by eapply (log_inv_quiet l0 L0 id t now_ms Ht).
  - destruct (step_exactly (sh_map st) now_ms (RExpire k at_ms)) as [Ha Hr]; [apply Hc|done|apply quiet_room, Hc|done|].
    simpl in Ha, Hr. destruct (expire _ _ _ _) as [changed m']. simpl in Ha, Hr. apply Hgo.
    destruct (purge (contents (sh_map st)) k now_ms !! k) as [s|]; simpl in *; simplify_eq; eauto.
  - destruct (step_exactly (sh_map st) now_ms (RPersist k)) as [Ha Hr]; [apply Hc|done|apply quiet_room, Hc|done|].
    simpl in Ha, Hr. destruct (persist _ _ _) as [changed m']. simpl in Ha, Hr. apply Hgo.
    destruct (purge (contents (sh_map st)) k now_ms !! k) as [s|]; simpl in *; [|by simplify_eq].
    destruct (has_ttl (e_expire_at_ms s)); simpl in *; simplify_eq; eauto.
Qed.

(** A read drops at most its own expired key. *)
Lemma read_inv st w l1 key r m' :
  log_inv l0 L0 id t st w l1 → (flat_spec (contents (sh_map st)) now_ms r).2 = purge (contents (sh_map st)) key now_ms →
  request_weight (contents (sh_map st)) now_ms r = 0%Z → updates_in_place (sh_map st) r →
  (flat_step (sh_map st) now_ms r).2 = m' → ∃ l1, log_inv l0 L0 id now_ms (with_map st m') w l1.
Proof.
  intros Hi Hs Hw Hu <-. pose proof Hi as [Ew _ Hc _ _ _ _ _]. apply (covers_later t now_ms) in Hc; [|done].
  destruct (step_exactly (sh_map st) now_ms r) as [_ Hr]; [apply Hc|done|rewrite Hw; apply quiet_room, Hc|done|].
  rewrite Hs in Hr. exists l1. destruct Hi. split; try done.
  - by eapply covers_purge.
  - eapply Forall_impl; [done|]. simpl. intros; lia.
Qed.

End execute.

Section worker.
Context (l0 : list MutationRecord) (L0 : Entries) (id : nat).
Abbreviation inv := (λ t st, ∃ w l1, log_inv l0 L0 id t st w l1).

Lemma execute_inv t now_ms st w l1 op instant unique result st' :
  (t ≤ now_ms)%Z → (0 ≤ now_ms)%Z → log_inv l0 L0 id t st w l1 → op_ok (sh_map st) op →
  execute st op now_ms instant unique = Some (result, st') → inv now_ms st'.
Proof.
  intros Ht Hn Hi Hop.
  destruct op as [key|h key change|h key value d|h key|key|key millis|h key d]; simpl in Hop; unfold execute.
  - destruct (flat_get (sh_map st) key now_ms) as [value m'] eqn:E. intros ?. simplify_eq. exists w.
    eapply (read_inv _ _ _ _ _ Ht Hn _ _ _ key (RGet key)); try done. simpl. by rewrite E.
  - destruct (flat_get (sh_map st) (key_bytes key) now_ms) as [value m'] eqn:E.
    destruct (read_inv _ _ _ _ _ Ht Hn st w l1 (key_bytes key) (RGet (key_bytes key)) m' Hi) as [l2 Hi2];
      try done; [simpl; by rewrite E|].
    destruct value; [|intros ?; simplify_eq; eauto]. case_bool_decide; [intros ?; simplify_eq; eauto|].
    intros ([result' st1] & Hl & Hst)%bind_Some. simplify_eq.
    by eapply (expiration_inv l0 L0 id now_ms now_ms (Z.le_refl _) Hn).
  - destruct Hop as [-> Hb]. intros ([result' st1] & Hl & Hst)%bind_Some. simplify_eq.
    by eapply (set_inv l0 L0 id t now_ms Ht Hn).
  - subst h. intros ([result' st1] & Hl & Hst)%bind_Some. simplify_eq.
    by eapply (delete_inv l0 L0 id t now_ms Ht Hn).
  - destruct (flat_exists (sh_map st) key now_ms) as [b m'] eqn:E. intros ?. simplify_eq. exists w.
    eapply (read_inv _ _ _ _ _ Ht Hn _ _ _ key (RExists key)); try done. simpl. by rewrite E.
  - destruct millis.
    + destruct (ttl_millis (sh_map st) key now_ms) as [z m'] eqn:E. intros ?. simplify_eq. exists w.
      eapply (read_inv _ _ _ _ _ Ht Hn _ _ _ key (RTtlMillis key)); try done. simpl. by rewrite E.
    + destruct (ttl_seconds (sh_map st) key now_ms) as [z m'] eqn:E. intros ?. simplify_eq. exists w.
      eapply (read_inv _ _ _ _ _ Ht Hn _ _ _ key (RTtlSeconds key)); try done. simpl. by rewrite E.
  - intros ([result' st1] & Hl & Hst)%bind_Some. simplify_eq.
    by eapply (expiration_inv l0 L0 id t now_ms Ht Hn).
Qed.

(** Flushes, and whatever the merger does to the log, keep its records. *)
Definition with_wal st (w : W) : ShardState := mkShard (sh_id st) (sh_map st) (Some w) (sh_sequence st).

Lemma rewal_inv t st w w' l1 :
  log_inv l0 L0 id t st w l1 → sink_records w' = sink_records w → log_inv l0 L0 id t (with_wal st w') w' l1.
Proof. intros [] E. split; try done. by rewrite E. Qed.

Lemma flush_inv t st instant st' : inv t st → flush_wal st instant = Some st' → inv t st'.
Proof.
  intros (w & l1 & Hi). unfold flush_wal. rewrite (li_wal _ _ _ _ _ _ _ Hi).
  intros ([w' ok] & Hf & Hst)%bind_Some. simplify_eq. exists w', l1. eapply rewal_inv; [done|]. by eapply sink_flush_records.
Qed.

Lemma flush_due_inv t st instant st' :
  inv t st → flush_wal_due st instant = Some st' → inv t st' ∧ sh_map st' = sh_map st.
Proof.
  intros (w & l1 & Hi). unfold flush_wal_due. rewrite (li_wal _ _ _ _ _ _ _ Hi).
  intros ([w' ok] & Hf & Hst)%bind_Some. simplify_eq. split; [|done]. exists w', l1.
  eapply rewal_inv; [done|]. by eapply sink_flush_due_records.
Qed.

Definition message_ok m (message : ShardMessage) : Prop :=
  match message with MExecute op => op_ok m op | _ => True end.

Lemma later_inv (t t' : Z) st : (t ≤ t')%Z → inv t st → inv t' st.
Proof.
  intros Ht (w & l1 & []). exists w, l1. split; try done; [by eapply covers_later|].
  eapply Forall_impl; [done|]. simpl. intros; lia.
Qed.

Lemma worker_step_inv t now_ms st message instant unique out st' :
  (t ≤ now_ms)%Z → (0 ≤ now_ms)%Z → inv t st → message_ok (sh_map st) message →
  worker_step st message now_ms instant unique = Some (out, st') → inv now_ms st'.
Proof.
  intros Ht Hn Hi Hm. unfold worker_step. intros (st1 & Hf & Hs)%bind_Some.
  destruct (flush_due_inv _ _ _ _ Hi Hf) as [Hi1 Em]. rewrite <- Em in Hm. clear Hi Hf Em.
  destruct message as [op| | |due].
  - apply bind_Some in Hs as ([result st2] & He & Hst). simplify_eq. destruct Hi1 as (w & l1 & Hi1).
    by eapply (execute_inv t now_ms).
  - simplify_eq. by apply (later_inv t now_ms).
  - apply bind_Some in Hs as (st2 & He & Hst). simplify_eq. eapply flush_inv; [|done]. by apply (later_inv t now_ms).
  - apply bind_Some in Hs as (st2 & He & Hst). simplify_eq.
    destruct (flush_due_inv _ _ _ _ Hi1 He) as [Hi2 _]. destruct due; [|by apply (later_inv t now_ms)].
    destruct Hi2 as (w & l1 & Hi2). eapply (log_inv_quiet l0 L0 id t now_ms Ht); [done|].
    pose proof (covers_later t now_ms 0 _ _ Ht (li_covers _ _ _ _ _ _ _ Hi2)) as Hc.
    destruct (step_exactly (sh_map st2) now_ms RMaintenance) as [_ Hr]; [apply Hc|done|apply quiet_room, Hc|done|].
    simpl in Hr. destruct (process_maintenance (sh_map st2) now_ms) as [n m']. simpl in Hr |- *.
    eapply covers_keep; [done|done|apply map_filter_subseteq|]. intros k s Hk Hu. by apply map_lookup_filter_Some_2.
Qed.

(** ** Runs of a worker, with the merger draining its log at any point *)
Inductive worker_run : Z → ShardState → list WorkerOutput → Z → ShardState → Prop :=
  | run_nil t st : worker_run t st [] t st
  | run_message t st message now_ms instant unique out st1 outs t' st' :
      (t ≤ now_ms)%Z → message_ok (sh_map st) message →
      worker_step st message now_ms instant unique = Some (out, st1) →
      worker_run now_ms st1 outs t' st' → worker_run t st (out :: outs) t' st'
  | run_drain t st w w' outs t' st' :
      sh_wal st = Some w → sink_records w' = sink_records w →
      worker_run t (with_wal st w') outs t' st' → worker_run t st outs t' st'.

Lemma worker_run_inv t st outs t' st' : (0 ≤ t)%Z → worker_run t st outs t' st' → inv t st → inv t' st'.
Proof.
  intros Hpos Hr. revert Hpos.
  induction Hr as [t st|t st message now_ms instant unique out st1 outs t' st' Ht Hm Hs Hr IH
                  |t st w w' outs t' st' Ew Hw Hr IH]; intros Hpos Hi; [done| |].
  - apply IH; [lia|]. apply (worker_step_inv t now_ms st message instant unique out st1); done || lia.
  - apply IH; [done|]. destruct Hi as (w0 & l1 & Hi). exists w', l1. eapply rewal_inv; [done|].
    rewrite Hw. f_equal. pose proof (li_wal _ _ _ _ _ _ _ Hi). congruence.
Qed.
End worker.

(** The start of a worker: what it recovered, less what expired or had to go. *)
Lemma worker_start_covers es limit policy (now1 now2 : Z) :
  NoDup (e_key <$> es) → (sum_of s_weight es ≤ u64_MAX)%Z → (now1 ≤ now2)%Z →
  covers now2 0 (configure_memory_policy (from_entries es now1) limit policy now2 : FlatMap)
    (list_to_map ((λ s, (e_key s, s)) <$> es)).
Proof.
  intros Hnd Hw H12. destruct (from_entries_spec (HT := HT) es now1 Hw) as (Hok & Ev & Ec).
  rewrite (restore_spec now1 es ∅ Hnd), (right_id_L ∅ (∪)) in Ec.
  set (L := list_to_map _) in *. set (m0 := from_entries es now1 : FlatMap) in *. clearbody m0.
  assert (covers now2 0 m0 L) as Hc.
  { split; [done|rewrite Ec; apply map_filter_subseteq|]. exists ∅. rewrite size_empty. split; [lia|].
    intros k s Hk Hu _. rewrite Ec. apply map_lookup_filter_Some_2; [done|]. by eapply unexpired_earlier. }
  pose proof (configure_means m0 limit policy now2 Hok) as [_ Hr]. simpl in Hr.
  eapply covers_keep; [done|exact Hr|done|done].
Qed.

Lemma worker_start_inv shard_id es limit policy w (now1 now2 : Z) :
  NoDup (e_key <$> es) → (sum_of s_weight es ≤ u64_MAX)%Z → (now1 ≤ now2)%Z →
  log_inv (sink_records w) (list_to_map ((λ s, (e_key s, s)) <$> es)) shard_id now2
    (worker_start shard_id es limit policy (Some w) now1 now2 : ShardState) w [].
Proof.
  intros Hnd Hw H12. split; simpl; try done.
  - by rewrite app_nil_r.
  - by apply worker_start_covers.
  - constructor.
Qed.

(** ** Restarts *)
Section restart.
Context (shift : Z) (mode : EmbeddedRouteMode) (i : nat).

Lemma partition_shard es acc :
  default [] (foldl (partition_step shift mode) acc es !! Z.of_nat i) =
  default [] (acc !! Z.of_nat i) ++ filter (λ s, engine_route mode shift (e_key s) = Z.of_nat i) es.
Proof.
  revert acc. induction es as [|s es IH]; intros acc; [by rewrite app_nil_r|]. cbn [foldl]. rewrite IH, filter_cons.
  assert (∀ shards, partition_step shift mode shards s =
    <[engine_route mode shift (e_key s) := default [] (shards !! engine_route mode shift (e_key s)) ++ [s]]> shards) as ->.
  { intros. unfold partition_step, engine_route. by destruct mode, (overflow_slot_shard _ _). }
  destruct (decide _) as [->|Hne].
  - rewrite lookup_insert_eq. simpl. by rewrite <- app_assoc.
  - by rewrite lookup_insert_ne.
Qed.

Lemma shard_entries_filter es :
  shard_entries es shift mode i = filter (λ s, engine_route mode shift (e_key s) = Z.of_nat i) es.
Proof. unfold shard_entries, partition. by rewrite partition_shard. Qed.

Abbreviation recovered rs := (shard_entries (into_state (load_enabled None rs)).1 shift mode i).
Abbreviation as_map es := (list_to_map ((λ s, (e_key s, s)) <$> es) : Entries).

Lemma recovered_keys rs : NoDup (e_key <$> recovered rs).
Proof.
  rewrite shard_entries_filter. eapply sublist_NoDup; [|apply fmap_sublist, sublist_filter].
  simpl. rewrite <- list_fmap_compose. pose proof (NoDup_fst_map_to_list (acc_entries (load_enabled None rs))) as Hnd.
  replace (e_key ∘ snd <$> _) with ((map_to_list (acc_entries (load_enabled None rs))).*1); [done|].
  apply list_fmap_ext. intros j [k s] Hj. simpl. apply list_elem_of_lookup_2, elem_of_map_to_list in Hj.
  symmetry. exact (keyed_load None rs _ _ Hj).
Qed.

(** The entries a shard gets are the recovered ones of its keys. *)
Lemma recovered_lookup rs k :
  as_map (recovered rs) !! k =
  if decide (engine_route mode shift k = Z.of_nat i) then acc_entries (load_enabled None rs) !! k else None.
Proof.
  pose proof (recovered_keys rs) as Hnd.
  assert (∀ s, as_map (recovered rs) !! k = Some s ↔
    acc_entries (load_enabled None rs) !! k = Some s ∧ engine_route mode shift k = Z.of_nat i) as Hiff.
  { intros s. rewrite <- elem_of_list_to_map by by rewrite <- list_fmap_compose.
    rewrite list_elem_of_fmap, shard_entries_filter. setoid_rewrite list_elem_of_filter. simpl.
    setoid_rewrite list_elem_of_fmap. split.
    - intros (s' & [= -> ->] & Hr & [k' s''] & -> & Hin%elem_of_map_to_list). simpl in *.
      rewrite (keyed_load None rs _ _ Hin : e_key s'' = k') in *. done.
    - intros [Hs Hr]. exists s. rewrite (keyed_load None rs _ _ Hs : e_key s = k). split; [done|]. split; [done|].
      exists (k, s). split; [done|]. by apply elem_of_map_to_list. }
  apply option_eq. intros s. rewrite Hiff. destruct (decide _); naive_solver.
Qed.

(** Replaying a shard's own records over what it recovered gives what the next
    start recovers from the whole log. *)
Lemma restart_state old log :
  Forall (λ r, 0 ≤ rec_timestamp_ms r)%Z old → Forall (λ r, 0 ≤ rec_timestamp_ms r)%Z log →
  (∀ r, r ∈ log → engine_route mode shift (rec_key r) = Z.of_nat (rec_shard_id r)) →
  state_after (as_map (recovered old)) (of_shard i log) = as_map (recovered (old ++ map stripped log)).
Proof.
  intros Hold Hlog Hroute. apply map_eq. intros k. rewrite state_after_lookup, !recovered_lookup.
  rewrite !recovery_log_only; [|apply Forall_app; split; [done|]; by apply Forall_map|done].
  assert (key_log k (of_shard i log) =
    if decide (engine_route mode shift k = Z.of_nat i) then key_log k log else []) as ->.
  { clear Hold Hlog. unfold key_log. rewrite list_filter_filter.
    induction log as [|r log IH]; [by destruct (decide _)|].
    rewrite !filter_cons, IH by (intros; apply Hroute; by right). pose proof (Hroute r ltac:(by left)).
    repeat destruct (decide _); try done; try naive_solver lia. }
  destruct (decide _); [|done]. rewrite !state_after_lookup. unfold key_log at 3. rewrite filter_app. fold (key_log k old).
  fold (key_log k (map stripped log)). by rewrite key_log_stripped, foldl_app, entry_fold_stripped.
Qed.
End restart.
End engine_proofs.
