(* ===== verification/PointCommands.v ===== *)
(** * Commands on string keys: parsing

    The point commands of [commands/key/*.rs] and [commands/string/*.rs]: their
    arity checks, integers and options ([commands/parsing.rs],
    [string/set/options.rs]), and the catalog that finds a command by its name
    ([commands.rs], without the optional command families). *)

From S2P Require Import Prelude Deps Helpers Codec Resp FastKinds.

Definition u64_saturating_mul (a b : Z) : Z := Z.min u64_MAX (a * b).

(** [ShardCacheError::Command], with what the message is made of. *)
Inductive CommandError :=
  | ArityExact (name : Bytes) (expected actual : nat)
  | ArityRange (name : Bytes) (min max actual : nat)
  | ArityAtLeast (name requirement : Bytes)
  | ExpectsUtf8 (name option : Bytes)
  | ExpectsInteger (name option : Bytes)
  | MissingInteger (option : Bytes)
  | UnsupportedOption (option : Bytes)
  | ExpireSyntax
  | GetExSyntax
  | UnsupportedCommand (name : Bytes)
  | EmptyCommand.

#[export] Instance command_error_eq_dec : EqDecision CommandError.
Proof. solve_decision. Defined.

Abbreviation Parsed A := (CommandError + A)%type.

#[export] Instance parsed_ret : MRet (sum CommandError) := λ A, inr.
#[export] Instance parsed_bind : MBind (sum CommandError) := λ A B f x,
  match x with inl e => inl e | inr a => f a end.

(** ** Arity and integers *)
Definition arity_exact (name : Bytes) (actual expected : nat) : Parsed unit :=
  if actual =? expected then inr tt else inl (ArityExact name expected actual).

Definition arity_range (name : Bytes) (actual min max : nat) : Parsed unit :=
  if (min <=? actual) && (actual <=? max) then inr tt else inl (ArityRange name min max actual).

Definition arity_at_least (name : Bytes) (actual min : nat) (requirement : Bytes) : Parsed unit :=
  if min <=? actual then inr tt else inl (ArityAtLeast name requirement).

Definition storage_parse_u64 (name option value : Bytes) : Parsed Z :=
  if utf8_valid value then
    match parse_u64 value with Some n => inr n | None => inl (ExpectsInteger name option) end
  else inl (ExpectsUtf8 name option).

Definition ttl_seconds_arg (name value : Bytes) : Parsed Z :=
  ttl ← storage_parse_u64 name (text "seconds") value; mret (u64_saturating_mul ttl 1000).
Definition ttl_millis_arg (name value : Bytes) : Parsed Z := storage_parse_u64 name (text "milliseconds") value.

(** The server's parser of integers: [try_fold] with checked arithmetic. *)
Fixpoint ascii_parse_digits (parsed : Z) (value : Bytes) : option Z :=
  match value with
  | [] => Some parsed
  | digit :: value =>
      if is_ascii_digit digit then
        if (parsed * 10 <=? u64_MAX)%Z && (parsed * 10 + (digit - 48) <=? u64_MAX)%Z
        then ascii_parse_digits (parsed * 10 + (digit - 48)) value else None
      else None
  end.

Definition ascii_parse (value : Bytes) : option Z :=
  match value with
  | [] => None
  | _ => if 19 <? length value then None else ascii_parse_digits 0 value
  end.

Definition ascii_seconds (value : Bytes) : option Z := (λ ttl, u64_saturating_mul ttl 1000) <$> ascii_parse value.
Definition ascii_millis (value : Bytes) : option Z := ascii_parse value.

(** ** Options of SET *)
Inductive SetOption := OptEx | OptPx | OptNx | OptXx | OptKeepTtl.

Definition parse_set_option (value : Bytes) : option SetOption :=
  if eq_ignore_ascii_case value (text "EX") then Some OptEx
  else if eq_ignore_ascii_case value (text "PX") then Some OptPx
  else if eq_ignore_ascii_case value (text "NX") then Some OptNx
  else if eq_ignore_ascii_case value (text "XX") then Some OptXx
  else if eq_ignore_ascii_case value (text "KEEPTTL") then Some OptKeepTtl
  else None.

(** [SetOption::parse_storage]: only EX ([false]) and PX ([true]). *)
Definition parse_storage_option (value : Bytes) : Parsed bool :=
  match parse_set_option value with
  | Some OptEx => inr false
  | Some OptPx => inr true
  | _ => inl (UnsupportedOption value)
  end.

(** [StorageSetOptions::parse]. *)
Fixpoint parse_storage_options (ttl_ms : option Z) (args : list Bytes) : Parsed (option Z) :=
  match args with
  | [] => inr ttl_ms
  | option :: args =>
      millis ← parse_storage_option option;
      match args with
      | [] => inl (MissingInteger (if millis : bool then text "PX" else text "EX"))
      | value :: args =>
          if millis : bool then ttl ← storage_parse_u64 (text "SET") (text "PX") value; parse_storage_options (Some ttl) args
          else ttl ← storage_parse_u64 (text "SET") (text "EX") value;
               parse_storage_options (Some (u64_saturating_mul ttl 1000)) args
      end
  end.

Inductive SetCondition := SetAlways | SetNx | SetXx.

Definition merge_condition (c next : SetCondition) : option SetCondition :=
  match c, next with
  | SetAlways, condition => Some condition
  | condition, SetAlways => Some condition
  | SetNx, SetNx => Some SetNx
  | SetXx, SetXx => Some SetXx
  | SetNx, SetXx | SetXx, SetNx => None
  end.

Record SetOptions := mkSetOptions { so_ttl_ms : option Z; so_condition : SetCondition; so_keep_ttl : bool }.

Definition set_options_finish (o : SetOptions) : option SetOptions :=
  match so_keep_ttl o, so_ttl_ms o with
  | true, Some _ => None
  | _, _ => Some o
  end.

(** [SetOptions::parse] of the server: its loop, from the options read so far. *)
Fixpoint parse_set_options (o : SetOptions) (args : list Bytes) : option SetOptions :=
  match args with
  | [] => set_options_finish o
  | option :: args =>
      kind ← parse_set_option option;
      match kind with
      | OptEx =>
          match args with
          | value :: args =>
              ttl ← ascii_parse value;
              parse_set_options (mkSetOptions (Some (u64_saturating_mul ttl 1000)) (so_condition o) (so_keep_ttl o)) args
          | [] => None
          end
      | OptPx =>
          match args with
          | value :: args =>
              ttl ← ascii_parse value;
              parse_set_options (mkSetOptions (Some ttl) (so_condition o) (so_keep_ttl o)) args
          | [] => None
          end
      | OptNx =>
          c ← merge_condition (so_condition o) SetNx; parse_set_options (mkSetOptions (so_ttl_ms o) c (so_keep_ttl o)) args
      | OptXx =>
          c ← merge_condition (so_condition o) SetXx; parse_set_options (mkSetOptions (so_ttl_ms o) c (so_keep_ttl o)) args
      | OptKeepTtl => parse_set_options (mkSetOptions (so_ttl_ms o) (so_condition o) true) args
      end
  end.

Definition set_options_default : SetOptions := mkSetOptions None SetAlways false.

(** ** Conditions of EXPIRE and PEXPIRE *)
Inductive ExpireCondition := ExAlways | ExNx | ExXx | ExGt | ExLt.

Definition parse_expire_condition (options : list Bytes) : Parsed ExpireCondition :=
  match options with
  | [] => inr ExAlways
  | [option] =>
      if eq_ignore_ascii_case option (text "NX") then inr ExNx
      else if eq_ignore_ascii_case option (text "XX") then inr ExXx
      else if eq_ignore_ascii_case option (text "GT") then inr ExGt
      else if eq_ignore_ascii_case option (text "LT") then inr ExLt
      else inl ExpireSyntax
  | _ => inl ExpireSyntax
  end.

(** What the embedded store decides before it changes a deadline. *)
Definition expire_condition_allows (condition : ExpireCondition) (current_pttl_ms new_expire_at_ms now_ms : Z) : bool :=
  if (current_pttl_ms =? -2)%Z then false
  else if (current_pttl_ms =? -1)%Z then match condition with ExAlways | ExNx | ExLt => true | _ => false end
  else if (0 <=? current_pttl_ms)%Z then
    let current_expire_at_ms := u64_saturating_add now_ms current_pttl_ms in
    match condition with
    | ExAlways => true
    | ExNx => false
    | ExXx => true
    | ExGt => (current_expire_at_ms <? new_expire_at_ms)%Z
    | ExLt => (new_expire_at_ms <? current_expire_at_ms)%Z
    end
  else false.

(** ** Expiration of GETEX *)
Inductive GetExExpiration := GetExKeep | GetExExpireIn (ttl_ms : Z) | GetExPersist.

Definition parse_getex_expiration (args : list Bytes) : Parsed GetExExpiration :=
  match args with
  | [] => inr GetExKeep
  | [option] => if eq_ignore_ascii_case option (text "PERSIST") then inr GetExPersist else inl GetExSyntax
  | [option; value] =>
      if eq_ignore_ascii_case option (text "EX") then
        ttl ← ttl_seconds_arg (text "GETEX") value; mret (GetExExpireIn ttl)
      else if eq_ignore_ascii_case option (text "PX") then
        ttl ← ttl_millis_arg (text "GETEX") value; mret (GetExExpireIn ttl)
      else inl GetExSyntax
  | _ => inl GetExSyntax
  end.

(** The server's reading of the same arguments. *)
Definition parse_getex_raw (args : list Bytes) : option (Bytes * GetExExpiration) :=
  match args with
  | [key] => Some (key, GetExKeep)
  | [key; option] => if eq_ignore_ascii_case option (text "PERSIST") then Some (key, GetExPersist) else None
  | [key; option; value] =>
      if eq_ignore_ascii_case option (text "EX") then (λ ttl, (key, GetExExpireIn ttl)) <$> ascii_seconds value
      else if eq_ignore_ascii_case option (text "PX") then (λ ttl, (key, GetExExpireIn ttl)) <$> ascii_millis value
      else None
  | _ => None
  end.

(** ** Commands *)
Inductive PointCommand :=
  | PGet (key : Bytes)
  | PSet (key value : Bytes) (ttl_ms : option Z)
  | PDel (keys : list Bytes)
  | PExists (keys : list Bytes)
  | PTtl (key : Bytes)
  | PPttl (key : Bytes)
  | PExpire (key : Bytes) (ttl_ms : Z) (condition : ExpireCondition)
  | PPExpire (key : Bytes) (ttl_ms : Z) (condition : ExpireCondition)
  | PPersist (key : Bytes)
  | PGetEx (key : Bytes) (expiration : GetExExpiration)
  | PSetEx (key : Bytes) (ttl_ms : Z) (value : Bytes)
  | PPSetEx (key : Bytes) (ttl_ms : Z) (value : Bytes).

(** [parts[i]]: the arity has been checked. *)
Abbreviation part parts i := (nth i parts []).

Definition parse_get (parts : list Bytes) : Parsed PointCommand :=
  _ ← arity_exact (text "GET") (length parts) 2; mret (PGet (part parts 1)).

Definition parse_set (parts : list Bytes) : Parsed PointCommand :=
  _ ← arity_at_least (text "SET") (length parts) 3 (text "key and value");
  ttl_ms ← parse_storage_options None (drop 3 parts);
  mret (PSet (part parts 1) (part parts 2) ttl_ms).

Definition parse_del (parts : list Bytes) : Parsed PointCommand :=
  _ ← arity_at_least (text "DEL") (length parts) 2 (text "key"); mret (PDel (drop 1 parts)).

Definition parse_exists (parts : list Bytes) : Parsed PointCommand :=
  _ ← arity_at_least (text "EXISTS") (length parts) 2 (text "key"); mret (PExists (drop 1 parts)).

Definition parse_ttl (parts : list Bytes) : Parsed PointCommand :=
  _ ← arity_exact (text "TTL") (length parts) 2; mret (PTtl (part parts 1)).

Definition parse_pttl (parts : list Bytes) : Parsed PointCommand :=
  _ ← arity_exact (text "PTTL") (length parts) 2; mret (PPttl (part parts 1)).

Definition parse_expire (parts : list Bytes) : Parsed PointCommand :=
  _ ← arity_range (text "EXPIRE") (length parts) 3 4;
  condition ← parse_expire_condition (drop 3 parts);
  ttl_ms ← ttl_seconds_arg (text "EXPIRE") (part parts 2);
  mret (PExpire (part parts 1) ttl_ms condition).

Definition parse_pexpire (parts : list Bytes) : Parsed PointCommand :=
  _ ← arity_range (text "PEXPIRE") (length parts) 3 4;
  condition ← parse_expire_condition (drop 3 parts);
  ttl_ms ← ttl_millis_arg (text "PEXPIRE") (part parts 2);
  mret (PPExpire (part parts 1) ttl_ms condition).

Definition parse_persist (parts : list Bytes) : Parsed PointCommand :=
  _ ← arity_exact (text "PERSIST") (length parts) 2; mret (PPersist (part parts 1)).

Definition parse_getex (parts : list Bytes) : Parsed PointCommand :=
  _ ← arity_at_least (text "GETEX") (length parts) 2 (text "key");
  expiration ← parse_getex_expiration (drop 2 parts);
  mret (PGetEx (part parts 1) expiration).

Definition parse_setex (parts : list Bytes) : Parsed PointCommand :=
  _ ← arity_exact (text "SETEX") (length parts) 4;
  ttl_ms ← ttl_seconds_arg (text "SETEX") (part parts 2);
  mret (PSetEx (part parts 1) ttl_ms (part parts 3)).

Definition parse_psetex (parts : list Bytes) : Parsed PointCommand :=
  _ ← arity_exact (text "PSETEX") (length parts) 4;
  ttl_ms ← ttl_millis_arg (text "PSETEX") (part parts 2);
  mret (PPSetEx (part parts 1) ttl_ms (part parts 3)).

(** [CATALOG] and [CommandCatalog::find]. *)
Definition CATALOG : list (Bytes * (list Bytes → Parsed PointCommand)) :=
  [(text "GET", parse_get); (text "SET", parse_set); (text "DEL", parse_del); (text "EXISTS", parse_exists);
   (text "TTL", parse_ttl); (text "PTTL", parse_pttl); (text "EXPIRE", parse_expire); (text "PEXPIRE", parse_pexpire);
   (text "PERSIST", parse_persist); (text "GETEX", parse_getex); (text "SETEX", parse_setex);
   (text "PSETEX", parse_psetex)].

Definition catalog_find (name : Bytes) : option (list Bytes → Parsed PointCommand) :=
  snd <$> find (λ entry, eq_ignore_ascii_case name entry.1) CATALOG.

(** [CommandCatalog::parse_borrowed], and [parse_owned] on copied parts. *)
Definition parse_command (parts : list Bytes) : Parsed PointCommand :=
  match parts with
  | [] => inl EmptyCommand
  | name :: _ =>
      match catalog_find name with
      | Some parse => parse parts
      | None => inl (UnsupportedCommand name)
      end
  end.

(** [BorrowedCommand::route_key]. *)
Definition command_route_key (c : PointCommand) : option Bytes :=
  match c with
  | PDel keys | PExists keys => head keys
  | PGet key | PSet key _ _ | PTtl key | PPttl key | PExpire key _ _ | PPExpire key _ _ | PPersist key
  | PGetEx key _ | PSetEx key _ _ | PPSetEx key _ _ => Some key
  end.

(** [CommandSpec::MUTATES_VALUE]. *)
Definition mutates_value (c : PointCommand) : bool :=
  match c with PGet _ | PExists _ | PTtl _ | PPttl _ => false | _ => true end.
