(* ===== verification/EngineCommands.v ===== *)
(** * Commands on the engine

    The engine's side of the point commands: [EngineHandle] ([storage/engine.rs])
    and the [execute_engine] of every command ([commands/key/*.rs],
    [commands/string/*.rs]).  A command reads the clock, picks a shard, sends it
    an operation and turns the reply into an answer.  [None] stands for a
    command that does not return: its shard waits for room in the log, or an
    index is out of bounds. *)

From S2P Require Import Prelude Deps Helpers F64 Codec Wal Snapshot Recovery Segments WalPipeline Routing FlatMap Engine Resp FastKinds Fast Native PointCommands.

Inductive HandleError :=
  | ShardFailed (error : EngineError)
  | UnexpectedReply (command : Bytes)
  | Invalid (error : CommandError)
  | InvalidSpan
  | UnsupportedSpanned (name : Bytes)
  | BodyTooLong
  | InvalidDouble
  | Unencodable (error : NativeEncodeError).

Section engine_commands.
Context `{Hashing} {HT : Type → Type} `{!HashTable HT}.
Context {W : Type} `{!WalSink W}.
Abbreviation ShardState := (ShardState (HT := HT) (W := W)).

(** The clock, read in sequence: wall time, monotonic time, and whether the
    buffer of an overwritten value is not shared at that moment. *)
Context (clock : nat → Z) (instant : nat → Z) (unique : nat → bool).

(** [EngineInner] without its configuration; [eng_ticks] counts the readings. *)
Record EngineHandle := mkEngine {
  eng_shift : Z;
  eng_route_mode : EmbeddedRouteMode;
  eng_shards : list ShardState;
  eng_ticks : nat;
}.

Implicit Types (e : EngineHandle).

Definition Eng (A : Type) : Type := EngineHandle → option ((HandleError + A) * EngineHandle).

#[export] Instance eng_ret : MRet Eng := λ A a e, Some (inr a, e).
#[export] Instance eng_bind : MBind Eng := λ A B f x e,
  match x e with
  | Some (inr a, e) => f a e
  | Some (inl error, e) => Some (inl error, e)
  | None => None
  end.

Definition fails {A} (error : HandleError) : Eng A := λ e, Some (inl error, e).

Definition now_millis : Eng Z := λ e,
  Some (inr (clock (eng_ticks e)), mkEngine (eng_shift e) (eng_route_mode e) (eng_shards e) (S (eng_ticks e))).

Definition route_key (key : Bytes) : Eng Z := λ e, Some (inr (engine_route (eng_route_mode e) (eng_shift e) key), e).
Definition route_key_hash (key_hash : Z) : Eng Z := λ e, Some (inr (route_hash_to_shard (eng_shift e) key_hash), e).

(** [EngineHandle::request]: the worker reads the clock once per operation. *)
Definition request (shard_id : Z) (op : ShardOperation) : Eng ShardReply := λ e,
  st ← eng_shards e !! Z.to_nat shard_id;
  '(result, st) ← execute st op (clock (eng_ticks e)) (instant (eng_ticks e)) (unique (eng_ticks e));
  Some (match result with inl error => inl (ShardFailed error) | inr reply => inr reply end,
        mkEngine (eng_shift e) (eng_route_mode e) (<[Z.to_nat shard_id := st]> (eng_shards e)) (S (eng_ticks e))).

(** [now_millis().saturating_add(ttl)]. *)
Definition relative_expire_at_ms (ttl_ms : Z) : Eng Z := now_ms ← now_millis; mret (u64_saturating_add now_ms ttl_ms).

(** [ttl_ms.map(|ttl| now_millis().saturating_add(ttl))]. *)
Definition optional_expire_at_ms (ttl_ms : option Z) : Eng (option Z) :=
  match ttl_ms with
  | Some ttl => at_ms ← relative_expire_at_ms ttl; mret (Some at_ms)
  | None => mret None
  end.

(** The shard of a read: by the hash that came with the request, or by the key. *)
Definition read_shard (key_hash : option Z) (key : Bytes) : Eng Z :=
  match key_hash with Some hash => route_key_hash hash | None => route_key key end.

(** ** SET, SETEX and PSETEX *)
Definition set_store_value (key_hash : option Z) (key value : Bytes) (ttl_ms : option Z) : Eng unit :=
  let key_hash := default (hash_key key) key_hash in
  shard ← route_key_hash key_hash;
  expire_at_ms ← optional_expire_at_ms ttl_ms;
  reply ← request shard (SSet key_hash (InlineKey key) (InlineValue value) expire_at_ms);
  match reply with ReplyOk => mret tt | _ => fails (UnexpectedReply (text "SET")) end.

Definition setex_store_value (key_hash : option Z) (key : Bytes) (ttl_ms : Z) (value : Bytes) : Eng unit :=
  let key_hash := default (hash_key key) key_hash in
  shard ← route_key_hash key_hash;
  expire_at_ms ← relative_expire_at_ms ttl_ms;
  reply ← request shard (SSet key_hash (InlineKey key) (InlineValue value) (Some expire_at_ms));
  match reply with ReplyOk => mret tt | _ => fails (UnexpectedReply (text "SETEX")) end.

(** SET from spans of an owned buffer: [store_spanned_value]. *)
Definition store_spanned_value (owner : Bytes) (key_range value_range : nat * nat) (ttl_ms : option Z) : Eng unit :=
  let key_hash := hash_key (slice owner key_range.1 key_range.2) in
  shard ← route_key_hash key_hash;
  expire_at_ms ← optional_expire_at_ms ttl_ms;
  reply ← request shard (SSet key_hash (key_from_owner owner key_range.1 key_range.2)
                           (value_from_owner owner value_range.1 value_range.2) expire_at_ms);
  match reply with ReplyOk => mret tt | _ => fails (UnexpectedReply (text "SET")) end.

(** ** GET and GETEX *)
Definition get_load_value (key_hash : option Z) (key : Bytes) : Eng (option Bytes) :=
  shard ← read_shard key_hash key;
  reply ← request shard (SGet key);
  match reply with ReplyValue value => mret value | _ => fails (UnexpectedReply (text "GET")) end.

Definition to_engine (expiration : GetExExpiration) : Eng ExpirationChange :=
  match expiration with
  | GetExKeep => mret Keep
  | GetExExpireIn ttl_ms => at_ms ← relative_expire_at_ms ttl_ms; mret (ExpireAt at_ms)
  | GetExPersist => mret Persist
  end.

Definition load_and_update (key_hash : option Z) (key : Bytes) (expiration : ExpirationChange) : Eng (option Bytes) :=
  let key_hash := default (hash_key key) key_hash in
  shard ← route_key_hash key_hash;
  reply ← request shard (SGetEx key_hash (InlineKey key) expiration);
  match reply with ReplyValue value => mret value | _ => fails (UnexpectedReply (text "GETEX")) end.

(** ** DEL and EXISTS *)
Definition delete_key (key_hash : option Z) (key : Bytes) : Eng bool :=
  let key_hash := default (hash_key key) key_hash in
  shard ← route_key_hash key_hash;
  reply ← request shard (SDelete key_hash (InlineKey key));
  match reply with
  | ReplyInteger deleted => mret (negb (deleted =? 0)%Z)
  | _ => fails (UnexpectedReply (text "DEL"))
  end.

Fixpoint delete_keys (deleted : Z) (keys : list Bytes) : Eng Z :=
  match keys with
  | [] => mret deleted
  | key :: keys => b ← delete_key None key; delete_keys (deleted + bool_as_i64 b) keys
  end.

Definition exists_integer (key_hash : option Z) (key : Bytes) : Eng Z :=
  shard ← read_shard key_hash key;
  reply ← request shard (SExists key);
  match reply with ReplyInteger value => mret value | _ => fails (UnexpectedReply (text "EXISTS")) end.

Fixpoint exists_keys (total : Z) (keys : list Bytes) : Eng Z :=
  match keys with
  | [] => mret total
  | key :: keys => n ← exists_integer None key; exists_keys (total + n) keys
  end.

(** ** Deadlines *)
Definition ttl_integer (key_hash : option Z) (key : Bytes) (millis : bool) : Eng Z :=
  shard ← read_shard key_hash key;
  reply ← request shard (STtl key millis);
  match reply with ReplyInteger value => mret value | _ => fails (UnexpectedReply (text "TTL")) end.

Definition expire_integer (key_hash : option Z) (key : Bytes) (expire_at_ms : Z) : Eng Z :=
  let key_hash := default (hash_key key) key_hash in
  shard ← route_key_hash key_hash;
  reply ← request shard (SExpire key_hash (InlineKey key) (Some expire_at_ms));
  match reply with ReplyInteger value => mret value | _ => fails (UnexpectedReply (text "EXPIRE")) end.

Definition persist_frame (key : Bytes) : Eng Frame :=
  let key_hash := hash_key key in
  shard ← route_key_hash key_hash;
  reply ← request shard (SExpire key_hash (InlineKey key) None);
  match reply with ReplyInteger value => mret (Integer value) | _ => fails (UnexpectedReply (text "PERSIST")) end.

(** ** A parsed command *)
Definition ok_frame : Frame := SimpleString (text "OK").
Definition value_frame (value : option Bytes) : Frame := match value with Some v => BlobString v | None => Null end.

Definition execute_engine (c : PointCommand) : Eng Frame :=
  match c with
  | PGet key => value ← get_load_value None key; mret (value_frame value)
  | PSet key value ttl_ms => _ ← set_store_value None key value ttl_ms; mret ok_frame
  | PDel keys => n ← delete_keys 0 keys; mret (Integer n)
  | PExists keys => n ← exists_keys 0 keys; mret (Integer n)
  | PTtl key => n ← ttl_integer None key false; mret (Integer n)
  | PPttl key => n ← ttl_integer None key true; mret (Integer n)
  | PExpire key ttl_ms _ | PPExpire key ttl_ms _ =>
      at_ms ← relative_expire_at_ms ttl_ms; n ← expire_integer None key at_ms; mret (Integer n)
  | PPersist key => persist_frame key
  | PGetEx key expiration =>
      change ← to_engine expiration; value ← load_and_update None key change; mret (value_frame value)
  | PSetEx key ttl_ms value | PPSetEx key ttl_ms value =>
      _ ← setex_store_value None key ttl_ms value; mret ok_frame
  end.

(** [BorrowedCommand::from_parts], then [execute_borrowed]. *)
Definition execute_parts (parts : list Bytes) : Eng Frame :=
  match parse_command parts with
  | inl error => fails (Invalid error)
  | inr c => execute_engine c
  end.

(** [execute_resp_owned_into]: the spans must be ordered and inside the buffer. *)
Fixpoint spans_ordered (previous_end : nat) (owner_len : nat) (spans : list (nat * nat)) : bool :=
  match spans with
  | [] => true
  | (span_start, span_end) :: spans =>
      negb ((span_start <? previous_end) || (span_end <? span_start) || (owner_len <? span_end))
      && spans_ordered span_end owner_len spans
  end.

Definition execute_resp_spanned (owner : Bytes) (spans : list (nat * nat)) : Eng Frame :=
  match spans with
  | [] => fails (Invalid EmptyCommand)
  | name_span :: _ =>
      let name := slice owner name_span.1 name_span.2 in
      if eq_ignore_ascii_case name (text "SET") then
        match arity_at_least (text "SET") (length spans) 3 (text "key and value") with
        | inl error => fails (Invalid error)
        | inr _ =>
            match parse_storage_options None (map (λ range, slice owner range.1 range.2) (drop 3 spans)) with
            | inl error => fails (Invalid error)
            | inr ttl_ms =>
                _ ← store_spanned_value owner (nth 1 spans (0, 0)) (nth 2 spans (0, 0)) ttl_ms; mret ok_frame
            end
        end
      else fails (UnsupportedSpanned name)
  end.

Definition execute_resp_owned (owner : Bytes) (spans : list (nat * nat)) : Eng Frame :=
  if spans_ordered 0 (length owner) spans then execute_resp_spanned owner spans else fails InvalidSpan.

(** ** The binary protocol *)
Definition ERR_UNSUPPORTED : Bytes := text "ERR unsupported command".

Section fast.
Context `{FloatOps}.

(** [FastResponse::from_redis_frame]. *)
Definition from_redis_frame (frame : Frame) : Outcome HandleError FastResponse :=
  let native := match encode_native_redis_frame frame with
                | Done bytes => Done (FRNativeFrame bytes)
                | Err error => Err (Unencodable error)
                | Panic | Incomplete => Panic
                end in
  match frame with
  | SimpleString value => if bytes_eqb value (text "OK") then Done FROk else native
  | BlobString value =>
      if (Z.of_nat (length value) <=? NATIVE_REDIS_MAX_BODY_BYTES)%Z then Done (FRValue value) else Err BodyTooLong
  | Integer value => Done (FRInteger value)
  | Null => Done FRNull
  | Boolean value => Done (FRBoolean value)
  | Double value => match f64_parse value with Some x => Done (FRFloat x) | None => Err InvalidDouble end
  | Error message => Done (FRError message)
  | _ => native
  end.

Definition value_response (value : option Bytes) : FastResponse :=
  match value with Some v => FRValue v | None => FRNull end.

(** [execute_fast]: the native commands are parsed like RESP ones; the others are
    found by their kind. *)
Definition execute_fast (r : FastRequest) : Eng FastResponse :=
  let key_hash := req_key_hash r in
  match req_command r with
  | FNativeRedisCommand command args =>
      frame ← execute_parts (command :: args);
      (match from_redis_frame frame with
      | Done response => mret response
      | Err error => fails error
      | Panic | Incomplete => λ _, None
      end : Eng FastResponse)
  | FGet key => value ← get_load_value key_hash key; mret (value_response value)
  | FSet key value => _ ← set_store_value key_hash key value None; mret FROk
  | FDelete key => b ← delete_key key_hash key; mret (FRInteger (bool_as_i64 b))
  | FExists key => n ← exists_integer key_hash key; mret (FRInteger n)
  | FTtl key => n ← ttl_integer key_hash key false; mret (FRInteger n)
  | FExpire key ttl_ms =>
      at_ms ← relative_expire_at_ms ttl_ms; n ← expire_integer key_hash key at_ms; mret (FRInteger n)
  | FGetEx key ttl_ms =>
      at_ms ← relative_expire_at_ms ttl_ms; value ← load_and_update key_hash key (ExpireAt at_ms);
      mret (value_response value)
  | FSetEx key value ttl_ms => _ ← setex_store_value key_hash key ttl_ms value; mret FROk
  | _ => mret (FRError ERR_UNSUPPORTED)
  end.
End fast.
End engine_commands.

(** [EngineHandle::open] without persistence: nothing recovered, no log. *)
Definition open_engine `{Hashing} {HT} `{!HashTable HT} {W} `{!WalSink W} (count : nat) (mode : EmbeddedRouteMode)
    (limit : option Z) (policy : EvictionPolicy) (now_ms : Z) : EngineHandle (HT := HT) (W := W) :=
  mkEngine (shift_for (Z.of_nat count)) mode
    ((λ i, worker_start i (shard_entries [] (shift_for (Z.of_nat count)) mode i) limit policy None now_ms now_ms) <$> seq 0 count) 0.
