(* ===== verification/EngineCommandProofs.v ===== *)
(** * Commands on the engine: the proofs

    Without a log and without a memory limit every operation of a shard is a
    step of one key of a plain map, and the engine, which finds the shard of a
    key by its hash, is that map spread over its shards. *)

From S2P Require Import Prelude Deps Helpers F64 Codec Wal Snapshot Recovery Segments WalPipeline Routing Resp FastKinds Fast Native FlatMap FlatMapProofs FlatEviction FlatRefine FlatRun Engine EngineProofs PointCommands EngineCommands.

(** ** What an operation does to its key *)
Definition live_entry (o : option StoredEntry) (now_ms : Z) : option StoredEntry :=
  match o with Some s => if s_expired s now_ms then None else Some s | None => None end.

Definition entry_ttl (o : option StoredEntry) (now_ms : Z) (millis : bool) : Z :=
  match live_entry o now_ms with
  | None => -2
  | Some s =>
      match e_expire_at_ms s with
      | None => -1
      | Some at_ms => wrap_i64 (if millis then at_ms - now_ms else div_ceil (at_ms - now_ms) 1000)
      end
  end%Z.

Definition op_key (op : ShardOperation) : Bytes :=
  match op with
  | SGet key | SExists key | STtl key _ => key
  | SGetEx _ key _ | SSet _ key _ _ | SDelete _ key | SExpire _ key _ => key_bytes key
  end.

Definition changed_by (c : ExpirationChange) (o : option StoredEntry) : option StoredEntry :=
  match c with
  | Keep => o
  | ExpireAt at_ms => with_deadline (Some at_ms) <$> o
  | Persist => with_deadline None <$> o
  end.

Definition is_some {A} (o : option A) : bool := match o with Some _ => true | None => false end.

(** Whether a change of deadline finds something to change. *)
Definition changes (c : ExpirationChange) (o : option StoredEntry) : bool :=
  match c with
  | Keep => false
  | ExpireAt _ => is_some o
  | Persist => match o with Some s => has_ttl (e_expire_at_ms s) | None => false end
  end.

Definition op_spec (o : option StoredEntry) (now_ms : Z) (op : ShardOperation) : ShardReply * option StoredEntry :=
  let live := live_entry o now_ms in
  match op with
  | SGet _ => (ReplyValue (live ≫= s_visible), live)
  | SGetEx _ _ c => (ReplyValue (live ≫= s_visible), if is_some (live ≫= s_visible) then changed_by c live else live)
  | SSet _ key value d => (ReplyOk, Some (mkEntry (key_bytes key) (value_bytes value) d None))
  | SDelete _ _ => (ReplyInteger (bool_as_i64 (is_some o)), None)
  | SExists _ => (ReplyInteger (bool_as_i64 (is_some (live ≫= s_visible))), live)
  | STtl _ millis => (ReplyInteger (entry_ttl o now_ms millis), live)
  | SExpire _ _ d =>
      let c := match d with Some at_ms => ExpireAt at_ms | None => Persist end in
      (ReplyInteger (bool_as_i64 (changes c live)), changed_by c live)
  end.

Definition op_weight (op : ShardOperation) : Z :=
  match op with
  | SSet _ key value d => s_weight (mkEntry (key_bytes key) (value_bytes value) d None)
  | _ => 0%Z
  end.

Abbreviation put key o := (partial_alter (λ _, o) key).

Lemma purge_put (S : Entries) key now_ms : purge S key now_ms = put key (live_entry (S !! key) now_ms) S.
Proof.
  apply map_eq. intros k. unfold purge, live_entry. destruct (decide (k = key)) as [->|Hne].
  - rewrite lookup_partial_alter_eq. destruct (S !! key) as [s|] eqn:E; [|done].
    destruct (s_expired s now_ms); [by rewrite lookup_delete_eq|done].
  - rewrite lookup_partial_alter_ne by done. destruct (S !! key) as [s|]; [|done].
    destruct (s_expired s now_ms); [by rewrite lookup_delete_ne|done].
Qed.

Lemma purge_lookup (S : Entries) key now_ms : purge S key now_ms !! key = live_entry (S !! key) now_ms.
Proof. by rewrite purge_put, lookup_partial_alter_eq. Qed.

Lemma put_put (S : Entries) key o o' : put key o' (put key o S) = put key o' S.
Proof. apply partial_alter_partial_alter_eq. Qed.

Lemma put_insert (S : Entries) key s : <[key := s]> S = put key (Some s) S.
Proof. done. Qed.

Lemma live_entry_idem o now_ms : live_entry (live_entry o now_ms) now_ms = live_entry o now_ms.
Proof. destruct o as [s|]; [|done]. simpl. destruct (s_expired s now_ms) eqn:E; simpl; [done|by rewrite E]. Qed.

Lemma with_deadline_id s : has_ttl (e_expire_at_ms s) = false → with_deadline None s = s.
Proof. destruct s as [k v [d|] g]; done. Qed.

Section shard.
Context `{Hashing} {HT : Type → Type} `{!HashTable HT} {W : Type} `{!WalSink W}.
Abbreviation FlatMap := (FlatMap (HT := HT)).
Abbreviation ShardState := (ShardState (HT := HT) (W := W)).
Implicit Types (m : FlatMap) (st : ShardState) (key : Bytes) (now_ms : Z).

(** A step that changes one key. *)
Record point key (o : option StoredEntry) (w : Z) m m' : Prop := {
  pt_ok : flat_ok m';
  pt_contents : contents m' = put key o (contents m);
  pt_limit : memory_limit_bytes m' = memory_limit_bytes m;
  pt_budget : (budget m' ≤ budget m + w)%Z;
}.

Lemma point_trans key o o' m m' m'' : point key o 0 m m' → point key o' 0 m' m'' → point key o' 0 m m''.
Proof. intros [? E ? ?] [? E' ? ?]. split; [done|by rewrite E', E, put_put|congruence|lia]. Qed.

Lemma quiet_point m now_ms r key o :
  flat_ok m → (0 ≤ now_ms)%Z → writes r = false → sheds r = false → request_weight (contents m) now_ms r = 0%Z →
  updates_in_place m r → (flat_spec (contents m) now_ms r).2 = put key o (contents m) →
  (flat_step m now_ms r).1 = (flat_spec (contents m) now_ms r).1 ∧ point key o 0 m (flat_step m now_ms r).2.
Proof.
  intros Hok Hn Hw Hs Hz Hu Es.
  destruct (flat_step_refined m now_ms r Hok) as (Ha & [? _ _ _ Hb] & Hc).
  { split; [done|]. split; [|done]. rewrite Hz. by apply quiet_room. }
  destruct (reads_calm m now_ms r Hok Hw) as [[El _] _]. split; [done|]. rewrite Hz in Hb.
  split; [done|by rewrite (Hc Hs)|done|done].
Qed.

Lemma wrote_point key s now_ms m m' :
  wrote key s now_ms m m' → memory_limit_bytes m = None → point key (Some s) (s_weight s) m m'.
Proof.
  intros (m1 & now0 & [Hok Ec _ Eb] & [El _] & _ & ->) E. rewrite enforce_below by by rewrite El, E. by split.
Qed.

Lemma get_point m key now_ms :
  flat_ok m → (0 ≤ now_ms)%Z →
  (flat_get m key now_ms).1 = live_entry (contents m !! key) now_ms ≫= s_visible ∧
  point key (live_entry (contents m !! key) now_ms) 0 m (flat_get m key now_ms).2.
Proof.
  intros Hok Hn.
  destruct (quiet_point m now_ms (RGet key) key (live_entry (contents m !! key) now_ms)) as [Ha Hp]; try done.
  { apply purge_put. }
  simpl in Ha, Hp. destruct (flat_get m key now_ms) as [v m']. simpl in *. injection Ha as ->.
  by rewrite purge_lookup.
Qed.

Lemma delete_point m key now_ms :
  flat_ok m → (0 ≤ now_ms)%Z →
  (delete_hashed m (hash_key key) key).1 = is_some (contents m !! key) ∧
  point key None 0 m (delete_hashed m (hash_key key) key).2.
Proof.
  intros Hok Hn. destruct (quiet_point m now_ms (RDelete key) key None) as [Ha Hp]; try done.
  simpl in Ha, Hp. unfold flat_delete in *. destruct (delete_hashed _ _ _) as [b m']. simpl in *.
  injection Ha as ->. split; [|done]. by destruct (contents m !! key).
Qed.

(** A change of deadline, with the flag that it changed something. *)
Lemma change_point m key (c : ExpirationChange) now_ms :
  flat_ok m → (0 ≤ now_ms)%Z →
  let '(changed, m') := match c with
                        | Keep => (false, m)
                        | ExpireAt at_ms => expire m key at_ms now_ms
                        | Persist => persist m key now_ms
                        end in
  let o := live_entry (contents m !! key) now_ms in
  c ≠ Keep → changed = changes c o ∧ point key (changed_by c o) 0 m m'.
Proof.
  intros Hok Hn. destruct c as [|at_ms|]; [done| |].
  - destruct (quiet_point m now_ms (RExpire key at_ms) key
      (with_deadline (Some at_ms) <$> live_entry (contents m !! key) now_ms)) as [Ha Hp]; try done.
    { simpl. rewrite purge_lookup. destruct (live_entry _ _) eqn:E; simpl; rewrite purge_put, E; [|done].
      apply put_put. }
    simpl in Ha, Hp. destruct (expire _ _ _ _) as [b m']. simpl in *. intros _. split; [|done].
    rewrite purge_lookup in Ha. by destruct (live_entry _ _); simplify_eq/=.
  - destruct (quiet_point m now_ms (RPersist key) key
      (with_deadline None <$> live_entry (contents m !! key) now_ms)) as [Ha Hp]; try done.
    { simpl. rewrite purge_lookup. destruct (live_entry _ _) as [s|] eqn:E; simpl; [|by rewrite purge_put, E].
      destruct (has_ttl _) eqn:Et; simpl; rewrite purge_put, E; [apply put_put|by rewrite with_deadline_id]. }
    simpl in Ha, Hp. destruct (persist _ _ _) as [b m']. simpl in *. intros _. split; [|done].
    rewrite purge_lookup in Ha. destruct (live_entry _ _) as [s|]; [|by simplify_eq/=].
    simpl. by destruct (has_ttl _); simplify_eq/=.
Qed.

(** An operation on a shard without a log and without a limit. *)
Lemma execute_point st op now_ms instant unique :
  flat_ok (sh_map st) → memory_limit_bytes (sh_map st) = None → sh_wal st = None → (0 ≤ now_ms)%Z →
  op_ok (sh_map st) op →
  ∃ st', execute st op now_ms instant unique = Some (inr (op_spec (contents (sh_map st) !! op_key op) now_ms op).1, st') ∧
    sh_wal st' = None ∧
    point (op_key op) (op_spec (contents (sh_map st) !! op_key op) now_ms op).2 (op_weight op) (sh_map st) (sh_map st').
Proof.
  intros Hok El Ew Hn Hop.
  destruct op as [key|h key c|h key value d|h key|key|key millis|h key d]; simpl in Hop; unfold execute; cbn [op_key].
  - destruct (get_point (sh_map st) key now_ms Hok Hn) as [Ha Hp].
    destruct (flat_get _ _ _) as [v m']. simpl in *. subst v. eauto.
  - destruct (get_point (sh_map st) (key_bytes key) now_ms Hok Hn) as [Ha Hp].
    destruct (flat_get _ _ _) as [v m'] eqn:Eg. simpl in *. subst v.
    set (o := live_entry (contents (sh_map st) !! key_bytes key) now_ms) in *.
    destruct (o ≫= s_visible) as [v|] eqn:Ev; simpl; [|eauto].
    case_bool_decide as Ek; [subst c; eauto|].
    pose proof (change_point m' (key_bytes key) c now_ms (pt_ok _ _ _ _ _ Hp) Hn) as Hc.
    unfold apply_expiration_change. simpl. rewrite Ew.
    destruct (match c with Keep => _ | ExpireAt _ => _ | Persist => _ end) as [b m'']. destruct (Hc Ek) as [-> Hp'].
    rewrite (pt_contents _ _ _ _ _ Hp), lookup_partial_alter_eq in Hp'. unfold o in Hp'. rewrite live_entry_idem in Hp'.
    pose proof (point_trans _ _ _ _ _ _ Hp Hp'). destruct (changes _ _); simpl; eauto.
  - destruct Hop as [-> Hb]. unfold set_and_append_wal. rewrite Ew. simpl. eexists. split; [done|]. split; [done|]. simpl.
    destruct value as [value|value]; simpl in *.
    + apply (wrote_point _ _ now_ms); [by apply set_slice_wrote|done].
    + apply (wrote_point _ _ now_ms); [by apply (set_bytes_wrote _ _ _ now_ms Hok None)|done].
  - subst h. destruct (delete_point (sh_map st) (key_bytes key) now_ms Hok Hn) as [Ha Hp].
    unfold delete_and_append_wal. destruct (delete_hashed _ _ _) as [b m']. simpl in *. rewrite Ew. subst b. simpl. eauto.
  - destruct (quiet_point (sh_map st) now_ms (RExists key) key (live_entry (contents (sh_map st) !! key) now_ms))
      as [Ha Hp]; try done; [apply purge_put|].
    simpl in Ha, Hp. destruct (flat_exists _ _ _) as [b m']. simpl in *. injection Ha as ->. rewrite purge_lookup.
    eexists. split; [done|]. done.
  - assert (∀ z m', (if millis then ttl_millis (sh_map st) key now_ms else ttl_seconds (sh_map st) key now_ms) = (z, m') →
      z = entry_ttl (contents (sh_map st) !! key) now_ms millis ∧
      point key (live_entry (contents (sh_map st) !! key) now_ms) 0 (sh_map st) m') as Ht.
    { intros z m' E.
      destruct (quiet_point (sh_map st) now_ms (if millis then RTtlMillis key else RTtlSeconds key) key
        (live_entry (contents (sh_map st) !! key) now_ms)) as [Ha Hp]; try by destruct millis.
      { destruct millis; apply purge_put. }
      unfold entry_ttl. destruct millis; simpl in Ha, Hp; rewrite E in Ha, Hp; simpl in Ha, Hp; injection Ha as ->;
        unfold s_ttl; by rewrite purge_lookup. }
    destruct (if millis then _ else _) as [z m']. destruct (Ht z m' eq_refl) as [-> Hp]. simpl. eauto.
  - subst h. unfold apply_expiration_change. simpl. rewrite Ew.
    pose proof (change_point (sh_map st) (key_bytes key) (match d with Some at_ms => ExpireAt at_ms | None => Persist end)
      now_ms Hok Hn) as Hc.
    destruct d as [d|]; simpl in *;
      match goal with |- context [let '(_, _) := ?x in _] => destruct x as [b m'] end;
      (destruct Hc as [-> Hp]; [done|]);
      match goal with |- context [if ?b then _ else _] => destruct b end; simpl; eauto.
Qed.
End shard.

(** ** The engine as one map *)

(** The abstract state: the map, and how often the clock has been read. *)
Definition Abs : Type := Entries * nat.

Section spec.
Context (clock : nat → Z).

Definition deadline_in (n : nat) (ttl_ms : Z) : Z := u64_saturating_add (clock n) ttl_ms.

Fixpoint exists_spec (total : Z) (keys : list Bytes) (s : Abs) : Z * Abs :=
  match keys with
  | [] => (total, s)
  | key :: keys =>
      let o := live_entry (s.1 !! key) (clock s.2) in
      exists_spec (total + bool_as_i64 (is_some (o ≫= s_visible))) keys (put key o s.1, S s.2)
  end.

(** NX, XX, GT and LT of EXPIRE and PEXPIRE against the deadline of the key: no
    deadline counts as later than any. *)
Definition condition_met (condition : ExpireCondition) (current : option Z) (new : Z) : bool :=
  match condition, current with
  | ExAlways, _ => true
  | ExNx, None => true
  | ExNx, Some _ => false
  | ExXx, Some _ => true
  | ExXx, None => false
  | ExGt, Some at_ms => (at_ms <? new)%Z
  | ExGt, None => false
  | ExLt, Some at_ms => (new <? at_ms)%Z
  | ExLt, None => true
  end.

Definition point_spec (c : PointCommand) (s : Abs) : Frame * Abs :=
  let '(M, n) := s in
  match c with
  | PGet key => let o := live_entry (M !! key) (clock n) in (value_frame (o ≫= s_visible), (put key o M, S n))
  | PSet key value None => (ok_frame, (<[key := mkEntry key value None None]> M, S n))
  | PSet key value (Some ttl_ms) | PSetEx key ttl_ms value | PPSetEx key ttl_ms value =>
      (ok_frame, (<[key := mkEntry key value (Some (deadline_in n ttl_ms)) None]> M, S (S n)))
  | PDel keys =>
      (Integer (Z.of_nat (size (dom M ∩ list_to_set keys : gset Bytes))), (foldr delete M keys, n + length keys))
  | PExists keys => let '(total, s) := exists_spec 0 keys s in (Integer total, s)
  | PTtl key => (Integer (entry_ttl (M !! key) (clock n) false), (put key (live_entry (M !! key) (clock n)) M, S n))
  | PPttl key => (Integer (entry_ttl (M !! key) (clock n) true), (put key (live_entry (M !! key) (clock n)) M, S n))
  | PExpire key ttl_ms condition | PPExpire key ttl_ms condition =>
      let o := live_entry (M !! key) (clock (S n)) in
      let met := match o with Some s => condition_met condition (e_expire_at_ms s) (deadline_in n ttl_ms) | None => false end in
      (Integer (bool_as_i64 met), (put key (if met then with_deadline (Some (deadline_in n ttl_ms)) <$> o else o) M, S (S n)))
  | PPersist key =>
      let o := live_entry (M !! key) (clock n) in
      (Integer (bool_as_i64 (changes Persist o)), (put key (changed_by Persist o) M, S n))
  | PGetEx key expiration =>
      let '(c, n) := match expiration with
                     | GetExKeep => (Keep, n)
                     | GetExExpireIn ttl_ms => (ExpireAt (deadline_in n ttl_ms), S n)
                     | GetExPersist => (Persist, n)
                     end in
      let o := live_entry (M !! key) (clock n) in
      (value_frame (o ≫= s_visible), (put key (if is_some (o ≫= s_visible) then changed_by c o else o) M, S n))
  end.

Definition command_weight (c : PointCommand) : Z :=
  match c with
  | PSet key value _ | PSetEx key _ value | PPSetEx key _ value => s_weight (mkEntry key value None None)
  | _ => 0%Z
  end.

(** EXPIRE and PEXPIRE without NX, XX, GT or LT. *)
Definition command_unconditional (c : PointCommand) : Prop :=
  match c with PExpire _ _ condition | PPExpire _ _ condition => condition = ExAlways | _ => True end.

Definition unconditional (parts : list Bytes) : Prop :=
  match parse_command parts with inl _ => True | inr c => command_unconditional c end.

(** A command as it arrives: an error of the parser changes nothing. *)
Definition parts_spec (parts : list Bytes) (s : Abs) : (HandleError + Frame) * Abs :=
  match parse_command parts with
  | inl error => (inl (Invalid error), s)
  | inr c => let '(frame, s) := point_spec c s in (inr frame, s)
  end.

Definition parts_weight (parts : list Bytes) : Z :=
  match parse_command parts with inl _ => 0%Z | inr c => command_weight c end.

Fixpoint spec_run (s : Abs) (commands : list (list Bytes)) : list (HandleError + Frame) * Abs :=
  match commands with
  | [] => ([], s)
  | parts :: commands =>
      let '(answer, s) := parts_spec parts s in let '(answers, s) := spec_run s commands in (answer :: answers, s)
  end.
End spec.

Section engine.
Context `{Hashing} {HT : Type → Type} `{!HashTable HT} {W : Type} `{!WalSink W}.
Context (clock instant : nat → Z) (unique : nat → bool) (Hclock : ∀ n, (0 ≤ clock n)%Z).
Context (k : Z) (Hk : (0 ≤ k < 57)%Z).
Abbreviation EngineHandle := (EngineHandle (HT := HT) (W := W)).
Abbreviation Eng := (Eng (HT := HT) (W := W)).
Abbreviation ShardState := (ShardState (HT := HT) (W := W)).
Implicit Types (e : EngineHandle).

Definition home (key : Bytes) : nat := Z.to_nat (stripe_index (hash_key key) (64 - k)).

Definition shard_ok (B : Z) (st : ShardState) : Prop :=
  flat_ok (sh_map st) ∧ memory_limit_bytes (sh_map st) = None ∧ sh_wal st = None ∧ (budget (sh_map st) ≤ B)%Z.

Record engine_ok e (M : Entries) (B : Z) : Prop := {
  eo_shift : eng_shift e = (64 - k)%Z;
  eo_mode : eng_route_mode e = FullKey;
  eo_length : Z.of_nat (length (eng_shards e)) = (2 ^ k)%Z;
  eo_shards : Forall (shard_ok B) (eng_shards e);
  eo_map : ∀ key st, eng_shards e !! home key = Some st → contents (sh_map st) !! key = M !! key;
}.

Lemma home_shard e M B key : engine_ok e M B → ∃ st, eng_shards e !! home key = Some st ∧ shard_ok B st.
Proof.
  intros [_ _ Hl Hs _]. pose proof (stripe_index_lt (hash_key key) k Hk).
  destruct (lookup_lt_is_Some_2 (eng_shards e) (home key)) as [st Hst]; [unfold home; lia|].
  exists st. split; [done|]. by eapply Forall_lookup_1 in Hs.
Qed.

(** The code [x] answers as the abstract [f] says. *)
Definition simulates {A} (x : Eng A) (f : Abs → A * Abs) (w : Z) : Prop :=
  ∀ e M B, engine_ok e M B → (B + w ≤ u64_MAX)%Z →
  ∃ e', x e = Some (inr (f (M, eng_ticks e)).1, e') ∧ engine_ok e' (f (M, eng_ticks e)).2.1 (B + w) ∧
        eng_ticks e' = (f (M, eng_ticks e)).2.2.

Lemma simulates_ret {A} (a : A) : simulates (mret a) (λ s, (a, s)) 0.
Proof. intros e M B Hok _. exists e. rewrite Z.add_0_r. done. Qed.

Lemma simulates_bind {A C} (x : Eng A) (y : A → Eng C) f g (w1 w2 : Z) :
  (0 ≤ w2)%Z → simulates x f w1 → (∀ s, simulates (y (f s).1) (g (f s).1) w2) →
  simulates (x ≫= y) (λ s, g (f s).1 (f s).2) (w1 + w2).
Proof.
  intros Hw Hx Hy e M B Hok Hb. destruct (Hx e M B Hok ltac:(lia)) as (e1 & E1 & Hok1 & Et1).
  destruct (Hy (M, eng_ticks e) e1 _ _ Hok1 ltac:(lia)) as (e2 & E2 & Hok2 & Et2).
  exists e2. unfold mbind, eng_bind. rewrite E1, E2. rewrite Et1, <- surjective_pairing in *. rewrite Z.add_assoc. done.
Qed.

Lemma simulates_ext {A} (x : Eng A) f g w : (∀ s, f s = g s) → simulates x f w → simulates x g w.
Proof. intros E Hx e M B Hok Hb. rewrite <- E. by apply Hx. Qed.

Definition hash_ok (op : ShardOperation) : Prop :=
  match op with
  | SSet h key _ _ | SDelete h key | SGetEx h key _ | SExpire h key _ => h = hash_key (key_bytes key)
  | _ => True
  end.

Definition spec_request (op : ShardOperation) (s : Abs) : ShardReply * Abs :=
  let '(reply, o) := op_spec (s.1 !! op_key op) (clock s.2) op in (reply, (put (op_key op) o s.1, S s.2)).

Lemma op_weight_nonneg op : (0 ≤ op_weight op)%Z.
Proof. destruct op; try done. apply s_weight_nonneg. Qed.

Lemma simulates_request op :
  hash_ok op →
  simulates (request clock instant unique (stripe_index (hash_key (op_key op)) (64 - k)) op) (spec_request op) (op_weight op).
Proof.
  intros Hh e M B Hok Hb. pose proof (home_shard e M B (op_key op) Hok) as (st & Hst & Hf & El & Ew & HB).
  pose proof (eo_map _ _ _ Hok _ _ Hst) as Em. pose proof (op_weight_nonneg op).
  destruct (execute_point st op (clock (eng_ticks e)) (instant (eng_ticks e)) (unique (eng_ticks e)) Hf El Ew (Hclock _))
    as (st' & He & Ew' & Hp).
  { destruct op; simpl in *; try done. split; [done|lia]. }
  unfold request. fold (home (op_key op)). rewrite Hst. simpl. rewrite He. simpl. rewrite Em in *.
  unfold spec_request. simpl. destruct (op_spec (M !! op_key op) (clock (eng_ticks e)) op) as [reply o]. simpl in *.
  eexists. split; [done|]. split; [|done]. destruct Hok as [E1 E2 E3 E4 E5], Hp as [Hf' Ec El' Hb']. split; simpl; try done.
  - by rewrite length_insert.
  - apply Forall_insert; [|split; [done|split; [congruence|split; [done|lia]]]].
    eapply Forall_impl; [done|]. intros st0 (? & ? & ? & ?). split; [done|]. split; [done|]. split; [done|lia].
  - intros key st0 Hst0. destruct (decide (home key = home (op_key op))) as [Eh|Hne].
    + rewrite Eh, list_lookup_insert_eq in Hst0 by by eapply lookup_lt_Some. simplify_eq. rewrite Ec.
      destruct (decide (key = op_key op)) as [->|Hk']; [by rewrite !lookup_partial_alter_eq|].
      rewrite !lookup_partial_alter_ne by done. apply E5. by rewrite Eh.
    + rewrite list_lookup_insert_ne in Hst0 by done. rewrite lookup_partial_alter_ne; [by apply E5|congruence].
Qed.

Lemma simulates_now : simulates (now_millis clock) (λ s, (clock s.2, (s.1, S s.2))) 0.
Proof. intros e M B [] _. eexists. split; [done|]. simpl. rewrite Z.add_0_r. by split. Qed.

Lemma simulates_route_hash key :
  simulates (route_key_hash (hash_key key)) (λ s, (stripe_index (hash_key key) (64 - k), s)) 0.
Proof.
  intros e M B Hok _. exists e. rewrite Z.add_0_r. unfold route_key_hash, route_hash_to_shard.
  by rewrite (eo_shift _ _ _ Hok).
Qed.

Lemma simulates_route key : simulates (route_key key) (λ s, (stripe_index (hash_key key) (64 - k), s)) 0.
Proof.
  intros e M B Hok _. exists e. rewrite Z.add_0_r. unfold route_key, engine_route.
  by rewrite (eo_shift _ _ _ Hok), (eo_mode _ _ _ Hok).
Qed.

(** *** Combinators *)
Lemma simulates_after {A C} (x : Eng A) (y : A → Eng C) f g w :
  (0 ≤ w)%Z → simulates x f 0 → (∀ s, simulates (y (f s).1) (g (f s).1) w) →
  simulates (x ≫= y) (λ s, g (f s).1 (f s).2) w.
Proof. intros. rewrite <- (Z.add_0_l w). by apply (simulates_bind x y f g 0 w). Qed.

Lemma simulates_map {A C} (x : Eng A) (h : A → C) f w :
  simulates x f w → simulates (a ← x; mret (h a)) (λ s, (h (f s).1, (f s).2)) w.
Proof.
  intros Hx. rewrite <- (Z.add_0_r w). apply (simulates_bind x (λ a, mret (h a)) f (λ a s, (h a, s)) w 0); [done|done|].
  intros s. apply simulates_ret.
Qed.

(** An operation and the reading of its reply. *)
Lemma simulates_reply {A} op (finish : ShardReply → Eng A) (g : ShardReply → A) :
  hash_ok op → (∀ o now_ms, finish (op_spec o now_ms op).1 = mret (g (op_spec o now_ms op).1)) →
  simulates (reply ← request clock instant unique (stripe_index (hash_key (op_key op)) (64 - k)) op; finish reply)
    (λ s, (g (spec_request op s).1, (spec_request op s).2)) (op_weight op).
Proof.
  intros Hh Hf. rewrite <- (Z.add_0_r (op_weight op)).
  apply (simulates_bind _ finish (spec_request op) (λ reply s, (g reply, s)) (op_weight op) 0); [done|by apply simulates_request|].
  intros s. assert ((spec_request op s).1 = (op_spec (s.1 !! op_key op) (clock s.2) op).1) as ->.
  { unfold spec_request. by destruct (op_spec _ _ _). }
  rewrite Hf. apply simulates_ret.
Qed.

Lemma simulates_routed {A} (route : Eng Z) op (finish : ShardReply → Eng A) (g : ShardReply → A) :
  hash_ok op → simulates route (λ s, (stripe_index (hash_key (op_key op)) (64 - k), s)) 0 →
  (∀ o now_ms, finish (op_spec o now_ms op).1 = mret (g (op_spec o now_ms op).1)) →
  simulates (shard ← route; reply ← request clock instant unique shard op; finish reply)
    (λ s, (g (spec_request op s).1, (spec_request op s).2)) (op_weight op).
Proof.
  intros Hh Hr Hf. exact (simulates_after route (λ shard, reply ← request clock instant unique shard op; finish reply)
    (λ s, (stripe_index (hash_key (op_key op)) (64 - k), s)) (λ _ s, (g (spec_request op s).1, (spec_request op s).2))
    (op_weight op) (op_weight_nonneg op) Hr (λ _, simulates_reply op finish g Hh Hf)).
Qed.

(** The same with a deadline computed in between. *)
Lemma simulates_timed {T A} key (deadline : Eng T) fd (op : T → ShardOperation) (finish : ShardReply → Eng A) g w :
  (∀ d, hash_ok (op d) ∧ op_key (op d) = key ∧ op_weight (op d) = w) → simulates deadline fd 0 → (0 ≤ w)%Z →
  (∀ d o now_ms, finish (op_spec o now_ms (op d)).1 = mret (g (op_spec o now_ms (op d)).1)) →
  simulates (shard ← route_key_hash (hash_key key); d ← deadline;
             reply ← request clock instant unique shard (op d); finish reply)
    (λ s, (g (spec_request (op (fd s).1) (fd s).2).1, (spec_request (op (fd s).1) (fd s).2).2)) w.
Proof.
  intros Hop Hd Hw Hf.
  exact (simulates_after (route_key_hash (hash_key key))
    (λ shard, d ← deadline; reply ← request clock instant unique shard (op d); finish reply)
    (λ s, (stripe_index (hash_key key) (64 - k), s))
    (λ _ s, (g (spec_request (op (fd s).1) (fd s).2).1, (spec_request (op (fd s).1) (fd s).2).2)) w Hw
    (simulates_route_hash key)
    (λ _, simulates_after deadline
      (λ d, reply ← request clock instant unique (stripe_index (hash_key key) (64 - k)) (op d); finish reply) fd
      (λ d s, (g (spec_request (op d) s).1, (spec_request (op d) s).2)) w Hw Hd
      (λ s, ltac:(destruct (Hop (fd s).1) as (Hh & <- & <-); exact (simulates_reply _ finish g Hh (Hf _)))))).
Qed.

Lemma simulates_relative ttl_ms :
  simulates (relative_expire_at_ms clock ttl_ms) (λ s, (deadline_in clock s.2 ttl_ms, (s.1, S s.2))) 0.
Proof. exact (simulates_map (now_millis clock) (λ now_ms, u64_saturating_add now_ms ttl_ms) _ 0 simulates_now). Qed.

Lemma simulates_optional ttl_ms :
  simulates (optional_expire_at_ms clock ttl_ms)
    (λ s, match ttl_ms with
          | Some ttl => (Some (deadline_in clock s.2 ttl), (s.1, S s.2))
          | None => (None, s)
          end) 0.
Proof.
  destruct ttl_ms as [ttl|]; [|exact (simulates_ret None)].
  exact (simulates_map (relative_expire_at_ms clock ttl) Some _ 0 (simulates_relative ttl)).
Qed.

(** *** The commands *)
Lemma simulates_get key :
  simulates (get_load_value clock instant unique None key)
    (λ s, let o := live_entry (s.1 !! key) (clock s.2) in (o ≫= s_visible, (put key o s.1, S s.2))) 0.
Proof.
  exact (simulates_routed (route_key key) (SGet key) _ (λ r, match r with ReplyValue v => v | _ => None end) I
    (simulates_route key) (λ _ _, eq_refl)).
Qed.

Lemma simulates_set key value ttl_ms :
  simulates (set_store_value clock instant unique None key value ttl_ms)
    (λ s, let '(d, s) := match ttl_ms with
                         | Some ttl => (Some (deadline_in clock s.2 ttl), (s.1, S s.2))
                         | None => (None, s)
                         end in
          (tt, (<[key := mkEntry key value d None]> s.1, S s.2)))
    (s_weight (mkEntry key value None None)).
Proof.
  eapply simulates_ext; [|exact (simulates_timed key (optional_expire_at_ms clock ttl_ms) _
    (λ d, SSet (hash_key key) (InlineKey key) (InlineValue value) d) _ (λ _, tt) (s_weight (mkEntry key value None None))
    (λ d, conj eq_refl (conj eq_refl eq_refl)) (simulates_optional ttl_ms) (s_weight_nonneg _) (λ _ _ _, eq_refl))].
  intros s. by destruct ttl_ms.
Qed.

Lemma simulates_setex key ttl_ms value :
  simulates (setex_store_value clock instant unique None key ttl_ms value)
    (λ s, (tt, (<[key := mkEntry key value (Some (deadline_in clock s.2 ttl_ms)) None]> s.1, S (S s.2))))
    (s_weight (mkEntry key value None None)).
Proof.
  exact (simulates_timed key (relative_expire_at_ms clock ttl_ms) _
    (λ d, SSet (hash_key key) (InlineKey key) (InlineValue value) (Some d)) _ (λ _, tt) (s_weight (mkEntry key value None None))
    (λ d, conj eq_refl (conj eq_refl eq_refl)) (simulates_relative ttl_ms) (s_weight_nonneg _) (λ _ _ _, eq_refl)).
Qed.

Lemma simulates_getex key c :
  simulates (load_and_update clock instant unique None key c)
    (λ s, let o := live_entry (s.1 !! key) (clock s.2) in
          (o ≫= s_visible, (put key (if is_some (o ≫= s_visible) then changed_by c o else o) s.1, S s.2))) 0.
Proof.
  exact (simulates_routed (route_key_hash (hash_key key)) (SGetEx (hash_key key) (InlineKey key) c) _
    (λ r, match r with ReplyValue v => v | _ => None end) eq_refl (simulates_route_hash key) (λ _ _, eq_refl)).
Qed.

Lemma simulates_ttl key millis :
  simulates (ttl_integer clock instant unique None key millis)
    (λ s, (entry_ttl (s.1 !! key) (clock s.2) millis, (put key (live_entry (s.1 !! key) (clock s.2)) s.1, S s.2))) 0.
Proof.
  exact (simulates_routed (route_key key) (STtl key millis) _ (λ r, match r with ReplyInteger n => n | _ => 0%Z end) I
    (simulates_route key) (λ _ _, eq_refl)).
Qed.

Lemma simulates_exists key :
  simulates (exists_integer clock instant unique None key)
    (λ s, let o := live_entry (s.1 !! key) (clock s.2) in
          (bool_as_i64 (is_some (o ≫= s_visible)), (put key o s.1, S s.2))) 0.
Proof.
  exact (simulates_routed (route_key key) (SExists key) _ (λ r, match r with ReplyInteger n => n | _ => 0%Z end) I
    (simulates_route key) (λ _ _, eq_refl)).
Qed.

Lemma simulates_exists_keys keys total :
  simulates (exists_keys clock instant unique total keys) (exists_spec clock total keys) 0.
Proof.
  revert total. induction keys as [|key keys IH]; intros total; [exact (simulates_ret total)|].
  exact (simulates_after (exists_integer clock instant unique None key)
    (λ n, exists_keys clock instant unique (total + n) keys) _ (λ n s, exists_spec clock (total + n) keys s) 0
    ltac:(done) (simulates_exists key) (λ s, IH _)).
Qed.

Lemma simulates_expire key at_ms :
  simulates (expire_integer clock instant unique None key at_ms)
    (λ s, let o := live_entry (s.1 !! key) (clock s.2) in
          (bool_as_i64 (is_some o), (put key (with_deadline (Some at_ms) <$> o) s.1, S s.2))) 0.
Proof.
  exact (simulates_routed (route_key_hash (hash_key key)) (SExpire (hash_key key) (InlineKey key) (Some at_ms)) _
    (λ r, match r with ReplyInteger n => n | _ => 0%Z end) eq_refl (simulates_route_hash key) (λ _ _, eq_refl)).
Qed.

Lemma simulates_persist key :
  simulates (persist_frame clock instant unique key)
    (λ s, let o := live_entry (s.1 !! key) (clock s.2) in
          (Integer (bool_as_i64 (changes Persist o)), (put key (changed_by Persist o) s.1, S s.2))) 0.
Proof.
  exact (simulates_routed (route_key_hash (hash_key key)) (SExpire (hash_key key) (InlineKey key) None) _
    (λ r, match r with ReplyInteger n => Integer n | _ => Null end) eq_refl (simulates_route_hash key) (λ _ _, eq_refl)).
Qed.

Lemma simulates_delete key :
  simulates (delete_key clock instant unique None key)
    (λ s, (is_some (s.1 !! key), (delete key s.1, S s.2))) 0.
Proof.
  eapply simulates_ext; [|exact (simulates_routed (route_key_hash (hash_key key)) (SDelete (hash_key key) (InlineKey key)) _
    (λ r, match r with ReplyInteger n => negb (n =? 0)%Z | _ => false end) eq_refl (simulates_route_hash key)
    (λ _ _, eq_refl))].
  intros [M n]. unfold spec_request. simpl. by destruct (M !! key).
Qed.

(** Deleting keys one by one counts the distinct ones that are there. *)
Lemma dom_cons_size (M : Entries) key keys :
  size (dom M ∩ list_to_set (key :: keys) : gset Bytes) =
  (if is_some (M !! key) then 1 else 0) + size (dom (delete key M) ∩ list_to_set keys : gset Bytes).
Proof.
  rewrite dom_delete_L. simpl. destruct (M !! key) as [s|] eqn:E; simpl.
  - assert (key ∈ dom M) as Hin by by eapply elem_of_dom_2.
    replace (dom M ∩ ({[key]} ∪ list_to_set keys)) with ({[key]} ∪ (dom M ∖ {[key]} ∩ list_to_set keys) : gset Bytes).
    + rewrite size_union, size_singleton by set_solver. done.
    + apply set_eq. intros x. destruct (decide (x = key)); set_solver.
  - assert (key ∉ dom M) as Hin by by apply not_elem_of_dom. f_equal. set_solver.
Qed.

Lemma foldr_delete (M : Entries) key keys : foldr delete (delete key M) keys = delete key (foldr delete M keys).
Proof. induction keys as [|key' keys IH]; [done|]. simpl. by rewrite IH, delete_delete. Qed.

Lemma simulates_delete_keys keys deleted :
  simulates (delete_keys clock instant unique deleted keys)
    (λ s, ((deleted + Z.of_nat (size (dom s.1 ∩ list_to_set keys : gset Bytes)))%Z,
           (foldr delete s.1 keys, s.2 + length keys))) 0.
Proof.
  revert deleted. induction keys as [|key keys IH]; intros deleted.
  - eapply simulates_ext; [|exact (simulates_ret deleted)]. intros [M n]. simpl.
    rewrite (right_absorb_L ∅ (∩)), size_empty. f_equal; [lia|]. by rewrite Nat.add_0_r.
  - eapply simulates_ext; [|exact (simulates_after (delete_key clock instant unique None key)
      (λ b, delete_keys clock instant unique (deleted + bool_as_i64 b) keys) _
      (λ b s, ((deleted + bool_as_i64 b + Z.of_nat (size (dom s.1 ∩ list_to_set keys : gset Bytes)))%Z,
               (foldr delete s.1 keys, s.2 + length keys))) 0 ltac:(done) (simulates_delete key) (λ s, IH _))].
    intros [M n]. cbn [fst snd]. rewrite dom_cons_size. cbn [foldr length]. rewrite foldr_delete.
    apply (f_equal2 pair); [|apply (f_equal2 pair); [done|lia]]. destruct (is_some _); simpl; lia.
Qed.

Lemma simulates_to_engine expiration :
  simulates (to_engine clock expiration)
    (λ s, match expiration with
          | GetExKeep => (Keep, s)
          | GetExExpireIn ttl_ms => (ExpireAt (deadline_in clock s.2 ttl_ms), (s.1, S s.2))
          | GetExPersist => (Persist, s)
          end) 0.
Proof.
  destruct expiration as [|ttl_ms|]; [exact (simulates_ret Keep)| |exact (simulates_ret Persist)].
  exact (simulates_map (relative_expire_at_ms clock ttl_ms) ExpireAt _ 0 (simulates_relative ttl_ms)).
Qed.

Lemma simulates_expire_in key ttl_ms :
  simulates (at_ms ← relative_expire_at_ms clock ttl_ms; n ← expire_integer clock instant unique None key at_ms; mret (Integer n))
    (λ s, let o := live_entry (s.1 !! key) (clock (S s.2)) in
          (Integer (bool_as_i64 (is_some o)),
           (put key (with_deadline (Some (deadline_in clock s.2 ttl_ms)) <$> o) s.1, S (S s.2)))) 0.
Proof.
  exact (simulates_after (relative_expire_at_ms clock ttl_ms)
    (λ at_ms, n ← expire_integer clock instant unique None key at_ms; mret (Integer n))
    (λ s, (deadline_in clock s.2 ttl_ms, (s.1, S s.2)))
    (λ at_ms s, let o := live_entry (s.1 !! key) (clock s.2) in
       (Integer (bool_as_i64 (is_some o)), (put key (with_deadline (Some at_ms) <$> o) s.1, S s.2))) 0
    ltac:(done) (simulates_relative ttl_ms) (λ s, simulates_map _ Integer _ 0 (simulates_expire key _))).
Qed.

Lemma simulates_getex_frame key x :
  simulates (c ← to_engine clock x; v ← load_and_update clock instant unique None key c; mret (value_frame v))
    (point_spec clock (PGetEx key x)) 0.
Proof.
  eapply simulates_ext; [|exact (simulates_after (to_engine clock x)
    (λ c, v ← load_and_update clock instant unique None key c; mret (value_frame v)) _
    (λ c s, let o := live_entry (s.1 !! key) (clock s.2) in
       (value_frame (o ≫= s_visible), (put key (if is_some (o ≫= s_visible) then changed_by c o else o) s.1, S s.2))) 0
    ltac:(done) (simulates_to_engine x) (λ s, simulates_map _ value_frame _ 0 (simulates_getex key _)))].
  intros [M n]. by destruct x.
Qed.

Lemma simulates_command c :
  command_unconditional c → simulates (execute_engine clock instant unique c) (point_spec clock c) (command_weight c).
Proof.
  intros Hc. destruct c as [key|key value ttl_ms|keys|keys|key|key|key ttl_ms cond|key ttl_ms cond|key|key x|key ttl_ms value|key ttl_ms value];
    cbn [execute_engine command_weight].
  - eapply simulates_ext; [|exact (simulates_map _ value_frame _ 0 (simulates_get key))]. by intros [M n].
  - eapply simulates_ext; [|exact (simulates_map _ (λ _, ok_frame) _ _ (simulates_set key value ttl_ms))].
    intros [M n]. by destruct ttl_ms.
  - eapply simulates_ext; [|exact (simulates_map _ Integer _ 0 (simulates_delete_keys keys 0))]. by intros [M n].
  - eapply simulates_ext; [|exact (simulates_map _ Integer _ 0 (simulates_exists_keys keys 0))].
    intros [M n]. unfold point_spec. by destruct (exists_spec _ _ _ _).
  - eapply simulates_ext; [|exact (simulates_map _ Integer _ 0 (simulates_ttl key false))]. by intros [M n].
  - eapply simulates_ext; [|exact (simulates_map _ Integer _ 0 (simulates_ttl key true))]. by intros [M n].
  - eapply simulates_ext; [|exact (simulates_expire_in key ttl_ms)].
    intros [M n]. cbn in Hc. subst cond. simpl. by destruct (live_entry (M !! key) (clock (S n))).
  - eapply simulates_ext; [|exact (simulates_expire_in key ttl_ms)].
    intros [M n]. cbn in Hc. subst cond. simpl. by destruct (live_entry (M !! key) (clock (S n))).
  - eapply simulates_ext; [|exact (simulates_persist key)]. by intros [M n].
  - exact (simulates_getex_frame key x).
  - eapply simulates_ext; [|exact (simulates_map _ (λ _, ok_frame) _ _ (simulates_setex key ttl_ms value))]. by intros [M n].
  - eapply simulates_ext; [|exact (simulates_map _ (λ _, ok_frame) _ _ (simulates_setex key ttl_ms value))]. by intros [M n].
Qed.

Lemma simulates_parts parts e M B :
  unconditional parts → engine_ok e M B → (B + parts_weight parts ≤ u64_MAX)%Z →
  ∃ e', execute_parts clock instant unique parts e = Some ((parts_spec clock parts (M, eng_ticks e)).1, e') ∧
    engine_ok e' (parts_spec clock parts (M, eng_ticks e)).2.1 (B + parts_weight parts) ∧
    eng_ticks e' = (parts_spec clock parts (M, eng_ticks e)).2.2.
Proof.
  intros Hu Hok. unfold unconditional in Hu. unfold execute_parts, parts_spec, parts_weight. destruct (parse_command parts) as [error|c]; intros Hb.
  - exists e. rewrite Z.add_0_r. done.
  - destruct (simulates_command c Hu e M B Hok Hb) as (e' & E & Hok' & Et). exists e'.
    destruct (point_spec clock c (M, eng_ticks e)) as [frame s]. done.
Qed.

(** Commands one after the other. *)
Fixpoint engine_run e (commands : list (list Bytes)) : option (list (HandleError + Frame) * EngineHandle) :=
  match commands with
  | [] => Some ([], e)
  | parts :: commands =>
      '(answer, e) ← execute_parts clock instant unique parts e;
      '(answers, e) ← engine_run e commands; Some (answer :: answers, e)
  end.

Lemma parts_weight_nonneg parts : (0 ≤ parts_weight parts)%Z.
Proof.
  unfold parts_weight. destruct (parse_command parts) as [|c]; [done|]. destruct c; try done; apply s_weight_nonneg.
Qed.

Lemma engine_run_spec commands e M B :
  Forall unconditional commands → engine_ok e M B → (B + sum_of parts_weight commands ≤ u64_MAX)%Z →
  ∃ e', engine_run e commands = Some ((spec_run clock (M, eng_ticks e) commands).1, e') ∧
    engine_ok e' (spec_run clock (M, eng_ticks e) commands).2.1 (B + sum_of parts_weight commands).
Proof.
  intros Hu. revert e M B. induction Hu as [|parts commands Hp Hu IH]; intros e M B Hok Hb; cbn [engine_run spec_run].
  - exists e. simpl. by rewrite Z.add_0_r.
  - cbn [sum_of foldr] in Hb |- *. fold (sum_of parts_weight commands) in Hb |- *.
    pose proof (sum_of_nonneg parts_weight commands (λ x _, parts_weight_nonneg x)).
    destruct (simulates_parts parts e M B Hp Hok ltac:(lia)) as (e1 & E1 & Hok1 & Et1). rewrite E1. simpl.
    destruct (parts_spec clock parts (M, eng_ticks e)) as [answer s]. simpl in *.
    destruct (IH e1 s.1 _ Hok1 ltac:(lia)) as (e2 & E2 & Hok2). rewrite Et1, <- surjective_pairing in *.
    exists e2. rewrite E2. simpl. destruct (spec_run clock s commands) as [answers s']. simpl in *.
    split; [done|]. by rewrite Z.add_assoc.
Qed.
End engine.

Lemma open_engine_ok `{Hashing} {HT} `{!HashTable HT} {W} `{!WalSink W} (k : nat) policy now_ms :
  k < 57 →
  engine_ok (HT := HT) (W := W) (Z.of_nat k) (open_engine (2 ^ k) FullKey None policy now_ms) ∅ 0.
Proof.
  intros Hk. assert (Z.of_nat (2 ^ k) = 2 ^ Z.of_nat k)%Z as Ep by by rewrite Nat2Z.inj_pow.
  assert (∀ i, contents (configure_memory_policy (from_entries (shard_entries [] (shift_for (Z.of_nat (2 ^ k))) FullKey i) now_ms)
    None policy now_ms : FlatMap (HT := HT)) = ∅ ∧
    shard_ok (HT := HT) (W := W) 0 (worker_start i (shard_entries [] (shift_for (Z.of_nat (2 ^ k))) FullKey i) None policy None
      now_ms now_ms)) as Hi.
  { intros i. change (shard_entries [] _ FullKey i) with (@nil StoredEntry).
    destruct (from_entries_spec (HT := HT) [] now_ms) as (Hok & _ & Ec); [done|]. simpl in Ec.
    pose proof (configure_means (from_entries [] now_ms : FlatMap (HT := HT)) None policy now_ms Hok) as [_ [Hok' Hsub _ _ Hb]].
    simpl in Hsub, Hb. rewrite Ec in Hsub.
    assert (contents (configure_memory_policy (from_entries [] now_ms : FlatMap (HT := HT)) None policy now_ms) = ∅) as E.
    { apply map_empty. intros key. destruct (_ !! key) as [s|] eqn:E; [|done].
      eapply lookup_weaken in E; [|done]. by rewrite lookup_empty in E. }
    split; [done|]. split; [done|]. simpl.
    destruct (reconfigured_spec (from_entries [] now_ms : FlatMap (HT := HT)) None policy Hok) as (Hok1 & _ & _ & _ & _).
    split; [|split; [done|]].
    - rewrite configure_enforces.
      assert (memory_limit_bytes (reconfigured (from_entries [] now_ms : FlatMap (HT := HT)) None policy) = None) as El.
      { unfold reconfigured. by repeat case_match. }
      rewrite enforce_below; by rewrite El.
    - unfold budget in *. simpl in Hb. unfold flat_entries in *. simpl in Hb. rewrite ht_new_elements in Hb. simpl in Hb. lia. }
  split; simpl.
  - rewrite Ep. apply shift_for_pow2. lia.
  - done.
  - by rewrite length_fmap, length_seq.
  - apply Forall_fmap, Forall_forall. intros i _. apply Hi.
  - intros key st. rewrite list_lookup_fmap. destruct (seq _ _ !! _) as [i|]; [|done]. intros [= <-]. simpl.
    destruct (Hi i) as [-> _]. done.
Qed.

(** ** The two parsers of SET options *)
Lemma ascii_digits_parse value acc n :
  (0 ≤ acc)%Z → ascii_parse_digits acc value = Some n → parse_digits acc value = Some n ∧ utf8_valid value = true ∧ (acc ≤ n)%Z.
Proof.
  revert acc. induction value as [|d value IH]; intros acc Ha; simpl; [intros [= ->]; split; [done|split; [done|lia]]|].
  destruct (is_ascii_digit d) eqn:Ed; [|done]. destruct (_ && _); [|done]. intros Hp.
  unfold is_ascii_digit, in_range in Ed. apply andb_prop in Ed as [E1%Z.leb_le E2%Z.leb_le].
  destruct (IH (acc * 10 + (d - 48))%Z ltac:(lia) Hp) as (Hd & Hu & Hle).
  split; [|split; [|lia]].
  - unfold digit. replace ((48 <=? d) && (d <=? 57))%Z with true by (symmetry; apply andb_true_intro; split; apply Z.leb_le; lia).
    done.
  - by replace (in_range 0 127 d) with true by (symmetry; unfold in_range; apply andb_true_intro; split; apply Z.leb_le; lia).
Qed.

Lemma ascii_digits_max value acc n : (acc ≤ u64_MAX)%Z → ascii_parse_digits acc value = Some n → (n ≤ u64_MAX)%Z.
Proof.
  revert acc. induction value as [|d value IH]; intros acc Ha; simpl; [by intros [= ->]|].
  destruct (is_ascii_digit d); [|done]. destruct (_ && _) eqn:E; [|done]. apply IH.
  apply andb_prop in E as [_ E%Z.leb_le]. done.
Qed.

Lemma ascii_parse_storage name option value n :
  ascii_parse value = Some n → storage_parse_u64 name option value = inr n.
Proof.
  unfold ascii_parse, storage_parse_u64. destruct value as [|d value]; [done|]. destruct (_ <? _); [done|]. intros Hp.
  destruct (ascii_digits_parse (d :: value) 0 n ltac:(done) Hp) as (Hd & -> & _).
  unfold parse_u64. assert ((d =? 43)%Z = false) as ->.
  { simpl in Hp. destruct (is_ascii_digit d) eqn:Ed; [|done]. unfold is_ascii_digit, in_range in Ed.
    apply andb_prop in Ed as [E1%Z.leb_le _]. apply Z.eqb_neq. lia. }
  rewrite Hd. simpl. pose proof (ascii_digits_max (d :: value) 0 n ltac:(done) Hp). by rewrite (proj2 (Z.leb_le _ _)).
Qed.

Lemma merge_never_always c next o : merge_condition c next = Some o → next ≠ SetAlways → o ≠ SetAlways.
Proof. by destruct c, next; intros [= <-]. Qed.

(** Conditions and KEEPTTL are not taken back. *)
Lemma set_options_sticky args : ∀ o0 o, parse_set_options o0 args = Some o →
  (so_condition o0 ≠ SetAlways → so_condition o ≠ SetAlways) ∧ (so_keep_ttl o0 = true → so_keep_ttl o = true).
Proof.
  induction args as [args IH] using (induction_ltof1 _ (@length Bytes)). unfold ltof in IH. intros o0 o.
  destruct args as [|option args]; simpl.
  { unfold set_options_finish. destruct (so_keep_ttl o0) eqn:E; [destruct (so_ttl_ms o0); [done|]|]; intros [= <-];
      split; congruence. }
  destruct (parse_set_option option) as [[]|]; simpl; [| | | | |done].
  1,2: destruct args as [|value args]; [done|]; destruct (ascii_parse value); [|done]; simpl; intros Hp;
    apply IH in Hp; [done|simpl; lia].
  1,2: destruct (merge_condition _ _) as [c|] eqn:E; [|done]; simpl; intros Hp; apply IH in Hp as [Hc Hk]; [|simpl; lia];
    split; [|done]; intros _; apply Hc; simpl; by eapply merge_never_always.
  intros Hp. apply IH in Hp as [Hc Hk]; [|simpl; lia]. split; [done|]. intros _. by apply Hk.
Qed.

Lemma set_options_agree args : ∀ o0 o,
  parse_set_options o0 args = Some o → so_condition o = SetAlways → so_keep_ttl o = false →
  parse_storage_options (so_ttl_ms o0) args = inr (so_ttl_ms o).
Proof.
  induction args as [args IH] using (induction_ltof1 _ (@length Bytes)). unfold ltof in IH. intros o0 o.
  destruct args as [|option args]; simpl.
  { unfold set_options_finish. destruct (so_keep_ttl o0); [destruct (so_ttl_ms o0) eqn:Et; [done|]|]; intros [= <-]; by rewrite ?Et. }
  unfold parse_storage_option. destruct (parse_set_option option) as [[]|] eqn:Eo; simpl; [| | | | |done].
  1,2: destruct args as [|value args]; [done|]; destruct (ascii_parse value) as [ttl|] eqn:Ea; [|done]; simpl;
    intros Hp Hc Hk; rewrite (ascii_parse_storage _ _ _ _ Ea); simpl;
    apply IH in Hp; [done|simpl; lia|done|done].
  1,2: destruct (merge_condition _ _) as [c|] eqn:E; [|done]; simpl; intros Hp Hc Hk;
    apply set_options_sticky in Hp as [Hp _]; destruct Hp; [|done]; simpl; by eapply merge_never_always.
  intros Hp _ Hk. apply set_options_sticky in Hp as [_ Hp]. by rewrite Hp in Hk.
Qed.
