(* ===== verification/EmbeddedStore.v ===== *)
(** * The embedded store: strings and objects under one key space

    [storage/embedded_store]: [EmbeddedStore] with its writes (write.rs), point
    reads (point.rs), deletion, deadlines and types (lifecycle.rs), and the
    store behind the Redis commands ([redis_compat/storage/embedded_store/objects],
    strings.rs, keys.rs, access.rs).  A key's string is in the shard of its
    route, its object in a bucket of that shard; a vector set is a string with a
    marked prefix, pinned to shard 0.

    A function of the code is a computation on the store's state that may panic
    ([None]).  Every reading of the clock takes the next value of [clock];
    [unique] says whether a stored buffer has no other handle.  The callbacks an
    extension may install are [accepts] and [accepts_vector] (validators); what
    the observers are told is kept in order.  Values are resident: without an
    overflow backend no read fails. *)

From S2P Require Import Prelude Deps Slab ListObject Helpers F64 Codec Types HashSet ZSet Bucket.
From S2P Require Import BucketCore BucketKeys Store Routing Resp FastKinds StringBits FlatMap SessionSlots EmbeddedShard.

(** [storage.rs]. *)
Definition VECTOR_SET_PREFIX : Bytes := text "FC:VSET:v1" ++ [0]%Z.

Definition is_vector_value (value : Bytes) : bool :=
  bytes_eqb (take (length VECTOR_SET_PREFIX) value) VECTOR_SET_PREFIX.

Inductive MutationKind := MutSet | MutDelete | MutExpire.

(** What an observer is told. *)
Record Mutation := mkMutation {
  mut_kind : MutationKind;
  mut_key : Bytes;
  mut_value : option Bytes;
  mut_expire_at_ms : option Z;
  mut_governance : option Bytes;
}.

Inductive RedisStringLookup := LookupHit | LookupMiss | LookupWrongType | LookupBackendError.
Inductive RedisKeyError := MissingKey | ReplicationLimit.

Section embedded_store.
Context `{Hashing} {HT : Type → Type} `{!HashTable HT} `{TableOrder} `{FloatOps}.
Context {OT : Type} `{!IndexTreeSet ZSetOrderKey zk_cmp OT}.
Context (clock : nat → Z) (unique : nat → bool).
Context (accepts : Bytes → Z → option Z → bool) (accepts_vector : Bytes → Bytes → bool).
Abbreviation EmbeddedShard := (EmbeddedShard (HT := HT)).
Abbreviation RedisObjectStore := (RedisObjectStore (HT := HT) (OT := OT)).
Abbreviation bucket := (RedisObjectBucket (HT := HT) (OT := OT)).
Abbreviation Route := Store.EmbeddedKeyRoute.

(** The state.  [st_ticks] counts the readings of the clock. *)
Record EmbeddedStore := mkEmbeddedStore {
  st_shards : list EmbeddedShard;
  st_counts : list Z;
  st_objects : RedisObjectStore;
  st_shift : Z;
  st_mode : EmbeddedRouteMode;
  st_ticks : nat;
  st_points : list Mutation;
  st_vectors : list Mutation;
}.

Implicit Types (st : EmbeddedStore) (key value : Bytes) (now_ms : Z) (route : Route).

(** ** Computations on the store *)
Definition ES (A : Type) : Type := EmbeddedStore → option (A * EmbeddedStore).

#[export] Instance es_ret : MRet ES := λ A a st, Some (a, st).
#[export] Instance es_bind : MBind ES := λ A B f x st, match x st with Some (a, st) => f a st | None => None end.

Definition panic {A} : ES A := λ _, None.
Definition lift {A} (x : option A) : ES A := λ st, a ← x; Some (a, st).
Definition asks {A} (f : EmbeddedStore → A) : ES A := λ st, Some (f st, st).

Definition now_millis : ES Z := λ st,
  Some (clock (st_ticks st), mkEmbeddedStore (st_shards st) (st_counts st) (st_objects st) (st_shift st) (st_mode st)
                               (S (st_ticks st)) (st_points st) (st_vectors st)).

Definition get_shard (sid : nat) : ES EmbeddedShard := λ st, sh ← st_shards st !! sid; Some (sh, st).

Definition put_shard (sid : nat) (sh : EmbeddedShard) : ES unit := λ st,
  Some (tt, mkEmbeddedStore (<[sid := sh]> (st_shards st)) (st_counts st) (st_objects st) (st_shift st) (st_mode st)
              (st_ticks st) (st_points st) (st_vectors st)).

Definition put_objects (o : RedisObjectStore) : ES unit := λ st,
  Some (tt, mkEmbeddedStore (st_shards st) (st_counts st) o (st_shift st) (st_mode st) (st_ticks st) (st_points st) (st_vectors st)).

Definition on_objects {A} (f : RedisObjectStore → option (A * RedisObjectStore)) : ES A :=
  o ← asks st_objects; '(a, o) ← lift (f o); put_objects o;; mret a.

(** A change of a shard's string key space. *)
Definition on_map {A} (sid : nat) (f : FlatMap (HT := HT) → A * FlatMap (HT := HT)) : ES A :=
  sh ← get_shard sid; let '(a, m) := f (es_map sh) in put_shard sid (with_map sh m);; mret a.

(** ** core.rs *)
Definition route_key key : ES Route :=
  asks (λ st, let r := compute_key_route (st_mode st) (st_shift st) key in
              mkRoute (Z.to_nat (route_shard_id r)) (route_key_hash r)).

(** [string_key_counts[shard_id].store(shard.map.len())]. *)
Definition refresh_string_key_count (sid : nat) : ES unit := λ st,
  sh ← st_shards st !! sid;
  Some (tt, mkEmbeddedStore (st_shards st) (<[sid := flat_len (es_map sh)]> (st_counts st)) (st_objects st) (st_shift st)
              (st_mode st) (st_ticks st) (st_points st) (st_vectors st)).

Definition notify_point_mutation (kind : MutationKind) key (v : option Bytes) (at_ms : option Z) (governance : option Bytes) :
    ES unit := λ st,
  Some (tt, mkEmbeddedStore (st_shards st) (st_counts st) (st_objects st) (st_shift st) (st_mode st) (st_ticks st)
              (st_points st ++ [mkMutation kind key v at_ms governance]) (st_vectors st)).

Definition notify_vector_mutation (kind : MutationKind) key (v : option Bytes) (at_ms : option Z) : ES unit := λ st,
  Some (tt, mkEmbeddedStore (st_shards st) (st_counts st) (st_objects st) (st_shift st) (st_mode st) (st_ticks st)
              (st_points st) (st_vectors st ++ [mkMutation kind key v at_ms None])).

Definition vector_shard_id : nat := 0.
Definition route_vector_key key : Route := mkRoute vector_shard_id (hash_key key).

Definition clone_vector_value_state key : ES (option (Bytes * option Z)) :=
  let route := route_vector_key key in
  now_ms ← now_millis;
  deadline ← on_map (shard_id route) (λ m, entry_expire_at_hashed m (key_hash route) key now_ms);
  sh ← get_shard (shard_id route);
  mret (at_ms ← deadline;
        v ← get_shared_value_bytes_hashed (es_map sh) (key_hash route) key now_ms;
        if is_vector_value v then Some (v, at_ms) else None).

Definition clone_vector_value key : ES (option Bytes) := r ← clone_vector_value_state key; mret (fst <$> r).

(** ** point.rs *)

(** The session's chunk, through the write lock. *)
Definition session_value route key : ES (option Bytes) :=
  match derived_session_storage_prefix key with
  | None => mret None
  | Some p =>
      sh ← get_shard (shard_id route);
      '(v, s) ← lift (slot_get (session_slots sh) p (key_hash route) key);
      put_shard (shard_id route) (with_slots sh s);;
      mret v
  end.

(** The second lookup under the write lock finds what the first found, and no
    fault is planned. *)
Definition try_get_value_bytes_routed route key now_ms : ES (option Bytes) :=
  mode ← asks st_mode;
  chunk ← (if uses_flat_key_storage mode key then mret None else session_value route key);
  match chunk with
  | Some v => mret (Some v)
  | None => sh ← get_shard (shard_id route); mret (get_value_bytes_hashed (es_map sh) (key_hash route) key now_ms)
  end.

Definition get_value_bytes key : ES (option Bytes) :=
  route ← route_key key; now_ms ← now_millis; try_get_value_bytes_routed route key now_ms.

(** The value of the string key space under a read lock. *)
Definition shared_value route key : ES (option Bytes) :=
  sh ← get_shard (shard_id route);
  if has_no_ttl_entries (es_map sh) then mret (get_shared_value_bytes_hashed_no_ttl (es_map sh) (key_hash route) key)
  else now_ms ← now_millis; mret (get_shared_value_bytes_hashed (es_map sh) (key_hash route) key now_ms).

Definition try_with_shared_value_bytes_routed route key : ES (option Bytes) :=
  mode ← asks st_mode;
  found ← (if uses_flat_key_storage mode key then shared_value route key else mret None);
  match found with
  | Some v => mret (Some v)
  | None => now_ms ← now_millis; try_get_value_bytes_routed route key now_ms
  end.

Definition get_ref_routed route key : ES (option Bytes) :=
  mode ← asks st_mode;
  if uses_flat_key_storage mode key then
    sh ← get_shard (shard_id route);
    if has_no_ttl_entries (es_map sh) then mret (get_ref_hashed_shared_no_ttl (es_map sh) (key_hash route) key)
    else now_ms ← now_millis; mret (get_ref_hashed_shared (es_map sh) (key_hash route) key now_ms)
  else
    chunk ← session_value route key;
    match chunk with
    | Some v => mret (Some v)
    | None =>
        sh ← get_shard (shard_id route);
        if has_no_ttl_entries (es_map sh)
        then on_map (shard_id route) (λ m, lookup_ref_hashed_lazy m (key_hash route) key)
        else now_ms ← now_millis; on_map (shard_id route) (λ m, get_ref_hashed m (key_hash route) key now_ms)
    end.

(** ** lifecycle.rs: pinned vectors and deletion *)
Definition pinned_vector_value_exists_routed route key : ES bool :=
  v ← try_with_shared_value_bytes_routed route key; mret (from_option is_vector_value false v).

(** A vector set of the key in shard 0, when the key's own shard is another. *)
Definition distinct_pinned_vector (primary : Route) key : ES bool :=
  if shard_id primary =? vector_shard_id then mret false
  else pinned_vector_value_exists_routed (route_vector_key key) key.

Definition pinned_vector_value_exists key : ES bool := route ← route_key key; distinct_pinned_vector route key.

(** [match route.shard_id < self.shards.len()]. *)
Definition checked_route route key : ES Route :=
  n ← asks (λ st, length (st_shards st)); if shard_id route <? n then mret route else route_key key.

Definition shard_has_objects_at route : ES bool := o ← asks st_objects; lift (shard_has_objects o (shard_id route)).

Definition read_bucket route : ES bucket := o ← asks st_objects; lift (get_bucket o (shard_id route) (key_hash route)).
Definition write_bucket route b : ES unit := o ← asks st_objects; put_objects (put_bucket o (shard_id route) (key_hash route) b).
Definition note_object_deleted route : ES unit := on_objects (λ o, o ← note_deleted o (shard_id route); Some (tt, o)).

(** [if bucket.<op>(..) { self.objects.note_deleted(..) }] under the write lock. *)
Definition counted_removal route (op : bucket → option (bool * bucket)) : ES bool :=
  b ← read_bucket route;
  '(removed, b) ← lift (op b);
  write_bucket route b;;
  (if removed : bool then note_object_deleted route else mret tt);;
  mret removed.

Definition delete_session_chunk (prefix : option Bytes) route key : ES bool :=
  match prefix with
  | None => mret false
  | Some p =>
      sh ← get_shard (shard_id route);
      let '(deleted, s) := slot_delete (session_slots sh) p (key_hash route) key in
      put_shard (shard_id route) (with_slots sh s);;
      mret deleted
  end.

Definition delete_routed_then route key (after_delete : ES unit) : ES bool :=
  route ← checked_route route key;
  objects ← shard_has_objects_at route;
  if objects : bool then
    deleted_object ← counted_removal route (λ b, Some (delete_any b key));
    deleted_session ← delete_session_chunk (derived_session_storage_prefix key) route key;
    deleted_map ← on_map (shard_id route) (λ m, delete_hashed m (key_hash route) key);
    let deleted := deleted_object || deleted_session || deleted_map in
    (if deleted then after_delete else mret tt);;
    mret deleted
  else
    deleted_session ← delete_session_chunk (derived_session_storage_prefix key) route key;
    if deleted_session : bool then after_delete;; mret true
    else
      deleted ← on_map (shard_id route) (λ m, delete_hashed m (key_hash route) key);
      (if deleted : bool then after_delete else mret tt);;
      mret deleted.

Definition delete_pinned_vector_value_if_distinct (primary : Route) key : ES bool :=
  pinned ← distinct_pinned_vector primary key;
  if pinned : bool then delete_routed_then (route_vector_key key) key (mret tt) else mret false.

Definition delete_key key : ES bool :=
  if negb (accepts key 0 None) then mret false
  else
    _ ← now_millis;
    route ← route_key key;
    vector ← clone_vector_value key;
    let is_vector := if vector is Some _ then true else false in
    deleted ← delete_routed_then route key
                (if is_vector : bool then mret tt else notify_point_mutation MutDelete key None None None);
    deleted ← (if deleted : bool then mret true else delete_pinned_vector_value_if_distinct route key);
    (if deleted && is_vector then notify_vector_mutation MutDelete key None None else mret tt);;
    mret deleted.

(** ** write.rs *)

(** Under the shard's lock: leave the session, write, enforce the limit, count. *)
Definition write_point route key value (governance : option Bytes) (at_ms : option Z) now_ms : ES unit :=
  _ ← delete_session_chunk (point_write_session_storage_prefix key) route key;
  sh ← get_shard (shard_id route);
  let m := set_bytes_hashed_with_governance_option (es_map sh) (key_hash route) key value governance at_ms now_ms in
  put_shard (shard_id route) (es_enforce_memory_limit (with_map sh m) now_ms);;
  refresh_string_key_count (shard_id route).

Definition set_value_bytes_routed_with_governance_then route key value (governance : option Bytes) (at_ms : option Z) now_ms
    (after_write : ES unit) : ES unit :=
  if negb (accepts key (blen value) (blen <$> governance)) then mret tt
  else
    route ← checked_route route key;
    _ ← delete_pinned_vector_value_if_distinct route key;
    objects ← shard_has_objects_at route;
    (if objects : bool then _ ← counted_removal route (λ b, Some (delete_any b key)); mret tt else mret tt);;
    write_point route key value governance at_ms now_ms;;
    after_write.

Definition set key value (ttl_ms : option Z) : ES unit :=
  now_ms ← now_millis;
  route ← route_key key;
  let at_ms := u64_saturating_add now_ms <$> ttl_ms in
  set_value_bytes_routed_with_governance_then route key value None at_ms now_ms
    (notify_point_mutation MutSet key (Some value) at_ms None).

Definition set_value_bytes key value (ttl_ms : option Z) : ES unit :=
  route ← route_key key;
  match ttl_ms with
  | None =>
      set_value_bytes_routed_with_governance_then route key value None None 0
        (notify_point_mutation MutSet key (Some value) None None)
  | Some ttl =>
      now_ms ← now_millis;
      let at_ms := Some (u64_saturating_add now_ms ttl) in
      set_value_bytes_routed_with_governance_then route key value None at_ms now_ms
        (notify_point_mutation MutSet key (Some value) at_ms None)
  end.

Definition set_value_bytes_with_governance key value (ttl_ms : option Z) (governance : Bytes) : ES unit :=
  now_ms ← (if ttl_ms is Some _ then now_millis else mret 0%Z);
  let at_ms := u64_saturating_add now_ms <$> ttl_ms in
  route ← route_key key;
  set_value_bytes_routed_with_governance_then route key value (Some governance) at_ms now_ms
    (notify_point_mutation MutSet key (Some value) at_ms (Some governance)).

(** ** lifecycle.rs: existence, deadlines, types *)
Definition key_exists key : ES bool :=
  route ← route_key key;
  objects ← shard_has_objects_at route;
  let in_strings := v ← get_ref_routed route key; mret (if v is Some _ then true else false) in
  let otherwise := found ← in_strings; if found : bool then mret true else pinned_vector_value_exists key in
  if objects : bool then
    b ← read_bucket route;
    expired ← (if has_expirations b then now_ms ← now_millis; mret (if object_is_expired b key now_ms then Some now_ms else None)
               else mret None);
    match expired with
    | Some now_ms => _ ← counted_removal route (λ b, Some (delete_expired b key now_ms)); in_strings
    | None =>
        now_ms ← now_millis;
        live ← lift (contains_live_object b key now_ms);
        if live : bool then mret true else otherwise
    end
  else otherwise.

(** What TTL, PERSIST and EXPIRE do first: drop an expired object, then the
    expired fields of a hash, then a hash left empty. *)
Definition drop_dead_object route key now_ms : ES bool :=
  expired ← counted_removal route (λ b, Some (delete_expired b key now_ms));
  if expired : bool then mret true
  else
    b ← read_bucket route;
    b ← lift (remove_expired_hash_fields b key now_ms);
    write_bucket route b;;
    counted_removal route (λ b, remove_hash_if_empty b key).

(** The key is a chunk of a session. *)
Definition in_session route key : ES bool := v ← session_value route key; mret (if v is Some _ then true else false).

Definition pinned_vector_ttl_millis (primary : Route) key now_ms : ES (option Z) :=
  pinned ← distinct_pinned_vector primary key;
  if pinned : bool then
    ttl ← on_map vector_shard_id (λ m, FlatMap.ttl_millis m key now_ms);
    mret (if (ttl =? -2)%Z then None else Some ttl)
  else mret None.

(** The objects' part of TTL and PTTL: [Some] is the final answer. *)
Definition object_ttl route key now_ms : ES (option Z) :=
  objects ← shard_has_objects_at route;
  if negb objects then mret None
  else
    dead ← drop_dead_object route key now_ms;
    if dead : bool then mret (Some (-2)%Z)
    else
      b ← read_bucket route;
      '(ttl, b) ← lift (BucketCore.ttl_millis b key now_ms);
      write_bucket route b;;
      mret (if (ttl =? -2)%Z then None else Some ttl).

(** [ttl_seconds] and [pttl_millis]. *)
Definition ttl_of (seconds : bool) key : ES Z :=
  route ← route_key key;
  now_ms ← now_millis;
  answer ← object_ttl route key now_ms;
  match answer with
  | Some ttl => mret (if seconds && (0 <=? ttl)%Z then Z.quot (ttl + 999) 1000 else ttl)
  | None =>
      chunk ← in_session route key;
      if chunk : bool then mret (-1)%Z
      else
        ttl ← on_map (shard_id route) (λ m, if seconds then FlatMap.ttl_seconds m key now_ms else FlatMap.ttl_millis m key now_ms);
        if negb (ttl =? -2)%Z then mret ttl
        else
          pinned ← pinned_vector_ttl_millis route key now_ms;
          mret (match pinned with
                | Some ttl => if seconds && (0 <? ttl)%Z then Z.quot (ttl + 999) 1000 else ttl
                | None => -2
                end)%Z
  end.

Definition ttl_seconds := ttl_of true.
Definition pttl_millis := ttl_of false.

Definition persist_pinned_vector_value_if_distinct (primary : Route) key now_ms : ES bool :=
  pinned ← distinct_pinned_vector primary key;
  if pinned : bool then on_map vector_shard_id (λ m, FlatMap.persist m key now_ms) else mret false.

Definition expire_pinned_vector_value_if_distinct (primary : Route) key (at_ms now_ms : Z) : ES bool :=
  pinned ← distinct_pinned_vector primary key;
  if pinned : bool then on_map vector_shard_id (λ m, FlatMap.expire m key at_ms now_ms) else mret false.

(** The objects' part of PERSIST and EXPIRE: [Some] is the final answer. *)
Definition object_deadline route key now_ms (op : bucket → bool * bucket) (after : ES unit) : ES (option bool) :=
  objects ← shard_has_objects_at route;
  if negb objects then mret None
  else
    dead ← drop_dead_object route key now_ms;
    if dead : bool then mret (Some false)
    else
      b ← read_bucket route;
      let '(changed, b) := op b in
      write_bucket route b;;
      if changed : bool then after;; mret (Some true)
      else mret (if contains_object b key then Some false else None).

Definition persist_key key : ES bool :=
  if negb (accepts key 0 None) then mret false
  else
    route ← route_key key;
    now_ms ← now_millis;
    vector ← clone_vector_value key;
    let is_vector := if vector is Some _ then true else false in
    let told := notify_point_mutation MutExpire key None None None in
    answer ← object_deadline route key now_ms (λ b, BucketCore.persist b key now_ms) told;
    match answer with
    | Some persisted => mret persisted
    | None =>
        chunk ← in_session route key;
        if chunk : bool then mret false
        else
          persisted ← on_map (shard_id route) (λ m, FlatMap.persist m key now_ms);
          persisted ← (if persisted : bool then mret true else persist_pinned_vector_value_if_distinct route key now_ms);
          (if persisted && is_vector then notify_vector_mutation MutExpire key None None
           else if persisted then told else mret tt);;
          mret persisted
    end.

Definition expire_routed_then route key (at_ms now_ms : Z) (after_expire : ES unit) : ES bool :=
  route ← checked_route route key;
  answer ← object_deadline route key now_ms (λ b, BucketCore.expire b key at_ms now_ms) after_expire;
  match answer with
  | Some changed => mret changed
  | None =>
      chunk ← in_session route key;
      if chunk : bool then mret false
      else
        changed ← on_map (shard_id route) (λ m, FlatMap.expire m key at_ms now_ms);
        (if changed : bool then after_expire else mret tt);;
        mret changed
  end.

Definition expire_key key (at_ms : Z) : ES bool :=
  if negb (accepts key 0 None) then mret false
  else
    route ← route_key key;
    now_ms ← now_millis;
    vector ← clone_vector_value key;
    let is_vector := if vector is Some _ then true else false in
    changed ← expire_routed_then route key at_ms now_ms
                (if is_vector : bool then mret tt else notify_point_mutation MutExpire key None (Some at_ms) None);
    changed ← (if changed : bool then mret true else expire_pinned_vector_value_if_distinct route key at_ms now_ms);
    (if changed && is_vector then notify_vector_mutation MutExpire key None (Some at_ms) else mret tt);;
    mret changed.

Definition redis_object_metadata key (lookup : bucket → Z → option (option string)) : ES (option string) :=
  route ← route_key key;
  objects ← shard_has_objects_at route;
  if negb objects then mret None
  else
    b ← read_bucket route;
    now_ms ← now_millis;
    if has_expirations b && object_is_expired b key now_ms then
      now_ms ← now_millis;
      _ ← counted_removal route (λ b, Some (delete_expired b key now_ms));
      mret None
    else lift (lookup b now_ms).

Definition redis_type key : ES string :=
  kind ← redis_object_metadata key (λ b now_ms, type_name b key now_ms);
  match kind with
  | Some kind => mret kind
  | None =>
      route ← route_key key;
      v ← get_ref_routed route key;
      match v with
      | Some v => mret (if is_vector_value v then "vectorset" else "string")%string
      | None => pinned ← pinned_vector_value_exists key; mret (if pinned : bool then "vectorset" else "none")%string
      end
  end.

Definition object_encoding key : ES (option string) :=
  found ← redis_object_metadata key (λ b now_ms, encoding b key now_ms);
  match found with
  | Some e => mret (Some e)
  | None =>
      route ← route_key key;
      v ← get_ref_routed route key;
      match v with
      | Some _ => mret (Some "raw"%string)
      | None => pinned ← pinned_vector_value_exists key; mret (if pinned : bool then Some "raw"%string else None)
      end
  end.

(** ** strings.rs *)
Definition object_lookup_for_string_route route key : ES (option RedisStringLookup) :=
  objects ← shard_has_objects_at route;
  if negb objects then mret None
  else
    b ← read_bucket route;
    now_ms ← now_millis;
    if has_expirations b && object_is_expired b key now_ms then
      _ ← counted_removal route (λ b, Some (delete_expired b key now_ms)); mret (Some LookupMiss)
    else
      cleanup ← lift (hash_needs_empty_expiry_cleanup b key now_ms);
      if cleanup : bool then
        _ ← counted_removal route (λ b, remove_expired_hash_if_empty b key now_ms); mret (Some LookupMiss)
      else
        live ← lift (contains_live_object b key now_ms);
        mret (if live : bool then Some LookupWrongType else None).

(** The lookup and the bytes handed to the closure. *)
Definition get_raw_string_value_routed_into route key : ES (RedisStringLookup * option Bytes) :=
  v ← try_with_shared_value_bytes_routed route key;
  match v with
  | Some v => mret (LookupHit, Some v)
  | None => found ← object_lookup_for_string_route route key; mret (default LookupMiss found, None)
  end.

Definition get_string_value_into key : ES (RedisStringLookup * option Bytes) :=
  route ← route_key key;
  '(lookup, v) ← get_raw_string_value_routed_into route key;
  match lookup, v with
  | LookupHit, Some v => mret (if is_vector_value v then (LookupWrongType, None) else (LookupHit, Some v))
  | LookupMiss, _ =>
      pinned ← pinned_vector_value_exists key;
      mret (if pinned : bool then LookupWrongType else LookupMiss, None)
  | _, _ => mret (lookup, None)
  end.

(** What a write of a string does about an object of the key: an expired one is
    dropped, another one refuses the write. *)
Definition object_refuses route key : ES bool :=
  objects ← shard_has_objects_at route;
  if negb objects then mret false
  else
    now_ms ← now_millis;
    b ← read_bucket route;
    if has_expirations b && object_is_expired b key now_ms then
      _ ← counted_removal route (λ b, Some (delete_expired b key now_ms)); mret false
    else
      cleanup ← lift (hash_needs_empty_expiry_cleanup b key now_ms);
      if cleanup : bool then
        _ ← counted_removal route (λ b, remove_expired_hash_if_empty b key now_ms); mret false
      else mret (contains_object b key).

(** The closure changes the bytes in place; what it leaves in its captured
    variable is returned, and [None] is its panic. *)
Definition mutate_string_value_no_ttl_in_place {R} key (mutate : Bytes → option (R * Bytes)) :
    ES (RedisStringLookup * option R) :=
  route ← route_key key;
  refused ← object_refuses route key;
  if refused : bool then mret (LookupWrongType, None)
  else
    tick ← asks st_ticks;
    result ← on_map (shard_id route) (λ m,
      update_value_hashed_no_ttl m (key_hash route) key (unique tick) (λ v,
        if is_vector_value v then (None, v)
        else match mutate v with Some (r, v') => (Some (Some r), v') | None => (Some None, v) end));
    match result with
    | Some None => mret (LookupWrongType, None)
    | Some (Some None) => panic
    | Some (Some (Some r)) =>
        sh ← get_shard (shard_id route);
        match get_shared_value_bytes_hashed_no_ttl (es_map sh) (key_hash route) key with
        | Some v => notify_point_mutation MutSet key (Some v) None None;; mret (LookupHit, Some r)
        | None => mret (LookupHit, Some r)
        end
    | None => pinned ← pinned_vector_value_exists key; mret (if pinned : bool then LookupWrongType else LookupMiss, None)
    end.

Definition mutation_rejected : Frame := error "ERR mutation rejected by an installed storage extension".

(** The part under the shard's write lock; [None] of [transform] is its panic. *)
Definition transform_locked {R} route key (transform : option Bytes → option (Frame + (R * Bytes))) : ES (Frame + R) :=
  now_ms ← now_millis;
  result ← on_map (shard_id route) (λ m,
    transform_value_hashed m (key_hash route) key now_ms true (λ existing,
      match transform existing with
      | None => inl None
      | Some (inl frame) => inl (Some frame)
      | Some (inr (r, value)) =>
          if accepts key (blen value) None then inr ((r, value), value) else inl (Some mutation_rejected)
      end));
  match result with
  | inl None => panic
  | inl (Some frame) => mret (inl frame)
  | inr (r, value) =>
      refresh_string_key_count (shard_id route);;
      notify_point_mutation MutSet key (Some value) None None;;
      mret (inr r)
  end.

(** The bucket's lock is released before the shard's is taken. *)
Definition transform_raw_string_value_no_ttl {R} key (transform : option Bytes → option (Frame + (R * Bytes))) :
    ES (Frame + R) :=
  pinned ← pinned_vector_value_exists key;
  if pinned : bool then mret (inl wrongtype)
  else
    route ← route_key key;
    refused ← object_refuses route key;
    if refused : bool then mret (inl wrongtype) else transform_locked route key transform.

Definition transform_string_value_no_ttl {R} key (transform : option Bytes → option (Frame + (R * Bytes))) : ES (Frame + R) :=
  transform_raw_string_value_no_ttl key (λ existing,
    if from_option is_vector_value false existing then Some (inl wrongtype) else transform existing).

(** ** access.rs *)
Definition string_exists_routed route key : ES bool :=
  mode ← asks st_mode;
  let some (v : option Bytes) := if v is Some _ then true else false in
  if uses_flat_key_storage mode key then
    sh ← get_shard (shard_id route);
    if flat_is_empty (es_map sh) && slots_is_empty (session_slots sh) then mret false
    else v ← shared_value route key; mret (some v)
  else v ← try_with_shared_value_bytes_routed route key; mret (some v).

(** The string key space is asked whether or not the answer is needed: asking
    changes no value. *)
Definition object_write key (op : bucket → option ((RedisObjectResult * bool) * bucket)) : ES RedisObjectResult :=
  route ← route_key key;
  now_ms ← now_millis;
  exists_string ← string_exists_routed route key;
  on_objects (λ o, object_write_routed o route key exists_string now_ms op).

Definition object_create key (existing : bucket → Z → option (RedisObjectWriteAttempt * bucket))
    (create : bucket → Z → option (RedisObjectResult * bucket)) : ES RedisObjectResult :=
  route ← route_key key;
  now_ms ← now_millis;
  exists_string ← string_exists_routed route key;
  on_objects (λ o, object_create_hashed o route key exists_string now_ms existing create).

Definition object_read key (op : bucket → option RedisObjectResult) : ES RedisObjectResult :=
  route ← route_key key;
  now_ms ← now_millis;
  exists_string ← string_exists_routed route key;
  on_objects (λ o, object_read_routed o route key exists_string now_ms op).

(** ** keys.rs *)
Definition clone_object_value key : ES (option RedisObjectValue) :=
  route ← route_key key;
  b ← read_bucket route;
  expired ← (if has_expirations b then now_ms ← now_millis; mret (if object_is_expired b key now_ms then Some now_ms else None)
             else mret None);
  match expired with
  | Some now_ms => _ ← counted_removal route (λ b, Some (delete_expired b key now_ms)); mret None
  | None => now_ms ← now_millis; fields_now ← now_millis; lift (clone_value b key now_ms fields_now)
  end.

(** The wake-up of blocked readers is not part of this state. *)
Definition set_object_value_expire_at key (v : RedisObjectValue) (at_ms : option Z) now_ms : ES unit :=
  route ← route_key key;
  _ ← delete_pinned_vector_value_if_distinct route key;
  b ← read_bucket route;
  let had_object := contains_object b key in
  _ ← delete_session_chunk (point_write_session_storage_prefix key) route key;
  _ ← on_map (shard_id route) (λ m, delete_hashed m (key_hash route) key);
  '(created, b) ← lift (insert_value b key v);
  write_bucket route b;;
  (if created && negb had_object then on_objects (λ o, o ← note_created o (shard_id route); Some (tt, o)) else mret tt);;
  match at_ms with
  | None => mret tt
  | Some at_ms => b ← read_bucket route; write_bucket route (BucketCore.expire b key at_ms now_ms).2
  end.

Definition set_object_value key (v : RedisObjectValue) (ttl_ms : option Z) : ES unit :=
  match ttl_ms with
  | None => set_object_value_expire_at key v None 0
  | Some ttl => now_ms ← now_millis; set_object_value_expire_at key v (Some (u64_saturating_add now_ms ttl)) now_ms
  end.

Definition set_pinned_vector_value key value (ttl_ms : option Z) : ES (RedisKeyError + unit) :=
  if negb (accepts_vector key value) then mret (inl ReplicationLimit)
  else
    now_ms ← now_millis;
    primary ← route_key key;
    let vector := route_vector_key key in
    (if negb (shard_id primary =? shard_id vector) then _ ← delete_routed_then primary key (mret tt); mret tt else mret tt);;
    let at_ms := u64_saturating_add now_ms <$> ttl_ms in
    set_value_bytes_routed_with_governance_then vector key value None at_ms now_ms (mret tt);;
    notify_vector_mutation MutSet key (Some value) at_ms;;
    mret (inr tt).

Definition rename_key (source dest : Bytes) (nx : bool) : ES (RedisKeyError + bool) :=
  if bool_decide (source = dest) then
    found ← key_exists source; mret (if found : bool then inr (negb nx) else inl MissingKey)
  else
    taken ← (if nx then key_exists dest else mret false);
    if taken : bool then mret (inr false)
    else
      ttl ← pttl_millis source;
      let ttl_ms := if (0 <=? ttl)%Z then Some ttl else None in
      vector ← clone_vector_value source;
      match vector with
      | Some v =>
          if negb (accepts_vector dest v) then mret (inl ReplicationLimit)
          else
            _ ← delete_key dest;
            r ← set_pinned_vector_value dest v ttl_ms;
            match r with inl e => mret (inl e) | inr _ => _ ← delete_key source; mret (inr true) end
      | None =>
          v ← get_value_bytes source;
          match v with
          | Some v => set_value_bytes dest v ttl_ms;; _ ← delete_key source; mret (inr true)
          | None =>
              object ← clone_object_value source;
              match object with
              | Some o => _ ← delete_key dest; set_object_value dest o ttl_ms;; _ ← delete_key source; mret (inr true)
              | None => mret (inl MissingKey)
              end
          end
      end.

(** ** A new store *)
Definition embedded_store_new (shard_count : nat) (mode : EmbeddedRouteMode) : EmbeddedStore :=
  mkEmbeddedStore (replicate shard_count (with_limits None NoEviction)) (replicate shard_count 0%Z) (store_new shard_count)
    (shift_for (Z.of_nat shard_count)) mode 0 [] [].
End embedded_store.
