(* ===== verification/EmbeddedStoreProofs.v ===== *)
(** * The embedded store is one key space

    A store that routes by the full key and has no memory limit stands for a
    map of strings [S] and the object key spaces [A] of its buckets.  [key_spec]
    says what a command means on them at one instant; [command_step] runs the
    code.  Every command answers as the specification does at some instant
    between its start and its end, and no key ever holds a live string and an
    object at once. *)

From S2P Require Import Prelude Deps Slab ListObject Helpers F64 Codec Types HashSet ZSet Bucket.
From S2P Require Import BucketCore BucketKeys Store StoreOps Routing Resp FastKinds StringBits Snapshot Recovery FlatMap FlatMapProofs FlatEviction FlatRefine FlatRun.
From S2P Require Import SessionSlots EmbeddedShard EmbeddedStore Engine EngineCommandProofs.

Abbreviation Objects := (list (list AState)).

Section proofs.
Context `{Hashing} {HT : Type → Type} `{!HashTable HT} `{TableOrder} `{FloatOps}.
Context {OT : Type} `{!IndexTreeSet ZSetOrderKey zk_cmp OT}.
Context (clock : nat → Z) (accepts : Bytes → Z → option Z → bool).
Context (Hclock : ∀ n, (0 ≤ clock n)%Z) (Hmono : ∀ n, (clock n ≤ clock (S n))%Z).
Context (k : nat) (Hk : k < 57).
Abbreviation EmbeddedStore := (EmbeddedStore (HT := HT) (OT := OT)).
Abbreviation EmbeddedShard := (EmbeddedShard (HT := HT)).
Abbreviation ES := (ES (HT := HT) (OT := OT)).
Abbreviation bucket := (RedisObjectBucket (HT := HT) (OT := OT)).
Implicit Types (st : EmbeddedStore) (sh : EmbeddedShard) (key value : Bytes) (now_ms B : Z) (a : AState) (A : Objects).
Implicit Types (S : Entries).

Lemma clock_le (n m : nat) : n ≤ m → (clock n ≤ clock m)%Z.
Proof. induction 1 as [|m _ IH]; [done|]. etrans; [done|apply Hmono]. Qed.

(** ** The shards and the buckets of a store *)
Abbreviation home := (home (Z.of_nat k)).
Definition home_route key : Store.EmbeddedKeyRoute := mkRoute (home key) (hash_key key).

Definition plain_shard B sh : Prop :=
  flat_ok (es_map sh) ∧ memory_limit_bytes (es_map sh) = None ∧ (budget (es_map sh) ≤ B)%Z ∧
  es_limit sh = None ∧ sessions (session_slots sh) = [].

Definition obj A key : option AState := As ← A !! home key; As !! bucket_index (hash_key key).
Definition put_obj A key a : Objects := put_state A (home key) (hash_key key) a.

Record spaces st S A B : Prop := {
  sp_shift : st_shift st = (64 - Z.of_nat k)%Z;
  sp_mode : st_mode st = FullKey;
  sp_length : length (st_shards st) = 2 ^ k;
  sp_shards : Forall (plain_shard B) (st_shards st);
  sp_placed : ∀ i sh key, st_shards st !! i = Some sh → is_Some (contents (es_map sh) !! key) → i = home key;
  sp_map : ∀ key sh, st_shards st !! home key = Some sh → contents (es_map sh) !! key = S !! key;
  sp_plain : ∀ key s, S !! key = Some s → e_governance s = None;
  sp_objects : store_rep (st_objects st) A;
  sp_count : length A = 2 ^ k;
  sp_few : Forall (λ As, (Z.of_nat (stored As) ≤ B)%Z) A;
  sp_room : (B + 1 < i64_MAX)%Z;
}.

Lemma home_lt key : home key < 2 ^ k.
Proof.
  pose proof (stripe_index_lt (hash_key key) (Z.of_nat k) ltac:(lia)) as Hl. unfold EngineCommandProofs.home.
  apply Nat2Z.inj_lt. rewrite Nat2Z.inj_pow. change (Z.of_nat 2) with 2%Z. lia.
Qed.

Lemma home_holds st S A B key :
  spaces st S A B → ∃ sh, st_shards st !! home key = Some sh ∧ plain_shard B sh ∧ contents (es_map sh) !! key = S !! key.
Proof.
  intros Hsp. destruct (lookup_lt_is_Some_2 (st_shards st) (home key)) as [sh Hsh].
  { rewrite (sp_length _ _ _ _ Hsp). apply home_lt. }
  exists sh. split; [done|]. split; [eapply Forall_lookup_1; [apply Hsp|done]|]. by apply (sp_map _ _ _ _ Hsp).
Qed.

Lemma home_bucket st S A B key :
  spaces st S A B →
  ∃ As a, A !! home key = Some As ∧ As !! bucket_index (hash_key key) = Some a ∧ obj A key = Some a.
Proof.
  intros Hsp. destruct (lookup_lt_is_Some_2 A (home key)) as [As HA]; [rewrite (sp_count _ _ _ _ Hsp); apply home_lt|].
  destruct (Forall2_lookup_r _ _ _ _ _ (Store.st_shards _ _ (sp_objects _ _ _ _ Hsp)) HA) as (osh & _ & [_ Hlen _]).
  destruct (lookup_lt_is_Some_2 As (bucket_index (hash_key key))) as [a Ha]; [rewrite Hlen; apply bucket_index_lt|].
  exists As, a. split; [done|]. split; [done|]. unfold obj. by rewrite HA.
Qed.

Lemma obj_put A key a key' :
  is_Some (obj A key) →
  obj (put_obj A key a) key' =
    if decide (home key' = home key ∧ bucket_index (hash_key key') = bucket_index (hash_key key)) then Some a else obj A key'.
Proof.
  unfold obj, put_obj, put_state. intros [a0 Ha0]. destruct (A !! home key) as [As|] eqn:HA; [|done]. simpl in Ha0.
  destruct (decide (home key' = home key)) as [Eh|Hn].
  - rewrite Eh, list_lookup_alter_eq, HA. simpl. destruct (decide (bucket_index (hash_key key') = bucket_index (hash_key key))) as [Eb|Hb].
    + rewrite Eb, list_lookup_insert_eq by by eapply lookup_lt_Some. by rewrite decide_True.
    + rewrite list_lookup_insert_ne by done. rewrite decide_False by naive_solver. done.
  - rewrite list_lookup_alter_ne by done. rewrite decide_False by naive_solver. done.
Qed.

Lemma put_obj_same A key a : obj A key = Some a → put_obj A key a = A.
Proof.
  unfold obj, put_obj, put_state. intros Ha. destruct (A !! home key) as [As|] eqn:HA; [|done]. simpl in Ha.
  apply list_eq. intros i. destruct (decide (i = home key)) as [->|Hn]; [|by rewrite list_lookup_alter_ne].
  rewrite list_lookup_alter_eq, HA. simpl. by rewrite list_insert_id.
Qed.

(** Objects of other keys of the bucket are not touched. *)
Definition only key a a' : Prop := ∀ key', key' ≠ key → a_has a' key' = a_has a key'.

(** ** Computations that return *)
Definition does {T} (x : ES T) st (Q : T → EmbeddedStore → Prop) : Prop := ∃ r st', x st = Some (r, st') ∧ Q r st'.

Lemma does_ret {T} (r : T) st (Q : T → EmbeddedStore → Prop) : Q r st → does (mret r) st Q.
Proof. by exists r, st. Qed.

Lemma does_bind {T U} (x : ES T) (f : T → ES U) st P (Q : U → EmbeddedStore → Prop) :
  does x st P → (∀ r st', P r st' → does (f r) st' Q) → does (x ≫= f) st Q.
Proof.
  intros (r & st1 & E & Hp) Hf. destruct (Hf r st1 Hp) as (u & st2 & E2 & Hq). exists u, st2.
  unfold mbind, es_bind. by rewrite E.
Qed.

Lemma does_mono {T} (x : ES T) st (P Q : T → EmbeddedStore → Prop) :
  does x st P → (∀ r st', P r st' → Q r st') → does x st Q.
Proof. intros (r & st1 & E & Hp) Hpq. exists r, st1. eauto. Qed.

(** The state goes on: later, and standing for the given key space. *)
Definition goes st S A B st' : Prop := spaces st' S A B ∧ st_ticks st ≤ st_ticks st'.

Lemma goes_trans st st1 st2 S A B S1 A1 B1 : goes st S A B st1 → goes st1 S1 A1 B1 st2 → goes st S1 A1 B1 st2.
Proof. intros [_ ?] [? ?]. split; [done|lia]. Qed.

Lemma goes_refl st S A B : spaces st S A B → goes st S A B st.
Proof. by split. Qed.

(** [now] is a reading of the clock between the two states. *)
Definition between st st' now_ms : Prop := ∃ n, st_ticks st ≤ n ≤ st_ticks st' ∧ now_ms = clock n.

Lemma between_wide st0 st st' st1 now_ms :
  st_ticks st0 ≤ st_ticks st → st_ticks st' ≤ st_ticks st1 → between st st' now_ms → between st0 st1 now_ms.
Proof. intros ? ? (n & ? & ->). exists n. split; [lia|done]. Qed.

Lemma does_now st S A B :
  spaces st S A B → does (now_millis clock) st (λ now_ms st', goes st S A B st' ∧ now_ms = clock (st_ticks st) ∧ st_ticks st < st_ticks st').
Proof. intros []. eexists _, _. split; [done|]. split; [split; [by split|simpl; lia]|]. simpl. split; [done|lia]. Qed.

Lemma does_route st S A B key (Q : Store.EmbeddedKeyRoute → EmbeddedStore → Prop) :
  spaces st S A B → Q (home_route key) st → does (route_key key) st Q.
Proof.
  intros Hsp Hq. eexists _, _. split; [done|]. unfold compute_key_route.
  by rewrite (sp_mode _ _ _ _ Hsp), (sp_shift _ _ _ _ Hsp).
Qed.

(** ** Reads of the string key space *)
Definition visible_at (o : option StoredEntry) now_ms : option Bytes := live_entry o now_ms ≫= s_visible.

Lemma expired_later s (now_ms now' : Z) : (now_ms ≤ now')%Z → s_expired s now_ms = true → s_expired s now' = true.
Proof. clear - now_ms now' s. unfold s_expired, deadline_passed. destruct (e_expire_at_ms s); [|done]. rewrite !Z.leb_le. lia. Qed.

Lemma visible_later o (now_ms now' : Z) : (now_ms ≤ now')%Z → visible_at o now_ms = None → visible_at o now' = None.
Proof.
  intros Hle. unfold visible_at. destruct o as [s|]; [|done]. simpl.
  destruct (s_expired s now_ms) eqn:E; [by rewrite (expired_later s now_ms now')|].
  destruct (s_expired s now'); done.
Qed.

Lemma live_read (m : FlatMap (HT := HT)) key now_ms :
  flat_ok m → fe_value <$> live now_ms (find_readable m (hash_key key) key) = visible_at (contents m !! key) now_ms.
Proof.
  intros [Hok _]. rewrite find_readable_spec, contents_lookup by done. unfold visible_at, live, s_visible, s_protected.
  destruct (find_key m (hash_key key) key) as [e|]; [|done]. simpl. unfold s_expired, is_expired, is_protected. simpl.
  destruct (deadline_passed (fe_expire_at_ms e) now_ms) eqn:Ed, (fe_governance e) eqn:Eg; simpl; rewrite ?Ed, ?Eg; done.
Qed.

Lemma no_ttl_read (m : FlatMap (HT := HT)) key now_ms :
  flat_ok m → has_no_ttl_entries m = true →
  fe_value <$> find_readable m (hash_key key) key = visible_at (contents m !! key) now_ms.
Proof.
  intros Hok Ht%Z.eqb_eq. rewrite readable_visible by apply Hok. unfold visible_at, live_entry.
  pose proof (expired_lookup m key now_ms (proj1 Hok)) as E. rewrite (no_ttl_not_expired m key now_ms (proj1 Hok) Ht) in E.
  destruct (contents m !! key) as [s|]; [|done]. simpl in *. by rewrite <- E.
Qed.

Lemma flat_mode st S A B key : spaces st S A B → uses_flat_key_storage (st_mode st) key = true.
Proof. intros Hsp. by rewrite (sp_mode _ _ _ _ Hsp). Qed.

(** A read at a shard, of what the shard holds under the key. *)
Definition reads_at (sid : nat) st S A B (o : option StoredEntry) (v : option Bytes) st' : Prop :=
  goes st S A B st' ∧ st_shards st' = st_shards st ∧ ∃ now_ms, between st st' now_ms ∧ v = visible_at o now_ms.

Lemma does_get_shard st sid sh (Q : EmbeddedShard → EmbeddedStore → Prop) :
  st_shards st !! sid = Some sh → Q sh st → does (get_shard sid) st Q.
Proof. intros Hs Hq. exists sh, st. unfold get_shard. by rewrite Hs. Qed.

Lemma does_asks {T} (f : EmbeddedStore → T) st (Q : T → EmbeddedStore → Prop) : Q (f st) st → does (asks f) st Q.
Proof. by exists (f st), st. Qed.

Lemma does_lift {T} (x : option T) r st (Q : T → EmbeddedStore → Prop) : x = Some r → Q r st → does (lift x) st Q.
Proof. intros -> Hq. by exists r, st. Qed.

Lemma now_step st S A B :
  spaces st S A B →
  does (now_millis clock) st (λ now_ms st', goes st S A B st' ∧ st_shards st' = st_shards st ∧ between st st' now_ms ∧
                                           now_ms = clock (st_ticks st)).
Proof.
  intros Hsp. destruct Hsp. eexists _, _. split; [done|]. split; [split; [by split|simpl; lia]|]. split; [done|].
  split; [|done]. exists (st_ticks st). simpl. split; [lia|done].
Qed.

Lemma does_shared st S A B sid sh key :
  spaces st S A B → st_shards st !! sid = Some sh →
  does (shared_value clock (mkRoute sid (hash_key key)) key) st (reads_at sid st S A B (contents (es_map sh) !! key)).
Proof.
  intros Hsp Hs. assert (plain_shard B sh) as (Hf & _) by (eapply Forall_lookup_1; [apply Hsp|done]).
  unfold shared_value. eapply does_bind; [by eapply (does_get_shard _ _ _ (λ r st', r = sh ∧ st' = st))|].
  intros ? ? [-> ->]. simpl. destruct (has_no_ttl_entries (es_map sh)) eqn:Et.
  - apply does_ret. split; [by apply goes_refl|]. split; [done|]. exists (clock (st_ticks st)). split; [by exists (st_ticks st)|].
    by apply no_ttl_read.
  - eapply does_bind; [by eapply now_step|]. intros now_ms st1 (Hg & Es & Hb & _). apply does_ret. split; [done|].
    split; [done|]. exists now_ms. split; [done|]. by apply live_read.
Qed.

Lemma does_string_at st S A B sid sh key :
  spaces st S A B → st_shards st !! sid = Some sh →
  does (try_with_shared_value_bytes_routed clock (mkRoute sid (hash_key key)) key) st
    (reads_at sid st S A B (contents (es_map sh) !! key)).
Proof.
  intros Hsp Hs. assert (plain_shard B sh) as (Hf & _) by (eapply Forall_lookup_1; [apply Hsp|done]).
  unfold try_with_shared_value_bytes_routed. eapply does_bind; [by apply (does_asks _ _ (λ r st', r = st_mode st ∧ st' = st))|].
  intros ? ? [-> ->]. rewrite (flat_mode st S A B) by done. eapply does_bind; [by eapply does_shared|].
  intros v st1 (Hg & Es & now1 & Hb1 & ->). destruct (visible_at _ now1) as [v|] eqn:Ev.
  { apply does_ret. split; [done|]. split; [done|]. by exists now1. }
  eapply does_bind; [by eapply now_step, Hg|]. intros now2 st2 (Hg2 & Es2 & Hb2 & En2).
  unfold try_get_value_bytes_routed. eapply does_bind; [by apply (does_asks _ _ (λ r st', r = st_mode st2 ∧ st' = st2))|].
  intros ? ? [-> ->]. rewrite (flat_mode st2 S A B) by apply Hg2. eapply does_bind; [by apply (does_ret _ _ (λ r st', r = None ∧ st' = st2))|].
  intros ? ? [-> ->]. eapply does_bind.
  { eapply (does_get_shard _ _ sh (λ r st', r = sh ∧ st' = st2)); [|done]. simpl. by rewrite Es2, Es. }
  intros ? ? [-> ->]. apply does_ret. split; [by eapply goes_trans|]. split; [congruence|]. exists now2.
  split; [eapply between_wide; [| |done]; [apply Hg|done]|]. by apply live_read.
Qed.

(** The value of a key that is not protected. *)
Lemma does_string st S A B key :
  spaces st S A B →
  does (try_with_shared_value_bytes_routed clock (home_route key) key) st (reads_at (home key) st S A B (S !! key)).
Proof.
  intros Hsp. destruct (home_holds st S A B key Hsp) as (sh & Hs & _ & <-). by apply does_string_at.
Qed.

(** Vector sets are pinned only by the vector commands. *)
Lemma does_pinned st S A B key :
  spaces st S A B →
  does (distinct_pinned_vector clock (home_route key) key) st (λ r st', r = false ∧ goes st S A B st' ∧ st_shards st' = st_shards st).
Proof.
  intros Hsp. unfold distinct_pinned_vector. simpl. destruct (Nat.eqb_spec (home key) vector_shard_id) as [E|Hn].
  { apply does_ret. split; [done|]. by split; [apply goes_refl|]. }
  destruct (lookup_lt_is_Some_2 (st_shards st) vector_shard_id) as [sh Hs].
  { rewrite (sp_length _ _ _ _ Hsp). pose proof (home_lt key). unfold vector_shard_id. lia. }
  unfold pinned_vector_value_exists_routed. eapply does_bind; [by eapply does_string_at|].
  intros v st1 (Hg & Es & now1 & _ & ->). apply does_ret. split; [|done].
  destruct (contents (es_map sh) !! key) as [s|] eqn:Ec; [|done]. destruct Hn.
  symmetry. eapply (sp_placed _ _ _ _ Hsp); [done|]. by rewrite Ec.
Qed.

Lemma does_pinned_key st S A B key :
  spaces st S A B →
  does (pinned_vector_value_exists clock key) st (λ r st', r = false ∧ goes st S A B st' ∧ st_shards st' = st_shards st).
Proof.
  intros Hsp. unfold pinned_vector_value_exists.
  eapply does_bind; [by apply (does_route st S A B key (λ r st', r = home_route key ∧ st' = st))|].
  intros ? ? [-> ->]. by apply does_pinned.
Qed.

(** ** The objects of a key *)
Lemma home_fits st S A B key As : spaces st S A B → A !! home key = Some As → fits (Datatypes.S (stored As)).
Proof.
  intros Hsp HA. pose proof (Forall_lookup_1 _ _ _ _ (sp_few _ _ _ _ Hsp) HA) as Hle. pose proof (sp_room _ _ _ _ Hsp).
  simpl in Hle. unfold fits. lia.
Qed.

Lemma stored_put A key a a' B :
  obj A key = Some a → Forall (λ As, (Z.of_nat (stored As) ≤ B)%Z) A →
  (Z.of_nat (size (a_objs a')) ≤ Z.of_nat (size (a_objs a)) + 1)%Z →
  Forall (λ As, (Z.of_nat (stored As) ≤ B + 1)%Z) (put_obj A key a') ∧
  (size (a_objs a') ≤ size (a_objs a) → Forall (λ As, (Z.of_nat (stored As) ≤ B)%Z) (put_obj A key a')).
Proof.
  unfold obj. intros Ha Hf Hsz. destruct (A !! home key) as [As|] eqn:HA; [|done]. simpl in Ha.
  assert (∀ C, (Z.of_nat (stored (<[bucket_index (hash_key key) := a']> As)) ≤ C)%Z → (B ≤ C)%Z →
    Forall (λ As, (Z.of_nat (stored As) ≤ C)%Z) (put_obj A key a')) as Hall.
  { intros C HC HB. apply Forall_lookup. intros i x Hx. unfold put_obj, put_state in Hx.
    destruct (decide (i = home key)) as [->|Hn].
    - rewrite list_lookup_alter_eq, HA in Hx. by injection Hx as <-.
    - rewrite list_lookup_alter_ne in Hx by done. pose proof (Forall_lookup_1 _ _ _ _ Hf Hx) as Hle. simpl in Hle. lia. }
  pose proof (stored_insert As _ a a' Ha) as Es. pose proof (Forall_lookup_1 _ _ _ _ Hf HA) as Hle. simpl in Hle.
  split; [|intros Hs]; apply Hall; lia.
Qed.

(** The store with other objects, standing for [A']. *)
Lemma spaces_objects st S A A' B o :
  spaces st S A B → store_rep o A' → length A' = length A → Forall (λ As, (Z.of_nat (stored As) ≤ B)%Z) A' →
  spaces (mkEmbeddedStore (st_shards st) (st_counts st) o (st_shift st) (st_mode st) (st_ticks st) (st_points st) (st_vectors st))
    S A' B.
Proof. intros [] Ho Hl Hf. split; simpl; try done. congruence. Qed.

Lemma put_obj_length A key a : length (put_obj A key a) = length A.
Proof. apply length_alter. Qed.

Lemma note_put (o : RedisObjectStore (HT := HT) (OT := OT)) sid hash (b : bucket) osh :
  shards o !! sid = Some osh →
  note_deleted (put_bucket o sid hash b) sid =
    Some (put_bucket (noted o sid osh (wrap_i64 (object_count osh - 1)) (has_objects_hint o)) sid hash b).
Proof.
  intros Hs. unfold note_deleted, put_bucket, noted. simpl. rewrite list_lookup_alter_eq, Hs. simpl. do 2 f_equal.
  apply list_eq. intros i. destruct (decide (i = sid)) as [->|Hn].
  - pose proof (lookup_lt_Some _ _ _ Hs). rewrite list_lookup_insert_eq by by rewrite length_alter.
    rewrite list_lookup_alter_eq, list_lookup_insert_eq by done. done.
  - rewrite list_lookup_insert_ne, !list_lookup_alter_ne, list_lookup_insert_ne by done. done.
Qed.

Lemma does_read_bucket st S A B key a :
  spaces st S A B → obj A key = Some a → does (read_bucket (home_route key)) st (λ b st', bucket_rep b a ∧ st' = st).
Proof.
  intros Hsp Ha. destruct (home_bucket st S A B key Hsp) as (As & a' & HA & Hb & Ho). rewrite Ha in Ho. injection Ho as <-.
  destruct (store_bucket _ _ _ _ _ _ (sp_objects _ _ _ _ Hsp) HA Hb) as (osh & b & _ & Hg & Hrep & _).
  exists b, st. split; [|done]. unfold read_bucket, mbind, es_bind, asks, lift. simpl. by rewrite Hg.
Qed.

(** A removal from the bucket of a key, counted when it takes the object away. *)
Lemma does_removal st S A B key a (op : bucket → option (bool * bucket)) (r : bool) a' :
  spaces st S A B → obj A key = Some a →
  (∀ b, bucket_rep b a → ∃ b', op b = Some (r, b') ∧ bucket_rep b' a') →
  (Z.of_nat (size (a_objs a')) = Z.of_nat (size (a_objs a)) - bool_Z r)%Z →
  does (counted_removal (home_route key) op) st
    (λ r' st', r' = r ∧ goes st S (put_obj A key a') B st' ∧ st_shards st' = st_shards st ∧ st_ticks st' = st_ticks st).
Proof.
  intros Hsp Ha Hop Hsz. pose proof Ha as Ho. destruct (home_bucket st S A B key Hsp) as (As & a0 & HA & Hb & Ho').
  rewrite Ho in Ho'. injection Ho' as <-. pose proof (home_fits st S A B key As Hsp HA) as Hfit.
  destruct (store_bucket _ _ _ _ _ _ (sp_objects _ _ _ _ Hsp) HA Hb) as (osh & b & Hs & Hg & Hrep & Hc & Hle).
  destruct (Hop b Hrep) as (b' & E & Hb').
  unfold does, counted_removal, read_bucket, write_bucket, mbind, es_bind, asks, lift. simpl. rewrite Hg. simpl. rewrite E. simpl.
  assert (store_rep (put_bucket (noted (st_objects st) (home key) osh (object_count osh - bool_Z r) (has_objects_hint (st_objects st)))
    (home key) (hash_key key) b') (put_obj A key a')) as Hrep'.
  { eapply (store_put_rep _ A (home key) (hash_key key) osh As a); [apply Hsp|done|done|done|done| |lia].
    right. split; [done|]. unfold bool_Z. destruct r; lia. }
  destruct (stored_put A key a a' B Ho (sp_few _ _ _ _ Hsp)) as [_ Hfew]; [unfold bool_Z in *; destruct r; lia|].
  specialize (Hfew ltac:(unfold bool_Z in *; destruct r; lia)).
  destruct r; simpl in *.
  - unfold note_object_deleted, on_objects, mbind, es_bind, asks, lift, put_objects. simpl.
    rewrite (note_put (st_objects st) (home key) (hash_key key) b' osh Hs).
    rewrite wrap_i64_id by (unfold fits, is_i64, i64_MIN, i64_MAX in *; lia). simpl.
    eexists _, _. split; [done|]. split; [done|]. split; [|done]. split; [|done].
    by eapply (spaces_objects st S A _ B _ Hsp Hrep'); [apply put_obj_length|].
  - rewrite Z.sub_0_r, noted_same in Hrep' by done. eexists _, _. split; [done|]. split; [done|]. split; [|done]. split; [|done].
    by eapply (spaces_objects st S A _ B _ Hsp Hrep'); [apply put_obj_length|].
Qed.

Lemma does_has_objects st S A B key a :
  spaces st S A B → obj A key = Some a →
  does (shard_has_objects_at (home_route key)) st (λ r st', st' = st ∧ (r = false → a_objs a = ∅)).
Proof.
  intros Hsp Ha. pose proof Ha as Ho. destruct (home_bucket st S A B key Hsp) as (As & a0 & HA & Hb & Ho').
  rewrite Ho in Ho'. injection Ho' as <-.
  destruct (store_bucket _ _ _ _ _ _ (sp_objects _ _ _ _ Hsp) HA Hb) as (osh & b & Hs & _ & _ & Hc & _).
  unfold does, shard_has_objects_at, mbind, es_bind, asks, lift, shard_has_objects, shard_object_count_hint. simpl. rewrite Hs. simpl.
  eexists _, _. split; [done|]. split; [done|]. intros E%negb_false_iff%Nat.eqb_eq.
  eapply (stored_pos As); [by eapply list_elem_of_lookup_2|lia].
Qed.

Lemma obj_wf st S A B key a : spaces st S A B → obj A key = Some a → wf_a a.
Proof.
  intros Hsp Ha. destruct (does_read_bucket st S A B key a Hsp Ha) as (b & _ & _ & [_ Hw] & _). done.
Qed.

Lemma a_delete_absent a key : wf_a a → a_objs a !! key = None → a_delete a key = a.
Proof.
  intros Hw Hn. assert (a_exp a !! key = None) as He.
  { destruct (a_exp a !! key) eqn:E; [|done]. destruct (wf_exp a Hw key) as [? ?]; [eauto|congruence]. }
  assert (a_fexp a !! key = None) as Hf.
  { destruct (a_fexp a !! key) eqn:E; [|done]. destruct (wf_fexp a Hw _ _ E) as (_ & h & ? & _). congruence. }
  unfold a_delete. rewrite !delete_id by done. by destruct a.
Qed.

Lemma drop_without_object a key now_ms : wf_a a → a_has a key = false → a_drop_expired a key now_ms = (false, a).
Proof.
  intros Hw Hh. apply bool_decide_eq_false, eq_None_not_Some in Hh. unfold a_drop_expired.
  destruct (a_expired a key now_ms) eqn:E.
  { apply a_expired_has in E; [|done]. unfold a_has in E. by rewrite Hh in E. }
  unfold a_cleanup, a_purge, a_get. rewrite Hh. simpl. by rewrite Hh.
Qed.

Lemma after_read_absent a key now_ms : wf_a a → a_has a key = false → a_after_read a key now_ms = a.
Proof. intros Hw Hh. unfold a_after_read. by rewrite drop_without_object. Qed.

(** ** Changes of the string key space *)
Lemma spaces_shard st S A B w key sh' o :
  spaces st S A B → (0 ≤ w)%Z → (B + w + 1 < i64_MAX)%Z → plain_shard (B + w) sh' →
  (∀ sh, st_shards st !! home key = Some sh → contents (es_map sh') = put key o (contents (es_map sh))) →
  (∀ s, o = Some s → e_governance s = None) →
  spaces (mkEmbeddedStore (<[home key := sh']> (st_shards st)) (st_counts st) (st_objects st) (st_shift st) (st_mode st)
            (st_ticks st) (st_points st) (st_vectors st)) (put key o S) A (B + w).
Proof.
  intros [F1 F2 F3 F4 F5 F6 F7 F8 F9 F10 F11] Hw Hr Hsh Hc Ho.
  assert (Hlt : home key < length (st_shards st)) by (rewrite F3; apply home_lt).
  destruct (lookup_lt_is_Some_2 _ _ Hlt) as [sh0 Hs0]. specialize (Hc sh0 Hs0). split; simpl; try done.
  - by rewrite length_insert.
  - apply Forall_insert; [|done]. eapply Forall_impl; [done|]. intros x (?&?&?&?). split; [done|]. split; [done|]. split; [lia|done].
  - intros i sh key' Hi [s Hk']. destruct (decide (i = home key)) as [->|Hn].
    + rewrite list_lookup_insert_eq in Hi by done. injection Hi as <-. rewrite Hc in Hk'.
      destruct (decide (key' = key)) as [->|Hne]; [done|]. rewrite lookup_partial_alter_ne in Hk' by done. eapply F5; [done|eauto].
    + rewrite list_lookup_insert_ne in Hi by done. eapply F5; [done|eauto].
  - intros key' sh Hi. destruct (decide (key' = key)) as [->|Hne].
    + rewrite list_lookup_insert_eq in Hi by done. injection Hi as <-. rewrite Hc. by rewrite !lookup_partial_alter_eq.
    + rewrite lookup_partial_alter_ne by done. destruct (decide (home key' = home key)) as [Eh|Hn].
      * rewrite Eh, list_lookup_insert_eq in Hi by done. injection Hi as <-. rewrite Hc, lookup_partial_alter_ne by done.
        apply F6. by rewrite Eh.
      * rewrite list_lookup_insert_ne in Hi by done. by apply F6.
  - intros key' s. destruct (decide (key' = key)) as [->|Hne]; [rewrite lookup_partial_alter_eq; auto|].
    rewrite lookup_partial_alter_ne by done. apply F7.
  - eapply Forall_impl; [done|]. simpl. intros. lia.
Qed.

Lemma does_on_map {T} st S A B w key (f : FlatMap (HT := HT) → T * FlatMap (HT := HT)) r o :
  spaces st S A B → (0 ≤ w)%Z → (B + w + 1 < i64_MAX)%Z → (∀ s, o = Some s → e_governance s = None) →
  (∀ m, flat_ok m → memory_limit_bytes m = None → (budget m ≤ B)%Z → contents m !! key = S !! key →
        (f m).1 = r ∧ point key o w m (f m).2) →
  does (on_map (home key) f) st (λ r' st', r' = r ∧ goes st (put key o S) A (B + w) st' ∧ st_ticks st' = st_ticks st).
Proof.
  intros Hsp Hw Hr Ho Hf. destruct (home_holds st S A B key Hsp) as (sh & Hs & (P1 & P2 & P3 & P4 & P5) & Ek).
  destruct (Hf (es_map sh) P1 P2 P3 Ek) as [Er [Q1 Q2 Q3 Q4]].
  unfold does, on_map, get_shard, put_shard, mbind, es_bind. simpl. rewrite Hs. simpl. destruct (f (es_map sh)) as [r0 m']. simpl in *.
  eexists _, _. split; [done|]. split; [done|]. split; [|done]. split; [|done].
  apply spaces_shard; [done|done|done| | |done].
  - split; [done|]. split; [simpl; congruence|]. split; [simpl; lia|done].
  - intros sh1 Hs1. rewrite Hs in Hs1. by injection Hs1 as <-.
Qed.

Lemma live_plain st S A B key now_ms s :
  spaces st S A B → live_entry (S !! key) now_ms = Some s → e_governance s = None.
Proof.
  intros Hsp Hl. unfold live_entry in Hl. destruct (S !! key) as [s'|] eqn:Es; [|done]. simpl in Hl.
  destruct (s_expired s' now_ms); [done|]. injection Hl as <-. by apply (sp_plain _ _ _ _ Hsp key).
Qed.

(** ** Sessions hold nothing here *)
Lemma delete_no_session (s : SessionSlotMap (HT := HT)) p hash key :
  sessions s = [] → (slot_delete s p hash key).1 = false ∧ sessions (slot_delete s p hash key).2 = [].
Proof.
  intros E. unfold slot_delete, slot_delete_with.
  assert (sessions (reclaim_slots_if_quiescent s) = []) as Er.
  { unfold reclaim_slots_if_quiescent. by destruct (slots_have_readers s). }
  rewrite Er. simpl. by rewrite Er.
Qed.

Lemma get_no_session (s : SessionSlotMap (HT := HT)) p hash key :
  sessions s = [] → ∃ s', slot_get s p hash key = Some (None, s') ∧ sessions s' = [].
Proof.
  intros E. unfold slot_get, slot_should_sample, slot_get_shared.
  destruct (negb (track_access s) || negb (sample_reads s)); simpl; rewrite E; simpl; [by eexists|].
  destruct (Z.land _ _ =? 0)%Z; by eexists.
Qed.

Lemma spaces_slots st S A B key sh (s : SessionSlotMap (HT := HT)) :
  spaces st S A B → st_shards st !! home key = Some sh → sessions s = [] →
  spaces (mkEmbeddedStore (<[home key := with_slots sh s]> (st_shards st)) (st_counts st) (st_objects st) (st_shift st) (st_mode st)
            (st_ticks st) (st_points st) (st_vectors st)) S A B.
Proof.
  intros Hsp Hs Hn. pose proof (sp_map _ _ _ _ Hsp key sh Hs) as Ek. pose proof (sp_room _ _ _ _ Hsp).
  assert (put key (S !! key) S = S) as E.
  { apply map_eq. intros i. destruct (decide (i = key)) as [->|]; [by rewrite lookup_partial_alter_eq|by rewrite lookup_partial_alter_ne]. }
  assert (plain_shard B sh) as (?&?&?&?&?) by (eapply Forall_lookup_1; [apply Hsp|done]).
  pose proof (spaces_shard st S A B 0 key (with_slots sh s) (S !! key) Hsp) as Hsp'. rewrite Z.add_0_r, E in Hsp'.
  apply Hsp'; [done|lia|by split_and!| |by apply (sp_plain _ _ _ _ Hsp)].
  intros sh1 Hs1. rewrite Hs in Hs1. injection Hs1 as <-. simpl. apply map_eq. intros i.
  destruct (decide (i = key)) as [->|]; [by rewrite lookup_partial_alter_eq|by rewrite lookup_partial_alter_ne].
Qed.

(** Nothing of the key space changed. *)
Definition stays st S A B st' : Prop := goes st S A B st' ∧ st_ticks st' = st_ticks st.

Lemma does_delete_chunk st S A B key (p : option Bytes) :
  spaces st S A B → does (delete_session_chunk p (home_route key) key) st (λ r st', r = false ∧ stays st S A B st').
Proof.
  intros Hsp. destruct p as [p|]; [|apply does_ret; split; [done|by split; [apply goes_refl|]]].
  destruct (home_holds st S A B key Hsp) as (sh & Hs & (_&_&_&_&Hn) & _).
  unfold does, delete_session_chunk, get_shard, put_shard, mbind, es_bind. simpl. rewrite Hs. simpl.
  destruct (delete_no_session (session_slots sh) p (hash_key key) key Hn) as [Ea Es].
  destruct (slot_delete _ _ _ _) as [r s]. simpl in *. subst r. eexists _, _. split; [done|]. split; [done|].
  split; [|done]. split; [|done]. by apply spaces_slots.
Qed.

Lemma does_in_session st S A B key :
  spaces st S A B → does (in_session (home_route key) key) st (λ r st', r = false ∧ stays st S A B st').
Proof.
  intros Hsp. unfold in_session, session_value. destruct (derived_session_storage_prefix key) as [p|].
  2:{ apply does_ret. split; [done|]. by split; [apply goes_refl|]. }
  destruct (home_holds st S A B key Hsp) as (sh & Hs & (_&_&_&_&Hn) & _).
  destruct (get_no_session (session_slots sh) p (hash_key key) key Hn) as (s & E & Es).
  unfold does, get_shard, put_shard, lift, mbind, es_bind. simpl. rewrite Hs. simpl. rewrite E. simpl.
  eexists _, _. split; [done|]. split; [done|]. split; [|done]. split; [|done]. by apply spaces_slots.
Qed.

Lemma does_checked st S A B key (Q : Store.EmbeddedKeyRoute → EmbeddedStore → Prop) :
  spaces st S A B → Q (home_route key) st → does (checked_route (home_route key) key) st Q.
Proof.
  intros Hsp Hq. exists (home_route key), st. split; [|done]. unfold checked_route, asks, mbind, es_bind. simpl.
  rewrite (proj2 (Nat.ltb_lt _ _)); [done|]. rewrite (sp_length _ _ _ _ Hsp). apply home_lt.
Qed.

(** Telling the observers. *)
Lemma spaces_told st S A B points vectors :
  spaces st S A B →
  spaces (mkEmbeddedStore (st_shards st) (st_counts st) (st_objects st) (st_shift st) (st_mode st) (st_ticks st) points vectors) S A B.
Proof. intros []. by split. Qed.

Lemma does_notify st S A B kind key v at_ms g :
  spaces st S A B → does (notify_point_mutation kind key v at_ms g) st (λ _ st', stays st S A B st').
Proof. intros Hsp. eexists _, _. split; [done|]. split; [|done]. split; [by apply spaces_told|done]. Qed.

Lemma does_notify_vector st S A B kind key v at_ms :
  spaces st S A B → does (notify_vector_mutation kind key v at_ms) st (λ _ st', stays st S A B st').
Proof. intros Hsp. eexists _, _. split; [done|]. split; [|done]. split; [by apply spaces_told|done]. Qed.

Lemma does_refresh st S A B key :
  spaces st S A B → does (refresh_string_key_count (home key)) st (λ _ st', stays st S A B st').
Proof.
  intros Hsp. destruct (home_holds st S A B key Hsp) as (sh & Hs & _). unfold does, refresh_string_key_count. rewrite Hs. simpl.
  eexists _, _. split; [done|]. split; [|done]. split; [|done]. destruct Hsp. by split.
Qed.

(** ** Taking the object of a key away *)
Lemma does_delete_object st S A B key a :
  spaces st S A B → obj A key = Some a →
  does (counted_removal (home_route key) (λ b, Some (delete_any b key))) st
    (λ r st', r = a_has a key ∧ stays st S (put_obj A key (a_delete a key)) B st' ∧ st_shards st' = st_shards st).
Proof.
  intros Hsp Ha. eapply does_mono; [eapply (does_removal st S A B key a _ (a_has a key) (a_delete a key) Hsp Ha)|].
  - intros b Hb. destruct (delete_any_spec b a key Hb) as (b' & E & Hb'). exists b'. by rewrite E.
  - pose proof (toggles_bool_Z key a (a_delete a key) (a_has a key)) as Ht. unfold bool_Z.
    destruct (a_has a key) eqn:Eh; [rewrite Ht; [lia|by apply toggles_delete]|].
    rewrite a_delete_absent; [lia|by eapply obj_wf|]. by apply bool_decide_eq_false, eq_None_not_Some in Eh.
  - intros r st' (-> & Hg & Es & Et). by split.
Qed.

Lemma does_drop_object st S A B key a now_ms :
  spaces st S A B → obj A key = Some a →
  does (counted_removal (home_route key) (λ b, Some (delete_expired b key now_ms))) st
    (λ r st', r = a_expired a key now_ms ∧ stays st S (put_obj A key (a_delete_expired a key now_ms).2) B st' ∧ st_shards st' = st_shards st).
Proof.
  intros Hsp Ha. eapply does_mono; [eapply (does_removal st S A B key a _ (a_expired a key now_ms) (a_delete_expired a key now_ms).2 Hsp Ha)|].
  - intros b Hb. destruct (delete_expired_spec b a key now_ms Hb) as (b' & E & Hb'). exists b'. rewrite E. split; [|done].
    unfold a_delete_expired. by destruct (a_expired a key now_ms).
  - unfold a_delete_expired, bool_Z. destruct (a_expired a key now_ms) eqn:Ee; simpl; [|lia].
    pose proof (a_expired_has a key now_ms (obj_wf _ _ _ _ _ _ Hsp Ha) Ee) as Eh.
    pose proof (toggles_bool_Z key a (a_delete a key) true (toggles_delete key a Eh)) as Ht. rewrite Eh in Ht. simpl in Ht. lia.
  - intros r st' (-> & Hg & Es & Et). by split.
Qed.

Lemma does_drop_hash st S A B key a now_ms :
  spaces st S A B → obj A key = Some a →
  does (counted_removal (home_route key) (λ b, remove_expired_hash_if_empty b key now_ms)) st
    (λ r st', r = (a_cleanup a key now_ms).1 ∧ stays st S (put_obj A key (a_cleanup a key now_ms).2) B st' ∧ st_shards st' = st_shards st).
Proof.
  intros Hsp Ha. eapply does_mono; [eapply (does_removal st S A B key a _ (a_cleanup a key now_ms).1 (a_cleanup a key now_ms).2 Hsp Ha)|].
  - intros b Hb. destruct (remove_expired_hash_if_empty_spec b a key now_ms Hb) as (b' & E & Hb'). by exists b'.
  - pose proof (toggles_drop_expired a key now_ms (obj_wf _ _ _ _ _ _ Hsp Ha)) as Ht.
    pose proof (drop_had a key now_ms (obj_wf _ _ _ _ _ _ Hsp Ha)) as Hhad.
    assert (∀ c : bool * AState, toggles key a c.2 c.1 → (c.1 = true → a_has a key = true) →
      (Z.of_nat (size (a_objs c.2)) = Z.of_nat (size (a_objs a)) - bool_Z c.1)%Z) as Hx.
    { intros [r c] Ht' Hr. simpl in *. rewrite (toggles_bool_Z _ _ _ _ Ht'). unfold bool_Z. destruct r; [rewrite Hr by done|]; lia. }
    unfold a_drop_expired in *. destruct (a_expired a key now_ms) eqn:Ee; [|by apply Hx].
    apply Hx.
    + pose proof (a_expired_has a key now_ms (obj_wf _ _ _ _ _ _ Hsp Ha) Ee) as Eh.
      unfold a_cleanup. case_bool_decide as Hc; simpl.
      * split; [intros k0 Hk0; simpl; rewrite lookup_delete_ne by done; by apply a_purge_objs|].
        rewrite Eh. unfold a_has. simpl. by rewrite lookup_delete_eq.
      * split; [intros; by apply a_purge_objs|]. rewrite a_purge_has. by destruct (a_has a key).
    + intros _. by eapply a_expired_has, Ee; eapply obj_wf.
  - intros r st' (-> & Hg & Es & Et). by split.
Qed.

(** ** Whether a key has a live object *)
Lemma expired_guard (b : bucket) a key now_ms :
  bucket_rep b a → has_expirations b && object_is_expired b key now_ms = a_expired a key now_ms.
Proof.
  intros [Hp _]. unfold has_expirations. rewrite (phys_exp _ _ Hp), (object_is_expired_spec b a) by done.
  case_bool_decide as He; [|done]. unfold a_expired. by rewrite He, lookup_empty.
Qed.

Lemma visible_has a key now_ms : wf_a a → a_has (a_after_read a key now_ms) key = a_visible a now_ms key.
Proof.
  clear - a. intros Hw. unfold a_after_read. pose proof (toggles_drop_expired a key now_ms Hw) as [_ Ht].
  pose proof (drop_had a key now_ms Hw) as Hhad. unfold a_drop_expired, a_visible in *.
  destruct (a_expired a key now_ms) eqn:Ee; simpl.
  { unfold a_has. simpl. by rewrite lookup_delete_eq. }
  unfold a_cleanup in *. destruct (a_get KHash a key) as [h|] eqn:Eg.
  - destruct (a_purge_fields a key now_ms h Hw Eg) as [_ Ep]. pose proof (proj1 (a_get_Some _ _ _ _) Eg) as Eo.
    rewrite Ep, Eo. simpl. destruct (decide (a_live a key now_ms h = ∅)) as [E|E].
    + rewrite !bool_decide_eq_true_2 by congruence. simpl. rewrite bool_decide_eq_false_2 by naive_solver.
      unfold a_has. simpl. by rewrite lookup_delete_eq.
    + rewrite bool_decide_eq_false_2 by naive_solver. simpl. rewrite bool_decide_eq_true_2 by done. by eapply a_has_Some.
  - assert (a_purge a key now_ms = a) as -> by (unfold a_purge; by rewrite Eg). rewrite Eg. simpl.
    unfold a_has, a_get in *. destruct (a_objs a !! key) as [[]|]; simpl in *; try done.
Qed.

Lemma contains_live_spec (b : bucket) a key now_ms :
  bucket_rep b a → contains_live_object b key now_ms = Some (a_visible a now_ms key).
Proof.
  intros Hb. unfold contains_live_object, a_visible. rewrite (object_is_expired_spec b a) by apply Hb.
  destruct (a_expired a key now_ms); [done|]. simpl. rewrite (hash_has_live_fields_spec b a) by done. simpl.
  change (lists b) with (tbl KList b). change (sets b) with (tbl Bucket.KSet b).
  change (zsets b) with (tbl KZSet b). rewrite !(contains_spec _ b a key (proj1 Hb)).
  unfold a_hash_live, a_get. by destruct (a_objs a !! key) as [[]|]; simpl; rewrite ?orb_false_r.
Qed.

Lemma empty_absent a key now_ms : wf_a a → a_objs a = ∅ → a_has a key = false ∧ a_after_read a key now_ms = a.
Proof.
  intros Hw E. assert (a_has a key = false) as Hh by (unfold a_has; by rewrite E, lookup_empty).
  split; [done|]. by apply after_read_absent.
Qed.

(** What the two object checks of the string commands leave behind. *)
Definition checked st S A B key a st' now_ms : Prop :=
  between st st' now_ms ∧ goes st S (put_obj A key (a_after_read a key now_ms)) B st'.

Lemma object_check_steps st st1 S A B key a now_ms (b : bucket) {T} (gone : T) (rest : ES T) (Q : T → EmbeddedStore → Prop) :
  goes st S A B st1 → obj A key = Some a → bucket_rep b a → between st st1 now_ms →
  (∀ st', checked st S A B key a st' now_ms → a_visible a now_ms key = false → Q gone st') →
  (a_after_read a key now_ms = a → does rest st1 Q) →
  does (if has_expirations b && object_is_expired b key now_ms
        then counted_removal (home_route key) (λ b, Some (delete_expired b key now_ms)) ≫= λ _, mret gone
        else lift (hash_needs_empty_expiry_cleanup b key now_ms) ≫= λ cleanup : bool,
             if cleanup then counted_removal (home_route key) (λ b, remove_expired_hash_if_empty b key now_ms) ≫= λ _, mret gone
             else rest) st1 Q.
Proof.
  intros [Hsp Ht] Ha Hb Hn Hgone Hrest. pose proof (read_prepare key a now_ms b Hb) as Hr.
  pose proof (visible_has a key now_ms (obj_wf _ _ _ _ _ _ Hsp Ha)) as Hv. rewrite (expired_guard b a) in * by done.
  unfold a_after_read, a_drop_expired in *. destruct (a_expired a key now_ms) eqn:Ee; simpl in *.
  - eapply does_bind; [by eapply does_drop_object|]. intros r st' (-> & ([Hsp' Ht'] & Et) & _). apply does_ret.
    unfold a_delete_expired in Hsp'. rewrite Ee in Hsp'. apply Hgone.
    + split; [eapply between_wide; [| |done]; [done|lia]|]. unfold a_after_read, a_drop_expired. rewrite Ee. simpl. split; [done|lia].
    + rewrite <- Hv. unfold a_has. simpl. by rewrite lookup_delete_eq.
  - destruct Hr as [Hc _]. eapply does_bind; [by apply (does_lift _ _ _ (λ r st', r = (a_cleanup a key now_ms).1 ∧ st' = st1) Hc)|].
    intros ? ? [-> ->]. destruct (a_cleanup a key now_ms).1 eqn:Ec.
    + eapply does_bind; [by eapply does_drop_hash|]. intros r st' (-> & ([Hsp' Ht'] & Et) & _). apply does_ret. apply Hgone.
      * split; [eapply between_wide; [| |done]; [done|lia]|]. unfold a_after_read, a_drop_expired. rewrite Ee, Ec. split; [done|lia].
      * rewrite <- Hv. pose proof (a_has_drop key a now_ms (obj_wf _ _ _ _ _ _ Hsp Ha)) as Hd. unfold a_drop_expired in Hd.
        rewrite Ee in Hd. by apply Hd.
    + by apply Hrest.
Qed.

Lemma unchecked st S A B key a :
  spaces st S A B → obj A key = Some a → a_objs a = ∅ →
  checked st S A B key a st (clock (st_ticks st)) ∧ ∀ now_ms, a_visible a now_ms key = false.
Proof.
  intros Hsp Ha E. pose proof (obj_wf _ _ _ _ _ _ Hsp Ha) as Hw. split.
  - split; [by exists (st_ticks st)|]. rewrite (proj2 (empty_absent a key _ Hw E)), put_obj_same by done. by apply goes_refl.
  - intros now_ms. rewrite <- visible_has by done. by destruct (empty_absent a key now_ms Hw E) as [? ->].
Qed.

Lemma does_refuses st S A B key a :
  spaces st S A B → obj A key = Some a →
  does (object_refuses clock (home_route key) key) st
    (λ r st', ∃ now_ms, checked st S A B key a st' now_ms ∧ r = a_visible a now_ms key).
Proof.
  intros Hsp Ha. unfold object_refuses. eapply does_bind; [by eapply does_has_objects|]. intros r ? [-> Hr].
  destruct r; simpl.
  2:{ apply does_ret. destruct (unchecked st S A B key a Hsp Ha (Hr eq_refl)) as [Hc Hv]. eexists. split; [done|]. by rewrite Hv. }
  eapply does_bind; [by eapply now_step|]. intros now_ms st1 (Hg & _ & Hn & _).
  eapply does_bind; [by eapply does_read_bucket; [apply Hg|]|]. intros b ? [Hb ->].
  pose proof (obj_wf _ _ _ _ _ _ Hsp Ha) as Hw.
  eapply object_check_steps; [done|done|done|done| |].
  - intros st' Hc Hv. exists now_ms. by rewrite Hv.
  - intros E. apply does_ret. exists now_ms. split.
    + split; [done|]. by rewrite E, put_obj_same.
    + rewrite (contains_object_spec b a) by apply Hb. by rewrite <- visible_has, E.
Qed.

Lemma does_lookup st S A B key a :
  spaces st S A B → obj A key = Some a →
  does (object_lookup_for_string_route clock (home_route key) key) st
    (λ r st', ∃ now_ms, checked st S A B key a st' now_ms ∧
              default LookupMiss r = if a_visible a now_ms key then LookupWrongType else LookupMiss).
Proof.
  intros Hsp Ha. unfold object_lookup_for_string_route. eapply does_bind; [by eapply does_has_objects|]. intros r ? [-> Hr].
  destruct r; simpl.
  2:{ apply does_ret. destruct (unchecked st S A B key a Hsp Ha (Hr eq_refl)) as [Hc Hv]. eexists. split; [done|]. by rewrite Hv. }
  eapply does_bind; [by eapply does_read_bucket|]. intros b ? [Hb ->].
  eapply does_bind; [by eapply now_step|]. intros now_ms st1 (Hg & _ & Hn & _).
  eapply object_check_steps; [done|done|done|done| |].
  - intros st' Hc Hv. exists now_ms. by rewrite Hv.
  - intros E. eapply does_bind; [by apply (does_lift _ _ _ (λ r st', r = a_visible a now_ms key ∧ st' = st1) (contains_live_spec b a key now_ms Hb))|].
    intros ? ? [-> ->]. apply does_ret. exists now_ms. split.
    + split; [done|]. by rewrite E, put_obj_same.
    + by destruct (a_visible a now_ms key).
Qed.

(** GET: the string, or the check for an object. *)
Lemma does_get st S A B key a :
  spaces st S A B → obj A key = Some a →
  does (get_string_value_into clock key) st (λ r st', ∃ now_ms, between st st' now_ms ∧
    match visible_at (S !! key) now_ms with
    | Some v => r = (if is_vector_value v then (LookupWrongType, None) else (LookupHit, Some v)) ∧ goes st S A B st'
    | None => r = (if a_visible a now_ms key then LookupWrongType else LookupMiss, None) ∧
              goes st S (put_obj A key (a_after_read a key now_ms)) B st'
    end).
Proof.
  intros Hsp Ha. unfold get_string_value_into. eapply does_bind; [by apply (does_route st S A B key (λ r st', r = home_route key ∧ st' = st))|].
  intros ? ? [-> ->]. unfold get_raw_string_value_routed_into. eapply does_bind.
  { eapply does_bind; [by eapply does_string|]. intros v st1 (Hg1 & _ & now1 & Hn1 & ->).
    destruct (visible_at (S !! key) now1) as [v|] eqn:Ev.
    - apply (does_ret _ _ (λ r st', (goes st S A B st' ∧ ∃ now_ms v, between st st' now_ms ∧ visible_at (S !! key) now_ms = Some v ∧
               r = (LookupHit, Some v)) ∨ ∃ now_ms, between st st' now_ms ∧ visible_at (S !! key) now_ms = None ∧
               r = (if a_visible a now_ms key then LookupWrongType else LookupMiss, None) ∧
               goes st S (put_obj A key (a_after_read a key now_ms)) B st')). left. split; [done|]. by exists now1, v.
    - eapply does_bind; [by eapply does_lookup, Ha; apply Hg1|]. intros r st2 (now2 & [Hn2 Hg2] & Er). apply does_ret. right.
      exists now2. split; [eapply between_wide; [| |done]; [apply Hg1|done]|]. split; [|by rewrite Er; split; [|eapply goes_trans]].
      eapply visible_later; [|done]. destruct Hn1 as (n1 & ? & ->), Hn2 as (n2 & ? & ->). apply clock_le. lia. }
  intros [lookup v] st1 [(Hg & now1 & v1 & Hn & Ev & E)|(now1 & Hn & Ev & E & Hg)]; injection E as -> ->.
  - apply does_ret. exists now1. rewrite Ev. by split_and!.
  - destruct (a_visible a now1 key) eqn:Ea; [apply does_ret; exists now1; rewrite Ev, Ea; by split_and!|].
    eapply does_bind; [by eapply does_pinned_key, Hg|]. intros ? st2 (-> & Hg2 & _). apply does_ret. exists now1. rewrite Ev, Ea.
    split; [eapply between_wide; [| |done]; [done|apply Hg2]|]. split; [done|]. by eapply goes_trans.
Qed.

(** ** Keys hold one thing *)

(** A key with an object has no live string at time [t]. *)
Definition apart S A (t : Z) : Prop :=
  ∀ key s a, S !! key = Some s → obj A key = Some a → a_has a key = true → s_expired s t = true.

Lemma apart_dead S A (t now_ms : Z) key a :
  apart S A t → (t ≤ now_ms)%Z → obj A key = Some a → a_has a key = true → live_entry (S !! key) now_ms = None.
Proof.
  intros Hap Hle Ha Hh. destruct (S !! key) as [s|] eqn:Es; [|done]. simpl.
  by rewrite (expired_later s t now_ms Hle (Hap key s a Es Ha Hh)).
Qed.

(** The function a transform applies, with the guards of the store. *)
Definition guarded {R} key (f : option Bytes → option (Frame + (R * Bytes))) (existing : option Bytes) :
    option (Frame + (R * Bytes)) :=
  if from_option is_vector_value false existing then Some (inl wrongtype)
  else match f existing with
       | Some (inr (r, value)) => if accepts key (blen value) None then Some (inr (r, value)) else Some (inl mutation_rejected)
       | other => other
       end.

Definition transform_weight {R} key (x : option (Frame + (R * Bytes))) : Z :=
  match x with Some (inr (_, value)) => s_weight (mkEntry key value None None) | _ => 0 end.

(** What a transform leaves of the string key space. *)
Definition transformed {R} S key now_ms (x : option (Frame + (R * Bytes))) : option StoredEntry :=
  match x with Some (inr (_, value)) => Some (mkEntry key value None None) | _ => live_entry (S !! key) now_ms end.

Lemma transform_point {R} (m : FlatMap (HT := HT)) S key now_ms (f : option Bytes → option (Frame + (R * Bytes))) B :
  flat_ok m → memory_limit_bytes m = None → (budget m ≤ B)%Z → contents m !! key = S !! key →
  let x := guarded key f (visible_at (S !! key) now_ms) in
  (B + transform_weight key x + 1 < i64_MAX)%Z →
  let g := λ existing, match (if from_option is_vector_value false existing then Some (inl wrongtype) else f existing) with
                       | None => inl None
                       | Some (inl frame) => inl (Some frame)
                       | Some (inr (r, value)) =>
                           if accepts key (blen value) None then inr ((r, value), value) else inl (Some mutation_rejected)
                       end in
  (transform_value_hashed m (hash_key key) key now_ms true g).1 =
    match x with Some (inr (r, value)) => inr (r, value) | Some (inl frame) => inl (Some frame) | None => inl None end ∧
  point key (transformed S key now_ms x) (transform_weight key x) m (transform_value_hashed m (hash_key key) key now_ms true g).2.
Proof.
  intros Hok Hl HB Ek x Hr g.
  assert (g (visible_at (S !! key) now_ms) =
    match x with Some (inr (r, value)) => inr ((r, value), value) | Some (inl frame) => inl (Some frame) | None => inl None end) as Eg.
  { unfold g, x, guarded. destruct (from_option _ _ _); [done|]. destruct (f _) as [[frame|[r value]]|]; try done.
    by destruct (accepts key (blen value) None). }
  pose proof (transform_spec m key true g now_ms Hok) as Ht. rewrite !purge_lookup, Ek in Ht. fold (visible_at (S !! key) now_ms) in Ht.
  rewrite Eg in Ht. specialize (Ht ltac:(unfold transform_weight, u64_MAX, i64_MAX in *; destruct x as [[|[]]|]; simpl in *; lia)).
  destruct x as [[frame|[r value]]|]; simpl in Ht |- *.
  - destruct Ht as (Ea & [? Ec ? ?] & [El _] & _). split; [done|]. split; [done| |congruence|done]. rewrite Ec, purge_put, Ek. done.
  - destruct Ht as (Ea & m1 & [? Ec ? ?] & [El _] & Em). split; [done|]. rewrite Em, enforce_below by by rewrite El, Hl.
    split; [done| |congruence|done]. by rewrite Ec, purge_put, put_insert, put_put.
  - destruct Ht as (Ea & [? Ec ? ?] & [El _] & _). split; [done|]. split; [done| |congruence|done]. rewrite Ec, purge_put, Ek. done.
Qed.

Lemma spaces_more st S A B (B' : Z) : spaces st S A B → (B ≤ B')%Z → (B' + 1 < i64_MAX)%Z → spaces st S A B'.
Proof.
  intros [] Hle Hr. split; try done.
  - eapply Forall_impl; [done|]. intros x (?&?&?&?). split; [done|]. split; [done|]. split; [lia|done].
  - eapply Forall_impl; [done|]. simpl. intros. lia.
Qed.

Lemma goes_more st S A B (B' : Z) st' : goes st S A B st' → (B ≤ B')%Z → (B' + 1 < i64_MAX)%Z → goes st S A B' st'.
Proof. intros [? ?] ? ?. split; [|done]. by eapply spaces_more. Qed.

Definition transform_answer {R} (x : option (Frame + (R * Bytes))) (r : Frame + R) : Prop :=
  match x with Some (inr (r0, _)) => r = inr r0 | Some (inl frame) => r = inl frame | None => False end.

Lemma guarded_total {R} key (f : option Bytes → Frame + (R * Bytes)) existing : guarded key (λ e, Some (f e)) existing ≠ None.
Proof.
  unfold guarded. destruct (from_option _ _ _); [done|]. destruct (f existing) as [|[r value]]; [done|].
  by destruct (accepts key (blen value) None).
Qed.

Lemma transformed_plain {R} st S A B key now_ms (x : option (Frame + (R * Bytes))) s :
  spaces st S A B → transformed S key now_ms x = Some s → e_governance s = None.
Proof.
  intros Hsp. destruct x as [[frame|[r value]]|]; simpl; [by eapply live_plain|by intros [= <-]|by eapply live_plain].
Qed.

Lemma does_transform_locked {R} st S A B (w : Z) key (f : option Bytes → Frame + (R * Bytes)) :
  spaces st S A B → (B + w + 1 < i64_MAX)%Z →
  (∀ now_ms, (0 ≤ transform_weight key (guarded key (λ e, Some (f e)) (visible_at (S !! key) now_ms)) ≤ w)%Z) →
  does (transform_locked clock accepts (home_route key) key
          (λ existing, if from_option is_vector_value false existing then Some (inl wrongtype) else Some (f existing))) st
    (λ r st', ∃ now_ms, between st st' now_ms ∧
       let x := guarded key (λ e, Some (f e)) (visible_at (S !! key) now_ms) in
       transform_answer x r ∧ goes st (put key (transformed S key now_ms x) S) A (B + w) st').
Proof.
  intros Hsp Hr Hw. unfold transform_locked. eapply does_bind; [by eapply now_step|]. intros now_ms st1 (Hg & _ & Hn & _).
  pose proof (Hw now_ms) as Hx. pose proof (guarded_total key f (visible_at (S !! key) now_ms)) as Htot.
  remember (guarded key (λ e, Some (f e)) (visible_at (S !! key) now_ms)) as x eqn:Ex.
  eapply does_bind.
  { eapply (does_on_map st1 S A B (transform_weight key x) key); [apply Hg|lia|lia| |].
    - intros s. eapply (transformed_plain st1 S A B key now_ms x s), Hg.
    - intros m Hok Hl HB Ek. pose proof (transform_point m S key now_ms (λ e, Some (f e)) B Hok Hl HB Ek) as Ht.
      cbv zeta in Ht. rewrite <- Ex in Ht. apply Ht. lia. }
  intros r st2 (-> & Hg2 & Et).
  assert (between st st2 now_ms) as Hn2 by (eapply between_wide; [| |done]; [done|lia]).
  destruct x as [[frame|[r value]]|]; simpl; [| |done].
  - apply does_ret. exists now_ms. split; [done|]. cbv zeta. rewrite <- Ex. split; [done|].
    eapply goes_trans; [done|]. eapply goes_more; [done|simpl in *; lia|lia].
  - eapply does_bind; [by eapply does_refresh, Hg2|]. intros _ st3 [Hg3 Et3].
    eapply does_bind; [by eapply does_notify, Hg3|]. intros _ st4 [Hg4 Et4]. apply does_ret. exists now_ms.
    split; [eapply between_wide; [| |done]; [done|lia]|]. cbv zeta. rewrite <- Ex. split; [done|].
    apply (goes_more st _ A (B + transform_weight key (Some (inr (r, value) : Frame + (R * Bytes))))); [|lia|lia].
    eapply goes_trans; [done|]. eapply goes_trans; [done|]. by eapply goes_trans.
Qed.

Lemma does_transform {R} st S A B (w : Z) key a (f : option Bytes → Frame + (R * Bytes)) :
  spaces st S A B → obj A key = Some a → apart S A (clock (st_ticks st)) → (B + w + 1 < i64_MAX)%Z →
  (∀ now_ms, (0 ≤ transform_weight key (guarded key (λ e, Some (f e)) (visible_at (S !! key) now_ms)) ≤ w)%Z) →
  does (transform_string_value_no_ttl clock accepts key (λ e, Some (f e))) st
    (λ r st', ∃ now_ms, between st st' now_ms ∧
       if a_visible a now_ms key then r = inl wrongtype ∧ goes st S (put_obj A key (a_after_read a key now_ms)) (B + w) st'
       else let x := guarded key (λ e, Some (f e)) (visible_at (S !! key) now_ms) in
            transform_answer x r ∧
            goes st (put key (transformed S key now_ms x) S) (put_obj A key (a_after_read a key now_ms)) (B + w) st').
Proof.
  intros Hsp Ha Hap Hr Hw. pose proof (Hw 0%Z) as Hw0. pose proof (obj_wf _ _ _ _ _ _ Hsp Ha) as Hwf.
  unfold transform_string_value_no_ttl, transform_raw_string_value_no_ttl.
  eapply does_bind; [by eapply does_pinned_key|]. intros ? st1 (-> & Hg1 & _).
  eapply does_bind; [by apply (does_route st1 S A B key (λ r st', r = home_route key ∧ st' = st1)); [apply Hg1|]|]. intros ? ? [-> ->].
  eapply does_bind; [by eapply does_refuses, Ha; apply Hg1|]. intros r st2 (now2 & [Hn2 Hg2] & ->).
  assert (Hn : between st st2 now2) by (eapply between_wide; [| |done]; [apply Hg1|done]).
  destruct (a_visible a now2 key) eqn:Ev.
  { apply does_ret. exists now2. rewrite Ev. split; [done|]. split; [done|]. eapply goes_more; [by eapply goes_trans|lia|lia]. }
  eapply does_mono; [by eapply does_transform_locked; [apply Hg2| |]|]. intros r st3 (now3 & Hn3 & Hx & Hg3).
  assert (Hle : (now2 ≤ now3)%Z).
  { destruct Hn2 as (n2 & ? & ->), Hn3 as (n3 & ? & ->). apply clock_le. lia. }
  assert (Hg : goes st (put key (transformed S key now3 (guarded key (λ e, Some (f e)) (visible_at (S !! key) now3))) S)
                 (put_obj A key (a_after_read a key now2)) (B + w) st3).
  { eapply goes_trans; [done|]. by eapply goes_trans. }
  destruct (a_has a key) eqn:Eh.
  - assert (Hd : ∀ now_ms, (clock (st_ticks st) ≤ now_ms)%Z → live_entry (S !! key) now_ms = None)
      by (intros now_ms Hnow; by eapply apart_dead).
    assert (clock (st_ticks st) ≤ now2)%Z by (destruct Hn as (n & ? & ->); apply clock_le; lia).
    exists now2. split; [eapply between_wide; [| |done]; [done|apply Hg3]|]. rewrite Ev.
    unfold visible_at, transformed in *. rewrite !Hd in * by lia. done.
  - exists now3. split; [eapply between_wide; [| |done]; [|done]; etrans; [apply Hg1|apply Hg2]|].
    rewrite <- visible_has, after_read_absent in * by done. rewrite Eh. done.
Qed.

(** ** Deletion *)
Lemma put_same S key : put key (S !! key) S = S.
Proof.
  apply map_eq. intros i. destruct (decide (i = key)) as [->|]; [by rewrite lookup_partial_alter_eq|by rewrite lookup_partial_alter_ne].
Qed.

(** A shard changed without a change of its contents. *)
Lemma spaces_same_contents st S A B i sh sh' :
  spaces st S A B → st_shards st !! i = Some sh → plain_shard B sh' → contents (es_map sh') = contents (es_map sh) →
  spaces (mkEmbeddedStore (<[i := sh']> (st_shards st)) (st_counts st) (st_objects st) (st_shift st) (st_mode st)
            (st_ticks st) (st_points st) (st_vectors st)) S A B.
Proof.
  intros [F1 F2 F3 F4 F5 F6 F7 F8 F9 F10 F11] Hi Hp Ec. split; simpl; try done.
  - by rewrite length_insert.
  - by apply Forall_insert.
  - intros j x key. rewrite list_lookup_insert_Some. intros [(<- & <- & _)|[_ Hx]]; [rewrite Ec|]; eauto.
  - intros key x. rewrite list_lookup_insert_Some. intros [(E & <- & _)|[_ Hx]]; [rewrite Ec|]; [|by apply F6].
    apply F6. by rewrite <- E.
Qed.

(** Looking for a vector set drops the entry of the key if it expired by
    [now_ms], but only on the shard of the vector sets. *)
Definition settled S key now_ms : Entries :=
  if decide (home key = vector_shard_id) then put key (live_entry (S !! key) now_ms) S else S.

Lemma settled_or S key now_ms :
  settled S key now_ms = S ∨ settled S key now_ms = put key (live_entry (S !! key) now_ms) S.
Proof. unfold settled. case_decide; auto. Qed.

Lemma settled_none S key now_ms now' :
  live_entry (S !! key) now_ms = None → live_entry (S !! key) now' = None → settled S key now_ms = settled S key now'.
Proof. intros E1 E2. unfold settled. by rewrite E1, E2. Qed.

Lemma does_clone_vector st S A B key :
  spaces st S A B →
  does (clone_vector_value clock key) st
    (λ _ st', ∃ now_ms, between st st' now_ms ∧ goes st (settled S key now_ms) A B st').
Proof.
  intros Hsp. pose proof (sp_room _ _ _ _ Hsp) as Hroom. unfold clone_vector_value, clone_vector_value_state.
  eapply (does_bind _ _ _ (λ _ st', ∃ now_ms, between st st' now_ms ∧ goes st (settled S key now_ms) A B st'));
    [|intros r st' Hr; by apply does_ret].
  eapply does_bind; [by eapply now_step|]. intros now_ms st1 (Hg & _ & Hn & _).
  assert (0 ≤ now_ms)%Z by (destruct Hn as (n & _ & ->); apply Hclock).
  assert (∀ m : FlatMap (HT := HT), flat_ok m → contents m !! key = S !! key ∨ contents m !! key = None →
    (entry_expire_at_hashed m (hash_key key) key now_ms).1 = e_expire_at_ms <$> live_entry (contents m !! key) now_ms ∧
    point key (live_entry (contents m !! key) now_ms) 0 m (entry_expire_at_hashed m (hash_key key) key now_ms).2) as Hpt.
  { intros m Hok _. destruct (quiet_point m now_ms (RExpireAt key) key (live_entry (contents m !! key) now_ms)) as [Ea Hp]; try done.
    { simpl. apply purge_put. }
    simpl in Ea, Hp. destruct (entry_expire_at_hashed _ _ _ _) as [d m']. simpl in *. injection Ea as ->. by rewrite purge_lookup. }
  eapply (does_bind _ _ _ (λ _ st', goes st1 (settled S key now_ms) A B st')).
  2:{ intros d st2 Hg2. destruct (lookup_lt_is_Some_2 (st_shards st2) vector_shard_id) as [sh0 Hs0].
      { rewrite (sp_length _ _ _ _ (proj1 Hg2)). pose proof (home_lt key). unfold vector_shard_id. lia. }
      eapply does_bind; [by eapply (does_get_shard st2 vector_shard_id sh0 (λ _ st', st' = st2))|]. intros ? ? ->. apply does_ret.
      exists now_ms. split; [eapply between_wide; [| |done]; [done|apply Hg2]|]. by eapply goes_trans. }
  unfold settled. simpl. destruct (decide (home key = vector_shard_id)) as [E|Hne].
  - rewrite <- E. eapply does_mono.
    { eapply (does_on_map st1 S A B 0 key); [apply Hg|done|lia| |].
      - intros s. eapply (live_plain st1 S A B key now_ms s), Hg.
      - intros m Hok _ _ Ek. destruct (Hpt m Hok (or_introl Ek)) as [Ea Hp]. rewrite Ek in Ea, Hp. by split. }
    intros r st2 (_ & Hg2 & _). by rewrite Z.add_0_r in Hg2.
  - destruct (lookup_lt_is_Some_2 (st_shards st1) vector_shard_id) as [sh0 Hs0].
    { rewrite (sp_length _ _ _ _ (proj1 Hg)). pose proof (home_lt key). unfold vector_shard_id. lia. }
    assert (plain_shard B sh0) as (P1 & P2 & P3 & P4 & P5) by (eapply Forall_lookup_1; [apply Hg|done]).
    assert (contents (es_map sh0) !! key = None) as Ek.
    { destruct (contents (es_map sh0) !! key) eqn:Ec; [|done]. destruct Hne. symmetry.
      eapply (sp_placed _ _ _ _ (proj1 Hg)); [done|]. by rewrite Ec. }
    destruct (Hpt (es_map sh0) P1 (or_intror Ek)) as [_ [Q1 Q2 Q3 Q4]]. rewrite Ek in Q2. simpl in Q2.
    unfold does, on_map, get_shard, put_shard, mbind, es_bind. rewrite Hs0. simpl.
    destruct (entry_expire_at_hashed _ _ _ _) as [d m']. simpl in *. eexists _, _. split; [done|].
    split; [|done]. eapply (spaces_same_contents st1 S A B _ sh0); [apply Hg|done| |].
    + split; [done|]. split; [simpl; congruence|]. split; [simpl; lia|done].
    + simpl. rewrite Q2. rewrite <- Ek. apply put_same.
Qed.

(** A continuation that changes nothing, such as telling an observer. *)
Definition harmless (x : ES unit) : Prop := ∀ st S A B, spaces st S A B → does x st (λ _ st', stays st S A B st').

Lemma harmless_ret : harmless (mret tt).
Proof. intros st S A B Hsp. apply does_ret. by split; [apply goes_refl|]. Qed.

Lemma harmless_if (b : bool) x y : harmless x → harmless y → harmless (if b then x else y).
Proof. by destruct b. Qed.

Lemma delete_map_point st S A B key :
  spaces st S A B →
  does (on_map (home key) (λ m, delete_hashed m (hash_key key) key)) st
    (λ r st', r = is_some (S !! key) ∧ goes st (put key None S) A B st' ∧ st_ticks st' = st_ticks st).
Proof.
  intros Hsp. pose proof (sp_room _ _ _ _ Hsp) as Hroom. eapply does_mono.
  { eapply (does_on_map st S A B 0 key _ (is_some (S !! key)) None); [done|done|lia|done|].
    intros m Hok _ _ Ek. rewrite <- Ek. by apply (delete_point m key 0). }
  intros r st' (-> & Hg & Et). by rewrite Z.add_0_r in Hg.
Qed.

Lemma does_delete_routed st S A B key a (after : ES unit) :
  spaces st S A B → obj A key = Some a → harmless after →
  does (delete_routed_then (home_route key) key after) st
    (λ r st', r = a_has a key || is_some (S !! key) ∧ goes st (put key None S) (put_obj A key (a_delete a key)) B st').
Proof.
  intros Hsp Ha Haf. unfold delete_routed_then.
  eapply does_bind; [by apply (does_checked st S A B key (λ r st', r = home_route key ∧ st' = st))|]. intros ? ? [-> ->].
  eapply does_bind; [by eapply does_has_objects|]. intros r ? [-> Hr].
  assert (∀ r' : bool, harmless (if r' then after else mret tt)) as Hif by (intros []; [done|apply harmless_ret]). destruct r.
  - eapply does_bind; [by eapply does_delete_object|]. intros ? st1 (-> & (Hg1 & _) & _).
    eapply does_bind; [by eapply does_delete_chunk, Hg1|]. intros ? st2 (-> & Hg2 & _).
    eapply does_bind; [by eapply delete_map_point, Hg2|]. intros ? st3 (-> & Hg3 & _). rewrite orb_false_r.
    eapply does_bind; [by eapply Hif, Hg3|]. intros _ st4 [Hg4 _]. apply does_ret. split; [done|].
    eapply goes_trans; [done|]. eapply goes_trans; [done|]. by eapply goes_trans.
  - destruct (empty_absent a key 0 (obj_wf _ _ _ _ _ _ Hsp Ha) (Hr eq_refl)) as [Eh _].
    assert (put_obj A key (a_delete a key) = A) as ->.
    { rewrite a_delete_absent; [by apply put_obj_same|by eapply obj_wf|]. by rewrite (Hr eq_refl), lookup_empty. }
    rewrite Eh. eapply does_bind; [by eapply does_delete_chunk|]. intros ? st2 (-> & Hg2 & _).
    eapply does_bind; [by eapply delete_map_point, Hg2|]. intros ? st3 (-> & Hg3 & _).
    eapply does_bind; [by eapply Hif, Hg3|]. intros _ st4 [Hg4 _]. apply does_ret. split; [done|].
    eapply goes_trans; [done|]. by eapply goes_trans.
Qed.

Lemma does_delete st S A B key a :
  spaces st S A B → obj A key = Some a → accepts key 0 None = true →
  does (delete_key clock accepts key) st (λ r st', ∃ now_ms, between st st' now_ms ∧
    r = a_has a key || is_some (settled S key now_ms !! key) ∧ goes st (put key None S) (put_obj A key (a_delete a key)) B st').
Proof.
  intros Hsp Ha Hacc. unfold delete_key. rewrite Hacc. simpl.
  eapply does_bind; [by eapply now_step|]. intros now0 st0 (Hg0 & _ & _ & _).
  eapply does_bind; [by apply (does_route st0 S A B key (λ r st', r = home_route key ∧ st' = st0)); [apply Hg0|]|]. intros ? ? [-> ->].
  eapply does_bind; [by eapply does_clone_vector, Hg0|]. intros vec st1 (now1 & Hn1 & Hg1). set (S1 := settled S key now1) in *.
  set (v := if vec is Some _ then true else false). clearbody v.
  eapply does_bind.
  { eapply (does_delete_routed st1 S1 A B key a); [apply Hg1|done|]. apply harmless_if; [apply harmless_ret|].
    intros ? ? ? ? ?. by apply does_notify. }
  intros r st2 [-> Hg2]. eapply (does_bind _ _ _ (λ r st', r = a_has a key || is_some (S1 !! key) ∧
    goes st2 (put key None S1) (put_obj A key (a_delete a key)) B st')).
  { destruct (a_has a key || is_some (S1 !! key)) eqn:Er; [by apply does_ret; split; [|apply goes_refl, Hg2]|].
    unfold delete_pinned_vector_value_if_distinct. eapply does_bind; [by eapply does_pinned, Hg2|].
    intros ? st3 (-> & Hg3 & _). by apply does_ret. }
  intros r st3 [-> Hg3]. eapply does_bind.
  { eapply (harmless_if _ _ _); [|apply harmless_ret|apply Hg3]. intros ? ? ? ? ?. by apply does_notify_vector. }
  intros _ st4 [Hg4 _]. apply does_ret. exists now1.
  assert (put key None S1 = put key None S) as E by (unfold S1; destruct (settled_or S key now1) as [->| ->]; [done|apply put_put]). rewrite E in Hg4.
  split; [eapply between_wide; [| |done]; [apply Hg0|destruct Hg2, Hg3, Hg4; lia]|]. split; [done|].
  destruct Hg0, Hg1, Hg2, Hg3, Hg4. split; [done|lia].
Qed.

(** ** SET *)
Lemma plain_weight key value d : s_weight (mkEntry key value d None) = s_weight (mkEntry key value None None).
Proof. done. Qed.

Lemma does_write_point st S A B key value (d : option Z) now_ms :
  spaces st S A B → (B + s_weight (mkEntry key value None None) + 1 < i64_MAX)%Z →
  does (write_point (home_route key) key value None d now_ms) st
    (λ _ st', goes st (put key (Some (mkEntry key value d None)) S) A (B + s_weight (mkEntry key value None None)) st').
Proof.
  intros Hsp Hr. pose proof (s_weight_nonneg (mkEntry key value None None)) as Hw. unfold write_point.
  eapply does_bind; [by eapply does_delete_chunk|]. intros ? st1 (-> & Hg1 & _).
  destruct (home_holds st1 S A B key (proj1 Hg1)) as (sh & Hs & (P1 & P2 & P3 & P4 & P5) & Ek).
  eapply does_bind; [by eapply (does_get_shard st1 (home key) sh (λ r st', r = sh ∧ st' = st1))|]. intros ? ? [-> ->]. simpl.
  assert (point key (Some (mkEntry key value d None)) (s_weight (mkEntry key value None None)) (es_map sh)
    (set_bytes_hashed_with_governance_option (es_map sh) (hash_key key) key value None d now_ms)) as [Q1 Q2 Q3 Q4].
  { rewrite <- (plain_weight key value d) in *. apply (wrote_point _ _ now_ms); [|done]. apply set_bytes_wrote; [done|].
    unfold u64_MAX, i64_MAX in *. lia. }
  unfold es_enforce_memory_limit. simpl. rewrite P4.
  eapply (does_bind _ _ _ (λ _ st', goes st1 (put key (Some (mkEntry key value d None)) S) A (B + s_weight (mkEntry key value None None)) st')).
  { eexists _, _. split; [done|]. split; [|done]. apply (spaces_shard st1 S A B _ key _ _ (proj1 Hg1) Hw Hr); [| |by intros s [= <-]].
    - split; [exact Q1|]. split; [simpl; congruence|]. split; [simpl; lia|done].
    - intros sh1 Hs1. rewrite Hs in Hs1. injection Hs1 as <-. exact Q2. }
  intros ? st2 Hg2. eapply does_mono; [by eapply does_refresh, Hg2|]. intros _ st3 [Hg3 _].
  eapply goes_trans; [done|]. by eapply goes_trans.
Qed.

Lemma does_set st S A B key a value (ttl_ms : option Z) :
  spaces st S A B → obj A key = Some a → accepts key (blen value) None = true →
  (B + s_weight (mkEntry key value None None) + 1 < i64_MAX)%Z →
  does (set clock accepts key value ttl_ms) st (λ _ st', ∃ now_ms, between st st' now_ms ∧
    goes st (put key (Some (mkEntry key value (u64_saturating_add now_ms <$> ttl_ms) None)) S) (put_obj A key (a_delete a key))
      (B + s_weight (mkEntry key value None None)) st').
Proof.
  intros Hsp Ha Hacc Hr. unfold set. eapply does_bind; [by eapply now_step|]. intros now_ms st0 (Hg0 & _ & Hn & _).
  eapply does_bind; [by apply (does_route st0 S A B key (λ r st', r = home_route key ∧ st' = st0)); [apply Hg0|]|]. intros ? ? [-> ->].
  unfold set_value_bytes_routed_with_governance_then. simpl. rewrite Hacc. simpl.
  eapply does_bind; [by apply (does_checked st0 S A B key (λ r st', r = home_route key ∧ st' = st0)); [apply Hg0|]|]. intros ? ? [-> ->].
  eapply (does_bind _ _ _ (λ _ st', goes st0 S A B st')).
  { unfold delete_pinned_vector_value_if_distinct. eapply does_bind; [by eapply does_pinned, Hg0|].
    intros ? st1 (-> & Hg1 & _). by apply does_ret. }
  intros _ st1 Hg1. eapply does_bind; [by eapply does_has_objects, Ha; apply Hg1|]. intros r ? [-> Hr'].
  eapply (does_bind _ _ _ (λ _ st', goes st1 S (put_obj A key (a_delete a key)) B st')).
  { destruct r.
    - eapply does_bind; [by eapply does_delete_object, Ha; apply Hg1|]. intros ? st2 (_ & (Hg2 & _) & _). by apply does_ret.
    - apply does_ret. rewrite a_delete_absent; [rewrite put_obj_same by done; apply goes_refl, Hg1|by eapply obj_wf|].
      by rewrite (Hr' eq_refl), lookup_empty. }
  intros _ st2 Hg2. eapply does_bind; [by apply (does_write_point st2 S (put_obj A key (a_delete a key)) B key value (u64_saturating_add now_ms <$> ttl_ms) now_ms (proj1 Hg2) Hr)|].
  intros ? st3 Hg3. simpl in Hg3. eapply does_mono; [by eapply does_notify, Hg3|]. intros _ st4 [Hg4 _]. exists now_ms.
  split; [eapply between_wide; [| |done]; [done|destruct Hg1, Hg2, Hg3, Hg4; lia]|].
  destruct Hg0, Hg1, Hg2, Hg3, Hg4. split; [done|lia].
Qed.

(** ** EXPIRE *)
Lemma obj_put_same A key a a' : obj A key = Some a → obj (put_obj A key a') key = Some a'.
Proof. intros Ha. rewrite obj_put by eauto. by rewrite decide_True. Qed.

Lemma put_obj_put A key a a' : put_obj (put_obj A key a) key a' = put_obj A key a'.
Proof.
  unfold put_obj, put_state. apply list_eq. intros i. destruct (decide (i = home key)) as [->|Hn]; [|by rewrite !list_lookup_alter_ne].
  rewrite !list_lookup_alter_eq. destruct (A !! home key); simpl; [|done]. by rewrite list_insert_insert_eq.
Qed.

Lemma does_write_bucket st S A B key a (b : bucket) a' :
  spaces st S A B → obj A key = Some a → bucket_rep b a' → size (a_objs a') = size (a_objs a) →
  does (write_bucket (home_route key) b) st (λ _ st', stays st S (put_obj A key a') B st').
Proof.
  intros Hsp Ha Hb Hsz. destruct (home_bucket st S A B key Hsp) as (As & a0 & HA & Hi & Ho).
  rewrite Ha in Ho. injection Ho as <-.
  destruct (store_bucket _ _ _ _ _ _ (sp_objects _ _ _ _ Hsp) HA Hi) as (osh & b0 & Hs & _ & _ & Hc & _).
  assert (store_rep (put_bucket (noted (st_objects st) (home key) osh (object_count osh) (has_objects_hint (st_objects st)))
    (home key) (hash_key key) b) (put_obj A key a')) as Hrep.
  { eapply (store_put_rep _ A (home key) (hash_key key) osh As a); [apply Hsp|done|done|done|done|by right|lia]. }
  rewrite noted_same in Hrep by done.
  destruct (stored_put A key a a' B Ha (sp_few _ _ _ _ Hsp)) as [_ Hfew]; [lia|].
  eexists _, _. split; [done|]. split; [|done]. split; [|done].
  apply (spaces_objects st S A _ B _ Hsp Hrep); [apply put_obj_length|]. apply Hfew. lia.
Qed.

Lemma a_purge_size a key now_ms : size (a_objs (a_purge a key now_ms)) = size (a_objs a).
Proof.
  unfold a_purge. destruct (a_get KHash a key) as [h|] eqn:E; [|done]. apply a_get_Some in E. simpl.
  rewrite map_size_insert. by rewrite E.
Qed.

Lemma does_drop_dead st S A B key a now_ms :
  spaces st S A B → obj A key = Some a →
  does (drop_dead_object (home_route key) key now_ms) st
    (λ r st', r = (a_drop_expired a key now_ms).1 ∧ stays st S (put_obj A key (a_drop_expired a key now_ms).2) B st').
Proof.
  intros Hsp Ha. unfold drop_dead_object. eapply does_bind; [by eapply does_drop_object|]. intros ? st1 (-> & [Hg1 Et1] & _).
  unfold a_drop_expired, a_delete_expired in *. destruct (a_expired a key now_ms); simpl in *; [by apply does_ret|].
  rewrite put_obj_same in Hg1 by done. eapply does_bind; [by eapply does_read_bucket, Ha; apply Hg1|]. intros b ? [Hb ->].
  destruct (remove_expired_hash_fields_spec b a key now_ms Hb) as (b1 & E & Hb1).
  eapply does_bind; [by apply (does_lift _ _ _ (λ r st', r = b1 ∧ st' = st1) E)|]. intros ? ? [-> ->].
  eapply does_bind; [eapply (does_write_bucket st1 S A B key a b1); [apply Hg1|done|done|apply a_purge_size]|].
  intros _ st2 [Hg2 Et2]. pose proof (obj_put_same A key a (a_purge a key now_ms) Ha) as Ha2.
  eapply does_mono.
  { eapply (does_removal st2 S _ B key (a_purge a key now_ms) _ (a_cleanup a key now_ms).1 (a_cleanup a key now_ms).2);
      [apply Hg2|done| |].
    - intros b2 Hb2. destruct (remove_hash_if_empty_spec b2 _ key Hb2) as (b3 & E3 & Hb3). exists b3. rewrite E3. unfold a_cleanup.
      by destruct (bool_decide _).
    - unfold a_cleanup. case_bool_decide as Hc; simpl; [|lia]. apply a_get_Some in Hc.
      rewrite map_size_delete, Hc. simpl. assert (size (a_objs (a_purge a key now_ms)) ≠ 0) by (apply map_size_ne_0_lookup; eauto). lia. }
  intros r st3 (-> & Hg3 & _ & Et3). split; [done|]. rewrite put_obj_put in Hg3. split; [|lia].
  eapply goes_trans; [done|]. by eapply goes_trans.
Qed.

(** The objects' part: [None] when the key has no object. *)
Lemma does_object_expire st S A B key a (at_ms now_ms : Z) (after : ES unit) :
  spaces st S A B → obj A key = Some a → harmless after →
  does (object_deadline (home_route key) key now_ms (λ b, BucketCore.expire b key at_ms now_ms) after) st
    (λ r st', let d := a_drop_expired a key now_ms in
       r = (if d.1 then Some false else if a_has d.2 key then Some true else None) ∧
       goes st S (put_obj A key (if a_has d.2 key then (a_expire d.2 key at_ms now_ms).2 else d.2)) B st').
Proof.
  intros Hsp Ha Haf. unfold object_deadline. eapply does_bind; [by eapply does_has_objects|]. intros r ? [-> Hr]. cbv zeta.
  pose proof (obj_wf _ _ _ _ _ _ Hsp Ha) as Hw. destruct r; simpl.
  2:{ apply does_ret. destruct (empty_absent a key now_ms Hw (Hr eq_refl)) as [Eh _]. rewrite drop_without_object by done. simpl.
      rewrite Eh, put_obj_same by done. split; [done|by apply goes_refl]. }
  eapply does_bind; [by eapply does_drop_dead|]. intros ? st1 (-> & Hg1 & _).
  pose proof (a_has_drop key a now_ms Hw) as Hgone. destruct (a_drop_expired a key now_ms) as [dead a1] eqn:Ed. simpl in *. destruct dead.
  { apply does_ret. by rewrite Hgone. }
  pose proof (obj_put_same A key a a1 Ha) as Ha1.
  eapply does_bind; [by eapply does_read_bucket, Ha1; apply Hg1|]. intros b ? [Hb ->].
  destruct (expire_spec b a1 key at_ms now_ms Hb) as (b' & -> & Hb').
  assert (a_expired a1 key now_ms = false) as Ee.
  { unfold a_drop_expired in Ed. destruct (a_expired a key now_ms) eqn:E; [done|]. unfold a_cleanup in Ed.
    case_bool_decide; [done|]. injection Ed as <-. unfold a_expired, a_purge in *. by destruct (a_get KHash a key). }
  assert (a_expire a1 key at_ms now_ms =
    (a_has a1 key, if a_has a1 key then (a_expire a1 key at_ms now_ms).2 else a1)) as Ex.
  { unfold a_expire, a_delete_expired. rewrite Ee. by destruct (a_has a1 key). }
  eapply does_bind; [eapply (does_write_bucket st1 S _ B key a1 b'); [apply Hg1|done|done|]|].
  { unfold a_expire, a_delete_expired. rewrite Ee. by destruct (a_has a1 key). }
  intros _ st2 [Hg2 _]. rewrite put_obj_put in Hg2. rewrite Ex in *. simpl in *. destruct (a_has a1 key) eqn:Eh.
  - eapply does_bind; [by eapply Haf, Hg2|]. intros _ st3 [Hg3 _]. apply does_ret. split; [done|].
    eapply goes_trans; [done|]. by eapply goes_trans.
  - rewrite (contains_object_spec b' a1), Eh by apply Hb'. apply does_ret. split; [done|]. by eapply goes_trans.
Qed.

Lemma expire_map_point st S A B key (at_ms now_ms : Z) :
  spaces st S A B → (0 ≤ now_ms)%Z →
  does (on_map (home key) (λ m, FlatMap.expire m key at_ms now_ms)) st
    (λ r st', r = is_some (live_entry (S !! key) now_ms) ∧
       goes st (put key (with_deadline (Some at_ms) <$> live_entry (S !! key) now_ms) S) A B st').
Proof.
  intros Hsp Hn. pose proof (sp_room _ _ _ _ Hsp) as Hroom. eapply does_mono.
  { eapply (does_on_map st S A B 0 key _ (is_some (live_entry (S !! key) now_ms))
      (with_deadline (Some at_ms) <$> live_entry (S !! key) now_ms)); [done|done|lia| |].
    - intros s. rewrite fmap_Some. intros (s0 & Hl & ->). by eapply (live_plain st S A B key now_ms s0).
    - intros m Hok _ _ Ek. rewrite <- Ek. pose proof (change_point m key (ExpireAt at_ms) now_ms Hok Hn) as Hc. simpl in Hc.
      destruct (FlatMap.expire m key at_ms now_ms) as [r m']. by apply Hc. }
  intros r st' (-> & Hg & _). by rewrite Z.add_0_r in Hg.
Qed.

(** What EXPIRE means at one instant. *)
Definition expire_at S a key (at_ms now_ms : Z) (r : bool) S' a' : Prop :=
  let a1 := (a_drop_expired a key now_ms).2 in
  if a_has a1 key then r = true ∧ a' = (a_expire a1 key at_ms now_ms).2 ∧ S' = settled S key now_ms
  else a' = a1 ∧
       match live_entry (S !! key) now_ms with
       | Some s => r = true ∧ S' = put key (Some (with_deadline (Some at_ms) s)) S
       | None => r = false ∧ S' = if a_has a key then settled S key now_ms else put key None S
       end.

Lemma live_before o (now_ms now' : Z) s : (now_ms ≤ now')%Z → live_entry o now' = Some s → live_entry o now_ms = Some s ∧ o = Some s.
Proof.
  intros Hle. destruct o as [s0|]; [|done]. simpl. destruct (s_expired s0 now') eqn:E; [done|]. intros [= ->].
  destruct (s_expired s now_ms) eqn:E0; [|done]. by rewrite (expired_later s now_ms now') in E.
Qed.

Lemma put_absent S key o : put key o S !! key = o.
Proof. apply lookup_partial_alter_eq. Qed.

(** The reading of the clock before the vector check, and the one in it. *)
Lemma expire_instants S S1 S2 a key (at_ms t now0 now1 : Z) (r : bool) a' :
  wf_a a → (t ≤ now0)%Z → (now0 ≤ now1)%Z → (a_has a key = true → live_entry (S !! key) t = None) →
  S1 = settled S key now1 →
  (let d := a_drop_expired a key now0 in
   if a_has d.2 key then r = true ∧ a' = (a_expire d.2 key at_ms now0).2 ∧ S2 = S1
   else a' = d.2 ∧ if d.1 then r = false ∧ S2 = S1
        else r = is_some (live_entry (S1 !! key) now0) ∧
             S2 = put key (with_deadline (Some at_ms) <$> live_entry (S1 !! key) now0) S1) →
  ∃ now_ms, (now_ms = now0 ∨ now_ms = now1) ∧ expire_at S a key at_ms now_ms r S2 a'.
Proof.
  intros Hw Ht Hle Hdead Hs. unfold expire_at.
  assert (Hlater : live_entry (S !! key) t = None → ∀ now, (t ≤ now)%Z → live_entry (S !! key) now = None).
  { intros E now Hn. destruct (live_entry (S !! key) now) eqn:El; [|done]. apply (live_before _ t) in El as [? _]; [congruence|done]. }
  destruct (a_has a key) eqn:Eh.
  - specialize (Hlater (Hdead eq_refl)). assert (S1 = settled S key now0) as Hs0.
    { rewrite Hs. apply settled_none; apply Hlater; lia. }
    intros Hr. exists now0. split; [by left|]. rewrite (Hlater now0 Ht) in *.
    pose proof (a_has_drop key a now0 Hw) as Hgone. pose proof (toggles_drop_expired a key now0 Hw) as [_ Htog].
    destruct (a_drop_expired a key now0) as [dead a1]. simpl in *. destruct (a_has a1 key) eqn:E1; [naive_solver|].
    destruct Hr as [-> Hr]. split; [done|]. destruct dead; [naive_solver|]. by rewrite Eh in Htog.
  - rewrite !drop_without_object by done. simpl. rewrite Eh. intros (-> & -> & ->).
    destruct (live_entry (S !! key) now1) as [s|] eqn:E1.
    + exists now0. split; [by left|]. rewrite drop_without_object by done. simpl. rewrite Eh. split; [done|].
      destruct (live_before _ now0 now1 s Hle E1) as [E0 Es]. rewrite E0.
      assert (S1 = S) as -> by (rewrite Hs; destruct (settled_or S key now1) as [->| ->]; [done|rewrite E1, <- Es; apply put_same]).
      rewrite E0. done.
    + unfold settled in Hs. rewrite E1 in Hs. destruct (decide _); subst S1; [|].
      2:{ exists now0. split; [by left|]. rewrite drop_without_object by done. simpl. rewrite Eh. split; [done|].
        by destruct (live_entry (S !! key) now0) eqn:E0. }
      exists now1. split; [by right|]. rewrite drop_without_object by done. simpl. rewrite Eh. split; [done|]. rewrite E1.
        rewrite put_absent. simpl. split; [done|]. by rewrite put_put.
Qed.

Lemma does_expire st S A B key a (at_ms : Z) :
  spaces st S A B → obj A key = Some a → apart S A (clock (st_ticks st)) → accepts key 0 None = true →
  does (expire_key clock accepts key at_ms) st (λ r st', ∃ now_ms S' a', between st st' now_ms ∧
    expire_at S a key at_ms now_ms r S' a' ∧ goes st S' (put_obj A key a') B st').
Proof.
  intros Hsp Ha Hap Hacc. unfold expire_key. rewrite Hacc. simpl.
  eapply does_bind; [by apply (does_route st S A B key (λ r st', r = home_route key ∧ st' = st))|]. intros ? ? [-> ->].
  eapply does_bind; [by eapply now_step|]. intros now0 st0 (Hg0 & _ & Hn0 & En0).
  eapply does_bind; [by eapply does_clone_vector, Hg0|]. intros vec st1 (now1 & Hn1 & Hg1). set (S1 := settled S key now1) in *.
  set (v := if vec is Some _ then true else false). clearbody v.
  assert (now0 ≤ now1)%Z by (rewrite En0; destruct Hn1 as (n1 & ? & ->); apply clock_le; destruct Hg0; lia).
  assert (0 ≤ now0)%Z by (rewrite En0; apply Hclock).
  eapply (does_bind _ _ _ (λ r st', ∃ S2 a', goes st1 S2 (put_obj A key a') B st' ∧
   let d := a_drop_expired a key now0 in
   if a_has d.2 key then r = true ∧ a' = (a_expire d.2 key at_ms now0).2 ∧ S2 = S1
   else a' = d.2 ∧ if d.1 then r = false ∧ S2 = S1
        else r = is_some (live_entry (S1 !! key) now0) ∧
             S2 = put key (with_deadline (Some at_ms) <$> live_entry (S1 !! key) now0) S1)).
  { unfold expire_routed_then.
    eapply does_bind; [by apply (does_checked st1 S1 A B key (λ r st', r = home_route key ∧ st' = st1)); [apply Hg1|]|]. intros ? ? [-> ->].
    assert (harmless (if v then mret tt else notify_point_mutation MutExpire key None (Some at_ms) None)) as Haf.
    { apply harmless_if; [apply harmless_ret|]. intros ? ? ? ? ?. by apply does_notify. }
    eapply does_bind; [by eapply (does_object_expire st1 S1 A B key a at_ms now0), Haf; [apply Hg1|]|].
    intros ? st2 (-> & Hg2). pose proof (a_has_drop key a now0 (obj_wf _ _ _ _ _ _ Hsp Ha)) as Hgone.
    destruct (a_drop_expired a key now0) as [dead a1]. simpl in *. destruct dead.
    { apply does_ret. rewrite Hgone in * by done. exists S1, a1. by split. }
    destruct (a_has a1 key) eqn:E1; [apply does_ret; eexists _, _; by split|].
    eapply does_bind; [by eapply does_in_session, Hg2|]. intros ? st3 (-> & Hg3 & _).
    eapply does_bind; [by eapply expire_map_point; [apply Hg3|]|]. intros ? st4 (-> & Hg4).
    eapply does_bind; [by eapply harmless_if; [apply Haf|apply harmless_ret|apply Hg4]|]. intros _ st5 [Hg5 _]. apply does_ret.
    eexists _, a1. split; [|done]. eapply goes_trans; [done|]. eapply goes_trans; [done|]. by eapply goes_trans. }
  intros r st2 (S2 & a' & Hg2 & Hr).
  eapply (does_bind _ _ _ (λ r' st', r' = r ∧ goes st2 S2 (put_obj A key a') B st')).
  { destruct r; [by apply does_ret; split; [|apply goes_refl, Hg2]|]. unfold expire_pinned_vector_value_if_distinct.
    eapply does_bind; [by eapply does_pinned, Hg2|]. intros ? st3 (-> & Hg3 & _). by apply does_ret. }
  intros ? st3 [-> Hg3]. eapply does_bind.
  { eapply (harmless_if _ _ _); [|apply harmless_ret|apply Hg3]. intros ? ? ? ? ?. by apply does_notify_vector. }
  intros _ st4 [Hg4 _]. apply does_ret.
  destruct (expire_instants S S1 S2 a key at_ms (clock (st_ticks st)) now0 now1 r a') as (now_ms & Hnow & Hex); [by eapply obj_wf| |done| |done|done|].
  { rewrite En0. done. }
  { intros Eh. eapply apart_dead; done. }
  exists now_ms, S2, a'. destruct Hg0, Hg1, Hg2, Hg3, Hg4. split; [|split; [done|split; [done|lia]]].
  destruct Hnow as [->| ->]; (eapply between_wide; [| |done]; lia).
Qed.

(** ** Commands on objects *)
Lemma empty_contents (m : FlatMap (HT := HT)) : flat_is_empty m = true → contents m = ∅.
Proof. unfold flat_is_empty, contents. rewrite flat_len_entries. destruct (flat_entries m); [done|simpl; lia]. Qed.

Lemma does_string_exists st S A B key :
  spaces st S A B →
  does (string_exists_routed clock (home_route key) key) st
    (λ r st', ∃ now_ms, between st st' now_ms ∧ r = is_some (visible_at (S !! key) now_ms) ∧ goes st S A B st').
Proof.
  intros Hsp. unfold string_exists_routed. eapply does_bind; [by apply (does_asks _ _ (λ r st', r = st_mode st ∧ st' = st))|].
  intros ? ? [-> ->]. rewrite (flat_mode st S A B) by done.
  destruct (home_holds st S A B key Hsp) as (sh & Hs & _ & Ek).
  eapply does_bind; [by eapply (does_get_shard st (home key) sh (λ r st', r = sh ∧ st' = st))|]. intros ? ? [-> ->].
  destruct (flat_is_empty (es_map sh) && slots_is_empty (session_slots sh)) eqn:Ee.
  - apply andb_true_iff in Ee as [Ee _]. apply does_ret. exists (clock (st_ticks st)). split; [by exists (st_ticks st)|].
    rewrite <- Ek, (empty_contents _ Ee), lookup_empty. split; [done|by apply goes_refl].
  - eapply does_bind; [by eapply does_shared|]. intros v st1 (Hg & _ & now_ms & Hn & ->). rewrite Ek. apply does_ret. exists now_ms. done.
Qed.

Lemma does_on_objects {T} st S A B (w : Z) key a a' (f : RedisObjectStore (HT := HT) (OT := OT) → option (T * RedisObjectStore (HT := HT) (OT := OT))) r o :
  spaces st S A B → obj A key = Some a → f (st_objects st) = Some (r, o) → store_rep o (put_obj A key a') →
  (Z.of_nat (size (a_objs a')) ≤ Z.of_nat (size (a_objs a)) + 1)%Z → (1 ≤ w)%Z → (B + w + 1 < i64_MAX)%Z →
  does (on_objects f) st (λ r' st', r' = r ∧ goes st S (put_obj A key a') (B + w) st').
Proof.
  intros Hsp Ha Ef Hrep Hsz Hw Hroom. unfold does, on_objects, asks, lift, put_objects, mbind, es_bind. simpl. rewrite Ef. simpl.
  eexists _, _. split; [done|]. split; [done|]. split; [|done]. destruct (stored_put A key a a' B Ha (sp_few _ _ _ _ Hsp) Hsz) as [Hfew _].
  apply (spaces_objects st S A _ (B + w) _); [|done|apply put_obj_length|].
  - eapply spaces_more; [done|lia|lia].
  - eapply Forall_impl; [done|]. simpl. intros. lia.
Qed.

Lemma toggles_grow key a a' flag :
  toggles key a a' flag → (Z.of_nat (size (a_objs a')) ≤ Z.of_nat (size (a_objs a)) + 1)%Z.
Proof. intros Ht. rewrite (toggles_bool_Z _ _ _ _ Ht). destruct flag, (a_has a key); simpl; lia. Qed.

Lemma drop_size a key now_ms : wf_a a → size (a_objs (a_drop_expired a key now_ms).2) ≤ size (a_objs a).
Proof.
  intros Hw. pose proof (toggles_bool_Z _ _ _ _ (toggles_drop_expired a key now_ms Hw)) as Ht.
  pose proof (drop_had a key now_ms Hw) as Hh. destruct (a_drop_expired a key now_ms).1; [rewrite Hh in Ht by done|]; simpl in Ht; lia.
Qed.

(** What a write command means at one instant. *)
Definition write_at S a key (cmd : WriteCommand) now_ms (r : RedisObjectResult) a' : Prop :=
  let a1 := (a_drop_expired a key now_ms).2 in
  if negb (a_has a1 key) && is_some (visible_at (S !! key) now_ms) then r = WrongType ∧ a' = a1
  else ∃ flag, write_post key cmd a1 r flag a' ∧ toggles key a1 a' flag.

Definition create_at S a key (cmd : CreateCommand) now_ms (r : RedisObjectResult) a' : Prop :=
  let a1 := (a_drop_expired a key now_ms).2 in
  match (create_attempt key cmd a1).1 with
  | Complete r0 => r = r0 ∧ a' = (create_attempt key cmd a1).2
  | WriteMissing =>
      if is_some (visible_at (S !! key) now_ms) then r = WrongType ∧ a' = (create_attempt key cmd a1).2
      else r = created_answer cmd ∧
           a' = mkA (<[key := created_value cmd]> (a_objs (create_attempt key cmd a1).2)) (a_exp (create_attempt key cmd a1).2)
                  (a_fexp (create_attempt key cmd a1).2)
  end.

(** The instant of an object command: its own reading when the key has an
    object, the string check's otherwise. *)
Definition instant a key (now1 now2 : Z) : Z := if a_has a key then now1 else now2.

Lemma instant_drop a key now1 now2 :
  wf_a a → a_drop_expired a key (instant a key now1 now2) = a_drop_expired a key now1.
Proof. intros Hw. unfold instant. destruct (a_has a key) eqn:E; [done|]. by rewrite !drop_without_object. Qed.

Lemma instant_visible S A (t : Z) a key now1 now2 :
  apart S A t → obj A key = Some a → (t ≤ now1)%Z → (now1 ≤ now2)%Z →
  visible_at (S !! key) (instant a key now1 now2) = visible_at (S !! key) now2.
Proof.
  intros Hap Ha Hle1 Hle2. unfold instant, visible_at. destruct (a_has a key) eqn:E; [|done].
  by rewrite !(apart_dead S A t _ key a Hap) by (lia || done).
Qed.

Lemma does_object_write st S A B (w : Z) key a (cmd : WriteCommand) :
  spaces st S A B → obj A key = Some a → apart S A (clock (st_ticks st)) →
  (∀ now_ms, counted_pre key cmd (a_drop_expired a key now_ms).2) → (1 ≤ w)%Z → (B + w + 1 < i64_MAX)%Z →
  does (object_write clock key (run_write key cmd)) st (λ r st', ∃ now_ms a', between st st' now_ms ∧
    write_at S a key cmd now_ms r a' ∧ goes st S (put_obj A key a') (B + w) st').
Proof.
  intros Hsp Ha Hap Hpre Hw Hroom. pose proof (obj_wf _ _ _ _ _ _ Hsp Ha) as Hwf. unfold object_write.
  eapply does_bind; [by apply (does_route st S A B key (λ r st', r = home_route key ∧ st' = st))|]. intros ? ? [-> ->].
  eapply does_bind; [by eapply now_step|]. intros now1 st1 (Hg1 & _ & Hn1 & En1).
  eapply does_bind; [by eapply does_string_exists, Hg1|]. intros se st2 (now2 & Hn2 & -> & Hg2).
  destruct (home_bucket st2 S A B key (proj1 Hg2)) as (As & a0 & HA & Hb & Ho). rewrite Ha in Ho. injection Ho as <-.
  destruct (object_write_spec (st_objects st2) A (home_route key) key As a (is_some (visible_at (S !! key) now2)) now1
    (sp_objects _ _ _ _ (proj1 Hg2)) HA Hb (home_fits _ _ _ _ _ _ (proj1 Hg2) HA) _ _ _ (write_command_contract key cmd) (Hpre now1))
    as (r & o & a' & Er & Hrep & Hr). fold (put_obj A key a') in Hrep.
  assert (now1 ≤ now2)%Z by (rewrite En1; destruct Hn2 as (n2 & ? & ->); apply clock_le; destruct Hg1; lia).
  assert (clock (st_ticks st) ≤ now1)%Z by by rewrite En1.
  eapply does_mono; [eapply (does_on_objects st2 S A B w key a a' _ r o (proj1 Hg2) Ha Er Hrep); [|done|done]|].
  { pose proof (drop_size a key now1 Hwf). destruct (negb _ && _); [destruct Hr as [_ ->]; lia|].
    destruct Hr as (flag & _ & Ht). apply toggles_grow in Ht. lia. }
  intros ? st3 [-> Hg3]. exists (instant a key now1 now2), a'. split; [|split].
  - unfold instant. destruct Hg1, Hg2, Hg3. destruct (a_has a key); (eapply between_wide; [| |done]; lia).
  - unfold write_at. rewrite instant_drop by done. rewrite (instant_visible S A (clock (st_ticks st))) by done. done.
  - destruct Hg1, Hg2, Hg3. split; [done|lia].
Qed.

(** The objects of other keys stay; the key gains one only where no string is visible. *)
Definition moves S key a now_ms a' : Prop :=
  (∀ k', k' ≠ key → a_objs a' !! k' = a_objs a !! k') ∧
  (a_has a' key = true → a_has a key = true ∨ visible_at (S !! key) now_ms = None).

Lemma drop_has a key now_ms : wf_a a → a_has (a_drop_expired a key now_ms).2 key = true → a_has a key = true.
Proof. intros Hw Hh. destruct (a_has a key) eqn:E; [done|]. rewrite drop_without_object in Hh by done. simpl in Hh. congruence. Qed.

Lemma drop_others a key now_ms k' :
  wf_a a → k' ≠ key → a_objs (a_drop_expired a key now_ms).2 !! k' = a_objs a !! k'.
Proof. intros Hw. apply (toggles_drop_expired a key now_ms Hw). Qed.

Lemma write_moves S a key (cmd : WriteCommand) now_ms r a' :
  wf_a a → write_at S a key cmd now_ms r a' → moves S key a now_ms a'.
Proof.
  intros Hw Hwr. unfold write_at in Hwr. pose proof (drop_has a key now_ms Hw) as Hd.
  pose proof (drop_others a key now_ms) as Ho. destruct (negb _ && _) eqn:E.
  - destruct Hwr as [_ ->]. split; [auto|]. auto.
  - destruct Hwr as (flag & _ & Ht & _). split; [intros k' Hk'; rewrite Ht; auto|]. intros _.
    destruct (a_has (a_drop_expired a key now_ms).2 key); [left; auto|right].
    by destruct (visible_at (S !! key) now_ms).
Qed.

Lemma drop_wf (b : bucket) a key now_ms : bucket_rep b a → wf_a (a_drop_expired a key now_ms).2.
Proof. intros Hb. destruct (drop_expired_spec b a key now_ms Hb) as (b1 & _ & Hb1). apply Hb1. Qed.

Lemma create_moves S (b : bucket) a key (cmd : CreateCommand) now_ms r a' :
  bucket_rep b a → create_ok cmd → create_at S a key cmd now_ms r a' → moves S key a now_ms a'.
Proof.
  intros Hb Hok Hc. pose proof (proj2 Hb) as Hw. destruct (create_command_contract (HT := HT) (OT := OT) key cmd Hok) as (K & v & Ev & Hcon).
  pose proof (drop_has a key now_ms Hw) as Hd. pose proof (drop_others a key now_ms) as Ho. unfold create_at in Hc.
  destruct (attempt_keeps (ObjectCreate := Hcon) _ (drop_wf b a key now_ms Hb)) as [Ht Hf]. set (a1 := (a_drop_expired a key now_ms).2) in *.
  assert (moves S key a now_ms (create_attempt key cmd a1).2) as Hm.
  { split; [intros k' Hk'; rewrite Ht; auto|]. intros Hh. left. apply Hd. rewrite Hh in Hf. by destruct (a_has a1 key). }
  destruct (create_attempt key cmd a1).1; [by destruct Hc as [_ ->]|].
  destruct (visible_at (S !! key) now_ms) eqn:E; simpl in Hc; destruct Hc as [_ ->]; [done|].
  split; [|by right]. intros k' Hk'. simpl. rewrite lookup_insert_ne by done. by apply Hm.
Qed.

Lemma moves_size S key a now_ms a' :
  moves S key a now_ms a' → (Z.of_nat (size (a_objs a')) ≤ Z.of_nat (size (a_objs a)) + 1)%Z.
Proof. intros [Ho _]. eapply (toggles_grow key). by split. Qed.

Lemma does_object_create st S A B (w : Z) key a (cmd : CreateCommand) :
  spaces st S A B → obj A key = Some a → apart S A (clock (st_ticks st)) → create_ok cmd → (1 ≤ w)%Z → (B + w + 1 < i64_MAX)%Z →
  does (object_create clock key (create_existing key cmd) (create_new key cmd)) st (λ r st', ∃ now_ms a', between st st' now_ms ∧
    create_at S a key cmd now_ms r a' ∧ goes st S (put_obj A key a') (B + w) st').
Proof.
  intros Hsp Ha Hap Hok Hw Hroom. pose proof (obj_wf _ _ _ _ _ _ Hsp Ha) as Hwf. unfold object_create.
  eapply does_bind; [by apply (does_route st S A B key (λ r st', r = home_route key ∧ st' = st))|]. intros ? ? [-> ->].
  eapply does_bind; [by eapply now_step|]. intros now1 st1 (Hg1 & _ & Hn1 & En1).
  eapply does_bind; [by eapply does_string_exists, Hg1|]. intros se st2 (now2 & Hn2 & -> & Hg2).
  destruct (home_bucket st2 S A B key (proj1 Hg2)) as (As & a0 & HA & Hb & Ho). rewrite Ha in Ho. injection Ho as <-.
  destruct (create_command_contract (HT := HT) (OT := OT) key cmd Hok) as (K & v & Ev & Hcon).
  destruct (object_create_spec (st_objects st2) A (home_route key) key As a (is_some (visible_at (S !! key) now2)) now1
    (sp_objects _ _ _ _ (proj1 Hg2)) HA Hb (home_fits _ _ _ _ _ _ (proj1 Hg2) HA) _ _ _ _ K v Hcon eq_refl)
    as (r & o & a' & Er & Hrep & Hr). fold (put_obj A key a') in Hrep.
  assert (now1 ≤ now2)%Z by (rewrite En1; destruct Hn2 as (n2 & ? & ->); apply clock_le; destruct Hg1; lia).
  assert (clock (st_ticks st) ≤ now1)%Z by by rewrite En1.
  assert (create_at S a key cmd (instant a key now1 now2) r a') as Hcr.
  { unfold create_at. rewrite instant_drop by done. rewrite (instant_visible S A (clock (st_ticks st))) by done.
    unfold a_put in Hr. rewrite Ev in Hr. done. }
  destruct (store_bucket _ _ _ _ _ _ (sp_objects _ _ _ _ (proj1 Hg2)) HA Hb) as (osh & b & _ & _ & Hbr & _).
  eapply does_mono; [eapply (does_on_objects st2 S A B w key a a' _ r o (proj1 Hg2) Ha Er Hrep); [|done|done]|].
  { eapply moves_size. by eapply create_moves. }
  intros ? st3 [-> Hg3]. exists (instant a key now1 now2), a'. split; [|split; [done|]].
  - unfold instant. destruct Hg1, Hg2, Hg3. destruct (a_has a key); (eapply between_wide; [| |done]; lia).
  - destruct Hg1, Hg2, Hg3. split; [done|lia].
Qed.

(** What a read command means at one instant. *)
Definition read_at S a key (cmd : ReadCommand) now_ms (r : RedisObjectResult) a' : Prop :=
  a' = a_after_read a key now_ms ∧
  if negb (a_has a' key) && is_some (visible_at (S !! key) now_ms) then r = WrongType else read_post key cmd a' r.

Lemma instant_read a key now1 now2 : wf_a a → a_after_read a key (instant a key now1 now2) = a_after_read a key now1.
Proof. intros Hw. unfold a_after_read. by rewrite instant_drop. Qed.

Lemma after_read_size a key now_ms : wf_a a → size (a_objs (a_after_read a key now_ms)) ≤ size (a_objs a).
Proof. intros Hw. unfold a_after_read. destruct (a_drop_expired a key now_ms).1; [by apply drop_size|done]. Qed.

Lemma does_object_read st S A B (w : Z) key a (cmd : ReadCommand) :
  spaces st S A B → obj A key = Some a → apart S A (clock (st_ticks st)) →
  (∀ now_ms, read_ok key cmd (a_after_read a key now_ms)) → (1 ≤ w)%Z → (B + w + 1 < i64_MAX)%Z →
  does (object_read clock key (run_read key cmd)) st (λ r st', ∃ now_ms a', between st st' now_ms ∧
    read_at S a key cmd now_ms r a' ∧ goes st S (put_obj A key a') (B + w) st').
Proof.
  intros Hsp Ha Hap Hok Hw Hroom. pose proof (obj_wf _ _ _ _ _ _ Hsp Ha) as Hwf. unfold object_read.
  eapply does_bind; [by apply (does_route st S A B key (λ r st', r = home_route key ∧ st' = st))|]. intros ? ? [-> ->].
  eapply does_bind; [by eapply now_step|]. intros now1 st1 (Hg1 & _ & Hn1 & En1).
  eapply does_bind; [by eapply does_string_exists, Hg1|]. intros se st2 (now2 & Hn2 & -> & Hg2).
  destruct (home_bucket st2 S A B key (proj1 Hg2)) as (As & a0 & HA & Hb & Ho). rewrite Ha in Ho. injection Ho as <-.
  destruct (object_read_spec (st_objects st2) A (home_route key) key As a (is_some (visible_at (S !! key) now2)) now1
    (sp_objects _ _ _ _ (proj1 Hg2)) HA Hb (home_fits _ _ _ _ _ _ (proj1 Hg2) HA) (run_read key cmd)
    (read_post key cmd (a_after_read a key now1))) as (r & o & Er & Hrep & Hr).
  { intros b Hbr. apply read_command_runs; [done|apply Hok]. }
  fold (put_obj A key (a_after_read a key now1)) in Hrep.
  assert (now1 ≤ now2)%Z by (rewrite En1; destruct Hn2 as (n2 & ? & ->); apply clock_le; destruct Hg1; lia).
  assert (clock (st_ticks st) ≤ now1)%Z by by rewrite En1.
  eapply does_mono; [eapply (does_on_objects st2 S A B w key a (a_after_read a key now1) _ r o (proj1 Hg2) Ha Er Hrep); [|done|done]|].
  { pose proof (after_read_size a key now1 Hwf). lia. }
  intros ? st3 [-> Hg3]. exists (instant a key now1 now2), (a_after_read a key now1). split; [|split].
  - unfold instant. destruct Hg1, Hg2, Hg3. destruct (a_has a key); (eapply between_wide; [| |done]; lia).
  - unfold read_at. rewrite instant_read by done. by rewrite (instant_visible S A (clock (st_ticks st))).
  - destruct Hg1, Hg2, Hg3. split; [done|lia].
Qed.
End proofs.
