(* ===== verification/EmbeddedStoreRun.v ===== *)
(** * Commands of the embedded store, one after the other

    A command names a key and an operation of [EmbeddedStore]: GET, SET, the
    read-modify-write behind APPEND and INCR, DEL, EXPIRE, and the commands on
    objects.  [run_op] runs the code, [key_spec] says what the operation means
    at one instant on the strings [S] and the object of the key. *)

From S2P Require Import Prelude Deps Slab ListObject Helpers F64 Codec Types HashSet ZSet Bucket.
From S2P Require Import BucketCore BucketKeys BucketList BucketSet BucketZSet BucketHash Store StoreOps Routing Resp FastKinds StringBits Snapshot Recovery FlatMap FlatMapProofs FlatEviction FlatRefine FlatRun.
From S2P Require Import SessionSlots EmbeddedShard EmbeddedShardProofs EmbeddedStore Engine EngineCommandProofs EmbeddedStoreProofs.

Inductive StoreOp :=
  | OpGet
  | OpSet (value : Bytes) (ttl_ms : option Z)
  | OpUpdate (f : option Bytes → Frame + (Frame * Bytes))
  | OpDel
  | OpExpire (at_ms : Z)
  | OpRead (cmd : ReadCommand)
  | OpWrite (cmd : WriteCommand)
  | OpCreate (cmd : CreateCommand).

Inductive StoreAnswer :=
  | Found (lookup : RedisStringLookup) (v : option Bytes)
  | Stored
  | Updated (r : Frame + Frame)
  | Changed (r : bool)
  | Answered (r : RedisObjectResult).

Section run.
Context `{Hashing} {HT : Type → Type} `{!HashTable HT} `{TableOrder} `{FloatOps}.
Context {OT : Type} `{!IndexTreeSet ZSetOrderKey zk_cmp OT}.
Context (clock : nat → Z) (accepts : Bytes → Z → option Z → bool) (k : nat).
Abbreviation EmbeddedStore := (EmbeddedStore (HT := HT) (OT := OT)).
Abbreviation ES := (ES (HT := HT) (OT := OT)).
Abbreviation bucket := (RedisObjectBucket (HT := HT) (OT := OT)).
Implicit Types (st : EmbeddedStore) (key value : Bytes) (now_ms B w : Z) (a : AState) (A : Objects) (S : Entries).
Implicit Types (op : StoreOp) (ans : StoreAnswer).

Definition run_op key op : ES StoreAnswer :=
  match op with
  | OpGet => '(lookup, v) ← get_string_value_into clock key; mret (Found lookup v)
  | OpSet value ttl_ms => set clock accepts key value ttl_ms;; mret Stored
  | OpUpdate f => r ← transform_string_value_no_ttl clock accepts key (λ e, Some (f e)); mret (Updated r)
  | OpDel => r ← delete_key clock accepts key; mret (Changed r)
  | OpExpire at_ms => r ← expire_key clock accepts key at_ms; mret (Changed r)
  | OpRead cmd => r ← object_read clock key (run_read key cmd); mret (Answered r)
  | OpWrite cmd => r ← object_write clock key (run_write key cmd); mret (Answered r)
  | OpCreate cmd => r ← object_create clock key (create_existing key cmd) (create_new key cmd); mret (Answered r)
  end.

(** The operation at the instant [now_ms]; [a] is the bucket of the key.  A
    key is deleted whether it expired or not, and DEL answers that it deleted
    it: an expired object or string that no command dropped yet counts, unless
    the string is on the shard of the vector sets ([settled]). *)
Definition key_spec key S a now_ms op ans S' a' : Prop :=
  match op with
  | OpGet =>
      S' = S ∧
      match visible_at (S !! key) now_ms with
      | Some v => a' = a ∧ ans = if is_vector_value v then Found LookupWrongType None else Found LookupHit (Some v)
      | None => a' = a_after_read a key now_ms ∧
                ans = Found (if a_visible a now_ms key then LookupWrongType else LookupMiss) None
      end
  | OpSet value ttl_ms =>
      ans = Stored ∧
      if accepts key (blen value) None
      then S' = put key (Some (mkEntry key value (u64_saturating_add now_ms <$> ttl_ms) None)) S ∧ a' = a_delete a key
      else S' = S ∧ a' = a
  | OpUpdate f =>
      a' = a_after_read a key now_ms ∧
      if a_visible a now_ms key then ans = Updated (inl wrongtype) ∧ S' = S
      else let x := guarded accepts key (λ e, Some (f e)) (visible_at (S !! key) now_ms) in
           (∃ r, transform_answer x r ∧ ans = Updated r) ∧ S' = put key (transformed S key now_ms x) S
  | OpDel =>
      if accepts key 0 None
      then ans = Changed (a_has a key || is_some (settled k S key now_ms !! key)) ∧
           S' = put key None S ∧ a' = a_delete a key
      else ans = Changed false ∧ S' = S ∧ a' = a
  | OpExpire at_ms =>
      if accepts key 0 None then ∃ r, ans = Changed r ∧ expire_at k S a key at_ms now_ms r S' a'
      else ans = Changed false ∧ S' = S ∧ a' = a
  | OpRead cmd => S' = S ∧ ∃ r, ans = Answered r ∧ read_at S a key cmd now_ms r a'
  | OpWrite cmd => S' = S ∧ ∃ r, ans = Answered r ∧ write_at S a key cmd now_ms r a'
  | OpCreate cmd => S' = S ∧ ∃ r, ans = Answered r ∧ create_at S a key cmd now_ms r a'
  end.

(** What the operation may add to a shard, in bytes and objects. *)
Definition weighs key op S w : Prop :=
  match op with
  | OpSet value _ => (s_weight (mkEntry key value None None) ≤ w)%Z
  | OpUpdate f => ∀ now_ms, (0 ≤ transform_weight key (guarded accepts key (λ e, Some (f e)) (visible_at (S !! key) now_ms)) ≤ w)%Z
  | OpRead _ | OpWrite _ | OpCreate _ => (1 ≤ w)%Z
  | _ => (0 ≤ w)%Z
  end.

(** What a command on objects relies on. *)
Definition op_ok key op a : Prop :=
  match op with
  | OpRead cmd => ∀ now_ms, read_ok key cmd (a_after_read a key now_ms)
  | OpWrite cmd => ∀ now_ms, counted_pre key cmd (a_drop_expired a key now_ms).2
  | OpCreate cmd => create_ok cmd
  | _ => True
  end.

Context (Hclock : ∀ n, (0 ≤ clock n)%Z) (Hmono : ∀ n, (clock n ≤ clock (S n))%Z).
Context (Hk : k < 57).
Abbreviation spaces := (spaces k).
Abbreviation obj := (obj k).
Abbreviation put_obj := (put_obj k).
Abbreviation apart := (apart k).
Abbreviation goes := (goes k).
Abbreviation between := (between clock).

(** ** A key never gets a live string beside an object *)
Definition separate key S a now_ms : Prop := ∀ s, S !! key = Some s → a_has a key = true → s_expired s now_ms = true.

(** What an operation on [key] leaves alone, and how it leaves the key. *)
Definition kept key S a now_ms S' a' : Prop :=
  (∀ k', k' ≠ key → a_objs a' !! k' = a_objs a !! k') ∧ (∀ k', k' ≠ key → S' !! k' = S !! k') ∧ separate key S' a' now_ms.

Lemma after_read_moves key a now_ms :
  wf_a a → (∀ k', k' ≠ key → a_objs (a_after_read a key now_ms) !! k' = a_objs a !! k') ∧
           (a_has (a_after_read a key now_ms) key = true → a_has a key = true).
Proof.
  intros Hw. unfold a_after_read. destruct (a_drop_expired a key now_ms).1; [|done].
  split; [intros k'; by apply drop_others|by apply drop_has].
Qed.

Lemma a_has_delete a key : a_has (a_delete a key) key = false.
Proof. unfold a_has. simpl. by rewrite lookup_delete_eq. Qed.

Lemma put_other S key k' o : k' ≠ key → put key o S !! k' = S !! k'.
Proof. intros Hn. by apply lookup_partial_alter_ne. Qed.

Lemma put_at S key o : put key o S !! key = o.
Proof. apply lookup_partial_alter_eq. Qed.

(** An entry that is not visible and not protected has expired. *)
Lemma hidden_expired S key now_ms s :
  S !! key = Some s → e_governance s = None → visible_at (S !! key) now_ms = None → s_expired s now_ms = true.
Proof.
  intros -> Hg. unfold visible_at, s_visible, s_protected. simpl. destruct (s_expired s now_ms); [done|]. simpl. by rewrite Hg.
Qed.

Lemma settled_at S key now_ms s : settled k S key now_ms !! key = Some s → S !! key = Some s.
Proof.
  destruct (settled_or k S key now_ms) as [->| ->]; [done|]. rewrite put_at. destruct (S !! key) as [s0|]; [|done]. simpl. by destruct (s_expired s0 now_ms).
Qed.

Lemma settled_other S key now_ms k' : k' ≠ key → settled k S key now_ms !! k' = S !! k'.
Proof. intros Hn. destruct (settled_or k S key now_ms) as [->| ->]; [done|]. by apply put_other. Qed.

Lemma kept_same key S a now_ms a' :
  separate key S a now_ms → (∀ s, S !! key = Some s → e_governance s = None) → moves S key a now_ms a' → kept key S a now_ms S a'.
Proof.
  intros Hs Hp [Ho Hm]. split; [done|]. split; [done|]. intros s Es Hh. destruct (Hm Hh) as [?|Hv]; [by apply Hs|].
  eapply hidden_expired; eauto.
Qed.

Lemma kept_read key S a now_ms :
  wf_a a → separate key S a now_ms → kept key S a now_ms S (a_after_read a key now_ms).
Proof. intros Hw Hs. destruct (after_read_moves key a now_ms Hw) as [Ho Hh]. split; [done|]. split; [done|]. intros s Es Hx. auto. Qed.

Lemma expire_keeps key S a (at_ms now_ms : Z) r S' a' :
  wf_a a → separate key S a now_ms → expire_at k S a key at_ms now_ms r S' a' → kept key S a now_ms S' a'.
Proof.
  intros Hw Hs He. unfold expire_at in He. pose proof (drop_has a key now_ms Hw) as Hd.
  pose proof (drop_others a key now_ms) as Ho. set (a1 := (a_drop_expired a key now_ms).2) in *.
  destruct (a_has a1 key) eqn:E1.
  - destruct He as (_ & -> & ->). split; [|split; [intros k'; apply settled_other|]].
    + intros k' Hn. unfold a_expire, a_delete_expired. destruct (a_expired a1 key now_ms); simpl.
      * rewrite lookup_delete_ne by done. auto.
      * rewrite E1. simpl. auto.
    + intros s Es _. apply Hs; [by eapply settled_at|auto].
  - destruct He as (-> & He). split; [auto|]. split; [|intros s Es Hh; congruence].
    intros k' Hn. destruct (live_entry (S !! key) now_ms); destruct He as [_ ->]; [by apply put_other|].
    destruct (a_has a key); [by apply settled_other|by apply put_other].
Qed.

(** Whatever the operation, the other keys are untouched and the key is left
    with a string or an object, not both. *)
Lemma spec_keeps (b : bucket) key S a now_ms op ans S' a' :
  bucket_rep b a → (∀ s, S !! key = Some s → e_governance s = None) → op_ok key op a → separate key S a now_ms →
  key_spec key S a now_ms op ans S' a' → kept key S a now_ms S' a'.
Proof.
  intros Hb Hp Hok Hs Hsp. pose proof (proj2 Hb) as Hw.
  assert (kept key S a now_ms S a) as Hid by (split; [done|]; by split).
  assert (∀ o, kept key S a now_ms (put key o S) (a_delete a key)) as Hdel.
  { intros o. split; [intros k' ?; simpl; by rewrite lookup_delete_ne|]. split; [intros; by apply put_other|].
    intros s _. by rewrite a_has_delete. }
  destruct op; simpl in Hsp.
  - destruct Hsp as [-> Hsp]. destruct (visible_at _ now_ms); destruct Hsp as [-> _]; [done|by apply kept_read].
  - destruct Hsp as [_ Hsp]. destruct (accepts _ _ _); destruct Hsp as [-> ->]; [apply Hdel|done].
  - destruct Hsp as [-> Hsp]. destruct (a_visible a now_ms key) eqn:Ev; destruct Hsp as [_ ->]; [by apply kept_read|].
    split; [by apply after_read_moves|]. split; [intros; by apply put_other|]. intros s _. by rewrite visible_has, Ev.
  - destruct (accepts _ _ _); [destruct Hsp as (_ & -> & ->); apply Hdel|by destruct Hsp as (_ & -> & ->)].
  - destruct (accepts _ _ _); [destruct Hsp as (r & _ & He); by eapply expire_keeps|by destruct Hsp as (_ & -> & ->)].
  - destruct Hsp as (-> & r & _ & -> & _). by apply kept_read.
  - destruct Hsp as (-> & r & _ & Hwr). apply kept_same; [done|done|]. by eapply write_moves.
  - destruct Hsp as (-> & r & _ & Hc). apply kept_same; [done|done|]. by eapply create_moves.
Qed.

Lemma apart_step S A S' key a a' (t now_ms t' : Z) :
  apart S A t → obj A key = Some a → (t ≤ now_ms)%Z → (now_ms ≤ t')%Z →
  kept key S a now_ms S' a' → apart S' (put_obj A key a') t'.
Proof.
  intros Hap Ha Ht Ht' (Ho & HS & Hs) k' s a0 Es Ea Hh. rewrite obj_put in Ea by eauto.
  apply (expired_later s now_ms); [done|]. destruct (decide (k' = key)) as [->|Hn].
  { rewrite decide_True in Ea by done. injection Ea as <-. by apply Hs. }
  apply (expired_later s t); [done|]. rewrite HS in Es by done. destruct (decide _) as [[Eh Eb]|_]; [|by eapply Hap].
  injection Ea as <-. apply (Hap k' s a); [done| |].
  - unfold EmbeddedStoreProofs.obj in *. by rewrite Eh, Eb.
  - unfold a_has in *. by rewrite <- Ho.
Qed.

Lemma apart_separate S A (t now_ms : Z) key a : apart S A t → (t ≤ now_ms)%Z → obj A key = Some a → separate key S a now_ms.
Proof. intros Hap Ht Ha s Es Hh. apply (expired_later s t); [done|]. by eapply Hap. Qed.

(** ** Every operation does what it means, at an instant of its run *)
Definition op_does key op st S A B w a : Prop :=
  does (run_op key op) st (λ ans st', ∃ now_ms S' a', between st st' now_ms ∧ key_spec key S a now_ms op ans S' a' ∧
    goes st S' (put_obj A key a') (B + w) st').

(** The store before a command, and what the command may add to it. *)
Definition command_fits key op st S A B w a : Prop :=
  spaces st S A B ∧ obj A key = Some a ∧ apart S A (clock (st_ticks st)) ∧ op_ok key op a ∧ weighs key op S w ∧
  (B + w + 1 < i64_MAX)%Z.

Lemma goes_same st S A B w key a st' :
  goes st S A B st' → obj A key = Some a → (0 ≤ w)%Z → (B + w + 1 < i64_MAX)%Z → goes st S (put_obj A key a) (B + w) st'.
Proof. intros [Hsp Ht] Ha Hw Hr. split; [|done]. rewrite put_obj_same by done. eapply (spaces_more k Hk); [done|lia|lia]. Qed.

Lemma between_now st : between st st (clock (st_ticks st)).
Proof. by exists (st_ticks st). Qed.

Lemma get_does key st S A B w a : command_fits key OpGet st S A B w a → op_does key OpGet st S A B w a.
Proof.
  intros (Hsp & Ha & _ & _ & Hw & Hr). simpl in Hw. unfold op_does, run_op.
  eapply does_bind; [by eapply (does_get clock Hmono k Hk)|]. intros [lookup v] st' (now_ms & Hn & Hx). apply does_ret.
  exists now_ms, S. simpl. destruct (visible_at (S !! key) now_ms) as [v0|]; destruct Hx as [Ex Hg].
  - exists a. split; [done|]. split; [|by apply goes_same]. by destruct (is_vector_value v0); injection Ex as -> ->.
  - exists (a_after_read a key now_ms). injection Ex as -> ->. split; [done|]. split; [done|].
    destruct Hg as [Hsp' Ht]. split; [|done]. eapply (spaces_more k Hk); [done|lia|lia].
Qed.

Lemma goes_wide st S A B w st' :
  goes st S A B st' → (0 ≤ w)%Z → (B + w + 1 < i64_MAX)%Z → goes st S A (B + w) st'.
Proof. intros [Hsp Ht] Hw Hr. split; [|done]. eapply (spaces_more k Hk); [done|lia|lia]. Qed.

Lemma set_does key value ttl_ms st S A B w a :
  command_fits key (OpSet value ttl_ms) st S A B w a → op_does key (OpSet value ttl_ms) st S A B w a.
Proof.
  intros (Hsp & Ha & _ & _ & Hw & Hr). simpl in Hw. assert (0 ≤ s_weight (mkEntry key value None None))%Z by (unfold s_weight, blen; simpl; lia).
  unfold op_does, run_op. destruct (accepts key (blen value) None) eqn:Ec.
  - eapply does_bind; [eapply (does_set clock accepts k Hk); [done|done|done|lia]|].
    intros _ st' (now_ms & Hn & Hg). apply does_ret. eexists now_ms, _, _. split; [done|]. simpl. rewrite Ec.
    split; [done|]. eapply (goes_more k Hk); [done|lia|lia].
  - unfold set. eapply (does_bind _ _ _ (λ _ st', goes st S A B st')).
    { eapply does_bind; [by eapply (now_step clock k)|]. intros now_ms st1 (Hg & _).
      eapply does_bind; [eapply (does_route k st1 S A B key (λ r st', st' = st1)); [apply Hg|done]|]. intros ? ? ->.
      unfold set_value_bytes_routed_with_governance_then. simpl. rewrite Ec. apply does_ret, Hg. }
    intros _ st1 Hg. apply does_ret. eexists (clock (st_ticks st)), S, a. split; [exists (st_ticks st); by destruct Hg|].
    simpl. rewrite Ec. split; [done|]. apply goes_same; [done|done|lia|done].
Qed.

Lemma update_does key f st S A B w a :
  command_fits key (OpUpdate f) st S A B w a → op_does key (OpUpdate f) st S A B w a.
Proof.
  intros (Hsp & Ha & Hap & _ & Hw & Hr). unfold op_does, run_op.
  eapply does_bind; [by eapply (does_transform clock accepts Hmono k Hk)|]. intros r st' (now_ms & Hn & Hx). apply does_ret.
  exists now_ms. simpl. destruct (a_visible a now_ms key); destruct Hx as [Hx Hg]; (eexists _, _; split; [done|]; split; [|done]).
  - by rewrite Hx.
  - eauto.
Qed.

Lemma refused_does key op st S A B w a :
  command_fits key op st S A B w a → (0 ≤ w)%Z → run_op key op = mret (Changed false) →
  key_spec key S a (clock (st_ticks st)) op (Changed false) S a → op_does key op st S A B w a.
Proof.
  intros (Hsp & Ha & _ & _ & _ & Hr) Hw E Hk'. unfold op_does. rewrite E. apply does_ret.
  exists (clock (st_ticks st)), S, a. split; [apply between_now|]. split; [done|]. apply goes_same; [by apply goes_refl|done..].
Qed.

Lemma del_does key st S A B w a : command_fits key OpDel st S A B w a → op_does key OpDel st S A B w a.
Proof.
  intros Hf. pose proof Hf as (Hsp & Ha & _ & _ & Hw & Hr). destruct (accepts key 0 None) eqn:Ec.
  - unfold op_does, run_op. eapply does_bind; [by eapply (does_delete clock accepts Hclock k Hk)|].
    intros r st' (now_ms & Hn & -> & Hg). apply does_ret. eexists now_ms, _, _. split; [done|]. simpl. rewrite Ec.
    split; [eauto|]. by apply goes_wide.
  - apply refused_does; [done|done|unfold run_op, delete_key; by rewrite Ec|simpl; by rewrite Ec].
Qed.

Lemma expire_does key at_ms st S A B w a :
  command_fits key (OpExpire at_ms) st S A B w a → op_does key (OpExpire at_ms) st S A B w a.
Proof.
  intros Hf. pose proof Hf as (Hsp & Ha & Hap & _ & Hw & Hr). destruct (accepts key 0 None) eqn:Ec.
  - unfold op_does, run_op. eapply does_bind; [by eapply (does_expire clock accepts Hclock Hmono k Hk)|].
    intros r st' (now_ms & S1 & a1 & Hn & He & Hg). apply does_ret. eexists now_ms, _, _. split; [done|]. simpl. rewrite Ec.
    split; [eauto|]. by apply goes_wide.
  - apply refused_does; [done|done|unfold run_op, expire_key; by rewrite Ec|simpl; by rewrite Ec].
Qed.

Lemma read_does key cmd st S A B w a :
  command_fits key (OpRead cmd) st S A B w a → op_does key (OpRead cmd) st S A B w a.
Proof.
  intros (Hsp & Ha & Hap & Hok & Hw & Hr). unfold op_does, run_op.
  eapply does_bind; [by eapply (does_object_read clock Hmono k Hk)|]. intros r st' (now_ms & a' & Hn & Hx & Hg). apply does_ret.
  exists now_ms, S, a'. split; [done|]. split; [|done]. simpl. eauto.
Qed.

Lemma write_does key cmd st S A B w a :
  command_fits key (OpWrite cmd) st S A B w a → op_does key (OpWrite cmd) st S A B w a.
Proof.
  intros (Hsp & Ha & Hap & Hok & Hw & Hr). unfold op_does, run_op.
  eapply does_bind; [by eapply (does_object_write clock Hmono k Hk)|]. intros r st' (now_ms & a' & Hn & Hx & Hg). apply does_ret.
  exists now_ms, S, a'. split; [done|]. split; [|done]. simpl. eauto.
Qed.

Lemma create_does key cmd st S A B w a :
  command_fits key (OpCreate cmd) st S A B w a → op_does key (OpCreate cmd) st S A B w a.
Proof.
  intros (Hsp & Ha & Hap & Hok & Hw & Hr). unfold op_does, run_op.
  eapply does_bind; [by eapply (does_object_create clock Hmono k Hk)|]. intros r st' (now_ms & a' & Hn & Hx & Hg). apply does_ret.
  exists now_ms, S, a'. split; [done|]. split; [|done]. simpl. eauto.
Qed.

Lemma run_op_does key op st S A B w a : command_fits key op st S A B w a → op_does key op st S A B w a.
Proof.
  destruct op; [apply get_does|apply set_does|apply update_does|apply del_does|apply expire_does|apply read_does|apply write_does|apply create_does].
Qed.

(** ** Sequences of commands *)
Definition linked st S A B : Prop := spaces st S A B ∧ apart S A (clock (st_ticks st)).

(** The specification of a command keeps strings and objects apart. *)
Lemma spec_linked key op st S A B w a ans st' now_ms S' a' :
  command_fits key op st S A B w a → between st st' now_ms → key_spec key S a now_ms op ans S' a' →
  goes st S' (put_obj A key a') (B + w) st' → linked st' S' (put_obj A key a') (B + w).
Proof.
  intros (Hsp & Ha & Hap & Hok & _ & _) (n & [Hn1 Hn2] & ->) Hks Hg. split; [apply Hg|].
  destruct (does_read_bucket k Hk st S A B key a Hsp Ha) as (b & _ & _ & Hb & _).
  pose proof (clock_le clock Hmono _ _ Hn1) as Ht1. pose proof (clock_le clock Hmono _ _ Hn2) as Ht2.
  eapply apart_step; [done|done|done|done|]. eapply spec_keeps; [done| |done| |done].
  - intros s. apply (sp_plain k _ _ _ _ Hsp).
  - by eapply apart_separate.
Qed.

Lemma run_op_linked key op st S A B w a :
  command_fits key op st S A B w a →
  does (run_op key op) st (λ ans st', ∃ now_ms S' a', between st st' now_ms ∧ key_spec key S a now_ms op ans S' a' ∧
    linked st' S' (put_obj A key a') (B + w)).
Proof.
  intros Hf. eapply does_mono; [by apply run_op_does|].
  intros ans st' (now_ms & S' & a' & Hn & Hks & Hg). exists now_ms, S', a'. split; [done|]. split; [done|]. by eapply spec_linked.
Qed.

Lemma new_plain : plain_shard 0 (with_limits None NoEviction : EmbeddedShard.EmbeddedShard (HT := HT)).
Proof.
  destruct (with_limits_ok (HT := HT) None NoEviction) as ([Hok _ Hl _ _] & _ & Eb & _ & El & _).
  split; [done|]. split; [done|]. split; [lia|]. done.
Qed.

Lemma new_shard_empty key : contents (es_map (with_limits None NoEviction : EmbeddedShard.EmbeddedShard (HT := HT))) !! key = None.
Proof.
  destruct (with_limits_ok (HT := HT) None NoEviction) as (_ & Hs & _). specialize (Hs key). rewrite lookup_empty in Hs.
  unfold seen in Hs. by destruct (session_chunk _ _).
Qed.

Definition no_objects : Objects := replicate (2 ^ k) (replicate OBJECT_BUCKETS a_empty).

Lemma new_linked : linked (embedded_store_new (2 ^ k) FullKey) ∅ no_objects 0.
Proof.
  assert (0 < 2 ^ k) as Hpos by (apply Nat.neq_0_lt_0, Nat.pow_nonzero; lia). split; [split; simpl; try done|].
  - rewrite Nat2Z.inj_pow. apply shift_for_pow2. lia.
  - apply length_replicate.
  - apply Forall_replicate, new_plain.
  - intros i sh key [-> _]%lookup_replicate. rewrite new_shard_empty. by intros [? ?].
  - intros key sh [-> _]%lookup_replicate. by rewrite new_shard_empty.
  - pose proof (store_new_rep (HT := HT) (OT := OT) (2 ^ k)) as Hr. by rewrite Nat.max_l in Hr by lia.
  - apply length_replicate.
  - apply Forall_replicate. unfold stored. generalize OBJECT_BUCKETS. intros n. induction n as [|n IHn]; simpl in *; [done|]. done.
  - intros key s a Hs. by rewrite lookup_empty in Hs.
Qed.

(** The store and the specification side by side, as long as the commands on
    objects find what they rely on and the counters cannot overflow. *)
Fixpoint runs_as st S A B (cs : list (Bytes * StoreOp)) : Prop :=
  match cs with
  | [] => True
  | (key, op) :: cs => ∀ a w, obj A key = Some a → op_ok key op a → weighs key op S w → (B + w + 1 < i64_MAX)%Z →
      ∃ ans st' now_ms S' a', run_op key op st = Some (ans, st') ∧ between st st' now_ms ∧
        key_spec key S a now_ms op ans S' a' ∧ runs_as st' S' (put_obj A key a') (B + w) cs
  end.

Lemma linked_runs cs st S A B : linked st S A B → runs_as st S A B cs.
Proof.
  revert st S A B. induction cs as [|[key op] cs IH]; intros st S A B [Hsp Hap]; [done|]. intros a w Ha Hok Hw Hr.
  destruct (run_op_linked key op st S A B w a) as (ans & st' & E & now_ms & S' & a' & Hn & Hks & Hl'); [done|].
  exists ans, st', now_ms, S', a'. split; [done|]. split; [done|]. split; [done|]. by apply IH.
Qed.

(** The stores commands lead to, and what the commands may have added. *)
Inductive reachable : EmbeddedStore → Z → Prop :=
  | reach_new : reachable (embedded_store_new (2 ^ k) FullKey) 0
  | reach_step st B w key op ans st' :
      reachable st B → (∀ S A a, spaces st S A B → obj A key = Some a → op_ok key op a ∧ weighs key op S w) →
      (B + w + 1 < i64_MAX)%Z → run_op key op st = Some (ans, st') → reachable st' (B + w).

Lemma reachable_linked st B : reachable st B → ∃ S A, linked st S A B.
Proof.
  induction 1 as [|st B w key op ans st' _ (S & A & Hsp & Hap) Hok Hr E]; [eauto using new_linked|].
  destruct (home_bucket k Hk st S A B key Hsp) as (_ & a & _ & _ & Ha). destruct (Hok S A a Hsp Ha) as [Hok1 Hw].
  destruct (run_op_linked key op st S A B w a) as (ans' & st'' & E' & now_ms & S' & a' & _ & _ & Hl); [done|].
  rewrite E in E'. injection E' as <- <-. eauto.
Qed.

(** A visible string and an object of one key. *)
Lemma linked_one_type st S A B key sh (b : bucket) :
  linked st S A B → st_shards st !! home (Z.of_nat k) key = Some sh →
  get_bucket (st_objects st) (home (Z.of_nat k) key) (hash_key key) = Some b →
  is_Some (get_shared_value_bytes_hashed (es_map sh) (hash_key key) key (clock (st_ticks st))) → contains_object b key = false.
Proof.
  intros [Hsp Hap] Hs Hb [v Hv]. destruct (home_holds k Hk st S A B key Hsp) as (sh' & Hs' & (Hf & _) & Ek).
  rewrite Hs in Hs'. injection Hs' as <-. destruct (home_bucket k Hk st S A B key Hsp) as (As & a & HA & Hx & Ha).
  destruct (store_bucket _ _ _ _ _ _ (sp_objects _ _ _ _ _ Hsp) HA Hx) as (osh & b' & _ & Hg & Hrep & _).
  rewrite Hb in Hg. injection Hg as <-. rewrite (contains_object_spec b a) by apply Hrep. destruct (a_has a key) eqn:Eh; [|done].
  change (fe_value <$> live (clock (st_ticks st)) (find_readable (es_map sh) (hash_key key) key) = Some v) in Hv.
  rewrite live_read in Hv by done. unfold visible_at in Hv. rewrite Ek in Hv.
  by rewrite (apart_dead k S A (clock (st_ticks st)) (clock (st_ticks st)) key a) in Hv.
Qed.

(** The bucket of a key, in the store and in the specification. *)
Lemma spaces_bucket st S A B key :
  spaces st S A B → ∃ a (b : bucket), obj A key = Some a ∧
    get_bucket (st_objects st) (home (Z.of_nat k) key) (hash_key key) = Some b ∧ contains_object b key = a_has a key.
Proof.
  intros Hsp. destruct (home_bucket k Hk st S A B key Hsp) as (As & a & HA & Hx & Ha).
  destruct (store_bucket _ _ _ _ _ _ (sp_objects _ _ _ _ _ Hsp) HA Hx) as (osh & b & _ & Hg & Hrep & _).
  exists a, b. split; [done|]. split; [done|]. apply contains_object_spec, Hrep.
Qed.

(** The string of a key a reader finds in its shard. *)
Lemma spaces_string st S A B key now_ms :
  spaces st S A B → ∃ sh, st_shards st !! home (Z.of_nat k) key = Some sh ∧
    get_shared_value_bytes_hashed (es_map sh) (hash_key key) key now_ms = visible_at (S !! key) now_ms.
Proof.
  intros Hsp. destruct (home_holds k Hk st S A B key Hsp) as (sh & Hsh & (Hfl & _) & Ek). exists sh. split; [done|].
  change (fe_value <$> live now_ms (find_readable (es_map sh) (hash_key key) key) = visible_at (S !! key) now_ms).
  by rewrite live_read, Ek.
Qed.

(** ** A check and a write torn apart *)

(** The creating commands that do create: those with something to add. *)
Definition creates (cmd : CreateCommand) : Prop :=
  match cmd with CreatePush values _ => values ≠ [] | CreateSadd members => members ≠ [] | _ => True end.

Lemma attempt_absent key (cmd : CreateCommand) a :
  a_has a key = false → creates cmd → (create_attempt key cmd a).1 = WriteMissing.
Proof.
  intros Hh Hc. assert (a_objs a !! key = None) as E by (apply bool_decide_eq_false in Hh; by apply eq_None_not_Some).
  destruct cmd; simpl in *; unfold a_push_attempt, a_sadd_attempt, a_zadd_attempt, a_hset_attempt, a_update;
    rewrite ?bool_decide_eq_false_2 by done; rewrite ?E; try done.
  pose proof (a_purge_has a key clock0) as Hp. rewrite Hh in Hp.
  apply bool_decide_eq_false, eq_None_not_Some in Hp. by rewrite Hp.
Qed.

(** Where the key has neither object nor string, a creating command creates. *)
Lemma create_at_absent key (cmd : CreateCommand) S a now_ms r a' :
  wf_a a → a_has a key = false → S !! key = None → creates cmd → create_at S a key cmd now_ms r a' →
  r = created_answer cmd ∧ a_has a' key = true.
Proof.
  intros Hw Hh Hs Hc. unfold create_at. rewrite drop_without_object by done. cbn [snd].
  rewrite attempt_absent, Hs by done. cbn. intros [-> ->]. split; [done|].
  apply bool_decide_eq_true. simpl. rewrite lookup_insert_eq. eauto.
Qed.

Lemma apart_later S A (t t' : Z) : (t ≤ t')%Z → apart S A t → apart S A t'.
Proof. intros Ht Hap key s a Hs Ha Hh. apply (expired_later s t); [done|]. by eapply Hap. Qed.

Lemma create_then_transform key (cmd : CreateCommand) (f : option Bytes → Frame + (Frame * Bytes)) answer value st S A B a :
  linked st S A B → obj A key = Some a → a_has a key = false → S !! key = None →
  create_ok cmd → creates cmd → f None = inr (answer, value) → accepts key (blen value) None = true →
  (B + 1 + s_weight (mkEntry key value None None) + 1 < i64_MAX)%Z →
  ∃ st1 st2 st3 S3 A3 B3 a3,
    object_refuses clock (home_route k key) key st = Some (false, st1) ∧
    run_op key (OpCreate cmd) st1 = Some (Answered (created_answer cmd), st2) ∧
    transform_locked clock accepts (home_route k key) key
      (λ existing, if from_option is_vector_value false existing then Some (inl wrongtype) else Some (f existing)) st2 =
      Some (inr answer, st3) ∧
    spaces st3 S3 A3 B3 ∧ obj A3 key = Some a3 ∧ a_has a3 key = true ∧ S3 !! key = Some (mkEntry key value None None).
Proof.
  intros [Hsp Hap] Ha Hh Hs Hok Hc Hf Hacc Hr. pose proof (obj_wf k Hk _ _ _ _ _ _ Hsp Ha) as Hwf.
  pose proof (s_weight_nonneg (mkEntry key value None None)) as Hw.
  destruct (does_refuses clock k Hk st S A B key a Hsp Ha) as (r1 & st1 & E1 & now1 & [_ [Hsp1 Ht1]] & ->).
  rewrite after_read_absent, put_obj_same in Hsp1 by done. rewrite <- visible_has, after_read_absent, Hh in E1 by done.
  destruct (does_object_create clock Hmono k Hk st1 S A B 1 key a cmd) as (r2 & st2 & E2 & now2 & a' & _ & Hc2 & [Hsp2 _]);
    [done|done|by eapply apart_later, Hap; apply clock_le|done|lia|lia|].
  destruct (create_at_absent key cmd S a now2 r2 a' Hwf Hh Hs Hc Hc2) as [-> Hh'].
  assert (∀ now_ms, guarded accepts key (λ e, Some (f e)) (visible_at (S !! key) now_ms) = Some (inr (answer, value))) as Hg.
  { intros now_ms. rewrite Hs. unfold guarded. change (visible_at None now_ms) with (@None Bytes). cbn. by rewrite Hf, Hacc. }
  destruct (does_transform_locked clock accepts k Hk st2 S (put_obj A key a') (B + 1) (s_weight (mkEntry key value None None)) key f)
    as (r3 & st3 & E3 & now3 & _ & Han & [Hsp3 _]); [done|lia|intros now_ms; rewrite Hg; simpl; lia|].
  rewrite Hg in Han, Hsp3. simpl in Han, Hsp3. subst r3.
  eexists st1, st2, st3, _, _, _, a'. split; [done|]. split; [cbn [run_op]; unfold mbind, es_bind; by rewrite E2|].
  split; [done|]. split; [done|]. split; [by eapply (obj_put_same k)|]. split; [done|]. apply put_at.
Qed.
End run.
