(* ===== verification/Lcs.v ===== *)
(** * The longest common subsequence of two strings

    [redis_compat/commands/string/lcs.rs]: [lcs_length] keeps one row of the
    table of prefix lengths, [longest_common_subsequence] fills the whole table
    and walks it backwards.  Cells are [u32]; an index out of range is [None]. *)

From S2P Require Import Prelude Deps Helpers Codec.

Implicit Types (a b : Bytes) (i j cols : nat) (dp row : list Z).

Definition u32_succ (n : Z) : Z := ((n + 1) mod 2 ^ 32)%Z.

(** ** One rolling row *)

(** The inner loop of [lcs_length_with_row]: [diag] and [left] are carried. *)
Fixpoint row_step (outer_byte diag left : Z) row (inner : Bytes) : list Z :=
  match row, inner with
  | up :: row, inner_byte :: inner =>
      let val := if (outer_byte =? inner_byte)%Z then u32_succ diag else Z.max up left in
      val :: row_step outer_byte up val row inner
  | row, _ => row
  end.

Definition lcs_length_with_row (outer inner : Bytes) row : option Z :=
  foldl (λ row outer_byte, row_step outer_byte 0 0 row inner) row outer !! (length inner - 1).

(** A row on the stack and one on the heap both start as [width] zeros. *)
Definition lcs_length a b : option Z :=
  let '(outer, inner) := if (length b <=? length a)%nat then (a, b) else (b, a) in
  if bool_decide (inner = []) then Some 0%Z
  else lcs_length_with_row outer inner (replicate (length inner) 0%Z).

(** ** The whole table *)
Record LcsMatch := mkLcsMatch { a_start : nat; a_end : nat; b_start : nat; b_end : nat; match_len : nat }.

Definition cell cols i j : nat := i * cols + j.

Definition fill_cell a b cols i dp j : option (list Z) :=
  x ← a !! (i - 1); y ← b !! (j - 1);
  v ← (if (x =? y)%Z then d ← dp !! cell cols (i - 1) (j - 1); Some (u32_succ d)
       else u ← dp !! cell cols (i - 1) j; l ← dp !! cell cols i (j - 1); Some (Z.max u l));
  if (cell cols i j <? length dp)%nat then Some (<[cell cols i j := v]> dp) else None.

Definition fill_row a b cols dp i : option (list Z) :=
  foldl (λ acc j, dp ← acc; fill_cell a b cols i dp j) (Some dp) (seq 1 (length b)).

Definition lcs_table a b : option (list Z) :=
  let cols := length b + 1 in
  foldl (λ acc i, dp ← acc; fill_row a b cols dp i) (Some (replicate ((length a + 1) * cols) 0%Z)) (seq 1 (length a)).

(** The range of matching bytes that ends at [ai] and [bi]. *)
Definition extend_range (range : option LcsMatch) (matches : list LcsMatch) (ai bi : nat) : list LcsMatch * LcsMatch :=
  let fresh := mkLcsMatch ai ai bi bi 1 in
  match range with
  | Some r =>
      if (a_start r =? ai + 1)%nat && (b_start r =? bi + 1)%nat
      then (matches, mkLcsMatch ai (a_end r) bi (b_end r) (match_len r + 1))
      else (matches ++ [r], fresh)
  | None => (matches, fresh)
  end.

(** The walk from the last cell; [sequence] is built backwards. *)
Fixpoint walk (fuel : nat) a b dp cols i j (sequence : Bytes) (matches : list LcsMatch) (range : option LcsMatch) :
    option (Bytes * list LcsMatch) :=
  if ((i =? 0) || (j =? 0))%nat then Some (reverse sequence, matches ++ match range with Some r => [r] | None => [] end)
  else
    match fuel with
    | 0 => None
    | Datatypes.S fuel =>
        x ← a !! (i - 1); y ← b !! (j - 1);
        if (x =? y)%Z then
          let '(matches, r) := extend_range range matches (i - 1) (j - 1) in
          walk fuel a b dp cols (i - 1) (j - 1) (sequence ++ [x]) matches (Some r)
        else
          u ← dp !! cell cols (i - 1) j; l ← dp !! cell cols i (j - 1);
          if (l <=? u)%Z then walk fuel a b dp cols (i - 1) j sequence matches range
          else walk fuel a b dp cols i (j - 1) sequence matches range
    end.

Definition longest_common_subsequence a b : option (Bytes * list LcsMatch * Z) :=
  dp ← lcs_table a b;
  total ← dp !! cell (length b + 1) (length a) (length b);
  '(sequence, matches) ← walk (length a + length b) a b dp (length b + 1) (length a) (length b) [] [] None;
  Some (sequence, matches, total).

(** ** The reference: the length by recursion on two lists *)
Fixpoint lcs_ref a b : nat :=
  match a with
  | [] => 0
  | x :: a' =>
      (fix inner b := match b with
                      | [] => 0
                      | y :: b' => if (x =? y)%Z then Datatypes.S (lcs_ref a' b') else Nat.max (lcs_ref a' b) (inner b')
                      end) b
  end.

Lemma lcs_ref_nil a : lcs_ref a [] = 0.
Proof. by destruct a. Qed.

Lemma lcs_ref_cons (x y : Z) a b :
  lcs_ref (x :: a) (y :: b) =
    if (x =? y)%Z then Datatypes.S (lcs_ref a b) else Nat.max (lcs_ref a (y :: b)) (lcs_ref (x :: a) b).
Proof. done. Qed.

Lemma lcs_ref_le a : ∀ b, lcs_ref a b ≤ length a ∧ lcs_ref a b ≤ length b.
Proof.
  induction a as [|x a IHa]; intros b; [simpl; lia|]. induction b as [|y b IHb]; [rewrite lcs_ref_nil; simpl; lia|].
  rewrite lcs_ref_cons. destruct (Z.eqb_spec x y); [specialize (IHa b)|specialize (IHa (y :: b))]; simpl in *; lia.
Qed.

Lemma sublist_tail {T} (x : T) (l k : list T) : x :: l `sublist_of` k → l `sublist_of` k.
Proof. intros Hs. etrans; [|done]. by apply sublist_cons. Qed.

Lemma sublist_reverse {T} (l k : list T) : l `sublist_of` k → reverse l `sublist_of` reverse k.
Proof.
  induction 1 as [|x l k _ IH|x l k _ IH]; [done|..]; rewrite ?reverse_cons.
  - by apply sublist_app.
  - by apply sublist_inserts_r.
Qed.

(** No common subsequence is longer. *)
Lemma lcs_ref_bound a : ∀ (s b : Bytes), s `sublist_of` a → s `sublist_of` b → length s ≤ lcs_ref a b.
Proof.
  induction a as [|x a IHa]; intros s b Ha Hb.
  { apply sublist_nil_r in Ha as ->. simpl. lia. }
  induction b as [|y b IHb]; [apply sublist_nil_r in Hb as ->; simpl; lia|]. rewrite lcs_ref_cons.
  destruct (Z.eqb_spec x y) as [<-|Hn].
  - destruct s as [|z s]; [simpl; lia|]. simpl. apply le_n_S. apply IHa.
    + apply sublist_cons_r in Ha as [Ha|(? & [= -> ->] & Ha)]; [by eapply sublist_tail|done].
    + apply sublist_cons_r in Hb as [Hb|(? & [= -> ->] & Hb)]; [by eapply sublist_tail|done].
  - apply sublist_cons_r in Ha as [Ha|(s1 & -> & Ha)].
    + specialize (IHa s (y :: b) Ha Hb). lia.
    + apply sublist_cons_r in Hb as [Hb|(? & [= -> ->] & Hb)]; [|done]. specialize (IHb Hb). lia.
Qed.

(** ** The rolling row *)

(** The row after the bytes [oa] (last first), from the column of [ib] on. *)
Fixpoint ref_row (oa ib inner : Bytes) : list Z :=
  match inner with [] => [] | y :: inner => Z.of_nat (lcs_ref oa (y :: ib)) :: ref_row oa (y :: ib) inner end.

Definition short a : Prop := (Z.of_nat (length a) < 2 ^ 31)%Z.

Lemma u32_succ_ref oa ib : short oa → u32_succ (Z.of_nat (lcs_ref oa ib)) = Z.of_nat (Datatypes.S (lcs_ref oa ib)).
Proof.
  unfold short, u32_succ. intros Hs. destruct (lcs_ref_le oa ib). rewrite Z.mod_small; [lia|].
  change (2 ^ 32)%Z with (2 * 2 ^ 31)%Z. lia.
Qed.

Lemma row_step_ref (x : Z) oa inner : ∀ ib,
  short oa →
  row_step x (Z.of_nat (lcs_ref oa ib)) (Z.of_nat (lcs_ref (x :: oa) ib)) (ref_row oa ib inner) inner = ref_row (x :: oa) ib inner.
Proof.
  induction inner as [|y inner IH]; intros ib Hs; [done|]. cbn [ref_row row_step].
  replace (if (x =? y)%Z then u32_succ (Z.of_nat (lcs_ref oa ib)) else Z.max (Z.of_nat (lcs_ref oa (y :: ib))) (Z.of_nat (lcs_ref (x :: oa) ib)))
    with (Z.of_nat (lcs_ref (x :: oa) (y :: ib))).
  { cbn zeta. by rewrite IH. }
  rewrite lcs_ref_cons. destruct (x =? y)%Z; [by rewrite u32_succ_ref|lia].
Qed.

Lemma rows_ref outer inner : ∀ oa,
  (Z.of_nat (length outer + length oa) < 2 ^ 31)%Z →
  foldl (λ row outer_byte, row_step outer_byte 0 0 row inner) (ref_row oa [] inner) outer = ref_row (reverse outer ++ oa) [] inner.
Proof.
  induction outer as [|x outer IH]; intros oa Hs; [done|]. simpl.
  pose proof (row_step_ref x oa inner [] ltac:(unfold short; simpl in *; lia)) as Hr. rewrite !lcs_ref_nil in Hr. change (Z.of_nat 0) with 0%Z in Hr. rewrite Hr.
  rewrite IH by (simpl in *; lia). by rewrite reverse_cons, <- app_assoc.
Qed.

Lemma ref_row_last oa inner : ∀ ib,
  inner ≠ [] → ref_row oa ib inner !! (length inner - 1) = Some (Z.of_nat (lcs_ref oa (reverse inner ++ ib))).
Proof.
  induction inner as [|y inner IH]; intros ib Hn; [done|]. simpl. rewrite Nat.sub_0_r. destruct inner as [|z inner]; [done|].
  specialize (IH (y :: ib) ltac:(done)). simpl in IH. rewrite Nat.sub_0_r in IH. rewrite reverse_cons, <- app_assoc. exact IH.
Qed.

Lemma ref_row_nil ib inner : ref_row [] ib inner = replicate (length inner) 0%Z.
Proof. revert ib. induction inner as [|y inner IH]; intros ib; [done|]. simpl. by rewrite IH. Qed.

Lemma lcs_length_with_row_ref outer inner :
  short outer → inner ≠ [] →
  lcs_length_with_row outer inner (replicate (length inner) 0%Z) = Some (Z.of_nat (lcs_ref (reverse outer) (reverse inner))).
Proof.
  intros Hs Hn. unfold lcs_length_with_row. rewrite <- (ref_row_nil []), rows_ref by (simpl; unfold short in Hs; lia).
  rewrite ref_row_last by done. by rewrite !app_nil_r.
Qed.

(** ** The whole table *)
Section table.
Context (a b : Bytes) (Ha : short a).
Abbreviation cols := (length b + 1).

(** The length for two prefixes. *)
Definition prefix_lcs i j : Z := Z.of_nat (lcs_ref (reverse (take i a)) (reverse (take j b))).

Lemma prefix_lcs_0_l j : prefix_lcs 0 j = 0%Z.
Proof. done. Qed.

Lemma prefix_lcs_0_r i : prefix_lcs i 0 = 0%Z.
Proof. unfold prefix_lcs. simpl. by rewrite lcs_ref_nil. Qed.

Lemma prefix_lcs_step i j (x y : Z) :
  1 ≤ i → 1 ≤ j → a !! (i - 1) = Some x → b !! (j - 1) = Some y →
  prefix_lcs i j = if (x =? y)%Z then u32_succ (prefix_lcs (i - 1) (j - 1))
                   else Z.max (prefix_lcs (i - 1) j) (prefix_lcs i (j - 1)).
Proof.
  intros Hi Hj Hx Hy. destruct i as [|i]; [lia|]. destruct j as [|j]; [lia|].
  replace (Datatypes.S i - 1) with i in * by lia. replace (Datatypes.S j - 1) with j in * by lia. unfold prefix_lcs.
  rewrite (take_S_r a i x), (take_S_r b j y), !reverse_snoc, lcs_ref_cons by done.
  destruct (x =? y)%Z; [rewrite u32_succ_ref; [done|]|lia]. unfold short in *. rewrite length_reverse, length_take. lia.
Qed.

(** The table holds the lengths of all prefixes the loops have passed. *)
Definition passed i j i' j' : Prop := i' < i ∨ (i' = i ∧ j' ≤ j) ∨ j' = 0.

Definition table_ok dp i j : Prop :=
  length dp = (length a + 1) * cols ∧
  ∀ i' j', i' ≤ length a → j' ≤ length b → passed i j i' j' → dp !! cell cols i' j' = Some (prefix_lcs i' j').

Lemma cell_lt i j : i ≤ length a → j ≤ length b → cell cols i j < (length a + 1) * cols.
Proof. unfold cell. nia. Qed.

Lemma cell_inj i j i' j' : j ≤ length b → j' ≤ length b → cell cols i j = cell cols i' j' → i = i' ∧ j = j'.
Proof. unfold cell. intros Hj Hj' E. assert (i = i') as <- by nia. lia. Qed.

Lemma fill_cell_ok dp i j :
  table_ok dp i (j - 1) → 1 ≤ i ≤ length a → 1 ≤ j ≤ length b →
  ∃ dp', fill_cell a b cols i dp j = Some dp' ∧ table_ok dp' i j.
Proof.
  intros [Hl Ht] Hi Hj. destruct (lookup_lt_is_Some_2 a (i - 1)) as [x Hx]; [lia|]. destruct (lookup_lt_is_Some_2 b (j - 1)) as [y Hy]; [lia|].
  exists (<[cell cols i j := prefix_lcs i j]> dp). split.
  - unfold fill_cell. rewrite Hx, Hy. simpl. rewrite (prefix_lcs_step i j x y) by (done || lia).
    pose proof (cell_lt i j ltac:(lia) ltac:(lia)) as Hc. rewrite <- Hl in Hc. apply Nat.ltb_lt in Hc.
    destruct (x =? y)%Z; rewrite !Ht by (unfold passed; lia); simpl; by rewrite Hc.
  - split; [by rewrite length_insert|]. intros i' j' Hi' Hj' Hp. destruct (decide (i' = i ∧ j' = j)) as [[-> ->]|Hn].
    + rewrite list_lookup_insert_eq; [done|]. rewrite Hl. apply cell_lt; lia.
    + rewrite list_lookup_insert_ne; [apply Ht; [done|done|unfold passed in *; lia]|]. intros E. apply Hn.
      apply cell_inj in E; [|lia|lia]. lia.
Qed.

Lemma fill_row_ok dp i :
  table_ok dp (i - 1) (length b) → 1 ≤ i ≤ length a →
  ∃ dp', fill_row a b cols dp i = Some dp' ∧ table_ok dp' i (length b).
Proof.
  intros Ht Hi. unfold fill_row.
  assert (∀ n, n ≤ length b → ∃ dp', foldl (λ acc j, dp ← acc; fill_cell a b cols i dp j) (Some dp) (seq 1 n) = Some dp' ∧
    table_ok dp' i n) as Hn; [|by apply Hn].
  induction n as [|n IH]; intros Hn.
  - exists dp. split; [done|]. destruct Ht as [Hl Ht]. split; [done|]. intros i' j' Hi' Hj' Hp. apply Ht; [done|done|].
    unfold passed in *. lia.
  - destruct IH as (dp1 & E & H1); [lia|]. rewrite seq_S, foldl_app, E. simpl. apply fill_cell_ok; [|done|lia].
    by replace (Datatypes.S n - 1) with n by lia.
Qed.

Lemma lcs_table_ok : ∃ dp, lcs_table a b = Some dp ∧ table_ok dp (length a) (length b).
Proof.
  unfold lcs_table. cbv zeta. set (dp0 := replicate _ _).
  assert (∀ n, n ≤ length a → ∃ dp', foldl (λ acc i, dp ← acc; fill_row a b cols dp i) (Some dp0) (seq 1 n) = Some dp' ∧
    table_ok dp' n (length b)) as Hn; [|by apply Hn].
  induction n as [|n IH]; intros Hn.
  - exists dp0. split; [done|]. split; [apply length_replicate|]. intros i' j' Hi' Hj' Hp.
    unfold dp0. rewrite lookup_replicate_2 by by apply cell_lt. unfold passed in Hp.
    destruct Hp as [|[[-> _]| ->]]; [lia|done|by rewrite prefix_lcs_0_r].
  - destruct IH as (dp1 & E & H1); [lia|]. rewrite seq_S, foldl_app, E. simpl. apply fill_row_ok; [|lia].
    by replace (Datatypes.S n - 1) with n by lia.
Qed.

(** ** The walk back *)

(** A range names equal stretches of the two strings. *)
Record range_ok (m : LcsMatch) : Prop := {
  range_len : 1 ≤ match_len m;
  range_a : a_end m + 1 = a_start m + match_len m;
  range_b : b_end m + 1 = b_start m + match_len m;
  range_bytes : ∀ t, t < match_len m → is_Some (a !! (a_start m + t)) ∧ a !! (a_start m + t) = b !! (b_start m + t);
}.

Definition with_range (matches : list LcsMatch) (range : option LcsMatch) : list LcsMatch :=
  matches ++ match range with Some r => [r] | None => [] end.

Definition match_total (matches : list LcsMatch) : nat := sum_list_with match_len matches.

Lemma extend_range_ok matches range i j (x : Z) :
  Forall range_ok (with_range matches range) → a !! i = Some x → b !! j = Some x →
  let '(matches', r) := extend_range range matches i j in
  Forall range_ok (with_range matches' (Some r)) ∧
  match_total (with_range matches' (Some r)) = match_total (with_range matches range) + 1.
Proof.
  intros Hf Hx Hy. unfold with_range, match_total in *.
  assert (range_ok (mkLcsMatch i i j j 1)) as Hnew.
  { split; simpl; [lia..|]. intros t Ht. replace t with 0 by lia. rewrite !Nat.add_0_r, Hx, Hy. eauto. }
  destruct range as [r|]; simpl; [|split; [apply Forall_app; split; [rewrite app_nil_r in Hf; done|by constructor]|
    rewrite !sum_list_with_app; simpl; lia]].
  apply Forall_app in Hf as [Hm Hr]. apply Forall_cons in Hr as [Hr _].
  destruct (Nat.eqb_spec (a_start r) (i + 1)) as [Ea|]; [destruct (Nat.eqb_spec (b_start r) (j + 1)) as [Eb|]|]; simpl;
    try (split; [apply Forall_app; split; [apply Forall_app; split; [done|by constructor]|by constructor]|
                 rewrite !sum_list_with_app; simpl; lia]).
  destruct Hr as [H1 H2 H3 H4]. split; [apply Forall_app; split; [done|]|rewrite !sum_list_with_app; simpl; lia].
  constructor; [|done]. split; simpl; [lia..|]. intros t Ht. destruct t as [|t]; [rewrite !Nat.add_0_r, Hx, Hy; eauto|].
  specialize (H4 t ltac:(lia)). rewrite Ea, Eb in H4. by replace (i + Datatypes.S t) with (i + 1 + t) by lia; replace (j + Datatypes.S t) with (j + 1 + t) by lia.
Qed.

(** What the walk adds from the cell [i], [j] on. *)
Definition walked i j (ext : Bytes) : Prop :=
  ext `sublist_of` reverse (take i a) ∧ ext `sublist_of` reverse (take j b) ∧ Z.of_nat (length ext) = prefix_lcs i j.

Lemma walked_end i j : i = 0 ∨ j = 0 → walked i j [].
Proof.
  intros Hz. split; [apply sublist_nil_l|]. split; [apply sublist_nil_l|]. destruct Hz as [->| ->]; [done|by rewrite prefix_lcs_0_r].
Qed.

Lemma walked_match i j (x : Z) ext :
  1 ≤ i → 1 ≤ j → a !! (i - 1) = Some x → b !! (j - 1) = Some x → walked (i - 1) (j - 1) ext → walked i j (x :: ext).
Proof.
  intros Hi Hj Hx Hy (H1 & H2 & H3). pose proof (prefix_lcs_step i j x x Hi Hj Hx Hy) as Hs. rewrite Z.eqb_refl in Hs.
  assert (u32_succ (prefix_lcs (i - 1) (j - 1)) = (prefix_lcs (i - 1) (j - 1) + 1)%Z) as Hu.
  { unfold prefix_lcs. rewrite u32_succ_ref; [lia|]. unfold short in *. rewrite length_reverse, length_take. lia. }
  destruct i as [|i]; [lia|]. destruct j as [|j]; [lia|].
  replace (Datatypes.S i - 1) with i in * by lia. replace (Datatypes.S j - 1) with j in * by lia.
  split; [|split; [|simpl; lia]]; [rewrite (take_S_r a i x) by done|rewrite (take_S_r b j x) by done]; rewrite reverse_snoc; by apply sublist_skip.
Qed.

Lemma sublist_take_less (c ext : Bytes) i : ext `sublist_of` reverse (take (i - 1) c) → ext `sublist_of` reverse (take i c).
Proof.
  intros Hs. etrans; [done|]. apply sublist_reverse. replace (take (i - 1) c) with (take (i - 1) (take i c)) by (rewrite take_take; f_equal; lia).
  apply sublist_take.
Qed.

Lemma walk_ok dp fuel : ∀ i j sequence matches range,
  table_ok dp (length a) (length b) → i ≤ length a → j ≤ length b → i + j ≤ fuel → Forall range_ok (with_range matches range) →
  ∃ ext matches', walk fuel a b dp cols i j sequence matches range = Some (reverse (sequence ++ ext), matches') ∧
    walked i j ext ∧ Forall range_ok matches' ∧ match_total matches' = match_total (with_range matches range) + length ext.
Proof.
  induction fuel as [|fuel IH]; intros i j sequence matches range [Hl Ht] Hi Hj Hf Hr; unfold walk; fold walk.
  { exists [], (with_range matches range). replace i with 0 by lia. simpl. rewrite app_nil_r.
    split; [done|]. split; [by apply walked_end; left|]. split; [done|]. lia. }
  destruct (Nat.eqb_spec i 0) as [->|Hi0]; simpl.
  { exists [], (with_range matches range). rewrite app_nil_r. split; [done|]. split; [by apply walked_end; left|]. split; [done|]. simpl. lia. }
  destruct (Nat.eqb_spec j 0) as [->|Hj0].
  { exists [], (with_range matches range). rewrite app_nil_r. split; [done|]. split; [by apply walked_end; right|]. split; [done|]. simpl. lia. }
  destruct (lookup_lt_is_Some_2 a (i - 1)) as [x Hx]; [lia|]. destruct (lookup_lt_is_Some_2 b (j - 1)) as [y Hy]; [lia|].
  rewrite Hx, Hy. simpl. pose proof (prefix_lcs_step i j x y ltac:(lia) ltac:(lia) Hx Hy) as Hs. destruct (Z.eqb_spec x y) as [<-|Hn].
  - pose proof (extend_range_ok matches range (i - 1) (j - 1) x Hr Hx Hy) as He.
    destruct (extend_range range matches (i - 1) (j - 1)) as [matches1 r]. destruct He as [He1 He2].
    destruct (IH (i - 1) (j - 1) (sequence ++ [x]) matches1 (Some r)) as (ext & m' & E & Hw & Hm & Htot); [by split|lia..|done|].
    exists (x :: ext), m'. rewrite E, <- app_assoc. split; [done|]. split; [by apply walked_match; [lia|lia|..]|]. split; [done|]. simpl. lia.
  - rewrite !Ht by (unfold passed; lia). simpl. destruct (Z.leb_spec (prefix_lcs i (j - 1)) (prefix_lcs (i - 1) j)) as [Hle|Hlt].
    + destruct (IH (i - 1) j sequence matches range) as (ext & m' & E & (H1 & H2 & H3) & Hm & Htot); [by split|lia..|done|].
      exists ext, m'. rewrite E. split; [done|]. split; [|done]. split; [by apply sublist_take_less|]. split; [done|]. lia.
    + destruct (IH i (j - 1) sequence matches range) as (ext & m' & E & (H1 & H2 & H3) & Hm & Htot); [by split|lia..|done|].
      exists ext, m'. rewrite E. split; [done|]. split; [|done]. split; [done|]. split; [by apply sublist_take_less|]. lia.
Qed.

Lemma longest_common_subsequence_ok :
  ∃ sequence matches, longest_common_subsequence a b = Some (sequence, matches, Z.of_nat (lcs_ref (reverse a) (reverse b))) ∧
    sequence `sublist_of` a ∧ sequence `sublist_of` b ∧ length sequence = lcs_ref (reverse a) (reverse b) ∧
    Forall range_ok matches ∧ match_total matches = length sequence.
Proof.
  destruct lcs_table_ok as (dp & E & Ht). unfold longest_common_subsequence. rewrite E. simpl.
  rewrite (proj2 Ht) by (unfold passed; lia). simpl.
  destruct (walk_ok dp (length a + length b) (length a) (length b) [] [] None Ht) as (ext & m & Ew & (H1 & H2 & H3) & Hm & Htot); [lia..|by constructor|].
  rewrite Ew. simpl. unfold prefix_lcs in *. rewrite !firstn_all in *. exists (reverse ext), m.
  split; [done|]. apply sublist_reverse in H1, H2. rewrite !reverse_involutive in *. split; [done|]. split; [done|].
  rewrite length_reverse. split; [lia|]. split; [done|]. rewrite Htot. done.
Qed.
End table.

(** The order of the two strings does not matter. *)
Lemma lcs_ref_swap a b : short a → short b → lcs_ref (reverse a) (reverse b) = lcs_ref (reverse b) (reverse a).
Proof.
  intros Ha Hb. destruct (longest_common_subsequence_ok a b Ha) as (s & _ & _ & H1 & H2 & H3 & _).
  destruct (longest_common_subsequence_ok b a Hb) as (s' & _ & _ & H1' & H2' & H3' & _).
  apply sublist_reverse in H1, H2, H1', H2'. pose proof (lcs_ref_bound _ _ _ H2 H1). pose proof (lcs_ref_bound _ _ _ H2' H1').
  rewrite length_reverse in *. lia.
Qed.

Lemma lcs_length_ref a b : short a → short b → lcs_length a b = Some (Z.of_nat (lcs_ref (reverse a) (reverse b))).
Proof.
  intros Ha Hb. unfold lcs_length. destruct (Nat.leb_spec (length b) (length a)); case_bool_decide as E.
  - subst. by rewrite lcs_ref_nil.
  - by apply lcs_length_with_row_ref.
  - by subst.
  - rewrite lcs_length_with_row_ref by done. by rewrite (lcs_ref_swap a b).
Qed.
