(* ===== verification/StringCommands.v ===== *)
(** * The string commands of the embedded store

    [redis_compat/commands/string]: every command's [execute], on top of
    [EmbeddedStore].  A command takes its arguments as byte strings and answers
    a frame; a slice or a capacity out of range panics. *)

From S2P Require Import Prelude Deps Slab ListObject Helpers F64 Codec Types HashSet ZSet Bucket.
From S2P Require Import BucketCore BucketKeys Store Routing Resp FastKinds StringBits FlatMap SessionSlots EmbeddedShard EmbeddedStore Lcs.

Inductive BitCountSpec := CountFull | CountRange (start stop : Z) (unit_ : BitRangeUnit).

Record BitPosSpec := mkBitPos { pos_bit : bool; pos_start : option Z; pos_stop : option Z; pos_unit : BitRangeUnit }.

(** ** Parsers of arguments *)
Implicit Types (key value : Bytes) (args : list Bytes).

(** [args.as_chunks::<2>().0]. *)
Fixpoint chunks2 args : list (Bytes * Bytes) :=
  match args with x :: y :: args => (x, y) :: chunks2 args | _ => [] end.

Definition even_args args : bool := negb (bool_decide (args = [])) && Nat.even (length args).

Definition optional_i64 (raw : option Bytes) : Reply (option Z) :=
  match raw with Some raw => (n ← or_reply (redis_parse_i64 raw) integer_error; inr (Some n)) | None => inr None end.

Definition parse_bitcount_range key (start stop : Bytes) (unit_ : BitRangeUnit) : Reply (Bytes * BitCountSpec) :=
  match redis_parse_i64 start, redis_parse_i64 stop with
  | Some start, Some stop => inr (key, CountRange start stop unit_)
  | _, _ => inl integer_error
  end.

Definition parse_bitcount_args args : Reply (Bytes * BitCountSpec) :=
  match args with
  | [key] => inr (key, CountFull)
  | [key; start; stop] => parse_bitcount_range key start stop UnitByte
  | [key; start; stop; unit_] =>
      match unit_parse unit_ with Some unit_ => parse_bitcount_range key start stop unit_ | None => inl syntax_error end
  | _ => inl (wrong_arity "BITCOUNT")
  end.

Definition parse_bitpos_args args : Reply (Bytes * BitPosSpec) :=
  let finish key (bit : Bytes) (start stop : option Bytes) (unit_ : BitRangeUnit) :=
    match parse_bit_value bit with
    | None => inl (error "ERR bit is not an integer or out of range")
    | Some bit => start ← optional_i64 start; stop ← optional_i64 stop; inr (key, mkBitPos bit start stop unit_)
    end in
  match args with
  | [key; bit] => finish key bit None None UnitByte
  | [key; bit; start] => finish key bit (Some start) None UnitByte
  | [key; bit; start; stop] => finish key bit (Some start) (Some stop) UnitByte
  | [key; bit; start; stop; unit_] =>
      match unit_parse unit_ with Some unit_ => finish key bit (Some start) (Some stop) unit_ | None => inl syntax_error end
  | _ => inl (wrong_arity "BITPOS")
  end.

Record LcsOptions := mkLcsOptions { want_len : bool; want_idx : bool; with_match_len : bool; min_match_len : Z }.

Fixpoint parse_lcs_options (o : LcsOptions) args : Reply LcsOptions :=
  match args with
  | [] => inr o
  | x :: args =>
      if eq_ignore_ascii_case x (text "LEN") then parse_lcs_options (mkLcsOptions true (want_idx o) (with_match_len o) (min_match_len o)) args
      else if eq_ignore_ascii_case x (text "IDX") then parse_lcs_options (mkLcsOptions (want_len o) true (with_match_len o) (min_match_len o)) args
      else if eq_ignore_ascii_case x (text "WITHMATCHLEN") then
        parse_lcs_options (mkLcsOptions (want_len o) (want_idx o) true (min_match_len o)) args
      else if eq_ignore_ascii_case x (text "MINMATCHLEN") then
        match args with
        | [] => inl syntax_error
        | raw :: args =>
            match redis_parse_i64 raw with
            | Some n => parse_lcs_options (mkLcsOptions (want_len o) (want_idx o) (with_match_len o) (Z.max n 0)) args
            | None => inl integer_error
            end
        end
      else inl syntax_error
  end.

Section commands.
Context `{Hashing} {HT : Type → Type} `{!HashTable HT} `{TableOrder} `{FloatOps}.
Context {OT : Type} `{!IndexTreeSet ZSetOrderKey zk_cmp OT}.
Context (clock : nat → Z) (unique : nat → bool) (accepts : Bytes → Z → option Z → bool).
Abbreviation ES := (ES (HT := HT) (OT := OT)).

Definition int (n : Z) : Frame := Resp.Integer n.
Definition bulk value : Frame := BlobString value.
Definition overflow_read_failed : Frame := error "ERR object overflow read failed".
Definition float_error : Frame := error "ERR value is not a valid float".

Definition answer {A} (frame : A → Frame) (r : Reply A) : Frame := match r with inl e => e | inr a => frame a end.

(** ** commands/redis/frame.rs, parse.rs *)
Definition optional_string_value key (wrongtype_errors : bool) : ES (Reply (option Bytes)) :=
  '(lookup, value) ← get_string_value_into clock key;
  mret (match lookup with
        | LookupHit => inr value
        | LookupMiss => inr None
        | LookupWrongType => if wrongtype_errors then inl wrongtype else inr None
        | LookupBackendError => inl overflow_read_failed
        end).

Definition string_value key : ES (Reply Bytes) := r ← optional_string_value key true; mret (v ← r; inr (default [] v)).

Definition redis_parse_f64 (raw : Bytes) : option f64 := if utf8_valid raw then parse_f64_bytes raw else None.

(** What a read of a value gives, [missing] without one. *)
Definition read_with {A} key (missing : A) (read : Bytes → A) : ES (() + A) :=
  '(lookup, value) ← get_string_value_into clock key;
  mret (match lookup with
        | LookupHit => inr (from_option read missing value)
        | LookupMiss => inr missing
        | LookupWrongType | LookupBackendError => inl tt
        end).

Definition int_or_wrongtype (r : () + Z) : Frame := match r with inr n => int n | inl _ => wrongtype end.

(** ** shared.rs *)
Definition append_value key (suffix : Bytes) : ES (Reply Z) :=
  transform_string_value_no_ttl clock accepts key (λ existing,
    let value := default [] existing ++ suffix in Some (inr (wrap_i64 (blen value), value))).

Definition strlen_value key : ES (() + Z) := read_with key 0%Z (λ value, wrap_i64 (blen value)).

(** What INCR and its kin do to the value. *)
Definition integer_update (apply : Z → option Z) (existing : option Bytes) : Frame + (Z * Bytes) :=
  let current := match existing with None | Some [] => Some 0%Z | Some value => redis_parse_i64 value end in
  match current with
  | None => inl integer_error
  | Some current =>
      match apply current with
      | None => inl (error "ERR increment or decrement would overflow")
      | Some next => inr (next, i64_to_string next)
      end
  end.

Definition integer_transform_value key (apply : Z → option Z) : ES (Reply Z) :=
  transform_string_value_no_ttl clock accepts key (λ existing, Some (integer_update apply existing)).

Definition i64_checked_sub (x y : Z) : option Z := let r := (x - y)%Z in if ((i64_MIN <=? r) && (r <=? i64_MAX))%Z then Some r else None.
Definition incrby_value key (delta : Z) : ES (Reply Z) := integer_transform_value key (λ current, i64_checked_add current delta).
Definition decrby_value key (decrement : Z) : ES (Reply Z) :=
  integer_transform_value key (λ current, i64_checked_sub current decrement).

(** ** One file per command *)
Definition append_execute args : ES Frame :=
  match args with
  | [key; suffix] => r ← append_value key suffix; mret (answer int r)
  | _ => mret (wrong_arity "APPEND")
  end.

Definition strlen_execute args : ES Frame :=
  match args with
  | [key] => r ← strlen_value key; mret (int_or_wrongtype r)
  | _ => mret (wrong_arity "STRLEN")
  end.

Definition incr_execute args : ES Frame :=
  match args with
  | [key] => r ← incrby_value key 1; mret (answer int r)
  | _ => mret (wrong_arity "INCR")
  end.

Definition decr_execute args : ES Frame :=
  match args with
  | [key] => r ← decrby_value key 1; mret (answer int r)
  | _ => mret (wrong_arity "DECR")
  end.

Definition incrby_execute args : ES Frame :=
  match args with
  | [key; delta] =>
      match redis_parse_i64 delta with
      | Some delta => r ← incrby_value key delta; mret (answer int r)
      | None => mret integer_error
      end
  | _ => mret (wrong_arity "INCRBY")
  end.

Definition decrby_execute args : ES Frame :=
  match args with
  | [key; delta] =>
      match redis_parse_i64 delta with
      | Some delta => r ← decrby_value key delta; mret (answer int r)
      | None => mret integer_error
      end
  | _ => mret (wrong_arity "DECRBY")
  end.

Definition incrbyfloat_execute args : ES Frame :=
  match args with
  | [key; delta] =>
      match redis_parse_f64 delta with
      | None => mret float_error
      | Some delta =>
          r ← string_value key;
          match r with
          | inl frame => mret frame
          | inr value =>
              match (if bool_decide (value = []) then Some 0%Z else redis_parse_f64 value) with
              | None => mret float_error
              | Some current =>
                  let next := f64_add current delta in
                  if negb (f64_is_finite next) then mret (error "ERR increment would produce NaN or Infinity")
                  else set clock accepts key (f64_to_string next) None;; mret (bulk (f64_to_string next))
              end
          end
      end
  | _ => mret (wrong_arity "INCRBYFLOAT")
  end.

(** [value[start..=stop]]. *)
Definition slice_inclusive value (start stop : nat) : option Bytes :=
  if (start <=? stop + 1) && (stop <? length value) then Some (take (stop + 1 - start) (drop start value)) else None.

Definition getrange_execute args : ES Frame :=
  match args with
  | [key; start; stop] =>
      match redis_parse_i64 start with
      | None => mret integer_error
      | Some start =>
          match redis_parse_i64 stop with
          | None => mret integer_error
          | Some stop =>
              r ← string_value key;
              match r with
              | inl frame => mret frame
              | inr value =>
                  match normalize_redis_range (length value) start stop with
                  | Some range => v ← lift (slice_inclusive value (range_start range) (range_stop range)); mret (bulk v)
                  | None => mret (bulk [])
                  end
              end
          end
      end
  | _ => mret (wrong_arity "GETRANGE")
  end.

(** [value.resize] panics above [isize::MAX]; [offset + len] does not overflow
    below it. *)
Definition replace_range value (offset : Z) (replacement : Bytes) : option Bytes :=
  let required := u64_saturating_add offset (blen replacement) in
  value ← (if (blen value <? required)%Z then
             if (i64_MAX <? required)%Z then None else Some (resize_bytes required value)
           else Some value);
  let stop := (offset + blen replacement)%Z in
  if (stop <=? blen value)%Z
  then Some (take (Z.to_nat offset) value ++ replacement ++ drop (Z.to_nat stop) value) else None.

Definition setrange_execute args : ES Frame :=
  match args with
  | [key; offset; replacement] =>
      match redis_parse_usize offset with
      | None => mret (error "ERR offset is not an integer or out of range")
      | Some offset =>
          r ← string_value key;
          match r with
          | inl frame => mret frame
          | inr value =>
              value ← lift (replace_range value offset replacement);
              set clock accepts key value None;; mret (int (wrap_i64 (blen value)))
          end
      end
  | _ => mret (wrong_arity "SETRANGE")
  end.

Definition getset_execute args : ES Frame :=
  match args with
  | [key; value] =>
      r ← optional_string_value key true;
      match r with
      | inl frame => mret frame
      | inr old => set clock accepts key value None;; mret (from_option bulk Null old)
      end
  | _ => mret (wrong_arity "GETSET")
  end.

Definition getdel_execute args : ES Frame :=
  match args with
  | [key] =>
      r ← optional_string_value key true;
      match r with
      | inl frame => mret frame
      | inr old =>
          (if old is Some _ then _ ← delete_key clock accepts key; mret tt else mret tt);;
          mret (from_option bulk Null old)
      end
  | _ => mret (wrong_arity "GETDEL")
  end.

Definition setnx_value key value : ES Z :=
  found ← key_exists clock key;
  if found : bool then mret 0%Z else set clock accepts key value None;; mret 1%Z.

Definition setnx_execute args : ES Frame :=
  match args with
  | [key; value] => n ← setnx_value key value; mret (int n)
  | _ => mret (wrong_arity "SETNX")
  end.

Definition mget_execute args : ES Frame :=
  if bool_decide (args = []) then mret (wrong_arity "MGET")
  else
    frames ← mapM (λ key, r ← optional_string_value key false;
                          mret (match r with inr (Some value) => bulk value | _ => Null end)) args;
    mret (Resp.Array frames).

Definition set_pairs (pairs : list (Bytes * Bytes)) : ES unit :=
  _ ← mapM (λ pair : Bytes * Bytes, set clock accepts pair.1 pair.2 None) pairs; mret tt.

Definition mset_execute args : ES Frame :=
  if negb (even_args args) then mret (wrong_arity "MSET")
  else if existsb (λ pair : Bytes * Bytes, negb (accepts pair.1 (blen pair.2) None)) (chunks2 args) then mret mutation_rejected
  else set_pairs (chunks2 args);; mret (SimpleString (text "OK")).

(** [any] stops at the first key that exists. *)
Fixpoint any_exists (keys : list Bytes) : ES bool :=
  match keys with
  | [] => mret false
  | key :: keys => found ← key_exists clock key; if found : bool then mret true else any_exists keys
  end.

Definition msetnx_execute args : ES Frame :=
  if negb (even_args args) then mret (wrong_arity "MSETNX")
  else
    taken ← any_exists (chunks2 args).*1;
    if taken : bool then mret (int 0) else set_pairs (chunks2 args);; mret (int 1).

(** ** Bits *)
Definition getbit_value key (offset : Z) : ES (() + Z) := read_with key 0%Z (λ value, Z.b2z (read_bit value offset)).

Definition getbit_execute args : ES Frame :=
  match args with
  | [key; offset] =>
      match parse_bit_offset offset with
      | None => mret bit_offset_error
      | Some offset => r ← getbit_value key offset; mret (int_or_wrongtype r)
      end
  | _ => mret (wrong_arity "GETBIT")
  end.

(** First in place, when the byte is there, then by a new value. *)
Definition setbit_value key (offset bit : Bytes) : ES (Reply Z) :=
  match parse_bit_offset offset with
  | None => mret (inl bit_offset_error)
  | Some offset =>
      match parse_bit_value bit with
      | None => mret (inl (error "ERR bit is not an integer or out of range"))
      | Some bit =>
          let byte_index := (offset / 8)%Z in
          '(lookup, previous) ← mutate_string_value_no_ttl_in_place clock unique key (λ value,
            if (byte_index <? blen value)%Z then
              let old := read_bit value offset in
              value ← write_bit value offset bit; Some (Some (Z.b2z old), value)
            else Some (None, value));
          match lookup, previous with
          | LookupHit, Some (Some previous) => mret (inr previous)
          | LookupWrongType, _ => mret (inl wrongtype)
          | LookupBackendError, _ => mret (inl overflow_read_failed)
          | _, _ =>
              transform_string_value_no_ttl clock accepts key (λ existing,
                let value := default [] existing in
                let value := if (blen value <=? byte_index)%Z then resize_bytes (byte_index + 1) value else value in
                let previous := read_bit value offset in
                value ← write_bit value offset bit; Some (inr (Z.b2z previous, value)))
          end
      end
  end.

Definition setbit_execute args : ES Frame :=
  match args with
  | [key; offset; bit] => r ← setbit_value key offset bit; mret (answer int r)
  | _ => mret (wrong_arity "SETBIT")
  end.

Definition bitcount_value key (spec : BitCountSpec) : ES (() + Z) :=
  read_with key 0%Z (λ value, match spec with
                              | CountFull => wrap_i64 (count_bits value)
                              | CountRange start stop unit_ => wrap_i64 (count_bits_in_range value start stop unit_)
                              end).

Definition bitcount_execute args : ES Frame :=
  match parse_bitcount_args args with
  | inl frame => mret frame
  | inr (key, spec) => r ← bitcount_value key spec; mret (int_or_wrongtype r)
  end.

Definition bitpos_value key (spec : BitPosSpec) : ES (() + Z) :=
  read_with key (if pos_bit spec then -1 else 0)%Z (λ value,
    find_bit_position value (pos_bit spec) (pos_start spec) (pos_stop spec) (pos_unit spec)).

Definition bitpos_execute args : ES Frame :=
  match parse_bitpos_args args with
  | inl frame => mret frame
  | inr (key, spec) => r ← bitpos_value key spec; mret (int_or_wrongtype r)
  end.

(** The sources, up to the first that is no string. *)
Fixpoint bitop_sources (sources : list Bytes) : ES (Reply (list Bytes)) :=
  match sources with
  | [] => mret (inr [])
  | source :: sources =>
      r ← optional_string_value source true;
      match r with
      | inl frame => mret (inl frame)
      | inr value => rest ← bitop_sources sources; mret (values ← rest; inr (default [] value :: values))
      end
  end.

Definition bitop_value args : ES (Reply Z) :=
  match args with
  | operation :: dest :: sources =>
      match bit_op_parse operation with
      | None => mret (inl syntax_error)
      | Some operation =>
          let is_not := if operation is OpNot then true else false in
          if bool_decide (sources = []) || (is_not && negb (length sources =? 1)) then mret (inl (wrong_arity "BITOP"))
          else
            r ← bitop_sources sources;
            match r with
            | inl frame => mret (inl frame)
            | inr values =>
                result ← lift (apply_bitop operation values);
                set clock accepts dest result None;; mret (inr (wrap_i64 (blen result)))
            end
      end
  | _ => mret (inl (wrong_arity "BITOP"))
  end.

Definition bitop_execute args : ES Frame := r ← bitop_value args; mret (answer int r).

Definition apply_read_ops key (ops : list BitFieldOp) : ES (Reply (list (option Z))) :=
  r ← optional_string_value key true;
  match r with
  | inl frame => mret (inl frame)
  | inr value => values ← lift (mapM (read_op (default [] value)) ops); mret (inr values)
  end.

Definition apply_write_ops key (ops : list BitFieldOp) : ES (Reply (list (option Z))) :=
  transform_string_value_no_ttl clock accepts key (λ existing,
    '(values, value) ← write_ops (default [] existing) ops; Some (inr (values, value))).

Definition bitfield_values args (read_only : bool) : ES (Reply (list (option Z))) :=
  let name := if read_only then "BITFIELD_RO"%string else "BITFIELD"%string in
  match args with
  | [] | [_] => mret (inl (wrong_arity name))
  | key :: tail =>
      match parse_ops tail with
      | inl frame => mret (inl frame)
      | inr ops =>
          let has_writes := existsb is_write ops in
          if read_only && has_writes then mret (inl (error "ERR BITFIELD_RO only supports the GET subcommand"))
          else if has_writes then apply_write_ops key ops
          else apply_read_ops key ops
      end
  end.

Definition bitfield_frame args (read_only : bool) : ES Frame :=
  r ← bitfield_values args read_only; mret (answer (λ values, Resp.Array (from_option int Null <$> values)) r).

(** ** LCS *)
Definition string_bytes_or_empty key : ES (Reply Bytes) :=
  '(lookup, value) ← get_string_value_into clock key;
  mret (match lookup with
        | LookupHit => inr (default [] value)
        | LookupMiss => inr []
        | LookupWrongType => inl wrongtype
        | LookupBackendError => inl overflow_read_failed
        end).

Definition match_frame (with_len : bool) (m : LcsMatch) : Frame :=
  let n (x : nat) := int (wrap_i64 (Z.of_nat x)) in
  Resp.Array ([Resp.Array [n (a_start m); n (a_end m)]; Resp.Array [n (b_start m); n (b_end m)]] ++
              if with_len then [n (match_len m)] else []).

Definition lcs_reply (o : LcsOptions) (a b : Bytes) : option Frame :=
  if want_len o then n ← lcs_length a b; Some (int n)
  else
    '(sequence, matches, total) ← longest_common_subsequence a b;
    Some (if want_idx o then
            Resp.Array [bulk (text "matches");
                        Resp.Array (match_frame (with_match_len o) <$> filter (λ m, (min_match_len o ≤ Z.of_nat (match_len m))%Z) matches);
                        bulk (text "len"); int total]
          else bulk sequence).

Definition execute_lcs args : ES Frame :=
  match args with
  | key_a :: key_b :: options =>
      match parse_lcs_options (mkLcsOptions false false false 0) options with
      | inl frame => mret frame
      | inr o =>
          if want_len o && want_idx o
          then mret (error "ERR If you want both the length and indexes, please just use IDX.")
          else
            a ← string_bytes_or_empty key_a;
            match a with
            | inl frame => mret frame
            | inr a =>
                b ← string_bytes_or_empty key_b;
                match b with inl frame => mret frame | inr b => lift (lcs_reply o a b) end
            end
      end
  | _ => mret (wrong_arity "LCS")
  end.

Definition stralgo_execute args : ES Frame :=
  match args with
  | [] => mret (wrong_arity "STRALGO")
  | algorithm :: rest =>
      if eq_ignore_ascii_case algorithm (text "LCS") then execute_lcs rest
      else mret (error "ERR unknown algorithm name. Try STRALGO LCS")
  end.
End commands.
