(* ===== verification/StringCommandsProofs.v ===== *)
(** * Counters in the embedded store

    INCR, DECR, INCRBY and DECRBY through the whole store: routing, the type
    check, the read-modify-write of the shard, the text of a number. *)

From S2P Require Import Prelude Deps Slab ListObject Helpers F64 Codec Types HashSet ZSet Bucket.
From S2P Require Import BucketCore BucketKeys Store StoreOps Routing Resp FastKinds StringBits Snapshot Recovery SegmentProofs FlatMap FlatMapProofs FlatEviction FlatRefine FlatRun.
From S2P Require Import SessionSlots EmbeddedShard EmbeddedStore Engine EngineCommandProofs EmbeddedStoreProofs EmbeddedStoreRun StringCommands.

(** ** The text of a number *)
Lemma i64_text_chars n b : b ∈ i64_to_string n → b = 45%Z ∨ is_ascii_digit b = true.
Proof.
  unfold i64_to_string. destruct (Z.ltb_spec n 0) as [Hn|Hn]; [rewrite elem_of_cons; intros [->|Hb]; [by left|]|intros Hb];
    right; apply digits_of_chars in Hb as [Hb|Hb]; try done; try lia; by apply elem_of_nil in Hb.
Qed.

Lemma i64_text_length n : length (i64_to_string n) ≤ 21.
Proof.
  unfold i64_to_string. pose proof (digits_of_length 20 n []) as H1. pose proof (digits_of_length 20 (- n) []) as H2.
  change (length []) with 0 in *. destruct (n <? 0)%Z; rewrite ?length_cons; lia.
Qed.

Lemma redis_parse_text n : is_i64 n → redis_parse_i64 (i64_to_string n) = Some n.
Proof.
  intros Hn. unfold redis_parse_i64. rewrite <- (app_nil_r (i64_to_string n)) at 1. rewrite utf8_valid_ascii; [by apply parse_i64_to_string|].
  apply Forall_forall. intros b Hb. apply i64_text_chars in Hb as [->|Hb]; [done|].
  unfold is_ascii_digit, in_range in *. apply andb_true_iff in Hb as [?%Z.leb_le ?%Z.leb_le]. apply andb_true_iff. rewrite !Z.leb_le. lia.
Qed.

Lemma i64_text_plain n : is_vector_value (i64_to_string n) = false.
Proof.
  destruct (i64_to_string n) as [|b bs] eqn:E; [done|]. pose proof (i64_text_chars n b) as Hb. rewrite E in Hb.
  specialize (Hb ltac:(by left)). unfold is_vector_value, bytes_eqb. apply bool_decide_eq_false. intros [= -> _].
  destruct Hb as [Hb|Hb]; done.
Qed.

Section counters.
Context `{Hashing} {HT : Type → Type} `{!HashTable HT} `{TableOrder} `{FloatOps}.
Context {OT : Type} `{!IndexTreeSet ZSetOrderKey zk_cmp OT}.
Context (clock : nat → Z) (accepts : Bytes → Z → option Z → bool).
Context (Hclock : ∀ n, (0 ≤ clock n)%Z) (Hmono : ∀ n, (clock n ≤ clock (S n))%Z).
Context (k : nat) (Hk : k < 57).
Abbreviation EmbeddedStore := (EmbeddedStore (HT := HT) (OT := OT)).
Implicit Types (st : EmbeddedStore) (key : Bytes) (now_ms B w : Z) (a : AState) (A : Objects) (S : Entries).

(** An update of another type, answered as a frame. *)
Definition relabel {R} (g : R → Frame) (x : Frame + (R * Bytes)) : Frame + (Frame * Bytes) :=
  match x with inl frame => inl frame | inr (r, value) => inr (g r, value) end.

Definition relabelled {R} (g : R → Frame) (r : Frame + R) : Frame + Frame := match r with inl frame => inl frame | inr r => inr (g r) end.

Lemma guarded_relabel {R} (g : R → Frame) key (f : option Bytes → Frame + (R * Bytes)) existing :
  guarded accepts key (λ e, Some (relabel g (f e))) existing = relabel g <$> guarded accepts key (λ e, Some (f e)) existing.
Proof.
  unfold guarded. destruct (from_option _ _ _); [done|]. destruct (f existing) as [|[r value]]; [done|]. simpl.
  by destruct (accepts key (blen value) None).
Qed.

Lemma weight_relabel {R} (g : R → Frame) key (x : option (Frame + (R * Bytes))) :
  transform_weight key (relabel g <$> x) = transform_weight key x.
Proof. by destruct x as [[|[]]|]. Qed.

Lemma update_linked {R} (g : R → Frame) key (f : option Bytes → Frame + (R * Bytes)) st S A B w a :
  let op := OpUpdate (λ e, relabel g (f e)) in
  command_fits clock accepts k key op st S A B w a →
  does (transform_string_value_no_ttl clock accepts key (λ e, Some (f e))) st (λ r st', ∃ now_ms S' a',
    between clock st st' now_ms ∧ key_spec accepts k key S a now_ms op (Updated (relabelled g r)) S' a' ∧
    linked clock k st' S' (put_obj k A key a') (B + w)).
Proof.
  intros op Hf. pose proof Hf as (Hsp & Ha & Hap & _ & Hw & Hr). simpl in Hw.
  eapply does_mono.
  { apply (does_transform clock accepts Hmono k Hk st S A B w key a f Hsp Ha Hap Hr). intros now_ms. specialize (Hw now_ms).
    by rewrite guarded_relabel, weight_relabel in Hw. }
  intros r st' (now_ms & Hn & Hx). exists now_ms.
  assert (∃ S' a', key_spec accepts k key S a now_ms op (Updated (relabelled g r)) S' a' ∧ goes k st S' (put_obj k A key a') (B + w) st') as Hks.
  { simpl. destruct (a_visible a now_ms key); destruct Hx as [Hx Hg].
    - exists S, (a_after_read a key now_ms). split; [|done]. subst r. done.
    - rewrite guarded_relabel. set (x := guarded accepts key (λ e, Some (f e)) (visible_at (S !! key) now_ms)) in *.
      exists (put key (transformed S key now_ms x) S), (a_after_read a key now_ms). split; [|done]. split; [done|].
      destruct x as [[frame|[r0 value]]|]; simpl in *; subst; [| |done]; (split; [eexists; split; [done|done]|done]). }
  destruct Hks as (S' & a' & Hks & Hg). exists S', a'. split; [done|]. split; [done|]. by eapply spec_linked.
Qed.

(** ** A counter *)

(** The key of a counter that shows [n]. *)
Definition counts st key (n B : Z) : Prop :=
  ∃ S A a, linked clock k st S A B ∧ obj k A key = Some a ∧ a_has a key = false ∧
    (S !! key = None ∧ n = 0%Z ∨ S !! key = Some (mkEntry key (i64_to_string n) None None)).

(** What a change by [apply] answers, and leaves. *)
Definition counted (apply : Z → option Z) (n : Z) : Reply Z * Z :=
  match apply n with
  | Some m => (inr m, m)
  | None => (inl (error "ERR increment or decrement would overflow"), n)
  end.

Definition counter_weight key : Z := (blen key + 22)%Z.

Lemma counter_update key (apply : Z → option Z) S (n now_ms : Z) :
  is_i64 n → (S !! key = None ∧ n = 0%Z ∨ S !! key = Some (mkEntry key (i64_to_string n) None None)) →
  (∀ value, accepts key (blen value) None = true) →
  guarded accepts key (λ e, Some (integer_update apply e)) (visible_at (S !! key) now_ms) =
    Some (match apply n with
          | Some m => inr (m, i64_to_string m)
          | None => inl (error "ERR increment or decrement would overflow")
          end).
Proof.
  intros Hi HS Hacc. destruct HS as [[-> ->]| ->]; unfold guarded; simpl.
  - unfold integer_update. simpl. destruct (apply 0%Z); [simpl; by rewrite Hacc|done].
  - unfold visible_at, s_visible, s_protected, s_expired. simpl. rewrite i64_text_plain. unfold integer_update.
    pose proof (redis_parse_text n Hi) as Hp. destruct (i64_to_string n) as [|b bs]; [done|].
    simpl. rewrite Hp. destruct (apply n); [simpl; by rewrite Hacc|done].
Qed.

Lemma counter_step key (apply : Z → option Z) st (n B : Z) :
  counts st key n B → is_i64 n → (∀ value, accepts key (blen value) None = true) → (B + counter_weight key + 1 < i64_MAX)%Z →
  does (integer_transform_value clock accepts key apply) st (λ r st', r = (counted apply n).1 ∧
    counts st' key (counted apply n).2 (B + counter_weight key)).
Proof.
  intros (S & A & a & Hl & Ha & Hh & HS) Hi Hacc Hr. pose proof Hl as [Hsp Hap]. pose proof (obj_wf k Hk st S A B key a Hsp Ha) as Hwf.
  eapply does_mono.
  { apply (update_linked int key (integer_update apply) st S A B (counter_weight key) a).
    split; [done|]. split; [done|]. split; [done|]. split; [done|]. split; [|done]. intros now_ms.
    rewrite guarded_relabel, weight_relabel, (counter_update key apply S n) by done.
    pose proof (blen_nonneg key). unfold counter_weight.
    destruct (apply n) as [m|]; simpl; [|lia]. unfold s_weight. simpl. pose proof (i64_text_length m). unfold blen in *. lia. }
  intros r st' (now_ms & S' & a' & _ & Hks & Hl'). simpl in Hks. destruct Hks as (-> & Hks).
  rewrite <- visible_has, after_read_absent, Hh in Hks by done. rewrite guarded_relabel, (counter_update key apply S n) in Hks by done.
  destruct Hks as ((r0 & Hans & Er) & ->). injection Er as Er.
  assert (r = (counted apply n).1) as ->.
  { unfold counted. destruct (apply n) as [m|]; simpl in Hans; subst r0; destruct r; simpl in Er; try done; by injection Er as <-. }
  split; [done|]. eexists _, _, a. rewrite after_read_absent in Hl' by done. split; [exact Hl'|].
  split; [rewrite obj_put by (by rewrite Ha); by rewrite decide_True|]. split; [done|]. rewrite put_at. unfold counted.
  destruct (apply n) as [m|]; simpl; [by right|]. destruct HS as [[-> ->]| ->]; simpl; auto.
Qed.

Lemma counted_i64 (n d : Z) : is_i64 n → is_i64 (counted (λ current, i64_checked_add current d) n).2.
Proof.
  intros Hn. unfold counted, i64_checked_add. destruct (_ && _)%Z eqn:E; [|done]. simpl.
  apply andb_true_iff in E as [?%Z.leb_le ?%Z.leb_le]. done.
Qed.
End counters.
