(* ===== verification/Demo.v ===== *)
(** * A concrete run of the development

    Instances for everything the store takes from outside, and a small key
    space with one object of each type, a key deadline and a field deadline.
    The witnesses of the properties are evaluated here. *)

From Stdlib Require Import SpecFloat.
From S2P Require Import Prelude Deps Slab ListObject Helpers F64 Types HashSet ZSet Bucket.
From S2P Require Import BucketCore BucketKeys BucketList BucketSet BucketZSet BucketHash.
From S2P Require Import BucketHashTtl Store.

#[export] Existing Instance Concrete.hashing.
#[export] Existing Instance Concrete.table_order.
#[export] Existing Instance Concrete.hash_table.

Lemma zk_antisym x y : zk_cmp y x = CompOpp (zk_cmp x y).
Proof. apply zcmp_antisym. Qed.

Lemma zk_trans x y z : zk_cmp x y = Lt → zk_cmp y z = Lt → zk_cmp x z = Lt.
Proof. apply zcmp_lt_trans. Qed.

#[export] Instance order_set : IndexTreeSet ZSetOrderKey zk_cmp (list ZSetOrderKey) :=
  Concrete.sorted_set zk_cmp zk_antisym zk_trans.

(** Integers as doubles, and a decimal text for integral ones. *)
Definition f64_of_Z (n : Z) : f64 := bits_of_spec (binary_normalize 53 1024 n 0 false).

#[export] Instance float_ops : FloatOps := {|
  f64_to_string b := i64_to_string (f64_as_i64 b);
  f64_parse text := n ← parse_i64_bytes text; Some (f64_of_Z n);
|}.

Abbreviation demo_bucket := (RedisObjectBucket (HT := Concrete.LHT) (OT := list ZSetOrderKey)).

Definition k_hash : Bytes := [104]%Z.
Definition k_list : Bytes := [108]%Z.
Definition k_set : Bytes := [115]%Z.
Definition k_zset : Bytes := [122]%Z.
Definition f_a : Bytes := [97]%Z.
Definition f_b : Bytes := [98]%Z.
Definition f_c : Bytes := [99]%Z.
Definition v_1 : Bytes := [49]%Z.
Definition v_9 : Bytes := [57]%Z.

(** The hash has a live field and one that expires at 50; the list expires at
    100. *)
Definition demo_state : AState :=
  mkA {[ k_hash := AHash {[ f_a := v_1; f_b := v_9 ]};
         k_list := AList [f_a; f_b; f_a];
         k_set := ASet {[ f_a; f_b ]};
         k_zset := AZSet {[ f_a := f64_of_Z 2; f_b := f64_of_Z 1 ]} ]}
      {[ k_list := 100%Z ]}
      {[ k_hash := {[ f_b := 50%Z ]} ]}.

(** The commands that build it. *)
Definition demo_run : option demo_bucket :=
  '(_, b) ← hset_many bucket_default k_hash [(f_a, v_1); (f_b, v_9)] 10;
  '(_, b) ← hash_field_expire b k_hash [f_b] 50 HashFieldExpireCond.Any 10;
  '(_, b) ← push_list_new_unchecked_hashed b (hash_key k_list) k_list [f_a; f_b; f_a] false;
  '(_, b) ← sadd_new_unchecked_hashed b (hash_key k_set) k_set [f_a; f_b];
  '(_, b) ← zadd_new_unchecked_hashed b (hash_key k_zset) k_zset (f64_of_Z 2) f_a;
  '(_, b) ← zadd_cond b k_zset (f64_of_Z 1) f_b false false false false false false;
  Some (expire b k_list 100 10).2.

(** The bucket the commands build stores the key space above. *)
Lemma demo_rep : ∃ b : demo_bucket, demo_run = Some b ∧ bucket_rep b demo_state.
Proof.
  unfold demo_run.
  assert (bucket_rep (bucket_default (HT := Concrete.LHT) (OT := list ZSetOrderKey)) a_empty) as Hb
    by (split; [apply phys_default|apply wf_a_empty]).
  destruct (hset_many_refines _ _ k_hash [(f_a, v_1); (f_b, v_9)] 10 Hb) as (b1 & -> & Hb1).
  cbn [mbind option_bind].
  destruct (hash_field_expire_refines _ _ k_hash [f_b] 50 HashFieldExpireCond.Any 10 Hb1)
    as (b2 & -> & Hb2).
  cbn [mbind option_bind].
  destruct (push_new_refines _ _ k_list [f_a; f_b; f_a] false Hb2) as (b3 & -> & Hb3); [by vm_compute|].
  cbn [mbind option_bind].
  destruct (sadd_new_refines _ _ k_set [f_a; f_b] Hb3) as (b4 & -> & Hb4); [by vm_compute|].
  cbn [mbind option_bind].
  destruct (zadd_new_refines _ _ k_zset (f64_of_Z 2) f_a Hb4) as (b5 & -> & Hb5); [by vm_compute..|].
  cbn [mbind option_bind].
  destruct (zadd_cond_refines _ _ k_zset (f64_of_Z 1) f_b false false false false false false Hb5)
    as (b6 & -> & Hb6); [by vm_compute|].
  cbn [mbind option_bind].
  destruct (expire_spec _ _ k_list 100 10 Hb6) as (b7 & -> & Hb7).
  exists b7. split; [done|]. eapply (eq_ind _ (bucket_rep b7)); [exact Hb7|]. by vm_compute.
Qed.
