(* ===== verification/StructureProperties.v ===== *)
(** * Properties of the object representations

    Traces: every sequence of operations on the slab-backed tables, the ring
    buffers and the list object gives the same answers as on the mathematical
    structure it stands for.  Encodings: the inline and the promoted form of a
    hash, set or sorted set cannot be told apart. *)

From S2P Require Import Prelude Deps Slab RingBuffer ListObject Helpers F64 Types HashSet ZSet Demo.

(** ** Ring buffers *)

Inductive RingOp :=
  | RPushFront (v : Bytes) | RPushBack (v : Bytes)
  | RPopFront | RPopBack
  | RSet (i : nat) (v : Bytes) | RGet (i : nat).

(** What an operation answers: a value, or the value refused by a full buffer. *)
Inductive RingAnswer := Answer (v : option Bytes) | Refused (v : Bytes).

Definition ring_push (r : Ring.t) (p : PushResult Ring.t) : RingAnswer * Ring.t :=
  match p with PushOk r' => (Answer None, r') | PushErr v => (Refused v, r) end.

(** The callers of [set] check the index first. *)
Definition ring_step (cap : nat) (r : Ring.t) (op : RingOp) : RingAnswer * Ring.t :=
  match op with
  | RPushFront v => ring_push r (Ring.push_front cap r v)
  | RPushBack v => ring_push r (Ring.push_back cap r v)
  | RPopFront => let '(v, r') := Ring.pop_front cap r in (Answer v, r')
  | RPopBack => let '(v, r') := Ring.pop_back cap r in (Answer v, r')
  | RSet i v => (Answer None, if i <? Ring.len r then Ring.set cap r i v else r)
  | RGet i => (Answer (Ring.get cap r i), r)
  end.

Definition seq_step (cap : nat) (vs : list Bytes) (op : RingOp) : RingAnswer * list Bytes :=
  match op with
  | RPushFront v => if length vs <? cap then (Answer None, v :: vs) else (Refused v, vs)
  | RPushBack v => if length vs <? cap then (Answer None, vs ++ [v]) else (Refused v, vs)
  | RPopFront => (Answer (head vs), tail vs)
  | RPopBack => (Answer (last vs), take (length vs - 1) vs)
  | RSet i v => (Answer None, <[i := v]> vs)
  | RGet i => (Answer (vs !! i), vs)
  end.

Fixpoint run_trace {X Op A : Type} (step : X → Op → A * X) (x : X) (ops : list Op) : list A * X :=
  match ops with
  | [] => ([], x)
  | op :: ops =>
      let '(ans, x) := step x op in
      let '(answers, x) := run_trace step x ops in
      (ans :: answers, x)
  end.

Lemma run_trace_sim {X Y Op A : Type} (R : X → Y → Prop) (sx : X → Op → A * X) (sy : Y → Op → A * Y) :
  (∀ x y op, R x y → (sx x op).1 = (sy y op).1 ∧ R (sx x op).2 (sy y op).2) →
  ∀ ops x y, R x y →
    (run_trace sx x ops).1 = (run_trace sy y ops).1 ∧ R (run_trace sx x ops).2 (run_trace sy y ops).2.
Proof.
  intros Hstep ops. induction ops as [|op ops IH]; intros x y HR; [done|]. simpl.
  destruct (Hstep x y op HR) as [H1 H2]. destruct (sx x op) as [a1 x'], (sy y op) as [a2 y'].
  simpl in *. destruct (IH x' y' H2) as [H3 H4].
  destruct (run_trace sx x' ops), (run_trace sy y' ops). simpl in *. by subst.
Qed.

Lemma ring_step_sim (cap : nat) r vs op :
  Ring.rep cap r vs →
  (ring_step cap r op).1 = (seq_step cap vs op).1 ∧
  Ring.rep cap (ring_step cap r op).2 (seq_step cap vs op).2.
Proof.
  intros Hr. pose proof (Ring.rep_cap _ _ _ Hr) as Hle.
  destruct op as [v|v| | |i v|i]; simpl.
  - destruct (length vs <? cap) eqn:E; bool_case.
    + destruct (Ring.push_front_rep cap r vs v Hr) as (r' & -> & Hr'); [lia|done].
    + destruct (Ring.push_full cap r vs v Hr) as [_ ->]; [lia|done].
  - destruct (length vs <? cap) eqn:E; bool_case.
    + destruct (Ring.push_back_rep cap r vs v Hr) as (r' & -> & Hr'); [lia|done].
    + destruct (Ring.push_full cap r vs v Hr) as [-> _]; [lia|done].
  - destruct vs as [|v vs]; [by rewrite (Ring.pop_front_nil cap r Hr)|].
    by destruct (Ring.pop_front_rep cap r v vs Hr) as (r' & -> & Hr').
  - destruct vs as [|v vs _] using rev_ind; [by rewrite (Ring.pop_back_nil cap r Hr)|].
    destruct (Ring.pop_back_rep cap r vs v Hr) as (r' & -> & Hr').
    rewrite last_snoc, length_app. simpl. rewrite Nat.add_sub, take_app_length. done.
  - rewrite (Ring.rep_len _ _ _ Hr). destruct (i <? length vs) eqn:E; bool_case.
    + split; [done|]. by apply Ring.set_rep.
    + rewrite list_insert_ge by lia. done.
  - by rewrite (Ring.get_rep cap r vs).
Qed.

(** ** List objects *)

Inductive ListOp :=
  | LPush (values : list Bytes) (front : bool)
  | LPopFront | LPopBack
  | LInsert (i : nat) (v : Bytes) | LRemove (i : nat) | LSet (i : nat) (v : Bytes)
  | LGet (i : nat) | LLen | LClear.

Inductive ListAnswer := LNone | LValue (v : option Bytes) | LCount (n : nat).

(** The bucket commands only pass indexes they have normalised; [None] is a
    panic. *)
Definition list_step (l : option ListObject.t) (op : ListOp) : ListAnswer * option ListObject.t :=
  match l with
  | None => (LNone, None)
  | Some l =>
      match op with
      | LPush values front => (LNone, ListObject.push_values l values front)
      | LPopFront => let '(v, l') := ListObject.pop_front l in (LValue v, Some l')
      | LPopBack => let '(v, l') := ListObject.pop_back l in (LValue v, Some l')
      | LInsert i v =>
          (LNone, if i <=? ListObject.len l then ListObject.insert l i v else Some l)
      | LRemove i =>
          if i <? ListObject.len l
          then match ListObject.remove l i with
               | Some (v, l') => (LValue v, Some l')
               | None => (LNone, None)
               end
          else (LValue None, Some l)
      | LSet i v => (LNone, Some (if i <? ListObject.len l then ListObject.set l i v else l))
      | LGet i => (LValue (ListObject.get l i), Some l)
      | LLen => (LCount (ListObject.len l), Some l)
      | LClear => (LNone, Some (ListObject.clear l))
      end
  end.

Definition sequence_step (vs : list Bytes) (op : ListOp) : ListAnswer * list Bytes :=
  match op with
  | LPush values front => (LNone, if front then rev values ++ vs else vs ++ values)
  | LPopFront => (LValue (head vs), tail vs)
  | LPopBack => (LValue (last vs), take (length vs - 1) vs)
  | LInsert i v => (LNone, if i <=? length vs then take i vs ++ v :: drop i vs else vs)
  | LRemove i => (LValue (vs !! i), delete i vs)
  | LSet i v => (LNone, <[i := v]> vs)
  | LGet i => (LValue (vs !! i), vs)
  | LLen => (LCount (length vs), vs)
  | LClear => (LNone, [])
  end.

Definition list_sim (l : option ListObject.t) (vs : list Bytes) : Prop :=
  ∃ x, l = Some x ∧ ListObject.rep x vs.

Lemma list_step_sim l vs op :
  list_sim l vs →
  (list_step l op).1 = (sequence_step vs op).1 ∧ list_sim (list_step l op).2 (sequence_step vs op).2.
Proof.
  intros (x & -> & Hx). unfold list_sim. destruct op as [ws front| | |i v|i|i v|i| |]; simpl.
  - destruct (ListObject.list_push_values_rep x vs ws front Hx) as (x' & -> & Hx'). eauto.
  - destruct vs as [|v vs].
    + destruct (ListObject.list_pop_front_nil x Hx) as (x' & -> & Hx'). eauto.
    + destruct (ListObject.list_pop_front_rep x v vs Hx) as (x' & -> & Hx'). eauto.
  - destruct vs as [|v vs _] using rev_ind.
    + destruct (ListObject.list_pop_back_nil x Hx) as (x' & -> & Hx'). eauto.
    + destruct (ListObject.list_pop_back_rep x vs v Hx) as (x' & -> & Hx').
      rewrite last_snoc, length_app. simpl. rewrite Nat.add_sub, take_app_length. eauto.
  - rewrite (ListObject.len_rep _ _ Hx). destruct (i <=? length vs) eqn:E; [|eauto]. bool_case.
    destruct (ListObject.list_insert_rep x vs i v Hx) as (x' & -> & Hx'); [lia|]. eauto.
  - rewrite (ListObject.len_rep _ _ Hx). destruct (i <? length vs) eqn:E; bool_case.
    + destruct (lookup_lt_is_Some_2 vs i) as [v Hv]; [lia|].
      destruct (ListObject.list_remove_rep x vs i v Hx Hv) as (x' & -> & Hx'). rewrite Hv. eauto.
    + rewrite lookup_ge_None_2, delete_take_drop, take_ge, drop_ge, app_nil_r by lia. eauto.
  - rewrite (ListObject.len_rep _ _ Hx). destruct (i <? length vs) eqn:E; bool_case.
    + split; [done|]. eexists. split; [done|]. by apply ListObject.list_set_rep.
    + rewrite list_insert_ge by lia. eauto.
  - rewrite (ListObject.list_get_rep x vs) by done. eauto.
  - rewrite (ListObject.len_rep _ _ Hx). eauto.
  - split; [done|]. eexists. split; [done|]. apply ListObject.list_clear_rep.
Qed.

(** ** Hash objects and sorted sets *)

Inductive HashOp :=
  | HInsert (f v : Bytes) | HRemove (f : Bytes) | HGet (f : Bytes) | HLen | HEntries.

Inductive HashAnswer :=
  | HBool (b : bool) | HValue (v : option Bytes) | HCount (n : nat) | HList (es : list (Bytes * Bytes)).

Definition hash_step `{TableOrder} (h : HashObject.t) (op : HashOp) : HashAnswer * HashObject.t :=
  match op with
  | HInsert f v => let '(fresh, h') := HashObject.insert_slice h f v in (HBool fresh, h')
  | HRemove f => let '(old, h') := HashObject.remove h f in (HValue old, h')
  | HGet f => (HValue (HashObject.get h f), h)
  | HLen => (HCount (HashObject.len h), h)
  | HEntries => (HList (HashObject.entries h), h)
  end.

Definition map_step (m : gmap Bytes Bytes) (op : HashOp) : HashAnswer * gmap Bytes Bytes :=
  match op with
  | HInsert f v => (HBool (bool_decide (m !! f = None)), <[f := v]> m)
  | HRemove f => (HValue (m !! f), delete f m)
  | HGet f => (HValue (m !! f), m)
  | HLen => (HCount (size m), m)
  | HEntries => (HList (sorted_entries m), m)
  end.

Definition hash_sim `{TableOrder} (h : HashObject.t) (m : gmap Bytes Bytes) : Prop :=
  HashObject.wf h ∧ HashObject.abs h = m.

Lemma hash_step_sim `{TableOrder} h m op :
  hash_sim h m → (hash_step h op).1 = (map_step m op).1 ∧ hash_sim (hash_step h op).2 (map_step m op).2.
Proof.
  intros [Hw <-]. unfold hash_sim. destruct op as [f v|f|f| |]; simpl.
  - destruct (HashObject.hash_insert_spec h f v Hw) as (H1 & H2 & H3).
    destruct (HashObject.insert_slice h f v). simpl in *. by subst.
  - destruct (HashObject.hash_remove_spec h f Hw) as (H1 & H2 & H3).
    destruct (HashObject.remove h f). simpl in *. by subst.
  - by rewrite HashObject.hash_get_spec.
  - by rewrite HashObject.hash_len_spec.
  - by rewrite HashObject.hash_entries_spec.
Qed.

(** Sorted sets; the commands reject a NaN score before it gets here. *)
Inductive ZOp :=
  | ZInsert (m : Bytes) (score : f64) | ZRemove (m : Bytes) | ZPop (count : nat) (max : bool)
  | ZScore (m : Bytes) | ZRank (m : Bytes) (rev : bool) | ZEntries.

Inductive ZAnswer :=
  | ZBool (b : bool) | ZOptScore (s : option f64) | ZOptRank (r : option nat)
  | ZList (es : list (Bytes * f64)) | ZPanic.

Section ZTrace.
Context `{TableOrder} {OT : Type} `{!IndexTreeSet ZSetOrderKey zk_cmp OT}.

Definition zset_step (z : ZSetObject.t OT) (op : ZOp) : ZAnswer * ZSetObject.t OT :=
  match op with
  | ZInsert m s =>
      if bool_decide (score_ok s)
      then let '(fresh, z') := ZSetObject.insert_slice z m s in (ZBool fresh, z')
      else (ZBool false, z)
  | ZRemove m => let '(hit, z') := ZSetObject.remove z m in (ZBool hit, z')
  | ZPop count max =>
      match ZSetObject.pop_extreme z count max with
      | Some (es, z') => (ZList es, z')
      | None => (ZPanic, z)
      end
  | ZScore m => (ZOptScore (ZSetObject.score z m), z)
  | ZRank m rev => (ZOptRank (ZSetObject.rank z m rev), z)
  | ZEntries => (ZList (ZSetObject.entries z), z)
  end.

(** The same on a finite map of scores, listed by score then member. *)
Definition scores_step (m : gmap Bytes f64) (op : ZOp) : ZAnswer * gmap Bytes f64 :=
  match op with
  | ZInsert k s => if bool_decide (score_ok s) then (ZBool (bool_decide (m !! k = None)), <[k := s]> m)
                   else (ZBool false, m)
  | ZRemove k => (ZBool (bool_decide (is_Some (m !! k))), delete k m)
  | ZPop count max =>
      let order := ZSetObject.directed max (ZSetObject.zsorted m) in
      (ZList (take count order), list_to_map (drop count order))
  | ZScore k => (ZOptScore (m !! k), m)
  | ZRank k rev => (ZOptRank (position (Assoc.key_is k) (ZSetObject.directed rev (ZSetObject.zsorted m))), m)
  | ZEntries => (ZList (ZSetObject.zsorted m), m)
  end.

Definition zset_sim (z : ZSetObject.t OT) (m : gmap Bytes f64) : Prop :=
  ZSetObject.wf z ∧ ZSetObject.abs z = m.

Lemma zset_step_sim z m op :
  zset_sim z m → (zset_step z op).1 = (scores_step m op).1 ∧ zset_sim (zset_step z op).2 (scores_step m op).2.
Proof.
  intros [Hw <-]. unfold zset_sim. destruct op as [k s|k|count max|k|k rev|]; simpl.
  - case_bool_decide as Hs; [|done]. destruct (ZSetObject.zset_insert_spec z k s Hw Hs) as (E1 & E2 & E3).
    destruct (ZSetObject.insert_slice z k s). simpl in *. by subst.
  - destruct (ZSetObject.zset_remove_spec z k Hw) as (E1 & E2 & E3).
    destruct (ZSetObject.remove z k). simpl in *. by subst.
  - destruct (ZSetObject.zset_pop_spec z count max Hw) as (z' & -> & Hw' & Hd). simpl.
    split; [done|]. split; [done|]. rewrite <-Hd.
    rewrite <-(ZSetObject.zsorted_abs (ZSetObject.abs z')) at 1. symmetry. apply list_to_map_proper.
    + rewrite ZSetObject.directed_perm. apply ZSetObject.zsorted_wf.
    + apply ZSetObject.directed_perm.
  - by rewrite ZSetObject.zset_score_spec.
  - by rewrite ZSetObject.zset_rank_spec.
  - by rewrite ZSetObject.entries_canonical.
Qed.
End ZTrace.

(** Counting in the listing is counting in the map. *)
Lemma filter_zsorted_size (P : Bytes * f64 → bool) (m : gmap Bytes f64) :
  length (filter (λ e, P e = true) (ZSetObject.zsorted m)) = size (filter (λ e, P e = true) m).
Proof.
  rewrite ZSetObject.zsorted_perm, <-length_map_to_list. apply Permutation_length, NoDup_Permutation.
  - apply NoDup_filter, NoDup_map_to_list.
  - apply NoDup_map_to_list.
  - intros [k s]. rewrite list_elem_of_filter, !elem_of_map_to_list, map_lookup_filter_Some. tauto.
Qed.

(** ** Properties *)

(** On every sequence of pushes, pops, writes and reads, the ring buffer
    behind the inline deque (capacity 8) and the list chunks (capacity 32)
    answers as a bounded sequence does - a full buffer refuses and hands the
    value back - and iterates over exactly that sequence. *)
Theorem ring_trace_refines (cap : nat) (ops : list RingOp) :
  0 < cap →
  let r := run_trace (ring_step cap) (Ring.new cap) ops in
  let v := run_trace (seq_step cap) [] ops in
  r.1 = v.1 ∧ Ring.iter cap r.2 = v.2 ∧ Ring.len r.2 = length v.2 ∧ length v.2 ≤ cap.
Proof.
  intros Hc. destruct (run_trace_sim (Ring.rep cap) (ring_step cap) (seq_step cap)
    (ring_step_sim cap) ops (Ring.new cap) [] (Ring.new_rep cap Hc)) as [H1 H2].
  split; [done|]. split; [by apply Ring.iter_rep|]. split; apply H2.
Qed.

Lemma ring_trace_witness :
  let ops := [RPushBack v_1; RPushFront v_9; RPopBack; RGet 0; RPushBack f_a; RSet 1 f_b; RPopFront] in
  (run_trace (ring_step 8) (Ring.new 8) ops).1 = (run_trace (seq_step 8) [] ops).1.
Proof. intros ops. assert (0 < 8) as Hc by lia. exact (proj1 (ring_trace_refines 8 ops Hc)). Defined.

(** The list object - empty, single, inline deque or segmented, with its
    promotions - never panics and answers every sequence of pushes, pops,
    insertions, removals, writes and reads as the sequence it stores. *)
Theorem list_trace_refines (ops : list ListOp) :
  let r := run_trace list_step (Some ListObject.Empty) ops in
  let v := run_trace sequence_step [] ops in
  r.1 = v.1 ∧ ∃ l, r.2 = Some l ∧ ListObject.iter l = v.2 ∧ ListObject.len l = length v.2.
Proof.
  destruct (run_trace_sim list_sim list_step sequence_step list_step_sim ops (Some ListObject.Empty) [])
    as [H1 (l & H2 & H3)]; [by exists ListObject.Empty|].
  split; [done|]. exists l. split; [done|]. split; [by apply ListObject.list_iter_rep|by apply ListObject.len_rep].
Qed.

(** Inline or promoted to a map, a hash object answers every sequence of
    writes, removals and reads as a finite map does; [entries] is sorted by
    field whatever the insertion order and the table's iteration order. *)
Theorem hash_trace_refines `{TableOrder} (f v : Bytes) (ops : list HashOp) :
  (run_trace hash_step (HashObject.single f v) ops).1 = (run_trace map_step {[f := v]} ops).1 ∧
  HashObject.wf (run_trace hash_step (HashObject.single f v) ops).2.
Proof.
  destruct (run_trace_sim hash_sim hash_step map_step hash_step_sim ops (HashObject.single f v) {[f := v]})
    as [H1 [H2 _]]; [apply HashObject.single_spec|done].
Qed.

Lemma hash_trace_witness :
  let ops := [HInsert f_b v_9; HInsert f_a v_9; HRemove f_b] in
  (run_trace hash_step (HashObject.single f_a v_1) ops).1 = (run_trace map_step {[f_a := v_1]} ops).1.
Proof. intros ops. exact (proj1 (hash_trace_refines f_a v_1 ops)). Defined.

(** C38: a sorted set answers every sequence of updates, pops and queries as a
    finite map of scores listed by score and then by member bytes - inline or
    promoted, where the score table and the ordered index stay in step. *)
Theorem zset_trace_refines `{TableOrder} {OT : Type} `{!IndexTreeSet ZSetOrderKey zk_cmp OT}
    (m : Bytes) (score : f64) (ops : list ZOp) :
  score_ok score →
  (run_trace zset_step (ZSetObject.single m score) ops).1 = (run_trace scores_step {[m := score]} ops).1 ∧
  ZSetObject.wf (run_trace zset_step (ZSetObject.single m score : ZSetObject.t OT) ops).2.
Proof.
  intros Hs. destruct (run_trace_sim zset_sim zset_step scores_step zset_step_sim ops
    (ZSetObject.single m score) {[m := score]}) as [H1 [H2 _]]; [by apply ZSetObject.zset_single_spec|done].
Qed.

Lemma zset_trace_witness :
  let ops := [ZInsert f_b (f64_of_Z 1); ZInsert f_c (f64_of_Z 5); ZRank f_a true; ZPop 1 true; ZEntries] in
  (run_trace zset_step (ZSetObject.single f_a (f64_of_Z 2) : ZSetObject.t (list ZSetOrderKey)) ops).1 =
  (run_trace scores_step {[f_a := f64_of_Z 2]} ops).1.
Proof.
  intros ops. assert (score_ok (f64_of_Z 2)) as Hs by by vm_compute.
  exact (proj1 (zset_trace_refines f_a (f64_of_Z 2) ops Hs)).
Defined.

(** The logarithmic counting of a score range - two binary searches on
    the ordered index, or the shortcut when the range covers every score -
    returns the number of members whose score lies in the range, with each end
    open or closed as asked. *)
Theorem count_by_score_counts `{TableOrder} {OT : Type} `{!IndexTreeSet ZSetOrderKey zk_cmp OT}
    (z : ZSetObject.t OT) (min max : f64) (min_inclusive max_inclusive : bool) :
  ZSetObject.wf z → score_ok min → score_ok max →
  ZSetObject.count_by_score z min min_inclusive max max_inclusive =
  Some (size (filter (λ e, (if min_inclusive then f64_le min e.2 else f64_lt min e.2) &&
                           (if max_inclusive then f64_le e.2 max else f64_lt e.2 max) = true)
                     (ZSetObject.abs z))).
Proof.
  intros Hw Hmin Hmax. rewrite ZSetObject.count_by_score_spec by done. f_equal.
  apply filter_zsorted_size.
Qed.

Lemma count_by_score_witness :
  ∃ z : ZSetObject.t (list ZSetOrderKey),
    ZSetObject.abs z = {[f_a := f64_of_Z 2]} ∧
    ZSetObject.count_by_score z (f64_of_Z 1) false (f64_of_Z 2) true = Some 1.
Proof.
  exists (ZSetObject.single f_a (f64_of_Z 2)). split; [by vm_compute|].
  assert (score_ok (f64_of_Z 2)) as Hs by by vm_compute.
  assert (score_ok (f64_of_Z 1)) as Hs1 by by vm_compute.
  rewrite (count_by_score_counts (ZSetObject.single f_a (f64_of_Z 2)) (f64_of_Z 1) (f64_of_Z 2) false true
    (proj1 (ZSetObject.zset_single_spec f_a (f64_of_Z 2) Hs)) Hs1 Hs).
  by vm_compute.
Defined.

(** The binary search over the ordered index terminates - the fuel, one
    more than the number of elements, is never exhausted - and returns the
    number of elements the predicate accepts, for any predicate that is
    downward closed in the order. *)
Theorem partition_point_terminates {OT : Type} `{!IndexTreeSet ZSetOrderKey zk_cmp OT}
    (ordered : OT) (pred : ZSetOrderKey → bool) :
  its_wf ordered →
  (∀ x y, x ∈ its_iter ordered → y ∈ its_iter ordered → zle (zk_pair x) (zk_pair y) →
          pred y = true → pred x = true) →
  ZSetObject.zset_partition_point ordered pred =
    Some (length (filter (λ x, pred x = true) (its_iter ordered))).
Proof. apply ZSetObject.partition_point_spec. Qed.

Definition demo_order : list ZSetOrderKey :=
  [mkOrderKey (f64_of_Z 1) f_b; mkOrderKey (f64_of_Z 2) f_a; mkOrderKey (f64_of_Z 7) f_c].

Lemma partition_point_witness :
  ZSetObject.zset_partition_point demo_order (λ k, f64_lt (zk_score k) (f64_of_Z 5)) = Some 2.
Proof.
  rewrite (partition_point_terminates demo_order (λ k, f64_lt (zk_score k) (f64_of_Z 5))); [by vm_compute| |].
  - repeat constructor.
  - intros x y Hx Hy. unfold demo_order in *. cbn [its_iter order_set Concrete.sorted_set] in *.
    repeat (apply elem_of_cons in Hx as [->|Hx]; [repeat (apply elem_of_cons in Hy as [->|Hy]; [by vm_compute|]);
      by apply elem_of_nil in Hy|]). by apply elem_of_nil in Hx.
Defined.

(** Ranges by index.  ZRANGE and its visiting forms hand out exactly the
    Redis slice of the members in score order, ascending or descending, from
    the inline and from the promoted form (where the start is found by rank or
    by skipping, whichever is shorter). *)
Theorem zset_ranges_slice `{TableOrder} {OT : Type} `{!IndexTreeSet ZSetOrderKey zk_cmp OT}
    (z : ZSetObject.t OT) (start stop : Z) (rev : bool) :
  ZSetObject.wf z → fits (ZSetObject.len z) → is_i64 start → is_i64 stop →
  let order := ZSetObject.zsorted (ZSetObject.abs z) in
  ZSetObject.range z start stop = (λ e, Some e.1) <$> redis_slice start stop order ∧
  ZSetObject.range_entries_visit z start stop rev =
    let slice := redis_slice start stop (ZSetObject.directed rev order) in
    ZBegin (length slice) :: (ZSetObject.zentry <$> slice).
Proof.
  intros Hw Hf H1 H2. split; [by apply ZSetObject.zset_range_spec|].
  by apply ZSetObject.zset_range_entries_spec.
Qed.

Lemma zset_ranges_witness :
  ZSetObject.range (ZSetObject.single f_a (f64_of_Z 2) : ZSetObject.t (list ZSetOrderKey)) (-1) 5 =
  [Some f_a].
Proof.
  assert (score_ok (f64_of_Z 2)) as Hs by by vm_compute.
  rewrite (proj1 (zset_ranges_slice (ZSetObject.single f_a (f64_of_Z 2)) (-1) 5 false
    (proj1 (ZSetObject.zset_single_spec f_a (f64_of_Z 2) Hs)) ltac:(by vm_compute) ltac:(by vm_compute)
    ltac:(by vm_compute))).
  by vm_compute.
Defined.

(** A key's slot.  Storing an object for a new key takes a vacant slot
    (a freed one first), the key then finds it by hash or by key, every other
    key keeps its object; removing the key gives the slot back and restores
    the table.  No slot is lost or shared. *)
Theorem table_insert_remove `{Hashing} {HT : Type → Type} `{!HashTable HT} {T : Type}
    (sm : SlotMap.t HT) (sl : ObjectSlab.t T) (m : gmap Bytes T) (key : Bytes) (x : T) :
  Table.rep sm sl m → m !! key = None →
  ∃ slot sl', ObjectSlab.insert x sl = Some (slot, sl') ∧ ObjectSlab.get sl slot = None ∧
    let sm' := (SlotMap.insert_hashed sm (hash_key key) key slot).2 in
    Table.rep sm' sl' (<[key := x]> m) ∧
    SlotMap.get sm' key = Some slot ∧ ObjectSlab.get sl' slot = Some x ∧
    (SlotMap.remove sm' key).1 = Some slot ∧
    Table.rep (SlotMap.remove sm' key).2 (ObjectSlab.remove sl' slot).2 m.
Proof.
  intros Hr Hn. destruct (ObjectSlab.slab_insert_spec x sl (Table.rep_sl _ _ _ Hr))
    as (slot & sl' & Hi & Hfree & _ & Hget).
  destruct (Table.rep_insert sm sl m key x Hr Hn) as (slot' & sl2 & Hi' & Hr').
  rewrite Hi in Hi'. injection Hi' as <- <-. exists slot, sl'. split; [done|]. split; [done|].
  cbn zeta. set (sm' := (SlotMap.insert_hashed sm (hash_key key) key slot).2) in *. split; [done|].
  destruct (Table.rep_None sm sl m key Hr Hn) as [Hn' _]. rewrite SlotMap.get_abs in Hn' by apply Hr.
  destruct (SlotMap.insert_hashed_spec sm (hash_key key) key slot (Table.rep_sm _ _ _ Hr) eq_refl Hn')
    as (_ & Hw' & Habs).
  assert (SlotMap.get sm' key = Some slot) as Hs.
  { rewrite SlotMap.get_abs by done. unfold sm'. rewrite Habs. apply lookup_insert_eq. }
  split; [done|]. split; [rewrite Hget; by case_decide|].
  destruct (Table.rep_remove sm' sl' _ key slot Hr' Hs) as [H1 H2]. split; [done|].
  by rewrite delete_insert_id in H2.
Qed.

Lemma table_insert_remove_witness :
  ∃ slot sl', ObjectSlab.insert v_1 ObjectSlab.default = Some (slot, sl') ∧
    SlotMap.get (SlotMap.insert_hashed (HT := Concrete.LHT) SlotMap.default (hash_key f_a) f_a slot).2 f_a
      = Some slot.
Proof.
  destruct (table_insert_remove (HT := Concrete.LHT) SlotMap.default ObjectSlab.default ∅ f_a v_1
    Table.rep_empty (lookup_empty f_a)) as (slot & sl' & Hi & _ & _ & Hs & _).
  exists slot, sl'. done.
Defined.

(** An index range [start..stop] with negative ends counted from the end
    selects, after normalisation, exactly the indexes between the resolved
    ends; the normalised bounds never leave the sequence. *)
Theorem normalize_range_selects (start stop : Z) (len : nat) :
  fits len → is_i64 start → is_i64 stop →
  match normalize_range start stop len with
  | None => ∀ i, i < len → ¬ (resolve len start ≤ Z.of_nat i ≤ resolve len stop)%Z
  | Some (a, b) =>
      a ≤ b < len ∧
      ∀ i, i < len → (a ≤ i ≤ b ↔ (resolve len start ≤ Z.of_nat i ≤ resolve len stop)%Z)
  end.
Proof.
  intros Hf H1 H2. destruct (normalize_range start stop len) as [[a b]|] eqn:E.
  - apply normalize_range_Some in E as (Hab & Ha & Hb); [|done..]. split; [done|]. intros i Hi. lia.
  - apply normalize_range_None in E; [|done..]. intros i Hi. lia.
Qed.

Lemma normalize_range_witness :
  normalize_range (-3) (-2) 5 = Some (2, 3) ∧
  ∀ i, i < 5 → (2 ≤ i ≤ 3 ↔ (resolve 5 (-3) ≤ Z.of_nat i ≤ resolve 5 (-2))%Z).
Proof.
  split; [by vm_compute|].
  exact (proj2 (normalize_range_selects (-3) (-2) 5 ltac:(by vm_compute) ltac:(by vm_compute)
                  ltac:(by vm_compute))).
Defined.

(** Writing an [i64] as text and parsing it back gives the number, for
    every value of the type including the minimum. *)
Theorem i64_text_roundtrip (n : Z) : is_i64 n → parse_i64_bytes (i64_to_string n) = Some n.
Proof. apply parse_i64_to_string. Qed.

Lemma i64_text_witness : parse_i64_bytes (i64_to_string i64_MIN) = Some i64_MIN.
Proof. apply (i64_text_roundtrip i64_MIN). by vm_compute. Defined.

(** Converting a rank to the rank from the other end is its own inverse
    and stays in range; it is what [directed] does to a listing. *)
Lemma reverse_rank_involution {A : Type} (l : list A) (rank : nat) :
  match reverse_rank (length l) rank with
  | None => length l ≤ rank
  | Some r => r < length l ∧ reverse_rank (length l) r = Some rank ∧
              ZSetObject.directed true l !! r = l !! rank
  end.
Proof.
  unfold reverse_rank. destruct (rank <? length l) eqn:E; bool_case; [|lia].
  split; [lia|]. destruct (length l - rank - 1 <? length l) eqn:E2; bool_case; [|lia].
  split; [f_equal; lia|]. unfold ZSetObject.directed. rewrite rev_alt; fold (reverse l). rewrite reverse_lookup by lia. f_equal. lia.
Qed.

(** The other range normaliser of the repository disagrees.
    [normalize_redis_range] ([commands/formal/range.rs]), used by
    ZREMRANGEBYRANK, clamps a stop before the first element to the first
    element, where [normalize_range] answers that the range is empty. *)
Theorem redis_range_clamps_stop (len : nat) (stop : Z) :
  0 < len → fits len → is_i64 stop → (stop < - Z.of_nat len)%Z →
  normalize_range 0 stop len = None ∧
  normalize_redis_range len 0 stop = Some (mkRange 0 0).
Proof.
  intros Hl Hf H1 Hstop. split.
  - apply normalize_range_None; [done|done|done|]. unfold resolve.
    destruct (stop <? 0)%Z eqn:E; bool_case; simpl; lia.
  - unfold normalize_redis_range. destruct (len =? 0) eqn:E; bool_case; [lia|].
    rewrite usize_as_i64_id by done. rewrite (proj2 (Z.ltb_lt stop 0)) by lia.
    unfold i64_add. change (0 <? 0)%Z with false. cbn iota zeta.
    rewrite (wrap_i64_id (Z.of_nat len + stop)) by (unfold fits, is_i64, i64_MIN, i64_MAX in *; lia).
    assert (clamp (Z.of_nat len + stop) 0 (Z.of_nat len - 1) = 0%Z) as ->.
    { unfold clamp. by rewrite (proj2 (Z.ltb_lt (Z.of_nat len + stop) 0)) by lia. }
    assert (clamp 0 0 (Z.of_nat len) = 0%Z) as ->; [|done].
    unfold clamp. change (0 <? 0)%Z with false. cbn iota.
    by rewrite (proj2 (Z.ltb_ge (Z.of_nat len) 0)) by lia.
Qed.

Lemma redis_range_witness :
  normalize_range 0 (-10) 4 = None ∧ normalize_redis_range 4 0 (-10) = Some (mkRange 0 0).
Proof. apply (redis_range_clamps_stop 4 (-10)); [lia|by vm_compute..]. Defined.

(** [format_score] prints an integral score through [i64]; every
    integral score of at least 2^63 prints as the largest [i64]. *)
Theorem format_score_saturates `{FloatOps} (score : f64) :
  f64_is_finite score = true → f64_integral score = true → f64_negative score = false →
  (2 ^ 63 ≤ Z.shiftl (f64_mantissa score) (f64_exponent score))%Z →
  format_score score = i64_to_string i64_MAX.
Proof.
  intros Hf Hi Hn Hm. unfold format_score. rewrite Hf, Hi. simpl. f_equal.
  unfold f64_as_i64. rewrite Hn. cbn zeta. unfold i64_MIN, i64_MAX in *. lia.
Qed.

(** 1e20 prints as 9223372036854775807. *)
Lemma format_score_witness :
  format_score 4906019910204099648 =
  [57; 50; 50; 51; 51; 55; 50; 48; 51; 54; 56; 53; 52; 55; 55; 53; 56; 48; 55]%Z.
Proof.
  rewrite (format_score_saturates 4906019910204099648); [by vm_compute|by vm_compute..].
Defined.
