(* ===== verification/BucketProperties.v ===== *)
(** * Properties of the bucket commands

    The commands of one bucket against the abstract key space, with every
    clock read explicit.  Witnesses run on the key space of [Demo]. *)

From S2P Require Import Prelude Deps Slab ListObject Helpers F64 Types HashSet ZSet Bucket.
From S2P Require Import BucketCore BucketKeys BucketList BucketSet BucketZSet BucketHash.
From S2P Require Import BucketHashReads BucketHashTtl Store StoreOps Demo.

Section Bucket.
Context `{Hashing} {HT : Type → Type} `{!HashTable HT} `{TableOrder} `{FloatOps}.
Context {OT : Type} `{!IndexTreeSet ZSetOrderKey zk_cmp OT}.
Abbreviation bucket := (RedisObjectBucket (HT := HT) (OT := OT)).
Implicit Types (b : bucket) (a : AState) (key field value : Bytes) (now_ms clock : Z).
Implicit Types (h : gmap Bytes Bytes).

(** Reading a key that holds a value of the type. *)
Lemma a_read_hit {R : Type} (K : Kind) a key (v : val K) (g : val K → R) (wrong missing : R) :
  a_objs a !! key = Some (inj K v) → a_read K a key g wrong missing = g v.
Proof. intros E. unfold a_read. by rewrite E, proj_inj. Qed.

(** C19: every write command of a bucket - on lists, sets, sorted sets, hashes
    and field deadlines, 20 entry points, HSETEX included - runs without
    panicking on any well-formed bucket and commutes with its abstract
    counterpart, and keys other than its own keep their objects.  The flag it
    returns says exactly whether its key started or stopped to exist
    ([flag_right]: for HSETEX only when the hash it finds is not wholly expired
    and a hash it creates gets a deadline in the future; HSETEX creating a key
    with a deadline in the past returns the flag of a creation and stores
    nothing). *)
Theorem write_commands_refine b a key (cmd : WriteCommand) :
  bucket_rep b a → write_pre key cmd a →
  ∃ r flag b' a', run_write key cmd b = Some ((r, flag), b') ∧ bucket_rep b' a' ∧
    write_post key cmd a r flag a' ∧
    (∀ k, k ≠ key → a_objs a' !! k = a_objs a !! k) ∧
    (flag_right key cmd a → flag = xorb (a_has a key) (a_has a' key)) ∧
    (∀ fvs at_ms now_ms,
       cmd = CmdHsetex fvs HashFieldSetCondition.Always (HashFieldSetExpireAction.ExpireAt at_ms) now_ms →
       a_objs a !! key = None → fvs ≠ [] → (at_ms ≤ now_ms)%Z → r = Integer 1 ∧ flag = true ∧ a' = a).
Proof.
  intros Hb Hpre. destruct (write_command_runs key cmd b a Hb Hpre) as (r & f & b' & a' & Hr & Hb' & Hp).
  exists r, f, b', a'. split_and!; [done..| | |].
  - intros k Hk. by eapply write_command_frame.
  - intros Hok. by destruct (write_command_toggles key cmd a r f a' Hok Hp).
  - intros fvs at_ms now_ms -> Hn Hne Hpast. simpl in Hp.
    rewrite (setex_past_absent a key fvs at_ms now_ms (proj2 Hb) Hn Hne Hpast) in Hp. by simplify_eq.
Qed.

(** What the hash reads show.  With [live] the fields whose deadline is
    not reached at the clock the read takes, HGET, HEXISTS, HLEN, HMGET, HKEYS,
    HVALS and HGETALL answer exactly from [live] (the listings in field
    order), although expired fields are still stored. *)
Theorem hash_reads_show_live b a key h field (fields : list Bytes) clock :
  bucket_rep b a → a_objs a !! key = Some (AHash h) → fits (size h) →
  let live := filter (λ e, a_field_expired a key e.1 clock = false) h in
  hget b key field clock = Some (Bulk (live !! field)) ∧
  hexists b key field clock = Some (Integer (if decide (is_Some (live !! field)) then 1 else 0)) ∧
  hlen b key clock = Some (Integer (Z.of_nat (size live))) ∧
  hmget b key fields clock = Some (Array ((live !!.) <$> fields)) ∧
  hkeys b key clock = Some (Array (Some <$> (sorted_entries live).*1)) ∧
  hvals b key clock = Some (Array (Some <$> (sorted_entries live).*2)) ∧
  hgetall b key clock = Some (Array (flat_entries (sorted_entries live))).
Proof.
  intros Hb Hh Hf live. pose proof (λ R, a_read_hit (R := R) KHash a key h) as Hr.
  destruct (hash_listing_spec b a key clock Hb) as (E5 & E6 & E7).
  rewrite (proj1 (hget_spec b a key field clock Hb)), (proj1 (hexists_spec b a key field clock Hb)),
    (proj1 (hlen_spec b a key clock Hb)), (proj1 (hmget_spec b a key fields clock Hb)), E5, E6, E7.
  rewrite !Hr by done. change (a_live a key clock h) with live.
  assert (size live ≤ size h) as Hle by (apply map_subseteq_size, map_filter_subseteq).
  rewrite usize_as_i64_id by (unfold fits in Hf; lia). split_and!; try done.
  by case_bool_decide as E; case_decide.
Qed.

(** Reading a field of a hash just stored with its deadlines. *)
Lemma hget_stored b a key h (ttls : gmap Bytes Z) field clock :
  bucket_rep b (a_put_hash a key h ttls) →
  hget b key field clock =
    Some (Bulk (match ttls !! field with
                | Some t => if (t <=? clock)%Z then None else h !! field
                | None => h !! field
                end)).
Proof.
  intros Hb. rewrite (proj1 (hget_spec b _ key field clock Hb)).
  rewrite (a_read_hit KHash _ key h) by apply a_objs_put_hash.
  rewrite a_live_lookup, a_field_expired_ttls, a_ttls_put_hash. by destruct (ttls !! field).
Qed.

Lemma hget_absent b a key field clock :
  bucket_rep b a → a_objs a !! key = None → hget b key field clock = Some (Bulk None).
Proof.
  intros Hb Hn. rewrite (proj1 (hget_spec b a key field clock Hb)). unfold a_read. by rewrite Hn.
Qed.

(** A value written by HSET is read back by HGET at every later clock -
    the write also drops the field's deadline - and every other field reads,
    at any later clock, as it would have without the write. *)
Theorem hset_hget_roundtrip b a key field value clock :
  bucket_rep b a → (a_objs a !! key = None ∨ ∃ h, a_objs a !! key = Some (AHash h)) →
  ∃ r b', hset b key field value clock = Some (r, b') ∧
    (∀ clock2, hget b' key field clock2 = Some (Bulk (Some value))) ∧
    (∀ other clock2, other ≠ field → (clock ≤ clock2)%Z →
       hget b' key other clock2 = hget b key other clock2).
Proof.
  intros Hb Hkey. destruct (hset_refines b a key field value clock Hb) as (b' & Hr & Hb').
  eexists _, b'. split; [done|]. revert Hb'. unfold a_hset. destruct Hkey as [Hn|[h Hh]].
  - assert (a_purge a key clock = a) as -> by (unfold a_purge, a_get; by rewrite Hn). rewrite Hn.
    assert (a_put KHash a key {[field := value]} = a_put_hash a key {[field := value]} ∅) as ->.
    { unfold a_put, a_put_hash, put_ttls. simpl. f_equal. rewrite bool_decide_eq_true_2, delete_id; [done| |done].
      apply wf_fexp_None; [apply Hb|]. unfold a_get. by rewrite Hn. }
    intros Hb'. split.
    + intros clock2. rewrite (hget_stored b' a key {[field := value]} ∅ field clock2 Hb').
      by rewrite lookup_empty, lookup_singleton_eq.
    + intros g clock2 Hg _. rewrite (hget_stored b' a key {[field := value]} ∅ g clock2 Hb').
      rewrite (hget_absent b a key g clock2 Hb Hn). by rewrite lookup_empty, lookup_singleton_ne.
  - rewrite (a_purge_hash a key clock h) by first [apply Hb|done]. rewrite a_objs_put_hash.
    cbn [snd]. rewrite a_put_hash_twice, a_ttls_put_hash. intros Hb'. split.
    + intros clock2. rewrite (hget_stored b' _ key _ _ field clock2 Hb').
      by rewrite lookup_delete_eq, lookup_insert_eq.
    + intros g clock2 Hg Hc. rewrite (hget_stored b' _ key _ _ g clock2 Hb').
      rewrite lookup_delete_ne, lookup_insert_ne by done.
      rewrite (proj1 (hget_spec b a key g clock2 Hb)), (a_read_hit KHash a key h) by done.
      rewrite !a_live_lookup, !a_field_expired_ttls. do 2 f_equal. rewrite map_lookup_filter.
      destruct (a_ttls a key !! g) as [t|]; simpl; [|done].
      destruct (t <=? clock)%Z eqn:E; simpl.
      * apply Z.leb_le in E. by rewrite (proj2 (Z.leb_le t clock2)) by lia.
      * done.
Qed.

(** HEXPIRE and HTTL.  Setting a future deadline on a live field answers
    1; from then on, before the deadline, HPTTL answers the exact remaining
    milliseconds and the value is still readable; at and after the deadline
    the field is gone for both. *)
Theorem hexpire_hpttl b a key h field value (at_ms : Z) now_ms :
  bucket_rep b a → a_objs a !! key = Some (AHash h) →
  a_live a key now_ms h !! field = Some value → (0 ≤ now_ms < at_ms)%Z → is_i64 at_ms →
  ∃ b', hash_field_expire b key [field] at_ms HashFieldExpireCond.Any now_ms =
          Some ((IntegerArray [1%Z], false), b') ∧
    ∀ t, (now_ms ≤ t)%Z →
      if (t <? at_ms)%Z
      then hash_field_ttl_query b' key [field] true false t = Some (IntegerArray [(at_ms - t)%Z]) ∧
           hget b' key field t = Some (Bulk (Some value))
      else hash_field_ttl_query b' key [field] true false t = Some (IntegerArray [(-2)%Z]) ∧
           hget b' key field t = Some (Bulk None).
Proof.
  intros Hb Hh Hl Hat Hi.
  destruct (hash_field_expire_refines b a key [field] at_ms HashFieldExpireCond.Any now_ms Hb) as (b' & Hr & Hb').
  exists b'. rewrite Hr. revert Hb'. clear Hr. unfold a_hash_field_expire, a_on_live. rewrite Hh. cbn zeta.
  assert (a_live a key now_ms h ≠ ∅) as Hne.
  { intros E. rewrite E, lookup_empty in Hl. done. }
  rewrite bool_decide_eq_false_2 by done. simpl. unfold a_expire_code. rewrite Hl. simpl.
  rewrite (proj2 (Z.leb_gt at_ms now_ms)) by lia. simpl. unfold a_remove_fields.
  rewrite !map_filter_id by (intros; apply not_elem_of_nil). rewrite bool_decide_eq_false_2 by done.
  simpl. rewrite a_put_hash_twice. intros Hb'. split; [done|]. intros t Ht.
  rewrite (hget_stored b' _ key _ _ field t Hb'), (hash_field_ttl_query_spec b' _ key) by done.
  unfold a_hash_field_ttl_query. rewrite (a_read_hit KHash _ key (a_live a key now_ms h)) by apply a_objs_put_hash.
  simpl. rewrite a_live_lookup, a_field_expired_ttls, !a_ttls_put_hash, !lookup_insert_eq, Hl.
  destruct (t <? at_ms)%Z eqn:E; bool_case.
  - rewrite (proj2 (Z.leb_gt at_ms t)) by lia. split; [|done]. do 3 f_equal.
    unfold ttl_answer, u64_saturating_sub. rewrite wrap_i64_id; [lia|]. unfold is_i64, i64_MIN, i64_MAX in *. lia.
  - by rewrite (proj2 (Z.leb_le at_ms t)) by lia.
Qed.

(** HPERSIST.  Removing the deadline of a live field answers 1 and the
    field then reports no deadline at any time and keeps its value. *)
Theorem hpersist_keeps b a key h field value (at_ms : Z) now_ms :
  bucket_rep b a → a_objs a !! key = Some (AHash h) →
  h !! field = Some value → a_ttls a key !! field = Some at_ms → (now_ms < at_ms)%Z →
  ∃ b', hash_field_persist b key [field] now_ms = Some ((IntegerArray [1%Z], false), b') ∧
    ∀ t, hash_field_ttl_query b' key [field] true true t = Some (IntegerArray [(-1)%Z]) ∧
         hget b' key field t = Some (Bulk (Some value)).
Proof.
  intros Hb Hh Hf Ht Hlt. destruct (hash_field_persist_refines b a key [field] now_ms Hb) as (b' & Hr & Hb').
  exists b'. rewrite Hr. revert Hb'. clear Hr. unfold a_hash_field_persist, a_on_live. rewrite Hh. cbn zeta.
  assert (a_live a key now_ms h !! field = Some value) as Hl.
  { rewrite a_live_lookup, a_field_expired_ttls, Ht. by rewrite (proj2 (Z.leb_gt at_ms now_ms)). }
  rewrite bool_decide_eq_false_2 by (intros E; by rewrite E, lookup_empty in Hl).
  rewrite (a_purge_hash a key now_ms h) by first [apply Hb|done].
  rewrite a_ttls_put_hash, a_put_hash_twice. simpl. rewrite Hl, map_lookup_filter, Ht. simpl.
  rewrite (proj2 (Z.leb_gt at_ms now_ms)) by done. simpl. intros Hb'. split; [done|]. intros t.
  set (ttls := filter (λ e : Bytes * Z, e.1 ∉ [field]) _) in Hb'.
  assert (ttls !! field = None) as En.
  { apply map_lookup_filter_None_2. right. intros v _ Hx. apply Hx. by apply list_elem_of_singleton. }
  rewrite (hget_stored b' _ key _ _ field t Hb'), (hash_field_ttl_query_spec b' _ key) by done.
  unfold a_hash_field_ttl_query. rewrite (a_read_hit KHash _ key (a_live a key now_ms h)) by apply a_objs_put_hash.
  simpl. by rewrite a_live_lookup, a_field_expired_ttls, !a_ttls_put_hash, En, Hl.
Qed.

(** HINCRBY computes exactly or not at all.  On a live field that holds
    the integer [n], an in-range sum is answered and stored as text that
    parses back to it; an overflowing one is an error that stores nothing. *)
Theorem hincrby_exact b a key h field (text : Bytes) (n delta : Z) clock clock2 :
  bucket_rep b a → a_objs a !! key = Some (AHash h) →
  a_live a key clock h !! field = Some text → parse_i64_bytes text = Some n → (clock ≤ clock2)%Z →
  if bool_decide (is_i64 (n + delta))
  then ∃ created b', hincrby b key field delta clock clock2 = Some ((Integer (n + delta), created), b') ∧
         ∃ text', hget b' key field clock2 = Some (Bulk (Some text')) ∧
                  parse_i64_bytes text' = Some (n + delta)%Z
  else ∃ b', hincrby b key field delta clock clock2 =
               Some ((Simple "ERR increment or decrement would overflow", false), b') ∧
             bucket_rep b' (a_purge a key clock).
Proof.
  intros Hb Hh Hl Hp Hc. destruct (hincrby_refines b a key field delta clock clock2 Hb) as (b' & Hr & Hb').
  rewrite Hr. clear Hr. revert Hb'. unfold a_hincrby. cbn zeta.
  assert (a_current (a_purge a key clock) key field parse_i64_bytes = CValue _ (Some n)) as ->.
  { unfold a_current. rewrite (a_purge_hash a key clock h), a_objs_put_hash by first [apply Hb|done].
    by rewrite Hl, Hp. }
  unfold i64_checked_add. cbn [default from_option id].
  case_bool_decide as Hi; cbn zeta.
  - assert (((i64_MIN <=? n + delta) && (n + delta <=? i64_MAX))%Z = true) as -> by
      (unfold is_i64 in Hi; apply andb_true_iff; rewrite !Z.leb_le; lia).
    destruct (a_hset (a_purge a key clock) key field (i64_to_string (n + delta)) clock2) as [[r0 created] a2] eqn:E.
    simpl. intros Hb'. exists created, b'. split; [done|]. exists (i64_to_string (n + delta)).
    split; [|by apply parse_i64_to_string]. unfold a_hset in E.
    rewrite (a_purge_hash (a_purge a key clock) key clock2 (a_live a key clock h)) in E;
      [|by apply a_purge_wf, Hb
       |by rewrite (a_purge_hash a key clock h), a_objs_put_hash by first [apply Hb|done]].
    rewrite a_objs_put_hash, a_put_hash_twice, a_ttls_put_hash in E. injection E as <- <- <-.
    rewrite (hget_stored b' _ key _ _ field clock2 Hb'). by rewrite lookup_delete_eq, lookup_insert_eq.
  - assert (((i64_MIN <=? n + delta) && (n + delta <=? i64_MAX))%Z = false) as ->.
    { apply not_true_iff_false. rewrite andb_true_iff, !Z.leb_le. unfold is_i64 in Hi. tauto. }
    simpl. eauto.
Qed.

(** A purge does not touch key deadlines. *)
Lemma a_purge_exp a key now_ms : a_exp (a_purge a key now_ms) = a_exp a.
Proof. unfold a_purge. by destruct (a_get KHash a key). Qed.

(** A key whose hash, if it is one, has a live field survives the cleanup. *)
Lemma cleanup_live a key now_ms :
  wf_a a → (∀ h, a_objs a !! key = Some (AHash h) → a_live a key now_ms h ≠ ∅) →
  a_cleanup a key now_ms = (false, a_purge a key now_ms).
Proof.
  intros Hw Hl. unfold a_cleanup. rewrite bool_decide_eq_false_2; [done|].
  destruct (a_get KHash a key) as [h|] eqn:Eg.
  - rewrite (proj2 (a_purge_fields a key now_ms h Hw Eg)). apply a_get_Some in Eg.
    intros [= E]. by apply (Hl h).
  - unfold a_purge. by rewrite Eg, Eg.
Qed.

(** Key deadlines.  EXPIRE on a stored, unexpired key answers true.
    Before the deadline PTTL then answers the exact remaining milliseconds
    (for a hash, while it has a live field); from the deadline on it answers
    -2 and the object is physically gone. *)
Theorem expire_then_ttl b a key (at_ms : Z) now_ms :
  bucket_rep b a → a_has a key = true → a_expired a key now_ms = false →
  (0 ≤ now_ms < at_ms)%Z → is_i64 at_ms →
  ∃ b', expire b key at_ms now_ms = (true, b') ∧
    ∀ t, (now_ms ≤ t)%Z → (∀ h, a_objs a !! key = Some (AHash h) → a_live a key t h ≠ ∅) →
      ∃ b2, ttl_millis b' key t = Some ((if (t <? at_ms)%Z then at_ms - t else -2)%Z, b2) ∧
            contains_object b2 key = (t <? at_ms)%Z.
Proof.
  intros Hb Hhas He Hat Hi. destruct (expire_spec b a key at_ms now_ms Hb) as (b' & Hx & Hb').
  exists b'. rewrite Hx. revert Hb'. clear Hx. unfold a_expire, a_delete_expired. rewrite He, Hhas. simpl.
  set (a' := a_set_exp a _). intros Hb'. split; [done|]. intros t Ht Hlive.
  destruct (ttl_millis_spec b' a' key t Hb') as (b2 & Hq & Hb2). exists b2. rewrite Hq.
  rewrite (contains_object_spec b2 _ key (proj1 Hb2)). clear Hq. revert Hb2.
  assert (a_expired a' key t = (at_ms <=? t)%Z) as Hexp.
  { unfold a_expired. simpl. by rewrite lookup_insert_eq. }
  unfold a_ttl_millis, a_delete_expired. rewrite Hexp.
  destruct (t <? at_ms)%Z eqn:E; bool_case.
  - rewrite (proj2 (Z.leb_gt at_ms t)) by lia. rewrite (cleanup_live a' key t); [|apply Hb'|apply Hlive].
    intros _. rewrite a_purge_has. assert (a_has a' key = true) as -> by apply Hhas. simpl.
    rewrite a_purge_has, a_purge_exp. simpl. rewrite lookup_insert_eq. split; [|apply Hhas].
    do 2 f_equal. unfold u64_saturating_sub. rewrite wrap_i64_id; [lia|].
    unfold is_i64, i64_MIN, i64_MAX in *. lia.
  - rewrite (proj2 (Z.leb_le at_ms t)) by lia. intros _. split; [done|]. simpl. unfold a_has. simpl.
    by rewrite lookup_delete_eq.
Qed.

(** Deletion leaves nothing behind.  DEL answers whether the key existed;
    afterwards no table knows it, it has no deadline, none of its former
    fields has one, and the rest of the key space is as before. *)
Theorem delete_forgets b a key :
  bucket_rep b a →
  ∃ b', delete_any b key = (a_has a key, b') ∧ bucket_rep b' (a_delete a key) ∧
    contains_object b' key = false ∧ entry_expire_at b' key = None ∧
    (∀ t, object_is_expired b' key t = false) ∧ (∀ f, hash_field_expiry b' key f = None).
Proof.
  intros Hb. destruct (delete_any_spec b a key Hb) as (b' & -> & Hb'). exists b'. split; [done|].
  split; [done|]. pose proof Hb' as [Hp _].
  assert (contains_object b' key = false) as Hc.
  { rewrite (contains_object_spec b' _ key Hp). unfold a_has. simpl. by rewrite lookup_delete_eq. }
  split; [done|]. split; [unfold entry_expire_at; by rewrite Hc|]. split.
  - intros t. rewrite (object_is_expired_spec b' _ key t Hp). unfold a_expired. simpl.
    by rewrite lookup_delete_eq.
  - intros f. rewrite (hash_field_expiry_spec b' _ key f Hp). unfold a_ttls. simpl.
    rewrite lookup_delete_eq. apply lookup_empty.
Qed.

(** What COPY and RENAME move: the value, for a hash only its live fields. *)
Definition moved a key now_ms (av : AValue) : AValue :=
  match av with AHash h => AHash (a_live a key now_ms h) | _ => av end.

Lemma clone_value_ok b a key now_ms v :
  bucket_rep b a → clone_ok a key now_ms now_ms (Some v) → value_ok v.
Proof.
  intros Hb. unfold clone_ok. destruct (a_objs a !! key) as [[h|l|m|z]|] eqn:E; [..|done].
  - case_bool_decide; [|done]. by intros [= ->].
  - by intros [= ->].
  - by intros (l & [= ->] & _).
  - intros [= ->]. simpl. apply Forall_forall. intros [k s] Hin.
    rewrite ZSetObject.zsorted_perm in Hin. apply elem_of_map_to_list in Hin.
    eapply (phys_scores b a key z k s); [apply Hb|by apply a_get_Some|done].
Qed.

(** Cloning a visible key and inserting the clone under another key - the
    object half of COPY and RENAME - stores there the same value (a hash
    without its expired fields), without the old deadlines, replacing whatever
    the destination held, and leaves every other key alone. *)
Theorem clone_insert_roundtrip b a key dest (av : AValue) now_ms :
  bucket_rep b a → a_objs a !! key = Some av → a_visible a now_ms key = true →
  ∃ v b' a', clone_value b key now_ms now_ms = Some (Some v) ∧
    insert_value b dest v = Some (negb (a_has a dest), b') ∧ bucket_rep b' a' ∧
    a_objs a' !! dest = Some (moved a key now_ms av) ∧ a_exp a' !! dest = None ∧
    a_fexp a' !! dest = None ∧ (∀ k, k ≠ dest → a_objs a' !! k = a_objs a !! k).
Proof.
  intros Hb Ho Hv. destruct (clone_value_spec b a key now_ms now_ms Hb) as (r & Hc & Hok).
  assert (∃ v, r = Some v) as [v ->].
  { unfold clone_ok in Hok. unfold a_visible in Hv. rewrite Ho in *.
    destruct av as [h|l|m|z]; [|eauto|destruct Hok as (l & -> & _); eauto|eauto].
    apply andb_true_iff in Hv as [_ Hv]. rewrite Hv in Hok. eauto. }
  pose proof (clone_ok_value a key now_ms now_ms v Hok) as Hval. rewrite Ho in Hval.
  destruct (insert_value_spec b a dest v Hb (clone_value_ok b a key now_ms v Hb Hok)) as (b' & Hi & Hb').
  exists v, b', (a_insert_value a dest v).2. split; [done|]. split; [done|]. split; [done|]. simpl.
  rewrite !lookup_insert_eq, !lookup_delete_eq, Hval. split; [by destruct av|]. split; [done|]. split; [done|].
  intros k Hk. by rewrite lookup_insert_ne.
Qed.

(** Listing.  KEYS hands out every visible key exactly once; the listing
    with types names the same keys; when no stored hash is empty the live
    count is their number; a visit goes through them in the same order. *)
Theorem keys_list_visible b a now_ms :
  bucket_rep b a →
  ∃ ks, keys b now_ms [] = Some ks ∧ NoDup ks ∧
    (∀ k, k ∈ ks ↔ a_visible a now_ms k = true) ∧
    (∃ typed, keys_with_type b now_ms [] = Some typed ∧ typed.*1 = ks) ∧
    ((∀ k, a_objs a !! k ≠ Some (AHash ∅)) → live_object_count b now_ms = Some (length ks)) ∧
    visit_keys (λ s k, (s ++ [k], true)) b now_ms [] = Some (ks, true).
Proof.
  intros Hb. pose proof (all_keys_spec b a (proj1 Hb)) as [Hnd Hin].
  exists (visible_keys b a now_ms). split; [by apply (keys_spec b a now_ms [])|].
  split; [by apply NoDup_filter|]. split.
  { intros k. unfold visible_keys. rewrite list_elem_of_filter, Hin. split; [tauto|]. intros Hv.
    split; [done|]. unfold a_visible in Hv. destruct (a_objs a !! k); [eauto|]. by rewrite andb_false_r in Hv. }
  split.
  { eexists. split; [by apply (keys_with_type_spec b a now_ms [])|]. simpl.
    rewrite <-list_fmap_compose. apply list_fmap_id. }
  split; [by apply live_object_count_spec|].
  rewrite (visit_keys_spec _ b a now_ms [] Hb). f_equal.
  assert (∀ ks (acc : list Bytes), visit_key_iter (λ s k, (s ++ [k], true)) ks acc = (acc ++ ks, true)) as Hv.
  { intros ks. induction ks as [|k ks IH]; intros acc; simpl; [by rewrite app_nil_r|].
    by rewrite IH, <-app_assoc. }
  apply Hv.
Qed.

(** The list reads.  On a list LLEN, LINDEX, LRANGE and LPOS answer the
    length, the element at a possibly negative index, the inclusive slice and
    the ranked match positions of the stored sequence, in its order. *)
Theorem list_reads_answer b a key (l : list Bytes) (element : Bytes) (index start stop rank maxlen : Z)
    (count : option Z) :
  bucket_rep b a → a_objs a !! key = Some (AList l) → fits (length l) →
  is_i64 index → is_i64 start → is_i64 stop → is_i64 rank → rank ≠ 0%Z →
  (∀ n, count = Some n → 0 ≤ n ≤ i64_MAX)%Z → (0 ≤ maxlen ≤ i64_MAX)%Z →
  llen b key = Some (Integer (Z.of_nat (length l))) ∧
  lindex b key index = Some (Bulk (a_lindex l index)) ∧
  lrange b key start stop = Some (Array (Some <$> redis_slice start stop l)) ∧
  lpos_visit b key element rank count maxlen = Some (Written, Some (a_lpos l element rank count maxlen)).
Proof.
  intros Hb Ho Hf Hi Hs1 Hs2 Hr Hr0 Hc Hm. pose proof (λ R, a_read_hit (R := R) KList a key l) as Hh.
  assert (list_fits a key) as Hfit.
  { intros l' E. apply a_get_Some in E. rewrite Ho in E. by injection E as <-. }
  rewrite (llen_spec b a key Hb Hfit), (lindex_spec b a key Hb Hfit), (lrange_spec b a key Hb Hfit),
    (lpos_visit_spec b a key Hb Hfit) by done.
  by rewrite !Hh.
Qed.

(** The sorted-set reads.  ZSCORE, ZCARD, ZRANGE, ZRANK and ZCOUNT answer
    from the entries ordered by score and then member: the slice, the position
    from either end and the number of scores within the bounds. *)
Theorem zset_reads_answer b a key (z : gmap Bytes f64) (member : Bytes) (start stop : Z) (min max : f64)
    (backward : bool) :
  bucket_rep b a → a_objs a !! key = Some (AZSet z) → fits (size z) →
  is_i64 start → is_i64 stop → score_ok min → score_ok max →
  let order := ZSetObject.zsorted z in
  zscore b key member = Some (Bulk (format_score <$> z !! member)) ∧
  zcard b key = Some (Integer (Z.of_nat (length order))) ∧
  zrange b key start stop = Some (Array (Some <$> (redis_slice start stop order).*1)) ∧
  zrank b key member backward =
    Some (Integer (default (-1)%Z (Z.of_nat <$>
            position (Assoc.key_is member) (ZSetObject.directed backward order)))) ∧
  zcount b key min max =
    Some (Integer (Z.of_nat (length (filter (λ e, ZSetObject.in_score_range min true max true e = true) order)))).
Proof.
  intros Hb Ho Hf Hs1 Hs2 Hm1 Hm2 order. pose proof (λ R, a_read_hit (R := R) KZSet a key z) as Hh.
  assert (∀ z', a_get KZSet a key = Some z' → fits (size z')) as Hfit.
  { intros z' E. apply a_get_Some in E. rewrite Ho in E. by injection E as <-. }
  rewrite (zscore_spec b a key Hb), (zcard_spec b a key Hb Hfit), (zrange_spec b a key Hb Hfit),
    (zrank_spec b a key Hb Hfit), (zcount_spec b a key Hb Hfit) by done.
  rewrite !Hh by done. split_and!; try done.
  - subst order. by rewrite ZSetObject.zsorted_perm, length_map_to_list.
  - by rewrite <-list_fmap_compose.
Qed.

(** SPOP.  The popped members are distinct, were members, and are as many
    as asked for or as there are; exactly they leave the set, and emptying it
    removes the key, which the flag reports. *)
Theorem spop_takes_members b a key (s : gset Bytes) (n : nat) :
  bucket_rep b a → a_objs a !! key = Some (ASet s) →
  ∃ popped flag b' a', spop b key (Some n) = Some ((Array (Some <$> popped), flag), b') ∧
    NoDup popped ∧ (∀ m, m ∈ popped → m ∈ s) ∧ length popped = n `min` size s ∧ bucket_rep b' a' ∧
    let rest := s ∖ list_to_set popped in
    a_objs a' !! key = (if decide (rest = ∅) then None else Some (ASet rest)) ∧
    flag = bool_decide (rest = ∅) ∧ (∀ k, k ≠ key → a_objs a' !! k = a_objs a !! k).
Proof.
  intros Hb Ho. destruct (spop_refines b a key (Some n) Hb) as (g & b' & Hg & Hr & Hb').
  assert (a_get KSet a key = Some s) as Es by by apply a_get_Some.
  destruct (Hg s Es) as (l & [Hnd Hls] & Hs' & Hres).
  exists (take n l). rewrite Hr. revert Hb'. unfold a_modify. rewrite Ho. simpl.
  destruct (g s) as [r s']. simpl in *. subst r s'. intros Hb'.
  assert (∀ m, m ∈ take n l → m ∈ s) as Hsub.
  { intros m Hm. rewrite <-Hls. apply elem_of_list_to_set.
    by eapply subseteq_take. }
  assert (length (take n l) = n `min` size s) as Hlen.
  { by rewrite length_take, <-Hls, size_list_to_set. }
  assert (NoDup (take n l)) as Hnt by (rewrite <-(take_drop n l) in Hnd; apply NoDup_app in Hnd; tauto).
  set (rest := s ∖ list_to_set (take n l)) in *. unfold val_empty in *.
  rewrite bool_decide_decide in *. destruct (decide (rest = ∅)) as [E|E].
  - exists true, b', (a_delete a key). split_and!; try done; simpl; [by rewrite lookup_delete_eq|].
    intros k Hk. by rewrite lookup_delete_ne.
  - exists false, b', (a_put KSet a key rest). split_and!; try done; simpl; [by rewrite lookup_insert_eq|].
    intros k Hk. by rewrite lookup_insert_ne.
Qed.

(** ZADD then ZSCORE, under every combination of NX, XX, GT, LT and CH.
    When the conditions let the write through, the member reads back with the
    new score, otherwise with the one it had; every other member keeps its
    score.  The answer counts additions, or with CH changes of the score. *)
Theorem zadd_zscore_roundtrip b a key (z : gmap Bytes f64) (score : f64) (member : Bytes)
    (nx xx gt lt ch : bool) :
  bucket_rep b a → score_ok score →
  (a_objs a !! key = Some (AZSet z) ∨ a_objs a !! key = None ∧ z = ∅) →
  let old := z !! member in
  let rejected := zadd_rejected old score nx xx gt lt in
  ∃ b', zadd_cond b key score member nx xx gt lt ch false =
      Some ((Integer (bool_as_i64 (negb rejected &&
                        if ch then bool_decide (old ≠ Some score) else bool_decide (old = None))),
             negb rejected && negb (a_has a key)), b') ∧
    zscore_value b' key member = Some (inr (if rejected then old else Some score)) ∧
    ∀ other, other ≠ member → zscore_value b' key other = Some (inr (z !! other)).
Proof.
  intros Hb Hs Hz old rejected.
  destruct (zadd_cond_refines b a key score member nx xx gt lt ch false Hb Hs) as (b' & Hr & Hb').
  exists b'. rewrite Hr. clear Hr. revert Hb'.
  assert (a_has a key && bool_decide (a_get KZSet a key = None) = false ∧
          default ∅ (a_get KZSet a key) = z ∧
          ∀ m, a_read KZSet a key (λ z, inr ((z : gmap Bytes f64) !! m)) (inl ()) (inr None) =
               inr (A := ()) (z !! m)) as (E1 & E2 & E3).
  { unfold a_has, a_get, a_read. destruct Hz as [->|[-> ->]]; simpl; split_and!; done. }
  unfold a_zadd_cond. rewrite E1, E2. fold old. fold rejected. destruct rejected; simpl; intros Hb'.
  - split; [done|]. rewrite (zscore_value_spec b' a key Hb' member), E3. split; [done|].
    intros m Hm. by rewrite (zscore_value_spec b' a key Hb' m), E3.
  - split; [by destruct ch|]. rewrite (zscore_value_spec b' _ key Hb' member).
    assert (∀ m, a_read KZSet (a_put KZSet a key (<[member := score]> z)) key
              (λ z, inr ((z : gmap Bytes f64) !! m)) (inl ()) (inr None) =
              inr (A := ()) (<[member := score]> z !! m)) as Eput.
    { intros m. rewrite (a_read_hit KZSet _ key (<[member := score]> z)); [done|].
      simpl. by rewrite lookup_insert_eq. }
    rewrite Eput, lookup_insert_eq. split; [done|]. intros m Hm.
    by rewrite (zscore_value_spec b' _ key Hb' m), Eput, lookup_insert_ne.
Qed.

(** ZADD GT INCR compares the increment, not the incremented score, with
    the stored one: an increment no larger than the stored score is refused,
    and nothing is written, whatever the sum would be. *)
Theorem zadd_gt_incr_compares_delta b a key (z : gmap Bytes f64) (member : Bytes) (old delta : f64) :
  bucket_rep b a → a_objs a !! key = Some (AZSet z) → z !! member = Some old → score_ok delta →
  f64_le delta old = true →
  ∃ b', zadd_cond b key delta member false false true false false true =
          Some ((Bulk None, false), b') ∧ bucket_rep b' a.
Proof.
  intros Hb Ho Hm Hs Hle.
  destruct (zadd_cond_refines b a key delta member false false true false false true Hb Hs) as (b' & Hr & Hb').
  exists b'. rewrite Hr. clear Hr. revert Hb'. unfold a_zadd_cond, a_get, a_has. rewrite Ho. simpl.
  rewrite Hm. unfold zadd_rejected. simpl. by rewrite Hle.
Qed.

(** HEXPIRE with a deadline in the past and the same field named twice
    answers 2 twice - the second mention finds the field the first one has
    already doomed - and removes the field once. *)
Theorem hexpire_duplicate_past b a key h field value (at_ms : Z) now_ms :
  bucket_rep b a → a_objs a !! key = Some (AHash h) →
  a_live a key now_ms h !! field = Some value → (at_ms ≤ now_ms)%Z →
  ∃ flag b', hash_field_expire b key [field; field] at_ms HashFieldExpireCond.Any now_ms =
          Some ((IntegerArray [2%Z; 2%Z], flag), b') ∧
    hget b' key field now_ms = Some (Bulk None).
Proof.
  intros Hb Hh Hl Hat.
  destruct (hash_field_expire_refines b a key [field; field] at_ms HashFieldExpireCond.Any now_ms Hb)
    as (b' & Hr & Hb').
  rewrite Hr. revert Hb'. clear Hr. unfold a_hash_field_expire, a_on_live. rewrite Hh. cbn zeta.
  rewrite bool_decide_eq_false_2 by (intros E; by rewrite E, lookup_empty in Hl).
  simpl. unfold a_expire_code. rewrite Hl. simpl. rewrite (proj2 (Z.leb_le at_ms now_ms)) by done. simpl.
  unfold a_remove_fields.
  case_bool_decide as E; simpl; intros Hb'; eexists _, b'; (split; [done|]).
  - apply (hget_absent b' _ key field now_ms Hb'). simpl. by rewrite lookup_delete_eq.
  - revert Hb'. rewrite a_put_hash_twice. intros Hb'. rewrite (hget_stored b' _ key _ _ field now_ms Hb').
    rewrite !map_lookup_filter_None_2; [done|..]; right; intros v _ Hx; apply Hx; by left.
Qed.
End Bucket.

(** ** The properties at the key space of [Demo] *)

Lemma write_commands_witness :
  ∃ b : demo_bucket, demo_run = Some b ∧
    ∃ b', run_write k_zset (CmdZpop 2 true) b =
      Some ((Array [Some f_a; Some [50%Z]; Some f_b; Some v_1], true), b').
Proof.
  destruct demo_rep as (b & Hr & Hb). exists b. split; [done|].
  destruct (write_commands_refine b demo_state k_zset (CmdZpop 2 true) Hb I)
    as (r & f & b' & a' & E & _ & Hp & _).
  exists b'. rewrite E. simpl in Hp. injection (eq_trans (f_equal fst Hp) eq_refl) as -> ->. done.
Defined.

Lemma hash_reads_witness :
  ∃ b : demo_bucket, demo_run = Some b ∧
    hget b k_hash f_b 60 = Some (Bulk None) ∧ hlen b k_hash 60 = Some (Integer 1) ∧
    hgetall b k_hash 60 = Some (Array [Some f_a; Some v_1]).
Proof.
  destruct demo_rep as (b & Hr & Hb). exists b. split; [done|].
  destruct (hash_reads_show_live b demo_state k_hash {[ f_a := v_1; f_b := v_9 ]} f_b [f_a] 60 Hb
    ltac:(by vm_compute) ltac:(by vm_compute)) as (-> & _ & -> & _ & _ & _ & ->).
  by vm_compute.
Defined.

Lemma hset_hget_witness :
  ∃ b : demo_bucket, demo_run = Some b ∧
    ∃ r b', hset b k_hash f_b v_1 20 = Some (r, b') ∧ hget b' k_hash f_b 60 = Some (Bulk (Some v_1)).
Proof.
  destruct demo_rep as (b & Hr & Hb). exists b. split; [done|].
  destruct (hset_hget_roundtrip b demo_state k_hash f_b v_1 20 Hb) as (r & b' & E & Hg & _).
  { right. eexists. by vm_compute. }
  exists r, b'. split; [done|]. apply Hg.
Defined.

Lemma hexpire_hpttl_witness :
  ∃ b : demo_bucket, demo_run = Some b ∧
    ∃ b', hash_field_expire b k_hash [f_a] 90 HashFieldExpireCond.Any 20 =
            Some ((IntegerArray [1%Z], false), b') ∧
          hash_field_ttl_query b' k_hash [f_a] true false 30 = Some (IntegerArray [60%Z]) ∧
          hget b' k_hash f_a 90 = Some (Bulk None).
Proof.
  destruct demo_rep as (b & Hr & Hb). exists b. split; [done|].
  destruct (hexpire_hpttl b demo_state k_hash {[ f_a := v_1; f_b := v_9 ]} f_a v_1 90 20 Hb
    ltac:(by vm_compute) ltac:(by vm_compute) ltac:(lia) ltac:(by vm_compute)) as (b' & E & Ht).
  exists b'. split; [done|]. split; [apply (Ht 30%Z); lia|apply (Ht 90%Z); lia].
Defined.

Lemma hpersist_witness :
  ∃ b : demo_bucket, demo_run = Some b ∧
    ∃ b', hash_field_persist b k_hash [f_b] 20 = Some ((IntegerArray [1%Z], false), b') ∧
          hget b' k_hash f_b 60 = Some (Bulk (Some v_9)).
Proof.
  destruct demo_rep as (b & Hr & Hb). exists b. split; [done|].
  destruct (hpersist_keeps b demo_state k_hash {[ f_a := v_1; f_b := v_9 ]} f_b v_9 50 20 Hb
    ltac:(by vm_compute) ltac:(by vm_compute) ltac:(by vm_compute) ltac:(lia)) as (b' & E & Ht).
  exists b'. split; [done|]. apply Ht.
Defined.

Lemma hincrby_witness :
  ∃ b : demo_bucket, demo_run = Some b ∧
    ∃ created b', hincrby b k_hash f_a 41 20 21 = Some ((Integer 42, created), b').
Proof.
  destruct demo_rep as (b & Hr & Hb). exists b. split; [done|].
  destruct (hincrby_exact b demo_state k_hash {[ f_a := v_1; f_b := v_9 ]} f_a v_1 1 41 20 21 Hb
    ltac:(by vm_compute) ltac:(by vm_compute) ltac:(by vm_compute) ltac:(lia)) as (c & b' & E & _).
  by exists c, b'.
Defined.

Lemma expire_ttl_witness :
  ∃ b : demo_bucket, demo_run = Some b ∧
    ∃ b', expire b k_set 80 20 = (true, b') ∧
      (∃ b2, ttl_millis b' k_set 30 = Some (50%Z, b2)) ∧
      ∃ b2, ttl_millis b' k_set 80 = Some ((-2)%Z, b2) ∧ contains_object b2 k_set = false.
Proof.
  destruct demo_rep as (b & Hr & Hb). exists b. split; [done|].
  destruct (expire_then_ttl b demo_state k_set 80 20 Hb ltac:(by vm_compute) ltac:(by vm_compute)
    ltac:(lia) ltac:(by vm_compute)) as (b' & E & Ht).
  exists b'. split; [done|]. split.
  - destruct (Ht 30%Z ltac:(lia)) as (b2 & Eb & _); [by vm_compute|]. by exists b2.
  - destruct (Ht 80%Z ltac:(lia)) as (b2 & Eb & Ec); [by vm_compute|]. by exists b2.
Defined.

Lemma delete_witness :
  ∃ b : demo_bucket, demo_run = Some b ∧
    ∃ b', delete_any b k_list = (true, b') ∧ contains_object b' k_list = false.
Proof.
  destruct demo_rep as (b & Hr & Hb). exists b. split; [done|].
  destruct (delete_forgets b demo_state k_list Hb) as (b' & E & _ & Ec & _). by exists b'.
Defined.

Lemma clone_insert_witness :
  ∃ b : demo_bucket, demo_run = Some b ∧
    ∃ v b' a', clone_value b k_hash 60 60 = Some (Some v) ∧ insert_value b f_c v = Some (true, b') ∧
      bucket_rep b' a' ∧ a_objs a' !! f_c = Some (AHash {[ f_a := v_1 ]}).
Proof.
  destruct demo_rep as (b & Hr & Hb). exists b. split; [done|].
  destruct (clone_insert_roundtrip b demo_state k_hash f_c (AHash {[ f_a := v_1; f_b := v_9 ]}) 60 Hb
    ltac:(by vm_compute) ltac:(by vm_compute)) as (v & b' & a' & E1 & E2 & E3 & E4 & _).
  exists v, b', a'. split; [done|]. split; [done|]. split; [done|]. rewrite E4. by vm_compute.
Defined.

Lemma keys_witness :
  ∃ b : demo_bucket, demo_run = Some b ∧
    ∃ ks, keys b 100 [] = Some ks ∧ k_hash ∈ ks ∧ k_list ∉ ks.
Proof.
  destruct demo_rep as (b & Hr & Hb). exists b. split; [done|].
  destruct (keys_list_visible b demo_state 100 Hb) as (ks & E & _ & Hin & _).
  exists ks. split; [done|]. by rewrite !Hin.
Defined.

Lemma list_reads_witness :
  ∃ b : demo_bucket, demo_run = Some b ∧ llen b k_list = Some (Integer 3) ∧
    lindex b k_list (-2) = Some (Bulk (Some f_b)) ∧
    lrange b k_list 1 (-1) = Some (Array [Some f_b; Some f_a]) ∧
    lpos_visit b k_list f_a (-1) None 0 = Some (Written, Some (a_lpos [f_a; f_b; f_a] f_a (-1) None 0)).
Proof.
  destruct demo_rep as (b & Hr & Hb). exists b. split; [done|].
  destruct (list_reads_answer b demo_state k_list [f_a; f_b; f_a] f_a (-2) 1 (-1) (-1) 0 None Hb
    ltac:(by vm_compute) ltac:(by vm_compute) ltac:(by vm_compute) ltac:(by vm_compute)
    ltac:(by vm_compute) ltac:(by vm_compute) ltac:(done) ltac:(done) ltac:(by vm_compute)) as (-> & -> & -> & ->).
  by vm_compute.
Defined.

Lemma zset_reads_witness :
  ∃ b : demo_bucket, demo_run = Some b ∧ zcard b k_zset = Some (Integer 2) ∧
    zrange b k_zset 0 (-1) = Some (Array [Some f_b; Some f_a]) ∧
    zrank b k_zset f_a true = Some (Integer 0) ∧
    zcount b k_zset (f64_of_Z 2) (f64_of_Z 3) = Some (Integer 1).
Proof.
  destruct demo_rep as (b & Hr & Hb). exists b. split; [done|].
  destruct (zset_reads_answer b demo_state k_zset {[ f_a := f64_of_Z 2; f_b := f64_of_Z 1 ]} f_a 0 (-1)
    (f64_of_Z 2) (f64_of_Z 3) true Hb
    ltac:(by vm_compute) ltac:(by vm_compute) ltac:(by vm_compute) ltac:(by vm_compute)
    ltac:(by vm_compute) ltac:(by vm_compute)) as (_ & -> & -> & -> & ->).
  by vm_compute.
Defined.

Lemma spop_witness :
  ∃ b : demo_bucket, demo_run = Some b ∧
    ∃ popped flag b', spop b k_set (Some 5) = Some ((Array (Some <$> popped), flag), b') ∧
      NoDup popped ∧ length popped = 2.
Proof.
  destruct demo_rep as (b & Hr & Hb). exists b. split; [done|].
  destruct (spop_takes_members b demo_state k_set {[ f_a; f_b ]} 5 Hb ltac:(by vm_compute))
    as (p & f & b' & a' & E & Hn & _ & Hl & _).
  exists p, f, b'. split; [done|]. split; [done|]. rewrite Hl. by vm_compute.
Defined.

Lemma zadd_zscore_witness :
  ∃ b : demo_bucket, demo_run = Some b ∧
    ∃ b', zadd_cond b k_zset (f64_of_Z 7) f_a false true true false true false =
            Some ((Integer 1, false), b') ∧
          zscore_value b' k_zset f_a = Some (inr (Some (f64_of_Z 7))).
Proof.
  destruct demo_rep as (b & Hr & Hb). exists b. split; [done|].
  destruct (zadd_zscore_roundtrip b demo_state k_zset {[ f_a := f64_of_Z 2; f_b := f64_of_Z 1 ]}
    (f64_of_Z 7) f_a false true true false true Hb ltac:(by vm_compute) ltac:(left; by vm_compute))
    as (b' & E & Ez & _).
  exists b'. rewrite E, Ez. by vm_compute.
Defined.

(** The sum, 3, is greater than the stored score, 2. *)
Lemma zadd_gt_incr_witness :
  ∃ b : demo_bucket, demo_run = Some b ∧ f64_lt (f64_of_Z 2) (f64_add (f64_of_Z 2) (f64_of_Z 1)) = true ∧
    ∃ b', zadd_cond b k_zset (f64_of_Z 1) f_a false false true false false true =
            Some ((Bulk None, false), b').
Proof.
  destruct demo_rep as (b & Hr & Hb). exists b. split; [done|]. split; [by vm_compute|].
  destruct (zadd_gt_incr_compares_delta b demo_state k_zset {[ f_a := f64_of_Z 2; f_b := f64_of_Z 1 ]}
    f_a (f64_of_Z 2) (f64_of_Z 1) Hb ltac:(by vm_compute) ltac:(by vm_compute) ltac:(by vm_compute)
    ltac:(by vm_compute)) as (b' & E & _).
  by exists b'.
Defined.

Lemma hexpire_duplicate_witness :
  ∃ b : demo_bucket, demo_run = Some b ∧
    ∃ flag b', hash_field_expire b k_hash [f_a; f_a] 5 HashFieldExpireCond.Any 20 =
                 Some ((IntegerArray [2%Z; 2%Z], flag), b').
Proof.
  destruct demo_rep as (b & Hr & Hb). exists b. split; [done|].
  destruct (hexpire_duplicate_past b demo_state k_hash {[ f_a := v_1; f_b := v_9 ]} f_a v_1 5 20 Hb
    ltac:(by vm_compute) ltac:(by vm_compute) ltac:(lia)) as (f & b' & E & _).
  by exists f, b'.
Defined.
