(* ===== verification/StoreProperties.v ===== *)
(** * Properties of the store

    Routed commands keep the shard counters equal to the number of stored
    objects, answer from the key space without what expired, and list it.
    Witnesses run on a new store of one shard. *)

From S2P Require Import Prelude Deps Slab ListObject Helpers F64 Types HashSet ZSet Bucket.
From S2P Require Import BucketCore BucketKeys BucketList BucketSet BucketZSet BucketHash.
From S2P Require Import BucketHashReads BucketHashTtl Store StoreOps Demo.
From S2P Require Import Waiters.

Section StoreTheorems.
Context `{Hashing} {HT : Type → Type} `{!HashTable HT} `{TableOrder} `{FloatOps}.
Context {OT : Type} `{!IndexTreeSet ZSetOrderKey zk_cmp OT}.
Abbreviation bucket := (RedisObjectBucket (HT := HT) (OT := OT)).
Abbreviation store := (RedisObjectStore (HT := HT) (OT := OT)).
Implicit Types (s : store) (a : AState) (key : Bytes) (now_ms : Z) (route : EmbeddedKeyRoute).
Implicit Types (A : list (list AState)) (As : list AState) (string_exists : bool).

(** The counter a client reads is the number of stored objects. *)
Lemma count_hint_spec s A As (sid : nat) :
  store_rep s A → A !! sid = Some As → shard_object_count_hint s sid = Some (stored As).
Proof.
  intros [Hs _] HA. destruct (Forall2_lookup_r _ _ _ _ _ Hs HA) as (sh & Hsh & [_ _ Hc]).
  unfold shard_object_count_hint. rewrite Hsh. simpl. by rewrite Hc, Z.max_l, Nat2Z.id by lia.
Qed.

Lemma put_state_lookup A As route a' :
  A !! shard_id route = Some As →
  put_state A (shard_id route) (key_hash route) a' !! shard_id route =
    Some (<[bucket_index (key_hash route) := a']> As).
Proof. intros HA. unfold put_state. by rewrite list_lookup_alter_eq, HA. Qed.

Lemma drop_expired_objs a key now_ms (k : Bytes) :
  wf_a a → k ≠ key → a_objs (a_drop_expired a key now_ms).2 !! k = a_objs a !! k.
Proof. intros Hw Hk. by apply (toggles_drop_expired a key now_ms Hw). Qed.

(** C1: a routed write, one of the 20 write commands of [WriteCommand].  On any
    store whose counters are right, the write drops what expired under the key,
    refuses a key held by a string, and otherwise does to the key's object what
    its abstract counterpart says; it never panics, no other key of the bucket
    changes, and afterwards the shard's counter is again the number of its
    objects.  The condition [counted_pre] excludes one write: HSETEX that
    creates a hash with a deadline already past ([hsetex_past_drifts] shows
    the counter one too high after it). *)
Theorem object_write_counts s A As a route key string_exists now_ms (cmd : WriteCommand) :
  store_rep s A → A !! shard_id route = Some As → As !! bucket_index (key_hash route) = Some a →
  fits (S (stored As)) → counted_pre key cmd (a_drop_expired a key now_ms).2 →
  let a1 := (a_drop_expired a key now_ms).2 in
  ∃ r s' a', object_write_routed s route key string_exists now_ms (run_write key cmd) = Some (r, s') ∧
    store_rep s' (put_state A (shard_id route) (key_hash route) a') ∧
    (if negb (a_has a1 key) && string_exists then r = WrongType ∧ a' = a1
     else ∃ flag, write_post key cmd a1 r flag a') ∧
    (∀ k, k ≠ key → a_objs a' !! k = a_objs a !! k) ∧
    shard_object_count_hint s' (shard_id route) = Some (stored (<[bucket_index (key_hash route) := a']> As)).
Proof.
  intros Hs HA Ha Hf Hpre a1.
  destruct (object_write_spec s A route key As a string_exists now_ms Hs HA Ha Hf _ _ _
    (write_command_contract key cmd) Hpre) as (r & s' & a' & Hr & Hs' & Hp). fold a1 in Hp.
  exists r, s', a'. split; [done|]. split; [done|].
  assert (wf_a a) as Hw.
  { by destruct (store_bucket s A _ _ As a Hs HA Ha) as (? & ? & _ & _ & [_ ?] & _). }
  rewrite (count_hint_spec s' _ _ _ Hs' (put_state_lookup A As route a' HA)).
  destruct (negb (a_has a1 key) && string_exists).
  - destruct Hp as [-> ->]. split; [done|]. split; [|done]. intros k Hk. by apply drop_expired_objs.
  - destruct Hp as (flag & Hp & Ht). split; [by exists flag|]. split; [|done].
    intros k Hk. rewrite (proj1 Ht k Hk). by apply drop_expired_objs.
Qed.

(** A routed creating write - LPUSH, RPUSH, SADD, ZADD, HSET - extends an
    existing object of its type, answers WRONGTYPE for another type or a
    string, and otherwise creates the object and counts it. *)
Theorem object_create_counts s A As a route key string_exists now_ms (cmd : CreateCommand) :
  store_rep s A → A !! shard_id route = Some As → As !! bucket_index (key_hash route) = Some a →
  fits (S (stored As)) → create_ok cmd → key_hash route = hash_key key →
  let a1 := create_attempt key cmd (a_drop_expired a key now_ms).2 in
  ∃ r s' a', object_create_hashed s route key string_exists now_ms
      (create_existing key cmd) (create_new key cmd) = Some (r, s') ∧
    store_rep s' (put_state A (shard_id route) (key_hash route) a') ∧
    match a1.1 with
    | Complete r0 => r = r0 ∧ a' = a1.2
    | WriteMissing =>
        if string_exists then r = WrongType ∧ a' = a1.2
        else r = created_answer cmd ∧ a_objs a' = <[key := created_value cmd]> (a_objs a1.2)
    end ∧
    shard_object_count_hint s' (shard_id route) = Some (stored (<[bucket_index (key_hash route) := a']> As)).
Proof.
  intros Hs HA Ha Hf Hok Hkh a1. destruct (create_command_contract key cmd Hok) as (K & v & Ev & Hc).
  destruct (object_create_spec s A route key As a string_exists now_ms Hs HA Ha Hf _ _ _ _ K v Hc Hkh)
    as (r & s' & a' & Hr & Hs' & Hp). fold a1 in Hp.
  exists r, s', a'. split; [done|]. split; [done|].
  rewrite (count_hint_spec s' _ _ _ Hs' (put_state_lookup A As route a' HA)). split; [|done].
  destruct a1.1; [done|]. destruct string_exists; [done|]. destruct Hp as [-> ->]. split; [done|].
  by rewrite <-Ev.
Qed.

(** C22: a routed read.  Every one of the 23 read commands answers what the
    key space without expired objects says; a key held only by a string
    answers WRONGTYPE; reading removes an expired object and counts that, and
    changes nothing else. *)
Theorem object_read_answers s A As a route key string_exists now_ms (cmd : ReadCommand) :
  store_rep s A → A !! shard_id route = Some As → As !! bucket_index (key_hash route) = Some a →
  fits (S (stored As)) → read_ok key cmd (a_after_read a key now_ms) →
  let a' := a_after_read a key now_ms in
  ∃ r s', object_read_routed s route key string_exists now_ms (run_read key cmd) = Some (r, s') ∧
    (if negb (a_has a' key) && string_exists then r = WrongType else read_post key cmd a' r) ∧
    store_rep s' (put_state A (shard_id route) (key_hash route) a') ∧
    (∀ k, k ≠ key → a_objs a' !! k = a_objs a !! k).
Proof.
  intros Hs HA Ha Hf Hok a'.
  destruct (object_read_spec s A route key As a string_exists now_ms Hs HA Ha Hf (run_read key cmd)
    (read_post key cmd a')) as (r & s' & Hr & Hs' & Hp).
  { intros b Hb. by apply read_command_runs. }
  exists r, s'. split; [done|]. split; [done|]. split; [done|]. intros k Hk. unfold a', a_after_read.
  destruct (store_bucket s A _ _ As a Hs HA Ha) as (? & ? & _ & _ & [_ Hw] & _).
  destruct (a_drop_expired a key now_ms).1; [by apply drop_expired_objs|done].
Qed.

(** Listing the store.  KEYS hands out exactly the visible keys of all
    shards, in the order a visit goes through them and the listing with types names
    them; the total is the number of stored objects, and the live count is the
    length of that list when no stored hash is empty. *)
Theorem store_listing s A now_ms :
  store_rep s A → fits (total A) →
  ∃ ks s', store_keys s now_ms = Some (ks, s') ∧ store_rep s' A ∧
    (∀ k, k ∈ ks ↔ ∃ As a, As ∈ A ∧ a ∈ As ∧ a_visible a now_ms k = true) ∧
    (∃ typed s2, store_keys_with_type s now_ms = Some (typed, s2) ∧ typed.*1 = ks) ∧
    (store_object_count s).1 = total A ∧
    store_visit_keys (λ l k, (l ++ [k], true)) s now_ms [] = Some (ks, true) ∧
    (Forall (Forall (λ a, ∀ k, a_objs a !! k ≠ Some (AHash ∅))) A →
     store_live_object_count s now_ms = Some (length ks)).
Proof.
  intros Hs Hf. destruct (store_keys_spec s A now_ms Hs Hf) as (s' & Hk & Hs').
  exists (store_all_keys now_ms s A), s'. split; [done|]. split; [done|].
  split; [intros k; by apply elem_of_store_keys|].
  split.
  { destruct (store_keys_with_type_spec s A now_ms Hs Hf) as (typed & s2 & Ht & Et & _). by exists typed, s2. }
  split; [by apply store_object_count_spec|].
  split; [|by apply store_live_object_count_spec].
  rewrite (store_visit_keys_spec _ s A now_ms [] Hs). f_equal.
  assert (∀ ks (acc : list Bytes), visit_key_iter (λ l k, (l ++ [k], true)) ks acc = (acc ++ ks, true)) as Hv;
    [|apply Hv].
  intros ks. induction ks as [|k ks IH]; intros acc; simpl; [by rewrite app_nil_r|].
  by rewrite IH, <-app_assoc.
Qed.

(** A client that scans a shard and follows the cursor to the end. *)
Fixpoint scan_all (fuel : nat) s (sid : nat) now_ms (limit cursor : Z) : option (list Bytes) :=
  match fuel with
  | 0 => None
  | S fuel =>
      '(st, next) ← scan_keys_in_shard_visit (λ l k, (l ++ [k], true)) s sid now_ms None cursor limit 0 0 [];
      match next with
      | None => Some (sc_state st)
      | Some cursor => rest ← scan_all fuel s sid now_ms limit cursor; Some (sc_state st ++ rest)
      end
  end.

Lemma scan_all_spec s A As (sid : nat) sh now_ms (limit : Z) (fuel : nat) (cursor : Z) :
  store_rep s A → shards s !! sid = Some sh → A !! sid = Some As → (1 ≤ limit)%Z →
  let ks := shard_keys now_ms (buckets sh) As in
  (Z.of_nat (length ks) ≤ u64_MAX)%Z → (0 ≤ cursor)%Z → length ks - Z.to_nat cursor < fuel →
  scan_all fuel s sid now_ms limit cursor = Some (drop (Z.to_nat cursor) ks).
Proof.
  intros Hr Hs HA Hl ks Hlen. revert cursor.
  induction fuel as [|fuel IH]; intros cursor Hc Hf; [lia|]. cbn [scan_all].
  rewrite (scan_in_shard_spec _ s A sid sh As) by done. fold ks. cbn [mbind option_bind].
  destruct (scan_page (λ l k, (l ++ [k], true)) cursor limit ks [] Hc Hl Hlen) as [Hst Hnext].
  destruct (scan_list _ cursor limit ks _) as [st next]. simpl in Hst, Hnext. subst next.
  assert (∀ l (acc : list Bytes), foldl (λ l k, l ++ [k]) acc l = acc ++ l) as Hfold.
  { intros l. induction l as [|k l IHl]; intros acc; simpl; [by rewrite app_nil_r|].
    by rewrite IHl, <-app_assoc. }
  rewrite Hfold in Hst. simpl in Hst. rewrite Hst, length_take, length_drop.
  destruct (Z.to_nat limit <=? _) eqn:E; bool_case.
  - rewrite IH by lia. simpl. f_equal. rewrite Z2Nat.inj_add by lia.
    rewrite <-drop_drop. apply take_drop.
  - rewrite take_ge; [done|]. rewrite length_drop. lia.
Qed.

(** Scanning.  Following the cursor of a shard from 0, with any page size,
    terminates and hands out the shard's visible keys one by one, exactly as
    the full listing of the shard does, across all of its buckets. *)
Theorem scan_covers s A As (sid : nat) now_ms (limit : Z) :
  store_rep s A → A !! sid = Some As → (1 ≤ limit)%Z →
  ∃ ks, keys_in_shard s sid now_ms = Some ks ∧
    (∀ k, k ∈ ks ↔ ∃ a, a ∈ As ∧ a_visible a now_ms k = true) ∧
    ((Z.of_nat (length ks) ≤ u64_MAX)%Z → scan_all (S (length ks)) s sid now_ms limit 0 = Some ks).
Proof.
  intros Hr HA Hl. destruct (Forall2_lookup_r _ _ _ _ _ (st_shards _ _ Hr) HA) as (sh & Hs & Hsh).
  exists (shard_keys now_ms (buckets sh) As). split; [by apply (keys_in_shard_spec s A)|].
  split; [intros k; apply elem_of_shard_keys, Hsh|]. intros Hlen.
  by rewrite (scan_all_spec s A As sid sh) by (done || lia).
Qed.

(** HSETEX counts.  When the key's hash is not wholly expired and a new
    key gets a deadline in the future (or none), HSETEX does what its abstract
    counterpart says and the shard's counter stays right. *)
Theorem hsetex_counts s A As a route key string_exists now_ms (clock : Z) (fvs : list (Bytes * Bytes))
    (condition : HashFieldSetCondition.t) (action : HashFieldSetExpireAction.t) :
  store_rep s A → A !! shard_id route = Some As → As !! bucket_index (key_hash route) = Some a →
  fits (S (stored As)) → hsetex_pre key action clock (a_drop_expired a key now_ms).2 →
  let a1 := (a_drop_expired a key now_ms).2 in
  ∃ r s' a', object_write_routed s route key string_exists now_ms
      (λ b : bucket, hash_field_setex b key fvs condition action clock) = Some (r, s') ∧
    store_rep s' (put_state A (shard_id route) (key_hash route) a') ∧
    (if negb (a_has a1 key) && string_exists then r = WrongType ∧ a' = a1
     else ∃ flag, ((r, flag), a') = a_hash_field_setex a1 key fvs condition action clock) ∧
    shard_object_count_hint s' (shard_id route) = Some (stored (<[bucket_index (key_hash route) := a']> As)).
Proof.
  intros Hs HA Ha Hf Hpre a1.
  destruct (object_write_spec s A route key As a string_exists now_ms Hs HA Ha Hf _ _ _
    (write_command_contract key (CmdHsetex fvs condition action clock)) (conj I Hpre)) as (r & s' & a' & Hr & Hs' & Hp). fold a1 in Hp.
  exists r, s', a'. split; [done|]. split; [done|].
  rewrite (count_hint_spec s' _ _ _ Hs' (put_state_lookup A As route a' HA)). split; [|done].
  destruct (negb (a_has a1 key) && string_exists); [done|]. destruct Hp as (flag & Hp & _). by exists flag.
Qed.

Lemma drop_absent a key now_ms :
  wf_a a → a_objs a !! key = None → a_drop_expired a key now_ms = (false, a).
Proof.
  intros Hw Hn. unfold a_drop_expired. assert (a_expired a key now_ms = false) as ->.
  { unfold a_expired. by rewrite (wf_exp_None a key Hw). }
  assert (a_get KHash a key = None) as Hg by (unfold a_get; by rewrite Hn).
  unfold a_cleanup, a_purge. rewrite Hg. case_bool_decide as E; [|done]. by rewrite Hg in E.
Qed.

(** HSETEX with a deadline in the past on an absent key answers 1, stores
    nothing, and still counts an object: the shard's counter is one more than
    the number of its objects. *)
Theorem hsetex_past_drifts s A As a route key now_ms (clock at_ms : Z) (fvs : list (Bytes * Bytes)) :
  store_rep s A → A !! shard_id route = Some As → As !! bucket_index (key_hash route) = Some a →
  fits (S (stored As)) → a_objs a !! key = None → fvs ≠ [] → (at_ms ≤ clock)%Z →
  ∃ s' b', object_write_routed s route key false now_ms
      (λ b : bucket, hash_field_setex b key fvs HashFieldSetCondition.Always
                       (HashFieldSetExpireAction.ExpireAt at_ms) clock) = Some (Integer 1, s') ∧
    get_bucket s' (shard_id route) (key_hash route) = Some b' ∧ bucket_rep b' a ∧
    shard_object_count_hint s' (shard_id route) = Some (S (stored As)).
Proof.
  intros Hs HA Ha Hf Hn Hne Hp.
  destruct (store_bucket s A _ _ As a Hs HA Ha) as (sh & b & Hsh & Hg & Hb & Hc & _).
  pose proof (drop_expired_spec b a key now_ms Hb) as (b1 & Hd & Hb1).
  rewrite (drop_absent a key now_ms (proj2 Hb) Hn) in Hd, Hb1. simpl in Hd, Hb1.
  unfold object_write_routed. rewrite Hg. cbn [mbind option_bind]. rewrite Hd. cbn [mbind option_bind note_if].
  rewrite (contains_object_spec b1 a key (proj1 Hb1)). assert (a_has a key = false) as -> by by apply a_has_None.
  cbn [negb andb].
  destruct (hash_field_setex_refines b1 a key fvs HashFieldSetCondition.Always
    (HashFieldSetExpireAction.ExpireAt at_ms) clock Hb1) as (b2 & -> & Hb2).
  rewrite (setex_past_absent a key fvs at_ms clock (proj2 Hb1) Hn Hne Hp) in *. cbn [mbind option_bind fst].
  unfold note_created. rewrite Hsh. cbn [mbind option_bind]. eexists _, b2. split; [done|].
  unfold fits in Hf. unfold get_bucket, put_bucket, shard_object_count_hint. simpl.
  rewrite list_lookup_alter_eq, list_lookup_insert_eq by (by eapply lookup_lt_Some). simpl.
  unfold get_bucket in Hg. rewrite Hsh in Hg. cbn [mbind option_bind] in Hg.
  rewrite list_lookup_insert_eq by (by eapply lookup_lt_Some). split; [done|]. split; [done|].
  rewrite Hc, wrap_i64_id by (unfold is_i64, i64_MIN, i64_MAX in *; lia). f_equal. lia.
Qed.

(** A routed visiting read, here HGET's.  It emits the live value for a
    hash that has the key, reports a string or another type as such, emits
    nothing for a missing key, and skips a shard whose counter is zero without
    changing the answer. *)
Theorem object_visit_hget s A As a route key string_exists now_ms (field : Bytes) (clock : Z) :
  store_rep s A → A !! shard_id route = Some As → As !! bucket_index (key_hash route) = Some a →
  fits (S (stored As)) →
  let a' := a_after_read a key now_ms in
  ∃ r s', object_read_hashed_visit s route key string_exists now_ms
      (λ b : bucket, hget_visit b key field clock) None = Some (r, s') ∧
    store_rep s' (put_state A (shard_id route) (key_hash route) a') ∧
    r = match a_objs a' !! key with
        | Some (AHash h) => (Written, Some (a_live a' key clock h !! field))
        | Some _ => (ReadWrongType, None)
        | None => (if string_exists then ReadWrongType else Missing, None)
        end.
Proof.
  intros Hs HA Ha Hf a'.
  destruct (object_visit_spec s A route key As a string_exists now_ms Hs HA Ha Hf
    (λ b : bucket, hget_visit b key field clock) None
    (λ r, r = a_read KHash a' key (λ h, (Written, Some (a_live a' key clock h !! field)))
                (ReadWrongType, None) (Missing, None))) as (r & s' & Hr & Hs' & Hp).
  { intros b Hb. eexists. split; [by apply hget_spec|]. unfold a_has, a_read.
    fold a'. destruct (a_objs a' !! key) as [[]|] eqn:E; done. }
  exists r, s'. split; [done|]. split; [done|]. revert Hp. fold a'. unfold a_has, a_read.
  by destruct (a_objs a' !! key) as [[]|] eqn:E.
Qed.

(** ** Reachable stores *)

(** A routed access within the limits: the shard exists, its counter has room,
    and the command's precondition holds for the key's bucket. *)
Definition in_limits s route key now_ms (pre : AState → Prop) : Prop :=
  shard_id route < length (shards s) ∧
  ∀ A As a, store_rep s A → A !! shard_id route = Some As → As !! bucket_index (key_hash route) = Some a →
    fits (S (stored As)) ∧ pre a.

Inductive store_step s : store → Prop :=
  | step_write route key string_exists now_ms (cmd : WriteCommand) r s' :
      in_limits s route key now_ms (λ a, counted_pre key cmd (a_drop_expired a key now_ms).2) →
      object_write_routed s route key string_exists now_ms (run_write key cmd) = Some (r, s') →
      store_step s s'
  | step_create route key string_exists now_ms (cmd : CreateCommand) r s' :
      in_limits s route key now_ms (λ _, create_ok cmd) → key_hash route = hash_key key →
      object_create_hashed s route key string_exists now_ms (create_existing key cmd) (create_new key cmd)
        = Some (r, s') →
      store_step s s'
  | step_read route key string_exists now_ms (cmd : ReadCommand) r s' :
      in_limits s route key now_ms (λ a, read_ok key cmd (a_after_read a key now_ms)) →
      object_read_routed s route key string_exists now_ms (run_read key cmd) = Some (r, s') →
      store_step s s'.

Lemma limits_located s A route key now_ms (pre : AState → Prop) :
  store_rep s A → in_limits s route key now_ms pre →
  ∃ As a, A !! shard_id route = Some As ∧ As !! bucket_index (key_hash route) = Some a ∧
          fits (S (stored As)) ∧ pre a.
Proof.
  intros Hs [Hlt Hl]. pose proof (st_shards _ _ Hs) as Hsh.
  destruct (lookup_lt_is_Some_2 A (shard_id route)) as [As HA]; [by rewrite <-(Forall2_length _ _ _ Hsh)|].
  destruct (Forall2_lookup_r _ _ _ _ _ Hsh HA) as (sh & _ & [_ Hlen _]).
  destruct (lookup_lt_is_Some_2 As (bucket_index (key_hash route))) as [a Ha].
  { rewrite Hlen. apply bucket_index_lt. }
  exists As, a. destruct (Hl A As a Hs HA Ha). done.
Qed.

Lemma store_step_rep s s' A : store_rep s A → store_step s s' → ∃ A', store_rep s' A'.
Proof.
  intros Hs [route key se now_ms cmd r s1 Hl Hr|route key se now_ms cmd r s1 Hl Hk Hr
    |route key se now_ms cmd r s1 Hl Hr];
    destruct (limits_located s A route key now_ms _ Hs Hl) as (As & a & HA & Ha & Hf & Hpre).
  - destruct (object_write_spec s A route key As a se now_ms Hs HA Ha Hf _ _ _
      (write_command_contract key cmd) Hpre) as (r' & s2 & a' & Hr' & Hs2 & _).
    rewrite Hr in Hr'. injection Hr' as <- <-. eauto.
  - destruct (create_command_contract key cmd Hpre) as (K & v & _ & Hc).
    destruct (object_create_spec s A route key As a se now_ms Hs HA Ha Hf _ _ _ _ K v Hc Hk)
      as (r' & s2 & a' & Hr' & Hs2 & _).
    rewrite Hr in Hr'. injection Hr' as <- <-. eauto.
  - destruct (object_read_spec s A route key As a se now_ms Hs HA Ha Hf (run_read key cmd)
      (read_post key cmd (a_after_read a key now_ms))) as (r' & s2 & Hr' & Hs2 & _).
    { intros b Hb. by apply read_command_runs. }
    rewrite Hr in Hr'. injection Hr' as <- <-. eauto.
Qed.

(** C18: the counters are exact in every store reached from a new one by any
    sequence of routed writes, creating writes and reads, but for HSETEX that
    creates a hash with a deadline already past ([counted_pre]): each shard's
    counter is the number of objects its buckets hold, and a store whose hint
    says it is empty holds nothing. *)
Theorem reachable_counts (n : nat) s :
  rtc store_step (store_new n) s →
  ∃ A, store_rep s A ∧
    ∀ (sid : nat) As, A !! sid = Some As →
      shard_object_count_hint s sid = Some (stored As) ∧ (has_objects s = false → stored As = 0).
Proof.
  intros Hr. assert (∃ A, store_rep s A) as [A Hs].
  { assert (∃ A, store_rep (store_new (HT := HT) (OT := OT) n) A) as Hnew by (eexists; apply store_new_rep).
    induction Hr as [|x y z Hxy _ IH]; [done|]. apply IH. destruct Hnew as [A HA]. by eapply store_step_rep. }
  exists A. split; [done|]. intros sid As HA. split; [by eapply count_hint_spec|]. intros Hno.
  destruct Hs as [Hsh Hh]. destruct (Forall2_lookup_r _ _ _ _ _ Hsh HA) as (sh & Hsid & [_ _ Hc]).
  destruct (decide (stored As = 0)) as [|Hpos]; [done|]. unfold has_objects in Hno.
  rewrite (Hh sh) in Hno; [done|by eapply list_elem_of_lookup_2|lia].
Qed.
End StoreTheorems.

(** ** The properties at a new store of one shard *)

Abbreviation demo_store := (store_new (HT := Concrete.LHT) (OT := list ZSetOrderKey) 1).
Definition demo_shard : list AState := replicate OBJECT_BUCKETS a_empty.
Definition demo_route (key : Bytes) : EmbeddedKeyRoute := mkRoute 0 (hash_key key).

Lemma demo_store_rep : store_rep demo_store [demo_shard].
Proof. apply (store_new_rep 1). Qed.

Lemma demo_bucket_empty (key : Bytes) : demo_shard !! bucket_index (key_hash (demo_route key)) = Some a_empty.
Proof. apply lookup_replicate. split; [done|]. apply bucket_index_lt. Qed.

Lemma demo_fits : fits (S (stored demo_shard)).
Proof. by vm_compute. Qed.

Lemma object_write_witness :
  ∃ r s', object_write_routed demo_store (demo_route k_hash) k_hash false 10
            (run_write k_hash (CmdHset f_a v_1 10)) = Some (r, s') ∧
          shard_object_count_hint s' 0 = Some 1.
Proof.
  destruct (object_write_counts demo_store [demo_shard] demo_shard a_empty (demo_route k_hash) k_hash false 10
    (CmdHset f_a v_1 10) demo_store_rep eq_refl (demo_bucket_empty k_hash) demo_fits (conj I I))
    as (r & s' & a' & Hr & _ & Hp & _ & Hc).
  exists r, s'. split; [done|]. refine (eq_trans Hc _). destruct Hp as (flag & Hp).
  apply (f_equal snd) in Hp. cbn [snd] in Hp. rewrite Hp. by vm_compute.
Defined.

Lemma object_create_witness :
  ∃ s', object_create_hashed demo_store (demo_route k_list) k_list false 10
          (create_existing k_list (CreatePush [f_a; f_b] true)) (create_new k_list (CreatePush [f_a; f_b] true)) =
          Some (Integer 2, s').
Proof.
  destruct (object_create_counts demo_store [demo_shard] demo_shard a_empty (demo_route k_list) k_list false 10
    (CreatePush [f_a; f_b] true) demo_store_rep eq_refl (demo_bucket_empty k_list) demo_fits I eq_refl)
    as (r & s' & a' & Hr & _ & Hp & _).
  exists s'. rewrite Hr. destruct Hp as [-> _]. done.
Defined.

Lemma empty_key_fits (key : Bytes) : key_fits key a_empty.
Proof. split_and!; intros ? E; apply a_get_Some in E; done. Qed.

Lemma object_read_witness :
  ∃ s', object_read_routed demo_store (demo_route k_list) k_list true 10 (run_read k_list ReadLlen) =
          Some (WrongType, s').
Proof.
  destruct (object_read_answers demo_store [demo_shard] demo_shard a_empty (demo_route k_list) k_list true 10
    ReadLlen demo_store_rep eq_refl (demo_bucket_empty k_list) demo_fits (conj (empty_key_fits k_list) I))
    as (r & s' & Hr & Hp & _).
  exists s'. rewrite Hr. by rewrite Hp.
Defined.

(** A store whose first bucket holds the key space of [Demo]. *)
Definition demo_full (b : demo_bucket) : RedisObjectStore :=
  mkStore [mkShard (<[0 := b]> (replicate OBJECT_BUCKETS bucket_default)) 4] true.
Definition demo_full_shard : list AState := <[0 := demo_state]> demo_shard.

Lemma demo_full_rep b : bucket_rep b demo_state → store_rep (demo_full b) [demo_full_shard].
Proof.
  intros Hb. split; [|done]. apply Forall2_cons_2; [|done]. split; [|by vm_compute|by vm_compute].
  apply Forall2_insert; [|done]. apply Forall2_replicate. split; [apply phys_default|apply wf_a_empty].
Qed.

Lemma store_listing_witness :
  ∃ (b : demo_bucket) ks s', demo_run = Some b ∧ store_keys (demo_full b) 60 = Some (ks, s') ∧ k_hash ∈ ks ∧
    (store_object_count (demo_full b)).1 = 4.
Proof.
  destruct demo_rep as (b & Hr & Hb).
  destruct (store_listing (demo_full b) [demo_full_shard] 60 (demo_full_rep b Hb) ltac:(by vm_compute))
    as (ks & s' & Hk & _ & Hin & _ & Ht & _).
  exists b, ks, s'. split; [done|]. split; [done|]. split; [|by rewrite Ht].
  apply Hin. exists demo_full_shard, demo_state. split; [by left|]. split; [by left|]. by vm_compute.
Defined.

Lemma scan_witness :
  ∃ (b : demo_bucket) ks, demo_run = Some b ∧ keys_in_shard (demo_full b) 0 120 = Some ks ∧ k_set ∈ ks ∧
    k_list ∉ ks.
Proof.
  destruct demo_rep as (b & Hr & Hb).
  destruct (scan_covers (demo_full b) [demo_full_shard] demo_full_shard 0 120 2 (demo_full_rep b Hb) eq_refl
    ltac:(lia)) as (ks & Hk & Hin & _).
  exists b, ks. split; [done|]. split; [done|]. rewrite !Hin. split.
  - exists demo_state. split; [by left|]. by vm_compute.
  - intros (a & Ha & Hv). apply list_elem_of_lookup in Ha as [i Hi].
    apply list_lookup_insert_Some in Hi as [(_ & <- & _)|[_ [-> _]%lookup_replicate]]; by vm_compute in Hv.
Defined.

Lemma hsetex_witness :
  ∃ r s', object_write_routed demo_store (demo_route k_hash) k_hash false 10
            (λ b, hash_field_setex b k_hash [(f_a, v_1)] HashFieldSetCondition.Always
                    (HashFieldSetExpireAction.ExpireAt 50) 10) = Some (r, s') ∧
          shard_object_count_hint s' 0 = Some 1.
Proof.
  destruct (hsetex_counts demo_store [demo_shard] demo_shard a_empty (demo_route k_hash) k_hash false 10 10
    [(f_a, v_1)] HashFieldSetCondition.Always (HashFieldSetExpireAction.ExpireAt 50)
    demo_store_rep eq_refl (demo_bucket_empty k_hash) demo_fits ltac:(by vm_compute))
    as (r & s' & a' & Hr & _ & Hp & Hc).
  exists r, s'. split; [done|]. refine (eq_trans Hc _). destruct Hp as (flag & Hp).
  apply (f_equal snd) in Hp. cbn [snd] in Hp. rewrite Hp. by vm_compute.
Defined.

Lemma hsetex_past_witness :
  ∃ s', object_write_routed demo_store (demo_route k_hash) k_hash false 10
          (λ b, hash_field_setex b k_hash [(f_a, v_1)] HashFieldSetCondition.Always
                  (HashFieldSetExpireAction.ExpireAt 5) 10) = Some (Integer 1, s') ∧
        shard_object_count_hint s' 0 = Some 1.
Proof.
  destruct (hsetex_past_drifts demo_store [demo_shard] demo_shard a_empty (demo_route k_hash) k_hash 10 10 5
    [(f_a, v_1)] demo_store_rep eq_refl (demo_bucket_empty k_hash) demo_fits eq_refl ltac:(done) ltac:(lia))
    as (s' & b' & Hr & _ & _ & Hc).
  exists s'. split; [done|]. refine (eq_trans Hc _). by vm_compute.
Defined.

Lemma object_visit_witness :
  ∃ s', object_read_hashed_visit demo_store (demo_route k_hash) k_hash false 10
          (λ b, hget_visit b k_hash f_a 10) None = Some ((Missing, None), s').
Proof.
  destruct (object_visit_hget demo_store [demo_shard] demo_shard a_empty (demo_route k_hash) k_hash false 10 f_a 10
    demo_store_rep eq_refl (demo_bucket_empty k_hash) demo_fits) as (r & s' & Hr & _ & Hp).
  exists s'. rewrite Hr. by rewrite Hp.
Defined.

(** Any shard of the new store is empty. *)
Lemma demo_limits (key : Bytes) (pre : AState → Prop) :
  (∀ a, pre a) → in_limits demo_store (demo_route key) key 10 pre.
Proof.
  intros Hpre. split; [simpl; lia|]. intros A As a Hs HA _. split; [|done].
  pose proof (count_hint_spec _ _ _ _ Hs HA) as Hc. pose proof (count_hint_spec _ _ _ 0 demo_store_rep eq_refl) as H0.
  simpl in Hc, H0. rewrite H0 in Hc. injection Hc as <-. apply demo_fits.
Qed.

Lemma reachable_witness :
  ∃ s' A As, object_create_hashed demo_store (demo_route k_set) k_set false 10
      (create_existing k_set (CreateSadd [f_a])) (create_new k_set (CreateSadd [f_a])) = Some (Integer 1, s') ∧
    store_rep s' A ∧ A !! 0 = Some As ∧ shard_object_count_hint s' 0 = Some (stored As).
Proof.
  destruct (create_command_contract k_set (CreateSadd [f_a]) I) as (K & v & _ & Hc).
  destruct (object_create_spec demo_store [demo_shard] (demo_route k_set) k_set demo_shard a_empty false 10
    demo_store_rep eq_refl (demo_bucket_empty k_set) demo_fits _ _ _ _ K v Hc eq_refl)
    as (r & s' & a' & Hr & Hs' & -> & _).
  destruct (reachable_counts 1 s') as (A & HA & Hsid).
  { apply rtc_once. eapply (step_create _ (demo_route k_set) k_set false 10 (CreateSadd [f_a]));
      [by apply demo_limits|done|exact Hr]. }
  destruct (lookup_lt_is_Some_2 A 0) as [As HAs].
  { rewrite <-(Forall2_length _ _ _ (st_shards _ _ HA)), (Forall2_length _ _ _ (st_shards _ _ Hs')). simpl. lia. }
  exists s', A, As. split; [exact Hr|]. split; [done|]. split; [done|]. by apply Hsid.
Defined.

(** * Waiters

    The interleavings of waiters and notifiers of [Waiters].  Witnesses follow
    one waiter that blocks and one notifier that wakes it. *)

(** C36: no wake-up is lost.  In every reachable state in which nobody is
    inside the critical section, a thread that is blocked on the condition
    variable waits for a generation that has not changed since it looked: the
    change it waits for has not happened yet. *)
Theorem no_lost_wakeup st t (o : Z) (d : bool) :
  reachable st → lock st = None → pcs st !! t = Some (WBlocked o d) → generation st = o.
Proof.
  intros Hr Hl Ht. pose proof (reachable_inv st Hr) as Hi.
  destruct (decide (generation st = o)) as [|Hne]; [done|].
  destruct (inv_blocked st Hi t o d Ht Hne) as (n & pc & Hn & Hw).
  assert (holds pc = true) as Hh by by destruct pc.
  pose proof (inv_lock st Hi n pc Hn Hh). congruence.
Qed.

(** A notification reaches everybody.  When a notifier finishes - also
    when it skips the wake-up because the waiter counter it loaded is zero -
    no thread is left blocked, and the counter is exactly the number of threads
    between registering and leaving. *)
Theorem notification_wakes_all st st' n :
  reachable st → step st st' → (∃ b, pcs st !! n = Some (NNotify b)) → pcs st' !! n = Some NDone →
  (∀ t o d, pcs st' !! t ≠ Some (WBlocked o d)) ∧ waiter_count st' = count (pcs st').
Proof.
  intros Hr Hst Hn Hd. pose proof (reachable_inv st Hr) as Hi. split; [by eapply notify_wakes|].
  apply inv_count. by eapply inv_step.
Qed.

(** What a wait reports.  A waiter leaves with true only when, holding the
    mutex, it saw a generation other than the one it observed, and with false
    only at its deadline with the generation unchanged; and at most one thread
    is inside the critical section when it decides. *)
Theorem wait_reports_change st st' t (r : bool) :
  reachable st → step st st' → pcs st !! t ≠ Some (WExit r) → pcs st' !! t = Some (WExit r) →
  (∃ o d, pcs st !! t = Some (WHeld o d) ∧ r = negb (bool_decide (generation st = o)) ∧ (r = false → d = true)) ∧
  (∀ u q, pcs st !! u = Some q → holds q = true → u = t).
Proof.
  intros Hr Hst Hn Hn'. destruct (wait_result st st' t r Hst Hn Hn') as (o & d & Ht & Hx).
  split; [by exists o, d|]. intros u q Hu Hq.
  by apply (holder_alone st t (WHeld o d) u q (reachable_inv st Hr) Ht eq_refl Hu Hq).
Qed.

(** ** One waiter and one notifier *)

Definition w0 : Shared := mkShared 0 0 None {[ 0 := WEnter 0 false; 1 := NLock ]}.
Definition w1 : Shared := set_pc (set_waiters w0 1) 0 (WLock 0 false).
Definition w2 : Shared := set_pc (set_lock w1 (Some 0)) 0 (WHeld 0 false).
Definition w3 : Shared := set_pc (set_lock w2 None) 0 (WBlocked 0 false).
Definition w4 : Shared := set_pc (set_generation (set_lock w3 (Some 1)) 1) 1 NHeld.
Definition w5 : Shared := set_pc w4 1 (NNotify true).
Definition w6 : Shared := set_pc (set_lock (notify_all w5) None) 1 NDone.
Definition w7 : Shared := set_pc (set_lock w6 (Some 0)) 0 (WHeld 0 false).
Definition w8 : Shared := set_pc (set_lock w7 None) 0 (WExit true).

Lemma w3_reachable : reachable w3.
Proof.
  apply (reach_step w2); [|by apply (step_block w2 0 0 false)].
  apply (reach_step w1); [|by apply (step_acquire w1 0 0 false)].
  apply (reach_step w0); [|by apply (step_register w0 0 0 false)].
  apply reach_init. split; [done|]. split; [done|]. intros t pc.
  unfold w0. simpl. rewrite lookup_insert_Some, lookup_singleton_Some. naive_solver.
Qed.

Lemma w5_reachable : reachable w5.
Proof.
  apply (reach_step w4); [|by apply (step_notify_load w4 1)].
  apply (reach_step w3); [apply w3_reachable|]. by apply (step_notify_acquire w3 1).
Qed.

Lemma w7_reachable : reachable w7.
Proof.
  apply (reach_step w6); [|by apply (step_acquire w6 0 0 false)].
  apply (reach_step w5); [apply w5_reachable|]. by apply (step_notify_all w5 1).
Qed.

Lemma no_lost_wakeup_witness : reachable w3 ∧ generation w3 = 0%Z.
Proof. split; [exact w3_reachable|]. exact (no_lost_wakeup w3 0 0 false w3_reachable eq_refl eq_refl). Defined.

Lemma notification_witness :
  pcs w5 !! 0 = Some (WBlocked 0 false) ∧ pcs w6 !! 0 ≠ Some (WBlocked 0 false).
Proof.
  split; [done|].
  apply (notification_wakes_all w5 w6 1 w5_reachable (step_notify_all w5 1 eq_refl)
    (ex_intro _ true eq_refl) eq_refl).
Defined.

Lemma wait_reports_witness :
  ∃ o d, pcs w7 !! 0 = Some (WHeld o d) ∧ true = negb (bool_decide (generation w7 = o)) ∧ (true = false → d = true).
Proof.
  apply (wait_reports_change w7 w8 0 true w7_reachable
    (step_changed w7 0 0 false eq_refl ltac:(done)) ltac:(done) eq_refl).
Defined.
