(* ===== verification/ProtocolProperties.v ===== *)
(** * Properties of the wire protocols and of routing

    The RESP codec and its command decoders, the native encoding of Redis
    answers against the client's decoder, and the routes client and server
    compute. *)

From S2P Require Import Prelude Deps Helpers F64 Codec Routing FastKinds Resp RespProofs RespCommands Native.

(** ** RESP *)

(** C16: decoding inverts encoding.  A well-typed frame, nested at most 128
    deep, is read back from its encoding exactly, whatever follows it in the
    buffer, and consumes exactly its own bytes. *)
Theorem resp_roundtrip f rest :
  frame_ok true f = true → fdepth f ≤ RESP_MAX_NESTING_DEPTH →
  (Z.of_nat (length (encode f ++ rest)) ≤ i64_MAX)%Z →
  decode (encode f ++ rest) = Done (f, length (encode f)).
Proof.
  intros Hok Hd Hl. rewrite decode_encode by done. unfold decoded.
  by rewrite (proj2 (Nat.leb_le _ _)).
Qed.

(** A frame nested deeper than the limit is refused. *)
Theorem resp_too_deep f rest :
  frame_ok true f = true → RESP_MAX_NESTING_DEPTH < fdepth f →
  (Z.of_nat (length (encode f ++ rest)) ≤ i64_MAX)%Z →
  decode (encode f ++ rest) = Err NestingTooDeep.
Proof.
  intros Hok Hd Hl. rewrite decode_encode by done. unfold decoded.
  by rewrite (proj2 (Nat.leb_gt _ _)).
Qed.

(** C17: the decoder on arbitrary input.  It never panics; an answer consumes at
    least three bytes and at most the buffer; and an answer or an error is
    final: more input behind the buffer changes nothing, only "incomplete" can
    turn into something else. *)
Theorem resp_decode_stable b rest :
  decode b ≠ Panic ∧
  (∀ f n, decode b = Done (f, n) → 3 ≤ n ≤ length b) ∧
  (decode b ≠ Incomplete → decode (b ++ rest) = decode b).
Proof.
  destruct (steady_decode b) as [Hs Hp Hm]. split; [exact Hs|]. split.
  - intros f n Hd. destruct (Hp _ Hd) as (? & ? & _). lia.
  - intros Hi. by destruct (Hm rest) as [?|<-].
Qed.

(** What the decoder accepts is well typed: text is UTF-8, lines have no
    line break, integers fit, doubles and big numbers match their grammar,
    containers and nesting are within the limits. *)
Theorem resp_decode_typed b f n :
  decode b = Done (f, n) → frame_ok false f = true ∧ fdepth f ≤ RESP_MAX_NESTING_DEPTH.
Proof. intros Hd. destruct (steady_post _ _ _ (steady_decode b) _ Hd) as (_ & _ & ? & ?). by split. Qed.

(** A frame that has not been received completely is waited for: every
    proper prefix of an encoding is incomplete, never an answer or an error. *)
Theorem resp_prefix_incomplete f p q :
  frame_ok true f = true → fdepth f ≤ RESP_MAX_NESTING_DEPTH →
  (Z.of_nat (length (encode f)) ≤ i64_MAX)%Z →
  encode f = p ++ q → q ≠ [] → decode p = Incomplete.
Proof.
  intros Hok Hd Hl Hpq Hq. pose proof (steady_decode p) as [_ Hpost Hm].
  destruct (Hm q) as [?|E]; [done|]. exfalso. rewrite <-Hpq in E.
  rewrite <-(app_nil_r (encode f)), decode_encode in E by (rewrite ?app_nil_r; done).
  unfold decoded in E. rewrite (proj2 (Nat.leb_le _ _)) in E by done.
  destruct (Hpost _ E) as (_ & Hn & _). rewrite Hpq, length_app in Hn.
  destruct q; [done|]. simpl in Hn. lia.
Qed.

(** The two command decoders are one.  Decoding a command to byte spans and
    reading the spans from the buffer gives what the owning decoder gives, with
    the same consumption, incompleteness and errors, on every buffer. *)
Theorem command_spans_agree b :
  decode_command b = borrow_command b <$> decode_command_spans b.
Proof. apply borrow_decode. Qed.

(** The command decoder agrees with the frame decoder.  A buffer that holds
    an array of texts is decoded to the same command by the direct decoder as
    through the frame. *)
Theorem command_decoder_agrees b l n texts :
  decode b = Done (Array l, n) → map text_of l = map Some texts →
  decode_command b = Done (mkCommandFrame texts, n) ∧ as_command (Array l) = Done (mkCommandFrame texts).
Proof. intros Hd Ht. split; [by eapply decode_command_frame|by apply as_command_texts]. Qed.

(** The smallest integer does not survive: the server prints it and its own
    decoder refuses the text, because digits are accumulated as a positive
    number before the sign is applied. *)
Theorem resp_min_integer rest :
  decode (encode (Integer i64_MIN) ++ rest) = Err IntegerOverflow.
Proof.
  assert (decode (encode (Integer i64_MIN)) = Err IntegerOverflow) as E by (by vm_compute).
  destruct (steady_more _ _ _ (steady_decode (encode (Integer i64_MIN))) rest) as [Hi|<-]; [|done].
  by rewrite E in Hi.
Qed.

(** ** The native encoding of Redis answers *)

(** The client reads what the server sends.  Whatever answer the server
    manages to encode natively, the client's decoder turns it into the
    corresponding response, an error answer into an error. *)
Theorem native_roundtrip `{FloatOps} f body :
  (∀ s v, f64_parse s = Some v → f64_valid v) →
  ints_typed f = true → encode_native_redis_frame f = Done body →
  Client.decode body = client_result f.
Proof. intros Hf. by apply native_decode_encode. Qed.

(** ** Routing *)

(** C35: client and server agree.  For every shard count the server accepts and
    every route mode, the client's own routing functions and the server's give
    a key the same hash and the same shard, and the shard is the one the mode
    means ([routed]): the top bits of the low 57 bits of the hash of the key,
    of the hash of the part before the last ":c:" of a session key, or the
    shard a slot key names.  The client's tag is the top byte of the hash, and
    the port the client connects to is the one of that shard. *)
Theorem client_server_route `{Hashing} mode (k : Z) r key (base : Z) :
  (0 ≤ k < 57)%Z → Client.new (2 ^ k) mode = Some r → all_bytes key →
  let c := Client.route_key r key in
  let s := compute_key_route (server_mode mode) (shift_for (2 ^ k)) key in
  Client.key_hash c = route_key_hash s ∧ Client.shard_id c = route_shard_id s ∧
  routed (server_mode mode) k key (Client.shard_id c) ∧
  Client.key_tag c = (hash_key key / 2 ^ 56)%Z ∧
  ((0 ≤ base)%Z → (base + 2 ^ k ≤ 65536)%Z →
   Client.shard_port r base (Client.shard_id c) = Some (base + route_shard_id s)%Z).
Proof.
  intros Hk Hr Hb c s. destruct (client_routes mode k r key Hk Hr) as (_ & Ht & Hc).
  destruct (client_route_agrees mode (2 ^ k) r key ltac:(by exists k) Hr) as [Eh Es].
  split_and!; try done. intros H0 Hp. unfold c. rewrite Es.
  pose proof (compute_key_route_lt (server_mode mode) k key Hk Hb) as Hl.
  unfold s. rewrite shift_for_pow2 in * by lia.
  assert (Client.shard_count r = 2 ^ k)%Z as En by (unfold Client.new in Hr; case_match; by simplify_eq).
  apply client_port; by rewrite ?En.
Qed.

(** A route names an existing shard, in every mode; the synthetic hash made
    for a shard is routed to that shard; and where the key hash alone may be
    used for routing it gives the shard of the full computation. *)
Theorem routes_in_range `{Hashing} mode (k : Z) key (s : Z) :
  (0 ≤ k < 57)%Z → all_bytes key → (0 ≤ s < 2 ^ k)%Z →
  (0 ≤ route_shard_id (compute_key_route mode (shift_for (2 ^ k)) key) < 2 ^ k)%Z ∧
  stripe_index (route_hash_for_shard s (shift_for (2 ^ k))) (shift_for (2 ^ k)) = s ∧
  (can_route_with_key_hash mode (2 ^ k) key = true →
   route_shard_id (compute_key_route mode (shift_for (2 ^ k)) key) =
   stripe_index (hash_key key) (shift_for (2 ^ k))).
Proof.
  intros Hk Hb Hs. rewrite shift_for_pow2 by lia.
  split; [by apply compute_key_route_lt|]. split; [by apply stripe_of_route_hash|]. by apply key_hash_route.
Qed.

(** The chunks of a session stay together.  In session mode every key
    "s:session:c:chunk" is on the shard of the session, whatever the chunk. *)
Theorem session_chunks_together `{Hashing} session chunk (shift : Z) :
  no_separator chunk →
  route_shard_id (compute_key_route SessionPrefix shift ([115; 58]%Z ++ session ++ CHUNK_SEP ++ chunk)) =
  compute_session_shard shift ([115; 58]%Z ++ session).
Proof.
  intros Hc. unfold compute_key_route, compute_session_shard. cbn [route_shard_id].
  by rewrite session_prefix_of.
Qed.

(** ** Error text is sent as it is *)

(** An error message with a line break ends early on the wire, and its rest is
    read as a frame of its own. *)
Theorem resp_error_splits :
  let m := [111; 110; 101; 13; 10; 43; 79; 75]%Z in
  decode (encode (Error m)) = Done (Error [111; 110; 101]%Z, 6) ∧
  decode (drop 6 (encode (Error m))) = Done (SimpleString [79; 75]%Z, 5).
Proof. by vm_compute. Qed.

(** ** Witnesses *)

Definition demo_frame : Frame :=
  Array [BlobString [107]%Z; Integer (-5)%Z; Map [(SimpleString [97]%Z, Null)]; Boolean true].

Lemma resp_roundtrip_witness :
  decode (encode demo_frame ++ [43; 79]%Z) = Done (demo_frame, length (encode demo_frame)).
Proof. apply resp_roundtrip; [done|vm_compute; lia|vm_compute; done]. Defined.

(** 129 arrays inside an array. *)
Fixpoint nested (n : nat) : Frame := match n with O => Null | S n' => Array [nested n'] end.

Lemma resp_too_deep_witness : decode (encode (nested 129) ++ []) = Err NestingTooDeep.
Proof. apply resp_too_deep; [by vm_compute|apply Nat.ltb_lt; by vm_compute|apply Z.leb_le; by vm_compute]. Defined.

Lemma resp_decode_stable_witness :
  decode [58; 55; 13; 10]%Z = Done (Integer 7, 4) ∧
  decode ([58; 55; 13; 10]%Z ++ [0]%Z) = decode [58; 55; 13; 10]%Z.
Proof. split; [by vm_compute|]. by apply (resp_decode_stable [58; 55; 13; 10]%Z [0]%Z). Defined.

Lemma resp_decode_typed_witness : frame_ok false (Integer 7) = true ∧ fdepth (Integer 7) ≤ 128.
Proof. apply (resp_decode_typed [58; 55; 13; 10]%Z (Integer 7) 4). by vm_compute. Defined.

Lemma resp_prefix_witness : decode (take 9 (encode demo_frame)) = Incomplete.
Proof.
  apply (resp_prefix_incomplete demo_frame _ (drop 9 (encode demo_frame)));
    [done|vm_compute; lia|by vm_compute|by vm_compute|by vm_compute].
Defined.

(** [*2 $3 GET $1 k]. *)
Definition demo_command : Bytes :=
  [42; 50; 13; 10; 36; 51; 13; 10; 71; 69; 84; 13; 10; 36; 49; 13; 10; 107; 13; 10]%Z.

Lemma command_decoder_witness :
  decode_command demo_command = Done (mkCommandFrame [[71; 69; 84]; [107]]%Z, 20) ∧
  as_command (Array [BlobString [71; 69; 84]; BlobString [107]]%Z) = Done (mkCommandFrame [[71; 69; 84]; [107]]%Z).
Proof. apply command_decoder_agrees; by vm_compute. Defined.

(** A parser that knows one number. *)
Definition one_float : FloatOps := {|
  f64_to_string _ := [49]%Z;
  f64_parse text := if bytes_eqb text [49]%Z then Some 4607182418800017408%Z else None;
|}.

Lemma native_roundtrip_witness :
  ∃ body, @encode_native_redis_frame one_float demo_frame = Done body ∧
          Client.decode body = @client_result one_float demo_frame.
Proof.
  eexists. split; [by vm_compute|]. apply (@native_roundtrip one_float); [|by vm_compute|by vm_compute].
  intros s v. cbn. destruct (bytes_eqb s [49]%Z); [|done]. intros [= <-]. split; by vm_compute.
Defined.

#[local] Existing Instance Concrete.hashing.

(** "s:a:c:1" goes where "s:a" goes. *)
Lemma client_server_witness :
  let key := text "s:a:c:1" in
  ∃ r, Client.new 8 Client.SessionPrefix = Some r ∧
       Client.shard_id (Client.route_key r key) = route_shard_id (compute_key_route SessionPrefix (shift_for 8) key) ∧
       Client.shard_id (Client.route_key r key) = stripe_spec (hash_key (text "s:a")) 3 ∧
       Client.shard_port r 7000 (Client.shard_id (Client.route_key r key)) =
         Some (7000 + stripe_spec (hash_key (text "s:a")) 3)%Z.
Proof.
  intros key. exists (Client.mkRouter 8 61 Client.SessionPrefix). split; [by vm_compute|].
  destruct (client_server_route Client.SessionPrefix 3 (Client.mkRouter 8 61 Client.SessionPrefix) key 7000)
    as (_ & Es & _ & _ & Hp); [lia|by vm_compute|apply text_bytes|].
  split; [exact Es|]. split; [by vm_compute|]. rewrite Hp by lia. by vm_compute.
Defined.

Lemma routes_in_range_witness :
  (0 ≤ route_shard_id (compute_key_route FullKey (shift_for (2 ^ 3)) [104]%Z) < 2 ^ 3)%Z.
Proof.
  apply (routes_in_range FullKey 3 [104]%Z 5); [lia| |lia]. repeat constructor; unfold is_byte; lia.
Defined.

Lemma session_chunks_witness :
  route_shard_id (compute_key_route SessionPrefix (shift_for 8) ([115; 58]%Z ++ [97]%Z ++ CHUNK_SEP ++ [49]%Z)) =
  compute_session_shard (shift_for 8) ([115; 58]%Z ++ [97]%Z).
Proof.
  apply session_chunks_together. intros i. do 4 (destruct i as [|i]; [by vm_compute|]). by vm_compute.
Defined.
