(* ===== verification/FastProperties.v ===== *)
(** * Properties of the fast protocol and its client

    The codec of [protocol/fast.rs], its command tables and routing keys, and
    the requests and tables of the Rust client against them. *)

From S2P Require Import Prelude Helpers F64 Deps Codec Resp Routing FastKinds Fast FastProofs FastClient.

(** C30: a request survives the wire.  A well-formed request is decoded from its
    encoding exactly, whatever follows, consuming exactly its bytes; and no
    proper prefix of the encoding is mistaken for anything but an incomplete
    request. *)
Theorem fast_request_roundtrip r :
  request_ok r →
  (∀ rest, decode_request (encode_request r ++ rest) = Done (r, length (encode_request r))) ∧
  (∀ p q, encode_request r = p ++ q → q ≠ [] → decode_request p = Incomplete).
Proof.
  intros Hok. split; [intros rest; by apply decode_encode_request|]. intros p q E Hq.
  pose proof (decode_encode_request r [] Hok) as Hd. rewrite app_nil_r, E in Hd.
  destruct (decode_request p) as [| |e|[r' n]] eqn:Hp; [| done| |]; exfalso;
    pose proof (frame_app FAST_REQUEST_MAGIC RequestMagic RequestVersion request_head p q) as Hs;
    rewrite <-!decode_request_eq, Hp in Hs; specialize (Hs ltac:(done)); rewrite Hd in Hs; try done.
  injection Hs as <- <-. rewrite decode_request_eq in Hp. apply frame_consumed in Hp.
  rewrite length_app in Hp. destruct q; [done|]. cbn [length] in Hp. lia.
Qed.

(** C31: the request decoder on arbitrary bytes.  It never panics; what it
    accepts is well formed (integers of their width, bounded collections, Redis
    kinds only under the Redis flag), is consumed completely and would fit a
    frame again; and an answer or error does not change when more input
    arrives. *)
Theorem fast_request_safe b rest :
  all_bytes b →
  decode_request b ≠ Panic ∧
  (∀ r n, decode_request b = Done (r, n) → 8 ≤ n ≤ length b ∧ request_ok r) ∧
  (decode_request b ≠ Incomplete → decode_request (b ++ rest) = decode_request b).
Proof.
  intros Hb. pose proof (decode_request_spec b Hb) as Hs.
  split; [intros E; by rewrite E in Hs|]. split; [intros r n E; by rewrite E in Hs|].
  rewrite !decode_request_eq. apply frame_app.
Qed.

(** Responses.  Every response that fits a frame is read back exactly; on
    arbitrary bytes the decoder never panics, accepts only well-formed
    responses and is not changed by further input. *)
Theorem fast_response_codec r b rest :
  response_ok r → all_bytes b →
  decode_response (encode_response r ++ rest) = Done (r, length (encode_response r)) ∧
  decode_response b ≠ Panic ∧
  (∀ r' n, decode_response b = Done (r', n) → 8 ≤ n ≤ length b ∧ response_ok r') ∧
  (decode_response b ≠ Incomplete → decode_response (b ++ rest) = decode_response b).
Proof.
  intros Hr Hb. pose proof (decode_response_spec b Hb) as Hs.
  split; [by apply decode_encode_response|].
  split; [intros E; by rewrite E in Hs|]. split; [intros r' n E; by rewrite E in Hs|].
  rewrite !decode_response_eq. apply frame_app.
Qed.

(** The command tables agree.  Opcodes and kinds correspond one to one, the
    name table lists exactly the kinds that have a name, and a name is found in
    any letter case and stands for one kind. *)
Theorem opcode_tables_agree kind value x name :
  (from_opcode value = Some kind ↔ value = opcode kind) ∧
  (redis_name kind = Some name ↔ (name, kind) ∈ FAST_REDIS_COMMAND_OPCODES) ∧
  (from_redis_name x = Some kind ↔
   ∃ n, redis_name kind = Some n ∧ eq_ignore_ascii_case x n = true).
Proof.
  split; [|split; [apply redis_name_table|apply from_redis_name_spec]].
  split; [intros <-%opcode_from_opcode; done|intros ->; apply from_opcode_opcode].
Qed.

(** C32: the client's requests are understood.  Whatever command the client
    sends (the key commands, RESP and Redis commands by opcode or by name, PING
    and the vector commands), with or without a route, executed or pipelined,
    with at most 65536 arguments and a body below 4 GiB, the server decodes the
    bytes to that command with those arguments and routing fields and consumes
    exactly them.  The client itself bounds the number of arguments only for
    commands by name ([native_command]). *)
Theorem client_request_decoded `{Hashing} c r bytes rest :
  client_command c r → typed_request r → (Z.of_nat (request_items r) ≤ 65536)%Z → sends c bytes →
  decode_request (bytes ++ rest) = Done (r, length bytes).
Proof. apply client_decoded. Qed.

(** A Redis command with more than 65536 arguments is sent by the client all
    the same, and the server refuses it as malformed. *)
Theorem too_many_arguments_refused `{Hashing} kind args bytes :
  (65536 < Z.of_nat (length args) ≤ u32_MAX)%Z → execute_bytes (redis_command kind None args) = Some bytes →
  decode_request bytes = Err (CountExceeds "fast Redis command arguments").
Proof.
  intros Hn He. destruct (client_kind_served kind) as (sk & Hk & Hname & _).
  destruct (execute_stands_for _ _ bytes (client_stands_for _ _ (client_redis kind sk None args Hk)) He) as [-> Hl].
  rewrite <-(app_nil_r (encode_request _)), decode_frame by done.
  assert (encode_request_body (routed_request None None (FRedisCommand sk args)) = encode_compact_len_prefixed_list args ++ []) as Eb
    by by rewrite app_nil_r.
  rewrite Eb in *. pose proof (compact_list_refused args "fast Redis command arguments" [] Hn Hl) as Hr.
  assert (sk ≠ KNativeRedisCommand) as Hs by (intros ->; done).
  unfold take_request. cbn [req_command routed_request command_kind]. change (request_flags _) with FAST_FLAG_REDIS_COMMAND_ARGS.
  unfold take_redis_command. rewrite (bool_decide_eq_false_2 _ Hs), Hname.
  change (negb (Z.land FAST_FLAG_REDIS_COMMAND_ARGS FAST_FLAG_KEY_HASH =? 0)%Z) with false.
  change (negb (Z.land FAST_FLAG_REDIS_COMMAND_ARGS FAST_FLAG_ROUTE_SHARD =? 0)%Z) with false.
  change (negb (Z.land FAST_FLAG_REDIS_COMMAND_ARGS FAST_FLAG_KEY_TAG =? 0)%Z) with false.
  change (negb (Z.land FAST_FLAG_REDIS_COMMAND_ARGS FAST_FLAG_REDIS_COMMAND_ARGS =? 0)%Z) with true.
  unfold take_if, mbind, take_bind, mret, take_ret. cbn [mbind outcome_bind]. by rewrite Hr.
Qed.

(** A routed GET reaches its shard.  For up to 2^32 shards and every route
    mode, the key hash and the shard that the server finds in the request of a
    routing client are those it computes itself. *)
Theorem routed_get_reaches_shard `{Hashing} mode k router key bytes rest :
  (0 ≤ k ≤ 32)%Z → all_bytes key → (∀ x, is_u64 (hash_key x)) →
  Routing.Client.new (2 ^ k) mode = Some router →
  execute_bytes (get_command (Some (Routing.Client.route_key router key)) key) = Some bytes →
  let server := compute_key_route (server_mode mode) (shift_for (2 ^ k)) key in
  ∃ tag, decode_request (bytes ++ rest) =
    Done (mkRequest (Some (route_key_hash server)) (Some (route_shard_id server)) tag (FGet key),
          length bytes).
Proof.
  intros Hk Hb Hh Hn He server.
  destruct (routed_fields mode k router key (Some (hash_key key)) (FGet key) Hk Hb Hn) as [E1 E2].
  exists (Some (Routing.Client.key_tag (Routing.Client.route_key router key))).
  rewrite (client_decoded _ _ bytes rest (client_get (Some (Routing.Client.route_key router key)) key)); [| |done|by left].
  - cbn [routed_request req_key_hash req_route_shard] in E1, E2. unfold server.
    cbn [routed_request]. by rewrite E1, E2.
  - unfold typed_request. cbn [routed_request req_key_hash req_route_shard req_key_tag req_command opt_ok command_ok].
    split; [apply Hh|]. split; [|split; [|done]].
    + pose proof (Z.mod_pos_bound (Routing.Client.shard_id (Routing.Client.route_key router key)) two32 ltac:(done)).
      unfold two32, u32_MAX in *. lia.
    + change (Routing.Client.key_tag _) with (Z.shiftr (hash_key key) 56). rewrite Z.shiftr_div_pow2 by lia.
      specialize (Hh key). unfold is_u64, u64_MAX in *. split; [apply Z.div_pos; lia|].
      apply Z.div_le_upper_bound; lia.
Qed.

(** The client's command table is the server's.  Every command the client
    knows has a server kind of the same opcode and name, and both compute the
    same routing keys (and the same panics) from any arguments. *)
Theorem client_tables_agree kind args :
  ∃ sk, from_opcode (client_opcode kind) = Some sk ∧ redis_name sk = Some (client_name kind) ∧
    client_from_opcode (client_opcode kind) = Some kind ∧
    client_route_keys kind args = redis_route_keys sk args.
Proof. destruct (client_kind_served kind) as (sk & ? & ? & ? & _ & ?). exists sk. by split_and!. Qed.

(** One command, three forms, one route.  A typed request, the same command
    under its opcode with Redis arguments, by name, and inside a RESP command
    are routed by the same keys. *)
Theorem request_forms_route_alike score_text c args name :
  redis_args score_text c = Some args → redis_name (command_kind c) = Some name →
  route_keys (FRedisCommand (command_kind c) args) = route_keys c ∧
  route_keys (FNativeRedisCommand name args) = route_keys c ∧
  route_keys (FRespCommand (name :: args)) = route_keys c.
Proof. apply route_forms. Qed.

(** A count chosen by the peer brings the routing down.  ZUNIONSTORE with a
    key count between 2^59 and 2^64 - 2 makes the computation of its routing
    keys panic, before the count is compared with the number of arguments. *)
Theorem zunionstore_count_panics destination count sources numkeys :
  parse_ascii_usize count = Some numkeys → (2 ^ 59 ≤ numkeys < u64_MAX)%Z →
  route_keys (FRedisCommand KZUnionStore (destination :: count :: sources)) = None.
Proof.
  intros Hp Hn. cbn [route_keys redis_route_keys zaggregate_store_route_keys]. rewrite Hp.
  unfold with_capacity_panics, wrap_u64, two64, u64_MAX, i64_MAX in *.
  rewrite Z.mod_small by lia. rewrite (proj2 (Z.ltb_lt _ _)); [done|].
  change (2 ^ 59)%Z with 576460752303423488%Z in Hn. lia.
Qed.

(** The set-store commands are routed without their destination, the sorted-set
    ones with it. *)
Theorem sunionstore_skips_destination destination source :
  route_keys (FRedisCommand KSUnionStore [destination; source]) = Some (Keys [source]) ∧
  route_keys (FRedisCommand KZUnionStore [destination; text "1"; source]) = Some (Keys [destination; source]).
Proof. by split. Qed.

(** ** Witnesses *)
#[local] Existing Instance Concrete.hashing.

Lemma demo_hash_u64 x : is_u64 (hash_key x).
Proof.
  cbn [hash_key Concrete.hashing]. assert (is_u64 7) as H7 by done. revert H7. generalize 7%Z.
  induction x as [|b x IH]; intros h Hh; [done|]. cbn [foldl]. apply IH. apply wrap_u64_is_u64.
Qed.

(** A routed LPUSH of two values. *)
Definition demo_request : FastRequest :=
  mkRequest (Some 77%Z) (Some 3%Z) (Some 5%Z) (FLPush (text "list") [text "a"; []]).

Lemma demo_request_ok : request_ok demo_request.
Proof. unfold request_ok, is_u64, few. cbn. repeat split; vm_compute; done. Qed.

Lemma fast_request_witness :
  decode_request (encode_request demo_request ++ [1; 2]%Z) = Done (demo_request, 49) ∧
  decode_request (take 20 (encode_request demo_request)) = Incomplete.
Proof.
  destruct (fast_request_roundtrip demo_request demo_request_ok) as [H1 H2]. split; [apply H1|].
  apply (H2 _ (drop 20 (encode_request demo_request))); [by rewrite take_drop|by vm_compute].
Defined.

Lemma fast_safe_witness : decode_request [250; 2; 9; 0; 1; 0; 0; 0; 33; 7]%Z = Done (mkRequest None None None (FPing (Some [33%Z])), 9) ∧
  decode_request [250; 2; 9; 0; 1; 0; 0; 0; 33; 7]%Z ≠ Panic.
Proof.
  split; [by vm_compute|].
  apply (fast_request_safe [250; 2; 9; 0; 1; 0; 0; 0; 33; 7]%Z []). repeat constructor; unfold is_byte; lia.
Defined.

Lemma fast_response_witness :
  decode_response (encode_response (FRArray [Some (text "a"); None]) ++ []) =
  Done (FRArray [Some (text "a"); None], 21).
Proof.
  apply (fast_response_codec (FRArray [Some (text "a"); None]) [] []); [|constructor].
  split; [by vm_compute|by vm_compute].
Defined.

(** A pipelined APPEND, and a VSIM for the two nearest vectors. *)
Definition demo_vsim : VSimOptions := mkVSimOptions 2 None (Some 40%Z) true false [] 1024.
Definition demo_vector : list Z := [1065353216; 0]%Z.

Lemma client_request_witness :
  decode_request (encode_request (mkRequest None None None (FRedisCommand KAppend [text "k"; text "v"])) ++ []) =
  Done (mkRequest None None None (FRedisCommand KAppend [text "k"; text "v"]), 13) ∧
  ∃ c args bytes, vsim_command None (text "k") demo_vector demo_vsim = Some c ∧ execute_bytes c = Some bytes ∧
    decode_request (bytes ++ []) = Done (mkRequest None None None (FRedisCommand KVSim args), length bytes) ∧
    args = [text "k"; text "FP32"; [0; 0; 128; 63; 0; 0; 0; 0]%Z; text "COUNT"; text "2"; text "WITHSCORES";
            text "WITHATTRIBS"; text "EF"; text "40"; text "TRUTH"].
Proof.
  split.
  - apply (client_request_decoded (redis_command CAppend None [text "k"; text "v"])).
    + by apply (client_redis CAppend KAppend None).
    + by split_and!.
    + by vm_compute.
    + right. split; [by vm_compute|by vm_compute].
  - eexists _, _, _. split; [by vm_compute|]. split; [by vm_compute|]. split; [|reflexivity].
    eapply client_request_decoded; [by apply (client_vsim None (text "k") demo_vector demo_vsim)|by split_and!|by vm_compute|].
    left. by vm_compute.
Defined.

Lemma routed_get_witness :
  ∃ tag bytes, decode_request (bytes ++ []) =
    Done (mkRequest (Some (hash_key (text "key"))) (Some (route_shard_id (compute_key_route FullKey (shift_for 8) (text "key")))) tag
            (FGet (text "key")), length bytes).
Proof.
  destruct (routed_get_reaches_shard Routing.Client.FullKey 3 (Routing.Client.mkRouter 8 (shift_for 8) Routing.Client.FullKey)
    (text "key") _ [] ltac:(lia) (text_bytes _)
    ltac:(intros x; apply demo_hash_u64) eq_refl eq_refl) as [tag Ht].
  by exists tag; eexists.
Defined.

Lemma request_forms_witness :
  route_keys (FRespCommand [text "MSET"; text "a"; text "1"; text "b"; text "2"]) =
  Some (Keys [text "a"; text "b"]).
Proof.
  apply (request_forms_route_alike (λ _, []) (FMSet [(text "a", text "1"); (text "b", text "2")])
           [text "a"; text "1"; text "b"; text "2"] (text "MSET")); by vm_compute.
Defined.

Lemma zunionstore_witness :
  route_keys (FRedisCommand KZUnionStore [text "d"; text "9223372036854775807"; text "a"]) = None.
Proof. apply (zunionstore_count_panics _ _ _ 9223372036854775807%Z); [by vm_compute|by vm_compute]. Defined.
