(* ===== verification/TransactionProperties.v ===== *)
(** * Properties of transactions

    MULTI, EXEC, DISCARD and WATCH of one connection, the count of open
    transactions over all connections, and the interleaving of transactions and
    commands through the gates of the shards: which of them may execute at the
    same time, and what a command that waits does to the others. *)

From S2P Require Import Prelude Helpers Codec Resp Deps Routing FastKinds Fast Transactions Gates.

(** C3: a running transaction has its shards for itself.  In any interleaving of
    commands and transactions, once a transaction executes it holds the gates of
    all its shards, those of each of its commands among them; every other
    transaction that executes at the time has other shards; and so has every
    other command, unless it was executing, without a guard, before the
    transaction's MULTI was counted.  So no command that begins after MULTI
    overlaps with the commands of the transaction on a shard.  Shards are those
    the server computes for a command ([command_shards], which leaves out the
    destination of SUNIONSTORE and its kin), and commands are those whose shards
    can be computed without a panic ([routable]) and that ask the coordinator
    for their guard, which those of a direct shard port do not. *)
Theorem transactions_exclusive `{Hashing} store mode st0 st1 st2 t pc1 pc2 cmds held :
  valid_count (sr_shard_count store) → gate_initial store st0 → gate_steps store mode st0 st1 →
  g_pcs st1 !! t = Some pc1 → in_multi pc1 = true → gate_steps store mode st1 st2 →
  g_pcs st2 !! t = Some pc2 → running pc2 = Some (cmds, held) →
  transaction_shards store cmds = Some held ∧
  Forall (λ parts, ∃ s, command_shards store parts = Some s ∧ s ⊆ held) cmds ∧
  ∀ u pc, u ≠ t → g_pcs st2 !! u = Some pc →
    (∀ cmds' held', running pc = Some (cmds', held') → held' ## held) ∧
    (∀ parts guarded s, executing pc = Some (parts, guarded) → command_shards store parts = Some s →
      s ## held ∨
      guarded = false ∧ ∃ old, g_pcs st1 !! u = Some old ∧ executing old = Some (parts, false)).
Proof.
  intros Hv Hi Hs1 Ht1 Hm Hs2 Ht2 Hr.
  pose proof (gate_steps_inv store mode _ _ Hs1 (gate_inv_initial store _ Hi)) as Hi1.
  pose proof (gate_steps_inv store mode _ _ Hs2 Hi1) as Hi2.
  destruct (running_shards store st2 t pc2 cmds held Hv Hi2 Ht2 Hr) as [Es Hc]. split_and!; [done..|].
  intros u pc Hu Hpc. pose proof (λ g, running_alone store st2 t u pc2 pc cmds held g Hi2 Ht2 Hr Hu Hpc) as Halone.
  split.
  - intros cmds' held' [E _]%running_held g Hg Hg'. destruct (Halone g Hg'). by rewrite E in *.
  - intros parts [] s He Eps; [left|right; split; [done|]].
    + intros g Hg Hg'. pose proof (guarded_held store pc parts s (gi_pcs _ _ Hi2 u pc Hpc) He Eps) as E.
      destruct (Halone g Hg'). by rewrite E in *.
    + eapply unguarded_older; try done. by apply running_held in Hr as [_ ->].
Qed.


(** The count of open transactions is exact.  Whatever the connections do,
    the coordinator counts exactly the connections between MULTI and EXEC (so
    zero means there are none), no handler and no closing of a connection fails
    the underflow assertion (only the routing of the queued commands can make
    EXEC panic), and commands that do not parse are never queued. *)
Theorem open_transactions_counted `{Hashing} `{Engine} store n mode s :
  server_reachable store n mode s →
  match coordinator s with
  | Some c => active_transactions c = Z.of_nat (count_if active (connections s)) ∧ coord_mode c = mode
  | None => mode = Disabled ∧ count_if active (connections s) = 0
  end ∧
  (∀ t st, connections s !! t = Some st →
    Forall (λ parts, parse_error parts = None) (queued st) ∧
    (active st = false → queued st = []) ∧
    is_Some (close st (coordinator s)) ∧
    ∀ parts protocol, handle_resp_command store st (coordinator s) parts protocol (contents s) = None →
      transaction_shards store (queued st) = None).
Proof.
  intros Hr%server_reachable_ok. split.
  - destruct (ok_coordinator _ _ _ Hr) as [-> Hd]. destruct mode; [by split; [|apply Hd]|by split..].
  - intros t st Ht. destruct (open_count_bound n mode s t st Hr Ht) as (Hst & Hk & Hm).
    pose proof (ok_coordinator _ _ _ Hr) as Hc.
    split; [apply Hst|]. split; [intros Ea; by apply Hst|].
    split; [destruct (clear_ok n mode st _ _ Hst Hc Hk) as (c' & E & _); by eexists|].
    intros parts protocol E. pose proof (handle_ok store n mode st _ _ (contents s) Hst Hc Hk Hm parts protocol) as Hh.
    by rewrite E in Hh.
Qed.

(** C28: MULTI, commands, EXEC.  The commands between are only queued, whatever
    happens to the store meanwhile; EXEC then answers EXECABORT if one did not
    parse, nil if a watched key changed, CROSSSLOT if the mode allows one shard
    and there are more, and otherwise runs all of them in order on the store of
    that moment; after it the connection is as new and the count of open
    transactions as before. *)
Theorem transaction_conversation `{Hashing} `{Engine} store protocol st c w0 ws cmds w shards :
  session_ok st → active st = false →
  (0 ≤ active_transactions c < u64_MAX)%Z →
  length ws = length cmds → forallb (λ p, negb (is_control p)) cmds = true →
  transaction_shards store cmds = Some shards →
  session store protocol st (Some c)
    ((w0, [text "MULTI"]) :: zip ws cmds ++ [(w, [text "EXEC"])]) =
  Some (transaction_default, Some c,
    (w0, write_simple_string (text "OK")) :: zip ws (queue_reply <$> cmds) ++
    [exec_answer protocol (coord_mode c) (watched st) cmds shards w]).
Proof.
  intros Hok Ha Hc Hl Hctl Hsh. cbn [session].
  change (handle_resp_command store st (Some c) [text "MULTI"] protocol w0)
    with (Some (Some (multi st (Some c) [text "MULTI"] w0))).
  unfold multi. rewrite Ha, (ok_counted _ Hok), Ha. cbn [length Nat.eqb negb mbind option_bind].
  rewrite session_app, session_queue by done. cbn [mbind option_bind queued dirty watched counted_active].
  set (c1 := Coordinator.begin_transaction c).
  assert (∀ q d ks, clear (mkTransaction q d true true ks) (Some c1) = Some (transaction_default, Some c) ∧
    finish_counted_transaction (mkTransaction [] d false true []) (Some c1) =
      Some (mkTransaction [] d false false [], Some c)) as Hclr.
  { intros q d ks. unfold clear, finish_counted_transaction, Coordinator.end_transaction, c1,
      Coordinator.begin_transaction. cbn [counted_active active_transactions coord_mode coord_gates].
    unfold wrap_u64, two64, u64_MAX in *. rewrite Z.mod_small by lia.
    rewrite (proj2 (Z.ltb_lt 0 _)) by lia. cbn. rewrite Z.add_simpl_r. by destruct c. }
  cbn [session]. change (handle_resp_command store ?st2 ?c2 [text "EXEC"] protocol w)
    with (Some <$> exec store st2 c2 [text "EXEC"] protocol w).
  unfold exec, exec_answer, watched_keys_changed. cbn [length Nat.eqb negb active dirty watched queued counted_active app orb].
  destruct (forallb parses cmds) eqn:Ep; cbn [negb].
  - rewrite filter_parses by done. destruct (keys_changed (watched st) w).
    { by rewrite (proj1 (Hclr _ _ _)). }
    unfold execute. rewrite Hsh. cbn [mbind option_bind]. change (coord_mode c1) with (coord_mode c).
    destruct (bool_decide (coord_mode c = ShardLocal) && (1 <? length shards)).
    + cbn [mbind option_bind]. by rewrite (proj2 (Hclr [] false [])).
    + destruct (run_commands protocol cmds w) as [w' out] eqn:Er. cbn [mbind option_bind].
      by rewrite (proj2 (Hclr [] false [])).
  - by rewrite (proj1 (Hclr _ _ _)).
Qed.

(** ** An engine with GET and SET *)
Module StringEngine.
#[local] Existing Instance Concrete.hashing.

Definition store : StoreRouting := mkStoreRouting FullKey 4.
Definition SET : Bytes := text "SET".
Definition GET : Bytes := text "GET".

Definition execute (protocol : RespProtocolVersion) (parts : list Bytes) (w : gmap Bytes Bytes)
    : gmap Bytes Bytes * Bytes :=
  match parts with
  | [c; key; value] => if bytes_eqb c SET then (<[key := value]> w, write_simple_string (text "OK")) else (w, [])
  | [c; key] => if bytes_eqb c GET then (w, default (text "nil") (w !! key)) else (w, [])
  | _ => (w, [])
  end.

Definition engine : Engine := {|
  World := gmap Bytes Bytes; Value := unit; value_eqb _ _ := true;
  parse_error parts := match parts with _ :: _ :: _ => None | _ => Some (text "arity") end;
  execute_borrowed := execute;
  get_value_bytes w key := w !! key;
  clone_object_value _ _ := None |}.
#[local] Existing Instance engine.

Definition shard_of (key : Bytes) : Z := route_shard_id (route_key store key).

Lemma set_shards key value : command_shards store [SET; key; value] = Some [shard_of key].
Proof. reflexivity. Qed.

Lemma get_shards key : command_shards store [GET; key] = Some [shard_of key].
Proof. reflexivity. Qed.

End StringEngine.

(** ** Runs *)
Section demo_runs.
#[local] Existing Instance Concrete.hashing.
#[local] Existing Instance StringEngine.engine.
Import StringEngine.

Definition set a b : list Bytes := [SET; text a; text b].
Definition get a : list Bytes := [GET; text a].

Definition demo_start (pcs : list (nat * PC)) : GState := mkGState 0 (list_to_map pcs).

Ltac all_threads := let u := fresh in let q := fresh in let Hq := fresh in
  intros u q Hq; revert u q Hq;
  match goal with |- ∀ u q, ?m !! u = Some q → @?P q =>
    apply (bool_decide_unpack (map_Forall (λ _ q, P q) m)); vm_compute; exact I end.

Ltac side := first [reflexivity | vm_compute; congruence | all_threads ].

Tactic Notation "run" uconstr(C) := eapply gate_steps_cons; [eapply C; side|].

Definition alice : string := "account:alice".
Definition bob : string := "account:bob".

(** A GET that finds no open transaction; then a transaction on the same key,
    and a command on a key of another shard next to it. *)
Definition demo_threads : list (nat * PC) :=
  [(0, TMulti [set alice "1"; get alice]); (1, CEnter (set bob "2")); (2, CEnter (get alice))].

Lemma demo_run : ∃ st1 st2,
  gate_steps store CoordinatedCrossShard (demo_start demo_threads) st1 ∧
  gate_steps store CoordinatedCrossShard st1 st2 ∧
  g_pcs st1 !! 0 = Some (TExec [set alice "1"; get alice]) ∧
  g_pcs st2 !! 0 = Some (TRun [set alice "1"; get alice] [shard_of (text alice)] [get alice]) ∧
  g_pcs st2 !! 1 = Some (CRun (set bob "2") true [shard_of (text bob)]) ∧
  g_pcs st2 !! 2 = Some (CRun (get alice) false []).
Proof.
  do 2 eexists. split; [|split; [|split_and!]].
  - run (gs_unguarded store CoordinatedCrossShard _ 2).
    run (gs_multi store CoordinatedCrossShard _ 0).
    constructor.
  - run (gs_exec store CoordinatedCrossShard _ 0).
    run (gs_write store CoordinatedCrossShard _ 0).
    run (gs_write_all store CoordinatedCrossShard _ 0).
    run (gs_run store CoordinatedCrossShard _ 0).
    run (gs_guarded store CoordinatedCrossShard _ 1).
    run (gs_read store CoordinatedCrossShard _ 1).
    run (gs_read_all store CoordinatedCrossShard _ 1).
    constructor.
  - reflexivity.
  - vm_compute. reflexivity.
  - vm_compute. reflexivity.
  - reflexivity.
Qed.

Lemma three_routable a b c : is_Some (command_shards store [text a; text b; text c]) →
  routable store [text a; text b; text c].
Proof. intros. split; [|done]. do 3 (apply Forall_cons; split; [apply text_bytes|]). by apply Forall_nil. Qed.

Lemma two_routable a b : is_Some (command_shards store [text a; text b]) → routable store [text a; text b].
Proof. intros. split; [|done]. do 2 (apply Forall_cons; split; [apply text_bytes|]). by apply Forall_nil. Qed.

Ltac initial := split; [done|]; intros t pc Ht; unfold demo_start in Ht; cbn [g_pcs list_to_map foldr] in Ht;
  repeat (apply lookup_insert_Some in Ht as [[<- <-]|[_ Ht]];
    [cbn [starting snd]; repeat (apply Forall_cons; split); try (by apply Forall_nil);
     first [apply three_routable|apply two_routable]; by eexists|]);
  by rewrite lookup_empty in Ht.

Lemma demo_initial : gate_initial store (demo_start demo_threads).
Proof. unfold demo_threads, set, get, SET, GET. initial. Qed.

Lemma demo_valid : valid_count (sr_shard_count store).
Proof. exists 2%Z. split; [lia|done]. Qed.

Lemma exclusive_witness : ∃ st1 st2,
  gate_steps store CoordinatedCrossShard st1 st2 ∧
  g_pcs st2 !! 2 = Some (CRun (get alice) false []) ∧
  [shard_of (text bob)] ## [shard_of (text alice)] ∧
  (∃ old, g_pcs st1 !! 2 = Some old ∧ executing old = Some (get alice, false)).
Proof.
  destruct demo_run as (st1 & st2 & Hs1 & Hs2 & H0 & H0' & H1 & H2). exists st1, st2.
  destruct (transactions_exclusive store CoordinatedCrossShard (demo_start demo_threads) st1 st2 0 _ _ _ _
    demo_valid demo_initial Hs1 H0 eq_refl Hs2 H0' eq_refl) as (_ & _ & Hothers).
  split; [done|]. split; [done|]. split.
  - destruct (proj2 (Hothers 1 _ ltac:(done) H1) _ _ _ eq_refl (set_shards _ _)) as [Hd|[? _]]; done.
  - destruct (proj2 (Hothers 2 _ ltac:(done) H2) _ _ _ eq_refl (get_shards _)) as [Hd|[_ Ho]]; [|done].
    exfalso. apply (Hd (shard_of (text alice))); by apply list_elem_of_singleton.
Defined.





(** A connection in a transaction of a server with one more connection. *)
Lemma counted_witness : ∃ s : Server, count_if active (connections s) = 1 ∧
  active_transactions <$> coordinator s = Some 1%Z.
Proof.
  set (s1 := mkServer (<[0 := transaction_default]> ∅) (Coordinator.new 4 ShardLocal) ∅ : Server).
  set (s2 := mkServer (<[1 := transaction_default]> (connections s1)) (coordinator s1) ∅ : Server).
  set (r := multi transaction_default (coordinator s2) [text "MULTI"] (contents s2)).
  set (s3 := mkServer (<[0 := r.1.1.1]> (connections s2)) r.1.1.2 r.1.2).
  assert (server_reachable store 4 ShardLocal s3) as Hr.
  { exists ∅. eapply rtc_l; [apply (server_connect store _ 0); done|].
    eapply rtc_l; [apply (server_connect store s1 1); done|].
    eapply rtc_l; [|apply rtc_refl].
    apply (server_command store s2 0 transaction_default [text "MULTI"] Resp2 _ _ _ r.2); reflexivity. }
  exists s3. pose proof (proj1 (open_transactions_counted store 4 ShardLocal s3 Hr)) as [Hc _].
  assert (count_if active (connections s3) = 1) as E by (vm_compute; reflexivity).
  split; [exact E|]. rewrite E in Hc. cbn. by f_equal.
Defined.

Lemma conversation_witness :
  session store Resp2 transaction_default (Some (mkCoordinator ShardLocal 4 0))
    [(∅, [text "MULTI"]); (∅, set alice "1"); (∅, get alice); (∅, [text "EXEC"])] =
  Some (transaction_default, Some (mkCoordinator ShardLocal 4 0),
    [(∅, write_simple_string (text "OK")); (∅, write_simple_string (text "QUEUED"));
     (∅, write_simple_string (text "QUEUED"));
     (<[text alice := text "1"]> ∅,
      (write_resp_array_header 2 ++ write_simple_string (text "OK")) ++ text "1")]).
Proof.
  etransitivity; [apply (transaction_conversation store Resp2 transaction_default (mkCoordinator ShardLocal 4 0) ∅
           [∅; ∅] [set alice "1"; get alice] ∅ [shard_of (text alice)]);
    [apply default_ok|done|done|done|by vm_compute|by vm_compute]|by vm_compute].
Defined.
End demo_runs.
