(* ===== verification/KeyScanProperties.v ===== *)
(** * SCAN across both key spaces: properties *)

From S2P Require Import Prelude Deps Slab ListObject Helpers F64 Codec Types HashSet ZSet Bucket.
From S2P Require Import BucketCore BucketKeys Store Snapshot Recovery FlatMap FlatMapProofs FlatRefine FlatRun KeyScan Demo.

Section properties.
Context `{Hashing} {HT : Type → Type} `{!HashTable HT} `{TableOrder} `{FloatOps}.
Context {OT : Type} `{!IndexTreeSet ZSetOrderKey zk_cmp OT}.
Abbreviation KeySpaces := (KeySpaces (HT := HT) (OT := OT)).

Lemma elem_of_snapshot_keys (m : FlatMap (HT := HT)) (now_ms : Z) (k : Bytes) :
  table_ok m →
  k ∈ snapshot_keys m now_ms ↔ ∃ s, contents m !! k = Some s ∧ e_governance s = None ∧ unexpired now_ms s.
Proof.
  intros Hok. unfold snapshot_keys. rewrite list_elem_of_fmap. split.
  - intros (e & -> & [Hl He]%list_elem_of_filter). unfold listable in Hl. bool_case. exists (stored_entry e).
    split; [by apply entry_map_elem; [apply ok_keys|]|]. unfold is_protected, is_expired, unexpired in *. simpl.
    by destruct (fe_governance e).
  - intros (s & (e & He & <- & <-)%entry_map_lookup_Some & Hg & Hu). exists e. split; [done|]. apply list_elem_of_filter.
    split; [|done]. unfold listable, is_protected, is_expired, unexpired in *. simpl in Hg, Hu. by rewrite Hg, Hu.
Qed.

(** C37: SCAN covers.  While nothing changes, following the cursor from 0, with
    any count, ends, and the pages together are the listing of the store: the
    unexpired string keys without governance of every shard and the visible
    objects of every shard, in one order, none skipped at the change of a shard
    or of the phase; the visit behind KEYS hands out the same list. *)
Theorem global_scan_covers (ks : KeySpaces) A (now_ms count : Z) :
  spaces_ok ks A now_ms → (∀ m, m ∈ ks_maps ks → table_ok m) → (count ≤ 2 ^ 63)%Z →
  let keys := (ks_maps ks ≫= λ m, snapshot_keys m now_ms) ++ store_all_keys now_ms (ks_objects ks) A in
  scan_everything ks now_ms (S (length keys)) 0 count = Some keys ∧
  visit_redis_keys (λ l k, (l ++ [k], true)) ks now_ms [] = Some keys ∧
  ∀ k, k ∈ keys ↔
    (∃ m s, m ∈ ks_maps ks ∧ contents m !! k = Some s ∧ e_governance s = None ∧ unexpired now_ms s) ∨
    (∃ As a, As ∈ A ∧ a ∈ As ∧ a_visible a now_ms k = true).
Proof.
  intros Hok Hm Hc keys. pose proof (left_from_start ks A now_ms Hok) as El. fold keys in El. split; [|split; [by apply visit_redis_keys_spec|]].
  - assert (Hg : good_cursor ks (initial_global_scan_cursor ks 0 ScanAll)) by (split; [split|]; simpl; lia).
    rewrite (scan_everything_spec ks A now_ms Hok (S (length keys)) 0 count Hc Hg);
      change (initial_global_scan_cursor ks 0 ScanAll) with (mkCursor PhaseString 0 0); rewrite El; [done|lia].
  - intros k. unfold keys. rewrite elem_of_app, (elem_of_store_keys (ks_objects ks) A) by apply Hok.
    rewrite list_elem_of_bind. split; (intros [Hk|Hk]; [left|by right]).
    + destruct Hk as (m & Hk & Hin). apply elem_of_snapshot_keys in Hk as (s & ?); [by exists m, s|by apply Hm].
    + destruct Hk as (m & s & Hin & Hk). exists m. split; [|done]. apply elem_of_snapshot_keys; [by apply Hm|by exists s].
Qed.

(** A cursor that SCAN answers names its place again, and is not the 0 that
    ends the scan, as long as a shard holds fewer than 2^32 keys. *)
Theorem scan_cursor_roundtrip (phase : KeyScanPhase) (shard_id offset : Z) :
  in_cursor shard_id offset → (0 < offset)%Z →
  decode_global_cursor (encode_global_cursor phase shard_id offset) = mkCursor phase shard_id offset ∧
  encode_global_cursor phase shard_id offset ≠ 0%Z.
Proof. intros Hc Ho. split; [by apply cursor_decode|by apply cursor_nonzero]. Qed.

(** After 2^32 keys of the first string shard the cursor is 0: the scan ends early. *)
Theorem scan_cursor_wraps : encode_global_cursor PhaseString 0 (2 ^ 32) = 0%Z.
Proof. by vm_compute. Qed.
End properties.

(** ** Witness: two string keys, one of them expired, and an object of each type *)
#[local] Existing Instance Concrete.hashing.
#[local] Existing Instance Concrete.hash_table.

Definition scan_requests : list (Z * FlatRequest) :=
  [(1, RSet [97] [1] None); (2, RSet [98] [2] (Some 5)); (3, RSet [99] [3] None)]%Z.
Definition scan_map : FlatMap (HT := Concrete.LHT) := (flat_run flat_new scan_requests).2.
Definition scan_bucket : demo_bucket := default bucket_default demo_run.
Definition scan_spaces : KeySpaces :=
  mkSpaces [scan_map] [3%Z] (mkStore [mkShard (<[0 := scan_bucket]> (replicate OBJECT_BUCKETS bucket_default)) 4] true).
Definition scan_states : list (list AState) := [<[0 := demo_state]> (replicate OBJECT_BUCKETS a_empty)].

Lemma scan_spaces_rep : store_rep (ks_objects scan_spaces) scan_states.
Proof.
  assert (Hb : bucket_rep scan_bucket demo_state).
  { destruct demo_rep as (b & Hr & Hb). unfold scan_bucket. by rewrite Hr. }
  split; [|done]. apply Forall2_cons_2; [|done]. split; [|by vm_compute|by vm_compute].
  apply Forall2_insert; [|done]. apply Forall2_replicate. split; [apply phys_default|apply wf_a_empty].
Qed.

Lemma scan_spaces_ok : spaces_ok scan_spaces scan_states 60.
Proof.
  split.
  - by constructor.
  - apply scan_spaces_rep.
  - done.
  - done.
  - intros m ->%list_elem_of_singleton. by vm_compute.
  - intros [|i]; by vm_compute.
Qed.

Lemma scan_map_ok : flat_ok scan_map.
Proof. apply (flat_run_ok flat_new scan_requests flat_new_ok). vm_compute. repeat split; discriminate. Qed.

Lemma global_scan_covers_witness :
  scan_everything scan_spaces 60 6 0 2 = Some ([[97]; [99]]%Z ++ [k_hash; k_list; k_set; k_zset]) ∧
  ∃ keys, scan_everything scan_spaces 60 (S (length keys)) 0 2 = Some keys ∧ [97%Z] ∈ keys.
Proof.
  split; [by vm_compute|].
  destruct (global_scan_covers scan_spaces scan_states 60 2 scan_spaces_ok) as (Hs & _ & Hk).
  - intros m ->%list_elem_of_singleton. apply scan_map_ok.
  - lia.
  - eexists. split; [exact Hs|]. apply Hk. left. exists scan_map, (mkEntry [97] [1] None None)%Z. split; [left|].
    split; [vm_compute; reflexivity|]. split; [reflexivity|]. vm_compute. reflexivity.
Defined.
