(* ===== verification/FlatMapProperties.v ===== *)
(** * Properties of the string key space

    Every run of a shard's string key space from empty, under any policy and
    any sequence of requests, is a run of a plain map that loses only expired
    entries and counted evictions; its counters are exact and its memory limit
    holds. *)

From S2P Require Import Prelude Deps Codec Snapshot Recovery FlatMap FlatMapProofs FlatEviction FlatRefine FlatRun.

Section properties.
Context `{Hashing} {HT : Type → Type} `{!HashTable HT}.
Abbreviation FlatMap := (FlatMap (HT := HT)).

(** C4: the string key space refines a map.  From an empty table, every
    sequence of requests is answered as the map from keys to entries answers
    it.  Requests that do not enforce the memory limit leave exactly the
    contents the map has; the others may drop entries that have expired and
    entries that they evict, and the eviction counter bounds the number of
    unexpired entries lost. *)
Theorem flat_map_refines (rs : list (Z * FlatRequest)) :
  requests_ok (flat_new : FlatMap) rs →
  allowed ∅ rs (flat_run (flat_new : FlatMap) rs).1 (evictions (flat_run (flat_new : FlatMap) rs).2)
    (contents (flat_run (flat_new : FlatMap) rs).2).
Proof.
  intros Hrs. pose proof (flat_run_allowed (flat_new : FlatMap) rs flat_new_ok Hrs) as Ha.
  rewrite flat_new_contents in Ha. by rewrite Z.sub_0_r in Ha.
Qed.

(** C13: the accounting is exact.  After any sequence of requests every key is
    stored once, the byte counter is the sum of the bytes of the entries, the
    deadline counter is the number of entries with a deadline, and the pool of
    buffers holds what it says within its two bounds. *)
Theorem flat_accounting_exact (rs : list (Z * FlatRequest)) :
  requests_ok (flat_new : FlatMap) rs →
  let m := (flat_run (flat_new : FlatMap) rs).2 in
  NoDup (fe_key <$> flat_entries m) ∧
  stored_bytes m = sum_of entry_stored_bytes (flat_entries m) ∧
  ttl_entries m = sum_of (λ e, if has_ttl (fe_expire_at_ms e) then 1 else 0)%Z (flat_entries m) ∧
  pool_bytes (pool m) = sum_of blen (pool_values (pool m)) ∧
  (pool_bytes (pool m) ≤ MAX_REUSABLE_VALUE_BYTES)%Z ∧
  (Z.of_nat (length (pool_values (pool m))) ≤ MAX_REUSABLE_VALUE_BUFFERS)%Z.
Proof.
  intros Hrs m. destruct (flat_run_ok (flat_new : FlatMap) rs flat_new_ok Hrs) as [Hok Hp]. fold m in Hok, Hp.
  split; [by apply ok_keys|]. split; [|by split; [apply ok_ttl|]].
  rewrite (ok_bytes m Hok). apply sum_of_ext. intros e He. symmetry. by eapply entry_stored_bytes_ok.
Qed.

(** C14: the memory limit holds.  After any sequence of requests that does not
    use the one write that skips the enforcement, a key space with a limit and
    an eviction policy stores no more bytes than the limit: the eviction loop
    ends within its fuel and reaches its target. *)
Theorem memory_limit_holds (rs : list (Z * FlatRequest)) limit :
  requests_ok (flat_new : FlatMap) rs → Forall (λ x, unlimited x.2 = false) rs →
  memory_limit_bytes (flat_run (flat_new : FlatMap) rs).2 = Some limit →
  eviction_policy (flat_run (flat_new : FlatMap) rs).2 ≠ NoEviction →
  (stored_bytes (flat_run (flat_new : FlatMap) rs).2 ≤ limit)%Z.
Proof.
  intros Hrs Hu El Hp. destruct (flat_run_within (flat_new : FlatMap) rs flat_new_ok Hrs) as [_ Hw]; [done|done|].
  rewrite El in Hw. auto.
Qed.

(** C26: LFU eviction takes the coldest entries.  Evicting to a target by the
    LFU policy, with its bounded heap of candidates and its batches, removes
    entries none of which was used more often, or as often and more recently,
    than any entry that stays; the target is reached. *)
Theorem lfu_evicts_coldest (rs : list (Z * FlatRequest)) target :
  requests_ok (flat_new : FlatMap) rs → (0 ≤ target)%Z →
  let m := (flat_run (flat_new : FlatMap) rs).2 in
  coldest_gone Lfu m (evict_to_memory_target m Lfu target).2 ∧
  (stored_bytes (evict_to_memory_target m Lfu target).2 ≤ target)%Z.
Proof.
  intros Hrs Ht m. pose proof (flat_run_ok (flat_new : FlatMap) rs flat_new_ok Hrs) as Hok. fold m in Hok.
  split; [|by apply evict_to_target_reaches]. unfold evict_to_memory_target. simpl.
  destruct (flat_is_empty m); [apply coldest_gone_refl|]. by apply (evict_rounds_coldest (evict_fuel m)).
Qed.

(** C27: snapshots restore.  Loading the snapshot of a key space into a fresh
    one gives exactly the entries that had not expired, with their deadlines
    and governance. *)
Theorem snapshot_restores_live (rs : list (Z * FlatRequest)) now_ms :
  requests_ok (flat_new : FlatMap) rs →
  let m := (flat_run (flat_new : FlatMap) rs).2 in
  contents (from_entries (snapshot_entries m now_ms) now_ms : FlatMap) = live_part now_ms (contents m).
Proof.
  intros Hrs m. pose proof (flat_run_ok (flat_new : FlatMap) rs flat_new_ok Hrs) as [Hok _]. fold m in Hok.
  destruct (from_entries_spec (HT := HT) (snapshot_entries m now_ms) now_ms) as (_ & _ & ->); [by apply snapshot_weight|].
  rewrite restore_spec by by apply snapshot_keys_distinct. rewrite (right_id_L ∅ (∪)), snapshot_contents by done.
  unfold live_part. rewrite map_filter_filter. apply map_filter_ext. naive_solver.
Qed.
End properties.

(** ** Witnesses *)
#[local] Existing Instance Concrete.hashing.
#[local] Existing Instance Concrete.hash_table.

Abbreviation demo_new := (flat_new : FlatMap (HT := Concrete.LHT)).

(** Three keys under LFU and ten bytes, a deadline, a read and a fourth key. *)
Definition flat_demo : list (Z * FlatRequest) :=
  [(1, RConfigure (Some 10) Lfu);
   (2, RSet [97] [1; 2] None);
   (3, RSetSlice [98] [3; 4] (Some 50) true);
   (4, RSetBytes [99] [5] (Some [7]) None);
   (5, RSet [97] [8; 9] None);
   (6, RGet [97]);
   (7, RTtlMillis [98]);
   (8, RGet [99]);
   (9, RSetSliceNoTtl [100] [6; 6] false);
   (10, RExpire [97] 12);
   (11, RDelete [98]);
   (20, RExists [97]);
   (21, RMaintenance)]%Z.

Ltac requests_ok := vm_compute; repeat split; discriminate.

Lemma flat_map_refines_witness :
  requests_ok demo_new flat_demo ∧
  (flat_run demo_new flat_demo).1 =
    [AUnit; AUnit; AUnit; AUnit; AUnit; AValue (Some [8; 9]); AInt 43; AValue None; AUnit; ABool true; ABool false;
     ABool false; AInt 0]%Z ∧
  allowed ∅ flat_demo (flat_run demo_new flat_demo).1 (evictions (flat_run demo_new flat_demo).2)
    (contents (flat_run demo_new flat_demo).2).
Proof. split; [requests_ok|]. split; [by vm_compute|]. apply flat_map_refines. requests_ok. Defined.

Lemma flat_accounting_witness :
  let m := (flat_run demo_new (take 4 flat_demo)).2 in
  stored_bytes m = 9%Z ∧ ttl_entries m = 1%Z ∧ stored_bytes m = sum_of entry_stored_bytes (flat_entries m).
Proof.
  split; [by vm_compute|]. split; [by vm_compute|].
  assert (requests_ok demo_new (take 4 flat_demo)) as Hr by requests_ok.
  pose proof (flat_accounting_exact (HT := Concrete.LHT) (take 4 flat_demo) Hr) as Ha. cbv zeta in Ha.
  by destruct Ha as (_ & Ha & _).
Defined.

Lemma memory_limit_witness :
  evictions (flat_run demo_new flat_demo).2 = 1%Z ∧ (stored_bytes (flat_run demo_new flat_demo).2 ≤ 10)%Z.
Proof.
  split; [by vm_compute|]. apply (memory_limit_holds flat_demo 10).
  - requests_ok.
  - repeat constructor.
  - by vm_compute.
  - by vm_compute.
Defined.

Lemma lfu_witness :
  let m := (flat_run demo_new (take 5 flat_demo)).2 in
  fe_key <$> flat_entries (evict_to_memory_target m Lfu 4).2 = [[97%Z]] ∧
  (stored_bytes (evict_to_memory_target m Lfu 4).2 ≤ 4)%Z.
Proof.
  split; [by vm_compute|].
  assert (requests_ok demo_new (take 5 flat_demo)) as Hr by requests_ok.
  pose proof (lfu_evicts_coldest (HT := Concrete.LHT) (take 5 flat_demo) 4 Hr ltac:(lia)) as Hl. cbv zeta in Hl.
  by destruct Hl as [_ Hl].
Defined.

Lemma snapshot_restores_witness :
  let m := (flat_run demo_new (take 5 flat_demo)).2 in
  contents (from_entries (snapshot_entries m 60) 60 : FlatMap (HT := Concrete.LHT)) = live_part 60 (contents m).
Proof.
  assert (requests_ok demo_new (take 5 flat_demo)) as Hr by requests_ok.
  exact (snapshot_restores_live (HT := Concrete.LHT) (take 5 flat_demo) 60 Hr).
Defined.

(** ** A deviation *)

(** Two entries of a recovered shard, and the shard as its worker configures it. *)
Definition recovered_demo : list StoredEntry := [mkEntry [97] [1] None None; mkEntry [98] [2] None None]%Z.
Definition recovered_shard : FlatMap (HT := Concrete.LHT) :=
  configure_memory_policy (from_entries recovered_demo 0) (Some 4%Z) Lru 0.

(** LRU eviction prefers restored keys.  Entries restored at the start of a
    worker are written before its policy is set, so they are in no LRU log; an
    eviction pops the log first.  A shard restored at its limit therefore
    evicts every key it is given as soon as it is written, and keeps the
    restored keys that nobody has used since. *)
Theorem restored_outlive_new :
  contents recovered_shard = contents (from_entries recovered_demo 0 : FlatMap (HT := Concrete.LHT)) ∧
  contents (flat_set recovered_shard [99%Z] [3%Z] None 1) = contents recovered_shard ∧
  evictions (flat_set recovered_shard [99%Z] [3%Z] None 1) = 1%Z ∧
  contents (flat_set (flat_set recovered_shard [99%Z] [3%Z] None 1) [100%Z] [4%Z] None 2) = contents recovered_shard.
Proof. by vm_compute. Qed.
