(* ===== verification/EmbeddedShardProperties.v ===== *)
(** * Session slots and the shards of the embedded store: properties

    The slots of the sessions are a map of maps; a shard is one map, whatever
    part of it holds a key; its memory limit holds after every write of a value
    or chunk, but not after a read-modify-write.  The reads and writes that do
    not look at both parts of the shard are shown to differ from that map. *)

From S2P Require Import Prelude Deps Codec HashSet Snapshot Recovery FlatMap FlatMapProofs FlatEviction FlatRefine FlatRun.
From S2P Require Import Routing FastKinds KeyedTable SessionSlots SessionSlotsProofs EmbeddedShard EmbeddedShardProofs Demo.

Section properties.
Context `{Hashing} {HT : Type → Type} `{!HashTable HT} `{TableOrder}.
Abbreviation SessionSlotMap := (SessionSlotMap (HT := HT)).
Abbreviation EmbeddedShard := (EmbeddedShard (HT := HT)).

(** C21: Any sequence of reads, writes, deletions, whole-session replacements
    and evictions on the session slots never leaves a chunk's bytes outside the
    slab's buffer, answers as the same operations on a map from sessions to
    maps from keys to values, and ends in slots that stand for that map; an
    eviction removes one stored chunk, or nothing is stored or no policy is
    set.  The written values of a replacement are at most 4 GiB together. *)
Theorem session_slots_refine (rs : list SlotRequest) :
  Forall packable rs → (sum_of request_size rs ≤ u64_MAX)%Z →
  ∃ answers (m : SessionSlotMap),
    slot_run slots_new rs = Some (answers, m) ∧ spec_run ∅ rs answers (slots_map m) ∧
    slot_bytes m = sum_of (λ x, sum_of slot_weight (slab_elems x.2)) (sessions m).
Proof.
  intros Hp Hb. destruct slots_new_ok as [Hok Hm].
  destruct (slot_run_spec slots_new rs Hok Hp) as (l & m & E & Hok' & Hr); [done|].
  exists l, m. split; [done|]. rewrite Hm in Hr. split; [done|]. rewrite (slots_bytes m Hok').
  apply sum_of_ext. intros [p s] Hin. apply slab_bytes_exact, (slots_slabs m Hok' p).
  by apply elem_of_list_to_map; [apply (slots_wf m Hok')|].
Qed.

(** C9: A shard that routes by session prefix is one map: from a new shard, any
    sequence of writes of values (governed or not, with a deadline or not),
    writes of session chunks (each to the session its key names), reads that
    look into the session and then into the string key space, and
    read-modify-writes, writes in place and removals of keys that name no
    session, answers as on a map from keys to entries, whether a key's entry
    lies in the string key space or in its session; a memory limit can only take
    entries away, and without one nothing is lost. *)
Theorem shard_refines (limit : option Z) (policy : EvictionPolicy) (rs : list (Z * ShardRequest)) :
  shard_requests_ok (with_limits limit policy : EmbeddedShard) rs →
  ∃ answers (sh : EmbeddedShard) V,
    shard_run (with_limits limit policy) rs = Some (answers, sh) ∧ shows sh V ∧
    shard_allowed (positive_limit limit) ∅ rs answers V.
Proof.
  intros Hrs. destruct (with_limits_ok limit policy) as (Hok & HV & _ & _ & El & _).
  destruct (shard_run_spec (with_limits limit policy) ∅ rs Hok HV Hrs) as (l & sh & V & E & _ & HV' & _ & _ & Ha).
  exists l, sh, V. rewrite <- El. done.
Qed.


(** The reads of [batch_get_view] do not see the whole map: once the session a
    key names exists, a value the key has in the string key space is missed,
    while a plain read answers it. *)
Theorem published_read_misses (sh : EmbeddedShard) (V : Entries) key p e now_ms :
  shard_ok sh → shows sh V → derived_session_storage_prefix key = Some p →
  has_session (session_slots sh) p = true → session_chunk (session_slots sh) key = None →
  V !! key = Some e → s_expired e now_ms = false → s_protected e = false →
  ∃ sh1 sh2, get_ref_hashed_session_or_flat sh (hash_key key) key now_ms = Some (Some (e_value e), sh1) ∧
             get_ref_hashed_published_session_or_flat sh (hash_key key) key now_ms = Some (None, sh2).
Proof.
  intros Hok HV Ep Hs Hc He Hx Hg. destruct (read_spec sh V key now_ms Hok HV) as (sh1 & -> & _).
  unfold get_ref_hashed_published_session_or_flat, session_chunk in *. rewrite Ep, Hs in *. simpl in Hc.
  destruct (slot_get_spec (session_slots sh) p key (sh_slots sh Hok)) as (s & -> & _). rewrite Hc. simpl.
  eexists _, _. split; [|done]. rewrite purge_at, decide_True by done. rewrite He. simpl. rewrite Hx. simpl.
  unfold s_visible. by rewrite Hg.
Qed.

(** A read-modify-write of a key that has a chunk works beside it: the function
    does not see the chunk, and a plain read keeps answering the chunk. *)
Theorem transform_hidden_by_chunk (sh : EmbeddedShard) (V : Entries) key chunk_value value now_ms :
  shard_ok sh → shows sh V → session_chunk (session_slots sh) key = Some chunk_value →
  room sh (s_weight (mkEntry key value None None)) →
  let f existing := (if existing is Some _ then inl [] else inr (value, value)) : Bytes + (Bytes * Bytes) in
  let '(result, sh') := es_transform_no_ttl sh (hash_key key) key now_ms f in
  result = inr value ∧ contents (es_map sh') !! key = Some (mkEntry key value None None) ∧
  seen sh' key = Some (mkEntry key chunk_value None None).
Proof.
  intros Hok HV Hc [Hb Hs] f. unfold es_transform_no_ttl. cbv zeta.
  assert (contents (es_map sh) !! key = None) as E by (apply (sh_apart sh Hok); by rewrite Hc).
  assert (purge (contents (es_map sh)) key now_ms !! key = None) as Ep by (rewrite purge_at, decide_True by done; by rewrite E).
  pose proof (transform_spec (R := Bytes) (Err := Bytes) (es_map sh) key true f now_ms (sh_map sh Hok)) as Ht.
  rewrite Ep in Ht. simpl in Ht. specialize (Ht Hb). destruct (transform_value_hashed _ _ _ _ _ _) as [result m]. simpl in Ht.
  destruct Ht as (-> & m1 & [_ Ec _ _] & [Hl _] & ->).
  rewrite enforce_below by (rewrite Hl; by rewrite (sh_unlimited sh Hok)). simpl. rewrite Ec, lookup_insert_eq.
  split_and!; [done..|]. unfold seen. simpl. by rewrite Hc.
Qed.

(** C39: The read-modify-write of APPEND, INCR, SETBIT, BITFIELD, PFADD and XADD
    stores its value without enforcing the memory limit and without keeping the
    key's deadline: a value longer than the limit leaves the shard above it,
    whatever the policy. *)
Theorem shard_transform_unbounded (sh : EmbeddedShard) (limit : Z) key value now_ms :
  shard_ok sh → es_limit sh = Some limit → room sh (s_weight (mkEntry key value None None)) →
  (limit < blen value)%Z →
  let '(result, sh') := es_transform_no_ttl sh (hash_key key) key now_ms (λ _, inr (value, value) : Bytes + (Bytes * Bytes)) in
  result = inr value ∧ contents (es_map sh') !! key = Some (mkEntry key value None None) ∧ (limit < es_stored_bytes sh')%Z.
Proof.
  intros Hok El [Hb Hs] Hv. unfold es_transform_no_ttl.
  pose proof (transform_spec (R := Bytes) (Err := Bytes) (es_map sh) key true (λ _, inr (value, value)) now_ms (sh_map sh Hok) Hb) as Ht. cbv beta zeta iota in Ht.
  destruct (transform_value_hashed _ _ _ _ _ _) as [result m]. simpl in Ht. destruct Ht as (-> & m1 & [Hm1 Ec _ Hbm] & [Hl _] & ->).
  rewrite enforce_below by (rewrite Hl; by rewrite (sh_unlimited sh Hok)). simpl. rewrite Ec, lookup_insert_eq.
  split; [done|]. split; [done|]. unfold es_stored_bytes. simpl.
  assert (blen value ≤ stored_bytes m1)%Z.
  { assert (contents m1 !! key = Some (mkEntry key value None None)) as Hk by (rewrite Ec; apply lookup_insert_eq).
    apply entry_map_lookup_Some in Hk as (e & He & <- & Ee).
    pose proof (ebytes_le m1 e (proj1 Hm1) He) as Hle. unfold ebytes in Hle.
    replace (fe_value e) with value in Hle by (by injection Ee).
    pose proof (blen_nonneg (fe_key e)). destruct (elem_placed m1 e (proj1 Hm1) He).
    assert (0 ≤ default 0 (fe_semantic e))%Z.
    { pose proof (ok_placed m1 (proj1 Hm1)) as Hp. rewrite Forall_forall in Hp. unfold flat_entries in He.
      apply list_elem_of_fmap in He as (x & -> & Hx). by destruct (Hp x Hx) as (_ & _ & ?). }
    destruct (fe_governance e) as [g|]; simpl in Hle; [pose proof (blen_nonneg g)|]; lia. }
  pose proof (slots_bytes_nonneg _ (sh_slots sh Hok)). pose proof (stored_bound m1 (proj1 Hm1)).
  pose proof (ok_budget m1 (proj1 Hm1)). pose proof (ok_evictions m1 (proj1 Hm1)). unfold u64_saturating_add. lia.
Qed.
End properties.

(** ** Witnesses *)
#[local] Existing Instance Concrete.hashing.
#[local] Existing Instance Concrete.hash_table.

Definition slots_demo : list SlotRequest :=
  [SlotSet (text "u1") (text "a") [1; 2];
   SlotReplace (text "u2") [(text "b", [3]); (text "c", [4; 5; 6]); (text "b", [7; 8])];
   SlotSet (text "u2") (text "c") [9];
   SlotGet (text "u2") (text "b");
   SlotGet (text "u2") (text "c");
   SlotDelete (text "u1") (text "a");
   SlotGet (text "u1") (text "a");
   SlotEvict Lru]%Z.

Lemma session_slots_refine_witness :
  ∃ answers (m : SessionSlotMap (HT := Concrete.LHT)),
    slot_run slots_new slots_demo = Some (answers, m) ∧ spec_run ∅ slots_demo answers (slots_map m) ∧
    slot_bytes m = sum_of (λ x, sum_of slot_weight (slab_elems x.2)) (sessions m).
Proof.
  refine (session_slots_refine (HT := Concrete.LHT) slots_demo _ _); [|vm_compute; discriminate].
  unfold slots_demo. repeat (apply Forall_cons_2; [first [exact I|vm_compute; discriminate]|]). apply Forall_nil_2.
Defined.

(** A chunk of a session, a plain value over it, the chunk again, a governed
    value and a deadline, and a counter that is appended to and removed. *)
Definition chunk_key : Bytes := text "kv@session%u1".
Definition chunk_session : Bytes := text "lmcache-session:u1".
Definition append (suffix : Bytes) (old : option Bytes) : Bytes + (Bytes * Bytes) :=
  if old is Some v then inr ([blen (v ++ suffix)], v ++ suffix) else inl [0%Z].
Definition shard_demo : list (Z * ShardRequest) :=
  [(1, EsSetChunk chunk_session chunk_key [1; 2; 3]);
   (2, EsGet chunk_key);
   (3, EsSet chunk_key [4] (Some 10));
   (4, EsGet chunk_key);
   (11, EsGet chunk_key);
   (12, EsSetSlice chunk_key [5; 6] None true);
   (13, EsSetChunk chunk_session chunk_key [7]);
   (14, EsGet chunk_key);
   (15, EsSetProtected (text "g") [8] [9] None);
   (16, EsGet (text "g"));
   (17, EsTransform (text "k") true (append [1]));
   (18, EsSet (text "k") [2] (Some 30));
   (19, EsTransform (text "k") false (append [3]));
   (20, EsGet (text "k"));
   (30, EsTransform (text "k") false (append [4]));
   (31, EsSet (text "k") [5] None);
   (32, EsUpdate (text "k") true (λ v, (v, (λ x, x + 1) <$> v)));
   (33, EsRemove (text "k"));
   (34, EsGet (text "k"))]%Z.


Lemma shard_refines_witness :
  (fst <$> shard_run (with_limits None Lru : EmbeddedShard (HT := Concrete.LHT)) shard_demo) =
    Some [AUnit; AValue (Some [1; 2; 3]); AUnit; AValue (Some [4]); AValue None; AUnit; AUnit; AValue (Some [7]);
          AUnit; AValue None;
          AResult (inl [0]); AUnit; AResult (inr [2]); AValue (Some [2; 3]); AResult (inl [0]); AUnit;
          AValue (Some [5]); AValue (Some [6]); AValue None]%Z ∧
  ∃ answers (sh : EmbeddedShard (HT := Concrete.LHT)) V,
    shard_run (with_limits None Lru) shard_demo = Some (answers, sh) ∧ shows sh V ∧ shard_allowed None ∅ shard_demo answers V.
Proof.
  split; [vm_compute; reflexivity|]. refine (shard_refines (HT := Concrete.LHT) None Lru shard_demo _).
  vm_compute. repeat lazymatch goal with |- _ ∧ _ => split end; try discriminate; try reflexivity.
  intros v. induction v as [|x v IH]; [reflexivity|exact (f_equal S IH)].
Defined.



(** A session with one chunk, and another key of the session with a plain value. *)
Lemma published_read_demo :
  ∃ (sh : EmbeddedShard (HT := Concrete.LHT)) answers,
    let other := text "kv2@session%u1" in
    shard_run (with_limits None Lru) [(1, EsSetChunk chunk_session chunk_key [1]); (2, EsSet other [2] None)]%Z =
      Some (answers, sh) ∧
    (fst <$> get_ref_hashed_session_or_flat sh (hash_key other) other 3) = Some (Some [2%Z]) ∧
    (fst <$> get_ref_hashed_published_session_or_flat sh (hash_key other) other 3) = Some None.
Proof. eexists _, _. split; [reflexivity|]. split; vm_compute; reflexivity. Qed.

Lemma shard_transform_unbounded_witness :
  let sh := with_limits (Some 2%Z) Lru : EmbeddedShard (HT := Concrete.LHT) in
  let '(result, sh') := es_transform_no_ttl sh (hash_key (text "k")) (text "k") 5
                          (λ _, inr ([1; 2; 3], [1; 2; 3])%Z : Bytes + (Bytes * Bytes)) in
  result = inr [1; 2; 3]%Z ∧ contents (es_map sh') !! text "k" = Some (mkEntry (text "k") [1; 2; 3]%Z None None) ∧
  (2 < es_stored_bytes sh')%Z.
Proof.
  apply (shard_transform_unbounded (with_limits (Some 2%Z) Lru) 2 (text "k") [1; 2; 3]%Z 5).
  - apply with_limits_ok.
  - reflexivity.
  - split; vm_compute; discriminate.
  - reflexivity.
Defined.
