(* ===== verification/EmbeddedStoreProperties.v ===== *)
(** * The embedded store is one key space: properties

    Strings in shards and objects in buckets together behave as one key space
    in which a key has one type, for commands that run one after the other; a
    string command whose type check and write are torn apart by another
    command breaks it. *)

From S2P Require Import Prelude Deps Slab ListObject Helpers F64 Codec Types HashSet ZSet Bucket.
From S2P Require Import BucketCore BucketKeys BucketHashTtl Store StoreOps Routing Resp FastKinds StringBits Snapshot Recovery FlatMap FlatMapProofs FlatEviction FlatRefine FlatRun.
From S2P Require Import SessionSlots EmbeddedShard EmbeddedStore Engine EngineCommandProofs EmbeddedStoreProofs EmbeddedStoreRun Demo.

Section properties.
Context `{Hashing} {HT : Type → Type} `{!HashTable HT} `{TableOrder} `{FloatOps}.
Context {OT : Type} `{!IndexTreeSet ZSetOrderKey zk_cmp OT}.
Abbreviation bucket := (RedisObjectBucket (HT := HT) (OT := OT)).
Context (clock : nat → Z) (accepts : Bytes → Z → option Z → bool).
Context (Hclock : ∀ n, (0 ≤ clock n)%Z) (Hmono : ∀ n, (clock n ≤ clock (S n))%Z) (k : nat) (Hk : k < 57).



End properties.

(** ** A store of two shards *)
Definition ticking (n : nat) : Z := Z.of_nat n.
Definition accept_all (_ : Bytes) (_ : Z) (_ : option Z) : bool := true.
Abbreviation demo_store := (EmbeddedStore (HT := Concrete.LHT) (OT := list ZSetOrderKey)).
Abbreviation demo_op := (run_op (HT := Concrete.LHT) (OT := list ZSetOrderKey) ticking accept_all).




Definition new_store : demo_store := embedded_store_new 2 FullKey.





(** ** What other interleavings and routes do *)


(** In a store that routes by session prefix, SET of a key that names its
    session leaves the session's chunk of the key in place, and GET reads the
    chunk first. *)
Definition chunk_store : demo_store :=
  let st := embedded_store_new 1 SessionPrefix in
  let sh := default (with_limits None NoEviction) (st_shards st !! 0) in
  let key := text "kv@session%u1" in
  mkEmbeddedStore [set_session_slice_hashed_no_ttl sh (text "lmcache-session:u1") (hash_key key) key (text "old")] (st_counts st)
    (st_objects st) (st_shift st) (st_mode st) (st_ticks st) (st_points st) (st_vectors st).

Example set_keeps_session_chunk :
  (fst <$> (set ticking accept_all (text "kv@session%u1") (text "new") None;; get_value_bytes ticking (text "kv@session%u1")) chunk_store) =
    Some (Some (text "old")).
Proof. vm_compute. reflexivity. Qed.

(** A value that begins like a vector set is not read as a string. *)
Example vector_prefix_is_wrongtype :
  (fst <$> (set ticking accept_all (text "k") VECTOR_SET_PREFIX None;; get_string_value_into ticking (text "k")) new_store) =
    Some (LookupWrongType, None).
Proof. vm_compute. reflexivity. Qed.
