(* ===== verification/StringCommandsProperties.v ===== *)
(** * String commands: properties

    LCS finds a longest common subsequence, and its two algorithms agree;
    counters of the embedded store add up. *)

From S2P Require Import Prelude Deps Slab ListObject Helpers F64 Codec Types HashSet ZSet Bucket.
From S2P Require Import BucketCore BucketKeys Store StoreOps Routing Resp FastKinds StringBits Snapshot Recovery FlatMap FlatMapProofs FlatEviction FlatRefine FlatRun.
From S2P Require Import SessionSlots EmbeddedShard EmbeddedStore Engine EngineCommandProofs EmbeddedStoreProofs EmbeddedStoreRun Lcs StringCommands StringCommandsProofs Demo.

(** C23: For strings shorter than 2 GiB the table of LCS is filled and walked
    back without an index out of range and in at most as many steps as the two
    strings have bytes; the answer is a common subsequence, no common
    subsequence is longer, the ranges of IDX are equal stretches of the two
    strings whose lengths add up to it, and the one-row algorithm behind LEN
    answers the same length, whichever string is the longer one. *)
Theorem lcs_optimal (a b : Bytes) :
  short a → short b →
  ∃ sequence matches total,
    longest_common_subsequence a b = Some (sequence, matches, total) ∧ lcs_length a b = Some total ∧
    Z.of_nat (length sequence) = total ∧ sequence `sublist_of` a ∧ sequence `sublist_of` b ∧
    (∀ s : Bytes, s `sublist_of` a → s `sublist_of` b → (Z.of_nat (length s) ≤ total)%Z) ∧
    Forall (range_ok a b) matches ∧ Z.of_nat (match_total matches) = total.
Proof.
  intros Ha Hb. destruct (longest_common_subsequence_ok a b Ha) as (s & m & E & H1 & H2 & H3 & H4 & H5).
  eexists s, m, _. split; [done|]. split; [by apply lcs_length_ref|]. split; [by rewrite H3|]. split; [done|]. split; [done|].
  split; [|split; [done|by rewrite H5, H3]]. intros s' Hs1 Hs2. apply sublist_reverse in Hs1, Hs2.
  pose proof (lcs_ref_bound _ _ _ Hs1 Hs2) as Hle. rewrite length_reverse in Hle. lia.
Qed.

Lemma lcs_optimal_witness :
  longest_common_subsequence (text "ohmytext") (text "mynewtext") =
    Some (text "mytext", [mkLcsMatch 4 7 5 8 4; mkLcsMatch 2 3 0 1 2], 6%Z) ∧
  ∃ sequence matches total,
    longest_common_subsequence (text "ohmytext") (text "mynewtext") = Some (sequence, matches, total) ∧
    lcs_length (text "ohmytext") (text "mynewtext") = Some total ∧
    Z.of_nat (length sequence) = total ∧ sequence `sublist_of` text "ohmytext" ∧ sequence `sublist_of` text "mynewtext" ∧
    (∀ s : Bytes, s `sublist_of` text "ohmytext" → s `sublist_of` text "mynewtext" → (Z.of_nat (length s) ≤ total)%Z) ∧
    Forall (range_ok (text "ohmytext") (text "mynewtext")) matches ∧ Z.of_nat (match_total matches) = total.
Proof.
  split; [vm_compute; reflexivity|]. apply (lcs_optimal (text "ohmytext") (text "mynewtext")); vm_compute; reflexivity.
Defined.

Section counters.
Context `{Hashing} {HT : Type → Type} `{!HashTable HT} `{TableOrder} `{FloatOps}.
Context {OT : Type} `{!IndexTreeSet ZSetOrderKey zk_cmp OT}.
Context (clock : nat → Z) (accepts : Bytes → Z → option Z → bool).
Context (Hclock : ∀ n, (0 ≤ clock n)%Z) (Hmono : ∀ n, (clock n ≤ clock (S n))%Z) (k : nat) (Hk : k < 57).
Abbreviation EmbeddedStore := (EmbeddedStore (HT := HT) (OT := OT)).

(** The answers of a counter that shows [n] and is changed by [ds]. *)
Fixpoint counter_answers (n : Z) (ds : list Z) : list Frame :=
  match ds with
  | [] => []
  | d :: ds => let '(r, n) := counted (λ current, i64_checked_add current d) n in answer int r :: counter_answers n ds
  end.

Definition incrby_all (key : Bytes) (ds : list Z) : ES (HT := HT) (OT := OT) (list Frame) :=
  mapM (λ d, incrby_execute clock accepts [key; i64_to_string d]) ds.

Lemma incrby_all_does key (ds : list Z) : ∀ (st : EmbeddedStore) (n B : Z),
  counts clock k st key n B → is_i64 n → Forall is_i64 ds → (∀ value, accepts key (blen value) None = true) →
  (B + Z.of_nat (length ds) * counter_weight key + 1 < i64_MAX)%Z →
  ∃ st', incrby_all key ds st = Some (counter_answers n ds, st').
Proof.
  induction ds as [|d ds IH]; intros st n B Hc Hn Hf Hacc Hr; [by exists st|]. apply Forall_cons in Hf as [Hd Hf].
  assert (0 ≤ counter_weight key)%Z by (unfold counter_weight, blen; lia).
  destruct (counter_step clock accepts Hmono k Hk key (λ current, i64_checked_add current d) st n B Hc Hn Hacc)
    as (r & st1 & E & -> & Hc1); [simpl in Hr; nia|].
  destruct (IH st1 _ _ Hc1 (counted_i64 n d Hn) Hf Hacc) as (st' & E'); [simpl in Hr; nia|]. exists st'.
  change ((y ← incrby_execute clock accepts [key; i64_to_string d]; ys ← incrby_all key ds; mret (y :: ys)) st =
          Some (counter_answers n (d :: ds), st')).
  cbn [incrby_execute counter_answers]. rewrite (redis_parse_text d Hd). unfold incrby_value, mbind, es_bind, mret, es_ret in *.
  rewrite E, E'. by destruct (counted _ n).
Qed.

(** C24: In a new store INCRBY of one key by any 64-bit amounts answers the
    running sum, or the overflow error without touching the counter when the
    sum would leave the 64-bit range; amounts and counter travel as decimal
    text, negative ones included. *)
Theorem incrby_accumulates (key : Bytes) (ds : list Z) :
  Forall is_i64 ds → (∀ value : Bytes, accepts key (blen value) None = true) →
  (Z.of_nat (length ds) * counter_weight key + 1 < i64_MAX)%Z →
  ∃ st', incrby_all key ds (embedded_store_new (2 ^ k) FullKey) = Some (counter_answers 0 ds, st').
Proof.
  intros Hf Hacc Hr. destruct (new_linked clock k Hk) as [Hsp Hap].
  destruct (home_bucket k Hk _ _ _ _ key Hsp) as (As & a & HA & Hb & Ha).
  apply (incrby_all_does key ds _ 0 0); [|done..]. exists ∅, (no_objects k), a. split; [done|]. split; [done|]. split; [|by left].
  unfold no_objects in HA. apply lookup_replicate in HA as [-> _]. apply lookup_replicate in Hb as [-> _]. done.
Qed.
End counters.

Lemma incrby_accumulates_witness :
  ∃ st', incrby_all (HT := Concrete.LHT) (OT := list ZSetOrderKey) Z.of_nat (λ _ _ _, true) (text "n") [5; -7; i64_MIN; i64_MAX]%Z
           (embedded_store_new 4 FullKey) =
    Some ([int 5; int (-2); error "ERR increment or decrement would overflow"; int (i64_MAX - 2)]%Z, st').
Proof.
  refine (incrby_accumulates (HT := Concrete.LHT) (OT := list ZSetOrderKey) Z.of_nat (λ _ _ _, true) _ 2 _ (text "n") [5; -7; i64_MIN; i64_MAX]%Z _ _ _).
  - intros n. lia.
  - lia.
  - repeat constructor; vm_compute; discriminate.
  - done.
  - vm_compute. reflexivity.
Defined.

(** ** Ranges *)
Abbreviation demo_run x := (x (embedded_store_new 2 FullKey : EmbeddedStore (HT := Concrete.LHT) (OT := list ZSetOrderKey))).
Abbreviation ticks := Z.of_nat.
Abbreviation all_ok := (λ (_ : Bytes) (_ : Z) (_ : option Z), true).

(** SETRANGE, GETRANGE with negative bounds, BITOP and LCS on one store. *)
Example string_commands_run :
  fst <$> demo_run (
    x1 ← setrange_execute ticks all_ok [text "s"; text "2"; text "abc"];
    x2 ← getrange_execute ticks [text "s"; text "-3"; text "-2"];
    _ ← mset_execute ticks all_ok [text "p"; text "ohmytext"; text "q"; text "mynewtext"];
    x3 ← execute_lcs ticks [text "p"; text "q"; text "len"];
    x4 ← bitop_execute ticks all_ok [text "and"; text "r"; text "p"; text "p"];
    x5 ← mget_execute ticks [text "r"; text "none"];
    x6 ← msetnx_execute ticks all_ok [text "new"; text "1"; text "p"; text "2"];
    mret [x1; x2; x3; x4; x5; x6]) =
  Some [int 5; bulk (text "ab"); int 6; int 8; Resp.Array [bulk (text "ohmytext"); Null]; int 0].
Proof. vm_compute. reflexivity. Qed.

(** An offset beyond the address space is not refused: the buffer cannot be
    resized. *)
Example setrange_panics : demo_run (setrange_execute ticks all_ok [text "k"; text "9223372036854775807"; text "x"]) = None.
Proof. vm_compute. reflexivity. Qed.

(** An empty replacement on a missing key creates a string of zero bytes. *)
Example setrange_empty_creates :
  fst <$> demo_run (setrange_execute ticks all_ok [text "k"; text "3"; []] ;; strlen_execute ticks [text "k"]) = Some (int 3).
Proof. vm_compute. reflexivity. Qed.

(** * Bits of strings

    BITFIELD on bytes is the obvious machine on a list of bits, for every
    accepted request; fields written are read back and leave other fields
    alone; BITCOUNT, BITPOS and BITOP are what they are on lists of bits. *)

Local Open Scope Z_scope.

(** C20: BITFIELD refines a list of bits.  Whatever arguments the parser
    accepts, and whatever the string holds, the operations run without an
    index out of range, answer what the same operations answer on the list of
    bits of the string (fields as two's-complement integers, increments exact
    or wrapped, saturated or refused as the overflow policy says), and leave
    the string whose bits are that list. *)
Theorem bitfield_refines (args : list Bytes) (ops : list BitFieldOp) (value : Bytes) :
  parse_ops args = inr ops → Forall is_u8 value →
  ∃ responses value', write_ops value ops = Some (responses, value') ∧ Forall is_u8 value' ∧
                      spec_ops (bits_of value) ops = (responses, bits_of value').
Proof. intros Hp%parse_ops_from_ok Hu. by apply write_ops_spec. Qed.

Lemma bitfield_refines_witness :
  ∃ ops responses value',
    parse_ops (map text ["SET"; "u8"; "#1"; "300"; "OVERFLOW"; "SAT"; "INCRBY"; "i5"; "4"; "20"; "GET"; "u8"; "0"])
      = inr ops ∧
    write_ops [7; 255] ops = Some (responses, value') ∧
    spec_ops (bits_of [7; 255]) ops = (responses, bits_of value') ∧
    (responses, value') = ([Some 255; Some 15; Some 7], [7; 172]).
Proof.
  destruct (parse_ops (map text ["SET"; "u8"; "#1"; "300"; "OVERFLOW"; "SAT"; "INCRBY"; "i5"; "4"; "20"; "GET"; "u8"; "0"]))
    as [f|ops] eqn:E; [by vm_compute in E|].
  destruct (bitfield_refines _ ops [7; 255] E) as (rs & v & E1 & _ & E2); [by repeat constructor|].
  vm_compute in E. injection E as <-. eexists _, rs, v. split; [reflexivity|]. split; [done|]. split; [done|].
  vm_compute in E1. by injection E1 as <- <-.
Defined.

(** Fields round trip.  Writing any integer to an accepted field and
    reading the field back gives the integer modulo [2^bits] in the range of
    the encoding, the integer itself when it is in that range, and every field
    that does not overlap reads as before. *)
Theorem bitfield_roundtrip (raw_encoding raw_offset value : Bytes) (e : BitEncoding) (o x : Z) :
  parse_encoding raw_encoding = inr e → parse_field_offset raw_offset (bits e) = inr o → Forall is_u8 value →
  ∃ value', write_field value e o x = Some value' ∧
    read_field value' e o = wrap_value x e ∧
    (∃ k, read_field value' e o = x + k * 2 ^ bits e) ∧
    (in_bounds e x = true → read_field value' e o = x) ∧
    ∀ e' o', encoding_ok e' → 0 ≤ o' → o' + bits e' ≤ o ∨ o + bits e ≤ o' →
      read_field value' e' o' = read_field value e' o'.
Proof.
  intros He%parse_encoding_ok [Ho _]%parse_field_offset_ok Hu. pose proof (encoding_ok_bits e He).
  destruct (write_field_spec value e o x He Ho Hu) as (v & Ev & Hv & Hb). exists v. split; [done|].
  set (n := Z.to_nat (bits e)) in *. pose proof (field_bits_length n x) as Hn.
  assert (Hn0 : (0 < length (field_bits n x))%nat) by (rewrite Hn; unfold n; lia).
  assert (Hr : read_field v e o = interpret e (field_bits n x)).
  { rewrite read_field_spec, Hb by done. fold n. rewrite <- Hn at 2. by rewrite field_at_put. }
  split; [rewrite Hr; symmetry; by apply wrap_value_spec|]. rewrite Hr. split; [|split].
  - unfold interpret. rewrite be_value_field_bits. unfold n. rewrite Z2Nat.id by lia.
    pose proof (Z.div_mod x (2 ^ bits e)) as Hx. pose proof (pow2_le (bits e) (bits e)).
    destruct (_ && _); [exists (- (x / 2 ^ bits e) - 1)|exists (- (x / 2 ^ bits e))]; lia.
  - by apply interpret_field_bits.
  - intros e' o' He' Ho' Hd. pose proof (encoding_ok_bits e' He').
    rewrite !read_field_spec, Hb by done. f_equal. apply field_at_put_other; [done|].
    rewrite Hn. unfold n. lia.
Qed.

Lemma bitfield_roundtrip_witness :
  ∃ value', write_field [1; 2] (mkEncoding true 12) 6 (-5) = Some value' ∧
            read_field value' (mkEncoding true 12) 6 = -5 ∧
            read_field value' (mkEncoding false 6) 0 = read_field [1; 2] (mkEncoding false 6) 0.
Proof.
  destruct (bitfield_roundtrip (text "i12") (text "6") [1; 2] (mkEncoding true 12) 6 (-5))
    as (v & Ev & _ & _ & Hx & Hd); [done|done|by repeat constructor|].
  exists v. split; [done|]. split; [by apply Hx|]. apply Hd; [done|done|by left].
Defined.

(** C25: BITPOS finds the first bit.  The answer is the first position of the
    range that holds the bit; when there is none the answer is -1, except for a
    clear bit and a range without an end: then it is the first position past
    the string that is not before the start of the range, the length of the
    string in bits or the bit position of the start (at most the largest
    [i64]), whichever is larger. *)
Theorem bitpos_finds_first (value : Bytes) (bit : bool) (start stop : option Z) (unit_ : BitRangeUnit) :
  fits (8 * length value) → (∀ s, start = Some s → is_i64 s) → (∀ s, stop = Some s → is_i64 s) →
  let p := find_bit_position value bit start stop unit_ in
  (∃ o, in_window value start stop unit_ o ∧ bits_of value !! o = Some bit ∧ p = Z.of_nat o ∧
        ∀ j, in_window value start stop unit_ j → (j < o)%nat → bits_of value !! j ≠ Some bit) ∨
  ((∀ j, in_window value start stop unit_ j → bits_of value !! j ≠ Some bit) ∧
   p = if negb bit && bool_decide (stop = None) then first_past value start unit_ else -1).
Proof. apply find_bit_position_spec. Qed.

Lemma bitpos_finds_first_witness :
  find_bit_position [255; 16; 0] true (Some 1) (Some (-1)) UnitByte = 11 ∧
  ¬ (∀ j, in_window [255; 16; 0] (Some 1) (Some (-1)) UnitByte j → bits_of [255; 16; 0] !! j ≠ Some true) ∧
  find_bit_position [255; 255] false (Some 5) None UnitByte = 40.
Proof.
  destruct (bitpos_finds_first [255; 16; 0] true (Some 1) (Some (-1)) UnitByte) as [(o & Hw & Hb & _ & _)|[_ E]].
  - by vm_compute.
  - by intros s [= <-].
  - by intros s [= <-].
  - split; [done|]. split; [intros Hc; by apply (Hc o)|].
    destruct (bitpos_finds_first [255; 255] false (Some 5) None UnitByte) as [(o' & [Hw' Hl] & _)|[_ E]].
    + by vm_compute.
    + by intros s [= <-].
    + done.
    + exfalso. destruct Hw' as [Hw' _]. change (2 <= o' / 8)%nat in Hw'. change (o' / 8 < 2)%nat in Hl. lia.
    + rewrite E. by vm_compute.
  - by vm_compute in E.
Defined.

(** The count of BITCOUNT is the number of ones of its range, in bytes or in bits. *)
Theorem bitcount_counts_ones (value : Bytes) (start stop : Z) (unit_ : BitRangeUnit) :
  fits (8 * length value) → Forall is_u8 value → is_i64 start → is_i64 stop →
  count_bits_in_range value start stop unit_ =
  match unit_ with
  | UnitByte => ones (bits_of (clamped_slice start stop value))
  | UnitBit => ones (clamped_slice start stop (bits_of value))
  end.
Proof. apply count_bits_in_range_spec. Qed.

(** Every bit of the result of AND, OR and XOR is the fold of the operator over
    the bits of the values at that position, missing bits being zero. *)
Theorem bitop_is_bitwise (operation : BitOpKind) (values : list Bytes) :
  operation ≠ OpNot →
  ∃ result, apply_bitop operation values = Some result ∧
    ∀ j, (j < 8 * foldr Nat.max 0 (map length values))%nat →
      bit_at result j =
      foldl (λ b value, bool_op operation b (bit_at value j)) (bool_decide (operation = OpAnd)) values.
Proof.
  intros Hop. unfold apply_bitop. set (len := foldr Nat.max 0%nat (map length values)).
  destruct operation; [| | |done].
  all: eexists; split; [done|]; intros j Hj; pose proof (Nat.mod_upper_bound j 8);
    rewrite fold_bitop_bit by (by rewrite length_replicate); rewrite bit_at_replicate by done;
    rewrite ?ones_255, ?Z.bits_0 by lia; by rewrite ?bool_decide_true, ?bool_decide_false by done.
Qed.
