(* ===== verification/EngineProperties.v ===== *)
(** * Properties of the engine

    A shard worker's log covers its map, a restart from the log brings back what
    the shard held, and the commands of the engine act on one map spread over
    the shards. *)

From S2P Require Import Prelude Deps Helpers Codec Wal Snapshot Recovery Segments WalPipeline WalPipelineProofs PersistenceProofs Routing Resp FastKinds FlatMap FlatMapProofs FlatEviction FlatRefine FlatRun Engine EngineProofs PointCommands EngineCommands EngineCommandProofs.

Section workers.
Context `{Hashing} {HT : Type → Type} `{!HashTable HT} {W : Type} `{!WalSink W}.
Abbreviation ShardState := (ShardState (HT := HT) (W := W)).

(** C5: the log covers the map.  A worker that starts from recovered entries
    and serves any messages, while the merger drains its log at any moments,
    has handed over records [l] numbered from one in the order of their times,
    such that every entry of its map is what replaying [l] over the recovered
    entries gives; what the replay gives beyond that has expired or is among
    the evicted keys, which the eviction counter bounds. *)
Theorem shard_log_covers_map i es limit policy (w : W) (now1 now2 t : Z) outs (st : ShardState) :
  NoDup (e_key <$> es) → (sum_of s_weight es ≤ u64_MAX)%Z → (now1 ≤ now2)%Z → (0 ≤ now2)%Z →
  worker_run now2 (worker_start i es limit policy (Some w) now1 now2) outs t st →
  ∃ w' l, sh_wal st = Some w' ∧ sink_records w' = sink_records w ++ l ∧ numbered i l ∧ in_order l ∧
    let L := state_after (list_to_map ((λ s, (e_key s, s)) <$> es)) l in
    contents (sh_map st) ⊆ L ∧
    ∃ X : gset Bytes, (Z.of_nat (size X) ≤ evictions (sh_map st))%Z ∧
      ∀ k s, L !! k = Some s → unexpired t s → k ∉ X → contents (sh_map st) !! k = Some s.
Proof.
  intros Hnd Hw H12 Hpos Hrun.
  destruct (worker_run_inv (sink_records w) (list_to_map ((λ s, (e_key s, s)) <$> es)) i now2 _ outs t st Hpos Hrun)
    as (w' & l & [E1 E2 [_ Hsub HX] _ _ Hn _ Ho]); [exists w, []; by apply worker_start_inv|].
  exists w', l. rewrite Z.sub_0_r in HX. by split_and!.
Qed.

(** C12: a restart keeps the shard.  A shard recovers its part of a log and runs;
    later the log has grown by records of all the shards, among which, in their
    order, those this shard handed over, each key's records being those of the
    shard that owns the key.  The entries the next start recovers for the shard
    are those it had: all that have not expired meanwhile come back, and nothing
    else but keys that the shard had evicted. *)
Theorem restart_keeps_live shift mode i (old log : list MutationRecord) limit policy (w w' : W) (now1 now2 t now3 : Z) outs (st : ShardState) :
  let recovered rs := shard_entries (into_state (load_enabled None rs)).1 shift mode i in
  let m := from_entries (HT := HT) (recovered (old ++ map stripped log)) now3 in
  Forall (λ r, 0 ≤ rec_timestamp_ms r)%Z old → (now1 ≤ now2)%Z → (0 ≤ now2)%Z → sink_records w = [] →
  (sum_of s_weight (recovered old) ≤ u64_MAX)%Z → (sum_of s_weight (recovered (old ++ map stripped log)) ≤ u64_MAX)%Z →
  worker_run now2 (worker_start i (recovered old) limit policy (Some w) now1 now2) outs t st →
  sh_wal st = Some w' → of_shard i log = sink_records w' →
  Forall (λ r, 0 ≤ rec_timestamp_ms r)%Z log →
  (∀ r, r ∈ log → engine_route mode shift (rec_key r) = Z.of_nat (rec_shard_id r)) → (t ≤ now3)%Z →
  (∀ k s, contents (sh_map st) !! k = Some s → unexpired now3 s → contents m !! k = Some s) ∧
  ∃ X : gset Bytes, (Z.of_nat (size X) ≤ evictions (sh_map st))%Z ∧
    ∀ k s, contents m !! k = Some s → k ∉ X → contents (sh_map st) !! k = Some s.
Proof.
  intros recovered m Hold H12 Hpos Ew Hw0 Hw1 Hrun Ew' Hlog Hts Hroute Ht.
  destruct (worker_run_inv (sink_records w) (list_to_map ((λ s, (e_key s, s)) <$> recovered old)) i now2 _ outs t st
    Hpos Hrun) as (w1 & l & [E1 E2 [_ Hsub (X & HX & Hlive)] _ _ Hn _ Ho]).
  { exists w, []. apply worker_start_inv; [apply recovered_keys|done|done]. }
  assert (w1 = w') as -> by congruence. rewrite Ew in E2. simpl in E2. subst l. rewrite <- Hlog in Hsub, Hlive.
  unfold recovered in Hsub, Hlive. rewrite restart_state in Hsub, Hlive by done.
  destruct (from_entries_spec (HT := HT) (recovered (old ++ map stripped log)) now3 Hw1) as (_ & _ & Ec).
  rewrite restore_spec, (right_id_L ∅ (∪)) in Ec by apply recovered_keys.
  unfold m. rewrite Ec. split.
  - intros k s Hk Hu. apply map_lookup_filter_Some_2; [|done]. by eapply lookup_weaken.
  - exists X. rewrite Z.sub_0_r in HX. split; [done|]. intros k s (Hk & Hu)%map_lookup_filter_Some Hx.
    apply Hlive; [done| |done]. by eapply unexpired_earlier.
Qed.
End workers.

(** ** Commands *)

(** C6: the engine is one map.  An engine opened with a power of two of shards,
    routing by the full key (its default mode), without a log and without a
    memory limit, returns for any commands, parsed from their arguments, the
    answers of a single map from keys to entries, and every entry is held by
    the shard of its key; EXPIRE and PEXPIRE must come without NX, XX, GT and LT
    ([unconditional]), which the engine ignores ([expire_condition_ignored]).
    In the mode that routes by slots it is not one map ([slot_key_not_found]). *)
Theorem engine_is_a_map `{Hashing} {HT : Type → Type} `{!HashTable HT} {W : Type} `{!WalSink W}
    (clock instant : nat → Z) (unique : nat → bool) k policy now_ms commands :
  (∀ n, (0 ≤ clock n)%Z) → k < 57 → Forall unconditional commands → (sum_of parts_weight commands ≤ u64_MAX)%Z →
  ∃ e', engine_run (HT := HT) (W := W) clock instant unique (open_engine (2 ^ k) FullKey None policy now_ms) commands =
          Some ((spec_run clock (∅, 0) commands).1, e') ∧
    ∀ key st, eng_shards e' !! home (Z.of_nat k) key = Some st →
      contents (sh_map st) !! key = (spec_run clock (∅, 0) commands).2.1 !! key.
Proof.
  intros Hc Hk Hu Hw.
  destruct (engine_run_spec (HT := HT) (W := W) clock instant unique Hc (Z.of_nat k) ltac:(lia) commands
    (open_engine (2 ^ k) FullKey None policy now_ms) ∅ 0 Hu (open_engine_ok k policy now_ms Hk) Hw) as (e' & E & Hok).
  exists e'. split; [done|]. apply Hok.
Qed.

(** The two parsers of SET options agree.  What the server's parser accepts
    without a condition and without KEEPTTL, the storage parser accepts with the
    same time to live. *)
Theorem set_option_parsers_agree args o :
  parse_set_options set_options_default args = Some o → so_condition o = SetAlways → so_keep_ttl o = false →
  parse_storage_options None args = inr (so_ttl_ms o).
Proof. exact (set_options_agree args set_options_default o). Qed.

(** ** Witnesses *)
Section steps.
Context `{Hashing} {HT : Type → Type} `{!HashTable HT} {W : Type} `{!WalSink W}.
Abbreviation ShardState := (ShardState (HT := HT) (W := W)).

(** Messages served one after the other, nothing drained between. *)
Fixpoint worker_steps (t : Z) (st : ShardState) (ms : list (Z * ShardMessage)) : option (list WorkerOutput * Z * ShardState) :=
  match ms with
  | [] => Some ([], t, st)
  | (now_ms, message) :: ms =>
      '(out, st1) ← worker_step st message now_ms now_ms true;
      '(outs, t', st') ← worker_steps now_ms st1 ms; Some (out :: outs, t', st')
  end.

Fixpoint steps_ok (t : Z) (st : ShardState) (ms : list (Z * ShardMessage)) : Prop :=
  match ms with
  | [] => True
  | (now_ms, message) :: ms =>
      (t ≤ now_ms)%Z ∧ message_ok (sh_map st) message ∧
      match worker_step st message now_ms now_ms true with Some (_, st1) => steps_ok now_ms st1 ms | None => False end
  end.

Lemma worker_steps_run t st ms outs t' st' :
  steps_ok t st ms → worker_steps t st ms = Some (outs, t', st') → worker_run t st outs t' st'.
Proof.
  revert t st outs. induction ms as [|[now_ms message] ms IH]; intros t st outs Hok Hs; simpl in *.
  - simplify_eq. constructor.
  - destruct Hok as (Ht & Hm & Hok). destruct (worker_step _ _ _ _ _) as [[out st1]|] eqn:E; [|done]. simpl in Hs.
    apply bind_Some in Hs as ([[outs1 t1] st2] & Hs & Hst). simplify_eq. econstructor; [done|done|done|]. by apply IH.
Qed.
End steps.

#[local] Existing Instance Concrete.hashing.
#[local] Existing Instance Concrete.hash_table.

Definition empty_log : ShardLog := mkShardLog (mkAppender [] 0 2 1000 1000 0) (mkChannel 4 [] true) [].
Definition demo_key (k : Z) : ShardKey := InlineKey [k].
Definition demo_old : list MutationRecord :=
  [mkRecord 0 1 1 OpSet [98] [1] None None; mkRecord 0 2 2 OpSet [97] [2] (Some 30) None]%Z.
Definition demo_start : ShardState (HT := Concrete.LHT) (W := ShardLog) :=
  worker_start 0 (shard_entries (into_state (load_enabled None demo_old)).1 63 FullKey 0) None NoEviction (Some empty_log) 5 5.
Definition demo_messages : list (Z * ShardMessage) :=
  [(6, MExecute (SSet (hash_key [99]) (demo_key 99) (InlineValue [7]) (Some 40)));
   (7, MExecute (SDelete (hash_key [98]) (demo_key 98)));
   (8, MExecute (SGetEx (hash_key [97]) (demo_key 97) Persist));
   (9, MTimeout true); (10, MExecute (SGet [97])); (11, MShutdown)]%Z.
Definition demo_run := worker_steps 5 demo_start demo_messages.

Definition demo_outputs : list WorkerOutput :=
  [OExecuted (inr ReplyOk); OExecuted (inr (ReplyInteger 1)); OExecuted (inr (ReplyValue (Some [2%Z])));
   ONothing; OExecuted (inr (ReplyValue (Some [2%Z]))); OShutdown].

Lemma demo_outputs_eq : (λ x, x.1) <$> demo_run = Some (demo_outputs, 11%Z).
Proof. by vm_compute. Qed.

Lemma demo_steps_ok : steps_ok 5 demo_start demo_messages.
Proof. vm_compute. repeat split; discriminate. Qed.

Lemma demo_worker_run outs t st : demo_run = Some (outs, t, st) → worker_run 5 demo_start outs t st.
Proof. exact (worker_steps_run 5 demo_start demo_messages outs t st demo_steps_ok). Qed.

Lemma shard_log_covers_witness :
  match demo_run with
  | Some (outs, t, st) =>
      outs = demo_outputs ∧ ∃ w' l, sh_wal st = Some w' ∧ sink_records w' = l ∧ numbered 0 l ∧ in_order l
  | None => False
  end.
Proof.
  pose proof demo_outputs_eq as Eo. destruct demo_run as [[[outs t] st]|] eqn:E; [|done].
  injection Eo as -> ->. split; [done|].
  edestruct (shard_log_covers_map (HT := Concrete.LHT) (W := ShardLog) 0
    (shard_entries (into_state (load_enabled None demo_old)).1 63 FullKey 0) None NoEviction empty_log 5 5 11 demo_outputs st)
    as (w' & l & H1 & H2 & H3 & H4 & _).
  - apply (bool_decide_unpack _); by vm_compute.
  - by vm_compute.
  - lia.
  - lia.
  - exact (demo_worker_run _ _ _ E).
  - exists w', l. exact (conj H1 (conj H2 (conj H3 H4))).
Defined.

(** The whole log: this shard's records only. *)
Definition demo_log : list MutationRecord :=
  match demo_run with
  | Some (_, _, st) => match sh_wal st with Some w => sink_records w | None => [] end
  | None => []
  end.

Definition demo_restarted : FlatMap (HT := Concrete.LHT) :=
  from_entries (shard_entries (into_state (load_enabled None (demo_old ++ map stripped demo_log))).1 63 FullKey 0) 39.

Lemma demo_log_ok :
  Forall (λ r, 0 ≤ rec_timestamp_ms r)%Z demo_log ∧ of_shard 0 demo_log = demo_log ∧
  Forall (λ r, engine_route FullKey 63 (rec_key r) = Z.of_nat (rec_shard_id r)) demo_log.
Proof. split; [|split; [by vm_compute|]]; (apply (bool_decide_unpack _); by vm_compute). Qed.

Lemma demo_log_eq outs t st :
  demo_run = Some (outs, t, st) → (t = 11)%Z ∧ ∃ w, sh_wal st = Some w ∧ demo_log = sink_records w.
Proof.
  intros E. pose proof demo_outputs_eq as Eo. rewrite E in Eo. simpl in Eo. injection Eo as _ ->. split; [done|].
  assert (match demo_run with Some x => match sh_wal x.2 with Some _ => true | None => false end | None => false end = true)
    as Hs by by vm_compute.
  unfold demo_log. rewrite E in *. simpl in Hs |- *. destruct (sh_wal st) as [w|]; [|discriminate]. exists w. split; reflexivity.
Qed.

Lemma restart_keeps_witness :
  e_key <$> (map_to_list (contents demo_restarted)).*2 = [[99%Z]; [97%Z]] ∧
  match demo_run with
  | Some (_, _, st) => ∀ k s, contents (sh_map st) !! k = Some s → unexpired 39 s → contents demo_restarted !! k = Some s
  | None => False
  end.
Proof.
  split; [by vm_compute|]. destruct demo_run as [[[outs t] st]|] eqn:E; [|by vm_compute in E].
  pose proof (demo_log_eq outs t st E) as (Et & w' & Ew & El). pose proof (demo_worker_run outs t st E) as Hrun.
  clear E. destruct demo_log_ok as (Hts & Hsh & Hroute).
  refine (proj1 (restart_keeps_live (HT := Concrete.LHT) (W := ShardLog) 63 FullKey 0 demo_old demo_log None NoEviction
    empty_log w' 5 5 t 39 outs st _ _ _ _ _ _ Hrun Ew _ Hts _ _)).
  - apply (bool_decide_unpack _); by vm_compute.
  - lia.
  - lia.
  - by vm_compute.
  - by vm_compute.
  - by vm_compute.
  - by rewrite Hsh.
  - by apply Forall_forall.
  - lia.
Defined.

Definition demo_clock (n : nat) : Z := Z.of_nat n.
Definition demo_commands : list (list Bytes) :=
  [[text "set"; text "k"; [1%Z]; text "EX"; text "2"]; [text "GET"; text "k"]; [text "PTTL"; text "k"];
   [text "EXISTS"; text "k"; text "j"; text "k"]; [text "SET"; text "j"; [2%Z]]; [text "DEL"; text "k"; text "j"; text "k"];
   [text "GET"; text "k"]; [text "TTL"]; [text "SET"; text "k"; [3%Z]]; [text "EXPIRE"; text "k"; text "9"]].

Lemma engine_is_a_map_witness :
  (spec_run demo_clock (∅, 0) demo_commands).1 =
    [inr (SimpleString (text "OK")); inr (BlobString [1%Z]); inr (Integer 1997); inr (Integer 2);
     inr (SimpleString (text "OK")); inr (Integer 2); inr Null; inl (Invalid (ArityExact (text "TTL") 2 1));
     inr (SimpleString (text "OK")); inr (Integer 1)] ∧
  ∃ e', engine_run (HT := Concrete.LHT) (W := ShardLog) demo_clock demo_clock (λ _, true)
          (open_engine (2 ^ 2) FullKey None NoEviction 0) demo_commands = Some ((spec_run demo_clock (∅, 0) demo_commands).1, e').
Proof.
  split; [by vm_compute|].
  destruct (engine_is_a_map (HT := Concrete.LHT) (W := ShardLog) demo_clock demo_clock (λ _, true) 2 NoEviction 0 demo_commands)
    as (e' & E & _).
  - intros n. unfold demo_clock. lia.
  - lia.
  - repeat constructor.
  - by vm_compute.
  - exists e'. exact E.
Defined.

Lemma set_option_parsers_witness :
  parse_storage_options None [text "px"; text "70"; text "EX"; text "3"] = inr (Some 3000%Z).
Proof.
  exact (set_option_parsers_agree [text "px"; text "70"; text "EX"; text "3"] (mkSetOptions (Some 3000%Z) SetAlways false)
    eq_refl eq_refl eq_refl).
Defined.

(** ** Deviations *)

(** A key that names its slot: the magic, the shard as four bytes, the rest. *)
Definition slot_key : Bytes := OVERFLOW_SLOT_KEY_MAGIC ++ [1; 0; 0; 0; 0; 0; 0; 0; 0; 120]%Z.

Definition slot_answers (mode : EmbeddedRouteMode) : option (list (HandleError + Frame)) :=
  fst <$> engine_run (HT := Concrete.LHT) (W := ShardLog) demo_clock demo_clock (λ _, true)
    (open_engine 2 mode None NoEviction 0)
    [[text "SET"; slot_key; [1%Z]]; [text "GET"; slot_key]; [text "EXISTS"; slot_key]; [text "DEL"; slot_key]].

(** Writes and reads of slot keys disagree.  In the mode that routes a key
    by the slot it names, SET and DEL route by the hash of the key while GET and
    EXISTS follow the slot: a value just written is not found, and deleting it
    finds it.  In the other mode it is found. *)
Theorem slot_key_not_found :
  slot_answers (configured_engine_route_mode true) = Some [inr (SimpleString (text "OK")); inr Null; inr (Integer 0); inr (Integer 1)] ∧
  slot_answers (configured_engine_route_mode false) =
    Some [inr (SimpleString (text "OK")); inr (BlobString [1%Z]); inr (Integer 1); inr (Integer 1)].
Proof. by vm_compute. Qed.

(** EXPIRE ignores its condition.  The parser accepts NX; on the engine the
    command then changes a deadline that the specification, and the embedded
    store asked with the same deadline, leave alone. *)
Definition conditional_commands : list (list Bytes) :=
  [[text "SET"; text "k"; [1%Z]; text "EX"; text "5"]; [text "EXPIRE"; text "k"; text "9"; text "NX"]; [text "TTL"; text "k"]].

Theorem expire_condition_ignored :
  fst <$> engine_run (HT := Concrete.LHT) (W := ShardLog) demo_clock demo_clock (λ _, true)
    (open_engine 2 FullKey None NoEviction 0) conditional_commands =
  Some [inr (SimpleString (text "OK")); inr (Integer 1); inr (Integer 9)] ∧
  (spec_run demo_clock (∅, 0) conditional_commands).1 = [inr (SimpleString (text "OK")); inr (Integer 0); inr (Integer 5)] ∧
  expire_condition_allows ExNx 4998 9002 2 = false.
Proof. by vm_compute. Qed.
