(* ===== verification/PersistenceProperties.v ===== *)
(** * Properties of persistence

    The record and snapshot codecs, the pipeline from the shards to the log and
    what a crash leaves of it, and recovery.  Witnesses run on a small
    directory with real checksums. *)

From S2P Require Import Prelude Deps Helpers Codec Wal Snapshot Recovery Segments SegmentProofs WalPipeline WalPipelineProofs SnapshotStore PersistenceProofs.

(** ** Codecs *)

(** A log with a torn end.  A segment of completely written frames followed
    by any proper prefix of one more frame (also by nothing) decodes to the
    records of the complete frames, in order, compressed or not. *)
Theorem wal_torn_segment `{Crc32, Lz4} compress rs r p q :
  Forall rec_ok rs → rec_ok r → q ≠ [] → encode_frame r compress = p ++ q →
  decode_records (log_of compress rs ++ p) = Done (map stripped rs).
Proof. apply decode_segment. Qed.

(** A snapshot is read back.  Both encoders produce a file that the
    in-memory decoder reads: the streaming one with the entries in the order
    they were produced, the other one with the same entries ordered by key hash. *)
Theorem snapshot_roundtrip `{Hashing} es ts :
  Forall entry_ok es → is_u64 ts → is_u64 (Z.of_nat (length es)) →
  (∃ raw, write_snapshot_streaming es ts = Done raw ∧ decode_snapshot raw = Done (ts, es)) ∧
  (∃ raw es', encode_snapshot es ts = Done raw ∧ decode_snapshot raw = Done (ts, es') ∧ es' ≡ₚ es ∧
     StronglySorted (λ e e', hash_key (e_key e) ≤ hash_key (e_key e'))%Z es').
Proof.
  intros Hes Hts Hn. split.
  - exists (snapshot_bytes es ts). split; [by apply write_streaming_ok|by apply decode_written].
  - set (es' := sort_by_key (λ e, hash_key (e_key e)) es).
    assert (es' ≡ₚ es) as Hp by apply sort_by_key_perm.
    exists (snapshot_bytes es' ts), es'. split_and!; [by apply encode_snapshot_ok| |done|apply sort_by_key_sorted].
    apply decode_written; [by rewrite Hp|done|by rewrite Hp].
Qed.

(** C33: the streaming decoder is the in-memory decoder.  On any bytes it visits
    exactly the entries the in-memory decoder returns, in order, and stops at
    the visitor's first error; it rejects what the other rejects, and also
    trailing bytes, which the other ignores. *)
Theorem snapshot_stream_agrees {S} (visit : StoredEntry → S → Outcome SnapshotError S) raw st :
  (∀ e st, returns (visit e st)) → all_bytes raw →
  match decode_at raw with
  | Done (ts, es, c) =>
      c ≤ length raw ∧
      decode_stream visit raw st =
      (st' ← visit_all visit es st; if c =? length raw then Done (ts, st') else Err StreamTrailing)
  | Err _ => ∃ e, decode_stream visit raw st = Err e
  | _ => False
  end.
Proof. intros. by apply decode_stream_agrees. Qed.

(** ** The pipeline *)

Section pipeline.
Context `{Crc32, Lz4} (config : PersistenceConfig).
Context (clock : nat → Z) (Hclock : ∀ n, is_u64 (clock n)).
Context (export : option (nat → TcpExportQueueResult)).
Context (d0 : Disk) (q : Z) (old : list MutationRecord) (Hd0 : start_ok d0 q old).
Context (n : nat) (t : Z) (Ht : is_u64 t) (s0 : Sys) (Hs0 : sys_start config d0 n t = Some s0).

(** C11: a crash at any time.  Whatever the shards appended and however the
    threads interleaved, after a crash the directory still reads; behind the
    old records it holds, for every shard, a prefix of what the shard appended,
    in the shard's order. *)
Theorem crash_keeps_prefixes es s d' :
  Forall event_ok es → room q es → sys_run config clock export s0 es = Some s →
  crash (ww_disk (s_writer s)) d' →
  ∃ log, read_all d' = Done (old ++ map stripped log) ∧
         ∀ i, of_shard i log `prefix_of` appended_by i es.
Proof. by eapply pipeline_crash. Qed.

(** C34: a flush is durable.  If the merger flushed at some moment of the run,
    a crash at any later moment keeps everything the shards had appended by
    then that was no longer in a channel or pending in a shard. *)
Theorem flush_is_durable es1 now es2 s1 s d' :
  let es := es1 ++ EvFlushIfDue now :: es2 in
  Forall event_ok es → room q es →
  sys_run config clock export s0 es1 = Some s1 → s_phase s1 = Running →
  flush_due config (s_writer s1) now = true →
  sys_run config clock export s1 (EvFlushIfDue now :: es2) = Some s →
  crash (ww_disk (s_writer s)) d' →
  ∃ log1 log, read_all d' = Done (old ++ map stripped log) ∧ log1 `prefix_of` log ∧
    (∀ i, of_shard i log1 ++ default [] (flights s1 !! i) = appended_by i es1) ∧
    (∀ i, of_shard i log `prefix_of` appended_by i es).
Proof. by eapply pipeline_flushed. Qed.

(** C2: an orderly shutdown loses nothing.  When no shard has pending records,
    the stop signal leads through one drain per channel to the end of the
    merger, and then, even after a crash, recovery from the log gives a key
    that one shard owns exactly the entry that the mutations of that shard
    make of it. *)
Theorem shutdown_recovers es s now k i :
  Forall event_ok es → room q es → sys_run config clock export s0 es = Some s → s_phase s = Running →
  Forall (λ a, a_pending a = []) (s_appenders s) → Forall (λ r, 0 ≤ rec_timestamp_ms r)%Z old →
  (∀ r, r ∈ all_appended es → rec_key r = k → rec_shard_id r = i) →
  ∃ s', sys_run config clock export s (EvStop :: replicate (length (s_channels s)) EvDrain ++ [EvEnd now])
        = Some s' ∧ s_phase s' = Stopped ∧
  ∀ d', crash (ww_disk (s_writer s')) d' →
    ∃ rs, read_all d' = Done rs ∧
      acc_entries (load_enabled None rs) !! k =
      entry_fold (state_after ∅ old !! k) (key_log k (appended_by i es)).
Proof.
  intros Hok Hroom Hrun Hph Hpend Hold Hk.
  destruct (pipeline_shutdown config clock Hclock export d0 q old Hd0 n t Ht s0 Hs0 es s now) as (s' & Hr & Hp & Hc);
    [done..|].
  exists s'. split; [done|]. split; [done|]. intros d' Hd'. destruct (Hc d' Hd') as (log & Hrd & Hsh).
  exists (old ++ map stripped log). split; [done|]. apply recovered_key; [done|done|].
  apply Forall_app. split; [done|]. apply Forall_forall. intros x. change (map stripped log) with (stripped <$> log).
  intros (r & -> & Hr')%list_elem_of_fmap. cbn.
  apply all_appended_ok in Hok. rewrite Forall_forall in Hok.
  assert (r ∈ of_shard (rec_shard_id r) log) as Hin by (by apply list_elem_of_filter).
  rewrite Hsh in Hin. unfold appended_by in Hin. apply list_elem_of_filter in Hin as [_ Hin].
  destruct (Hok r Hin) as [Hts _ _ _]. unfold is_u64 in Hts. lia.
Qed.
End pipeline.

(** No channel starves.  One round of polls, as many as there are channels,
    takes the first block of every channel, from wherever the round starts
    (short of the wrap-around of the 64-bit turn counter). *)
Theorem round_serves_all `{Crc32, Lz4} config clock export s :
  s_phase s = Running → (0 ≤ ww_receiver_index (s_writer s))%Z →
  (ww_receiver_index (s_writer s) + Z.of_nat (length (s_channels s)) < two64)%Z →
  ∃ s', sys_run config clock export s (replicate (length (s_channels s)) EvPoll) = Some s' ∧
    s_phase s' = Running ∧
    ∀ j ch, s_channels s !! j = Some ch →
      ∃ ch', s_channels s' !! j = Some ch' ∧ ch_blocks ch' = drop 1 (ch_blocks ch).
Proof.
  intros Hp Hi Hw. destruct (poll_round config clock export s (length (s_channels s)) Hp ltac:(lia) Hi Hw)
    as (s' & Hr & Hp' & _ & _ & Hc).
  exists s'. split_and!; try done. intros j ch Hj. destruct (Hc j ch Hj) as (ch' & Hj' & E).
  exists ch'. split; [done|]. rewrite E. apply lookup_lt_Some in Hj.
  pose proof (Z.mod_pos_bound (Z.of_nat j - ww_receiver_index (s_writer s)) (Z.of_nat (length (s_channels s)))).
  by rewrite (proj2 (Z.ltb_lt _ _)) by lia.
Qed.

(** A shard's buffer is bounded and a failed publication loses nothing.  An
    append that succeeds leaves fewer records and bytes pending than the
    limits; one that finds the channel closed keeps the new record, and all
    before it, pending in order. *)
Theorem append_bounded a ch r now a' ch' (ok : bool) :
  appender_append a ch r now = Some (a', ch', ok) → 0 < a_max_records a → (0 < a_max_bytes a)%Z →
  (concat (ch_blocks ch') ++ a_pending a' = (concat (ch_blocks ch) ++ a_pending a) ++ [r]) ∧
  (if ok then length (a_pending a') < a_max_records a ∧ (a_pending_bytes a' < a_max_bytes a)%Z
   else ch' = ch ∧ a_pending a' = a_pending a ++ [r]).
Proof.
  intros Ha Hr Hb. destruct (appender_append_spec _ _ _ _ _ _ _ Ha) as (Hf & _ & _).
  unfold in_flight in Hf. split; [done|]. destruct ok.
  - destruct (appender_append_bounded _ _ _ _ _ _ Ha Hr Hb) as (? & ? & _). done.
  - unfold appender_append in Ha. destruct (_ || _) in Ha; [|done].
    apply appender_flush_spec in Ha as (_ & _ & _ & _ & _ & -> & -> & _). done.
Qed.

(** ** Segments *)

(** The directory lists segments in the order they were opened.  Names of
    higher sequence number sort later whatever their timestamps, the number is
    read back from the name, and the next number is above all that are there. *)
Theorem segments_in_order a b ta tb ca cb d m :
  is_u64 a → is_u64 b → is_u64 ta → is_u64 tb → (a < b)%Z →
  named_upto m d → (-1 ≤ m < u64_MAX)%Z →
  name_le (segment_name a ta ca) (segment_name b tb cb) ∧
  ¬ name_le (segment_name b tb cb) (segment_name a ta ca) ∧
  segment_sequence (segment_name a ta ca) = Some a ∧ segment_matches (segment_name a ta ca) = true ∧
  (∀ name, name ∈ paths d → ∃ x, segment_sequence name = Some x ∧ (x < next_sequence d)%Z).
Proof.
  intros Ha Hb Hta Htb Hab Hnm Hm.
  assert (name_le (segment_name a ta ca) (segment_name b tb cb)) as Hle by (by apply segment_name_le).
  split; [done|]. split.
  { intros Hle'. pose proof (anti_symm name_le _ _ Hle Hle') as E. apply (f_equal segment_sequence) in E.
    rewrite !segment_sequence_name in E by done. injection E as ->. lia. }
  split; [by apply segment_sequence_name|]. split; [by apply segment_name_matches|].
  intros name Hin. destruct (next_sequence_spec m d Hnm Hm) as (_ & _ & Hs).
  destruct (Hs name Hin) as (x & tx & cx & -> & ? & ? & ?). exists x. split; [by apply segment_sequence_name|done].
Qed.

(** ** Recovery *)

Section recovery.
Context `{Hashing, Crc32, Lz4, Lz4Frame}.

(** C10: snapshot, prune, recover.  A snapshot of time [ts] whose entry for each
    key is the key's state after some of its mutations, all later ones being of
    time [ts] or after, is written, the log is pruned through [ts], and recovery
    then gives exactly the state after all mutations of the log - provided no
    mutation carries exactly the time [ts]. *)
Theorem snapshot_recovers compress d rs base es ts d' listing :
  read_all d = Done rs → Forall (λ r, rec_timestamp_ms r ≠ ts) rs →
  Forall entry_ok es → is_u64 ts → is_u64 (Z.of_nat (length es)) → NoDup (e_key <$> es) →
  (∀ k, in_order (key_log k rs)) → snapshot_of base rs (mkLoaded ts es) →
  (∀ m t, is_Some (d !! m) → snapshot_timestamp m = Some t → (t < ts)%Z) →
  runtime_snapshot true compress d es ts = Done d' → listing ≡ₚ elements (dom d') →
  ∃ acc, recover true d' listing = Done acc ∧ acc_entries acc = state_after base rs.
Proof. intros. by eapply (snapshot_recover d rs base es ts). Qed.

(** Replaying twice is harmless.  Recovery from a snapshot taken while
    mutations went on gives the state after all of them, although mutations
    that the snapshot already contains are replayed on top of it. *)
Theorem replay_is_idempotent base records s :
  (∀ k, in_order (key_log k records)) → snapshot_of base records s →
  acc_entries (load_enabled (Some s) records) = state_after base records.
Proof. apply recovery_sound. Qed.
End recovery.

(** ** Witnesses *)
#[local] Existing Instance Concrete.hashing.
#[local] Existing Instance ConcreteWal.crc32_instance.
#[local] Existing Instance ConcreteWal.lz4_instance.

Definition tagged : Lz4Frame.
Proof.
  refine {| frame_encode b := 1%Z :: b; frame_decode b := match b with _ :: r => Some r | [] => None end |}.
  done.
Defined.
#[local] Existing Instance tagged.

Definition set_rec (shard : nat) (ts : Z) (k v : Z) : MutationRecord :=
  mkRecord shard 1 ts OpSet [k] [v] None None.
Definition del_rec (shard : nat) (ts : Z) (k : Z) : MutationRecord :=
  mkRecord shard 1 ts OpDel [k] [] None None.

Lemma set_rec_ok shard ts k v : is_u64 ts → rec_ok (set_rec shard ts k v).
Proof. intros. by split. Qed.
Lemma del_rec_ok shard ts k : is_u64 ts → rec_ok (del_rec shard ts k).
Proof. intros. split; try done. by intros [? ?]. Qed.

Lemma small_u64 z : bool_decide (0 ≤ z ≤ 1000)%Z = true → is_u64 z.
Proof. intros H%bool_decide_eq_true. unfold is_u64, u64_MAX. lia. Qed.

Lemma wal_torn_witness :
  decode_records (log_of true [set_rec 0 7 97 1] ++ take 20 (encode_frame (del_rec 0 8 97) true)) =
  Done (map stripped [set_rec 0 7 97 1]).
Proof.
  apply (wal_torn_segment true [set_rec 0 7 97 1] (del_rec 0 8 97) _ (drop 20 (encode_frame (del_rec 0 8 97) true))).
  - constructor; [by apply set_rec_ok, small_u64|constructor].
  - by apply del_rec_ok, small_u64.
  - by vm_compute.
  - by rewrite take_drop.
Defined.

Definition demo_entry (k v : Z) : StoredEntry := mkEntry [k] [v] (Some 90%Z) (Some [5%Z]).

Lemma demo_entry_ok k v : is_byte k → is_byte v → entry_ok (demo_entry k v).
Proof.
  intros. split; cbn.
  - by apply Forall_singleton.
  - by vm_compute.
  - by apply Forall_singleton.
  - by vm_compute.
  - intros g [= <-]. split; [apply Forall_singleton; unfold is_byte; lia|by vm_compute].
  - intros d [= <-]. unfold u64_MAX. lia.
Qed.

Lemma snapshot_roundtrip_witness :
  (∃ raw, write_snapshot_streaming [demo_entry 97 1; demo_entry 98 2] 7 = Done raw ∧
          decode_snapshot raw = Done (7%Z, [demo_entry 97 1; demo_entry 98 2])).
Proof.
  apply (snapshot_roundtrip [demo_entry 97 1; demo_entry 98 2] 7).
  - repeat apply Forall_cons_2; try apply demo_entry_ok; try apply Forall_nil_2; unfold is_byte; lia.
  - by apply small_u64.
  - by apply small_u64.
Defined.

Lemma snapshot_stream_witness :
  decode_stream collect_entry (snapshot_bytes [demo_entry 97 1] 7 ++ [0%Z]) [] = Err StreamTrailing ∧
  decode_snapshot (snapshot_bytes [demo_entry 97 1] 7 ++ [0%Z]) = Done (7%Z, [demo_entry 97 1]).
Proof.
  set (raw := snapshot_bytes [demo_entry 97 1] 7 ++ [0%Z]).
  assert (all_bytes raw) as Hraw.
  { apply Forall_app_2; [|apply Forall_singleton; unfold is_byte; lia].
    apply snapshot_bytes_bytes. repeat apply Forall_cons_2; try apply demo_entry_ok; try apply Forall_nil_2; unfold is_byte; lia. }
  pose proof (snapshot_stream_agrees collect_entry raw [] collect_entry_returns Hraw) as Ha.
  assert (decode_at raw = Done (7%Z, [demo_entry 97 1], 51)) as E by (by vm_compute).
  unfold decode_snapshot. rewrite E in *. destruct Ha as [_ ->]. by vm_compute.
Defined.

(** *** A run with two shards: three records, a flush, one more record *)
Definition demo_config : PersistenceConfig := mkConfig 4 1 1000 1 false 100.
Definition demo_clock (n : nat) : Z := 5%Z.

Lemma demo_start : start_ok ∅ (-1) [].
Proof.
  split; [done|by vm_compute| |lia]. intros m Hm. replace (paths ∅) with (@nil Bytes) in Hm by (by vm_compute).
  by apply elem_of_nil in Hm.
Qed.

Definition demo_events1 : list Event :=
  [EvAppend 0 (set_rec 0 7 97 1) 7; EvAppend 1 (set_rec 1 7 98 2) 7; EvPoll; EvPoll;
   EvAppend 0 (del_rec 0 8 97) 8; EvPoll].
Definition demo_events2 : list Event := [EvAppend 1 (set_rec 1 9 98 3) 9; EvPoll].
Definition demo_events : list Event := demo_events1 ++ EvFlushIfDue 9 :: demo_events2.

Lemma demo_events_ok : Forall event_ok demo_events.
Proof.
  unfold demo_events, demo_events1, demo_events2. cbn [app].
  repeat (apply Forall_cons_2; [cbn [event_ok]; try exact I; try (split; [done|]);
    first [by apply set_rec_ok, small_u64|by apply del_rec_ok, small_u64|idtac]|]); apply Forall_nil_2.
Qed.

(** What is left when nothing more than the synced bytes survives. *)
Definition crash_min (d : Disk) : Disk :=
  (λ f, mkFile (take (f_synced f) (f_content f)) (f_synced f)) <$> d.

Lemma crash_min_crash d :
  bool_decide (map_Forall (λ _ f, f_synced f ≤ length (f_content f)) d) = true → crash d (crash_min d).
Proof.
  intros Hd%bool_decide_eq_true n. unfold crash_min. rewrite lookup_fmap.
  destruct (d !! n) as [f|] eqn:E; [|done]. exists (f_synced f). split; [|done].
  split; [done|]. exact (Hd _ _ E).
Qed.

Definition demo_s0 : option Sys := sys_start demo_config ∅ 2 5.
Definition demo_wal (es : list Event) : option Sys :=
  s ← demo_s0; sys_run demo_config demo_clock None s es.

(** A decidable fact of the state a run reaches. *)
Lemma demo_check (P : Sys → bool) es s :
  Some s = demo_wal es → match demo_wal es with Some s => P s | None => false end = true → P s = true.
Proof. by intros <-. Qed.

Definition synced_inside (s : Sys) : bool :=
  bool_decide (map_Forall (λ _ f, f_synced f ≤ length (f_content f)) (ww_disk (s_writer s))).

Lemma demo_clock_ok n : is_u64 (demo_clock n).
Proof. by apply small_u64. Qed.

(** The last record is still in the writer's buffer: it is lost, the others
    are there. *)
Lemma crash_keeps_witness :
  ∃ s0 s log, demo_s0 = Some s0 ∧ sys_run demo_config demo_clock None s0 demo_events = Some s ∧
    read_all (crash_min (ww_disk (s_writer s))) = Done (map stripped log) ∧
    of_shard 0 log `prefix_of` [set_rec 0 7 97 1; del_rec 0 8 97].
Proof.
  destruct demo_s0 as [s0|] eqn:E0; [|by vm_compute in E0].
  destruct (sys_run demo_config demo_clock None s0 demo_events) as [s|] eqn:E.
  - assert (demo_wal demo_events = Some s) as Er by (unfold demo_wal; by rewrite E0).
    destruct (crash_keeps_prefixes demo_config demo_clock demo_clock_ok None ∅ (-1) [] demo_start 2 5
      ltac:(by apply small_u64) s0 E0 demo_events s (crash_min (ww_disk (s_writer s)))) as (log & Hl & Hp).
    + exact demo_events_ok.
    + by vm_compute.
    + exact E.
    + apply crash_min_crash. apply (demo_check synced_inside demo_events s); [done|by vm_compute].
    + exists s0, s, log. split_and!; [done|done|done|]. exact (Hp 0).
  - exfalso. assert (demo_wal demo_events = None) as Er by (unfold demo_wal; by rewrite E0). by vm_compute in Er.
Defined.

Lemma flush_durable_witness :
  ∃ s0 s1 s log1 log, demo_s0 = Some s0 ∧ sys_run demo_config demo_clock None s0 demo_events1 = Some s1 ∧
    sys_run demo_config demo_clock None s1 (EvFlushIfDue 9 :: demo_events2) = Some s ∧
    read_all (crash_min (ww_disk (s_writer s))) = Done (map stripped log) ∧ log1 `prefix_of` log ∧
    of_shard 0 log1 ++ default [] (flights s1 !! 0) = [set_rec 0 7 97 1; del_rec 0 8 97].
Proof.
  destruct demo_s0 as [s0|] eqn:E0; [|by vm_compute in E0].
  destruct (sys_run demo_config demo_clock None s0 demo_events1) as [s1|] eqn:E1.
  2:{ exfalso. assert (demo_wal demo_events1 = None) as Er by (unfold demo_wal; by rewrite E0). by vm_compute in Er. }
  assert (Some s1 = demo_wal demo_events1) as Er1 by (unfold demo_wal; by rewrite E0).
  destruct (sys_run demo_config demo_clock None s1 (EvFlushIfDue 9 :: demo_events2)) as [s|] eqn:E2.
  2:{ exfalso. assert (demo_wal demo_events = None) as Er; [|by vm_compute in Er].
      unfold demo_wal. rewrite E0. cbn [mbind option_bind]. unfold demo_events. by rewrite sys_run_app, E1. }
  assert (Some s = demo_wal demo_events) as Er.
  { unfold demo_wal. rewrite E0. cbn [mbind option_bind]. unfold demo_events. by rewrite sys_run_app, E1. }
  destruct (flush_is_durable demo_config demo_clock demo_clock_ok None ∅ (-1) [] demo_start 2 5
    ltac:(by apply small_u64) s0 E0 demo_events1 9 demo_events2 s1 s (crash_min (ww_disk (s_writer s))))
    as (log1 & log & Hl & Hpre & Hsh & _).
  - exact demo_events_ok.
  - by vm_compute.
  - exact E1.
  - pose proof (demo_check (λ s, match s_phase s with Running => true | _ => false end) _ _ Er1
      ltac:(by vm_compute)) as Hph. cbn in Hph. by destruct (s_phase s1).
  - apply (demo_check (λ s, flush_due demo_config (s_writer s) 9) _ _ Er1). by vm_compute.
  - exact E2.
  - apply crash_min_crash. apply (demo_check synced_inside demo_events s Er). by vm_compute.
  - exists s0, s1, s, log1, log. split_and!; [done..|]. exact (Hsh 0).
Defined.

Definition ready (s : Sys) : bool :=
  match s_phase s with Running => true | _ => false end && (length (s_channels s) =? 2) &&
  bool_decide (Forall (λ a, a_pending a = []) (s_appenders s)).

Lemma shutdown_witness :
  ∃ s0 s s', demo_s0 = Some s0 ∧ sys_run demo_config demo_clock None s0 demo_events = Some s ∧
    sys_run demo_config demo_clock None s (EvStop :: replicate 2 EvDrain ++ [EvEnd 20]) = Some s' ∧
    ∃ rs, read_all (crash_min (ww_disk (s_writer s'))) = Done rs ∧
          acc_entries (load_enabled None rs) !! [98%Z] = Some (mkEntry [98%Z] [3%Z] None None).
Proof.
  destruct demo_s0 as [s0|] eqn:E0; [|by vm_compute in E0].
  destruct (sys_run demo_config demo_clock None s0 demo_events) as [s|] eqn:E.
  2:{ exfalso. assert (demo_wal demo_events = None) as Er by (unfold demo_wal; by rewrite E0). by vm_compute in Er. }
  assert (Some s = demo_wal demo_events) as Er by (unfold demo_wal; by rewrite E0).
  assert (s_phase s = Running ∧ length (s_channels s) = 2 ∧ Forall (λ a, a_pending a = []) (s_appenders s))
    as (Hp & Hn & Hpend).
  { pose proof (demo_check ready demo_events s Er ltac:(by vm_compute)) as Hr. unfold ready in Hr.
    apply andb_true_iff in Hr as [Hr Hpend%bool_decide_eq_true]. apply andb_true_iff in Hr as [Hph Hn%Nat.eqb_eq].
    split_and!; [by destruct (s_phase s)|done|done]. }
  destruct (shutdown_recovers demo_config demo_clock demo_clock_ok None ∅ (-1) [] demo_start 2 5
    ltac:(by apply small_u64) s0 E0 demo_events s 20 [98%Z] 1) as (s' & Hr & _ & Hc).
  - exact demo_events_ok.
  - by vm_compute.
  - exact E.
  - exact Hp.
  - exact Hpend.
  - apply Forall_nil_2.
  - cbn [all_appended demo_events demo_events1 demo_events2 app omap list_omap].
    intros r. rewrite !elem_of_cons, elem_of_nil. by intros [->|[->|[->|[->|[]]]]].
  - rewrite Hn in Hr. exists s0, s, s'. split_and!; [done..|].
    destruct (Hc (crash_min (ww_disk (s_writer s')))) as (rs & Hrd & Hk).
    + apply crash_min_crash. apply (demo_check synced_inside (demo_events ++ EvStop :: replicate 2 EvDrain ++ [EvEnd 20]));
        [|by vm_compute]. unfold demo_wal. rewrite E0. cbn [mbind option_bind]. by rewrite sys_run_app, E.
    + exists rs. split; [done|]. rewrite Hk. by vm_compute.
Defined.

Lemma round_witness :
  ∃ s0 s s', demo_s0 = Some s0 ∧
    sys_run demo_config demo_clock None s0 [EvAppend 1 (set_rec 1 7 98 2) 7] = Some s ∧
    sys_run demo_config demo_clock None s (replicate 2 EvPoll) = Some s' ∧ ww_appends (s_writer s') = 1.
Proof.
  destruct demo_s0 as [s0|] eqn:E0; [|by vm_compute in E0].
  set (es := [EvAppend 1 (set_rec 1 7 98 2) 7]).
  destruct (sys_run demo_config demo_clock None s0 es) as [s|] eqn:E.
  2:{ exfalso. assert (demo_wal es = None) as Er by (unfold demo_wal; by rewrite E0). by vm_compute in Er. }
  assert (Some s = demo_wal es) as Er by (unfold demo_wal; by rewrite E0).
  assert (s_phase s = Running ∧ length (s_channels s) = 2 ∧ ww_receiver_index (s_writer s) = 0%Z) as (Hp & Hn & Hi).
  { pose proof (demo_check ready es s Er ltac:(by vm_compute)) as Hr. unfold ready in Hr.
    apply andb_true_iff in Hr as [Hr _]. apply andb_true_iff in Hr as [Hph Hn%Nat.eqb_eq].
    pose proof (demo_check (λ s, ww_receiver_index (s_writer s) =? 0)%Z es s Er ltac:(by vm_compute)) as Hi%Z.eqb_eq.
    split_and!; [by destruct (s_phase s)|done|done]. }
  destruct (round_serves_all demo_config demo_clock None s Hp ltac:(lia) ltac:(rewrite Hi, Hn; unfold two64; lia))
    as (s' & Hr & _ & _).
  rewrite Hn in Hr. exists s0, s, s'. split_and!; [done..|].
  apply Nat.eqb_eq, (demo_check (λ s, ww_appends (s_writer s) =? 1) (es ++ replicate 2 EvPoll)); [|by vm_compute].
  unfold demo_wal. rewrite E0. cbn [mbind option_bind]. by rewrite sys_run_app, E.
Defined.

Lemma append_bounded_witness :
  ∃ a', appender_append (mkAppender [] 0 4 1000 1 0) (mkChannel 1 [] false) (set_rec 0 7 97 1) 3 =
        Some (a', mkChannel 1 [] false, true) ∧ length (a_pending a') < 4.
Proof.
  eexists. split; [done|].
  apply (append_bounded (mkAppender [] 0 4 1000 1 0) (mkChannel 1 [] false) (set_rec 0 7 97 1) 3 _
    (mkChannel 1 [] false) true); [done|cbn; lia|cbn; lia].
Defined.

Lemma segments_witness :
  name_le (segment_name 9 500 false) (segment_name 10 3 true) ∧
  segment_sequence (segment_name 9 500 false) = Some 9%Z.
Proof.
  destruct (segments_in_order 9 10 500 3 false true ∅ (-1)) as (? & _ & ? & _); try (by apply small_u64); try lia.
  - apply (start_named _ _ _ demo_start).
  - unfold u64_MAX. lia.
  - done.
Defined.

(** *** A directory with two segments, the first one older than the snapshot *)
Definition log_file (rs : list MutationRecord) : File := mkFile (log_of false rs) (length (log_of false rs)).

Definition demo_old : list MutationRecord := map stripped [set_rec 0 3 97 1; set_rec 0 4 98 2].
Definition demo_new : list MutationRecord := map stripped [set_rec 0 8 97 9].
Definition demo_dir : Disk :=
  {[ segment_name 0 1 false := log_file demo_old; segment_name 1 1 false := log_file demo_new ]}.
Definition demo_snap : list StoredEntry := [mkEntry [98%Z] [2%Z] None None; mkEntry [97%Z] [1%Z] None None].

Lemma demo_snapshot_of ts :
  (ts ≤ 8)%Z → snapshot_of ∅ (demo_old ++ demo_new) (mkLoaded ts demo_snap).
Proof.
  intros Hts k. exists (key_log k demo_old), (key_log k demo_new). split_and!.
  - apply filter_app.
  - cbn [snap_entries]. rewrite <-state_after_lookup. by f_equal.
  - apply Forall_forall. intros r [_ Hr]%list_elem_of_filter. apply list_elem_of_singleton in Hr as ->.
    unfold current. cbn. lia.
Qed.

Lemma demo_in_order k : in_order (key_log k (demo_old ++ demo_new)).
Proof.
  apply strongly_sorted_filter. cbn. repeat (apply SSorted_cons; [|repeat apply Forall_cons_2; try apply Forall_nil_2; cbn; lia]).
  apply SSorted_nil.
Qed.

Lemma demo_dir_no_snapshot m t : is_Some (demo_dir !! m) → snapshot_timestamp m = Some t → False.
Proof.
  intros [f Hf] Ht.
  assert (bool_decide (map_Forall (λ m _, snapshot_timestamp m = None) demo_dir) = true) as Hd by (by vm_compute).
  apply bool_decide_eq_true in Hd.
  specialize (Hd m f Hf). cbn in Hd. congruence.
Qed.

Lemma demo_snap_nodup : NoDup (e_key <$> demo_snap).
Proof. apply (bool_decide_unpack _). by vm_compute. Qed.

Lemma plain_entry_ok k v : is_byte k → is_byte v → entry_ok (mkEntry [k] [v] None None).
Proof. intros Hk Hv. split; cbn; try done; by apply Forall_singleton. Qed.

Lemma demo_snap_ok : Forall entry_ok demo_snap.
Proof.
  unfold demo_snap. apply Forall_cons_2; [apply plain_entry_ok; unfold is_byte; lia|].
  apply Forall_singleton. apply plain_entry_ok; unfold is_byte; lia.
Qed.

(** The result of a computation that is known to return. *)
Definition done_or {E A} (o : Outcome E A) (a : A) : A := match o with Done x => x | _ => a end.
Definition is_done {E A} (o : Outcome E A) : bool := match o with Done _ => true | _ => false end.

Lemma is_done_eq {E A} (o : Outcome E A) a : is_done o = true → o = Done (done_or o a).
Proof. by destruct o. Qed.

Definition demo_snapped (compress : bool) : Disk :=
  done_or (runtime_snapshot true compress demo_dir demo_snap 5) ∅.

Lemma snapshot_recovers_witness :
  ∃ acc, runtime_snapshot true true demo_dir demo_snap 5 = Done (demo_snapped true) ∧
    recover true (demo_snapped true) (elements (dom (demo_snapped true))) = Done acc ∧
    acc_entries acc = {[ [97%Z] := mkEntry [97%Z] [9%Z] None None; [98%Z] := mkEntry [98%Z] [2%Z] None None ]}.
Proof.
  assert (runtime_snapshot true true demo_dir demo_snap 5 = Done (demo_snapped true)) as E
    by (apply is_done_eq; by vm_compute).
  destruct (snapshot_recovers true demo_dir (demo_old ++ demo_new) ∅ demo_snap 5 (demo_snapped true)
    (elements (dom (demo_snapped true)))) as (acc & Hacc & Hs).
  - by vm_compute.
  - repeat (apply Forall_cons_2; [done|]). apply Forall_nil_2.
  - exact demo_snap_ok.
  - by apply small_u64.
  - by apply small_u64.
  - exact demo_snap_nodup.
  - exact demo_in_order.
  - apply demo_snapshot_of. lia.
  - intros m t Hm Ht. by destruct (demo_dir_no_snapshot m t Hm Ht).
  - exact E.
  - apply Permutation_refl.
  - exists acc. split; [exact E|]. split; [exact Hacc|]. rewrite Hs. by vm_compute.
Defined.

Lemma replay_witness :
  acc_entries (load_enabled (Some (mkLoaded 4 demo_snap)) (demo_old ++ demo_new)) =
  {[ [97%Z] := mkEntry [97%Z] [9%Z] None None; [98%Z] := mkEntry [98%Z] [2%Z] None None ]}.
Proof.
  etrans; [apply (replay_is_idempotent ∅); [exact demo_in_order|apply demo_snapshot_of; lia]|]. by vm_compute.
Defined.

(** ** Where the guarantees end *)

(** Pruning removes records of exactly the snapshot's time, replay would still
    apply them: a mutation of that millisecond that the snapshot missed is
    gone once its segment is pruned. *)
Theorem prune_drops_boundary :
  let d : Disk := {[ segment_name 0 1 false := log_file demo_new; segment_name 1 1 false := log_file [] ]} in
  match snapshot_write d [] 8 CompressNone, runtime_snapshot true false d [] 8 with
  | Done d1, Done d2 =>
      (λ acc, acc_entries acc !! [97%Z]) <$> recover true d1 (elements (dom d1)) =
        Done (Some (mkEntry [97%Z] [9%Z] None None)) ∧
      (λ acc, acc_entries acc !! [97%Z]) <$> recover true d2 (elements (dom d2)) = Done None
  | _, _ => False
  end.
Proof. by vm_compute. Qed.

(** The snapshot that is not streamed is not synced before the log is pruned:
    after a crash that loses unsynced bytes the segment is gone, the snapshot
    is empty and recovery fails. *)
Theorem snapshot_unsynced_crash :
  runtime_snapshot true false demo_dir demo_snap 5 = Done (demo_snapped false) ∧
  crash (demo_snapped false) (crash_min (demo_snapped false)) ∧
  demo_snapped false !! segment_name 0 1 false = None ∧
  recover true (crash_min (demo_snapped false)) (elements (dom (demo_snapped false))) =
    Err (PSnapshot HeaderTruncated).
Proof.
  split; [apply is_done_eq; by vm_compute|]. split; [apply crash_min_crash; by vm_compute|].
  split; by vm_compute.
Qed.

(** A delete or an expiry that carries governance is written with bytes that
    the reader does not expect: the log of a governed delete does not decode. *)
Theorem governed_delete_unreadable :
  decode_records (log_of false [mkRecord 0 1 7 OpDel [97%Z] [] None (Some [5%Z])]) = Err TruncatedPayload.
Proof. by vm_compute. Qed.
